(* ===== verification/_CoqProject ===== *)
-Q . S2P
Prelude.v
Outcomes.v
WordArena.v
BitVec.v
Symbols.v
TokenSet.v
Ordering.v
Lookaheads.v
StrPool.v
Rules.v
RuleTrees.v
CharSet.v
Nfa.v
Dedup.v
Grammars.v
Items.v
ItemSets.v
FirstSets.v
FollowSets.v
Additions.v
Closure.v
Tables.v
BuildTable.v
BuildConflicts.v
BuildStates.v
BuildClosure.v
BuildInputs.v
BuildVerdicts.v
BuildGoto.v
BuildScan.v
BuildActions.v
BuildResolve.v
BuildState.v
BuildTurn.v
BuildQueue.v
BuildFirst.v
BuildCorrect.v
TokenConflicts.v
LexTable.v
LexMinimize.v
Minimize.v
MinimizeStates.v
MinimizeConflicts.v
MinimizeGroups.v
MinimizeMerge.v
MinimizeUnit.v
LexBuild.v
TablePasses.v
PassQueries.v
ErrorState.v
UsedSymbols.v
ExternalStates.v
Keywords.v
FollowingTokens.v
BuildTables.v
Validate.v
Flatten.v
ZeroWidth.v
RepeatLanguage.v
ExpandRepeats.v
ExpandCorrect.v
