(* ===== verification/Prelude.v ===== *)
(** * tree-sitter's grammar generator, verified in Rocq

    The development models the pure core of the parser generator,
    [crates/generate/src]: its data structures, the passes that prepare a
    grammar, the closure of item sets, the construction and the minimization of the
    parse table and the construction of the lex tables.  File names below are
    relative to that directory of the sources.

    ** The program

    A grammar is read into a pool of rules ([rules.rs]) whose names are interned
    ([strpool.rs]).  [prepare_grammar.rs] validates it and turns it, pass by
    pass, into a syntax grammar of productions and a lexical grammar whose
    tokens are states of an NFA ([grammars.rs], [nfa.rs]).  [build_tables] then
    computes which tokens conflict, builds the parse table, whose states are
    closures of item sets ([item.rs], [item_set_builder.rs]) and whose action
    lists are kept in a pool ([tables.rs]), and the lex table: the parse states' sets of
    tokens are merged and determinized, the table minimized by refining a
    partition ([dedup.rs]).  Sets of tokens and other bit matrices live in bit
    vectors over an arena of words ([bitvec.rs]).

    ** The files

    - [Prelude] (this file): the result type of fallible code, machine integers,
      indexing, tactics and the lemmas on lists, maps and sorting shared by all.
    - [WordArena], [BitVec], [TokenSet] ([bitvec.rs], [TokenSet] of [rules.rs]):
      the allocator with its memory, the bit vectors, the iterator over set bits,
      and the sets of tokens.  [WordArena.inv] says what clients may assume of a
      block, which is why a bit vector can be a value in the files above it.
    - [Symbols], [Rules], [RuleTrees] ([rules.rs]): symbols and metadata, the
      rule pool with its operations and walks, and the trees that rule ids
      denote; [RuleTrees.denotes] is the abstraction against which every pass
      over rules is specified.
    - [Ordering]: derived comparisons as total orders, sorting and searching with
      a comparison that may panic.
    - [Lookaheads] ([LookaheadSetPool] of [build_tables/item.rs]): interned
      lookahead sets.
    - [StrPool] ([strpool.rs]): the string interner.
    - [CharSet], [Nfa] ([nfa.rs]): character sets as sorted ranges; the cursor,
      its closure and its grouped transitions.
    - [Grammars] ([grammars.rs]): the grammar records, packed production steps,
      pooled productions, the owner of an NFA state.
    - [Items] ([build_tables/item.rs]): the keys of items, their comparisons and
      hashes, item sets.
    - [ItemSets] ([build_tables/item_set_builder.rs]): the builder of item sets.
      [FirstSets]: its FIRST and LAST sets.  [FollowSets]: what can follow the
      variables at the beginning of a variable.  [Additions]: the items that every
      variable adds.  [Closure]: the closure of an item set.
    - [Tables] ([tables.rs]): parse states, action lists and their pool.
    - [Outcomes]: rules for fallible code, with a postcondition for the result and
      one for the error.
    - [BuildTable] ([build_tables/build_parse_table.rs]): the builder of the parse
      table.  [BuildConflicts]: comparing precedences.  [BuildStates]: the numbering of states.
      [BuildClosure], [BuildInputs]: what the builder needs of the grammar, and the
      closures of its item sets.  [BuildVerdicts]: the specification of what becomes of
      a conflict.  [BuildGoto], [BuildScan], [BuildActions],
      [BuildResolve], [BuildState]: advancing items, reductions, shifts and gotos,
      conflicts, and the specification [state_right] of one state.  [BuildTurn],
      [BuildQueue]: filling in a state, and working off the queue.  [BuildFirst],
      [BuildCorrect]: the first states, and the whole table.
    - [Dedup] ([dedup.rs]): the refinement pass.
    - [Minimize] ([build_tables/minimize_parse_table.rs]): the passes that minimize
      the parse table.  [MinimizeStates]: removing and sorting states.
      [MinimizeConflicts], [MinimizeGroups], [MinimizeMerge]: lexical conflicts, the
      groups of compatible states, and merging them.  [MinimizeUnit]: skipping unit
      reductions.
    - [TokenConflicts] ([build_tables/token_conflicts.rs],
      [build_tables/coincident_tokens.rs]).
    - [LexTable], [LexMinimize], [LexBuild] ([build_tables/build_lex_table.rs]):
      determinization; merging of token sets, minimization and sorting; the
      whole pass.
    - [TablePasses] ([build_tables.rs]): the passes between the parse table and its
      minimization, and after it.  [PassQueries]: their queries of the conflict map.
      [FollowingTokens], [Keywords], [ErrorState], [UsedSymbols], [ExternalStates]: what
      each pass computes.  [BuildTables]: all of them in a row, from the grammar to the
      tables, which can be run on an example.
    - [Validate] ([prepare_grammar.rs]): the two checks of an input grammar.
    - [ZeroWidth] ([prepare_grammar/expand_repeats.rs]): which rules can match
      nothing.
    - [RepeatLanguage], [ExpandRepeats], [ExpandCorrect] (same file): what a rule
      derives, in any monoid, with repetitions; the pass; that it keeps it.
    - [Flatten] ([prepare_grammar/flatten_grammar.rs]): rules become productions.

    A definition has the name of the Rust item it translates where that is
    possible; a loop of a function has a definition of its own, named after what
    it does, and the function calls it.  A [struct] is a record, an [enum] an
    inductive type, a [&mut] argument an argument and a result.

    ** How code is modelled

    [outcome E A] is the result of code that can return an error ([Err]), panic
    ([Panic]: an index out of range, an [unwrap] of nothing, [unreachable!]) or
    run out of the fuel of a loop ([OutOfFuel]).  No theorem leaves the last two
    open: each states the fuel that is enough and that the result is [Ok], or
    says exactly when it is [Err] or [Panic].  The fuel is an argument, and the
    bound is that of the loop: the size of the tree for a walk over a rule, the
    number of sets of NFA states for determinization, the number of states for
    a refinement, the length of the longest chain for unit reductions, twice the number of variables for the zero widths, the number of
    variables for FIRST and LAST sets, and the sum of the sizes that all follow
    sets can reach, for every production, for the follow sets.  Integers
    are [N] or [Z] with the wrap-around of their width written out
    ([wrap_u32] and its relatives), or [nat] for lengths and positions, where
    the theorems that narrow them have the bound as a hypothesis.  A [Vec] is a
    list; a stack is a list whose head is the top; a hash map that is only
    looked up is a [gmap]; one whose order matters is an association list.

    Code that is not part of the repository is a parameter: [hashbrown]'s table
    ([StrPool.HashTable], a class with the laws of its documentation and an
    instance that shows they can hold), the hash functions (arbitrary), and
    [indexmap]'s map in [Validate] and its set in [Lookaheads], and the order of
    iteration of a hash map ([MapIter] in [ItemSets]).  The order in which an unstable
    sort leaves equal elements is one too ([UnstableSort] in [Minimize]), and
    [char::is_alphabetic], a table of the standard library ([TablePasses]).  Debug assertions, log
    messages, [Debug] printers and the reuse of scratch buffers are not modelled.

    ** What is proved

    - Storage: blocks of the arena are disjoint, zeroed and keep their contents;
      bit vectors and token sets implement the set operations; the string pool
      gives back what was interned, with one id per string; action lists are
      interned and canonicalized without changing their meaning; packed
      production steps lose nothing.
    - Rules: structural equality and hashing are functions of the denoted trees;
      [choice] flattens and removes duplicates.
    - Lexing: character sets implement set algebra on canonical representations;
      the NFA cursor computes closures and disjoint transitions; the table builder
      determinizes the NFA, with the transitions that preferences leave written out
      ([LexTable.lex_move]); minimization merges exactly the states that are
      bisimilar with identical lists of actions, which need not give the smallest
      table, since the same moves can be listed by different character sets; and
      [build_lex_table] composes these: every parse state gets a state that lexes
      as the NFA does from a set of tokens that contains the state's own.
    - Preparation: an error of the checks is a real cycle or a real conflict of
      precedence, truly reported, and one is found for every cycle through names under
      alternatives and metadata, for every conflict of orderings where nothing between the two entries
      sorts before the first, and for every undeclared precedence outside reserved
      words; what they miss is shown by examples; the zero-width passes end in the least
      solution; expanding repetitions keeps what every variable derives and fails
      exactly on a repetition that can match the end of the input only; flattening
      gives exactly the productions that the rules derive.
    - Items: the precomputed keys order, equate and hash items as their contents
      do; FIRST and LAST sets are the tokens at the borders of derivations; the
      closure of an item set is LR(1) closure, with exactly the tokens that can
      follow each item.  The reserved words that follow an item are computed by
      the same steps; no theorem is about them.
    - The parse table: building it ends, since every turn fills in a state and
      states are numbered by 32-bit integers, which the theorem assumes to be enough;
      every state has the gotos, extras and reserved words that the LR(1) closure of its
      items calls for, and of the reductions and the shift on a token those that
      precedence and associativity leave ([BuildVerdicts.survivors] and
      [BuildVerdicts.resolves]), several only for a repetition or when the exact set of
      rules in conflict is expected; an error names a conflict set that is not expected, or an extra rule
      that is ambiguous or improper.  [BuildInputs.table_inputs] states what is asked of
      the grammar: a start rule may match nothing, and an extra rule with an empty production, on
      which the code panics, is left out.  Comparing precedences is a reference order.
      Each pass of the minimizer is a renaming of states.  Merging
      loses no action of any state and adds tokens only where no conflict is found;
      unit reductions are followed to their end; unused states are those no state
      refers to; the error and the start state stay first.
    - Conflicts: the matrices agree with the pairwise statuses; preference is a
      strict total order.
    - Passes: the terminals that can follow a terminal, the keywords, the tokens that the
      error state recovers on, the symbols in use, the states of the external
      scanner and the tokens that cannot be reused are the sets that the comments of the
      code describe, as far as the conflict map tells.

    ** Not modelled

    [node_types.rs], [render.rs], [generate.rs], [parse_grammar.rs] and the
    JavaScript engine produce text or JSON, or read files.
    [prepare_grammar/expand_tokens.rs] works on the syntax trees of the
    [regex_syntax] crate.  The other crates (command line, loader,
    highlighting, tags, bindings of the C runtime, build tasks) are wrappers over
    the C runtime, files and processes.  Of the generator's own passes, symbol
    interning, token extraction, inlining and default aliases are the next to
    model. *)

From stdpp Require Export base tactics numbers option list list_numbers
  fin_maps gmap gmultiset sets strings sorting pretty.
From Stdlib Require Export Lia NArith ZArith.

#[global] Set Default Goal Selector "!".

#[global] Arguments Nat.ltb : simpl never.
#[global] Arguments Nat.leb : simpl never.
#[global] Arguments N.div : simpl never.
#[global] Arguments N.modulo : simpl never.

(** ** Outcomes

    [Ok] and [Err] are the two arms of a Rust [Result]; [Panic] is a Rust
    panic (an index out of bounds, an [unwrap] of [None], [unreachable!]);
    [OutOfFuel] says that a bounded loop of the model used up its fuel, which
    stands for a source loop that has not ended yet.  The four are kept apart
    so that a theorem can say which of them a piece of code can produce. *)
Inductive outcome (E A : Type) : Type :=
  | Ok (a : A)
  | Err (e : E)
  | Panic
  | OutOfFuel.
Arguments Ok {E A} a.
Arguments Err {E A} e.
Arguments Panic {E A}.
Arguments OutOfFuel {E A}.

#[global] Instance outcome_ret E : MRet (outcome E) := λ A a, Ok a.
#[global] Instance outcome_bind E : MBind (outcome E) := λ A B f m,
  match m with
  | Ok a => f a
  | Err e => Err e
  | Panic => Panic
  | OutOfFuel => OutOfFuel
  end.
#[global] Instance outcome_fmap E : FMap (outcome E) := λ A B f m,
  match m with
  | Ok a => Ok (f a)
  | Err e => Err e
  | Panic => Panic
  | OutOfFuel => OutOfFuel
  end.
#[global] Instance outcome_eq_dec E A `{EqDecision E, EqDecision A} :
  EqDecision (outcome E A).
Proof. solve_decision. Defined.

(** [Option::unwrap]. *)
Definition unwrap {E A} (o : option A) : outcome E A :=
  match o with Some a => Ok a | None => Panic end.

(** [v[i]] as an expression: a panic when [i] is out of range. *)
Definition vec_get {E A} (l : list A) (i : nat) : outcome E A := unwrap (l !! i).

(** [v[i] = x]: a panic when [i] is out of range. *)
Definition vec_set {E A} (l : list A) (i : nat) (x : A) : outcome E (list A) :=
  if decide (i < length l) then Ok (<[i := x]> l) else Panic.

(** [map_err]. *)
Definition map_err {E E' A} (f : E → E') (m : outcome E A) : outcome E' A :=
  match m with
  | Ok a => Ok a
  | Err e => Err (f e)
  | Panic => Panic
  | OutOfFuel => OutOfFuel
  end.

(** ** Machine integers: [u32] and [u64] values are [N]s below the bound, and
    the casts and the arithmetic of the source wrap explicitly. *)
Definition U32 : N := 4294967296.
Definition U64 : N := 18446744073709551616.
Definition wrap_u32 (n : N) : N := (n mod U32)%N.
Definition as_u32 (n : nat) : N := wrap_u32 (N.of_nat n).

Lemma wrap_u32_small n : (n < U32)%N → wrap_u32 n = n.
Proof. intros. by apply N.mod_small. Qed.
Lemma wrap_u32_lt n : (wrap_u32 n < U32)%N.
Proof. by apply N.mod_lt. Qed.
Lemma as_u32_small n : (N.of_nat n < U32)%N → N.to_nat (as_u32 n) = n.
Proof. intros. unfold as_u32. rewrite wrap_u32_small by done. lia. Qed.

(** ** The hint database and the tactics of the development *)
Create HintDb tsg.

Lemma bind_Ok_inv {E A B} (m : outcome E A) (f : A → outcome E B) b :
  m ≫= f = Ok b → ∃ a, m = Ok a ∧ f a = Ok b.
Proof. destruct m; cbn; naive_solver. Qed.
Lemma fmap_Ok_inv {E A B} (m : outcome E A) (f : A → B) b :
  f <$> m = Ok b → ∃ a, m = Ok a ∧ f a = b.
Proof. destruct m; cbn; naive_solver. Qed.
Lemma unwrap_Ok {E A} (o : option A) a : unwrap (E:=E) o = Ok a ↔ o = Some a.
Proof. destruct o; cbn; naive_solver. Qed.
Lemma vec_get_Ok {E A} (l : list A) i a : vec_get (E:=E) l i = Ok a ↔ l !! i = Some a.
Proof. apply unwrap_Ok. Qed.
Lemma vec_get_Some {E A} (l : list A) i a : l !! i = Some a → vec_get (E:=E) l i = Ok a.
Proof. apply vec_get_Ok. Qed.
Lemma vec_set_lt {E A} (l : list A) i x :
  i < length l → vec_set (E:=E) l i x = Ok (<[i:=x]> l).
Proof. unfold vec_set. by case_decide. Qed.
Lemma vec_set_Ok {E A} (l l' : list A) i x :
  vec_set (E:=E) l i x = Ok l' ↔ i < length l ∧ l' = <[i:=x]> l.
Proof. unfold vec_set. case_decide; naive_solver. Qed.

Lemma mapM_Ok {E A B} (f : A → outcome E B) g l : (∀ x, x ∈ l → f x = Ok (g x)) → mapM f l = Ok (map g l).
Proof.
  induction l as [|x l IH]; intros Hf; cbn; [done|]. rewrite Hf by apply list_elem_of_here. cbn.
  rewrite IH; [done|]. intros. apply Hf. by apply list_elem_of_further.
Qed.

(** A [for] loop whose body may panic. *)
Fixpoint for_each {E A St} (f : St → A → outcome E St) (st : St) (l : list A) : outcome E St :=
  match l with
  | [] => Ok st
  | x :: l => st ← f st x; for_each f st l
  end.
(** An invariant of the elements done and the state. *)
Lemma for_each_inv {E A St} (f : St → A → outcome E St) (P : list A → St → Prop) l st :
  P [] st → (∀ d x r st, l = d ++ x :: r → P d st → ∃ st', f st x = Ok st' ∧ P (d ++ [x]) st') →
  ∃ st', for_each f st l = Ok st' ∧ P l st'.
Proof.
  assert (∀ r d st, l = d ++ r → P d st →
    (∀ d x r st, l = d ++ x :: r → P d st → ∃ st', f st x = Ok st' ∧ P (d ++ [x]) st') →
    ∃ st', for_each f st r = Ok st' ∧ P l st') as Hgen; [|intros; by apply (Hgen l [])].
  induction r as [|x r IH]; intros d s -> HP Hf; cbn; [rewrite List.app_nil_r; eauto|].
  destruct (Hf d x r s eq_refl HP) as (s' & -> & HP'). cbn. apply (IH (d ++ [x])); [by rewrite <- (assoc_L (++))|done|done].
Qed.

Lemma for_each_ext {E A St} (f f' : St → A → outcome E St) st l :
  (∀ st x, x ∈ l → f st x = f' st x) → for_each f st l = for_each f' st l.
Proof.
  revert st. induction l as [|x l IH]; intros st Hf; cbn; [done|]. rewrite Hf by apply list_elem_of_here.
  destruct (f' st x); cbn; try done. apply IH. intros. apply Hf. by apply list_elem_of_further.
Qed.
Lemma for_each_map {E A B St} (f : St → B → outcome E St) (h : A → B) st l :
  for_each f st (map h l) = for_each (λ st x, f st (h x)) st l.
Proof. revert st. induction l as [|x l IH]; intros st; cbn; [done|]. destruct (f st (h x)); cbn; auto. Qed.
Lemma for_each_app {E A St} (f : St → A → outcome E St) st l k :
  for_each f st (l ++ k) = (st ← for_each f st l; for_each f st k).
Proof. revert st. induction l as [|x l IH]; intros st; cbn; [done|]. destruct (f st x); cbn; auto. Qed.
Lemma for_each_concat {E A St} (f : St → A → outcome E St) st ls :
  for_each f st (concat ls) = for_each (for_each f) st ls.
Proof.
  revert st. induction ls as [|l ls IH]; intros st; cbn; [done|]. rewrite for_each_app.
  destruct (for_each f st l); cbn; auto.
Qed.

(** [inv_ok] turns every [_ = Ok _] hypothesis about a bind, an index or an
    [unwrap] into what it says. *)
Ltac inv_ok :=
  repeat match goal with
  | H : _ ≫= _ = Ok _ |- _ =>
      let a := fresh "a" in let Ha := fresh H in
      apply bind_Ok_inv in H; destruct H as (a & Ha & H)
  | H : _ <$> _ = Ok _ |- _ =>
      let a := fresh "a" in let Ha := fresh H in
      apply fmap_Ok_inv in H; destruct H as (a & Ha & H)
  | H : vec_get _ _ = Ok _ |- _ => apply vec_get_Ok in H
  | H : unwrap _ = Ok _ |- _ => apply unwrap_Ok in H
  | H : vec_set _ _ _ = Ok _ |- _ =>
      let H' := fresh H in apply vec_set_Ok in H; destruct H as [H' H]
  | H : Ok _ = Ok _ |- _ => injection H as H
  | H : mret _ = Ok _ |- _ => unfold mret, outcome_ret in H
  | H : Err _ = Ok _ |- _ => discriminate H
  | H : Panic = Ok _ |- _ => discriminate H
  | H : OutOfFuel = Ok _ |- _ => discriminate H
  end; simplify_eq.

(** Opens every existential and every conjunction of the context. *)
Ltac destr_ex :=
  repeat match goal with
  | H : ∃ _, _ |- _ => destruct H
  | H : _ ∧ _ |- _ => destruct H
  end.

(** [nlia] is [lia] with division and remainder by constants. *)
Ltac nlia := Zify.zify; Z.to_euclidean_division_equations; lia.

(** ** Lists *)
Lemma exists_last_or_nil {A} (l : list A) : l = [] ∨ ∃ k x, l = k ++ [x].
Proof. destruct l using rev_ind; [by left|]. right. eauto. Qed.
Lemma elem_of_map {A B} (f : A → B) (l : list A) y : y ∈ map f l ↔ ∃ x, y = f x ∧ x ∈ l.
Proof. exact (list_elem_of_fmap f l y). Qed.

(** [slice::binary_search_by], as the standard library does it: [inl] is the
    index of an element that compares equal, [inr] the insertion point. *)
Fixpoint bsearch_loop {A} (fuel : nat) (f : A → comparison) (l : list A) (base size : nat) : nat :=
  match fuel with
  | O => base
  | S fuel =>
      if Nat.leb size 1 then base
      else let half := Nat.div2 size in
           let mid := base + half in
           let base := match l !! mid with
                       | Some x => match f x with Gt => base | _ => mid end
                       | None => base
                       end in
           bsearch_loop fuel f l base (size - half)
  end.
Definition binary_search_by {A} (f : A → comparison) (l : list A) : nat + nat :=
  match l with
  | [] => inr 0
  | _ =>
      let base := bsearch_loop (length l) f l 0 (length l) in
      match f <$> l !! base with
      | Some Eq => inl base
      | Some Lt => inr (S base)
      | _ => inr base
      end
  end.

(** The slice is sorted for [f]: a run of [Lt], then [Eq], then [Gt]. *)
Definition cmp_code (c : comparison) : nat := match c with Lt => 0 | Eq => 1 | Gt => 2 end.
Definition bsearch_sorted {A} (f : A → comparison) (l : list A) : Prop :=
  ∀ i j x y, l !! i = Some x → l !! j = Some y → i ≤ j → cmp_code (f x) ≤ cmp_code (f y).

Lemma bsearch_loop_spec {A} fuel (f : A → comparison) l base size :
  bsearch_sorted f l → size ≤ fuel → 0 < size → base + size ≤ length l →
  (∀ j x, l !! j = Some x → base + size ≤ j → f x = Gt) →
  (base = 0 ∨ ∃ x, l !! base = Some x ∧ f x ≠ Gt) →
  let r := bsearch_loop fuel f l base size in
  r < length l ∧ (∀ j x, l !! j = Some x → r < j → f x = Gt) ∧
  (r = 0 ∨ ∃ x, l !! r = Some x ∧ f x ≠ Gt).
Proof.
  intros Hs. revert base size. induction fuel as [|fuel IH]; intros base size Hf H0 Hle Hgt Hbase; [lia|].
  cbn. destruct (Nat.leb_spec size 1) as [H1|H1].
  { split_and!; [lia| |done]. intros j x Hj ?. apply (Hgt j x Hj). lia. }
  pose proof (Nat.div2_div size) as Hd. rewrite Hd.
  assert (0 < size `div` 2 < size ∧ 2 * (size `div` 2) ≤ size) as Hhalf by nlia.
  destruct (l !! (base + size `div` 2)) as [x|] eqn:Hx; [|apply lookup_ge_None in Hx; lia].
  assert (f x = Gt ∨ f x ≠ Gt) as [Hc|Hc] by (destruct (f x); auto).
  - rewrite Hc. apply IH; [lia..| |done].
    intros j y Hj Hge. pose proof (Hs (base + size `div` 2) j x y Hx Hj ltac:(lia)) as Hle'. rewrite Hc in Hle'.
    revert Hle'. destruct (f y); cbn; (lia || done).
  - assert (match f x with Gt => base | _ => base + size `div` 2 end = base + size `div` 2) as ->
      by by destruct (f x).
    apply IH; [lia..| |right; by exists x].
    intros j y Hj Hge. apply (Hgt j y Hj). lia.
Qed.

(** On a sorted slice the result is the last element that is not above, or
    the insertion point. *)
Lemma binary_search_by_spec {A} (f : A → comparison) l :
  bsearch_sorted f l →
  match binary_search_by f l with
  | inl i => ∃ x, l !! i = Some x ∧ f x = Eq
  | inr i => i ≤ length l ∧ (∀ j x, l !! j = Some x → (j < i → f x = Lt) ∧ (i ≤ j → f x = Gt))
  end.
Proof.
  intros Hs. destruct (decide (l = [])) as [->|Hne]; [cbn; split; [lia|]; intros j x; by rewrite lookup_nil|].
  assert (0 < length l) as Hlen by (destruct l; [done|cbn; lia]).
  assert (binary_search_by f l = let base := bsearch_loop (length l) f l 0 (length l) in
    match f <$> l !! base with Some Eq => inl base | Some Lt => inr (S base) | _ => inr base end) as ->
    by by destruct l.
  destruct (bsearch_loop_spec (length l) f l 0 (length l) Hs) as (Hr & Hgt & Hb); [lia..| |by left|].
  { intros j x Hj%lookup_lt_Some ?. lia. }
  set (r := bsearch_loop (length l) f l 0 (length l)) in *. clearbody r. cbn.
  destruct (lookup_lt_is_Some_2 l r Hr) as [x Hx]. rewrite Hx. cbn. destruct (f x) eqn:Hc.
  - eauto.
  - split; [lia|]. intros j y Hj. split; intros Hlt.
    + pose proof (Hs j r y x Hj Hx ltac:(lia)) as Hle. rewrite Hc in Hle.
      revert Hle. destruct (f y); cbn; (lia || done).
    + apply (Hgt j y Hj). lia.
  - destruct Hb as [Hb|(x' & Hx' & ?)]; [|congruence]. rewrite Hb in *. split; [lia|].
    intros j y Hj. split; [lia|]. intros _. destruct j as [|j]; [congruence|]. apply (Hgt (S j) y Hj). lia.
Qed.

(** ** Vectors

    [Vec::insert], [Vec::remove] and [Vec::swap_remove], at an index in range. *)
Definition vec_insert {A} (i : nat) (x : A) (l : list A) : list A := take i l ++ x :: drop i l.
Definition vec_remove {A} (i : nat) (l : list A) : list A := delete i l.
Definition swap_remove {A} (i : nat) (l : list A) : list A :=
  match last l with
  | Some x => take (length l - 1) (<[i := x]> l)
  | None => l
  end.

Lemma vec_insert_perm {A} i (x : A) l : vec_insert i x l ≡ₚ x :: l.
Proof. unfold vec_insert. by rewrite <- Permutation_middle, take_drop. Qed.
Lemma swap_remove_perm {A} i (x : A) l : l !! i = Some x → l ≡ₚ x :: swap_remove i l.
Proof.
  intros Hi. destruct (exists_last_or_nil l) as [->|(k & y & ->)]; [done|].
  unfold swap_remove. rewrite last_snoc, length_app. cbn. rewrite Nat.add_sub.
  destruct (decide (i = length k)) as [->|Hne].
  - rewrite list_lookup_middle in Hi by done. simplify_eq.
    rewrite list_insert_id by by apply list_lookup_middle. rewrite take_app_length. by rewrite Permutation_app_comm.
  - assert (i < length k) as Hlt by (apply lookup_lt_Some in Hi; rewrite length_app in Hi; cbn in Hi; lia).
    rewrite insert_app_l by done. rewrite <- (length_insert k i y), take_app_length.
    rewrite lookup_app_l in Hi by done.
    rewrite insert_take_drop by done. rewrite <- (take_drop_middle _ _ _ Hi) at 1.
    rewrite <- (assoc_L (++)). cbn. rewrite <- !Permutation_middle. apply perm_skip.
    by rewrite List.app_nil_r.
Qed.

(** Index loops at the boundary between a finished prefix and the rest. *)
Section mid.
Context {A : Type}.
Implicit Types d l : list A.
Lemma lookup_mid d x l : (d ++ x :: l) !! length d = Some x.
Proof. by apply list_lookup_middle. Qed.
Lemma lookup_end d : (d ++ []) !! length d = None.
Proof. apply lookup_ge_None. rewrite List.app_nil_r. lia. Qed.
Lemma lookup_mid_S d x l : (d ++ x :: l) !! S (length d) = l !! 0.
Proof. rewrite lookup_app_r by lia. by rewrite Nat.sub_succ_l, Nat.sub_diag by lia. Qed.
Lemma insert_mid d x y l : <[length d := y]> (d ++ x :: l) = d ++ y :: l.
Proof. rewrite insert_app_r_alt by lia. by rewrite Nat.sub_diag. Qed.
Lemma remove_mid d x l : vec_remove (length d) (d ++ x :: l) = d ++ l.
Proof. unfold vec_remove. apply delete_middle. Qed.
Lemma remove_mid_S d x y l : vec_remove (S (length d)) (d ++ x :: y :: l) = d ++ x :: l.
Proof.
  unfold vec_remove. change (x :: y :: l) with ([x] ++ y :: l). rewrite (assoc_L (++)).
  replace (S (length d)) with (length (d ++ [x])) by (rewrite length_app; cbn; lia).
  rewrite delete_middle. by rewrite <- (assoc_L (++)).
Qed.
Lemma vec_insert_mid d x l : vec_insert (length d) x (d ++ l) = d ++ x :: l.
Proof. unfold vec_insert. by rewrite take_app_length, drop_app_length. Qed.
Lemma snoc_mid d x l : d ++ x :: l = (d ++ [x]) ++ l.
Proof. by rewrite <- (assoc_L (++)). Qed.
Lemma length_snoc d x : length (d ++ [x]) = S (length d).
Proof. rewrite length_app. cbn. lia. Qed.
End mid.

(** [sort_unstable_by] with a comparison under which the elements differ:
    insertion sort. *)
Fixpoint insert_by {A} (f : A → A → comparison) (x : A) (l : list A) : list A :=
  match l with
  | [] => [x]
  | y :: l' => match f x y with Gt => y :: insert_by f x l' | _ => x :: l end
  end.
Definition sort_by {A} (f : A → A → comparison) (l : list A) : list A := foldr (insert_by f) [] l.

Lemma insert_by_perm {A} f (x : A) l : insert_by f x l ≡ₚ x :: l.
Proof. induction l as [|y l IH]; cbn; [done|]. destruct (f x y); try done. rewrite IH. apply perm_swap. Qed.
Lemma sort_by_perm {A} f (l : list A) : sort_by f l ≡ₚ l.
Proof. induction l as [|y l IH]; cbn; [done|]. by rewrite insert_by_perm, IH. Qed.

Section sort_by.
Context {A : Type} (f : A → A → comparison) (P : A → Prop).
Context (f_sym : ∀ x y, P x → P y → f y x = CompOpp (f x y)).
Context (f_trans : ∀ x y z, P x → P y → P z → f x y = Lt → f y z = Lt → f x z = Lt).

Lemma insert_by_sorted x l :
  P x → Forall P l → (∀ y, y ∈ l → f x y ≠ Eq) →
  StronglySorted (λ x y, f x y = Lt) l → StronglySorted (λ x y, f x y = Lt) (insert_by f x l).
Proof.
  intros Hx HP Hne Hs. induction Hs as [|y l Hs IH Hy]; cbn; [by repeat constructor|].
  apply Forall_cons in HP as [HPy HP]. destruct (f x y) eqn:Hf.
  - destruct (Hne y); [apply list_elem_of_here|done].
  - constructor; [by constructor|]. constructor; [done|]. rewrite Forall_forall in *.
    intros z Hz. eapply f_trans; [done|exact HPy|by apply HP|done|by apply Hy].
  - constructor.
    + apply IH; [done|]. intros z Hz. apply Hne. by apply list_elem_of_further.
    + rewrite insert_by_perm. constructor; [|done]. by rewrite f_sym, Hf by done.
Qed.
Lemma sort_by_sorted l :
  Forall P l → (∀ i j x y, l !! i = Some x → l !! j = Some y → i < j → f x y ≠ Eq) →
  StronglySorted (λ x y, f x y = Lt) (sort_by f l).
Proof.
  induction l as [|x l IH]; intros HP Hne; [constructor|]. apply Forall_cons in HP as [HPx HP].
  change (sort_by f (x :: l)) with (insert_by f x (sort_by f l)).
  apply insert_by_sorted; [done|by rewrite sort_by_perm| |].
  - intros y Hy. rewrite sort_by_perm in Hy. apply list_elem_of_lookup in Hy as [j Hj].
    apply (Hne 0 (S j) x y); [done|done|lia].
  - apply IH; [done|]. intros i j a b Hi Hj Hlt. apply (Hne (S i) (S j)); [done|done|lia].
Qed.
End sort_by.

(** [binary_search] on a sorted vector of integers, and the insertion of an
    element that is not found. *)
Definition binary_search (l : list N) (x : N) : nat + nat := binary_search_by (λ p, (p ?= x)%N) l.
Definition insert_sorted (l : list N) (x : N) : list N :=
  match binary_search l x with
  | inl _ => l
  | inr j => vec_insert j x l
  end.

Lemma lt_sorted_lookup l i j x y :
  StronglySorted N.lt l → l !! i = Some x → l !! j = Some y → i < j → (x < y)%N.
Proof.
  intros Hs. revert i j. induction Hs as [|z l Hs IH Hz]; intros [|i] [|j]; cbn; try done; try lia.
  - intros [= ->] Hj _. rewrite Forall_forall in Hz. apply Hz. by eapply list_elem_of_lookup_2.
  - intros Hi Hj ?. apply (IH i j Hi Hj). lia.
Qed.
Lemma lt_sorted_bsearch l x : StronglySorted N.lt l → bsearch_sorted (λ p, (p ?= x)%N) l.
Proof.
  intros Hs i j a b Hi Hj Hij. destruct (decide (i = j)) as [->|]; [simplify_eq; lia|].
  pose proof (lt_sorted_lookup _ _ _ _ _ Hs Hi Hj ltac:(lia)).
  destruct (N.compare_spec a x), (N.compare_spec b x); cbn; lia.
Qed.
Lemma StronglySorted_app_intro (l1 l2 : list N) :
  StronglySorted N.lt l1 → StronglySorted N.lt l2 → (∀ a b, a ∈ l1 → b ∈ l2 → (a < b)%N) →
  StronglySorted N.lt (l1 ++ l2).
Proof.
  induction 1 as [|a l1 H1 IH Ha]; intros H2 Hlt; cbn; [done|]. constructor.
  - apply IH; [done|]. intros. apply Hlt; [by apply list_elem_of_further|done].
  - apply Forall_app. split; [done|]. apply Forall_forall. intros b Hb. apply Hlt; [apply list_elem_of_here|done].
Qed.
Lemma StronglySorted_app_inv (l1 l2 : list N) :
  StronglySorted N.lt (l1 ++ l2) → StronglySorted N.lt l1 ∧ StronglySorted N.lt l2.
Proof.
  induction l1 as [|a l1 IH]; cbn; [split; [constructor|done]|].
  intros [Hs Ha]%StronglySorted_inv. destruct (IH Hs). split; [|done]. constructor; [done|].
  by apply Forall_app in Ha as [? _].
Qed.
Lemma binary_search_inl l x i : StronglySorted N.lt l → binary_search l x = inl i → l !! i = Some x.
Proof.
  intros Hs Hb. pose proof (binary_search_by_spec _ l (lt_sorted_bsearch l x Hs)) as H.
  unfold binary_search in Hb. rewrite Hb in H. destruct H as (y & Hy & ->%N.compare_eq). done.
Qed.
Lemma binary_search_inr l x i : StronglySorted N.lt l → binary_search l x = inr i → x ∉ l.
Proof.
  intros Hs Hb. pose proof (binary_search_by_spec _ l (lt_sorted_bsearch l x Hs)) as H.
  unfold binary_search in Hb. rewrite Hb in H. destruct H as [_ H].
  intros [j Hj]%list_elem_of_lookup. destruct (H j x Hj) as [H1 H2]. rewrite N.compare_refl in H1, H2.
  destruct (decide (j < i)); [by specialize (H1 ltac:(done))|by specialize (H2 ltac:(lia))].
Qed.
Lemma insert_sorted_spec l x :
  StronglySorted N.lt l →
  StronglySorted N.lt (insert_sorted l x) ∧ ∀ y, y ∈ insert_sorted l x ↔ y = x ∨ y ∈ l.
Proof.
  intros Hs. unfold insert_sorted. destruct (binary_search l x) as [i|i] eqn:Hb.
  - split; [done|]. intros y. split; [by right|]. intros [->|]; [|done].
    eapply list_elem_of_lookup_2. by apply binary_search_inl.
  - split; [|intros y; by rewrite vec_insert_perm, elem_of_cons].
    pose proof (binary_search_by_spec _ l (lt_sorted_bsearch l x Hs)) as H.
    unfold binary_search in Hb. rewrite Hb in H. destruct H as [Hi H]. unfold vec_insert.
    rewrite <- (take_drop i l) in Hs. apply StronglySorted_app_inv in Hs as Hs'. destruct Hs' as [H1 H2].
    apply StronglySorted_app_intro; [done| |].
    + constructor; [done|]. apply Forall_forall. intros y [j Hj]%list_elem_of_lookup.
      rewrite lookup_drop in Hj. destruct (H _ _ Hj) as [_ Hgt]. apply N.compare_gt_iff, Hgt. lia.
    + intros a b Ha Hbb. apply list_elem_of_lookup in Ha as [j Hj].
      assert (j < i) as Hji by (apply lookup_lt_Some in Hj; rewrite length_take in Hj; lia).
      rewrite lookup_take_lt in Hj by done. destruct (H _ _ Hj) as [Hlt _].
      assert (a < x)%N as Hax by by apply N.compare_lt_iff, Hlt.
      apply elem_of_cons in Hbb as [->|Hbb]; [done|]. etrans; [exact Hax|].
      apply list_elem_of_lookup in Hbb as [k Hk]. rewrite lookup_drop in Hk.
      destruct (H _ _ Hk) as [_ Hgt]. apply N.compare_gt_iff, Hgt. lia.
Qed.

(** Strictly sorted lists are sets: equal when they have the same elements, and
    no longer than their range. *)
Lemma lt_sorted_NoDup l : StronglySorted N.lt l → NoDup l.
Proof.
  induction 1 as [|x l Hs IH Hx]; constructor; [|done]. intros Hin.
  rewrite Forall_forall in Hx. specialize (Hx _ Hin). lia.
Qed.
Lemma lt_sorted_unique l k :
  StronglySorted N.lt l → StronglySorted N.lt k → (∀ x, x ∈ l ↔ x ∈ k) → l = k.
Proof.
  intros Hl. revert k. induction Hl as [|x l Hl IH Hx]; intros k Hk Heq.
  - destruct k as [|y k]; [done|]. exfalso. apply (not_elem_of_nil y), Heq, list_elem_of_here.
  - destruct Hk as [|y k Hk Hy]; [exfalso; apply (not_elem_of_nil x), Heq, list_elem_of_here|].
    rewrite Forall_forall in Hx, Hy. assert (x = y) as ->.
    { assert (x ∈ y :: k) as Hxk by (apply Heq, list_elem_of_here).
      assert (y ∈ x :: l) as Hyl by (apply Heq, list_elem_of_here).
      apply elem_of_cons in Hxk as [->|Hxk]; [done|]. apply elem_of_cons in Hyl as [->|Hyl]; [done|].
      specialize (Hx _ Hyl). specialize (Hy _ Hxk). lia. }
    f_equal. apply IH; [done|]. intros z. specialize (Heq z). rewrite !elem_of_cons in Heq. split; intros Hz.
    + destruct (proj1 Heq (or_intror Hz)) as [->|]; [|done]. specialize (Hx _ Hz). lia.
    + destruct (proj2 Heq (or_intror Hz)) as [->|]; [|done]. specialize (Hy _ Hz). lia.
Qed.
Lemma lt_sorted_length l m : StronglySorted N.lt l → (∀ x, x ∈ l → N.to_nat x < m) → length l ≤ m.
Proof.
  intros Hs Hlt. rewrite <- (length_seq m 0), <- (length_map N.of_nat (seq 0 m)).
  apply submseteq_length, NoDup_submseteq; [by apply lt_sorted_NoDup|].
  intros x Hx. apply elem_of_map. exists (N.to_nat x). split; [lia|]. apply elem_of_seq. specialize (Hlt _ Hx). lia.
Qed.

(** ** Lists of lists *)
Lemma concat_perm {A} (l k : list (list A)) : l ≡ₚ k → concat l ≡ₚ concat k.
Proof.
  induction 1 as [|x l k _ IH|x y l|l k j _ IH1 _ IH2]; cbn; [done|by rewrite IH| |by rewrite IH1].
  by rewrite !(assoc_L (++)), (Permutation_app_comm x y).
Qed.
Lemma elem_of_concat {A} (l : list (list A)) (x : A) : x ∈ concat l ↔ ∃ k, k ∈ l ∧ x ∈ k.
Proof.
  rewrite list_elem_of_In, in_concat. split; intros (k & Hk & Hx); exists k;
    [rewrite !list_elem_of_In|rewrite <- !list_elem_of_In]; done.
Qed.
(** In a partition, an element determines its part. *)
Lemma concat_NoDup_unique {A} (l : list (list A)) i j a b (x : A) :
  NoDup (concat l) → l !! i = Some a → l !! j = Some b → x ∈ a → x ∈ b → i = j.
Proof.
  intros Hnd Hi Hj Ha Hb.
  assert (∀ i j a b, i < j → l !! i = Some a → l !! j = Some b → x ∈ a → x ∈ b → False) as Hlt.
  { clear i j a b Hi Hj Ha Hb. intros i j a b Hij Hi Hj Ha Hb.
    rewrite <- (take_drop_middle _ _ _ Hi), concat_app in Hnd. cbn in Hnd.
    apply NoDup_app in Hnd as (_ & _ & Hnd). apply NoDup_app in Hnd as (_ & Hd & _). apply (Hd x Ha).
    apply elem_of_concat. exists b. split; [|done]. apply list_elem_of_lookup. exists (j - S i).
    rewrite lookup_drop, <- Hj. f_equal. lia. }
  destruct (Nat.lt_trichotomy i j) as [?|[?|?]]; [exfalso; eauto|done|exfalso; eauto].
Qed.
Lemma concat_NoDup_part {A} (l : list (list A)) i a : NoDup (concat l) → l !! i = Some a → NoDup a.
Proof.
  intros Hnd Hi. rewrite <- (take_drop_middle _ _ _ Hi), concat_app in Hnd. cbn in Hnd.
  apply NoDup_app in Hnd as (_ & _ & Hnd). by apply NoDup_app in Hnd as (? & _ & _).
Qed.
Lemma length_concat_sum {A} (l : list (list A)) : length (concat l) = sum_list_with length l.
Proof. induction l as [|x l IH]; [done|]. cbn. rewrite length_app. lia. Qed.
