(* ===== verification/Outcomes.v ===== *)
(** * Reasoning about fallible code

    [wp m Q P]: [m] ends without a panic, what it returns satisfies [P], and an error
    that it returns satisfies [Q]. *)
From S2P Require Import Prelude.

Definition wp {E A} (m : outcome E A) (Q : E → Prop) (P : A → Prop) : Prop :=
  match m with Ok a => P a | Err e => Q e | Panic | OutOfFuel => False end.

Lemma wp_bind {E A B} (m : outcome E A) (f : A → outcome E B) Q P : wp m Q (λ a, wp (f a) Q P) → wp (m ≫= f) Q P.
Proof. by destruct m. Qed.
Lemma wp_weaken {E A} (m : outcome E A) (Q Q' : E → Prop) (P P' : A → Prop) :
  wp m Q P → (∀ e, Q e → Q' e) → (∀ a, P a → P' a) → wp m Q' P'.
Proof. destruct m; cbn; auto. Qed.
Lemma wp_mono {E A} (m : outcome E A) Q (P P' : A → Prop) : wp m Q P → (∀ a, P a → P' a) → wp m Q P'.
Proof. intros Hm HP. by eapply wp_weaken. Qed.

Lemma wp_for_each {E A St} (f : St → A → outcome E St) Q (P : list A → St → Prop) l st :
  P [] st → (∀ d x rest st, l = d ++ x :: rest → P d st → wp (f st x) Q (P (d ++ [x]))) → wp (for_each f st l) Q (P l).
Proof.
  assert (∀ d k st, l = d ++ k → P d st → (∀ d x rest st, l = d ++ x :: rest → P d st → wp (f st x) Q (P (d ++ [x]))) →
    wp (for_each f st k) Q (P l)) as Hgen; [|intros H0 Hs; by apply (Hgen [] l st)].
  intros d k. revert d. induction k as [|x k IH]; intros d st' Hl HP Hs; cbn [for_each].
  - rewrite app_nil_r in Hl. by subst.
  - apply wp_bind. eapply wp_mono; [by eapply Hs|]. intros st'' HP'. apply (IH (d ++ [x])); [|done|done].
    by rewrite <- app_assoc.
Qed.
(** [mapM], element by element. *)
Lemma mapM_total {E A B} (f : A → outcome E B) l : (∀ x, x ∈ l → ∃ y, f x = Ok y) → ∃ k, mapM f l = Ok k.
Proof.
  induction l as [|x l IH]; intros Hf; [by exists []|]. destruct (Hf x) as [y Hy]; [apply list_elem_of_here|].
  destruct IH as [k Hk]; [intros; apply Hf; by apply list_elem_of_further|]. exists (y :: k). cbn. by rewrite Hy, Hk.
Qed.
Lemma mapM_elem {E A B} (f : A → outcome E B) l k y : mapM f l = Ok k → y ∈ k → ∃ x, x ∈ l ∧ f x = Ok y.
Proof.
  revert k. induction l as [|x l IH]; cbn; intros k Hk Hy; [injection Hk as <-; by apply not_elem_of_nil in Hy|].
  apply bind_Ok_inv in Hk as (z & Hz & Hk). apply bind_Ok_inv in Hk as (k' & Hk' & Hk). injection Hk as <-.
  apply elem_of_cons in Hy as [->|Hy]; [exists x; split; [apply list_elem_of_here|done]|].
  destruct (IH k' Hk' Hy) as (w & ? & ?). exists w. split; [by apply list_elem_of_further|done].
Qed.
