(* ===== verification/WordArena.v ===== *)
(** * [crates/generate/src/bitvec.rs]: the word arena

    The allocator behind the bit vectors, with its memory: chunks of words, a
    bump pointer into the last chunk and free lists by block size.  The
    invariant [inv] relates an arena to the blocks its clients hold. *)
From S2P Require Import Prelude.

(** ** The arena *)
Module WordArena.

(** [128 * 1024 / size_of::<u64>()]. *)
Definition ARENA_CHUNK_WORDS : nat := N.to_nat (128 * 1024 / 8).

(** A pointer into chunk data; [Dangling] is [NonNull::dangling()]. *)
Inductive ptr := Dangling | At (chunk off : nat).

Record t := mk {
  chunks : list (list N);
  offset : nat;
  free_list : list (nat * list ptr);
}.

Definition new : t := mk [] ARENA_CHUNK_WORDS [].

(** [free_list.iter_mut().find(|(s, _)| *s == n_words)] and [bucket.pop()]. *)
Fixpoint pop_bucket (fl : list (nat * list ptr)) (n : nat) :
    option (ptr * list (nat * list ptr)) :=
  match fl with
  | [] => None
  | (s, bucket) :: fl' =>
      if s =? n
      then match last bucket with
           | Some p => Some (p, (s, removelast bucket) :: fl')
           | None => None
           end
      else match pop_bucket fl' n with
           | Some (p, fl'') => Some (p, (s, bucket) :: fl'')
           | None => None
           end
  end%nat.

Fixpoint push_bucket (fl : list (nat * list ptr)) (n : nat) (p : ptr) :
    list (nat * list ptr) :=
  match fl with
  | [] => [(n, [p])]
  | (s, bucket) :: fl' =>
      if s =? n then (s, bucket ++ [p]) :: fl'
      else (s, bucket) :: push_bucket fl' n p
  end%nat.

(** [if self.offset + n_words > ARENA_CHUNK_WORDS { push a chunk }]. *)
Definition make_room (a : t) (n_words : nat) : t :=
  if (ARENA_CHUNK_WORDS <? offset a + n_words)%nat
  then mk (chunks a ++ [replicate (ARENA_CHUNK_WORDS `max` n_words) 0%N]) 0 (free_list a)
  else a.

Definition alloc {E} (a : t) (n_words : nat) : outcome E (ptr * t) :=
  if (n_words =? 0)%nat then Ok (Dangling, a)
  else match pop_bucket (free_list a) n_words with
  | Some (p, fl) => Ok (p, mk (chunks a) (offset a) fl)
  | None =>
      let a1 := make_room a n_words in
      match length (chunks a1) with
      | O => Panic
      | S c => Ok (At c (offset a1), mk (chunks a1) (offset a1 + n_words) (free_list a1))
      end
  end.

(** Overwrite the words at [off..off + length ws] of a chunk. *)
Definition write_words (a : t) (c off : nat) (ws : list N) : t :=
  mk (alter (λ chunk, take off chunk ++ ws ++ drop (off + length ws) chunk) c (chunks a))
     (offset a) (free_list a).

(** [slice::from_raw_parts_mut(ptr, used_words).fill(0)]. *)
Definition zero_words (a : t) (p : ptr) (used_words : nat) : t :=
  match p with
  | At c off =>
      if (0 <? used_words)%nat then write_words a c off (replicate used_words 0%N) else a
  | Dangling => a
  end.

Definition free (a : t) (p : ptr) (n_words used_words : nat) : t :=
  if (n_words =? 0)%nat then a
  else
    let a1 := zero_words a p used_words in
    mk (chunks a1) (offset a1) (push_bucket (free_list a1) n_words p).

(** The word at [off] of chunk [c]. *)
Definition word_at (a : t) (c off : nat) : option N :=
  chunk ← chunks a !! c; chunk !! off.

(** The words of a block. *)
Definition read_block (a : t) (p : ptr) (n : nat) : list N :=
  match p with
  | Dangling => []
  | At c off => take n (drop off (default [] (chunks a !! c)))
  end.

(** A block: a pointer and the number of words allocated at it. *)
Definition block : Type := ptr * nat.

(** Block [b] contains word [i] of chunk [c]. *)
Definition in_block (b : block) (c i : nat) : Prop :=
  match b with
  | (Dangling, _) => False
  | (At c' off, n) => c' = c ∧ off ≤ i < off + n
  end.

Definition disjoint_blocks (b1 b2 : block) : Prop :=
  ∀ c i, in_block b1 c i → in_block b2 c i → False.

(** The blocks of the free list. *)
Definition free_blocks (a : t) : list block :=
  flat_map (λ '(s, bucket), map (λ p, (p, s)) bucket) (free_list a).

(** The words of the last chunk that were never handed out. *)
Definition untouched (a : t) (c i : nat) : Prop :=
  S c = length (chunks a) ∧ offset a ≤ i ∧
  is_Some (word_at a c i).

(** Blocks that share no word. *)
Fixpoint pairwise_disjoint (bs : list block) : Prop :=
  match bs with
  | [] => True
  | b :: bs' => (∀ b', b' ∈ bs' → disjoint_blocks b b') ∧ pairwise_disjoint bs'
  end.

(** A block handed out by [alloc] for a non-zero size. *)
Definition real_block (b : block) : Prop :=
  match b with (At _ _, S _) => True | _ => False end.

(** The invariant with respect to the blocks [live] that clients hold. *)
Record inv (a : t) (live : list block) : Prop := {
  inv_shape : ∀ b, b ∈ live ++ free_blocks a → real_block b;
  inv_bounds : ∀ b c i, b ∈ live ++ free_blocks a → in_block b c i →
    is_Some (word_at a c i) ∧ ¬ untouched a c i;
  inv_zero_free : ∀ b c i, b ∈ free_blocks a → in_block b c i → word_at a c i = Some 0%N;
  inv_zero_tail : ∀ c i, untouched a c i → word_at a c i = Some 0%N;
  inv_disjoint : pairwise_disjoint (live ++ free_blocks a);
  inv_chunk_len : ∀ c chunk, chunks a !! c = Some chunk → ARENA_CHUNK_WORDS ≤ length chunk;
  inv_first : chunks a = [] → offset a = ARENA_CHUNK_WORDS;
}.

(** *** Lemmas *)
Lemma disjoint_blocks_sym b1 b2 : disjoint_blocks b1 b2 → disjoint_blocks b2 b1.
Proof. intros H c i ??. by eapply H. Qed.

#[global] Instance pairwise_disjoint_perm :
  Proper ((≡ₚ) ==> iff) pairwise_disjoint.
Proof.
  assert (∀ l1 l2, l1 ≡ₚ l2 → pairwise_disjoint l1 → pairwise_disjoint l2) as H.
  { induction 1 as [|x l l' HP IH|x y l|l l' l'' ? IH1 ? IH2]; cbn; [done| | |by auto].
    - intros [H1 H2]. split; [|by auto]. intros b'. rewrite <- HP. apply H1.
    - intros (H1 & H2 & H3). repeat split; [|intros; apply H1; by right|done].
      intros b' [->|Hb']%elem_of_cons; [|by apply H2].
      apply disjoint_blocks_sym, H1. by left. }
  intros l1 l2 HP. split; apply H; done.
Qed.

Lemma pop_bucket_perm fl n p fl' :
  pop_bucket fl n = Some (p, fl') →
  flat_map (λ '(s, bucket), map (λ p, (p, s)) bucket) fl
    ≡ₚ (p, n) :: flat_map (λ '(s, bucket), map (λ p, (p, s)) bucket) fl'.
Proof.
  revert fl'. induction fl as [|[s bucket] fl IH]; intros fl'; cbn; [done|].
  destruct (Nat.eqb_spec s n) as [->|].
  - destruct (last bucket) as [q|] eqn:Hl; [|done]. intros [= -> <-]. cbn.
    apply last_Some in Hl as [l' ->].
    rewrite removelast_last, map_app, <- app_assoc. cbn.
    by rewrite <- Permutation_middle.
  - destruct (pop_bucket fl n) as [[q fl2]|]; [|done]. intros [= -> <-]. cbn.
    rewrite (IH _ eq_refl). by rewrite <- Permutation_middle.
Qed.

Lemma push_bucket_perm fl n p :
  flat_map (λ '(s, bucket), map (λ p, (p, s)) bucket) (push_bucket fl n p)
    ≡ₚ (p, n) :: flat_map (λ '(s, bucket), map (λ p, (p, s)) bucket) fl.
Proof.
  induction fl as [|[s bucket] fl IH]; cbn; [done|].
  destruct (Nat.eqb_spec s n) as [->|]; cbn.
  - rewrite map_app, <- app_assoc. cbn. by rewrite <- Permutation_middle.
  - rewrite IH. by rewrite <- Permutation_middle.
Qed.

Lemma word_at_lt a c i w : word_at a c i = Some w → c < length (chunks a).
Proof.
  unfold word_at. destruct (chunks a !! c) eqn:E; cbn; [|done].
  intros _. by eapply lookup_lt_Some.
Qed.

(** Pushing a zeroed chunk and restarting the bump pointer keeps the invariant. *)
Lemma inv_grow a live k :
  inv a live → ARENA_CHUNK_WORDS ≤ k →
  inv (mk (chunks a ++ [replicate k 0%N]) 0 (free_list a)) live.
Proof.
  intros [Hs Hb Hz Ht Hd Hl Hf] Hk.
  set (a' := mk _ _ _).
  assert (∀ c i w, word_at a c i = Some w → word_at a' c i = Some w) as Hold.
  { intros c i w Hw. pose proof (word_at_lt _ _ _ _ Hw).
    unfold word_at, a' in *. cbn. by rewrite lookup_app_l. }
  split; cbn.
  - done.
  - intros b c i Hin Hi. destruct (Hb b c i Hin Hi) as [[w Hw] Hu].
    split; [eexists; by apply Hold|].
    intros (Hc & _ & _). cbn in Hc. rewrite length_app in Hc. cbn in Hc.
    apply word_at_lt in Hw. lia.
  - intros b c i Hin Hi. by eapply Hold, Hz.
  - intros c i (Hc & _ & [w Hw]). cbn in Hc. rewrite length_app in Hc. cbn in Hc.
    unfold word_at, a' in *. cbn in *.
    rewrite lookup_app_r in * by lia.
    replace (c - length (chunks a)) with 0 in * by lia. cbn in *.
    apply lookup_replicate in Hw as Hw'. destruct Hw' as [-> ?]. done.
  - done.
  - intros c chunk. rewrite lookup_app_Some. intros [?|[? Hr]]; [by eapply Hl|].
    apply list_lookup_singleton_Some in Hr as [_ <-]. by rewrite length_replicate.
  - intros H. by destruct (chunks a).
Qed.

(** Handing out the next [n] words of the last chunk. *)
Lemma inv_bump a live n c chunk :
  inv a live → length (chunks a) = S c → chunks a !! c = Some chunk →
  offset a + n ≤ length chunk → 0 < n →
  inv (mk (chunks a) (offset a + n) (free_list a)) ((At c (offset a), n) :: live) ∧
  ∀ i, in_block (At c (offset a), n) c i → word_at a c i = Some 0%N.
Proof.
  intros [Hs Hb Hz Ht Hd Hl Hf] Hc Hchunk Hn Hpos.
  assert (∀ c' i, in_block (At c (offset a), n) c' i → untouched a c' i) as Hfresh.
  { intros c' i [<- Hi]. split_and!; [done|lia|].
    unfold word_at. rewrite Hchunk. cbn. apply lookup_lt_is_Some. lia. }
  split; [|by intros; apply Ht, Hfresh].
  split; cbn; try done.
  - intros b [->|Hin]%elem_of_cons; [by destruct n; [lia|]|by apply Hs].
  - intros b c' i [->|Hin]%elem_of_cons Hi.
    + destruct (Hfresh _ _ Hi) as (? & ? & ?). split; [done|].
      intros (_ & Ho & _). cbn in *. lia.
    + destruct (Hb b c' i Hin Hi) as [? Hu]. split; [done|].
      intros (H1 & Ho & H3). apply Hu. cbn in *. split_and!; [done|lia|done].
  - intros c' i (H1 & Ho & H3). apply Ht. cbn in *. split_and!; [done|lia|done].
  - split; [|done]. intros b' Hin c' i Hi Hi'.
    destruct (Hb b' c' i Hin Hi') as [_ Hu]. by apply Hu, Hfresh.
  - intros E. by rewrite E in Hc.
Qed.

Lemma inv_perm a a' live live' :
  chunks a = chunks a' → offset a = offset a' →
  live ++ free_blocks a ≡ₚ live' ++ free_blocks a' →
  (∀ b, b ∈ free_blocks a' → b ∈ free_blocks a ∨
        ∀ c i, in_block b c i → word_at a c i = Some 0%N) →
  inv a live → inv a' live'.
Proof.
  destruct a as [ch off fl], a' as [ch' off' fl']; cbn. intros <- <- HP Hf [Hs Hb Hz Ht Hd Hl Hn].
  split; try done; cbn.
  - intros b Hin. apply Hs. by rewrite HP.
  - intros b c i Hin. apply Hb. by rewrite HP.
  - intros b c i Hin Hi. destruct (Hf b Hin) as [Hin'|Hw]; [by eapply Hz|by apply Hw].
  - by rewrite <- HP.
Qed.

(** [word_at] after overwriting part of a chunk. *)
Lemma word_at_write a c off ws c' i :
  (∀ j, off ≤ j < off + length ws → is_Some (word_at a c j)) →
  word_at (write_words a c off ws) c' i =
    if decide (c' = c ∧ off ≤ i < off + length ws) then ws !! (i - off)
    else word_at a c' i.
Proof.
  intros Hin. unfold word_at, write_words in *. cbn.
  destruct (decide (c' = c)) as [->|Hne]; last first.
  { rewrite list_lookup_alter_ne by done. by rewrite decide_False by naive_solver. }
  rewrite list_lookup_alter. rewrite decide_True by done.
  destruct (chunks a !! c) as [chunk|] eqn:E; cbn in *.
  - destruct (decide (length ws = 0)) as [H0|H0].
    { destruct ws; [|done]. cbn. rewrite Nat.add_0_r, take_drop.
      rewrite decide_False by lia. done. }
    assert (off + length ws ≤ length chunk) as Hlen.
    { destruct (Hin (off + length ws - 1)) as [? ?%lookup_lt_Some]; lia. }
    destruct (decide _) as [[_ Hi]|Hi].
    + rewrite lookup_app_r by (rewrite length_take; lia).
      rewrite length_take, Nat.min_l by lia. rewrite lookup_app_l by lia. done.
    + destruct (decide (i < off)).
      * rewrite lookup_app_l by (rewrite length_take; lia). by rewrite lookup_take_lt by lia.
      * rewrite lookup_app_r by (rewrite length_take; lia).
        rewrite length_take, Nat.min_l by lia.
        rewrite lookup_app_r by lia. rewrite lookup_drop. f_equal. lia.
  - rewrite decide_False; [done|]. intros [_ Hi]. destruct (Hin i Hi); done.
Qed.

(** A client may write anything inside a block it holds. *)
Lemma write_live a live c off n k ws :
  inv a ((At c off, n) :: live) → k + length ws ≤ n →
  inv (write_words a c (off + k) ws) ((At c off, n) :: live) ∧
  (∀ b c' i, b ∈ live ++ free_blocks a → in_block b c' i →
    word_at (write_words a c (off + k) ws) c' i = word_at a c' i).
Proof.
  intros [Hs Hb Hz Ht Hd Hl Hf] Hlen.
  assert (∀ c' i, word_at (write_words a c (off + k) ws) c' i =
    if decide (c' = c ∧ off + k ≤ i < off + k + length ws) then ws !! (i - (off + k))
    else word_at a c' i) as Hw.
  { intros. apply word_at_write. intros j Hj.
    apply (Hb (At c off, n) c j); [by left|]. cbn. lia. }
  assert (∀ c' i, c' = c → off + k ≤ i < off + k + length ws →
    in_block (At c off, n) c' i) as Hblk by (intros; subst; cbn; lia).
  assert (∀ c' i, is_Some (word_at (write_words a c (off + k) ws) c' i) ↔
                  is_Some (word_at a c' i)) as Hsome.
  { intros c' i. rewrite Hw. case_decide as Hd'; [|done]. destruct Hd' as [Hc' Hi].
    split; intros _.
    - apply (Hb (At c off, n) c' i); [by left|]. by apply Hblk.
    - apply lookup_lt_is_Some. lia. }
  assert (∀ b c' i, b ∈ live ++ free_blocks a → in_block b c' i →
    word_at (write_words a c (off + k) ws) c' i = word_at a c' i) as Hother.
  { intros b c' i Hin Hi. rewrite Hw. rewrite decide_False; [done|].
    intros [Hc' Hi']. destruct Hd as [Hd _]. by apply (Hd b Hin c' i); [apply Hblk|]. }
  assert (∀ c' i, untouched (write_words a c (off + k) ws) c' i ↔ untouched a c' i) as Hunt.
  { intros c' i. unfold untouched. rewrite Hsome. cbn. by rewrite length_alter. }
  split; [split|done].
  - done.
  - intros b c' i Hin Hi. rewrite Hsome, Hunt. by apply (Hb b).
  - intros b c' i Hin Hi. rewrite (Hother b); [by apply (Hz b)| |done].
    apply elem_of_app. by right.
  - intros c' i Hu%Hunt. rewrite Hw. rewrite decide_False; [by apply Ht|].
    intros [Hc' Hi]. destruct (Hb (At c off, n) c' i) as [_ Hnu]; [by left|by apply Hblk|done].
  - done.
  - intros c' chunk. cbn. rewrite list_lookup_alter.
    case_decide as Hcc; [|apply Hl]. subst c'.
    destruct (chunks a !! c) as [ch|] eqn:E; cbn; [|done]. intros [= <-].
    specialize (Hl _ _ E). rewrite !length_app, length_take, length_drop.
    destruct (decide (length ws = 0)); [lia|].
    destruct (Hb (At c off, n) c (off + k + length ws - 1)) as [[w Hsw] _];
      [by left|cbn; lia|].
    unfold word_at in Hsw. rewrite E in Hsw. cbn in Hsw. apply lookup_lt_Some in Hsw. lia.
  - cbn. intros H. apply Hf. destruct (chunks a); [done|]. by destruct c.
Qed.

Lemma inv_new : inv new [].
Proof.
  split; cbn; try done.
  - by intros b ?%elem_of_nil.
  - by intros b c i ?%elem_of_nil.
  - by intros b c i ?%elem_of_nil.
  - by intros c i (?&_&_).
Qed.

(** The words of block [b] are the same in [a] and [a']. *)
Definition preserves (a a' : t) (b : block) : Prop :=
  ∀ c i, in_block b c i → word_at a' c i = word_at a c i.

(** The words of [b] from index [k] on are zero. *)
Definition zero_from (a : t) (b : block) (k : nat) : Prop :=
  match b with
  | (At c off, n) => ∀ i, k ≤ i < n → word_at a c (off + i) = Some 0%N
  | (Dangling, _) => True
  end.

Lemma zero_from_0 a b : (∀ c i, in_block b c i → word_at a c i = Some 0%N) → zero_from a b 0.
Proof. destruct b as [[|c off] n]; cbn; [done|]. intros H i Hi. apply H. lia. Qed.

(** C35: [WordArena::alloc] never panics; the block it returns is a real block
    of zeroed words that overlaps no live block (the invariant holds with the
    block added), and every live block keeps its contents. *)
Theorem alloc_spec a live n :
  inv a live → 0 < n →
  ∃ p a', alloc (E:=Empty_set) a n = Ok (p, a') ∧ inv a' ((p, n) :: live) ∧
    zero_from a' (p, n) 0 ∧ ∀ b, b ∈ live → preserves a a' b.
Proof.
  intros Hinv Hn. unfold alloc. destruct (Nat.eqb_spec n 0) as [|_]; [lia|].
  destruct (pop_bucket (free_list a) n) as [[p fl]|] eqn:Hp.
  { apply pop_bucket_perm in Hp. eexists p, _. split_and!; [done| | |done].
    - eapply (inv_perm a); [done..| | |done].
      + unfold free_blocks. rewrite Hp. cbn. by rewrite <- Permutation_middle.
      + intros b Hb. left. unfold free_blocks. rewrite Hp. by right.
    - apply zero_from_0. intros c i. apply (inv_zero_free _ _ Hinv).
      unfold free_blocks. rewrite Hp. by left. }
  set (a1 := make_room a n).
  assert (inv a1 live ∧ (∀ b, b ∈ live → preserves a a1 b) ∧
    ∃ c chunk, length (chunks a1) = S c ∧ chunks a1 !! c = Some chunk ∧
               offset a1 + n ≤ length chunk) as (Hinv1 & Hpres & c & chunk & Hc & Hck & Hlen).
  { subst a1. unfold make_room. case Nat.ltb_spec; intros Hsz.
    - split_and!; [by apply inv_grow; [|lia]| |].
      + intros b Hb c i Hi.
        destruct (inv_bounds _ _ Hinv b c i) as [[w Hw] _];
          [by apply elem_of_app; left|done|].
        pose proof (word_at_lt _ _ _ _ Hw).
        unfold word_at in *. cbn. by rewrite lookup_app_l.
      + exists (length (chunks a)). eexists. cbn. rewrite length_app. cbn.
        split_and!; [lia|by apply list_lookup_middle|]. rewrite length_replicate. lia.
    - split_and!; [done..|].
      destruct (chunks a) as [|ch0 chs] eqn:E.
      { apply (inv_first _ _ Hinv) in E. lia. }
      exists (length chs). destruct (lookup_lt_is_Some_2 (ch0 :: chs) (length chs)) as [ck Hck];
        [cbn; lia|].
      exists ck. split_and!; [done|done|]. rewrite <- E in Hck.
      apply (inv_chunk_len _ _ Hinv) in Hck. lia. }
  rewrite Hc. destruct (inv_bump a1 live n c chunk) as [Hinv' Hz]; try done.
  eexists _, _. split_and!; [done|done| |done].
  apply zero_from_0. intros c' i Hi. assert (c' = c) as -> by (cbn in Hi; lia).
  by apply Hz.
Qed.

(** C36: [WordArena::free] gives a block back: the invariant (in particular
    that every block of the free list is zeroed, so that the next [alloc] is)
    holds again, provided the words past [used_words] were zero already, which
    is the bit vectors' own invariant; other live blocks are untouched. *)
Theorem free_spec a live p n used :
  inv a ((p, n) :: live) → used ≤ n → zero_from a (p, n) used →
  inv (free a p n used) live ∧ ∀ b, b ∈ live → preserves a (free a p n used) b.
Proof.
  intros Hinv Hu Hz. unfold free.
  assert (real_block (p, n)) as Hr by (apply (inv_shape _ _ Hinv); by left).
  destruct (Nat.eqb_spec n 0) as [->|Hn]; [by destruct p|].
  destruct p as [|c off]; [done|].
  set (a1 := zero_words a (At c off) used).
  assert (inv a1 ((At c off, n) :: live) ∧ zero_from a1 (At c off, n) 0 ∧
    ∀ b, b ∈ live → preserves a a1 b) as (Hinv1 & Hz1 & Hpres).
  { subst a1. unfold zero_words. destruct (Nat.ltb_spec 0 used).
    - destruct (write_live a live c off n 0 (replicate used 0%N)) as [Hi Ho]; [done|
        by rewrite length_replicate|]. rewrite Nat.add_0_r in *.
      split_and!; [done| |].
      + intros i Hi'. rewrite word_at_write.
        { rewrite length_replicate. case_decide.
          - apply lookup_replicate. split; [done|lia].
          - apply Hz. lia. }
        rewrite length_replicate. intros j Hj.
        apply (inv_bounds _ _ Hinv (At c off, n)); [by left|cbn; lia].
      + intros b Hb c' i Hi'. apply (Ho b); [|done]. apply elem_of_app. by left.
    - replace used with 0 in * by lia. split_and!; done. }
  split.
  - eapply (inv_perm a1); [done|done| | |done].
    + unfold free_blocks. cbn. rewrite push_bucket_perm. by rewrite Permutation_middle.
    + intros b. unfold free_blocks. cbn. rewrite push_bucket_perm.
      intros [->|Hb]%elem_of_cons; [|by left]. right.
      intros c' i Hi. cbn in Hi. destruct Hi as [<- Hi].
      cbn in Hz1. replace i with (off + (i - off)) by lia. apply Hz1. lia.
  - intros b Hb c' i Hi. by apply (Hpres b).
Qed.

(** *** Witnesses *)
Lemma alloc_spec_witness :
  inv new [] ∧ ∃ p a', alloc (E:=Empty_set) new 3 = Ok (p, a') ∧ inv a' [(p, 3)] ∧
    zero_from a' (p, 3) 0.
Proof.
  split; [apply inv_new|].
  destruct (alloc_spec new [] 3 inv_new ltac:(lia)) as (p & a' & H1 & H2 & H3 & _).
  exists p, a'. exact (conj H1 (conj H2 H3)).
Defined.

Lemma free_spec_witness :
  ∃ p a', alloc (E:=Empty_set) new 3 = Ok (p, a') ∧ inv (free a' p 3 2) [].
Proof.
  destruct (alloc_spec new [] 3 inv_new ltac:(lia)) as (p & a' & H1 & H2 & H3 & _).
  exists p, a'. split; [exact H1|].
  apply (free_spec a' [] p 3 2); [exact H2|lia|].
  destruct p as [|c off]; [exact I|]. intros i Hi. apply H3. lia.
Defined.

End WordArena.
