(* ===== verification/BitVec.v ===== *)
(** * [crates/generate/src/bitvec.rs]: bit vectors and the iterator over set bits

    [BitVec] models the bit vector over the block of words it owns (the
    arena's contract, proved in [WordArena], is what lets the bit vector be a
    value: its block is disjoint from every other block and starts zeroed);
    [SetBits] models the iterator. *)
From S2P Require Import Prelude.

(** ** 64-bit words *)
Definition word_ok (w : N) : Prop := (w < U64)%N.
Definition u64_not (w : N) : N := N.lxor w (N.ones 64).
Definition all_ones : N := N.ones 64.

(** [u64::trailing_zeros] of a non-zero word. *)
Fixpoint pos_trailing_zeros (p : positive) : N :=
  match p with
  | xO p => N.succ (pos_trailing_zeros p)
  | _ => 0
  end.
Definition trailing_zeros (w : N) : N :=
  match w with N0 => 64 | Npos p => pos_trailing_zeros p end.

(** [u64::count_ones]. *)
Fixpoint pos_count_ones (p : positive) : nat :=
  match p with
  | xH => 1
  | xO p => pos_count_ones p
  | xI p => S (pos_count_ones p)
  end.
Definition count_ones (w : N) : nat :=
  match w with N0 => 0 | Npos p => pos_count_ones p end.

(** *** Bits of words *)
Lemma word_ok_bits w : word_ok w ↔ ∀ k, (64 ≤ k)%N → N.testbit w k = false.
Proof.
  unfold word_ok. change U64 with (2 ^ 64)%N. split.
  - intros Hw k Hk. rewrite <- (N.mod_small w (2 ^ 64)) by done.
    by apply N.mod_pow2_bits_high.
  - intros H. destruct (N.eq_dec w 0) as [->|Hn]; [done|].
    apply N.log2_lt_pow2; [lia|].
    destruct (N.lt_ge_cases (N.log2 w) 64) as [?|Hge]; [done|].
    specialize (H _ Hge). by rewrite N.bit_log2 in H.
Qed.

Lemma u64_not_bit w k : (k < 64)%N → N.testbit (u64_not w) k = negb (N.testbit w k).
Proof.
  intros. unfold u64_not. rewrite N.lxor_spec, N.ones_spec_low by done.
  by destruct (N.testbit w k).
Qed.

Lemma shiftl_1_bit k j : N.testbit (N.shiftl 1 k) j = bool_decide (j = k).
Proof.
  rewrite N.shiftl_1_l, N.pow2_bits_eqb. case_bool_decide; by case N.eqb_spec.
Qed.

Lemma word_ok_land w v : word_ok w → word_ok (N.land w v).
Proof. rewrite !word_ok_bits. intros H k ?. by rewrite N.land_spec, H. Qed.
Lemma word_ok_lor w v : word_ok w → word_ok v → word_ok (N.lor w v).
Proof. rewrite !word_ok_bits. intros H1 H2 k ?. by rewrite N.lor_spec, H1, H2. Qed.
Lemma word_ok_0 : word_ok 0.
Proof. done. Qed.
#[global] Hint Resolve word_ok_land word_ok_lor word_ok_0 : tsg.

(** The lowest set bit, and [w & (w - 1)]. *)
Lemma trailing_zeros_bit w : w ≠ 0%N → N.testbit w (trailing_zeros w) = true.
Proof.
  destruct w as [|p]; [done|]. intros _. cbn [trailing_zeros].
  induction p as [p _|p IH|]; cbn [pos_trailing_zeros]; [done| |done].
  change (N.pos (xO p)) with (2 * N.pos p)%N. by rewrite N.double_bits_succ.
Qed.

Lemma trailing_zeros_low w k :
  w ≠ 0%N → (k < trailing_zeros w)%N → N.testbit w k = false.
Proof.
  destruct w as [|p]; [done|]. intros _. cbn [trailing_zeros]. revert k.
  induction p as [p _|p IH|]; cbn [pos_trailing_zeros]; [lia| |lia].
  intros k Hk. change (N.pos (xO p)) with (2 * N.pos p)%N.
  destruct (N.zero_or_succ k) as [->|[j ->]]; [apply N.testbit_even_0|].
  rewrite N.double_bits_succ. apply IH. lia.
Qed.

Lemma clear_lowest_bit w k :
  w ≠ 0%N →
  N.testbit (N.land w (w - 1)) k = N.testbit w k && negb (k =? trailing_zeros w)%N.
Proof.
  destruct w as [|p]; [done|]. intros _. cbn [trailing_zeros]. rewrite N.land_spec. revert k.
  induction p as [p _|p IH|]; cbn [pos_trailing_zeros]; intros k.
  - change (N.pos (xI p)) with (2 * N.pos p + 1)%N.
    rewrite N.add_sub. destruct (N.zero_or_succ k) as [->|[j ->]].
    + by rewrite N.testbit_even_0, N.testbit_odd_0.
    + rewrite N.testbit_odd_succ', N.double_bits_succ.
      destruct (N.eqb_spec (N.succ j) 0); [lia|]. by destruct (N.testbit _ j).
  - change (N.pos (xO p)) with (2 * N.pos p)%N.
    destruct (N.zero_or_succ k) as [->|[j ->]]; [by rewrite N.testbit_even_0|].
    replace (2 * N.pos p - 1)%N with (2 * (N.pos p - 1) + 1)%N by lia.
    rewrite N.double_bits_succ, N.testbit_odd_succ', IH. f_equal. f_equal.
    case N.eqb_spec; case N.eqb_spec; lia.
  - change (1 - 1)%N with 0%N. rewrite N.bits_0, andb_false_r.
    destruct k as [|k]; [done|]. by destruct k.
Qed.

Lemma trailing_zeros_lt w : w ≠ 0%N → word_ok w → (trailing_zeros w < 64)%N.
Proof.
  intros Hw Hok. destruct (N.lt_ge_cases (trailing_zeros w) 64) as [?|Hge]; [done|].
  pose proof (trailing_zeros_bit w Hw) as Hb.
  rewrite word_ok_bits in Hok. by rewrite Hok in Hb.
Qed.

(** [count_ones] counts the set bits. *)
Lemma count_ones_double_add (b : bool) w : count_ones (2 * w + N.b2n b) = count_ones w + Nat.b2n b.
Proof.
  destruct w as [|p], b; [done|done| |].
  - change (2 * N.pos p + N.b2n true)%N with (N.pos (xI p)). cbn. lia.
  - change (2 * N.pos p + N.b2n false)%N with (N.pos (xO p)). cbn. lia.
Qed.

Lemma test_word_testbit w k :
  negb (N.land (N.shiftr w k) 1 =? 0)%N = N.testbit w k.
Proof.
  change 1%N with (N.ones 1). rewrite N.land_ones, N.testbit_odd. change (2 ^ 1)%N with 2%N.
  rewrite <- N.bit0_odd, <- N.bit0_mod. by destruct (N.testbit _ 0).
Qed.


(** [n.div_ceil(64)]. *)
Definition div_ceil64 (n : N) : N := (n + 63) / 64.

(** ** Bit vectors

    [words] is the block the vector owns, all [capacity] words of it;
    [capacity] is its length. *)
Module BitVec.

Record t := mk { words : list N; num_bits : N }.
#[global] Instance eq_dec : EqDecision t.
Proof. solve_decision. Defined.

Definition capacity (b : t) : nat := length (words b).
Definition new : t := mk [] 0.

Definition with_capacity (n_bits : N) : t :=
  let n_words := div_ceil64 n_bits in
  if (n_words =? 0)%N then new else mk (replicate (N.to_nat n_words) 0%N) 0.

Definition words_in_use (b : t) : nat := N.to_nat (div_ceil64 (num_bits b)).
Definition as_slice (b : t) : list N := take (words_in_use b) (words b).
Definition len (b : t) : N := num_bits b.

(** [w >> k & 1 != 0]. *)
Definition test_word (w k : N) : bool := negb (N.land (N.shiftr w k) 1 =? 0)%N.

Definition get {E} (b : t) (index : N) : outcome E (option bool) :=
  if (num_bits b <=? index)%N then Ok None
  else w ← vec_get (as_slice b) (N.to_nat (index / 64));
       Ok (Some (test_word w (index mod 64))).

(** The [Index] implementation: no check against [num_bits]. *)
Definition index {E} (b : t) (i : N) : outcome E bool :=
  w ← vec_get (as_slice b) (N.to_nat (i / 64)); Ok (test_word w (i mod 64)).

Definition set_bit (w k : N) (val : bool) : N :=
  if val then N.lor w (N.shiftl 1 k) else N.land w (u64_not (N.shiftl 1 k)).

Definition set {E} (b : t) (index : N) (val : bool) : outcome E t :=
  let word_idx := N.to_nat (index / 64) in
  w ← vec_get (words b) word_idx;
  ws ← vec_set (words b) word_idx (set_bit w (index mod 64) val);
  Ok (mk ws (num_bits b)).

(** A fresh zeroed block of [n] words with [src] copied to its start. *)
Definition grown (src : list N) (n : nat) : list N := src ++ replicate (n - length src) 0%N.

Definition ensure_words (b : t) (n_words : nat) : t :=
  if (capacity b <? n_words)%nat then
    let new_cap := n_words `max` (capacity b * 2) in
    mk (grown (as_slice b) new_cap) (num_bits b)
  else b.

(** [words[lo..hi].fill(v)]. *)
Definition fill {E} (ws : list N) (lo hi : nat) (v : N) : outcome E (list N) :=
  if decide (lo ≤ hi ≤ length ws)
  then Ok (take lo ws ++ replicate (hi - lo) v ++ drop hi ws)
  else Panic.

(** The [new_words > old_words] branch of [resize]. *)
Definition fill_new_words {E} (ws : list N) (old_words new_words : nat) (new_len : N)
    (val : bool) : outcome E (list N) :=
  ws ← fill ws old_words new_words (if val then all_ones else 0%N);
  if val && negb (new_len mod 64 =? 0)%N then
    let mask := (N.shiftl 1 (new_len mod 64) - 1)%N in
    w ← vec_get ws (new_words - 1);
    vec_set ws (new_words - 1) (N.land w mask)
  else Ok ws.

Definition resize {E} (b : t) (new_len : N) (val : bool) : outcome E t :=
  let new_words := N.to_nat (div_ceil64 new_len) in
  let old_words := words_in_use b in
  let b := ensure_words b new_words in
  ws ← (if (old_words <? new_words)%nat then
          fill_new_words (words b) old_words new_words new_len val
        else if (new_words <? old_words)%nat then
          fill (words b) new_words old_words 0%N
        else Ok (words b));
  Ok (mk ws (wrap_u32 new_len)).

Definition last {E} (b : t) : outcome E (option bool) :=
  if (num_bits b =? 0)%N then Ok None else get b (num_bits b - 1).

Definition pop {E} (b : t) : outcome E (option bool * t) :=
  if (num_bits b =? 0)%N then Ok (None, b)
  else
    let n := (num_bits b - 1)%N in
    let word_idx := N.to_nat (n / 64) in
    let bit_idx := (n mod 64)%N in
    let new_words_in_use := N.to_nat (div_ceil64 n) in
    w ← vec_get (words b) word_idx;
    let val := test_word w bit_idx in
    ws ← (if val then vec_set (words b) word_idx (N.land w (u64_not (N.shiftl 1 bit_idx)))
          else Ok (words b));
    ws ← (if (new_words_in_use <=? word_idx)%nat then vec_set ws word_idx 0%N else Ok ws);
    Ok (Some val, mk ws n).

(** The word-level OR loop over [self_slice.zip(other_slice)]. *)
Fixpoint or_words (any_new : N) (sw ow : list N) : list N * N :=
  match sw, ow with
  | s :: sw', o :: ow' =>
      let new_bits := N.land o (u64_not s) in
      let '(r, any') := or_words (N.lor any_new new_bits) sw' ow' in
      (N.lor s o :: r, any')
  | _, _ => (sw, any_new)
  end.

Definition insert_all (b other : t) : bool * t :=
  let other_words := words_in_use other in
  if (other_words =? 0)%nat then (false, b)
  else
    let self_words := words_in_use b in
    let ws :=
      if (capacity b <? other_words)%nat then grown (as_slice b) other_words
      else if (self_words <? other_words)%nat then
        take self_words (words b) ++ replicate (other_words - self_words) 0%N
          ++ drop other_words (words b)
      else words b in
    let n := if (num_bits b <? num_bits other)%N then num_bits other else num_bits b in
    let '(ws, any_new) := or_words 0 ws (as_slice other) in
    (negb (any_new =? 0)%N, mk ws n).

Definition clone (b : t) : t :=
  if (words_in_use b =? 0)%nat then new else mk (as_slice b) (num_bits b).

(** [a.get(i).copied().unwrap_or(0)]. *)
Definition word_or_0 (ws : list N) (i : nat) : N := default 0%N (ws !! i).

Fixpoint eq_loop (a b : list N) (i n : nat) : bool :=
  match n with
  | O => true
  | S n' => if negb (word_or_0 a i =? word_or_0 b i)%N then false else eq_loop a b (S i) n'
  end.
Definition eq (a b : t) : bool :=
  eq_loop (as_slice a) (as_slice b) 0 (length (as_slice a) `max` length (as_slice b)).

Fixpoint cmp_loop (a b : list N) (i n : nat) : comparison :=
  match n with
  | O => Eq
  | S n' =>
      let aw := word_or_0 a i in
      let bw := word_or_0 b i in
      if negb (aw =? bw)%N then
        let first_diff := trailing_zeros (N.lxor aw bw) in
        if test_word aw first_diff then Gt else Lt
      else cmp_loop a b (S i) n'
  end.
Definition cmp (a b : t) : comparison :=
  cmp_loop (as_slice a) (as_slice b) 0 (length (as_slice a) `max` length (as_slice b)).

(** [data.iter().rposition(|&w| w != 0).map_or(0, |i| i + 1)]. *)
Fixpoint effective_len (ws : list N) : nat :=
  match ws with
  | [] => 0
  | w :: ws' =>
      match effective_len ws' with
      | O => if (w =? 0)%N then 0 else 1
      | S n => S (S n)
      end
  end.
(** What [Hash::hash] feeds to the hasher. *)
Definition hash_input (b : t) : list N := take (effective_len (as_slice b)) (as_slice b).

(** *** The bits a list of words stands for *)
Definition bit (ws : list N) (i : N) : bool :=
  N.testbit (word_or_0 ws (N.to_nat (i / 64))) (i mod 64).

(** Well-formedness, the invariant the source states in comments: the block
    covers the words in use, every word is a [u64], and every bit at or past
    [num_bits] is zero. *)
Record wf (b : t) : Prop := {
  wf_words : Forall word_ok (words b);
  wf_cap : words_in_use b ≤ capacity b;
  wf_num : (num_bits b < U32)%N;
  wf_high : ∀ i, (num_bits b ≤ i)%N → bit (words b) i = false;
}.

(** A decision procedure for [wf]. *)
Definition check (b : t) : bool :=
  forallb (λ w, w <? U64)%N (words b)
  && (words_in_use b <=? capacity b)%nat
  && (num_bits b <? U32)%N
  && forallb (λ k, N.shiftr (word_or_0 (words b) k) (num_bits b - 64 * N.of_nat k) =? 0)%N
       (seq 0 (capacity b)).

Lemma check_wf b : check b = true → wf b.
Proof.
  unfold check. intros [[[H1 H2]%andb_prop H3]%andb_prop H4]%andb_prop.
  rewrite forallb_forall in H1, H4. apply Nat.leb_le in H2. apply N.ltb_lt in H3.
  split; [|done|done|].
  - apply Forall_forall. intros w Hw%list_elem_of_In. by apply N.ltb_lt, H1.
  - intros i Hi. unfold bit. set (k := N.to_nat (i / 64)).
    destruct (decide (k < capacity b)) as [Hk|Hk]; last first.
    { unfold word_or_0. rewrite lookup_ge_None_2; [apply N.bits_0|]. unfold capacity in Hk. lia. }
    specialize (H4 k). rewrite in_seq in H4. specialize (H4 ltac:(lia)). apply N.eqb_eq in H4.
    set (d := (num_bits b - 64 * N.of_nat k)%N) in *.
    replace (i mod 64)%N with ((i mod 64 - d) + d)%N by (unfold d, k in *; nlia).
    by rewrite <- N.shiftr_spec', H4, N.bits_0.
Qed.

Lemma bit_ext ws1 ws2 i :
  word_or_0 ws1 (N.to_nat (i / 64)) = word_or_0 ws2 (N.to_nat (i / 64)) →
  bit ws1 i = bit ws2 i.
Proof. unfold bit. by intros ->. Qed.

(** A bit index is a word index and a position below 64. *)
Lemma bit_at ws k j : (j < 64)%N → bit ws (64 * N.of_nat k + j) = N.testbit (word_or_0 ws k) j.
Proof.
  intros. unfold bit.
  replace ((64 * N.of_nat k + j) / 64)%N with (N.of_nat k) by nlia.
  replace ((64 * N.of_nat k + j) mod 64)%N with j by nlia.
  by rewrite Nat2N.id.
Qed.

Lemma word_ok_word_or_0 ws k : Forall word_ok ws → word_ok (word_or_0 ws k).
Proof.
  intros H. unfold word_or_0. destruct (ws !! k) eqn:E; [|done].
  cbn. by eapply Forall_lookup_1.
Qed.
#[global] Hint Resolve word_ok_word_or_0 : tsg.

Lemma word_eq ws1 ws2 k :
  Forall word_ok ws1 → Forall word_ok ws2 →
  (∀ i, (i / 64)%N = N.of_nat k → bit ws1 i = bit ws2 i) →
  word_or_0 ws1 k = word_or_0 ws2 k.
Proof.
  intros H1 H2 H. apply N.bits_inj. intros j.
  destruct (N.lt_ge_cases j 64) as [Hj|Hj].
  - rewrite <- !bit_at by done. apply H. nlia.
  - pose proof (word_ok_word_or_0 ws1 k H1) as O1. pose proof (word_ok_word_or_0 ws2 k H2) as O2.
    rewrite word_ok_bits in O1, O2. by rewrite O1, O2.
Qed.

(** A word all of whose bits are zero is zero. *)
Lemma word_zero ws k :
  Forall word_ok ws → (∀ i, (i / 64)%N = N.of_nat k → bit ws i = false) → word_or_0 ws k = 0%N.
Proof.
  intros H1 H. change 0%N with (word_or_0 [] k). apply word_eq; [done..|].
  intros i Hi. rewrite H by done. unfold bit. cbn. by rewrite N.bits_0.
Qed.

Lemma word_or_0_take ws n k : word_or_0 (take n ws) k = if (k <? n)%nat then word_or_0 ws k else 0%N.
Proof.
  unfold word_or_0. case Nat.ltb_spec; intros.
  - by rewrite lookup_take_lt by lia.
  - by rewrite lookup_take_ge by lia.
Qed.

Lemma word_or_0_grown src n k : length src ≤ n → word_or_0 (grown src n) k = word_or_0 src k.
Proof.
  intros Hn. unfold word_or_0, grown.
  destruct (decide (k < length src)); [by rewrite lookup_app_l by lia|].
  rewrite lookup_app_r by lia. rewrite (lookup_ge_None_2 src) by lia. cbn.
  destruct (replicate _ _ !! _) eqn:E; [|done].
  by apply lookup_replicate in E as [-> _].
Qed.

Lemma fill_Ok {E} ws lo hi v :
  lo ≤ hi → hi ≤ length ws →
  ∃ ws', fill (E:=E) ws lo hi v = Ok ws' ∧ length ws' = length ws ∧
    (Forall word_ok ws → word_ok v → Forall word_ok ws') ∧
    ∀ k, word_or_0 ws' k =
      if ((lo <=? k) && (k <? hi))%nat then v else word_or_0 ws k.
Proof.
  intros H1 H2. unfold fill. rewrite decide_True by done. eexists. split; [done|].
  split_and!.
  - rewrite !length_app, length_take, length_replicate, length_drop. lia.
  - intros Hw Hv. rewrite !Forall_app. split_and!;
      [by apply Forall_take|by apply Forall_replicate|by apply Forall_drop].
  - intros k. unfold word_or_0. destruct (Nat.leb_spec lo k); cbn.
    + rewrite lookup_app_r by (rewrite length_take; lia). rewrite length_take, Nat.min_l by lia.
      case Nat.ltb_spec; intros.
      * rewrite lookup_app_l by (rewrite length_replicate; lia).
        by rewrite lookup_replicate_2 by lia.
      * rewrite lookup_app_r by (rewrite length_replicate; lia).
        rewrite length_replicate, lookup_drop. do 2 f_equal. lia.
    + rewrite lookup_app_l by (rewrite length_take; lia). by rewrite lookup_take_lt by lia.
Qed.

Lemma words_in_use_le b : (num_bits b ≤ 64 * N.of_nat (words_in_use b))%N.
Proof. unfold words_in_use, div_ceil64. nlia. Qed.

Lemma as_slice_bit b i : wf b → bit (as_slice b) i = bit (words b) i.
Proof.
  intros H. unfold bit, as_slice. rewrite word_or_0_take.
  case Nat.ltb_spec; [done|]. intros Hi. rewrite N.bits_0.
  symmetry. apply (wf_high _ H). pose proof (words_in_use_le b). nlia.
Qed.

Lemma as_slice_ok b : wf b → Forall word_ok (as_slice b).
Proof. intros H. apply Forall_take, H. Qed.
Lemma as_slice_length b : wf b → length (as_slice b) = words_in_use b.
Proof. intros H. unfold as_slice. rewrite length_take. pose proof (wf_cap _ H). unfold capacity in *. lia. Qed.
#[global] Hint Resolve as_slice_ok wf_words : tsg.

Lemma lookup_word_or_0 ws k : k < length ws → ws !! k = Some (word_or_0 ws k).
Proof. intros [w Hw]%lookup_lt_is_Some. unfold word_or_0. by rewrite Hw. Qed.

Lemma word_or_0_insert ws k w k' :
  k < length ws → word_or_0 (<[k:=w]> ws) k' = if decide (k' = k) then w else word_or_0 ws k'.
Proof.
  intros Hk. unfold word_or_0. destruct (decide (k' = k)) as [->|].
  - by rewrite list_lookup_insert_eq.
  - by rewrite list_lookup_insert_ne.
Qed.

(** *** The operations on bits *)
Lemma get_spec {E} b i :
  wf b → get (E:=E) b i = Ok (if (i <? num_bits b)%N then Some (bit (words b) i) else None).
Proof.
  intros H. unfold get. rewrite N.ltb_antisym. destruct (N.leb_spec (num_bits b) i); [done|].
  cbn. pose proof (words_in_use_le b).
  rewrite (vec_get_Some _ _ (word_or_0 (as_slice b) (N.to_nat (i / 64)))).
  - cbn. unfold test_word. rewrite test_word_testbit. do 2 f_equal. by apply as_slice_bit.
  - apply lookup_word_or_0. rewrite as_slice_length by done. unfold words_in_use, div_ceil64 in *. nlia.
Qed.

Lemma index_spec {E} b i :
  wf b → (i < num_bits b)%N → index (E:=E) b i = Ok (bit (words b) i).
Proof.
  intros H Hi. unfold index. pose proof (words_in_use_le b).
  rewrite (vec_get_Some _ _ (word_or_0 (as_slice b) (N.to_nat (i / 64)))).
  - cbn. unfold test_word. rewrite test_word_testbit. f_equal. by apply as_slice_bit.
  - apply lookup_word_or_0. rewrite as_slice_length by done. unfold words_in_use, div_ceil64 in *. nlia.
Qed.

Lemma set_bit_testbit w k j v :
  (j < 64)%N → N.testbit (set_bit w k v) j = if decide (j = k) then v else N.testbit w j.
Proof.
  intros Hj. unfold set_bit. destruct v.
  - rewrite N.lor_spec, shiftl_1_bit. case_decide; case_bool_decide; try done;
      by destruct (N.testbit w j).
  - rewrite N.land_spec, u64_not_bit, shiftl_1_bit by done.
    case_decide; case_bool_decide; try done; by destruct (N.testbit w j).
Qed.

Lemma set_bit_ok w k v : word_ok w → (k < 64)%N → word_ok (set_bit w k v).
Proof.
  intros Hw Hk. unfold set_bit. destruct v; [|by auto with tsg].
  apply word_ok_lor; [done|]. rewrite word_ok_bits. intros j Hj.
  rewrite shiftl_1_bit, bool_decide_false by lia. done.
Qed.

(** Writing one bit of a word list. *)
Lemma bit_insert ws i v j :
  N.to_nat (i / 64) < length ws →
  bit (<[N.to_nat (i / 64) := set_bit (word_or_0 ws (N.to_nat (i / 64))) (i mod 64) v]> ws) j =
    if decide (j = i) then v else bit ws j.
Proof.
  intros Hk. unfold bit. rewrite word_or_0_insert by done.
  destruct (decide (N.to_nat (j / 64) = N.to_nat (i / 64))) as [Hd|Hd].
  - rewrite set_bit_testbit by nlia. rewrite Hd.
    destruct (decide (j = i)) as [->|]; [by rewrite decide_True|].
    rewrite decide_False; [done|]. nlia.
  - rewrite decide_False; [done|]. by intros ->.
Qed.

Lemma insert_set_bit_ok ws i v :
  Forall word_ok ws →
  Forall word_ok (<[N.to_nat (i / 64) := set_bit (word_or_0 ws (N.to_nat (i / 64))) (i mod 64) v]> ws).
Proof.
  intros. apply Forall_insert; [done|]. apply set_bit_ok; [by apply word_ok_word_or_0|nlia].
Qed.

(** Zeroing a word all of whose bits are zero changes nothing. *)
Lemma bit_insert_zero ws k i :
  Forall word_ok ws → k < length ws → (∀ j, (j / 64)%N = N.of_nat k → bit ws j = false) →
  bit (<[k := 0%N]> ws) i = bit ws i.
Proof.
  intros Hok Hk Hz. apply bit_ext. rewrite word_or_0_insert by done. case_decide; [|done].
  subst k. symmetry. by apply word_zero.
Qed.

Lemma word_idx_lt b i : wf b → (i < num_bits b)%N → N.to_nat (i / 64) < length (words b).
Proof.
  intros H Hi. pose proof (words_in_use_le b). pose proof (wf_cap _ H).
  unfold words_in_use, div_ceil64, capacity in *. nlia.
Qed.

Lemma set_spec {E} b i v :
  wf b → (i < num_bits b)%N →
  ∃ b', set (E:=E) b i v = Ok b' ∧ wf b' ∧ num_bits b' = num_bits b ∧
    ∀ j, bit (words b') j = if decide (j = i) then v else bit (words b) j.
Proof.
  intros H Hi. unfold set. pose proof (word_idx_lt _ _ H Hi) as Hk.
  rewrite (vec_get_Some _ _ _ (lookup_word_or_0 _ _ Hk)). cbn. rewrite vec_set_lt by done. cbn.
  eexists. split; [done|]. split_and!; [split|done|]; cbn.
  - apply insert_set_bit_ok, H.
  - unfold capacity, words_in_use. cbn. rewrite length_insert. apply H.
  - apply H.
  - intros j Hj. rewrite bit_insert by done. rewrite decide_False by lia. by apply H.
  - intros j. by apply bit_insert.
Qed.

Lemma as_slice_word b k : wf b → word_or_0 (as_slice b) k = word_or_0 (words b) k.
Proof.
  intros H. apply word_eq; [by auto with tsg|apply H|]. intros. by apply as_slice_bit.
Qed.

Lemma ensure_words_spec b n :
  wf b →
  let b' := ensure_words b n in
  n ≤ capacity b' ∧ capacity b ≤ capacity b' ∧ num_bits b' = num_bits b ∧
  Forall word_ok (words b') ∧ ∀ k, word_or_0 (words b') k = word_or_0 (words b) k.
Proof.
  intros H. unfold ensure_words. case Nat.ltb_spec; intros Hn; cbn; [|by split_and!; try apply H].
  pose proof (as_slice_length _ H). pose proof (wf_cap _ H).
  unfold capacity in *. cbn. unfold grown. rewrite length_app, length_replicate.
  split_and!; [lia|lia|done| |].
  - rewrite Forall_app. split; [by auto with tsg|by apply Forall_replicate].
  - intros k. fold (grown (as_slice b) (n `max` (length (words b) * 2))).
    rewrite word_or_0_grown by lia. by apply as_slice_word.
Qed.

(** Masking the last word of a fill with ones. *)
Lemma mask_bits n j : (n < 64)%N → (j < 64)%N → N.testbit (N.shiftl 1 n - 1) j = (j <? n)%N.
Proof.
  intros. rewrite N.shiftl_1_l, <- N.pred_sub, <- N.ones_equiv.
  case N.ltb_spec; intros; [by apply N.ones_spec_low|by apply N.ones_spec_high].
Qed.

Lemma fill_bits {E} ws lo hi v :
  lo ≤ hi → hi ≤ length ws →
  ∃ ws', fill (E:=E) ws lo hi v = Ok ws' ∧ length ws' = length ws ∧
    (Forall word_ok ws → word_ok v → Forall word_ok ws') ∧
    ∀ i, bit ws' i =
      if decide (N.of_nat lo ≤ i / 64 < N.of_nat hi)%N
      then N.testbit v (i mod 64) else bit ws i.
Proof.
  intros H1 H2. destruct (fill_Ok (E:=E) ws lo hi v H1 H2) as (ws' & ? & ? & ? & Hk).
  exists ws'. split_and!; [done..|]. intros i. unfold bit. rewrite Hk.
  case_decide as Hd.
  - by rewrite (proj2 (Nat.leb_le _ _)), (proj2 (Nat.ltb_lt _ _)) by lia.
  - destruct (Nat.leb_spec lo (N.to_nat (i / 64))); [|done].
    by rewrite (proj2 (Nat.ltb_ge _ _)) by lia.
Qed.

Lemma fill_new_words_spec {E} ws ow new_len val :
  let nw := N.to_nat (div_ceil64 new_len) in
  Forall word_ok ws → ow < nw → nw ≤ length ws →
  (∀ i, (N.of_nat ow ≤ i / 64)%N → bit ws i = false) →
  ∃ ws', fill_new_words (E:=E) ws ow nw new_len val = Ok ws' ∧ length ws' = length ws ∧
    Forall word_ok ws' ∧
    ∀ i, bit ws' i = if decide (i / 64 < N.of_nat ow)%N then bit ws i
                     else val && bool_decide (i < new_len)%N.
Proof.
  intros nw Hok Hlt Hle Hhigh. unfold fill_new_words.
  destruct (fill_bits (E:=E) ws ow nw (if val then all_ones else 0%N))
    as (ws' & -> & Hl & Hok' & Hbit); [lia|done|]. cbn.
  specialize (Hok' Hok ltac:(by destruct val)).
  destruct (val && negb (new_len mod 64 =? 0)%N) eqn:Hm; cbn.
  - apply andb_prop in Hm as [-> Hm%negb_true_iff%N.eqb_neq].
    assert (nw - 1 < length ws') as Hi by lia.
    rewrite (vec_get_Some _ _ _ (lookup_word_or_0 _ _ Hi)). cbn. rewrite vec_set_lt by done.
    eexists. split_and!; [done|by rewrite length_insert|by apply Forall_insert; auto with tsg|].
    intros i. unfold bit at 1. rewrite word_or_0_insert by done.
    destruct (decide (N.to_nat (i / 64) = nw - 1)) as [Hd|Hd].
    + rewrite N.land_spec, mask_bits, <- Hd by nlia. fold (bit ws' i). rewrite Hbit.
      rewrite decide_True by nlia. unfold all_ones. rewrite N.ones_spec_low by nlia.
      rewrite decide_False by nlia. cbn. unfold nw, div_ceil64 in *.
      case N.ltb_spec; case_bool_decide; nlia.
    + fold (bit ws' i). rewrite Hbit. unfold nw, div_ceil64 in *.
      destruct (decide (i / 64 < N.of_nat ow)%N); [by rewrite decide_False by nlia|].
      case_decide; cbn.
      * unfold all_ones. rewrite N.ones_spec_low by nlia. rewrite bool_decide_true; [done|nlia].
      * rewrite Hhigh by lia. rewrite bool_decide_false; [done|nlia].
  - exists ws'. split_and!; [done..|]. intros i. rewrite Hbit. unfold nw, div_ceil64 in *.
    destruct (decide (i / 64 < N.of_nat ow)%N); [by rewrite decide_False by nlia|].
    case_decide.
    + destruct val; [|apply N.bits_0]. cbn in Hm. apply negb_false_iff, N.eqb_eq in Hm.
      unfold all_ones. rewrite N.ones_spec_low by nlia. cbn. rewrite bool_decide_true; [done|nlia].
    + rewrite Hhigh by lia. destruct val; [|done]. cbn. rewrite bool_decide_false; [done|nlia].
Qed.

(** [resize]: the words that were in use keep their bits (those past the new
    last word are zeroed) and the bits of newly used words are [val] up to the
    new length. *)
Lemma resize_spec {E} b new_len val :
  wf b → (new_len < U32)%N →
  ∃ b', resize (E:=E) b new_len val = Ok b' ∧ num_bits b' = new_len ∧
    Forall word_ok (words b') ∧ words_in_use b' ≤ capacity b' ∧
    ∀ i, bit (words b') i =
      if decide (i / 64 < N.of_nat (words_in_use b))%N
      then bool_decide (i / 64 < div_ceil64 new_len)%N && bit (words b) i
      else val && bool_decide (i < new_len)%N.
Proof.
  intros H Hlen. unfold resize.
  destruct (ensure_words_spec b (N.to_nat (div_ceil64 new_len)) H) as (He1 & He2 & He3 & He4 & He5).
  set (e := ensure_words _ _) in *. pose proof (wf_cap _ H) as Hcap.
  pose proof (words_in_use_le b) as Huse. rewrite wrap_u32_small by done.
  assert (∀ i, (N.of_nat (words_in_use b) ≤ i / 64)%N → bit (words b) i = false) as Hhigh.
  { intros. apply H. nlia. }
  assert (∀ i, bit (words e) i = bit (words b) i) as Hsame by (intros; by apply bit_ext).
  unfold capacity in *.
  case Nat.ltb_spec; intros Hcmp; [|case Nat.ltb_spec; intros Hcmp2].
  - destruct (fill_new_words_spec (E:=E) (words e) (words_in_use b) new_len val)
      as (ws & -> & Hl & Hok & Hk); [done..| |].
    { intros. rewrite Hsame. by apply Hhigh. }
    eexists. split_and!; [done|done|done|unfold words_in_use, capacity; cbn; lia|].
    intros i. cbn. rewrite Hk. case_decide; [|done].
    rewrite bool_decide_true by lia. apply Hsame.
  - destruct (fill_bits (E:=E) (words e) (N.to_nat (div_ceil64 new_len)) (words_in_use b) 0%N)
      as (ws & -> & Hl & Hok & Hk); [lia..|]. cbn.
    eexists. split_and!; [done|done|by apply Hok|unfold words_in_use, capacity; cbn; lia|].
    intros i. cbn. rewrite Hk, Hsame. unfold div_ceil64 in *.
    repeat case_decide; repeat case_bool_decide; rewrite ?N.bits_0, ?andb_true_r, ?andb_false_r;
      try nlia; try done; apply Hhigh; lia.
  - eexists. split_and!; [done|done|done|unfold words_in_use, capacity; cbn; lia|].
    intros i. cbn. rewrite Hsame. unfold div_ceil64 in *.
    repeat case_decide; repeat case_bool_decide; rewrite ?andb_true_r, ?andb_false_r;
      try nlia; try done; by apply Hhigh; lia.
Qed.

Lemma resize_grow_spec {E} b new_len :
  wf b → (num_bits b ≤ new_len < U32)%N →
  ∃ b', resize (E:=E) b new_len false = Ok b' ∧ wf b' ∧ num_bits b' = new_len ∧
    ∀ i, bit (words b') i = bit (words b) i.
Proof.
  intros H [Hge Hlt]. destruct (resize_spec (E:=E) b new_len false H Hlt)
    as (b' & Hr & Hn & Hok & Hcap & Hbit).
  assert (∀ i, bit (words b') i = bit (words b) i) as Hsame.
  { intros i. rewrite Hbit. pose proof (words_in_use_le b).
    unfold words_in_use, div_ceil64 in *. case_decide; cbn.
    - rewrite bool_decide_true by nlia. done.
    - symmetry. apply H. nlia. }
  exists b'. split_and!; [done|split|done|done].
  - done.
  - done.
  - lia.
  - intros i Hi. rewrite Hsame. apply H. lia.
Qed.

(** Clearing bit [n] when it is set. *)
Lemma clear_bit_spec {E} ws n :
  Forall word_ok ws → N.to_nat (n / 64) < length ws →
  ∃ ws', (if bit ws n then vec_set (E:=E) ws (N.to_nat (n / 64))
                             (set_bit (word_or_0 ws (N.to_nat (n / 64))) (n mod 64) false)
          else Ok ws) = Ok ws' ∧
    length ws' = length ws ∧ Forall word_ok ws' ∧
    ∀ i, bit ws' i = bool_decide (i ≠ n) && bit ws i.
Proof.
  intros Hok Hk. destruct (bit ws n) eqn:Hb.
  - rewrite vec_set_lt by done. eexists.
    split_and!; [done|by rewrite length_insert|by apply insert_set_bit_ok|].
    intros i. rewrite bit_insert by done. case_decide; case_bool_decide; done.
  - exists ws. split_and!; [done..|]. intros i. case_bool_decide as Hi; [done|].
    by replace i with n by (destruct (N.eq_dec i n); naive_solver).
Qed.

(** [pop] clears the last bit and drops it. *)
Lemma pop_spec {E} b :
  wf b → (num_bits b ≠ 0)%N →
  ∃ b', pop (E:=E) b = Ok (Some (bit (words b) (num_bits b - 1)), b') ∧ wf b' ∧
    num_bits b' = (num_bits b - 1)%N ∧
    ∀ i, bit (words b') i = bool_decide (i ≠ num_bits b - 1)%N && bit (words b) i.
Proof.
  intros H Hn. unfold pop. destruct (N.eqb_spec (num_bits b) 0) as [|_]; [done|].
  set (n := (num_bits b - 1)%N).
  assert (N.to_nat (n / 64) < length (words b)) as Hk by (apply word_idx_lt; [done|lia]).
  rewrite (vec_get_Some _ _ _ (lookup_word_or_0 _ _ Hk)). cbn [mbind outcome_bind].
  unfold test_word. rewrite test_word_testbit. fold (bit (words b) n).
  destruct (clear_bit_spec (E:=E) (words b) n) as (ws & Hws & Hl & Hok & Hbit);
    [apply H|done|]. unfold set_bit in Hws. rewrite Hws. cbn [mbind outcome_bind].
  assert (∀ i, (n ≤ i)%N → bit ws i = false) as Hhigh.
  { intros i Hi. rewrite Hbit. case_bool_decide; [|done]. apply H. lia. }
  pose proof (wf_cap _ H) as Hcap. pose proof (wf_num _ H).
  assert (∃ ws', (if (N.to_nat (div_ceil64 n) <=? N.to_nat (n / 64))%nat
                  then vec_set ws (N.to_nat (n / 64)) 0%N else Ok ws) = Ok (E:=E) ws' ∧
    length ws' = length ws ∧ Forall word_ok ws' ∧ ∀ i, bit ws' i = bit ws i)
    as (ws' & -> & Hl' & Hok' & Hbit').
  { case Nat.leb_spec; intros Hc; [|by exists ws].
    rewrite vec_set_lt by lia. eexists. split_and!; [done|by rewrite length_insert| |].
    - by apply Forall_insert.
    - intros i. apply bit_insert_zero; [done|lia|]. intros j Hj. apply Hhigh.
      unfold div_ceil64 in *. nlia. }
  eexists. split; [done|]. split_and!; [split|done|]; cbn.
  - done.
  - unfold words_in_use, capacity, div_ceil64 in *. cbn. rewrite Hl', Hl. unfold n. nlia.
  - unfold n. lia.
  - intros i Hi. rewrite Hbit'. by apply Hhigh.
  - intros i. by rewrite Hbit', Hbit.
Qed.

Lemma word_or_0_cons_0 w ws : word_or_0 (w :: ws) 0 = w.
Proof. done. Qed.
Lemma word_or_0_cons_S w ws k : word_or_0 (w :: ws) (S k) = word_or_0 ws k.
Proof. done. Qed.
Lemma word_or_0_ge ws k : length ws ≤ k → word_or_0 ws k = 0%N.
Proof. intros. unfold word_or_0. by rewrite lookup_ge_None_2. Qed.

Lemma lor_ne_0 a b : N.lor a b ≠ 0%N ↔ a ≠ 0%N ∨ b ≠ 0%N.
Proof. rewrite N.lor_eq_0_iff. destruct (N.eq_dec a 0), (N.eq_dec b 0); tauto. Qed.

Lemma or_words_spec any sw ow r any' :
  or_words any sw ow = (r, any') → length ow ≤ length sw →
  length r = length sw ∧
  (∀ k, word_or_0 r k = N.lor (word_or_0 sw k) (word_or_0 ow k)) ∧
  (any' ≠ 0%N ↔ any ≠ 0%N ∨
     ∃ k, N.land (word_or_0 ow k) (u64_not (word_or_0 sw k)) ≠ 0%N).
Proof.
  revert any ow r any'. induction sw as [|s sw IH]; intros any ow r any'; cbn.
  { destruct ow; cbn; [|lia]. intros [= <- <-] _. split_and!; [done|done|].
    split; [by left|]. intros [?|(k & ?)]; done. }
  destruct ow as [|o ow]; cbn.
  { intros [= <- <-] _. split_and!; [done| |].
    - intros [|k]; cbn; [|change (word_or_0 [] (S k)) with 0%N]; by rewrite N.lor_0_r.
    - split; [by left|]. intros [?|(k & ?)]; done. }
  destruct (or_words _ sw ow) as [r' any''] eqn:E. intros [= <- <-] Hl.
  apply IH in E as (Hlen & Hk & Hany); [|lia]. split_and!; [cbn; lia| |].
  - intros [|k]; [done|]. rewrite !word_or_0_cons_S. apply Hk.
  - rewrite Hany, lor_ne_0. split.
    + intros [[?|?]|(k & ?)]; [by left|right; by exists 0|right; by exists (S k)].
    + intros [?|([|k] & ?)]; [by left; left|by left; right|right; by exists k].
Qed.

(** A word has a bit set exactly when it is not zero. *)
Lemma word_ne_0 ws k :
  Forall word_ok ws → word_or_0 ws k ≠ 0%N ↔ ∃ j, (j < 64)%N ∧ N.testbit (word_or_0 ws k) j = true.
Proof.
  intros Hok. split.
  - intros Hne. exists (trailing_zeros (word_or_0 ws k)).
    split; [apply trailing_zeros_lt|apply trailing_zeros_bit]; auto with tsg.
  - intros (j & _ & Hj) E. by rewrite E, N.bits_0 in Hj.
Qed.

Lemma words_in_use_0 b : wf b → words_in_use b = 0 → ∀ i, bit (words b) i = false.
Proof.
  intros H H0 i. apply H. unfold words_in_use, div_ceil64 in *. nlia.
Qed.

(** The block [insert_all] works on: [b]'s bits in at least [n] words. *)
Lemma insert_all_block b n :
  wf b →
  let ws := if (capacity b <? n)%nat then grown (as_slice b) n
            else if (words_in_use b <? n)%nat then
              take (words_in_use b) (words b) ++ replicate (n - words_in_use b) 0%N
                ++ drop n (words b)
            else words b in
  n ≤ length ws ∧ words_in_use b ≤ length ws ∧ Forall word_ok ws ∧
  ∀ k, word_or_0 ws k = word_or_0 (words b) k.
Proof.
  intros H ws. subst ws. pose proof (as_slice_length _ H). pose proof (wf_cap _ H). unfold capacity in *.
  case Nat.ltb_spec; intros Hn; [|case Nat.ltb_spec; intros Hn'].
  - split_and!.
    + unfold grown. rewrite length_app, length_replicate. lia.
    + unfold grown. rewrite length_app, length_replicate. lia.
    + unfold grown. rewrite Forall_app. split; [by auto with tsg|by apply Forall_replicate].
    + intros k. rewrite word_or_0_grown by lia. by apply as_slice_word.
  - destruct (fill_Ok (E:=Empty_set) (words b) (words_in_use b) n 0%N)
      as (ws & Hf & Hl & Hok & Hk); [lia|lia|].
    unfold fill in Hf. rewrite decide_True in Hf by lia. injection Hf as <-.
    split_and!; [lia|lia|by apply Hok, word_ok_0; apply H|].
    intros k. rewrite Hk. destruct (Nat.leb_spec (words_in_use b) k) as [Hge|]; cbn; [|done].
    case Nat.ltb_spec; [|done]. intros _. symmetry. apply word_zero; [apply H|].
    intros i Hi. apply H. pose proof (words_in_use_le b). nlia.
  - split_and!; [lia|lia|apply H|done].
Qed.

(** [insert_all] is the union of the bits; it returns [true] exactly when
    some bit is new. *)
Lemma insert_all_spec b o r b' :
  wf b → wf o → insert_all b o = (r, b') →
  wf b' ∧ (∀ i, bit (words b') i = bit (words b) i || bit (words o) i) ∧
  (r = true ↔ ∃ i, bit (words o) i = true ∧ bit (words b) i = false).
Proof.
  intros H Ho. unfold insert_all. destruct (Nat.eqb_spec (words_in_use o) 0) as [H0|H0].
  { intros [= <- <-]. pose proof (words_in_use_0 _ Ho H0) as Hz. split_and!; [done| |].
    - intros i. by rewrite Hz, orb_false_r.
    - split; [done|]. intros (i & Hi & _). by rewrite Hz in Hi. }
  destruct (insert_all_block b (words_in_use o) H) as (Hn & Hu & Hok & Hk).
  set (ws := if (capacity b <? _)%nat then _ else _) in *.
  destruct (or_words 0 ws (as_slice o)) as [ws' any] eqn:E. intros [= <- <-].
  apply or_words_spec in E as (Hl & Hk' & Hany); [|by rewrite as_slice_length].
  assert (∀ i, bit ws' i = bit (words b) i || bit (words o) i) as Hbit.
  { intros i. rewrite <- (as_slice_bit o) by done. unfold bit. by rewrite Hk', N.lor_spec, Hk. }
  split_and!; [split|done|]; cbn.
  - rewrite Forall_lookup. intros k w Hw.
    replace w with (word_or_0 ws' k) by (unfold word_or_0; by rewrite Hw).
    rewrite Hk'. pose proof (as_slice_ok _ Ho). by auto with tsg.
  - unfold words_in_use, capacity in *. cbn. rewrite Hl. case N.ltb_spec; lia.
  - pose proof (wf_num _ H). pose proof (wf_num _ Ho). case N.ltb_spec; lia.
  - intros i Hi. rewrite Hbit, (wf_high b), (wf_high o); [done|done| |done|];
      revert Hi; case N.ltb_spec; lia.
  - rewrite negb_true_iff, N.eqb_neq, Hany. split.
    + intros [?|(k & Hne)]; [done|].
      assert (word_ok (N.land (word_or_0 (as_slice o) k) (u64_not (word_or_0 ws k)))) as Hw.
      { pose proof (as_slice_ok _ Ho). by auto with tsg. }
      set (w := N.land _ _) in *. pose proof (trailing_zeros_lt w Hne Hw) as Hj.
      pose proof (trailing_zeros_bit w Hne) as Hb. unfold w at 1 in Hb.
      rewrite N.land_spec, u64_not_bit, Hk, <- !bit_at, as_slice_bit in Hb by done.
      apply andb_prop in Hb as [? ?%negb_true_iff]. by eexists.
    + intros (i & Hi & Hi'). right. exists (N.to_nat (i / 64)). intros Hz.
      rewrite <- (as_slice_bit o) in Hi by done.
      apply (f_equal (λ w, N.testbit w (i mod 64))) in Hz.
      rewrite N.land_spec, u64_not_bit, N.bits_0, Hk in Hz by nlia.
      unfold bit in Hi, Hi'. by rewrite Hi, Hi' in Hz.
Qed.

(** *** Comparisons *)
Definition same_bits (a b : t) : Prop := ∀ i, bit (words a) i = bit (words b) i.

Lemma same_bits_words a b :
  wf a → wf b → same_bits a b ↔ ∀ k, word_or_0 (as_slice a) k = word_or_0 (as_slice b) k.
Proof.
  intros Ha Hb. split.
  - intros H k. apply word_eq; [by auto with tsg..|]. intros i _. by rewrite !as_slice_bit.
  - intros H i. rewrite <- as_slice_bit, <- (as_slice_bit b) by done. by apply bit_ext.
Qed.

Lemma eq_loop_spec a b i n :
  eq_loop a b i n = true ↔ ∀ k, i ≤ k < i + n → word_or_0 a k = word_or_0 b k.
Proof.
  revert i. induction n as [|n IH]; intros i; cbn.
  { split; [lia|done]. }
  destruct (N.eqb_spec (word_or_0 a i) (word_or_0 b i)) as [He|Hne]; cbn.
  - rewrite IH. split; intros H k Hk; [|apply H; lia].
    destruct (decide (k = i)) as [->|]; [done|]. apply H. lia.
  - split; [done|]. intros H. destruct Hne. apply H. lia.
Qed.

Lemma eq_spec a b : wf a → wf b → eq a b = true ↔ same_bits a b.
Proof.
  intros Ha Hb. rewrite same_bits_words by done. unfold eq. rewrite eq_loop_spec.
  split; [|auto]. intros H k.
  destruct (decide (k < length (as_slice a) `max` length (as_slice b))); [apply H; lia|].
  by rewrite !word_or_0_ge by lia.
Qed.

(** [a] is greater than [b]: at the first bit where they differ [a]'s is set. *)
Definition bits_gt (a b : list N) : Prop :=
  ∃ i, bit a i = true ∧ bit b i = false ∧ ∀ j, (j < i)%N → bit a j = bit b j.

Lemma first_diff_spec a b k :
  Forall word_ok a → Forall word_ok b →
  (∀ k', k' < k → word_or_0 a k' = word_or_0 b k') →
  word_or_0 a k ≠ word_or_0 b k →
  let d := trailing_zeros (N.lxor (word_or_0 a k) (word_or_0 b k)) in
  let i := (64 * N.of_nat k + d)%N in
  bit a i = N.testbit (word_or_0 a k) d ∧ bit b i = negb (bit a i) ∧
  ∀ j, (j < i)%N → bit a j = bit b j.
Proof.
  intros Ha Hb Hlow Hne d i.
  set (x := N.lxor _ _) in *.
  assert (x ≠ 0%N) as Hx by (unfold x; by rewrite N.lxor_eq_0_iff).
  assert (word_ok x) as Hok.
  { pose proof (word_ok_word_or_0 a k Ha) as Oa. pose proof (word_ok_word_or_0 b k Hb) as Ob.
    rewrite word_ok_bits in *. intros j Hj. unfold x. by rewrite N.lxor_spec, Oa, Ob. }
  pose proof (trailing_zeros_lt x Hx Hok) as Hd.
  pose proof (trailing_zeros_bit x Hx) as Hbit.
  unfold i. rewrite !bit_at by done. split_and!; [done| |].
  - unfold x in Hbit. rewrite N.lxor_spec in Hbit. fold x d in Hbit.
    by destruct (N.testbit (word_or_0 a k) d), (N.testbit (word_or_0 b k) d).
  - intros j Hj. unfold bit.
    destruct (decide (N.to_nat (j / 64) < k)); [by rewrite Hlow|].
    replace (N.to_nat (j / 64)) with k by nlia.
    pose proof (trailing_zeros_low x (j mod 64) Hx ltac:(nlia)) as Hz.
    unfold x in Hz. rewrite N.lxor_spec in Hz.
    by destruct (N.testbit (word_or_0 a k) (j mod 64)), (N.testbit (word_or_0 b k) (j mod 64)).
Qed.

Lemma cmp_loop_spec a b k n :
  Forall word_ok a → Forall word_ok b →
  (∀ k', k' < k → word_or_0 a k' = word_or_0 b k') →
  match cmp_loop a b k n with
  | Eq => ∀ k', k' < k + n → word_or_0 a k' = word_or_0 b k'
  | Gt => bits_gt a b
  | Lt => bits_gt b a
  end.
Proof.
  intros Ha Hb. revert k. induction n as [|n IH]; intros k Hlow; cbn.
  { intros k' Hk'. apply Hlow. lia. }
  destruct (N.eqb_spec (word_or_0 a k) (word_or_0 b k)) as [He|Hne]; cbn.
  - specialize (IH (S k)). rewrite <- Nat.add_succ_comm. apply IH.
    intros k' Hk'. destruct (decide (k' = k)) as [->|]; [done|]. apply Hlow. lia.
  - destruct (first_diff_spec a b k Ha Hb Hlow Hne) as (H1 & H2 & H3).
    set (i := (64 * N.of_nat k + _)%N) in *.
    unfold test_word. rewrite test_word_testbit, <- H1.
    destruct (bit a i) eqn:E; exists i; split_and!; try done.
    intros j Hj. symmetry. by apply H3.
Qed.

(** [cmp] orders bit vectors by their first differing bit and is [Eq]
    exactly on equal bit contents. *)
Lemma cmp_spec a b :
  wf a → wf b →
  match cmp a b with
  | Eq => same_bits a b
  | Gt => bits_gt (words a) (words b)
  | Lt => bits_gt (words b) (words a)
  end.
Proof.
  intros Ha Hb. unfold cmp.
  pose proof (cmp_loop_spec (as_slice a) (as_slice b) 0
    (length (as_slice a) `max` length (as_slice b)) (as_slice_ok _ Ha) (as_slice_ok _ Hb)
    ltac:(lia)) as H.
  destruct (cmp_loop _ _ _ _).
  - rewrite same_bits_words by done. intros k.
    destruct (decide (k < length (as_slice a) `max` length (as_slice b))); [apply H; lia|].
    by rewrite !word_or_0_ge by lia.
  - destruct H as (i & H1 & H2 & H3). exists i. rewrite <- !as_slice_bit by done.
    split_and!; [done..|]. intros. rewrite <- !as_slice_bit by done. by apply H3.
  - destruct H as (i & H1 & H2 & H3). exists i. rewrite <- !as_slice_bit by done.
    split_and!; [done..|]. intros. rewrite <- !as_slice_bit by done. by apply H3.
Qed.

(** *** Hashing *)
Lemma effective_len_spec ws :
  effective_len ws ≤ length ws ∧
  (∀ k, effective_len ws ≤ k → word_or_0 ws k = 0%N) ∧
  (∀ n, effective_len ws = S n → word_or_0 ws n ≠ 0%N).
Proof.
  induction ws as [|w ws (IH1 & IH2 & IH3)]; cbn; [by split_and!|].
  destruct (effective_len ws) as [|m].
  - destruct (N.eqb_spec w 0) as [->|Hw].
    + split_and!; [lia| |done]. intros [|k] _; [done|]. apply IH2. lia.
    + split_and!; [lia| |]; [intros [|k] ?; [lia|apply IH2; lia]|]. by intros n [= <-].
  - split_and!; [lia| |].
    + intros [|k] ?; [lia|]. apply IH2. lia.
    + intros n [= <-]. by apply IH3.
Qed.

Lemma effective_len_ext ws1 ws2 :
  (∀ k, word_or_0 ws1 k = word_or_0 ws2 k) → effective_len ws1 ≤ effective_len ws2.
Proof.
  intros H. destruct (effective_len_spec ws1) as (_ & _ & H1).
  destruct (effective_len_spec ws2) as (_ & H2 & _).
  destruct (effective_len ws1) as [|n]; [lia|]. apply not_gt. intros ?.
  apply (H1 n eq_refl). rewrite H. apply H2. lia.
Qed.

(** Vectors with the same bits hash alike, whatever their lengths. *)
Lemma hash_input_spec a b : wf a → wf b → same_bits a b → hash_input a = hash_input b.
Proof.
  intros Ha Hb H. rewrite same_bits_words in H by done. unfold hash_input.
  assert (effective_len (as_slice a) = effective_len (as_slice b)) as Heq.
  { apply Nat.le_antisymm; by apply effective_len_ext. }
  destruct (effective_len_spec (as_slice a)) as (Hla & _).
  destruct (effective_len_spec (as_slice b)) as (Hlb & _).
  rewrite <- Heq in *. apply list_eq. intros k.
  destruct (decide (k < effective_len (as_slice a))).
  - rewrite !lookup_take_lt by done. rewrite !lookup_word_or_0 by lia. by rewrite H.
  - by rewrite !lookup_take_ge by lia.
Qed.

End BitVec.

(** ** The iterator over set bits *)
Module SetBits.

Record t := mk { data : list N; word_idx : nat; current_word : N }.

Definition new (data : list N) : t := mk data 0 (default 0%N (data !! 0)).

(** The [while self.current_word == 0] loop: [None] when the data ends. *)
Fixpoint skip_zeros (n : nat) (s : t) : outcome Empty_set (option t) :=
  if negb (current_word s =? 0)%N then Ok (Some s)
  else
    let word_idx := S (word_idx s) in
    if (length (data s) <=? word_idx)%nat then Ok None
    else match n with
         | O => OutOfFuel
         | S n' => w ← vec_get (data s) word_idx; skip_zeros n' (mk (data s) word_idx w)
         end.

Definition next (s : t) : outcome Empty_set (option (N * t)) :=
  o ← skip_zeros (length (data s)) s;
  match o with
  | None => Ok None
  | Some s =>
      let bit := trailing_zeros (current_word s) in
      let w := N.land (current_word s) (current_word s - 1) in
      Ok (Some (N.of_nat (word_idx s) * 64 + bit, mk (data s) (word_idx s) w))%N
  end.

(** The whole iteration. *)
Fixpoint collect (n : nat) (s : t) : outcome Empty_set (list N) :=
  o ← next s;
  match o with
  | None => Ok []
  | Some (i, s') =>
      match n with
      | O => OutOfFuel
      | S n' => rest ← collect n' s'; Ok (i :: rest)
      end
  end.

Definition iter (data : list N) : outcome Empty_set (list N) :=
  collect (64 * length data) (new data).

(** *** The indices an iterator still has to yield *)
Definition remaining (s : t) (i : N) : Prop :=
  (N.to_nat (i / 64) = word_idx s ∧ N.testbit (current_word s) (i mod 64) = true) ∨
  (word_idx s < N.to_nat (i / 64) ∧ BitVec.bit (data s) i = true).

Record ok (s : t) : Prop := {
  ok_data : Forall word_ok (data s);
  ok_word : word_ok (current_word s);
}.

Lemma skip_zeros_spec n s :
  ok s → length (data s) ≤ word_idx s + n →
  (skip_zeros n s = Ok None ∧ ∀ i, ¬ remaining s i) ∨
  ∃ s', skip_zeros n s = Ok (Some s') ∧ ok s' ∧ current_word s' ≠ 0%N ∧
    data s' = data s ∧ ∀ i, remaining s' i ↔ remaining s i.
Proof.
  revert s. induction n as [|n IH]; intros [ws k w] [Hok Hw] Hn; cbn in *;
    (destruct (N.eqb_spec w 0) as [->|Hne]; cbn; [|right; by eexists]).
  - case Nat.leb_spec; [|lia]. intros _. left. split; [done|].
    intros i [[_ Hb]|[Hk Hb]]; cbn in *; [first [done|by rewrite N.bits_0 in Hb]|].
    unfold BitVec.bit in Hb. rewrite BitVec.word_or_0_ge in Hb by lia. by rewrite N.bits_0 in Hb.
  - case Nat.leb_spec; intros Hk.
    { left. split; [done|].
      intros i [[_ Hb]|[Hk' Hb]]; cbn in *; [first [done|by rewrite N.bits_0 in Hb]|].
      unfold BitVec.bit in Hb. rewrite BitVec.word_or_0_ge in Hb by lia. by rewrite N.bits_0 in Hb. }
    rewrite (vec_get_Some _ _ _ (BitVec.lookup_word_or_0 _ _ Hk)). cbn [mbind outcome_bind].
    assert (∀ i, remaining (mk ws (S k) (BitVec.word_or_0 ws (S k))) i ↔ remaining (mk ws k 0) i) as Hrem.
    { intros i. unfold remaining. cbn. split.
      - intros [[Hi Hb]|[Hi Hb]]; right; (split; [lia|]); [|done].
        unfold BitVec.bit. by rewrite Hi.
      - intros [[_ Hb]|[Hi Hb]]; [first [done|by rewrite N.bits_0 in Hb]|].
        destruct (decide (N.to_nat (i / 64) = S k)) as [He|]; [left|right; split; [lia|done]].
        split; [done|]. unfold BitVec.bit in Hb. by rewrite He in Hb. }
    destruct (IH (mk ws (S k) (BitVec.word_or_0 ws (S k)))) as [[Hs Hno]|(s' & Hs & Ho & Hc & Hd & Hr)].
    { split; [done|]. by apply BitVec.word_ok_word_or_0. }
    { cbn. lia. }
    + left. split; [done|]. intros i. rewrite <- Hrem. apply Hno.
    + right. exists s'. split_and!; [done..|]. intros i. by rewrite Hr, Hrem.
Qed.

(** [next] yields the least remaining index and removes it. *)
Lemma next_spec s :
  ok s →
  (next s = Ok None ∧ ∀ i, ¬ remaining s i) ∨
  ∃ i s', next s = Ok (Some (i, s')) ∧ ok s' ∧ data s' = data s ∧ remaining s i ∧
    (∀ j, remaining s' j ↔ remaining s j ∧ i ≠ j) ∧ (∀ j, remaining s j → (i ≤ j)%N).
Proof.
  intros Hok. unfold next.
  destruct (skip_zeros_spec (length (data s)) s Hok) as [[-> Hno]|(s' & -> & Ho & Hc & Hd & Hr)];
    [lia|by left|right]. cbn [mbind outcome_bind].
  destruct s' as [ws k w], Ho as [Hws Hw]; cbn in *.
  pose proof (trailing_zeros_lt w Hc Hw) as Htz. pose proof (trailing_zeros_bit w Hc) as Hbit.
  set (i := (N.of_nat k * 64 + trailing_zeros w)%N).
  assert (N.to_nat (i / 64) = k ∧ i mod 64 = trailing_zeros w)%N as [Hi1 Hi2] by (unfold i; nlia).
  eexists i, _. split_and!; [done| |done| | |].
  - split; [done|]. by apply word_ok_land.
  - apply Hr. left. cbn. by rewrite Hi1, Hi2.
  - intros j. rewrite <- Hr. unfold remaining. cbn. rewrite clear_lowest_bit by done.
    rewrite andb_true_iff, negb_true_iff, N.eqb_neq. split.
    + intros [(H1 & H2 & H3)|[H1 H2]]; (split; [naive_solver|]); intros <-; [by rewrite Hi2 in H3|lia].
    + intros [[[H1 H2]|?] Hne]; [left|by right]. split_and!; [done..|].
      intros H3. apply Hne. unfold i. nlia.
  - intros j Hj%Hr. destruct Hj as [[H1 H2]|[H1 H2]]; cbn in *; [|unfold i; nlia].
    destruct (N.lt_ge_cases (j mod 64) (trailing_zeros w)) as [Hlt|]; [|unfold i; nlia].
    by rewrite (trailing_zeros_low w) in H2.
Qed.

Lemma collect_spec n s lo :
  ok s → (∀ i, remaining s i → lo ≤ i < lo + N.of_nat n)%N →
  ∃ l, collect n s = Ok l ∧ StronglySorted N.lt l ∧ (∀ i, i ∈ l ↔ remaining s i).
Proof.
  revert s lo. induction n as [|n IH]; intros s lo Hok Hlo; cbn;
    destruct (next_spec s Hok) as [[-> Hno]|(i & s' & -> & Ho & Hd & Hi & Hr & Hmin)]; cbn.
  1, 3: exists []; split_and!; [done|constructor|]; intros i; rewrite elem_of_nil; naive_solver.
  - specialize (Hlo i Hi). lia.
  - destruct (IH s' (i + 1)%N Ho) as (l & -> & Hs & Hl).
    { intros j [Hj Hne]%Hr. pose proof (Hlo _ Hj). pose proof (Hlo _ Hi).
      pose proof (Hmin j Hj). lia. }
    cbn. exists (i :: l). split_and!; [done| |].
    + constructor; [done|]. apply Forall_forall. intros j [Hj Hne]%Hl%Hr.
      specialize (Hmin j Hj). lia.
    + intros j. rewrite elem_of_cons, Hl, Hr. split; [naive_solver|].
      intros Hj. destruct (N.eq_dec j i); naive_solver.
Qed.

(** The iterator terminates and yields the indices of the set bits, each
    once, in increasing order. *)
Lemma iter_spec ws :
  Forall word_ok ws →
  ∃ l, iter ws = Ok l ∧ StronglySorted N.lt l ∧ ∀ i, i ∈ l ↔ BitVec.bit ws i = true.
Proof.
  intros Hws. unfold iter.
  assert (ok (new ws)) as Hok.
  { split; [done|]. apply (BitVec.word_ok_word_or_0 ws 0 Hws). }
  assert (∀ i, remaining (new ws) i ↔ BitVec.bit ws i = true) as Hrem.
  { intros i. unfold remaining, BitVec.bit. cbn. fold (BitVec.word_or_0 ws 0). split.
    - intros [[-> ?]|[_ ?]]; done.
    - intros. destruct (decide (N.to_nat (i / 64) = 0)) as [H0|H0]; [left|right].
      + by rewrite H0 in *.
      + split; [|done]. by apply Nat.neq_0_lt_0. }
  destruct (collect_spec (64 * length ws) (new ws) 0 Hok) as (l & ? & ? & Hl).
  - intros i Hi. pose proof Hi as Hb%Hrem.
    destruct (decide (N.to_nat (i / 64) < length ws)); [nlia|].
    unfold BitVec.bit in Hb. rewrite BitVec.word_or_0_ge in Hb by lia. by rewrite N.bits_0 in Hb.
  - exists l. split_and!; [done..|]. intros i. by rewrite Hl, Hrem.
Qed.

(** *** Counting *)
Lemma clear_lowest_double w : w ≠ 0%N → N.land (2 * w) (2 * w - 1) = (2 * N.land w (w - 1))%N.
Proof.
  intros Hw. apply N.bits_inj. intros k.
  replace (2 * w - 1)%N with (2 * (w - 1) + 1)%N by lia. rewrite N.land_spec.
  destruct (N.zero_or_succ k) as [->|[j ->]]; [by rewrite !N.testbit_even_0|].
  by rewrite !N.double_bits_succ, N.testbit_odd_succ', N.land_spec.
Qed.

Lemma clear_lowest_odd w : N.land (2 * w + 1) (2 * w + 1 - 1) = (2 * w)%N.
Proof.
  apply N.bits_inj. intros k. rewrite N.add_sub, N.land_spec.
  destruct (N.zero_or_succ k) as [->|[j ->]]; [by rewrite N.testbit_even_0, andb_false_r|].
  rewrite N.double_bits_succ, N.testbit_odd_succ'. by destruct (N.testbit w j).
Qed.

Lemma count_ones_clear w : w ≠ 0%N → count_ones w = S (count_ones (N.land w (w - 1))).
Proof.
  destruct w as [|p]; [done|]. intros _.
  induction p as [p _|p IH|]; [| |done].
  - change (N.pos (xI p)) with (2 * N.pos p + 1)%N at 2 3. rewrite clear_lowest_odd.
    pose proof (count_ones_double_add false (N.pos p)) as H. rewrite N.add_0_r in H.
    rewrite H. cbn. lia.
  - change (N.pos (xO p)) with (2 * N.pos p)%N at 2 3. rewrite clear_lowest_double by done.
    pose proof (count_ones_double_add false (N.land (N.pos p) (N.pos p - 1))) as H.
    rewrite N.add_0_r in H. rewrite H. cbn in *. lia.
Qed.

Definition count_words (ws : list N) : nat := sum_list (count_ones <$> ws).

(** The number of indices still to come. *)
Definition pending (s : t) : nat :=
  count_ones (current_word s) + count_words (drop (S (word_idx s)) (data s)).

Lemma skip_zeros_pending n s :
  match skip_zeros n s with
  | Ok None => pending s = 0
  | Ok (Some s') => pending s' = pending s ∧ current_word s' ≠ 0%N
  | _ => True
  end.
Proof.
  revert s. induction n as [|n IH]; intros [ws k w]; cbn;
    destruct (N.eqb_spec w 0) as [->|Hne]; cbn; try done.
  - case Nat.leb_spec; [|done]. intros. unfold pending. cbn. by rewrite drop_ge by lia.
  - case Nat.leb_spec; intros Hk.
    { unfold pending. cbn. by rewrite drop_ge by lia. }
    rewrite (vec_get_Some _ _ _ (BitVec.lookup_word_or_0 _ _ Hk)). cbn [mbind outcome_bind].
    specialize (IH (mk ws (S k) (BitVec.word_or_0 ws (S k)))).
    assert (pending (mk ws (S k) (BitVec.word_or_0 ws (S k))) = pending (mk ws k 0)) as Hp.
    { unfold pending. cbn.
      rewrite (drop_S _ _ _ (BitVec.lookup_word_or_0 _ _ Hk)). done. }
    rewrite Hp in IH. exact IH.
Qed.

Lemma collect_length n s l : collect n s = Ok l → length l = pending s.
Proof.
  revert s l. induction n as [|n IH]; intros s l; cbn; unfold next;
    pose proof (skip_zeros_pending (length (data s)) s) as Hp;
    destruct (skip_zeros _ s) as [[[ws k w]|]| | |]; cbn; try done.
  1, 3: by intros [= <-].
  destruct Hp as [Hp Hw]. intros H. inv_ok. cbn. rewrite (IH _ _ H0), <- Hp.
  unfold pending. cbn. rewrite (count_ones_clear w) by done. lia.
Qed.

Lemma iter_length ws l : iter ws = Ok l → length l = count_words ws.
Proof.
  intros ->%collect_length. unfold pending, new. cbn. by destruct ws.
Qed.

End SetBits.
