(* ===== verification/Symbols.v ===== *)
(** * [crates/generate/src/rules.rs]: symbols, aliases, precedences and the
    metadata of a rule *)
From S2P Require Import Prelude.

(** An interned string: the 1-based raw id of [strpool.rs]. *)
Notation StrId := N (only parsing).

(** The discriminants are the declaration order, [External = 0] on. *)
Inductive SymbolType := External | End | EndOfNonTerminalExtra | Terminal | NonTerminal.
#[global] Instance SymbolType_eq_dec : EqDecision SymbolType.
Proof. solve_decision. Defined.

(** [kind as u8]. *)
Definition kind_code (k : SymbolType) : N :=
  match k with
  | External => 0
  | End => 1
  | EndOfNonTerminalExtra => 2
  | Terminal => 3
  | NonTerminal => 4
  end.

Definition kind_of_code (n : N) : SymbolType :=
  match n with
  | 0 => External
  | 1 => End
  | 2 => EndOfNonTerminalExtra
  | 3 => Terminal
  | _ => NonTerminal
  end%N.

Lemma kind_of_code_code k : kind_of_code (kind_code k) = k.
Proof. by destruct k. Qed.

Record Symbol := mkSymbol { kind : SymbolType; index : N }.
#[global] Instance Symbol_eq_dec : EqDecision Symbol.
Proof. solve_decision. Defined.
#[global] Instance Symbol_countable : Countable Symbol.
Proof.
  apply (inj_countable' (λ s, (kind_code (kind s), index s))
                        (λ '(k, i), mkSymbol (kind_of_code k) i)).
  intros [k i]. cbn. by rewrite kind_of_code_code.
Defined.

Definition is_terminal (s : Symbol) : bool := bool_decide (kind s = Terminal).
Definition is_non_terminal (s : Symbol) : bool := bool_decide (kind s = NonTerminal).
Definition is_external (s : Symbol) : bool := bool_decide (kind s = External).
Definition is_eof (s : Symbol) : bool := bool_decide (kind s = End).

(** The constructors cast a [usize] index to [u32]. *)
Definition non_terminal (i : N) : Symbol := mkSymbol NonTerminal (wrap_u32 i).
Definition terminal (i : N) : Symbol := mkSymbol Terminal (wrap_u32 i).
Definition external (i : N) : Symbol := mkSymbol External (wrap_u32 i).
Definition end_ : Symbol := mkSymbol End 0.
Definition end_of_nonterminal_extra : Symbol := mkSymbol EndOfNonTerminalExtra 0.

(** The derived [Ord]: kind first, then index. *)
Definition symbol_cmp (a b : Symbol) : comparison :=
  match (kind_code (kind a) ?= kind_code (kind b))%N with
  | Eq => (index a ?= index b)%N
  | c => c
  end.

Inductive Associativity := Left | Right.
#[global] Instance Associativity_eq_dec : EqDecision Associativity.
Proof. solve_decision. Defined.

Record Alias := mkAlias { value : StrId; is_named : bool }.
#[global] Instance Alias_eq_dec : EqDecision Alias.
Proof. solve_decision. Defined.

Inductive VariableType := Hidden | Auxiliary | Anonymous | Named.
#[global] Instance VariableType_eq_dec : EqDecision VariableType.
Proof. solve_decision. Defined.

Definition alias_kind (a : Alias) : VariableType := if is_named a then Named else Anonymous.

Inductive Precedence := PNone | PInteger (n : Z) | PName (name : StrId).
#[global] Instance Precedence_eq_dec : EqDecision Precedence.
Proof. solve_decision. Defined.

Record MetadataParams := mkMetadataParams {
  precedence : Precedence;
  associativity : option Associativity;
  dynamic_precedence : Z;
  alias : option Alias;
  field : option StrId;
  is_token : bool;
  is_main_token : bool;
}.
#[global] Instance MetadataParams_eq_dec : EqDecision MetadataParams.
Proof. solve_decision. Defined.

Definition default_params : MetadataParams :=
  mkMetadataParams PNone None 0 None None false false.
