(* ===== verification/TokenSet.v ===== *)
(** * [crates/generate/src/rules.rs]: [TokenSet]

    Sets of tokens as two bit vectors and two flags.  [toks] reads a token set
    as a finite set of symbols; the operations refine the set operations. *)
From S2P Require Import Prelude BitVec Symbols.

Record TokenSet := mkTokenSet {
  terminal_bits : BitVec.t;
  external_bits : BitVec.t;
  eof : bool;
  end_of_nt_extra : bool;
}.

Definition new : TokenSet := mkTokenSet BitVec.new BitVec.new false false.

Definition with_capacity (n_terminals n_externals : N) : TokenSet :=
  mkTokenSet (BitVec.with_capacity n_terminals) (BitVec.with_capacity n_externals) false false.

(** [iter()], collected. *)
Definition iter (s : TokenSet) : outcome Empty_set (list Symbol) :=
  ts ← SetBits.iter (BitVec.as_slice (terminal_bits s));
  es ← SetBits.iter (BitVec.as_slice (external_bits s));
  Ok (map terminal ts ++ map external es
      ++ (if eof s then [end_] else [])
      ++ (if end_of_nt_extra s then [end_of_nonterminal_extra] else [])).

Definition terminals (s : TokenSet) : outcome Empty_set (list Symbol) :=
  ts ← SetBits.iter (BitVec.as_slice (terminal_bits s)); Ok (map terminal ts).

Definition contains {E} (s : TokenSet) (symbol : Symbol) : outcome E bool :=
  match kind symbol with
  | NonTerminal => Panic
  | Terminal => o ← BitVec.get (terminal_bits s) (index symbol); Ok (default false o)
  | External => o ← BitVec.get (external_bits s) (index symbol); Ok (default false o)
  | End => Ok (eof s)
  | EndOfNonTerminalExtra => Ok (end_of_nt_extra s)
  end.

Definition contains_terminal {E} (s : TokenSet) (i : N) : outcome E bool :=
  o ← BitVec.get (terminal_bits s) i; Ok (default false o).

(** The tail of [insert], on the selected bit vector. *)
Definition insert_bit {E} (vec : BitVec.t) (i : N) : outcome E BitVec.t :=
  vec ← (if (BitVec.len vec <=? i)%N then BitVec.resize vec (i + 1) false else Ok vec);
  BitVec.set vec i true.

Definition insert {E} (s : TokenSet) (other : Symbol) : outcome E TokenSet :=
  let '(mkTokenSet t e f x) := s in
  match kind other with
  | NonTerminal => Panic
  | Terminal => t ← insert_bit t (index other); Ok (mkTokenSet t e f x)
  | External => e ← insert_bit e (index other); Ok (mkTokenSet t e f x)
  | End => Ok (mkTokenSet t e true x)
  | EndOfNonTerminalExtra => Ok (mkTokenSet t e f true)
  end.

(** [while vec.last() == Some(false) { vec.pop(); }]. *)
Fixpoint trim {E} (n : nat) (vec : BitVec.t) : outcome E BitVec.t :=
  o ← BitVec.last vec;
  match o with
  | Some false =>
      match n with
      | O => OutOfFuel
      | S n' => '(_, vec) ← BitVec.pop vec; trim n' vec
      end
  | _ => Ok vec
  end.

Definition remove_bit {E} (vec : BitVec.t) (i : N) : outcome E (bool * BitVec.t) :=
  present ← (if (i <? BitVec.len vec)%N then BitVec.index vec i else Ok false);
  if present : bool then
    vec ← BitVec.set vec i false;
    vec ← trim (N.to_nat (BitVec.len vec)) vec;
    Ok (true, vec)
  else Ok (false, vec).

Definition remove {E} (s : TokenSet) (other : Symbol) : outcome E (bool * TokenSet) :=
  let '(mkTokenSet t e f x) := s in
  match kind other with
  | NonTerminal => Panic
  | Terminal => '(r, t) ← remove_bit t (index other); Ok (r, mkTokenSet t e f x)
  | External => '(r, e) ← remove_bit e (index other); Ok (r, mkTokenSet t e f x)
  | End => Ok (if f then (true, mkTokenSet t e false x) else (false, s))
  | EndOfNonTerminalExtra => Ok (if x then (true, mkTokenSet t e f false) else (false, s))
  end.

Definition is_empty (s : TokenSet) : bool :=
  negb (eof s) && negb (end_of_nt_extra s)
  && forallb (λ w, w =? 0)%N (BitVec.as_slice (terminal_bits s))
  && forallb (λ w, w =? 0)%N (BitVec.as_slice (external_bits s)).

Definition len (s : TokenSet) : nat :=
  Nat.b2n (eof s) + Nat.b2n (end_of_nt_extra s)
  + sum_list (count_ones <$> BitVec.as_slice (terminal_bits s))
  + sum_list (count_ones <$> BitVec.as_slice (external_bits s)).

Definition insert_all_terminals (s other : TokenSet) : bool * TokenSet :=
  let '(r, t) := BitVec.insert_all (terminal_bits s) (terminal_bits other) in
  (r, mkTokenSet t (external_bits s) (eof s) (end_of_nt_extra s)).

Definition insert_all_externals (s other : TokenSet) : bool * TokenSet :=
  let '(r, e) := BitVec.insert_all (external_bits s) (external_bits other) in
  (r, mkTokenSet (terminal_bits s) e (eof s) (end_of_nt_extra s)).

Definition set_eof (s : TokenSet) : TokenSet :=
  mkTokenSet (terminal_bits s) (external_bits s) true (end_of_nt_extra s).
Definition set_end_of_nt_extra (s : TokenSet) : TokenSet :=
  mkTokenSet (terminal_bits s) (external_bits s) (eof s) true.

Definition insert_all (s other : TokenSet) : bool * TokenSet :=
  let '(r1, s) := if eof other then (negb (eof s), set_eof s) else (false, s) in
  let '(r2, s) := if end_of_nt_extra other
                  then (r1 || negb (end_of_nt_extra s), set_end_of_nt_extra s) else (r1, s) in
  let '(r3, s) := insert_all_terminals s other in
  let '(r4, s) := insert_all_externals s other in
  (r2 || r3 || r4, s).

(** [FromIterator]. *)
Fixpoint from_iter_loop {E} (acc : TokenSet) (l : list Symbol) : outcome E TokenSet :=
  match l with
  | [] => Ok acc
  | x :: l => acc ← insert acc x; from_iter_loop acc l
  end.
Definition from_iter {E} (l : list Symbol) : outcome E TokenSet := from_iter_loop new l.

(** The derived [PartialEq] and the [Ord] implementation. *)
Definition eq (a b : TokenSet) : bool :=
  BitVec.eq (terminal_bits a) (terminal_bits b)
  && BitVec.eq (external_bits a) (external_bits b)
  && Bool.eqb (eof a) (eof b)
  && Bool.eqb (end_of_nt_extra a) (end_of_nt_extra b).

(** [then_with]. *)
Definition then_cmp (c d : comparison) : comparison := match c with Eq => d | _ => c end.

Definition cmp (a b : TokenSet) : comparison :=
  then_cmp (BitVec.cmp (terminal_bits a) (terminal_bits b))
  (then_cmp (BitVec.cmp (external_bits a) (external_bits b))
  (then_cmp (Bool.compare (eof a) (eof b))
            (Bool.compare (end_of_nt_extra a) (end_of_nt_extra b)))).

(** What the derived [Hash] feeds to the hasher. *)
Definition hash_input (s : TokenSet) : list N * list N * bool * bool :=
  (BitVec.hash_input (terminal_bits s), BitVec.hash_input (external_bits s),
   eof s, end_of_nt_extra s).

(** ** Lemmas *)

(** The symbols a token set can hold; the [end] symbols have index 0, and the
    largest index a set can grow to hold is [u32::MAX - 1]. *)
Definition token (x : Symbol) : Prop :=
  match kind x with
  | NonTerminal => False
  | Terminal | External => (index x + 1 < U32)%N
  | End | EndOfNonTerminalExtra => index x = 0%N
  end.

Record wf (s : TokenSet) : Prop := {
  wf_terminal : BitVec.wf (terminal_bits s);
  wf_external : BitVec.wf (external_bits s);
}.

(** Membership of a token. *)
Definition mem (s : TokenSet) (x : Symbol) : bool :=
  match kind x with
  | NonTerminal => false
  | Terminal => BitVec.bit (BitVec.words (terminal_bits s)) (index x)
  | External => BitVec.bit (BitVec.words (external_bits s)) (index x)
  | End => eof s
  | EndOfNonTerminalExtra => end_of_nt_extra s
  end.

(** The set of tokens a token set stands for. *)
Definition toks (s : TokenSet) : gset Symbol :=
  match iter s with Ok l => list_to_set l | _ => ∅ end.

Lemma wf_new : wf new.
Proof.
  assert (BitVec.wf BitVec.new) as H.
  { split; cbn; [constructor|done|done|]. intros. apply N.bits_0. }
  by split.
Qed.

Lemma bitvec_wf_with_capacity n : BitVec.wf (BitVec.with_capacity n).
Proof.
  unfold BitVec.with_capacity. case N.eqb_spec; intros; [apply wf_new|].
  split; cbn; [by apply Forall_replicate|apply Nat.le_0_l|done|].
  intros i _. unfold BitVec.bit, BitVec.word_or_0.
  destruct (replicate _ _ !! _) eqn:E; cbn; [|done].
  apply lookup_replicate in E as [-> _]. done.
Qed.

Lemma wf_with_capacity n m : wf (with_capacity n m).
Proof. split; apply bitvec_wf_with_capacity. Qed.
#[global] Hint Resolve wf_new wf_with_capacity wf_terminal wf_external : tsg.

Lemma bit_index_small b i : BitVec.wf b → BitVec.bit (BitVec.words b) i = true → (i + 1 < U32)%N.
Proof.
  intros H Hb. destruct (N.lt_ge_cases i (BitVec.num_bits b)) as [Hi|Hi].
  - pose proof (BitVec.wf_num _ H). lia.
  - by rewrite (BitVec.wf_high _ H) in Hb.
Qed.

(** The iterator over one bit vector. *)
Lemma iter_bits b :
  BitVec.wf b →
  ∃ l, SetBits.iter (BitVec.as_slice b) = Ok l ∧ NoDup l ∧
    (∀ i, i ∈ l ↔ BitVec.bit (BitVec.words b) i = true) ∧
    length l = sum_list (count_ones <$> BitVec.as_slice b).
Proof.
  intros H. destruct (SetBits.iter_spec (BitVec.as_slice b)) as (l & Hl & Hs & Hi); [by auto with tsg|].
  exists l. split_and!; [done| | |by apply SetBits.iter_length].
  - clear -Hs. induction Hs as [|x l Hs IH Hx]; constructor; [|done].
    intros Hin. rewrite Forall_forall in Hx. specialize (Hx _ Hin). lia.
  - intros i. by rewrite Hi, BitVec.as_slice_bit.
Qed.

Definition small (l : list N) : Prop := ∀ i, i ∈ l → (i < U32)%N.

(** The symbols of kind [k] with the indices [l]. *)
Lemma elem_of_kind_map k l x :
  small l → x ∈ map (λ j, mkSymbol k (wrap_u32 j)) l ↔ kind x = k ∧ index x ∈ l.
Proof.
  intros Hl. rewrite elem_of_map. destruct x as [k' i]. cbn. split.
  - intros (j & Hj & Hin). injection Hj as -> ->. by rewrite wrap_u32_small by auto.
  - intros [-> Hin]. exists i. by rewrite wrap_u32_small by auto.
Qed.

Lemma NoDup_kind_map k l : small l → NoDup l → NoDup (map (λ j, mkSymbol k (wrap_u32 j)) l).
Proof.
  intros Hl Hn. induction Hn as [|x l Hx Hn IH]; cbn; [constructor|].
  assert (small l) as Hl' by (intros i Hi; apply Hl; by right).
  constructor; [|by apply IH]. rewrite elem_of_kind_map by done. cbn.
  rewrite wrap_u32_small by (apply Hl; left). naive_solver.
Qed.

Definition flag_list (b : bool) (x : Symbol) : list Symbol := if b then [x] else [].
Lemma elem_of_flag_list b x y : y ∈ flag_list b x ↔ b = true ∧ y = x.
Proof. destruct b; cbn; rewrite ?list_elem_of_singleton, ?elem_of_nil; naive_solver. Qed.
Lemma NoDup_flag_list b x : NoDup (flag_list b x).
Proof. destruct b; cbn; [apply NoDup_singleton|constructor]. Qed.

(** [iter] yields each token of the set once. *)
Lemma toks_iter_spec s :
  wf s →
  ∃ l, iter s = Ok l ∧ NoDup l ∧ (∀ x, x ∈ l ↔ token x ∧ mem s x = true) ∧ length l = len s.
Proof.
  intros [Ht He]. unfold iter.
  destruct (iter_bits _ Ht) as (ts & -> & Hnt & Hts & Hlt).
  destruct (iter_bits _ He) as (es & -> & Hne & Hes & Hle). cbn [mbind outcome_bind].
  assert (small ts) as Hst.
  { intros i Hi%Hts. pose proof (bit_index_small _ _ Ht Hi). lia. }
  assert (small es) as Hse.
  { intros i Hi%Hes. pose proof (bit_index_small _ _ He Hi). lia. }
  change (if eof s then _ else _) with (flag_list (eof s) end_).
  change (if end_of_nt_extra s then _ else _)
    with (flag_list (end_of_nt_extra s) end_of_nonterminal_extra).
  change (map terminal ts) with (map (λ j, mkSymbol Terminal (wrap_u32 j)) ts).
  change (map external es) with (map (λ j, mkSymbol External (wrap_u32 j)) es).
  eexists. split; [done|]. split_and!.
  - pose proof (NoDup_flag_list (eof s) end_).
    pose proof (NoDup_flag_list (end_of_nt_extra s) end_of_nonterminal_extra).
    rewrite !NoDup_app. split_and!; try done; try by apply NoDup_kind_map.
    all: intros [k i]; rewrite ?elem_of_app, ?elem_of_kind_map, ?elem_of_flag_list by done; cbn.
    all: unfold end_, end_of_nonterminal_extra; intuition congruence.
  - intros [k i]. rewrite !elem_of_app, !elem_of_kind_map, !elem_of_flag_list by done.
    rewrite Hts, Hes. unfold token, mem, end_, end_of_nonterminal_extra. cbn [kind index].
    pose proof (bit_index_small _ i Ht). pose proof (bit_index_small _ i He).
    destruct k; naive_solver.
  - rewrite !length_app, !length_map. unfold len. rewrite <- Hlt, <- Hle.
    destruct (eof s), (end_of_nt_extra s); cbn; lia.
Qed.

Lemma elem_of_toks s x : wf s → x ∈ toks s ↔ token x ∧ mem s x = true.
Proof.
  intros H. unfold toks. destruct (toks_iter_spec s H) as (l & -> & _ & Hl & _).
  rewrite elem_of_list_to_set. apply Hl.
Qed.

Lemma toks_new : toks new = ∅.
Proof.
  apply set_eq. intros x. rewrite elem_of_toks by apply wf_new.
  split; [|set_solver]. intros [Hx Hm]. unfold mem in Hm. by destruct (kind x).
Qed.

Lemma toks_with_capacity n m : toks (with_capacity n m) = ∅.
Proof.
  apply set_eq. intros x. rewrite elem_of_toks by apply wf_with_capacity.
  split; [|set_solver]. intros [_ Hm].
  assert (∀ k i, BitVec.bit (BitVec.words (BitVec.with_capacity k)) i = false) as Hz.
  { intros k i. apply (BitVec.wf_high _ (bitvec_wf_with_capacity k)).
    assert (BitVec.num_bits (BitVec.with_capacity k) = 0%N) as -> by (unfold BitVec.with_capacity; by case_match). lia. }
  unfold mem, with_capacity in Hm. cbn in Hm. destruct (kind x); rewrite ?Hz in Hm; done.
Qed.

(** Two tokens are the same when they name the same bit or flag. *)
Lemma toks_ext s t :
  wf s → wf t → toks s = toks t ↔ ∀ x, token x → mem s x = mem t x.
Proof.
  intros Hs Ht. split.
  - intros H x Hx. assert (x ∈ toks s ↔ x ∈ toks t) as Hiff by by rewrite H.
    rewrite !elem_of_toks in Hiff by done. destruct (mem s x), (mem t x); naive_solver.
  - intros H. apply set_eq. intros x. rewrite !elem_of_toks by done.
    split; intros [Hx Hm]; (split; [done|]); [by rewrite <- H|by rewrite H].
Qed.

Lemma contains_spec {E} s x :
  wf s → kind x ≠ NonTerminal → contains (E:=E) s x = Ok (mem s x).
Proof.
  intros [Ht He] Hx. unfold contains, mem. destruct (kind x); try done.
  - rewrite BitVec.get_spec by done. cbn. case N.ltb_spec; intros; [done|].
    by rewrite (BitVec.wf_high _ He).
  - rewrite BitVec.get_spec by done. cbn. case N.ltb_spec; intros; [done|].
    by rewrite (BitVec.wf_high _ Ht).
Qed.

Lemma insert_bit_spec {E} b i :
  BitVec.wf b → (i + 1 < U32)%N →
  ∃ b', insert_bit (E:=E) b i = Ok b' ∧ BitVec.wf b' ∧
    ∀ j, BitVec.bit (BitVec.words b') j = if decide (j = i) then true else BitVec.bit (BitVec.words b) j.
Proof.
  intros H Hi. unfold insert_bit, BitVec.len. case N.leb_spec; intros Hle.
  - destruct (BitVec.resize_grow_spec (E:=E) b (i + 1)) as (b1 & -> & Hw & Hn & Hb); [done|lia|].
    cbn. destruct (BitVec.set_spec (E:=E) b1 i true) as (b2 & -> & Hw2 & _ & Hb2); [done|lia|].
    exists b2. split_and!; [done..|]. intros j. by rewrite Hb2, Hb.
  - cbn. destruct (BitVec.set_spec (E:=E) b i true) as (b2 & -> & Hw2 & _ & Hb2); [done..|].
    by exists b2.
Qed.

(** The loop that pops trailing zeros changes no bit. *)
Lemma trim_spec {E} n b :
  BitVec.wf b → (BitVec.num_bits b ≤ N.of_nat n)%N →
  ∃ b', trim (E:=E) n b = Ok b' ∧ BitVec.wf b' ∧ BitVec.same_bits b' b.
Proof.
  revert b. induction n as [|n IH]; intros b H Hn; cbn [trim]; unfold BitVec.last;
    destruct (N.eqb_spec (BitVec.num_bits b) 0) as [H0|H0]; cbn [mbind outcome_bind];
    try (by exists b); [lia|].
  rewrite BitVec.get_spec by done. rewrite (proj2 (N.ltb_lt _ _)) by lia. cbn [mbind outcome_bind].
  destruct (BitVec.bit _ _) eqn:Hb; [by exists b|].
  destruct (BitVec.pop_spec (E:=E) b) as (b1 & -> & Hw & Hn1 & Hb1); [done..|]. cbn [mbind outcome_bind].
  destruct (IH b1) as (b2 & -> & Hw2 & Hs2); [done|lia|].
  exists b2. split_and!; [done..|]. intros i. rewrite Hs2, Hb1.
  case_bool_decide as Hi; [done|]. cbn.
  by replace i with (BitVec.num_bits b - 1)%N by (destruct (N.eq_dec i (BitVec.num_bits b - 1)); naive_solver).
Qed.

Lemma remove_bit_spec {E} b i :
  BitVec.wf b →
  ∃ b', remove_bit (E:=E) b i = Ok (BitVec.bit (BitVec.words b) i, b') ∧ BitVec.wf b' ∧
    ∀ j, BitVec.bit (BitVec.words b') j = if decide (j = i) then false else BitVec.bit (BitVec.words b) j.
Proof.
  intros H. unfold remove_bit, BitVec.len. case N.ltb_spec; intros Hi; cbn [mbind outcome_bind].
  - rewrite BitVec.index_spec by done. cbn [mbind outcome_bind].
    destruct (BitVec.bit (BitVec.words b) i) eqn:Hb.
    + destruct (BitVec.set_spec (E:=E) b i false) as (b1 & -> & Hw1 & Hn1 & Hb1); [done..|].
      cbn [mbind outcome_bind].
      destruct (trim_spec (E:=E) (N.to_nat (BitVec.num_bits b1)) b1) as (b2 & -> & Hw2 & Hs2);
        [done|lia|]. exists b2. split_and!; [done..|]. intros j. by rewrite Hs2.
    + exists b. split_and!; [done..|]. intros j. by case_decide; subst.
  - rewrite (BitVec.wf_high _ H i Hi). exists b. split_and!; [done..|].
    intros j. case_decide; subst; [by rewrite (BitVec.wf_high _ H)|done].
Qed.

Lemma insert_spec {E} s x :
  wf s → token x →
  ∃ s', insert (E:=E) s x = Ok s' ∧ wf s' ∧ toks s' = {[x]} ∪ toks s.
Proof.
  intros H Hx. pose proof H as [Ht He]. destruct s as [t e f n]; cbn in *.
  assert (∀ s', wf s' →
    (∀ y, token y → mem s' y = bool_decide (y = x) || mem (mkTokenSet t e f n) y) →
    toks s' = {[x]} ∪ toks (mkTokenSet t e f n)) as Hfin.
  { intros s' Hs' Hm. apply set_eq. intros y. rewrite elem_of_union, elem_of_singleton, !elem_of_toks by done.
    split.
    - intros [Hy Hb]. rewrite Hm in Hb by done. apply orb_prop in Hb as [Hb%bool_decide_eq_true|Hb]; auto.
    - intros [->|[Hy Hb]]; (split; [done|]); rewrite Hm by done; [by rewrite bool_decide_true|].
      by rewrite Hb, orb_true_r. }
  unfold insert. destruct x as [k i]. destruct k; cbn [kind index]; unfold token in Hx; cbn in Hx; try done.
  - destruct (insert_bit_spec (E:=E) e i He Hx) as (e' & -> & Hw & Hb). eexists.
    split_and!; [done|done|]. apply Hfin; [done|]. intros [ky j] Hy. unfold mem. cbn.
    destruct ky; cbn; try (by rewrite bool_decide_false). rewrite Hb.
    case_decide; case_bool_decide; naive_solver.
  - eexists. split_and!; [done|done|]. apply Hfin; [done|]. intros [ky j] Hy. unfold mem, token in *. cbn in *.
    destruct ky; cbn; try (by rewrite bool_decide_false). by rewrite bool_decide_true by naive_solver.
  - eexists. split_and!; [done|done|]. apply Hfin; [done|]. intros [ky j] Hy. unfold mem, token in *. cbn in *.
    destruct ky; cbn; try (by rewrite bool_decide_false). by rewrite bool_decide_true by naive_solver.
  - destruct (insert_bit_spec (E:=E) t i Ht Hx) as (t' & -> & Hw & Hb). eexists.
    split_and!; [done|done|]. apply Hfin; [done|]. intros [ky j] Hy. unfold mem. cbn.
    destruct ky; cbn; try (by rewrite bool_decide_false). rewrite Hb.
    case_decide; case_bool_decide; naive_solver.
Qed.

Lemma remove_spec {E} s x :
  wf s → token x →
  ∃ s', remove (E:=E) s x = Ok (bool_decide (x ∈ toks s), s') ∧ wf s' ∧ toks s' = toks s ∖ {[x]}.
Proof.
  intros H Hx. pose proof H as [Ht He].
  assert (bool_decide (x ∈ toks s) = mem s x) as ->.
  { destruct (mem s x) eqn:Em; [apply bool_decide_eq_true|apply bool_decide_eq_false];
      rewrite elem_of_toks by done; intuition congruence. }
  assert (∀ s', wf s' → (∀ y, token y → mem s' y = negb (bool_decide (y = x)) && mem s y) →
    toks s' = toks s ∖ {[x]}) as Hfin.
  { intros s' Hs' Hm. apply set_eq. intros y.
    rewrite elem_of_difference, elem_of_singleton, !elem_of_toks by done. split.
    - intros [Hy Hb]. rewrite Hm in Hb by done. apply andb_prop in Hb as [Hb%negb_true_iff Hb'].
      by apply bool_decide_eq_false in Hb.
    - intros [[Hy Hb] Hne]. split; [done|]. by rewrite Hm, bool_decide_false, Hb. }
  destruct s as [t e f n]; cbn in *.
  unfold remove. destruct x as [k i]. destruct k; cbn [kind index]; unfold token in Hx; cbn in Hx; try done.
  - destruct (remove_bit_spec (E:=E) e i He) as (e' & -> & Hw & Hb). eexists.
    split_and!; [done|done|]. apply Hfin; [done|]. intros [ky j] Hy. unfold mem. cbn.
    destruct ky; cbn; try (by rewrite bool_decide_false). rewrite Hb.
    case_decide; case_bool_decide; naive_solver.
  - exists (mkTokenSet t e false n). split_and!; [by destruct f|done|].
    apply Hfin; [done|]. intros [ky j] Hy. unfold mem, token in *. cbn in *.
    destruct ky; cbn; try (by rewrite bool_decide_false). by rewrite bool_decide_true by naive_solver.
  - exists (mkTokenSet t e f false). split_and!; [by destruct n|done|].
    apply Hfin; [done|]. intros [ky j] Hy. unfold mem, token in *. cbn in *.
    destruct ky; cbn; try (by rewrite bool_decide_false). by rewrite bool_decide_true by naive_solver.
  - destruct (remove_bit_spec (E:=E) t i Ht) as (t' & -> & Hw & Hb). eexists.
    split_and!; [done|done|]. apply Hfin; [done|]. intros [ky j] Hy. unfold mem. cbn.
    destruct ky; cbn; try (by rewrite bool_decide_false). rewrite Hb.
    case_decide; case_bool_decide; naive_solver.
Qed.

Lemma insert_all_mem s o r s' :
  wf s → wf o → insert_all s o = (r, s') →
  wf s' ∧ (∀ y, mem s' y = mem s y || mem o y) ∧
  (r = true ↔ ∃ y, token y ∧ mem o y = true ∧ mem s y = false).
Proof.
  intros [Ht He] [Hto Heo]. unfold insert_all, insert_all_terminals, insert_all_externals.
  destruct s as [t e f n], o as [t' e' f' n']; cbn in *.
  destruct (BitVec.insert_all t t') as [rt tt] eqn:Et.
  destruct (BitVec.insert_all e e') as [re ee] eqn:Ee.
  pose proof (BitVec.insert_all_spec _ _ _ _ Ht Hto Et) as (Wt & Bt & Rt).
  pose proof (BitVec.insert_all_spec _ _ _ _ He Heo Ee) as (We & Be & Re).
  set (s1 := mkTokenSet tt ee (f || f') (n || n')).
  intros Heq. assert (s' = s1 ∧ r = (f' && negb f) || (n' && negb n) || rt || re) as [-> ->].
  { unfold s1. clear s1 Bt Rt Be Re Wt We.
    destruct f', n'; cbn in Heq; rewrite Et in Heq; cbn in Heq; rewrite Ee in Heq;
      injection Heq as <- <-; by destruct f, n, rt, re. }
  split_and!; [done| |].
  - intros [k i]. unfold mem. by destruct k; cbn.
  - rewrite !orb_true_iff, Rt, Re. split.
    + intros [[[?|?]|(i & ? & ?)]|(i & ? & ?)].
      * exists end_. by destruct f', f.
      * exists end_of_nonterminal_extra. by destruct n', n.
      * exists (mkSymbol Terminal i). split_and!; [by eapply (bit_index_small t')|done..].
      * exists (mkSymbol External i). split_and!; [by eapply (bit_index_small e')|done..].
    + intros ([k i] & Hy & Ho & Hs). unfold mem in *. destruct k; cbn in *; try done.
      * right. by exists i.
      * left. left. left. by rewrite Ho, Hs.
      * left. left. right. by rewrite Ho, Hs.
      * left. right. by exists i.
Qed.

Lemma toks_insert_all_spec s o r s' :
  wf s → wf o → insert_all s o = (r, s') →
  wf s' ∧ toks s' = toks s ∪ toks o ∧ r = bool_decide (¬ toks o ⊆ toks s).
Proof.
  intros Hs Ho Heq. destruct (insert_all_mem s o r s' Hs Ho Heq) as (Hw & Hm & Hr).
  split_and!; [done| |].
  - apply set_eq. intros y. rewrite elem_of_union, !elem_of_toks, Hm, orb_true_iff by done. tauto.
  - symmetry. destruct r.
    + apply bool_decide_eq_true. destruct Hr as [Hr _]. destruct (Hr eq_refl) as (y & Hy & H1 & H2).
      intros Hsub. assert (y ∈ toks s) as Hin by (apply Hsub; by rewrite elem_of_toks).
      rewrite elem_of_toks in Hin by done. destruct Hin. congruence.
    + apply bool_decide_eq_false. intros Hn. apply Hn. intros y.
      rewrite !elem_of_toks by done. intros [Hy Hmo]. split; [done|].
      destruct (mem s y) eqn:Em; [done|]. destruct Hr as [_ Hr].
      assert (false = true) by (apply Hr; by exists y). done.
Qed.

Lemma len_spec s : wf s → len s = size (toks s).
Proof.
  intros H. destruct (toks_iter_spec s H) as (l & Hl & Hn & _ & <-).
  unfold toks. rewrite Hl. symmetry. by apply size_list_to_set.
Qed.

Lemma forallb_words_0 b :
  BitVec.wf b →
  forallb (λ w, w =? 0)%N (BitVec.as_slice b) = true ↔ ∀ i, BitVec.bit (BitVec.words b) i = false.
Proof.
  intros H. rewrite forallb_forall. split.
  - intros Hz i. rewrite <- BitVec.as_slice_bit by done. unfold BitVec.bit, BitVec.word_or_0.
    destruct (BitVec.as_slice b !! _) as [w|] eqn:E; [|done]. cbn.
    apply list_elem_of_lookup_2, list_elem_of_In, Hz, N.eqb_eq in E as ->. done.
  - intros Hz w Hw%list_elem_of_In. apply list_elem_of_lookup in Hw as [k Hk]. apply N.eqb_eq.
    replace w with (BitVec.word_or_0 (BitVec.as_slice b) k) by (unfold BitVec.word_or_0; by rewrite Hk).
    apply BitVec.word_zero; [by auto with tsg|]. intros. by rewrite BitVec.as_slice_bit.
Qed.

Lemma is_empty_spec s : wf s → is_empty s = bool_decide (toks s = ∅).
Proof.
  intros H. pose proof H as [Ht He]. symmetry. destruct (is_empty s) eqn:Em.
  - apply bool_decide_eq_true. unfold is_empty in Em.
    apply andb_prop in Em as [[[Hf%negb_true_iff Hx%negb_true_iff]%andb_prop H1]%andb_prop H2].
    rewrite forallb_words_0 in H1, H2 by done.
    apply set_eq. intros [k i]. rewrite elem_of_toks, elem_of_empty by done.
    unfold mem. destruct k; cbn; rewrite ?H1, ?H2, ?Hf, ?Hx; intuition congruence.
  - apply bool_decide_eq_false. intros Hz.
    assert (∀ x, token x → mem s x = false) as Hn.
    { intros x Hx. destruct (mem s x) eqn:Emx; [|done].
      assert (x ∈ toks s) by (by rewrite elem_of_toks). set_solver. }
    assert (∀ b k, (k = Terminal ∧ b = terminal_bits s) ∨ (k = External ∧ b = external_bits s) →
      BitVec.wf b → ∀ i, BitVec.bit (BitVec.words b) i = false) as Hbits.
    { intros b k Hk Hb i. destruct (BitVec.bit _ _) eqn:E; [|done].
      pose proof (bit_index_small _ _ Hb E). rewrite <- E.
      destruct Hk as [[-> ->]|[-> ->]];
        [by apply (Hn (mkSymbol Terminal i))|by apply (Hn (mkSymbol External i))]. }
    revert Em. unfold is_empty.
    rewrite (proj2 (forallb_words_0 _ Ht)), (proj2 (forallb_words_0 _ He)) by eauto.
    pose proof (Hn end_ eq_refl) as H1. pose proof (Hn end_of_nonterminal_extra eq_refl) as H2.
    unfold mem in *. cbn in H1, H2. by rewrite H1, H2.
Qed.

Lemma eq_fields_spec a b :
  wf a → wf b →
  toks a = toks b ↔
  BitVec.same_bits (terminal_bits a) (terminal_bits b) ∧
  BitVec.same_bits (external_bits a) (external_bits b) ∧
  eof a = eof b ∧ end_of_nt_extra a = end_of_nt_extra b.
Proof.
  intros Ha Hb. rewrite toks_ext by done. split.
  - intros H. split_and!.
    + intros i. destruct (N.lt_ge_cases (i + 1) U32) as [Hi|Hi];
        [by apply (H (mkSymbol Terminal i))|].
      pose proof (BitVec.wf_num _ (wf_terminal _ Ha)). pose proof (BitVec.wf_num _ (wf_terminal _ Hb)).
      by rewrite !BitVec.wf_high by (try apply Ha; try apply Hb; lia).
    + intros i. destruct (N.lt_ge_cases (i + 1) U32) as [Hi|Hi];
        [by apply (H (mkSymbol External i))|].
      pose proof (BitVec.wf_num _ (wf_external _ Ha)). pose proof (BitVec.wf_num _ (wf_external _ Hb)).
      by rewrite !BitVec.wf_high by (try apply Ha; try apply Hb; lia).
    + by apply (H end_).
    + by apply (H end_of_nonterminal_extra).
  - intros (H1 & H2 & H3 & H4) [k i] _. unfold mem. by destruct k; cbn.
Qed.

Lemma toks_eq_spec a b : wf a → wf b → eq a b = bool_decide (toks a = toks b).
Proof.
  intros Ha Hb. symmetry. pose proof Ha as [? ?]. pose proof Hb as [? ?].
  destruct (eq a b) eqn:Em.
  - apply bool_decide_eq_true. rewrite eq_fields_spec by done. unfold eq in Em.
    apply andb_prop in Em as [[[H1 H2]%andb_prop H3]%andb_prop H4].
    apply BitVec.eq_spec in H1, H2; [|done..]. apply eqb_prop in H3, H4. by split_and!.
  - apply bool_decide_eq_false. rewrite eq_fields_spec by done. intros (H1 & H2 & H3 & H4).
    apply BitVec.eq_spec in H1, H2; [|done..]. unfold eq in Em.
    by rewrite H1, H2, H3, H4, !eqb_reflx in Em.
Qed.

Lemma cmp_Eq_spec a b : wf a → wf b → cmp a b = Eq ↔ toks a = toks b.
Proof.
  intros Ha Hb. rewrite eq_fields_spec by done. unfold cmp.
  pose proof (BitVec.cmp_spec _ _ (wf_terminal _ Ha) (wf_terminal _ Hb)) as Ht.
  pose proof (BitVec.cmp_spec _ _ (wf_external _ Ha) (wf_external _ Hb)) as He.
  assert (∀ v w, BitVec.bits_gt v w → (∀ i, BitVec.bit v i = BitVec.bit w i) → False) as Hgt.
  { intros v w (i & H1 & H2 & _) H. specialize (H i). congruence. }
  destruct (BitVec.cmp (terminal_bits a) _); cbn.
  - destruct (BitVec.cmp (external_bits a) _); cbn.
    + destruct (eof a), (eof b), (end_of_nt_extra a), (end_of_nt_extra b); cbn; naive_solver.
    + split; [done|]. intros (_ & H & _). exfalso. by eapply Hgt.
    + split; [done|]. intros (_ & H & _). exfalso. by eapply Hgt.
  - split; [done|]. intros (H & _). exfalso. by eapply Hgt.
  - split; [done|]. intros (H & _). exfalso. by eapply Hgt.
Qed.

(** ** Properties *)

(** C37: [contains], [insert] and [remove] refine membership, insertion and
    removal on the finite set of tokens [toks]; none of them panics on a
    well-formed set and a token, [remove] reports whether the token was
    present, and well-formedness is preserved. *)
Theorem token_set_refines s x :
  wf s → token x →
  contains (E:=Empty_set) s x = Ok (bool_decide (x ∈ toks s)) ∧
  (∃ s', insert (E:=Empty_set) s x = Ok s' ∧ wf s' ∧ toks s' = {[x]} ∪ toks s) ∧
  (∃ s', remove (E:=Empty_set) s x = Ok (bool_decide (x ∈ toks s), s') ∧ wf s' ∧
         toks s' = toks s ∖ {[x]}).
Proof.
  intros H Hx. split_and!; [|by apply insert_spec|by apply remove_spec].
  rewrite contains_spec by (try done; by destruct x as [[] ?]). f_equal. symmetry.
  destruct (mem s x) eqn:Em; [apply bool_decide_eq_true|apply bool_decide_eq_false];
    rewrite elem_of_toks by done; intuition congruence.
Qed.

(** [insert_all] is set union, and its result says exactly whether some
    token of [other] was missing, which is what the fixpoint loops over FIRST
    and FOLLOW sets test to stop. *)
Theorem token_set_union s o r s' :
  wf s → wf o → insert_all s o = (r, s') →
  wf s' ∧ toks s' = toks s ∪ toks o ∧ r = bool_decide (¬ toks o ⊆ toks s).
Proof. apply toks_insert_all_spec. Qed.

(** The iterator terminates and lists every token of the set once; [len]
    is its cardinality and [is_empty] tests emptiness. *)
Theorem token_set_observers s :
  wf s →
  (∃ l, iter s = Ok l ∧ NoDup l ∧ list_to_set l = toks s) ∧
  len s = size (toks s) ∧ is_empty s = bool_decide (toks s = ∅).
Proof.
  intros H. split_and!; [|by apply len_spec|by apply is_empty_spec].
  destruct (toks_iter_spec s H) as (l & Hl & Hn & _). exists l. unfold toks. by rewrite Hl.
Qed.

(** Equality, ordering and hashing look at the tokens only: two sets that
    differ in capacity or in trailing zero bits are equal, compare [Equal] and
    feed the same data to the hasher. *)
Theorem token_set_eq_cmp_hash a b :
  wf a → wf b →
  eq a b = bool_decide (toks a = toks b) ∧
  (cmp a b = Eq ↔ toks a = toks b) ∧
  (toks a = toks b → hash_input a = hash_input b).
Proof.
  intros Ha Hb. split_and!; [by apply toks_eq_spec|by apply cmp_Eq_spec|].
  intros (H1 & H2 & H3 & H4)%eq_fields_spec; [|done..]. unfold hash_input.
  rewrite H3, H4, (BitVec.hash_input_spec _ _ (wf_terminal _ Ha) (wf_terminal _ Hb) H1),
    (BitVec.hash_input_spec _ _ (wf_external _ Ha) (wf_external _ Hb) H2). done.
Qed.

(** The same four tokens with different capacities and lengths. *)
Definition example_a : TokenSet := mkTokenSet (BitVec.mk [8; 1]%N 65) (BitVec.mk [2]%N 2) true false.
Definition example_b : TokenSet := mkTokenSet (BitVec.mk [8; 1; 0; 0]%N 200) (BitVec.mk [2; 0]%N 2) true false.

Lemma wf_example_a : wf example_a.
Proof. split; by apply BitVec.check_wf. Qed.
Lemma wf_example_b : wf example_b.
Proof. split; by apply BitVec.check_wf. Qed.

Lemma token_set_refines_witness :
  wf example_a ∧ token (terminal 200) ∧
  ∃ s', insert (E:=Empty_set) example_a (terminal 200) = Ok s' ∧ wf s' ∧
        toks s' = {[terminal 200]} ∪ toks example_a.
Proof.
  split_and!; [apply wf_example_a|done|].
  exact (proj1 (proj2 (token_set_refines example_a (terminal 200) wf_example_a eq_refl))).
Defined.

Lemma token_set_union_witness :
  ∃ r s', insert_all new example_a = (r, s') ∧ toks s' = toks new ∪ toks example_a.
Proof.
  destruct (insert_all new example_a) as [r s'] eqn:E. exists r, s'. split; [done|].
  exact (proj1 (proj2 (token_set_union new example_a r s' wf_new wf_example_a E))).
Defined.

Lemma token_set_observers_witness :
  wf example_a ∧ iter example_a = Ok [terminal 3; terminal 64; external 1; end_] ∧
  len example_a = size (toks example_a).
Proof.
  split_and!; [apply wf_example_a|by vm_compute|].
  exact (proj1 (proj2 (token_set_observers example_a wf_example_a))).
Defined.

Lemma token_set_eq_cmp_hash_witness :
  eq example_a example_b = true ∧ eq example_a example_b = bool_decide (toks example_a = toks example_b).
Proof.
  split; [by vm_compute|].
  exact (proj1 (token_set_eq_cmp_hash example_a example_b wf_example_a wf_example_b)).
Defined.
