(* ===== verification/Ordering.v ===== *)
(** * Comparisons

    The derived and hand-written [Ord] implementations are compositions of
    comparisons of their parts; [TotalCmp] says that a comparison is a total order
    whose [Equal] is equality, and its instances say it of the compositions. *)
From S2P Require Import Prelude Symbols TokenSet.

(** The derived [Ord] of [Option] and of slices, strings being slices of bytes. *)
Definition opt_cmp {A} (f : A → A → comparison) (a b : option A) : comparison :=
  match a, b with
  | None, None => Eq
  | None, Some _ => Lt
  | Some _, None => Gt
  | Some a, Some b => f a b
  end.
Fixpoint list_cmp {A} (f : A → A → comparison) (a b : list A) : comparison :=
  match a, b with
  | [], [] => Eq
  | [], _ => Lt
  | _, [] => Gt
  | x :: a, y :: b => then_cmp (f x y) (list_cmp f a b)
  end.
Definition bytes_cmp : list N → list N → comparison := list_cmp N.compare.
(** Pairs, lexicographically; the cases of an enumeration, in order. *)
Definition pair_cmp {A B} (f : A → A → comparison) (g : B → B → comparison) (a b : A * B) : comparison :=
  then_cmp (f a.1 b.1) (g a.2 b.2).
Definition sum_cmp {A B} (f : A → A → comparison) (g : B → B → comparison) (a b : A + B) : comparison :=
  match a, b with
  | inl a, inl b => f a b
  | inr a, inr b => g a b
  | inl _, inr _ => Lt
  | inr _, inl _ => Gt
  end.

Lemma then_cmp_Eq c d : then_cmp c d = Eq ↔ c = Eq ∧ d = Eq.
Proof. destruct c; cbn; naive_solver. Qed.

Class TotalCmp {A} (c : A → A → comparison) : Prop := {
  tc_eq a b : c a b = Eq ↔ a = b;
  tc_opp a b : c b a = CompOpp (c a b);
  tc_trans a b d : c a b = Lt → c b d = Lt → c a d = Lt;
}.

Lemma tc_refl {A} (c : A → A → comparison) `{!TotalCmp c} a : c a a = Eq.
Proof. by apply tc_eq. Qed.
Lemma tc_le_trans {A} (c : A → A → comparison) `{!TotalCmp c} a b d : c a b ≠ Gt → c b d ≠ Gt → c a d ≠ Gt.
Proof.
  intros H1 H2. destruct (c a b) eqn:Hab; [|destruct (c b d) eqn:Hbd|done].
  - apply tc_eq in Hab as ->. done.
  - apply tc_eq in Hbd as ->. by rewrite Hab.
  - by rewrite (tc_trans a b d).
  - done.
Qed.

Lemma tc_lt_le_trans {A} (c : A → A → comparison) `{!TotalCmp c} a b d : c a b = Lt → c b d ≠ Gt → c a d = Lt.
Proof. intros Hab Hbd. destruct (c b d) eqn:Hc; [|by eapply tc_trans|done]. by apply tc_eq in Hc as <-. Qed.

#[export] Instance N_total : TotalCmp N.compare.
Proof.
  split; [apply N.compare_eq_iff|intros a b; apply N.compare_antisym|].
  intros a b d Hab%N.compare_lt_iff Hbd%N.compare_lt_iff. apply N.compare_lt_iff. by eapply N.lt_trans.
Qed.
#[export] Instance Z_total : TotalCmp Z.compare.
Proof.
  split; [apply Z.compare_eq_iff|intros a b; apply Z.compare_antisym|].
  intros a b d Hab%Z.compare_lt_iff Hbd%Z.compare_lt_iff. apply Z.compare_lt_iff. by eapply Z.lt_trans.
Qed.
#[export] Instance nat_total : TotalCmp Nat.compare.
Proof.
  split; [apply Nat.compare_eq_iff|intros a b; apply Nat.compare_antisym|].
  intros a b d Hab%Nat.compare_lt_iff Hbd%Nat.compare_lt_iff. apply Nat.compare_lt_iff. by eapply Nat.lt_trans.
Qed.
#[export] Instance bool_total : TotalCmp Bool.compare.
Proof. split; [by intros [] []|by intros [] []|by intros [] [] []]. Qed.

#[export] Instance opt_total {A} (f : A → A → comparison) `{!TotalCmp f} : TotalCmp (opt_cmp f).
Proof.
  split.
  - intros [a|] [b|]; cbn; try done. rewrite tc_eq. naive_solver.
  - intros [a|] [b|]; cbn; try done. apply tc_opp.
  - intros [a|] [b|] [d|]; cbn; try done. apply tc_trans.
Qed.
#[export] Instance pair_total {A B} (f : A → A → comparison) (g : B → B → comparison) `{!TotalCmp f, !TotalCmp g} :
  TotalCmp (pair_cmp f g).
Proof.
  unfold pair_cmp. split.
  - intros [a1 a2] [b1 b2]. cbn. destruct (f a1 b1) eqn:Hf; cbn; [|split; [done|]..].
    + apply tc_eq in Hf as ->. rewrite tc_eq. naive_solver.
    + intros [= <- <-]. by rewrite tc_refl in Hf.
    + intros [= <- <-]. by rewrite tc_refl in Hf.
  - intros [a1 a2] [b1 b2]. cbn. rewrite (tc_opp a1 b1). destruct (f a1 b1); cbn; [apply tc_opp|done|done].
  - intros [a1 a2] [b1 b2] [d1 d2]. cbn. destruct (f a1 b1) eqn:Hab; cbn; [|destruct (f b1 d1) eqn:Hbd; cbn; try done|done].
    + apply tc_eq in Hab as <-. destruct (f a1 d1); cbn; [apply tc_trans|done|done].
    + apply tc_eq in Hbd as <-. by rewrite Hab.
    + by rewrite (tc_trans _ _ _ Hab Hbd).
Qed.
#[export] Instance sum_total {A B} (f : A → A → comparison) (g : B → B → comparison) `{!TotalCmp f, !TotalCmp g} :
  TotalCmp (sum_cmp f g).
Proof.
  split.
  - intros [a|a] [b|b]; cbn; try done; rewrite tc_eq; naive_solver.
  - intros [a|a] [b|b]; cbn; try done; apply tc_opp.
  - intros [a|a] [b|b] [d|d]; cbn; try done; apply tc_trans.
Qed.
#[export] Instance list_total {A} (f : A → A → comparison) `{!TotalCmp f} : TotalCmp (list_cmp f).
Proof.
  split.
  - intros a. induction a as [|x a IH]; intros [|y b]; cbn; try done. destruct (f x y) eqn:Hf; cbn; [|split; [done|]..].
    + apply tc_eq in Hf as ->. rewrite IH. naive_solver.
    + intros [= <- <-]. by rewrite tc_refl in Hf.
    + intros [= <- <-]. by rewrite tc_refl in Hf.
  - intros a. induction a as [|x a IH]; intros [|y b]; cbn; try done.
    rewrite (tc_opp x y). destruct (f x y); cbn; [apply IH|done|done].
  - intros a. induction a as [|x a IH]; intros [|y b] [|z d]; cbn; try done.
    destruct (f x y) eqn:Hxy; cbn; [|destruct (f y z) eqn:Hyz; cbn; try done|done].
    + apply tc_eq in Hxy as <-. destruct (f x z); cbn; [apply IH|done|done].
    + apply tc_eq in Hyz as <-. by rewrite Hxy.
    + by rewrite (tc_trans _ _ _ Hxy Hyz).
Qed.
#[export] Instance bytes_total : TotalCmp bytes_cmp.
Proof. apply list_total, _. Qed.

(** A comparison through an injective key. *)
Lemma total_map {A B} (k : A → B) (f : B → B → comparison) `{!TotalCmp f} :
  (∀ a b, k a = k b → a = b) → TotalCmp (λ a b, f (k a) (k b)).
Proof.
  intros Hk. split; [|intros; apply tc_opp|intros a b d; apply tc_trans].
  intros a b. rewrite tc_eq. naive_solver.
Qed.
Lemma symbol_cmp_pair a b :
  symbol_cmp a b = pair_cmp N.compare N.compare (kind_code (kind a), index a) (kind_code (kind b), index b).
Proof. unfold symbol_cmp, pair_cmp. cbn. by destruct (kind_code (kind a) ?= kind_code (kind b))%N. Qed.
#[export] Instance symbol_total : TotalCmp symbol_cmp.
Proof.
  assert (TotalCmp (λ a b, pair_cmp N.compare N.compare (kind_code (kind a), index a) (kind_code (kind b), index b))) as [H1 H2 H3].
  { apply (total_map (λ a, (kind_code (kind a), index a)) (pair_cmp N.compare N.compare)).
    intros [k i] [k' i']. cbn. intros [= Hk ->]. by destruct k, k'. }
  split; intros *; rewrite !symbol_cmp_pair; eauto.
Qed.

(** ** Sorting with a comparison that may fail *)
Fixpoint insert_by_m {E A} (f : A → A → outcome E comparison) (x : A) (l : list A) : outcome E (list A) :=
  match l with
  | [] => Ok [x]
  | y :: l' => c ← f x y; match c with Gt => r ← insert_by_m f x l'; Ok (y :: r) | _ => Ok (x :: l) end
  end.
(** [sort_unstable_by]: insertion sort; callers must not depend on the order of
    equal elements. *)
Definition sort_by_m {E A} (f : A → A → outcome E comparison) (l : list A) : outcome E (list A) :=
  foldr (λ x m, s ← m; insert_by_m f x s) (Ok []) l.

Lemma insert_by_m_Ok {E A} (f : A → A → outcome E comparison) g x l :
  (∀ y, y ∈ l → f x y = Ok (g x y)) → insert_by_m f x l = Ok (insert_by g x l).
Proof.
  induction l as [|y l IH]; intros Hf; cbn; [done|]. rewrite Hf by apply list_elem_of_here. cbn.
  destruct (g x y); try done. rewrite IH; [done|]. intros z Hz. apply Hf. by apply list_elem_of_further.
Qed.
Lemma sort_by_m_Ok {E A} (f : A → A → outcome E comparison) g l :
  (∀ x y, x ∈ l → y ∈ l → f x y = Ok (g x y)) → sort_by_m f l = Ok (sort_by g l).
Proof.
  induction l as [|x l IH]; intros Hf; [done|].
  change (sort_by_m f (x :: l)) with (s ← sort_by_m f l; insert_by_m f x s).
  rewrite IH by (intros; apply Hf; by apply list_elem_of_further). cbn [mbind outcome_bind].
  apply insert_by_m_Ok. intros y Hy. apply Hf; [apply list_elem_of_here|].
  apply list_elem_of_further. by rewrite <- (sort_by_perm g l).
Qed.

(** Sorting by a key of a total order. *)
Section sort_key.
Context {A K : Type} (k : A → K) (f : K → K → comparison) `{!TotalCmp f}.
Lemma insert_by_key_sorted x l :
  StronglySorted (λ a b, f (k a) (k b) ≠ Gt) l → StronglySorted (λ a b, f (k a) (k b) ≠ Gt) (insert_by (λ a b, f (k a) (k b)) x l).
Proof.
  intros Hs. induction Hs as [|y l Hs IH Hy]; cbn; [by repeat constructor|].
  assert (f (k x) (k y) ≠ Gt → StronglySorted (λ a b, f (k a) (k b) ≠ Gt) (x :: y :: l)) as Hle.
  { intros Hxy. constructor; [by constructor|]. constructor; [done|]. rewrite Forall_forall in *.
    intros z Hz. eapply tc_le_trans; [exact _|exact Hxy|by apply Hy]. }
  destruct (f (k x) (k y)) eqn:Hf; [by apply Hle|by apply Hle|]. constructor; [done|].
  rewrite insert_by_perm. constructor; [|done]. by rewrite tc_opp, Hf.
Qed.
Lemma sort_by_key_sorted l : StronglySorted (λ a b, f (k a) (k b) ≠ Gt) (sort_by (λ a b, f (k a) (k b)) l).
Proof.
  induction l as [|x l IH]; [constructor|]. by apply insert_by_key_sorted.
Qed.
End sort_key.

(** ** Binary search with a comparison that may fail *)
Fixpoint bsearch_loop_m {E A} (fuel : nat) (f : A → outcome E comparison) (l : list A) (base size : nat) : outcome E nat :=
  match fuel with
  | O => Ok base
  | S fuel =>
      if Nat.leb size 1 then Ok base
      else
        let half := Nat.div2 size in
        let mid := base + half in
        base ← match l !! mid with
               | Some x => c ← f x; Ok (match c with Gt => base | _ => mid end)
               | None => Ok base
               end;
        bsearch_loop_m fuel f l base (size - half)
  end.
Definition binary_search_by_m {E A} (f : A → outcome E comparison) (l : list A) : outcome E (nat + nat) :=
  match l with
  | [] => Ok (inr 0)
  | _ =>
      base ← bsearch_loop_m (length l) f l 0 (length l);
      x ← vec_get l base;
      c ← f x;
      Ok (match c with Eq => inl base | Lt => inr (S base) | Gt => inr base end)
  end.

Lemma bsearch_loop_m_Ok {E A} (f : A → outcome E comparison) g l fuel base size :
  (∀ x, x ∈ l → f x = Ok (g x)) → bsearch_loop_m fuel f l base size = Ok (bsearch_loop fuel g l base size).
Proof.
  intros Hf. revert base size. induction fuel as [|fuel IH]; intros base size; cbn; [done|].
  case_match; [done|]. rewrite <- IH. destruct (l !! (base + Nat.div2 size)) as [x|] eqn:Hx; cbn; [|done].
  rewrite Hf by (by eapply list_elem_of_lookup_2). cbn. by destruct (g x).
Qed.
Lemma binary_search_by_m_Ok {E A} (f : A → outcome E comparison) g l :
  (∀ x, x ∈ l → f x = Ok (g x)) → bsearch_sorted g l → binary_search_by_m f l = Ok (binary_search_by g l).
Proof.
  intros Hf Hs. unfold binary_search_by_m, binary_search_by. destruct l as [|y l]; [done|].
  rewrite (bsearch_loop_m_Ok f g) by done. cbn [mbind outcome_bind].
  set (base := bsearch_loop _ _ _ _ _). assert (∃ x, (y :: l) !! base = Some x) as [x Hx].
  { pose proof (bsearch_loop_spec (length (y :: l)) g (y :: l) 0 (length (y :: l)) Hs) as Hb.
    apply lookup_lt_is_Some_2. apply Hb; [cbn; lia..| |by left]. intros j z Hj%lookup_lt_Some ?. lia. }
  rewrite (vec_get_Some _ _ _ Hx), Hx. cbn. rewrite Hf by (by eapply list_elem_of_lookup_2). cbn. by destruct (g x).
Qed.
