(* ===== verification/Lookaheads.v ===== *)
(** * [build_tables/item.rs]: interned lookahead sets

    The sets of lookahead tokens of parse items are interned: an id stands for
    one set, and unions are memoized by pairs of ids.  The pool keeps its sets in
    an [indexmap::IndexSet], a parameter. *)
From S2P Require Import Prelude BitVec Symbols TokenSet.

(** [IndexSet<TokenSet, _>], a parameter with what its documentation says:
    [get_index_of] is the index of the element equal to the one given,
    [insert_full] adds a new element at the end or finds the equal one, and the
    elements keep the order of insertion. *)
Class IndexSet (I : Type) := {
  is_empty_set : I;
  is_elems : I → list TokenSet;
  is_get_index_of : I → TokenSet → option nat;
  is_insert_full : I → TokenSet → (nat * bool) * I;
  is_elems_empty : is_elems is_empty_set = [];
  is_get_index_of_Some s x i : is_get_index_of s x = Some i → ∃ y, is_elems s !! i = Some y ∧ TokenSet.eq y x = true;
  is_get_index_of_None s x y : is_get_index_of s x = None → y ∈ is_elems s → TokenSet.eq y x = false;
  is_insert_full_found s x i : is_get_index_of s x = Some i → is_insert_full s x = ((i, false), s);
  is_insert_full_new s x : is_get_index_of s x = None →
    (is_insert_full s x).1 = (length (is_elems s), true) ∧ is_elems (is_insert_full s x).2 = is_elems s ++ [x];
}.

(** The laws can be met: a list. *)
Definition list_index_of (l : list TokenSet) (x : TokenSet) : option nat :=
  fst <$> list_find (λ y, TokenSet.eq y x = true) l.
#[global, program] Instance list_index_set : IndexSet (list TokenSet) := {|
  is_empty_set := [];
  is_elems l := l;
  is_get_index_of := list_index_of;
  is_insert_full l x := match list_index_of l x with Some i => ((i, false), l) | None => ((length l, true), l ++ [x]) end;
|}.
Next Obligation. done. Qed.
Next Obligation. intros l x i ([j y] & (? & ? & _)%list_find_Some & ->)%fmap_Some. by exists y. Qed.
Next Obligation.
  intros l x y Hl%fmap_None Hy. apply not_true_is_false. rewrite list_find_None, Forall_forall in Hl. by apply Hl.
Qed.
Next Obligation. intros l x i Hi. cbn. by rewrite Hi. Qed.
Next Obligation. intros l x Hi. cbn. by rewrite Hi. Qed.

Notation LookaheadSetId := N (only parsing).

Module Lookahead.
Section pool.
Context {I : Type} {IS : IndexSet I}.

Record LookaheadSetPool := mkLookaheads {
  sets : I;
  union_memo : gmap (N * N) N;
  insert_memo : gmap (N * Symbol) N;
}.
Definition EMPTY : LookaheadSetId := 0.

Definition get {E} (p : LookaheadSetPool) (id : LookaheadSetId) : outcome E TokenSet :=
  vec_get (is_elems (sets p)) (N.to_nat id).
Definition intern (p : LookaheadSetPool) (set : TokenSet) : LookaheadSetId * LookaheadSetPool :=
  let '((index, _), s) := is_insert_full (sets p) set in (as_u32 index, mkLookaheads s (union_memo p) (insert_memo p)).
Definition new_pool : LookaheadSetPool := (intern (mkLookaheads is_empty_set ∅ ∅) TokenSet.new).2.
Definition intern_ref (p : LookaheadSetPool) (set : TokenSet) : LookaheadSetId * LookaheadSetPool :=
  match is_get_index_of (sets p) set with
  | Some index => (as_u32 index, p)
  | None => intern p set
  end.
Definition insert {E} (p : LookaheadSetPool) (id : LookaheadSetId) (symbol : Symbol) : outcome E (LookaheadSetId * LookaheadSetPool) :=
  s ← get p id;
  c ← TokenSet.contains s symbol;
  if c : bool then Ok (id, p)
  else match insert_memo p !! (id, symbol) with
       | Some result => Ok (result, p)
       | None =>
           set ← get p id;
           set ← TokenSet.insert set symbol;
           let '(result, p) := intern p set in
           Ok (result, mkLookaheads (sets p) (union_memo p) (<[(id, symbol) := result]> (insert_memo p)))
       end.
Definition singleton {E} (p : LookaheadSetPool) (symbol : Symbol) : outcome E (LookaheadSetId * LookaheadSetPool) :=
  insert p EMPTY symbol.
Definition union {E} (p : LookaheadSetPool) (left right : LookaheadSetId) : outcome E (LookaheadSetId * LookaheadSetPool) :=
  if (left =? right)%N || (right =? EMPTY)%N then Ok (left, p)
  else if (left =? EMPTY)%N then Ok (right, p)
  else
    let key := (N.min left right, N.max left right) in
    match union_memo p !! key with
    | Some result => Ok (result, p)
    | None =>
        set ← get p key.1;
        other ← get p key.2;
        let set := (TokenSet.insert_all set other).2 in
        let '(result, p) := intern p set in
        Ok (result, mkLookaheads (sets p) (<[key := result]> (union_memo p)) (insert_memo p))
    end.

(** ** What an id stands for *)
Definition stands (p : LookaheadSetPool) (id : LookaheadSetId) (x : gset Symbol) : Prop :=
  ∃ s, is_elems (sets p) !! N.to_nat id = Some s ∧ toks s = x.

Record pool_wf (p : LookaheadSetPool) : Prop := {
  pw_sets : Forall TokenSet.wf (is_elems (sets p));
  pw_distinct : ∀ i j s t, is_elems (sets p) !! i = Some s → is_elems (sets p) !! j = Some t → toks s = toks t → i = j;
  pw_empty : stands p EMPTY ∅;
  pw_fits : (N.of_nat (length (is_elems (sets p))) ≤ U32)%N;
  pw_union : ∀ a b r, union_memo p !! (a, b) = Some r → ∃ x y, stands p a x ∧ stands p b y ∧ stands p r (x ∪ y);
  pw_insert : ∀ a s r, insert_memo p !! (a, s) = Some r → ∃ x, stands p a x ∧ stands p r ({[s]} ∪ x);
}.
Definition grows (p p' : LookaheadSetPool) : Prop := is_elems (sets p) `prefix_of` is_elems (sets p').

#[global] Instance grows_preorder : PreOrder grows.
Proof. unfold grows. split; [intros p; done|]. intros p p' p'' H1 H2. by etrans. Qed.
Lemma stands_grows p p' id x : grows p p' → stands p id x → stands p' id x.
Proof. intros Hg (s & Hs & Hx). exists s. split; [by eapply prefix_lookup_Some|done]. Qed.
Lemma stands_fun p id x y : stands p id x → stands p id y → x = y.
Proof. intros (s & Hs & <-) (t & Ht & <-). by simplify_eq. Qed.
Lemma stands_inj p a b x : pool_wf p → stands p a x → stands p b x → a = b.
Proof. intros Hp (s & Hs & <-) (t & Ht & Heq). apply N2Nat.inj. by eapply (pw_distinct p Hp). Qed.
Lemma get_stands {E} p id x : pool_wf p → stands p id x → ∃ s, get (E:=E) p id = Ok s ∧ TokenSet.wf s ∧ toks s = x.
Proof.
  intros Hp (s & Hs & Hx). exists s. split_and!; [by apply vec_get_Some| |done].
  pose proof (pw_sets p Hp) as Hw. rewrite Forall_lookup in Hw. by eapply Hw.
Qed.

Lemma lookahead_intern_spec p s x :
  pool_wf p → TokenSet.wf s → toks s = x → (N.of_nat (length (is_elems (sets p))) < U32)%N →
  let '(id, p') := intern p s in
  pool_wf p' ∧ grows p p' ∧ stands p' id x ∧ union_memo p' = union_memo p ∧ insert_memo p' = insert_memo p ∧
  length (is_elems (sets p')) ≤ S (length (is_elems (sets p))).
Proof.
  intros Hp Hs Hx Hlen. unfold intern.
  destruct (is_get_index_of (sets p) s) as [i|] eqn:Hi.
  - rewrite (is_insert_full_found _ _ _ Hi). destruct p as [st um im]. cbn in *.
    apply is_get_index_of_Some in Hi as (y & Hy & Heq). pose proof (pw_sets _ Hp) as Hw. rewrite Forall_lookup in Hw.
    rewrite toks_eq_spec in Heq by (done || by eapply Hw). apply bool_decide_eq_true in Heq.
    split_and!; [done|done| |done|done|lia]. exists y. rewrite as_u32_small; [by subst x|].
    apply lookup_lt_Some in Hy. lia.
  - destruct (is_insert_full_new _ _ Hi) as [H1 H2]. destruct (is_insert_full (sets p) s) as [[index b] st] eqn:Hins.
    cbn in H1, H2. injection H1 as -> ->. cbn.
    assert (grows p (mkLookaheads st (union_memo p) (insert_memo p))) as Hg by (unfold grows; cbn; rewrite H2; by eexists).
    assert (∀ j t, is_elems (sets p) !! j = Some t → toks t ≠ toks s) as Hnew.
    { intros j t Ht Heq. pose proof (pw_sets _ Hp) as Hw. rewrite Forall_lookup in Hw.
      eapply is_get_index_of_None in Hi; [|by eapply list_elem_of_lookup_2].
      rewrite toks_eq_spec in Hi by (done || by eapply Hw). by apply bool_decide_eq_false in Hi. }
    split_and!; [split; cbn|done| |done|done|rewrite H2, length_app; cbn; lia].
    + rewrite H2. apply Forall_app. split; [apply Hp|by constructor].
    + rewrite H2. intros i j t u [Ht|[Hli Ht]]%lookup_app_Some [Hu|[Hlj Hu]]%lookup_app_Some Heq;
        repeat match goal with H : [_] !! _ = Some _ |- _ => apply list_lookup_singleton_Some in H as [? <-] end.
      * by eapply (pw_distinct p Hp).
      * by destruct (Hnew _ _ Ht).
      * by destruct (Hnew _ _ Hu).
      * lia.
    + eapply stands_grows; [done|apply Hp].
    + rewrite H2, length_app. cbn. lia.
    + intros a c r Hr. destruct (pw_union p Hp a c r Hr) as (y & z & ? & ? & ?). exists y, z. split_and!; by eapply stands_grows.
    + intros a c r Hr. destruct (pw_insert p Hp a c r Hr) as (y & ? & ?). exists y. split; by eapply stands_grows.
    + exists s. rewrite as_u32_small by done. cbn. rewrite H2. split; [by apply list_lookup_middle|done].
Qed.

(** One more set fits. *)
Definition roomy (p : LookaheadSetPool) : Prop := (N.of_nat (length (is_elems (sets p))) < U32)%N.
(** A step of the pool whose result is the id of [x]. *)
Definition yields_id (p : LookaheadSetPool) (r : LookaheadSetId * LookaheadSetPool) (x : gset Symbol) : Prop :=
  pool_wf r.2 ∧ grows p r.2 ∧ stands r.2 r.1 x ∧ length (is_elems (sets r.2)) ≤ S (length (is_elems (sets p))).

Lemma lookahead_intern_ref_spec p s :
  pool_wf p → roomy p → TokenSet.wf s → yields_id p (intern_ref p s) (toks s).
Proof.
  intros Hp Hr Hs. unfold intern_ref. destruct (is_get_index_of (sets p) s) as [i|] eqn:Hi.
  - apply is_get_index_of_Some in Hi as (y & Hy & Heq). pose proof (pw_sets _ Hp) as Hw. rewrite Forall_lookup in Hw.
    rewrite toks_eq_spec in Heq by (done || by eapply Hw). apply bool_decide_eq_true in Heq.
    split_and!; cbn; [done|done| |lia]. exists y. rewrite as_u32_small; [done|].
    apply lookup_lt_Some in Hy. unfold roomy in Hr. lia.
  - pose proof (lookahead_intern_spec p s (toks s) Hp Hs eq_refl Hr) as Hsp. destruct (intern p s) as [id p']. unfold yields_id. by destruct_and!.
Qed.

(** The memo tables after an entry is added. *)
Lemma add_union_memo p a b r x y :
  pool_wf p → stands p a x → stands p b y → stands p r (x ∪ y) →
  pool_wf (mkLookaheads (sets p) (<[(a, b) := r]> (union_memo p)) (insert_memo p)).
Proof.
  intros Hp Ha Hb Hr. destruct Hp as [H1 H2 H3 H4 H5 H6]. split; try done.
  intros a' b' r' Hm. cbn in Hm. apply lookup_insert_Some in Hm as [[[= <- <-] <-]|[_ Hm]]; [by exists x, y|by eapply H5].
Qed.
Lemma add_insert_memo p a s r x :
  pool_wf p → stands p a x → stands p r ({[s]} ∪ x) →
  pool_wf (mkLookaheads (sets p) (union_memo p) (<[(a, s) := r]> (insert_memo p))).
Proof.
  intros Hp Ha Hr. destruct Hp as [H1 H2 H3 H4 H5 H6]. split; try done.
  intros a' s' r' Hm. cbn in Hm. apply lookup_insert_Some in Hm as [[[= <- <-] <-]|[_ Hm]]; [by exists x|by eapply H6].
Qed.

Lemma lookahead_insert_spec {E} p id x s :
  pool_wf p → roomy p → stands p id x → TokenSet.token s →
  ∃ r, insert (E:=E) p id s = Ok r ∧ yields_id p r ({[s]} ∪ x).
Proof.
  intros Hp Hr Hid Hs. unfold insert. destruct (get_stands (E:=E) p id x Hp Hid) as (t & -> & Hwt & Ht). cbn [mbind outcome_bind].
  assert (kind s ≠ NonTerminal) as Hk by (unfold TokenSet.token in Hs; by destruct (kind s)).
  rewrite TokenSet.contains_spec by done. cbn [mbind outcome_bind].
  assert (TokenSet.mem t s = true ↔ s ∈ x) as Hmem by (rewrite <- Ht, elem_of_toks by done; tauto).
  destruct (TokenSet.mem t s) eqn:Hm.
  { exists (id, p). split; [done|]. split_and!; cbn; [done|done| |lia].
    replace ({[s]} ∪ x) with x; [done|]. symmetry. apply subseteq_union_1_L, singleton_subseteq_l. by apply Hmem. }
  destruct (insert_memo p !! (id, s)) as [r|] eqn:Hmemo.
  { exists (r, p). split; [done|]. destruct (pw_insert p Hp _ _ _ Hmemo) as (y & Hy & Hry).
    rewrite (stands_fun _ _ _ _ Hid Hy). by split_and!; cbn; [..|lia]. }
  destruct (TokenSet.insert_spec (E:=E) t s Hwt Hs) as (t' & -> & Hwt' & Ht'). cbn [mbind outcome_bind].
  pose proof (lookahead_intern_spec p t' ({[s]} ∪ x) Hp Hwt') as Hi. rewrite Ht', Ht in Hi. specialize (Hi eq_refl Hr).
  destruct (intern p t') as [r p']. destruct Hi as (Hp' & Hg & Hst & _ & _ & Hl).
  eexists. split; [done|]. split_and!; cbn; [|done|done|done].
  eapply add_insert_memo; [done|by eapply stands_grows|done].
Qed.

Lemma lookahead_union_spec {E} p a b x y :
  pool_wf p → roomy p → stands p a x → stands p b y →
  ∃ r, union (E:=E) p a b = Ok r ∧ yields_id p r (x ∪ y).
Proof.
  intros Hp Hr Ha Hb. unfold union.
  assert (∀ id z, stands p id z → z = x ∪ y → ∃ r, Ok (E:=E) (id, p) = Ok r ∧ yields_id p r (x ∪ y)) as Hdone.
  { intros id z Hz ->. exists (id, p). split; [done|]. by split_and!; cbn; [..|lia]. }
  destruct (N.eqb_spec a b) as [->|Hab]; cbn [orb].
  { eapply Hdone; [exact Ha|]. rewrite (stands_fun _ _ _ _ Hb Ha). set_solver. }
  destruct (N.eqb_spec b EMPTY) as [->|Hb0].
  { eapply Hdone; [exact Ha|]. rewrite (stands_fun _ _ _ _ Hb (pw_empty p Hp)). set_solver. }
  destruct (N.eqb_spec a EMPTY) as [->|Ha0].
  { eapply Hdone; [exact Hb|]. rewrite (stands_fun _ _ _ _ Ha (pw_empty p Hp)). set_solver. }
  assert (∃ x' y', stands p (N.min a b) x' ∧ stands p (N.max a b) y' ∧ x' ∪ y' = x ∪ y) as (x' & y' & Hmin & Hmax & Heq).
  { destruct (N.le_gt_cases a b); [rewrite N.min_l, N.max_r by lia; by exists x, y|].
    rewrite N.min_r, N.max_l by lia. exists y, x. split_and!; [done..|set_solver]. }
  destruct (union_memo p !! (N.min a b, N.max a b)) as [r|] eqn:Hmemo.
  { destruct (pw_union p Hp _ _ _ Hmemo) as (x1 & y1 & H1 & H2 & H3). eapply Hdone; [exact H3|].
    by rewrite (stands_fun _ _ _ _ H1 Hmin), (stands_fun _ _ _ _ H2 Hmax). }
  cbn [fst snd]. destruct (get_stands (E:=E) p _ _ Hp Hmin) as (s & -> & Hws & Hs). cbn [mbind outcome_bind].
  destruct (get_stands (E:=E) p _ _ Hp Hmax) as (t & -> & Hwt & Ht). cbn [mbind outcome_bind].
  destruct (TokenSet.insert_all s t) as [c u] eqn:Hu. cbn [snd].
  destruct (toks_insert_all_spec s t c u Hws Hwt Hu) as (Hwu & Htu & _). rewrite Hs, Ht, Heq in Htu.
  pose proof (lookahead_intern_spec p u (x ∪ y) Hp Hwu Htu Hr) as Hi.
  destruct (intern p u) as [r p']. destruct Hi as (Hp' & Hg & Hst & _ & _ & Hl).
  eexists. split; [done|]. split_and!; cbn; [|done|done|done].
  eapply (add_union_memo p' _ _ _ x' y'); [done|by eapply stands_grows|by eapply stands_grows|by rewrite Heq].
Qed.

Lemma new_pool_wf : pool_wf new_pool.
Proof.
  unfold new_pool, intern. destruct (is_get_index_of is_empty_set TokenSet.new) as [i|] eqn:Hi.
  { apply is_get_index_of_Some in Hi as (y & Hy & _). by rewrite is_elems_empty in Hy. }
  destruct (is_insert_full_new _ _ Hi) as [_ H2]. cbn [sets]. destruct (is_insert_full is_empty_set TokenSet.new) as [[index b] st].
  cbn in *. rewrite is_elems_empty in H2. cbn in H2. split; cbn; rewrite ?H2.
  - constructor; [apply TokenSet.wf_new|constructor].
  - intros i j s t [-> <-]%list_lookup_singleton_Some [-> <-]%list_lookup_singleton_Some. done.
  - exists TokenSet.new. cbn. rewrite H2. split; [done|apply TokenSet.toks_new].
  - cbn. done.
  - done.
  - done.
Qed.

Lemma new_pool_len : length (is_elems (sets new_pool)) ≤ 1.
Proof.
  unfold new_pool, intern. destruct (is_get_index_of is_empty_set TokenSet.new) as [i|] eqn:Hi.
  { apply is_get_index_of_Some in Hi as (y & Hy & _). by rewrite is_elems_empty in Hy. }
  destruct (is_insert_full_new _ _ Hi) as [_ H2]. cbn [sets]. destruct (is_insert_full is_empty_set TokenSet.new) as [[index b] st].
  cbn in *. by rewrite H2, is_elems_empty.
Qed.

(** C39: interned lookahead sets are canonical, two ids are equal exactly when
    their sets are; interning a set, inserting a token and uniting two sets never
    panic, return the id of the set they should, with or without the memo
    tables, and keep every id they found. *)
Theorem lookahead_pool_correct (E : Type) p a b x y s t :
  pool_wf p → roomy p → stands p a x → stands p b y → TokenSet.wf s → TokenSet.token t →
  (a = b ↔ x = y) ∧
  yields_id p (intern_ref p s) (toks s) ∧
  (∃ r, insert (E:=E) p a t = Ok r ∧ yields_id p r ({[t]} ∪ x)) ∧
  (∃ r, union (E:=E) p a b = Ok r ∧ yields_id p r (x ∪ y)).
Proof.
  intros Hp Hr Ha Hb Hs Ht. split_and!; [|by apply lookahead_intern_ref_spec|by apply lookahead_insert_spec|by apply lookahead_union_spec].
  split; [intros ->; by eapply stands_fun|intros ->; by eapply stands_inj].
Qed.
End pool.
Arguments LookaheadSetPool : clear implicits.
Arguments mkLookaheads {I}.
End Lookahead.

(** ** Witness *)
Lemma lookahead_pool_correct_witness :
  let p := Lookahead.new_pool (I:=list TokenSet) in
  ∃ r, Lookahead.union (E:=Empty_set) p 0 0 = Ok r ∧ Lookahead.yields_id p r (∅ ∪ ∅).
Proof.
  intros p. apply (Lookahead.lookahead_pool_correct Empty_set p 0%N 0%N ∅ ∅ TokenSet.new end_).
  - apply Lookahead.new_pool_wf.
  - reflexivity.
  - apply (Lookahead.pw_empty p), Lookahead.new_pool_wf.
  - apply (Lookahead.pw_empty p), Lookahead.new_pool_wf.
  - apply TokenSet.wf_new.
  - reflexivity.
Defined.
