(* ===== verification/StrPool.v ===== *)
(** * [crates/generate/src/strpool.rs]: the string interner

    The pool keeps every distinct string once, in one buffer, and names it by
    its 1-based position.  The hash table of ids is [hashbrown]'s and the hash
    function [rustc_hash]'s; neither is part of this repository, so they are
    parameters: [HashTable] states what the documentation of
    [HashTable::entry] promises, and the hash is an arbitrary function. *)
From S2P Require Import Prelude Symbols.

(** A UTF-8 string as its bytes. *)
Notation bytes := (list N) (only parsing).

(** [HashTable<T>]: [ht_find t h eq] is the occupied entry for hash [h] that
    satisfies [eq]; [ht_insert t h v] adds [v] under hash [h].  The two laws
    are about the elements [ht_elems] with the hashes they were added under. *)
Class HashTable (H : Type) := {
  ht_empty : H;
  ht_find : H → N → (N → bool) → option N;
  ht_insert : H → N → N → H;
  ht_elems : H → list (N * N);
  ht_elems_empty : ht_elems ht_empty = [];
  ht_elems_insert t h v : ht_elems (ht_insert t h v) ≡ₚ (h, v) :: ht_elems t;
  ht_find_Some t h eq v : ht_find t h eq = Some v → (h, v) ∈ ht_elems t ∧ eq v = true;
  ht_find_None t h eq v : ht_find t h eq = None → (h, v) ∈ ht_elems t → eq v = false;
}.

(** The laws can be met: a list of pairs. *)
Definition list_find_id (l : list (N * N)) (h : N) (eq : N → bool) : option N :=
  snd <$> find (λ '(h', v), (h' =? h)%N && eq v) l.

#[global, program] Instance list_hash_table : HashTable (list (N * N)) := {|
  ht_empty := [];
  ht_find := list_find_id;
  ht_insert t h v := (h, v) :: t;
  ht_elems t := t;
|}.
Next Obligation. done. Qed.
Next Obligation. done. Qed.
Next Obligation.
  unfold list_find_id. intros t h eq v. destruct (find _ t) as [[h' v']|] eqn:E; cbn; [|done].
  intros [= ->]. apply find_some in E as [Hin Heq].
  apply andb_prop in Heq as [->%N.eqb_eq ?]. split; [by apply list_elem_of_In|done].
Qed.
Next Obligation.
  unfold list_find_id. intros t h eq v. destruct (find _ t) as [[h' v']|] eqn:E; cbn; [done|].
  intros _ Hin. eapply find_none in E; [|by apply list_elem_of_In].
  cbn in E. by rewrite N.eqb_refl in E.
Qed.

Section pool.
Context {H : Type} `{HashTable H} (hash_one : bytes → N).

Record StrSpan := mkSpan { start : N; end_pos : N }.
Record StrPool := mkPool { buf : bytes; spans : list StrSpan; ids : H }.

(** [StrId::index]: the id is a [NonZeroU32]. *)
Definition str_index (id : StrId) : nat := N.to_nat (id - 1).

(** [span_str]: the bytes of a span, an unchecked slice of the buffer. *)
Definition span_str {E} (b : bytes) (sp : list StrSpan) (id : StrId) : outcome E bytes :=
  s ← vec_get sp (str_index id);
  Ok (take (N.to_nat (end_pos s) - N.to_nat (start s)) (drop (N.to_nat (start s)) b)).

(** [|&id| Self::span_str(buf, spans, id) == s]. *)
Definition span_is (b : bytes) (sp : list StrSpan) (s : bytes) (id : StrId) : bool :=
  match span_str (E:=Empty_set) b sp id with Ok b => bool_decide (b = s) | _ => false end.

Definition intern {E} (p : StrPool) (s : bytes) : outcome E (StrId * StrPool) :=
  let hash := hash_one s in
  match ht_find (ids p) hash (span_is (buf p) (spans p) s) with
  | Some id => Ok (id, p)
  | None =>
      let start := length (buf p) in
      let end_ := start + length s in
      (* [u32::try_from(end)] *)
      if (N.of_nat end_ <? U32)%N then
        let raw := wrap_u32 (as_u32 (length (spans p)) + 1) in
        Ok (raw, mkPool (buf p ++ s)
                        (spans p ++ [mkSpan (as_u32 start) (N.of_nat end_)])
                        (ht_insert (ids p) hash raw))
      else Panic
  end.

Definition resolve {E} (p : StrPool) (id : StrId) : outcome E bytes :=
  span_str (buf p) (spans p) id.

Definition EMPTY_STR_ID : StrId := 1.
Definition END_NAME_ID : StrId := 2.

(** ["end"]. *)
Definition end_name : bytes := [101; 110; 100]%N.

(** [StrPool::default()]. *)
Definition default_pool {E} : outcome E StrPool :=
  '(_, p) ← intern (mkPool [] [] ht_empty) [];
  '(_, p) ← intern p end_name;
  Ok p.

(** ** The invariant *)

(** [strs] lists the interned strings in order: span [i] delimits string [i],
    and the table holds each id under its string's hash. *)
Definition spans_of (strs : list bytes) : list StrSpan :=
  imap (λ i s, let a := sum_list (length <$> take i strs) in
               mkSpan (N.of_nat a) (N.of_nat (a + length s))) strs.

(** The pool starts by interning [""] and ["end"]. *)
Definition booted (strs : list bytes) : Prop :=
  strs = [] ∨ strs = [[]] ∨ ∃ l, strs = [] :: end_name :: l.
Definition boot_next (strs : list bytes) (s : bytes) : Prop :=
  (strs = [] → s = []) ∧ (strs = [[]] → s = [] ∨ s = end_name).

Lemma boot_next_booted strs s :
  booted strs → boot_next strs s → booted (if decide (s ∈ strs) then strs else strs ++ [s]).
Proof.
  intros Hb [H1 H2]. case_decide as Hin; [done|]. destruct Hb as [->|[->|[l ->]]].
  - rewrite H1 by done. right. by left.
  - destruct H2 as [->| ->]; [done|set_solver|]. right. right. by exists [].
  - right. right. by exists (l ++ [s]).
Qed.

Record pool_inv (p : StrPool) (strs : list bytes) : Prop := {
  pi_buf : buf p = concat strs;
  pi_spans : spans p = spans_of strs;
  pi_nodup : NoDup strs;
  pi_ids : ∀ h v, (h, v) ∈ ht_elems (ids p) ↔
    ∃ i s, strs !! i = Some s ∧ v = N.of_nat (S i) ∧ h = hash_one s;
  pi_size : (N.of_nat (length (concat strs)) < U32)%N;
  pi_boot : booted strs;
}.

(** Once ["end"] is in, there are fewer strings than bytes: every later string
    is new, hence not empty. *)
Lemma nonempty_len (l : list bytes) : [] ∉ l → length l ≤ length (concat l).
Proof.
  induction l as [|s l IH]; cbn; [lia|]. intros Hn. rewrite length_app.
  destruct s; [set_solver|]. cbn. specialize (IH ltac:(set_solver)). lia.
Qed.

Lemma next_id_fits p strs s :
  pool_inv p strs → s ∉ strs → (N.of_nat (length (concat strs) + length s) < U32)%N →
  (N.of_nat (S (length strs)) < U32)%N.
Proof.
  intros [_ _ Hn _ _ Hb] Hs Hsz. destruct Hb as [->|[->|[l ->]]]; [done|done|].
  apply NoDup_cons in Hn as [Hnin _].
  pose proof (nonempty_len l ltac:(set_solver)). cbn in *. lia.
Qed.

Lemma concat_slice (strs : list bytes) i s :
  strs !! i = Some s →
  take (length s) (drop (sum_list (length <$> take i strs)) (concat strs)) = s.
Proof.
  revert i. induction strs as [|s0 strs IH]; intros [|i]; cbn; try done.
  - intros [= ->]. apply take_app_length.
  - intros Hi. rewrite <- drop_drop, drop_app_length. by apply IH.
Qed.

Lemma spans_lookup strs i s :
  strs !! i = Some s →
  spans_of strs !! i =
    Some (let a := sum_list (length <$> take i strs) in
          mkSpan (N.of_nat a) (N.of_nat (a + length s))).
Proof. intros Hi. unfold spans_of. by rewrite list_lookup_imap, Hi. Qed.

Lemma length_spans_of strs : length (spans_of strs) = length strs.
Proof. apply length_imap. Qed.

Lemma span_str_spec {E} p strs i s :
  pool_inv p strs → strs !! i = Some s →
  span_str (E:=E) (buf p) (spans p) (N.of_nat (S i)) = Ok s.
Proof.
  intros Hp Hi. unfold span_str, str_index. rewrite (pi_spans _ _ Hp), (pi_buf _ _ Hp).
  replace (N.to_nat (N.of_nat (S i) - 1)) with i by lia.
  rewrite (vec_get_Some _ _ _ (spans_lookup _ _ _ Hi)). cbn. f_equal.
  rewrite !Nat2N.id.
  replace (_ + length s - _) with (length s) by lia. by apply concat_slice.
Qed.

Lemma spans_of_app strs s :
  spans_of (strs ++ [s]) =
  spans_of strs ++ [mkSpan (N.of_nat (length (concat strs))) (N.of_nat (length (concat strs) + length s))].
Proof.
  unfold spans_of. rewrite imap_app. cbn. rewrite Nat.add_0_r, take_app_length. f_equal.
  - apply imap_ext. intros i x Hi. apply lookup_lt_Some in Hi.
    by rewrite take_app_le by lia.
  - assert (sum_list (length <$> strs) = length (concat strs)) as ->; [|done].
    induction strs; cbn; [done|]. by rewrite length_app, IHstrs.
Qed.

Lemma intern_spec {E} p strs s :
  pool_inv p strs →
  (N.of_nat (length (concat strs) + length s) < U32)%N →
  boot_next strs s →
  ∃ i p' strs', intern (E:=E) p s = Ok (N.of_nat (S i), p') ∧ pool_inv p' strs' ∧
    strs' !! i = Some s ∧ strs' = (if decide (s ∈ strs) then strs else strs ++ [s]).
Proof.
  intros Hp Hsz Hfirst. unfold intern.
  assert (∀ v, span_is (buf p) (spans p) s v = true → ∀ i x, strs !! i = Some x →
    v = N.of_nat (S i) → x = s) as Hspan.
  { intros v Hv i x Hi ->. unfold span_is in Hv. rewrite (span_str_spec p strs i x) in Hv by done.
    by apply bool_decide_eq_true in Hv. }
  destruct (ht_find _ _ _) as [v|] eqn:Hf.
  - apply ht_find_Some in Hf as [Hin Hv]. apply (pi_ids _ _ Hp) in Hin as (i & x & Hi & -> & _).
    specialize (Hspan _ Hv i x Hi eq_refl) as ->.
    exists i, p, strs. rewrite decide_True by (by apply list_elem_of_lookup_2 in Hi). done.
  - assert (s ∉ strs) as Hnin.
    { intros [i Hi]%list_elem_of_lookup.
      eapply (ht_find_None _ _ _ (N.of_nat (S i))) in Hf.
      - unfold span_is in Hf. rewrite (span_str_spec p strs i s) in Hf by done.
        by rewrite bool_decide_true in Hf.
      - apply (pi_ids _ _ Hp). by exists i, s. }
    rewrite (pi_buf _ _ Hp), (pi_spans _ _ Hp), length_spans_of.
    rewrite (proj2 (N.ltb_lt _ _)) by done.
    pose proof (next_id_fits p strs s Hp Hnin Hsz) as Hraw. pose proof (pi_size _ _ Hp) as Hsz'.
    exists (length strs). rewrite decide_False by done.
    unfold as_u32. rewrite (wrap_u32_small (N.of_nat (length strs))), (wrap_u32_small (N.of_nat (length (concat strs)))),
      (wrap_u32_small (N.of_nat (length strs) + 1)) by lia.
    eexists _, (strs ++ [s]).
    replace (N.of_nat (length strs) + 1)%N with (N.of_nat (S (length strs))) by lia.
    split; [done|]. split_and!; [split; cbn| |done].
    + rewrite concat_app. cbn. by rewrite List.app_nil_r.
    + by rewrite spans_of_app.
    + rewrite NoDup_app. split_and!; [apply Hp| |apply NoDup_singleton]. set_solver.
    + intros h v. rewrite ht_elems_insert, elem_of_cons, (pi_ids _ _ Hp). split.
      * intros [[= -> ->]|(i & x & Hi & ? & ?)].
        -- exists (length strs), s. by rewrite list_lookup_middle.
        -- exists i, x. rewrite lookup_app_l by (by eapply lookup_lt_Some). done.
      * intros (i & x & [Hi|[Hle Hi]]%lookup_app_Some & -> & ->); [right; eauto|left].
        apply list_lookup_singleton_Some in Hi as [Hi <-]. by replace i with (length strs) by lia.
    + rewrite concat_app, length_app. cbn. rewrite List.app_nil_r. lia.
    + pose proof (boot_next_booted strs s (pi_boot _ _ Hp) Hfirst) as Hb. by rewrite decide_False in Hb.
    + by apply list_lookup_middle.
Qed.

(** C34: interning then resolving gives the string back, for the string just
    interned and for every string interned before it; interning a string that
    is already in the pool returns its id and leaves the pool as it was. *)
Theorem intern_resolve p strs s :
  pool_inv p strs → (N.of_nat (length (concat strs) + length s) < U32)%N → boot_next strs s →
  ∃ id p' strs', intern (E:=Empty_set) p s = Ok (id, p') ∧ pool_inv p' strs' ∧
    resolve (E:=Empty_set) p' id = Ok s ∧
    (∀ i x, strs !! i = Some x → resolve (E:=Empty_set) p' (N.of_nat (S i)) = Ok x) ∧
    (s ∈ strs → p' = p).
Proof.
  intros Hp Hsz Hf.
  destruct (intern_spec (E:=Empty_set) p strs s Hp Hsz Hf) as (i & p' & strs' & Hi & Hp' & Hl & Hs).
  exists (N.of_nat (S i)), p', strs'. split_and!; [done|done|by apply span_str_spec with strs'| |].
  - intros j x Hj. apply (span_str_spec p' strs'); [done|]. subst strs'. case_decide; [done|].
    rewrite lookup_app_l; [done|]. by eapply lookup_lt_Some.
  - intros Hin. rewrite decide_True in Hs by done. subst strs'.
    unfold intern in Hi. destruct (ht_find _ _ _) as [v|] eqn:Hfd; [by injection Hi|].
    apply list_elem_of_lookup in Hin as [j Hj].
    eapply (ht_find_None _ _ _ (N.of_nat (S j))) in Hfd.
    + unfold span_is in Hfd. rewrite (span_str_spec p strs j s) in Hfd by done.
      by rewrite bool_decide_true in Hfd.
    + apply (pi_ids _ _ Hp). by exists j, s.
Qed.

(** Two ids of a pool resolve to the same string exactly when they are
    equal, so that comparing ids compares strings. *)
Theorem resolve_injective p strs i j :
  pool_inv p strs → i < length strs → j < length strs →
  resolve (E:=Empty_set) p (N.of_nat (S i)) = resolve (E:=Empty_set) p (N.of_nat (S j)) ↔ i = j.
Proof.
  intros Hp [x Hx]%lookup_lt_is_Some [y Hy]%lookup_lt_is_Some. unfold resolve.
  rewrite (span_str_spec p strs i x), (span_str_spec p strs j y) by done. split; [|naive_solver].
  intros [= ->]. eapply NoDup_lookup; [apply Hp|done..].
Qed.

Lemma pool_inv_empty : pool_inv (mkPool [] [] ht_empty) [].
Proof.
  split; cbn; [done|done|constructor| |done|by left].
  intros h v. rewrite ht_elems_empty, elem_of_nil. split; [done|]. by intros (i & s & ? & _).
Qed.

(** The default pool interns [""] and ["end"] under the two reserved ids. *)
Lemma default_pool_spec {E} :
  ∃ p, default_pool (E:=E) = Ok p ∧ pool_inv p [[]; end_name].
Proof.
  unfold default_pool.
  destruct (intern_spec (E:=E) (mkPool [] [] ht_empty) [] [] pool_inv_empty)
    as (i & p1 & l1 & -> & Hp1 & _ & ->); [done|by split|].
  rewrite decide_False in Hp1 by set_solver. cbn [mbind outcome_bind].
  destruct (intern_spec (E:=E) p1 [[]] end_name Hp1) as (i2 & p2 & l2 & -> & Hp2 & _ & ->); [done|split; [done|by right]|].
  exists p2. split; [done|]. rewrite decide_False in Hp2; [done|].
  unfold end_name. set_solver.
Qed.

End pool.
Arguments StrPool : clear implicits.

(** ** Witnesses *)
Definition example_hash (s : bytes) : N := N.of_nat (length s).

Lemma intern_resolve_witness :
  ∃ p : StrPool (list (N * N)), default_pool example_hash (E:=Empty_set) = Ok p ∧
  ∃ id p', intern example_hash (E:=Empty_set) p [120]%N = Ok (id, p') ∧
           resolve (E:=Empty_set) p' id = Ok [120]%N.
Proof.
  destruct (default_pool_spec (H:=list (N * N)) example_hash (E:=Empty_set)) as (p & Hd & Hp).
  exists p. split; [exact Hd|].
  destruct (intern_resolve example_hash p _ [120]%N Hp) as (id & p' & strs' & H1 & _ & H2 & _).
  - reflexivity.
  - split; discriminate.
  - exists id, p'. exact (conj H1 H2).
Defined.

Lemma resolve_injective_witness :
  ∃ p : StrPool (list (N * N)), pool_inv example_hash p [[]; end_name] ∧
    (resolve (E:=Empty_set) p EMPTY_STR_ID = resolve (E:=Empty_set) p END_NAME_ID ↔ 0 = 1).
Proof.
  destruct (default_pool_spec (H:=list (N * N)) example_hash (E:=Empty_set)) as (p & _ & Hp).
  exists p. split; [exact Hp|].
  apply (resolve_injective example_hash p _ 0 1 Hp); cbn; lia.
Defined.
