(* ===== verification/Rules.v ===== *)
(** * [crates/generate/src/rules.rs]: the rule pool

    Rules live in an append-only arena of nodes that refer to their children by
    index.  The pool's walks are loops over an explicit stack or recursions on
    node ids; both are bounded here by fuel, and [tree] gives the rule an id
    stands for, so that theorems can say that enough fuel exists and what the
    walks compute.  A stack is a list whose head is the top. *)
From S2P Require Import Prelude Symbols StrPool.

Notation RuleId := N (only parsing).
Notation ParamsId := N (only parsing).

(** A slice [start .. start + len] of the children. *)
Record RuleIdRange := mkRange { rstart : N; rlen : N }.
#[global] Instance RuleIdRange_eq_dec : EqDecision RuleIdRange.
Proof. solve_decision. Defined.

(** [as_range]: the sum is a [u32] sum. *)
Definition as_range (r : RuleIdRange) : nat * nat :=
  (N.to_nat (rstart r), N.to_nat (wrap_u32 (rstart r + rlen r))).

Inductive Rule :=
  | Blank
  | RString (s : StrId)
  | Pattern (p flags : StrId)
  | NamedSymbol (s : StrId)
  | Sym (k : SymbolType) (i : N)
  | Seq (r : RuleIdRange)
  | Choice (r : RuleIdRange)
  | Repeat (id : RuleId)
  | REof
  | Metadata (params : ParamsId) (rule : RuleId)
  | Reserved (rule : RuleId) (ctx : StrId).
#[global] Instance Rule_eq_dec : EqDecision Rule.
Proof. solve_decision. Defined.

(** [From<Symbol> for Rule] and [Rule::symbol]. *)
Definition rule_of_symbol (s : Symbol) : Rule := Sym (kind s) (index s).
Definition rule_symbol (r : Rule) : option Symbol :=
  match r with Sym k i => Some (mkSymbol k i) | _ => None end.

(** [std::mem::discriminant], as a number. *)
Definition discriminant (r : Rule) : N :=
  match r with
  | Blank => 0 | RString _ => 1 | Pattern _ _ => 2 | NamedSymbol _ => 3 | Sym _ _ => 4
  | Seq _ => 5 | Choice _ => 6 | Repeat _ => 7 | REof => 8 | Metadata _ _ => 9 | Reserved _ _ => 10
  end.

(** The pool.  [scratch] is a buffer kept for its allocation, empty between
    calls, and has no counterpart here. *)
Record RulePool (H : Type) := mkRulePool {
  nodes : list Rule;
  children : list RuleId;
  params : list MetadataParams;
  str_pool : StrPool H;
}.
Arguments mkRulePool {H}.
Arguments nodes {H}.
Arguments children {H}.
Arguments params {H}.
Arguments str_pool {H}.

Section pool.
Context {H : Type}.
Implicit Types p : RulePool H.

Definition set_nodes p ns : RulePool H := mkRulePool ns (children p) (params p) (str_pool p).
Definition set_children p cs : RulePool H := mkRulePool (nodes p) cs (params p) (str_pool p).
Definition set_param_list p ps : RulePool H := mkRulePool (nodes p) (children p) ps (str_pool p).
Definition set_str_pool p (sp : StrPool H) : RulePool H := mkRulePool (nodes p) (children p) (params p) sp.

Definition node {E} p (id : RuleId) : outcome E Rule := vec_get (nodes p) (N.to_nat id).
Definition node_count p : nat := length (nodes p).

Definition set_node {E} p (id : RuleId) (n : Rule) : outcome E (RulePool H) :=
  ns ← vec_set (nodes p) (N.to_nat id) n; Ok (set_nodes p ns).

Definition push_node p (n : Rule) : RuleId * RulePool H :=
  (as_u32 (length (nodes p)), set_nodes p (nodes p ++ [n])).

(** [&self.children[range.as_range()]]. *)
Definition child_slice {E} p (r : RuleIdRange) : outcome E (list RuleId) :=
  let '(a, b) := as_range r in
  if ((a <=? b) && (b <=? length (children p)))%nat
  then Ok (take (b - a) (drop a (children p))) else Panic.

Definition push_children p (ids : list RuleId) : RuleIdRange * RulePool H :=
  (mkRange (as_u32 (length (children p))) (as_u32 (length ids)), set_children p (children p ++ ids)).

Definition get_params {E} p (id : ParamsId) : outcome E MetadataParams :=
  vec_get (params p) (N.to_nat id).
Definition push_params p (m : MetadataParams) : ParamsId * RulePool H :=
  (as_u32 (length (params p)), set_param_list p (params p ++ [m])).
Definition set_params {E} p (id : ParamsId) (m : MetadataParams) : outcome E (RulePool H) :=
  ps ← vec_set (params p) (N.to_nat id) m; Ok (set_param_list p ps).

(** [metadata_with]: an existing non-token metadata node is updated in place. *)
Definition metadata_with {E} p (content : RuleId) (f : MetadataParams → MetadataParams) :
    outcome E (RuleId * RulePool H) :=
  n ← node p content;
  let fresh :=
    let '(pid, p1) := push_params p (f default_params) in
    Ok (push_node p1 (Metadata pid content)) in
  match n with
  | Metadata pid _ =>
      m ← get_params p pid;
      if is_token m then fresh
      else p1 ← set_params p pid (f m); Ok (content, p1)
  | _ => fresh
  end.

Definition blank p := push_node p Blank.
Definition string p (v : StrId) := push_node p (RString v).
Definition pattern p (v flags : StrId) := push_node p (Pattern v flags).
Definition named_symbol p (name : StrId) := push_node p (NamedSymbol name).
Definition repeat p (content : RuleId) := push_node p (Repeat content).
Definition eof p := push_node p REof.
Definition reserved p (content : RuleId) (ctx : StrId) := push_node p (Reserved content ctx).

Definition with_precedence (m : MetadataParams) v :=
  mkMetadataParams v (associativity m) (dynamic_precedence m) (alias m) (Symbols.field m) (is_token m) (is_main_token m).
Definition with_associativity (m : MetadataParams) v :=
  mkMetadataParams (precedence m) v (dynamic_precedence m) (alias m) (Symbols.field m) (is_token m) (is_main_token m).
Definition with_dynamic_precedence (m : MetadataParams) v :=
  mkMetadataParams (precedence m) (associativity m) v (alias m) (Symbols.field m) (is_token m) (is_main_token m).
Definition with_alias (m : MetadataParams) v :=
  mkMetadataParams (precedence m) (associativity m) (dynamic_precedence m) v (Symbols.field m) (is_token m) (is_main_token m).
Definition with_field (m : MetadataParams) v :=
  mkMetadataParams (precedence m) (associativity m) (dynamic_precedence m) (alias m) v (is_token m) (is_main_token m).
Definition with_token (m : MetadataParams) v :=
  mkMetadataParams (precedence m) (associativity m) (dynamic_precedence m) (alias m) (Symbols.field m) v (is_main_token m).
Definition with_main_token (m : MetadataParams) v :=
  mkMetadataParams (precedence m) (associativity m) (dynamic_precedence m) (alias m) (Symbols.field m) (is_token m) v.

Definition field {E} p (name : StrId) (content : RuleId) :=
  metadata_with (E:=E) p content (λ m, with_field m (Some name)).
Definition alias_ {E} p (content : RuleId) (v : StrId) (named : bool) :=
  metadata_with (E:=E) p content (λ m, with_alias m (Some (mkAlias v named))).
Definition token {E} p (content : RuleId) :=
  metadata_with (E:=E) p content (λ m, with_token m true).
Definition immediate_token {E} p (content : RuleId) :=
  metadata_with (E:=E) p content (λ m, with_main_token (with_token m true) true).
Definition prec {E} p (v : Precedence) (content : RuleId) :=
  metadata_with (E:=E) p content (λ m, with_precedence m v).
Definition prec_left {E} p (v : Precedence) (content : RuleId) :=
  metadata_with (E:=E) p content (λ m, with_precedence (with_associativity m (Some Left)) v).
Definition prec_right {E} p (v : Precedence) (content : RuleId) :=
  metadata_with (E:=E) p content (λ m, with_precedence (with_associativity m (Some Right)) v).
Definition prec_dynamic {E} p (v : Z) (content : RuleId) :=
  metadata_with (E:=E) p content (λ m, with_dynamic_precedence m v).

Definition seq p (ids : list RuleId) : RuleId * RulePool H :=
  let '(r, p) := push_children p ids in push_node p (Seq r).

(** [try_seq]: the children are reserved first and filled one by one, so that
    the rules the callback builds may push children of their own. *)
Fixpoint try_seq_loop {E T} (f : RulePool H → T → outcome E (RuleId * RulePool H))
    p (start i : nat) (items : list T) : outcome E (RulePool H) :=
  match items with
  | [] => Ok p
  | x :: items =>
      '(id, p) ← f p x;
      cs ← vec_set (children p) (start + i) id;
      try_seq_loop f (set_children p cs) start (S i) items
  end.
Definition try_seq {E T} p (items : list T) (f : RulePool H → T → outcome E (RuleId * RulePool H)) :
    outcome E (RuleId * RulePool H) :=
  let len := length items in
  let start := length (children p) in
  let p := set_children p (children p ++ replicate len 0%N) in
  p ← try_seq_loop f p start 0 items;
  Ok (push_node p (Seq (mkRange (as_u32 start) (as_u32 len)))).

(** ** Structural equality *)
Fixpoint subtree_eq_loop {E} (n : nat) p (stack : list (RuleId * RuleId)) : outcome E bool :=
  match stack with
  | [] => Ok true
  | (a, b) :: stack =>
      match n with
      | O => OutOfFuel
      | S n =>
          na ← node p a;
          nb ← node p b;
          match na, nb with
          | Blank, Blank | REof, REof => subtree_eq_loop n p stack
          | RString x, RString y | NamedSymbol x, NamedSymbol y =>
              if negb (x =? y)%N then Ok false else subtree_eq_loop n p stack
          | Pattern p1 f1, Pattern p2 f2 =>
              if negb (p1 =? p2)%N || negb (f1 =? f2)%N then Ok false else subtree_eq_loop n p stack
          | Sym k1 i1, Sym k2 i2 =>
              if bool_decide (Sym k1 i1 ≠ Sym k2 i2) then Ok false else subtree_eq_loop n p stack
          | Seq r1, Seq r2 | Choice r1, Choice r2 =>
              if negb (rlen r1 =? rlen r2)%N then Ok false
              else c1 ← child_slice p r1;
                   c2 ← child_slice p r2;
                   subtree_eq_loop n p (rev (zip c1 c2) ++ stack)
          | Repeat i1, Repeat i2 => subtree_eq_loop n p ((i1, i2) :: stack)
          | Metadata p1 r1, Metadata p2 r2 =>
              m1 ← get_params p p1;
              m2 ← get_params p p2;
              if bool_decide (m1 ≠ m2) then Ok false
              else subtree_eq_loop n p ((r1, r2) :: stack)
          | Reserved r1 c1, Reserved r2 c2 =>
              if negb (c1 =? c2)%N then Ok false else subtree_eq_loop n p ((r1, r2) :: stack)
          | _, _ => Ok false
          end
      end
  end.
Definition subtree_eq {E} (n : nat) p (a b : RuleId) : outcome E bool :=
  subtree_eq_loop n p [(a, b)].

(** ** Structural hashing

    What [subtree_hash] writes to the hasher, in order; the hasher itself is
    [rustc_hash]'s and a parameter where the hash is used. *)
Inductive HashItem :=
  | HDiscriminant (d : N)
  | HStr (s : StrId)
  | HKind (k : N)
  | HU32 (n : N)
  | HParams (m : MetadataParams).
#[global] Instance HashItem_eq_dec : EqDecision HashItem.
Proof. solve_decision. Defined.

Fixpoint subtree_hash_loop {E} (n : nat) p (stack : list RuleId) : outcome E (list HashItem) :=
  match stack with
  | [] => Ok []
  | id :: stack =>
      match n with
      | O => OutOfFuel
      | S n =>
          nd ← node p id;
          '(items, stack) ←
            (match nd with
             | Blank | REof => Ok ([], stack)
             | RString s | NamedSymbol s => Ok ([HStr s], stack)
             | Pattern q f => Ok ([HStr q; HStr f], stack)
             | Sym k i => Ok ([HKind (kind_code k); HU32 i], stack)
             | Seq r | Choice r =>
                 cs ← child_slice p r; Ok ([HU32 (rlen r)], cs ++ stack)
             | Repeat inner => Ok ([], inner :: stack)
             | Metadata pid rule =>
                 m ← get_params p pid; Ok ([HParams m], rule :: stack)
             | Reserved rule ctx => Ok ([HStr ctx], rule :: stack)
             end);
          rest ← subtree_hash_loop n p stack;
          Ok (HDiscriminant (discriminant nd) :: items ++ rest)
      end
  end.
Definition subtree_hash {E} (fx : list HashItem → N) (n : nat) p (root : RuleId) : outcome E N :=
  items ← subtree_hash_loop n p [root]; Ok (fx items).

(** ** Choices *)

(** [any(|e| self.subtree_eq(e, id))]. *)
Fixpoint any_eq {E} (n : nat) p (es : list RuleId) (id : RuleId) : outcome E bool :=
  match es with
  | [] => Ok false
  | e :: es => b ← subtree_eq n p e id; if b : bool then Ok true else any_eq n p es id
  end.

(** The flattening walk shared by [choice], [build_separator] and
    [wrap_in_binary_tree]: nested choices are expanded in place and an element
    structurally equal to an earlier one is dropped. *)
Fixpoint flatten_loop {E} (n : nat) p (stack elements : list RuleId) : outcome E (list RuleId) :=
  match stack with
  | [] => Ok elements
  | id :: stack =>
      match n with
      | O => OutOfFuel
      | S n' =>
          nd ← node p id;
          match nd with
          | Choice r => cs ← child_slice p r; flatten_loop n' p (cs ++ stack) elements
          | _ =>
              dup ← any_eq n p elements id;
              flatten_loop n' p stack (if dup : bool then elements else elements ++ [id])
          end
      end
  end.

(** [choice]: the elements are built at the tail of [children]; the walk only
    reads nodes and children that were there before. *)
Definition choice {E} (n : nat) p (ids : list RuleId) : outcome E (RuleId * RulePool H) :=
  let start := length (children p) in
  elements ← flatten_loop n p ids [];
  let p := set_children p (children p ++ elements) in
  Ok (push_node p (Choice (mkRange (as_u32 start) (as_u32 (length elements))))).

(** ** Queries on subtrees *)
Fixpoint any_ {E A} (f : A → outcome E bool) (l : list A) : outcome E bool :=
  match l with
  | [] => Ok false
  | x :: l => b ← f x; if b : bool then Ok true else any_ f l
  end.
Fixpoint all_ {E A} (f : A → outcome E bool) (l : list A) : outcome E bool :=
  match l with
  | [] => Ok true
  | x :: l => b ← f x; if b : bool then all_ f l else Ok false
  end.

Fixpoint subtree_matches_empty_str {E} (n : nat) p (id : RuleId) : outcome E bool :=
  match n with
  | O => OutOfFuel
  | S n =>
      nd ← node p id;
      match nd with
      | RString sid => s ← resolve (str_pool p) sid; Ok (bool_decide (s = []))
      | Metadata _ rule | Repeat rule | Reserved rule _ => subtree_matches_empty_str n p rule
      | Choice r => cs ← child_slice p r; any_ (subtree_matches_empty_str n p) cs
      | Seq r => cs ← child_slice p r; all_ (subtree_matches_empty_str n p) cs
      | _ => Ok false
      end
  end.

Fixpoint rule_is_referenced {E} (n : nat) p (id : RuleId) (target : StrId) (is_external : bool) :
    outcome E bool :=
  match n with
  | O => OutOfFuel
  | S n =>
      nd ← node p id;
      match nd with
      | NamedSymbol name => Ok ((name =? target)%N && negb is_external)
      | Choice r | Seq r =>
          cs ← child_slice p r; any_ (λ c, rule_is_referenced n p c target false) cs
      | Metadata _ rule | Reserved rule _ => rule_is_referenced n p rule target is_external
      | Repeat inner => rule_is_referenced n p inner target false
      | Blank | REof | RString _ | Pattern _ _ | Sym _ _ => Ok false
      end
  end.

Fixpoint collect_each {E} (f : RuleId → list StrId → outcome E (list StrId))
    (l : list RuleId) (out : list StrId) : outcome E (list StrId) :=
  match l with
  | [] => Ok out
  | c :: l => out ← f c out; collect_each f l out
  end.

Fixpoint collect_referenced_ids {E} (n : nat) p (id : RuleId) (skip_top_level : bool)
    (out : list StrId) : outcome E (list StrId) :=
  match n with
  | O => OutOfFuel
  | S n =>
      nd ← node p id;
      match nd with
      | NamedSymbol name => Ok (if skip_top_level then out else out ++ [name])
      | Choice r | Seq r =>
          cs ← child_slice p r; collect_each (λ c out, collect_referenced_ids n p c false out) cs out
      | Metadata _ rule | Reserved rule _ => collect_referenced_ids n p rule skip_top_level out
      | Repeat inner => collect_referenced_ids n p inner false out
      | Blank | REof | RString _ | Pattern _ _ | Sym _ _ => Ok out
      end
  end.

End pool.

#[global] Arguments child_slice : simpl never.
#[global] Arguments node : simpl never.
#[global] Arguments get_params : simpl never.
