(* ===== verification/RuleTrees.v ===== *)
(** * The rules that pool ids stand for

    [tree] is the abstract syntax a rule id denotes; [denotes] relates the two.
    The walks of [Rules] are specified on trees: structural equality is
    equality of trees, the structural hash is a function of the tree, choice
    flattening is a function on trees. *)
From S2P Require Import Prelude Symbols StrPool Rules.

Inductive tree :=
  | TBlank
  | TString (s : StrId)
  | TPattern (p flags : StrId)
  | TNamed (s : StrId)
  | TSym (k : SymbolType) (i : N)
  | TSeq (l : list tree)
  | TChoice (l : list tree)
  | TRepeat (t : tree)
  | TEof
  | TMetadata (m : MetadataParams) (t : tree)
  | TReserved (t : tree) (ctx : StrId).

Fixpoint tree_size (t : tree) : nat :=
  match t with
  | TSeq l | TChoice l => S (sum_list (map tree_size l))
  | TRepeat t | TMetadata _ t | TReserved t _ => S (tree_size t)
  | _ => 1
  end.

Lemma tree_size_pos t : 1 ≤ tree_size t.
Proof. destruct t; cbn; lia. Qed.
(** Induction on trees through their lists of children. *)
Lemma tree_size_ind (P : tree → Prop) :
  (∀ t, (∀ u, tree_size u < tree_size t → P u) → P t) → ∀ t, P t.
Proof.
  intros Hstep t. remember (tree_size t) as n eqn:Hn. revert t Hn. induction n as [n IH] using lt_wf_ind.
  intros t ->. apply Hstep. intros u Hu. by eapply IH.
Qed.

Section denotes.
Context {H : Type}.
Implicit Types p : RulePool H.

Definition slice_trees (f : N → option tree) p (r : RuleIdRange) : option (list tree) :=
  match child_slice (E:=Empty_set) p r with
  | Ok cs => if (rlen r =? N.of_nat (length cs))%N then mapM f cs else None
  | _ => None
  end.

(** The tree at an id, following children at most [n] levels down. *)
Fixpoint to_tree (n : nat) p (id : N) : option tree :=
  match n with
  | O => None
  | S n =>
      nd ← nodes p !! N.to_nat id;
      match nd with
      | Blank => Some TBlank
      | RString s => Some (TString s)
      | Pattern q f => Some (TPattern q f)
      | NamedSymbol s => Some (TNamed s)
      | Sym k i => Some (TSym k i)
      | Seq r => TSeq <$> slice_trees (to_tree n p) p r
      | Choice r => TChoice <$> slice_trees (to_tree n p) p r
      | Repeat id => TRepeat <$> to_tree n p id
      | REof => Some TEof
      | Metadata m id => m ← params p !! N.to_nat m; TMetadata m <$> to_tree n p id
      | Reserved id ctx => (λ t, TReserved t ctx) <$> to_tree n p id
      end
  end.

Definition denotes p (id : N) (t : tree) : Prop := ∃ n, to_tree n p id = Some t.

(** One level of [denotes]. *)
Definition denotes_node p (nd : Rule) (t : tree) : Prop :=
  match nd with
  | Blank => t = TBlank
  | RString s => t = TString s
  | Pattern q f => t = TPattern q f
  | NamedSymbol s => t = TNamed s
  | Sym k i => t = TSym k i
  | Seq r => ∃ cs ts, child_slice (E:=Empty_set) p r = Ok cs ∧ rlen r = N.of_nat (length cs) ∧
      Forall2 (denotes p) cs ts ∧ t = TSeq ts
  | Choice r => ∃ cs ts, child_slice (E:=Empty_set) p r = Ok cs ∧ rlen r = N.of_nat (length cs) ∧
      Forall2 (denotes p) cs ts ∧ t = TChoice ts
  | Repeat id => ∃ t', denotes p id t' ∧ t = TRepeat t'
  | REof => t = TEof
  | Metadata m id => ∃ m' t', params p !! N.to_nat m = Some m' ∧ denotes p id t' ∧ t = TMetadata m' t'
  | Reserved id ctx => ∃ t', denotes p id t' ∧ t = TReserved t' ctx
  end.

Lemma slice_trees_Some f p r ts :
  slice_trees f p r = Some ts ↔
  ∃ cs, child_slice (E:=Empty_set) p r = Ok cs ∧ rlen r = N.of_nat (length cs) ∧
        Forall2 (λ c t, f c = Some t) cs ts.
Proof.
  unfold slice_trees. destruct (child_slice p r) as [cs| | |]; try (split; [done|naive_solver]).
  case N.eqb_spec; intros Hl; [|split; [done|naive_solver]].
  rewrite mapM_Some. split; [eauto|naive_solver].
Qed.

Lemma to_tree_mono n m p id t : to_tree n p id = Some t → n ≤ m → to_tree m p id = Some t.
Proof.
  revert m id t. induction n as [|n IH]; intros [|m] id t; cbn; try done; [lia|].
  intros Ht Hle. destruct (nodes p !! N.to_nat id) as [nd|]; cbn in *; [|done].
  assert (∀ r ts, slice_trees (to_tree n p) p r = Some ts → slice_trees (to_tree m p) p r = Some ts) as Hs.
  { intros r ts (cs & ? & ? & Hf)%slice_trees_Some. apply slice_trees_Some. exists cs.
    split_and!; [done..|]. eapply Forall2_impl; [done|]. cbn. intros. apply IH; [done|lia]. }
  destruct nd as [|s|q f|s|k i|r|r|id'| |mid id'|id' ctx]; try done.
  - apply fmap_Some in Ht as (ts & Hts & ->). by rewrite (Hs _ _ Hts).
  - apply fmap_Some in Ht as (ts & Hts & ->). by rewrite (Hs _ _ Hts).
  - apply fmap_Some in Ht as (t' & Ht' & ->). by rewrite (IH m _ _ Ht') by lia.
  - destruct (params p !! N.to_nat mid); cbn in *; [|done].
    apply fmap_Some in Ht as (t' & Ht' & ->). by rewrite (IH m _ _ Ht') by lia.
  - apply fmap_Some in Ht as (t' & Ht' & ->). by rewrite (IH m _ _ Ht') by lia.
Qed.

Lemma denotes_det p id t1 t2 : denotes p id t1 → denotes p id t2 → t1 = t2.
Proof.
  intros [n1 H1] [n2 H2]. apply (to_tree_mono _ (n1 `max` n2)) in H1, H2; [|lia..]. congruence.
Qed.

Lemma Forall2_denotes_max p cs ts :
  Forall2 (denotes p) cs ts → ∃ n, Forall2 (λ c t, to_tree n p c = Some t) cs ts.
Proof.
  induction 1 as [|c t cs ts [n Hn] _ [m IH]]; [by exists 0|].
  exists (n `max` m). constructor; [eapply to_tree_mono; [done|lia]|].
  eapply Forall2_impl; [done|]. cbn. intros. eapply to_tree_mono; [done|lia].
Qed.

Lemma denotes_unfold p id t :
  denotes p id t ↔ ∃ nd, nodes p !! N.to_nat id = Some nd ∧ denotes_node p nd t.
Proof.
  split.
  - intros [[|n] Hn]; [done|]. cbn in Hn.
    destruct (nodes p !! N.to_nat id) as [nd|]; cbn in Hn; [|done]. exists nd. split; [done|].
    destruct nd as [|s|q f|s|k i|r|r|id'| |mid id'|id' ctx]; cbn; try naive_solver.
    + apply fmap_Some in Hn as (ts & (cs & ? & ? & Hf)%slice_trees_Some & ->).
      exists cs, ts. split_and!; [done..| |done]. eapply Forall2_impl; [done|]. by exists n.
    + apply fmap_Some in Hn as (ts & (cs & ? & ? & Hf)%slice_trees_Some & ->).
      exists cs, ts. split_and!; [done..| |done]. eapply Forall2_impl; [done|]. by exists n.
    + apply fmap_Some in Hn as (t' & Ht' & ->). exists t'. split; [by exists n|done].
    + destruct (params p !! N.to_nat mid) as [m'|]; cbn in *; [|done].
      apply fmap_Some in Hn as (t' & Ht' & ->). exists m', t'. split_and!; [done|by exists n|done].
    + apply fmap_Some in Hn as (t' & Ht' & ->). exists t'. split; [by exists n|done].
  - intros (nd & Hnd & Ht). destruct nd; cbn in Ht; subst;
      try (by exists 1; cbn; rewrite Hnd).
    + destruct Ht as (cs & ts & Hc & Hl & [n Hn]%Forall2_denotes_max & ->). exists (S n). cbn. rewrite Hnd. cbn.
      replace (slice_trees (to_tree n p) p r) with (Some ts); [done|].
      symmetry. apply slice_trees_Some. by exists cs.
    + destruct Ht as (cs & ts & Hc & Hl & [n Hn]%Forall2_denotes_max & ->). exists (S n). cbn. rewrite Hnd. cbn.
      replace (slice_trees (to_tree n p) p r) with (Some ts); [done|].
      symmetry. apply slice_trees_Some. by exists cs.
    + destruct Ht as (t' & [n Hn] & ->). exists (S n). cbn. rewrite Hnd. cbn. by rewrite Hn.
    + destruct Ht as (m' & t' & Hm & [n Hn] & ->). exists (S n). cbn. rewrite Hnd. cbn. rewrite Hm. cbn. by rewrite Hn.
    + destruct Ht as (t' & [n Hn] & ->). exists (S n). cbn. rewrite Hnd. cbn. by rewrite Hn.
Qed.

Lemma denotes_node_Ok {E} p id t :
  denotes p id t → ∃ nd, node (E:=E) p id = Ok nd ∧ denotes_node p nd t.
Proof.
  intros (nd & Hnd & Ht)%denotes_unfold. exists nd. split; [|done]. by apply vec_get_Some.
Qed.

(** [child_slice] never returns an error, so its result does not depend on
    the error type. *)
Lemma child_slice_any {E E'} p r cs :
  child_slice (E:=E) p r = Ok cs → child_slice (E:=E') p r = Ok cs.
Proof.
  unfold child_slice. destruct (as_range r) as [a b]. by destruct (_ && _); [intros [= ->]|].
Qed.

(** ** Structural equality is equality of trees *)
Definition tsum (l : list tree) : nat := sum_list (map tree_size l).

Lemma tsum_app l1 l2 : tsum (l1 ++ l2) = tsum l1 + tsum l2.
Proof. unfold tsum. induction l1; cbn; lia. Qed.
Lemma tsum_rev l : tsum (rev l) = tsum l.
Proof.
  induction l as [|t l IH]; [done|]. change (rev (t :: l)) with (rev l ++ [t]).
  rewrite tsum_app, IH. unfold tsum. cbn. lia.
Qed.

Lemma tsum_elem t l : t ∈ l → tree_size t ≤ tsum l.
Proof. intros (l1 & l2 & ->)%list_elem_of_split. rewrite tsum_app. unfold tsum. cbn. lia. Qed.

(** A stack of pairs of ids and the pairs of trees they stand for. *)
Definition pairs_denote p (stack : list (N * N)) (ts : list (tree * tree)) : Prop :=
  Forall2 (λ ab tu, denotes p ab.1 tu.1 ∧ denotes p ab.2 tu.2) stack ts.

Lemma pairs_denote_zip p c1 c2 t1 t2 :
  Forall2 (denotes p) c1 t1 → Forall2 (denotes p) c2 t2 → length c1 = length c2 →
  pairs_denote p (zip c1 c2) (zip t1 t2).
Proof.
  intros H1. revert c2 t2. induction H1 as [|c t c1 t1 Hc _ IH]; intros c2 t2 H2 Hl;
    destruct H2 as [|c' t' c2 t2 Hc' H2]; try done; constructor; [done|].
  apply IH; [done|]. by injection Hl.
Qed.

Lemma zip_all_eq (t1 t2 : list tree) :
  length t1 = length t2 → Forall (λ tu, tu.1 = tu.2) (zip t1 t2) ↔ t1 = t2.
Proof.
  revert t2. induction t1 as [|t t1 IH]; intros [|u t2]; try done.
  cbn. intros [= Hl]. rewrite Forall_cons, IH by done. cbn. naive_solver.
Qed.

Lemma zip_fst_tsum (t1 t2 : list tree) : length t1 = length t2 → tsum (zip t1 t2).*1 = tsum t1.
Proof. intros. rewrite fst_zip by lia. done. Qed.

Lemma Forall_rev_app {A} (P : A → Prop) (l k : list A) : Forall P (rev l ++ k) ↔ Forall P l ∧ Forall P k.
Proof. rewrite Forall_app, rev_alt. change (rev_append l []) with (reverse l). by rewrite Forall_reverse. Qed.

Lemma pairs_denote_rev_app p s1 s2 ts1 ts2 :
  pairs_denote p s1 ts1 → pairs_denote p s2 ts2 → pairs_denote p (rev s1 ++ s2) (rev ts1 ++ ts2).
Proof.
  intros H1 H2. apply Forall2_app; [|done]. rewrite !rev_alt. by apply Forall2_reverse.
Qed.

Lemma rev_fst {A B} (l : list (A * B)) : (rev l).*1 = rev l.*1.
Proof. apply map_rev. Qed.

(** [m] terminates with the truth value of [P]. *)
Definition decides {E} (m : outcome E bool) (P : Prop) : Prop :=
  ∃ b, m = Ok b ∧ (b = true ↔ P).

Lemma decides_iff {E} (m : outcome E bool) P Q : decides m P → (P ↔ Q) → decides m Q.
Proof. intros (b & -> & HP) HQ. exists b. split; [done|]. by rewrite HP. Qed.
Lemma decides_false {E} P : ¬ P → decides (E:=E) (Ok false) P.
Proof. intros. exists false. by split. Qed.
Lemma decides_guard {E} (c : bool) (m : outcome E bool) P Q :
  (c = false ↔ P) → decides m Q → decides (if c then Ok false else m) (P ∧ Q).
Proof.
  intros Hc Hm. destruct c.
  - apply decides_false. intros [HP _]. by apply Hc in HP.
  - eapply decides_iff; [done|]. intuition.
Qed.

Lemma subtree_eq_children {E} (n : nat) p stack ts r1 r2 c1 c2 ts1 ts2 :
  child_slice (E:=Empty_set) p r1 = Ok c1 → rlen r1 = N.of_nat (length c1) → Forall2 (denotes p) c1 ts1 →
  child_slice (E:=Empty_set) p r2 = Ok c2 → rlen r2 = N.of_nat (length c2) → Forall2 (denotes p) c2 ts2 →
  pairs_denote p stack ts → tsum ts1 + tsum ts.*1 ≤ n →
  (∀ stack ts, pairs_denote p stack ts → tsum ts.*1 ≤ n →
     decides (subtree_eq_loop (E:=E) n p stack) (Forall (λ tu, tu.1 = tu.2) ts)) →
  decides (if negb (rlen r1 =? rlen r2)%N then Ok false
           else c1 ← child_slice p r1; c2 ← child_slice p r2;
                subtree_eq_loop (E:=E) n p (rev (zip c1 c2) ++ stack))
          (ts1 = ts2 ∧ Forall (λ tu, tu.1 = tu.2) ts).
Proof.
  intros Hc1 Hl1 Hd1 Hc2 Hl2 Hd2 Hp Hn IH.
  pose proof (Forall2_length _ _ _ Hd1) as Hlen1. pose proof (Forall2_length _ _ _ Hd2) as Hlen2.
  rewrite Hl1, Hl2. case N.eqb_spec; cbn; intros Hl.
  - apply (child_slice_any (E':=E)) in Hc1, Hc2. rewrite Hc1, Hc2. cbn.
    assert (length c1 = length c2) by lia.
    eapply decides_iff; [apply (IH _ (rev (zip ts1 ts2) ++ ts))|].
    + by apply pairs_denote_rev_app, Hp; apply pairs_denote_zip.
    + rewrite fmap_app, rev_fst, tsum_app, tsum_rev, zip_fst_tsum by lia. lia.
    + rewrite Forall_rev_app, zip_all_eq by lia. done.
  - apply decides_false. intros [-> _]. lia.
Qed.

(** The loop decides whether every pair on the stack is a pair of equal trees,
    in at most as many steps as the left trees have nodes. *)
Lemma subtree_eq_loop_spec {E} n p stack ts :
  pairs_denote p stack ts → tsum ts.*1 ≤ n →
  decides (subtree_eq_loop (E:=E) n p stack) (Forall (λ tu, tu.1 = tu.2) ts).
Proof.
  revert stack ts. induction n as [|n IH]; intros stack ts Hp Hn;
    destruct Hp as [|[a b] [t u] stack ts [Ha Hb] Hp]; try (by exists true).
  { pose proof (tree_size_pos t). cbn in Hn. lia. }
  cbn in Ha, Hb. change (tsum ((t, u) :: ts).*1) with (tree_size t + tsum ts.*1) in Hn.
  apply (denotes_node_Ok (E:=E)) in Ha as (na & Hna & Ha), Hb as (nb & Hnb & Hb).
  eapply decides_iff; [|symmetry; apply Forall_cons]. cbn. rewrite Hna, Hnb. cbn.
  assert (tsum ts.*1 ≤ n) by (pose proof (tree_size_pos t); lia).
  assert (∀ a b t' u', denotes p a t' → denotes p b u' → tree_size t = S (tree_size t') →
    decides (subtree_eq_loop (E:=E) n p ((a, b) :: stack)) (t' = u' ∧ Forall (λ tu, tu.1 = tu.2) ts)) as Hsub.
  { intros a' b' t' u' Ha' Hb' Hsz. eapply decides_iff; [apply (IH _ ((t', u') :: ts))|by rewrite Forall_cons].
    - by constructor.
    - change (tree_size t' + tsum ts.*1 ≤ n). lia. }
  destruct na, nb; cbn in Ha, Hb; destr_ex; subst;
    try (apply decides_false; by intros [[=] _]);
    try (eapply decides_iff; [by apply IH|]; cbn; intuition congruence).
  all: try (apply decides_guard; [|by apply IH]; case N.eqb_spec; cbn; intuition congruence).
  - apply decides_guard; [|by apply IH]. do 2 case N.eqb_spec; cbn; intuition congruence.
  - apply decides_guard; [|by apply IH]. rewrite bool_decide_eq_false. split; [|congruence].
    intros Hs%dec_stable. congruence.
  - eapply decides_iff; [eapply subtree_eq_children; try done|intuition congruence].
    cbn in Hn. unfold tsum. unfold tsum in Hn. lia.
  - eapply decides_iff; [eapply subtree_eq_children; try done|intuition congruence].
    cbn in Hn. unfold tsum. unfold tsum in Hn. lia.
  - eapply decides_iff; [by apply Hsub|intuition congruence].
  - unfold get_params. erewrite !vec_get_Some by done. cbn. case_bool_decide.
    + apply decides_false. intros [[=] _]. congruence.
    + eapply decides_iff; [by apply Hsub|]. intuition congruence.
  - case N.eqb_spec; cbn; intros; [|apply decides_false; intuition congruence].
    eapply decides_iff; [by apply Hsub|]. intuition congruence.
Qed.

Lemma subtree_eq_decides {E} n p a b t u :
  denotes p a t → denotes p b u → tree_size t ≤ n →
  decides (subtree_eq (E:=E) n p a b) (t = u).
Proof.
  intros. eapply decides_iff; [apply (subtree_eq_loop_spec _ _ _ [(t, u)])|].
  - by constructor; [|constructor].
  - unfold tsum. cbn. lia.
  - rewrite Forall_singleton. done.
Qed.

(** ** The structural hash *)

(** What the hasher is fed for a tree: a preorder walk. *)
Fixpoint tree_items (t : tree) : list HashItem :=
  match t with
  | TBlank => [HDiscriminant (discriminant Blank)]
  | TString s => [HDiscriminant (discriminant (RString s)); HStr s]
  | TPattern q f => [HDiscriminant (discriminant (Pattern q f)); HStr q; HStr f]
  | TNamed s => [HDiscriminant (discriminant (NamedSymbol s)); HStr s]
  | TSym k i => [HDiscriminant (discriminant (Sym k i)); HKind (kind_code k); HU32 i]
  | TSeq l => HDiscriminant 5 :: HU32 (N.of_nat (length l)) :: concat (map tree_items l)
  | TChoice l => HDiscriminant 6 :: HU32 (N.of_nat (length l)) :: concat (map tree_items l)
  | TRepeat t => HDiscriminant 7 :: tree_items t
  | TEof => [HDiscriminant (discriminant REof)]
  | TMetadata m t => HDiscriminant 9 :: HParams m :: tree_items t
  | TReserved t ctx => HDiscriminant 10 :: HStr ctx :: tree_items t
  end.

Lemma subtree_hash_loop_spec {E} n p ids ts :
  Forall2 (denotes p) ids ts → tsum ts ≤ n →
  subtree_hash_loop (E:=E) n p ids = Ok (concat (map tree_items ts)).
Proof.
  revert ids ts. induction n as [|n IH]; intros ids ts Hf Hn;
    destruct Hf as [|id t ids ts Hid Hf]; try done.
  { pose proof (tree_size_pos t). cbn in Hn. lia. }
  change (tsum (t :: ts)) with (tree_size t + tsum ts) in Hn.
  apply (denotes_node_Ok (E:=E)) in Hid as (nd & Hnd & Ht). cbn. rewrite Hnd. cbn.
  destruct nd; cbn in Ht; destr_ex; subst; cbn; cbn in Hn.
  all: try (rewrite (IH ids ts) by (done || lia); done).
  - apply (child_slice_any (E':=E)) in H0. rewrite H0. cbn.
    erewrite (IH (_ ++ _) (_ ++ _)); [|by apply Forall2_app|rewrite tsum_app; unfold tsum in *; lia].
    cbn. by rewrite map_app, concat_app, H1, (Forall2_length _ _ _ H2).
  - apply (child_slice_any (E':=E)) in H0. rewrite H0. cbn.
    erewrite (IH (_ ++ _) (_ ++ _)); [|by apply Forall2_app|rewrite tsum_app; unfold tsum in *; lia].
    cbn. by rewrite map_app, concat_app, H1, (Forall2_length _ _ _ H2).
  - by erewrite (IH _ (_ :: _)); [|by constructor|cbn; unfold tsum in *; lia].
  - unfold get_params. erewrite vec_get_Some by done. cbn.
    by erewrite (IH _ (_ :: _)); [|by constructor|cbn; unfold tsum in *; lia].
  - by erewrite (IH _ (_ :: _)); [|by constructor|cbn; unfold tsum in *; lia].
Qed.

Lemma kind_code_inj k1 k2 : kind_code k1 = kind_code k2 → k1 = k2.
Proof. by destruct k1, k2. Qed.

(** The walk is a prefix code: two trees with the same items are equal. *)
Lemma tree_items_prefix n t u r s :
  tree_size t ≤ n → tree_items t ++ r = tree_items u ++ s → t = u ∧ r = s.
Proof.
  revert t u r s. induction n as [|n IH]; intros t u r s Hn Heq.
  { pose proof (tree_size_pos t). lia. }
  assert (∀ l l' r s, sum_list (map tree_size l) ≤ n → length l = length l' →
    concat (map tree_items l) ++ r = concat (map tree_items l') ++ s → l = l' ∧ r = s) as Hl.
  { induction l as [|x l IHl]; intros [|x' l'] r' s' Hsz Hlen Hc; try done.
    cbn in Hsz, Hc. rewrite <- !(assoc_L (++)) in Hc. apply IH in Hc as [-> Hc]; [|lia].
    apply IHl in Hc as [-> ->]; [done|lia|]. by injection Hlen. }
  destruct t, u; cbn in Heq, Hn; simplify_eq; try done.
  - match goal with Hk : kind_code _ = kind_code _ |- _ => by apply kind_code_inj in Hk as -> end.
  - match goal with Hc : concat _ ++ _ = _ |- _ => apply Hl in Hc as [-> ->]; [done|lia|lia] end.
  - match goal with Hc : concat _ ++ _ = _ |- _ => apply Hl in Hc as [-> ->]; [done|lia|lia] end.
  - match goal with Hc : tree_items _ ++ _ = _ |- _ => apply IH in Hc as [-> ->]; [done|lia] end.
  - match goal with Hc : tree_items _ ++ _ = _ |- _ => apply IH in Hc as [-> ->]; [done|lia] end.
  - match goal with Hc : tree_items _ ++ _ = _ |- _ => apply IH in Hc as [-> ->]; [done|lia] end.
Qed.

Lemma tree_items_inj t u : tree_items t = tree_items u ↔ t = u.
Proof.
  split; [|by intros ->]. intros Heq. eapply (tree_items_prefix _ _ _ [] []); [done|].
  by rewrite Heq.
Qed.

#[export] Instance tree_eq_dec : EqDecision tree.
Proof.
  intros t u. destruct (decide (tree_items t = tree_items u)) as [Heq|Hne].
  - left. by apply tree_items_inj.
  - right. intros ->. done.
Defined.

(** ** Flattening of nested choices *)
Fixpoint flatten_tree (t : tree) : list tree :=
  match t with
  | TChoice l => concat (map flatten_tree l)
  | _ => [t]
  end.

(** Appends [t] unless an equal tree is there already. *)
Definition add_new (es : list tree) (t : tree) : list tree :=
  if decide (t ∈ es) then es else es ++ [t].
Definition flatten_onto (es ts : list tree) : list tree :=
  foldl add_new es (concat (map flatten_tree ts)).
Definition flatten_choice (ts : list tree) : list tree := flatten_onto [] ts.

Lemma any_eq_decides {E} n p es ts id t :
  Forall2 (denotes p) es ts → denotes p id t → Forall (λ u, tree_size u ≤ n) ts →
  decides (any_eq (E:=E) n p es id) (t ∈ ts).
Proof.
  intros Hf Hid. induction Hf as [|e u es ts He Hf IH]; intros Hn.
  - apply decides_false, not_elem_of_nil.
  - apply Forall_cons in Hn as [Hu Hn].
    destruct (subtree_eq_decides (E:=E) n p e id u t He Hid Hu) as (b & Hb & Hiff).
    cbn. rewrite Hb. cbn. destruct b.
    + exists true. split; [done|]. split; [|done]. intros _. rewrite elem_of_cons. left. symmetry. by apply Hiff.
    + eapply decides_iff; [by apply IH|]. rewrite elem_of_cons. split; [by right|].
      intros [->|]; [|done]. by assert (false = true) by by apply Hiff.
Qed.

Lemma flatten_onto_cons es t ts :
  flatten_onto es (t :: ts) = flatten_onto (foldl add_new es (flatten_tree t)) ts.
Proof. unfold flatten_onto. cbn. by rewrite foldl_app. Qed.

(** The walk ends, in at most as many steps as its stack has nodes. *)
Lemma flatten_loop_spec {E} K n p stack ts elements es :
  Forall2 (denotes p) stack ts → Forall2 (denotes p) elements es →
  Forall (λ t, tree_size t ≤ K) ts → Forall (λ t, tree_size t ≤ K) es → tsum ts + K ≤ n →
  ∃ elements', flatten_loop (E:=E) n p stack elements = Ok elements' ∧
    Forall2 (denotes p) elements' (flatten_onto es ts).
Proof.
  revert stack ts elements es. induction n as [|n IH]; intros stack ts elements es Hs He Hts Hes Hn;
    destruct Hs as [|id t stack ts Hid Hs]; try (by exists elements).
  { pose proof (tree_size_pos t). cbn in Hn. lia. }
  change (tsum (t :: ts)) with (tree_size t + tsum ts) in Hn. apply Forall_cons in Hts as [Ht Hts].
  pose proof (tree_size_pos t).
  pose proof Hid as (nd & Hnd & Hnt)%(denotes_node_Ok (E:=E)). cbn -[any_eq flatten_onto]. rewrite Hnd. cbn -[any_eq flatten_onto].
  rewrite flatten_onto_cons.
  assert (flatten_tree t = [t] → ∃ elements', (dup ← any_eq (E:=E) (S n) p elements id;
    flatten_loop n p stack (if dup : bool then elements else elements ++ [id])) = Ok elements' ∧
    Forall2 (denotes p) elements' (flatten_onto (foldl add_new es (flatten_tree t)) ts)) as Hleaf.
  { intros ->. destruct (any_eq_decides (E:=E) (S n) p elements es id t) as (b & -> & Hb); [done..| |].
    { eapply Forall_impl; [done|]. cbn. lia. }
    cbn -[any_eq flatten_onto]. unfold add_new. case_decide as Hin; destruct b;
      try (exfalso; clear -Hb Hin; intuition congruence).
    - apply IH; [done..|lia].
    - apply IH; [done|by apply Forall2_app; [|constructor]|done| |lia].
      apply Forall_app. split; [done|]. by constructor. }
  destruct nd; cbn in Hnt; try (apply Hleaf; destr_ex; by subst).
  destruct Hnt as (cs & us & Hc & Hlen & Hf & ->). apply (child_slice_any (E':=E)) in Hc. rewrite Hc.
  cbn in Ht, Hn. fold (tsum us) in Ht, Hn. edestruct (IH (cs ++ stack) (us ++ ts)) as (els & Hels & Hd).
  - by apply Forall2_app.
  - exact He.
  - apply Forall_app. split; [|done]. apply Forall_forall. intros u Hu.
    pose proof (tsum_elem u us Hu). lia.
  - done.
  - rewrite tsum_app. lia.
  - exists els. split; [done|]. revert Hd. unfold flatten_onto. cbn. by rewrite map_app, concat_app, foldl_app.
Qed.

(** ** Growing the pool *)
Definition extends p p' : Prop :=
  nodes p `prefix_of` nodes p' ∧ children p `prefix_of` children p' ∧ params p `prefix_of` params p'.

Lemma child_slice_extends {E} p p' r cs :
  extends p p' → child_slice (E:=E) p r = Ok cs → child_slice (E:=E) p' r = Ok cs.
Proof.
  intros (_ & [k Hk] & _). unfold child_slice. destruct (as_range r) as [a b]. rewrite Hk, length_app.
  destruct (Nat.leb_spec a b); cbn; [|done].
  destruct (Nat.leb_spec b (length (children p))); [|done]. intros [= <-].
  rewrite (proj2 (Nat.leb_le _ _)) by lia. f_equal.
  rewrite drop_app_le, take_app_le by (rewrite ?length_drop; lia). done.
Qed.

Lemma denotes_extends p p' id t : extends p p' → denotes p id t → denotes p' id t.
Proof.
  intros Hext [n Hn]. exists n. revert id t Hn. induction n as [|n IH]; intros id t; cbn; [done|].
  pose proof Hext as ([kn Hkn] & _ & [kp Hkp]).
  destruct (nodes p !! N.to_nat id) as [nd|] eqn:Hnd; cbn; [|done].
  rewrite Hkn, (lookup_app_l_Some _ _ _ _ Hnd). cbn.
  assert (∀ r ts, slice_trees (to_tree n p) p r = Some ts → slice_trees (to_tree n p') p' r = Some ts) as Hs.
  { intros r ts (cs & Hc & ? & Hf)%slice_trees_Some. apply slice_trees_Some. exists cs.
    split_and!; [by eapply child_slice_extends|done|]. eapply Forall2_impl; [done|]. cbn. auto. }
  destruct nd as [|s|q f|s|k i|r|r|id'| |mid id'|id' ctx]; try done.
  - intros (ts & Hts & ->)%fmap_Some. by rewrite (Hs _ _ Hts).
  - intros (ts & Hts & ->)%fmap_Some. by rewrite (Hs _ _ Hts).
  - intros (t' & Ht & ->)%fmap_Some. by rewrite (IH _ _ Ht).
  - destruct (params p !! N.to_nat mid) as [m|] eqn:Hm; cbn; [|done].
    rewrite Hkp, (lookup_app_l_Some _ _ _ _ Hm). cbn.
    intros (t' & Ht & ->)%fmap_Some. by rewrite (IH _ _ Ht).
  - intros (t' & Ht & ->)%fmap_Some. by rewrite (IH _ _ Ht).
Qed.

(** The indices of the pool fit their [u32]s. *)
Definition pool_fits p : Prop :=
  (N.of_nat (length (nodes p)) < U32)%N ∧ (N.of_nat (length (children p)) < U32)%N.

Lemma push_node_denotes p nd t :
  pool_fits p → denotes_node p nd t →
  extends p (push_node p nd).2 ∧ denotes (push_node p nd).2 (push_node p nd).1 t.
Proof.
  intros [Hn _] Ht. assert (extends p (push_node p nd).2) as Hext.
  { split_and!; [by eexists|done|done]. }
  split; [done|]. apply denotes_unfold. exists nd. cbn. split.
  - rewrite as_u32_small by done. by apply list_lookup_middle.
  - assert (∀ cs ts, Forall2 (denotes p) cs ts → Forall2 (denotes (push_node p nd).2) cs ts).
    { intros. eapply Forall2_impl; [done|]. intros. by eapply denotes_extends. }
    destruct nd; cbn in *; destr_ex; subst; try done;
      repeat match goal with Hd : denotes p _ _ |- _ => apply (denotes_extends _ _ _ _ Hext) in Hd
             | Hd : child_slice p _ = _ |- _ => apply (child_slice_extends _ _ _ _ Hext) in Hd end; eauto 10.
Qed.

Lemma child_slice_tail {E} p cs :
  (N.of_nat (length (children p) + length cs) < U32)%N →
  child_slice (E:=E) (set_children p (children p ++ cs))
    (mkRange (as_u32 (length (children p))) (as_u32 (length cs))) = Ok cs.
Proof.
  intros Hfit. unfold child_slice, as_range. cbn. unfold as_u32.
  rewrite !(wrap_u32_small (N.of_nat _)), wrap_u32_small by lia.
  rewrite (proj2 (Nat.leb_le _ _)) by lia. rewrite length_app, (proj2 (Nat.leb_le _ _)) by lia. cbn. f_equal.
  rewrite Nat2N.id, drop_app_length. apply take_ge. lia.
Qed.

(** What the flattened list is: no duplicates, no nested choice, and the
    non-choice trees reached from the alternatives through choices. *)
Lemma flatten_tree_length n t : tree_size t ≤ n → length (flatten_tree t) ≤ tree_size t.
Proof.
  revert t. induction n as [|n IH]; intros t Hn; [pose proof (tree_size_pos t); lia|].
  destruct t; cbn; try lia. cbn in Hn.
  assert (sum_list (map tree_size l) ≤ n) as Hl by lia. clear Hn.
  assert (length (concat (map flatten_tree l)) ≤ sum_list (map tree_size l)); [|lia].
  induction l as [|t l IHl]; cbn in *; [lia|]. rewrite length_app.
  specialize (IH t ltac:(lia)). specialize (IHl ltac:(lia)). lia.
Qed.

Lemma add_new_spec es t : NoDup es → NoDup (add_new es t) ∧ ∀ u, u ∈ add_new es t ↔ u ∈ es ∨ u = t.
Proof.
  unfold add_new. intros Hnd. case_decide as Hin.
  - split; [done|]. naive_solver.
  - split; [|intros u; rewrite elem_of_app, list_elem_of_singleton; done].
    apply NoDup_app. split_and!; [done| |apply NoDup_singleton].
    intros u Hu ->%list_elem_of_singleton. done.
Qed.

Lemma foldl_add_new_spec l es :
  NoDup es → NoDup (foldl add_new es l) ∧ ∀ u, u ∈ foldl add_new es l ↔ u ∈ es ∨ u ∈ l.
Proof.
  revert es. induction l as [|t l IH]; intros es Hes; cbn.
  - split; [done|]. intros u. rewrite elem_of_nil. tauto.
  - destruct (add_new_spec es t Hes) as [Hnd Hin]. destruct (IH _ Hnd) as [Hnd' Hin'].
    split; [done|]. intros u. rewrite Hin', Hin, elem_of_cons. tauto.
Qed.

Lemma foldl_add_new_length l es : length (foldl add_new es l) ≤ length es + length l.
Proof.
  revert es. induction l as [|x l IH]; intros es; cbn; [lia|]. specialize (IH (add_new es x)).
  unfold add_new in *. case_decide; rewrite ?length_app in IH; cbn in *; lia.
Qed.

Lemma flatten_choice_length ts : length (flatten_choice ts) ≤ tsum ts.
Proof.
  unfold flatten_choice, flatten_onto. etrans; [apply foldl_add_new_length|]. cbn.
  induction ts as [|t ts IH]; cbn; [lia|]. rewrite length_app.
  pose proof (flatten_tree_length _ t (le_n _)). unfold tsum in *. cbn. lia.
Qed.

Lemma flatten_tree_leaf n t u : tree_size t ≤ n → u ∈ flatten_tree t → ∀ l, u ≠ TChoice l.
Proof.
  revert t. induction n as [|n IH]; intros t Hn; [pose proof (tree_size_pos t); lia|].
  destruct t as [| | | | | |l| | | |]; cbn; try (by intros ->%list_elem_of_singleton).
  rewrite <- flat_map_concat_map, list_elem_of_In, in_flat_map. intros (t & Ht & Hu).
  rewrite <- list_elem_of_In in Ht, Hu. apply (IH t); [|done].
  pose proof (tsum_elem t l Ht). cbn in Hn. unfold tsum in *. lia.
Qed.

Lemma flatten_choice_spec ts :
  NoDup (flatten_choice ts) ∧
  (∀ u, u ∈ flatten_choice ts ↔ ∃ t, t ∈ ts ∧ u ∈ flatten_tree t) ∧
  (∀ l, TChoice l ∉ flatten_choice ts).
Proof.
  destruct (foldl_add_new_spec (concat (map flatten_tree ts)) []) as [Hnd Hin]; [apply NoDup_nil_2|].
  assert (∀ u, u ∈ flatten_choice ts ↔ ∃ t, t ∈ ts ∧ u ∈ flatten_tree t) as Hin'.
  { intros u. unfold flatten_choice, flatten_onto. rewrite Hin, elem_of_nil.
    rewrite <- flat_map_concat_map, list_elem_of_In, in_flat_map.
    setoid_rewrite list_elem_of_In. naive_solver. }
  split_and!; [done|done|]. intros l (t & _ & Hu)%Hin'. by apply (flatten_tree_leaf _ _ _ (le_n _) Hu l).
Qed.

Lemma choice_denotes {E} K n p ids ts :
  Forall2 (denotes p) ids ts → Forall (λ t, tree_size t ≤ K) ts → tsum ts + K ≤ n → pool_fits p →
  (N.of_nat (length (children p) + tsum ts) < U32)%N →
  ∃ id p', choice (E:=E) n p ids = Ok (id, p') ∧ extends p p' ∧ denotes p' id (TChoice (flatten_choice ts)).
Proof.
  intros Hf HK Hn Hfit Hc. unfold choice.
  destruct (flatten_loop_spec (E:=E) K n p ids ts [] []) as (els & -> & Hels); [done..|]. cbn.
  fold (flatten_choice ts) in Hels. pose proof (Forall2_length _ _ _ Hels) as Hlen.
  pose proof (flatten_choice_length ts) as Hle.
  set (p1 := set_children p (children p ++ els)).
  assert (extends p p1) as Hext by (split_and!; [done|by eexists|done]).
  eexists _, _. split; [done|].
  edestruct (push_node_denotes p1 (Choice (mkRange (as_u32 (length (children p))) (as_u32 (length els)))))
    as [Hext' Hd].
  - split; [apply Hfit|]. cbn. rewrite length_app. lia.
  - exists els, (flatten_choice ts). split_and!; [apply child_slice_tail; lia| | |done].
    + cbn. unfold as_u32. rewrite wrap_u32_small by lia. done.
    + eapply Forall2_impl; [done|]. intros. by eapply denotes_extends.
  - split; [|done]. destruct Hext as (?&?&?), Hext' as (?&?&?). split_and!; by etrans.
Qed.

(** ** Named symbols of a rule *)
Fixpoint tree_refs (skip : bool) (t : tree) : list StrId :=
  match t with
  | TNamed s => if skip then [] else [s]
  | TSeq l | TChoice l => concat (map (tree_refs false) l)
  | TRepeat t => tree_refs false t
  | TMetadata _ t | TReserved t _ => tree_refs skip t
  | _ => []
  end.

Lemma collect_each_spec {E} (f : N → list StrId → outcome E (list StrId)) (g : tree → list StrId) p cs ts out :
  Forall2 (denotes p) cs ts → (∀ c t out, t ∈ ts → denotes p c t → f c out = Ok (out ++ g t)) →
  collect_each f cs out = Ok (out ++ concat (map g ts)).
Proof.
  intros Hf. revert out. induction Hf as [|c t cs ts Hc Hf IH]; intros out Hg; cbn.
  - by rewrite List.app_nil_r.
  - rewrite (Hg c t) by (done || apply list_elem_of_here). cbn.
    rewrite IH by (intros; apply Hg; [by apply list_elem_of_further|done]).
    by rewrite (assoc_L (++)).
Qed.

Lemma collect_referenced_ids_tree {E} n p id t skip out :
  denotes p id t → tree_size t ≤ n →
  collect_referenced_ids (E:=E) n p id skip out = Ok (out ++ tree_refs skip t).
Proof.
  revert id t skip out. induction n as [|n IH]; intros id t skip out Hid Hn.
  { pose proof (tree_size_pos t). lia. }
  apply (denotes_node_Ok (E:=E)) in Hid as (nd & Hnd & Ht). cbn. rewrite Hnd. cbn.
  destruct nd; cbn in Ht; destr_ex; subst; cbn in *; try by rewrite List.app_nil_r.
  - destruct skip; [by rewrite List.app_nil_r|done].
  - rewrite (child_slice_any (E':=E) _ _ _ H0). cbn. eapply collect_each_spec; [done|].
    intros c t out' Ht Hc. apply IH; [done|]. pose proof (tsum_elem _ _ Ht). unfold tsum in *. lia.
  - rewrite (child_slice_any (E':=E) _ _ _ H0). cbn. eapply collect_each_spec; [done|].
    intros c t out' Ht Hc. apply IH; [done|]. pose proof (tsum_elem _ _ Ht). unfold tsum in *. lia.
  - by apply IH; [|lia].
  - by apply IH; [|lia].
  - by apply IH; [|lia].
Qed.

Lemma any_decides {E A} (f : A → outcome E bool) (P : tree → Prop) (R : A → tree → Prop) cs ts :
  Forall2 R cs ts → (∀ c t, t ∈ ts → R c t → decides (f c) (P t)) →
  decides (any_ f cs) (∃ t, t ∈ ts ∧ P t).
Proof.
  induction 1 as [|c t cs ts Hc Hf IH]; intros HP.
  - apply decides_false. intros (t & Ht & _). by apply elem_of_nil in Ht.
  - destruct (HP c t) as (b & Hb & Hiff); [apply list_elem_of_here|done|]. cbn. rewrite Hb. cbn. destruct b.
    + exists true. split; [done|]. split; [|done]. intros _. exists t. split; [apply list_elem_of_here|by apply Hiff].
    + eapply decides_iff; [apply IH; intros; apply HP; [by apply list_elem_of_further|done]|].
      setoid_rewrite elem_of_cons. split; [naive_solver|]. intros (u & [->|Hu] & HPu); [|eauto].
      by apply Hiff in HPu.
Qed.

Lemma elem_of_concat_map {A B} (g : A → list B) l x : x ∈ concat (map g l) ↔ ∃ a, a ∈ l ∧ x ∈ g a.
Proof.
  rewrite <- flat_map_concat_map, list_elem_of_In, in_flat_map. by setoid_rewrite list_elem_of_In.
Qed.

Lemma rule_is_referenced_tree {E} n p id t target ext :
  denotes p id t → tree_size t ≤ n →
  decides (rule_is_referenced (E:=E) n p id target ext) (target ∈ tree_refs ext t).
Proof.
  revert id t ext. induction n as [|n IH]; intros id t ext Hid Hn.
  { pose proof (tree_size_pos t). lia. }
  apply (denotes_node_Ok (E:=E)) in Hid as (nd & Hnd & Ht). cbn. rewrite Hnd. cbn.
  destruct nd; cbn in Ht; destr_ex; subst; cbn in *; try by apply decides_false, not_elem_of_nil.
  - eexists. split; [done|]. case N.eqb_spec; destruct ext; cbn;
      rewrite ?list_elem_of_singleton, ?elem_of_nil; intuition congruence.
  - rewrite (child_slice_any (E':=E) _ _ _ H0). cbn.
    eapply decides_iff;
      [eapply (any_decides _ (λ t, target ∈ tree_refs false t)); [done|]|symmetry; apply elem_of_concat_map].
    intros c t Ht Hc. apply IH; [done|]. pose proof (tsum_elem _ _ Ht). unfold tsum in *. lia.
  - rewrite (child_slice_any (E':=E) _ _ _ H0). cbn.
    eapply decides_iff;
      [eapply (any_decides _ (λ t, target ∈ tree_refs false t)); [done|]|symmetry; apply elem_of_concat_map].
    intros c t Ht Hc. apply IH; [done|]. pose proof (tsum_elem _ _ Ht). unfold tsum in *. lia.
  - by apply IH; [|lia].
  - by apply IH; [|lia].
  - by apply IH; [|lia].
Qed.

(** ** Properties *)

(** [subtree_eq] decides, without panicking and in as many steps as the
    left rule has nodes, whether two ids stand for the same rule, wherever the
    two are stored in the pool. *)
Theorem subtree_eq_correct (E : Type) (n : nat) p (a b : RuleId) (t u : tree) :
  denotes p a t → denotes p b u → tree_size t ≤ n →
  ∃ r, subtree_eq (E:=E) n p a b = Ok r ∧ (r = true ↔ t = u).
Proof. apply subtree_eq_decides. Qed.

(** [subtree_hash] is a hash of the rule: what it feeds the hasher is a
    prefix code of the tree, so equal rules get equal hashes in any pool and
    two rules that feed the same items are equal. *)
Theorem subtree_hash_correct (E : Type) (fx : list HashItem → N) (n : nat) p p' (a b : RuleId) (t u : tree) :
  denotes p a t → denotes p' b u → tree_size t ≤ n → tree_size u ≤ n →
  subtree_hash (E:=E) fx n p a = Ok (fx (tree_items t)) ∧
  subtree_hash (E:=E) fx n p' b = Ok (fx (tree_items u)) ∧
  (tree_items t = tree_items u ↔ t = u).
Proof.
  intros Ha Hb Ht Hu. unfold subtree_hash. split_and!; [| |apply tree_items_inj].
  - rewrite (subtree_hash_loop_spec _ _ [a] [t]); [|by constructor; [|constructor]|unfold tsum; cbn; lia].
    cbn. by rewrite List.app_nil_r.
  - rewrite (subtree_hash_loop_spec _ _ [b] [u]); [|by constructor; [|constructor]|unfold tsum; cbn; lia].
    cbn. by rewrite List.app_nil_r.
Qed.

(** [choice] returns a new choice whose alternatives are the non-choice
    rules reached from the given ones through nested choices, each once; every
    rule the pool held before stands for what it stood for. *)
Theorem choice_correct (E : Type) (K n : nat) p (ids : list RuleId) (ts : list tree) :
  Forall2 (denotes p) ids ts → Forall (λ t, tree_size t ≤ K) ts → tsum ts + K ≤ n → pool_fits p →
  (N.of_nat (length (children p) + tsum ts) < U32)%N →
  ∃ id p' alts, choice (E:=E) n p ids = Ok (id, p') ∧ denotes p' id (TChoice alts) ∧
    NoDup alts ∧ (∀ u, u ∈ alts ↔ ∃ t, t ∈ ts ∧ u ∈ flatten_tree t) ∧ (∀ l, TChoice l ∉ alts) ∧
    (∀ i t, denotes p i t → denotes p' i t).
Proof.
  intros Hf HK Hn Hfit Hc.
  destruct (choice_denotes (E:=E) K n p ids ts) as (id & p' & Hch & Hext & Hd); [done..|].
  exists id, p', (flatten_choice ts). destruct (flatten_choice_spec ts) as (?&?&?).
  split_and!; [done..|]. intros i t. by apply denotes_extends.
Qed.

(** [collect_referenced_ids] lists the named symbols of a rule in order
    and [rule_is_referenced] tests membership in that list, with the top-level
    name skipped for an external. *)
Theorem referenced_ids_correct (E : Type) (n : nat) p (id : RuleId) (t : tree) target ext out :
  denotes p id t → tree_size t ≤ n →
  ∃ l, collect_referenced_ids (E:=E) n p id ext out = Ok (out ++ l) ∧
  ∃ r, rule_is_referenced (E:=E) n p id target ext = Ok r ∧ (r = true ↔ target ∈ l).
Proof.
  intros Hid Hn. exists (tree_refs ext t). split; [by apply collect_referenced_ids_tree|].
  by apply rule_is_referenced_tree.
Qed.
End denotes.

(** ** Witnesses *)
(** [choice("a", choice("b", "a"))] with the inner [choice] at 2, twice [a]. *)
Definition example_pool : RulePool unit :=
  mkRulePool [RString 3; RString 4; Choice (mkRange 0 2); RString 3; NamedSymbol 5; Seq (mkRange 2 2)]
             [1%N; 0%N; 4%N; 3%N] [] (mkPool [] [] tt).
Lemma example_denotes id t : to_tree 5 example_pool id = Some t → denotes example_pool id t.
Proof. intros. by exists 5. Qed.

Lemma subtree_eq_correct_witness :
  ∃ r, subtree_eq (E:=Empty_set) 3 example_pool 0 3 = Ok r ∧ (r = true ↔ TString 3 = TString 3).
Proof. apply subtree_eq_correct; [apply example_denotes; reflexivity..|cbn; lia]. Defined.

Lemma subtree_hash_correct_witness :
  subtree_hash (E:=Empty_set) (λ l, N.of_nat (length l)) 3 example_pool 0 = Ok 2%N ∧
  subtree_hash (E:=Empty_set) (λ l, N.of_nat (length l)) 3 example_pool 2 = Ok 6%N ∧
  (tree_items (TString 3) = tree_items (TChoice [TString 4; TString 3]) ↔
   TString 3 = TChoice [TString 4; TString 3]).
Proof.
  apply (subtree_hash_correct Empty_set (λ l, N.of_nat (length l)) 3 example_pool example_pool 0 2
           (TString 3) (TChoice [TString 4; TString 3])); [apply example_denotes; reflexivity..|cbn; lia|cbn; lia].
Defined.

Lemma choice_correct_witness :
  ∃ id p' alts, choice (E:=Empty_set) 20 example_pool [0; 2]%N = Ok (id, p') ∧ denotes p' id (TChoice alts) ∧
    NoDup alts ∧ (∀ u, u ∈ alts ↔ ∃ t, t ∈ [TString 3; TChoice [TString 4; TString 3]] ∧ u ∈ flatten_tree t) ∧
    (∀ l, TChoice l ∉ alts) ∧ (∀ i t, denotes example_pool i t → denotes p' i t).
Proof.
  apply (choice_correct Empty_set 3).
  - constructor; [apply example_denotes; reflexivity|constructor; [apply example_denotes; reflexivity|constructor]].
  - constructor; [cbn; lia|constructor; [cbn; lia|constructor]].
  - cbn. lia.
  - split; reflexivity.
  - reflexivity.
Defined.

Lemma referenced_ids_correct_witness :
  ∃ l, collect_referenced_ids (E:=Empty_set) 5 example_pool 5 false [] = Ok ([] ++ l) ∧
  ∃ r, rule_is_referenced (E:=Empty_set) 5 example_pool 5 5%N false = Ok r ∧ (r = true ↔ 5%N ∈ l).
Proof.
  apply (referenced_ids_correct Empty_set 5 example_pool 5 (TSeq [TNamed 5; TString 3])); [|cbn; lia].
  apply example_denotes. reflexivity.
Defined.
