(* ===== verification/CharSet.v ===== *)
(** * [crates/generate/src/nfa.rs]: character sets

    A set of code points is a vector of half-open ranges.  The loops walk the
    vector by index and rewrite it in place; each is translated with its
    indices and is shown equal to a function on lists, about which membership
    ([cmem]) and the representation invariant ([sep]: sorted, non-empty ranges
    with a gap between neighbours) are proved. *)
From S2P Require Import Prelude.
From Stdlib Require Import ZifyBool.

Local Open Scope N_scope.

(** [Range<u32>]: the start and the excluded end. *)
Notation range := (N * N)%type (only parsing).
Notation ranges := (list (N * N)) (only parsing).

Record CharacterSet := mkCharacterSet { cs_ranges : list (N * N) }.
#[global] Instance CharacterSet_eq_dec : EqDecision CharacterSet.
Proof. solve_decision. Defined.

(** [char::MAX as u32 + 1]. *)
Definition END : N := 1114112.

Definition empty : CharacterSet := mkCharacterSet [].
Definition from_char (c : N) : CharacterSet := mkCharacterSet [(c, c + 1)].
Definition is_empty (s : CharacterSet) : bool := bool_decide (cs_ranges s = []).
Definition range_count (s : CharacterSet) : nat := length (cs_ranges s).

(** ** Complement *)
Fixpoint negate_loop {E} (n : nat) (l : ranges) (i : nat) (previous_end : N) :
    outcome E (ranges * N) :=
  match l !! i with
  | None => Ok (l, previous_end)
  | Some (a, b) =>
      match n with
      | O => OutOfFuel
      | S n =>
          let start := previous_end in
          let previous_end := b in
          if start <? a
          then negate_loop n (<[i := (start, a)]> l) (S i) previous_end
          else negate_loop n (vec_remove i l) i previous_end
      end
  end.
Definition negate {E} (s : CharacterSet) : outcome E CharacterSet :=
  '(l, previous_end) ← negate_loop (length (cs_ranges s)) (cs_ranges s) 0 0;
  Ok (mkCharacterSet (if previous_end <? END then l ++ [(previous_end, END)] else l)).

(** ** Adding a range *)

(** The inner loop, which joins range [i] with the ranges it now reaches. *)
Fixpoint join_loop {E} (n : nat) (l : ranges) (i : nat) : outcome E ranges :=
  match l !! i, l !! S i with
  | Some (a, b), Some (a', b') =>
      if a' <=? b then
        match n with
        | O => OutOfFuel
        | S n => join_loop n (vec_remove (S i) (<[i := (a, N.max b b')]> l)) i
        end
      else Ok l
  | _, _ => Ok l
  end.

Fixpoint add_int_range_loop {E} (n : nat) (l : ranges) (i : nat) (start end_ : N) :
    outcome E (nat * ranges) :=
  match l !! i with
  | None => Ok (i, l ++ [(start, end_)])
  | Some (a, b) =>
      if end_ <? a then Ok (i, vec_insert i (start, end_) l)
      else if start <=? b then
        l' ← join_loop (length l) (<[i := (N.min a start, N.max b end_)]> l) i;
        Ok (i, l')
      else match n with
           | O => OutOfFuel
           | S n => add_int_range_loop n l (S i) start end_
           end
  end.
Definition add_int_range {E} (s : CharacterSet) (i : nat) (start end_ : N) :
    outcome E (nat * CharacterSet) :=
  '(i, l) ← add_int_range_loop (length (cs_ranges s)) (cs_ranges s) i start end_;
  Ok (i, mkCharacterSet l).

Definition add_char {E} (s : CharacterSet) (c : N) : outcome E CharacterSet :=
  '(_, s) ← add_int_range s 0 c (c + 1); Ok s.
Definition add_range {E} (s : CharacterSet) (start end_ : N) : outcome E CharacterSet :=
  '(_, s) ← add_int_range s 0 start (end_ + 1); Ok s.

Fixpoint add_loop {E} (s : CharacterSet) (index : nat) (rs : ranges) : outcome E CharacterSet :=
  match rs with
  | [] => Ok s
  | (a, b) :: rs => '(index, s) ← add_int_range s index a b; add_loop s index rs
  end.
Definition add {E} (s other : CharacterSet) : outcome E CharacterSet :=
  add_loop s 0 (cs_ranges other).

Definition assign (s other : CharacterSet) : CharacterSet := mkCharacterSet (cs_ranges other).

(** ** Intersection test: the two iterators with their current elements *)
Fixpoint does_intersect_loop {E} (n : nat) (ls rs : ranges) : outcome E bool :=
  match ls, rs with
  | (la, lb) :: ls', (ra, rb) :: rs' =>
      match n with
      | O => OutOfFuel
      | S n =>
          if lb <=? ra then does_intersect_loop n ls' rs
          else if rb <=? la then does_intersect_loop n ls rs'
          else Ok true
      end
  | _, _ => Ok false
  end.
Definition does_intersect {E} (s other : CharacterSet) : outcome E bool :=
  does_intersect_loop (length (cs_ranges s) + length (cs_ranges other)) (cs_ranges s) (cs_ranges other).

(** ** Removing the intersection from both sides *)
Fixpoint remove_intersection_loop {E} (n : nat) (l r inter : ranges) (li ri : nat) :
    outcome E (ranges * ranges * ranges) :=
  match l !! li, r !! ri with
  | Some (la, lb), Some (ra, rb) =>
      match n with
      | O => OutOfFuel
      | S n =>
          match la ?= ra with
          | Lt =>
              if lb <=? ra then remove_intersection_loop n l r inter (S li) ri
              else match lb ?= rb with
                   | Lt => remove_intersection_loop n (<[li := (la, ra)]> l) (<[ri := (lb, rb)]> r)
                             (inter ++ [(ra, lb)]) (S li) ri
                   | Eq => remove_intersection_loop n (<[li := (la, ra)]> l) (vec_remove ri r)
                             (inter ++ [(ra, rb)]) li ri
                   | Gt => remove_intersection_loop n
                             (vec_insert li (la, ra) (<[li := (rb, lb)]> l)) (vec_remove ri r)
                             (inter ++ [(ra, rb)]) (S li) ri
                   end
          | Eq =>
              if lb <? rb then
                remove_intersection_loop n (vec_remove li l) (<[ri := (lb, rb)]> r)
                  (inter ++ [(la, lb)]) li ri
              else if lb =? rb then
                remove_intersection_loop n (vec_remove li l) (vec_remove ri r)
                  (inter ++ [(la, lb)]) li ri
              else if rb <? lb then
                remove_intersection_loop n (<[li := (rb, lb)]> l) (vec_remove ri r)
                  (inter ++ [(ra, rb)]) li ri
              else remove_intersection_loop n l r inter li ri
          | Gt =>
              if rb <=? la then remove_intersection_loop n l r inter li (S ri)
              else match lb ?= rb with
                   | Lt => remove_intersection_loop n (vec_remove li l)
                             (vec_insert ri (ra, la) (<[ri := (lb, rb)]> r))
                             (inter ++ [(la, lb)]) li (S ri)
                   | Eq => remove_intersection_loop n (vec_remove li l) (<[ri := (ra, la)]> r)
                             (inter ++ [(la, lb)]) li ri
                   | Gt => remove_intersection_loop n (<[li := (rb, lb)]> l) (<[ri := (ra, la)]> r)
                             (inter ++ [(la, rb)]) li (S ri)
                   end
          end
      end
  | _, _ => Ok (l, r, inter)
  end.
(** The new [self], the new [other] and the result. *)
Definition remove_intersection {E} (s other : CharacterSet) :
    outcome E (CharacterSet * CharacterSet * CharacterSet) :=
  '(l, r, inter) ← remove_intersection_loop (length (cs_ranges s) + length (cs_ranges other))
                     (cs_ranges s) (cs_ranges other) [] 0 0;
  Ok (mkCharacterSet l, mkCharacterSet r, mkCharacterSet inter).
Definition difference {E} (s other : CharacterSet) : outcome E CharacterSet :=
  '(s, _, _) ← remove_intersection s other; Ok s.
Definition symmetric_difference {E} (s other : CharacterSet) : outcome E CharacterSet :=
  '(s, other, _) ← remove_intersection s other; add s other.

(** ** Enumeration *)
Definition range_list (r : range) : list N :=
  (λ i, r.1 + N.of_nat i) <$> seq 0 (N.to_nat (r.2 - r.1)).
Definition char_codes (s : CharacterSet) : list N := concat (map range_list (cs_ranges s)).
(** [char::from_u32(c).is_some()]: not a surrogate, at most [char::MAX]. *)
Definition is_char (c : N) : bool := (c <? 55296) || ((57344 <=? c) && (c <? END)).
Definition chars (s : CharacterSet) : list N := filter (λ c, is_char c = true) (char_codes s).
(** [ranges()]: inclusive ranges of [char]s. *)
Definition char_range (r : range) : option (N * N) :=
  start ← List.find is_char (range_list r);
  end_ ← List.find is_char (rev (range_list r));
  Some (start, end_).
Definition ranges_ (s : CharacterSet) : list (N * N) := omap char_range (cs_ranges s).

(** ** Membership of a range *)

(** The answer of the comparison function. *)
Definition probe_range (seek : range) (probe : range) : comparison :=
  if probe.2 <=? seek.1 then Lt else if seek.1 <? probe.1 then Gt else Eq.
Definition contains_codepoint_range (s : CharacterSet) (seek : range) : bool :=
  let ix := match binary_search_by (probe_range seek) (cs_ranges s) with
            | inl ix | inr ix => ix
            end in
  match cs_ranges s !! ix with
  | Some (a, b) => (a <=? seek.1) && (seek.2 <=? b)
  | None => false
  end.
Definition contains (s : CharacterSet) (c : N) : bool := contains_codepoint_range s (c, c + 1).

(** ** Simplification: the closure of [filter_map] with its captured state *)
Definition simplify_step (ruled_out : CharacterSet) (prev_range range : option range) :
    option (N * N) * option (N * N) :=
  let keep := (prev_range, range) in
  match range with
  | None => keep
  | Some (a, b) =>
      if contains_codepoint_range ruled_out (a, b) then (None, prev_range)
      else match prev_range with
           | Some (pa, pb) =>
               if contains_codepoint_range ruled_out (pb, a) then (None, Some (pa, b)) else keep
           | None => keep
           end
  end.
Fixpoint simplify_loop (ruled_out : CharacterSet) (prev_range : option range) (l : list (option range)) :
    ranges :=
  match l with
  | [] => []
  | r :: l =>
      let '(result, prev_range) := simplify_step ruled_out prev_range r in
      match result with
      | Some x => x :: simplify_loop ruled_out prev_range l
      | None => simplify_loop ruled_out prev_range l
      end
  end.
Definition simplify_ignoring (s ruled_out : CharacterSet) : CharacterSet :=
  mkCharacterSet (simplify_loop ruled_out None (map Some (cs_ranges s) ++ [None])).

(** ** Ordering *)
Definition range_len (r : range) : N := r.2 - r.1.
Fixpoint cmp_elems (ls rs : list N) : comparison :=
  match ls, rs with
  | x :: ls, y :: rs => match x ?= y with Eq => cmp_elems ls rs | c => c end
  | _, _ => Eq
  end.
Fixpoint cmp_ranges (ls rs : ranges) : comparison :=
  match ls, rs with
  | l :: ls, r :: rs =>
      match range_len l ?= range_len r with
      | Eq => match cmp_elems (range_list l) (range_list r) with
              | Eq => cmp_ranges ls rs
              | c => c
              end
      | c => c
      end
  | _, _ => Eq
  end.
Definition cs_count (l : ranges) : N := foldr (λ r acc, range_len r + acc) 0 l.
Definition cmp (s other : CharacterSet) : comparison :=
  match cs_count (cs_ranges s) ?= cs_count (cs_ranges other) with
  | Eq => cmp_ranges (cs_ranges s) (cs_ranges other)
  | c => c
  end.

(** ** Meaning and representation invariant *)
Fixpoint cmem (x : N) (l : ranges) : bool :=
  match l with
  | [] => false
  | (a, b) :: l => (a <=? x) && (x <? b) || cmem x l
  end.

(** Sorted from [lo] on, with non-empty ranges and a gap between neighbours. *)
Fixpoint sep (lo : N) (l : ranges) : Prop :=
  match l with
  | [] => True
  | (a, b) :: l => lo <= a ∧ a < b ∧ sep (b + 1) l
  end.
Fixpoint sepb (lo : N) (l : ranges) : bool :=
  match l with
  | [] => true
  | (a, b) :: l => (lo <=? a) && (a <? b) && sepb (b + 1) l
  end.
Lemma sepb_sep lo l : sepb lo l = true → sep lo l.
Proof.
  revert lo. induction l as [|[a b] l IH]; intros lo; cbn; [done|]. intros.
  split_and!; [lia|lia|]. apply IH. lia.
Qed.

Definition bounded (l : ranges) : Prop := Forall (λ r, r.2 <= END) l.

(** The representation invariant of a character set. *)
Definition cs_ok (s : CharacterSet) : Prop := sep 0 (cs_ranges s) ∧ bounded (cs_ranges s).
Definition cs_mem (x : N) (s : CharacterSet) : bool := cmem x (cs_ranges s).

Lemma sep_weaken lo lo' l : sep lo l → lo' <= lo → sep lo' l.
Proof. destruct l as [|[a b] l]; cbn; [done|]. intros (?&?&?) ?. split_and!; [lia|lia|done]. Qed.
Lemma cmem_lt lo l x : sep lo l → x < lo → cmem x l = false.
Proof.
  revert lo. induction l as [|[a b] l IH]; intros lo; cbn; [done|]. intros (?&?&Hl) ?.
  rewrite (IH (b + 1)) by (done || lia). lia.
Qed.
Lemma cmem_app x l1 l2 : cmem x (l1 ++ l2) = cmem x l1 || cmem x l2.
Proof. induction l1 as [|[a b] l1 IH]; cbn; [done|]. rewrite IH. by rewrite orb_assoc. Qed.
Lemma cmem_bounded l x : bounded l → cmem x l = true → x < END.
Proof. induction 1 as [|[a b] l Hb _ IH]; cbn in *; [done|]. intros Hx. destruct (cmem x l); [auto|lia]. Qed.

(** The bound below which the ranges of [l] end. *)
Fixpoint upper (lo : N) (l : ranges) : N :=
  match l with [] => lo | (_, b) :: l => upper (b + 1) l end.
Lemma sep_app lo l1 l2 : sep lo (l1 ++ l2) ↔ sep lo l1 ∧ sep (upper lo l1) l2.
Proof. revert lo. induction l1 as [|[a b] l1 IH]; intros lo; cbn; [tauto|]. rewrite IH. tauto. Qed.
Lemma upper_app lo l1 l2 : upper lo (l1 ++ l2) = upper (upper lo l1) l2.
Proof. revert lo. induction l1 as [|[a b] l1 IH]; intros lo; cbn; [done|]. apply IH. Qed.


(** *** Complement *)
Fixpoint negate_list (prev : N) (l : ranges) : ranges :=
  match l with
  | [] => if prev <? END then [(prev, END)] else []
  | (a, b) :: l => if prev <? a then (prev, a) :: negate_list b l else negate_list b l
  end.

Lemma negate_loop_list {E} n d l prev :
  (length l ≤ n)%nat →
  ∃ l' p, negate_loop (E:=E) n (d ++ l) (length d) prev = Ok (d ++ l', p) ∧
          negate_list prev l = l' ++ if p <? END then [(p, END)] else [].
Proof.
  revert n d prev. induction l as [|[a b] l IH]; intros n d prev Hn.
  - exists [], prev. split; [|done]. destruct n; cbn; by rewrite lookup_end.
  - destruct n as [|n]; cbn in Hn; [lia|]. cbn. rewrite lookup_mid. destruct (prev <? a).
    + rewrite insert_mid, snoc_mid, <- (length_snoc d (prev, a)).
      destruct (IH n (d ++ [(prev, a)]) b) as (l' & p & Heq & Hl); [lia|].
      exists ((prev, a) :: l'), p. rewrite Heq, Hl. by rewrite <- snoc_mid.
    + rewrite remove_mid. apply IH. lia.
Qed.

Lemma negate_eq {E} s : negate (E:=E) s = Ok (mkCharacterSet (negate_list 0 (cs_ranges s))).
Proof.
  unfold negate. destruct (negate_loop_list (E:=E) (length (cs_ranges s)) [] (cs_ranges s) 0) as (l' & p & Heq & Hl);
    [lia|]. cbn in Heq. rewrite Heq. cbn. rewrite Hl. case_match; [done|]. by rewrite List.app_nil_r.
Qed.

Lemma negate_list_sep prev l : sep prev l → bounded l → sep prev (negate_list prev l) ∧ bounded (negate_list prev l).
Proof.
  revert prev. induction l as [|[a b] l IH]; intros prev Hs Hb; cbn in *.
  - case_match; cbn; split; [lia|by constructor; [cbn; lia|constructor]|done|constructor].
  - apply Forall_cons in Hb as [Hb0 Hb]. cbn in Hb0. destruct Hs as (?&?&Hs).
    destruct (IH b) as [H1 H2]; [by eapply sep_weaken; [done|lia]|done|].
    case_match; cbn.
    + split; [split_and!; [lia|lia|by eapply sep_weaken; [done|lia]]|].
      constructor; [cbn; lia|done].
    + split; [by eapply sep_weaken; [done|lia]|done].
Qed.

Lemma negate_list_mem prev l x :
  sep prev l → bounded l →
  cmem x (negate_list prev l) = (prev <=? x) && (x <? END) && negb (cmem x l).
Proof.
  revert prev. induction l as [|[a b] l IH]; intros prev Hs Hb; cbn in *.
  - case_match; cbn; lia.
  - apply Forall_cons in Hb as [Hb0 Hb]. cbn in Hb0. destruct Hs as (?&?&Hs).
    specialize (IH b (sep_weaken _ b _ Hs ltac:(lia)) Hb). pose proof (cmem_lt _ _ x Hs).
    case_match; cbn; rewrite IH; destruct (cmem x l); lia.
Qed.

(** *** Adding a range *)
Fixpoint join_list (a b : N) (l : ranges) : ranges :=
  match l with
  | (a', b') :: l' => if a' <=? b then join_list a (N.max b b') l' else (a, b) :: l
  | [] => [(a, b)]
  end.
(** The ranges that end before [start], and what replaces the others. *)
Fixpoint add_list (l : ranges) (start end_ : N) : ranges * ranges :=
  match l with
  | [] => ([], [(start, end_)])
  | (a, b) :: l' =>
      if end_ <? a then ([], (start, end_) :: l)
      else if start <=? b then ([], join_list (N.min a start) (N.max b end_) l')
      else let '(before, after) := add_list l' start end_ in ((a, b) :: before, after)
  end.

Lemma join_loop_list {E} n d a b l :
  (length l ≤ n)%nat →
  join_loop (E:=E) n (d ++ (a, b) :: l) (length d) = Ok (d ++ join_list a b l).
Proof.
  revert n b. induction l as [|[a' b'] l IH]; intros n b Hn.
  - destruct n; cbn; by rewrite lookup_mid, lookup_mid_S.
  - destruct n as [|n]; cbn in Hn; [lia|]. cbn. rewrite lookup_mid, lookup_mid_S. cbn.
    case_match; [|done]. rewrite insert_mid, remove_mid_S. apply IH. lia.
Qed.

Lemma add_int_range_loop_list {E} n d l start end_ :
  (length l ≤ n)%nat →
  add_int_range_loop (E:=E) n (d ++ l) (length d) start end_ =
    let '(before, after) := add_list l start end_ in
    Ok (length (d ++ before), d ++ before ++ after).
Proof.
  revert n d. induction l as [|[a b] l IH]; intros n d Hn.
  - destruct n; cbn; rewrite lookup_end; by rewrite !List.app_nil_r.
  - destruct n as [|n]; cbn in Hn; [lia|]. cbn. rewrite lookup_mid. destruct (end_ <? a).
    { rewrite vec_insert_mid. by rewrite (List.app_nil_r d). }
    destruct (start <=? b).
    + rewrite insert_mid, join_loop_list by (rewrite length_app; cbn; lia). cbn. by rewrite (List.app_nil_r d).
    + rewrite snoc_mid, <- (length_snoc d (a, b)), IH by lia.
      destruct (add_list l start end_) as [before after]. by rewrite <- !(assoc_L (++)).
Qed.

Lemma join_list_sep a b l lo : sep lo l → a < b → a < lo → sep a (join_list a b l).
Proof.
  revert b lo. induction l as [|[a' b'] l IH]; intros b lo Hs Hab Hlo; cbn in *; [split_and!; done || lia|].
  destruct Hs as (?&?&Hs). case_match.
  - apply (IH _ (b' + 1)); [done|lia|lia].
  - cbn. split_and!; [lia|lia|lia|lia|done].
Qed.
Lemma join_list_mem a b l lo x :
  sep lo l → a < b → a < lo → cmem x (join_list a b l) = (a <=? x) && (x <? b) || cmem x l.
Proof.
  revert b lo. induction l as [|[a' b'] l IH]; intros b lo Hs Hab Hlo; cbn in *; [done|].
  destruct Hs as (?&?&Hs). case_match; [|done].
  rewrite (IH _ (b' + 1)); [|done|lia|lia]. destruct (cmem x l); lia.
Qed.
Lemma join_list_bounded a b l : b <= END → bounded l → bounded (join_list a b l).
Proof.
  revert b. induction l as [|[a' b'] l IH]; intros b Hb Hl; cbn; [by constructor|].
  apply Forall_cons in Hl as [H1 H2]. cbn in H1. case_match; [apply IH; [lia|done]|].
  by repeat constructor.
Qed.

(** What adding a range does, and that what it leaves before the index lies
    below the range, so that a later range can start from there. *)
Lemma add_list_spec lo l start end_ :
  sep lo l → lo <= start → start < end_ →
  let '(before, after) := add_list l start end_ in
  sep lo (before ++ after) ∧ upper lo before <= start ∧ sep (upper lo before) after ∧
  (∀ x, cmem x (before ++ after) = (start <=? x) && (x <? end_) || cmem x l) ∧
  (end_ <= END → bounded l → bounded (before ++ after)).
Proof.
  revert lo. induction l as [|[a b] l IH]; intros lo Hs Hlo Hse; cbn in *.
  - split_and!; try lia; try done. intros. by repeat constructor.
  - destruct Hs as (Ha & Hab & Hs).
    destruct (end_ <? a) eqn:E1; [|destruct (start <=? b) eqn:E2]; cbn.
    + split_and!; try lia; try done. intros ? Hb. by constructor.
    + assert (sep lo (join_list (N.min a start) (N.max b end_) l)) as Hj.
      { eapply sep_weaken; [eapply (join_list_sep _ _ _ (b + 1)); [done|lia|lia]|lia]. }
      split_and!; try done.
      * intros x. rewrite (join_list_mem _ _ _ (b + 1)) by (done || lia). destruct (cmem x l); lia.
      * intros ? Hb. apply Forall_cons in Hb as [? Hb]. cbn in *. apply join_list_bounded; [lia|done].
    + specialize (IH (b + 1) Hs ltac:(lia) Hse). destruct (add_list l start end_) as [before after].
      destruct IH as (H1 & H2 & H3 & H4 & H5). cbn. split_and!; try done.
      * intros x. rewrite H4. destruct (cmem x l); lia.
      * intros ? Hb. apply Forall_cons in Hb as [? Hb]. constructor; [done|]. by apply H5.
Qed.

Lemma bounded_of_mem lo l : sep lo l → (∀ x, cmem x l = true → x < END) → bounded l.
Proof.
  revert lo. induction l as [|[a b] l IH]; intros lo Hs Hx; [constructor|]. destruct Hs as (?&?&Hs).
  constructor.
  - cbn. specialize (Hx (b - 1)). cbn in Hx. assert (b - 1 < END); [|lia]. apply Hx. lia.
  - apply (IH (b + 1)); [done|]. intros x Hm. apply Hx. cbn. rewrite Hm. lia.
Qed.

Lemma add_int_range_eq {E} d l start end_ :
  add_int_range (E:=E) (mkCharacterSet (d ++ l)) (length d) start end_ =
    let '(before, after) := add_list l start end_ in
    Ok (length (d ++ before), mkCharacterSet (d ++ before ++ after)).
Proof.
  unfold add_int_range. cbn. rewrite add_int_range_loop_list by (rewrite length_app; lia).
  by destruct (add_list l start end_).
Qed.

Lemma add_loop_spec {E} rs d l :
  sep 0 (d ++ l) → sep (upper 0 d) rs →
  ∃ l', add_loop (E:=E) (mkCharacterSet (d ++ l)) (length d) rs = Ok (mkCharacterSet l') ∧
    sep 0 l' ∧ ∀ x, cmem x l' = cmem x (d ++ l) || cmem x rs.
Proof.
  revert d l. induction rs as [|[a b] rs IH]; intros d l Hs Hrs.
  - exists (d ++ l). split_and!; [done|done|]. intros. by rewrite orb_false_r.
  - cbn [add_loop]. rewrite add_int_range_eq. cbn in Hrs. destruct Hrs as (Ha & Hab & Hrs).
    pose proof Hs as [Hd Hl]%sep_app. pose proof (add_list_spec _ l a b Hl Ha Hab) as Hadd.
    destruct (add_list l a b) as [before after]. destruct Hadd as (H1 & H2 & H3 & H4 & _). cbn.
    rewrite (assoc_L (++)). destruct (IH (d ++ before) after) as (l' & Hl' & Hs' & Hm).
    + rewrite <- (assoc_L (++)). by apply sep_app.
    + eapply sep_weaken; [done|]. rewrite upper_app. lia.
    + exists l'. split_and!; [done..|]. intros x.
      rewrite Hm, <- (assoc_L (++)), (cmem_app x d), H4, cmem_app. cbn. lia.
Qed.

(** *** Intersection test *)
Lemma does_intersect_loop_spec {E} n ll lr l r :
  sep ll l → sep lr r → (length l + length r ≤ n)%nat →
  ∃ b, does_intersect_loop (E:=E) n l r = Ok b ∧ (b = true ↔ ∃ x, cmem x l = true ∧ cmem x r = true).
Proof.
  revert ll lr l r. induction n as [|n IH]; intros ll lr l r Hl Hr Hn.
  { destruct l as [|[a b] l]; [|cbn in Hn; lia]. exists false. split; [done|]. split; [done|]. by intros (x & ? & _). }
  destruct l as [|[la lb] l]. { exists false. split; [done|]. split; [done|]. by intros (x & ? & _). }
  destruct r as [|[ra rb] r]. { exists false. split; [done|]. split; [done|]. by intros (x & _ & ?). }
  cbn in Hl, Hr, Hn. destruct Hl as (?&?&Hl), Hr as (?&?&Hr). cbn [does_intersect_loop].
  destruct (lb <=? ra) eqn:E1; [|destruct (rb <=? la) eqn:E2].
  - destruct (IH (lb + 1) lr l ((ra, rb) :: r)) as (b & -> & Hb); [done|done|cbn; lia|].
    exists b. split; [done|]. rewrite Hb. split; intros (x & Hx1 & Hx2); exists x; split; try done; cbn in *;
      pose proof (cmem_lt _ _ x Hr); destruct (cmem x l); lia.
  - destruct (IH ll (rb + 1) ((la, lb) :: l) r) as (b & -> & Hb); [done|done|cbn; lia|].
    exists b. split; [done|]. rewrite Hb. split; intros (x & Hx1 & Hx2); exists x; split; try done; cbn in *;
      pose proof (cmem_lt _ _ x Hl); destruct (cmem x r); lia.
  - exists true. split; [done|]. split; [|done]. intros _. exists (N.max la ra). cbn. lia.
Qed.

(** *** Removing the intersection *)
Definition ri_post (ll lr : N) (l r lo ro io : ranges) : Prop :=
  sep ll lo ∧ sep lr ro ∧ sep (N.max ll lr) io ∧
  ∀ x, cmem x io = cmem x l && cmem x r ∧
       cmem x lo = cmem x l && negb (cmem x r) ∧
       cmem x ro = cmem x r && negb (cmem x l).

(** One step of the proof below: the loop goes on from [dl1 ++ l1] and
    [dr1 ++ r1], and [fl], [fr], [fi] rebuild the results of this step. *)
Ltac ri_post_tac Hl Hr Hpost :=
  destruct Hpost as (Hsl & Hsr & Hsi & Hm); cbn in Hsl, Hsr;
  destr_ex; split_and!;
  [ cbn; split_and?; solve [lia | done | eapply sep_weaken; [done|lia]]..
  | let x := fresh "x" in intros x; specialize (Hm x);
    pose proof (cmem_lt _ _ x Hl); pose proof (cmem_lt _ _ x Hr);
    destruct Hm as (Hm1 & Hm2 & Hm3); cbn in *; rewrite ?Hm1, ?Hm2, ?Hm3;
    repeat match goal with |- context[cmem x ?k] => destruct (cmem x k) end; lia ].
Ltac ri_step IH Hl Hr ll1 lr1 dl1 l1 dr1 r1 i1 fl fr fi :=
  let lo := fresh "lo" in let ro := fresh "ro" in let io := fresh "io" in
  let Heq := fresh "Heq" in let Hpost := fresh "Hpost" in
  destruct (IH ll1 lr1 dl1 l1 dr1 r1 i1) as (lo & ro & io & Heq & Hpost);
  [ cbn; split_and?; solve [lia | done | eapply sep_weaken; [done|lia]]
  | cbn; split_and?; solve [lia | done | eapply sep_weaken; [done|lia]]
  | cbn; lia
  | exists (fl lo), (fr ro), (fi io); split;
    [ rewrite ?insert_mid, ?remove_mid, ?vec_insert_mid;
      rewrite ?length_snoc, <- ?(assoc_L (++)) in Heq; cbn in Heq;
      etrans; [exact Heq|]; rewrite <- ?(assoc_L (++)); reflexivity
    | ri_post_tac Hl Hr Hpost ] ].

Lemma remove_intersection_loop_spec {E} n ll lr dl l dr r inter :
  sep ll l → sep lr r → (length l + length r ≤ n)%nat →
  ∃ lo ro io,
    remove_intersection_loop (E:=E) n (dl ++ l) (dr ++ r) inter (length dl) (length dr) =
      Ok (dl ++ lo, dr ++ ro, inter ++ io) ∧ ri_post ll lr l r lo ro io.
Proof.
  revert ll lr dl l dr r inter. induction n as [|n IH]; intros ll lr dl l dr r inter Hl Hr Hn.
  { destruct l as [|[a b] l], r; try (cbn in Hn; lia). exists [], [], [].
    cbn. rewrite !lookup_end. split; [by rewrite (List.app_nil_r inter)|]. by split_and!. }
  destruct l as [|[la lb] l].
  { exists [], r, []. cbn. rewrite !lookup_end. split; [by rewrite (List.app_nil_r inter)|].
    split_and!; [done..|]. intros x. split_and!; [done..|]. cbn. by rewrite andb_true_r. }
  destruct r as [|[ra rb] r].
  { exists ((la, lb) :: l), [], []. cbn -[cmem]. rewrite lookup_mid, lookup_end. split; [by rewrite (List.app_nil_r inter)|].
    split_and!; [done..|]. intros x. split_and!; cbn; lia. }
  cbn in Hl, Hr, Hn. destruct Hl as (?&?&Hl), Hr as (?&?&Hr).
  cbn -[cmem]. rewrite !lookup_mid. destruct (N.compare_spec la ra) as [E0|E0|E0].
  - subst ra. destruct (lb <? rb) eqn:E1; [|destruct (lb =? rb) eqn:E2; [|destruct (rb <? lb) eqn:E3; [|lia]]].
    + ri_step IH Hl Hr (lb + 1) (lb) (dl) (l) (dr) ((lb, rb) :: r)
        (inter ++ [(la, lb)]) (λ k : ranges, k) (λ k : ranges, k) (cons (la, lb)).
    + assert (lb = rb) as -> by lia.
      ri_step IH Hl Hr (rb + 1) (rb + 1) (dl) (l) (dr) (r)
        (inter ++ [(la, rb)]) (λ k : ranges, k) (λ k : ranges, k) (cons (la, rb)).
    + ri_step IH Hl Hr (rb) (rb + 1) (dl) ((rb, lb) :: l) (dr) (r)
        (inter ++ [(la, rb)]) (λ k : ranges, k) (λ k : ranges, k) (cons (la, rb)).
  - destruct (lb <=? ra) eqn:E1; [|destruct (N.compare_spec lb rb) as [E2|E2|E2]].
    + ri_step IH Hl Hr (lb + 1) (lr) (dl ++ [(la, lb)]) (l) (dr) ((ra, rb) :: r)
        (inter) (cons (la, lb)) (λ k : ranges, k) (λ k : ranges, k).
    + subst rb. ri_step IH Hl Hr (ll) (lb + 1) (dl) ((la, ra) :: l) (dr) (r)
        (inter ++ [(ra, lb)]) (λ k : ranges, k) (λ k : ranges, k) (cons (ra, lb)).
    + ri_step IH Hl Hr (lb + 1) (lb) (dl ++ [(la, ra)]) (l) (dr) ((lb, rb) :: r)
        (inter ++ [(ra, lb)]) (cons (la, ra)) (λ k : ranges, k) (cons (ra, lb)).
    + ri_step IH Hl Hr (ra + 1) (rb + 1) (dl ++ [(la, ra)]) ((rb, lb) :: l) (dr) (r)
        (inter ++ [(ra, rb)]) (cons (la, ra)) (λ k : ranges, k) (cons (ra, rb)).
  - destruct (rb <=? la) eqn:E1; [|destruct (N.compare_spec lb rb) as [E2|E2|E2]].
    + ri_step IH Hl Hr (ll) (rb + 1) (dl) ((la, lb) :: l) (dr ++ [(ra, rb)]) (r)
        (inter) (λ k : ranges, k) (cons (ra, rb)) (λ k : ranges, k).
    + subst rb. ri_step IH Hl Hr (lb + 1) (lr) (dl) (l) (dr) ((ra, la) :: r)
        (inter ++ [(la, lb)]) (λ k : ranges, k) (λ k : ranges, k) (cons (la, lb)).
    + ri_step IH Hl Hr (lb + 1) (la + 1) (dl) (l) (dr ++ [(ra, la)]) ((lb, rb) :: r)
        (inter ++ [(la, lb)]) (λ k : ranges, k) (cons (ra, la)) (cons (la, lb)).
    + ri_step IH Hl Hr (rb) (rb + 1) (dl) ((rb, lb) :: l) (dr ++ [(ra, la)]) (r)
        (inter ++ [(la, rb)]) (λ k : ranges, k) (cons (ra, la)) (cons (la, rb)).
Qed.

(** *** The representation is canonical *)
Lemma sep_ext lo1 lo2 l1 l2 :
  sep lo1 l1 → sep lo2 l2 → (∀ x, cmem x l1 = cmem x l2) → l1 = l2.
Proof.
  revert lo1 lo2 l2. induction l1 as [|[a b] l1 IH]; intros lo1 lo2 l2 H1 H2 Hx.
  - destruct l2 as [|[c d] l2]; [done|]. destruct H2 as (?&?&_). specialize (Hx c). cbn in Hx. lia.
  - destruct l2 as [|[c d] l2]; [destruct H1 as (?&?&_); specialize (Hx a); cbn in Hx; lia|].
    destruct H1 as (?&?&H1), H2 as (?&?&H2).
    assert (a = c) as <-.
    { pose proof (Hx a) as Ha. pose proof (Hx c) as Hc. cbn in Ha, Hc.
      pose proof (cmem_lt _ _ a H2). pose proof (cmem_lt _ _ c H1). lia. }
    assert (b = d) as <-.
    { pose proof (Hx b) as Hb. pose proof (Hx d) as Hd. cbn in Hb, Hd.
      pose proof (cmem_lt _ _ b H1). pose proof (cmem_lt _ _ d H2).
      pose proof (cmem_lt _ _ b H2). pose proof (cmem_lt _ _ d H1). lia. }
    f_equal. apply (IH (b + 1) (b + 1)); [done..|]. intros x. specialize (Hx x). cbn in Hx.
    pose proof (cmem_lt _ _ x H1). pose proof (cmem_lt _ _ x H2).
    destruct (cmem x l1), (cmem x l2); lia.
Qed.

(** *** Range lookup *)
Lemma sep_lookup lo l i a b :
  sep lo l → l !! i = Some (a, b) → lo <= a ∧ a < b.
Proof.
  revert lo i. induction l as [|[c d] l IH]; intros lo [|i] Hs; cbn; try done.
  - intros [= -> ->]. destruct Hs as (?&?&_). lia.
  - intros Hi. destruct Hs as (?&?&Hs). destruct (IH _ _ Hs Hi). lia.
Qed.
Lemma sep_lookup_lt lo l i j a b c d :
  sep lo l → l !! i = Some (a, b) → l !! j = Some (c, d) → (i < j)%nat → b < c.
Proof.
  revert lo i j. induction l as [|[e f] l IH]; intros lo [|i] [|j] Hs; cbn; try done; try lia.
  - intros [= -> ->] Hj _. destruct Hs as (?&?&Hs). destruct (sep_lookup _ _ _ _ _ Hs Hj). lia.
  - intros Hi Hj ?. destruct Hs as (?&?&Hs). apply (IH _ i j Hs Hi Hj). lia.
Qed.
Lemma cmem_lookup l x : cmem x l = true ↔ ∃ i a b, l !! i = Some (a, b) ∧ a <= x ∧ x < b.
Proof.
  induction l as [|[c d] l IH]; cbn.
  - split; [done|]. intros (i & a & b & Hi & _). by rewrite lookup_nil in Hi.
  - rewrite orb_true_iff, IH. split.
    + intros [?|(i & a & b & ?)]; [exists 0%nat, c, d; split; [done|lia]|by exists (S i), a, b].
    + intros ([|i] & a & b & Hi & ?); cbn in Hi; [left; simplify_eq; lia|right; eauto].
Qed.

Lemma probe_range_Eq a b c d : probe_range (a, b) (c, d) = Eq ↔ c <= a ∧ a < d.
Proof.
  unfold probe_range. cbn. destruct (d <=? a) eqn:?; [split; [done|lia]|].
  destruct (a <? c) eqn:?; split; done || lia.
Qed.
Lemma probe_sorted seek l : sep 0 l → bsearch_sorted (probe_range seek) l.
Proof.
  intros Hs i j [a b] [c d] Hi Hj Hij. unfold probe_range. cbn.
  destruct (decide (i = j)) as [->|]; [simplify_eq; lia|].
  pose proof (sep_lookup_lt _ _ i j _ _ _ _ Hs Hi Hj ltac:(lia)).
  pose proof (sep_lookup _ _ _ _ _ Hs Hi). pose proof (sep_lookup _ _ _ _ _ Hs Hj).
  repeat case_match; cbn; lia.
Qed.

Lemma contains_range_spec s a b :
  sep 0 (cs_ranges s) → a < b →
  contains_codepoint_range s (a, b) = true ↔ ∀ x, a <= x → x < b → cs_mem x s = true.
Proof.
  intros Hs Hab. destruct s as [l]. unfold contains_codepoint_range, cs_mem. cbn in *.
  pose proof (binary_search_by_spec (probe_range (a, b)) l (probe_sorted _ _ Hs)) as Hb.
  split.
  - destruct (l !! _) as [[c d]|] eqn:Hi; [|done]. intros Hcd x Hax Hxb. apply cmem_lookup.
    eexists _, c, d. split; [done|lia].
  - intros Hx. pose proof (Hx a ltac:(lia) ltac:(lia)) as Ha. apply cmem_lookup in Ha as (i & c & d & Hi & ? & ?).
    assert (d >= b) as Hd.
    { destruct (decide (b <= d)); [lia|]. pose proof (Hx d ltac:(lia) ltac:(lia)) as Hm.
      apply cmem_lookup in Hm as (j & c' & d' & Hj & ? & ?).
      destruct (decide (i = j)) as [->|]; [simplify_eq; lia|].
      destruct (decide (i < j)%nat).
      - pose proof (sep_lookup_lt _ _ _ _ _ _ _ _ Hs Hi Hj ltac:(lia)). lia.
      - pose proof (sep_lookup_lt _ _ _ _ _ _ _ _ Hs Hj Hi ltac:(lia)). lia. }
    assert (probe_range (a, b) (c, d) = Eq) as Hp by (apply probe_range_Eq; lia).
    destruct (binary_search_by _ l) as [k|k].
    + destruct Hb as ([c' d'] & Hk & Heq). rewrite Hk. apply probe_range_Eq in Heq as [? ?].
      destruct (decide (k = i)) as [->|]; [simplify_eq; lia|].
      destruct (decide (k < i)%nat).
      * pose proof (sep_lookup_lt _ _ _ _ _ _ _ _ Hs Hk Hi ltac:(lia)). lia.
      * pose proof (sep_lookup_lt _ _ _ _ _ _ _ _ Hs Hi Hk ltac:(lia)). lia.
    + destruct Hb as [_ Hb]. destruct (Hb i _ Hi) as [H1 H2]. rewrite Hp in H1, H2.
      destruct (decide (i < k)%nat); [by specialize (H1 ltac:(done))|by specialize (H2 ltac:(lia))].
Qed.

(** *** Simplification *)
Definition opt_ranges (o : option range) : ranges := match o with Some r => [r] | None => [] end.

Lemma simplify_loop_spec ro prev l lo :
  sep 0 (cs_ranges ro) → sep lo (opt_ranges prev ++ l) →
  sep lo (simplify_loop ro prev (map Some l ++ [None])) ∧
  ∀ x, cs_mem x ro = false →
    cmem x (simplify_loop ro prev (map Some l ++ [None])) = cmem x (opt_ranges prev ++ l).
Proof.
  intros Hro. revert prev lo. induction l as [|[a b] l IH]; intros prev lo Hs.
  { destruct prev as [[pa pb]|]; cbn in *; [|done]. split; [done|]. intros. lia. }
  assert (0 <= a ∧ a < b ∧ sep (b + 1) l) as (_ & Hab & Hl).
  { destruct prev as [[pa pb]|]; cbn in Hs; destr_ex; split_and!; done || lia. }
  cbn. destruct (contains_codepoint_range ro (a, b)) eqn:Hc.
  - destruct (IH prev lo) as [H1 H2].
    { destruct prev as [[pa pb]|]; cbn in *; destr_ex; split_and?; try done; by eapply sep_weaken; [done|lia]. }
    split; [done|]. intros x Hx. rewrite (H2 x Hx), !cmem_app. cbn.
    pose proof (proj1 (contains_range_spec ro a b Hro Hab) Hc x) as Hcx.
    destruct (cmem x l), (a <=? x) eqn:?, (x <? b) eqn:?; lia.
  - destruct prev as [[pa pb]|].
    + cbn in Hs. destruct Hs as (Hp1 & Hp2 & Hp3 & _ & _).
      destruct (contains_codepoint_range ro (pb, a)) eqn:Hg.
      * destruct (IH (Some (pa, b)) lo) as [H1 H2]; [cbn; split_and!; done || lia|].
        split; [done|]. intros x Hx. rewrite (H2 x Hx). cbn.
        pose proof (proj1 (contains_range_spec ro pb a Hro ltac:(lia)) Hg x) as Hgx.
        destruct (cmem x l), (pb <=? x) eqn:?, (x <? a) eqn:?; lia.
      * destruct (IH (Some (a, b)) (pb + 1)) as [H1 H2]; [cbn; split_and!; done || lia|].
        split; [cbn; split_and!; done || lia|]. intros x Hx. cbn. rewrite (H2 x Hx). done.
    + destruct (IH (Some (a, b)) lo) as [H1 H2]; [done|]. split; [done|]. intros x Hx. by rewrite (H2 x Hx).
Qed.

(** *** Ordering *)
Lemma range_list_cons a b : a < b → ∃ l, range_list (a, b) = a :: l.
Proof.
  intros Hab. unfold range_list. cbn. destruct (N.to_nat (b - a)) as [|n] eqn:Hn; [lia|].
  cbn. rewrite N.add_0_r. eauto.
Qed.
Lemma cmp_elems_refl l : cmp_elems l l = Eq.
Proof. induction l as [|x l IH]; cbn; [done|]. by rewrite N.compare_refl. Qed.
Lemma cmp_elems_ranges a b c d :
  a < b → c < d → b - a = d - c → cmp_elems (range_list (a, b)) (range_list (c, d)) = (a ?= c).
Proof.
  intros Hab Hcd Hlen. destruct (N.compare_spec a c) as [->|Hlt|Hgt].
  - replace d with b by lia. apply cmp_elems_refl.
  - destruct (range_list_cons a b Hab) as [l ->], (range_list_cons c d Hcd) as [r ->]. cbn.
    by rewrite (proj2 (N.compare_lt_iff a c)) by done.
  - destruct (range_list_cons a b Hab) as [l ->], (range_list_cons c d Hcd) as [r ->]. cbn.
    by rewrite (proj2 (N.compare_gt_iff a c)) by done.
Qed.

(** On non-empty ranges the comparison is lexicographic in length and start. *)
Lemma cmp_ranges_cons a b c d l r :
  a < b → c < d →
  cmp_ranges ((a, b) :: l) ((c, d) :: r) =
    match b - a ?= d - c with
    | Eq => match a ?= c with Eq => cmp_ranges l r | o => o end
    | o => o
    end.
Proof.
  intros Hab Hcd. cbn [cmp_ranges]. unfold range_len. cbn [fst snd].
  destruct (N.compare_spec (b - a) (d - c)) as [E0| |]; [|done..].
  by rewrite cmp_elems_ranges by lia.
Qed.
Lemma cmp_ranges_sym lo1 lo2 l r : sep lo1 l → sep lo2 r → cmp_ranges r l = CompOpp (cmp_ranges l r).
Proof.
  revert lo1 lo2 r. induction l as [|[a b] l IH]; intros lo1 lo2 [|[c d] r] Hl Hr; try done.
  destruct Hl as (?&?&Hl), Hr as (?&?&Hr). rewrite !cmp_ranges_cons by done.
  rewrite (N.compare_antisym (b - a) (d - c)), (N.compare_antisym a c).
  destruct (b - a ?= d - c); cbn; try done. destruct (a ?= c); cbn; try done. by eapply IH.
Qed.
Lemma cs_count_pos lo l : sep lo l → l ≠ [] → 0 < cs_count l.
Proof. destruct l as [|[a b] l]; [done|]. intros (?&?&_) _. cbn. unfold range_len. cbn. lia. Qed.
Lemma cmp_ranges_Eq lo1 lo2 l r :
  sep lo1 l → sep lo2 r → cs_count l = cs_count r → cmp_ranges l r = Eq → l = r.
Proof.
  revert lo1 lo2 r. induction l as [|[a b] l IH]; intros lo1 lo2 [|[c d] r] Hl Hr Hc; try done.
  - pose proof (cs_count_pos _ _ Hr). cbn in *. intros _. specialize (H ltac:(done)). lia.
  - pose proof (cs_count_pos _ _ Hl). cbn in *. intros _. specialize (H ltac:(done)). lia.
  - destruct Hl as (?&?&Hl), Hr as (?&?&Hr). rewrite !cmp_ranges_cons by done.
    change (b - a + cs_count l = d - c + cs_count r) in Hc.
    destruct (N.compare_spec (b - a) (d - c)) as [E0| |]; try done.
    destruct (N.compare_spec a c) as [->| |]; try done. intros Heq.
    replace d with b by lia. f_equal. eapply IH; [done..|lia|done].
Qed.
Lemma cmp_ranges_trans lo1 lo2 lo3 l1 l2 l3 :
  sep lo1 l1 → sep lo2 l2 → sep lo3 l3 →
  cmp_ranges l1 l2 = Lt → cmp_ranges l2 l3 = Lt → cmp_ranges l1 l3 = Lt.
Proof.
  revert lo1 lo2 lo3 l2 l3. induction l1 as [|[a b] l1 IH]; intros lo1 lo2 lo3 [|[c d] l2] [|[e f] l3] H1 H2 H3; try done.
  destruct H1 as (?&?&H1), H2 as (?&?&H2), H3 as (?&?&H3). rewrite !cmp_ranges_cons by done.
  destruct (N.compare_spec (b - a) (d - c)), (N.compare_spec (d - c) (f - e)); try done; intros Ha Hb.
  - rewrite (proj2 (N.compare_eq_iff (b - a) (f - e))) by lia.
    revert Ha Hb. destruct (N.compare_spec a c), (N.compare_spec c e); try done; intros Ha Hb.
    + rewrite (proj2 (N.compare_eq_iff a e)) by lia. exact (IH _ _ _ _ _ H1 H2 H3 Ha Hb).
    + by rewrite (proj2 (N.compare_lt_iff a e)) by lia.
    + by rewrite (proj2 (N.compare_lt_iff a e)) by lia.
    + by rewrite (proj2 (N.compare_lt_iff a e)) by lia.
  - by rewrite (proj2 (N.compare_lt_iff (b - a) (f - e))) by lia.
  - by rewrite (proj2 (N.compare_lt_iff (b - a) (f - e))) by lia.
  - by rewrite (proj2 (N.compare_lt_iff (b - a) (f - e))) by lia.
Qed.

(** *** The operations on well-formed sets *)
Lemma negate_spec {E} s :
  cs_ok s → ∃ u, negate (E:=E) s = Ok u ∧ cs_ok u ∧ ∀ x, cs_mem x u = (x <? END) && negb (cs_mem x s).
Proof.
  intros [Hs Hbs]. rewrite negate_eq. eexists. split; [done|].
  split; [by apply negate_list_sep|]. intros x. unfold cs_mem. cbn [cs_ranges]. rewrite negate_list_mem by done. lia.
Qed.

Lemma add_spec {E} s t :
  cs_ok s → cs_ok t →
  ∃ u, add (E:=E) s t = Ok u ∧ cs_ok u ∧ ∀ x, cs_mem x u = cs_mem x s || cs_mem x t.
Proof.
  intros [Hs Hbs] [Ht Hbt]. destruct s as [l], t as [r]. unfold cs_ok, cs_mem. cbn [cs_ranges] in *.
  destruct (add_loop_spec (E:=E) r [] l Hs Ht) as (l' & Heq & Hs' & Hm).
  exists (mkCharacterSet l'). split_and?; [done|done| |done].
  apply (bounded_of_mem 0); [done|]. intros x. rewrite Hm. cbn.
  pose proof (cmem_bounded l x Hbs). pose proof (cmem_bounded r x Hbt). destruct (cmem x l), (cmem x r); lia.
Qed.

Lemma remove_intersection_spec {E} s t :
  cs_ok s → cs_ok t →
  ∃ s' t' u, remove_intersection (E:=E) s t = Ok (s', t', u) ∧ cs_ok s' ∧ cs_ok t' ∧ cs_ok u ∧
    ∀ x, cs_mem x u = cs_mem x s && cs_mem x t ∧ cs_mem x s' = cs_mem x s && negb (cs_mem x t) ∧
         cs_mem x t' = cs_mem x t && negb (cs_mem x s).
Proof.
  intros [Hs Hbs] [Ht Hbt]. destruct s as [l], t as [r]. unfold cs_ok, cs_mem. cbn [cs_ranges] in *.
  destruct (remove_intersection_loop_spec (E:=E) (length l + length r) 0 0 [] l [] r [])
    as (lo & ro & io & Heq & H1 & H2 & H3 & Hm); [done..|].
  exists (mkCharacterSet lo), (mkCharacterSet ro), (mkCharacterSet io).
  unfold remove_intersection. cbn [cs_ranges length app] in *. rewrite Heq.
  split_and?; try done; apply (bounded_of_mem 0); try done; intros x; destruct (Hm x) as (M1 & M2 & M3);
    rewrite ?M1, ?M2, ?M3; pose proof (cmem_bounded l x Hbs); pose proof (cmem_bounded r x Hbt);
    destruct (cmem x l), (cmem x r); lia.
Qed.

Lemma cs_ext s t : cs_ok s → cs_ok t → s = t ↔ ∀ x, cs_mem x s = cs_mem x t.
Proof.
  intros [Hs _] [Ht _]. split; [by intros ->|]. destruct s, t. intros Hx. f_equal. by apply (sep_ext 0 0).
Qed.

Lemma cs_is_empty_spec s : cs_ok s → is_empty s = true ↔ ∀ x, cs_mem x s = false.
Proof.
  intros [Hs _]. unfold is_empty, cs_mem. rewrite bool_decide_eq_true. split; [by intros ->|].
  destruct (cs_ranges s) as [|[a b] l]; [done|]. intros Hx. destruct Hs as (?&?&_).
  specialize (Hx a). cbn in Hx. lia.
Qed.
Lemma not_empty_spec s : cs_ok s → is_empty s = false → ∃ x, cs_mem x s = true.
Proof.
  intros [Hs _]. unfold is_empty, cs_mem. rewrite bool_decide_eq_false.
  destruct (cs_ranges s) as [|[a b] l]; [done|]. intros _. destruct Hs as (?&?&_). exists a. cbn. lia.
Qed.

Lemma cmp_Eq s t : cs_ok s → cs_ok t → cmp s t = Eq ↔ s = t.
Proof.
  intros [Hs _] [Ht _]. destruct s as [l], t as [r]. unfold cmp. cbn [cs_ranges] in *. split.
  - destruct (N.compare_spec (cs_count l) (cs_count r)); try done. intros. f_equal. by apply (cmp_ranges_Eq 0 0).
  - intros [= ->]. rewrite N.compare_refl. pose proof (cmp_ranges_sym 0 0 r r Ht Ht) as Hsym.
    by destruct (cmp_ranges r r).
Qed.
Lemma cmp_sym s t : cs_ok s → cs_ok t → cmp t s = CompOpp (cmp s t).
Proof.
  intros [Hs _] [Ht _]. destruct s as [l], t as [r]. unfold cmp. cbn [cs_ranges] in *.
  rewrite (N.compare_antisym (cs_count l)). destruct (cs_count l ?= cs_count r); cbn; try done.
  by apply (cmp_ranges_sym 0 0).
Qed.
Lemma cmp_trans s t u : cs_ok s → cs_ok t → cs_ok u → cmp s t = Lt → cmp t u = Lt → cmp s u = Lt.
Proof.
  intros [Hs _] [Ht _] [Hu _]. destruct s as [l], t as [r], u as [k]. unfold cmp. cbn [cs_ranges] in *.
  destruct (N.compare_spec (cs_count l) (cs_count r)) as [E1|E1|E1],
    (N.compare_spec (cs_count r) (cs_count k)) as [E2|E2|E2]; try done; intros.
  - rewrite (proj2 (N.compare_eq_iff _ _)) by lia. by apply (cmp_ranges_trans 0 0 0 l r k).
  - by rewrite (proj2 (N.compare_lt_iff _ _)) by lia.
  - by rewrite (proj2 (N.compare_lt_iff _ _)) by lia.
  - by rewrite (proj2 (N.compare_lt_iff _ _)) by lia.
Qed.

(** ** Properties *)

(** C38: [negate], [add], [remove_intersection], [difference] and
    [does_intersect] end without panicking on well-formed character sets, keep
    the representation invariant, and are complement, union, the split into
    common and remaining characters, difference and the overlap test. *)
Theorem character_set_algebra (E : Type) (s t : CharacterSet) :
  cs_ok s → cs_ok t →
  (∃ u, negate (E:=E) s = Ok u ∧ cs_ok u ∧ ∀ x, cs_mem x u = (x <? END) && negb (cs_mem x s)) ∧
  (∃ u, add (E:=E) s t = Ok u ∧ cs_ok u ∧ ∀ x, cs_mem x u = cs_mem x s || cs_mem x t) ∧
  (∃ s' t' u, remove_intersection (E:=E) s t = Ok (s', t', u) ∧ cs_ok s' ∧ cs_ok t' ∧ cs_ok u ∧
     ∀ x, cs_mem x u = cs_mem x s && cs_mem x t ∧ cs_mem x s' = cs_mem x s && negb (cs_mem x t) ∧
          cs_mem x t' = cs_mem x t && negb (cs_mem x s)) ∧
  (∃ b, does_intersect (E:=E) s t = Ok b ∧ (b = true ↔ ∃ x, cs_mem x s = true ∧ cs_mem x t = true)).
Proof.
  intros Hs Ht. split_and?.
  - by apply negate_spec.
  - by apply add_spec.
  - by apply remove_intersection_spec.
  - destruct Hs, Ht. by apply (does_intersect_loop_spec _ 0 0).
Qed.

(** [contains] tests membership, [contains_codepoint_range] tests that a
    whole range is in the set, and [simplify_ignoring] changes a set only on
    the ruled out characters. *)
Theorem character_set_queries (s ro : CharacterSet) (a b : N) :
  cs_ok s → cs_ok ro → a < b →
  contains s a = cs_mem a s ∧
  (contains_codepoint_range s (a, b) = true ↔ ∀ x, a <= x → x < b → cs_mem x s = true) ∧
  cs_ok (simplify_ignoring s ro) ∧
  (∀ x, cs_mem x ro = false → cs_mem x (simplify_ignoring s ro) = cs_mem x s).
Proof.
  intros [Hs Hbs] [Hr Hbr] Hab.
  destruct (simplify_loop_spec ro None (cs_ranges s) 0 Hr Hs) as [H1 H2].
  split_and?; [|by apply contains_range_spec| |done].

  - apply eq_iff_eq_true. unfold contains. rewrite contains_range_spec by (done || lia). split.
    + intros Hx. apply Hx; lia.
    + intros Hm x ??. by replace x with a by lia.
  - split; [done|]. apply (bounded_of_mem 0); [done|]. intros x Hx. destruct (cs_mem x ro) eqn:Hro.
    + by apply (cmem_bounded (cs_ranges ro)).
    + apply (cmem_bounded (cs_ranges s)); [done|]. etrans; [symmetry; exact (H2 x Hro)|done].
Qed.

(** Equal sets have equal representations, and [cmp] is a total order on
    them: [Eq] exactly on equal sets, antisymmetric and transitive. *)
Theorem character_set_order (s t u : CharacterSet) :
  cs_ok s → cs_ok t → cs_ok u →
  (s = t ↔ ∀ x, cs_mem x s = cs_mem x t) ∧
  (cmp s t = Eq ↔ s = t) ∧
  cmp t s = CompOpp (cmp s t) ∧
  (cmp s t = Lt → cmp t u = Lt → cmp s u = Lt).
Proof.
  intros Hs Ht Hu. split_and?; [by apply cs_ext|by apply cmp_Eq|by apply cmp_sym|by apply cmp_trans].
Qed.

(** ** Witnesses *)
Definition cs_okb (s : CharacterSet) : bool :=
  sepb 0 (cs_ranges s) && forallb (λ r, snd r <=? END) (cs_ranges s).
Lemma cs_okb_ok s : cs_okb s = true → cs_ok s.
Proof.
  intros [H1 H2]%andb_prop. split; [by apply sepb_sep|]. apply Forall_forall. intros r Hr.
  rewrite forallb_forall in H2. rewrite list_elem_of_In in Hr. specialize (H2 _ Hr). lia.
Qed.
Definition cs_a : CharacterSet := mkCharacterSet [(65, 70); (80, 90)].
Definition cs_b : CharacterSet := mkCharacterSet [(68, 84)].
Lemma cs_a_ok : cs_ok cs_a.
Proof. by apply cs_okb_ok. Qed.
Lemma cs_b_ok : cs_ok cs_b.
Proof. by apply cs_okb_ok. Qed.

Example remove_intersection_cs_a_cs_b :
  remove_intersection (E:=Empty_set) cs_a cs_b =
    Ok (mkCharacterSet [(65, 68); (84, 90)], mkCharacterSet [(70, 80)], mkCharacterSet [(68, 70); (80, 84)]).
Proof. reflexivity. Qed.

Lemma character_set_algebra_witness :
  ∃ s' t' u, remove_intersection (E:=Empty_set) cs_a cs_b = Ok (s', t', u) ∧ cs_ok s' ∧ cs_ok t' ∧ cs_ok u ∧
     ∀ x, cs_mem x u = cs_mem x cs_a && cs_mem x cs_b ∧ cs_mem x s' = cs_mem x cs_a && negb (cs_mem x cs_b) ∧
          cs_mem x t' = cs_mem x cs_b && negb (cs_mem x cs_a).
Proof. exact (proj1 (proj2 (proj2 (character_set_algebra Empty_set cs_a cs_b cs_a_ok cs_b_ok)))). Defined.
Lemma character_set_queries_witness : contains cs_a 66 = cs_mem 66 cs_a.
Proof. exact (proj1 (character_set_queries cs_a cs_b 66 67 cs_a_ok cs_b_ok eq_refl)). Defined.
Lemma character_set_order_witness : cmp cs_a cs_b = Eq ↔ cs_a = cs_b.
Proof. exact (proj1 (proj2 (character_set_order cs_a cs_b cs_a cs_a_ok cs_b_ok cs_a_ok))). Defined.
