(* ===== verification/Nfa.v ===== *)
(** * [crates/generate/src/nfa.rs]: the NFA and its cursor

    A cursor holds the sorted ids of the non-split states it is in.
    [add_states] adds the closure of some states under split edges;
    [group_transitions] turns the raw transitions, whose character sets
    overlap, into transitions with disjoint sets. *)
From S2P Require Import Prelude CharSet.

Inductive NfaState :=
  | Advance (chars : CharacterSet) (state_id : N) (is_sep : bool) (precedence : Z)
  | Split (left right : N)
  | Accept (variable_index : nat) (precedence : Z).
#[global] Instance NfaState_eq_dec : EqDecision NfaState.
Proof. solve_decision. Defined.

Notation Nfa := (list NfaState) (only parsing).

Record NfaCursor := mkCursor { state_ids : list N; nfa : Nfa }.

Record NfaTransition := mkTransition {
  characters : CharacterSet;
  is_separator : bool;
  precedence : Z;
  states : list N;
}.

(** [Nfa::last_state_id]: asserts that there is a state. *)
Definition last_state_id {E} (f : Nfa) : outcome E N :=
  match f with [] => Panic | _ => Ok (wrap_u32 (as_u32 (length f) + U32 - 1)) end.

(** ** The closure under split edges *)
Fixpoint add_states_loop {E} (n : nat) (f : Nfa) (ids new_state_ids : list N) (i : nat) :
    outcome E (list N) :=
  match new_state_ids !! i with
  | None => Ok ids
  | Some state_id =>
      match n with
      | O => OutOfFuel
      | S n =>
          state ← vec_get f (N.to_nat state_id);
          match state with
          | Split left_ right_ =>
              let has_left := bool_decide (left_ ∈ new_state_ids) in
              let has_right := bool_decide (right_ ∈ new_state_ids) in
              let new_state_ids := if has_left then new_state_ids else new_state_ids ++ [left_] in
              let new_state_ids := if has_right then new_state_ids else new_state_ids ++ [right_] in
              add_states_loop n f ids new_state_ids (S i)
          | _ => add_states_loop n f (insert_sorted ids state_id) new_state_ids (S i)
          end
      end
  end.
Definition add_states {E} (n : nat) (c : NfaCursor) (new_state_ids : list N) : outcome E NfaCursor :=
  ids ← add_states_loop n (nfa c) (state_ids c) new_state_ids 0;
  Ok (mkCursor ids (nfa c)).
Definition new {E} (n : nat) (f : Nfa) (states : list N) : outcome E NfaCursor :=
  add_states n (mkCursor [] f) states.
Definition reset {E} (n : nat) (c : NfaCursor) (states : list N) : outcome E NfaCursor :=
  add_states n (mkCursor [] (nfa c)) states.
Definition force_reset (c : NfaCursor) (states : list N) : NfaCursor := mkCursor states (nfa c).

(** ** Transitions *)
Notation raw := (CharacterSet * bool * Z * N)%type (only parsing).

(** The [filter_map]s, whose closures index [states]. *)
Fixpoint filter_states {E A} (f : Nfa) (g : NfaState → option A) (ids : list N) : outcome E (list A) :=
  match ids with
  | [] => Ok []
  | id :: ids =>
      st ← vec_get f (N.to_nat id);
      rest ← filter_states f g ids;
      Ok (match g st with Some a => a :: rest | None => rest end)
  end.
Definition raw_transitions {E} (c : NfaCursor) : outcome E (list raw) :=
  filter_states (nfa c)
    (λ st, match st with
           | Advance chars state_id is_sep prec => Some (chars, is_sep, prec, state_id)
           | _ => None
           end) (state_ids c).
Definition transition_chars {E} (c : NfaCursor) : outcome E (list (CharacterSet * bool)) :=
  ts ← raw_transitions c; Ok (map (λ '(chars, is_sep, _, _), (chars, is_sep)) ts).
Definition completions {E} (c : NfaCursor) : outcome E (list (nat * Z)) :=
  filter_states (nfa c)
    (λ st, match st with Accept v p => Some (v, p) | _ => None end) (state_ids c).

Definition with_characters (t : NfaTransition) (c : CharacterSet) : NfaTransition :=
  mkTransition c (is_separator t) (precedence t) (states t).

(** The loop that splits the transitions found so far by a new one; [chars] is
    what is left of the new one's characters. *)
Fixpoint split_loop {E} (n : nat) (result : list NfaTransition) (chars : CharacterSet)
    (is_sep : bool) (prec : Z) (state : N) (i : nat) :
    outcome E (list NfaTransition * CharacterSet) :=
  match result !! i with
  | None => Ok (result, chars)
  | Some t =>
      if is_empty chars then Ok (result, chars)
      else match n with
      | O => OutOfFuel
      | S n =>
          '(rest, chars, intersection) ← remove_intersection (characters t) chars;
          let result := <[i := with_characters t rest]> result in
          let result :=
            if is_empty intersection then result
            else
              let intersection_transition :=
                mkTransition intersection (is_separator t && is_sep)
                  (Z.max (precedence t) prec) (insert_sorted (states t) state) in
              if is_empty rest then <[i := intersection_transition]> result
              else result ++ [intersection_transition] in
          split_loop n result chars is_sep prec state (S i)
      end
  end.

Fixpoint split_all {E} (result : list NfaTransition) (iter : list raw) : outcome E (list NfaTransition) :=
  match iter with
  | [] => Ok result
  | (input_chars, is_sep, prec, state) :: iter =>
      '(result, chars) ← split_loop (2 * length result) result (assign empty input_chars) is_sep prec state 0;
      split_all (if is_empty chars then result
                 else result ++ [mkTransition chars is_sep prec [state]]) iter
  end.

(** The loop that merges transitions that differ only in their characters. *)
Definition same_target (t u : NfaTransition) : bool :=
  bool_decide (states t = states u) && Bool.eqb (is_separator t) (is_separator u)
  && (precedence t =? precedence u)%Z.
Fixpoint find_index {A} (p : A → bool) (l : list A) : option nat :=
  match l with
  | [] => None
  | x :: l => if p x then Some 0 else S <$> find_index p l
  end.
Fixpoint merge_loop {E} (n : nat) (result : list NfaTransition) (i : nat) : outcome E (list NfaTransition) :=
  match result !! i with
  | None => Ok result
  | Some ti =>
      match n with
      | O => OutOfFuel
      | S n =>
          match find_index (λ tj, same_target tj ti) (take i result) with
          | None => merge_loop n result (S i)
          | Some j =>
              tj ← vec_get result j;
              chars ← add (characters tj) (characters ti);
              merge_loop n (swap_remove i (<[j := with_characters tj chars]> result)) i
          end
      end
  end.

Definition group_transitions {E} (iter : list raw) : outcome E (list NfaTransition) :=
  result ← split_all [] iter;
  result ← merge_loop (length result) result 0;
  Ok (sort_by (λ a b, cmp (characters a) (characters b)) result).
Definition transitions {E} (c : NfaCursor) : outcome E (list NfaTransition) :=
  iter ← raw_transitions c; group_transitions iter.
Definition transitions_and_any_sep {E} (c : NfaCursor) : outcome E (list NfaTransition * bool) :=
  iter ← raw_transitions c;
  result ← group_transitions iter;
  Ok (result, existsb (λ '(_, is_sep, _, _), is_sep) iter).

(** ** [add_states] computes the closure under split edges *)

(** [x] is reached from [s] over split edges. *)
Inductive eps (f : Nfa) : N → N → Prop :=
  | eps_refl s : eps f s s
  | eps_left s l r x : f !! N.to_nat s = Some (Split l r) → eps f l x → eps f s x
  | eps_right s l r x : f !! N.to_nat s = Some (Split l r) → eps f r x → eps f s x.

Definition is_split (f : Nfa) (x : N) : Prop := ∃ l r, f !! N.to_nat x = Some (Split l r).

(** Every split leads to a state. *)
Definition nfa_ok (f : Nfa) : Prop :=
  ∀ i l r, f !! i = Some (Split l r) → N.to_nat l < length f ∧ N.to_nat r < length f.

(** The states below [m] that [l] does not list. *)
Definition missing (m : nat) (l : list N) : nat :=
  length (filter (λ k, N.of_nat k ∉ l) (seq 0 m)).

Lemma filter_length_le {A} (P Q : A → Prop) `{∀ x, Decision (P x), ∀ x, Decision (Q x)} l :
  (∀ x, P x → Q x) → length (filter P l) ≤ length (filter Q l).
Proof.
  intros HPQ. induction l as [|x l IH]; [done|]. rewrite !filter_cons.
  destruct (decide (P x)), (decide (Q x)); cbn; try lia. exfalso; auto.
Qed.
Lemma filter_length_lt {A} (P Q : A → Prop) `{∀ x, Decision (P x), ∀ x, Decision (Q x)} l y :
  (∀ x, P x → Q x) → y ∈ l → Q y → ¬ P y → length (filter P l) < length (filter Q l).
Proof.
  intros HPQ Hy HQ HP. induction l as [|x l IH]; [by apply elem_of_nil in Hy|]. rewrite !filter_cons.
  apply elem_of_cons in Hy as [->|Hy].
  - rewrite decide_False, decide_True by done. cbn.
    pose proof (filter_length_le P Q l HPQ). lia.
  - specialize (IH Hy). destruct (decide (P x)), (decide (Q x)); cbn; try lia. exfalso; auto.
Qed.

Lemma missing_app m l k : missing m (l ++ k) ≤ missing m l.
Proof. apply filter_length_le. intros x Hx Hin. apply Hx, elem_of_app. by left. Qed.
Lemma missing_app_lt m l k x : N.to_nat x < m → x ∉ l → x ∈ k → missing m (l ++ k) < missing m l.
Proof.
  intros Hx Hl Hk. apply (filter_length_lt _ _ _ (N.to_nat x)).
  - intros y Hy Hin. apply Hy, elem_of_app. by left.
  - apply elem_of_seq. lia.
  - by rewrite N2Nat.id.
  - rewrite N2Nat.id, elem_of_app. naive_solver.
Qed.
Lemma missing_le m l : missing m l ≤ m.
Proof. unfold missing. etrans; [apply length_filter|]. by rewrite length_seq. Qed.

(** What one split adds to the list of new states. *)
Definition add_targets (new : list N) (l r : N) : list N :=
  let new' := if bool_decide (l ∈ new) then new else new ++ [l] in
  if bool_decide (r ∈ new) then new' else new' ++ [r].

Lemma add_targets_spec m new l r :
  N.to_nat l < m → N.to_nat r < m →
  new `prefix_of` add_targets new l r ∧
  (∀ x, x ∈ add_targets new l r ↔ x ∈ new ∨ x = l ∨ x = r) ∧
  length (add_targets new l r) + 2 * missing m (add_targets new l r) ≤ length new + 2 * missing m new.
Proof.
  intros Hl Hr. unfold add_targets.
  destruct (decide (l ∈ new)) as [Hli|Hli];
    [rewrite (bool_decide_eq_true_2 _ Hli)|rewrite (bool_decide_eq_false_2 _ Hli)];
  (destruct (decide (r ∈ new)) as [Hri|Hri];
    [rewrite (bool_decide_eq_true_2 _ Hri)|rewrite (bool_decide_eq_false_2 _ Hri)]).
  - split_and!; [done|naive_solver|lia].
  - pose proof (missing_app_lt m new [r] r Hr ltac:(done) ltac:(apply list_elem_of_here)).
    split_and!; [by eexists| |rewrite length_app; cbn; lia].
    intros x. rewrite elem_of_app, list_elem_of_singleton. naive_solver.
  - pose proof (missing_app_lt m new [l] l Hl ltac:(done) ltac:(apply list_elem_of_here)).
    split_and!; [by eexists| |rewrite length_app; cbn; lia].
    intros x. rewrite elem_of_app, list_elem_of_singleton. naive_solver.
  - pose proof (missing_app_lt m new ([l] ++ [r]) l Hl ltac:(done) ltac:(apply list_elem_of_here)).
    rewrite <- (assoc_L (++)). split_and!; [by eexists| |rewrite !length_app; cbn in *; lia].
    intros x. rewrite !elem_of_app, !list_elem_of_singleton. tauto.
Qed.

(** The states before [i] have been handled. *)
Definition handled (f : Nfa) (ids new : list N) (i : nat) : Prop :=
  ∀ j s, j < i → new !! j = Some s →
    match f !! N.to_nat s with
    | Some (Split l r) => l ∈ new ∧ r ∈ new
    | _ => s ∈ ids
    end.

Lemma handled_closed f ids new s x :
  handled f ids new (length new) → s ∈ new → eps f s x → ¬ is_split f x → x ∈ ids.
Proof.
  intros Hh Hs Heps Hx. induction Heps as [s|s l r x Hf _ IH|s l r x Hf _ IH].
  - apply list_elem_of_lookup in Hs as [j Hj]. specialize (Hh j s (lookup_lt_Some _ _ _ Hj) Hj).
    destruct (f !! N.to_nat s) as [[| |]|] eqn:Hf; try done. exfalso. apply Hx. by eexists _, _.
  - apply IH; [|done]. apply list_elem_of_lookup in Hs as [j Hj].
    specialize (Hh j s (lookup_lt_Some _ _ _ Hj) Hj). rewrite Hf in Hh. by destruct Hh.
  - apply IH; [|done]. apply list_elem_of_lookup in Hs as [j Hj].
    specialize (Hh j s (lookup_lt_Some _ _ _ Hj) Hj). rewrite Hf in Hh. by destruct Hh.
Qed.

Lemma add_states_loop_spec {E} n f ids new i :
  nfa_ok f → (∀ s, s ∈ new → N.to_nat s < length f) → StronglySorted N.lt ids →
  i ≤ length new → length new - i + 2 * missing (length f) new ≤ n → handled f ids new i →
  ∃ ids', add_states_loop (E:=E) n f ids new i = Ok ids' ∧ StronglySorted N.lt ids' ∧
    ∀ x, x ∈ ids' ↔ x ∈ ids ∨ (¬ is_split f x ∧ ∃ s, s ∈ new ∧ eps f s x).
Proof.
  intros Hf. revert ids new i. induction n as [|n IH]; intros ids new i Hnew Hids Hi Hn Hh;
    destruct (new !! i) as [s|] eqn:Hs.
  1: apply lookup_lt_Some in Hs; lia.
  1,3: apply lookup_ge_None in Hs; assert (i = length new) as -> by lia.
  1,2: exists ids; split; [cbn; by rewrite (proj2 (lookup_ge_None new (length new)) (le_n _))|];
       split; [done|]; intros x; split; [by left|]; intros [?|(Hx & s & Hs' & Heps)]; [done|];
       by eapply handled_closed.
  assert (s ∈ new) as Hsn by by eapply list_elem_of_lookup_2.
  assert (i < length new) as Hlt by by eapply lookup_lt_Some.
  destruct (lookup_lt_is_Some_2 f (N.to_nat s) (Hnew _ Hsn)) as [st Hst].
  cbn -[add_targets]. rewrite Hs, (vec_get_Some (E:=E) f _ _ Hst). cbn -[add_targets].
  assert ((¬ is_split f s) → ∃ ids', add_states_loop (E:=E) n f (insert_sorted ids s) new (S i) = Ok ids' ∧
    StronglySorted N.lt ids' ∧ ∀ x, x ∈ ids' ↔ x ∈ ids ∨ (¬ is_split f x ∧ ∃ s, s ∈ new ∧ eps f s x)) as Hleaf.
  { intros Hns. destruct (insert_sorted_spec ids s Hids) as [Hsort Hin].
    destruct (IH (insert_sorted ids s) new (S i)) as (ids' & Heq & Hs' & Hx); [done|done|lia|lia| |].
    - intros j t Hj Ht. destruct (decide (j = i)) as [->|].
      + assert (t = s) as -> by congruence. destruct (f !! N.to_nat s) as [[| |]|] eqn:Hft; try (apply Hin; by left).
        exfalso. apply Hns. by eexists _, _.
      + specialize (Hh j t ltac:(lia) Ht). destruct (f !! N.to_nat t) as [[| |]|]; try (apply Hin; by right). done.
    - exists ids'. split_and!; [done|done|]. intros x. rewrite Hx, Hin. split; [|tauto].
      intros [[->|?]|?]; [|by left|by right]. right. split; [done|]. exists s. split; [done|constructor]. }
  destruct st as [c k sp pr|l r|v pr].
  1,3: apply Hleaf; intros (l & r & ?); congruence.
  fold (add_targets new l r). destruct (Hf _ _ _ Hst) as [Hl Hr].
  destruct (add_targets_spec (length f) new l r Hl Hr) as ([k Hk] & Hin & Hmeas).
  destruct (IH ids (add_targets new l r) (S i)) as (ids' & Heq & Hs' & Hx).
  - intros t Ht. apply Hin in Ht as [?|[->| ->]]; auto.
  - done.
  - rewrite Hk, length_app. lia.
  - assert (length new ≤ length (add_targets new l r)) by (rewrite Hk, length_app; lia). lia.
  - intros j t Hj Ht. destruct (decide (j = i)) as [->|].
    + rewrite Hk, lookup_app_l in Ht by done. assert (t = s) as -> by congruence. rewrite Hst, !Hin. tauto.
    + rewrite Hk, lookup_app_l in Ht by lia. specialize (Hh j t ltac:(lia) Ht).
      destruct (f !! N.to_nat t) as [[| |]|]; try done. rewrite !Hin. tauto.
  - exists ids'. split_and!; [done|done|]. intros x. rewrite Hx. split; (intros [?|(Hns & t & Ht & Heps)]; [by left|right]);
      (split; [done|]).
    + apply Hin in Ht as [Ht|[->| ->]]; [by exists t|exists s; split; [done|by eapply eps_left]|].
      exists s. split; [done|by eapply eps_right].
    + exists t. split; [|done]. apply Hin. by left.
Qed.

Lemma add_states_spec {E : Type} (n : nat) (c : NfaCursor) (new : list N) :
  nfa_ok (nfa c) → (∀ s, s ∈ new → N.to_nat s < length (nfa c)) → StronglySorted N.lt (state_ids c) →
  length new + 2 * length (nfa c) ≤ n →
  ∃ c', add_states (E:=E) n c new = Ok c' ∧ nfa c' = nfa c ∧ StronglySorted N.lt (state_ids c') ∧
    ∀ x, x ∈ state_ids c' ↔ x ∈ state_ids c ∨ (¬ is_split (nfa c) x ∧ ∃ s, s ∈ new ∧ eps (nfa c) s x).
Proof.
  intros Hf Hnew Hs Hn. pose proof (missing_le (length (nfa c)) new).
  destruct (add_states_loop_spec (E:=E) n (nfa c) (state_ids c) new 0) as (ids' & Heq & Hs' & Hx);
    [done|done|done|lia|lia|intros j s Hj; lia|].
  exists (mkCursor ids' (nfa c)). unfold add_states. rewrite Heq. by split_and?.
Qed.

(** From any cursor, [add_states] ends without panicking and adds exactly
    the non-split states reachable from the new states over split edges,
    keeping the ids sorted; the fuel needed is bounded by the sizes. *)
Theorem add_states_correct (E : Type) (n : nat) (c : NfaCursor) (new : list N) :
  nfa_ok (nfa c) → (∀ s, s ∈ new → N.to_nat s < length (nfa c)) → StronglySorted N.lt (state_ids c) →
  length new + 2 * length (nfa c) ≤ n →
  ∃ c', add_states (E:=E) n c new = Ok c' ∧ nfa c' = nfa c ∧ StronglySorted N.lt (state_ids c') ∧
    ∀ x, x ∈ state_ids c' ↔ x ∈ state_ids c ∨ (¬ is_split (nfa c) x ∧ ∃ s, s ∈ new ∧ eps (nfa c) s x).
Proof. exact (add_states_spec n c new). Qed.

(** ** [group_transitions] partitions the characters *)

(** What a transition says besides its characters. *)
Notation target := (bool * Z * list N)%type (only parsing).
Definition key (t : NfaTransition) : target := (is_separator t, precedence t, states t).

(** The targets of the transitions of [l] that contain [x]. *)
Definition at1 (x : N) (t : NfaTransition) : list target := if cs_mem x (characters t) then [key t] else [].
Definition at_ (x : N) (l : list NfaTransition) : list target := concat (map (at1 x) l).

(** What a raw transition that contains [x] does to the target of [x]. *)
Definition step (is_sep : bool) (prec : Z) (state : N) (k : target) : target :=
  let '(s, p, sts) := k in (s && is_sep, Z.max p prec, insert_sorted sts state).
Definition add_raw (x : N) (o : list target) (r : raw) : list target :=
  let '(chars, is_sep, prec, state) := r in
  if cs_mem x chars then
    match o with [] => [(is_sep, prec, [state])] | _ => map (step is_sep prec state) o end
  else o.
Definition summary (x : N) (iter : list raw) : list target := foldl (add_raw x) [] iter.

Definition tr_ok (t : NfaTransition) : Prop := cs_ok (characters t) ∧ is_empty (characters t) = false.
Definition disjoint_trs (l : list NfaTransition) : Prop := ∀ x, length (at_ x l) ≤ 1.

Lemma at_app x l k : at_ x (l ++ k) = at_ x l ++ at_ x k.
Proof. unfold at_. by rewrite map_app, concat_app. Qed.
Lemma at_cons x t l : at_ x (t :: l) = at1 x t ++ at_ x l.
Proof. done. Qed.
Lemma at_perm x l k : l ≡ₚ k → at_ x l ≡ₚ at_ x k.
Proof.
  induction 1 as [|t l k _ IH|t u l|l k j _ IH1 _ IH2]; rewrite ?at_cons.
  - done.
  - by rewrite IH.
  - by rewrite !(assoc_L (++)), (Permutation_app_comm (at1 x u)).
  - by etrans.
Qed.
Lemma with_characters_id t c : characters t = c → with_characters t c = t.
Proof. intros <-. by destruct t. Qed.

(** Transitions disjoint from [chars] are left as they are. *)
Lemma split_loop_tail {E} n done tail chars is_sep prec state :
  Forall tr_ok tail → cs_ok chars → (∀ x, cs_mem x chars = true → at_ x tail = []) → length tail ≤ n →
  split_loop (E:=E) n (done ++ tail) chars is_sep prec state (length done) = Ok (done ++ tail, chars).
Proof.
  revert n done. induction tail as [|t tail IH]; intros n done Hok Hc Hd Hn.
  { destruct n; cbn; by rewrite lookup_end. }
  apply Forall_cons in Hok as [[Ht _] Hok]. cbn in Hn. destruct n as [|n]; [lia|].
  cbn. rewrite lookup_mid. destruct (is_empty chars) eqn:He; [done|].
  destruct (remove_intersection_spec (E:=E) (characters t) chars Ht Hc) as (t' & c' & u & Heq & Ht' & Hc' & Hu & Hm).
  assert (∀ x, cs_mem x (characters t) && cs_mem x chars = false) as Hdis.
  { intros x. destruct (cs_mem x chars) eqn:Hx; [|by rewrite andb_false_r]. specialize (Hd x Hx).
    rewrite at_cons in Hd. unfold at1 in Hd. by destruct (cs_mem x (characters t)). }
  assert (t' = characters t) as ->.
  { apply cs_ext; [done..|]. intros x. destruct (Hm x) as (_ & -> & _). specialize (Hdis x).
    by destruct (cs_mem x (characters t)), (cs_mem x chars). }
  assert (c' = chars) as ->.
  { apply cs_ext; [done..|]. intros x. destruct (Hm x) as (_ & _ & ->). specialize (Hdis x).
    by destruct (cs_mem x (characters t)), (cs_mem x chars). }
  assert (is_empty u = true) as Hue.
  { apply cs_is_empty_spec; [done|]. intros x. destruct (Hm x) as (-> & _). apply Hdis. }
  rewrite Heq. cbn. rewrite Hue, (with_characters_id _ _ eq_refl), insert_mid, snoc_mid.
  rewrite <- (length_snoc done t). rewrite IH; [done|done|done| |lia].
  intros x Hx. specialize (Hd x Hx). rewrite at_cons in Hd. by destruct (at1 x t).
Qed.

(** What one transition becomes: itself, or its part outside [chars] and, at
    the tail, its part in [chars]. *)
Lemma split_one {E} n done t todo tail chars is_sep prec state :
  tr_ok t → cs_ok chars → is_empty chars = false →
  ∃ t' extra chars',
    split_loop (E:=E) (S n) (done ++ t :: todo ++ tail) chars is_sep prec state (length done) =
    split_loop n ((done ++ [t']) ++ todo ++ tail ++ extra) chars' is_sep prec state (length (done ++ [t'])) ∧
    Forall tr_ok (t' :: extra) ∧ cs_ok chars' ∧ length extra ≤ 1 ∧
    ∀ x, cs_mem x chars' = cs_mem x chars && negb (cs_mem x (characters t)) ∧
         (cs_mem x chars' = true → at_ x extra = []) ∧
         at1 x t' ++ at_ x extra =
           if cs_mem x chars then map (step is_sep prec state) (at1 x t) else at1 x t.
Proof.
  intros [Ht Hne] Hc He. cbn. rewrite lookup_mid, He.
  destruct (remove_intersection_spec (E:=E) (characters t) chars Ht Hc) as (r & c' & u & -> & Hr & Hc' & Hu & Hm).
  cbn. rewrite insert_mid.
  set (new := mkTransition u (is_separator t && is_sep) (Z.max (precedence t) prec) (insert_sorted (states t) state)).
  assert (is_empty u = true → ∀ x, cs_mem x (characters t) && cs_mem x chars = false) as Hue.
  { intros Hu0 x. destruct (Hm x) as (<- & _). by apply cs_is_empty_spec. }
  destruct (is_empty u) eqn:Eu; [|destruct (is_empty r) eqn:Er].
  - specialize (Hue eq_refl). exists (with_characters t r), [], c'.
    rewrite List.app_nil_r, length_snoc, <- snoc_mid. split; [done|].
    assert (r = characters t) as ->.
    { apply cs_ext; [done..|]. intros x. destruct (Hm x) as (_ & -> & _). specialize (Hue x).
      by destruct (cs_mem x (characters t)), (cs_mem x chars). }
    rewrite with_characters_id by done. split_and?; [by apply Forall_singleton|done|cbn; lia|].
    intros x. destruct (Hm x) as (_ & _ & ->). split_and?; [done|done|].
    rewrite List.app_nil_r. unfold at1. specialize (Hue x). by destruct (cs_mem x (characters t)), (cs_mem x chars).
  - exists new, [], c'. rewrite insert_mid, List.app_nil_r, length_snoc, <- snoc_mid. split; [done|].
    split_and?; [by apply Forall_singleton|done|cbn; lia|].
    intros x. destruct (Hm x) as (H1 & H2 & ->). split_and?; [done|done|].
    rewrite (proj1 (cs_is_empty_spec r Hr) Er x) in H2. rewrite List.app_nil_r. unfold at1. cbn. rewrite H1.
    by destruct (cs_mem x (characters t)), (cs_mem x chars).
  - exists (with_characters t r), [new], c'. rewrite length_snoc.
    split; [rewrite <- (snoc_mid done), <- (assoc_L (++) done); cbn [app]; by rewrite <- (assoc_L (++) todo)|].
    split_and?; [by apply Forall_cons; split; [|apply Forall_singleton]|done|cbn; lia|].
    intros x. destruct (Hm x) as (H1 & H2 & H3). rewrite H3. unfold at_, at1. cbn. rewrite H1, H2.
    by destruct (cs_mem x (characters t)), (cs_mem x chars).
Qed.

Lemma split_loop_spec {E} n done todo tail chars is_sep prec state :
  Forall tr_ok (done ++ todo ++ tail) → cs_ok chars → disjoint_trs (done ++ todo ++ tail) →
  (∀ x, cs_mem x chars = true → at_ x tail = []) → 2 * length todo + length tail ≤ n →
  ∃ res chars', split_loop (E:=E) n (done ++ todo ++ tail) chars is_sep prec state (length done) = Ok (res, chars') ∧
    Forall tr_ok res ∧ cs_ok chars' ∧
    ∀ x, cs_mem x chars' = cs_mem x chars && bool_decide (at_ x todo = []) ∧
         at_ x res = at_ x done ++ (if cs_mem x chars then map (step is_sep prec state) (at_ x todo)
                                    else at_ x todo) ++ at_ x tail.
Proof.
  revert n done tail chars. induction todo as [|t todo IH]; intros n done tail chars Hok Hc Hd Ht Hn.
  { exists (done ++ tail), chars. cbn in *.
    split; [apply split_loop_tail; [by apply Forall_app in Hok as []|done|done|lia]|].
    split_and?; [done|done|]. intros x. split; [by rewrite andb_true_r|].
    rewrite at_app. by destruct (cs_mem x chars). }
  destruct n as [|n]; [cbn in Hn; lia|].
  destruct (is_empty chars) eqn:He.
  { exists (done ++ (t :: todo) ++ tail), chars. cbn. rewrite lookup_mid, He. split_and?; [done..|].
    intros x. rewrite (proj1 (cs_is_empty_spec _ Hc) He x). split; [done|].
    by rewrite !at_app, at_cons, at_app, !(assoc_L (++)). }
  apply Forall_app in Hok as [Hok1 [Hokt [Hok2 Hok3]%Forall_app]%Forall_cons].
  destruct (split_one (E:=E) n done t todo tail chars is_sep prec state Hokt Hc He)
    as (t' & extra & chars' & Heq & Hok' & Hc' & Hlen & Hx). apply Forall_cons in Hok' as [Hokt' Hoke].
  cbn [app]. rewrite Heq.
  assert (∀ x, length (at1 x t' ++ at_ x extra) = length (at1 x t)) as Hsame.
  { intros x. destruct (Hx x) as (_ & _ & ->). case_match; [by rewrite length_map|done]. }
  destruct (IH n (done ++ [t']) (tail ++ extra) chars') as (res & chars2 & Hres & Hok2' & Hc2 & Hres2).
  - repeat (apply Forall_app; split); done || by constructor.
  - done.
  - intros x. specialize (Hd x). specialize (Hsame x). revert Hd Hsame. cbn [app].
    rewrite !at_app, !at_cons, !at_app, !length_app. change (length (at_ x [])) with 0. lia.
  - intros x Hx'. rewrite at_app. destruct (Hx x) as (H1 & H2 & _). rewrite (H2 Hx'), Ht; [done|].
    rewrite H1 in Hx'. by destruct (cs_mem x chars).
  - cbn in Hn. rewrite length_app. lia.
  - exists res, chars2. split; [done|]. split_and?; [done..|]. intros x.
    destruct (Hres2 x) as [-> ->], (Hx x) as (Hx1 & Hx2 & Hx3). rewrite Hx1. specialize (Hd x).
    cbn [app] in Hd. rewrite at_app, at_cons, at_app in Hd. unfold at1 in Hd |- *.
    rewrite !at_app, !at_cons. cbn [at_ map concat app]. unfold at1 in Hx3 |- *.
    destruct (cs_mem x (characters t)) eqn:Ex.
    + assert (at_ x done = [] ∧ at_ x todo = [] ∧ at_ x tail = []) as (Hd1 & Hd2 & Hd3).
      { rewrite !length_app in Hd. cbn in Hd.
        destruct (at_ x done), (at_ x todo), (at_ x tail); cbn in Hd; try lia; done. }
      rewrite Hd1, Hd2, Hd3. cbn. rewrite !List.app_nil_r, andb_false_r. cbn. split; [done|].
      etrans; [exact Hx3|]. by destruct (cs_mem x chars).
    + cbn in Hx3. assert (at_ x extra = [] ∧ (if cs_mem x (characters t') then [key t'] else []) = []) as [He1 He2].
      { destruct (cs_mem x (characters t')), (at_ x extra), (cs_mem x chars); done. }
      rewrite He1, He2. cbn. rewrite !List.app_nil_r, andb_true_r. done.
Qed.

Definition raw_ok (r : raw) : Prop := cs_ok r.1.1.1.

Lemma split_all_spec {E} result iter :
  Forall tr_ok result → disjoint_trs result → Forall raw_ok iter →
  ∃ res, split_all (E:=E) result iter = Ok res ∧ Forall tr_ok res ∧ disjoint_trs res ∧
    ∀ x, at_ x res = foldl (add_raw x) (at_ x result) iter.
Proof.
  revert result. induction iter as [|[[[c sp] pr] st] iter IH]; intros result Hok Hd Hraw.
  { exists result. by split_and?. }
  apply Forall_cons in Hraw as [Hc Hraw]. unfold raw_ok in Hc. cbn in Hc.
  destruct (split_loop_spec (E:=E) (2 * length result) [] result [] (assign empty c) sp pr st)
    as (res & c' & Heq & Hok' & Hc' & Hres).
  { cbn. by rewrite List.app_nil_r. } { by destruct c. } { cbn. by rewrite List.app_nil_r. }
  { done. } { cbn. lia. }
  cbn [app length] in Heq. rewrite List.app_nil_r in Heq. cbn [split_all]. rewrite Heq. cbn [mbind outcome_bind].
  assert (assign empty c = c) as Hca by by destruct c. rewrite Hca in Hres.
  set (result' := if is_empty c' then res else _).
  assert (∀ x, at_ x result' = add_raw x (at_ x result) (c, sp, pr, st)) as Hadd.
  { intros x. destruct (Hres x) as [Hx Hat]. cbn in Hat. rewrite List.app_nil_r in Hat.
    assert (at_ x result' = at_ x res ++ if cs_mem x c' then [(sp, pr, [st])] else []) as ->.
    { unfold result'. destruct (is_empty c') eqn:He.
      - rewrite (proj1 (cs_is_empty_spec _ Hc') He x). by rewrite List.app_nil_r.
      - rewrite at_app, at_cons. unfold at1. cbn. by rewrite List.app_nil_r. }
    rewrite Hat, Hx. cbn. destruct (cs_mem x c); cbn; [|by rewrite List.app_nil_r].
    case_bool_decide as Hn; [by rewrite Hn|]. rewrite List.app_nil_r. by destruct (at_ x result). }
  destruct (IH result') as (res' & Hr1 & Hr2 & Hr3 & Hr4).
  - unfold result'. destruct (is_empty c') eqn:He; [done|]. apply Forall_app. split; [done|].
    by apply Forall_singleton.
  - intros x. rewrite Hadd. specialize (Hd x). cbn. case_match; [|done].
    destruct (at_ x result) as [|k [|]]; cbn in *; lia.
  - done.
  - exists res'. split_and?; [done..|]. intros x. rewrite Hr4, Hadd. done.
Qed.

Lemma find_index_Some {A} (p : A → bool) l j :
  find_index p l = Some j → ∃ x, l !! j = Some x ∧ p x = true.
Proof.
  revert j. induction l as [|x l IH]; intros j; cbn; [done|]. destruct (p x) eqn:Hp.
  - intros [= <-]. eauto.
  - destruct (find_index p l) as [k|]; cbn; [|done]. intros [= <-]. by apply IH.
Qed.
Lemma find_index_None {A} (p : A → bool) l : find_index p l = None → Forall (λ x, p x = false) l.
Proof.
  induction l as [|x l IH]; cbn; [constructor|]. destruct (p x) eqn:Hp; [done|].
  destruct (find_index p l); cbn; [done|]. intros _. constructor; [done|by apply IH].
Qed.
Lemma same_target_key t u : same_target t u = true ↔ key t = key u.
Proof.
  unfold same_target, key. rewrite !andb_true_iff, bool_decide_eq_true, Bool.eqb_true_iff, Z.eqb_eq.
  split; [intros [[-> ->] ->]; done|]. by intros [= -> -> ->].
Qed.

Lemma take_swap_remove {A} i (l : list A) : i < length l → take i (swap_remove i l) = take i l.
Proof.
  intros Hi. unfold swap_remove. destruct (last l); [|done].
  rewrite take_take, Nat.min_l by lia. apply take_insert_ge. lia.
Qed.
Lemma length_swap_remove {A} i (l : list A) : i < length l → length (swap_remove i l) = length l - 1.
Proof.
  intros Hi. unfold swap_remove. destruct (last l) eqn:Hl.
  - rewrite length_take, length_insert. lia.
  - apply last_None in Hl. subst. cbn in Hi. lia.
Qed.
Lemma insert_perm {A} j (x y : A) l : l !! j = Some x → <[j:=y]> l ≡ₚ y :: delete j l.
Proof.
  intros Hj. rewrite delete_take_drop, insert_take_drop by by eapply lookup_lt_Some.
  symmetry. apply Permutation_middle.
Qed.

(** Merging two transitions with one target leaves every character's target. *)
Lemma merge_at (x : N) (ti tj tm : NfaTransition) (D res' result : list NfaTransition) :
  (∀ x, cs_mem x (characters tm) = cs_mem x (characters tj) || cs_mem x (characters ti)) →
  key tm = key tj → key ti = key tj →
  result ≡ₚ tj :: D → tm :: D ≡ₚ ti :: res' → ti ∈ D → length (at_ x result) ≤ 1 →
  at_ x res' ≡ₚ at_ x result.
Proof.
  intros Hm Hkm Hki HD Hres' Hin Hlen. apply (at_perm x) in HD, Hres'. rewrite !at_cons in *.
  apply list_elem_of_split in Hin as (D1 & D2 & HDe).
  assert (length (at1 x tj) + length (at1 x ti) ≤ 1) as Hti.
  { rewrite HD, HDe, !length_app, at_app, at_cons, !length_app in Hlen. lia. }
  rewrite HD. unfold at1 in *. rewrite Hm in Hres'. rewrite Hkm, Hki in *.
  destruct (cs_mem x (characters tj)), (cs_mem x (characters ti)); cbn in *; try lia.
  - by rewrite Hres'.
  - by apply Permutation_cons_inv in Hres'.
  - by rewrite Hres'.
Qed.

Lemma merge_loop_spec {E} n result i :
  Forall tr_ok result → disjoint_trs result → NoDup (map key (take i result)) →
  length result - i ≤ n →
  ∃ res, merge_loop (E:=E) n result i = Ok res ∧ Forall tr_ok res ∧ disjoint_trs res ∧
    NoDup (map key res) ∧ ∀ x, at_ x res ≡ₚ at_ x result.
Proof.
  revert result i. induction n as [|n IH]; intros result i Hok Hd Hnd Hn;
    destruct (result !! i) as [ti|] eqn:Hi; cbn; rewrite Hi.
  1: apply lookup_lt_Some in Hi; lia.
  1,3: exists result; apply lookup_ge_None in Hi; rewrite take_ge in Hnd by done; by split_and?.
  pose proof (lookup_lt_Some _ _ _ Hi) as Hlt.
  destruct (find_index _ (take i result)) as [j|] eqn:Hj.
  - apply find_index_Some in Hj as (tj & Hj & Hsame%same_target_key).
    assert (j < i) as Hji by (apply lookup_lt_Some in Hj; rewrite length_take in Hj; lia).
    rewrite lookup_take_lt in Hj by done. rewrite (vec_get_Some (E:=E) _ _ _ Hj). cbn.
    rewrite Forall_forall in Hok.
    destruct (Hok tj) as [Htj Hnj]; [by eapply list_elem_of_lookup_2|].
    destruct (Hok ti) as [Hti Hni]; [by eapply list_elem_of_lookup_2|].
    destruct (add_spec (E:=E) (characters tj) (characters ti) Htj Hti) as (u & -> & Hu & Hum). cbn.
    set (tm := with_characters tj u). set (result1 := <[j:=tm]> result).
    assert (result1 !! i = Some ti) as Hi1 by by unfold result1; rewrite list_lookup_insert_ne by lia.
    assert (i < length result1) as Hlt1 by by eapply lookup_lt_Some.
    assert (∀ x, at_ x (swap_remove i result1) ≡ₚ at_ x result) as Hat.
    { intros x. apply (merge_at x ti tj tm (delete j result)); try done.
      - by apply delete_Permutation.
      - rewrite <- (insert_perm _ _ tm _ Hj). by apply swap_remove_perm.
      - assert (ti ∈ tm :: delete j result) as [->|]%elem_of_cons; [| |done].
        + rewrite <- (insert_perm _ _ tm _ Hj). by eapply list_elem_of_lookup_2.
        + exfalso. specialize (Hd). destruct (not_empty_spec _ Htj Hnj) as [y Hy]. specialize (Hd y).
          assert (result !! i = Some tm) as Hi' by done.
          pose proof (at_perm y _ _ (delete_Permutation _ _ _ Hj)) as Hp. rewrite at_cons in Hp.
          assert (tm ∈ delete j result) as Hin.
          { rewrite delete_take_drop, elem_of_app. right. apply list_elem_of_lookup. exists (i - S j).
            rewrite lookup_drop. rewrite <- Hi'. f_equal. lia. }
          apply list_elem_of_split in Hin as (D1 & D2 & HD). rewrite HD, at_app, at_cons in Hp.
          rewrite Hp, !length_app in Hd. unfold at1 in Hd. cbn in Hd. rewrite Hum, Hy in Hd. cbn in Hd. lia. }
    destruct (IH (swap_remove i result1) i) as (res & Hres & Hok' & Hd' & Hnd' & Hat').
    + apply Forall_forall. intros t Ht.
      assert (t ∈ result1) as Ht1 by (rewrite (swap_remove_perm _ _ _ Hi1); by apply list_elem_of_further).
      unfold result1 in Ht1. rewrite (insert_perm _ _ tm _ Hj) in Ht1. apply elem_of_cons in Ht1 as [->|Ht1].
      * split; [done|]. cbn. destruct (not_empty_spec _ Htj Hnj) as [y Hy].
        destruct (is_empty u) eqn:He; [|done]. pose proof (proj1 (cs_is_empty_spec u Hu) He y) as Hc.
        by rewrite Hum, Hy in Hc.
      * apply Hok. rewrite (delete_Permutation _ _ _ Hj). by apply list_elem_of_further.
    + intros x. by rewrite Hat.
    + rewrite take_swap_remove by done. unfold result1. rewrite take_insert_lt by done.
      change (map key) with (fmap (M:=list) key) in *. rewrite list_fmap_insert.
      rewrite list_insert_id; [done|]. rewrite list_lookup_fmap, lookup_take_lt, Hj by done. done.
    + rewrite length_swap_remove by done. unfold result1. rewrite length_insert. lia.
    + exists res. split_and?; [done..|]. intros x. by rewrite Hat', Hat.
  - apply find_index_None in Hj. apply IH; [done|done| |lia].
    rewrite (take_S_r _ _ _ Hi), map_app. cbn. apply NoDup_app. split_and?; [done| |apply NoDup_singleton].
    intros k Hk ->%list_elem_of_singleton. apply elem_of_map in Hk as (t & Hk & Ht).
    rewrite Forall_forall in Hj. specialize (Hj t Ht).
    by rewrite (proj2 (same_target_key t ti)) in Hj by done.
Qed.

(** The raw transitions that apply to [x]. *)
Definition applies (x : N) (iter : list raw) (sp : bool) (pr : Z) (st : N) : Prop :=
  ∃ c, (c, sp, pr, st) ∈ iter ∧ cs_mem x c = true.
(** What the transition of [x] must be: all of the raw target states, the
    highest precedence, and a separator when every raw one is. *)
Definition target_of (x : N) (iter : list raw) (k : target) : Prop :=
  let '(s, p, sts) := k in
  (∃ sp pr st, applies x iter sp pr st) ∧
  (s = true ↔ ∀ sp pr st, applies x iter sp pr st → sp = true) ∧
  (∃ sp st, applies x iter sp p st) ∧ (∀ sp pr st, applies x iter sp pr st → (pr <= p)%Z) ∧
  StronglySorted N.lt sts ∧ (∀ st, st ∈ sts ↔ ∃ sp pr, applies x iter sp pr st).

Lemma applies_snoc x iter c sp pr st sp' pr' st' :
  applies x (iter ++ [(c, sp, pr, st)]) sp' pr' st' ↔
  applies x iter sp' pr' st' ∨ cs_mem x c = true ∧ sp' = sp ∧ pr' = pr ∧ st' = st.
Proof.
  unfold applies. setoid_rewrite elem_of_app. setoid_rewrite list_elem_of_singleton. split.
  - intros (c' & [?|[= -> -> -> ->]] & ?); [left; eauto|by right].
  - intros [(c' & ? & ?)|(? & -> & -> & ->)]; [exists c'; auto|exists c; auto].
Qed.

Lemma summary_spec x iter :
  (summary x iter = [] ∧ ∀ sp pr st, ¬ applies x iter sp pr st) ∨
  (∃ k, summary x iter = [k] ∧ target_of x iter k).
Proof.
  induction iter as [|[[[c sp] pr] st] iter IH] using rev_ind.
  { left. split; [done|]. intros sp pr st (c & Hc & _). by apply elem_of_nil in Hc. }
  unfold summary in *. rewrite foldl_snoc. cbn. destruct (cs_mem x c) eqn:Hx.
  - right. destruct IH as [[-> Hno]|([[s p] sts] & -> & (Hex & Hs & Hp & Hmax & Hsort & Hst))].
    + exists (sp, pr, [st]). split; [done|]. unfold target_of. setoid_rewrite applies_snoc. split_and?.
      * exists sp, pr, st. by right.
      * split; [intros -> ??? [?%Hno|(_ & -> & _)]; done|]. intros H. apply (H sp pr st). by right.
      * exists sp, st. by right.
      * intros ??? [?%Hno|(_ & -> & -> & ->)]; [done|lia].
      * repeat constructor.
      * intros st'. rewrite list_elem_of_singleton. split; [intros ->; exists sp, pr; by right|].
        by intros (?&?&[?%Hno|(_ & -> & -> & ->)]).
    + exists (s && sp, Z.max p pr, insert_sorted sts st). split; [done|].
      destruct (insert_sorted_spec sts st Hsort) as [Hsort' Hin]. unfold target_of. setoid_rewrite applies_snoc. split_and?.
      * destruct Hex as (a & b & d & Ha). exists a, b, d. by left.
      * rewrite andb_true_iff, Hs. split.
        -- intros [H1 ->] a b d [Ha|(_ & -> & _)]; [by eapply H1|done].
        -- intros H. split; [intros a b d Ha; by apply (H a b d); left|apply (H sp pr st); by right].
      * destruct (Z.max_spec p pr) as [[_ ->]|[_ ->]]; [exists sp, st; by right|].
        destruct Hp as (a & b & Ha). exists a, b. by left.
      * intros a b d [Ha|(_ & -> & -> & ->)]; [specialize (Hmax _ _ _ Ha)|]; lia.
      * done.
      * intros st'. rewrite Hin, Hst. split.
        -- intros [->|(a & b & Ha)]; [exists sp, pr; by right|exists a, b; by left].
        -- intros (a & b & [Ha|(_ & -> & -> & ->)]); [right; eauto|by left].
  - assert (∀ a b d, applies x (iter ++ [(c, sp, pr, st)]) a b d ↔ applies x iter a b d) as Hap.
    { intros. rewrite applies_snoc, Hx. intuition congruence. }
    destruct IH as [[-> Hno]|([[s p] sts] & -> & Ht)].
    + left. split; [done|]. intros. by rewrite Hap.
    + right. exists (s, p, sts). split; [done|]. unfold target_of in *. by setoid_rewrite Hap.
Qed.

Lemma group_transitions_spec {E : Type} (iter : list raw) :
  Forall raw_ok iter →
  ∃ ts, group_transitions (E:=E) iter = Ok ts ∧
    Forall tr_ok ts ∧ NoDup (map key ts) ∧
    StronglySorted (λ t u, cmp (characters t) (characters u) = Lt) ts ∧
    ∀ x, length (at_ x ts) ≤ 1 ∧
      (at_ x ts = [] ↔ ∀ sp pr st, ¬ applies x iter sp pr st) ∧
      (∀ k, k ∈ at_ x ts → target_of x iter k).
Proof.
  intros Hraw. unfold group_transitions.
  destruct (split_all_spec (E:=E) [] iter) as (res & -> & Hok & Hd & Hat); [constructor|intros x; cbn; lia|done|].
  cbn [mbind outcome_bind].
  destruct (merge_loop_spec (E:=E) (length res) res 0) as (res' & -> & Hok' & Hd' & Hnd' & Hat');
    [done|done|constructor|lia|]. cbn [mbind outcome_bind].
  set (f := λ a b, cmp (characters a) (characters b)). pose proof (sort_by_perm f res') as Hp.
  exists (sort_by f res'). split_and?; [done|by rewrite Hp|by change (map key) with (fmap (M:=list) key) in *; rewrite Hp| |].
  - apply (sort_by_sorted f tr_ok).
    + intros t u [Ht _] [Hu _]. by apply cmp_sym.
    + intros t u v [Ht _] [Hu _] [Hv _]. by apply cmp_trans.
    + done.
    + intros i j t u Hi Hj Hij Heq. rewrite Forall_forall in Hok'.
      destruct (Hok' t) as [Ht Hnt]; [by eapply list_elem_of_lookup_2|].
      destruct (Hok' u) as [Hu _]; [by eapply list_elem_of_lookup_2|].
      unfold f in Heq. apply cmp_Eq in Heq; [|done..]. destruct (not_empty_spec _ Ht Hnt) as [y Hy].
      specialize (Hd' y). rewrite <- (take_drop_middle _ _ _ Hi) in Hd'.
      rewrite at_app, at_cons in Hd'. assert (u ∈ drop (S i) res') as Hin.
      { apply list_elem_of_lookup. exists (j - S i). rewrite lookup_drop, <- Hj. f_equal. lia. }
      apply list_elem_of_split in Hin as (D1 & D2 & HD). rewrite HD, at_app, at_cons, !length_app in Hd'.
      unfold at1 in Hd'. rewrite <- Heq, Hy in Hd'. cbn in Hd'. lia.
  - intros x. assert (at_ x (sort_by f res') ≡ₚ summary x iter) as Hx.
    { rewrite (at_perm _ _ _ Hp), Hat', Hat. done. }
    destruct (summary_spec x iter) as [[Hs Hno]|(k & Hs & Hk)]; rewrite Hs in Hx.
    + apply Permutation_nil_r in Hx. rewrite Hx. split_and?; [cbn; lia|done|]. by intros k ?%elem_of_nil.
    + apply Permutation_singleton_r in Hx. rewrite Hx. split_and?; [cbn; lia| |].
      * split; [done|]. intros Hno. exfalso. destruct k as [[s p] sts]. destruct Hk as ((a & b & d & Ha) & _).
        by apply Hno in Ha.
      * by intros k' ->%list_elem_of_singleton.
Qed.

(** C25: [group_transitions] ends without panicking and returns transitions
    with non-empty, pairwise disjoint character sets and pairwise different
    targets, sorted by their sets; a character has a transition exactly when a
    raw transition applies to it, and its target combines exactly those. *)
Theorem group_transitions_correct (E : Type) (iter : list raw) :
  Forall raw_ok iter →
  ∃ ts, group_transitions (E:=E) iter = Ok ts ∧
    Forall tr_ok ts ∧ NoDup (map key ts) ∧
    StronglySorted (λ t u, cmp (characters t) (characters u) = Lt) ts ∧
    ∀ x, length (at_ x ts) ≤ 1 ∧
      (at_ x ts = [] ↔ ∀ sp pr st, ¬ applies x iter sp pr st) ∧
      (∀ k, k ∈ at_ x ts → target_of x iter k).
Proof. exact (group_transitions_spec iter). Qed.

(** ** Witnesses *)
Definition example_nfa : Nfa :=
  [Accept 0 0; Split 2 3; Advance cs_a 0 false 0; Split 1 4; Advance cs_b 0 true 1].
Lemma example_nfa_ok : nfa_ok example_nfa.
Proof.
  intros [|[|[|[|[|i]]]]] l r H; cbn in H; try done; injection H as <- <-; cbn; lia.
Qed.
Example add_states_example :
  add_states (E:=Empty_set) 12 (mkCursor [] example_nfa) [1%N] = Ok (mkCursor [2; 4]%N example_nfa).
Proof. reflexivity. Qed.

Lemma add_states_correct_witness :
  ∃ c', add_states (E:=Empty_set) 12 (mkCursor [] example_nfa) [1%N] = Ok c' ∧ nfa c' = example_nfa ∧
    StronglySorted N.lt (state_ids c') ∧
    ∀ x, x ∈ state_ids c' ↔ x ∈ [] ∨ (¬ is_split example_nfa x ∧ ∃ s, s ∈ [1%N] ∧ eps example_nfa s x).
Proof.
  apply (add_states_correct Empty_set 12 (mkCursor [] example_nfa) [1%N]).
  - exact example_nfa_ok.
  - intros s ->%list_elem_of_singleton. cbn. lia.
  - constructor.
  - cbn. lia.
Defined.

Definition example_raws : list raw := [(cs_a, false, 0%Z, 7%N); (cs_b, true, 3%Z, 5%N)].
Example group_transitions_example :
  group_transitions (E:=Empty_set) example_raws =
    Ok [mkTransition (mkCharacterSet [(68, 70); (80, 84)]) false 3 [5; 7];
        mkTransition (mkCharacterSet [(65, 68); (84, 90)]) false 0 [7];
        mkTransition (mkCharacterSet [(70, 80)]) true 3 [5]]%N.
Proof. vm_compute. reflexivity. Qed.

Lemma group_transitions_correct_witness :
  ∃ ts, group_transitions (E:=Empty_set) example_raws = Ok ts ∧
    Forall tr_ok ts ∧ NoDup (map key ts) ∧
    StronglySorted (λ t u, cmp (characters t) (characters u) = Lt) ts ∧
    ∀ x, length (at_ x ts) ≤ 1 ∧
      (at_ x ts = [] ↔ ∀ sp pr st, ¬ applies x example_raws sp pr st) ∧
      (∀ k, k ∈ at_ x ts → target_of x example_raws k).
Proof.
  apply group_transitions_correct. apply Forall_cons. split; [exact cs_a_ok|].
  apply Forall_singleton. exact cs_b_ok.
Defined.
