(* ===== verification/Dedup.v ===== *)
(** * [crates/generate/src/dedup.rs]: partition refinement

    [split_state_id_groups] makes one pass over the groups of a partition of
    states and moves, out of every group, the states that a group member before
    them is incompatible with into a new group, which the pass visits too.
    [state_ids] and the bounds of its two index loops do not change while the
    loops run, so they are recursions over the list. *)
From S2P Require Import Prelude.

Section dedup.
Context {S_ : Type} (states : list S_) (should_split : ∀ E : Type, S_ → S_ → list N → outcome E bool).

(** [is_split[x] = b], for an index in range. *)
Definition mark (is_split : list bool) (x : N) (b : bool) : list bool := <[N.to_nat x := b]> is_split.

(** The loop over [j]. *)
Fixpoint split_right {E} (ids : list N) (left_state : S_) (rest : list N)
    (is_split : list bool) (split : list N) : outcome E (list bool * list N) :=
  match rest with
  | [] => Ok (is_split, split)
  | right_state_id :: rest =>
      b ← vec_get is_split (N.to_nat right_state_id);
      if b : bool then split_right ids left_state rest is_split split
      else
        right_state ← vec_get states (N.to_nat right_state_id);
        differ ← should_split E left_state right_state ids;
        if differ : bool then split_right ids left_state rest (mark is_split right_state_id true) (split ++ [right_state_id])
        else split_right ids left_state rest is_split split
  end.

(** The loop over [i]. *)
Fixpoint split_left {E} (ids : list N) (state_ids : list N)
    (is_split : list bool) (split : list N) : outcome E (list bool * list N) :=
  match state_ids with
  | [] => Ok (is_split, split)
  | left_state_id :: rest =>
      b ← vec_get is_split (N.to_nat left_state_id);
      if b : bool then split_left ids rest is_split split
      else
        left_state ← vec_get states (N.to_nat left_state_id);
        '(is_split, split) ← split_right ids left_state rest is_split split;
        split_left ids rest is_split split
  end.

(** [retain(|i| !is_split[*i])]. *)
Definition retain_unsplit (is_split : list bool) (l : list N) : list N :=
  filter (λ x, is_split !! N.to_nat x ≠ Some true) l.

(** [for id in &split_state_ids]. *)
Fixpoint assign_group {E} (new_group_id : N) (split : list N) (ids : list N) (is_split : list bool) :
    outcome E (list N * list bool) :=
  match split with
  | [] => Ok (ids, is_split)
  | id :: split =>
      ids ← vec_set ids (N.to_nat id) new_group_id;
      is_split ← vec_set is_split (N.to_nat id) false;
      assign_group new_group_id split ids is_split
  end.

Fixpoint split_groups_loop {E} (n : nat) (groups : list (list N)) (ids : list N)
    (is_split : list bool) (group_id : nat) (result : bool) :
    outcome E (list (list N) * list N * bool) :=
  match groups !! group_id with
  | None => Ok (groups, ids, result)
  | Some state_ids =>
      match n with
      | O => OutOfFuel
      | S n =>
          '(is_split, split) ← split_left ids state_ids is_split [];
          match split with
          | [] => split_groups_loop n groups ids is_split (S group_id) result
          | _ =>
              let groups := <[group_id := retain_unsplit is_split state_ids]> groups in
              let new_group_id := as_u32 (length groups) in
              '(ids, is_split) ← assign_group new_group_id split ids is_split;
              split_groups_loop n (groups ++ [split]) ids is_split (S group_id) true
          end
      end
  end.

Definition split_state_id_groups {E} (n : nat) (groups : list (list N)) (ids : list N)
    (start_group_id : N) : outcome E (list (list N) * list N * bool) :=
  split_groups_loop n groups ids (replicate (length states) false) (N.to_nat start_group_id) false.

(** [while split_state_id_groups(..) {}], as the callers write it. *)
Fixpoint split_until_stable {E} (k n : nat) (groups : list (list N)) (ids : list N) (start : N) :
    outcome E (list (list N) * list N) :=
  match k with
  | O => OutOfFuel
  | S k =>
      '(groups, ids, changed) ← split_state_id_groups n groups ids start;
      if changed : bool then split_until_stable k n groups ids start else Ok (groups, ids)
  end.

(** ** What one group splits into *)

(** [is_split] marks exactly the states of [split]. *)
Definition marks (is_split : list bool) (split : list N) : Prop :=
  length is_split = length states ∧ ∀ x, is_split !! N.to_nat x = Some true ↔ x ∈ split.

(** Two states that are to be split. *)
Definition clash (ids : list N) (a b : N) : Prop :=
  ∃ sa sb, states !! N.to_nat a = Some sa ∧ states !! N.to_nat b = Some sb ∧ should_split Empty_set sa sb ids = Ok true.

(** [should_split] does not panic on states of the table. *)
Definition splits : Prop := ∀ sa sb ids,
  sa ∈ states → sb ∈ states → length ids = length states → ∃ b, ∀ E, should_split E sa sb ids = Ok b.
Context (Hsplits : splits).

Definition in_range (l : list N) : Prop := ∀ x, x ∈ l → N.to_nat x < length states.

Lemma marks_get {E} is_split split x :
  marks is_split split → N.to_nat x < length states →
  vec_get (E:=E) is_split (N.to_nat x) = Ok (bool_decide (x ∈ split)).
Proof.
  intros [Hlen Hm] Hx. apply vec_get_Some.
  destruct (lookup_lt_is_Some_2 is_split (N.to_nat x)) as [b Hb]; [lia|]. rewrite Hb. f_equal.
  specialize (Hm x). rewrite Hb in Hm. case_bool_decide as Hin; destruct b; try done.
  - by apply Hm in Hin.
  - exfalso. by apply Hin, Hm.
Qed.
Lemma marks_mark is_split split x :
  marks is_split split → N.to_nat x < length states → marks (mark is_split x true) (split ++ [x]).
Proof.
  intros [Hlen Hm] Hx. split; [by unfold mark; rewrite length_insert|]. intros y.
  rewrite elem_of_app, list_elem_of_singleton. unfold mark. destruct (decide (y = x)) as [->|Hne].
  - rewrite list_lookup_insert_eq by lia. tauto.
  - rewrite list_lookup_insert_ne by lia. rewrite Hm. tauto.
Qed.

Lemma split_right_spec {E} ids left_id sl rest is_split split :
  length ids = length states → marks is_split split → in_range rest → NoDup rest → states !! N.to_nat left_id = Some sl →
  ∃ is_split' new, split_right (E:=E) ids sl rest is_split split = Ok (is_split', split ++ new) ∧
    marks is_split' (split ++ new) ∧ NoDup new ∧
    ∀ x, x ∈ new ↔ x ∈ rest ∧ x ∉ split ∧ clash ids left_id x.
Proof.
  intros Hids Hm Hr Hnd Hsl. revert is_split split Hm. induction rest as [|x rest IH]; intros is_split split Hm; cbn.
  { exists is_split, []. rewrite List.app_nil_r. split_and?; [done|done|constructor|]. intros x. rewrite elem_of_nil. tauto. }
  apply NoDup_cons in Hnd as [Hx Hnd].
  assert (N.to_nat x < length states) as Hxr by (apply Hr, list_elem_of_here).
  assert (in_range rest) as Hr' by (intros y Hy; by apply Hr, list_elem_of_further).
  rewrite (marks_get is_split split x Hm Hxr). cbn. case_bool_decide as Hin.
  - destruct (IH Hr' Hnd is_split split Hm) as (m' & new & Heq & Hm' & Hndn & Hnew).
    exists m', new. split_and?; [done..|]. intros y. rewrite Hnew, elem_of_cons. naive_solver.
  - destruct (lookup_lt_is_Some_2 states (N.to_nat x) Hxr) as [sx Hsx].
    rewrite (vec_get_Some (E:=E) states _ _ Hsx). cbn.
    destruct (Hsplits sl sx ids) as [b Hss]; [by eapply list_elem_of_lookup_2|by eapply list_elem_of_lookup_2|done|].
    rewrite Hss. cbn. specialize (Hss Empty_set). destruct b.
    + destruct (IH Hr' Hnd (mark is_split x true) (split ++ [x])) as (m' & new & Heq & Hm' & Hndn & Hnew);
        [by apply marks_mark|].
      exists m', (x :: new). rewrite <- (assoc_L (++)) in Heq, Hm'. split_and?; [done|done| |].
      * constructor; [|done]. rewrite Hnew. tauto.
      * intros y. rewrite !elem_of_cons, Hnew, elem_of_app, list_elem_of_singleton. split.
        -- intros [->|(?&?&?)]; [|tauto]. split_and?; [by left|done|]. by exists sl, sx.
        -- intros (?&?&?). destruct (decide (y = x)); [by left|]. right. tauto.
    + destruct (IH Hr' Hnd is_split split Hm) as (m' & new & Heq & Hm' & Hndn & Hnew).
      exists m', new. split_and?; [done..|]. intros y. rewrite Hnew, elem_of_cons. split; [tauto|].
      intros ([->|?]&?&Hc); [|done]. destruct Hc as (a & b & Ha & Hb & Hc). congruence.
Qed.

(** After the left loop: a later state of the group is split exactly when it
    clashes with an earlier state that stays. *)
Definition split_of (ids : list N) (l split : list N) : Prop :=
  NoDup split ∧ (∀ x, x ∈ split → x ∈ l) ∧
  (∀ i x, l !! i = Some x → x ∈ split ↔ ∃ j y, j < i ∧ l !! j = Some y ∧ y ∉ split ∧ clash ids y x).

Lemma split_left_spec {E} ids l1 l2 is_split split :
  length ids = length states → marks is_split split → in_range (l1 ++ l2) → NoDup (l1 ++ l2) → NoDup split → (∀ x, x ∈ split → x ∈ l1 ++ l2) →
  (∀ i x, (l1 ++ l2) !! i = Some x →
     x ∈ split ↔ ∃ j y, j < i ∧ j < length l1 ∧ (l1 ++ l2) !! j = Some y ∧ y ∉ split ∧ clash ids y x) →
  ∃ is_split' split', split_left (E:=E) ids l2 is_split split = Ok (is_split', split') ∧
    marks is_split' split' ∧ split_of ids (l1 ++ l2) split'.
Proof.
  intros Hids. revert l1 is_split split. induction l2 as [|x l2 IH]; intros l1 is_split split Hm Hr Hnd Hnds Hsub Hinv; cbn.
  { exists is_split, split. split; [done|]. split; [done|]. split; [done|]. split; [done|].
    intros i y Hi. rewrite (Hinv i y Hi). rewrite List.app_nil_r in *. split.
    - intros (j & z & ? & _ & ?). eauto.
    - intros (j & z & ? & Hj & Hns & Hc). exists j, z. split_and?; try done. by eapply lookup_lt_Some. }
  assert (x ∈ l1 ++ x :: l2) as Hxin by (apply elem_of_app; right; apply list_elem_of_here).
  rewrite (marks_get is_split split x Hm (Hr x Hxin)). cbn.
  assert ((l1 ++ x :: l2) !! length l1 = Some x) as Hlx by by apply list_lookup_middle.
  assert (∀ (i : nat) y, (l1 ++ x :: l2) !! i = Some y → i < length l1 ∨ i = length l1 ∧ y = x ∨ length l1 < i ∧ y ∈ l2) as Hcase.
  { intros i y Hi. destruct (decide (i < length l1)); [by left|]. right.
    rewrite lookup_app_r in Hi by lia. destruct (i - length l1) as [|k] eqn:Hk; cbn in Hi.
    - left. split; [lia|congruence].
    - right. split; [lia|]. by eapply list_elem_of_lookup_2. }
  replace (l1 ++ x :: l2) with ((l1 ++ [x]) ++ l2) in * by by rewrite <- (assoc_L (++)).
  case_bool_decide as Hx.
  - apply (IH (l1 ++ [x])); [done..|]. intros i y Hi. rewrite (Hinv i y Hi). rewrite length_app. cbn.
    split; intros (j & z & Hji & Hj & Hz & Hns & Hc); exists j, z; split_and?; try done; try lia.
    destruct (decide (j = length l1)) as [->|]; [|lia]. congruence.
  - destruct (lookup_lt_is_Some_2 states (N.to_nat x) (Hr x Hxin)) as [sx Hsx].
    rewrite (vec_get_Some (E:=E) states _ _ Hsx). cbn [mbind outcome_bind].
    pose proof Hnd as (_ & Hdisj & Hnd2)%NoDup_app.
    destruct (split_right_spec (E:=E) ids x sx l2 is_split split) as (m' & new & -> & Hm' & Hndn & Hnew);
      [done|done|intros y Hy; apply Hr, elem_of_app; by right|done|done|]. cbn [mbind outcome_bind].
    assert (∀ y, y ∈ l1 ++ [x] → y ∉ new) as Hnn.
    { intros y Hy Hn. apply Hnew in Hn as (Hy2 & _). by apply (Hdisj y Hy). }
    apply (IH (l1 ++ [x])).
    + done.
    + done.
    + done.
    + apply NoDup_app. split_and?; [done| |done]. intros y Hy Hn. by apply Hnew in Hn as (_ & ? & _).
    + intros y. rewrite elem_of_app, Hnew. intros [Hy|(Hy&_)]; [by apply Hsub|]. apply elem_of_app. by right.
    + intros i y Hi. rewrite elem_of_app. rewrite length_app. cbn. split.
      * intros [Hy|Hy].
        -- apply (Hinv i y Hi) in Hy as (j & z & Hji & Hjl & Hz & Hns & Hc).
           exists j, z. split_and?; [done|lia|done| |done]. rewrite elem_of_app. intros [?|Hzn]; [done|].
           apply (Hnn z); [|done]. apply elem_of_app. left. rewrite lookup_app_l in Hz by (rewrite length_app; cbn; lia).
           rewrite lookup_app_l in Hz by lia. by eapply list_elem_of_lookup_2.
        -- pose proof Hy as (Hy2 & _ & Hc)%Hnew. exists (length l1), x. split_and?; [|lia|done| |done].
           ++ destruct (Hcase i y Hi) as [Hlt|[[-> ->]|[? _]]]; [|by apply Hdisj in Hy2; [|apply elem_of_app; right; apply list_elem_of_here]|done].
              exfalso. apply (Hdisj y); [|done]. apply elem_of_app. left. rewrite lookup_app_l in Hi by (rewrite length_app; cbn; lia).
              rewrite lookup_app_l in Hi by lia. by eapply list_elem_of_lookup_2.
           ++ rewrite elem_of_app. intros [?|?]; [done|]. apply (Hnn x); [|done].
              apply elem_of_app. right. apply list_elem_of_here.
      * intros (j & z & Hji & Hjl & Hz & Hns & Hc). rewrite elem_of_app in Hns.
        destruct (decide (y ∈ split)) as [|Hys]; [by left|]. right. apply Hnew.
        destruct (decide (j = length l1)) as [->|].
        -- assert (z = x) as -> by congruence. split_and?; [|done|done].
           destruct (Hcase i y Hi) as [?|[[? _]|[_ ?]]]; [lia|lia|done].
        -- exfalso. apply Hys. apply (Hinv i y Hi). exists j, z. split_and?; try done; [lia|tauto].
Qed.

(** ** A pass over the partition *)

(** How often the groups can still split. *)
Definition slack (groups : list (list N)) : nat := sum_list_with (λ l, pred (length l)) groups.

Lemma slack_sum (groups : list (list N)) : [] ∉ groups → length groups + slack groups = length (concat groups).
Proof.
  unfold slack. induction groups as [|[|x l] gs IH]; intros Hn; [done|by apply not_elem_of_cons in Hn as [? _]|].
  apply not_elem_of_cons in Hn as [_ Hn]. specialize (IH Hn). cbn. rewrite length_app. cbn. lia.
Qed.

Lemma lookup_app_ne {A} (G1 G2 : list A) l k g :
  g ≠ length G1 → (G1 ++ l :: G2) !! g = (G1 ++ k :: G2) !! g.
Proof.
  intros Hg. destruct (decide (g < length G1)); [by rewrite !lookup_app_l by done|].
  rewrite !lookup_app_r by lia. by destruct (g - length G1) eqn:?; [lia|].
Qed.

(** The groups are disjoint, their ids are states, and [ids] is their index. *)
Definition part_ok (groups : list (list N)) (ids : list N) : Prop :=
  NoDup (concat groups) ∧ in_range (concat groups) ∧ length ids = length states ∧
  ∀ g l x, groups !! g = Some l → x ∈ l → ids !! N.to_nat x = Some (N.of_nat g).

Definition stable_group (ids : list N) (l : list N) : Prop :=
  ∀ i j a b, i < j → l !! i = Some a → l !! j = Some b → ¬ clash ids a b.

(** Every new group lies in an old one. *)
Definition refines (groups' groups : list (list N)) : Prop :=
  ∀ l', l' ∈ groups' → ∃ l, l ∈ groups ∧ l' ⊆ l.

Lemma assign_group_spec {E} new split ids is_split rest :
  marks is_split (split ++ rest) → NoDup (split ++ rest) → in_range split → length ids = length states →
  ∃ ids' m', assign_group (E:=E) new split ids is_split = Ok (ids', m') ∧ marks m' rest ∧
    length ids' = length states ∧
    ∀ x, ids' !! N.to_nat x = if decide (x ∈ split) then Some new else ids !! N.to_nat x.
Proof.
  revert ids is_split. induction split as [|y split IH]; intros ids m Hm Hnd Hr Hlen; cbn.
  { exists ids, m. split_and?; done. }
  apply NoDup_cons in Hnd as [Hy Hnd].
  assert (N.to_nat y < length states) as Hyr by (apply Hr, list_elem_of_here).
  pose proof Hm as [Hml Hmx].
  rewrite (vec_set_lt (E:=E)) by lia. cbn. rewrite (vec_set_lt (E:=E)) by lia. cbn.
  destruct (IH (<[N.to_nat y:=new]> ids) (<[N.to_nat y:=false]> m)) as (ids' & m' & -> & Hm' & Hl' & Hx').
  - split; [by rewrite length_insert|]. intros x. destruct (decide (x = y)) as [->|].
    + rewrite list_lookup_insert_eq by lia. split; [done|]. intros ?. done.
    + rewrite list_lookup_insert_ne by lia. rewrite Hmx. cbn. rewrite elem_of_cons. naive_solver.
  - done.
  - intros x Hx. by apply Hr, list_elem_of_further.
  - by rewrite length_insert.
  - exists ids', m'. split_and?; [done..|]. intros x. rewrite Hx'. destruct (decide (x ∈ split)) as [Hin|Hin].
    + rewrite decide_True by by apply list_elem_of_further. done.
    + destruct (decide (x = y)) as [->|].
      * rewrite list_lookup_insert_eq by lia. by rewrite decide_True by apply list_elem_of_here.
      * rewrite list_lookup_insert_ne by lia. rewrite decide_False; [done|]. rewrite elem_of_cons. tauto.
Qed.

Lemma retain_unsplit_elem m split l x : marks m split → x ∈ retain_unsplit m l ↔ x ∈ l ∧ x ∉ split.
Proof. intros [_ Hm]. unfold retain_unsplit. rewrite list_elem_of_filter, Hm. tauto. Qed.

Lemma retain_perm m split ids l :
  marks m split → NoDup l → split_of ids l split → l ≡ₚ retain_unsplit m l ++ split.
Proof.
  intros Hm Hnd (Hnds & Hsub & _). apply NoDup_Permutation.
  - done.
  - apply NoDup_app. split_and?; [by apply NoDup_filter| |done].
    intros x Hx%(retain_unsplit_elem m split); [tauto|done].
  - intros x. rewrite elem_of_app, (retain_unsplit_elem m split) by done.
    destruct (decide (x ∈ split)); naive_solver.
Qed.

(** One group that splits: the partition stays one, refines the old one, and
    has less left to split. *)
Lemma split_group_ok {E} G1 l G2 ids m split :
  part_ok (G1 ++ l :: G2) ids → marks m split → split_of ids l split → split ≠ [] →
  (N.of_nat (length (G1 ++ l :: G2)) < U32)%N →
  ∃ ids' m', assign_group (E:=E) (as_u32 (length (G1 ++ retain_unsplit m l :: G2))) split ids m = Ok (ids', m') ∧
    marks m' [] ∧ part_ok ((G1 ++ retain_unsplit m l :: G2) ++ [split]) ids' ∧
    concat ((G1 ++ retain_unsplit m l :: G2) ++ [split]) ≡ₚ concat (G1 ++ l :: G2) ∧
    refines ((G1 ++ retain_unsplit m l :: G2) ++ [split]) (G1 ++ l :: G2) ∧
    S (slack ((G1 ++ retain_unsplit m l :: G2) ++ [split])) = slack (G1 ++ l :: G2) ∧
    ([] ∉ G1 ++ l :: G2 → [] ∉ (G1 ++ retain_unsplit m l :: G2) ++ [split]).
Proof.
  intros (Hnd & Hr & Hlen & Hids) Hm Hsplit Hne Hfit. set (K := retain_unsplit m l).
  rewrite concat_app in Hnd, Hr. cbn in Hnd, Hr.
  assert (NoDup l) as Hndl by (apply NoDup_app in Hnd as (_ & _ & Hnd); by apply NoDup_app in Hnd as (? & _ & _)).
  pose proof (retain_perm m split ids l Hm Hndl Hsplit) as Hperm. fold K in Hperm.
  destruct Hsplit as (Hnds & Hsub & Hiff).
  assert (concat ((G1 ++ K :: G2) ++ [split]) ≡ₚ concat (G1 ++ l :: G2)) as Hcat.
  { rewrite !concat_app. cbn. rewrite List.app_nil_r, Hperm.
    rewrite <- !(assoc_L (++)). apply Permutation_app_head, Permutation_app_head, Permutation_app_comm. }
  assert (in_range split) as Hrs.
  { intros x Hx. apply Hr. rewrite !elem_of_app. right. left. by apply Hsub. }
  destruct (assign_group_spec (E:=E) (as_u32 (length (G1 ++ K :: G2))) split ids m [])
    as (ids' & m' & Heq & Hm' & Hl' & Hx'); [by rewrite List.app_nil_r..|done|done|].
  exists ids', m'. split; [done|]. split; [done|].
  assert (K ≠ []) as HK.
  { destruct l as [|x l]; [destruct split as [|y split]; [done|]; exfalso;
      by specialize (Hsub y (list_elem_of_here _ _)); apply elem_of_nil in Hsub|].
    assert (x ∈ K) as HxK; [|by intros H0; rewrite H0 in HxK; apply elem_of_nil in HxK].
    unfold K. apply (retain_unsplit_elem m split); [done|]. split; [apply list_elem_of_here|].
    intros Hxs. apply (Hiff 0 x eq_refl) in Hxs as (j & ? & ? & _). lia. }
  assert (length (G1 ++ K :: G2) = length (G1 ++ l :: G2)) as HlG by (rewrite !length_app; done).
  assert ((G1 ++ l :: G2) !! length G1 = Some l) as Hgl by by apply list_lookup_middle.
  split; [split; [|split; [|split]]|split; [done|split; [|split]]].
  - rewrite Hcat, concat_app. done.
  - intros x. rewrite Hcat, concat_app. apply Hr.
  - done.
  - intros g k x Hk Hx. rewrite Hx'. destruct (decide (x ∈ split)) as [Hxs|Hxs].
    + assert (g = length (G1 ++ K :: G2)) as ->; [|by unfold as_u32; rewrite wrap_u32_small by lia].
      apply lookup_app_Some in Hk as [Hk|[? Hk]].
      * exfalso. destruct (decide (g = length G1)) as [->|Hg].
        -- rewrite lookup_app_r, Nat.sub_diag in Hk by lia. injection Hk as <-.
           apply (retain_unsplit_elem m split) in Hx as [_ ?]; done.
        -- assert ((G1 ++ l :: G2) !! g = Some k) as Hgk.
           { rewrite <- Hk. by apply lookup_app_ne. }
           pose proof (Hids _ _ _ Hgk Hx) as H1. pose proof (Hids _ _ _ Hgl (Hsub x Hxs)) as H2.
           rewrite H1 in H2. injection H2 as H2. lia.
      * destruct (g - length (G1 ++ K :: G2)) as [|j] eqn:Hj; [lia|done].
    + apply lookup_app_Some in Hk as [Hk|[? Hk]].
      * destruct (decide (g = length G1)) as [->|Hg].
        -- rewrite lookup_app_r, Nat.sub_diag in Hk by lia. injection Hk as <-.
           apply (retain_unsplit_elem m split) in Hx as [Hx _]; [|done]. by apply (Hids _ l).
        -- apply (Hids _ k); [|done]. rewrite <- Hk. by apply lookup_app_ne.
      * destruct (g - length (G1 ++ K :: G2)) as [|j]; [|done]. injection Hk as <-. done.
  - intros k Hk. rewrite !elem_of_app, elem_of_cons, list_elem_of_singleton in Hk.
    setoid_rewrite elem_of_app. setoid_rewrite elem_of_cons.
    destruct Hk as [[Hk|[->|Hk]]| ->]; [exists k; split; [by left|done]| |exists k; split; [auto|done]|].
    + exists l. split; [by right; left|]. intros x Hx. by apply (retain_unsplit_elem m split) in Hx as [??].
    + exists l. split; [by right; left|done].
  - apply Permutation_length in Hperm. rewrite length_app in Hperm. unfold slack.
    rewrite !sum_list_with_app. cbn. destruct K as [|x K]; [done|]. destruct split as [|y split]; [done|].
    cbn in *. lia.
  - rewrite !elem_of_app, !elem_of_cons, elem_of_nil. intros Hn [[?|[?|?]]|[?|?]]; [|by apply HK| |by apply Hne|done]; apply Hn; auto.
Qed.

Lemma refines_refl groups : refines groups groups.
Proof. intros l Hl. by exists l. Qed.
Lemma refines_trans g1 g2 g3 : refines g1 g2 → refines g2 g3 → refines g1 g3.
Proof.
  intros H1 H2 l (l' & Hl' & Hs)%H1. apply H2 in Hl' as (l'' & ? & ?). exists l''. split; [done|]. by etrans.
Qed.

Lemma in_range_group groups g l :
  in_range (concat groups) → groups !! g = Some l → in_range l.
Proof.
  intros Hr Hg x Hx. apply Hr. rewrite <- (take_drop_middle _ _ _ Hg), concat_app. cbn.
  rewrite !elem_of_app. auto.
Qed.

Lemma split_groups_loop_spec {E} n groups ids m g r :
  part_ok groups ids → marks m [] → (N.of_nat (length groups + slack groups) < U32)%N →
  length groups - g + slack groups ≤ n →
  ∃ groups' ids' r', split_groups_loop (E:=E) n groups ids m g r = Ok (groups', ids', r') ∧
    part_ok groups' ids' ∧ concat groups' ≡ₚ concat groups ∧ refines groups' groups ∧
    length groups' + slack groups' = length groups + slack groups ∧
    length groups ≤ length groups' ∧
    (∀ k, k < g → groups' !! k = groups !! k) ∧ ([] ∉ groups → [] ∉ groups') ∧
    (r' = false → r = false ∧ groups' = groups ∧ ids' = ids ∧
       ∀ k l, g ≤ k → groups !! k = Some l → stable_group ids l) ∧
    (r' = true → r = true ∨ length groups < length groups').
Proof.
  revert groups ids m g r. induction n as [|n IH]; intros groups ids m g r Hok Hm Hfit Hn;
    destruct (groups !! g) as [l|] eqn:Hg; cbn; rewrite Hg.
  1: apply lookup_lt_Some in Hg; lia.
  1,3: exists groups, ids, r; split; [done|]; split; [done|]; split; [done|]; split; [apply refines_refl|];
    split; [done|]; split; [done|]; split; [done|]; split; [done|]; split; [|by left]; intros ->; split_and?; try done;
    intros k l Hk Hl; apply lookup_ge_None in Hg; apply lookup_lt_Some in Hl; lia.
  pose proof Hok as (Hnd & Hr & Hlen & Hids). pose proof (in_range_group _ _ _ Hr Hg) as Hrl.
  assert (NoDup l) as Hndl.
  { rewrite <- (take_drop_middle _ _ _ Hg), concat_app in Hnd. cbn in Hnd.
    apply NoDup_app in Hnd as (_ & _ & Hnd). by apply NoDup_app in Hnd as (? & _ & _). }
  destruct (split_left_spec (E:=E) ids [] l m []) as (m1 & split & -> & Hm1 & Hsplit); [done|done|done|done|constructor| | |].
  { by intros x ?%elem_of_nil. }
  { intros i x Hx. rewrite elem_of_nil. split; [done|]. intros (j & y & _ & Hj & _). cbn in Hj. lia. }
  cbn [app] in Hsplit. cbn [mbind outcome_bind]. destruct split as [|s0 split].
  - destruct (IH groups ids m1 (S g) r) as (groups' & ids' & r' & Heq & H1 & H2 & H3 & H4 & H5 & Hk1 & Hk2 & H6 & H7); [done..| |].
    { apply lookup_lt_Some in Hg. lia. }
    exists groups', ids', r'. do 6 (split; [done|]). split; [intros; apply Hk1; lia|]. split; [done|]. split; [|done].
    intros ->. destruct (H6 eq_refl) as (-> & -> & -> & Hst). split_and?; [done..|].
    intros k l' Hk Hl'. destruct (decide (k = g)) as [->|]; [|apply (Hst k); [lia|done]].
    assert (l' = l) as -> by congruence. intros i j a b Hij Ha Hb Hc.
    destruct Hsplit as (_ & _ & Hiff). assert (b ∈ []) as Hbn; [|by apply elem_of_nil in Hbn].
    apply (Hiff j b Hb). exists i, a. split_and?; [done|done|by apply not_elem_of_nil|done].
  - pose proof (take_drop_middle _ _ _ Hg) as Hdec. set (G1 := take g groups) in *. set (G2 := drop (S g) groups) in *.
    assert (length G1 = g) as HG1 by (unfold G1; rewrite length_take; apply lookup_lt_Some in Hg; lia).
    rewrite <- Hdec, <- HG1, insert_mid.
    destruct (split_group_ok (E:=E) G1 l G2 ids m1 (s0 :: split)) as (ids2 & m2 & -> & Hm2 & Hok2 & Hcat & Href & Hsl & Hnil);
      [by rewrite Hdec|done|done|done|rewrite Hdec; lia|]. cbn [mbind outcome_bind].
    set (groups2 := (G1 ++ retain_unsplit m1 l :: G2) ++ [s0 :: split]) in *.
    assert (length groups2 = S (length groups)) as Hl2.
    { unfold groups2. rewrite <- Hdec, !length_app. cbn. lia. }
    rewrite Hdec in *.
    destruct (IH groups2 ids2 m2 (S (length G1)) true) as (groups' & ids' & r' & Heq & H1 & H2 & H3 & H4 & H5 & Hk1 & Hk2 & H6 & H7);
      [done|done|lia|lia|].
    exists groups', ids', r'. split; [done|]. split; [done|]. split; [by rewrite H2|].
    split; [by eapply refines_trans|]. split; [lia|]. split; [lia|]. split; [|split; [by intros ?%Hnil%Hk2|split]].
    + intros k Hk. rewrite Hk1 by lia. unfold groups2. rewrite <- Hdec.
      rewrite !lookup_app_l by (rewrite ?length_app; lia). done.
    + intros ->. by destruct (H6 eq_refl) as [? _].
    + intros _. right. lia.
Qed.

Lemma split_pass_spec {E} n groups ids start :
  part_ok groups ids → (N.of_nat (length groups + slack groups) < U32)%N →
  length groups + slack groups ≤ n →
  ∃ groups' ids' r, split_state_id_groups (E:=E) n groups ids start = Ok (groups', ids', r) ∧
    part_ok groups' ids' ∧ concat groups' ≡ₚ concat groups ∧ refines groups' groups ∧
    length groups' + slack groups' = length groups + slack groups ∧
    (∀ k, k < N.to_nat start → groups' !! k = groups !! k) ∧ ([] ∉ groups → [] ∉ groups') ∧
    (r = true → length groups < length groups') ∧
    (r = false → groups' = groups ∧ ids' = ids ∧
       ∀ k l, N.to_nat start ≤ k → groups !! k = Some l → stable_group ids l).
Proof.
  intros Hok Hfit Hn.
  destruct (split_groups_loop_spec (E:=E) n groups ids (replicate (length states) false) (N.to_nat start) false)
    as (groups' & ids' & r & Heq & H1 & H2 & H3 & H4 & H5 & Hk1 & Hk2 & H6 & H7); [done| |done|lia|].
  { split; [by rewrite length_replicate|]. intros x. rewrite lookup_replicate, elem_of_nil. split; [by intros [? _]|done]. }
  exists groups', ids', r. do 7 (split; [done|]). split.
  - intros Hr. by destruct (H7 Hr).
  - intros Hr. by destruct (H6 Hr) as (_ & ? & ? & ?).
Qed.

(** C27: one pass of [split_state_id_groups] over a partition of states ends
    without panicking and yields a partition of the same states that refines
    it, with [group_ids_by_state_id] kept in step.  It returns [true] only if
    the number of groups grew, and [false] only if nothing changed and no two
    states of a visited group are incompatible. *)
Theorem split_state_id_groups_correct (E : Type) (n : nat) (groups : list (list N)) (ids : list N) (start : N) :
  part_ok groups ids → (N.of_nat (length groups + slack groups) < U32)%N →
  length groups + slack groups ≤ n →
  ∃ groups' ids' r, split_state_id_groups (E:=E) n groups ids start = Ok (groups', ids', r) ∧
    part_ok groups' ids' ∧ concat groups' ≡ₚ concat groups ∧ refines groups' groups ∧
    (r = true → length groups < length groups') ∧
    (r = false → groups' = groups ∧ ids' = ids ∧
       ∀ k l, N.to_nat start ≤ k → groups !! k = Some l → stable_group ids l).
Proof.
  intros Hok Hfit Hn. destruct (split_pass_spec (E:=E) n groups ids start Hok Hfit Hn)
    as (groups' & ids' & r & ? & ? & ? & ? & _ & _ & _ & ? & ?). by exists groups', ids', r.
Qed.

(** Repeated until it returns [false], the pass ends, and in the partition it
    ends with no two states of a group (from the start group on) are
    incompatible. *)
Lemma split_until_stable_spec {E} k n groups ids start :
  part_ok groups ids → (N.of_nat (length groups + slack groups) < U32)%N →
  length groups + slack groups ≤ n → slack groups < k →
  ∃ groups' ids', split_until_stable (E:=E) k n groups ids start = Ok (groups', ids') ∧
    part_ok groups' ids' ∧ concat groups' ≡ₚ concat groups ∧ refines groups' groups ∧
    (∀ k, k < N.to_nat start → groups' !! k = groups !! k) ∧ ([] ∉ groups → [] ∉ groups') ∧
    (∀ g l, N.to_nat start ≤ g → groups' !! g = Some l → stable_group ids' l) ∧
    length groups' + slack groups' = length groups + slack groups.
Proof.
  revert groups ids. induction k as [|k IH]; intros groups ids Hok Hfit Hn Hk; [lia|]. cbn.
  destruct (split_pass_spec (E:=E) n groups ids start Hok Hfit Hn)
    as (groups' & ids' & r & -> & Hok' & Hcat & Href & Hsum & Hlt & Hnil & Ht & Hf). cbn. destruct r.
  - specialize (Ht eq_refl). destruct (IH groups' ids' Hok') as (g2 & i2 & H1 & H2 & H3 & H4 & H5 & H6 & H7 & H8); [lia|lia|lia|].
    exists g2, i2. split_and?; [done|done|by etrans|by eapply refines_trans| |by auto|done|lia].
    intros j Hj. rewrite H5, Hlt by done. done.
  - destruct (Hf eq_refl) as (-> & -> & Hst). exists groups, ids. by split_and?.
Qed.
(** ** Invariants of a pass
    [I g groups ids] is to hold when the pass has visited the groups below [g]. *)
Section invariant.
Context (I : nat → list (list N) → list N → Prop).
Context (I_keep : ∀ g groups ids l, part_ok groups ids → groups !! g = Some l → split_of ids l [] → I g groups ids → I (S g) groups ids).
Context (I_split : ∀ G1 l G2 ids m split ids', let groups' := (G1 ++ retain_unsplit m l :: G2) ++ [split] in
  part_ok (G1 ++ l :: G2) ids → marks m split → split_of ids l split → split ≠ [] → part_ok groups' ids' →
  concat groups' ≡ₚ concat (G1 ++ l :: G2) → I (length G1) (G1 ++ l :: G2) ids → I (S (length G1)) groups' ids').

Lemma split_groups_loop_inv {E} n : ∀ groups ids m g r groups' ids' r',
  part_ok groups ids → marks m [] → (N.of_nat (length groups + slack groups) < U32)%N → I g groups ids →
  split_groups_loop (E:=E) n groups ids m g r = Ok (groups', ids', r') → ∃ g', length groups' ≤ g' ∧ I g' groups' ids'.
Proof.
  induction n as [|n IH]; intros groups ids m g r groups' ids' r' Hok Hm Hfit HI; cbn;
    (destruct (groups !! g) as [l|] eqn:Hg; [|intros [= <- <- _]; exists g; by apply lookup_ge_None_1 in Hg]); [done|].
  pose proof Hok as (Hnd & Hr & Hlen & Hids). pose proof (in_range_group _ _ _ Hr Hg) as Hrl.
  assert (NoDup l) as Hndl.
  { rewrite <- (take_drop_middle _ _ _ Hg), concat_app in Hnd. cbn in Hnd.
    apply NoDup_app in Hnd as (_ & _ & Hnd). by apply NoDup_app in Hnd as (? & _ & _). }
  destruct (split_left_spec (E:=E) ids [] l m []) as (m1 & split & -> & Hm1 & Hsplit); [done|done|done|done|constructor| | |].
  { by intros x ?%elem_of_nil. }
  { intros i x Hx. rewrite elem_of_nil. split; [done|]. intros (j & y & _ & Hj & _). cbn in Hj. lia. }
  cbn [app] in Hsplit. cbn [mbind outcome_bind]. destruct split as [|s0 split]; [apply IH; by eauto|].
  pose proof (take_drop_middle _ _ _ Hg) as Hdec. set (G1 := take g groups) in *. set (G2 := drop (S g) groups) in *.
  assert (length G1 = g) as HG1 by (unfold G1; rewrite length_take; apply lookup_lt_Some in Hg; lia).
  rewrite <- Hdec, <- HG1, insert_mid.
  destruct (split_group_ok (E:=E) G1 l G2 ids m1 (s0 :: split)) as (ids2 & m2 & -> & Hm2 & Hok2 & Hcat & Href & Hsl & Hnil);
    [by rewrite Hdec|done|done|done|rewrite Hdec; lia|]. cbn [mbind outcome_bind].
  assert (length ((G1 ++ retain_unsplit m1 l :: G2) ++ [s0 :: split]) = S (length groups)) as Hl2.
  { rewrite <- Hdec, !length_app. cbn. lia. }
  apply IH; [done|done|rewrite Hl2; rewrite Hdec in Hsl; lia|]. eapply I_split; [by rewrite Hdec|done|done|done|done|done|].
  rewrite Hdec, HG1. exact HI.
Qed.
Lemma split_pass_inv {E} n groups ids start groups' ids' r :
  part_ok groups ids → (N.of_nat (length groups + slack groups) < U32)%N → I (N.to_nat start) groups ids →
  split_state_id_groups (E:=E) n groups ids start = Ok (groups', ids', r) → ∃ g', length groups' ≤ g' ∧ I g' groups' ids'.
Proof.
  intros Hok Hfit HI Hs. eapply split_groups_loop_inv; [done| |done|exact HI|exact Hs].
  split; [by rewrite length_replicate|]. intros x. rewrite lookup_replicate, elem_of_nil. split; [by intros [? _]|done].
Qed.
End invariant.
(** A group before a pass and the group of the same index after visiting group
    [length G1]. *)
Lemma split_lookup {A} (G1 : list A) l K G2 split i k : ((G1 ++ K :: G2) ++ [split]) !! i = Some k →
  i = length G1 ∧ k = K ∨ i ≠ length G1 ∧ (G1 ++ l :: G2) !! i = Some k ∨ i = length (G1 ++ l :: G2) ∧ k = split.
Proof.
  intros Hk. apply lookup_app_Some in Hk as [Hk|[Hi Hk]].
  - destruct (decide (i = length G1)) as [->|Hne].
    + left. rewrite lookup_mid in Hk. by injection Hk as <-.
    + right. left. split; [done|]. by rewrite (lookup_app_ne G1 G2 l K).
  - right. right. apply list_lookup_singleton_Some in Hk as [Hz <-]. split; [|done]. rewrite !length_app in *. cbn in *. lia.
Qed.

(** The first state of a group stays the first of the group. *)
Definition heads_kept (groups groups' : list (list N)) : Prop :=
  ∀ k x l, groups !! k = Some (x :: l) → ∃ l', groups' !! k = Some (x :: l').
Lemma heads_kept_trans g1 g2 g3 : heads_kept g1 g2 → heads_kept g2 g3 → heads_kept g1 g3.
Proof. intros H1 H2 k x l Hk. destruct (H1 k x l Hk) as [l' Hl']. by eapply H2. Qed.
Lemma split_pass_heads {E} n groups ids start groups' ids' r :
  part_ok groups ids → (N.of_nat (length groups + slack groups) < U32)%N →
  split_state_id_groups (E:=E) n groups ids start = Ok (groups', ids', r) → heads_kept groups groups'.
Proof.
  intros Hok Hfit Hs. destruct (split_pass_inv (λ _ gs _, heads_kept groups gs)) with (3 := Hok) (6 := Hs) as (g' & _ & Hg'); [done| |done| |done].
  - intros G1 l G2 js m split js' groups2 _ Hm (_ & _ & Hiff) _ _ _ HI k x k0 Hk. destruct (HI k x k0 Hk) as [l' Hl'].
    unfold groups2. pose proof (lookup_lt_Some _ _ _ Hl') as Hlt. rewrite lookup_app_l by (rewrite length_app in *; cbn in *; lia).
    destruct (decide (k = length G1)) as [->|Hne]; [|exists l'; by rewrite (lookup_app_ne G1 G2 (retain_unsplit m l) l)].
    rewrite lookup_mid in Hl' |- *. injection Hl' as ->. unfold retain_unsplit. rewrite filter_cons, decide_True; [by eexists|].
    destruct Hm as [_ Hm]. rewrite Hm, (Hiff 0 x eq_refl). intros (j & y & Hj & _). lia.
  - intros k x l Hk. by exists l.
Qed.
Lemma split_until_stable_heads {E} k n start : ∀ groups ids groups' ids',
  part_ok groups ids → (N.of_nat (length groups + slack groups) < U32)%N → length groups + slack groups ≤ n →
  split_until_stable (E:=E) k n groups ids start = Ok (groups', ids') → heads_kept groups groups'.
Proof.
  induction k as [|k IH]; intros groups ids groups' ids' Hok Hfit Hn; [done|]. cbn.
  destruct (split_pass_spec (E:=E) n groups ids start Hok Hfit Hn) as (g1 & i1 & r & Heq & Hok1 & _ & _ & Hsum & _).
  rewrite Heq. cbn [mbind outcome_bind]. pose proof (split_pass_heads n groups ids start g1 i1 r Hok Hfit Heq) as Hh.
  destruct r; [|by intros [= <- _]]. intros Hs. eapply heads_kept_trans; [exact Hh|]. eapply IH; [done|lia|lia|exact Hs].
Qed.

(** ** What one pass establishes
    When a pass is done, any two states of a group were compared at some moment of
    the pass and were not to be split. *)
Section pairs.
Context (P : N → N → Prop) (P_sym : ∀ a b, P a b → P b a).
Context (P_clash : ∀ a b ids, length ids = length states → in_range [a; b] → ¬ clash ids a b → P a b).
Definition pairwise (l : list N) : Prop := ∀ a b, a ∈ l → b ∈ l → a ≠ b → P a b.

Lemma split_of_pairs ids l split : length ids = length states → in_range l → split_of ids l split →
  ∀ a b, a ∈ l → b ∈ l → a ∉ split → b ∉ split → a ≠ b → P a b.
Proof.
  intros Hlen Hr (_ & _ & Hiff) a b Ha Hb Has Hbs Hne.
  apply list_elem_of_lookup in Ha as [i Hi]. apply list_elem_of_lookup in Hb as [j Hj].
  assert (∀ i j x y, i < j → l !! i = Some x → l !! j = Some y → x ∉ split → y ∉ split → P x y) as Hgen.
  { intros i' j' x y Hij Hx Hy Hxs Hys. apply (P_clash x y ids Hlen).
    - intros z [->|[->|?%elem_of_nil]%elem_of_cons]%elem_of_cons; [| |done]; by eapply Hr, list_elem_of_lookup_2.
    - intros Hc. apply Hys, (Hiff j' y Hy). by exists i', x. }
  destruct (Nat.lt_trichotomy i j) as [Hlt|[->|Hgt]]; [by eapply (Hgen i j)|congruence|]. by eapply P_sym, (Hgen j i).
Qed.
Lemma split_pass_pairs {E} n groups ids groups' ids' r :
  part_ok groups ids → (N.of_nat (length groups + slack groups) < U32)%N →
  split_state_id_groups (E:=E) n groups ids 0 = Ok (groups', ids', r) → ∀ l, l ∈ groups' → pairwise l.
Proof.
  intros Hok Hfit Hs. destruct (split_pass_inv (λ g gs _, ∀ i l, i < g → gs !! i = Some l → pairwise l)) with (3 := Hok) (6 := Hs) as (g' & Hg' & HI).
  - intros g gs js l (_ & Hr & Hlen & _) Hg Hsplit HI i k Hi Hk. destruct (decide (i = g)) as [->|]; [|apply (HI i k); [lia|done]].
    rewrite Hg in Hk. injection Hk as <-. intros a b Ha Hb.
    by apply (split_of_pairs js l [] Hlen (in_range_group _ _ _ Hr Hg) Hsplit); [..|apply not_elem_of_nil|apply not_elem_of_nil].
  - intros G1 l G2 js m split js' groups2 (_ & Hr & Hlen & _) Hm Hsplit _ _ _ HI i k Hi Hk.
    apply (split_lookup G1 l) in Hk as [[-> ->]|[[Hne Hk]|[-> _]]]; [|apply (HI i k); [lia|done]|rewrite length_app in Hi; cbn in Hi; lia].
    intros a b. rewrite !(retain_unsplit_elem m split) by done. intros [? ?] [? ?].
    apply (split_of_pairs js l split Hlen) ; try done. eapply in_range_group; [exact Hr|]. apply lookup_mid.
  - done.
  - intros i l Hi. cbn in Hi. lia.
  - intros l [i Hi]%list_elem_of_lookup. apply (HI i); [|done]. apply lookup_lt_Some in Hi. lia.
Qed.
Lemma pairwise_refines groups groups' : refines groups' groups → (∀ l, l ∈ groups → pairwise l) → ∀ l, l ∈ groups' → pairwise l.
Proof. intros Hr Hp l Hl a b Ha Hb. destruct (Hr l Hl) as (k & Hk & Hsub). apply (Hp k Hk); by apply Hsub. Qed.
End pairs.

(** ** The refinement never separates indistinguishable states *)
Section together.
Context (R : N → N → Prop) (R_sym : ∀ a b, R a b → R b a).
Context (split_irrefl : ∀ s ids, should_split Empty_set s s ids ≠ Ok true)
  (split_sym : ∀ s s' ids, should_split Empty_set s s' ids = Ok true → should_split Empty_set s' s ids = Ok true).

(** Related states are in the same group. *)
Definition together (groups : list (list N)) : Prop :=
  ∀ a b l, R a b → l ∈ groups → a ∈ l → b ∈ l.
Context (all : list N).
Context (R_clash : ∀ groups ids, part_ok groups ids → concat groups ≡ₚ all → together groups →
  ∀ a b y, R a b → clash ids y a → clash ids y b).

Lemma split_of_together groups ids l split a b :
  part_ok groups ids → concat groups ≡ₚ all → together groups → l ∈ groups → split_of ids l split → R a b → a ∈ split → b ∈ split.
Proof.
  intros Hok Hall Ht Hl (_ & Hsub & Hiff) HR Ha. pose proof (Hsub a Ha) as Hal. pose proof (Ht a b l HR Hl Hal) as Hbl.
  apply list_elem_of_lookup in Hal as [i Hi]. apply list_elem_of_lookup in Hbl as [j Hj].
  destruct (proj1 (Hiff i a Hi) Ha) as (k & y & Hki & Hy & Hns & Hc). pose proof (R_clash _ _ Hok Hall Ht a b y HR Hc) as Hcb.
  destruct (Nat.lt_trichotomy k j) as [Hlt|[->|Hgt]].
  - apply (Hiff j b Hj). by exists k, y.
  - rewrite Hj in Hy. injection Hy as <-. destruct Hcb as (s1 & s2 & H1 & H2 & H3). rewrite H1 in H2. injection H2 as <-.
    by apply split_irrefl in H3.
  - destruct (decide (b ∈ split)) as [|Hb]; [done|]. exfalso. apply Hns, (Hiff k y Hy). exists j, b.
    split; [done|]. split; [done|]. split; [done|]. destruct Hcb as (s1 & s2 & H1 & H2 & H3). exists s2, s1.
    split_and!; [done|done|by apply split_sym].
Qed.

Lemma split_pass_together {E} n groups ids start groups' ids' r :
  part_ok groups ids → concat groups ≡ₚ all → (N.of_nat (length groups + slack groups) < U32)%N →
  together groups → split_state_id_groups (E:=E) n groups ids start = Ok (groups', ids', r) → together groups'.
Proof.
  intros Hok Hall Hfit Ht Hs.
  destruct (split_pass_inv (λ _ gs _, concat gs ≡ₚ all ∧ together gs)) with (3 := Hok) (6 := Hs) as (g' & _ & _ & Hg'); [done| |done|done|done].
  clear Hok Hall Ht. intros G1 l G2 js m split js' groups2 Hok Hm Hsplit _ _ Hcat [Hall Ht]. split; [by rewrite Hcat|].
  assert (l ∈ G1 ++ l :: G2) as Hl by (apply elem_of_app; right; apply list_elem_of_here).
  assert (∀ a b, R a b → a ∈ split → b ∈ split) as Hst by (intros a b; by eapply split_of_together).
  intros a b k HR [i Hk]%list_elem_of_lookup Ha. apply (split_lookup G1 l) in Hk as [[-> ->]|[[Hne Hk]|[-> ->]]].
  - apply (retain_unsplit_elem m split) in Ha as [Ha Hns]; [|done]. apply (retain_unsplit_elem m split); [done|].
    split; [by eapply Ht|]. intros Hb. by apply Hns, (Hst b a); [apply R_sym|].
  - apply (Ht a b k HR); [|done]. by eapply list_elem_of_lookup_2.
  - by apply (Hst a b).
Qed.

Lemma split_until_stable_together {E} k n start : ∀ groups ids groups' ids',
  part_ok groups ids → concat groups ≡ₚ all → (N.of_nat (length groups + slack groups) < U32)%N →
  length groups + slack groups ≤ n → together groups → split_until_stable (E:=E) k n groups ids start = Ok (groups', ids') → together groups'.
Proof.
  induction k as [|k IH]; intros groups ids groups' ids' Hok Hall Hfit Hn Ht; [done|]. cbn.
  destruct (split_pass_spec (E:=E) n groups ids start Hok Hfit Hn)
    as (g1 & i1 & r & Heq & Hok1 & Hcat & _ & Hsum & _). rewrite Heq. cbn [mbind outcome_bind].
  pose proof (split_pass_together n groups ids start g1 i1 r Hok Hall Hfit Ht Heq) as Ht1.
  destruct r; [|by intros [= <- _]]. apply IH; [done|by rewrite Hcat|lia|lia|done].
Qed.
End together.
End dedup.

(** ** Witnesses *)

(** States are numbers; two of them clash when they are in different groups
    modulo 3. *)
Definition example_states : list N := [0; 1; 2; 3; 4; 5]%N.
Definition example_split (E : Type) (a b : N) (_ : list N) : outcome E bool := Ok (negb (a mod 3 =? b mod 3)%N).
Definition example_groups : list (list N) := [[0; 1; 2; 3; 4]; [5]]%N.
Definition example_ids : list N := [0; 0; 0; 0; 0; 1]%N.

Example split_example :
  split_until_stable (E:=Empty_set) example_states example_split 4 6 example_groups example_ids 0 =
    Ok ([[0; 3]; [5]; [1; 4]; [2]]%N, [0; 2; 3; 0; 2; 1]%N).
Proof. vm_compute. reflexivity. Qed.

Lemma example_part_ok : part_ok example_states example_groups example_ids.
Proof.
  split; [|split; [|split; [done|]]].
  - apply (bool_decide_unpack _). vm_compute. exact I.
  - intros x Hx. rewrite list_elem_of_In in Hx. cbn in Hx. unfold example_states. cbn [length].
    repeat (destruct Hx as [<-|Hx]; [lia|]). done.
  - intros [|[|g]] l x Hg Hx; [| |done]; injection Hg as <-; rewrite list_elem_of_In in Hx; cbn in Hx;
      repeat (destruct Hx as [<-|Hx]; [done|]); done.
Qed.

Lemma split_state_id_groups_correct_witness :
  ∃ groups' ids' r,
    split_state_id_groups (E:=Empty_set) example_states example_split 6 example_groups example_ids 0 = Ok (groups', ids', r) ∧
    part_ok example_states groups' ids' ∧ concat groups' ≡ₚ concat example_groups ∧ refines groups' example_groups ∧
    (r = true → length example_groups < length groups') ∧
    (r = false → groups' = example_groups ∧ ids' = example_ids ∧
       ∀ k l, N.to_nat 0 ≤ k → example_groups !! k = Some l → stable_group example_states example_split example_ids l).
Proof.
  apply split_state_id_groups_correct; [intros a b ids _ _ _; by eexists|exact example_part_ok|reflexivity|cbn; lia].
Defined.
