(* ===== verification/Grammars.v ===== *)
(** * [crates/generate/src/grammars.rs]: the grammar data structures

    A production step is packed into integers: [ProductionStep] and its
    accessors are translated with their masks, and the packing is shown to lose
    nothing.  The pooled productions and the map from NFA states to lexical
    variables follow. *)
From S2P Require Import Prelude Symbols StrPool TokenSet Nfa Rules.

(** Input grammar. *)
Record Variable_ := mkVariable { var_name : StrId; var_root : RuleId }.

Inductive PrecedenceEntry := PEName (n : StrId) | PESymbol (n : StrId).
#[global] Instance PrecedenceEntry_eq_dec : EqDecision PrecedenceEntry.
Proof. solve_decision. Defined.
#[global] Instance PrecedenceEntry_countable : Countable PrecedenceEntry.
Proof.
  apply (inj_countable' (λ e, match e with PEName n => (true, n) | PESymbol n => (false, n) end)
                        (λ '(b, n), if b : bool then PEName n else PESymbol n)).
  by intros [].
Defined.

Record ReservedWordContext := mkReservedWordContext { ctx_name : StrId; ctx_roots : list RuleId }.

Record InputGrammar (H : Type) := mkInputGrammar {
  pool : RulePool H;
  grammar_name : StrId;
  variables : list Variable_;
  external_roots : list RuleId;
  extra_roots : list RuleId;
  reserved_sets : list ReservedWordContext;
  supertype_names : list StrId;
  conflict_names : list (list StrId);
  inline_names : list StrId;
  word_name : option StrId;
  precedence_orderings : list (list PrecedenceEntry);
}.
Arguments mkInputGrammar {H}.
Arguments pool {H}.
Arguments grammar_name {H}.
Arguments variables {H}.
Arguments external_roots {H}.
Arguments extra_roots {H}.
Arguments reserved_sets {H}.
Arguments supertype_names {H}.
Arguments conflict_names {H}.
Arguments inline_names {H}.
Arguments word_name {H}.
Arguments precedence_orderings {H}.

(** Lexical grammar. *)
Record LexicalVariable := mkLexicalVariable {
  lv_name : StrId;
  lv_kind : VariableType;
  implicit_precedence : Z;
  start_state : N;
}.
Record LexicalGrammar := mkLexicalGrammar { lg_nfa : list NfaState; lg_variables : list LexicalVariable }.

(** [slice::partition_point]. *)
Definition partition_point {A} (pred : A → bool) (l : list A) : nat :=
  match binary_search_by (λ x, if pred x then Lt else Gt) l with inl i | inr i => i end.

Definition variable_index_for_nfa_state (g : LexicalGrammar) (state_id : N) : nat :=
  partition_point (λ v, (start_state v <? state_id)%N) (lg_variables g).

Fixpoint variable_indices_loop (g : LexicalGrammar) (prev : option nat) (state_ids : list N) : list nat :=
  match state_ids with
  | [] => []
  | state_id :: state_ids =>
      let variable_id := variable_index_for_nfa_state g state_id in
      if bool_decide (prev = Some variable_id) then variable_indices_loop g prev state_ids
      else variable_id :: variable_indices_loop g (Some variable_id) state_ids
  end.
Definition variable_indices_for_nfa_states (g : LexicalGrammar) (state_ids : list N) : list nat :=
  variable_indices_loop g None state_ids.

Definition is_visible (k : VariableType) : bool := bool_decide (k = Named) || bool_decide (k = Anonymous).

(** ** Packed production steps: [prec_val] is an [i32], [flags] a [u8]. *)
Record ProductionStep := mkStep {
  sym_index : N;
  prec_val : Z;
  step_alias : N;
  step_field : N;
  step_reserved : N;
  flags : N;
}.
#[global] Instance ProductionStep_eq_dec : EqDecision ProductionStep.
Proof. solve_decision. Defined.

Definition KIND_MASK : N := 7.
Definition PREC_INTEGER : N := 8.
Definition PREC_NAME : N := 16.
Definition PREC_MASK : N := 24.
Definition ASSOC_LEFT : N := 32.
Definition ASSOC_RIGHT : N := 64.
Definition ASSOC_MASK : N := 96.
Definition ALIAS_NAMED : N := 128.
Definition NO_RESERVED_WORDS : N := 65535.

(** [!mask] on [u8]. *)
Definition not_u8 (m : N) : N := N.lxor m 255.
(** The casts between [u32] and [i32]. *)
Definition u32_as_i32 (n : N) : Z := if (n <? 2147483648)%N then Z.of_N n else (Z.of_N n - 4294967296)%Z.
Definition i32_as_u32 (z : Z) : N := Z.to_N (z mod 4294967296)%Z.

(** [StrId::from_raw]: panics on 0. *)
Definition from_raw {E} (raw : N) : outcome E StrId := if (raw =? 0)%N then Panic else Ok raw.

Definition step_symbol (s : ProductionStep) : Symbol :=
  mkSymbol (match N.land (flags s) KIND_MASK with
            | 0 => External
            | 1 => End
            | 2 => EndOfNonTerminalExtra
            | 3 => Terminal
            | _ => NonTerminal
            end%N) (sym_index s).
Definition step_precedence {E} (s : ProductionStep) : outcome E Precedence :=
  let t := N.land (flags s) PREC_MASK in
  if (t =? PREC_INTEGER)%N then Ok (PInteger (prec_val s))
  else if (t =? PREC_NAME)%N then id ← from_raw (i32_as_u32 (prec_val s)); Ok (PName id)
  else Ok PNone.
Definition set_precedence (s : ProductionStep) (p : Precedence) : ProductionStep :=
  let '(bits, val) :=
    match p with
    | PNone => (0%N, 0%Z)
    | PInteger n => (PREC_INTEGER, n)
    | PName sid => (PREC_NAME, u32_as_i32 sid)
    end in
  mkStep (sym_index s) val (step_alias s) (step_field s) (step_reserved s)
    (N.lor (N.land (flags s) (not_u8 PREC_MASK)) bits).
Definition step_associativity (s : ProductionStep) : option Associativity :=
  let t := N.land (flags s) ASSOC_MASK in
  if (t =? ASSOC_LEFT)%N then Some Left else if (t =? ASSOC_RIGHT)%N then Some Right else None.
Definition set_associativity (s : ProductionStep) (a : option Associativity) : ProductionStep :=
  let bits := match a with None => 0%N | Some Left => ASSOC_LEFT | Some Right => ASSOC_RIGHT end in
  mkStep (sym_index s) (prec_val s) (step_alias s) (step_field s) (step_reserved s)
    (N.lor (N.land (flags s) (not_u8 ASSOC_MASK)) bits).
Definition step_get_alias {E} (s : ProductionStep) : outcome E (option Alias) :=
  if negb (step_alias s =? 0)%N
  then v ← from_raw (step_alias s); Ok (Some (mkAlias v (negb (N.land (flags s) ALIAS_NAMED =? 0)%N)))
  else Ok None.
Definition set_alias_named (s : ProductionStep) (named : bool) : ProductionStep :=
  mkStep (sym_index s) (prec_val s) (step_alias s) (step_field s) (step_reserved s)
    (N.lor (N.land (flags s) (not_u8 ALIAS_NAMED)) (if named then ALIAS_NAMED else 0%N)).
Definition set_alias (s : ProductionStep) (a : option Alias) : ProductionStep :=
  set_alias_named
    (mkStep (sym_index s) (prec_val s) (match a with Some a => value a | None => 0%N end) (step_field s)
       (step_reserved s) (flags s))
    (match a with Some a => is_named a | None => false end).
Definition step_get_field {E} (s : ProductionStep) : outcome E (option StrId) :=
  if negb (step_field s =? 0)%N then f ← from_raw (step_field s); Ok (Some f) else Ok None.
Definition set_field (s : ProductionStep) (f : option StrId) : ProductionStep :=
  mkStep (sym_index s) (prec_val s) (step_alias s) (match f with Some f => f | None => 0%N end)
    (step_reserved s) (flags s).

Definition pack (symbol : Symbol) (prec : Precedence) (assoc : option Associativity)
    (alias : option Alias) (field : option StrId) (reserved : N) : ProductionStep :=
  let step := mkStep (index symbol) 0 0 0 reserved (kind_code (kind symbol)) in
  set_field (set_alias (set_associativity (set_precedence step prec) assoc) alias) field.

(** [node_types::ChildType] and [ProductionStep::child_type]; [AliasMap] is a
    [BTreeMap]. *)
Inductive ChildType := CTNormal (s : Symbol) | CTAliased (a : Alias).
Notation AliasMap := (gmap Symbol Alias) (only parsing).
Definition child_type {E} (s : ProductionStep) (default_aliases : AliasMap) : outcome E ChildType :=
  a ← step_get_alias s;
  Ok (match a with
      | Some a => CTAliased a
      | None => match default_aliases !! step_symbol s with
                | Some a => CTAliased a
                | None => CTNormal (step_symbol s)
                end
      end).

(** ** Productions *)
Record Production := mkProduction {
  steps_start : N;
  steps_len : N;
  prod_dynamic_precedence : Z;
  requires_eof_lookahead : bool;
}.
Definition step_range (p : Production) : nat * nat :=
  (N.to_nat (steps_start p), N.to_nat (wrap_u32 (steps_start p + steps_len p))).

Record ProductionStore := mkStore {
  st_steps : list ProductionStep;
  st_productions : list Production;
  st_var_prods : list (N * N);
}.

Record SyntaxVariable := mkSyntaxVariable { sv_name : StrId; sv_kind : VariableType }.
Record ExternalToken := mkExternalToken {
  et_name : StrId;
  et_kind : VariableType;
  corresponding_internal_token : option Symbol;
}.
Record SyntaxGrammar := mkSyntaxGrammar {
  sg_variables : list SyntaxVariable;
  extra_symbols : list Symbol;
  expected_conflicts : list (list Symbol);
  external_tokens : list ExternalToken;
  supertype_symbols : list Symbol;
  variables_to_inline : list Symbol;
  word_token : option Symbol;
  sg_precedence_orderings : list (list PrecedenceEntry);
  reserved_word_sets : list TokenSet;
  sg_steps : list ProductionStep;
  sg_productions : list Production;
  sg_var_prods : list (N * N);
}.

Record ProdRef := mkProdRef {
  pr_steps : list ProductionStep;
  pr_dynamic_precedence : Z;
  pr_requires_eof_lookahead : bool;
}.

(** [&v[a..b]]. *)
Definition slice {E A} (l : list A) (a b : nat) : outcome E (list A) :=
  if ((a <=? b) && (b <=? length l))%nat then Ok (take (b - a) (drop a l)) else Panic.

Definition production {E} (g : SyntaxGrammar) (id : N) : outcome E ProdRef :=
  p ← vec_get (sg_productions g) (N.to_nat id);
  let '(a, b) := step_range p in
  steps ← slice (sg_steps g) a b;
  Ok (mkProdRef steps (prod_dynamic_precedence p) (requires_eof_lookahead p)).
(** The half-open range of ids. *)
Definition variable_prod_ids {E} (g : SyntaxGrammar) (variable_index : nat) : outcome E (N * N) :=
  vec_get (sg_var_prods g) variable_index.
(** The half-open range of production ids. *)
Definition prod_range (r : N * N) : list N := map N.of_nat (List.seq (N.to_nat r.1) (N.to_nat r.2 - N.to_nat r.1)).
Definition first_symbol (p : ProdRef) : option Symbol := step_symbol <$> head (pr_steps p).
Definition is_auxiliary (v : SyntaxVariable) : bool := bool_decide (sv_kind v = Auxiliary).
Definition is_hidden (v : SyntaxVariable) : bool :=
  bool_decide (sv_kind v = Hidden) || bool_decide (sv_kind v = Auxiliary).

Notation InlinedProductionMap := (gmap (N * N) (list N)) (only parsing).
Definition inlined_prod_ids (m : InlinedProductionMap) (prod_id step_index : N) : option (list N) :=
  m !! (prod_id, step_index).

(** ** Packing loses nothing *)
Lemma u32_i32_round n : (n < U32)%N → i32_as_u32 (u32_as_i32 n) = n.
Proof.
  unfold U32, i32_as_u32, u32_as_i32. intros Hn. case N.ltb_spec; intros.
  - rewrite Z.mod_small by lia. lia.
  - replace (Z.of_N n - 4294967296)%Z with (Z.of_N n + (-1) * 4294967296)%Z by lia.
    rewrite Z.mod_add, Z.mod_small by lia. lia.
Qed.

(** A [StrId] is a non-zero [u32]. *)
Definition str_id_ok (s : StrId) : Prop := (0 < s)%N ∧ (s < U32)%N.
Definition prec_ok (p : Precedence) : Prop := match p with PName s => str_id_ok s | _ => True end.
Definition opt_ok {A} (P : A → Prop) (o : option A) : Prop := match o with Some a => P a | None => True end.

Lemma from_raw_ok {E} s : str_id_ok s → from_raw (E:=E) s = Ok s.
Proof. intros [? _]. unfold from_raw. case N.eqb_spec; [lia|done]. Qed.

(** What the accessors say about a step. *)
Definition views {E} (s : ProductionStep) :=
  (step_symbol s, step_precedence (E:=E) s, step_associativity s, step_get_alias (E:=E) s,
   step_get_field (E:=E) s, step_reserved s).

(** The masks do not overlap: on all 256 flag bytes, clearing one field and
    setting its bits leaves the other fields. *)
Definition other_masks_kept (mask bits f : N) : bool :=
  let f' := N.lor (N.land f (not_u8 mask)) bits in
  forallb (λ m, (m =? mask)%N || (N.land f' m =? N.land f m)%N) [KIND_MASK; PREC_MASK; ASSOC_MASK; ALIAS_NAMED]
  && (N.land f' mask =? bits)%N && (f' <? 256)%N.
Lemma masks_checked :
  forallb (λ f, forallb (λ '(mask, bits), other_masks_kept mask bits (N.of_nat f))
    [(PREC_MASK, 0); (PREC_MASK, PREC_INTEGER); (PREC_MASK, PREC_NAME); (ASSOC_MASK, 0);
     (ASSOC_MASK, ASSOC_LEFT); (ASSOC_MASK, ASSOC_RIGHT); (ALIAS_NAMED, 0); (ALIAS_NAMED, ALIAS_NAMED)]%N)
    (List.seq 0 256) = true.
Proof. vm_compute. reflexivity. Qed.
Lemma masks_kept mask bits f :
  (f < 256)%N →
  (mask, bits) ∈ [(PREC_MASK, 0); (PREC_MASK, PREC_INTEGER); (PREC_MASK, PREC_NAME); (ASSOC_MASK, 0);
     (ASSOC_MASK, ASSOC_LEFT); (ASSOC_MASK, ASSOC_RIGHT); (ALIAS_NAMED, 0); (ALIAS_NAMED, ALIAS_NAMED)]%N →
  let f' := N.lor (N.land f (not_u8 mask)) bits in
  (f' < 256)%N ∧ N.land f' mask = bits ∧
  ∀ m, m ∈ [KIND_MASK; PREC_MASK; ASSOC_MASK; ALIAS_NAMED] → m ≠ mask → N.land f' m = N.land f m.
Proof.
  intros Hf Hin. pose proof masks_checked as Hall. rewrite forallb_forall in Hall.
  assert (In (N.to_nat f) (List.seq 0 256)) as Hfi by (apply in_seq; lia).
  specialize (Hall (N.to_nat f) Hfi). rewrite N2Nat.id in Hall.
  rewrite forallb_forall in Hall. rewrite list_elem_of_In in Hin. specialize (Hall _ Hin). cbn zeta beta in Hall.
  unfold other_masks_kept in Hall. rewrite !andb_true_iff, N.eqb_eq, N.ltb_lt, forallb_forall in Hall.
  destruct Hall as [[Hm Hb] Hl]. cbn zeta. split_and?; [done|done|]. intros m Hmin Hne.
  rewrite list_elem_of_In in Hmin. specialize (Hm m Hmin). apply orb_true_iff in Hm as [Hm|Hm]; by apply N.eqb_eq in Hm.
Qed.

Lemma set_precedence_views {E} s p :
  (flags s < 256)%N → prec_ok p →
  (flags (set_precedence s p) < 256)%N ∧
  views (E:=E) (set_precedence s p) =
    (step_symbol s, Ok p, step_associativity s, step_get_alias s, step_get_field s, step_reserved s).
Proof.
  intros Hf Hp.
  assert (∀ bits val, (PREC_MASK, bits) ∈ [(PREC_MASK, 0); (PREC_MASK, PREC_INTEGER); (PREC_MASK, PREC_NAME)]%N →
    let s' := mkStep (sym_index s) val (step_alias s) (step_field s) (step_reserved s)
                (N.lor (N.land (flags s) (not_u8 PREC_MASK)) bits) in
    (flags s' < 256)%N ∧ N.land (flags s') PREC_MASK = bits ∧
    step_symbol s' = step_symbol s ∧ step_associativity s' = step_associativity s ∧
    step_get_alias (E:=E) s' = step_get_alias s) as Hkeep.
  { intros bits val Hin s'. destruct (masks_kept PREC_MASK bits (flags s) Hf) as (H1 & H2 & H3).
    { rewrite list_elem_of_In in Hin |- *. cbn in Hin |- *. tauto. }
    split_and?; [exact H1|exact H2| | |].
    - unfold step_symbol. cbn [flags s' sym_index]. by rewrite (H3 KIND_MASK) by (done || apply list_elem_of_here).
    - unfold step_associativity. cbn [flags s']. rewrite (H3 ASSOC_MASK); [done| |done].
      rewrite !elem_of_cons. auto.
    - unfold step_get_alias. cbn [flags step_alias s']. rewrite (H3 ALIAS_NAMED); [done| |done].
      rewrite !elem_of_cons. auto. }
  unfold views. destruct p as [|k|sid]; cbn [set_precedence].
  - destruct (Hkeep 0%N 0%Z) as (H1 & H2 & H3 & H4 & H5); [rewrite !elem_of_cons; auto|].
    split; [exact H1|]. rewrite H3, H4, H5. unfold step_precedence. by rewrite H2.
  - destruct (Hkeep PREC_INTEGER k) as (H1 & H2 & H3 & H4 & H5); [rewrite !elem_of_cons; auto|].
    split; [exact H1|]. rewrite H3, H4, H5. unfold step_precedence. by rewrite H2.
  - destruct (Hkeep PREC_NAME (u32_as_i32 sid)) as (H1 & H2 & H3 & H4 & H5); [rewrite !elem_of_cons; auto|].
    split; [exact H1|]. rewrite H3, H4, H5. unfold step_precedence. rewrite H2. cbn [prec_val N.eqb PREC_NAME PREC_INTEGER Pos.eqb].
    cbn in Hp. rewrite u32_i32_round by apply Hp. by rewrite from_raw_ok.
Qed.

Lemma set_associativity_views {E} s a :
  (flags s < 256)%N →
  (flags (set_associativity s a) < 256)%N ∧
  views (E:=E) (set_associativity s a) =
    (step_symbol s, step_precedence s, a, step_get_alias s, step_get_field s, step_reserved s).
Proof.
  intros Hf. set (bits := match a with None => 0%N | Some Left => ASSOC_LEFT | Some Right => ASSOC_RIGHT end).
  destruct (masks_kept ASSOC_MASK bits (flags s) Hf) as (H1 & H2 & H3).
  { rewrite !elem_of_cons. destruct a as [[]|]; cbn; tauto. }
  assert (flags (set_associativity s a) = N.lor (N.land (flags s) (not_u8 ASSOC_MASK)) bits) as Hfl by done.
  split; [by rewrite Hfl|]. unfold views.
  replace (step_symbol (set_associativity s a)) with (step_symbol s).
  2: { unfold step_symbol. rewrite Hfl, (H3 KIND_MASK); [done|apply list_elem_of_here|done]. }
  replace (step_precedence (E:=E) (set_associativity s a)) with (step_precedence (E:=E) s).
  2: { unfold step_precedence. rewrite Hfl, (H3 PREC_MASK); [done|rewrite !elem_of_cons; auto|done]. }
  replace (step_get_alias (E:=E) (set_associativity s a)) with (step_get_alias (E:=E) s).
  2: { unfold step_get_alias. rewrite Hfl, (H3 ALIAS_NAMED); [done|rewrite !elem_of_cons; auto|done]. }
  replace (step_associativity (set_associativity s a)) with a; [done|].
  unfold step_associativity. rewrite Hfl, H2. by destruct a as [[]|].
Qed.

Lemma set_alias_views {E} s a :
  (flags s < 256)%N → opt_ok (λ a, str_id_ok (value a)) a →
  (flags (set_alias s a) < 256)%N ∧
  views (E:=E) (set_alias s a) =
    (step_symbol s, step_precedence s, step_associativity s, Ok a, step_get_field s, step_reserved s).
Proof.
  intros Hf Ha. set (named := match a with Some a => is_named a | None => false end).
  destruct (masks_kept ALIAS_NAMED (if named then ALIAS_NAMED else 0%N) (flags s) Hf) as (H1 & H2 & H3).
  { rewrite !elem_of_cons. destruct named; tauto. }
  assert (flags (set_alias s a) = N.lor (N.land (flags s) (not_u8 ALIAS_NAMED)) (if named then ALIAS_NAMED else 0%N))
    as Hfl by done.
  split; [by rewrite Hfl|]. unfold views.
  replace (step_symbol (set_alias s a)) with (step_symbol s).
  2: { unfold step_symbol. rewrite Hfl, (H3 KIND_MASK); [done|apply list_elem_of_here|done]. }
  replace (step_precedence (E:=E) (set_alias s a)) with (step_precedence (E:=E) s).
  2: { unfold step_precedence. rewrite Hfl, (H3 PREC_MASK); [done|rewrite !elem_of_cons; auto|done]. }
  replace (step_associativity (set_alias s a)) with (step_associativity s).
  2: { unfold step_associativity. rewrite Hfl, (H3 ASSOC_MASK); [done|rewrite !elem_of_cons; auto|done]. }
  replace (step_get_alias (E:=E) (set_alias s a)) with (Ok (E:=E) a); [done|].
  unfold step_get_alias. rewrite Hfl, H2. destruct a as [[v nm]|]; [|done]. cbn in Ha |- *.
  rewrite from_raw_ok by done. destruct Ha as [Ha _]. case N.eqb_spec; [lia|]. intros _. cbn. by destruct nm.
Qed.

Lemma set_field_views {E} s f :
  (flags s < 256)%N → opt_ok str_id_ok f →
  (flags (set_field s f) < 256)%N ∧
  views (E:=E) (set_field s f) =
    (step_symbol s, step_precedence s, step_associativity s, step_get_alias s, Ok f, step_reserved s).
Proof.
  intros Hf Hfo. split; [done|]. unfold views.
  replace (step_get_field (E:=E) (set_field s f)) with (Ok (E:=E) f); [done|].
  unfold step_get_field. destruct f as [f|]; [|done]. cbn in Hfo |- *.
  rewrite from_raw_ok by done. destruct Hfo as [? _]. by case N.eqb_spec; [lia|].
Qed.

Lemma views_inv {E} s a b c d e f :
  views (E:=E) s = (a, b, c, d, e, f) →
  (step_symbol s = a ∧ step_precedence (E:=E) s = b ∧ step_associativity s = c) ∧
  (step_get_alias (E:=E) s = d ∧ step_get_field (E:=E) s = e ∧ step_reserved s = f).
Proof. unfold views. intros Hv. split_and?; congruence. Qed.

(** C31: packing a production step and reading it back through the accessors
    returns every component, and no accessor panics; each setter on a packed
    step replaces its own component and keeps the others. *)
Theorem production_step_roundtrip (E : Type) symbol prec assoc alias field reserved :
  prec_ok prec → opt_ok (λ a, str_id_ok (value a)) alias → opt_ok str_id_ok field →
  (flags (pack symbol prec assoc alias field reserved) < 256)%N ∧
  views (E:=E) (pack symbol prec assoc alias field reserved) =
    (symbol, Ok prec, assoc, Ok alias, Ok field, reserved) ∧
  (∀ p, prec_ok p → views (E:=E) (set_precedence (pack symbol prec assoc alias field reserved) p) =
                    (symbol, Ok p, assoc, Ok alias, Ok field, reserved)) ∧
  (∀ a, views (E:=E) (set_associativity (pack symbol prec assoc alias field reserved) a) =
        (symbol, Ok prec, a, Ok alias, Ok field, reserved)) ∧
  (∀ a, opt_ok (λ a, str_id_ok (value a)) a →
        views (E:=E) (set_alias (pack symbol prec assoc alias field reserved) a) =
        (symbol, Ok prec, assoc, Ok a, Ok field, reserved)) ∧
  (∀ f, opt_ok str_id_ok f → views (E:=E) (set_field (pack symbol prec assoc alias field reserved) f) =
        (symbol, Ok prec, assoc, Ok alias, Ok f, reserved)).
Proof.
  intros Hp Ha Hfd. unfold pack. set (s0 := mkStep (index symbol) 0 0 0 reserved (kind_code (kind symbol))).
  assert (flags s0 < 256)%N as H0 by by destruct symbol as [[] ?].
  assert (step_symbol s0 = symbol) as Hs by by destruct symbol as [[] ?].
  destruct (set_precedence_views (E:=E) s0 prec H0 Hp) as [H1 V1].
  destruct (set_associativity_views (E:=E) _ assoc H1) as [H2 V2].
  destruct (set_alias_views (E:=E) _ alias H2 Ha) as [H3 V3].
  destruct (set_field_views (E:=E) _ field H3 Hfd) as [H4 V4].
  apply views_inv in V1 as [(V1a & V1b & _) (_ & _ & V1f)], V2 as [(V2a & V2b & V2c) (_ & _ & V2f)],
    V3 as [(V3a & V3b & V3c) (V3d & _ & V3f)].
  rewrite V3a, V3b, V3c, V3d, V3f, V2a, V2b, V2c, V2f, V1a, V1b, V1f, Hs in V4.
  set (s4 := set_field _ field) in *. change (step_reserved s0) with reserved in V4.
  split; [done|]. split; [done|]. apply views_inv in V4 as [(E1 & E2 & E3) (E4 & E5 & E6)]. split_and?.
  - intros p Hpp. destruct (set_precedence_views (E:=E) s4 p H4 Hpp) as [_ ->]. by rewrite E1, E3, E4, E5, E6.
  - intros a. destruct (set_associativity_views (E:=E) s4 a H4) as [_ ->]. by rewrite E1, E2, E4, E5, E6.
  - intros a Haa. destruct (set_alias_views (E:=E) s4 a H4 Haa) as [_ ->]. by rewrite E1, E2, E3, E5, E6.
  - intros f Hff. destruct (set_field_views (E:=E) s4 f H4 Hff) as [_ ->]. by rewrite E1, E2, E3, E4, E6.
Qed.

(** ** The variable of an NFA state *)

(** [start_state]s increase, as [expand_tokens] allocates them. *)
Definition starts_sorted (g : LexicalGrammar) : Prop := StronglySorted N.lt (map start_state (lg_variables g)).

Lemma partition_sorted g id :
  starts_sorted g →
  bsearch_sorted (λ v, if (start_state v <? id)%N then Lt else Gt) (lg_variables g).
Proof.
  intros Hs i j x y Hi Hj Hij. destruct (decide (i = j)) as [->|]; [simplify_eq; lia|].
  pose proof (lt_sorted_lookup _ i j (start_state x) (start_state y) Hs) as Hlt.
  change (map start_state) with (fmap (M:=list) start_state) in Hlt. rewrite !list_lookup_fmap, Hi, Hj in Hlt.
  specialize (Hlt eq_refl eq_refl ltac:(lia)).
  case (N.ltb_spec (start_state x) id); case (N.ltb_spec (start_state y) id); cbn; lia.
Qed.

(** On a lexical grammar whose start states increase, the binary search
    finds the variable whose NFA states contain the given one: the first one
    that does not start below it. *)
Theorem variable_index_for_nfa_state_correct (g : LexicalGrammar) (id : N) :
  starts_sorted g →
  let k := variable_index_for_nfa_state g id in
  k ≤ length (lg_variables g) ∧
  ∀ i v, lg_variables g !! i = Some v → (i < k ↔ (start_state v < id)%N).
Proof.
  intros Hs. unfold variable_index_for_nfa_state, partition_point.
  pose proof (binary_search_by_spec _ _ (partition_sorted g id Hs)) as Hb.
  destruct (binary_search_by _ _) as [k|k].
  - destruct Hb as (v & _ & Hv). by destruct (start_state v <? id)%N.
  - destruct Hb as [Hk Hx]. split; [done|]. intros i v Hi. destruct (Hx i v Hi) as [H1 H2].
    case (N.ltb_spec (start_state v) id); intros Hlt; rewrite ?(proj2 (N.ltb_lt _ _) Hlt), ?(proj2 (N.ltb_ge _ _) Hlt) in H1, H2.
    + split; [done|]. intros _. destruct (decide (i < k)); [done|]. by specialize (H2 ltac:(lia)).
    + split; [|lia]. intros Hik. by specialize (H1 Hik).
Qed.

(** ** Witnesses *)
Lemma production_step_roundtrip_witness :
  views (E:=Empty_set) (pack (mkSymbol NonTerminal 7) (PName 4000000000) (Some Right) (Some (mkAlias 9 true)) None 3) =
    (mkSymbol NonTerminal 7, Ok (PName 4000000000), Some Right, Ok (Some (mkAlias 9 true)), Ok None, 3%N).
Proof.
  exact (proj1 (proj2 (production_step_roundtrip Empty_set (mkSymbol NonTerminal 7) (PName 4000000000) (Some Right)
           (Some (mkAlias 9 true)) None 3 (conj eq_refl eq_refl) (conj eq_refl eq_refl) I))).
Defined.

Definition example_lexical : LexicalGrammar :=
  mkLexicalGrammar [] [mkLexicalVariable 3 Anonymous 0 4; mkLexicalVariable 4 Named 0 9].
Lemma variable_index_witness :
  let k := variable_index_for_nfa_state example_lexical 6 in
  k ≤ length (lg_variables example_lexical) ∧
  ∀ i v, lg_variables example_lexical !! i = Some v → (i < k ↔ (start_state v < 6)%N).
Proof.
  apply variable_index_for_nfa_state_correct.
  constructor; [constructor; [constructor|constructor]|constructor; [reflexivity|constructor]].
Defined.
