(* ===== verification/Items.v ===== *)
(** * [build_tables/item.rs]: parse items and their identity keys

    A parse item is a production with a dot.  [ItemKeyMap] ranks every production
    and dot of the grammar by what items are compared by, so that items are
    compared by two numbers.  The theorems say that the ranks are exactly the
    order of the contents, and that an item set is a sorted list of items. *)
From S2P Require Import Prelude Symbols TokenSet Ordering StrPool Grammars Lookaheads.

Module Item.
Definition START_STEPS : list ProductionStep := [mkStep 0 0 0 0 NO_RESERVED_WORDS (kind_code NonTerminal)].
Definition START_PRODUCTION_ID : N := U32 - 1.
Definition start_production : ProdRef := mkProdRef START_STEPS 0 false.

Record DotKeys := mkDotKeys { dk_cmp : N; dk_eq_with_syms : N }.
#[global] Instance DotKeys_eq_dec : EqDecision DotKeys.
Proof. solve_decision. Defined.
Record ItemKeyMap := mkKeyMap { km_keys : list (list DotKeys); km_start : list DotKeys }.

(** ** The content of an item *)
(** [then_with] of a comparison that may panic. *)
Definition then_m {E} (c d : outcome E comparison) : outcome E comparison :=
  x ← c; match x with Eq => d | _ => Ok x end.
(** The derived [Ord] of [Associativity]. *)
Definition assoc_cmp (a b : Associativity) : comparison :=
  match a, b with Left, Right => Lt | Right, Left => Gt | _, _ => Eq end.

Record ItemContent := mkContent { ic_production : ProdRef; ic_dot : nat }.

Section content.
Context {H : Type} (str_pool : StrPool H).

Definition content_prec {E} (c : ItemContent) : outcome E Precedence :=
  if (0 <? ic_dot c)%nat then s ← vec_get (pr_steps (ic_production c)) (ic_dot c - 1); step_precedence s
  else Ok PNone.
Definition content_assoc {E} (c : ItemContent) : outcome E (option Associativity) :=
  if (0 <? ic_dot c)%nat then s ← vec_get (pr_steps (ic_production c)) (ic_dot c - 1); Ok (step_associativity s)
  else Ok None.
Definition prec_cmp {E} (a b : Precedence) : outcome E comparison :=
  match a, b with
  | PNone, PNone => Ok Eq
  | PInteger a, PInteger b => Ok (a ?= b)%Z
  | PName a, PName b => a ← resolve str_pool a; b ← resolve str_pool b; Ok (bytes_cmp a b)
  | PNone, _ | PInteger _, PName _ => Ok Lt
  | _, PNone | PName _, PInteger _ => Ok Gt
  end.
(** [step.alias().map(|alias| (resolve(alias.value), alias.is_named))]. *)
Definition alias_key {E} (s : ProductionStep) : outcome E (option (bytes * bool)) :=
  a ← step_get_alias s;
  match a with Some a => v ← resolve str_pool (value a); Ok (Some (v, is_named a)) | None => Ok None end.
Definition alias_cmp {E} (a b : ProductionStep) : outcome E comparison :=
  a ← alias_key a; b ← alias_key b; Ok (opt_cmp (pair_cmp bytes_cmp Bool.compare) a b).
Definition field_key {E} (s : ProductionStep) : outcome E (option bytes) :=
  f ← step_get_field s;
  match f with Some f => v ← resolve str_pool f; Ok (Some v) | None => Ok None end.
Definition field_cmp {E} (a b : ProductionStep) : outcome E comparison :=
  a ← field_key a; b ← field_key b; Ok (opt_cmp bytes_cmp a b).
Definition step_cmp {E} (a b : ProductionStep) : outcome E comparison :=
  then_m (then_m (then_m (then_m (then_m
    (Ok (symbol_cmp (step_symbol a) (step_symbol b)))
    (p ← step_precedence a; q ← step_precedence b; prec_cmp p q))
    (Ok (opt_cmp assoc_cmp (step_associativity a) (step_associativity b))))
    (alias_cmp a b))
    (field_cmp a b))
    (Ok (step_reserved a ?= step_reserved b)%N).

(** The loop over [a.steps.iter().zip(b.steps)]. *)
Fixpoint steps_cmp {E} (dot i : nat) (a b : list ProductionStep) : outcome E comparison :=
  match a, b with
  | sa :: a, sb :: b =>
      o ← (if (i <? dot)%nat then then_m (alias_cmp sa sb) (field_cmp sa sb) else step_cmp sa sb);
      match o with Eq => steps_cmp dot (S i) a b | _ => Ok o end
  | _, _ => Ok Eq
  end.
Definition content_cmp {E} (a b : ItemContent) : outcome E comparison :=
  let pa := ic_production a in
  let pb := ic_production b in
  then_m (then_m (then_m (then_m (then_m (then_m
    (Ok (pr_dynamic_precedence pa ?= pr_dynamic_precedence pb)%Z)
    (Ok (Bool.compare (pr_requires_eof_lookahead pa) (pr_requires_eof_lookahead pb))))
    (Ok (length (pr_steps pa) ?= length (pr_steps pb))))
    (p ← content_prec a; q ← content_prec b; prec_cmp p q))
    (p ← content_assoc a; q ← content_assoc b; Ok (opt_cmp assoc_cmp p q)))
    (Ok (ic_dot a ?= ic_dot b)))
    (steps_cmp (ic_dot a) 0 (pr_steps pa) (pr_steps pb)).

(** ** [ItemKeyMap::new] *)
Context (grammar : SyntaxGrammar).

Definition prod {E} (slot : nat) : outcome E ProdRef :=
  if (slot =? 0)%nat then Ok start_production else production grammar (as_u32 (slot - 1)).
Definition slot_count : nat := S (length (sg_productions grammar)).
(** The dots of a slot, and all of them. *)
Definition slot_dots {E} (pi : nat) : outcome E (list (N * N)) :=
  p ← prod pi; Ok (map (λ dot, (as_u32 pi, as_u32 dot)) (seq 0 (S (length (pr_steps p))))).
Definition contents {E} : outcome E (list (N * N)) :=
  ls ← mapM slot_dots (seq 0 slot_count); Ok (concat ls).
Definition content {E} (c : N * N) : outcome E ItemContent :=
  p ← prod (N.to_nat c.1); Ok (mkContent p (N.to_nat c.2)).
Definition compare_contents {E} (a b : N * N) : outcome E comparison :=
  a ← content a; b ← content b; content_cmp a b.

Definition default_keys {E} (pi : nat) : outcome E (list DotKeys) :=
  p ← prod pi; Ok (replicate (S (length (pr_steps p))) (mkDotKeys 0 0)).
(** [slot_keys[pi][dot]], read and written. *)
Definition get_keys {E} (slot_keys : list (list DotKeys)) (c : N * N) : outcome E DotKeys :=
  ks ← vec_get slot_keys (N.to_nat c.1); vec_get ks (N.to_nat c.2).
Definition set_keys {E} (slot_keys : list (list DotKeys)) (c : N * N) (k : DotKeys) : outcome E (list (list DotKeys)) :=
  ks ← vec_get slot_keys (N.to_nat c.1);
  ks ← vec_set ks (N.to_nat c.2) k;
  vec_set slot_keys (N.to_nat c.1) ks.

Fixpoint rank_loop {E} (cmp_id : N) (prev : option (N * N)) (cs : list (N * N)) (slot_keys : list (list DotKeys)) :
    outcome E (list (list DotKeys)) :=
  match cs with
  | [] => Ok slot_keys
  | c :: cs =>
      cmp_id ← match prev with
               | Some p => o ← compare_contents p c; Ok (match o with Eq => cmp_id | _ => wrap_u32 (cmp_id + 1) end)
               | None => Ok cmp_id
               end;
      k ← get_keys slot_keys c;
      slot_keys ← set_keys slot_keys c (mkDotKeys cmp_id (dk_eq_with_syms k));
      rank_loop cmp_id (Some c) cs slot_keys
  end.
Fixpoint class_loop {E : Type} (sym_classes : gmap (N * list Symbol) N) (cs : list (N * N)) (slot_keys : list (list DotKeys)) :
    outcome E (list (list DotKeys)) :=
  match cs with
  | [] => Ok slot_keys
  | c :: cs =>
      p ← prod (N.to_nat c.1);
      steps ← slice (pr_steps p) 0 (N.to_nat c.2);
      let syms := map step_symbol steps in
      let next := as_u32 (size sym_classes) in
      k ← get_keys slot_keys c;
      let '(id, sym_classes) :=
        match sym_classes !! (dk_cmp k, syms) with
        | Some id => (id, sym_classes)
        | None => (next, <[(dk_cmp k, syms) := next]> sym_classes)
        end in
      slot_keys ← set_keys slot_keys c (mkDotKeys (dk_cmp k) id);
      class_loop sym_classes cs slot_keys
  end.
Definition new_key_map {E} : outcome E ItemKeyMap :=
  cs ← contents;
  cs ← sort_by_m compare_contents cs;
  slot_keys ← mapM default_keys (seq 0 slot_count);
  slot_keys ← rank_loop 0 None cs slot_keys;
  slot_keys ← class_loop ∅ cs slot_keys;
  match slot_keys with
  | start :: keys => Ok (mkKeyMap keys start)
  | [] => Panic
  end.
End content.

Definition keys_for {E} (m : ItemKeyMap) (id : N) : outcome E (list DotKeys) :=
  if (id =? START_PRODUCTION_ID)%N then Ok (km_start m) else vec_get (km_keys m) (N.to_nat id).
Definition start_keys (m : ItemKeyMap) : list DotKeys := km_start m.

(** ** Items *)
Record ParseItem := mkItem {
  variable_index : N;
  step_index : N;
  prod_id : N;
  keys : list DotKeys;
  has_preceding_inherited_fields : bool;
}.
#[global] Instance ParseItem_eq_dec : EqDecision ParseItem.
Proof. solve_decision. Defined.

Definition item_start (m : ItemKeyMap) : ParseItem :=
  mkItem (U32 - 1) 0 START_PRODUCTION_ID (start_keys m) false.
Definition item_production {E} (i : ParseItem) (g : SyntaxGrammar) : outcome E ProdRef :=
  if (prod_id i =? START_PRODUCTION_ID)%N then Ok start_production else production g (prod_id i).
Definition item_step {E} (i : ParseItem) (g : SyntaxGrammar) : outcome E (option ProductionStep) :=
  p ← item_production i g; Ok (pr_steps p !! N.to_nat (step_index i)).
Definition item_symbol {E} (i : ParseItem) (g : SyntaxGrammar) : outcome E (option Symbol) :=
  s ← item_step i g; Ok (option_map step_symbol s).
Definition prev_step {E} (i : ParseItem) (g : SyntaxGrammar) : outcome E (option ProductionStep) :=
  if (0 <? step_index i)%N then
    p ← item_production i g; s ← vec_get (pr_steps p) (N.to_nat (step_index i) - 1); Ok (Some s)
  else Ok None.
Definition item_associativity {E} (i : ParseItem) (g : SyntaxGrammar) : outcome E (option Associativity) :=
  s ← prev_step i g; Ok (match s with Some s => step_associativity s | None => None end).
Definition item_precedence {E} (i : ParseItem) (g : SyntaxGrammar) : outcome E Precedence :=
  s ← prev_step i g; match s with Some s => step_precedence s | None => Ok PNone end.
Definition is_done (i : ParseItem) : bool := (N.to_nat (step_index i) + 1 =? length (keys i))%nat.
Definition is_augmented (i : ParseItem) : bool := (variable_index i =? U32 - 1)%N.
Definition successor (i : ParseItem) : ParseItem :=
  mkItem (variable_index i) (wrap_u32 (step_index i + 1)) (prod_id i) (keys i) (has_preceding_inherited_fields i).
Definition substitute_production (i : ParseItem) (prod_id : N) (keys : list DotKeys) : ParseItem :=
  mkItem (variable_index i) (step_index i) prod_id keys (has_preceding_inherited_fields i).
Definition dot_keys {E} (i : ParseItem) : outcome E DotKeys := vec_get (keys i) (N.to_nat (step_index i)).

(** [PartialEq], [Ord] and what [Hash] feeds the hasher. *)
Definition item_eq {E} (a b : ParseItem) : outcome E bool :=
  if negb (variable_index a =? variable_index b)%N || negb (step_index a =? step_index b)%N
     || negb (Bool.eqb (has_preceding_inherited_fields a) (has_preceding_inherited_fields b)) then Ok false
  else ka ← dot_keys a; kb ← dot_keys b;
       Ok (if has_preceding_inherited_fields a then (dk_eq_with_syms ka =? dk_eq_with_syms kb)%N
           else (dk_cmp ka =? dk_cmp kb)%N).
Definition item_cmp {E} (a b : ParseItem) : outcome E comparison :=
  then_m (then_m (then_m (then_m
    (Ok (step_index a ?= step_index b)%N)
    (Ok (variable_index a ?= variable_index b)%N))
    (ka ← dot_keys a; kb ← dot_keys b; Ok (dk_cmp ka ?= dk_cmp kb)%N))
    (Ok (Bool.compare (has_preceding_inherited_fields a) (has_preceding_inherited_fields b))))
    (if has_preceding_inherited_fields a
     then ka ← dot_keys a; kb ← dot_keys b; Ok (dk_eq_with_syms ka ?= dk_eq_with_syms kb)%N
     else Ok Eq).
Definition item_hash_input {E} (i : ParseItem) : outcome E (list N) :=
  k ← dot_keys i;
  Ok ([variable_index i; step_index i] ++
      if has_preceding_inherited_fields i then [1%N; dk_eq_with_syms k] else [0%N; dk_cmp k]).

(** ** Item sets *)
Record ParseItemSetEntry := mkEntry {
  item : ParseItem;
  lookaheads : LookaheadSetId;
  following_reserved_word_set : N;
}.
#[global] Instance ParseItemSetEntry_eq_dec : EqDecision ParseItemSetEntry.
Proof. solve_decision. Defined.
Record ParseItemSet := mkItemSet { entries : list ParseItemSetEntry }.
Definition ParseItemSetCore : Type := list ParseItem.

(** The set and the index of the entry that the code returns a reference to. *)
Definition item_set_insert {E} (s : ParseItemSet) (i : ParseItem) : outcome E (nat * ParseItemSet) :=
  r ← binary_search_by_m (λ e, item_cmp (item e) i) (entries s);
  match r with
  | inr j => Ok (j, mkItemSet (vec_insert j (mkEntry i Lookahead.EMPTY 0) (entries s)))
  | inl j => Ok (j, s)
  end.
Definition core (s : ParseItemSet) : ParseItemSetCore := item <$> entries s.
Definition core_hash_input {E} (c : ParseItemSetCore) : outcome E (list N) :=
  hs ← mapM item_hash_input c; Ok (N.of_nat (length c) :: concat hs).
Definition item_set_hash_input {E} (s : ParseItemSet) : outcome E (list N) :=
  hs ← mapM (λ e, h ← item_hash_input (item e); Ok (h ++ [lookaheads e; following_reserved_word_set e])) (entries s);
  Ok (N.of_nat (length (entries s)) :: concat hs).

(** ** The order of contents *)
Section order.
Context {H : Type} (str_pool : StrPool H).

(** A readable step is one whose precedence, alias and field are well formed and
    name strings of the pool; what the accessors then see of it. *)
Definition readable (id : StrId) : Prop := ∃ b, ∀ E, resolve (E:=E) str_pool id = Ok b.
Definition text (id : StrId) : bytes := match resolve (E:=Empty_set) str_pool id with Ok b => b | _ => [] end.
Lemma resolve_text {E} id : readable id → resolve (E:=E) str_pool id = Ok (text id).
Proof. intros [b Hb]. unfold text. by rewrite !Hb. Qed.

Definition prec_readable (p : Precedence) : Prop := match p with PName n => readable n | _ => True end.
Record step_readable (s : ProductionStep) : Prop := {
  sr_prec : ∃ p, (∀ E, step_precedence (E:=E) s = Ok p) ∧ prec_readable p;
  sr_alias : ∃ a, (∀ E, step_get_alias (E:=E) s = Ok a) ∧ opt_ok (λ a, readable (value a)) a;
  sr_field : ∃ f, (∀ E, step_get_field (E:=E) s = Ok f) ∧ opt_ok readable f;
}.
Definition the_prec (s : ProductionStep) : Precedence := match step_precedence (E:=Empty_set) s with Ok p => p | _ => PNone end.
Definition the_alias (s : ProductionStep) : option Alias := match step_get_alias (E:=Empty_set) s with Ok a => a | _ => None end.
Definition the_field (s : ProductionStep) : option StrId := match step_get_field (E:=Empty_set) s with Ok f => f | _ => None end.
Lemma read_prec {E} s : step_readable s → step_precedence (E:=E) s = Ok (the_prec s) ∧ prec_readable (the_prec s).
Proof. intros [(p & Hp & Hr) _ _]. unfold the_prec. by rewrite !Hp. Qed.
Lemma read_alias {E} s :
  step_readable s → step_get_alias (E:=E) s = Ok (the_alias s) ∧ opt_ok (λ a, readable (value a)) (the_alias s).
Proof. intros [_ (p & Hp & Hr) _]. unfold the_alias. by rewrite !Hp. Qed.
Lemma read_field {E} s : step_readable s → step_get_field (E:=E) s = Ok (the_field s) ∧ opt_ok readable (the_field s).
Proof. intros [_ _ (p & Hp & Hr)]. unfold the_field. by rewrite !Hp. Qed.

(** What two contents are compared by, with names replaced by their strings:
    aliases and fields of the completed steps, and the remaining steps in full. *)
Definition prec_key (p : Precedence) : option (Z + bytes) :=
  match p with PNone => None | PInteger n => Some (inl n) | PName n => Some (inr (text n)) end.
Definition alias_text (s : ProductionStep) : option (bytes * bool) := (λ a, (text (value a), is_named a)) <$> the_alias s.
Definition field_text (s : ProductionStep) : option bytes := text <$> the_field s.
Definition done_key : Type := option (bytes * bool) * option bytes.
Definition next_key : Type :=
  Symbol * option (Z + bytes) * option Associativity * option (bytes * bool) * option bytes * N.
Definition done_step_key (s : ProductionStep) : done_key := (alias_text s, field_text s).
Definition next_step_key (s : ProductionStep) : next_key :=
  (step_symbol s, prec_key (the_prec s), step_associativity s, alias_text s, field_text s, step_reserved s).
Definition content_key : Type :=
  Z * bool * nat * option (Z + bytes) * option Associativity * nat * list (done_key + next_key).
Definition steps_keys (dot i : nat) (l : list ProductionStep) : list (done_key + next_key) :=
  imap (λ j s, if (i + j <? dot)%nat then inl (done_step_key s) else inr (next_step_key s)) l.
Definition key_of (c : ItemContent) : content_key :=
  let p := ic_production c in
  let prev := if (0 <? ic_dot c)%nat then pr_steps p !! (ic_dot c - 1) else None in
  (pr_dynamic_precedence p, pr_requires_eof_lookahead p, length (pr_steps p), prec_key (default PNone (the_prec <$> prev)),
   prev ≫= step_associativity, ic_dot c, steps_keys (ic_dot c) 0 (pr_steps p)).

Definition prec_key_cmp := opt_cmp (sum_cmp Z.compare bytes_cmp).
Definition alias_key_cmp := opt_cmp (pair_cmp bytes_cmp Bool.compare).
Definition field_key_cmp := opt_cmp bytes_cmp.
Definition done_key_cmp : done_key → done_key → comparison := pair_cmp alias_key_cmp field_key_cmp.
Definition next_key_cmp : next_key → next_key → comparison :=
  pair_cmp (pair_cmp (pair_cmp (pair_cmp (pair_cmp symbol_cmp prec_key_cmp) (opt_cmp assoc_cmp)) alias_key_cmp) field_key_cmp)
    N.compare.
Definition key_cmp : content_key → content_key → comparison :=
  pair_cmp (pair_cmp (pair_cmp (pair_cmp (pair_cmp (pair_cmp Z.compare Bool.compare) Nat.compare) prec_key_cmp)
    (opt_cmp assoc_cmp)) Nat.compare) (list_cmp (sum_cmp done_key_cmp next_key_cmp)).

#[export] Instance assoc_total : TotalCmp assoc_cmp.
Proof. split; [by intros [] []|by intros [] []|by intros [] [] []]. Qed.
#[export] Instance key_total : TotalCmp key_cmp.
Proof. unfold key_cmp, done_key_cmp, next_key_cmp, prec_key_cmp, alias_key_cmp, field_key_cmp. exact _. Qed.

Lemma then_m_Ok {E} (c d : outcome E comparison) x y :
  c = Ok x → (x = Eq → d = Ok y) → then_m c d = Ok (then_cmp x y).
Proof. intros -> Hd. destruct x; cbn; [by apply Hd|done|done]. Qed.

Lemma prec_cmp_key {E} p q :
  prec_readable p → prec_readable q → prec_cmp (E:=E) str_pool p q = Ok (prec_key_cmp (prec_key p) (prec_key q)).
Proof. intros Hp Hq. destruct p, q; try done. cbn in *. by rewrite !resolve_text. Qed.
Lemma alias_key_text {E} s : step_readable s → alias_key (E:=E) str_pool s = Ok (alias_text s).
Proof.
  intros Hs. unfold alias_key, alias_text. destruct (read_alias (E:=E) s Hs) as [-> Ha]. cbn.
  destruct (the_alias s) as [a|]; [|done]. cbn in *. by rewrite resolve_text.
Qed.
Lemma field_key_text {E} s : step_readable s → field_key (E:=E) str_pool s = Ok (field_text s).
Proof.
  intros Hs. unfold field_key, field_text. destruct (read_field (E:=E) s Hs) as [-> Ha]. cbn.
  destruct (the_field s) as [a|]; [|done]. cbn in *. by rewrite resolve_text.
Qed.
Lemma done_cmp_key {E} s t : step_readable s → step_readable t →
  then_m (E:=E) (alias_cmp str_pool s t) (field_cmp str_pool s t) = Ok (done_key_cmp (done_step_key s) (done_step_key t)).
Proof.
  intros Hs Ht. unfold done_key_cmp, pair_cmp. cbn. apply then_m_Ok; [|intros _].
  - unfold alias_cmp. by rewrite !alias_key_text.
  - unfold field_cmp. by rewrite !field_key_text.
Qed.
Lemma step_cmp_key {E} s t : step_readable s → step_readable t →
  step_cmp (E:=E) str_pool s t = Ok (next_key_cmp (next_step_key s) (next_step_key t)).
Proof.
  intros Hs Ht. unfold step_cmp, next_key_cmp, pair_cmp. cbn [fst snd next_step_key].
  repeat (apply then_m_Ok; [|intros _]); try done.
  - destruct (read_prec (E:=E) s Hs) as [-> ?], (read_prec (E:=E) t Ht) as [-> ?]. cbn. by apply prec_cmp_key.
  - unfold alias_cmp. by rewrite !alias_key_text.
  - unfold field_cmp. by rewrite !field_key_text.
Qed.
#[local] Arguments step_cmp : simpl never.
#[local] Arguments next_key_cmp : simpl never.
#[local] Arguments done_key_cmp : simpl never.
#[local] Arguments then_m : simpl never.
Lemma steps_cmp_key {E} dot i a b :
  Forall step_readable a → Forall step_readable b → length a = length b →
  steps_cmp (E:=E) str_pool dot i a b = Ok (list_cmp (sum_cmp done_key_cmp next_key_cmp) (steps_keys dot i a) (steps_keys dot i b)).
Proof.
  intros Ha. revert i b. induction Ha as [|s a Hs Ha IH]; intros i [|t b] Hb Hl; try done.
  apply Forall_cons in Hb as [Ht Hb]. unfold steps_keys. cbn. rewrite Nat.add_0_r.
  assert (∀ l, imap ((λ j s, if (i + j <? dot)%nat then inl (done_step_key s) else inr (next_step_key s)) ∘ S) l = steps_keys dot (S i) l) as Hsh.
  { intros l. unfold steps_keys. apply imap_ext. intros j x _. cbn. by rewrite Nat.add_succ_r. }
  rewrite !Hsh. specialize (IH (S i) b Hb ltac:(cbn in Hl; lia)).
  destruct (i <? dot)%nat; cbn.
  - rewrite done_cmp_key by done. cbn. destruct (done_key_cmp _ _); cbn; [apply IH|done|done].
  - rewrite step_cmp_key by done. cbn. destruct (next_key_cmp _ _); cbn; [apply IH|done|done].
Qed.

(** A content whose steps can be read, with its dot in range. *)
Record content_ok (c : ItemContent) : Prop := {
  co_steps : Forall step_readable (pr_steps (ic_production c));
  co_dot : ic_dot c ≤ length (pr_steps (ic_production c));
}.
Lemma content_prec_key {E} c : content_ok c →
  ∃ p, content_prec (E:=E) c = Ok p ∧ prec_readable p ∧
    prec_key p = prec_key (default PNone (the_prec <$> (if (0 <? ic_dot c)%nat then pr_steps (ic_production c) !! (ic_dot c - 1) else None))).
Proof.
  intros [Hs Hd]. unfold content_prec. destruct (Nat.ltb_spec 0 (ic_dot c)); [|by exists PNone].
  destruct (lookup_lt_is_Some_2 (pr_steps (ic_production c)) (ic_dot c - 1) ltac:(lia)) as [s Hsi].
  rewrite (vec_get_Some _ _ _ Hsi), Hsi. cbn. rewrite Forall_lookup in Hs.
  destruct (read_prec (E:=E) s) as [-> ?]; [by eapply Hs|]. eauto.
Qed.
Lemma content_assoc_key {E} c : content_ok c →
  content_assoc (E:=E) c = Ok ((if (0 <? ic_dot c)%nat then pr_steps (ic_production c) !! (ic_dot c - 1) else None) ≫= step_associativity).
Proof.
  intros [Hs Hd]. unfold content_assoc. destruct (Nat.ltb_spec 0 (ic_dot c)); [|done].
  destruct (lookup_lt_is_Some_2 (pr_steps (ic_production c)) (ic_dot c - 1) ltac:(lia)) as [s Hsi].
  by rewrite (vec_get_Some _ _ _ Hsi), Hsi.
Qed.

Lemma content_cmp_key {E} a b : content_ok a → content_ok b → content_cmp (E:=E) str_pool a b = Ok (key_cmp (key_of a) (key_of b)).
Proof.
  intros Ha Hb. unfold content_cmp, key_cmp, key_of, pair_cmp. cbn [fst snd].
  destruct (content_prec_key (E:=E) a Ha) as (p & -> & Hp & <-), (content_prec_key (E:=E) b Hb) as (q & -> & Hq & <-).
  rewrite !content_assoc_key by done. cbn [mbind outcome_bind].
  repeat (apply then_m_Ok; [|intros Heq]); try done; [by apply prec_cmp_key|].
  repeat match goal with H : then_cmp _ _ = Eq |- _ => apply then_cmp_Eq in H as [? ?] end.
  rewrite !tc_eq in *. destruct Ha, Hb. match goal with H : ic_dot a = ic_dot b |- _ => rewrite <- H end. by apply steps_cmp_key.
Qed.
End order.

(** ** Ranks *)
Section ranks.
Context {H : Type} (str_pool : StrPool H) (g : SyntaxGrammar).

Definition the_prod (slot : nat) : ProdRef :=
  match prod (E:=Empty_set) g slot with Ok p => p | _ => start_production end.
Definition dots (slot : nat) : nat := S (length (pr_steps (the_prod slot))).
#[local] Arguments dots : simpl never.
Definition content_count : nat := sum_list_with dots (seq 0 (slot_count g)).

#[local] Arguments content_count : simpl never.
#[local] Arguments slot_count : simpl never.

(** A grammar whose productions can be read, with fewer contents than [u32]
    values. *)
Record grammar_ok : Prop := {
  go_prods : ∀ id, id < length (sg_productions g) →
    ∃ p, (∀ E, production (E:=E) g (N.of_nat id) = Ok p) ∧ Forall (step_readable str_pool) (pr_steps p);
  go_count : (N.of_nat content_count < U32)%N;
}.
Context (Hg : grammar_ok).

Lemma slot_count_le : slot_count g ≤ content_count.
Proof.
  unfold content_count. generalize 0. induction (slot_count g) as [|n IH]; intros k; cbn; [lia|]. specialize (IH (S k)). assert (1 ≤ dots k) by (unfold dots; lia). lia.
Qed.
Lemma dots_le slot : slot < slot_count g → dots slot ≤ content_count.
Proof.
  intros Hs. unfold content_count. assert (slot ∈ seq 0 (slot_count g)) as Hin by (apply elem_of_seq; lia).
  induction (seq 0 (slot_count g)) as [|x l IH]; [by apply not_elem_of_nil in Hin|].
  apply elem_of_cons in Hin as [->|Hin]; cbn; [lia|]. specialize (IH Hin). lia.
Qed.
Lemma u32_round n : n ≤ content_count → N.to_nat (as_u32 n) = n.
Proof. intros. apply as_u32_small. pose proof (go_count Hg). lia. Qed.

Lemma prod_the_prod {E} slot : slot < slot_count g → prod (E:=E) g slot = Ok (the_prod slot) ∧ Forall (step_readable str_pool) (pr_steps (the_prod slot)).
Proof.
  intros Hs. unfold the_prod, prod. destruct (Nat.eqb_spec slot 0) as [->|].
  { split; [done|]. repeat constructor; [exists PNone|exists None|exists None]; done. }
  pose proof slot_count_le. assert (as_u32 (slot - 1) = N.of_nat (slot - 1)) as ->.
  { apply N2Nat.inj. rewrite u32_round by lia. lia. }
  destruct (go_prods Hg (slot - 1)) as (p & Hp & Hr); [unfold slot_count in *; lia|]. by rewrite !Hp.
Qed.

Definition in_range (c : N * N) : Prop := N.to_nat c.1 < slot_count g ∧ N.to_nat c.2 < dots (N.to_nat c.1).
Definition the_content (c : N * N) : ItemContent := mkContent (the_prod (N.to_nat c.1)) (N.to_nat c.2).
Definition rank_key (c : N * N) : content_key := key_of str_pool (the_content c).
Definition rank_cmp (a b : N * N) : comparison := key_cmp (rank_key a) (rank_key b).

Lemma content_ok_in_range c : in_range c → content_ok str_pool (the_content c).
Proof. intros [H1 H2]. split; cbn; [by apply (prod_the_prod (E:=Empty_set))|unfold dots in H2; lia]. Qed.
Lemma compare_contents_rank {E} a b : in_range a → in_range b → compare_contents (E:=E) str_pool g a b = Ok (rank_cmp a b).
Proof.
  intros Ha Hb. unfold compare_contents, content.
  destruct (prod_the_prod (E:=E) (N.to_nat a.1)) as [-> _]; [apply Ha|].
  destruct (prod_the_prod (E:=E) (N.to_nat b.1)) as [-> _]; [apply Hb|].
  exact (content_cmp_key str_pool _ _ (content_ok_in_range a Ha) (content_ok_in_range b Hb)).
Qed.

Definition slot_list (slot : nat) : list (N * N) := map (λ dot, (as_u32 slot, as_u32 dot)) (seq 0 (dots slot)).
Lemma elem_of_slot_list slot c :
  slot < slot_count g → c ∈ slot_list slot ↔ N.to_nat c.1 = slot ∧ N.to_nat c.2 < dots slot.
Proof.
  intros Hs. pose proof slot_count_le. pose proof (dots_le slot Hs). unfold slot_list. rewrite elem_of_map. split.
  - intros (d & -> & [_ Hd]%elem_of_seq). cbn. rewrite !u32_round by lia. lia.
  - intros [Hc1 Hc2]. exists (N.to_nat c.2). rewrite elem_of_seq. split; [|lia].
    destruct c as [c1 c2]. cbn in *. f_equal; apply N2Nat.inj; rewrite u32_round; lia.
Qed.
Lemma NoDup_slot_list slot : slot < slot_count g → NoDup (slot_list slot).
Proof.
  intros Hs. pose proof (dots_le slot Hs). unfold slot_list. apply NoDup_fmap_2_strong; [|apply NoDup_seq].
  intros x y Hx%elem_of_seq Hy%elem_of_seq [= Heq]. rewrite <- (u32_round x), <- (u32_round y), Heq by lia. done.
Qed.
Lemma contents_spec {E} :
  ∃ cs, contents (E:=E) g = Ok cs ∧ NoDup cs ∧ (∀ c, c ∈ cs ↔ in_range c) ∧ length cs = content_count.
Proof.
  exists (concat (map slot_list (seq 0 (slot_count g)))). unfold contents.
  rewrite (mapM_Ok _ slot_list).
  2: { intros slot [_ Hs]%elem_of_seq. unfold slot_dots. by destruct (prod_the_prod (E:=E) slot ltac:(lia)) as [-> _]. }
  split; [done|]. assert (∀ n k c, n + k ≤ slot_count g → c ∈ concat (map slot_list (seq k n)) ↔ k ≤ N.to_nat c.1 < k + n ∧ N.to_nat c.2 < dots (N.to_nat c.1)) as Hin.
  { intros n. induction n as [|n IH]; intros k c Hk; cbn; [rewrite elem_of_nil; lia|].
    rewrite elem_of_app, elem_of_slot_list, IH by lia. destruct (decide (N.to_nat c.1 = k)) as [->|]; lia. }
  split_and!.
  - assert (∀ n k, n + k ≤ slot_count g → NoDup (concat (map slot_list (seq k n)))) as Hnd; [|apply Hnd; lia].
    intros n. induction n as [|n IH]; intros k Hk; cbn; [constructor|]. apply NoDup_app. split_and!.
    + apply NoDup_slot_list. lia.
    + intros c Hc. rewrite Hin by lia. apply elem_of_slot_list in Hc; [|lia]. lia.
    + apply IH. lia.
  - intros c. rewrite Hin by lia. unfold in_range. split; intros [? ?]; split; try lia.
  - unfold content_count. generalize (seq 0 (slot_count g)). intros l. induction l as [|x l IH]; cbn; [done|].
    rewrite length_app, IH. unfold slot_list. by rewrite length_map, length_seq.
Qed.

(** The table of keys. *)
Definition shaped (sk : list (list DotKeys)) : Prop :=
  length sk = slot_count g ∧ ∀ slot ks, sk !! slot = Some ks → length ks = dots slot.
Definition key_at (sk : list (list DotKeys)) (c : N * N) : option DotKeys := ks ← sk !! N.to_nat c.1; ks !! N.to_nat c.2.

Lemma get_keys_at {E} sk c : shaped sk → in_range c → ∃ k, key_at sk c = Some k ∧ get_keys (E:=E) sk c = Ok k.
Proof.
  intros [Hl Hs] [H1 H2]. rewrite <- Hl in H1. apply lookup_lt_is_Some in H1 as [ks Hks].
  rewrite <- (Hs _ _ Hks) in H2. apply lookup_lt_is_Some in H2 as [k Hk]. exists k.
  unfold key_at, get_keys. rewrite Hks, (vec_get_Some _ _ _ Hks). cbn. split; [done|by apply vec_get_Some].
Qed.
Lemma set_keys_at {E} sk c k : shaped sk → in_range c →
  ∃ sk', set_keys (E:=E) sk c k = Ok sk' ∧ shaped sk' ∧ ∀ d, key_at sk' d = if decide (d = c) then Some k else key_at sk d.
Proof.
  intros [Hl Hs] [H1 H2]. rewrite <- Hl in H1. destruct (lookup_lt_is_Some_2 _ _ H1) as [ks Hks].
  rewrite <- (Hs _ _ Hks) in H2. exists (<[N.to_nat c.1 := <[N.to_nat c.2 := k]> ks]> sk).
  unfold set_keys. rewrite (vec_get_Some _ _ _ Hks). cbn. rewrite vec_set_lt by done. cbn. rewrite vec_set_lt by done.
  split; [done|]. split.
  - split; [by rewrite length_insert|]. intros slot ks' [(<- & <- & _)|[_ ?]]%list_lookup_insert_Some; [|by apply Hs].
    rewrite length_insert. by apply Hs.
  - intros [d1 d2]. destruct c as [c1 c2]. unfold key_at. cbn in *. destruct (decide (d1 = c1)) as [->|Hne].
    + rewrite list_lookup_insert_eq by done. cbn. destruct (decide (d2 = c2)) as [->|Hne2].
      * rewrite decide_True by done. by rewrite list_lookup_insert_eq.
      * rewrite decide_False by congruence. rewrite list_lookup_insert_ne by lia. by rewrite Hks.
    + rewrite decide_False by congruence. by rewrite list_lookup_insert_ne by lia.
Qed.

(** [r] ranks the elements of [l] as [rank_cmp] does. *)
Definition ranks (r : N * N → N) (l : list (N * N)) : Prop :=
  ∀ a b, a ∈ l → b ∈ l → (r a ?= r b)%N = rank_cmp a b.
Lemma ranks_cons r p l :
  ranks r l → (∀ b, b ∈ l → (r p ?= r b)%N = rank_cmp p b) → ranks r (p :: l).
Proof.
  intros Hr Hp a b [->|Ha]%elem_of_cons [->|Hb]%elem_of_cons.
  - rewrite N.compare_refl. symmetry. apply (tc_refl key_cmp).
  - by apply Hp.
  - rewrite N.compare_antisym, Hp by done. unfold rank_cmp. by rewrite <- tc_opp.
  - by apply Hr.
Qed.
Lemma ranks_ext r r' l : (∀ a, a ∈ l → r a = r' a) → ranks r l → ranks r' l.
Proof. intros He Hr a b Ha Hb. rewrite <- !He by done. by apply Hr. Qed.

Definition sorted (l : list (N * N)) : Prop := StronglySorted (λ a b, rank_cmp a b ≠ Gt) l.

(** What the loop does to the rest [cs] of the contents, [p] being ranked [id]. *)
Lemma rank_loop_spec {E} cs p id sk :
  shaped sk → in_range p → Forall in_range cs → NoDup (p :: cs) → sorted (p :: cs) → (id + N.of_nat (length cs) < U32)%N →
  ∃ sk' r, rank_loop (E:=E) str_pool g id (Some p) cs sk = Ok sk' ∧ shaped sk' ∧
    (∀ c, c ∈ cs → ∃ k, key_at sk' c = Some k ∧ dk_cmp k = r c) ∧ (∀ c, c ∉ cs → key_at sk' c = key_at sk c) ∧
    r p = id ∧ (∀ c, c ∈ cs → (id ≤ r c)%N) ∧ ranks r (p :: cs).
Proof.
  revert p id sk. induction cs as [|x cs IH]; intros p id sk Hsk Hp Hcs Hnd Hs Hid.
  { exists sk, (λ _, id). split_and!; try done; [by intros c ?%not_elem_of_nil..|].
    apply ranks_cons; [by intros a b ?%not_elem_of_nil|by intros b ?%not_elem_of_nil]. }
  cbn [rank_loop]. apply Forall_cons in Hcs as [Hx Hcs]. apply StronglySorted_inv in Hs as [Hs Hps].
  rewrite compare_contents_rank by done. cbn [mbind outcome_bind]. set (id' := match rank_cmp p x with Eq => _ | _ => _ end).
  assert (id' = match rank_cmp p x with Eq => id | _ => id + 1 end)%N as Hid'.
  { subst id'. cbn in Hid. rewrite wrap_u32_small by lia. done. }
  clearbody id'. destruct (get_keys_at (E:=E) sk x Hsk Hx) as (k & _ & ->). cbn [mbind outcome_bind].
  destruct (set_keys_at (E:=E) sk x (mkDotKeys id' (dk_eq_with_syms k)) Hsk Hx) as (sk1 & -> & Hsk1 & Hk1). cbn [mbind outcome_bind].
  apply NoDup_cons in Hnd as [Hpn Hnd].
  destruct (IH x id' sk1 Hsk1 Hx Hcs Hnd Hs) as (sk' & r & -> & Hsk' & Hin & Hout & Hrx & Hge & Hr).
  { cbn in Hid. destruct (rank_cmp p x); lia. }
  exists sk', (λ c, if decide (c = p) then id else r c).
  apply NoDup_cons in Hnd as [Hxn Hnd].
  assert (∀ c, c ∈ x :: cs → c ≠ p) as Hne by (intros c Hc ->; done).
  assert (∀ c, c ∈ x :: cs → (id' ≤ r c)%N) as Hge' by (intros c [->|Hc]%elem_of_cons; [lia|by apply Hge]).
  split_and!; [done|done| | |by rewrite decide_True| |].
  - intros c Hc. rewrite decide_False by by apply Hne. apply elem_of_cons in Hc as [->|Hc]; [|by apply Hin].
    rewrite Hout, Hk1, decide_True by done. eauto.
  - intros c Hc. apply not_elem_of_cons in Hc as [Hcx Hc]. by rewrite Hout, Hk1, decide_False by done.
  - intros c Hc. rewrite decide_False by by apply Hne. specialize (Hge' c Hc). destruct (rank_cmp p x); lia.
  - apply ranks_cons.
    + eapply ranks_ext; [|exact Hr]. intros a Ha. cbn. by rewrite decide_False by by apply Hne.
    + intros b Hb. rewrite decide_True, decide_False by (done || by apply Hne). specialize (Hge' b Hb).
      assert (rank_cmp x b ≠ Gt) as Hxb.
      { apply elem_of_cons in Hb as [->|Hb]; [unfold rank_cmp; by rewrite (tc_refl key_cmp)|].
        apply StronglySorted_inv in Hs as [_ Hxs]. rewrite Forall_forall in Hxs. by apply Hxs. }
      destruct (rank_cmp p x) eqn:Hpx.
      * rewrite <- Hid', <- Hrx, Hr by (done || apply list_elem_of_here). unfold rank_cmp in *. apply tc_eq in Hpx. by rewrite Hpx.
      * assert (rank_cmp p b = Lt) as -> by by eapply (tc_lt_le_trans key_cmp). apply N.compare_lt_iff. lia.
      * rewrite Forall_forall in Hps. by destruct (Hps x); [apply list_elem_of_here|].
Qed.

(** The symbols of the completed steps. *)
Definition done_symbols (c : N * N) : list Symbol := map step_symbol (take (N.to_nat c.2) (pr_steps (the_prod (N.to_nat c.1)))).
Definition map_inj (m : gmap (N * list Symbol) N) : Prop := ∀ a b v, m !! a = Some v → m !! b = Some v → a = b.

Lemma class_loop_spec {E : Type} cs m sk :
  shaped sk → Forall in_range cs → NoDup cs → map_inj m → (∀ a v, m !! a = Some v → (v < N.of_nat (size m))%N) →
  (N.of_nat (size m + length cs) < U32)%N →
  ∃ sk' m', class_loop (E:=E) g m cs sk = Ok sk' ∧ shaped sk' ∧ m ⊆ m' ∧ map_inj m' ∧
    (∀ c, c ∈ cs → ∃ k k', key_at sk c = Some k ∧ key_at sk' c = Some k' ∧ dk_cmp k' = dk_cmp k ∧
       m' !! (dk_cmp k, done_symbols c) = Some (dk_eq_with_syms k')) ∧
    (∀ c, c ∉ cs → key_at sk' c = key_at sk c).
Proof.
  revert m sk. induction cs as [|x cs IH]; intros m sk Hsk Hcs Hnd Hm Hlt Hsz.
  { exists sk, m. split_and!; try done. by intros c ?%not_elem_of_nil. }
  cbn [class_loop]. apply Forall_cons in Hcs as [Hx Hcs]. apply NoDup_cons in Hnd as [Hxn Hnd].
  destruct (prod_the_prod (E:=E) (N.to_nat x.1)) as [-> _]; [apply Hx|]. cbn [mbind outcome_bind].
  unfold slice at 1. assert (N.to_nat x.2 ≤ length (pr_steps (the_prod (N.to_nat x.1)))) as Hd by (destruct Hx as [_ Hx]; unfold dots in Hx; lia).
  rewrite (proj2 (Nat.leb_le 0 _) (Nat.le_0_l _)), (proj2 (Nat.leb_le _ _) Hd). cbn [andb mbind outcome_bind].
  rewrite Nat.sub_0_r, drop_0. fold (done_symbols x).
  destruct (get_keys_at (E:=E) sk x Hsk Hx) as (k & Hk & ->). cbn [mbind outcome_bind].
  set (key := (dk_cmp k, done_symbols x)).
  assert (∃ id m1, match m !! key with Some id => (id, m) | None => (as_u32 (size m), <[key := as_u32 (size m)]> m) end = (id, m1) ∧
    m1 !! key = Some id ∧ m ⊆ m1 ∧ map_inj m1 ∧ (∀ a v, m1 !! a = Some v → (v < N.of_nat (size m1))%N) ∧ size m1 ≤ S (size m)) as (id & m1 & -> & Hid & Hsub & Hm1 & Hlt1 & Hsz1).
  { destruct (m !! key) as [id|] eqn:Hkey; [exists id, m; split_and!; (done || lia)|].
    assert (as_u32 (size m) = N.of_nat (size m)) as Hnext by (unfold as_u32; apply wrap_u32_small; cbn in Hsz; lia).
    exists (as_u32 (size m)), (<[key := as_u32 (size m)]> m). rewrite map_size_insert_None by done.
    split_and!; [done|by rewrite lookup_insert_eq|by apply insert_subseteq| | |lia].
    - intros a b v Ha Hb. apply lookup_insert_Some in Ha as [[<- <-]|[? Ha]], Hb as [[<- Hb]|[? Hb]]; try done;
        [apply Hlt in Hb; lia|subst v; apply Hlt in Ha; lia|by eapply Hm].
    - intros a v [[_ <-]|[_ Ha]]%lookup_insert_Some; [lia|]. apply Hlt in Ha. lia. }
  destruct (set_keys_at (E:=E) sk x (mkDotKeys (dk_cmp k) id) Hsk Hx) as (sk1 & -> & Hsk1 & Hk1). cbn [mbind outcome_bind].
  destruct (IH m1 sk1 Hsk1 Hcs Hnd Hm1 Hlt1) as (sk' & m' & -> & Hsk' & Hsub' & Hm' & Hin & Hout); [cbn in Hsz; lia|].
  exists sk', m'. split_and!; [done|done|by etrans|done| |].
  - intros c [->|Hc]%elem_of_cons.
    + exists k, (mkDotKeys (dk_cmp k) id). rewrite Hout, Hk1, decide_True by done. split_and!; [done..|]. by eapply lookup_weaken.
    + destruct (Hin c Hc) as (k0 & k' & Hk0 & ?). rewrite Hk1, decide_False in Hk0 by (by intros ->). eauto.
  - intros c Hc. apply not_elem_of_cons in Hc as [Hcx Hc]. by rewrite Hout, Hk1, decide_False by done.
Qed.

(** The slot of a production id, and its content at a dot. *)
Definition slot_of (id : N) : nat := if (id =? START_PRODUCTION_ID)%N then 0 else S (N.to_nat id).
Definition known (id dot : N) : Prop := in_range (N.of_nat (slot_of id), dot).
Definition key_for (m : ItemKeyMap) (id dot : N) (k : DotKeys) : Prop :=
  ∃ ks, (∀ E, keys_for (E:=E) m id = Ok ks) ∧ length ks = dots (slot_of id) ∧ ks !! N.to_nat dot = Some k.
Definition id_key (id dot : N) : content_key := rank_key (N.of_nat (slot_of id), dot).
Definition id_symbols (id dot : N) : list Symbol := done_symbols (N.of_nat (slot_of id), dot).
(** What [ItemKeyMap::new] promises. *)
Definition keys_spec (m : ItemKeyMap) : Prop :=
  (∀ id dot, known id dot → ∃ k, key_for m id dot k) ∧
  ∀ id dot id' dot' k k', known id dot → known id' dot' → key_for m id dot k → key_for m id' dot' k' →
    (dk_cmp k ?= dk_cmp k')%N = key_cmp (id_key id dot) (id_key id' dot') ∧
    (dk_eq_with_syms k = dk_eq_with_syms k' ↔ id_key id dot = id_key id' dot' ∧ id_symbols id dot = id_symbols id' dot').

Lemma default_table {E} : ∃ sk, mapM (default_keys (E:=E) g) (seq 0 (slot_count g)) = Ok sk ∧ shaped sk.
Proof.
  exists (map (λ slot, replicate (dots slot) (mkDotKeys 0 0)) (seq 0 (slot_count g))). split.
  - apply mapM_Ok. intros slot [_ Hs]%elem_of_seq. unfold default_keys. by destruct (prod_the_prod (E:=E) slot ltac:(lia)) as [-> _].
  - split; [by rewrite length_map, length_seq|]. intros slot ks Hk.
    change (map ?f ?l) with (f <$> l) in Hk. rewrite list_lookup_fmap in Hk.
    apply fmap_Some in Hk as (x & [-> _]%lookup_seq & ->). by rewrite length_replicate.
Qed.

Lemma key_of_table sk start keys id dot k :
  shaped sk → sk = start :: keys → known id dot → key_for (mkKeyMap keys start) id dot k ↔ key_at sk (N.of_nat (slot_of id), dot) = Some k.
Proof.
  intros [Hl Hs] -> [Hk1 _]. cbn in Hk1. rewrite Nat2N.id in Hk1. unfold key_for, key_at, keys_for, slot_of in *. cbn [fst snd].
  rewrite Nat2N.id. cbn [km_start km_keys]. destruct (N.eqb_spec id START_PRODUCTION_ID) as [_|_]; cbn.
  - split; [by intros (ks & Hks & _ & ?); specialize (Hks Empty_set); simplify_eq|]. intros Hd. exists start. split_and!; [done|by apply Hs|done].
  - split.
    + intros (ks & Hks & _ & Hd). specialize (Hks Empty_set). apply vec_get_Ok in Hks. apply bind_Some. by exists ks.
    + intros (ks & Hks & Hd)%bind_Some. exists ks. split_and!; [|by apply (Hs (S (N.to_nat id)))|done]. intros E. by apply vec_get_Some.
Qed.

Lemma new_key_map_spec {E} : ∃ m, new_key_map (E:=E) str_pool g = Ok m ∧ keys_spec m.
Proof.
  unfold new_key_map. destruct (contents_spec (E:=E)) as (cs & -> & Hnd & Hcs & Hlen). cbn [mbind outcome_bind].
  rewrite (sort_by_m_Ok _ rank_cmp) by (intros; apply compare_contents_rank; by apply Hcs). cbn [mbind outcome_bind].
  pose proof (sort_by_key_sorted rank_key key_cmp cs) as Hs. pose proof (sort_by_perm rank_cmp cs) as Hperm.
  change (sort_by _ cs) with (sort_by rank_cmp cs) in Hs. set (l := sort_by rank_cmp cs) in *. clearbody l.
  assert (∀ c, c ∈ l ↔ in_range c) as Hl by (intros c; by rewrite Hperm).
  rewrite <- Hperm in Hnd, Hlen. clear cs Hcs Hperm.
  destruct (default_table (E:=E)) as (sk & -> & Hsk). cbn [mbind outcome_bind]. pose proof (go_count Hg) as Hcount.
  destruct l as [|c l].
  { exfalso. apply (not_elem_of_nil (0, 0)%N), Hl. split; cbn; [unfold slot_count; lia|unfold dots; lia]. }
  assert (Forall in_range (c :: l)) as Hall by (apply Forall_forall; intros; by apply Hl).
  apply Forall_cons in Hall as [Hc Hall].
  cbn [rank_loop mbind outcome_bind]. destruct (get_keys_at (E:=E) sk c Hsk Hc) as (k0 & _ & ->). cbn [mbind outcome_bind].
  destruct (set_keys_at (E:=E) sk c (mkDotKeys 0 (dk_eq_with_syms k0)) Hsk Hc) as (sk1 & -> & Hsk1 & Hk1). cbn [mbind outcome_bind].
  destruct (rank_loop_spec (E:=E) l c 0 sk1 Hsk1 Hc Hall Hnd Hs) as (sk2 & r & -> & Hsk2 & Hin & Hout & Hrc & _ & Hr); [cbn in Hlen; lia|].
  cbn [mbind outcome_bind].
  assert (∀ x, in_range x → ∃ k, key_at sk2 x = Some k ∧ dk_cmp k = r x) as Hrank.
  { intros x [->|Hx]%Hl%elem_of_cons; [|by apply Hin]. apply NoDup_cons in Hnd as [Hcn _].
    rewrite Hout, Hk1, decide_True by done. eauto. }
  destruct (class_loop_spec (E:=E) (c :: l) ∅ sk2 Hsk2) as (sk3 & m' & -> & Hsk3 & _ & Hm' & Hcl & _);
    [by constructor|done|by intros ? ? ? ?%lookup_empty_Some|by intros ? ? ?%lookup_empty_Some|rewrite map_size_empty; lia|].
  cbn [mbind outcome_bind]. destruct sk3 as [|start keys] eqn:Hsk3e; [by destruct Hsk3 as [Hlz _]|].
  exists (mkKeyMap keys start). split; [done|]. rewrite <- Hsk3e in *.
  assert (∀ x, in_range x → ∃ k, key_at sk3 x = Some k ∧ dk_cmp k = r x ∧ m' !! (r x, done_symbols x) = Some (dk_eq_with_syms k)) as Hfin.
  { intros x Hx. destruct (Hrank x Hx) as (k & Hk & Hkr). destruct (Hcl x) as (k' & k'' & Hk' & Hk'' & Heq & Hm); [by apply Hl|].
    simplify_eq. exists k''. by rewrite Heq, <- Hkr. }
  split.
  - intros id dot Hk. destruct (Hfin _ Hk) as (k & ? & _). exists k. by eapply key_of_table.
  - intros id dot id' dot' k k' Hx Hy Hk Hk'. rewrite (key_of_table sk3) in Hk, Hk' by done.
    destruct (Hfin _ Hx) as (k1 & ? & Hr1 & Hm1), (Hfin _ Hy) as (k2 & ? & Hr2 & Hm2). simplify_eq.
    assert ((dk_cmp k ?= dk_cmp k')%N = key_cmp (id_key id dot) (id_key id' dot')) as Hcmp.
    { rewrite Hr1, Hr2. apply Hr; by apply Hl. }
    split; [exact Hcmp|].
    assert (dk_cmp k = dk_cmp k' ↔ id_key id dot = id_key id' dot') as Heq by by rewrite <- (tc_eq (c:=key_cmp)), <- Hcmp, N.compare_eq_iff.
    rewrite <- Heq, Hr1, Hr2. unfold id_symbols. split.
    + intros He. rewrite He in Hm1. pose proof (Hm' _ _ _ Hm1 Hm2) as [= ? ?]. done.
    + intros [Hre Hse]. rewrite Hre, Hse in Hm1. by simplify_eq.
Qed.
End ranks.

(** ** Items and their order *)
Section items.
Definition dot_key (i : ParseItem) : option DotKeys := keys i !! N.to_nat (step_index i).
Definition keyed (i : ParseItem) : Prop := is_Some (dot_key i).
(** What two items are compared by, with the ranks. *)
Definition rank : Type := N * N * N * bool * N.
Definition item_rank (i : ParseItem) : rank :=
  let k := default (mkDotKeys 0 0) (dot_key i) in
  (step_index i, variable_index i, dk_cmp k, has_preceding_inherited_fields i,
   if has_preceding_inherited_fields i then dk_eq_with_syms k else 0%N).
Definition item_rank_cmp : rank → rank → comparison :=
  pair_cmp (pair_cmp (pair_cmp (pair_cmp N.compare N.compare) N.compare) Bool.compare) N.compare.
#[export] Instance item_rank_total : TotalCmp item_rank_cmp.
Proof. unfold item_rank_cmp. exact _. Qed.

Lemma dot_keys_keyed {E} i : keyed i → dot_keys (E:=E) i = Ok (default (mkDotKeys 0 0) (dot_key i)).
Proof. intros [k Hk]. unfold dot_keys. rewrite Hk. by apply vec_get_Some. Qed.
Lemma item_cmp_rank {E} a b : keyed a → keyed b → item_cmp (E:=E) a b = Ok (item_rank_cmp (item_rank a) (item_rank b)).
Proof.
  intros Ha Hb. unfold item_cmp, item_rank_cmp, pair_cmp, item_rank. cbn [fst snd].
  rewrite !dot_keys_keyed by done. cbn [mbind outcome_bind].
  repeat (apply then_m_Ok; [|intros Heq]); try done.
  repeat match goal with H : then_cmp _ _ = Eq |- _ => apply then_cmp_Eq in H as [? ?] end.
  rewrite !tc_eq in *. destruct (has_preceding_inherited_fields a), (has_preceding_inherited_fields b); done.
Qed.
Lemma item_eq_rank {E} a b :
  keyed a → keyed b →
  (∀ k k', dot_key a = Some k → dot_key b = Some k' → dk_eq_with_syms k = dk_eq_with_syms k' → dk_cmp k = dk_cmp k') →
  item_eq (E:=E) a b = Ok (bool_decide (item_rank a = item_rank b)).
Proof.
  intros [k Hk] [k' Hk'] Hsub. specialize (Hsub k k' Hk Hk').
  unfold item_eq, item_rank. rewrite !dot_keys_keyed by (by eexists). rewrite Hk, Hk'. cbn [mbind outcome_bind default].
  destruct (N.eqb_spec (variable_index a) (variable_index b)) as [->|Hne]; cbn [negb orb];
    [|rewrite bool_decide_false by congruence; done].
  destruct (N.eqb_spec (step_index a) (step_index b)) as [->|Hne]; cbn [negb orb];
    [|rewrite bool_decide_false by congruence; done].
  destruct (has_preceding_inherited_fields a), (has_preceding_inherited_fields b); cbn [negb orb Bool.eqb];
    try (rewrite bool_decide_false by congruence; done); f_equal; symmetry; cbn.
  - destruct (N.eqb_spec (dk_eq_with_syms k) (dk_eq_with_syms k')) as [He|]; [|apply bool_decide_false; congruence].
    apply bool_decide_true. by rewrite He, Hsub.
  - destruct (N.eqb_spec (dk_cmp k) (dk_cmp k')) as [He|]; [|apply bool_decide_false; congruence].
    apply bool_decide_true. by rewrite He.
Qed.
Lemma item_hash_rank {E} a b : keyed a → keyed b → item_rank a = item_rank b → item_hash_input (E:=E) a = item_hash_input b.
Proof.
  intros Ha Hb. unfold item_hash_input, item_rank. rewrite !dot_keys_keyed by done. cbn [mbind outcome_bind].
  intros [= -> -> Hc -> He]. destruct (has_preceding_inherited_fields b); by rewrite ?Hc, ?He.
Qed.

(** ** Item sets: sorted lists of entries, one per rank *)
Definition entry_rank (e : ParseItemSetEntry) : rank := item_rank (item e).
Record set_ok (s : ParseItemSet) : Prop := {
  so_keyed : Forall (λ e, keyed (item e)) (entries s);
  so_sorted : StronglySorted (λ a b, item_rank_cmp (entry_rank a) (entry_rank b) = Lt) (entries s);
}.
(** [s[j].item] is unchanged by what the code does with the returned reference. *)
Definition update_entry (s : ParseItemSet) (j : nat) (e : ParseItemSetEntry) : ParseItemSet := mkItemSet (<[j := e]> (entries s)).
(** The entry of a rank, if any. *)
Definition has (s : ParseItemSet) (e : ParseItemSetEntry) : Prop := e ∈ entries s.

Lemma rank_sorted_lookup (l : list ParseItemSetEntry) i j a b :
  StronglySorted (λ a b, item_rank_cmp (entry_rank a) (entry_rank b) = Lt) l →
  l !! i = Some a → l !! j = Some b → i < j → item_rank_cmp (entry_rank a) (entry_rank b) = Lt.
Proof.
  intros Hs. revert i j. induction Hs as [|x l Hs IH Hx]; intros [|i] [|j]; cbn; try done; try lia.
  - intros [= ->] Hj _. rewrite Forall_forall in Hx. apply Hx. by eapply list_elem_of_lookup_2.
  - intros Hi Hj ?. apply (IH i j Hi Hj). lia.
Qed.
Lemma rank_unique s i j a b : set_ok s → entries s !! i = Some a → entries s !! j = Some b → entry_rank a = entry_rank b → i = j.
Proof.
  intros [_ Hs] Ha Hb Heq. destruct (Nat.lt_trichotomy i j) as [Hlt|[|Hlt]]; [|done|]; exfalso.
  - pose proof (rank_sorted_lookup _ _ _ _ _ Hs Ha Hb Hlt) as Hc. by rewrite Heq, (tc_refl item_rank_cmp) in Hc.
  - pose proof (rank_sorted_lookup _ _ _ _ _ Hs Hb Ha Hlt) as Hc. by rewrite Heq, (tc_refl item_rank_cmp) in Hc.
Qed.
Lemma has_unique s a b : set_ok s → has s a → has s b → entry_rank a = entry_rank b → a = b.
Proof.
  intros Hs [i Hi]%list_elem_of_lookup [j Hj]%list_elem_of_lookup Heq.
  rewrite (rank_unique s i j a b) in Hi by done. by simplify_eq.
Qed.
Lemma rank_sorted_insert (l : list ParseItemSetEntry) j e :
  StronglySorted (λ a b, item_rank_cmp (entry_rank a) (entry_rank b) = Lt) l →
  (∀ i a, l !! i = Some a → (i < j → item_rank_cmp (entry_rank a) (entry_rank e) = Lt) ∧ (j ≤ i → item_rank_cmp (entry_rank a) (entry_rank e) = Gt)) →
  StronglySorted (λ a b, item_rank_cmp (entry_rank a) (entry_rank b) = Lt) (vec_insert j e l).
Proof.
  unfold vec_insert. revert j. induction l as [|x l IH]; intros j Hs Hj; [destruct j; cbn; by repeat constructor|].
  apply StronglySorted_inv in Hs as [Hs Hx]. destruct j as [|j]; cbn.
  - assert (item_rank_cmp (entry_rank e) (entry_rank x) = Lt) as Hex.
    { destruct (Hj 0 x eq_refl) as [_ Hgt]. by rewrite tc_opp, Hgt by lia. }
    constructor; [by constructor|]. constructor; [done|]. rewrite Forall_forall in *. intros y Hy.
    eapply (tc_trans (c:=item_rank_cmp)); [done|by apply Hx].
  - constructor.
    + apply IH; [done|]. intros i a Hi. destruct (Hj (S i) a Hi) as [H1 H2]. split; intros; [apply H1|apply H2]; lia.
    + fold (vec_insert j e l). rewrite vec_insert_perm. constructor; [|done]. destruct (Hj 0 x eq_refl) as [H1 _]. apply H1. lia.
Qed.

(** Insertion finds the entry of the item's rank, or makes one where it belongs,
    without lookaheads. *)
Lemma item_set_insert_spec {E} s i :
  set_ok s → keyed i →
  ∃ j s' e, item_set_insert (E:=E) s i = Ok (j, s') ∧ set_ok s' ∧ entries s' !! j = Some e ∧ entry_rank e = item_rank i ∧
    ((s' = s) ∨ (e = mkEntry i Lookahead.EMPTY 0 ∧ (∀ a, has s a → entry_rank a ≠ item_rank i) ∧ ∀ a, has s' a ↔ a = e ∨ has s a)).
Proof.
  intros [Hk Hs] Hi. unfold item_set_insert. set (f e := item_rank_cmp (entry_rank e) (item_rank i)).
  assert (bsearch_sorted f (entries s)) as Hb.
  { intros a b x y Hx Hy Hab. destruct (decide (a = b)) as [->|]; [simplify_eq; lia|].
    pose proof (rank_sorted_lookup _ a b x y Hs Hx Hy ltac:(lia)) as Hlt. unfold f.
    destruct (item_rank_cmp (entry_rank x) (item_rank i)) eqn:Hxi; cbn; [|lia|].
    - apply tc_eq in Hxi. rewrite <- Hxi, tc_opp, Hlt. cbn. lia.
    - assert (item_rank_cmp (item_rank i) (entry_rank x) = Lt) as Hix by by rewrite tc_opp, Hxi.
      pose proof (tc_trans (c:=item_rank_cmp) _ _ _ Hix Hlt) as Hiy. rewrite tc_opp, Hiy. cbn. lia. }
  rewrite (binary_search_by_m_Ok _ f); [|intros e He; rewrite Forall_forall in Hk; by apply item_cmp_rank; [apply Hk|]|done].
  cbn [mbind outcome_bind]. pose proof (binary_search_by_spec f (entries s) Hb) as Hsp. destruct (binary_search_by f (entries s)) as [j|j].
  - destruct Hsp as (e & He & Hc). exists j, s, e. split_and!; [done|done|done|by apply (tc_eq (c:=item_rank_cmp))|by left].
  - destruct Hsp as [Hj Hx]. exists j, (mkItemSet (vec_insert j (mkEntry i Lookahead.EMPTY 0) (entries s))), (mkEntry i Lookahead.EMPTY 0).
    split_and!; [done|split; cbn| |done|right; split_and!; [done|..]].
    + rewrite vec_insert_perm. by constructor.
    + by apply rank_sorted_insert.
    + cbn. unfold vec_insert. apply list_lookup_middle. rewrite length_take. lia.
    + intros a [k Hka]%list_elem_of_lookup Heq. destruct (Hx k a Hka) as [H1 H2]. unfold f in *.
      rewrite Heq, (tc_refl item_rank_cmp) in H1, H2. destruct (decide (k < j)); [by specialize (H1 ltac:(done))|by specialize (H2 ltac:(lia))].
    + intros a. unfold has. cbn. by rewrite vec_insert_perm, elem_of_cons.
Qed.
Lemma update_entry_ok s j e e' : set_ok s → entries s !! j = Some e → item e' = item e → set_ok (update_entry s j e').
Proof.
  intros [Hk Hs] He Hi. split; cbn.
  - apply Forall_insert; [done|]. rewrite Hi. rewrite Forall_lookup in Hk. by eapply Hk.
  - revert j He. induction Hs as [|x l Hs IH Hx]; intros [|j] He; cbn in *; try done.
    + simplify_eq. constructor; [done|]. unfold entry_rank in *. by rewrite Hi.
    + apply Forall_cons in Hk as [_ Hk]. constructor; [by apply IH|]. rewrite Forall_lookup in *. intros k y Hy.
      apply list_lookup_insert_Some in Hy as [(-> & <- & _)|[_ Hy]]; [|by eapply Hx]. unfold entry_rank. rewrite Hi. by eapply Hx.
Qed.

(** Insertion and an update of the entry that it returns. *)
Lemma upsert_spec {E} s i :
  set_ok s → keyed i →
  ∃ j s' e, item_set_insert (E:=E) s i = Ok (j, s') ∧ entries s' !! j = Some e ∧ entry_rank e = item_rank i ∧ keyed (item e) ∧
    (has s e ∨ e = mkEntry i Lookahead.EMPTY 0 ∧ ∀ a, has s a → entry_rank a ≠ item_rank i) ∧
    ∀ e', item e' = item e → set_ok (update_entry s' j e') ∧
      ∀ a, has (update_entry s' j e') a ↔ a = e' ∨ has s a ∧ entry_rank a ≠ item_rank i.
Proof.
  intros Hs Hi. destruct (item_set_insert_spec (E:=E) s i Hs Hi) as (j & s' & e & Hins & Hs' & He & Hr & Hor).
  exists j, s', e. assert (has s' e) as Hhe by by eapply list_elem_of_lookup_2.
  assert (∀ a, has s' a ∧ entry_rank a ≠ item_rank i ↔ has s a ∧ entry_rank a ≠ item_rank i) as Hrest.
  { destruct Hor as [->|(-> & Hne & Hall)]; [done|]. intros a. rewrite Hall. split; [|tauto]. intros [[->|?] ?]; done. }
  split_and!; [done|done|done| | |].
  - destruct Hs' as [Hk _]. rewrite Forall_lookup in Hk. by eapply Hk.
  - destruct Hor as [->|(-> & Hne & _)]; [by left|right; done].
  - intros e' He'. split; [by eapply update_entry_ok|]. intros a. rewrite <- Hrest. unfold has at 1, update_entry. cbn.
    assert (entry_rank e' = item_rank i) as Hr' by (unfold entry_rank in *; by rewrite He').
    split.
    + intros [k Hk]%list_elem_of_lookup. apply list_lookup_insert_Some in Hk as [(_ & -> & _)|[Hne Hk]]; [by left|right].
      split; [by eapply list_elem_of_lookup_2|]. intros Heq. apply Hne. rewrite <- Hr in Heq. symmetry. by eapply rank_unique.
    + intros [->|[Ha Hne]]; [eapply list_elem_of_lookup_2, list_lookup_insert_eq; by eapply lookup_lt_Some|].
      apply list_elem_of_lookup in Ha as [k Hk]. apply (list_elem_of_lookup_2 _ k). rewrite list_lookup_insert_ne; [done|].
      intros ->. simplify_eq.
Qed.
End items.

(** ** What the order of items means *)
Section meaning.
Context {H : Type} (str_pool : StrPool H) (g : SyntaxGrammar).

(** An item of the grammar: its production and dot exist, its keys are those of
    the production. *)
Record item_ok (m : ItemKeyMap) (i : ParseItem) : Prop := {
  io_known : known g (prod_id i) (step_index i);
  io_keys : ∀ E, keys_for (E:=E) m (prod_id i) = Ok (keys i);
}.
Definition item_content (i : ParseItem) : content_key := id_key str_pool g (prod_id i) (step_index i).
(** The items that the code means to identify: same variable, dot and flag, same
    content, and same completed symbols if the flag is set. *)
Definition same_item (a b : ParseItem) : Prop :=
  step_index a = step_index b ∧ variable_index a = variable_index b ∧
  has_preceding_inherited_fields a = has_preceding_inherited_fields b ∧ item_content a = item_content b ∧
  (has_preceding_inherited_fields a = true → id_symbols g (prod_id a) (step_index a) = id_symbols g (prod_id b) (step_index b)).
(** Dot, variable, content and flag, in this order. *)
Definition item_order (a b : ParseItem) : comparison :=
  then_cmp (then_cmp (then_cmp (step_index a ?= step_index b)%N (variable_index a ?= variable_index b)%N)
    (key_cmp (item_content a) (item_content b)))
    (Bool.compare (has_preceding_inherited_fields a) (has_preceding_inherited_fields b)).

Context (Hg : grammar_ok str_pool g) (m : ItemKeyMap) (Hm : keys_spec str_pool g m).

Lemma item_ok_key i : item_ok m i → ∃ k, dot_key i = Some k ∧ key_for g m (prod_id i) (step_index i) k.
Proof.
  intros [Hk Hi]. destruct Hm as [Hex _]. destruct (Hex _ _ Hk) as [k Hkf]. exists k. split; [|done].
  destruct Hkf as (ks & Hks & _ & Hl). specialize (Hks Empty_set). rewrite Hi in Hks. by simplify_eq.
Qed.
Lemma item_ok_keyed i : item_ok m i → keyed i.
Proof. intros Hi. destruct (item_ok_key i Hi) as (k & Hk & _). by exists k. Qed.

Lemma item_rank_same a b : item_ok m a → item_ok m b → item_rank a = item_rank b ↔ same_item a b.
Proof.
  intros Ha Hb. destruct (item_ok_key a Ha) as (k & Hk & Hka), (item_ok_key b Hb) as (k' & Hk' & Hkb).
  destruct Hm as [_ Hspec]. destruct (Hspec _ _ _ _ _ _ (io_known m a Ha) (io_known m b Hb) Hka Hkb) as [Hc He].
  assert (dk_cmp k = dk_cmp k' ↔ item_content a = item_content b) as Hc'.
  { rewrite <- N.compare_eq_iff, Hc. apply tc_eq. }
  unfold item_rank, same_item. rewrite Hk, Hk'. cbn [from_option id].
  destruct (has_preceding_inherited_fields a), (has_preceding_inherited_fields b);
    try (split; [intros [=]; fail|intros (_ & _ & [=] & _); fail]); split.
  - intros [= Hs Hv Hcc Hee]. apply Hc' in Hcc. apply He in Hee as [_ ?]. by split_and!.
  - intros (Hs & Hv & _ & Hcc & Hss). assert (dk_eq_with_syms k = dk_eq_with_syms k') as Hee by (apply He; auto).
    apply Hc' in Hcc. by rewrite Hs, Hv, Hcc, Hee.
  - intros [= Hs Hv Hcc]. apply Hc' in Hcc. by split_and!.
  - intros (Hs & Hv & _ & Hcc & _). apply Hc' in Hcc. by rewrite Hs, Hv, Hcc.
Qed.

Lemma item_eq_ok {E} a b : item_ok m a → item_ok m b → item_eq (E:=E) a b = Ok (bool_decide (item_rank a = item_rank b)).
Proof.
  intros Ha Hb. apply item_eq_rank; [by apply item_ok_keyed..|]. intros k k' Hk Hk' He.
  destruct (item_ok_key a Ha) as (q & Hq & Hqa), (item_ok_key b Hb) as (q' & Hq' & Hqb). simplify_eq.
  destruct Hm as [_ Hs]. destruct (Hs _ _ _ _ _ _ (io_known m a Ha) (io_known m b Hb) Hqa Hqb) as [Hc Hs'].
  apply Hs' in He as [He _]. rewrite He, (tc_refl key_cmp) in Hc. by apply N.compare_eq.
Qed.

Lemma item_cmp_order {E} a b : item_ok m a → item_ok m b →
  ∃ c, item_cmp (E:=E) a b = Ok c ∧ (c = Eq ↔ same_item a b) ∧ (item_order a b ≠ Eq → c = item_order a b) ∧
    item_eq (E:=E) a b = Ok (bool_decide (c = Eq)) ∧ (c = Eq → item_hash_input (E:=E) a = item_hash_input b).
Proof.
  intros Ha Hb. pose proof (item_ok_keyed a Ha) as Hka. pose proof (item_ok_keyed b Hb) as Hkb.
  exists (item_rank_cmp (item_rank a) (item_rank b)).
  destruct (item_ok_key a Ha) as (k & Hk & Hfk), (item_ok_key b Hb) as (k' & Hk' & Hfk').
  destruct Hm as [_ Hspec]. destruct (Hspec _ _ _ _ _ _ (io_known m a Ha) (io_known m b Hb) Hfk Hfk') as [Hc He].
  assert (item_rank_cmp (item_rank a) (item_rank b) = Eq ↔ item_rank a = item_rank b) as Heq by apply tc_eq.
  split_and!.
  - by apply item_cmp_rank.
  - rewrite Heq. by apply item_rank_same.
  - unfold item_rank_cmp, item_rank, item_order, pair_cmp. rewrite Hk, Hk'. cbn [from_option id fst snd]. rewrite Hc.
    unfold item_content. by destruct (then_cmp _ (Bool.compare _ _)).
  - rewrite item_eq_ok by done. f_equal. by apply bool_decide_ext.
  - intros Hr%Heq. by apply item_hash_rank.
Qed.
End meaning.

(** C21: on a grammar whose productions can be read, the keys of every production
    and dot can be computed without a panic, and comparing items by their keys is
    comparing them by dot, variable, content and flag; items are equal exactly
    when these agree and, with the flag, their completed symbols, and equal items
    hash alike. *)
Theorem item_keys_correct (E H : Type) (str_pool : StrPool H) (g : SyntaxGrammar) :
  grammar_ok str_pool g →
  ∃ m, new_key_map (E:=E) str_pool g = Ok m ∧
    (∀ id dot, known g id dot → ∃ k, key_for g m id dot k) ∧
    ∀ a b, item_ok g m a → item_ok g m b →
    ∃ c, item_cmp (E:=E) a b = Ok c ∧ (c = Eq ↔ same_item str_pool g a b) ∧
      (item_order str_pool g a b ≠ Eq → c = item_order str_pool g a b) ∧
      item_eq (E:=E) a b = Ok (bool_decide (c = Eq)) ∧ (c = Eq → item_hash_input (E:=E) a = item_hash_input b).
Proof.
  intros Hg. destruct (new_key_map_spec str_pool g Hg (E:=E)) as (m & Hm & Hspec). exists m.
  split; [done|]. split; [apply Hspec|]. intros a b. by apply item_cmp_order.
Qed.
End Item.

(** ** Witness: two productions that differ in their second symbol, whose items are
    equal after it unless the flag is set. *)
Definition item_example_pool : StrPool (list (N * N)) := mkPool [120; 121]%N [mkSpan 0 1; mkSpan 1 2] [].
Definition item_example_grammar : SyntaxGrammar :=
  let step k f := pack (terminal k) (PName 1) (Some Right) (Some (mkAlias 2 true)) f 3 in
  mkSyntaxGrammar [] [] [] [] [] [] None [] []
    [step 1 None; step 2 (Some 1); step 3 None; step 1 None; step 4 (Some 1); step 3 None]%N
    [mkProduction 0 3 0 false; mkProduction 3 3 0 false] [(0, 2)]%N.
Definition item_example (m : Item.ItemKeyMap) (id : N) (flag : bool) : Item.ParseItem :=
  Item.mkItem 0 2 id (default [] (Item.km_keys m !! N.to_nat id)) flag.
Example item_example_keys :
  let m := match Item.new_key_map (E:=Empty_set) item_example_pool item_example_grammar with Ok m => m | _ => Item.mkKeyMap [] [] end in
  Item.item_cmp (E:=Empty_set) (item_example m 0 false) (item_example m 1 false) = Ok Eq ∧
  Item.item_cmp (E:=Empty_set) (item_example m 0 true) (item_example m 1 true) = Ok Lt.
Proof. vm_compute. done. Qed.
Lemma item_example_step_readable k f :
  f = None ∨ f = Some 1%N →
  Item.step_readable item_example_pool (pack (terminal k) (PName 1) (Some Right) (Some (mkAlias 2 true)) f 3).
Proof.
  intros Hf. split.
  - exists (PName 1). split; [by destruct Hf as [->| ->]|]. by exists [120%N].
  - exists (Some (mkAlias 2 true)). split; [by destruct Hf as [->| ->]|]. by exists [121%N].
  - exists f. split; [by destruct Hf as [->| ->]|]. destruct Hf as [->| ->]; [done|]. by exists [120%N].
Qed.
Lemma item_example_ok : Item.grammar_ok item_example_pool item_example_grammar.
Proof.
  split; [|reflexivity].
  intros [|[|id]] Hid; [eexists; split; [reflexivity|]..|cbn in Hid; lia];
    repeat (apply Forall_cons; split; [apply item_example_step_readable; auto|]); constructor.
Qed.
Lemma item_keys_correct_witness :
  ∃ m, Item.new_key_map (E:=Empty_set) item_example_pool item_example_grammar = Ok m ∧
    ∀ a b, Item.item_ok item_example_grammar m a → Item.item_ok item_example_grammar m b →
    ∃ c, Item.item_cmp (E:=Empty_set) a b = Ok c ∧ (c = Eq ↔ Item.same_item item_example_pool item_example_grammar a b).
Proof.
  destruct (Item.item_keys_correct Empty_set _ item_example_pool item_example_grammar item_example_ok) as (m & Hm & _ & Hitems).
  exists m. split; [exact Hm|]. intros a b Ha Hb. destruct (Hitems a b Ha Hb) as (c & Hc & Heq & _). exists c. split; [exact Hc|exact Heq].
Defined.
