(* ===== verification/ItemSets.v ===== *)
(** * [build_tables/item_set_builder.rs]: item sets and their closures

    The builder computes, for every symbol, the tokens that can begin and end it,
    and, for every variable, the items that its expansion adds to an item set with
    the tokens that can follow them.  The worklists are bounded by fuel.  An
    [FxHashMap] that is iterated is a finite map with an unspecified order of
    iteration. *)
From S2P Require Import Prelude BitVec Symbols TokenSet Grammars Lookaheads Items.

(** The order of iteration of [FxHashMap], a parameter: some permutation of the
    entries, which may depend on how the map was filled, the seed. *)
Class MapIter := {
  map_iter : N → ∀ {K A} `{Countable K}, gmap K A → list (K * A);
  map_iter_perm : ∀ n {K A} `{Countable K} (m : gmap K A), map_iter n m ≡ₚ map_to_list m;
}.
#[global, program] Instance to_list_iter : MapIter := {| map_iter _ _ _ _ _ m := map_to_list m |}.
Next Obligation. done. Qed.

Module Builder.
Record AdditionInfo := mkInfo {
  ai_lookaheads : LookaheadSetId;
  ai_reserved_lookaheads : N;
  ai_propagates_lookaheads : bool;
  ai_contains_word : bool;
}.
#[global] Instance AdditionInfo_eq_dec : EqDecision AdditionInfo.
Proof. solve_decision. Defined.
Record TransitiveClosureAddition := mkAddition { ta_item : Item.ParseItem; ta_info : AdditionInfo }.
Record FollowSetInfo := mkFollow {
  fs_lookaheads : TokenSet;
  fs_reserved_lookaheads : N;
  fs_propagates_lookaheads : bool;
}.
Definition default_follow : FollowSetInfo := mkFollow TokenSet.new 0 false.

(** The maps of the builder that are keyed by symbols. *)
Record SymbolSets := mkSymbolSets {
  first_sets : gmap Symbol TokenSet;
  reserved_first_sets : gmap Symbol N;
  last_sets : gmap Symbol TokenSet;
}.
Record ParseItemSetBuilder (I : Type) := mkBuilder {
  symbol_sets : SymbolSets;
  first_set_ids : gmap Symbol LookaheadSetId;
  pool : Lookahead.LookaheadSetPool I;
  transitive_closure_additions : list (list TransitiveClosureAddition);
}.
Arguments mkBuilder {I}.
Arguments symbol_sets {I}.
Arguments first_set_ids {I}.
Arguments pool {I}.
Arguments transitive_closure_additions {I}.

(** [PartialEq] of additions is that of their items and infos. *)
Definition addition_eq {E} (a b : TransitiveClosureAddition) : outcome E bool :=
  c ← Item.item_eq (ta_item a) (ta_item b); Ok (c && bool_decide (ta_info a = ta_info b)).
Fixpoint contains_addition {E} (v : list TransitiveClosureAddition) (a : TransitiveClosureAddition) : outcome E bool :=
  match v with
  | [] => Ok false
  | x :: v => c ← addition_eq x a; if c : bool then Ok true else contains_addition v a
  end.
Definition find_or_push {E} (v : list TransitiveClosureAddition) (a : TransitiveClosureAddition) :
    outcome E (list TransitiveClosureAddition) :=
  c ← contains_addition v a; Ok (if c : bool then v else v ++ [a]).

Section builder.
Context {I : Type} {IS : IndexSet I} {MI : MapIter}.
Context (g : SyntaxGrammar) (n_terminals : nat) (inlines : InlinedProductionMap) (key_map : Item.ItemKeyMap).

Definition n_externals : nat := length (external_tokens g).

(** ** FIRST and LAST sets *)
Definition add_token {E} (s : SymbolSets) (symbol : Symbol) : outcome E SymbolSets :=
  set ← TokenSet.insert (TokenSet.with_capacity (N.of_nat n_terminals) (N.of_nat n_externals)) symbol;
  Ok (mkSymbolSets (<[symbol := set]> (first_sets s)) (<[symbol := 0%N]> (reserved_first_sets s)) (<[symbol := set]> (last_sets s))).
Definition add_tokens {E} : outcome E SymbolSets :=
  s ← for_each add_token (mkSymbolSets ∅ ∅ ∅) (map (λ i, terminal (N.of_nat i)) (seq 0 n_terminals));
  for_each add_token s (map (λ i, external (N.of_nat i)) (seq 0 n_externals)).

(** The state of the loop over [symbols_to_process]; the loops for FIRST and LAST
    differ in the step that they look at and in that only the first one maximizes
    the set of reserved words. *)
Record EdgeState := mkEdge {
  ed_set : TokenSet;
  ed_reserved : N;
  processed_non_terminals : gset Symbol;
  symbols_to_process : list Symbol;
}.
Definition visit_symbol {E} (st : EdgeState) (symbol : Symbol) : outcome E EdgeState :=
  if is_terminal symbol || is_external symbol then
    s ← TokenSet.insert (ed_set st) symbol;
    Ok (mkEdge s (ed_reserved st) (processed_non_terminals st) (symbols_to_process st))
  else if decide (symbol ∈ processed_non_terminals st) then Ok st
  else Ok (mkEdge (ed_set st) (ed_reserved st) ({[symbol]} ∪ processed_non_terminals st) (symbol :: symbols_to_process st)).
Definition edge_prod {E} (pick : list ProductionStep → option ProductionStep) (reserve : N → N → N)
    (st : EdgeState) (prod_id : N) : outcome E EdgeState :=
  p ← production g prod_id;
  match pick (pr_steps p) with
  | Some step =>
      st ← visit_symbol st (step_symbol step);
      Ok (mkEdge (ed_set st) (reserve (ed_reserved st) (step_reserved step)) (processed_non_terminals st) (symbols_to_process st))
  | None => Ok st
  end.
Fixpoint edge_loop {E} (pick : list ProductionStep → option ProductionStep) (reserve : N → N → N) (fuel : nat)
    (st : EdgeState) : outcome E EdgeState :=
  match fuel with
  | O => OutOfFuel
  | S fuel =>
      match symbols_to_process st with
      | [] => Ok st
      | sym :: stack =>
          ids ← variable_prod_ids g (N.to_nat (index sym));
          st ← for_each (edge_prod pick reserve)
                 (mkEdge (ed_set st) (ed_reserved st) (processed_non_terminals st) stack) (prod_range ids);
          edge_loop pick reserve fuel st
      end
  end.
Definition add_variable_sets {E} (fuel : nat) (s : SymbolSets) (i : nat) : outcome E SymbolSets :=
  let symbol := non_terminal (N.of_nat i) in
  first ← edge_loop head N.max fuel
            (mkEdge (default TokenSet.new (first_sets s !! symbol)) (default 0%N (reserved_first_sets s !! symbol)) ∅ [symbol]);
  last ← edge_loop last (λ r _, r) fuel (mkEdge (default TokenSet.new (last_sets s !! symbol)) 0 ∅ [symbol]);
  Ok (mkSymbolSets (<[symbol := ed_set first]> (first_sets s)) (<[symbol := ed_reserved first]> (reserved_first_sets s))
        (<[symbol := ed_set last]> (last_sets s))).
Definition new_symbol_sets {E} (fuel : nat) : outcome E SymbolSets :=
  s ← add_tokens;
  for_each (add_variable_sets fuel) s (seq 0 (length (sg_variables g))).

(** Each FIRST set interned. *)
Definition intern_first_sets (s : SymbolSets) (p : Lookahead.LookaheadSetPool I) :
    gmap Symbol LookaheadSetId * Lookahead.LookaheadSetPool I :=
  foldl (λ '(ids, p) '(symbol, set), let '(id, p) := Lookahead.intern_ref p set in (<[symbol := id]> ids, p))
    (∅, p) (map_iter 0 (first_sets s)).

(** ** Follow sets *)
Definition eof_lookaheads {E} : outcome E TokenSet := TokenSet.insert TokenSet.new end_.

(** An entry of the stack: a variable with what can follow it. *)
Record FollowTask := mkTask { ft_sym_ix : N; ft_lookaheads : TokenSet; ft_reserved : N; ft_propagates : bool }.
(** Merges a task into the info of its variable; [true] when that adds something. *)
Definition merge_follow (info : FollowSetInfo) (t : FollowTask) : bool * FollowSetInfo :=
  let '(did_add, lookaheads) := TokenSet.insert_all (fs_lookaheads info) (ft_lookaheads t) in
  let '(did_add, reserved) :=
    if (fs_reserved_lookaheads info <? ft_reserved t)%N then (true, ft_reserved t) else (did_add, fs_reserved_lookaheads info) in
  (did_add || (ft_propagates t && negb (fs_propagates_lookaheads info)),
   mkFollow lookaheads reserved (fs_propagates_lookaheads info || ft_propagates t)).
Definition follow_prod {E} (s : SymbolSets) (eof : TokenSet) (t : FollowTask) (stack : list FollowTask) (prod_id : N) :
    outcome E (list FollowTask) :=
  p ← production g prod_id;
  match first_symbol p with
  | Some symbol =>
      if is_non_terminal symbol then
        match pr_steps p !! 1 with
        | Some next_step =>
            first ← unwrap (first_sets s !! step_symbol next_step);
            reserved ← unwrap (reserved_first_sets s !! step_symbol next_step);
            Ok (mkTask (index symbol) first reserved false :: stack)
        | None =>
            if pr_requires_eof_lookahead p then Ok (mkTask (index symbol) eof 0 false :: stack)
            else Ok (mkTask (index symbol) (ft_lookaheads t) (ft_reserved t) (ft_propagates t) :: stack)
        end
      else Ok stack
  | None => Ok stack
  end.
Fixpoint follow_loop {E} (s : SymbolSets) (eof : TokenSet) (fuel : nat) (infos : gmap N FollowSetInfo) (stack : list FollowTask) :
    outcome E (gmap N FollowSetInfo) :=
  match fuel with
  | O => OutOfFuel
  | S fuel =>
      match stack with
      | [] => Ok infos
      | t :: stack =>
          let '(did_add, info) := merge_follow (default default_follow (infos !! ft_sym_ix t)) t in
          let infos := <[ft_sym_ix t := info]> infos in
          if did_add then
            ids ← variable_prod_ids g (N.to_nat (ft_sym_ix t));
            stack ← for_each (follow_prod s eof t) stack (prod_range ids);
            follow_loop s eof fuel infos stack
          else follow_loop s eof fuel infos stack
      end
  end.

(** ** Additions *)
Definition adding : Type := Lookahead.LookaheadSetPool I * list TransitiveClosureAddition.
(** The item of a production, with the lookaheads of a production that must be at
    the end of the input replaced. *)
Definition push_addition {E} (eof : TokenSet) (info : AdditionInfo) (st : adding) (item : Item.ParseItem) : outcome E adding :=
  let '(p, adds) := st in
  prod ← production g (Item.prod_id item);
  let '(item_info, p) :=
    if pr_requires_eof_lookahead prod then let '(id, p) := Lookahead.intern_ref p eof in (mkInfo id 0 false false, p)
    else (info, p) in
  adds ← find_or_push adds (mkAddition item item_info);
  Ok (p, adds).
Definition add_production {E} (eof : TokenSet) (variable_index : N) (info : AdditionInfo) (st : adding) (prod_id : N) :
    outcome E adding :=
  ks ← Item.keys_for key_map prod_id;
  let item := Item.mkItem (wrap_u32 variable_index) 0 prod_id ks false in
  match inlined_prod_ids inlines prod_id 0 with
  | Some ids =>
      for_each (λ st id, ks ← Item.keys_for key_map id; push_addition eof info st (Item.substitute_production item id ks)) st ids
  | None => push_addition eof info st item
  end.
Definition add_variable {E} (eof : TokenSet) (st : adding) (entry : N * FollowSetInfo) : outcome E adding :=
  let '(variable_index, follow) := entry in
  if decide (non_terminal variable_index ∈ variables_to_inline g) then Ok st
  else
    let '(p, adds) := st in
    let '(id, p) := Lookahead.intern_ref p (fs_lookaheads follow) in
    contains_word ← match word_token g with Some w => TokenSet.contains (fs_lookaheads follow) w | None => Ok false end;
    let info := mkInfo id (fs_reserved_lookaheads follow) (fs_propagates_lookaheads follow) contains_word in
    ids ← variable_prod_ids g (N.to_nat variable_index);
    for_each (add_production eof variable_index info) (p, adds) (prod_range ids).
Definition add_additions {E} (fuel : nat) (s : SymbolSets) (eof : TokenSet)
    (st : Lookahead.LookaheadSetPool I * list (list TransitiveClosureAddition)) (i : nat) :
    outcome E (Lookahead.LookaheadSetPool I * list (list TransitiveClosureAddition)) :=
  let '(p, additions) := st in
  infos ← follow_loop s eof fuel ∅ [mkTask (N.of_nat i) TokenSet.new 0 true];
  adds ← vec_get additions i;
  '(p, adds) ← for_each (add_variable eof) (p, adds) (map_iter (N.of_nat (S i)) infos);
  additions ← vec_set additions i adds;
  Ok (p, additions).

Definition builder_new {E} (edge_fuel follow_fuel : nat) : outcome E (ParseItemSetBuilder I) :=
  s ← new_symbol_sets edge_fuel;
  let '(ids, p) := intern_first_sets s Lookahead.new_pool in
  eof ← eof_lookaheads;
  '(p, additions) ← for_each (add_additions follow_fuel s eof) (p, replicate (length (sg_variables g)) [])
                      (seq 0 (length (sg_variables g)));
  Ok (mkBuilder s ids p additions).

(** ** The closure of an item set *)
Definition max_reserved (e : Item.ParseItemSetEntry) (r : N) : Item.ParseItemSetEntry :=
  Item.mkEntry (Item.item e) (Item.lookaheads e) (N.max (Item.following_reserved_word_set e) r).
Definition set_lookaheads (e : Item.ParseItemSetEntry) (id : LookaheadSetId) : Item.ParseItemSetEntry :=
  Item.mkEntry (Item.item e) id (Item.following_reserved_word_set e).

Definition closing : Type := Lookahead.LookaheadSetPool I * Item.ParseItemSet.
Definition apply_addition {E} (following_tokens : LookaheadSetId) (following_reserved_tokens : N) (st : closing)
    (a : TransitiveClosureAddition) : outcome E closing :=
  let '(p, set) := st in
  '(j, set) ← Item.item_set_insert set (ta_item a);
  e ← vec_get (Item.entries set) j;
  '(id, p) ← Lookahead.union p (Item.lookaheads e) (ai_lookaheads (ta_info a));
  let e := set_lookaheads e id in
  let e := if ai_contains_word (ta_info a) then max_reserved e (ai_reserved_lookaheads (ta_info a)) else e in
  if ai_propagates_lookaheads (ta_info a) then
    '(id, p) ← Lookahead.union p (Item.lookaheads e) following_tokens;
    let e := set_lookaheads e id in
    word ← match word_token g with
           | Some w => tokens ← Lookahead.get p following_tokens; TokenSet.contains tokens w
           | None => Ok false
           end;
    let e := if word : bool then max_reserved e following_reserved_tokens else e in
    Ok (p, Item.update_entry set j e)
  else Ok (p, Item.update_entry set j e).
Definition add_item {E} (b : ParseItemSetBuilder I) (set : Item.ParseItemSet) (entry : Item.ParseItemSetEntry) :
    outcome E (ParseItemSetBuilder I * Item.ParseItemSet) :=
  step ← Item.item_step (Item.item entry) g;
  '(p, set) ←
    match step with
    | Some step =>
        if is_non_terminal (step_symbol step) then
          next_step ← Item.item_step (Item.successor (Item.item entry)) g;
          '(following_tokens, following_reserved_tokens) ←
            match next_step with
            | Some next_step =>
                id ← unwrap (first_set_ids b !! step_symbol next_step);
                r ← unwrap (reserved_first_sets (symbol_sets b) !! step_symbol next_step);
                Ok (id, r)
            | None => Ok (Item.lookaheads entry, Item.following_reserved_word_set entry)
            end;
          adds ← vec_get (transitive_closure_additions b) (N.to_nat (index (step_symbol step)));
          for_each (apply_addition following_tokens following_reserved_tokens) (pool b, set) adds
        else Ok (pool b, set)
    | None => Ok (pool b, set)
    end;
  '(j, set) ← Item.item_set_insert set (Item.item entry);
  e ← vec_get (Item.entries set) j;
  '(id, p) ← Lookahead.union p (Item.lookaheads e) (Item.lookaheads entry);
  let e := max_reserved (set_lookaheads e id) (Item.following_reserved_word_set entry) in
  Ok (mkBuilder (symbol_sets b) (first_set_ids b) p (transitive_closure_additions b), Item.update_entry set j e).
Definition close_entry {E} (st : ParseItemSetBuilder I * Item.ParseItemSet) (entry : Item.ParseItemSetEntry) :
    outcome E (ParseItemSetBuilder I * Item.ParseItemSet) :=
  match inlined_prod_ids inlines (Item.prod_id (Item.item entry)) (Item.step_index (Item.item entry)) with
  | Some ids =>
      for_each (λ '(b, set) id,
        ks ← Item.keys_for key_map id;
        add_item b set (Item.mkEntry (Item.substitute_production (Item.item entry) id ks) (Item.lookaheads entry)
                          (Item.following_reserved_word_set entry))) st ids
  | None => let '(b, set) := st in add_item b set entry
  end.
Definition transitive_closure {E} (b : ParseItemSetBuilder I) (item_set : Item.ParseItemSet) :
    outcome E (ParseItemSetBuilder I * Item.ParseItemSet) :=
  for_each close_entry (b, Item.mkItemSet []) (Item.entries item_set).

(** Queries. *)
Definition first_set {E} (b : ParseItemSetBuilder I) (symbol : Symbol) : outcome E TokenSet :=
  unwrap (first_sets (symbol_sets b) !! symbol).
Definition reserved_first_set {E} (b : ParseItemSetBuilder I) (symbol : Symbol) : outcome E (option TokenSet) :=
  match reserved_first_sets (symbol_sets b) !! symbol with
  | Some id => s ← vec_get (reserved_word_sets g) (N.to_nat id); Ok (Some s)
  | None => Ok None
  end.
Definition last_set {E} (b : ParseItemSetBuilder I) (symbol : Symbol) : outcome E TokenSet :=
  unwrap (last_sets (symbol_sets b) !! symbol).
End builder.
End Builder.
