(* ===== verification/FirstSets.v ===== *)
(** * [build_tables/item_set_builder.rs]: what the FIRST and LAST sets are

    The tokens that can begin a variable are those that begin a production of a
    variable reachable through the first symbols of productions; the worklist
    computes them, and visits every variable at most twice. *)
From S2P Require Import Prelude Symbols TokenSet Grammars Lookaheads Items ItemSets.
Import Builder.

(** ** Grammars whose symbols exist *)
Section grammar.
Context (g : SyntaxGrammar) (n_terminals : nat).

Definition n_vars : nat := length (sg_variables g).
Definition prod_at (id : N) : ProdRef := Item.the_prod g (S (N.to_nat id)).
Definition steps_at (id : N) : list ProductionStep := pr_steps (prod_at id).
(** The productions of a variable. *)
Definition var_ids (v : N) : list N := match sg_var_prods g !! N.to_nat v with Some r => prod_range r | None => [] end.

(** A symbol of the grammar. *)
Definition symbol_known (s : Symbol) : Prop :=
  match kind s with
  | Terminal => N.to_nat (index s) < n_terminals
  | External => N.to_nat (index s) < n_externals g
  | NonTerminal => N.to_nat (index s) < n_vars
  | _ => False
  end.
#[export] Instance symbol_known_dec s : Decision (symbol_known s).
Proof. unfold symbol_known. destruct (kind s); exact _. Defined.
Definition a_token (s : Symbol) : Prop := kind s = Terminal ∨ kind s = External.
Record symbols_ok : Prop := {
  sy_prods : ∀ id, N.to_nat id < length (sg_productions g) → ∀ E, production (E:=E) g id = Ok (prod_at id);
  sy_steps : ∀ id, N.to_nat id < length (sg_productions g) → Forall (λ s, symbol_known (step_symbol s)) (steps_at id);
  sy_vars : length (sg_var_prods g) = n_vars;
  sy_ranges : ∀ v r, sg_var_prods g !! v = Some r → N.to_nat r.2 ≤ length (sg_productions g);
  sy_terminals : (N.of_nat n_terminals + 1 < U32)%N;
  sy_externals : (N.of_nat (n_externals g) + 1 < U32)%N;
  sy_count : (N.of_nat n_vars < U32)%N;
}.
Context (Hg : symbols_ok).

Lemma elem_of_prod_range r id : id ∈ prod_range r ↔ (r.1 ≤ id < r.2)%N.
Proof.
  unfold prod_range. rewrite elem_of_map. split.
  - intros (k & -> & Hk%elem_of_seq). lia.
  - intros Hid. exists (N.to_nat id). split; [lia|]. apply elem_of_seq. lia.
Qed.
Lemma var_ids_known v id : id ∈ var_ids v → N.to_nat id < length (sg_productions g).
Proof.
  unfold var_ids. destruct (sg_var_prods g !! N.to_nat v) as [r|] eqn:Hr; [|by intros ?%not_elem_of_nil].
  rewrite elem_of_prod_range. intros Hid. pose proof (sy_ranges Hg _ _ Hr). lia.
Qed.
Lemma variable_prod_ids_ok {E} v : N.to_nat v < n_vars → ∃ r, variable_prod_ids (E:=E) g (N.to_nat v) = Ok r ∧ prod_range r = var_ids v.
Proof.
  intros Hv. rewrite <- (sy_vars Hg) in Hv. destruct (lookup_lt_is_Some_2 _ _ Hv) as [r Hr]. exists r.
  unfold var_ids. rewrite Hr. split; [by apply vec_get_Some|done].
Qed.
Lemma step_known id s : N.to_nat id < length (sg_productions g) → s ∈ steps_at id → symbol_known (step_symbol s).
Proof. intros Hid Hs. pose proof (sy_steps Hg id Hid) as Hf. rewrite Forall_forall in Hf. by apply Hf. Qed.
Lemma known_token s : symbol_known s → a_token s → TokenSet.token s.
Proof.
  pose proof (sy_terminals Hg). pose proof (sy_externals Hg).
  unfold symbol_known, a_token, TokenSet.token. intros Hk [Hs|Hs]; rewrite Hs in *; lia.
Qed.
Lemma known_cases s : symbol_known s → a_token s ∨ ∃ w, s = mkSymbol NonTerminal w ∧ N.to_nat w < n_vars.
Proof. destruct s as [k i]. unfold symbol_known, a_token. cbn. destruct k; try done; eauto. Qed.
Lemma is_token_spec s : symbol_known s → is_terminal s || is_external s = true ↔ a_token s.
Proof. unfold is_terminal, is_external, a_token. rewrite orb_true_iff, !bool_decide_eq_true. done. Qed.
Lemma token_not_nt s : a_token s → kind s ≠ NonTerminal.
Proof. intros [Hs|Hs]; by rewrite Hs. Qed.

(** ** Reachability through the borders of productions *)
Section border.
Context (pick : list ProductionStep → option ProductionStep) (pick_in : ∀ l s, pick l = Some s → s ∈ l).

(** The border symbols of a variable, and those of the variables reachable. *)
Definition border (v : N) (s : ProductionStep) : Prop := ∃ id, id ∈ var_ids v ∧ pick (steps_at id) = Some s.
Definition border_edge (v w : N) : Prop := ∃ s, border v s ∧ step_symbol s = mkSymbol NonTerminal w.
Definition borders (v : N) (s : ProductionStep) : Prop := ∃ w, rtc border_edge v w ∧ border w s.

Lemma border_known v s : border v s → symbol_known (step_symbol s).
Proof. intros (id & Hid & Hs). eapply step_known; [by eapply var_ids_known|by eapply pick_in]. Qed.
Lemma border_edge_known v w : border_edge v w → N.to_nat w < n_vars.
Proof. intros (s & Hs & Hw). apply border_known in Hs. by rewrite Hw in Hs. Qed.

(** The state of the loop, with the set [D] of variables whose productions are
    done and the productions [ids] done of the one in work. *)
Definition worked (D : gset N) (ids : list N) (s : ProductionStep) : Prop :=
  (∃ w, w ∈ D ∧ border w s) ∨ ∃ id, id ∈ ids ∧ pick (steps_at id) = Some s.
Record edge_inv (reserve : N → N → N) (D : gset N) (ids : list N) (st : EdgeState) : Prop := {
  ei_wf : TokenSet.wf (ed_set st);
  ei_set : ∀ t, t ∈ toks (ed_set st) ↔ a_token t ∧ ∃ s, worked D ids s ∧ step_symbol s = t;
  ei_processed : ∀ x, x ∈ processed_non_terminals st ↔ kind x = NonTerminal ∧ ∃ s, worked D ids s ∧ step_symbol s = x;
  ei_reserved : reserve = N.max → ∀ n, (0 < n)%N → (n ≤ ed_reserved st)%N ↔ ∃ s, worked D ids s ∧ (n ≤ step_reserved s)%N;
}.

Lemma worked_snoc D ids id s : worked D (ids ++ [id]) s ↔ worked D ids s ∨ pick (steps_at id) = Some s.
Proof. unfold worked. setoid_rewrite elem_of_app. setoid_rewrite list_elem_of_singleton. naive_solver. Qed.
Lemma worked_done D v s : worked D (var_ids v) s ↔ worked ({[v]} ∪ D) [] s.
Proof. unfold worked, border. setoid_rewrite elem_of_union. setoid_rewrite elem_of_singleton. setoid_rewrite elem_of_nil. naive_solver. Qed.
Lemma edge_inv_ext reserve D ids D' ids' st :
  (∀ s, worked D ids s ↔ worked D' ids' s) → edge_inv reserve D ids st → edge_inv reserve D' ids' st.
Proof.
  intros He [H1 H2 H3 H4]. split; [done|..].
  - intros t. rewrite H2. by setoid_rewrite He.
  - intros t. rewrite H3. by setoid_rewrite He.
  - intros Hr n Hn. rewrite H4 by done. by setoid_rewrite He.
Qed.

(** The potential: what is on the stack and what can still be pushed. *)
Definition nt_symbols : gset Symbol := list_to_set (map (λ i, mkSymbol NonTerminal (N.of_nat i)) (seq 0 n_vars)).
Lemma elem_of_nt_symbols x : x ∈ nt_symbols ↔ kind x = NonTerminal ∧ N.to_nat (index x) < n_vars.
Proof.
  unfold nt_symbols. rewrite elem_of_list_to_set, elem_of_map. split.
  - intros (i & -> & Hi%elem_of_seq). cbn. split; [done|lia].
  - intros [Hk Hi]. exists (N.to_nat (index x)). split; [|apply elem_of_seq; lia].
    destruct x as [k i]. cbn in *. subst k. f_equal. lia.
Qed.
Lemma size_nt_symbols : size nt_symbols ≤ n_vars.
Proof.
  unfold nt_symbols. rewrite size_list_to_set; [by rewrite length_map, length_seq|].
  apply NoDup_fmap_2; [|apply NoDup_seq]. intros x y [= Heq]. lia.
Qed.

Lemma edge_prod_spec {E} reserve D ids st id :
  edge_inv reserve D ids st → N.to_nat id < length (sg_productions g) →
  ∃ st', edge_prod (E:=E) g pick reserve st id = Ok st' ∧ edge_inv reserve D (ids ++ [id]) st' ∧
    length (symbols_to_process st') + size (processed_non_terminals st) =
      length (symbols_to_process st) + size (processed_non_terminals st') ∧
    symbols_to_process st ⊆ symbols_to_process st' ∧
    (∀ x, x ∈ symbols_to_process st' → x ∈ symbols_to_process st ∨ x ∈ processed_non_terminals st') ∧
    ∀ x, x ∈ processed_non_terminals st' → x ∈ processed_non_terminals st ∨ x ∈ symbols_to_process st'.
Proof.
  intros [H1 H2 H3 H4] Hid. unfold edge_prod. rewrite (sy_prods Hg) by done. cbn [mbind outcome_bind].
  fold (steps_at id). destruct (pick (steps_at id)) as [s|] eqn:Hs.
  2: { exists st. split; [done|]. split_and!; [|done|done|auto|auto]. eapply edge_inv_ext; [|by split].
       intros s. rewrite worked_snoc, Hs. naive_solver. }
  assert (symbol_known (step_symbol s)) as Hk by (eapply step_known; [done|by eapply pick_in]).
  assert (∀ P : ProductionStep → Prop, (∃ s', worked D (ids ++ [id]) s' ∧ P s') ↔ (∃ s', worked D ids s' ∧ P s') ∨ P s) as Hex.
  { intros P. setoid_rewrite worked_snoc. rewrite Hs. naive_solver. }
  unfold visit_symbol. destruct (known_cases _ Hk) as [Ht|(w & Hw & Hlt)].
  - rewrite (proj2 (is_token_spec _ Hk) Ht).
    destruct (TokenSet.insert_spec (E:=E) _ _ H1 (known_token _ Hk Ht)) as (set & -> & Hwf & Hset). cbn [mbind outcome_bind].
    eexists. split; [done|]. cbn. split_and!; [split; cbn|done|done|auto|auto].
    + done.
    + intros t. rewrite Hset, elem_of_union, elem_of_singleton, H2, Hex. naive_solver.
    + intros x. rewrite H3, Hex. pose proof (token_not_nt _ Ht). naive_solver.
    + intros -> n Hn. rewrite Hex, N.max_le_iff, H4 by done. done.
  - rewrite Hw. cbn. case_decide as Hp; cbn.
    + eexists. split; [done|]. split_and!; [split; cbn|done|done|auto|auto].
      * done.
      * intros t. rewrite H2, Hex, Hw. unfold a_token. naive_solver.
      * intros x. rewrite H3, Hex, Hw. apply H3 in Hp. naive_solver.
      * intros -> n Hn. by rewrite Hex, N.max_le_iff, H4 by done.
    + eexists. split; [done|]. split_and!; [split; cbn|..]; cbn.
      * done.
      * intros t. rewrite H2, Hex, Hw. unfold a_token. naive_solver.
      * intros x. rewrite elem_of_union, elem_of_singleton, H3, Hex, Hw. naive_solver.
      * intros -> n Hn. by rewrite Hex, N.max_le_iff, H4 by done.
      * rewrite size_union by set_solver. rewrite size_singleton. lia.
      * intros x Hx. by apply list_elem_of_further.
      * intros x [->|Hx]%elem_of_cons; [right; set_solver|by left].
      * intros x [->%elem_of_singleton|Hx]%elem_of_union; [right; apply list_elem_of_here|by left].
Qed.

(** The loop, from the variables in [D] done. *)
Record loop_inv (reserve : N → N → N) (v : N) (D : gset N) (st : EdgeState) : Prop := {
  li_edge : edge_inv reserve D [] st;
  li_reach : ∀ w, w ∈ D → rtc border_edge v w;
  li_stack : ∀ x, x ∈ symbols_to_process st → ∃ w, x = mkSymbol NonTerminal w ∧ N.to_nat w < n_vars ∧ rtc border_edge v w;
  li_start : v ∈ D ∨ mkSymbol NonTerminal v ∈ symbols_to_process st;
  li_cover : ∀ x, x ∈ processed_non_terminals st → index x ∈ D ∨ x ∈ symbols_to_process st;
}.
Lemma processed_size reserve D ids st : edge_inv reserve D ids st → (∀ id, id ∈ ids → N.to_nat id < length (sg_productions g)) →
  size (processed_non_terminals st) ≤ n_vars.
Proof.
  intros Hi Hids. etrans; [|apply size_nt_symbols]. apply subseteq_size. intros x Hx.
  apply (ei_processed _ _ _ _ Hi) in Hx as [Hk (s & Hs & <-)]. apply elem_of_nt_symbols. split; [done|].
  assert (symbol_known (step_symbol s)) as Hsk.
  { destruct Hs as [(w & _ & Hb)|(id & Hid & Hp)]; [by eapply border_known|].
    eapply step_known; [by apply Hids|by eapply pick_in]. }
  unfold symbol_known in Hsk. by rewrite Hk in Hsk.
Qed.

Lemma edge_loop_step {E} reserve v D st w stack :
  loop_inv reserve v D st → symbols_to_process st = mkSymbol NonTerminal w :: stack →
  ∃ r st', variable_prod_ids (E:=E) g (N.to_nat w) = Ok r ∧
    for_each (edge_prod (E:=E) g pick reserve) (mkEdge (ed_set st) (ed_reserved st) (processed_non_terminals st) stack) (prod_range r) = Ok st' ∧
    loop_inv reserve v ({[w]} ∪ D) st' ∧
    length (symbols_to_process st') + (n_vars - size (processed_non_terminals st')) < length (symbols_to_process st) + (n_vars - size (processed_non_terminals st)).
Proof.
  intros [H1 H2 H3 H4 H5] Hst. rewrite Hst in *.
  destruct (H3 _ (list_elem_of_here _ _)) as (w' & [= <-] & Hw & Hreach).
  destruct (variable_prod_ids_ok (E:=E) w Hw) as (r & Hr & Hids). exists r. rewrite Hids.
  set (st0 := mkEdge _ _ _ stack).
  set (P ids (st' : EdgeState) := edge_inv reserve D ids st' ∧
    length (symbols_to_process st') + size (processed_non_terminals st) = length stack + size (processed_non_terminals st') ∧
    stack ⊆ symbols_to_process st' ∧
    (∀ x, x ∈ symbols_to_process st' → x ∈ stack ∨ x ∈ processed_non_terminals st') ∧
    (∀ x, x ∈ processed_non_terminals st' → x ∈ processed_non_terminals st ∨ x ∈ symbols_to_process st') ∧
    processed_non_terminals st ⊆ processed_non_terminals st').
  destruct (for_each_inv (edge_prod (E:=E) g pick reserve) P (var_ids w) st0) as (st' & Hfor & HP).
  - split_and!; cbn; [|lia|done|auto|auto|done]. destruct H1. by split.
  - intros d x rest s Heq (Q1 & Q2 & Q3 & Q4 & Q5 & Q6).
    assert (N.to_nat x < length (sg_productions g)) as Hx.
    { apply (var_ids_known w). rewrite Heq. apply elem_of_app. right. apply list_elem_of_here. }
    destruct (edge_prod_spec (E:=E) reserve D d s x Q1 Hx) as (s' & -> & E1 & E2 & E3 & E4 & E5).
    exists s'. split; [done|].
    assert (processed_non_terminals s ⊆ processed_non_terminals s') as Hsub.
    { intros y Hy. apply (ei_processed _ _ _ _ E1). apply (ei_processed _ _ _ _ Q1) in Hy as [? (z & ? & ?)].
      split; [done|]. exists z. rewrite worked_snoc. auto. }
    split_and!; [done|lia|set_solver| | |set_solver].
    + intros y [Hy|Hy]%E4; [|by right]. destruct (Q4 y Hy); [by left|right; set_solver].
    + intros y [Hy|Hy]%E5; [|by right]. destruct (Q5 y Hy); [by left|right; set_solver].
  - exists st'. destruct HP as (Q1 & Q2 & Q3 & Q4 & Q5 & Q6).
    split; [done|]. split; [done|]. split.
    + assert (edge_inv reserve ({[w]} ∪ D) [] st') as Hinv by (eapply edge_inv_ext; [intros; apply worked_done|done]).
      split; [done| | | |].
      * intros x [->%elem_of_singleton|Hx]%elem_of_union; [done|by apply H2].
      * intros x [Hx|Hx]%Q4; [apply H3; by apply list_elem_of_further|].
        apply (ei_processed _ _ _ _ Hinv) in Hx as [Hk (s & Hs & Hsx)].
        exists (index x). assert (x = mkSymbol NonTerminal (index x)) as Hxe by (destruct x; cbn in *; by subst).
        split; [done|]. destruct Hs as [(u & Hu & Hb)|(id & ?%not_elem_of_nil & _)]; [|done].
        assert (border_edge u (index x)) as He by (exists s; split; [done|congruence]).
        split; [by eapply border_edge_known|]. eapply rtc_r; [|exact He].
        apply elem_of_union in Hu as [->%elem_of_singleton|Hu]; [done|by apply H2].
      * destruct H4 as [Hv|[[= ->]|Hv]%elem_of_cons]; [left; set_solver|left; set_solver|right; set_solver].
      * intros x [Hx|Hx]%Q5; [|by right]. apply H5 in Hx as [Hx|[->|Hx]%elem_of_cons]; [left; set_solver|left; set_solver|right; set_solver].
    + cbn. assert (size (processed_non_terminals st') ≤ n_vars) by (eapply processed_size; [exact Q1|intros; by eapply var_ids_known]).
      pose proof (subseteq_size _ _ Q6). lia.
Qed.

Lemma edge_loop_inv {E} reserve v fuel D st :
  loop_inv reserve v D st → length (symbols_to_process st) + (n_vars - size (processed_non_terminals st)) < fuel →
  ∃ D' st', edge_loop (E:=E) g pick reserve fuel st = Ok st' ∧ loop_inv reserve v D' st' ∧ symbols_to_process st' = [].
Proof.
  revert D st. induction fuel as [|fuel IH]; intros D st Hinv Hf; [lia|]. cbn [edge_loop].
  destruct (symbols_to_process st) as [|x stack] eqn:Hst; [by exists D, st|].
  destruct (li_stack _ _ _ _ Hinv x) as (w & -> & _); [rewrite Hst; apply list_elem_of_here|].
  cbn [index]. destruct (edge_loop_step (E:=E) _ _ _ _ _ _ Hinv Hst) as (r & st' & -> & Hfor & Hinv' & Hlt). cbn [mbind outcome_bind].
  rewrite Hfor. cbn [mbind outcome_bind]. apply (IH _ _ Hinv'). rewrite Hst in Hlt. lia.
Qed.

(** The loop ends and finds the borders of the variable. *)
Lemma edge_loop_spec {E} reserve v fuel :
  N.to_nat v < n_vars → S n_vars < fuel →
  ∃ st, edge_loop (E:=E) g pick reserve fuel (mkEdge TokenSet.new 0 ∅ [mkSymbol NonTerminal v]) = Ok st ∧
    TokenSet.wf (ed_set st) ∧ (∀ t, t ∈ toks (ed_set st) ↔ a_token t ∧ ∃ s, borders v s ∧ step_symbol s = t) ∧
    (reserve = N.max → ∀ n, (0 < n)%N → (n ≤ ed_reserved st)%N ↔ ∃ s, borders v s ∧ (n ≤ step_reserved s)%N).
Proof.
  intros Hv Hf. destruct (edge_loop_inv (E:=E) reserve v fuel ∅ (mkEdge TokenSet.new 0 ∅ [mkSymbol NonTerminal v])) as (D & st & Hl & Hinv & Hst).
  - assert (∀ s, ¬ worked ∅ [] s) as Hw by (intros s [(w & ?%not_elem_of_empty & _)|(id & ?%not_elem_of_nil & _)]; done).
    split; cbn.
    + split; cbn; [apply TokenSet.wf_new| | |].
      * intros t. rewrite TokenSet.toks_new. set_solver.
      * intros t. set_solver.
      * intros _ n Hn. split; [lia|]. by intros (s & ?%Hw & _).
    + set_solver.
    + intros x ->%list_elem_of_singleton. exists v. split_and!; [done|done|apply rtc_refl].
    + right. apply list_elem_of_here.
    + set_solver.
  - cbn. lia.
  - exists st. split; [done|]. destruct Hinv as [H1 H2 _ H4 H5]. rewrite Hst in H4, H5.
    assert (v ∈ D) as Hvd by (destruct H4 as [|?%not_elem_of_nil]; done).
    assert (∀ u w, u ∈ D → border_edge u w → w ∈ D) as Hcl.
    { intros u w Hu (s & Hs & Hw). destruct (H5 (mkSymbol NonTerminal w)) as [|?%not_elem_of_nil]; [|done|done].
      apply (ei_processed _ _ _ _ H1). split; [done|]. exists s. split; [left; by exists u|done]. }
    assert (∀ s, worked D [] s ↔ borders v s) as Hw.
    { intros s. split.
      - intros [(w & Hw & Hb)|(id & ?%not_elem_of_nil & _)]; [|done]. exists w. split; [by apply H2|done].
      - intros (w & Hr & Hb). left. exists w. split; [|done]. clear -Hr Hcl Hvd. induction Hr; eauto. }
    destruct H1 as [W1 W2 _ W4]. split; [done|]. split.
    + intros t. rewrite W2. by setoid_rewrite Hw.
    + intros Hm n Hn. rewrite W4 by done. by setoid_rewrite Hw.
Qed.
End border.

(** ** The sets of every symbol *)
(** The tokens that begin or end a symbol. *)
Definition bordering (pick : list ProductionStep → option ProductionStep) (x t : Symbol) : Prop :=
  a_token x ∧ t = x ∨ kind x = NonTerminal ∧ a_token t ∧ ∃ s, borders pick (index x) s ∧ step_symbol s = t.
(** The reserved word sets at the beginning of a symbol: the largest one. *)
Definition reserving (x : Symbol) (n : N) : Prop := kind x = NonTerminal ∧ ∃ s, borders head (index x) s ∧ (n ≤ step_reserved s)%N.

Lemma head_in (l : list ProductionStep) s : head l = Some s → s ∈ l.
Proof. destruct l; [done|]. intros [= ->]. apply list_elem_of_here. Qed.
Lemma last_in (l : list ProductionStep) s : last l = Some s → s ∈ l.
Proof. destruct (exists_last_or_nil l) as [->|(k & x & ->)]; [done|]. rewrite last_snoc. intros [= ->]. set_solver. Qed.

Record symbol_entry (s : SymbolSets) (x : Symbol) : Prop := {
  se_first : ∃ set, first_sets s !! x = Some set ∧ TokenSet.wf set ∧ ∀ t, t ∈ toks set ↔ bordering head x t;
  se_reserved : ∃ r, reserved_first_sets s !! x = Some r ∧ ∀ n, (0 < n)%N → (n ≤ r)%N ↔ reserving x n;
  se_last : ∃ set, last_sets s !! x = Some set ∧ TokenSet.wf set ∧ ∀ t, t ∈ toks set ↔ bordering last x t;
}.
Definition no_entry (s : SymbolSets) (x : Symbol) : Prop :=
  first_sets s !! x = None ∧ reserved_first_sets s !! x = None ∧ last_sets s !! x = None.
Definition same_entry (s s' : SymbolSets) (x : Symbol) : Prop :=
  first_sets s' !! x = first_sets s !! x ∧ reserved_first_sets s' !! x = reserved_first_sets s !! x ∧
  last_sets s' !! x = last_sets s !! x.
(** Entries for the symbols of [P] only. *)
Definition entries_for (P : Symbol → Prop) (s : SymbolSets) : Prop :=
  ∀ x, (P x → symbol_entry s x) ∧ (¬ P x → no_entry s x).
Lemma symbol_entry_same s s' x : same_entry s s' x → symbol_entry s x → symbol_entry s' x.
Proof. intros (H1 & H2 & H3) [? ? ?]. split; by rewrite ?H1, ?H2, ?H3. Qed.
Lemma no_entry_same s s' x : same_entry s s' x → no_entry s x → no_entry s' x.
Proof. intros (H1 & H2 & H3). unfold no_entry. by rewrite H1, H2, H3. Qed.

Lemma entries_for_add P s s' x :
  entries_for P s → symbol_entry s' x → (∀ y, y ≠ x → same_entry s s' y) → entries_for (λ y, P y ∨ y = x) s'.
Proof.
  intros Hs Hx Hy y. destruct (decide (y = x)) as [->|Hne]; [split; [done|tauto]|]. destruct (Hs y) as [H1 H2]. split.
  - intros [HP|]; [|done]. eapply symbol_entry_same; [by apply Hy|by apply H1].
  - intros HP. eapply no_entry_same; [by apply Hy|]. apply H2. tauto.
Qed.
Lemma entries_for_ext P Q s : (∀ x, P x ↔ Q x) → entries_for P s → entries_for Q s.
Proof. intros HPQ Hs x. rewrite <- HPQ. apply Hs. Qed.

Lemma add_token_spec {E} P s x :
  entries_for P s → symbol_known x → a_token x →
  ∃ s', add_token (E:=E) g n_terminals s x = Ok s' ∧ entries_for (λ y, P y ∨ y = x) s'.
Proof.
  intros Hs Hk Ht. unfold add_token.
  destruct (TokenSet.insert_spec (E:=E) _ x (TokenSet.wf_with_capacity (N.of_nat n_terminals) (N.of_nat (n_externals g))) (known_token _ Hk Ht))
    as (set & -> & Hwf & Hset). cbn [mbind outcome_bind]. rewrite TokenSet.toks_with_capacity in Hset.
  assert (∀ pick t, t ∈ toks set ↔ bordering pick x t) as Hb.
  { intros pick t. rewrite Hset, elem_of_union, elem_of_singleton. unfold bordering. pose proof (token_not_nt _ Ht). set_solver. }
  eexists. split; [done|]. eapply entries_for_add; [done|..].
  - split; cbn; rewrite lookup_insert_eq; [exists set; split_and!; [done|done|apply Hb]| |exists set; split_and!; [done|done|apply Hb]].
    exists 0%N. split; [done|]. intros n Hn. split; [lia|]. intros [? _]. by pose proof (token_not_nt _ Ht).
  - intros y Hy. unfold same_entry. cbn. by rewrite !lookup_insert_ne.
Qed.
Lemma add_token_list {E} P s l :
  entries_for P s → (∀ x, x ∈ l → symbol_known x ∧ a_token x) →
  ∃ s', for_each (add_token (E:=E) g n_terminals) s l = Ok s' ∧ entries_for (λ y, P y ∨ y ∈ l) s'.
Proof.
  intros Hs Hl. apply (for_each_inv _ (λ d, entries_for (λ y, P y ∨ y ∈ d))).
  - eapply entries_for_ext; [|done]. intros x. set_solver.
  - intros d x r st -> Hst. destruct (Hl x) as [? ?]; [set_solver|].
    destruct (add_token_spec (E:=E) _ st x Hst) as (s' & -> & Hs'); [done|done|]. exists s'. split; [done|].
    eapply entries_for_ext; [|done]. intros y. set_solver.
Qed.

Lemma add_variable_sets_spec {E} P fuel s i :
  entries_for P s → i < n_vars → S n_vars < fuel → ¬ P (mkSymbol NonTerminal (N.of_nat i)) →
  ∃ s', add_variable_sets (E:=E) g fuel s i = Ok s' ∧ entries_for (λ y, P y ∨ y = mkSymbol NonTerminal (N.of_nat i)) s'.
Proof.
  intros Hs Hi Hf HnP. unfold add_variable_sets. pose proof (sy_count Hg).
  assert (non_terminal (N.of_nat i) = mkSymbol NonTerminal (N.of_nat i)) as -> by (unfold non_terminal; by rewrite wrap_u32_small by lia).
  destruct (Hs (mkSymbol NonTerminal (N.of_nat i))) as [_ Hno]. destruct (Hno HnP) as (-> & -> & ->). cbn [default from_option id].
  destruct (edge_loop_spec head head_in (E:=E) N.max (N.of_nat i) fuel) as (f & -> & F1 & F2 & F3); [lia|done|]. cbn [mbind outcome_bind].
  destruct (edge_loop_spec last last_in (E:=E) (λ r _, r) (N.of_nat i) fuel) as (l & -> & L1 & L2 & _); [lia|done|]. cbn [mbind outcome_bind].
  eexists. split; [done|]. eapply entries_for_add; [done|..].
  - split; cbn; rewrite lookup_insert_eq; eexists; split; [done|..].
    + split; [done|]. intros t. rewrite F2. unfold bordering, a_token. naive_solver.
    + done.
    + intros n Hn. rewrite F3 by done. unfold reserving. naive_solver.
    + done.
    + split; [done|]. intros t. rewrite L2. unfold bordering, a_token. naive_solver.
  - intros y Hy. unfold same_entry. cbn. by rewrite !lookup_insert_ne.
Qed.

(** The computation ends, and the maps have entries for exactly the symbols of the
    grammar. *)
Lemma new_symbol_sets_spec {E} fuel :
  S n_vars < fuel → ∃ s, new_symbol_sets (E:=E) g n_terminals fuel = Ok s ∧ entries_for symbol_known s.
Proof.
  intros Hf. unfold new_symbol_sets, add_tokens. pose proof (sy_terminals Hg). pose proof (sy_externals Hg).
  set (ts := map (λ i, terminal (N.of_nat i)) (seq 0 n_terminals)). set (es := map (λ i, external (N.of_nat i)) (seq 0 (n_externals g))).
  assert (∀ x, x ∈ ts ↔ kind x = Terminal ∧ symbol_known x) as Hts.
  { intros x. unfold ts. rewrite elem_of_map. split.
    - intros (i & -> & [_ Hi]%elem_of_seq). unfold terminal, symbol_known. cbn. rewrite wrap_u32_small by lia. split; [done|lia].
    - destruct x as [k i]. cbn. intros [-> Hi]. unfold symbol_known in Hi. cbn in Hi. exists (N.to_nat i).
      unfold terminal. rewrite wrap_u32_small by lia. rewrite N2Nat.id, elem_of_seq. split; [done|lia]. }
  assert (∀ x, x ∈ es ↔ kind x = External ∧ symbol_known x) as Hes.
  { intros x. unfold es. rewrite elem_of_map. split.
    - intros (i & -> & [_ Hi]%elem_of_seq). unfold external, symbol_known. cbn. rewrite wrap_u32_small by lia. split; [done|lia].
    - destruct x as [k i]. cbn. intros [-> Hi]. unfold symbol_known in Hi. cbn in Hi. exists (N.to_nat i).
      unfold external. rewrite wrap_u32_small by lia. rewrite N2Nat.id, elem_of_seq. split; [done|lia]. }
  destruct (add_token_list (E:=E) (λ _, False) (mkSymbolSets ∅ ∅ ∅) ts) as (s1 & -> & H1).
  { intros x. split; [done|]. intros _. unfold no_entry. cbn. by rewrite !lookup_empty. }
  { intros x [? ?]%Hts. split; [done|by left]. }
  cbn [mbind outcome_bind]. destruct (add_token_list (E:=E) _ s1 es H1) as (s2 & -> & H2).
  { intros x [? ?]%Hes. split; [done|by right]. }
  cbn [mbind outcome_bind].
  destruct (for_each_inv (add_variable_sets (E:=E) g fuel)
    (λ d, entries_for (λ x, x ∈ ts ∨ x ∈ es ∨ kind x = NonTerminal ∧ N.to_nat (index x) ∈ d)) (seq 0 (length (sg_variables g))) s2) as (s & Hs & Hfin).
  - eapply entries_for_ext; [|exact H2]. intros x. cbn. set_solver.
  - intros d i r st Heq Hst. pose proof (f_equal (λ l, l !! length d) Heq) as Hi. cbn in Hi. rewrite lookup_mid in Hi.
    apply lookup_seq in Hi as [-> Hi]. cbn in *.
    assert (∀ j, j ∈ d → j < length d) as Hd.
    { intros j [k Hk]%list_elem_of_lookup. pose proof (lookup_lt_Some _ _ _ Hk).
      assert (seq 0 (length (sg_variables g)) !! k = Some j) as Hj by (rewrite Heq; by apply lookup_app_l_Some).
      apply lookup_seq in Hj. cbn in Hj. lia. }
    destruct (add_variable_sets_spec (E:=E) _ fuel st (length d) Hst) as (s' & -> & Hs'); [done|done| |].
    { cbn. rewrite Hts, Hes. cbn. rewrite Nat2N.id. intros [[? _]|[[? _]|[_ ?%Hd]]]; [done|done|lia]. }
    exists s'. split; [done|]. eapply entries_for_ext; [|exact Hs']. intros [k x]. cbn. rewrite elem_of_app, list_elem_of_singleton.
    split; [intros [?|[= -> ->]]; [naive_solver|rewrite Nat2N.id; auto]|].
    intros [?|[?|[-> [?|Hx]]]]; [auto|auto|auto|]. right. f_equal. lia.
  - exists s. split; [done|]. eapply entries_for_ext; [|exact Hfin]. intros x. cbn. rewrite Hts, Hes, elem_of_seq.
    unfold symbol_known, n_vars. destruct (kind x); naive_solver lia.
Qed.

(** Leftmost and rightmost derivation: [t] is at the border of what [x] derives,
    and a step [s] with reserved words is at the beginning of it. *)
Inductive derives (pick : list ProductionStep → option ProductionStep) : Symbol → Symbol → Prop :=
  | derives_token t : a_token t → derives pick t t
  | derives_prod v id s t : id ∈ var_ids v → pick (steps_at id) = Some s → derives pick (step_symbol s) t →
      derives pick (mkSymbol NonTerminal v) t.
Inductive derives_step : Symbol → ProductionStep → Prop :=
  | derives_step_here v id s : id ∈ var_ids v → head (steps_at id) = Some s → derives_step (mkSymbol NonTerminal v) s
  | derives_step_prod v id s s' : id ∈ var_ids v → head (steps_at id) = Some s → derives_step (step_symbol s) s' →
      derives_step (mkSymbol NonTerminal v) s'.

Lemma borders_inv pick v s : borders pick v s ↔
  border pick v s ∨ ∃ w s', border pick v s' ∧ step_symbol s' = mkSymbol NonTerminal w ∧ borders pick w s.
Proof.
  split.
  - intros (w & Hr & Hb). inversion Hr as [|? u ? (s' & Hs' & Hu) Hr']; simplify_eq; [by left|]. right. exists u, s'. split_and!; [done|done|by exists w].
  - intros [Hb|(w & s' & Hs' & Hw & u & Hr & Hb)]; [by exists v|]. exists u. split; [|done]. eapply rtc_l; [by exists s'|done].
Qed.
Lemma bordering_derives pick x t : symbol_known x → (∀ l s, pick l = Some s → s ∈ l) → bordering pick x t ↔ derives pick x t.
Proof.
  intros Hx Hpick. split.
  - intros [[Ht ->]|(Hk & Ht & s & (w & Hr & id & Hid & Hs) & <-)]; [by constructor|].
    destruct x as [k v]. cbn in *. subst k. clear Hx. induction Hr as [v|v u w (s' & (id' & Hid' & Hs') & Hu) _ IH].
    + econstructor; [done|done|by constructor].
    + econstructor; [done|done|]. rewrite Hu. by apply IH.
  - induction 1 as [t Ht|v id s t Hid Hs _ IH]; [by left|]. right. assert (border pick v s) as Hb by by exists id.
    pose proof (step_known id s (var_ids_known v id Hid) (Hpick _ _ Hs)) as Hsk.
    destruct (IH Hsk) as [[Ht ->]|(Hk & Ht & s' & Hs' & <-)].
    + split_and!; [done|done|]. exists s. split; [by exists v; split; [apply rtc_refl|]|done].
    + split_and!; [done|done|]. exists s'. split; [|done]. apply borders_inv. right. exists (index (step_symbol s)), s.
      split_and!; [done|by destruct (step_symbol s); cbn in *; subst|done].
Qed.
Lemma reserving_derives x n : reserving x n ↔ ∃ s, derives_step x s ∧ (n ≤ step_reserved s)%N.
Proof.
  unfold reserving. split.
  - intros (Hk & s & (w & Hr & id & Hid & Hs) & Hn). exists s. split; [|done]. destruct x as [k v]. cbn in *. subst k.
    induction Hr as [v|v u w (s' & (id' & Hid' & Hs') & Hu) _ IH]; [by eapply derives_step_here|].
    eapply derives_step_prod; [done|done|]. rewrite Hu. by apply IH.
  - intros (s & Hd & Hn). induction Hd as [v id s Hid Hs|v id s s' Hid Hs _ IH]; (split; [done|]).
    + exists s. split; [|done]. exists v. split; [apply rtc_refl|by exists id].
    + destruct (IH Hn) as (Hk & r & Hr & Hrn). exists r. split; [|done]. apply borders_inv. right.
      exists (index (step_symbol s)), s. split_and!; [by exists id|by destruct (step_symbol s); cbn in *; subst|done].
Qed.

(** C10: when the symbols of the grammar exist, the loops over the symbols to
    process end within two more steps than there are variables, without a panic;
    the maps have entries for exactly the symbols of the grammar, the sets of a
    symbol are exactly the tokens that can begin and end what it derives, and its
    reserved word set is the largest one of the steps that can begin it. *)
Theorem symbol_sets_correct (E : Type) (fuel : nat) :
  S n_vars < fuel → ∃ s, new_symbol_sets (E:=E) g n_terminals fuel = Ok s ∧
    (∀ x, symbol_known x → ∃ first r final,
       first_sets s !! x = Some first ∧ reserved_first_sets s !! x = Some r ∧ last_sets s !! x = Some final ∧
       TokenSet.wf first ∧ TokenSet.wf final ∧ (∀ t, t ∈ toks first ↔ derives head x t) ∧ (∀ t, t ∈ toks final ↔ derives last x t) ∧
       ∀ n, (0 < n)%N → (n ≤ r)%N ↔ ∃ s, derives_step x s ∧ (n ≤ step_reserved s)%N) ∧
    ∀ x, ¬ symbol_known x → first_sets s !! x = None ∧ reserved_first_sets s !! x = None ∧ last_sets s !! x = None.
Proof.
  intros Hf. destruct (new_symbol_sets_spec (E:=E) fuel Hf) as (s & Hs & Hent). exists s. split; [done|].
  split; intros x Hx; destruct (Hent x) as [H1 H2]; [|by apply H2].
  destruct (H1 Hx) as [(f & Hf1 & Hf2 & Hf3) (r & Hr1 & Hr2) (l & Hl1 & Hl2 & Hl3)]. exists f, r, l. split_and!; [done..| | |].
  - intros t. rewrite Hf3. apply bordering_derives; [done|apply head_in].
  - intros t. rewrite Hl3. apply bordering_derives; [done|apply last_in].
  - intros n Hn. rewrite Hr2 by done. apply reserving_derives.
Qed.
End grammar.

(** ** Witness: [s → e 1], [e → 2 | e 3], where token 2 is the word token. *)
Definition expr_grammar : SyntaxGrammar :=
  let step x := pack x PNone None None None 0 in
  mkSyntaxGrammar [mkSyntaxVariable 1 Named; mkSyntaxVariable 2 Named] [] [] [] [] [] (Some (terminal 2)) [] []
    [step (non_terminal 1); step (terminal 1); step (terminal 2); step (non_terminal 1); step (terminal 3)]%N
    [mkProduction 0 2 0 false; mkProduction 2 1 0 false; mkProduction 3 2 0 false] [(0, 1); (1, 3)]%N.
Lemma expr_prods id : N.to_nat id < 3 → id = 0%N ∨ id = 1%N ∨ id = 2%N.
Proof. lia. Qed.
Lemma expr_symbols : symbols_ok expr_grammar 4.
Proof.
  split; [| | | |done..].
  - intros id [->|[->| ->]]%expr_prods E; done.
  - intros id [->|[->| ->]]%expr_prods; repeat constructor.
  - done.
  - intros [|[|v]] r Hr; [injection Hr as <-; cbn; lia..|done].
Qed.
Example expr_sets_run :
  match new_symbol_sets (E:=Empty_set) expr_grammar 4 4 with
  | Ok s => (TokenSet.iter <$> first_sets s !! non_terminal 0, TokenSet.iter <$> last_sets s !! non_terminal 0,
             TokenSet.iter <$> last_sets s !! non_terminal 1)
  | _ => (None, None, None)
  end%N = (Some (Ok [terminal 2]), Some (Ok [terminal 1]), Some (Ok [terminal 2; terminal 3]))%N.
Proof. vm_compute. reflexivity. Qed.
Lemma symbol_sets_correct_witness :
  ∃ s first, new_symbol_sets (E:=Empty_set) expr_grammar 4 4 = Ok s ∧ first_sets s !! non_terminal 0 = Some first ∧
    ∀ t, t ∈ toks first ↔ derives expr_grammar head (non_terminal 0) t.
Proof.
  destruct (symbol_sets_correct expr_grammar 4 expr_symbols Empty_set 4) as (s & Hs & Hsets & _); [apply le_n|].
  destruct (Hsets (non_terminal 0)) as (first & r & final & Hf & _ & _ & _ & _ & Ht & _); [vm_compute; lia|].
  exists s, first. split; [exact Hs|]. split; [exact Hf|exact Ht].
Defined.
