(* ===== verification/FollowSets.v ===== *)
(** * [build_tables/item_set_builder.rs]: what can follow a variable in an expansion

    In an expansion of a variable [v], every variable [x] that a chain of first
    symbols leads to has tokens that always can follow it, and may also be followed
    by what follows [v].  The worklist computes both by propagation until nothing is
    added; the least fixpoint is the inductive [follows]. *)
From S2P Require Import Prelude Symbols TokenSet Grammars Lookaheads Items ItemSets FirstSets.
Import Builder.

(** What a follow set says, fact by fact: a token, that the tokens after [v]
    propagate, a lower bound of the set of reserved words. *)
Inductive atom := ATok (t : Symbol) | APropagates | AReserved (n : N).
Definition holds (lookaheads : TokenSet) (reserved : N) (propagates : bool) (a : atom) : Prop :=
  match a with
  | ATok t => t ∈ toks lookaheads
  | APropagates => propagates = true
  | AReserved n => (0 < n ≤ reserved)%N
  end.
Definition info_has (i : FollowSetInfo) : atom → Prop :=
  holds (fs_lookaheads i) (fs_reserved_lookaheads i) (fs_propagates_lookaheads i).
Definition task_has (t : FollowTask) : atom → Prop := holds (ft_lookaheads t) (ft_reserved t) (ft_propagates t).

Lemma default_follow_has a : ¬ info_has default_follow a.
Proof. destruct a; cbn; [rewrite TokenSet.toks_new; set_solver|done|lia]. Qed.

Lemma merge_follow_spec info t :
  TokenSet.wf (fs_lookaheads info) → TokenSet.wf (ft_lookaheads t) →
  let '(c, info') := merge_follow info t in
  TokenSet.wf (fs_lookaheads info') ∧ (∀ a, info_has info' a ↔ info_has info a ∨ task_has t a) ∧
  (c = false → ∀ a, task_has t a → info_has info a) ∧ (c = true → ∃ a, task_has t a ∧ ¬ info_has info a).
Proof.
  intros Hi Ht. unfold merge_follow.
  destruct (TokenSet.insert_all (fs_lookaheads info) (ft_lookaheads t)) as [c l] eqn:Hl.
  destruct (toks_insert_all_spec _ _ _ _ Hi Ht Hl) as (Hwf & Htoks & Hc).
  destruct (if (fs_reserved_lookaheads info <? ft_reserved t)%N then (true, ft_reserved t) else (c, fs_reserved_lookaheads info))
    as [c' r] eqn:Hr.
  assert (r = N.max (fs_reserved_lookaheads info) (ft_reserved t) ∧
    c' = bool_decide (¬ toks (ft_lookaheads t) ⊆ toks (fs_lookaheads info)) || (fs_reserved_lookaheads info <? ft_reserved t)%N) as [-> ->].
  { destruct (N.ltb_spec (fs_reserved_lookaheads info) (ft_reserved t)); injection Hr as <- <-; rewrite ?orb_true_r, ?orb_false_r; split; (done || lia). }
  split_and!; [done| | |].
  - intros [x| |n]; cbn.
    + by rewrite Htoks, elem_of_union.
    + by rewrite orb_true_iff.
    + lia.
  - rewrite !orb_false_iff, bool_decide_eq_false, N.ltb_ge, andb_false_iff, negb_false_iff. intros [[Hsub Hle] Hp] [x| |n]; cbn.
    + destruct (decide (toks (ft_lookaheads t) ⊆ toks (fs_lookaheads info))) as [Hs|]; [apply Hs|done].
    + destruct Hp as [->|]; done.
    + lia.
  - rewrite !orb_true_iff, bool_decide_eq_true, N.ltb_lt, andb_true_iff, negb_true_iff. intros [[Hsub|Hlt]|[Hp Hn]].
    + destruct (not_set_Forall_Exists (λ x, x ∈ toks (fs_lookaheads info)) (toks (ft_lookaheads t)) Hsub) as (x & ? & ?). by exists (ATok x).
    + exists (AReserved (ft_reserved t)). cbn. lia.
    + exists APropagates. cbn. split; [done|]. by rewrite Hn.
Qed.

Section follow.
Context (g : SyntaxGrammar) (n_terminals : nat) (Hg : symbols_ok g n_terminals).
Context (sets : SymbolSets) (Hsets : entries_for g (symbol_known g n_terminals) sets).
Context (eof : TokenSet) (Heof : TokenSet.wf eof) (Heof_toks : toks eof = {[end_]}).
Notation steps_at := (steps_at g).
Notation var_ids := (var_ids g).
Notation leads_to := (border_edge g head).

(** Production [id] begins with variable [x]. *)
Definition starts_with (id x : N) : Prop := ∃ s, head (steps_at id) = Some s ∧ step_symbol s = mkSymbol NonTerminal x.
(** The facts that hold at the beginning of a symbol. *)
Definition first_atom (x : Symbol) (a : atom) : Prop :=
  match a with
  | ATok t => bordering g head x t
  | APropagates => False
  | AReserved n => (0 < n)%N ∧ reserving g x n
  end.
(** What production [id] says of its first symbol whatever follows the production,
    and whether what follows the production follows the symbol. *)
Definition gives (id : N) (a : atom) : Prop :=
  match steps_at id !! 1 with
  | Some s => first_atom (step_symbol s) a
  | None => pr_requires_eof_lookahead (prod_at g id) = true ∧ a = ATok end_
  end.
Definition passes (id : N) : Prop := steps_at id !! 1 = None ∧ pr_requires_eof_lookahead (prod_at g id) = false.

(** What can follow variable [x] in an expansion of [v]. *)
Inductive follows (v : N) : N → atom → Prop :=
  | follows_start : follows v v APropagates
  | follows_gives w id x a : rtc leads_to v w → id ∈ var_ids w → starts_with id x → gives id a → follows v x a
  | follows_passes w id x a : follows v w a → id ∈ var_ids w → starts_with id x → passes id → follows v x a.

(** A symbol after the first one begins with some token. *)
Definition productive : Prop :=
  ∀ v id x s, id ∈ var_ids v → starts_with id x → steps_at id !! 1 = Some s → ∃ t, bordering g head (step_symbol s) t.
Context (Hprod : productive).

Lemma starts_leads w id x : id ∈ var_ids w → starts_with id x → leads_to w x.
Proof. intros Hid (s & Hs & Hx). exists s. split; [by exists id|done]. Qed.
Lemma leads_starts w x : leads_to w x → ∃ id, id ∈ var_ids w ∧ starts_with id x.
Proof. intros (s & (id & Hid & Hs) & Hx). exists id. split; [done|]. by exists s. Qed.
Lemma leads_known v x : N.to_nat v < n_vars g → rtc leads_to v x → N.to_nat x < n_vars g.
Proof.
  intros Hv Hr. apply rtc_inv_r in Hr as [<-|(y & _ & He)]; [done|]. by eapply (border_edge_known g n_terminals Hg head head_in).
Qed.
Lemma follows_leads v x a : follows v x a → rtc leads_to v x.
Proof.
  induction 1 as [|w id x a Hr Hid Hs _|w id x a _ IH Hid Hs _]; [done|..]; eapply rtc_r; eauto using starts_leads.
Qed.
Lemma gives_or_passes v id x : id ∈ var_ids v → starts_with id x → (∃ a, gives id a) ∨ passes id.
Proof.
  intros Hid Hs. unfold gives, passes. destruct (steps_at id !! 1) as [s|] eqn:H1.
  - left. destruct (Hprod v id x s Hid Hs H1) as [t Ht]. by exists (ATok t).
  - destruct (pr_requires_eof_lookahead (prod_at g id)); [left; by exists (ATok end_)|by right].
Qed.

(** One production of the variable of a task. *)
Lemma follow_prod_spec {E} t stack v id :
  TokenSet.wf (ft_lookaheads t) → id ∈ var_ids v →
  ∃ pushed, follow_prod (E:=E) g sets eof t stack id = Ok (pushed ++ stack) ∧ length pushed ≤ 1 ∧
    (∀ u, u ∈ pushed → TokenSet.wf (ft_lookaheads u) ∧ starts_with id (ft_sym_ix u) ∧
       ∀ a, task_has u a ↔ gives id a ∨ passes id ∧ task_has t a) ∧
    (∀ x, starts_with id x → ∃ u, u ∈ pushed ∧ ft_sym_ix u = x).
Proof.
  intros Ht Hid. pose proof (var_ids_known g n_terminals Hg v id Hid) as Hlt.
  unfold follow_prod. rewrite (sy_prods g n_terminals Hg) by done. cbn [mbind outcome_bind].
  unfold first_symbol. fold (steps_at id). destruct (head (steps_at id)) as [s|] eqn:Hs; cbn [fmap option_fmap option_map].
  2: { exists []. split_and!; [done|cbn; lia|by intros u ?%not_elem_of_nil|]. intros x (s' & Hs' & _). congruence. }
  destruct (is_non_terminal (step_symbol s)) eqn:Hnt.
  2: { exists []. split_and!; [done|cbn; lia|by intros u ?%not_elem_of_nil|]. intros x (s' & Hs' & Hx).
       unfold is_non_terminal in Hnt. apply bool_decide_eq_false in Hnt. simplify_eq. by rewrite Hx in Hnt. }
  unfold is_non_terminal in Hnt. apply bool_decide_eq_true in Hnt.
  assert (∀ u, ft_sym_ix u = index (step_symbol s) → TokenSet.wf (ft_lookaheads u) → (∀ a, task_has u a ↔ gives id a ∨ passes id ∧ task_has t a) →
    ∃ pushed, Ok (E:=E) (u :: stack) = Ok (pushed ++ stack) ∧ length pushed ≤ 1 ∧
    (∀ u, u ∈ pushed → TokenSet.wf (ft_lookaheads u) ∧ starts_with id (ft_sym_ix u) ∧
       ∀ a, task_has u a ↔ gives id a ∨ passes id ∧ task_has t a) ∧
    (∀ x, starts_with id x → ∃ u, u ∈ pushed ∧ ft_sym_ix u = x)) as Hpush.
  { intros u Hix Hwf Hu. exists [u]. split_and!; [done|cbn; lia| |].
    - intros u' ->%list_elem_of_singleton. split_and!; [done| |done]. exists s. split; [done|]. rewrite Hix. destruct (step_symbol s). cbn in *. by subst.
    - intros x (s' & Hs' & Hx). exists u. split; [apply list_elem_of_here|]. simplify_eq. by rewrite Hix, Hx. }
  unfold gives, passes in *. destruct (steps_at id !! 1) as [s1|] eqn:H1.
  - assert (symbol_known g n_terminals (step_symbol s1)) as Hk by (eapply step_known; [done|done|by eapply list_elem_of_lookup_2]).
    destruct (Hsets (step_symbol s1)) as [Hse _]. destruct (Hse Hk) as [(f & -> & Hwf & Hf) (r & -> & Hr) _]. cbn [unwrap mbind outcome_bind].
    apply Hpush; [done|done|]. intros [x| |n]; cbn.
    + rewrite Hf. naive_solver.
    + naive_solver.
    + destruct (decide (0 < n)%N); [rewrite <- Hr by done|]; naive_solver lia.
  - destruct (pr_requires_eof_lookahead (prod_at g id)) eqn:He.
    + apply Hpush; [done|done|]. intros [x| |n]; cbn.
      * rewrite Heof_toks, elem_of_singleton. naive_solver.
      * naive_solver.
      * split; [lia|]. naive_solver.
    + apply Hpush; [done|done|]. intros a. unfold task_has. cbn. naive_solver.
Qed.

(** A fact is known of [x], or is on the stack. *)
Definition known_of (infos : gmap N FollowSetInfo) (x : N) (a : atom) : Prop := ∃ i, infos !! x = Some i ∧ info_has i a.
Definition pending (infos : gmap N FollowSetInfo) (stack : list FollowTask) (x : N) (a : atom) : Prop :=
  known_of infos x a ∨ ∃ t, t ∈ stack ∧ ft_sym_ix t = x ∧ task_has t a.
Record follow_inv (v : N) (infos : gmap N FollowSetInfo) (stack : list FollowTask) : Prop := {
  fi_infos : ∀ x i, infos !! x = Some i → TokenSet.wf (fs_lookaheads i) ∧ (∃ a, info_has i a) ∧ ∀ a, info_has i a → follows v x a;
  fi_stack : ∀ t, t ∈ stack → TokenSet.wf (ft_lookaheads t) ∧ (∃ a, task_has t a) ∧ ∀ a, task_has t a → follows v (ft_sym_ix t) a;
  fi_start : pending infos stack v APropagates;
  fi_gives : ∀ w id x a, is_Some (infos !! w) → id ∈ var_ids w → starts_with id x → gives id a → pending infos stack x a;
  fi_passes : ∀ w id x a, known_of infos w a → id ∈ var_ids w → starts_with id x → passes id → pending infos stack x a;
}.

(** At the end, the facts known are those that follow. *)
Lemma follow_inv_end v infos : follow_inv v infos [] →
  (∀ x, is_Some (infos !! x) ↔ rtc leads_to v x) ∧ ∀ x a, known_of infos x a ↔ follows v x a.
Proof.
  intros [H1 _ H3 H4 H5].
  assert (∀ x a, pending infos [] x a → known_of infos x a) as Hk by (intros x a [?|(t & ?%not_elem_of_nil & _)]; done).
  assert (∀ x, rtc leads_to v x → is_Some (infos !! x)) as Hdom.
  { apply rtc_ind_r; [by destruct (Hk _ _ H3) as (i & -> & _)|]. intros x y Hr He IH.
    destruct (leads_starts _ _ He) as (id & Hid & Hs). destruct IH as [i Hi].
    assert (∃ a, known_of infos y a) as (a & j & -> & _); [|done].
    destruct (gives_or_passes _ _ _ Hid Hs) as [[a Ha]|Hp].
    - exists a. eapply Hk, (H4 x); [by exists i|done..].
    - destruct (H1 _ _ Hi) as (_ & [a Ha] & _). exists a. eapply Hk, (H5 x); [by exists i|done..]. }
  assert (∀ x a, known_of infos x a ↔ follows v x a) as Hka.
  { intros x a. split; [intros (i & Hi & Ha); by eapply H1|].
    induction 1 as [|w id x a Hr Hid Hs Hga|w id x a _ IH Hid Hs Hp]; apply Hk; eauto. }
  split; [|done]. intros x. split; [|apply Hdom]. intros [i Hi]. destruct (H1 _ _ Hi) as (_ & [a Ha] & _).
  apply (follows_leads v x a). apply Hka. by exists i.
Qed.

(** A pop that adds nothing, and one that adds something. *)
Lemma pending_pop infos infos' t stack stack' x a :
  (∀ b, known_of infos (ft_sym_ix t) b ∨ task_has t b → known_of infos' (ft_sym_ix t) b) →
  (∀ y b, y ≠ ft_sym_ix t → known_of infos y b → known_of infos' y b) → stack ⊆ stack' →
  pending infos (t :: stack) x a → pending infos' stack' x a.
Proof.
  intros Ht Hy Hs [Hk|(u & [->|Hu]%elem_of_cons & <- & Hua)].
  - left. destruct (decide (x = ft_sym_ix t)) as [->|]; [apply Ht; by left|by apply Hy].
  - left. apply Ht. by right.
  - right. exists u. set_solver.
Qed.
Lemma follow_inv_pop v infos t stack pushed info' :
  follow_inv v infos (t :: stack) →
  TokenSet.wf (fs_lookaheads info') → (∀ a, info_has info' a ↔ known_of infos (ft_sym_ix t) a ∨ task_has t a) →
  (∀ u, u ∈ pushed → TokenSet.wf (ft_lookaheads u) ∧ ∃ id, id ∈ var_ids (ft_sym_ix t) ∧ starts_with id (ft_sym_ix u) ∧
     ∀ a, task_has u a ↔ gives id a ∨ passes id ∧ task_has t a) →
  (∀ id x, id ∈ var_ids (ft_sym_ix t) → starts_with id x →
     (is_Some (infos !! ft_sym_ix t) ∧ ∀ a, task_has t a → known_of infos (ft_sym_ix t) a) ∨
     ∃ u, u ∈ pushed ∧ ft_sym_ix u = x ∧ ∀ a, task_has u a ↔ gives id a ∨ passes id ∧ task_has t a) →
  follow_inv v (<[ft_sym_ix t := info']> infos) (pushed ++ stack).
Proof.
  intros [H1 H2 H3 H4 H5] Hwf Hinfo Hpushed Hall. destruct (H2 t (list_elem_of_here _ _)) as (Htw & [a0 Ha0] & Hta).
  set (infos' := <[ft_sym_ix t := info']> infos).
  assert (∀ b, known_of infos' (ft_sym_ix t) b ↔ known_of infos (ft_sym_ix t) b ∨ task_has t b) as Hkt.
  { intros b. rewrite <- Hinfo. unfold known_of, infos'. rewrite lookup_insert_eq. naive_solver. }
  assert (∀ y b, y ≠ ft_sym_ix t → known_of infos' y b ↔ known_of infos y b) as Hky.
  { intros y b Hy. unfold known_of, infos'. by rewrite lookup_insert_ne. }
  assert (∀ x a, pending infos (t :: stack) x a → pending infos' (pushed ++ stack) x a) as Hpend.
  { intros x a. apply pending_pop; [intros b; apply Hkt|intros y b Hy; by apply Hky|set_solver]. }
  assert (∀ a, known_of infos (ft_sym_ix t) a → follows v (ft_sym_ix t) a) as Hkf by (intros a (i & Hi & Ha); by eapply H1).
  split.
  - intros x i. unfold infos'. intros [[<- <-]|[_ Hi]]%lookup_insert_Some; [|by eapply H1].
    split_and!; [done|exists a0; apply Hinfo; by right|]. intros a [Ha|Ha]%Hinfo; [by apply Hkf|by apply Hta].
  - intros u [Hu|Hu]%elem_of_app; [|apply H2; by apply list_elem_of_further].
    destruct (Hpushed u Hu) as (Huw & id & Hid & Hs & Hua). split_and!; [done| |].
    + destruct (gives_or_passes _ _ _ Hid Hs) as [[a Ha]|Hp]; [exists a|exists a0]; apply Hua; auto.
    + intros a [Ha|[Hp Ha]]%Hua; [|by eapply follows_passes; [apply Hta|..]].
      eapply follows_gives; [|done..]. by eapply follows_leads, Hta.
  - by apply Hpend.
  - intros w id x a Hw Hid Hs Hga. unfold infos' in Hw. destruct (decide (w = ft_sym_ix t)) as [->|Hne].
    + destruct (Hall id x Hid Hs) as [[Hsome _]|(u & Hu & <- & Hua)]; [by eapply Hpend, H4|].
      right. exists u. split_and!; [set_solver|done|]. apply Hua. by left.
    + rewrite lookup_insert_ne in Hw by done. by eapply Hpend, H4.
  - intros w id x a Hw Hid Hs Hp. destruct (decide (w = ft_sym_ix t)) as [->|Hne].
    + apply Hkt in Hw as [Hw|Hw]; [by eapply Hpend, H5|]. destruct (Hall id x Hid Hs) as [[_ Hsub]|(u & Hu & <- & Hua)].
      * eapply Hpend, H5; [by apply Hsub|done..].
      * right. exists u. split_and!; [set_solver|done|]. apply Hua. by right.
    + apply Hky in Hw; [|done]. by eapply Hpend, H5.
Qed.

(** ** Termination: every productive pop makes some follow set larger. *)
Context (Hres : ∀ id s, N.to_nat id < length (sg_productions g) → s ∈ steps_at id → (step_reserved s < 65536)%N).

Definition weight (i : FollowSetInfo) : nat :=
  size (toks (fs_lookaheads i)) + N.to_nat (fs_reserved_lookaheads i) + (if fs_propagates_lookaheads i then 1 else 0).
Definition weight_at (infos : gmap N FollowSetInfo) (x : N) : nat := match infos !! x with Some i => weight i | None => 0 end.
Definition total (infos : gmap N FollowSetInfo) : nat := sum_list_with (λ k, weight_at infos (N.of_nat k)) (seq 0 (n_vars g)).
(** The largest weight, and the fuel that is enough. *)
Definition max_weight : nat := S (n_terminals + n_externals g) + N.to_nat 65536.
#[local] Arguments max_weight : simpl never.
Definition follow_fuel : nat := 2 + length (sg_productions g) * (n_vars g * max_weight).

Definition all_tokens : gset Symbol :=
  {[end_]} ∪ list_to_set (map (λ i, mkSymbol Terminal (N.of_nat i)) (seq 0 n_terminals))
           ∪ list_to_set (map (λ i, mkSymbol External (N.of_nat i)) (seq 0 (n_externals g))).
Lemma size_symbols k n : size (list_to_set (C:=gset Symbol) (map (λ i, mkSymbol k (N.of_nat i)) (seq 0 n))) = n.
Proof.
  rewrite size_list_to_set; [by rewrite length_map, length_seq|].
  apply NoDup_fmap_2; [|apply NoDup_seq]. intros x y [= Heq]. lia.
Qed.
Lemma size_all_tokens : size all_tokens ≤ S (n_terminals + n_externals g).
Proof.
  clear. assert (∀ X Y : gset Symbol, size (X ∪ Y) ≤ size X + size Y) as Hu.
  { intros X Y. rewrite size_union_alt. assert (size (Y ∖ X) ≤ size Y); [apply subseteq_size; set_solver|lia]. }
  unfold all_tokens. etrans; [apply Hu|]. rewrite size_symbols. etrans; [apply Nat.add_le_mono_r, Hu|].
  rewrite size_symbols, size_singleton. lia.
Qed.
Lemma known_all_tokens t : symbol_known g n_terminals t → a_token t → t ∈ all_tokens.
Proof.
  clear.   destruct t as [k i]. unfold symbol_known, a_token, all_tokens. rewrite !elem_of_union, !elem_of_list_to_set, !elem_of_map. cbn.
  intros Hk [->| ->]; [left; right|right]; exists (N.to_nat i); rewrite elem_of_seq, N2Nat.id; (split; [done|lia]).
Qed.
Lemma bordering_known x t : symbol_known g n_terminals x → bordering g head x t → t ∈ all_tokens.
Proof.
  intros Hx [[Ht ->]|(_ & Ht & s & (w & _ & Hb) & <-)]; apply known_all_tokens; try done.
  by eapply (border_known g n_terminals Hg head head_in).
Qed.
Lemma follows_bounded v x a : follows v x a → match a with ATok t => t ∈ all_tokens | APropagates => True | AReserved n => (n < 65536)%N end.
Proof.
  induction 1 as [|w id x a _ Hid _ Ha|]; [done| |done]. unfold gives in Ha.
  pose proof (var_ids_known g n_terminals Hg w id Hid) as Hlt.
  destruct (steps_at id !! 1) as [s|] eqn:Hs; [|destruct Ha as [_ ->]; unfold all_tokens; set_solver].
  assert (symbol_known g n_terminals (step_symbol s)) as Hk by (eapply step_known; [done|done|by eapply list_elem_of_lookup_2]).
  destruct a as [t| |n]; cbn in Ha; [by eapply bordering_known|done|].
  destruct Ha as [_ (_ & s' & (w' & _ & (id' & Hid' & Hs')) & Hn)].
  assert (step_reserved s' < 65536)%N; [|lia]. apply (Hres id'); [by eapply var_ids_known|by apply head_in].
Qed.
Lemma weight_bounded v x i : (∀ a, info_has i a → follows v x a) → weight i ≤ max_weight.
Proof.
  intros Hi. unfold weight, max_weight.
  assert (size (toks (fs_lookaheads i)) ≤ S (n_terminals + n_externals g)).
  { etrans; [|apply size_all_tokens]. apply subseteq_size. intros t Ht. exact (follows_bounded _ _ _ (Hi (ATok t) Ht)). }
  assert (fs_reserved_lookaheads i < 65536)%N.
  { destruct (decide (fs_reserved_lookaheads i = 0)%N) as [->|]; [lia|].
    apply (follows_bounded _ _ _ (Hi (AReserved (fs_reserved_lookaheads i)) ltac:(cbn; lia))). }
  destruct (fs_propagates_lookaheads i); lia.
Qed.
Lemma weight_mono i j :
  (∀ a, info_has i a → info_has j a) → weight i ≤ weight j ∧ ((∃ a, info_has j a ∧ ¬ info_has i a) → weight i < weight j).
Proof.
  intros Hij. unfold weight.
  assert (toks (fs_lookaheads i) ⊆ toks (fs_lookaheads j)) as Hs by (intros t Ht; exact (Hij (ATok t) Ht)).
  assert (fs_reserved_lookaheads i ≤ fs_reserved_lookaheads j)%N as Hr.
  { destruct (decide (fs_reserved_lookaheads i = 0)%N); [lia|].
    pose proof (Hij (AReserved (fs_reserved_lookaheads i)) ltac:(cbn; lia)) as Hh. cbn in Hh. lia. }
  assert ((if fs_propagates_lookaheads i then 1 else 0) ≤ if fs_propagates_lookaheads j then 1 else 0) as Hp.
  { pose proof (Hij APropagates) as Hh. cbn in Hh. destruct (fs_propagates_lookaheads i); [by rewrite Hh|lia]. }
  pose proof (subseteq_size _ _ Hs). split; [lia|]. intros ([t| |n] & Hj & Hi); cbn in Hj, Hi.
  - assert (size (toks (fs_lookaheads i)) < size (toks (fs_lookaheads j))); [|lia]. apply subset_size. set_solver.
  - rewrite Hj in *. destruct (fs_propagates_lookaheads i); [done|lia].
  - lia.
Qed.
Lemma weights_le infos x i l :
  weight_at infos x ≤ weight i →
  sum_list_with (λ k, weight_at infos (N.of_nat k)) l ≤ sum_list_with (λ k, weight_at (<[x := i]> infos) (N.of_nat k)) l.
Proof.
  intros Hle. induction l as [|k l IH]; cbn; [lia|]. unfold weight_at in *.
  destruct (decide (N.of_nat k = x)) as [->|]; [rewrite lookup_insert_eq; lia|rewrite lookup_insert_ne by done; lia].
Qed.
Lemma total_update infos x i :
  N.to_nat x < n_vars g → weight_at infos x < weight i → total infos < total (<[x := i]> infos).
Proof.
  intros Hx Hlt. unfold total. assert (N.to_nat x ∈ seq 0 (n_vars g)) as Hin by (apply elem_of_seq; lia).
  pose proof (λ l, weights_le infos x i l ltac:(lia)) as Hall.
  induction (seq 0 (n_vars g)) as [|k l IH]; [by apply not_elem_of_nil in Hin|]. cbn.
  apply elem_of_cons in Hin as [<-|Hin]; [|specialize (IH Hin); specialize (Hall [k]); cbn in Hall; lia].
  specialize (Hall l). rewrite N2Nat.id. unfold weight_at at 3. rewrite lookup_insert_eq. lia.
Qed.
Lemma total_bounded v infos : (∀ x i, infos !! x = Some i → ∀ a, info_has i a → follows v x a) → total infos ≤ n_vars g * max_weight.
Proof.
  intros Hi. unfold total. assert (∀ k, weight_at infos (N.of_nat k) ≤ max_weight) as Hk.
  { intros k. unfold weight_at. destruct (infos !! N.of_nat k) as [i|] eqn:Hk; [|lia]. eapply weight_bounded, Hi, Hk. }
  rewrite <- (length_seq (n_vars g) 0) at 2. induction (seq 0 (n_vars g)) as [|k l IH]; cbn; [lia|]. specialize (Hk k). lia.
Qed.
Lemma length_var_ids v : length (var_ids v) ≤ length (sg_productions g).
Proof.
  unfold FirstSets.var_ids. destruct (sg_var_prods g !! N.to_nat v) as [r|] eqn:Hr; [|cbn; lia].
  unfold prod_range. rewrite length_map, length_seq. pose proof (sy_ranges g n_terminals Hg _ _ Hr). lia.
Qed.

(** All productions of the variable of a task. *)
Lemma follow_prods_spec {E} t stack v :
  TokenSet.wf (ft_lookaheads t) →
  ∃ pushed, for_each (follow_prod (E:=E) g sets eof t) stack (var_ids v) = Ok (pushed ++ stack) ∧ length pushed ≤ length (var_ids v) ∧
    (∀ u, u ∈ pushed → TokenSet.wf (ft_lookaheads u) ∧ ∃ id, id ∈ var_ids v ∧ starts_with id (ft_sym_ix u) ∧
       ∀ a, task_has u a ↔ gives id a ∨ passes id ∧ task_has t a) ∧
    (∀ id x, id ∈ var_ids v → starts_with id x → ∃ u, u ∈ pushed ∧ ft_sym_ix u = x ∧ ∀ a, task_has u a ↔ gives id a ∨ passes id ∧ task_has t a).
Proof.
  intros Ht.
  destruct (for_each_inv (follow_prod (E:=E) g sets eof t) (λ d st, ∃ pushed, st = pushed ++ stack ∧ length pushed ≤ length d ∧
    (∀ u, u ∈ pushed → TokenSet.wf (ft_lookaheads u) ∧ ∃ id, id ∈ var_ids v ∧ starts_with id (ft_sym_ix u) ∧
       ∀ a, task_has u a ↔ gives id a ∨ passes id ∧ task_has t a) ∧
    (∀ id x, id ∈ d → starts_with id x → ∃ u, u ∈ pushed ∧ ft_sym_ix u = x ∧ ∀ a, task_has u a ↔ gives id a ∨ passes id ∧ task_has t a))
    (var_ids v) stack) as (st & Hst & pushed & -> & H1 & H2 & H3); [| |by exists pushed].
  - exists []. split_and!; [done|cbn; lia|by intros u ?%not_elem_of_nil|by intros id x ?%not_elem_of_nil].
  - intros d id r st Heq (pushed & -> & H1 & H2 & H3).
    assert (id ∈ var_ids v) as Hid by (rewrite Heq; apply elem_of_app; right; apply list_elem_of_here).
    destruct (follow_prod_spec (E:=E) t (pushed ++ stack) v id Ht Hid) as (new & -> & N1 & N2 & N3).
    eexists. split; [done|]. exists (new ++ pushed). rewrite <- (assoc_L (++)). split_and!; [done|rewrite !length_app; cbn; lia| |].
    + intros u [Hu|Hu]%elem_of_app; [|by apply H2]. destruct (N2 u Hu) as (? & ? & ?). eauto 10.
    + intros id' x [Hid'|Hid'%list_elem_of_singleton]%elem_of_app Hs; [|subst id'].
      * destruct (H3 id' x Hid' Hs) as (u & ? & ?). exists u. rewrite elem_of_app. auto.
      * destruct (N3 x Hs) as (u & Hu & Hx). destruct (N2 u Hu) as (? & ? & ?). exists u. rewrite elem_of_app. auto.
Qed.

Lemma follow_loop_inv {E} v fuel infos stack :
  N.to_nat v < n_vars g → follow_inv v infos stack →
  length stack + length (sg_productions g) * (n_vars g * max_weight - total infos) < fuel →
  ∃ infos', follow_loop (E:=E) g sets eof fuel infos stack = Ok infos' ∧ follow_inv v infos' [].
Proof.
  intros Hv. revert infos stack. induction fuel as [|fuel IH]; intros infos stack Hinv Hf; [by apply Nat.nlt_0_r in Hf|]. cbn [follow_loop].
  destruct stack as [|t stack]; [by exists infos|]. cbn [length] in Hf.
  destruct (fi_stack _ _ _ Hinv t (list_elem_of_here _ _)) as (Htw & _ & Hta).
  set (old := default default_follow (infos !! ft_sym_ix t)).
  assert (∀ a, info_has old a ↔ known_of infos (ft_sym_ix t) a) as Hold.
  { intros a. unfold old, known_of. destruct (infos !! ft_sym_ix t) as [i|]; cbn; [naive_solver|].
    pose proof (default_follow_has a). naive_solver. }
  assert (TokenSet.wf (fs_lookaheads old)) as Holdw.
  { unfold old. destruct (infos !! ft_sym_ix t) as [i|] eqn:Hi; cbn; [by eapply fi_infos|apply TokenSet.wf_new]. }
  pose proof (merge_follow_spec old t Holdw Htw) as Hm. destruct (merge_follow old t) as [c info']. destruct Hm as (M1 & M2 & M3 & M4).
  assert (∀ a, info_has info' a ↔ known_of infos (ft_sym_ix t) a ∨ task_has t a) as M2' by (intros a; by rewrite M2, Hold).
  destruct c.
  - assert (N.to_nat (ft_sym_ix t) < n_vars g) as Hx.
    { destruct (fi_stack _ _ _ Hinv t (list_elem_of_here _ _)) as (_ & [a Ha] & _). eapply (leads_known v); [done|]. by eapply follows_leads, Hta. }
    destruct (variable_prod_ids_ok g n_terminals Hg (E:=E) _ Hx) as (r & -> & Hr). cbn [mbind outcome_bind]. rewrite Hr.
    destruct (follow_prods_spec (E:=E) t stack (ft_sym_ix t) Htw) as (pushed & -> & P1 & P2 & P3). cbn [mbind outcome_bind].
    assert (follow_inv v (<[ft_sym_ix t := info']> infos) (pushed ++ stack)) as Hinv'.
    { eapply follow_inv_pop; [done..|]. intros id x Hid Hs. right. by apply P3. }
    apply IH; [done|].
    assert (total infos < total (<[ft_sym_ix t := info']> infos)) as Hlt.
    { apply total_update; [done|]. destruct (M4 eq_refl) as (a & Ha & Hna).
      destruct (weight_mono old info') as [_ Hw]; [intros b Hb; apply M2; by left|].
      assert (weight_at infos (ft_sym_ix t) ≤ weight old) as Hwo by (unfold weight_at, old; destruct (infos !! ft_sym_ix t); cbn; lia).
      assert (weight old < weight info'); [|lia]. apply Hw. exists a. split; [apply M2; by right|done]. }
    assert (total (<[ft_sym_ix t := info']> infos) ≤ n_vars g * max_weight) as Hle.
    { apply (total_bounded v). intros x i Hi a. by apply (fi_infos _ _ _ Hinv'). }
    pose proof (length_var_ids (ft_sym_ix t)). rewrite length_app. nia.
  - assert (follow_inv v (<[ft_sym_ix t := info']> infos) ([] ++ stack)) as Hinv'.
    { eapply follow_inv_pop; [done..|by intros u ?%not_elem_of_nil|]. intros id x Hid Hs. left.
      assert (∀ a, task_has t a → known_of infos (ft_sym_ix t) a) as Hsub by (intros a Ha; by apply Hold, M3).
      split; [|done]. destruct (fi_stack _ _ _ Hinv t (list_elem_of_here _ _)) as (_ & [a Ha] & _).
      destruct (Hsub a Ha) as (i & -> & _). done. }
    apply IH; [done|]. cbn [app].
    assert (total infos ≤ total (<[ft_sym_ix t := info']> infos)) as Hle; [|nia].
    apply weights_le. destruct (weight_mono old info') as [Hw _]; [intros b Hb; apply M2; by left|].
    etrans; [|exact Hw].    unfold weight_at, old. destruct (infos !! ft_sym_ix t); cbn; lia.
Qed.

(** The loop ends, and its result is the follow sets of the expansion of [v]. *)
Lemma follow_loop_spec {E} v fuel :
  N.to_nat v < n_vars g → follow_fuel ≤ fuel →
  ∃ infos, follow_loop (E:=E) g sets eof fuel ∅ [mkTask v TokenSet.new 0 true] = Ok infos ∧
    (∀ x, is_Some (infos !! x) ↔ rtc leads_to v x) ∧
    ∀ x i, infos !! x = Some i → TokenSet.wf (fs_lookaheads i) ∧ ∀ a, info_has i a ↔ follows v x a.
Proof.
  intros Hv Hf.
  assert (∀ a, task_has (mkTask v TokenSet.new 0 true) a ↔ a = APropagates) as Ht.
  { intros [t| |n]; cbn; [rewrite TokenSet.toks_new; set_solver|done|split; [lia|done]]. }
  destruct (follow_loop_inv (E:=E) v fuel ∅ [mkTask v TokenSet.new 0 true] Hv) as (infos & Hl & Hinv).
  - split.
    + by intros x i ?%lookup_empty_Some.
    + intros t ->%list_elem_of_singleton. split_and!; [apply TokenSet.wf_new|exists APropagates; by apply Ht|].
      intros a ->%Ht. apply follows_start.
    + right. exists (mkTask v TokenSet.new 0 true). split_and!; [apply list_elem_of_here|done|by apply Ht].
    + intros w id x a Hw. rewrite lookup_empty in Hw. by destruct Hw.
    + intros w id x a (i & ?%lookup_empty_Some & _). done.
  - unfold follow_fuel in Hf. cbn [length]. nia.
  - exists infos. split; [done|]. destruct (follow_inv_end _ _ Hinv) as [H1 H2]. split; [done|].
    intros x i Hi. split; [by eapply fi_infos|]. intros a. rewrite <- H2. unfold known_of. rewrite Hi. naive_solver.
Qed.
End follow.
