(* ===== verification/Additions.v ===== *)
(** * [build_tables/item_set_builder.rs]: the additions of every variable

    The items that the expansion of a variable adds to an item set, with the tokens
    that can follow them, are computed once for every variable: the builder. *)
From S2P Require Import Prelude Symbols TokenSet Ordering StrPool Grammars Lookaheads Items ItemSets FirstSets FollowSets.
Import Builder.

Section closure.
Context {H : Type} (str_pool : StrPool H) (g : SyntaxGrammar) (n_terminals : nat).
Context {I : Type} {IS : IndexSet I} {MI : MapIter}.
Context (inlines : InlinedProductionMap) (key_map : Item.ItemKeyMap).
Notation known := (symbol_known g n_terminals).
Notation leads_to := (border_edge g head).
Notation var_ids := (var_ids g).
Notation pool_t := (Lookahead.LookaheadSetPool I).
Notation pool_len p := (length (is_elems (Lookahead.sets p))).

(** The ids that stand for production [id] at dot [d]. *)
Definition expand (d id : N) : list N := match inlined_prod_ids inlines id d with Some ids => ids | None => [id] end.
Definition items_of (v : N) : list N := concat (map (expand 0) (var_ids v)).
Definition inlined (v : N) : Prop := non_terminal v ∈ variables_to_inline g.

(** What the builder needs of its inputs: the grammar and its keys, ids of inlined
    productions that exist, a word token that is a token, tokens at the beginning
    of every symbol after the first, and 16-bit ids of reserved word sets. *)
Record inputs_ok (items_bound : nat) : Prop := {
  in_symbols : symbols_ok g n_terminals;
  in_grammar : Item.grammar_ok str_pool g;
  in_keys : Item.keys_spec str_pool g key_map;
  in_inlines : ∀ id d ids, inlines !! (id, d) = Some ids → ∀ i, i ∈ ids →
    N.to_nat i < length (sg_productions g) ∧ N.to_nat d ≤ length (steps_at g i);
  in_word : ∀ w, word_token g = Some w → known w ∧ a_token w;
  in_vars : 0 < n_vars g;
  in_productive : productive g;
  in_reserved : ∀ id s, N.to_nat id < length (sg_productions g) → s ∈ steps_at g id → (step_reserved s < 65536)%N;
  in_items : ∀ v, length (items_of v) ≤ items_bound;
  in_room : (N.of_nat (2 + (n_terminals + n_externals g + n_vars g) + n_vars g * (n_vars g * S items_bound)) < U32)%N;
}.
Context (items_bound : nat) (Hin : inputs_ok items_bound).

(** ** Items at the beginning of productions *)
Lemma slot_of_known id : N.to_nat id < length (sg_productions g) → Item.slot_of id = S (N.to_nat id).
Proof.
  intros Hid. unfold Item.slot_of. destruct (N.eqb_spec id Item.START_PRODUCTION_ID) as [->|]; [|done]. exfalso.
  pose proof (Item.slot_count_le g). pose proof (Item.go_count _ _ (in_grammar _ Hin)). unfold Item.slot_count, Item.START_PRODUCTION_ID, U32 in *. lia.
Qed.
Lemma known_at id d : N.to_nat id < length (sg_productions g) → N.to_nat d ≤ length (steps_at g id) → Item.known g id d.
Proof.
  intros Hid Hd. unfold Item.known, Item.in_range. cbn. rewrite Nat2N.id, slot_of_known by done.
  split; [unfold Item.slot_count; lia|]. unfold Item.dots. fold (prod_at g id). fold (steps_at g id). lia.
Qed.
Definition keys_of (id : N) : list Item.DotKeys := match Item.keys_for (E:=Empty_set) key_map id with Ok ks => ks | _ => [] end.
Lemma keys_for_known {E} id d : Item.known g id d → Item.keys_for (E:=E) key_map id = Ok (keys_of id).
Proof.
  intros Hk. destruct (in_keys _ Hin) as [Hex _]. destruct (Hex _ _ Hk) as (k & ks & Hks & _). unfold keys_of. by rewrite !Hks.
Qed.
Definition item_at (v id : N) : Item.ParseItem := Item.mkItem v 0 id (keys_of id) false.
Lemma item_at_ok v id : N.to_nat id < length (sg_productions g) → Item.item_ok g key_map (item_at v id).
Proof.
  intros Hid. assert (Item.known g id 0) as Hk by (apply known_at; [done|cbn; lia]).
  split; cbn; [done|]. intros E. by eapply keys_for_known.
Qed.
Lemma expand_known d id i : N.to_nat id < length (sg_productions g) → N.to_nat d ≤ length (steps_at g id) → i ∈ expand d id →
  N.to_nat i < length (sg_productions g) ∧ N.to_nat d ≤ length (steps_at g i).
Proof.
  intros Hid Hd. unfold expand, inlined_prod_ids. destruct (inlines !! (id, d)) as [ids|] eqn:Hi.
  - intros Hii. by eapply in_inlines.
  - intros ->%list_elem_of_singleton. done.
Qed.
Lemma items_of_known v id : id ∈ items_of v → N.to_nat id < length (sg_productions g).
Proof.
  intros (l & (i & -> & Hi)%elem_of_map & Hid)%elem_of_concat.
  eapply (expand_known 0); [by eapply (var_ids_known _ _ (in_symbols _ Hin))|cbn; lia|done].
Qed.
Lemma keyed_ok i : Item.item_ok g key_map i → Item.keyed i.
Proof. apply (Item.item_ok_keyed str_pool g), Hin. Qed.

(** ** The additions of a variable *)
(** What the addition of production [id] of variable [x] says for [v]. *)
Definition addition_fact (v x id : N) (a : atom) : Prop :=
  if pr_requires_eof_lookahead (prod_at g id) then a = ATok end_ else follows g v x a.
Record info_ok (p : pool_t) (F : atom → Prop) (i : AdditionInfo) : Prop := {
  io_lookaheads : ∃ X, Lookahead.stands p (ai_lookaheads i) X ∧ ∀ t, t ∈ X ↔ F (ATok t);
  io_reserved : ∀ n, (0 < n ≤ ai_reserved_lookaheads i)%N ↔ F (AReserved n);
  io_propagates : ai_propagates_lookaheads i = true ↔ F APropagates;
  io_word : ai_contains_word i = true ↔ ∃ w, word_token g = Some w ∧ F (ATok w);
}.
Record addition_of (v x id : N) : Prop := {
  ao_leads : rtc leads_to v x;
  ao_inlined : ¬ inlined x;
  ao_item : id ∈ items_of x;
}.
(** [adds] are the additions of [v], for the variables and productions of [P]. *)
Record additions_ok (p : pool_t) (v : N) (P : N → N → Prop) (adds : list TransitiveClosureAddition) : Prop := {
  ad_sound : ∀ a, a ∈ adds → ∃ x id, P x id ∧ ta_item a = item_at x id ∧ info_ok p (addition_fact v x id) (ta_info a);
  ad_complete : ∀ x id, P x id → ∃ a, a ∈ adds ∧ Item.item_rank (ta_item a) = Item.item_rank (item_at x id) ∧
    info_ok p (addition_fact v x id) (ta_info a);
}.

Lemma info_ok_grows p p' F i : Lookahead.grows p p' → info_ok p F i → info_ok p' F i.
Proof. intros Hg [(X & HX & Ht) ? ? ?]. split; [|done..]. exists X. split; [by eapply Lookahead.stands_grows|done]. Qed.
Lemma info_ok_ext p F F' i : (∀ a, F a ↔ F' a) → info_ok p F i → info_ok p F' i.
Proof. intros HF [(X & HX & Ht) H2 H3 H4]. split; [exists X|..]; setoid_rewrite <- HF; done. Qed.
Lemma additions_ok_grows p p' v P adds : Lookahead.grows p p' → additions_ok p v P adds → additions_ok p' v P adds.
Proof.
  intros Hg [H1 H2]. split.
  - intros a Ha. destruct (H1 a Ha) as (x & id & ? & ? & ?). exists x, id. split_and!; [done|done|by eapply info_ok_grows].
  - intros x id Hx. destruct (H2 x id Hx) as (a & ? & ? & ?). exists a. split_and!; [done|done|by eapply info_ok_grows].
Qed.
Lemma additions_ok_ext p v P Q adds : (∀ x id, P x id ↔ Q x id) → additions_ok p v P adds → additions_ok p v Q adds.
Proof. intros HPQ [H1 H2]. split; setoid_rewrite <- HPQ; done. Qed.

(** Items are equal when their ranks are. *)
Lemma addition_item_eq {E} a b : Item.item_ok g key_map a → Item.item_ok g key_map b →
  Item.item_eq (E:=E) a b = Ok (bool_decide (Item.item_rank a = Item.item_rank b)).
Proof. apply (Item.item_eq_ok str_pool g), Hin. Qed.
Lemma find_or_push_spec {E} adds a :
  (∀ b, b ∈ adds → Item.item_ok g key_map (ta_item b)) → Item.item_ok g key_map (ta_item a) →
  ∃ adds', find_or_push (E:=E) adds a = Ok adds' ∧ (∀ b, b ∈ adds → b ∈ adds') ∧ (∀ b, b ∈ adds' → b ∈ adds ∨ b = a) ∧
    ∃ b, b ∈ adds' ∧ Item.item_rank (ta_item b) = Item.item_rank (ta_item a) ∧ ta_info b = ta_info a.
Proof.
  intros Hadds Ha. unfold find_or_push.
  assert (∃ c, contains_addition (E:=E) adds a = Ok c ∧ if c then ∃ b, b ∈ adds ∧ Item.item_rank (ta_item b) = Item.item_rank (ta_item a) ∧ ta_info b = ta_info a else True)
    as (c & -> & Hc).
  { induction adds as [|b adds IH]; [by exists false|]. cbn [contains_addition]. unfold addition_eq.
    rewrite addition_item_eq by (done || apply Hadds, list_elem_of_here). cbn [mbind outcome_bind].
    destruct (bool_decide _ && bool_decide _) eqn:Hb.
    - apply andb_true_iff in Hb as [H1%bool_decide_eq_true H2%bool_decide_eq_true]. exists true. split; [done|].
      exists b. split_and!; [apply list_elem_of_here|done|done].
    - destruct IH as (c & -> & Hc); [intros; apply Hadds; by apply list_elem_of_further|]. exists c. split; [done|].
      destruct c; [|done]. destruct Hc as (b' & ? & ?). exists b'. split; [by apply list_elem_of_further|done]. }
  cbn [mbind outcome_bind]. destruct c; [exists adds; split_and!; auto|].
  exists (adds ++ [a]). split_and!; [done|set_solver|set_solver|]. exists a. split_and!; [set_solver|done|done].
Qed.

(** What holds between the steps: the pool is well formed, has grown from [p0] to at
    most [n] sets, and the additions are those of [P]. *)
Definition in_table (P : N → N → Prop) : Prop := ∀ x id, P x id → N.to_nat id < length (sg_productions g).
Record adding_ok (p0 : pool_t) (v : N) (n : nat) (P : N → N → Prop) (st : adding) : Prop := {
  ak_wf : Lookahead.pool_wf st.1;
  ak_grows : Lookahead.grows p0 st.1;
  ak_len : pool_len st.1 ≤ n;
  ak_additions : additions_ok st.1 v P st.2;
  ak_table : in_table P;
}.
Lemma adding_ok_ext p0 v n P Q st : (∀ x id, P x id ↔ Q x id) → adding_ok p0 v n P st → adding_ok p0 v n Q st.
Proof.
  intros HPQ [H1 H2 H3 H4 H5]. split; [done..|by eapply additions_ok_ext|]. intros x id Hx. apply (H5 x). by apply HPQ.
Qed.

Context (eof : TokenSet) (Heof : TokenSet.wf eof) (Heof_toks : toks eof = {[end_]}).

Lemma push_addition_spec {E} p0 v n P st info x id :
  adding_ok p0 v n P st → info_ok p0 (follows g v x) info → N.to_nat id < length (sg_productions g) → (N.of_nat n < U32)%N →
  ∃ st', push_addition (E:=E) g eof info st (item_at x id) = Ok st' ∧ adding_ok p0 v (S n) (λ y i, P y i ∨ y = x ∧ i = id) st'.
Proof.
  intros [H1 H2 H3 [H4 H5] H6] Hinfo Hid Hroom. destruct st as [p adds]. cbn [fst snd] in *. unfold push_addition. cbn [Item.prod_id item_at].
  rewrite (sy_prods _ _ (in_symbols _ Hin)) by done. cbn [mbind outcome_bind].
  assert (∃ info' p', (if pr_requires_eof_lookahead (prod_at g id) then let '(id, p) := Lookahead.intern_ref p eof in (mkInfo id 0 false false, p)
    else (info, p)) = (info', p') ∧ Lookahead.pool_wf p' ∧ Lookahead.grows p p' ∧ pool_len p' ≤ S (pool_len p) ∧ info_ok p' (addition_fact v x id) info')
    as (info' & p' & -> & Hp' & Hgr & Hlen & Hio).
  { unfold addition_fact. destruct (pr_requires_eof_lookahead (prod_at g id)).
    - destruct (Lookahead.lookahead_intern_ref_spec p eof H1) as (I1 & I2 & I3 & I4); [unfold Lookahead.roomy; lia|done|].
      destruct (Lookahead.intern_ref p eof) as [r p']. cbn in *. exists (mkInfo r 0 false false), p'. split_and!; [done|done|done|lia|].
      split; cbn.
      + exists (toks eof). split; [done|]. intros t. rewrite Heof_toks, elem_of_singleton. naive_solver.
      + intros k. split; [lia|done].
      + done.
      + split; [done|]. intros (w & Hw & [= ->]). by apply (in_word _ Hin) in Hw as [[] _].
    - exists info, p. split_and!; [done|done|done|lia|]. by eapply info_ok_grows. }
  destruct (find_or_push_spec (E:=E) adds (mkAddition (item_at x id) info')) as (adds' & -> & F1 & F2 & F3).
  { intros b Hb. destruct (H4 b Hb) as (y & i & HP & -> & _). apply item_at_ok. by eapply H6. }
  { by apply item_at_ok. }
  cbn [mbind outcome_bind]. eexists. split; [done|]. assert (Lookahead.grows p0 p') as Hg0 by by etrans.
  destruct (additions_ok_grows p p' v P adds Hgr (Build_additions_ok _ _ _ _ H4 H5)) as [H4' H5'].
  split; cbn [fst snd]; [done|done|lia| |].
  - split.
    + intros a [Ha| ->]%F2; [|exists x, id; split_and!; [by right|done|done]].
      destruct (H4' a Ha) as (y & i & ? & ? & ?). exists y, i. split_and!; [by left|done|done].
    + intros y i [HP|[-> ->]].
      * destruct (H5' y i HP) as (a & ? & ? & ?). exists a. split_and!; [by apply F1|done|done].
      * destruct F3 as (b & ? & ? & Hb). exists b. cbn in *. rewrite Hb. done.
  - intros y i [HP|[-> ->]]; [by eapply H6|done].
Qed.

Lemma var_symbol x : N.to_nat x < n_vars g → wrap_u32 x = x ∧ non_terminal x = mkSymbol NonTerminal x.
Proof.
  intros Hx. pose proof (sy_count _ _ (in_symbols _ Hin)). unfold non_terminal. by rewrite wrap_u32_small by lia.
Qed.
Lemma add_production_spec {E} p0 v n P st info x id :
  adding_ok p0 v n P st → info_ok p0 (follows g v x) info → N.to_nat x < n_vars g → id ∈ var_ids x → (N.of_nat (n + length (expand 0 id)) < U32)%N →
  ∃ st', add_production (E:=E) g inlines key_map eof x info st id = Ok st' ∧
    adding_ok p0 v (n + length (expand 0 id)) (λ y i, P y i ∨ y = x ∧ i ∈ expand 0 id) st'.
Proof.
  intros Hst Hinfo Hx Hid Hroom. pose proof (var_ids_known _ _ (in_symbols _ Hin) _ _ Hid) as Hlt. unfold add_production.
  rewrite (keys_for_known id 0) by (apply known_at; [done|cbn; lia]). cbn [mbind outcome_bind].
  destruct (var_symbol x Hx) as [-> _]. pose proof (expand_known 0 id) as Hex. unfold expand in *.
  destruct (inlined_prod_ids inlines id 0) as [ids|].
  - apply (for_each_inv _ (λ d st, adding_ok p0 v (n + length d) (λ y i, P y i ∨ y = x ∧ i ∈ d) st)).
    + eapply adding_ok_ext; [|rewrite Nat.add_0_r; exact Hst]. set_solver.
    + intros d i r st' -> Hst'. destruct (Hex i Hlt ltac:(cbn; lia)) as [Hi Hdot]; [set_solver|].
      rewrite (keys_for_known i 0) by (by apply known_at). cbn [mbind outcome_bind].
      destruct (push_addition_spec (E:=E) _ _ _ _ _ info x i Hst') as (st'' & Hpush & Hok); [done|done|rewrite length_app in Hroom; cbn in Hroom; lia|].
      exists st''. split; [exact Hpush|]. rewrite length_app. cbn. rewrite Nat.add_assoc, Nat.add_1_r.
      eapply adding_ok_ext; [|exact Hok]. cbn. set_solver.
  - destruct (push_addition_spec (E:=E) _ _ _ _ _ info x id Hst) as (st'' & Hpush & Hok); [done|done|cbn in Hroom; lia|].
    exists st''. split; [exact Hpush|]. cbn [length]. rewrite Nat.add_1_r. eapply adding_ok_ext; [|exact Hok]. cbn. set_solver.
Qed.

Lemma add_variable_spec {E} p0 v n P st x fsi :
  adding_ok p0 v n P st → N.to_nat x < n_vars g → TokenSet.wf (fs_lookaheads fsi) → (∀ a, info_has fsi a ↔ follows g v x a) →
  (N.of_nat (n + S items_bound) < U32)%N →
  ∃ st', add_variable (E:=E) g inlines key_map eof st (x, fsi) = Ok st' ∧
    adding_ok p0 v (n + S items_bound) (λ y i, P y i ∨ y = x ∧ ¬ inlined x ∧ i ∈ items_of x) st'.
Proof.
  intros [H1 H2 H3 H4 H5] Hx Hwf Hfsi Hroom. unfold add_variable. fold (inlined x). case_decide as Hinl.
  { exists st. split; [done|]. eapply adding_ok_ext; [|split; [done..|lia|done|done]]. cbn. tauto. }
  destruct st as [p adds]. cbn [fst snd] in *.
  destruct (Lookahead.lookahead_intern_ref_spec p (fs_lookaheads fsi) H1) as (I1 & I2 & I3 & I4); [unfold Lookahead.roomy; lia|done|].
  destruct (Lookahead.intern_ref p (fs_lookaheads fsi)) as [r p1]. cbn [fst snd] in *.
  assert (∃ c, match word_token g with Some w => TokenSet.contains (E:=E) (fs_lookaheads fsi) w | None => Ok false end = Ok c ∧
    (c = true ↔ ∃ w, word_token g = Some w ∧ w ∈ toks (fs_lookaheads fsi))) as (c & -> & Hc).
  { destruct (word_token g) as [w|] eqn:Hw; [|exists false; naive_solver]. apply (in_word _ Hin) in Hw as [Hk Ht].
    rewrite TokenSet.contains_spec by (done || by apply token_not_nt). eexists. split; [done|].
    pose proof (known_token _ _ (in_symbols _ Hin) _ Hk Ht). setoid_rewrite elem_of_toks; [|done]. naive_solver. }
  cbn [mbind outcome_bind]. set (info := mkInfo r _ _ c).
  assert (info_ok p1 (follows g v x) info) as Hinfo.
  { split; cbn.
    - exists (toks (fs_lookaheads fsi)). split; [done|]. intros t. apply (Hfsi (ATok t)).
    - intros k. apply (Hfsi (AReserved k)).
    - apply (Hfsi APropagates).
    - rewrite Hc. setoid_rewrite <- Hfsi. done. }
  destruct (variable_prod_ids_ok _ _ (in_symbols _ Hin) (E:=E) x Hx) as (rg & -> & Hrg). cbn [mbind outcome_bind]. rewrite Hrg.
  destruct (for_each_inv (add_production (E:=E) g inlines key_map eof x info)
    (λ d st, adding_ok p1 v (S n + length (concat (map (expand 0) d))) (λ y i, P y i ∨ y = x ∧ i ∈ concat (map (expand 0) d)) st)
    (var_ids x) (p1, adds)) as (st' & Hfor & Hst').
  - eapply adding_ok_ext; [|split; cbn; [done|done|lia|by eapply additions_ok_grows|exact H5]]. cbn. set_solver.
  - intros d id rest st' Heq Hst'. assert (length (items_of x) ≤ items_bound) as Hb by apply (in_items _ Hin).
    unfold items_of in Hb. rewrite Heq, map_app, concat_app, length_app in Hb. cbn in Hb. rewrite length_app in Hb.
    destruct (add_production_spec (E:=E) _ _ _ _ _ info x id Hst') as (st'' & Hadd & Hok); [done|done|rewrite Heq; set_solver|lia|].
    exists st''. split; [exact Hadd|]. rewrite map_app, concat_app. cbn [map concat]. rewrite List.app_nil_r, length_app, Nat.add_assoc.
    eapply adding_ok_ext; [|exact Hok]. cbn. intros y i. rewrite elem_of_app. tauto.
  - exists st'. split; [done|]. destruct Hst' as [S1 S2 S3 S4 S5]. fold (items_of x) in *. pose proof (in_items _ Hin x).
    eapply adding_ok_ext; [|split; [done|etrans; [exact H2|by etrans]|lia|done|done]]. cbn. tauto.
Qed.

Lemma infos_size (infos : gmap N FollowSetInfo) n : (∀ x, is_Some (infos !! x) → N.to_nat x < n) → size infos ≤ n.
Proof.
  intros Hx. rewrite <- (size_dom (D:=gset N)), <- (length_seq n 0), <- (length_map N.of_nat (seq 0 n)).
  rewrite <- (size_list_to_set (C:=gset N) (map N.of_nat (seq 0 n))) by (apply NoDup_fmap_2; [intros ? ? ?; lia|apply NoDup_seq]).
  apply subseteq_size. intros x Hd%elem_of_dom%Hx. apply elem_of_list_to_set, elem_of_map. exists (N.to_nat x).
  rewrite elem_of_seq, N2Nat.id. split; [done|lia].
Qed.

Lemma add_additions_spec {E} fuel s p additions i n :
  entries_for g known s → follow_fuel g n_terminals ≤ fuel → i < n_vars g → additions !! i = Some [] → Lookahead.pool_wf p → pool_len p ≤ n →
  (N.of_nat (n + n_vars g * S items_bound) < U32)%N →
  ∃ p' adds, add_additions (E:=E) g inlines key_map fuel s eof (p, additions) i = Ok (p', <[i := adds]> additions) ∧
    Lookahead.pool_wf p' ∧ Lookahead.grows p p' ∧ pool_len p' ≤ n + n_vars g * S items_bound ∧
    additions_ok p' (N.of_nat i) (addition_of (N.of_nat i)) adds.
Proof.
  intros Hs Hfuel Hi Hadds Hwf Hlen Hroom. unfold add_additions.
  destruct (follow_loop_spec g n_terminals (in_symbols _ Hin) s Hs eof Heof Heof_toks (in_productive _ Hin) (in_reserved _ Hin) (E:=E) (N.of_nat i) fuel)
    as (infos & -> & Hdom & Hinfos); [lia|done|]. cbn [mbind outcome_bind].
  rewrite (vec_get_Some _ _ _ Hadds). cbn [mbind outcome_bind].
  assert (∀ x, is_Some (infos !! x) → N.to_nat x < n_vars g) as Hlt.
  { intros x Hx%Hdom. eapply (leads_known g n_terminals (in_symbols _ Hin)); [|done]. lia. }
  set (l := map_iter (N.of_nat (S i)) infos).
  assert (∀ x fsi, (x, fsi) ∈ l ↔ infos !! x = Some fsi) as Hl.
  { intros x fsi. unfold l. by rewrite map_iter_perm, elem_of_map_to_list. }
  assert (length l ≤ n_vars g) as Hll by (unfold l; rewrite map_iter_perm, length_map_to_list; by apply infos_size).
  destruct (for_each_inv (add_variable (E:=E) g inlines key_map eof)
    (λ d st, adding_ok p (N.of_nat i) (n + length d * S items_bound) (λ x id, x ∈ d.*1 ∧ ¬ inlined x ∧ id ∈ items_of x) st) l (p, [])) as (st & -> & Hst).
  - split; cbn; [done|done|lia| |by intros x id (?%not_elem_of_nil & _)].
    split; [by intros a ?%not_elem_of_nil|by intros x id (?%not_elem_of_nil & _)].
  - intros d [x fsi] r st Heq Hst. assert ((x, fsi) ∈ l) as Hx%Hl by (rewrite Heq; set_solver).
    destruct (Hinfos _ _ Hx) as [Hw Ha]. assert (length d < length l) by (rewrite Heq, length_app; cbn; lia).
    destruct (add_variable_spec (E:=E) _ _ _ _ _ x fsi Hst) as (st' & Hadd & Hok); [apply Hlt; by rewrite Hx|done|done|nia|].
    exists st'. split; [exact Hadd|]. rewrite length_app, fmap_app. cbn [length fmap list_fmap].
    replace (n + (length d + 1) * S items_bound) with (n + length d * S items_bound + S items_bound) by lia.
    eapply adding_ok_ext; [|exact Hok]. cbn. intros y id. rewrite elem_of_app, list_elem_of_singleton. naive_solver.
  - cbn [mbind outcome_bind]. destruct st as [p' adds]. destruct Hst as [S1 S2 S3 S4 S5]. cbn [fst snd] in *.
    rewrite vec_set_lt by by eapply lookup_lt_Some. cbn [mbind outcome_bind]. exists p', adds. split_and!; [done|done|done|nia|].
    eapply additions_ok_ext; [|exact S4]. cbn. intros x id.
    assert (x ∈ l.*1 ↔ rtc leads_to (N.of_nat i) x) as Hxl.
    { rewrite <- Hdom, list_elem_of_fmap. split; [intros ([y fsi] & -> & Hy%Hl); by exists fsi|]. intros [fsi Hy]. exists (x, fsi). by rewrite Hl. }
    rewrite Hxl. split; [intros (? & ? & ?); by split|by intros []].
Qed.

Lemma intern_first_list (ids : gmap Symbol LookaheadSetId) (p : pool_t) (l : list (Symbol * TokenSet)) :
  Lookahead.pool_wf p → (∀ x s, (x, s) ∈ l → TokenSet.wf s) → NoDup l.*1 → (N.of_nat (pool_len p + length l) < U32)%N →
  let '(ids', p') := foldl (λ '(ids, p) '(symbol, set), let '(id, p) := Lookahead.intern_ref p set in (<[symbol := id]> ids, p)) (ids, p) l in
  Lookahead.pool_wf p' ∧ Lookahead.grows p p' ∧ pool_len p' ≤ pool_len p + length l ∧
  (∀ x s, (x, s) ∈ l → ∃ id, ids' !! x = Some id ∧ Lookahead.stands p' id (toks s)) ∧ ∀ x, x ∉ l.*1 → ids' !! x = ids !! x.
Proof.
  revert ids p. induction l as [|[x s] l IH]; intros ids p Hp Hl Hnd Hroom; cbn.
  { split_and!; [done|done|lia|by intros ? ? ?%not_elem_of_nil|done]. }
  destruct (Lookahead.lookahead_intern_ref_spec p s Hp) as (I1 & I2 & I3 & I4); [unfold Lookahead.roomy; cbn in Hroom; lia|apply (Hl x), list_elem_of_here|].
  destruct (Lookahead.intern_ref p s) as [r p1]. cbn [fst snd] in *. cbn in Hnd. apply NoDup_cons in Hnd as [Hx Hnd].
  specialize (IH (<[x := r]> ids) p1 I1). destruct (foldl _ _ l) as [ids' p']. destruct IH as (J1 & J2 & J3 & J4 & J5);
    [intros; eapply Hl; by apply list_elem_of_further|done|cbn in Hroom; lia|].
  split_and!; [done|by etrans|lia| |].
  - intros y s' [[= -> ->]|Hy]%elem_of_cons; [|by apply J4]. exists r. rewrite J5, lookup_insert_eq by done.
    split; [done|by eapply Lookahead.stands_grows].
  - intros y Hy. cbn in Hy. apply not_elem_of_cons in Hy as [Hne Hy]. by rewrite J5, lookup_insert_ne.
Qed.

(** ** The builder *)
Record builder_ok (b : ParseItemSetBuilder I) : Prop := {
  bk_sets : entries_for g known (symbol_sets b);
  bk_pool : Lookahead.pool_wf (pool b);
  bk_ids : ∀ x, known x → ∃ id X, first_set_ids b !! x = Some id ∧ Lookahead.stands (pool b) id X ∧ ∀ t, t ∈ X ↔ bordering g head x t;
  bk_length : length (transitive_closure_additions b) = n_vars g;
  bk_additions : ∀ v adds, transitive_closure_additions b !! N.to_nat v = Some adds → additions_ok (pool b) v (addition_of v) adds;
}.

Lemma first_sets_size s : entries_for g known s → size (first_sets s) ≤ S (n_terminals + n_externals g) + n_vars g.
Proof.
  intros Hs. clear -Hs. rewrite <- (size_dom (D:=gset Symbol)).
  assert (dom (first_sets s) ⊆ all_tokens g n_terminals ∪ nt_symbols g) as Hd.
  { intros x [set Hx]%elem_of_dom. destruct (decide (x ∈ all_tokens g n_terminals ∪ nt_symbols g)) as [|Hn]; [done|].
    destruct (Hs x) as [_ Hno]. destruct Hno as [Hno _]; [|by rewrite Hx in Hno]. intros Hk. apply Hn, elem_of_union.
    destruct (known_cases _ _ _ Hk) as [Ht|(w & -> & Hw)]; [left; by apply known_all_tokens|right; by apply elem_of_nt_symbols]. }
  etrans; [by apply subseteq_size|]. rewrite size_union_alt.
  pose proof (size_all_tokens g n_terminals). pose proof (size_nt_symbols g).
  assert (size (nt_symbols g ∖ all_tokens g n_terminals) ≤ size (nt_symbols g)) by (apply subseteq_size; set_solver).
  lia.
Qed.

Lemma builder_loop {E} fuel s p0 n :
  entries_for g known s → follow_fuel g n_terminals ≤ fuel → Lookahead.pool_wf p0 → pool_len p0 ≤ n →
  (N.of_nat (n + n_vars g * (n_vars g * S items_bound)) < U32)%N →
  ∃ p adds, for_each (add_additions (E:=E) g inlines key_map fuel s eof) (p0, replicate (n_vars g) []) (seq 0 (n_vars g)) = Ok (p, adds) ∧
    Lookahead.pool_wf p ∧ Lookahead.grows p0 p ∧ length adds = n_vars g ∧
    ∀ v l, adds !! N.to_nat v = Some l → additions_ok p v (addition_of v) l.
Proof.
  intros Hs Hfuel Hwf Hlen Hroom.
  destruct (for_each_inv (add_additions (E:=E) g inlines key_map fuel s eof)
    (λ d st, Lookahead.pool_wf st.1 ∧ Lookahead.grows p0 st.1 ∧ pool_len st.1 ≤ n + length d * (n_vars g * S items_bound) ∧
      length st.2 = n_vars g ∧ ∀ v l, st.2 !! N.to_nat v = Some l →
        (N.to_nat v < length d → additions_ok st.1 v (addition_of v) l) ∧ (length d ≤ N.to_nat v → l = []))
    (seq 0 (n_vars g)) (p0, replicate (n_vars g) [])) as ([p adds] & Hfor & H1 & H2 & H3 & H4 & H5).
  - cbn. split_and!; [done|done|lia|by rewrite length_replicate|]. intros v l [-> _]%lookup_replicate. split; [lia|done].
  - intros d i r [p adds] Heq (H1 & H2 & H3 & H4 & H5). cbn [fst snd] in *.
    pose proof (f_equal (λ l, l !! length d) Heq) as Hi. cbn in Hi. rewrite lookup_mid in Hi. apply lookup_seq in Hi as [-> Hi]. cbn in *.
    destruct (lookup_lt_is_Some_2 adds (length d)) as [l Hl]; [lia|].
    assert (l = []) as -> by (eapply (H5 (N.of_nat (length d))); rewrite Nat2N.id; (done || lia)).
    destruct (add_additions_spec (E:=E) fuel s p adds (length d) (n + length d * (n_vars g * S items_bound))) as (p' & adds' & Ha & A1 & A2 & A3 & A4);
      [done|done|done|done|done|done|nia|].
    exists (p', <[length d := adds']> adds). split; [exact Ha|]. cbn [fst snd]. rewrite length_insert, length_app. cbn [length].
    split_and!; [done|by etrans|lia|done|]. intros v l [(Hv & <- & _)|[Hne Hl']]%list_lookup_insert_Some.
    + split; [|lia]. intros _. rewrite Hv, N2Nat.id in A4. done.
    + destruct (H5 v l Hl') as [Hlt Hge]. split; [|intros; apply Hge; lia]. intros Hv. eapply additions_ok_grows; [done|]. apply Hlt. lia.
  - exists p, adds. cbn [fst snd] in *. split_and!; [done|done|done|done|]. intros v l Hl. destruct (H5 v l Hl) as [Hlt _]. apply Hlt.
    rewrite length_seq, <- H4. by eapply lookup_lt_Some.
Qed.
End closure.

Section builder_spec.
Context {H : Type} (str_pool : StrPool H) (g : SyntaxGrammar) (n_terminals : nat).
Context {I : Type} {IS : IndexSet I} {MI : MapIter}.
Context (inlines : InlinedProductionMap) (key_map : Item.ItemKeyMap) (items_bound : nat).
Context (Hin : inputs_ok str_pool g n_terminals inlines key_map items_bound).

(** The builder is built, with what it promises. *)
Lemma item_set_builder_spec {E} edge_fuel fuel :
  S (n_vars g) < edge_fuel → follow_fuel g n_terminals ≤ fuel →
  ∃ b : ParseItemSetBuilder I, builder_new (E:=E) g n_terminals inlines key_map edge_fuel fuel = Ok b ∧
    builder_ok g n_terminals inlines key_map b.
Proof.
  intros He Hf. unfold builder_new. pose proof (in_symbols _ _ _ _ _ _ Hin) as Hsy. pose proof (in_room _ _ _ _ _ _ Hin) as Hroom.
  destruct (new_symbol_sets_spec g n_terminals Hsy (E:=E) edge_fuel He) as (s & -> & Hs). cbn [mbind outcome_bind].
  unfold intern_first_sets. pose proof (first_sets_size g n_terminals s Hs) as Hsz. pose proof (Lookahead.new_pool_len (I:=I)) as Hl0.
  assert (∀ x set, (x, set) ∈ map_iter 0 (first_sets s) ↔ first_sets s !! x = Some set) as Hiter by (intros; by rewrite map_iter_perm, elem_of_map_to_list).
  assert (length (map_iter 0 (first_sets s)) = size (first_sets s)) as Hlen by by rewrite map_iter_perm, length_map_to_list.
  assert (∀ x set, first_sets s !! x = Some set → symbol_known g n_terminals x ∧ TokenSet.wf set ∧ ∀ t, t ∈ toks set ↔ bordering g head x t) as Hset.
  { intros x set Hx. destruct (decide (symbol_known g n_terminals x)) as [Hk|Hn]; [|destruct (Hs x) as [_ Hno]; destruct (Hno Hn) as [Hno' _]; by rewrite Hx in Hno'].
    destruct (Hs x) as [Hse _]. destruct (Hse Hk) as [(f & Hff & ? & ?) _ _]. by simplify_eq. }
  pose proof (intern_first_list ∅ Lookahead.new_pool (map_iter 0 (first_sets s)) Lookahead.new_pool_wf) as Hil.
  destruct (foldl _ _ (map_iter 0 (first_sets s))) as [ids p1]. destruct Hil as (P1 & P2 & P3 & P4 & _).
  { intros x set Hx%Hiter. by apply Hset in Hx as (_ & ? & _). }
  { rewrite map_iter_perm. apply NoDup_fst_map_to_list. }
  { rewrite Hlen. lia. }
  destruct (TokenSet.insert_spec (E:=E) TokenSet.new end_ TokenSet.wf_new eq_refl) as (eof & Heq & Heof & Hte).
  unfold eof_lookaheads. rewrite Heq. cbn [mbind outcome_bind]. rewrite TokenSet.toks_new, (right_id_L ∅ (∪)) in Hte.
  destruct (builder_loop str_pool g n_terminals inlines key_map items_bound Hin eof Heof Hte (E:=E) fuel s p1 (2 + (n_terminals + n_externals g + n_vars g)))
    as (p & adds & Hfor & B1 & B2 & B3 & B4); [done|done|done|lia|done|].
  fold (n_vars g). rewrite Hfor. cbn [mbind outcome_bind]. eexists. split; [done|]. split; cbn; [done|done| |done|done].
  intros x Hx. destruct (Hs x) as [Hse _]. destruct (Hse Hx) as [(f & Hff & _ & Ht) _ _]. destruct (P4 x f) as (id & Hid & Hst); [by apply Hiter|].
  exists id, (toks f). split_and!; [done|by eapply Lookahead.stands_grows|done].
Qed.
End builder_spec.
