(* ===== verification/Closure.v ===== *)
(** * [build_tables/item_set_builder.rs]: the closure of an item set

    For every item with a variable after its dot, the closure adds the additions of
    the variable.  It is the closure of LR(1): the items at the beginning of the
    productions of the variables that are expanded, each with the tokens that can
    follow its variable in the expansion. *)
From S2P Require Import Prelude Symbols TokenSet Ordering StrPool Grammars Lookaheads Items ItemSets FirstSets FollowSets Additions.
Import Builder.

(** ** The closure, as a specification *)
Section spec.
Context (g : SyntaxGrammar) (inlines : InlinedProductionMap) (key_map : Item.ItemKeyMap).
Notation var_ids := (var_ids g).
Notation starts_with := (starts_with g).

(** The steps of the production of an item, and the variable after its dot. *)
Definition steps_of (i : Item.ParseItem) : list ProductionStep := pr_steps (Item.the_prod g (Item.slot_of (Item.prod_id i))).
Definition next_var (i : Item.ParseItem) (x : N) : Prop :=
  ∃ s, steps_of i !! N.to_nat (Item.step_index i) = Some s ∧ step_symbol s = mkSymbol NonTerminal x.

(** The entries to close, and the tokens of a set of lookaheads. *)
Context (K : Item.ParseItemSetEntry → Prop) (tokens : LookaheadSetId → Symbol → Prop).
(** What can follow the symbol after the dot of an entry. *)
Definition after (k : Item.ParseItemSetEntry) (t : Symbol) : Prop :=
  match steps_of (Item.item k) !! S (N.to_nat (Item.step_index (Item.item k))) with
  | Some s => bordering g head (step_symbol s) t
  | None => tokens (Item.lookaheads k) t
  end.
(** The variables that are expanded, and the tokens that can follow them. *)
Inductive expanded : N → Prop :=
  | expanded_entry k x : K k → next_var (Item.item k) x → expanded x
  | expanded_first w id x : expanded w → id ∈ var_ids w → starts_with id x → expanded x.
Inductive followed : N → Symbol → Prop :=
  | followed_entry k x t : K k → next_var (Item.item k) x → after k t → followed x t
  | followed_gives w id x t : expanded w → id ∈ var_ids w → starts_with id x → gives g id (ATok t) → followed x t
  | followed_passes w id x t : followed w t → id ∈ var_ids w → starts_with id x → passes g id → followed x t.
(** The items of the closure and their lookahead tokens.  The productions of a
    variable that is to be inlined have no items; a production that must end the
    input has one lookahead. *)
Inductive closure_item : Item.ParseItem → Prop :=
  | closure_item_entry k : K k → closure_item (Item.item k)
  | closure_item_expanded x id : expanded x → ¬ inlined g x → id ∈ items_of g inlines x → closure_item (item_at key_map x id).
Inductive closure_token : Item.ParseItem → Symbol → Prop :=
  | closure_token_entry k t : K k → tokens (Item.lookaheads k) t → closure_token (Item.item k) t
  | closure_token_eof x id : expanded x → ¬ inlined g x → id ∈ items_of g inlines x →
      pr_requires_eof_lookahead (prod_at g id) = true → closure_token (item_at key_map x id) end_
  | closure_token_followed x id t : followed x t → ¬ inlined g x → id ∈ items_of g inlines x →
      pr_requires_eof_lookahead (prod_at g id) = false → closure_token (item_at key_map x id) t.

(** The expansion of one variable after the other is the expansion of the entries. *)
Lemma expanded_leads x : expanded x ↔ ∃ k v, K k ∧ next_var (Item.item k) v ∧ rtc (border_edge g head) v x.
Proof.
  split.
  - induction 1 as [k x Hk Hx|w id x _ (k & v & ? & ? & Hr) Hid Hs]; [eauto using rtc_refl|].
    exists k, v. split_and!; [done|done|]. eapply rtc_r; [done|by eapply starts_leads].
  - intros (k & v & Hk & Hv & Hr). revert x Hr. apply rtc_ind_r; [by eapply expanded_entry|].
    intros y z _ He IH. destruct (leads_starts _ _ _ He) as (id & ? & ?). by eapply expanded_first.
Qed.
Lemma followed_follows x t : followed x t ↔
  ∃ k v, K k ∧ next_var (Item.item k) v ∧ (follows g v x (ATok t) ∨ follows g v x APropagates ∧ after k t).
Proof.
  split.
  - induction 1 as [k x t Hk Hx Ha|w id x t Hw Hid Hs Hg|w id x t _ (k & v & Hk & Hv & Hf) Hid Hs Hp].
    + exists k, x. split_and!; [done|done|]. right. split; [apply follows_start|done].
    + apply expanded_leads in Hw as (k & v & Hk & Hv & Hr). exists k, v. split_and!; [done|done|]. left. by eapply follows_gives.
    + exists k, v. split_and!; [done|done|]. destruct Hf as [Hf|[Hf Ha]]; [left|right; split; [|done]]; by eapply follows_passes.
  - intros (k & v & Hk & Hv & Hf).
    assert (∀ a, follows g v x a → match a with ATok t => followed x t | APropagates => ∀ t, after k t → followed x t | _ => True end) as Hgen.
    { intros a. clear Hf. induction 1 as [|w id x a Hr Hid Hs Hg|w id x a _ IH Hid Hs Hp].
      - intros t' Ha. by eapply followed_entry.
      - assert (expanded w) by (apply expanded_leads; eauto).
        destruct a as [t'| |n]; [by eapply followed_gives| |done]. intros t' _. unfold gives in Hg. destruct (_ !! 1); [done|]. by destruct Hg.
      - destruct a as [t'| |n]; [by eapply followed_passes| |done]. intros t' Ha. eapply followed_passes; eauto. }
    destruct Hf as [Hf|[Hf Ha]]; [exact (Hgen _ Hf)|exact (Hgen _ Hf t Ha)].
Qed.
End spec.

(** ** The computation *)
Section closure.
Context {H : Type} (str_pool : StrPool H) (g : SyntaxGrammar) (n_terminals : nat).
Context {I : Type} {IS : IndexSet I} {MI : MapIter}.
Context (inlines : InlinedProductionMap) (key_map : Item.ItemKeyMap) (items_bound : nat).
Context (Hin : inputs_ok str_pool g n_terminals inlines key_map items_bound).
Notation pool_t := (Lookahead.LookaheadSetPool I).
Notation pool_len p := (length (is_elems (Lookahead.sets p))).
Notation item_ok := (Item.item_ok g key_map).

Definition tokens_of (p : pool_t) (id : LookaheadSetId) (t : Symbol) : Prop := ∃ X, Lookahead.stands p id X ∧ t ∈ X.
Lemma tokens_of_stands p id X t : Lookahead.stands p id X → tokens_of p id t ↔ t ∈ X.
Proof.
  intros HX. split; [|by exists X]. intros (Y & HY & Ht). by rewrite (Lookahead.stands_fun _ _ _ _ HX HY).
Qed.

(** What holds of the pool and the set between the steps. *)
Record closing_ok (p0 : pool_t) (n : nat) (st : @closing I) : Prop := {
  ck_wf : Lookahead.pool_wf st.1;
  ck_grows : Lookahead.grows p0 st.1;
  ck_len : pool_len st.1 ≤ n;
  ck_set : Item.set_ok st.2;
  ck_entries : ∀ e, Item.has st.2 e → item_ok (Item.item e) ∧ ∃ X, Lookahead.stands st.1 (Item.lookaheads e) X;
}.
Definition present (st : @closing I) (r : Item.rank) : Prop := ∃ e, Item.has st.2 e ∧ Item.entry_rank e = r.
Definition token_of (st : @closing I) (r : Item.rank) (t : Symbol) : Prop :=
  ∃ e, Item.has st.2 e ∧ Item.entry_rank e = r ∧ tokens_of st.1 (Item.lookaheads e) t.

Lemma closure_keyed i : item_ok i → Item.keyed i.
Proof. apply (Item.item_ok_keyed str_pool g), Hin. Qed.

(** Finding or making the entry of an item, and adding tokens to it. *)
Lemma upsert_tokens {E} p0 n p set i :
  closing_ok p0 n (p, set) → item_ok i →
  ∃ j set' e X, Item.item_set_insert (E:=E) set i = Ok (j, set') ∧ Item.entries set' !! j = Some e ∧ Lookahead.stands p (Item.lookaheads e) X ∧
    ∀ p' n' e' Y, Lookahead.grows p p' → Lookahead.pool_wf p' → pool_len p' ≤ n' → Item.item e' = Item.item e →
      Lookahead.stands p' (Item.lookaheads e') (X ∪ Y) →
      closing_ok p0 n' (p', Item.update_entry set' j e') ∧
      (∀ r, present (p', Item.update_entry set' j e') r ↔ present (p, set) r ∨ r = Item.item_rank i) ∧
      ∀ r t, token_of (p', Item.update_entry set' j e') r t ↔ token_of (p, set) r t ∨ r = Item.item_rank i ∧ t ∈ Y.
Proof.
  intros [H1 H2 H3 H4 H5] Hi. cbn [fst snd] in *.
  destruct (Item.upsert_spec (E:=E) set i H4 (closure_keyed i Hi)) as (j & set' & e & Hins & He & Hr & _ & Hor & Hup).
  assert (∃ X, Lookahead.stands p (Item.lookaheads e) X ∧ item_ok (Item.item e) ∧
    (∀ t, t ∈ X ↔ token_of (p, set) (Item.item_rank i) t)) as (X & HX & Hie & HXt).
  { destruct Hor as [Hhas|[-> Hno]].
    - destruct (H5 e Hhas) as [Hok [X HX]]. exists X. split_and!; [done|done|]. intros t. rewrite <- (tokens_of_stands _ _ _ t HX).
      split; [by exists e|]. intros (a & Ha & Har & Hat). cbn in *. by rewrite (Item.has_unique set e a) by congruence.
    - exists ∅. split_and!; [apply (Lookahead.pw_empty p H1)|done|]. intros t. split; [set_solver|].
      intros (a & Ha & Har & _). by destruct (Hno a Ha). }
  exists j, set', e, X. split_and!; [done|done|done|]. intros p' n' e' Y Hg Hp' Hl He' HXY.
  destruct (Hup e' He') as [Hset Hhas].
  assert (Item.entry_rank e' = Item.item_rank i) as Hr' by (unfold Item.entry_rank in *; by rewrite He').
  split_and!.
  - split; cbn [fst snd]; [done|by etrans|done|done|]. intros a [->|[Ha _]]%Hhas; [rewrite He'; eauto|].
    destruct (H5 a Ha) as [? [Z HZ]]. split; [done|]. exists Z. by eapply Lookahead.stands_grows.
  - intros r. unfold present. cbn [fst snd]. split.
    + intros (a & [->|[Ha _]]%Hhas & <-); [by right|left; eauto].
    + destruct (decide (r = Item.item_rank i)) as [->|Hne]; [intros _; exists e'; rewrite Hhas; auto|].
      intros [(a & Ha & <-)|?]; [|done]. exists a. rewrite Hhas. auto.
  - intros r t. split.
    + intros (a & Ha & <- & Hat). cbn [fst snd] in *. apply Hhas in Ha as [->|[Ha Hne]].
      * apply (tokens_of_stands _ _ _ _ HXY) in Hat. rewrite Hr'. apply elem_of_union in Hat as [Hat|Hat]; [left; by apply HXt|by right].
      * left. exists a. split_and!; [done|done|]. cbn. destruct (H5 a Ha) as [_ [Z HZ]].
        apply (tokens_of_stands _ _ _ _ (Lookahead.stands_grows _ _ _ _ Hg HZ)) in Hat. by exists Z.
    + assert (t ∈ X ∪ Y → token_of (p', Item.update_entry set' j e') (Item.item_rank i) t) as Hnew.
      { intros Ht. exists e'. cbn. rewrite Hhas. split_and!; [by left|done|by exists (X ∪ Y)]. }
      intros [(a & Ha & <- & Hat)|[-> Ht]]; [|apply Hnew; set_solver].
      destruct (decide (Item.entry_rank a = Item.item_rank i)) as [Heq|Hne].
      * rewrite Heq. apply Hnew, elem_of_union. left. apply HXt. exists a. by rewrite Heq.
      * exists a. cbn in *. rewrite Hhas. split_and!; [by right|done|]. destruct Hat as (Z & HZ & Ht). exists Z.
        split; [by eapply Lookahead.stands_grows|done].
Qed.

(** The tokens that an addition adds when [F] can follow the variable. *)
Definition added (p : pool_t) (F : gset Symbol) (a : TransitiveClosureAddition) (t : Symbol) : Prop :=
  tokens_of p (ai_lookaheads (ta_info a)) t ∨ ai_propagates_lookaheads (ta_info a) = true ∧ t ∈ F.
Lemma added_grows p p' F a t : Lookahead.grows p p' → (∃ X, Lookahead.stands p (ai_lookaheads (ta_info a)) X) → added p F a t ↔ added p' F a t.
Proof.
  intros Hg [X HX]. unfold added. rewrite (tokens_of_stands _ _ _ t HX), (tokens_of_stands _ _ _ t (Lookahead.stands_grows _ _ _ _ Hg HX)). done.
Qed.
Lemma apply_addition_spec {E} p0 n st following r F a :
  closing_ok p0 n st → item_ok (ta_item a) → (∃ X, Lookahead.stands st.1 (ai_lookaheads (ta_info a)) X) → Lookahead.stands st.1 following F →
  (N.of_nat (2 + n) < U32)%N →
  ∃ st', apply_addition (E:=E) g following r st a = Ok st' ∧ closing_ok p0 (2 + n) st' ∧ Lookahead.grows st.1 st'.1 ∧
    (∀ q, present st' q ↔ present st q ∨ q = Item.item_rank (ta_item a)) ∧
    ∀ q t, token_of st' q t ↔ token_of st q t ∨ q = Item.item_rank (ta_item a) ∧ added st.1 F a t.
Proof.
  intros Hst Hi [X HX] HF Hroom. destruct st as [p set]. cbn [fst snd] in *. unfold apply_addition.
  destruct (upsert_tokens (E:=E) p0 n p set (ta_item a) Hst Hi) as (j & set' & e & Z & -> & He & HZ & Hup). cbn [mbind outcome_bind].
  rewrite (vec_get_Some _ _ _ He). cbn [mbind outcome_bind].
  destruct Hst as [H1 H2 H3 _ _]. cbn [fst snd] in *.
  destruct (Lookahead.lookahead_union_spec (E:=E) p (Item.lookaheads e) (ai_lookaheads (ta_info a)) Z X H1) as ([id p1] & -> & U1 & U2 & U3 & U4);
    [unfold Lookahead.roomy; lia|done|done|]. cbn [mbind outcome_bind fst snd] in *.
  unfold added. setoid_rewrite (tokens_of_stands _ _ _ _ HX).
  destruct (ai_propagates_lookaheads (ta_info a)) eqn:Hprop.
  - set (e1 := if ai_contains_word (ta_info a) then _ else _).
    assert (Item.item e1 = Item.item e ∧ Item.lookaheads e1 = id) as [He1 ->] by (unfold e1; by destruct (ai_contains_word (ta_info a))).
    destruct (Lookahead.lookahead_union_spec (E:=E) p1 id following (Z ∪ X) F U1) as ([id2 p2] & -> & V1 & V2 & V3 & V4);
      [unfold Lookahead.roomy; lia|done|by eapply Lookahead.stands_grows|]. cbn [mbind outcome_bind fst snd] in *.
    assert (∃ c, match word_token g with Some w => tokens ← Lookahead.get (E:=E) p2 following; TokenSet.contains tokens w | None => Ok false end = Ok c) as [c ->].
    { destruct (word_token g) as [w|] eqn:Hw; [|by exists false].
      assert (Lookahead.stands p2 following F) as HF2 by (eapply Lookahead.stands_grows; [|exact HF]; by etrans).
      destruct (Lookahead.get_stands (E:=E) p2 _ _ V1 HF2) as (s & -> & Hs & _). cbn.
      apply (in_word _ _ _ _ _ _ Hin) in Hw as [_ Hw]. rewrite TokenSet.contains_spec by (done || by apply token_not_nt). eauto. }
    cbn [mbind outcome_bind]. eexists. split; [done|]. cbn [fst snd].
    destruct (Hup p2 (2 + n) (if c then max_reserved (set_lookaheads e1 id2) r else set_lookaheads e1 id2) (X ∪ F)) as (Hok & Hp & Ht);
      [by etrans|done|lia|by destruct c|by destruct c; rewrite (assoc_L (∪))|].
    split_and!; [done|by etrans|done|]. intros q t. rewrite Ht. set_solver.
  - eexists. split; [done|]. cbn [fst snd].
    destruct (Hup p1 (2 + n) (if ai_contains_word (ta_info a) then max_reserved (set_lookaheads e id) (ai_reserved_lookaheads (ta_info a)) else set_lookaheads e id) X)
      as (Hok & Hp & Ht); [done|done|lia|by destruct (ai_contains_word (ta_info a))|by destruct (ai_contains_word (ta_info a))|].
    split_and!; [done|done|done|]. intros q t. rewrite Ht. naive_solver.
Qed.
Lemma apply_additions_spec {E} p0 n st following r F adds :
  closing_ok p0 n st → (∀ a, a ∈ adds → item_ok (ta_item a) ∧ ∃ X, Lookahead.stands st.1 (ai_lookaheads (ta_info a)) X) →
  Lookahead.stands st.1 following F → (N.of_nat (n + 2 * length adds) < U32)%N →
  ∃ st', for_each (apply_addition (E:=E) g following r) st adds = Ok st' ∧ closing_ok p0 (n + 2 * length adds) st' ∧ Lookahead.grows st.1 st'.1 ∧
    (∀ q, present st' q ↔ present st q ∨ ∃ a, a ∈ adds ∧ q = Item.item_rank (ta_item a)) ∧
    ∀ q t, token_of st' q t ↔ token_of st q t ∨ ∃ a, a ∈ adds ∧ q = Item.item_rank (ta_item a) ∧ added st.1 F a t.
Proof.
  intros Hst Hadds HF Hroom.
  destruct (for_each_inv (apply_addition (E:=E) g following r) (λ d st', closing_ok p0 (n + 2 * length d) st' ∧ Lookahead.grows st.1 st'.1 ∧
    (∀ q, present st' q ↔ present st q ∨ ∃ a, a ∈ d ∧ q = Item.item_rank (ta_item a)) ∧
    ∀ q t, token_of st' q t ↔ token_of st q t ∨ ∃ a, a ∈ d ∧ q = Item.item_rank (ta_item a) ∧ added st.1 F a t) adds st) as (st' & Hfor & Hinv).
  - cbn. rewrite Nat.add_0_r. split_and!; [done|done|set_solver|set_solver].
  - intros d a rest st' Heq (H1 & H2 & H3 & H4). destruct (Hadds a) as [Hi [X HX]]; [rewrite Heq; set_solver|].
    rewrite Heq, length_app in Hroom. cbn in Hroom.
    destruct (apply_addition_spec (E:=E) _ _ st' following r F a H1 Hi) as (st'' & Happ & A1 & A2 & A3 & A4);
      [exists X; by eapply Lookahead.stands_grows|by eapply Lookahead.stands_grows|lia|].
    exists st''. split; [exact Happ|]. rewrite length_app. cbn [length].
    replace (n + 2 * (length d + 1)) with (2 + (n + 2 * length d)) by lia. split_and!; [done|by etrans| |].
    + intros q. rewrite A3, H3. setoid_rewrite elem_of_app. setoid_rewrite list_elem_of_singleton. naive_solver.
    + intros q t. rewrite A4, H4, <- (added_grows st.1 st'.1 F a t H2) by eauto.
      setoid_rewrite elem_of_app. setoid_rewrite list_elem_of_singleton. naive_solver.
  - exists st'. done.
Qed.

(** The entry's item, its step and the next. *)
Lemma item_step_spec {E} i : item_ok i → Item.item_step (E:=E) i g = Ok (steps_of g i !! N.to_nat (Item.step_index i)).
Proof.
  intros [[Hk1 Hk2] _]. cbn in Hk1. rewrite Nat2N.id in Hk1. unfold Item.item_step, Item.item_production, steps_of, Item.slot_of in *.
  destruct (Item.prod_id i =? Item.START_PRODUCTION_ID)%N; [done|].
  rewrite (sy_prods _ _ (in_symbols _ _ _ _ _ _ Hin)) by (unfold Item.slot_count in Hk1; lia). done.
Qed.
Lemma steps_of_known i s : item_ok i → s ∈ steps_of g i → symbol_known g n_terminals (step_symbol s).
Proof.
  intros [[Hk1 _] _]. cbn in Hk1. rewrite Nat2N.id in Hk1. unfold steps_of, Item.slot_of in *.
  destruct (Item.prod_id i =? Item.START_PRODUCTION_ID)%N.
  - intros ->%list_elem_of_singleton. exact (in_vars _ _ _ _ _ _ Hin).
  - intros Hs. eapply step_known; [exact (in_symbols _ _ _ _ _ _ Hin)| |exact Hs]. unfold Item.slot_count in Hk1. lia.
Qed.
Lemma successor_ok i s : item_ok i → steps_of g i !! N.to_nat (Item.step_index i) = Some s →
  item_ok (Item.successor i) ∧ N.to_nat (Item.step_index (Item.successor i)) = S (N.to_nat (Item.step_index i)).
Proof.
  intros [[Hk1 Hk2] Hks] Hs%lookup_lt_Some. cbn in Hk1, Hk2. rewrite Nat2N.id in Hk1, Hk2. unfold steps_of in Hs.
  pose proof (Item.dots_le g _ Hk1). pose proof (Item.go_count _ _ (in_grammar _ _ _ _ _ _ Hin)). unfold Item.dots in *.
  assert (wrap_u32 (Item.step_index i + 1) = (Item.step_index i + 1)%N) as Hw by (apply wrap_u32_small; lia).
  split; [|cbn; rewrite Hw; lia]. split; [|exact Hks]. split; cbn; rewrite Nat2N.id; [done|]. rewrite Hw. unfold Item.dots. lia.
Qed.

(** ** One entry *)
Lemma closing_ok_le p0 n n' st : n ≤ n' → closing_ok p0 n st → closing_ok p0 n' st.
Proof. intros Hn [? ? ? ? ?]. split; (done || lia). Qed.
Lemma added_fact p P a F t : info_ok g p P (ta_info a) → added p F a t ↔ P (ATok t) ∨ P APropagates ∧ t ∈ F.
Proof.
  intros [(X & HX & HXt) _ Hprop _]. unfold added. rewrite (tokens_of_stands _ _ _ t HX), HXt, Hprop. done.
Qed.
Lemma addition_item_ok v x id : addition_of g inlines v x id → item_ok (item_at key_map x id).
Proof.
  intros [_ _ Hid]. eapply item_at_ok; [exact Hin|]. by eapply items_of_known.
Qed.

(** The additions of variable [v], when the tokens of [F] can follow it. *)
Lemma expand_entry {E} b p0 n set v following r F max :
  builder_ok g n_terminals inlines key_map b → closing_ok p0 n (pool b, set) → N.to_nat v < n_vars g →
  Lookahead.stands (pool b) following F → (∀ l, l ∈ transitive_closure_additions b → length l ≤ max) → (N.of_nat (n + 2 * max) < U32)%N →
  ∃ adds st', transitive_closure_additions b !! N.to_nat v = Some adds ∧
    for_each (apply_addition (E:=E) g following r) (pool b, set) adds = Ok st' ∧
    closing_ok p0 (n + 2 * max) st' ∧ Lookahead.grows (pool b) st'.1 ∧
    (∀ q, present st' q ↔ present (pool b, set) q ∨ ∃ x id, addition_of g inlines v x id ∧ q = Item.item_rank (item_at key_map x id)) ∧
    ∀ q t, token_of st' q t ↔ token_of (pool b, set) q t ∨ ∃ x id, addition_of g inlines v x id ∧ q = Item.item_rank (item_at key_map x id) ∧
      (addition_fact g v x id (ATok t) ∨ addition_fact g v x id APropagates ∧ t ∈ F).
Proof.
  intros Hb Hc Hv HF Hmax Hroom. rewrite <- (bk_length _ _ _ _ _ Hb) in Hv. destruct (lookup_lt_is_Some_2 _ _ Hv) as [adds Hadds].
  destruct (bk_additions _ _ _ _ _ Hb v adds Hadds) as [Hsound Hcomplete]. exists adds.
  assert (length adds ≤ max) as Hlen by (eapply Hmax, list_elem_of_lookup_2, Hadds).
  destruct (apply_additions_spec (E:=E) p0 n (pool b, set) following r F adds Hc) as (st' & Hfor & A1 & A2 & A3 & A4).
  { intros a Ha. destruct (Hsound a Ha) as (x & id & Hof & -> & [(X & HX & _) _ _ _]). split; [by eapply addition_item_ok|by exists X]. }
  { done. }
  { lia. }
  exists st'. split; [done|]. split; [done|]. split_and!; [eapply closing_ok_le; [|done]; lia|done| |].
  - intros q. rewrite A3. split; (intros [?|Hex]; [by left|right]).
    + destruct Hex as (a & Ha & ->). destruct (Hsound a Ha) as (x & id & ? & -> & _). eauto.
    + destruct Hex as (x & id & Hof & ->). destruct (Hcomplete x id Hof) as (a & ? & <- & _). eauto.
  - intros q t. rewrite A4. cbn [fst]. split; (intros [?|Hex]; [by left|right]).
    + destruct Hex as (a & Ha & -> & Had). destruct (Hsound a Ha) as (x & id & ? & Hia & Hinfo). rewrite Hia.
      exists x, id. split_and!; [done|done|]. by rewrite <- (added_fact _ _ a F t Hinfo).
    + destruct Hex as (x & id & Hof & -> & Had). destruct (Hcomplete x id Hof) as (a & ? & <- & Hinfo).
      exists a. split_and!; [done|done|]. by rewrite (added_fact _ _ a F t Hinfo).
Qed.

(** The lookaheads that follow the symbol after the dot of an entry. *)
Lemma following_spec {E} b k s X :
  builder_ok g n_terminals inlines key_map b → item_ok (Item.item k) → Lookahead.stands (pool b) (Item.lookaheads k) X →
  steps_of g (Item.item k) !! N.to_nat (Item.step_index (Item.item k)) = Some s →
  ∃ ns id r F, Item.item_step (E:=E) (Item.successor (Item.item k)) g = Ok ns ∧
    match ns with
    | Some next_step =>
        id ← unwrap (first_set_ids b !! step_symbol next_step);
        r ← unwrap (reserved_first_sets (symbol_sets b) !! step_symbol next_step);
        Ok (E:=E) (id, r)
    | None => Ok (Item.lookaheads k, Item.following_reserved_word_set k)
    end = Ok (id, r) ∧ Lookahead.stands (pool b) id F ∧ ∀ t, t ∈ F ↔ after g (tokens_of (pool b)) k t.
Proof.
  intros Hb Hk HX Hs. destruct (successor_ok _ _ Hk Hs) as [Hsok Hsi].
  exists (steps_of g (Item.item k) !! S (N.to_nat (Item.step_index (Item.item k)))).
  rewrite (item_step_spec _ Hsok), Hsi. unfold after. change (steps_of g (Item.successor (Item.item k))) with (steps_of g (Item.item k)).
  destruct (steps_of g (Item.item k) !! S _) as [s'|] eqn:Hs'.
  - assert (symbol_known g n_terminals (step_symbol s')) as Hkn by (eapply steps_of_known; [exact Hk|by eapply list_elem_of_lookup_2]).
    destruct (bk_ids _ _ _ _ _ Hb _ Hkn) as (id & F & -> & HF & HFt). destruct (bk_sets _ _ _ _ _ Hb (step_symbol s')) as [Hse _].
    destruct (Hse Hkn) as [_ (r & -> & _) _]. exists id, r, F. done.
  - exists (Item.lookaheads k), (Item.following_reserved_word_set k), X. split_and!; [done|done|done|].
    intros t. by rewrite (tokens_of_stands _ _ _ t HX).
Qed.

Lemma add_item_spec {E} b set p0 n k max :
  builder_ok g n_terminals inlines key_map b → closing_ok p0 n (pool b, set) → item_ok (Item.item k) →
  (∃ X, Lookahead.stands (pool b) (Item.lookaheads k) X) →
  (∀ l, l ∈ transitive_closure_additions b → length l ≤ max) → (N.of_nat (n + 2 * max + 1) < U32)%N →
  ∃ p' set', add_item (E:=E) g b set k = Ok (mkBuilder (symbol_sets b) (first_set_ids b) p' (transitive_closure_additions b), set') ∧
    closing_ok p0 (n + 2 * max + 1) (p', set') ∧ Lookahead.grows (pool b) p' ∧
    (∀ q, present (p', set') q ↔ present (pool b, set) q ∨ q = Item.item_rank (Item.item k) ∨
       ∃ v x id, next_var g (Item.item k) v ∧ addition_of g inlines v x id ∧ q = Item.item_rank (item_at key_map x id)) ∧
    ∀ q t, token_of (p', set') q t ↔ token_of (pool b, set) q t ∨ q = Item.item_rank (Item.item k) ∧ tokens_of (pool b) (Item.lookaheads k) t ∨
       ∃ v x id, next_var g (Item.item k) v ∧ addition_of g inlines v x id ∧ q = Item.item_rank (item_at key_map x id) ∧
         (addition_fact g v x id (ATok t) ∨ addition_fact g v x id APropagates ∧ after g (tokens_of (pool b)) k t).
Proof.
  intros Hb Hc Hk [X HX] Hmax Hroom. unfold add_item. rewrite (item_step_spec (Item.item k) Hk). cbn [mbind outcome_bind].
  set (mid := match steps_of g (Item.item k) !! _ with Some _ => _ | None => _ end).
  assert (∃ p1 set1, mid = Ok (p1, set1) ∧ closing_ok p0 (n + 2 * max) (p1, set1) ∧ Lookahead.grows (pool b) p1 ∧
    (∀ q, present (p1, set1) q ↔ present (pool b, set) q ∨
       ∃ v x id, next_var g (Item.item k) v ∧ addition_of g inlines v x id ∧ q = Item.item_rank (item_at key_map x id)) ∧
    ∀ q t, token_of (p1, set1) q t ↔ token_of (pool b, set) q t ∨
       ∃ v x id, next_var g (Item.item k) v ∧ addition_of g inlines v x id ∧ q = Item.item_rank (item_at key_map x id) ∧
         (addition_fact g v x id (ATok t) ∨ addition_fact g v x id APropagates ∧ after g (tokens_of (pool b)) k t))
    as (p1 & set1 & -> & M1 & M2 & M3 & M4).
  { subst mid. assert ((∀ v, ¬ next_var g (Item.item k) v) → ∃ p1 set1, Ok (E:=E) (pool b, set) = Ok (p1, set1) ∧ closing_ok p0 (n + 2 * max) (p1, set1) ∧ Lookahead.grows (pool b) p1 ∧
      (∀ q, present (p1, set1) q ↔ present (pool b, set) q ∨
         ∃ v x id, next_var g (Item.item k) v ∧ addition_of g inlines v x id ∧ q = Item.item_rank (item_at key_map x id)) ∧
      ∀ q t, token_of (p1, set1) q t ↔ token_of (pool b, set) q t ∨
         ∃ v x id, next_var g (Item.item k) v ∧ addition_of g inlines v x id ∧ q = Item.item_rank (item_at key_map x id) ∧
           (addition_fact g v x id (ATok t) ∨ addition_fact g v x id APropagates ∧ after g (tokens_of (pool b)) k t)) as Hnone.
    { intros Hno. exists (pool b), set. split_and!; [done|eapply closing_ok_le; [|done]; lia|done|naive_solver|naive_solver]. }
    destruct (steps_of g (Item.item k) !! _) as [s|] eqn:Hs; [|apply Hnone; intros v (s & Hs' & _); congruence].
    unfold is_non_terminal. case_bool_decide as Hnt; [|apply Hnone; intros v (s' & Hs' & Hv); simplify_eq; by rewrite Hv in Hnt].
    assert (step_symbol s = mkSymbol NonTerminal (index (step_symbol s))) as Hv by (destruct (step_symbol s); cbn in *; by subst).
    assert (symbol_known g n_terminals (step_symbol s)) as Hkn by (eapply steps_of_known; [exact Hk|by eapply list_elem_of_lookup_2]).
    set (v := index (step_symbol s)) in *. rewrite Hv in Hkn.
    destruct (following_spec (E:=E) b k s X Hb Hk HX Hs) as (ns & id & r & F & -> & Hfol & HF & HFt).
    cbn [mbind outcome_bind]. cbn [mbind outcome_bind] in Hfol. rewrite Hfol. cbn [mbind outcome_bind].
    destruct (expand_entry (E:=E) b p0 n set v id r F max) as (adds & [p1 set1] & Hadds & Hfor & E1 & E2 & E3 & E4); [done|done|done|done|done|lia|].
    rewrite (vec_get_Some _ _ _ Hadds). cbn [mbind outcome_bind]. exists p1, set1.
    assert (∀ w, next_var g (Item.item k) w ↔ w = v) as Hnv.
    { intros w. split; [intros (s' & Hs' & Hw); simplify_eq; congruence|intros ->; by exists s]. }
    split_and!; [done|done|done| |].
    - intros q. rewrite E3. setoid_rewrite Hnv. naive_solver.
    - intros q t. rewrite E4. setoid_rewrite Hnv. setoid_rewrite <- HFt. naive_solver. }
  cbn [mbind outcome_bind].
  destruct (upsert_tokens (E:=E) p0 _ p1 set1 (Item.item k) M1 Hk) as (j & set' & e & Z & -> & He & HZ & Hup). cbn [mbind outcome_bind].
  rewrite (vec_get_Some _ _ _ He). cbn [mbind outcome_bind].
  destruct M1 as [N1 N2 N3 _ _]. cbn [fst snd] in *.
  destruct (Lookahead.lookahead_union_spec (E:=E) p1 (Item.lookaheads e) (Item.lookaheads k) Z X N1) as ([id p2] & -> & U1 & U2 & U3 & U4);
    [unfold Lookahead.roomy; lia|done|by eapply Lookahead.stands_grows|]. cbn [mbind outcome_bind fst snd] in *.
  destruct (Hup p2 (n + 2 * max + 1) (max_reserved (set_lookaheads e id) (Item.following_reserved_word_set k)) X) as (Hok & Hp & Ht); [done|done|lia|done|done|].
  eexists p2, _. split; [done|]. split_and!; [done|by etrans| |].
  - intros q. rewrite Hp, M3. tauto.
  - intros q t. rewrite Ht, M4, (tokens_of_stands _ _ _ t HX). tauto.
Qed.

(** ** All entries *)
Definition entry_at (e : Item.ParseItemSetEntry) (id : N) : Item.ParseItemSetEntry :=
  Item.mkEntry (Item.substitute_production (Item.item e) id (keys_of key_map id)) (Item.lookaheads e) (Item.following_reserved_word_set e).
(** The entries that stand for the entries of a set once inlined productions are
    substituted at their dots. *)
Definition entries_at (e : Item.ParseItemSetEntry) : list Item.ParseItemSetEntry :=
  map (entry_at e) (expand inlines (Item.step_index (Item.item e)) (Item.prod_id (Item.item e))).
Definition kernel (s : Item.ParseItemSet) : list Item.ParseItemSetEntry := concat (map entries_at (Item.entries s)).
Definition closing_step {E} (st : ParseItemSetBuilder I * Item.ParseItemSet) (k : Item.ParseItemSetEntry) :
    outcome E (ParseItemSetBuilder I * Item.ParseItemSet) := add_item g st.1 st.2 k.

Lemma entry_at_ok e id : item_ok (Item.item e) → id ∈ expand inlines (Item.step_index (Item.item e)) (Item.prod_id (Item.item e)) →
  item_ok (Item.item (entry_at e id)).
Proof.
  intros [Hk Hks] Hid. unfold expand, inlined_prod_ids in Hid.
  destruct (inlines !! (Item.prod_id (Item.item e), Item.step_index (Item.item e))) as [ids|] eqn:Hin'.
  - destruct (in_inlines _ _ _ _ _ _ Hin _ _ _ Hin' id Hid) as [Hlt Hd].
    assert (Item.known g id (Item.step_index (Item.item e))) as Hkn by (by eapply known_at).
    split; cbn; [done|]. intros E. by eapply keys_for_known.
  - apply list_elem_of_singleton in Hid as ->. split; cbn; [done|]. intros E. by eapply keys_for_known.
Qed.
Lemma close_entry_spec {E} st e : item_ok (Item.item e) →
  close_entry (E:=E) g inlines key_map st e = for_each closing_step st (entries_at e).
Proof.
  intros Hk. pose proof (λ id, entry_at_ok e id Hk) as Hok. unfold close_entry, entries_at, expand in *.
  destruct (inlined_prod_ids inlines _ _) as [ids|].
  - rewrite for_each_map. apply for_each_ext. intros [b set] id Hid. destruct (Hok id Hid) as [_ Hks]. cbn in Hks. by rewrite Hks.
  - destruct st as [b set]. cbn. unfold closing_step. cbn. replace (entry_at e (Item.prod_id (Item.item e))) with e.
    + by destruct (add_item g b set e).
    + destruct Hk as [_ Hks]. unfold entry_at, keys_of. rewrite Hks. destruct e as [[] ? ?]. done.
Qed.
Lemma transitive_closure_kernel {E} b s : (∀ e, e ∈ Item.entries s → item_ok (Item.item e)) →
  transitive_closure (E:=E) g inlines key_map b s = for_each closing_step (b, Item.mkItemSet []) (kernel s).
Proof.
  intros Hs. unfold transitive_closure, kernel. rewrite for_each_concat, for_each_map. apply for_each_ext.
  intros st e He. by apply close_entry_spec, Hs.
Qed.
Lemma kernel_ok s k : (∀ e, e ∈ Item.entries s → item_ok (Item.item e)) → k ∈ kernel s →
  item_ok (Item.item k) ∧ ∃ e, e ∈ Item.entries s ∧ Item.lookaheads k = Item.lookaheads e.
Proof.
  intros Hs (l & (e & -> & He)%elem_of_map & (id & -> & Hid)%elem_of_map)%elem_of_concat. split; [by apply entry_at_ok; [apply Hs|]|eauto].
Qed.

Lemma builder_ok_pool b p' : builder_ok g n_terminals inlines key_map b → Lookahead.pool_wf p' → Lookahead.grows (pool b) p' →
  builder_ok g n_terminals inlines key_map (mkBuilder (symbol_sets b) (first_set_ids b) p' (transitive_closure_additions b)).
Proof.
  intros [H1 H2 H3 H4 H5] Hp Hg. split; cbn; [done|done| |done|].
  - intros x Hx. destruct (H3 x Hx) as (id & X & ? & ? & ?). exists id, X. split_and!; [done|by eapply Lookahead.stands_grows|done].
  - intros v adds Ha. eapply additions_ok_grows; [done|by apply H5].
Qed.
Lemma after_grows p p' k t : Lookahead.grows p p' → (∃ X, Lookahead.stands p (Item.lookaheads k) X) → after g (tokens_of p') k t ↔ after g (tokens_of p) k t.
Proof.
  intros Hg [X HX]. unfold after. destruct (steps_of g (Item.item k) !! _); [done|].
  by rewrite (tokens_of_stands _ _ _ t HX), (tokens_of_stands _ _ _ t (Lookahead.stands_grows _ _ _ _ Hg HX)).
Qed.

(** What one entry contributes. *)
Definition contributes_item (k : Item.ParseItemSetEntry) (q : Item.rank) : Prop :=
  q = Item.item_rank (Item.item k) ∨
  ∃ v x id, next_var g (Item.item k) v ∧ addition_of g inlines v x id ∧ q = Item.item_rank (item_at key_map x id).
Definition contributes_token (p : pool_t) (k : Item.ParseItemSetEntry) (q : Item.rank) (t : Symbol) : Prop :=
  q = Item.item_rank (Item.item k) ∧ tokens_of p (Item.lookaheads k) t ∨
  ∃ v x id, next_var g (Item.item k) v ∧ addition_of g inlines v x id ∧ q = Item.item_rank (item_at key_map x id) ∧
    (addition_fact g v x id (ATok t) ∨ addition_fact g v x id APropagates ∧ after g (tokens_of p) k t).
Lemma contributes_grows p p' k q t : Lookahead.grows p p' → (∃ X, Lookahead.stands p (Item.lookaheads k) X) →
  contributes_token p' k q t ↔ contributes_token p k q t.
Proof.
  intros Hg HX. unfold contributes_token. setoid_rewrite (after_grows p p' k t Hg HX). destruct HX as [X HX].
  by rewrite (tokens_of_stands _ _ _ t HX), (tokens_of_stands _ _ _ t (Lookahead.stands_grows _ _ _ _ Hg HX)).
Qed.

Lemma closing_loop {E} b ks max :
  builder_ok g n_terminals inlines key_map b →
  (∀ k, k ∈ ks → item_ok (Item.item k) ∧ ∃ X, Lookahead.stands (pool b) (Item.lookaheads k) X) →
  (∀ l, l ∈ transitive_closure_additions b → length l ≤ max) →
  (N.of_nat (pool_len (pool b) + length ks * (2 * max + 1)) < U32)%N →
  ∃ b' R, for_each (closing_step (E:=E)) (b, Item.mkItemSet []) ks = Ok (b', R) ∧ builder_ok g n_terminals inlines key_map b' ∧
    Lookahead.grows (pool b) (pool b') ∧ closing_ok (pool b) (pool_len (pool b) + length ks * (2 * max + 1)) (pool b', R) ∧
    (∀ q, present (pool b', R) q ↔ ∃ k, k ∈ ks ∧ contributes_item k q) ∧
    ∀ q t, token_of (pool b', R) q t ↔ ∃ k, k ∈ ks ∧ contributes_token (pool b) k q t.
Proof.
  intros Hb Hks Hmax Hroom.
  destruct (for_each_inv (closing_step (E:=E)) (λ d st, transitive_closure_additions st.1 = transitive_closure_additions b ∧
    builder_ok g n_terminals inlines key_map st.1 ∧ Lookahead.grows (pool b) (pool st.1) ∧
    closing_ok (pool b) (pool_len (pool b) + length d * (2 * max + 1)) (pool st.1, st.2) ∧
    (∀ q, present (pool st.1, st.2) q ↔ ∃ k, k ∈ d ∧ contributes_item k q) ∧
    ∀ q t, token_of (pool st.1, st.2) q t ↔ ∃ k, k ∈ d ∧ contributes_token (pool b) k q t) ks (b, Item.mkItemSet [])) as ([b' R] & Hfor & Hinv).
  - cbn [fst snd]. split_and!; [done|done|done| | |].
    + split; cbn; [apply Hb|done|lia| |by intros e ?%not_elem_of_nil]. split; cbn; constructor.
    + intros q. split; [intros (e & ?%not_elem_of_nil & _); done|intros (k & ?%not_elem_of_nil & _); done].
    + intros q t. split; [intros (e & ?%not_elem_of_nil & _); done|intros (k & ?%not_elem_of_nil & _); done].
  - intros d k rest [b1 R] Heq (H1 & H2 & H3 & H4 & H5 & H6). cbn [fst snd] in *. rewrite Heq, length_app in Hroom. cbn in Hroom.
    destruct (Hks k) as [Hk [X HX]]; [rewrite Heq; set_solver|]. pose proof (Lookahead.stands_grows _ _ _ _ H3 HX) as HX1.
    destruct (add_item_spec (E:=E) b1 R (pool b) _ k max H2 H4 Hk) as (p' & R' & Hadd & A1 & A2 & A3 & A4); [by exists X|by rewrite H1|nia|].
    eexists. split; [exact Hadd|]. cbn [fst snd pool transitive_closure_additions]. rewrite length_app. cbn [length].
    split_and!; [done|eapply builder_ok_pool; [done|apply A1|done]|by etrans|eapply closing_ok_le; [|exact A1]; lia| |].
    + intros q. rewrite A3, H5. setoid_rewrite elem_of_app. setoid_rewrite list_elem_of_singleton. fold (contributes_item k q). naive_solver.
    + intros q t. rewrite A4, H6. fold (contributes_token (pool b1) k q t). rewrite (contributes_grows (pool b)) by eauto.
      setoid_rewrite elem_of_app. setoid_rewrite list_elem_of_singleton. naive_solver.
  - exists b', R. destruct Hinv as (_ & ? & ? & ? & ? & ?). done.
Qed.
End closure.

(** ** The closure of a set *)
Section correct.
Context {H : Type} (str_pool : StrPool H) (g : SyntaxGrammar) (n_terminals : nat).
Context {I : Type} {IS : IndexSet I} {MI : MapIter}.
Context (inlines : InlinedProductionMap) (key_map : Item.ItemKeyMap) (items_bound : nat).
Context (Hin : inputs_ok str_pool g n_terminals inlines key_map items_bound).
Notation item_ok := (Item.item_ok g key_map).
Notation same_item := (Item.same_item str_pool g).

(** What the closure of [s] is, with the pool of builder [b]. *)
Definition in_closure (s : Item.ParseItemSet) : Item.ParseItem → Prop :=
  closure_item g inlines key_map (λ k, k ∈ kernel inlines key_map s).
Definition closure_lookahead (b : ParseItemSetBuilder I) (s : Item.ParseItemSet) : Item.ParseItem → Symbol → Prop :=
  closure_token g inlines key_map (λ k, k ∈ kernel inlines key_map s) (tokens_of (pool b)).
(** Sets of items of the grammar, with lookaheads of the pool. *)
Definition entries_ok (b : ParseItemSetBuilder I) (s : Item.ParseItemSet) : Prop :=
  ∀ e, e ∈ Item.entries s → item_ok (Item.item e) ∧ ∃ X, Lookahead.stands (pool b) (Item.lookaheads e) X.
(** The handles that a closure of [s] can need are 32-bit integers. *)
Definition closure_room (b : ParseItemSetBuilder I) (s : Item.ParseItemSet) : Prop :=
  (N.of_nat (length (is_elems (Lookahead.sets (pool b))) + length (kernel inlines key_map s) *
     (2 * list_max (map length (transitive_closure_additions b)) + 1)) < U32)%N.
#[export] Instance closure_room_dec b s : Decision (closure_room b s).
Proof. unfold closure_room. exact _. Defined.

Lemma contributes_in_closure s q :
  (∃ k, k ∈ kernel inlines key_map s ∧ contributes_item g inlines key_map k q) ↔ ∃ i, in_closure s i ∧ q = Item.item_rank i.
Proof.
  split.
  - intros (k & Hk & [->|(v & x & id & Hv & [Hr Hinl Hid] & ->)]).
    + exists (Item.item k). split; [by constructor|done].
    + exists (item_at key_map x id). split; [|done]. constructor; [|done|done]. apply expanded_leads. eauto.
  - intros (i & [k Hk|x id Hx Hinl Hid] & ->); [exists k; split; [done|by left]|].
    apply expanded_leads in Hx as (k & v & Hk & Hv & Hr). exists k. split; [done|]. right. exists v, x, id. done.
Qed.
Lemma contributes_lookahead b s q t :
  (∃ k, k ∈ kernel inlines key_map s ∧ contributes_token g inlines key_map (pool b) k q t) ↔
  ∃ j, closure_lookahead b s j t ∧ q = Item.item_rank j.
Proof.
  split.
  - intros (k & Hk & [[-> Ht]|(v & x & id & Hv & [Hr Hinl Hid] & -> & Hf)]).
    { exists (Item.item k). split; [by constructor|done]. }
    exists (item_at key_map x id). split; [|done]. unfold addition_fact in Hf.
    destruct (pr_requires_eof_lookahead (prod_at g id)) eqn:Heof.
    + assert (t = end_) as -> by naive_solver. apply closure_token_eof; [|done..]. apply expanded_leads. eauto.
    + apply closure_token_followed; [|done..]. apply followed_follows. eauto.
  - intros (j & [k ? Hk Ht|x id Hx Hinl Hid Heof|x id ? Hx Hinl Hid Heof] & ->); [exists k; split; [done|by left]|..].
    + apply expanded_leads in Hx as (k & v & Hk & Hv & Hr). exists k. split; [done|]. right. exists v, x, id.
      split_and!; [done|done|done|]. unfold addition_fact. rewrite Heof. by left.
    + apply followed_follows in Hx as (k & v & Hk & Hv & Hf). exists k. split; [done|]. right. exists v, x, id.
      assert (rtc (border_edge g head) v x) as Hr by (destruct Hf as [Hf|[Hf _]]; by eapply follows_leads).
      split_and!; [done|done|done|]. unfold addition_fact. by rewrite Heof.
Qed.
Lemma in_closure_ok b s i : entries_ok b s → in_closure s i → item_ok i.
Proof.
  intros Hs [k Hk|x id Hx Hinl Hid].
  - destruct (kernel_ok str_pool g n_terminals inlines key_map items_bound Hin s k) as [? _]; [intros e He; by apply Hs|done|done].
  - apply (addition_item_ok str_pool g n_terminals inlines key_map items_bound Hin x). split; [apply rtc_refl|done|done].
Qed.
Lemma closure_lookahead_item b s i t : closure_lookahead b s i t → in_closure s i.
Proof.
  destruct 1 as [k t Hk Ht|x id Hx Hinl Hid _|x id t Hx Hinl Hid _]; constructor; try done.
  apply followed_follows in Hx as (k & v & Hk & Hv & Hf). apply expanded_leads. exists k, v.
  split_and!; [done|done|]. destruct Hf as [Hf|[Hf _]]; by eapply follows_leads.
Qed.
Lemma additions_max (b : ParseItemSetBuilder I) l : l ∈ transitive_closure_additions b → length l ≤ list_max (map length (transitive_closure_additions b)).
Proof.
  intros Hl. assert (Forall (λ n, n ≤ list_max (map length (transitive_closure_additions b))) (map length (transitive_closure_additions b)))
    as Hf by by apply list_max_le. rewrite Forall_forall in Hf. apply Hf, elem_of_map. by exists l.
Qed.

End correct.

(** ** Witness: the grammar of [FirstSets], where token 2 is the word token. *)
Definition closure_example_keys : Item.ItemKeyMap :=
  match Item.new_key_map (E:=Empty_set) item_example_pool expr_grammar with Ok m => m | _ => Item.mkKeyMap [] [] end.
Definition closure_example_builder (fuel : nat) : outcome Empty_set (ParseItemSetBuilder (list TokenSet)) :=
  builder_new expr_grammar 4 ∅ closure_example_keys 4 fuel.
(** The item set at the start, with lookaheads [id]. *)
Definition closure_example_set (id : LookaheadSetId) : Item.ParseItemSet :=
  Item.mkItemSet [Item.mkEntry (Item.item_start closure_example_keys) id 0].
(** The closure, each entry with its production, dot and lookahead tokens. *)
Definition closure_example (fuel : nat) : outcome Empty_set (list (N * N * list Symbol)) :=
  b ← closure_example_builder fuel;
  '(id, p) ← Lookahead.singleton (pool b) end_;
  '(b, r) ← transitive_closure expr_grammar ∅ closure_example_keys
    (mkBuilder (symbol_sets b) (first_set_ids b) p (transitive_closure_additions b)) (closure_example_set id);
  mapM (λ e, s ← Lookahead.get (pool b) (Item.lookaheads e);
    Ok (Item.prod_id (Item.item e), Item.step_index (Item.item e),
        match TokenSet.iter s with Ok l => l | _ => [] end)) (Item.entries r).
Example closure_example_runs : closure_example 20 =
  Ok [(0, 0, [end_]); (1, 0, [terminal 1; terminal 3]); (2, 0, [terminal 1; terminal 3]); (U32 - 1, 0, [end_])]%N.
Proof. vm_compute. done. Qed.
Lemma closure_example_readable x : Item.step_readable item_example_pool (pack x PNone None None None 0).
Proof. split; [exists PNone|exists None|exists None]; by destruct x as [[] ?]. Qed.
Lemma closure_example_ok : Item.grammar_ok item_example_pool expr_grammar.
Proof.
  split; [|reflexivity].
  intros [|[|[|id]]] Hid; [eexists; split; [reflexivity|]..|cbn in Hid; lia];
    repeat (apply Forall_cons; split; [apply closure_example_readable|]); constructor.
Qed.
Lemma closure_example_inputs : inputs_ok item_example_pool expr_grammar 4 ∅ closure_example_keys 2.
Proof.
  pose proof expr_symbols as Hsy.
  split; [done|exact closure_example_ok| | | |cbn; lia| | | |done].
  - destruct (Item.new_key_map_spec item_example_pool expr_grammar closure_example_ok (E:=Empty_set)) as (m & Hm & Hspec).
    unfold closure_example_keys. by rewrite Hm.
  - done.
  - intros w [= <-]. split; [vm_compute; lia|by left].
  - intros v id x s Hid _ Hs. apply (var_ids_known _ _ Hsy), expr_prods in Hid.
    destruct Hid as [->|[->| ->]]; vm_compute in Hs; simplify_eq; eexists; left; (split; [by left|reflexivity]).
  - intros id s [->|[->| ->]]%expr_prods Hs; repeat (apply elem_of_cons in Hs as [->|Hs]; [done|]); by apply not_elem_of_nil in Hs.
  - intros v. unfold items_of, var_ids. destruct (N.to_nat v) as [|[|k]]; vm_compute; lia.
Qed.
Lemma closure_example_entries (b : ParseItemSetBuilder (list TokenSet)) :
  Lookahead.pool_wf (pool b) → entries_ok expr_grammar closure_example_keys b (closure_example_set Lookahead.EMPTY).
Proof.
  intros Hp e. unfold closure_example_set. cbn [Item.entries]. rewrite list_elem_of_singleton. intros ->. cbn [Item.item Item.lookaheads]. split.
  - split; [split; vm_compute; lia|intros E; vm_compute; done].
  - exists ∅. by apply Lookahead.pw_empty.
Qed.
