(* ===== verification/Tables.v ===== *)
(** * [crates/generate/src/tables.rs]: parse tables and the action list pool

    The entry maps of a parse state are [IndexMap]s, whose documented behaviour
    (iteration in insertion order, [insert] on a present key replaces its value
    in place) is that of an association list without duplicate keys.  Hash maps
    whose order is not used are [gmap]s. *)
From S2P Require Import Prelude Symbols StrPool TokenSet CharSet.

Notation ParseStateId := N (only parsing).
Notation LexStateId := N (only parsing).

Inductive ParseAction :=
  | PAccept
  | Shift (state : ParseStateId) (is_repetition : bool)
  | ShiftExtra
  | Recover
  | Reduce (symbol : Symbol) (child_count : N) (dynamic_precedence : Z) (production_id : N).
#[global] Instance ParseAction_eq_dec : EqDecision ParseAction.
Proof. solve_decision. Defined.
#[global] Instance ParseAction_countable : Countable ParseAction.
Proof.
  apply (inj_countable'
    (λ a, match a with
          | PAccept => inl (inl 0%N)
          | ShiftExtra => inl (inl 1%N)
          | Recover => inl (inl 2%N)
          | Shift s r => inl (inr (s, r))
          | Reduce s c d p => inr (s, c, d, p)
          end)
    (λ x, match x with
          | inl (inl 0%N) => PAccept
          | inl (inl 1%N) => ShiftExtra
          | inl (inl _) => Recover
          | inl (inr (s, r)) => Shift s r
          | inr (s, c, d, p) => Reduce s c d p
          end)).
  by intros [].
Defined.

Inductive GotoAction := Goto (s : ParseStateId) | GShiftExtra.
#[global] Instance GotoAction_eq_dec : EqDecision GotoAction.
Proof. solve_decision. Defined.

(** ** Action lists *)
Inductive ActionList := Empty | One (a : ParseAction) | Many (l : list ParseAction).

(** [Deref]. *)
Definition actions_of (l : ActionList) : list ParseAction :=
  match l with Empty => [] | One a => [a] | Many l => l end.
Definition al_push (l : ActionList) (action : ParseAction) : ActionList :=
  match l with
  | Empty => One action
  | One first => Many [first; action]
  | Many actions => Many (actions ++ [action])
  end.
Definition al_pop (l : ActionList) : option ParseAction * ActionList :=
  match l with
  | Empty => (None, Empty)
  | One action => (Some action, Empty)
  | Many actions => (last actions, Many (removelast actions))
  end.
Definition al_clear (_ : ActionList) : ActionList := Empty.
Definition keep_last (l : ActionList) : ActionList :=
  match l with
  | Many actions => match last actions with Some a => One a | None => l end
  | _ => l
  end.
Definition from_slice (actions : list ParseAction) : ActionList :=
  match actions with [] => Empty | [a] => One a | _ => Many actions end.
Definition al_eq (a b : ActionList) : bool := bool_decide (actions_of a = actions_of b).

(** ** Action list ids: the high bit of the [u32] is [reusable]. *)
Definition REUSABLE_BIT : N := 2147483648.
Definition not_u32 (m : N) : N := N.lxor m 4294967295.
Definition id_new (index : N) (reusable : bool) : N :=
  N.lor index (if reusable then REUSABLE_BIT else 0%N).
Definition id_index (id : N) : nat := N.to_nat (N.land id (not_u32 REUSABLE_BIT)).
Definition id_reusable (id : N) : bool := negb (N.land id REUSABLE_BIT =? 0)%N.
Definition set_reusable (id : N) (reusable : bool) : N :=
  N.lor (N.land id (not_u32 REUSABLE_BIT)) (if reusable then REUSABLE_BIT else 0%N).

(** ** The pool *)
Record ActionListRange := mkActionRange { ar_offset : N; ar_len : N }.
Record ActionListPool := mkActionPool {
  actions : list ParseAction;
  ranges : list ActionListRange;
  remap_scratch : list bool;
}.
Definition empty_pool : ActionListPool := mkActionPool [] [] [].

Definition pool_push (p : ActionListPool) (l : list ParseAction) : N * ActionListPool :=
  (as_u32 (length (ranges p)),
   mkActionPool (actions p ++ l)
     (ranges p ++ [mkActionRange (as_u32 (length (actions p))) (as_u32 (length l))]) (remap_scratch p)).

(** [&self.actions[range.offset .. range.offset + range.len]]. *)
Definition action_slice {E : Type} (acts : list ParseAction) (r : ActionListRange) : outcome E (list ParseAction) :=
  let a := N.to_nat (ar_offset r) in
  let b := N.to_nat (wrap_u32 (ar_offset r + ar_len r)) in
  if (a <=? b) && (b <=? length acts) then Ok (take (b - a) (drop a acts)) else Panic.
Definition pool_get {E : Type} (p : ActionListPool) (id : N) : outcome E (list ParseAction) :=
  r ← vec_get (ranges p) (id_index id); action_slice (actions p) r.
Definition pool_len (p : ActionListPool) : nat := length (ranges p).

(** The map's keys are compared and hashed through their slices. *)
Notation dedup_map := (gmap (list ParseAction) N) (only parsing).
Definition intern (p : ActionListPool) (dedup : dedup_map) (l : ActionList) :
    N * ActionListPool * dedup_map :=
  match dedup !! actions_of l with
  | Some index => (index, p, dedup)
  | None =>
      let '(index, p) := pool_push p (actions_of l) in
      (index, p, <[actions_of l := index]> dedup)
  end.

(** ** Parse states and tables *)
Record ParseTableEntry := mkEntry { entry_actions : ActionList; reusable : bool }.
Definition new_entry : ParseTableEntry := mkEntry Empty true.

Record ParseState (T : Type) := mkParseState {
  ps_id : ParseStateId;
  terminal_entries : list (Symbol * T);
  nonterminal_entries : list (Symbol * GotoAction);
  reserved_words : TokenSet;
  lex_state_id : LexStateId;
  external_lex_state_id : LexStateId;
  core_id : N;
  has_eof_gated_reduce : bool;
}.
Arguments mkParseState {T}.
Arguments ps_id {T}.
Arguments terminal_entries {T}.
Arguments nonterminal_entries {T}.
Arguments reserved_words {T}.
Arguments lex_state_id {T}.
Arguments external_lex_state_id {T}.
Arguments core_id {T}.
Arguments has_eof_gated_reduce {T}.

Record FieldLocation := mkFieldLocation { fl_index : N; inherited : bool }.
Record ProductionInfo := mkProductionInfo {
  alias_sequence : list (option Alias);
  field_map : gmap StrId (list FieldLocation);
}.

Record ParseTable (T : Type) := mkParseTable {
  pt_states : list (ParseState T);
  action_lists : ActionListPool;
  pt_symbols : list Symbol;
  production_infos : list ProductionInfo;
  max_aliased_production_length : nat;
  external_lex_states : list TokenSet;
}.
Arguments mkParseTable {T}.
Arguments pt_states {T}.
Arguments action_lists {T}.
Arguments pt_symbols {T}.
Arguments production_infos {T}.
Arguments max_aliased_production_length {T}.
Arguments external_lex_states {T}.

Definition with_terminals {T U} (s : ParseState T) (e : list (Symbol * U)) : ParseState U :=
  mkParseState (ps_id s) e (nonterminal_entries s) (reserved_words s) (lex_state_id s)
    (external_lex_state_id s) (core_id s) (has_eof_gated_reduce s).
Definition with_nonterminals {T} (s : ParseState T) (e : list (Symbol * GotoAction)) : ParseState T :=
  mkParseState (ps_id s) (terminal_entries s) e (reserved_words s) (lex_state_id s)
    (external_lex_state_id s) (core_id s) (has_eof_gated_reduce s).

(** Lookup and insertion of an [IndexMap]. *)
Fixpoint im_get {V} (k : Symbol) (m : list (Symbol * V)) : option V :=
  match m with
  | [] => None
  | (k', v) :: m => if decide (k = k') then Some v else im_get k m
  end.
Fixpoint im_insert {V} (k : Symbol) (v : V) (m : list (Symbol * V)) : list (Symbol * V) :=
  match m with
  | [] => [(k, v)]
  | (k', v') :: m => if decide (k = k') then (k, v) :: m else (k', v') :: im_insert k v m
  end.

Definition is_end_of_non_terminal_extra {T} (s : ParseState T) : bool :=
  match im_get end_of_nonterminal_extra (terminal_entries s) with Some _ => true | None => false end.

(** ** Interning a table *)
Fixpoint intern_entries (p : ActionListPool) (ids : dedup_map) (es : list (Symbol * ParseTableEntry)) :
    list (Symbol * N) * ActionListPool * dedup_map :=
  match es with
  | [] => ([], p, ids)
  | (symbol, entry) :: es =>
      let '(index, p, ids) := intern p ids (entry_actions entry) in
      let '(rest, p, ids) := intern_entries p ids es in
      ((symbol, id_new index (reusable entry)) :: rest, p, ids)
  end.
Fixpoint intern_states (p : ActionListPool) (ids : dedup_map) (ss : list (ParseState ParseTableEntry)) :
    list (ParseState N) * ActionListPool * dedup_map :=
  match ss with
  | [] => ([], p, ids)
  | s :: ss =>
      let '(es, p, ids) := intern_entries p ids (terminal_entries s) in
      let '(rest, p, ids) := intern_states p ids ss in
      (with_terminals s es :: rest, p, ids)
  end.
Definition intern_table (t : ParseTable ParseTableEntry) : ParseTable N :=
  let '(states, pool, _) := intern_states empty_pool ∅ (pt_states t) in
  mkParseTable states pool (pt_symbols t) (production_infos t) (max_aliased_production_length t)
    (external_lex_states t).

(** ** Canonicalizing the pool *)
Definition U32_MAX : N := 4294967295.
Definition canon_id {E : Type} (old : ActionListPool) (p : ActionListPool) (ids : dedup_map)
    (old_to_new : list N) (id : N) : outcome E (N * ActionListPool * dedup_map * list N) :=
  let old_index := id_index id in
  new_index ← vec_get old_to_new old_index;
  if (new_index =? U32_MAX)%N then
    range ← vec_get (ranges old) old_index;
    l ← action_slice (actions old) range;
    let '(new_index, p, ids) := intern p ids (from_slice l) in
    old_to_new ← vec_set old_to_new old_index new_index;
    Ok (id_new new_index (id_reusable id), p, ids, old_to_new)
  else Ok (id_new new_index (id_reusable id), p, ids, old_to_new).
Fixpoint canon_entries {E : Type} (old : ActionListPool) (p : ActionListPool) (ids : dedup_map)
    (old_to_new : list N) (es : list (Symbol * N)) :
    outcome E (list (Symbol * N) * ActionListPool * dedup_map * list N) :=
  match es with
  | [] => Ok ([], p, ids, old_to_new)
  | (symbol, id) :: es =>
      '(id, p, ids, old_to_new) ← canon_id old p ids old_to_new id;
      '(rest, p, ids, old_to_new) ← canon_entries old p ids old_to_new es;
      Ok ((symbol, id) :: rest, p, ids, old_to_new)
  end.
Fixpoint canon_states {E : Type} (old : ActionListPool) (p : ActionListPool) (ids : dedup_map)
    (old_to_new : list N) (ss : list (ParseState N)) : outcome E (list (ParseState N) * ActionListPool) :=
  match ss with
  | [] => Ok ([], p)
  | s :: ss =>
      '(es, p, ids, old_to_new) ← canon_entries old p ids old_to_new (terminal_entries s);
      '(rest, p) ← canon_states old p ids old_to_new ss;
      Ok (with_terminals s es :: rest, p)
  end.
Definition canonicalize {E : Type} (old : ActionListPool) (states : list (ParseState N)) :
    outcome E (list (ParseState N) * ActionListPool) :=
  let '(_, p, ids) := intern (mkActionPool [] [] (remap_scratch old)) ∅ Empty in
  canon_states old p ids (replicate (length (ranges old)) U32_MAX) states.

(** ** References between states *)
Definition shift_target (a : ParseAction) : option ParseStateId :=
  match a with Shift s _ => Some s | _ => None end.
Definition goto_target (e : Symbol * GotoAction) : option ParseStateId :=
  match e.2 with Goto s => Some s | GShiftExtra => None end.
Fixpoint shift_targets {E : Type} (p : ActionListPool) (es : list (Symbol * N)) : outcome E (list ParseStateId) :=
  match es with
  | [] => Ok []
  | (_, id) :: es => l ← pool_get p id; rest ← shift_targets p es; Ok (omap shift_target l ++ rest)
  end.
Definition referenced_states {E : Type} (s : ParseState N) (p : ActionListPool) : outcome E (list ParseStateId) :=
  ts ← shift_targets p (terminal_entries s); Ok (ts ++ omap goto_target (nonterminal_entries s)).

Fixpoint goto_updates {E : Type} (f : ParseStateId → outcome E ParseStateId) (es : list (Symbol * GotoAction)) :
    outcome E (list (Symbol * ParseStateId)) :=
  match es with
  | [] => Ok []
  | (symbol, Goto other) :: es =>
      result ← f other;
      rest ← goto_updates f es;
      Ok (if (result =? other)%N then rest else (symbol, result) :: rest)
  | (_, GShiftExtra) :: es => goto_updates f es
  end.
(** The closure also gets the state; it is passed partially applied. *)
Definition update_nonterminal_references {E T : Type} (s : ParseState T)
    (f : ParseStateId → ParseState T → outcome E ParseStateId) : outcome E (ParseState T) :=
  updates ← goto_updates (λ x, f x s) (nonterminal_entries s);
  Ok (with_nonterminals s
        (foldl (λ m '(symbol, new_state), im_insert symbol (Goto new_state) m) (nonterminal_entries s) updates)).

(** [remap_terminal_references]: only the ranges some state refers to. *)
Fixpoint mark_ids {E : Type} (scratch : list bool) (es : list (Symbol * N)) : outcome E (list bool) :=
  match es with
  | [] => Ok scratch
  | (_, id) :: es => scratch ← vec_set scratch (id_index id) true; mark_ids scratch es
  end.
Fixpoint mark_states {E : Type} (scratch : list bool) (ss : list (ParseState N)) : outcome E (list bool) :=
  match ss with
  | [] => Ok scratch
  | s :: ss => scratch ← mark_ids scratch (terminal_entries s); mark_states scratch ss
  end.
Fixpoint remap_slice {E : Type} (f : ParseStateId → outcome E ParseStateId) (l : list ParseAction) :
    outcome E (list ParseAction) :=
  match l with
  | [] => Ok []
  | a :: l =>
      a ← (match a with Shift s r => s ← f s; Ok (Shift s r) | _ => Ok a end);
      rest ← remap_slice f l;
      Ok (a :: rest)
  end.
Fixpoint remap_ranges {E : Type} (f : ParseStateId → outcome E ParseStateId) (scratch : list bool)
    (index : nat) (rs : list ActionListRange) (acts : list ParseAction) : outcome E (list ParseAction) :=
  match rs with
  | [] => Ok acts
  | r :: rs =>
      b ← vec_get scratch index;
      if b : bool then
        l ← action_slice acts r;
        l ← remap_slice f l;
        remap_ranges f scratch (S index) rs
          (take (N.to_nat (ar_offset r)) acts ++ l ++ drop (N.to_nat (ar_offset r) + length l) acts)
      else remap_ranges f scratch (S index) rs acts
  end.
Definition remap_terminal_references {E : Type} (t : ParseTable N) (f : ParseStateId → outcome E ParseStateId) :
    outcome E (ParseTable N) :=
  let p := action_lists t in
  scratch ← mark_states (replicate (pool_len p) false) (pt_states t);
  acts ← remap_ranges f scratch 0 (ranges p) (actions p);
  Ok (mkParseTable (pt_states t) (mkActionPool acts (ranges p) scratch) (pt_symbols t)
        (production_infos t) (max_aliased_production_length t) (external_lex_states t)).

(** ** Lex tables *)
Record AdvanceAction := mkAdvance { aa_state : LexStateId; in_main_token : bool }.
#[global] Instance AdvanceAction_eq_dec : EqDecision AdvanceAction.
Proof. solve_decision. Defined.
Record LexState := mkLexState {
  accept_action : option Symbol;
  eof_action : option AdvanceAction;
  advance_actions : list (CharacterSet * AdvanceAction);
}.
Definition default_lex_state : LexState := mkLexState None None [].
Notation LexTable := (list LexState) (only parsing).

(** ** Index maps *)
Lemma im_insert_mid {V} k (v v0 : V) pre post : k ∉ pre.*1 → im_insert k v (pre ++ (k, v0) :: post) = pre ++ (k, v) :: post.
Proof.
  induction pre as [|[k' v'] pre IH]; cbn; intros Hk; [by rewrite decide_True|].
  apply not_elem_of_cons in Hk as [Hne Hk]. by rewrite decide_False, IH.
Qed.
Lemma im_get_Some {V} k (v : V) m : im_get k m = Some v → (k, v) ∈ m.
Proof.
  induction m as [|[k' v'] m IH]; cbn; [done|]. case_decide as Hk; [intros [= ->]; subst; apply list_elem_of_here|].
  intros Hm. by apply list_elem_of_further, IH.
Qed.
Lemma im_get_elem {V} k (v : V) m : NoDup m.*1 → (k, v) ∈ m → im_get k m = Some v.
Proof.
  induction m as [|[k' v'] m IH]; cbn; [by intros _ ?%not_elem_of_nil|]. intros [Hk Hnd]%NoDup_cons [[= -> ->]|Hin]%elem_of_cons.
  - by rewrite decide_True.
  - rewrite decide_False; [by apply IH|]. intros ->. apply Hk, list_elem_of_fmap. by exists (k', v).
Qed.
Lemma im_get_None {V} k (m : list (Symbol * V)) : im_get k m = None ↔ k ∉ m.*1.
Proof.
  induction m as [|[k' v'] m IH]; cbn; [split; [set_solver|done]|]. case_decide as Hk.
  - split; [done|]. intros Hn. exfalso. apply Hn. subst. apply list_elem_of_here.
  - rewrite IH, not_elem_of_cons. tauto.
Qed.
Lemma im_get_map {V W} (h : V → W) k (m : list (Symbol * V)) : im_get k (map (λ e, (e.1, h e.2)) m) = h <$> im_get k m.
Proof. induction m as [|[k' v'] m IH]; cbn; [done|]. by case_decide. Qed.
Lemma im_insert_elem {V} k (v : V) m e : e ∈ im_insert k v m → e = (k, v) ∨ e ∈ m.
Proof.
  induction m as [|[k' v'] m IH]; cbn; [by intros ->%list_elem_of_singleton; left|]. case_decide as Hk.
  - intros [->|He]%elem_of_cons; [by left|]. right. by apply list_elem_of_further.
  - intros [->|He]%elem_of_cons; [right; apply list_elem_of_here|]. destruct (IH He) as [?|?]; [by left|]. right. by apply list_elem_of_further.
Qed.
Lemma im_insert_keys {V} k (v : V) m x : x ∈ (im_insert k v m).*1 ↔ x = k ∨ x ∈ m.*1.
Proof. induction m as [|[k' v'] m IH]; cbn; [set_solver|]. case_decide as Hk; cbn; rewrite !elem_of_cons; [subst; tauto|]. rewrite IH. tauto. Qed.
Lemma im_insert_nodup {V} k (v : V) m : NoDup m.*1 → NoDup (im_insert k v m).*1.
Proof.
  induction m as [|[k' v'] m IH]; cbn; [intros _; apply NoDup_singleton|]. intros [Hk Hnd]%NoDup_cons. case_decide as Hkk.
  - subst. by constructor.
  - cbn. constructor; [|by apply IH]. rewrite im_insert_keys. intros [?|?]; [by subst|done].
Qed.

Lemma im_get_insert_eq {V} k (v : V) m : im_get k (im_insert k v m) = Some v.
Proof. induction m as [|[k' v'] m IH]; cbn; [by rewrite decide_True|]. case_decide as Hk; cbn; [by rewrite decide_True|by rewrite decide_False]. Qed.
Lemma im_get_insert_ne {V} k k' (v : V) m : k ≠ k' → im_get k (im_insert k' v m) = im_get k m.
Proof.
  intros Hne. induction m as [|[a w] m IH]; cbn; [by rewrite decide_False|]. destruct (decide (k' = a)) as [->|]; cbn; [by rewrite !decide_False|].
  by rewrite IH.
Qed.

(** ** Ids *)
Lemma land_mask i : (i < REUSABLE_BIT)%N → N.land i (not_u32 REUSABLE_BIT) = i.
Proof.
  intros Hi. change (not_u32 REUSABLE_BIT) with (N.ones 31). rewrite N.land_ones. by apply N.mod_small.
Qed.
Lemma land_bit i : (i < REUSABLE_BIT)%N → N.land i REUSABLE_BIT = 0%N.
Proof.
  intros Hi. rewrite <- (land_mask i Hi), <- N.land_assoc.
  change (N.land (not_u32 REUSABLE_BIT) REUSABLE_BIT) with 0%N. apply N.land_0_r.
Qed.
Lemma id_index_new i b : (i < REUSABLE_BIT)%N → id_index (id_new i b) = N.to_nat i.
Proof.
  intros Hi. unfold id_index, id_new. rewrite N.land_lor_distr_l, land_mask by done.
  destruct b; [change (N.land REUSABLE_BIT (not_u32 REUSABLE_BIT)) with 0%N|]; by rewrite N.lor_0_r.
Qed.
Lemma id_reusable_new i b : (i < REUSABLE_BIT)%N → id_reusable (id_new i b) = b.
Proof.
  intros Hi. unfold id_reusable, id_new. rewrite N.land_lor_distr_l, land_bit by done. by destruct b.
Qed.
Lemma set_reusable_spec id b : id_index (set_reusable id b) = id_index id ∧ id_reusable (set_reusable id b) = b.
Proof.
  unfold set_reusable. assert (N.land id (not_u32 REUSABLE_BIT) < REUSABLE_BIT)%N as Hlt.
  { change (not_u32 REUSABLE_BIT) with (N.ones 31). rewrite N.land_ones. by apply N.mod_lt. }
  fold (id_new (N.land id (not_u32 REUSABLE_BIT)) b). rewrite id_index_new, id_reusable_new by done. done.
Qed.

(** ** What a pool stores *)
Fixpoint ranges_from (o : nat) (lists : list (list ParseAction)) : list ActionListRange :=
  match lists with
  | [] => []
  | l :: lists => mkActionRange (as_u32 o) (as_u32 (length l)) :: ranges_from (o + length l) lists
  end.
(** The pool holds [lists], and its offsets and ids do not overflow. *)
Definition pool_ok (p : ActionListPool) (lists : list (list ParseAction)) : Prop :=
  actions p = concat lists ∧ ranges p = ranges_from 0 lists ∧
  (N.of_nat (length (concat lists)) < U32)%N ∧ (N.of_nat (length lists) < REUSABLE_BIT)%N.

Lemma ranges_from_lookup o lists i l :
  lists !! i = Some l →
  ranges_from o lists !! i = Some (mkActionRange (as_u32 (o + length (concat (take i lists)))) (as_u32 (length l))).
Proof.
  revert o i. induction lists as [|k lists IH]; intros o [|i] Hi; cbn in *; try done.
  - injection Hi as ->. by rewrite Nat.add_0_r.
  - rewrite (IH _ i Hi). by rewrite length_app, Nat.add_assoc.
Qed.
Lemma ranges_from_app o l1 l2 : ranges_from o (l1 ++ l2) = ranges_from o l1 ++ ranges_from (o + length (concat l1)) l2.
Proof.
  revert o. induction l1 as [|k l1 IH]; intros o; cbn; [by rewrite Nat.add_0_r|].
  by rewrite IH, length_app, Nat.add_assoc.
Qed.
Lemma length_ranges_from o lists : length (ranges_from o lists) = length lists.
Proof. revert o. induction lists as [|l lists IH]; intros o; cbn; [done|]. by rewrite IH. Qed.

Lemma action_slice_lookup {E : Type} lists i l :
  lists !! i = Some l → (N.of_nat (length (concat lists)) < U32)%N →
  action_slice (E:=E) (concat lists)
    (mkActionRange (as_u32 (length (concat (take i lists)))) (as_u32 (length l))) = Ok l.
Proof.
  intros Hi Hfit. pose proof (take_drop_middle _ _ _ Hi) as Hdec.
  assert (concat lists = concat (take i lists) ++ l ++ concat (drop (S i) lists)) as Hc.
  { rewrite <- Hdec at 1. by rewrite concat_app. }
  assert (length (concat lists) = length (concat (take i lists)) + (length l + length (concat (drop (S i) lists)))) as Hlen
    by by rewrite Hc, !length_app.
  set (o := length (concat (take i lists))) in *. unfold action_slice. cbn [ar_offset ar_len].
  unfold as_u32. rewrite !(wrap_u32_small (N.of_nat _)) by lia. rewrite wrap_u32_small by lia.
  rewrite (proj2 (Nat.leb_le _ _)) by lia. rewrite (proj2 (Nat.leb_le _ _)) by lia. cbn. f_equal.
  replace (N.to_nat (N.of_nat o + N.of_nat (length l)) - N.to_nat (N.of_nat o)) with (length l) by lia.
  rewrite Nat2N.id, Hc. unfold o. by rewrite drop_app_length, take_app_length.
Qed.
Lemma pool_get_ok {E : Type} p lists id l :
  pool_ok p lists → lists !! id_index id = Some l → pool_get (E:=E) p id = Ok l.
Proof.
  intros (Ha & Hr & Hfit & _) Hl. unfold pool_get. rewrite Hr.
  rewrite (vec_get_Some (E:=E) _ _ _ (ranges_from_lookup 0 _ _ _ Hl)). cbn. rewrite Ha. by apply action_slice_lookup.
Qed.

Lemma pool_push_ok p lists l :
  pool_ok p lists → (N.of_nat (length (concat lists) + length l) < U32)%N →
  (N.of_nat (S (length lists)) < REUSABLE_BIT)%N →
  pool_ok (pool_push p l).2 (lists ++ [l]) ∧ N.to_nat (pool_push p l).1 = length lists.
Proof.
  intros (Ha & Hr & Hfit & Hlen) H1 H2. split.
  - unfold pool_ok. cbn. rewrite concat_app, Ha, Hr, ranges_from_app. cbn. rewrite List.app_nil_r, !length_app. cbn.
    split_and?; [done|done|lia|lia].
  - cbn. rewrite Hr, length_ranges_from. apply as_u32_small. unfold REUSABLE_BIT, U32 in *. lia.
Qed.

(** The dedup map is the inverse of the list. *)
Definition dedup_ok (ids : gmap (list ParseAction) N) (lists : list (list ParseAction)) : Prop :=
  (∀ k i, ids !! k = Some i → lists !! N.to_nat i = Some k) ∧ (∀ k, k ∈ lists → is_Some (ids !! k)) ∧ NoDup lists.

Lemma pool_intern_spec p ids lists l :
  pool_ok p lists → dedup_ok ids lists →
  (N.of_nat (length (concat lists) + length (actions_of l)) < U32)%N →
  (N.of_nat (S (length lists)) < REUSABLE_BIT)%N →
  ∃ index p' ids' ext, intern p ids l = (index, p', ids') ∧ pool_ok p' (lists ++ ext) ∧
    dedup_ok ids' (lists ++ ext) ∧ (lists ++ ext) !! N.to_nat index = Some (actions_of l) ∧
    (index < REUSABLE_BIT)%N ∧ length (concat ext) ≤ length (actions_of l) ∧ length ext ≤ 1 ∧
    remap_scratch p' = remap_scratch p.
Proof.
  intros Hp (Hd1 & Hd2 & Hnd) H1 H2. unfold intern. destruct (ids !! actions_of l) as [index|] eqn:Hl.
  - exists index, p, ids, []. rewrite List.app_nil_r. pose proof (Hd1 _ _ Hl) as Hli.
    assert (index < REUSABLE_BIT)%N by (apply lookup_lt_Some in Hli; destruct Hp as (_ & _ & _ & ?); lia).
    split_and?; try done; cbn; lia.
  - pose proof (pool_push_ok p lists (actions_of l) Hp H1 H2) as [Hp' Hi].
    destruct (pool_push p (actions_of l)) as [index p'] eqn:Hpush. cbn [fst snd] in *.
    assert (actions_of l ∉ lists) as Hnin.
    { intros Hin. apply Hd2 in Hin as [i Hin]. congruence. }
    assert ((lists ++ [actions_of l]) !! N.to_nat index = Some (actions_of l)) as Hlk.
    { rewrite Hi. by apply list_lookup_middle. }
    assert (dedup_ok (<[actions_of l := index]> ids) (lists ++ [actions_of l])) as Hd'.
    { split; [|split].
      - intros k i. rewrite lookup_insert_Some. intros [[<- <-]|[_ Hk]]; [done|].
        rewrite lookup_app_l; [by apply Hd1|]. by eapply lookup_lt_Some, Hd1.
      - intros k. rewrite elem_of_app, list_elem_of_singleton. intros [Hk| ->].
        + apply Hd2 in Hk. by apply lookup_insert_is_Some'; right.
        + rewrite lookup_insert_eq. eauto.
      - apply NoDup_app. split_and?; [done| |apply NoDup_singleton]. by intros k Hk ->%list_elem_of_singleton. }
    assert (remap_scratch p' = remap_scratch p) by (unfold pool_push in Hpush; by injection Hpush as _ <-).
    exists index, p', (<[actions_of l := index]> ids), [actions_of l].
    split; [done|]. split; [done|]. split; [done|]. split; [done|].
    split_and?; try done; cbn; rewrite ?List.app_nil_r; lia.
Qed.

Lemma pool_get_prefix {E : Type} p p' lists ext id l :
  pool_ok p lists → pool_ok p' (lists ++ ext) → lists !! id_index id = Some l → pool_get (E:=E) p' id = Ok l.
Proof. intros _ Hp' Hl. apply (pool_get_ok _ _ _ _ Hp'). by apply lookup_app_l_Some. Qed.

(** ** Interning keeps every entry *)

(** The total number of entries and of actions of a list of entries. *)
Definition entries_size (es : list (Symbol * ParseTableEntry)) : nat :=
  sum_list_with (λ e, length (actions_of (entry_actions e.2))) es.

(** The interned entry stands for the entry. *)
Definition entry_rel (lists : list (list ParseAction)) (e : Symbol * ParseTableEntry) (e' : Symbol * N) : Prop :=
  e'.1 = e.1 ∧ lists !! id_index e'.2 = Some (actions_of (entry_actions e.2)) ∧ id_reusable e'.2 = reusable e.2.

Lemma entry_rel_app lists ext e e' : entry_rel lists e e' → entry_rel (lists ++ ext) e e'.
Proof. intros (?&?&?). split_and!; [done| |done]. by apply lookup_app_l_Some. Qed.

Lemma intern_entries_spec p ids lists es :
  pool_ok p lists → dedup_ok ids lists →
  (N.of_nat (length (concat lists) + entries_size es) < U32)%N →
  (N.of_nat (length lists + length es) < REUSABLE_BIT)%N →
  ∃ es' p' ids' ext, intern_entries p ids es = (es', p', ids') ∧ pool_ok p' (lists ++ ext) ∧
    dedup_ok ids' (lists ++ ext) ∧ Forall2 (entry_rel (lists ++ ext)) es es' ∧
    length (concat ext) ≤ entries_size es ∧ length ext ≤ length es.
Proof.
  revert p ids lists. induction es as [|[sym e] es IH]; intros p ids lists Hp Hd H1 H2.
  { exists [], p, ids, []. rewrite List.app_nil_r. split_and?; try done; constructor. }
  unfold entries_size in H1. cbn in H1, H2. fold (entries_size es) in H1.
  destruct (pool_intern_spec p ids lists (entry_actions e)) as (i & p1 & ids1 & ext1 & Heq & Hp1 & Hd1 & Hl & Hi & Hs1 & Hs2 & _);
    [done|done|lia|lia|].
  destruct (IH p1 ids1 (lists ++ ext1)) as (es' & p2 & ids2 & ext2 & Heq2 & Hp2 & Hd2 & Hf & Hs3 & Hs4);
    [done|done|rewrite concat_app, length_app; lia|rewrite length_app; lia|].
  exists ((sym, id_new i (reusable e)) :: es'), p2, ids2, (ext1 ++ ext2). cbn. rewrite Heq, Heq2, (assoc_L (++)).
  split_and?; try done.
  - constructor; [|done]. split_and!; cbn; [done| |by apply id_reusable_new].
    rewrite id_index_new by done. by apply lookup_app_l_Some.
  - rewrite concat_app, length_app. unfold entries_size in *. cbn. lia.
  - rewrite length_app. lia.
Qed.

Definition states_size (ss : list (ParseState ParseTableEntry)) : nat :=
  sum_list_with (λ s, entries_size (terminal_entries s)) ss.
Definition states_entries {T} (ss : list (ParseState T)) : nat :=
  sum_list_with (λ s, length (terminal_entries s)) ss.

(** Only the entries of a state change. *)
Definition state_rel {T U} (R : Symbol * T → Symbol * U → Prop) (s : ParseState T) (s' : ParseState U) : Prop :=
  s' = with_terminals s (terminal_entries s') ∧ Forall2 R (terminal_entries s) (terminal_entries s').

Lemma intern_states_spec p ids lists ss :
  pool_ok p lists → dedup_ok ids lists →
  (N.of_nat (length (concat lists) + states_size ss) < U32)%N →
  (N.of_nat (length lists + states_entries ss) < REUSABLE_BIT)%N →
  ∃ ss' p' ids' ext, intern_states p ids ss = (ss', p', ids') ∧ pool_ok p' (lists ++ ext) ∧
    dedup_ok ids' (lists ++ ext) ∧ Forall2 (state_rel (entry_rel (lists ++ ext))) ss ss'.
Proof.
  revert p ids lists. induction ss as [|s ss IH]; intros p ids lists Hp Hd H1 H2.
  { exists [], p, ids, []. rewrite List.app_nil_r. split_and?; try done; constructor. }
  unfold states_size in H1. unfold states_entries in H2. cbn in H1, H2.
  fold (states_size ss) in H1. fold (states_entries ss) in H2.
  destruct (intern_entries_spec p ids lists (terminal_entries s)) as (es' & p1 & ids1 & ext1 & Heq & Hp1 & Hd1 & Hf & Hs1 & Hs2);
    [done|done|lia|lia|].
  destruct (IH p1 ids1 (lists ++ ext1)) as (ss' & p2 & ids2 & ext2 & Heq2 & Hp2 & Hd2 & Hf2);
    [done|done|rewrite concat_app, length_app; lia|rewrite length_app; lia|].
  exists (with_terminals s es' :: ss'), p2, ids2, (ext1 ++ ext2). cbn. rewrite Heq, Heq2, (assoc_L (++)).
  split_and?; try done. constructor; [|done]. split; [done|]. cbn.
  eapply Forall2_impl; [done|]. intros e e'. apply entry_rel_app.
Qed.

(** ** Canonicalizing keeps every entry *)

(** [old_to_new] maps the ids seen so far to ids of the same list. *)
Definition o2n_ok (old_lists lists : list (list ParseAction)) (old_to_new : list N) : Prop :=
  length old_to_new = length old_lists ∧
  ∀ i n, old_to_new !! i = Some n → n = U32_MAX ∨
    ((n < REUSABLE_BIT)%N ∧ ∃ l, old_lists !! i = Some l ∧ lists !! N.to_nat n = Some l).

(** The id stands for what the old one stood for. *)
Definition id_rel (old_lists lists : list (list ParseAction)) (e e' : Symbol * N) : Prop :=
  e'.1 = e.1 ∧ (∃ l, old_lists !! id_index e.2 = Some l ∧ lists !! id_index e'.2 = Some l) ∧
  id_reusable e'.2 = id_reusable e.2.

Lemma id_rel_app old lists ext e e' : id_rel old lists e e' → id_rel old (lists ++ ext) e e'.
Proof.
  intros (?&(l & ? & ?)&?). split_and!; [done| |done]. exists l. split; [done|]. by apply lookup_app_l_Some.
Qed.
Lemma o2n_ok_app old lists ext m : o2n_ok old lists m → o2n_ok old (lists ++ ext) m.
Proof.
  intros [? Hm]. split; [done|]. intros i n Hi. destruct (Hm i n Hi) as [?|(?&l&?&?)]; [by left|].
  right. split; [done|]. exists l. split; [done|]. by apply lookup_app_l_Some.
Qed.

Lemma NoDup_concat_le (l k : list (list ParseAction)) :
  NoDup l → (∀ x, x ∈ l → x = [] ∨ x ∈ k) → length (concat l) ≤ length (concat k) ∧ length l ≤ S (length k).
Proof.
  intros Hl Hsub. assert (length (concat l) ≤ length (concat k)).
  - clear -Hl Hsub. revert k Hsub. induction Hl as [|x l Hx Hl IH]; intros k Hsub; cbn; [lia|].
    destruct (decide (x = [])) as [->|Hne].
    + cbn. apply IH. intros y Hy. apply Hsub. by apply list_elem_of_further.
    + destruct (Hsub x (list_elem_of_here _ _)) as [|Hxk]; [done|].
      apply list_elem_of_split in Hxk as (k1 & k2 & ->). rewrite length_app, concat_app. cbn. rewrite !length_app.
      specialize (IH (k1 ++ k2)). rewrite concat_app, length_app in IH.
      enough (length (concat l) ≤ length (concat k1) + length (concat k2)) by lia. apply IH.
      intros y Hy. destruct (Hsub y) as [?|Hyk]; [by apply list_elem_of_further|by left|]. right.
      rewrite !elem_of_app, elem_of_cons in Hyk. rewrite elem_of_app. naive_solver.
  - split; [done|]. change (S (length k)) with (length ([] :: k)).
    apply submseteq_length, NoDup_submseteq; [done|]. intros y Hy. rewrite elem_of_cons. by apply Hsub.
Qed.

Section canon.
Context (old : ActionListPool) (old_lists : list (list ParseAction)).
Context (Hold : pool_ok old old_lists) (Hroom : (N.of_nat (S (S (length old_lists))) < REUSABLE_BIT)%N).

(** The state of the loop. *)
Definition canon_inv (p : ActionListPool) (ids : gmap (list ParseAction) N)
    (lists : list (list ParseAction)) (m : list N) : Prop :=
  pool_ok p lists ∧ dedup_ok ids lists ∧ o2n_ok old_lists lists m ∧ ∀ k, k ∈ lists → k = [] ∨ k ∈ old_lists.

Lemma actions_of_from_slice l : actions_of (from_slice l) = l.
Proof. by destruct l as [|a [|b l]]. Qed.

Lemma canon_intern p ids lists m l :
  canon_inv p ids lists m → l ∈ old_lists →
  ∃ index p' ids' ext, intern p ids (from_slice l) = (index, p', ids') ∧
    canon_inv p' ids' (lists ++ ext) m ∧ (lists ++ ext) !! N.to_nat index = Some l ∧ (index < REUSABLE_BIT)%N.
Proof.
  intros (Hp & Hd & Hm & Hsub) Hl.
  destruct (decide (l ∈ lists)) as [Hin|Hnin].
  - unfold intern. rewrite actions_of_from_slice. pose proof Hd as (Hd1 & Hd2 & Hnd).
    destruct (Hd2 l Hin) as [i Hi]. rewrite Hi. exists i, p, ids, []. rewrite List.app_nil_r.
    pose proof (Hd1 _ _ Hi) as Hli. split; [done|]. split; [by split_and!; try apply Hm|]. split; [done|].
    apply lookup_lt_Some in Hli. destruct Hp as (_ & _ & _ & ?). lia.
  - assert (NoDup (l :: lists)) as Hnd by (constructor; [done|apply Hd]).
    destruct (NoDup_concat_le (l :: lists) old_lists Hnd) as [H1 H2].
    { intros x [->|Hx]%elem_of_cons; [by right|by apply Hsub]. }
    destruct Hold as (_ & _ & Hfit & _). cbn in H1, H2. rewrite length_app in H1.
    destruct (pool_intern_spec p ids lists (from_slice l)) as (i & p' & ids' & ext & Heq & Hp' & Hd' & Hli & Hi & Hs1 & Hs2 & _);
      [done|done|rewrite actions_of_from_slice; lia|lia|].
    exists i, p', ids', ext. rewrite actions_of_from_slice in Hli. split; [done|]. split; [|done].
    split; [done|]. split; [done|]. split; [by apply o2n_ok_app|].
    intros k [Hk|Hk]%elem_of_app; [by apply Hsub|].
    destruct ext as [|e [|e2 ext]]; [by apply elem_of_nil in Hk| |cbn in Hs2; lia].
    apply list_elem_of_singleton in Hk as ->. right.
    destruct Hd' as (_ & _ & Hnd'). destruct (decide (e = l)) as [->|Hne]; [done|].
    exfalso. destruct (decide (N.to_nat i < length lists)).
    + rewrite lookup_app_l in Hli by done. apply Hnin. by eapply list_elem_of_lookup_2.
    + rewrite lookup_app_r in Hli by lia. apply list_lookup_singleton_Some in Hli as [_ ?]. done.
Qed.

Lemma canon_id_spec {E : Type} p ids lists m id l :
  canon_inv p ids lists m → old_lists !! id_index id = Some l →
  ∃ id' p' ids' m' ext, canon_id (E:=E) old p ids m id = Ok (id', p', ids', m') ∧
    canon_inv p' ids' (lists ++ ext) m' ∧
    (lists ++ ext) !! id_index id' = Some l ∧ id_reusable id' = id_reusable id.
Proof.
  intros Hinv Hl. pose proof Hinv as (Hp & Hd & (Hlen & Hm) & Hsub). unfold canon_id.
  destruct (lookup_lt_is_Some_2 m (id_index id)) as [n Hn]; [rewrite Hlen; by eapply lookup_lt_Some|].
  rewrite (vec_get_Some (E:=E) _ _ _ Hn). cbn. case N.eqb_spec; intros Hmax.
  - destruct Hold as (Ha & Hr & Hfit & _).
    assert (ranges old !! id_index id = Some (mkActionRange (as_u32 (length (concat (take (id_index id) old_lists)))) (as_u32 (length l)))) as Hrl
      by by rewrite Hr, (ranges_from_lookup 0 _ _ _ Hl).
    rewrite (vec_get_Some (E:=E) _ _ _ Hrl). cbn.
    rewrite Ha, (action_slice_lookup (E:=E) _ _ _ Hl Hfit). cbn.
    destruct (canon_intern p ids lists m l Hinv) as (i & p' & ids' & ext & -> & Hinv' & Hli & Hi); [by eapply list_elem_of_lookup_2|].
    cbn. rewrite (vec_set_lt (E:=E)) by (rewrite Hlen; by eapply lookup_lt_Some). cbn.
    exists (id_new i (id_reusable id)), p', ids', (<[id_index id := i]> m), ext.
    split; [done|]. rewrite id_index_new, id_reusable_new by done. split; [|done].
    destruct Hinv' as (H1 & H2 & (H3 & H4) & H5). split; [done|]. split; [done|]. split; [|done].
    split; [by rewrite length_insert|]. intros j k Hj. destruct (decide (j = id_index id)) as [->|].
    + rewrite list_lookup_insert_eq in Hj by (rewrite Hlen; by eapply lookup_lt_Some). injection Hj as <-.
      right. split; [done|]. by exists l.
    + rewrite list_lookup_insert_ne in Hj by done. by apply H4.
  - destruct (Hm _ _ Hn) as [?|(Hnb & l' & Hl' & Hnl)]; [done|]. simplify_eq.
    exists (id_new n (id_reusable id)), p, ids, m, []. rewrite List.app_nil_r, id_index_new, id_reusable_new by done.
    done.
Qed.

Lemma canon_entries_spec {E : Type} p ids lists m es :
  canon_inv p ids lists m → Forall (λ e, id_index e.2 < length old_lists) es →
  ∃ es' p' ids' m' ext, canon_entries (E:=E) old p ids m es = Ok (es', p', ids', m') ∧
    canon_inv p' ids' (lists ++ ext) m' ∧ Forall2 (id_rel old_lists (lists ++ ext)) es es'.
Proof.
  revert p ids lists m. induction es as [|[sym id] es IH]; intros p ids lists m Hinv Hes.
  { exists [], p, ids, m, []. rewrite List.app_nil_r. split; [done|]. split; [done|constructor]. }
  apply Forall_cons in Hes as [Hid Hes]. cbn in Hid. apply lookup_lt_is_Some_2 in Hid as [l Hl].
  destruct (canon_id_spec (E:=E) p ids lists m id l Hinv Hl) as (id' & p1 & ids1 & m1 & ext1 & Heq & Hinv1 & Hid1 & Hr1).
  destruct (IH p1 ids1 (lists ++ ext1) m1 Hinv1 Hes) as (es' & p2 & ids2 & m2 & ext2 & Heq2 & Hinv2 & Hf).
  exists ((sym, id') :: es'), p2, ids2, m2, (ext1 ++ ext2). cbn. rewrite Heq. cbn. rewrite Heq2. cbn.
  rewrite (assoc_L (++)). split; [done|]. split; [done|]. constructor; [|done].
  split_and!; [done| |done]. exists l. split; [done|]. by apply lookup_app_l_Some.
Qed.

Lemma canon_states_spec {E : Type} p ids lists m ss :
  canon_inv p ids lists m →
  Forall (λ s, Forall (λ e, id_index e.2 < length old_lists) (terminal_entries s)) ss →
  ∃ ss' p' ext, canon_states (E:=E) old p ids m ss = Ok (ss', p') ∧ pool_ok p' (lists ++ ext) ∧
    NoDup (lists ++ ext) ∧ Forall2 (state_rel (id_rel old_lists (lists ++ ext))) ss ss'.
Proof.
  revert p ids lists m. induction ss as [|s ss IH]; intros p ids lists m Hinv Hss.
  { exists [], p, []. rewrite List.app_nil_r. destruct Hinv as (? & (_ & _ & ?) & _).
    split; [done|]. split; [done|]. split; [done|constructor]. }
  apply Forall_cons in Hss as [Hs Hss].
  destruct (canon_entries_spec (E:=E) p ids lists m _ Hinv Hs) as (es' & p1 & ids1 & m1 & ext1 & Heq & Hinv1 & Hf1).
  destruct (IH p1 ids1 (lists ++ ext1) m1 Hinv1 Hss) as (ss' & p2 & ext2 & Heq2 & Hp2 & Hnd & Hf).
  exists (with_terminals s es' :: ss'), p2, (ext1 ++ ext2). cbn. rewrite Heq. cbn. rewrite Heq2. cbn.
  rewrite (assoc_L (++)). split; [done|]. split; [done|]. split; [done|]. constructor; [|done]. split; [done|]. cbn.
  eapply Forall2_impl; [done|]. intros e e'. apply id_rel_app.
Qed.
End canon.

(** ** Remapping shift targets *)
Definition remap_action (g : ParseStateId → ParseStateId) (a : ParseAction) : ParseAction :=
  match a with Shift s r => Shift (g s) r | _ => a end.

Lemma remap_slice_spec {E : Type} f g l :
  (∀ s r, Shift s r ∈ l → f s = Ok (g s)) → remap_slice (E:=E) f l = Ok (map (remap_action g) l).
Proof.
  induction l as [|a l IH]; intros Hf; [done|]. cbn.
  assert ((match a with Shift s r => s ← f s; Ok (Shift s r) | _ => Ok a end) = Ok (E:=E) (remap_action g a)) as ->.
  { destruct a as [|s r| | |]; try done. by rewrite (Hf s r) by apply list_elem_of_here. }
  cbn. by rewrite IH by (intros; eapply Hf; by apply list_elem_of_further).
Qed.

Definition remap_lists (g : ParseStateId → ParseStateId) (live : nat → bool) (i : nat)
    (lists : list (list ParseAction)) : list (list ParseAction) :=
  imap (λ k l, if live (i + k) then map (remap_action g) l else l) lists.
Lemma remap_lists_cons g live i l lists :
  remap_lists g live i (l :: lists) =
    (if live i then map (remap_action g) l else l) :: remap_lists g live (S i) lists.
Proof.
  unfold remap_lists. cbn. rewrite Nat.add_0_r. f_equal. apply imap_ext. intros k x _. cbn.
  by rewrite Nat.add_succ_r.
Qed.

Lemma remap_ranges_spec {E : Type} f g scratch (live : nat → bool) before rest :
  (N.of_nat (length (concat (before ++ rest))) < U32)%N →
  (∀ i, length before ≤ i < length (before ++ rest) → scratch !! i = Some (live i)) →
  (∀ i l s r, live (length before + i) = true → rest !! i = Some l → Shift s r ∈ l → f s = Ok (g s)) →
  remap_ranges (E:=E) f scratch (length before) (ranges_from (length (concat before)) rest) (concat (before ++ rest)) =
    Ok (concat (before ++ remap_lists g live (length before) rest)).
Proof.
  revert before. induction rest as [|l rest IH]; intros before Hfit Hs Hf; [done|].
  rewrite remap_lists_cons. cbn [ranges_from remap_ranges].
  rewrite (vec_get_Some (E:=E) _ _ _ (Hs (length before) ltac:(rewrite length_app; cbn; lia))).
  cbn [mbind outcome_bind].
  assert (∀ l2, length l2 = length l →
    remap_ranges (E:=E) f scratch (S (length before)) (ranges_from (length (concat before) + length l) rest)
      (concat (before ++ l2 :: rest)) =
    Ok (concat (before ++ l2 :: remap_lists g live (S (length before)) rest))) as Hgo.
  { intros l2 Hl2. rewrite (snoc_mid before l2 rest), (snoc_mid before l2 (remap_lists _ _ _ _)), <- (length_snoc before l2).
    replace (length (concat before) + length l) with (length (concat (before ++ [l2])))
      by (rewrite concat_app, length_app; cbn; rewrite List.app_nil_r; lia).
    apply IH.
    - rewrite <- snoc_mid. rewrite concat_app, length_app in Hfit |- *. cbn in Hfit |- *.
      rewrite length_app in Hfit |- *. lia.
    - intros i Hi. apply Hs. rewrite <- snoc_mid, length_snoc in Hi. rewrite length_app in Hi |- *. cbn in *. lia.
    - intros i k s r Hlive Hk Hin. rewrite length_snoc in Hlive.
      apply (Hf (S i) k s r); [by rewrite Nat.add_succ_r|done|done]. }
  destruct (live (length before)) eqn:Hlive; [|by apply Hgo].
  assert ((before ++ l :: rest) !! length before = Some l) as Hlk by by apply list_lookup_middle.
  pose proof (action_slice_lookup (E:=E) _ _ _ Hlk Hfit) as Hsl. rewrite take_app_length in Hsl. rewrite Hsl.
  cbn [mbind outcome_bind].
  rewrite (remap_slice_spec (E:=E) f g l).
  2: { intros s r Hin. apply (Hf 0 l s r); [by rewrite Nat.add_0_r|done|done]. }
  cbn [mbind outcome_bind ar_offset]. rewrite <- (Hgo (map (remap_action g) l)) by by rewrite length_map.
  f_equal. rewrite length_map. unfold as_u32. rewrite wrap_u32_small, Nat2N.id.
  - rewrite !concat_app. cbn [concat]. rewrite take_app_length. f_equal. f_equal.
    rewrite (assoc_L (++)), <- length_app. by rewrite drop_app_length.
  - rewrite concat_app, length_app in Hfit. lia.
Qed.

(** Some state refers to list [i]. *)
Definition live_in (ss : list (ParseState N)) (i : nat) : bool :=
  existsb (λ s, existsb (λ e, bool_decide (id_index e.2 = i)) (terminal_entries s)) ss.

Lemma mark_ids_spec {E : Type} scratch es :
  Forall (λ e, id_index e.2 < length scratch) es →
  ∃ scratch', mark_ids (E:=E) scratch es = Ok scratch' ∧ length scratch' = length scratch ∧
    ∀ i b, scratch !! i = Some b →
      scratch' !! i = Some (b || existsb (λ e, bool_decide (id_index e.2 = i)) es).
Proof.
  revert scratch. induction es as [|[sym id] es IH]; intros scratch Hes; cbn.
  { exists scratch. split_and?; [done|done|]. intros. by rewrite orb_false_r. }
  apply Forall_cons in Hes as [Hid Hes]. cbn in Hid. rewrite (vec_set_lt (E:=E)) by done. cbn.
  destruct (IH (<[id_index id := true]> scratch)) as (scratch' & Heq & Hlen & Hx); [by rewrite length_insert|].
  exists scratch'. rewrite length_insert in Hlen. split_and?; [done|done|]. intros i b Hb.
  case_bool_decide as Hi; cbn.
  - subst i. rewrite (Hx _ true) by (apply list_lookup_insert_eq; done). by rewrite orb_true_r.
  - apply Hx. by rewrite list_lookup_insert_ne.
Qed.
Lemma mark_states_spec {E : Type} scratch ss :
  Forall (λ s, Forall (λ e, id_index e.2 < length scratch) (terminal_entries s)) ss →
  ∃ scratch', mark_states (E:=E) scratch ss = Ok scratch' ∧ length scratch' = length scratch ∧
    ∀ i b, scratch !! i = Some b → scratch' !! i = Some (b || live_in ss i).
Proof.
  revert scratch. induction ss as [|s ss IH]; intros scratch Hss; cbn.
  { exists scratch. split_and?; [done|done|]. intros. by rewrite orb_false_r. }
  apply Forall_cons in Hss as [Hs Hss].
  destruct (mark_ids_spec (E:=E) scratch _ Hs) as (sc1 & -> & Hl1 & Hx1). cbn.
  destruct (IH sc1) as (sc2 & Heq & Hl2 & Hx2); [by rewrite Hl1|].
  exists sc2. rewrite Hl2, Hl1. split_and?; [done|done|]. intros i b Hb.
  rewrite (Hx2 _ _ (Hx1 _ _ Hb)). by rewrite orb_assoc.
Qed.

(** ** Properties *)

(** The pools give two ids the same list, and the ids the same flag. *)
Definition same_entry (p p' : ActionListPool) (e e' : Symbol * N) : Prop :=
  e'.1 = e.1 ∧ id_reusable e'.2 = id_reusable e.2 ∧
  ∃ l, pool_get (E:=Empty_set) p e.2 = Ok l ∧ pool_get (E:=Empty_set) p' e'.2 = Ok l.
Definition interned_entry (p : ActionListPool) (e : Symbol * ParseTableEntry) (e' : Symbol * N) : Prop :=
  e'.1 = e.1 ∧ id_reusable e'.2 = reusable e.2 ∧
  pool_get (E:=Empty_set) p e'.2 = Ok (actions_of (entry_actions e.2)).

(** Every id of the states is in the pool. *)
Definition ids_in (lists : list (list ParseAction)) (ss : list (ParseState N)) : Prop :=
  Forall (λ s, Forall (λ e, id_index e.2 < length lists) (terminal_entries s)) ss.

(** C30: interning a table whose action lists fit the pool replaces every
    terminal entry by an id under which the pool holds exactly its actions,
    with its [reusable] flag, changes nothing else, and stores no list twice. *)
Theorem intern_table_correct (t : ParseTable ParseTableEntry) :
  (N.of_nat (states_size (pt_states t)) < U32)%N → (N.of_nat (states_entries (pt_states t)) < REUSABLE_BIT)%N →
  ∃ lists, pool_ok (action_lists (intern_table t)) lists ∧ NoDup lists ∧
    Forall2 (state_rel (interned_entry (action_lists (intern_table t)))) (pt_states t) (pt_states (intern_table t)).
Proof.
  intros H1 H2. unfold intern_table.
  destruct (intern_states_spec empty_pool ∅ [] (pt_states t)) as (ss' & p' & ids' & ext & -> & Hp & (_ & _ & Hnd) & Hf).
  - by split_and!.
  - split; [|split; [|constructor]]; [by intros k i ?|by intros k ?%elem_of_nil].
  - done.
  - done.
  - exists ext. split; [done|]. split; [done|]. cbn. eapply Forall2_impl; [done|].
    intros s s' [Hs He]. split; [done|]. eapply Forall2_impl; [done|]. intros e e' (?&?&?).
    split_and!; [done|done|]. by eapply pool_get_ok.
Qed.

(** C28: [canonicalize] rebuilds the pool so that every id still stands for the
    same actions and flag, the empty list has index 0 and no list is stored
    twice, without panicking. *)
Theorem canonicalize_correct (E : Type) (p : ActionListPool) lists (ss : list (ParseState N)) :
  pool_ok p lists → ids_in lists ss → (N.of_nat (S (S (length lists))) < REUSABLE_BIT)%N →
  ∃ ss' p' lists', canonicalize (E:=E) p ss = Ok (ss', p') ∧ pool_ok p' lists' ∧ NoDup lists' ∧
    lists' !! 0 = Some [] ∧ Forall2 (state_rel (same_entry p p')) ss ss'.
Proof.
  intros Hp Hids Hroom. unfold canonicalize.
  destruct (pool_intern_spec (mkActionPool [] [] (remap_scratch p)) ∅ [] Empty)
    as (i & p1 & ids1 & ext & -> & Hp1 & Hd1 & Hi & _ & _ & Hle & _).
  { by split_and!. }
  { split; [|split; [|constructor]]; [by intros k j ?|by intros k ?%elem_of_nil]. }
  { done. } { cbn. done. }
  cbn [app] in *. assert (ext = [[]]) as ->.
  { destruct ext as [|e [|e2 ext]]; [done| |cbn in Hle; lia].
    by apply list_lookup_singleton_Some in Hi as [_ ->]. }
  destruct (canon_states_spec p lists Hp Hroom (E:=E) p1 ids1 [[]] (replicate (length (ranges p)) U32_MAX) ss)
    as (ss' & p' & ext' & Heq & Hp' & Hnd & Hf).
  - split; [done|]. split; [done|]. split.
    + destruct Hp as (_ & Hr & _). split; [by rewrite length_replicate, Hr, length_ranges_from|].
      intros j n Hj. apply lookup_replicate in Hj as [-> _]. by left.
    + intros k ->%list_elem_of_singleton. by left.
  - done.
  - exists ss', p', ([[]] ++ ext'). split_and?; try done. eapply Forall2_impl; [done|].
    intros s s' [Hs He]. split; [done|]. eapply Forall2_impl; [done|]. intros e e' (?&(l&?&?)&?).
    split_and!; [done|done|]. exists l. split; by eapply pool_get_ok.
Qed.

Lemma remap_terminal_spec {E : Type} (t : ParseTable N) lists
    (f : ParseStateId → outcome E ParseStateId) (g : ParseStateId → ParseStateId) :
  pool_ok (action_lists t) lists → ids_in lists (pt_states t) →
  (∀ i l s r, live_in (pt_states t) i = true → lists !! i = Some l → Shift s r ∈ l → f s = Ok (g s)) →
  ∃ t', remap_terminal_references t f = Ok t' ∧
    t' = mkParseTable (pt_states t) (action_lists t') (pt_symbols t) (production_infos t) (max_aliased_production_length t) (external_lex_states t) ∧
    pool_ok (action_lists t') (remap_lists g (live_in (pt_states t)) 0 lists).
Proof.
  intros (Ha & Hr & Hfit & Hlen) Hids Hf. unfold remap_terminal_references.
  assert (pool_len (action_lists t) = length lists) as Hpl by (unfold pool_len; by rewrite Hr, length_ranges_from).
  destruct (mark_states_spec (E:=E) (replicate (pool_len (action_lists t)) false) (pt_states t))
    as (sc & -> & Hl & Hx).
  { rewrite length_replicate, Hpl. done. }
  cbn [mbind outcome_bind]. rewrite length_replicate, Hpl in Hl. rewrite Ha, Hr.
  pose proof (remap_ranges_spec (E:=E) f g sc (live_in (pt_states t)) [] lists) as Hrr.
  cbn [app length concat] in Hrr. rewrite Hrr; [|done| |].
  - eexists. split; [done|]. split; [done|]. cbn [action_lists].
    assert (length (concat (remap_lists g (live_in (pt_states t)) 0 lists)) = length (concat lists) ∧
            ∀ o, ranges_from o (remap_lists g (live_in (pt_states t)) 0 lists) = ranges_from o lists) as [Hc Hrg].
    { generalize 0 at 1 2. clear. intros k. revert k. induction lists as [|l lists IH]; intros k; [done|].
      rewrite remap_lists_cons. destruct (IH (S k)) as [IH1 IH2]. split.
      - cbn. rewrite !length_app, IH1. destruct (live_in _ k); by rewrite ?length_map.
      - intros o. cbn. assert (length (if live_in (pt_states t) k then map (remap_action g) l else l) = length l) as ->
          by (destruct (live_in _ k); by rewrite ?length_map). by rewrite IH2. }
    split_and!; cbn; [done|by rewrite Hrg|by rewrite Hc|]. unfold remap_lists. by rewrite length_imap.
  - intros i [_ Hi]. rewrite (Hx i false); [done|]. apply lookup_replicate. by rewrite Hpl.
  - intros i l s r Hlive Hl' Hin. by apply (Hf i l s r).
Qed.

(** [remap_terminal_references] applies the function to the shift targets
    of every list that some state refers to and to nothing else; it never
    calls the function on a target of an unreferenced list. *)
Theorem remap_terminal_references_correct (E : Type) (t : ParseTable N) lists
    (f : ParseStateId → outcome E ParseStateId) (g : ParseStateId → ParseStateId) :
  pool_ok (action_lists t) lists → ids_in lists (pt_states t) →
  (∀ i l s r, live_in (pt_states t) i = true → lists !! i = Some l → Shift s r ∈ l → f s = Ok (g s)) →
  ∃ t', remap_terminal_references t f = Ok t' ∧ pt_states t' = pt_states t ∧
    pool_ok (action_lists t') (remap_lists g (live_in (pt_states t)) 0 lists).
Proof.
  intros Hp Hids Hf. destruct (remap_terminal_spec t lists f g Hp Hids Hf) as (t' & Ht & Heq & Hp'). exists t'. split; [done|]. by rewrite Heq.
Qed.

(** An action list behaves as the slice it dereferences to: [push], [pop],
    [keep_last], [from_slice] and equality are those of the slice; and an id
    keeps its index and flag. *)
Theorem action_list_correct (l k : ActionList) (a : ParseAction) (acts : list ParseAction) (i id : N) (b : bool) :
  actions_of (al_push l a) = actions_of l ++ [a] ∧
  (al_pop l).1 = last (actions_of l) ∧ actions_of (al_pop l).2 = removelast (actions_of l) ∧
  actions_of (keep_last l) = drop (pred (length (actions_of l))) (actions_of l) ∧
  actions_of (from_slice acts) = acts ∧ (al_eq l k = true ↔ actions_of l = actions_of k) ∧
  ((i < REUSABLE_BIT)%N → id_index (id_new i b) = N.to_nat i ∧ id_reusable (id_new i b) = b) ∧
  id_index (set_reusable id b) = id_index id ∧ id_reusable (set_reusable id b) = b.
Proof.
  destruct (set_reusable_spec id b) as [Hs1 Hs2]. split_and?; try done.
  - by destruct l.
  - by destruct l.
  - by destruct l.
  - destruct l as [|x|m]; [done|done|]. cbn. destruct (exists_last_or_nil m) as [->|(m' & x & ->)]; [done|].
    rewrite last_snoc, length_app. cbn. rewrite Nat.add_1_r. cbn. by rewrite drop_app_length.
  - by destruct acts as [|x [|y acts]].
  - unfold al_eq. apply bool_decide_eq_true.
  - intros Hi. by rewrite id_index_new, id_reusable_new.
Qed.

(** ** Witnesses *)
Definition example_state {T} (es : list (Symbol * T)) : ParseState T :=
  mkParseState 0 es [] TokenSet.new 0 0 0 false.
Definition example_table : ParseTable ParseTableEntry :=
  mkParseTable [example_state [(terminal 0, mkEntry (One (Shift 3 false)) true);
                               (terminal 1, mkEntry (Many [Recover; ShiftExtra]) false)];
                example_state [(terminal 1, mkEntry (Many [Shift 3 false]) false)]]
    empty_pool [] [] 0 [].
Definition example_lists : list (list ParseAction) := [[Shift 3 false]; [Recover; ShiftExtra]].

Lemma intern_table_correct_witness :
  ∃ lists, pool_ok (action_lists (intern_table example_table)) lists ∧ NoDup lists ∧
    Forall2 (state_rel (interned_entry (action_lists (intern_table example_table))))
      (pt_states example_table) (pt_states (intern_table example_table)).
Proof. apply intern_table_correct; reflexivity. Defined.

Definition example_interned : ParseTable N :=
  mkParseTable [example_state [(terminal 0, id_new 0 true); (terminal 1, 1%N)]; example_state [(terminal 1, 0%N)]]
    (mkActionPool [Shift 3 false; Recover; ShiftExtra] [mkActionRange 0 1; mkActionRange 1 2] []) [] [] 0 [].
Lemma example_interned_ok : pool_ok (action_lists example_interned) example_lists.
Proof. repeat split. Qed.
Lemma example_ids_in : ids_in example_lists (pt_states example_interned).
Proof.
  assert (forallb (λ s, forallb (λ e, Nat.ltb (id_index (snd e)) 2) (terminal_entries s))
            (pt_states example_interned) = true) as H by reflexivity.
  apply Forall_forall. intros s Hs. apply Forall_forall. intros e He.
  rewrite forallb_forall in H. rewrite list_elem_of_In in Hs. specialize (H _ Hs).
  rewrite forallb_forall in H. rewrite list_elem_of_In in He. specialize (H _ He). by apply Nat.ltb_lt in H.
Qed.

Lemma canonicalize_correct_witness :
  ∃ ss' p' lists', canonicalize (E:=Empty_set) (action_lists example_interned) (pt_states example_interned) = Ok (ss', p') ∧
    pool_ok p' lists' ∧ NoDup lists' ∧ lists' !! 0 = Some [] ∧
    Forall2 (state_rel (same_entry (action_lists example_interned) p')) (pt_states example_interned) ss'.
Proof.
  exact (canonicalize_correct Empty_set _ _ _ example_interned_ok example_ids_in eq_refl).
Defined.

Lemma remap_terminal_references_correct_witness :
  ∃ t', remap_terminal_references (E:=Empty_set) example_interned (λ s, Ok (s + 4)%N) = Ok t' ∧
    pt_states t' = pt_states example_interned ∧
    pool_ok (action_lists t') (remap_lists (λ s, (s + 4)%N) (live_in (pt_states example_interned)) 0 example_lists).
Proof.
  exact (remap_terminal_references_correct Empty_set example_interned example_lists (λ s, Ok (s + 4)%N) (λ s, (s + 4)%N)
           example_interned_ok example_ids_in (λ _ _ _ _ _ _ _, eq_refl)).
Defined.

Lemma action_list_correct_witness : id_index (id_new 5 true) = 5 ∧ id_reusable (id_new 5 true) = true.
Proof.
  destruct (action_list_correct Empty Empty Recover [] 5 0 true) as (_ & _ & _ & _ & _ & _ & H & _).
  exact (H eq_refl).
Defined.
