(* ===== verification/BuildTable.v ===== *)
(** * [build_tables/build_parse_table.rs]: building the parse table

    The states of the table are sets of items, found from the start item by
    closing a set and advancing its items over each symbol; finished items become
    reductions.  Conflicts are resolved by precedence and associativity, or are
    errors.  The queue of states is bounded by fuel.

    The grammars, the fields of the variables and the string pool that the builder
    borrows are the arguments of the section; maps that are iterated in an
    unspecified order are finite maps with an order of iteration.  A [BTreeMap] is a finite
    map whose entries are listed in the order of its keys, a [BTreeSet] of items a
    sorted list.  Assertions that only exist in debug builds are left out. *)
From S2P Require Import Prelude BitVec Symbols TokenSet Ordering StrPool Grammars Lookaheads Items ItemSets Tables.
From Stdlib Require Import DecimalString.

(** ** Strings *)
Definition str (s : String.string) : bytes := map Ascii.N_of_ascii (String.list_ascii_of_string s).
(** [i32::to_string]. *)
Definition display_int (z : Z) : bytes := str (NilZero.string_of_int (Z.to_int z)).

(** ** Collections *)
#[global] Instance FieldLocation_eq_dec : EqDecision FieldLocation.
Proof. solve_decision. Defined.
#[global] Instance ProductionInfo_eq_dec : EqDecision ProductionInfo.
Proof. solve_decision. Defined.
(** [btree_map.into_iter()]. *)
Definition btree_entries {V} (m : gmap Symbol V) : list (Symbol * V) :=
  sort_by (λ a b, symbol_cmp a.1 b.1) (map_to_list m).
(** [PartialEq] of slices: lengths, then elements. *)
Fixpoint elems_eq {E A} (eq : A → A → outcome E bool) (a b : list A) : outcome E bool :=
  match a, b with
  | x :: a, y :: b => c ← eq x y; if c : bool then elems_eq eq a b else Ok false
  | _, _ => Ok true
  end.
Definition slice_eq {E A} (eq : A → A → outcome E bool) (a b : list A) : outcome E bool :=
  if (length a =? length b)%nat then elems_eq eq a b else Ok false.
(** Lookup in a map whose keys are compared by [eq]. *)
Fixpoint map_find {E K V} (eq : K → K → outcome E bool) (m : list (K * V)) (k : K) : outcome E (option V) :=
  match m with
  | [] => Ok None
  | (k', v) :: m => c ← eq k' k; if c : bool then Ok (Some v) else map_find eq m k
  end.
(** [Vec::dedup]. *)
Fixpoint vec_dedup {A} `{EqDecision A} (l : list A) : list A :=
  match l with
  | x :: (y :: _) as l' => if decide (x = y) then vec_dedup l' else x :: vec_dedup l'
  | _ => l
  end.
(** [BTreeSet::insert]. *)
Fixpoint btree_insert {E} (i : Item.ParseItem) (l : list Item.ParseItem) : outcome E (list Item.ParseItem) :=
  match l with
  | [] => Ok [i]
  | x :: l' =>
      c ← Item.item_cmp i x;
      match c with
      | Lt => Ok (i :: l)
      | Eq => Ok l
      | Gt => l' ← btree_insert i l'; Ok (x :: l')
      end
  end.
(** [last_mut] of an action list, assigned. *)
Definition al_set_last (l : ActionList) (a : ParseAction) : ActionList :=
  match l with
  | Empty => Empty
  | One _ => One a
  | Many l => Many (removelast l ++ [a])
  end.
(** The elements of a token set. *)
Definition tokens {E} (s : TokenSet) : outcome E (list Symbol) := map_err (Empty_set_rect (λ _, E)) (TokenSet.iter s).

Module PT.
(** [ParseItemSet] and [ParseItemSetCore] are compared entry by entry. *)
Definition entry_eq {E} (a b : Item.ParseItemSetEntry) : outcome E bool :=
  c ← Item.item_eq (Item.item a) (Item.item b);
  Ok (c && (Item.lookaheads a =? Item.lookaheads b)%N
        && (Item.following_reserved_word_set a =? Item.following_reserved_word_set b)%N).
Definition item_set_eq {E} (a b : Item.ParseItemSet) : outcome E bool := slice_eq entry_eq (Item.entries a) (Item.entries b).
Definition core_eq {E} (a b : Item.ParseItemSetCore) : outcome E bool := slice_eq Item.item_eq a b.

Record AuxiliarySymbolInfo := mkAuxInfo { auxiliary_symbol : Symbol; parent_symbols : list Symbol }.
#[global] Instance AuxiliarySymbolInfo_eq_dec : EqDecision AuxiliarySymbolInfo.
Proof. solve_decision. Defined.
Record ReductionInfo := mkReductionInfo {
  ri_precedence : Precedence;
  ri_symbols : list Symbol;
  has_left_assoc : bool;
  has_right_assoc : bool;
  has_non_assoc : bool;
}.
Definition default_reduction : ReductionInfo := mkReductionInfo PNone [] false false false.
Record ParseStateQueueEntry := mkQueueEntry { qe_state_id : N; preceding_auxiliary_symbols : list AuxiliarySymbolInfo }.

(** Errors. *)
Record Interpretation := mkInterpretation {
  preceding_symbols : list bytes;
  variable_name : bytes;
  production_step_symbols : list bytes;
  int_step_index : N;
  int_done : bool;
  int_conflicting_lookahead : bytes;
  int_precedence : option bytes;
  int_associativity : option bytes;
  int_requires_eof_lookahead : bool;
}.
Inductive Resolution :=
  | RPrecedence (symbols : list bytes)
  | RAssociativity (symbols : list bytes)
  | RAddConflict (symbols : list bytes).
Record ConflictError := mkConflictError {
  symbol_sequence : list bytes;
  conflicting_lookahead : bytes;
  possible_interpretations : list Interpretation;
  possible_resolutions : list Resolution;
}.
Inductive ParseTableBuilderError :=
  | Conflict (e : ConflictError)
  | AmbiguousExtra (parent_symbols : list bytes)
  | ImproperNonTerminalExtra (name : bytes)
  | StateCount (n : nat).
Notation result := (outcome ParseTableBuilderError).
Inductive Diagnostic :=
  | UnnecessaryConflicts (conflicts : list (list bytes))
  | UnaryChoice (name : option bytes)
  | UnarySeq (name : option bytes)
  | EmptyStringMatch (name : bytes)
  | UnsupportedRegexFlag (flag : N) (pattern : bytes)
  | SupertypeInlined (name : bytes).

(** [node_types::VariableInfo], over what it says of a field: only the names of the fields are read. *)
Record VariableInfo (F : Type) := mkVariableInfo {
  fields : gmap StrId F;
  children : F;
  children_without_fields : F;
  has_multi_step_production : bool;
}.
Arguments mkVariableInfo {F}.
Arguments fields {F}.
Record ChildQuantity := mkChildQuantity { exists_ : bool; required : bool; multiple : bool }.
Record FieldInfo := mkFieldInfo { quantity : ChildQuantity; types : list ChildType }.

Record ParseTableBuilder (I : Type) := mkTableBuilder {
  item_set_builder : Builder.ParseItemSetBuilder I;
  core_ids_by_core : list (Item.ParseItemSetCore * N);
  state_ids_by_item_set : list (Item.ParseItemSet * N);
  preceding_symbols_by_id : list (list Symbol);
  production_info_ids_by_prod_id : list (option N);
  parse_state_queue : list ParseStateQueueEntry;
  non_terminal_extra_states : list (Symbol * N);
  actual_conflicts : gset (list Symbol);
  parse_table : ParseTable ParseTableEntry;
}.
Arguments mkTableBuilder {I}.
Arguments item_set_builder {I}.
Arguments core_ids_by_core {I}.
Arguments state_ids_by_item_set {I}.
Arguments preceding_symbols_by_id {I}.
Arguments production_info_ids_by_prod_id {I}.
Arguments parse_state_queue {I}.
Arguments non_terminal_extra_states {I}.
Arguments actual_conflicts {I}.
Arguments parse_table {I}.
Record ParseStateInfo (I : Type) := mkStateInfo {
  psi_preceding_symbols_by_id : list (list Symbol);
  item_sets_by_ids : list (Item.ParseItemSet * N);
  psi_lookaheads : Lookahead.LookaheadSetPool I;
}.
Arguments mkStateInfo {I}.
Arguments psi_preceding_symbols_by_id {I}.
Arguments item_sets_by_ids {I}.
Arguments psi_lookaheads {I}.
Definition item_set {E I} (i : ParseStateInfo I) (id : N) : outcome E Item.ParseItemSet :=
  e ← vec_get (item_sets_by_ids i) (N.to_nat id); Ok e.1.

(** ** Precedences *)
(** The derived [Ord] of [Precedence]. *)
Definition precedence_cmp (a b : Precedence) : comparison :=
  match a, b with
  | PNone, PNone => Eq
  | PInteger a, PInteger b => (a ?= b)%Z
  | PName a, PName b => (a ?= b)%N
  | PNone, _ | PInteger _, PName _ => Lt
  | _, PNone | PName _, PInteger _ => Gt
  end.
Definition precedence_symbol_cmp : Precedence * Symbol → Precedence * Symbol → comparison := pair_cmp precedence_cmp symbol_cmp.

Section precedence.
Context (grammar : SyntaxGrammar).
(** [symbols.iter().any(|s| &grammar.variables[s.index as usize].name == n)]. *)
Fixpoint any_named {E} (n : StrId) (symbols : list Symbol) : outcome E bool :=
  match symbols with
  | [] => Ok false
  | s :: symbols =>
      v ← vec_get (sg_variables grammar) (N.to_nat (index s));
      if (sv_name v =? n)%N then Ok true else any_named n symbols
  end.
Definition precedence_entry_matches {E} (entry : PrecedenceEntry) (precedence : Precedence) (symbols : list Symbol) : outcome E bool :=
  match entry with
  | PEName n => Ok (match precedence with PName p => (n =? p)%N | _ => false end)
  | PESymbol n => any_named n symbols
  end.
Section scan.
Context (left : Precedence) (left_symbols : list Symbol) (right : Precedence) (right_symbols : list Symbol).
Fixpoint scan_ordering {E} (saw_left saw_right : bool) (l : list PrecedenceEntry) : outcome E (option comparison) :=
  match l with
  | [] => Ok None
  | entry :: l =>
      matches_left ← precedence_entry_matches entry left left_symbols;
      matches_right ← precedence_entry_matches entry right right_symbols;
      if matches_left : bool then
        if saw_right : bool then Ok (Some Lt) else scan_ordering true saw_right l
      else if matches_right : bool then
        if saw_left : bool then Ok (Some Gt) else scan_ordering saw_left true l
      else scan_ordering saw_left saw_right l
  end.
Fixpoint find_ordering {E} (ls : list (list PrecedenceEntry)) : outcome E (option comparison) :=
  match ls with
  | [] => Ok None
  | l :: ls => o ← scan_ordering false false l; match o with Some c => Ok (Some c) | None => find_ordering ls end
  end.
Definition compare_precedence {E} : outcome E comparison :=
  let named := o ← find_ordering (sg_precedence_orderings grammar); Ok (default Eq o) in
  match left, right with
  | PInteger l, PInteger r => if negb (l =? 0)%Z || negb (r =? 0)%Z then Ok (l ?= r)%Z else named
  | PInteger l, PNone => if negb (l =? 0)%Z then Ok (l ?= 0)%Z else named
  | PNone, PInteger r => if negb (r =? 0)%Z then Ok (0 ?= r)%Z else named
  | _, _ => named
  end.
End scan.
End precedence.

Section builder.
Context {H : Type} (str_pool : StrPool H) (g : SyntaxGrammar) (lg : LexicalGrammar).
Context {F : Type} (variable_info : list (VariableInfo F)).
Context {I : Type} {IS : IndexSet I} {MI : MapIter}.
Context (inlines : InlinedProductionMap) (key_map : Item.ItemKeyMap).

Notation builder := (ParseTableBuilder I).
Definition with_item_sets (b : builder) (ib : Builder.ParseItemSetBuilder I) : builder :=
  mkTableBuilder ib (core_ids_by_core b) (state_ids_by_item_set b) (preceding_symbols_by_id b)
    (production_info_ids_by_prod_id b) (parse_state_queue b) (non_terminal_extra_states b) (actual_conflicts b) (parse_table b).
Definition with_lookaheads (b : builder) (p : Lookahead.LookaheadSetPool I) : builder :=
  let ib := item_set_builder b in
  with_item_sets b (Builder.mkBuilder (Builder.symbol_sets ib) (Builder.first_set_ids ib) p (Builder.transitive_closure_additions ib)).
Definition with_table (b : builder) (t : ParseTable ParseTableEntry) : builder :=
  mkTableBuilder (item_set_builder b) (core_ids_by_core b) (state_ids_by_item_set b) (preceding_symbols_by_id b)
    (production_info_ids_by_prod_id b) (parse_state_queue b) (non_terminal_extra_states b) (actual_conflicts b) t.
Definition with_queue (b : builder) (q : list ParseStateQueueEntry) : builder :=
  mkTableBuilder (item_set_builder b) (core_ids_by_core b) (state_ids_by_item_set b) (preceding_symbols_by_id b)
    (production_info_ids_by_prod_id b) q (non_terminal_extra_states b) (actual_conflicts b) (parse_table b).
Definition with_extras (b : builder) (x : list (Symbol * N)) : builder :=
  mkTableBuilder (item_set_builder b) (core_ids_by_core b) (state_ids_by_item_set b) (preceding_symbols_by_id b)
    (production_info_ids_by_prod_id b) (parse_state_queue b) x (actual_conflicts b) (parse_table b).
Definition with_conflicts (b : builder) (c : gset (list Symbol)) : builder :=
  mkTableBuilder (item_set_builder b) (core_ids_by_core b) (state_ids_by_item_set b) (preceding_symbols_by_id b)
    (production_info_ids_by_prod_id b) (parse_state_queue b) (non_terminal_extra_states b) c (parse_table b).
Definition pool_of (b : builder) : Lookahead.LookaheadSetPool I := Builder.pool (item_set_builder b).

Definition table_with_states (t : ParseTable ParseTableEntry) (states : list (ParseState ParseTableEntry)) : ParseTable ParseTableEntry :=
  mkParseTable states (action_lists t) (pt_symbols t) (production_infos t) (max_aliased_production_length t) (external_lex_states t).
(** [self.parse_table.states[state_id]], read and written. *)
Definition get_state {E} (b : builder) (state_id : N) : outcome E (ParseState ParseTableEntry) :=
  vec_get (pt_states (parse_table b)) (N.to_nat state_id).
Definition set_state {E} (b : builder) (state_id : N) (s : ParseState ParseTableEntry) : outcome E builder :=
  states ← vec_set (pt_states (parse_table b)) (N.to_nat state_id) s;
  Ok (with_table b (table_with_states (parse_table b) states)).
Definition with_eof_gated (s : ParseState ParseTableEntry) : ParseState ParseTableEntry :=
  mkParseState (ps_id s) (terminal_entries s) (nonterminal_entries s) (reserved_words s) (lex_state_id s)
    (external_lex_state_id s) (core_id s) true.
Definition with_reserved_words (s : ParseState ParseTableEntry) (r : TokenSet) : ParseState ParseTableEntry :=
  mkParseState (ps_id s) (terminal_entries s) (nonterminal_entries s) r (lex_state_id s)
    (external_lex_state_id s) (core_id s) (has_eof_gated_reduce s).

Definition new_builder (ib : Builder.ParseItemSetBuilder I) : builder :=
  mkTableBuilder ib [] [] [] (replicate (length (sg_productions g)) None) [] []
    (list_to_set (expected_conflicts g)) (mkParseTable [] empty_pool [] [] 1 []).

(** ** Names *)
Definition symbol_name {E} (symbol : Symbol) : outcome E bytes :=
  match kind symbol with
  | End | EndOfNonTerminalExtra => Ok (str "EOF")
  | External => t ← vec_get (external_tokens g) (N.to_nat (index symbol)); resolve str_pool (et_name t)
  | NonTerminal => v ← vec_get (sg_variables g) (N.to_nat (index symbol)); resolve str_pool (sv_name v)
  | Terminal =>
      v ← vec_get (lg_variables lg) (N.to_nat (index symbol));
      n ← resolve str_pool (lv_name v);
      Ok (if bool_decide (lv_kind v = Named) then n else [39%N] ++ n ++ [39%N])
  end.
Definition prec_display {E} (prec : Precedence) : outcome E bytes :=
  match prec with
  | PNone => Ok (str "none")
  | PInteger i => Ok (display_int i)
  | PName sid => n ← resolve str_pool sid; Ok ([39%N] ++ n ++ [39%N])
  end.

(** ** States *)
Definition add_parse_state {E} (b : builder) (preceding_symbols : list Symbol) (aux : list AuxiliarySymbolInfo)
    (item_set : Item.ParseItemSet) : outcome E (N * builder) :=
  o ← map_find item_set_eq (state_ids_by_item_set b) item_set;
  match o with
  | Some id => Ok (id, b)
  | None =>
      let core := Item.core item_set in
      let core_count := as_u32 (length (core_ids_by_core b)) in
      c ← map_find core_eq (core_ids_by_core b) core;
      let '(core_id, core_ids) :=
        match c with
        | Some id => (id, core_ids_by_core b)
        | None => (core_count, core_ids_by_core b ++ [(core, core_count)])
        end in
      let t := parse_table b in
      let state_id := as_u32 (length (pt_states t)) in
      let state := mkParseState state_id [] [] TokenSet.new 0 0 core_id false in
      Ok (state_id,
          mkTableBuilder (item_set_builder b) core_ids (state_ids_by_item_set b ++ [(item_set, state_id)])
            (preceding_symbols_by_id b ++ [preceding_symbols]) (production_info_ids_by_prod_id b)
            (parse_state_queue b ++ [mkQueueEntry state_id aux]) (non_terminal_extra_states b) (actual_conflicts b)
            (table_with_states t (pt_states t ++ [state])))
  end.

(** ** Production infos *)
Definition push_location (m : gmap StrId (list FieldLocation)) (f : StrId) (l : FieldLocation) : gmap StrId (list FieldLocation) :=
  <[f := default [] (m !! f) ++ [l]]> m.
Definition add_step_info {E} (info : ProductionInfo) (e : nat * ProductionStep) : outcome E ProductionInfo :=
  let '(i, step) := e in
  a ← step_get_alias step;
  f ← step_get_field step;
  let m := match f with Some f => push_location (field_map info) f (mkFieldLocation (as_u32 i) false) | None => field_map info end in
  m ← (if bool_decide (kind (step_symbol step) = NonTerminal) then
         v ← vec_get (sg_variables g) (N.to_nat (index (step_symbol step)));
         if negb (is_visible (sv_kind v)) then
           vi ← vec_get variable_info (N.to_nat (index (step_symbol step)));
           Ok (foldl (λ (m : gmap StrId (list FieldLocation)) '(f, _), push_location m f (mkFieldLocation (as_u32 i) true)) m
                 (map_iter 0 (fields vi)))
         else Ok m
       else Ok m);
  Ok (mkProductionInfo (alias_sequence info ++ [a]) m).
(** [while last() == Some(&None) { pop() }]. *)
Fixpoint strip_none {A} (l : list (option A)) : list (option A) :=
  match l with
  | [] => []
  | x :: l => match strip_none l, x with [], None => [] | l', _ => x :: l' end
  end.
Definition production_info_of {E} (steps : list ProductionStep) : outcome E ProductionInfo :=
  info ← for_each add_step_info (mkProductionInfo [] ∅) (imap (λ i s, (i, s)) steps);
  Ok (mkProductionInfo (strip_none (alias_sequence info)) (field_map info)).
Definition get_production_id {E} (b : ParseTableBuilder I) (item : Item.ParseItem) : outcome E (N * ParseTableBuilder I) :=
  known ← vec_get (production_info_ids_by_prod_id b) (N.to_nat (Item.prod_id item));
  match known with
  | Some id => Ok (id, b)
  | None =>
      p ← Item.item_production item g;
      info ← production_info_of (pr_steps p);
      let t := parse_table b in
      let longest := Nat.max (max_aliased_production_length t) (length (pr_steps p)) in
      let '(index, infos) :=
        match list_find (λ x, x = info) (production_infos t) with
        | Some (index, _) => (index, production_infos t)
        | None => (length (production_infos t), production_infos t ++ [info])
        end in
      let id := as_u32 index in
      ids ← vec_set (production_info_ids_by_prod_id b) (N.to_nat (Item.prod_id item)) (Some id);
      Ok (id,
          mkTableBuilder (item_set_builder b) (core_ids_by_core b) (state_ids_by_item_set b) (preceding_symbols_by_id b)
            ids (parse_state_queue b) (non_terminal_extra_states b) (actual_conflicts b)
            (mkParseTable (pt_states t) (action_lists t) (pt_symbols t) infos longest (external_lex_states t)))
  end.

(** ** Successors and reductions of a state *)
(** What the loop over the items of a state carries. *)
Record Scan := mkScan {
  sc_builder : ParseTableBuilder I;
  terminal_successors : gmap Symbol Item.ParseItemSet;
  non_terminal_successors : gmap Symbol Item.ParseItemSet;
  lookaheads_with_conflicts : TokenSet;
  reduction_infos : gmap Symbol ReductionInfo;
  aux_node_info : gmap Symbol AuxiliarySymbolInfo;
  sc_aux : list AuxiliarySymbolInfo;
}.
Definition aux_parent {E} (symbol : Symbol) (e : Item.ParseItemSetEntry) : outcome E (option Symbol) :=
  s ← Item.item_symbol (Item.item e) g;
  if bool_decide (s = Some symbol) then
    v ← vec_get (sg_variables g) (N.to_nat (Item.variable_index (Item.item e)));
    Ok (if is_auxiliary v then None else Some (non_terminal (Item.variable_index (Item.item e))))
  else Ok None.
Definition get_auxiliary_node_info {E} (item_set : Item.ParseItemSet) (symbol : Symbol) : outcome E AuxiliarySymbolInfo :=
  parents ← mapM (aux_parent symbol) (Item.entries item_set);
  Ok (mkAuxInfo symbol (omap id parents)).

(** The entry of an advanced item, in the set of its symbol. *)
Definition add_successor {E} (p : Lookahead.LookaheadSetPool I) (m : gmap Symbol Item.ParseItemSet) (symbol : Symbol)
    (successor : Item.ParseItem) (lookaheads : LookaheadSetId) (reserved : N) :
    outcome E (Lookahead.LookaheadSetPool I * gmap Symbol Item.ParseItemSet) :=
  '(j, set) ← Item.item_set_insert (default (Item.mkItemSet []) (m !! symbol)) successor;
  e ← vec_get (Item.entries set) j;
  '(id, p) ← Lookahead.union p (Item.lookaheads e) lookaheads;
  let e := Item.mkEntry (Item.item e) id (N.max (Item.following_reserved_word_set e) reserved) in
  Ok (p, <[symbol := Item.update_entry set j e]> m).
Definition with_flag (i : Item.ParseItem) : Item.ParseItem :=
  Item.mkItem (Item.variable_index i) (Item.step_index i) (Item.prod_id i) (Item.keys i) true.
Definition scan_unfinished {E} (set : Item.ParseItemSet) (sc : Scan) (e : Item.ParseItemSetEntry) (next_symbol : Symbol) :
    outcome E Scan :=
  let successor := Item.successor (Item.item e) in
  let add := add_successor (pool_of (sc_builder sc)) in
  if is_non_terminal next_symbol then
    variable ← vec_get (sg_variables g) (N.to_nat (index next_symbol));
    '(memo, aux) ←
      (if is_auxiliary variable then
         info ← (match aux_node_info sc !! next_symbol with
                 | Some info => Ok info
                 | None => get_auxiliary_node_info set next_symbol
                 end);
         Ok (<[next_symbol := info]> (aux_node_info sc), sc_aux sc ++ [info])
       else Ok (aux_node_info sc, sc_aux sc));
    inherits ← (if is_hidden variable then
                  vi ← vec_get variable_info (N.to_nat (index next_symbol));
                  Ok (negb (bool_decide (fields vi = ∅)))
                else Ok false);
    let successor := if inherits : bool then with_flag successor else successor in
    '(p, m) ← add (non_terminal_successors sc) next_symbol successor (Item.lookaheads e) (Item.following_reserved_word_set e);
    Ok (mkScan (with_lookaheads (sc_builder sc) p) (terminal_successors sc) m (lookaheads_with_conflicts sc)
          (reduction_infos sc) memo aux)
  else
    '(p, m) ← add (terminal_successors sc) next_symbol successor (Item.lookaheads e) (Item.following_reserved_word_set e);
    Ok (mkScan (with_lookaheads (sc_builder sc) p) m (non_terminal_successors sc) (lookaheads_with_conflicts sc)
          (reduction_infos sc) (aux_node_info sc) (sc_aux sc)).

(** [as u16]. *)
Definition wrap_u16 (n : N) : N := (n mod 65536)%N.
Definition reduce_action {E} (b : ParseTableBuilder I) (item : Item.ParseItem) : outcome E (ParseAction * ParseTableBuilder I) :=
  if Item.is_augmented item then Ok (PAccept, b)
  else
    '(production_id, b) ← get_production_id b item;
    p ← Item.item_production item g;
    Ok (Reduce (non_terminal (Item.variable_index item)) (wrap_u16 (Item.step_index item)) (pr_dynamic_precedence p)
          (wrap_u16 production_id), b).
Definition record_reduction (info : ReductionInfo) (precedence : Precedence) (symbol : Symbol) (associativity : option Associativity) :
    ReductionInfo :=
  let symbols :=
    match binary_search_by (λ s, symbol_cmp s symbol) (ri_symbols info) with
    | inl _ => ri_symbols info
    | inr i => vec_insert i symbol (ri_symbols info)
    end in
  match associativity with
  | Some Left => mkReductionInfo precedence symbols true (has_right_assoc info) (has_non_assoc info)
  | Some Right => mkReductionInfo precedence symbols (has_left_assoc info) true (has_non_assoc info)
  | None => mkReductionInfo precedence symbols (has_left_assoc info) (has_right_assoc info) true
  end.
(** The entry, reduction info and conflicts of a lookahead after its next
    reduction; [None] when an earlier one has higher precedence. *)
Definition place_reduction {E} (action : ParseAction) (symbol : Symbol) (precedence : Precedence)
    (actions : ActionList) (info : ReductionInfo) (conflicts : TokenSet) (lookahead : Symbol) :
    outcome E (option (ActionList * ReductionInfo * TokenSet)) :=
  match actions_of actions with
  | [] => Ok (Some (al_push actions action, info, conflicts))
  | _ =>
      c ← compare_precedence g precedence [symbol] (ri_precedence info) (ri_symbols info);
      match c with
      | Gt =>
          '(_, conflicts) ← TokenSet.remove conflicts lookahead;
          Ok (Some (al_push (al_clear actions) action, default_reduction, conflicts))
      | Eq =>
          if bool_decide (action ∈ actions_of actions) then Ok (Some (actions, info, conflicts))
          else conflicts ← TokenSet.insert conflicts lookahead; Ok (Some (al_push actions action, info, conflicts))
      | Lt => Ok None
      end
  end.
Definition add_reduction {E} (state_id : N) (requires_eof : bool) (action : ParseAction) (symbol : Symbol) (precedence : Precedence)
    (associativity : option Associativity) (sc : Scan) (lookahead : Symbol) : outcome E Scan :=
  if requires_eof && negb (bool_decide (lookahead = end_)) then Ok sc
  else
    state ← get_state (sc_builder sc) state_id;
    let table_entry := default new_entry (im_get lookahead (terminal_entries state)) in
    let reduction_info := default default_reduction (reduction_infos sc !! lookahead) in
    r ← place_reduction action symbol precedence (entry_actions table_entry) reduction_info (lookaheads_with_conflicts sc) lookahead;
    match r with
    | None =>
        Ok (mkScan (sc_builder sc) (terminal_successors sc) (non_terminal_successors sc) (lookaheads_with_conflicts sc)
              (<[lookahead := reduction_info]> (reduction_infos sc)) (aux_node_info sc) (sc_aux sc))
    | Some (actions, info, conflicts) =>
        b ← set_state (sc_builder sc) state_id
              (with_terminals state (im_insert lookahead (mkEntry actions (reusable table_entry)) (terminal_entries state)));
        Ok (mkScan b (terminal_successors sc) (non_terminal_successors sc) conflicts
              (<[lookahead := record_reduction info precedence symbol associativity]> (reduction_infos sc)) (aux_node_info sc) (sc_aux sc))
    end.
Definition with_sc_builder (sc : Scan) (b : ParseTableBuilder I) : Scan :=
  mkScan b (terminal_successors sc) (non_terminal_successors sc) (lookaheads_with_conflicts sc) (reduction_infos sc)
    (aux_node_info sc) (sc_aux sc).
Definition scan_finished {E} (state_id : N) (sc : Scan) (e : Item.ParseItemSetEntry) : outcome E Scan :=
  let item := Item.item e in
  let symbol := non_terminal (Item.variable_index item) in
  '(action, b) ← reduce_action (sc_builder sc) item;
  precedence ← Item.item_precedence item g;
  associativity ← Item.item_associativity item g;
  p ← Item.item_production item g;
  b ← (if pr_requires_eof_lookahead p
       then state ← get_state b state_id; set_state b state_id (with_eof_gated state) else Ok b);
  set ← Lookahead.get (pool_of b) (Item.lookaheads e);
  ts ← tokens set;
  for_each (add_reduction state_id (pr_requires_eof_lookahead p) action symbol precedence associativity) (with_sc_builder sc b) ts.
Definition scan_entry {E} (state_id : N) (set : Item.ParseItemSet) (sc : Scan) (e : Item.ParseItemSetEntry) : outcome E Scan :=
  s ← Item.item_symbol (Item.item e) g;
  match s with
  | Some next_symbol => scan_unfinished set sc e next_symbol
  | None => scan_finished state_id sc e
  end.

(** ** Conflicts *)
Record ConflictScan := mkConflictScan {
  shift_precedence : list (Precedence * Symbol);
  conflicting_items : list Item.ParseItem;
}.
Definition scan_conflict {E} (b : ParseTableBuilder I) (lookahead : Symbol) (c : ConflictScan) (e : Item.ParseItemSetEntry) :
    outcome E ConflictScan :=
  let item := Item.item e in
  let augmented := (Item.variable_index item =? U32 - 1)%N in
  step ← Item.item_step item g;
  match step with
  | Some step =>
      starts ← (if (0 <? Item.step_index item)%N
                then first ← Builder.first_set (item_set_builder b) (step_symbol step); TokenSet.contains first lookahead
                else Ok false);
      if starts : bool then
        items ← (if augmented then Ok (conflicting_items c) else btree_insert item (conflicting_items c));
        precedence ← Item.item_precedence item g;
        let p := (precedence, non_terminal (Item.variable_index item)) in
        Ok (mkConflictScan
              (match binary_search_by (λ q, precedence_symbol_cmp q p) (shift_precedence c) with
               | inl _ => shift_precedence c
               | inr i => vec_insert i p (shift_precedence c)
               end) items)
      else Ok c
  | None =>
      set ← Lookahead.get (pool_of b) (Item.lookaheads e);
      has ← TokenSet.contains set lookahead;
      if has && negb augmented then items ← btree_insert item (conflicting_items c); Ok (mkConflictScan (shift_precedence c) items)
      else Ok c
  end.

(** How the precedences of the shifts compare with that of the reductions. *)
Record ShiftOrder := mkShiftOrder { shift_is_less : bool; shift_is_equal : bool; shift_is_more : bool }.
Definition compare_shift {E} (info : ReductionInfo) (o : ShiftOrder) (p : Precedence * Symbol) : outcome E ShiftOrder :=
  c ← compare_precedence g p.1 [p.2] (ri_precedence info) (ri_symbols info);
  Ok (match c with
      | Gt => mkShiftOrder (shift_is_less o) (shift_is_equal o) true
      | Lt => mkShiftOrder true (shift_is_equal o) (shift_is_more o)
      | Eq => mkShiftOrder (shift_is_less o) true (shift_is_more o)
      end).
(** The actions that are left and, unless the conflict is that of a repetition,
    the items that still conflict and whether associativity was considered. *)
Definition resolve_shift {E} (info : ReductionInfo) (actions : ActionList) (c : ConflictScan) :
    outcome E (ActionList * option (list Item.ParseItem * bool)) :=
  let items := conflicting_items c in
  let done_items := filter (λ i, Item.is_done i = true) items in
  a ← unwrap (last (actions_of actions));
  match a with
  | Shift s _ =>
      first ← unwrap (head items);
      v ← vec_get (sg_variables g) (N.to_nat (Item.variable_index first));
      if is_auxiliary v && forallb (λ i, Item.variable_index i =? Item.variable_index first)%N items
      then Ok (al_set_last actions (Shift s true), None)
      else
        o ← for_each (compare_shift info) (mkShiftOrder false false false) (shift_precedence c);
        if shift_is_more o && negb (shift_is_less o) then Ok (keep_last actions, Some (items, false))
        else if shift_is_less o && negb (shift_is_more o) then
          if shift_is_equal o && negb (has_left_assoc info) && negb (has_non_assoc info) && has_right_assoc info
          then Ok (keep_last actions, Some (items, false))
          else Ok ((al_pop actions).2, Some (done_items, false))
        else if negb (shift_is_less o) && negb (shift_is_more o) then
          match has_left_assoc info, has_non_assoc info, has_right_assoc info with
          | true, false, false => Ok ((al_pop actions).2, Some (done_items, true))
          | false, false, true => Ok (keep_last actions, Some (items, true))
          | _, _, _ => Ok (actions, Some (items, true))
          end
        else Ok (actions, Some (items, false))
  | _ => Ok (actions, Some (items, false))
  end.

(** The parent symbols of a conflict. *)
Definition conflict_symbols {E} (aux : list AuxiliarySymbolInfo) (item : Item.ParseItem) : outcome E (list Symbol) :=
  let symbol := non_terminal (Item.variable_index item) in
  v ← vec_get (sg_variables g) (N.to_nat (index symbol));
  if is_auxiliary v then
    e ← unwrap (list_find (λ info, auxiliary_symbol info = symbol) (rev aux)); Ok (parent_symbols e.2)
  else Ok [symbol].
Definition actual_conflict_of {E} (aux : list AuxiliarySymbolInfo) (items : list Item.ParseItem) : outcome E (list Symbol) :=
  ls ← mapM (conflict_symbols aux) items;
  Ok (vec_dedup (sort_by symbol_cmp (concat ls))).

(** The report.  The difference of [usize] wraps around; [take] stops at the end. *)
Definition preceding_count (n : nat) (step_index : N) : nat :=
  N.to_nat (N.min (N.of_nat n) ((N.of_nat n + (U64 - step_index)) mod U64))%N.
Definition interpretation {E} (preceding : list Symbol) (lookahead : Symbol) (item : Item.ParseItem) : outcome E Interpretation :=
  before ← mapM symbol_name (take (preceding_count (length preceding) (Item.step_index item)) preceding);
  v ← vec_get (sg_variables g) (N.to_nat (Item.variable_index item));
  name ← resolve str_pool (sv_name v);
  p ← Item.item_production item g;
  symbols ← mapM (λ s, symbol_name (step_symbol s)) (pr_steps p);
  precedence ← Item.item_precedence item g;
  precedence ← match precedence with PNone => Ok None | _ => d ← prec_display precedence; Ok (Some d) end;
  associativity ← Item.item_associativity item g;
  conflicting ← symbol_name lookahead;
  Ok (mkInterpretation before name symbols (Item.step_index item) (Item.is_done item) conflicting precedence
        (option_map (λ a, str (match a with Left => "Left" | Right => "Right" end)) associativity) (pr_requires_eof_lookahead p)).
Fixpoint get_rule_names {E} (last_rule_id : option N) (items : list Item.ParseItem) : outcome E (list bytes) :=
  match items with
  | [] => Ok []
  | item :: items =>
      if bool_decide (last_rule_id = Some (Item.variable_index item)) then get_rule_names last_rule_id items
      else
        n ← symbol_name (non_terminal (Item.variable_index item));
        rest ← get_rule_names (Some (Item.variable_index item)) items;
        Ok (n :: rest)
  end.
Definition conflict_error {E} (preceding : list Symbol) (lookahead : Symbol) (items : list Item.ParseItem)
    (considered_associativity : bool) (actual_conflict : list Symbol) : outcome E ConflictError :=
  sequence ← mapM symbol_name preceding;
  conflicting ← symbol_name lookahead;
  interpretations ← mapM (interpretation preceding lookahead) items;
  shift_items ← sort_by_m Item.item_cmp (filter (λ i, Item.is_done i = false) items);
  reduce_items ← sort_by_m Item.item_cmp (filter (λ i, Item.is_done i = true) items);
  precs ← (if (1 <? length actual_conflict)%nat then
             shifts ← match shift_items with
                      | [] => Ok []
                      | _ => names ← get_rule_names None shift_items; Ok [RPrecedence names]
                      end;
             reduces ← mapM (λ item, n ← symbol_name (non_terminal (Item.variable_index item)); Ok (RPrecedence [n])) reduce_items;
             Ok (shifts ++ reduces)
           else Ok []);
  assocs ← (if considered_associativity then names ← get_rule_names None reduce_items; Ok [RAssociativity names] else Ok []);
  names ← mapM symbol_name actual_conflict;
  Ok (mkConflictError sequence conflicting interpretations (precs ++ assocs ++ [RAddConflict names])).

Definition handle_conflict (set : Item.ParseItemSet) (state_id : N) (preceding : list Symbol) (aux : list AuxiliarySymbolInfo)
    (info_of : gmap Symbol ReductionInfo) (b : ParseTableBuilder I) (lookahead : Symbol) : result (ParseTableBuilder I) :=
  info ← unwrap (info_of !! lookahead);
  state ← get_state b state_id;
  entry ← unwrap (im_get lookahead (terminal_entries state));
  c ← for_each (scan_conflict b lookahead) (mkConflictScan [] []) (Item.entries set);
  '(actions, rest) ← resolve_shift info (entry_actions entry) c;
  b ← set_state b state_id (with_terminals state (im_insert lookahead (mkEntry actions (reusable entry)) (terminal_entries state)));
  match rest with
  | None => Ok b
  | Some (items, considered_associativity) =>
      if (length (actions_of actions) =? 1)%nat then Ok b
      else
        actual_conflict ← actual_conflict_of aux items;
        if bool_decide (actual_conflict ∈ expected_conflicts g) then
          Ok (with_conflicts b (actual_conflicts b ∖ {[actual_conflict]}))
        else
          e ← conflict_error preceding lookahead items considered_associativity actual_conflict;
          Err (Conflict e)
  end.

(** ** The actions of a state *)
Definition add_shift {E} (state_id : N) (preceding : list Symbol) (aux : list AuxiliarySymbolInfo)
    (st : ParseTableBuilder I * TokenSet) (e : Symbol * Item.ParseItemSet) : outcome E (ParseTableBuilder I * TokenSet) :=
  let '(b, conflicts) := st in
  let '(symbol, next_item_set) := e in
  '(next_state_id, b) ← add_parse_state b (preceding ++ [symbol]) aux next_item_set;
  state ← get_state b state_id;
  let entry := default new_entry (im_get symbol (terminal_entries state)) in
  conflicts ← match actions_of (entry_actions entry) with [] => Ok conflicts | _ => TokenSet.insert conflicts symbol end;
  b ← set_state b state_id
        (with_terminals state
           (im_insert symbol (mkEntry (al_push (entry_actions entry) (Shift next_state_id false)) (reusable entry)) (terminal_entries state)));
  Ok (b, conflicts).
Definition add_goto {E} (state_id : N) (preceding : list Symbol) (aux : list AuxiliarySymbolInfo) (b : ParseTableBuilder I)
    (e : Symbol * Item.ParseItemSet) : outcome E (ParseTableBuilder I) :=
  let '(symbol, next_item_set) := e in
  '(next_state_id, b) ← add_parse_state b (preceding ++ [symbol]) aux next_item_set;
  state ← get_state b state_id;
  set_state b state_id (with_nonterminals state (im_insert symbol (Goto next_state_id) (nonterminal_entries state))).

(** [entry(k).or_insert(v)]. *)
Definition im_or_insert {V} (k : Symbol) (v : V) (m : list (Symbol * V)) : list (Symbol * V) :=
  match im_get k m with Some _ => m | None => im_insert k v m end.
Definition one_action (a : ParseAction) : ParseTableEntry := mkEntry (One a) true.
Definition add_extra_starts (extras : list (Symbol * N)) (s : ParseState ParseTableEntry) : ParseState ParseTableEntry :=
  with_terminals s
    (foldl (λ m '(t, id), im_or_insert t (one_action (Shift id false)) m) (terminal_entries s) extras).
Definition add_extra_token (s : ParseState ParseTableEntry) (t : Symbol) : ParseState ParseTableEntry :=
  if is_non_terminal t then with_nonterminals s (im_insert t GShiftExtra (nonterminal_entries s))
  else with_terminals s (im_or_insert t (one_action ShiftExtra) (terminal_entries s)).
Definition extra_parent (e : Item.ParseItemSetEntry) : option N :=
  let i := Item.item e in
  if negb (Item.is_augmented i) && (0 <? Item.step_index i)%N then Some (Item.variable_index i) else None.
Definition extra_parents {E} (set : Item.ParseItemSet) : outcome E (list bytes) :=
  let parents : gmap N unit := list_to_map (map (λ v, (v, ())) (omap extra_parent (Item.entries set))) in
  mapM (λ '(v, _), v ← vec_get (sg_variables g) (N.to_nat v); resolve str_pool (sv_name v)) (map_iter 0 parents).
Definition add_extras (set : Item.ParseItemSet) (state_id : N) (b : ParseTableBuilder I) : result (ParseTableBuilder I) :=
  state ← get_state b state_id;
  if is_end_of_non_terminal_extra state then
    if (1 <? length (terminal_entries state))%nat then names ← extra_parents set; Err (AmbiguousExtra names)
    else Ok b
  else set_state b state_id (foldl add_extra_token (add_extra_starts (non_terminal_extra_states b) state) (extra_symbols g)).

Definition reserved_id {E} (b : ParseTableBuilder I) (keyword : Symbol) (e : Item.ParseItemSetEntry) : outcome E (option N) :=
  step ← Item.item_step (Item.item e) g;
  match step with
  | Some next_step => Ok (if bool_decide (step_symbol next_step = keyword) then Some (step_reserved next_step) else None)
  | None =>
      set ← Lookahead.get (pool_of b) (Item.lookaheads e);
      has ← TokenSet.contains set keyword;
      Ok (if has : bool then Some (Item.following_reserved_word_set e) else None)
  end.
Definition add_reserved_words {E} (set : Item.ParseItemSet) (state_id : N) (b : ParseTableBuilder I) : outcome E (ParseTableBuilder I) :=
  match word_token g with
  | None => Ok b
  | Some keyword =>
      ids ← mapM (reserved_id b keyword) (Item.entries set);
      match omap id ids with
      | [] => Ok b
      | id :: ids =>
          words ← vec_get (reserved_word_sets g) (N.to_nat (foldl N.max id ids));
          state ← get_state b state_id;
          set_state b state_id (with_reserved_words state words)
      end
  end.

Definition add_actions (preceding : list Symbol) (aux : list AuxiliarySymbolInfo) (state_id : N) (set : Item.ParseItemSet)
    (b : ParseTableBuilder I) : result (ParseTableBuilder I) :=
  sc ← for_each (scan_entry state_id set) (mkScan b ∅ ∅ TokenSet.new ∅ ∅ aux) (Item.entries set);
  let aux := vec_dedup (sc_aux sc) in
  '(b, conflicts) ← for_each (add_shift state_id preceding aux) (sc_builder sc, lookaheads_with_conflicts sc)
                      (btree_entries (terminal_successors sc));
  b ← for_each (add_goto state_id preceding aux) b (btree_entries (non_terminal_successors sc));
  ts ← tokens conflicts;
  b ← for_each (handle_conflict set state_id preceding aux (reduction_infos sc)) b ts;
  b ← add_extras set state_id b;
  add_reserved_words set state_id b.

(** ** The table *)
(** The item sets of extra rules, by their first symbol. *)
Definition add_extra_item {E} (v : N) (st : Lookahead.LookaheadSetPool I * gmap Symbol Item.ParseItemSet) (prod_id : N) :
    outcome E (Lookahead.LookaheadSetPool I * gmap Symbol Item.ParseItemSet) :=
  let '(p, m) := st in
  prod ← production g prod_id;
  first ← unwrap (first_symbol prod);
  ks ← Item.keys_for key_map prod_id;
  '(j, set) ← Item.item_set_insert (default (Item.mkItemSet []) (m !! first)) (Item.mkItem v 1 prod_id ks false);
  e ← vec_get (Item.entries set) j;
  '(id, p) ← Lookahead.insert p (Item.lookaheads e) end_of_nonterminal_extra;
  Ok (p, <[first := Item.update_entry set j (Item.mkEntry (Item.item e) id (Item.following_reserved_word_set e))]> m).
Definition extra_item_sets {E} (p : Lookahead.LookaheadSetPool I) : outcome E (Lookahead.LookaheadSetPool I * gmap Symbol Item.ParseItemSet) :=
  for_each (λ st x, ids ← variable_prod_ids g (N.to_nat (index x)); for_each (add_extra_item (index x)) st (prod_range ids))
    (p, ∅) (filter (λ x, is_non_terminal x = true) (extra_symbols g)).
Definition add_extra_state (b : ParseTableBuilder I) (e : Symbol * Item.ParseItemSet) : result (ParseTableBuilder I) :=
  let '(terminal, item_set) := e in
  if is_non_terminal terminal then n ← symbol_name terminal; Err (ImproperNonTerminalExtra n)
  else
    '(state_id, b) ← add_parse_state b [] [] item_set;
    Ok (with_extras b (non_terminal_extra_states b ++ [(terminal, state_id)])).
(** The states that the others are found from. *)
Definition initial_states (b : ParseTableBuilder I) : result (ParseTableBuilder I) :=
  let t := parse_table b in
  let b := with_table b (mkParseTable (pt_states t) (action_lists t) (pt_symbols t) (production_infos t ++ [mkProductionInfo [] ∅])
                           (max_aliased_production_length t) (external_lex_states t)) in
  '(_, b) ← add_parse_state b [] [] (Item.mkItemSet []);
  '(id, p) ← Lookahead.singleton (pool_of b) end_;
  '(_, b) ← add_parse_state (with_lookaheads b p) [] [] (Item.mkItemSet [Item.mkEntry (Item.item_start key_map) id 0]);
  '(p, sets) ← extra_item_sets (pool_of b);
  for_each add_extra_state (with_lookaheads b p) (btree_entries sets).

(** One turn of the loop over the queue. *)
Definition process_state (b : ParseTableBuilder I) (entry : ParseStateQueueEntry) : result (ParseTableBuilder I) :=
  kernel ← vec_get (state_ids_by_item_set b) (N.to_nat (qe_state_id entry));
  '(ib, set) ← Builder.transitive_closure g inlines key_map (item_set_builder b) kernel.1;
  preceding ← vec_get (preceding_symbols_by_id b) (N.to_nat (qe_state_id entry));
  add_actions preceding (preceding_auxiliary_symbols entry) (qe_state_id entry) set (with_item_sets b ib).
Fixpoint process_queue (fuel : nat) (b : ParseTableBuilder I) : result (ParseTableBuilder I) :=
  match fuel with
  | O => OutOfFuel
  | S fuel =>
      match parse_state_queue b with
      | [] => Ok b
      | entry :: queue => b ← process_state (with_queue b queue) entry; process_queue fuel b
      end
  end.
Definition unnecessary_conflicts {E} (b : ParseTableBuilder I) : outcome E (list Diagnostic) :=
  if bool_decide (actual_conflicts b = ∅) then Ok []
  else
    names ← mapM (mapM symbol_name) (elements (actual_conflicts b));
    Ok [UnnecessaryConflicts (sort_by (list_cmp bytes_cmp) names)].
Definition build (fuel : nat) (b : ParseTableBuilder I) (diagnostics : list Diagnostic) :
    result (ParseTable ParseTableEntry * ParseStateInfo I * list Diagnostic) :=
  b ← initial_states b;
  b ← process_queue fuel b;
  d ← unnecessary_conflicts b;
  Ok (parse_table b, mkStateInfo (preceding_symbols_by_id b) (state_ids_by_item_set b) (pool_of b), diagnostics ++ d).
Definition build_parse_table (fuel : nat) (ib : Builder.ParseItemSetBuilder I) (diagnostics : list Diagnostic) :
    result (ParseTable ParseTableEntry * ParseStateInfo I * list Diagnostic) :=
  build fuel (new_builder ib) diagnostics.
End builder.
End PT.
