(* ===== verification/BuildConflicts.v ===== *)
(** * [build_tables/build_parse_table.rs]: comparing precedences and resolving
    conflicts

    [compare_precedence] against a reference definition, and what is left of the
    actions of a token after its conflict is resolved. *)
From S2P Require Import Prelude BitVec Symbols TokenSet Ordering StrPool Grammars Lookaheads Items ItemSets Tables BuildTable.

Module Precedences.
Import PT.
Section precedence.
Context (g : SyntaxGrammar).

(** Symbols that the grammar has variables for. *)
Definition variables_known (l : list Symbol) : Prop := ∀ s, s ∈ l → N.to_nat (index s) < length (sg_variables g).
Definition variable_name (s : Symbol) : StrId := from_option sv_name 0%N (sg_variables g !! N.to_nat (index s)).
(** An entry of an ordering stands for a precedence by name, or for the rules of
    a variable by the variable's name. *)
Definition stands_for (p : Precedence) (symbols : list Symbol) (e : PrecedenceEntry) : Prop :=
  match e with
  | PEName n => p = PName n
  | PESymbol n => n ∈ map variable_name symbols
  end.
#[export] Instance stands_for_dec p symbols e : Decision (stands_for p symbols e).
Proof. unfold stands_for. destruct e; exact _. Defined.

Section orderings.
Context (left : Precedence) (left_symbols : list Symbol) (right : Precedence) (right_symbols : list Symbol).
Notation is_left := (stands_for left left_symbols).
(** An entry that stands for both sides counts for the left one. *)
Definition is_right (e : PrecedenceEntry) : Prop := ¬ is_left e ∧ stands_for right right_symbols e.
#[export] Instance is_right_dec e : Decision (is_right e).
Proof. unfold is_right. exact _. Defined.
(** The order that one list gives: the side it names first is greater. *)
Definition list_order (l : list PrecedenceEntry) : option comparison :=
  match list_find is_left l, list_find is_right l with
  | Some (i, _), Some (j, _) => Some (if decide (i < j) then Gt else Lt)
  | _, _ => None
  end.
(** The first list that names both sides decides. *)
Definition named_order : comparison := default Eq (head (omap list_order (sg_precedence_orderings g))).
(** Integers are compared, no precedence being 0, unless both are 0. *)
Definition integer_of (p : Precedence) : option Z := match p with PNone => Some 0%Z | PInteger n => Some n | PName _ => None end.
Definition precedence_order : comparison :=
  match integer_of left, integer_of right with
  | Some l, Some r => if decide (l = 0 ∧ r = 0)%Z then named_order else (l ?= r)%Z
  | _, _ => named_order
  end.

Lemma any_named_ok {E} n symbols : variables_known symbols → any_named (E:=E) g n symbols = Ok (bool_decide (n ∈ map variable_name symbols)).
Proof.
  induction symbols as [|s symbols IH]; intros Hk; cbn [any_named map].
  { by rewrite bool_decide_false by apply not_elem_of_nil. }
  assert (is_Some (sg_variables g !! N.to_nat (index s))) as [v Hv] by (apply lookup_lt_is_Some, Hk; set_solver).
  assert (variable_name s = sv_name v) as Hn by (unfold variable_name; by rewrite Hv).
  rewrite (vec_get_Some _ _ _ Hv). cbn [mbind outcome_bind]. destruct (N.eqb_spec (sv_name v) n) as [<-|Hne].
  - rewrite bool_decide_true; [done|]. rewrite Hn. apply list_elem_of_here.
  - rewrite IH by (intros x ?; apply Hk; set_solver). f_equal. apply bool_decide_ext.
    rewrite elem_of_cons, Hn. split; [by right|]. intros [->|]; done.
Qed.
Lemma entry_matches_ok {E} e p symbols : variables_known symbols →
  precedence_entry_matches (E:=E) g e p symbols = Ok (bool_decide (stands_for p symbols e)).
Proof.
  intros Hk. destruct e as [n|n]; cbn [precedence_entry_matches stands_for]; [|by apply any_named_ok].
  destruct p as [|z|m]; try (rewrite bool_decide_false; done).
  destruct (N.eqb_spec n m) as [->|]; [by rewrite bool_decide_true|]. rewrite bool_decide_false; congruence.
Qed.

Context (Hl : variables_known left_symbols) (Hr : variables_known right_symbols).
(** The scan after some entries, given which sides they named. *)
Lemma scan_ordering_ok {E} l saw_left saw_right : ¬ (saw_left = true ∧ saw_right = true) →
  scan_ordering (E:=E) g left left_symbols right right_symbols saw_left saw_right l =
  Ok (if saw_right then (λ _, Lt) <$> list_find is_left l
      else if saw_left then (λ _, Gt) <$> list_find is_right l else list_order l).
Proof.
  revert saw_left saw_right. induction l as [|e l IH]; intros sl sr Hn; cbn [scan_ordering].
  { by destruct sl, sr. }
  rewrite !entry_matches_ok by done. cbn [mbind outcome_bind].
  unfold list_order. cbn [list_find]. destruct (decide (is_left e)) as [Hle|Hle].
  - rewrite (bool_decide_true (is_left e)) by done. rewrite (decide_False (P:=is_right e)) by (intros [? _]; done).
    destruct sr; [done|]. rewrite IH by (intros [_ ?]; done).
    destruct sl; by destruct (list_find is_right l) as [[j ?]|].
  - rewrite (bool_decide_false (is_left e)) by done. destruct (decide (stands_for right right_symbols e)) as [Hre|Hre].
    + rewrite (bool_decide_true (stands_for right right_symbols e)) by done. rewrite (decide_True (P:=is_right e)) by done.
      destruct sl; [by destruct sr; [exfalso; apply Hn|]|]. rewrite IH by (intros [? _]; done).
      destruct sr; by destruct (list_find is_left l) as [[j ?]|].
    + rewrite (bool_decide_false (stands_for right right_symbols e)) by done.
      rewrite (decide_False (P:=is_right e)) by (intros [_ ?]; done). rewrite IH by done. f_equal. unfold list_order.
      destruct sr; [by destruct (list_find is_left l) as [[j ?]|]|].
      destruct sl; [by destruct (list_find is_right l) as [[j ?]|]|].
      destruct (list_find is_left l) as [[i ?]|], (list_find is_right l) as [[j ?]|]; try done. cbn.
      do 2 f_equal. repeat case_decide; (done || lia).
Qed.
Lemma find_ordering_ok {E} ls : find_ordering (E:=E) g left left_symbols right right_symbols ls = Ok (head (omap list_order ls)).
Proof.
  induction ls as [|l ls IH]; [done|]. cbn [find_ordering]. rewrite scan_ordering_ok by (intros [? _]; done). cbn [mbind outcome_bind].
  cbn. destruct (list_order l); [done|]. exact IH.
Qed.
Lemma compare_precedence_ok {E} : compare_precedence (E:=E) g left left_symbols right right_symbols = Ok precedence_order.
Proof.
  unfold compare_precedence. rewrite find_ordering_ok. cbn [mbind outcome_bind]. fold named_order. unfold precedence_order.
  destruct left as [|l|?], right as [|r|?]; cbn [integer_of]; try done.
  - destruct (Z.eqb_spec r 0); cbn [negb]; [by rewrite decide_True|by rewrite decide_False by naive_solver].
  - destruct (Z.eqb_spec l 0); cbn [negb]; [by rewrite decide_True|by rewrite decide_False by naive_solver].
  - destruct (Z.eqb_spec l 0), (Z.eqb_spec r 0); cbn [negb orb]; try (rewrite decide_False by naive_solver; done). by rewrite decide_True.
Qed.
End orderings.
End precedence.

(** C16: [compare_precedence] does not panic on symbols of the grammar, and is the
    reference order: integers by value, with 0 for no precedence; otherwise by
    the first list of precedences that names both sides, in which the side named
    first is greater.  Swapping the sides reverses the answer when no entry of
    the lists names both. *)
Theorem compare_precedence_correct (E : Type) (g : SyntaxGrammar) (left right : Precedence) (left_symbols right_symbols : list Symbol) :
  variables_known g left_symbols → variables_known g right_symbols →
  compare_precedence (E:=E) g left left_symbols right right_symbols = Ok (precedence_order g left left_symbols right right_symbols) ∧
  ((∀ l e, l ∈ sg_precedence_orderings g → e ∈ l → ¬ (stands_for g left left_symbols e ∧ stands_for g right right_symbols e)) →
   precedence_order g right right_symbols left left_symbols = CompOpp (precedence_order g left left_symbols right right_symbols)).
Proof.
  intros Hl Hr. split; [by apply compare_precedence_ok|]. intros Hex.
  assert (named_order g right right_symbols left left_symbols = CompOpp (named_order g left left_symbols right right_symbols)) as Hn.
  { unfold named_order. induction (sg_precedence_orderings g) as [|l ls IH]; [done|].
    assert (list_order g right right_symbols left left_symbols l = CompOpp <$> list_order g left left_symbols right right_symbols l) as Hlo.
    { assert (∀ p q s t, (∀ e, e ∈ l → ¬ (stands_for g p s e ∧ stands_for g q t e)) → list_find (is_right g p s q t) l = list_find (stands_for g q t) l) as Hf.
      { intros p q s t He. clear -He. induction l as [|e l IH]; [done|]. cbn. rewrite IH by (intros; apply He; set_solver).
        unfold is_right. specialize (He e (list_elem_of_here _ _)). repeat case_decide; naive_solver. }
      unfold list_order. rewrite !Hf by (intros e He; specialize (Hex l e (list_elem_of_here _ _) He); tauto).
      destruct (list_find (stands_for g left left_symbols) l) as [[i x]|] eqn:Hi, (list_find (stands_for g right right_symbols) l) as [[j y]|] eqn:Hj; try done.
      cbn. f_equal. apply list_find_Some in Hi as (Hi & Hxi & _). apply list_find_Some in Hj as (Hj & Hyj & _).
      repeat case_decide; try done; [lia|]. exfalso. assert (i = j) as -> by lia. assert (x = y) as -> by congruence.
      apply (Hex l y); [apply list_elem_of_here|by eapply list_elem_of_lookup_2|done]. }
    cbn. rewrite Hlo. destruct (list_order g left left_symbols right right_symbols l); [done|].
    apply IH. intros l' e Hl'. apply Hex. by apply list_elem_of_further. }
  unfold precedence_order. destruct (integer_of left) as [a|], (integer_of right) as [b|]; try done.
  repeat case_decide; try tauto. apply Z.compare_antisym.
Qed.

(** Named precedences above a rule, and a rule above another. *)
Definition precedence_example : SyntaxGrammar :=
  mkSyntaxGrammar [mkSyntaxVariable 1 Named; mkSyntaxVariable 2 Named] [] [] [] [] [] None
    [[PEName 3; PESymbol 1]; [PEName 4; PEName 3; PESymbol 2]; [PESymbol 1; PESymbol 2]]%N [] [] [] [].
Lemma compare_precedence_correct_witness :
  let first := [non_terminal 0] in let second := [non_terminal 1] in let cmp l r := compare_precedence (E:=Empty_set) precedence_example l first r second in
  cmp (PName 3) PNone = Ok Gt ∧ cmp (PName 3) (PName 4) = Ok Lt ∧ cmp PNone PNone = Ok Gt ∧ cmp (PInteger 2) PNone = Ok Gt ∧
  compare_precedence (E:=Empty_set) precedence_example PNone second (PName 4) first = Ok (CompOpp Gt).
Proof.
  assert (∀ v, (v < 2)%N → variables_known precedence_example [non_terminal v]) as Hk.
  { intros v Hv s ->%list_elem_of_singleton. cbn. rewrite wrap_u32_small by (unfold U32; lia). lia. }
  cbv zeta. split_and!; try (etrans; [apply (compare_precedence_correct Empty_set precedence_example); apply Hk; lia|vm_compute; reflexivity]).
Defined.
End Precedences.
