(* ===== verification/BuildStates.v ===== *)
(** * [build_tables/build_parse_table.rs]: the states of the table

    [add_parse_state] finds the state of an item set or makes one.  The states,
    their item sets and their cores stay numbered by their positions, and no two
    states have equal item sets. *)
From S2P Require Import Prelude BitVec Symbols TokenSet Ordering StrPool Grammars Lookaheads Items ItemSets FirstSets FollowSets Additions Tables Outcomes BuildTable.
Import PT.

(** ** Comparing by keys *)
Section keys.
Context {E A K : Type} `{EqDecision K} (eq : A → A → outcome E bool) (key : A → K).
Lemma elems_eq_spec a b : (∀ x y, x ∈ a → y ∈ b → eq x y = Ok (bool_decide (key x = key y))) → length a = length b →
  elems_eq eq a b = Ok (bool_decide (key <$> a = key <$> b)).
Proof.
  revert b. induction a as [|x a IH]; intros [|y b] Heq Hl; try done.
  cbn [elems_eq]. rewrite Heq by apply list_elem_of_here. cbn [mbind outcome_bind].
  case_bool_decide as Hk.
  - rewrite IH by (cbn in Hl; try lia; intros; apply Heq; by apply list_elem_of_further). f_equal. apply bool_decide_ext.
    cbn. rewrite Hk. split; [by intros ->|by intros [= ?]].
  - f_equal. rewrite bool_decide_false; [done|]. cbn. by intros [= ? _].
Qed.
Lemma slice_eq_spec a b : (∀ x y, x ∈ a → y ∈ b → eq x y = Ok (bool_decide (key x = key y))) →
  slice_eq eq a b = Ok (bool_decide (key <$> a = key <$> b)).
Proof.
  intros Heq. unfold slice_eq. destruct (Nat.eqb_spec (length a) (length b)) as [Hl|Hl]; [by apply elems_eq_spec|].
  rewrite bool_decide_false; [done|]. intros Hk%(f_equal length). by rewrite !length_fmap in Hk.
Qed.
Lemma map_find_spec {V} (m : list (A * V)) k : (∀ e, e ∈ m → eq e.1 k = Ok (bool_decide (key e.1 = key k))) →
  map_find eq m k = Ok ((λ x, x.2.2) <$> list_find (λ e, key e.1 = key k) m).
Proof.
  induction m as [|[k' v] m IH]; intros Heq; [done|]. cbn [map_find list_find].
  pose proof (Heq _ (list_elem_of_here _ _)) as Hx. cbn [fst] in Hx. rewrite Hx. cbn [mbind outcome_bind fst].
  destruct (decide (key k' = key k)) as [Hk|Hk]; [by rewrite bool_decide_true|]. rewrite bool_decide_false by done.
  rewrite IH by (intros; apply Heq; by apply list_elem_of_further). f_equal. by destruct (list_find _ m) as [[? ?]|].
Qed.
End keys.

(** What item sets and cores are compared by. *)
Definition entry_key (e : Item.ParseItemSetEntry) : Item.rank * N * N :=
  (Item.entry_rank e, Item.lookaheads e, Item.following_reserved_word_set e).
Definition set_key (s : Item.ParseItemSet) : list (Item.rank * N * N) := entry_key <$> Item.entries s.
Definition core_key (c : Item.ParseItemSetCore) : list Item.rank := Item.item_rank <$> c.

Section states.
Context {H : Type} (str_pool : StrPool H) (g : SyntaxGrammar) (n_terminals : nat).
Context {I : Type}.
Context (inlines : InlinedProductionMap) (key_map : Item.ItemKeyMap) (items_bound : nat).
Context (Hin : inputs_ok str_pool g n_terminals inlines key_map items_bound).
Notation item_ok := (Item.item_ok g key_map).

Lemma item_set_eq_spec {E} s t : (∀ e, Item.has s e → item_ok (Item.item e)) → (∀ e, Item.has t e → item_ok (Item.item e)) →
  item_set_eq (E:=E) s t = Ok (bool_decide (set_key s = set_key t)).
Proof.
  intros Hs Ht. unfold item_set_eq. apply slice_eq_spec. intros x y Hx Hy. unfold entry_eq.
  rewrite (Item.item_eq_ok str_pool g key_map (in_keys _ _ _ _ _ _ Hin)) by (first [by apply Hs|by apply Ht]). cbn [mbind outcome_bind]. f_equal.
  unfold entry_key, Item.entry_rank. symmetry. destruct (decide (Item.item_rank (Item.item x) = Item.item_rank (Item.item y))) as [Hr|Hr].
  - rewrite (bool_decide_true (_ = _ :> Item.rank)) by done. cbn [andb].
    destruct (N.eqb_spec (Item.lookaheads x) (Item.lookaheads y)); cbn [andb]; [|apply bool_decide_false; congruence].
    destruct (N.eqb_spec (Item.following_reserved_word_set x) (Item.following_reserved_word_set y));
      [apply bool_decide_true|apply bool_decide_false]; congruence.
  - rewrite (bool_decide_false (_ = _ :> Item.rank)) by done. cbn [andb]. apply bool_decide_false. congruence.
Qed.
Lemma core_eq_spec {E} c d : Forall item_ok c → Forall item_ok d → core_eq (E:=E) c d = Ok (bool_decide (core_key c = core_key d)).
Proof.
  rewrite !Forall_forall. intros Hc Hd. unfold core_eq. apply slice_eq_spec. intros x y Hx Hy.
  apply (Item.item_eq_ok str_pool g key_map (in_keys _ _ _ _ _ _ Hin)); [by apply Hc|by apply Hd].
Qed.

(** The states, their item sets and their cores. *)
Record states_ok (b : ParseTableBuilder I) : Prop := {
  st_items : ∀ i s id, state_ids_by_item_set b !! i = Some (s, id) → ∀ e, Item.has s e → item_ok (Item.item e);
  st_ids : ∀ i s id, state_ids_by_item_set b !! i = Some (s, id) → id = N.of_nat i;
  st_distinct : NoDup ((λ e, set_key e.1) <$> state_ids_by_item_set b);
  st_length : length (pt_states (parse_table b)) = length (state_ids_by_item_set b);
  st_symbols : length (preceding_symbols_by_id b) = length (state_ids_by_item_set b);
  st_small : (N.of_nat (length (state_ids_by_item_set b)) < U32)%N;
  st_core_items : ∀ k c id, core_ids_by_core b !! k = Some (c, id) → Forall item_ok c;
  st_core_ids : ∀ k c id, core_ids_by_core b !! k = Some (c, id) → id = N.of_nat k;
  st_core_distinct : NoDup ((λ e, core_key e.1) <$> core_ids_by_core b);
  st_core_small : length (core_ids_by_core b) ≤ length (state_ids_by_item_set b);
  st_states : ∀ i s id, state_ids_by_item_set b !! i = Some (s, id) → ∃ st c, pt_states (parse_table b) !! i = Some st ∧
    ps_id st = id ∧ (c, core_id st) ∈ core_ids_by_core b ∧ core_key c = core_key (Item.core s);
  st_core_used : ∀ c k, (c, k) ∈ core_ids_by_core b → ∃ st, st ∈ pt_states (parse_table b) ∧ core_id st = k;
}.

(** A builder with one more state, which is empty and is queued. *)
Record added (b : ParseTableBuilder I) (path : list Symbol) (aux : list AuxiliarySymbolInfo) (s : Item.ParseItemSet) (id : N)
    (b' : ParseTableBuilder I) : Prop := {
  ad_id : id = N.of_nat (length (state_ids_by_item_set b));
  ad_builder : item_set_builder b' = item_set_builder b;
  ad_sets : state_ids_by_item_set b' = state_ids_by_item_set b ++ [(s, id)];
  ad_symbols : preceding_symbols_by_id b' = preceding_symbols_by_id b ++ [path];
  ad_prods : production_info_ids_by_prod_id b' = production_info_ids_by_prod_id b;
  ad_queue : parse_state_queue b' = parse_state_queue b ++ [mkQueueEntry id aux];
  ad_extras : non_terminal_extra_states b' = non_terminal_extra_states b;
  ad_conflicts : actual_conflicts b' = actual_conflicts b;
  ad_states : ∃ c, parse_table b' = table_with_states (parse_table b)
    (pt_states (parse_table b) ++ [mkParseState id [] [] TokenSet.new 0 0 c false]);
}.

Lemma add_parse_state_spec {E} b path aux s :
  states_ok b → (∀ e, Item.has s e → item_ok (Item.item e)) → (N.of_nat (S (length (state_ids_by_item_set b))) < U32)%N →
  ∃ id b', add_parse_state (E:=E) b path aux s = Ok (id, b') ∧ states_ok b' ∧
    (∃ s', state_ids_by_item_set b' !! N.to_nat id = Some (s', id) ∧ set_key s' = set_key s) ∧
    (b' = b ∨ added b path aux s id b').
Proof.
  intros Hb Hs Hsmall. unfold add_parse_state.
  rewrite (map_find_spec _ set_key) by (intros [t id] [i Hi]%list_elem_of_lookup; apply item_set_eq_spec; [by eapply (st_items b Hb)|done]).
  cbn [mbind outcome_bind]. destruct (list_find _ (state_ids_by_item_set b)) as [[i [t id]]|] eqn:Hf; cbn [fmap option_fmap option_map fst snd].
  { apply list_find_Some in Hf as (Hi & Hk & _). pose proof (st_ids b Hb _ _ _ Hi) as ->. exists (N.of_nat i), b.
    split_and!; [done|done|exists t; by rewrite Nat2N.id|by left]. }
  rewrite list_find_None, Forall_forall in Hf.
  assert (Forall item_ok (Item.core s)) as Hcs.
  { apply Forall_forall. intros x (e & -> & He)%list_elem_of_fmap. by apply Hs. }
  rewrite (map_find_spec _ core_key) by (intros [c k] [j Hj]%list_elem_of_lookup; apply core_eq_spec; [by eapply (st_core_items b Hb)|done]).
  cbn [mbind outcome_bind]. pose proof (st_length b Hb) as Hl. pose proof (st_core_small b Hb) as Hcl.
  assert (as_u32 (length (pt_states (parse_table b))) = N.of_nat (length (state_ids_by_item_set b))) as Hid.
  { rewrite Hl. apply N2Nat.inj. rewrite Nat2N.id. apply as_u32_small. lia. }
  assert (as_u32 (length (core_ids_by_core b)) = N.of_nat (length (core_ids_by_core b))) as Hcid.
  { apply N2Nat.inj. rewrite Nat2N.id. apply as_u32_small. lia. }
  rewrite Hid, Hcid. set (id := N.of_nat (length (state_ids_by_item_set b))).
  set (found := (λ x, x.2.2) <$> list_find _ (core_ids_by_core b)).
  assert (∃ core cores c, match found with Some k => (k, core_ids_by_core b) | None => (N.of_nat (length (core_ids_by_core b)), core_ids_by_core b ++ [(Item.core s, N.of_nat (length (core_ids_by_core b)))]) end = (core, cores) ∧
    (cores = core_ids_by_core b ∨ cores = core_ids_by_core b ++ [(Item.core s, core)] ∧ core = N.of_nat (length (core_ids_by_core b)) ∧
       core_key (Item.core s) ∉ (λ e, core_key e.1) <$> core_ids_by_core b) ∧
    (c, core) ∈ cores ∧ core_key c = core_key (Item.core s)) as (core & cores & c & -> & Hor & Hc & Hck).
  { subst found. destruct (list_find _ (core_ids_by_core b)) as [[j [c k]]|] eqn:Hfc; cbn.
    - apply list_find_Some in Hfc as (Hj & Hk & _). exists k, (core_ids_by_core b), c.
      split_and!; [done|by left|by eapply list_elem_of_lookup_2|done].
    - eexists _, _, (Item.core s). split_and!; [done| |set_solver|done]. right. split_and!; [done|done|].
      rewrite list_find_None, Forall_forall in Hfc. intros (e & ? & He)%list_elem_of_fmap. by apply (Hfc e He). }
  eexists id, _. split; [reflexivity|]. split; [|split].
  - split; cbn; rewrite ?length_app; cbn [length].
    + intros i s0 id0 [[_ Hi]|[_ [= <- <-]]]%lookup_snoc_Some; [by eapply (st_items b Hb)|done].
    + intros i s0 id0 [[_ Hi]|[Hi [= <- <-]]]%lookup_snoc_Some; [by eapply (st_ids b Hb)|]. by subst i.
    + rewrite fmap_app. apply NoDup_app. split_and!; [apply Hb| |apply NoDup_singleton].
      intros k (e & -> & He)%list_elem_of_fmap Hin'%list_elem_of_singleton. by apply (Hf e He).
    + lia.
    + rewrite (st_symbols b Hb). lia.
    + replace (N.of_nat (length (state_ids_by_item_set b) + 1)) with (N.of_nat (S (length (state_ids_by_item_set b)))) by lia. done.
    + intros k c' id' Hk. destruct Hor as [->|(-> & -> & _)]; [by eapply (st_core_items b Hb)|].
      apply lookup_snoc_Some in Hk as [[_ Hk]|[_ [= <- <-]]]; [by eapply (st_core_items b Hb)|done].
    + intros k c' id' Hk. destruct Hor as [->|(-> & Hco & _)]; [by eapply (st_core_ids b Hb)|].
      apply lookup_snoc_Some in Hk as [[_ Hk]|[-> [= <- <-]]]; [by eapply (st_core_ids b Hb)|done].
    + destruct Hor as [->|(-> & _ & Hnew)]; [apply Hb|]. rewrite fmap_app. apply NoDup_app. split_and!; [apply Hb| |apply NoDup_singleton].
      intros k Hk ->%list_elem_of_singleton. done.
    + destruct Hor as [->|[-> _]]; rewrite ?length_app; cbn [length]; lia.
    + intros i s0 id0 [[_ Hi]|[-> [= <- <-]]]%lookup_snoc_Some.
      * destruct (st_states b Hb _ _ _ Hi) as (st & c' & Hst & Hps & Hcin & Hcc). exists st, c'.
        split_and!; [by apply lookup_app_l_Some|done| |done]. destruct Hor as [->|[-> _]]; set_solver.
      * eexists _, c. split_and!; [rewrite <- Hl; apply list_lookup_middle; done|done|done|done].
    + intros c' k Hk. destruct Hor as [->|[-> _]].
      * destruct (st_core_used b Hb _ _ Hk) as (st & Hst & ?). exists st. split; [set_solver|done].
      * apply elem_of_app in Hk as [Hk|[= -> ->]%list_elem_of_singleton].
        -- destruct (st_core_used b Hb _ _ Hk) as (st & Hst & ?). exists st. split; [set_solver|done].
        -- eexists. split; [apply elem_of_app; right; apply list_elem_of_here|done].
  - exists s. split; [|done]. cbn. subst id. rewrite Nat2N.id. by apply list_lookup_middle.
  - right. split; cbn; try done. by exists core.
Qed.
End states.
