(* ===== verification/BuildClosure.v ===== *)
(** * [build_tables/build_parse_table.rs]: what the builder needs of its inputs, and
    closures as it uses them

    Where the items of a closure come from: the entries of the set, with inlined
    productions in place, or the productions of the variables that they expand;
    and that an auxiliary variable is only expanded where an item needs it. *)
From S2P Require Import Prelude BitVec Symbols TokenSet Ordering StrPool Grammars Lookaheads Items ItemSets FirstSets FollowSets Additions Closure Tables Outcomes BuildTable BuildStates.
Import PT Builder.

(** ** Predicates kept by a closure *)
Section keeps.
Context (P : Item.ParseItem → Prop) (R : N → Prop) (HR : R 0%N).
Definition keeps (s : Item.ParseItemSet) : Prop :=
  Item.set_ok s ∧ ∀ e, Item.has s e → P (Item.item e) ∧ R (Item.following_reserved_word_set e).
Lemma keeps_empty : keeps (Item.mkItemSet []).
Proof. split; [split; constructor|]. by intros e ?%not_elem_of_nil. Qed.
Lemma upsert_keeps {E} s i : keeps s → Item.keyed i → P i →
  ∃ j s' e, Item.item_set_insert (E:=E) s i = Ok (j, s') ∧ Item.entries s' !! j = Some e ∧ R (Item.following_reserved_word_set e) ∧
    ∀ e', Item.item e' = Item.item e → R (Item.following_reserved_word_set e') → keeps (Item.update_entry s' j e').
Proof.
  intros [Hs Hk] Hi HP. destruct (Item.upsert_spec (E:=E) s i Hs Hi) as (j & s' & e & Hins & He & _ & _ & Hor & Hup).
  exists j, s', e. assert (P (Item.item e) ∧ R (Item.following_reserved_word_set e)) as [HPe HRe].
  { destruct Hor as [Hh|[-> _]]; [by apply Hk|done]. }
  split_and!; [done|done|done|]. intros e' Hie HRe'. destruct (Hup e' Hie) as [Hok Hhas]. split; [done|].
  intros a [->|[Ha _]]%Hhas; [by rewrite Hie|by apply Hk].
Qed.
Lemma max_keeps a b : R a → R b → R (N.max a b).
Proof. intros ? ?. destruct (N.max_spec a b) as [[_ ->]|[_ ->]]; done. Qed.

Context (g : SyntaxGrammar) {I : Type} {IS : IndexSet I}.
Lemma apply_addition_keeps {E} following r (st st' : @closing I) a :
  keeps st.2 → Item.keyed (ta_item a) → P (ta_item a) → R (ai_reserved_lookaheads (ta_info a)) → R r →
  apply_addition (E:=E) g following r st a = Ok st' → keeps st'.2.
Proof.
  destruct st as [p s]. cbn [snd]. intros Hs Hi HP Ha Hr Happ. unfold apply_addition in Happ.
  destruct (upsert_keeps (E:=E) s _ Hs Hi HP) as (j & s' & e & Hins & He & HRe & Hup).
  rewrite Hins in Happ. cbn [mbind outcome_bind] in Happ. rewrite (vec_get_Some _ _ _ He) in Happ. cbn [mbind outcome_bind] in Happ.
  apply bind_Ok_inv in Happ as ([id p'] & _ & Happ).
  destruct (ai_contains_word (ta_info a)), (ai_propagates_lookaheads (ta_info a));
    [apply bind_Ok_inv in Happ as ([id' p''] & _ & Happ); apply bind_Ok_inv in Happ as ([] & _ & Happ)|
    |apply bind_Ok_inv in Happ as ([id' p''] & _ & Happ); apply bind_Ok_inv in Happ as ([] & _ & Happ)|];
    injection Happ as <-; cbn [snd]; (apply Hup; [done|]); cbn; auto using max_keeps.
Qed.
Lemma apply_additions_keeps {E} following r (st st' : @closing I) adds :
  keeps st.2 → (∀ a, a ∈ adds → Item.keyed (ta_item a) ∧ P (ta_item a) ∧ R (ai_reserved_lookaheads (ta_info a))) → R r →
  for_each (apply_addition (E:=E) g following r) st adds = Ok st' → keeps st'.2.
Proof.
  revert st. induction adds as [|a adds IH]; intros st Hs Ha Hr Hf; cbn in Hf; [by injection Hf as <-|].
  apply bind_Ok_inv in Hf as (st1 & Hf1 & Hf). destruct (Ha a) as (? & ? & ?); [apply list_elem_of_here|].
  apply (IH st1); [|intros; apply Ha; by apply list_elem_of_further|done|done].
  eapply apply_addition_keeps; [exact Hs| | | |exact Hr|exact Hf1]; done.
Qed.
(** The items that an entry can add. *)
Lemma add_item_keeps {E} (b b' : ParseItemSetBuilder I) s s' k :
  keeps s → Item.keyed (Item.item k) → P (Item.item k) → R (Item.following_reserved_word_set k) →
  (∀ x r, reserved_first_sets (symbol_sets b) !! x = Some r → R r) →
  (∀ step v adds, Item.item_step (E:=E) (Item.item k) g = Ok (Some step) → step_symbol step = mkSymbol NonTerminal v →
     transitive_closure_additions b !! N.to_nat v = Some adds →
     ∀ a, a ∈ adds → Item.keyed (ta_item a) ∧ P (ta_item a) ∧ R (ai_reserved_lookaheads (ta_info a))) →
  add_item (E:=E) g b s k = Ok (b', s') → keeps s' ∧ symbol_sets b' = symbol_sets b ∧ transitive_closure_additions b' = transitive_closure_additions b.
Proof.
  intros Hs Hi HP Hr Hres Hadds Happ. unfold add_item in Happ.
  apply bind_Ok_inv in Happ as (step & Hstep & Happ). apply bind_Ok_inv in Happ as ([p s1] & Hs1 & Happ).
  assert (keeps s1) as Hk1.
  { destruct step as [step|]; [|by injection Hs1 as _ <-]. destruct (is_non_terminal (step_symbol step)) eqn:Hnt; [|by injection Hs1 as _ <-].
    unfold is_non_terminal in Hnt. apply bool_decide_eq_true in Hnt. destruct (step_symbol step) as [kd v] eqn:Hsym. cbn in Hnt. subst kd.
    apply bind_Ok_inv in Hs1 as (next & _ & Hs1). apply bind_Ok_inv in Hs1 as ([tokens r] & Hnext & Hs1).
    apply bind_Ok_inv in Hs1 as (adds & Hget & Hs1). apply vec_get_Ok in Hget. cbn [index] in Hget.
    change s1 with (p, s1).2. eapply (apply_additions_keeps tokens r (pool b, s) (p, s1) adds); [done|by eapply Hadds| |done].
    destruct next as [next|]; [|by injection Hnext as _ <-]. apply bind_Ok_inv in Hnext as (id & _ & Hnext).
    apply bind_Ok_inv in Hnext as (r' & Hr' & Hnext). injection Hnext as _ <-. apply unwrap_Ok in Hr'. by eapply Hres. }
  destruct (upsert_keeps (E:=E) s1 _ Hk1 Hi HP) as (j & s2 & e & Hins & He & HRe & Hup).
  rewrite Hins in Happ. cbn [mbind outcome_bind] in Happ. rewrite (vec_get_Some _ _ _ He) in Happ. cbn [mbind outcome_bind] in Happ.
  apply bind_Ok_inv in Happ as ([id p'] & _ & Happ). injection Happ as <- <-. cbn. split_and!; [|done|done].
  apply Hup; [done|]. cbn. by apply max_keeps.
Qed.
End keeps.

(** ** Closures *)
Section closures.
Context {H : Type} (str_pool : StrPool H) (g : SyntaxGrammar) (n_terminals : nat).
Context {I : Type} {IS : IndexSet I} {MI : MapIter}.
Context (inlines : InlinedProductionMap) (key_map : Item.ItemKeyMap) (items_bound : nat).
Context (Hin : inputs_ok str_pool g n_terminals inlines key_map items_bound).
Notation item_ok := (Item.item_ok g key_map).
Notation pool_t := (Lookahead.LookaheadSetPool I).
Notation pool_len p := (length (is_elems (Lookahead.sets p))).

(** Ids of reserved word sets that exist, when there is a word token. *)
Definition reserved_known (n : N) : Prop := word_token g ≠ None → N.to_nat n < length (reserved_word_sets g).
Context (Hreserved : reserved_known 0 ∧ ∀ id s, N.to_nat id < length (sg_productions g) → s ∈ steps_at g id → reserved_known (step_reserved s)).
Lemma reserved_known_le m n : (m ≤ n)%N → reserved_known n → reserved_known m.
Proof. intros Hle Hn Hw. specialize (Hn Hw). lia. Qed.

Lemma reserving_known x n : reserving g x n → reserved_known n.
Proof.
  intros (_ & s & (w & _ & (id & Hid & Hs)) & Hle). eapply reserved_known_le; [exact Hle|].
  apply (proj2 Hreserved id); [by eapply (var_ids_known _ _ (in_symbols _ _ _ _ _ _ Hin))|by eapply head_in].
Qed.
Lemma first_atom_known x n : first_atom g x (AReserved n) → reserved_known n.
Proof. intros [_ Hr]. by eapply reserving_known. Qed.
Lemma follows_known v x a : follows g v x a → match a with AReserved n => reserved_known n | _ => True end.
Proof.
  induction 1 as [|w id x a _ _ _ Hg|]; [done| |done]. destruct a as [t| |n]; try done. unfold gives in Hg.
  destruct (steps_at g id !! 1); [by eapply first_atom_known|by destruct Hg].
Qed.

(** The closure of [s], with the lookaheads of pool [p]. *)
Definition origin (s : Item.ParseItemSet) : Item.ParseItem → Prop := in_closure g inlines key_map s.
Definition origin_token (p : pool_t) (s : Item.ParseItemSet) : Item.ParseItem → Symbol → Prop :=
  closure_token g inlines key_map (λ k, k ∈ kernel inlines key_map s) (tokens_of p).
Record is_closure (p : pool_t) (s C : Item.ParseItemSet) : Prop := {
  ic_set : Item.set_ok C;
  ic_items : ∀ e, Item.has C e → item_ok (Item.item e) ∧ ∃ X, Lookahead.stands p (Item.lookaheads e) X;
  ic_origin : ∀ e, Item.has C e → origin s (Item.item e);
  ic_complete : ∀ i, origin s i → ∃ e, Item.has C e ∧ Item.entry_rank e = Item.item_rank i;
  ic_tokens : ∀ e t, Item.has C e →
    (tokens_of p (Item.lookaheads e) t ↔ ∃ j, Item.item_rank j = Item.entry_rank e ∧ origin_token p s j t);
}.

(** More sets in the pool do not change a closure. *)
Definition entries_stand (p : pool_t) (s : Item.ParseItemSet) : Prop :=
  ∀ e, Item.has s e → item_ok (Item.item e) ∧ ∃ X, Lookahead.stands p (Item.lookaheads e) X.
Lemma tokens_of_grows p p' id t : Lookahead.grows p p' → (∃ X, Lookahead.stands p id X) → tokens_of p' id t ↔ tokens_of p id t.
Proof.
  intros Hg [X HX]. by rewrite (tokens_of_stands _ _ _ t HX), (tokens_of_stands _ _ _ t (Lookahead.stands_grows _ _ _ _ Hg HX)).
Qed.
Lemma kernel_stands p s k : entries_stand p s → k ∈ kernel inlines key_map s → item_ok (Item.item k) ∧ ∃ X, Lookahead.stands p (Item.lookaheads k) X.
Proof.
  intros Hs Hk. destruct (kernel_ok str_pool g n_terminals inlines key_map items_bound Hin s k) as [Hok (e & He & ->)];
    [intros e He; by apply Hs|done|]. split; [done|]. by apply Hs.
Qed.
Lemma followed_tokens (K : Item.ParseItemSetEntry → Prop) (T T' : LookaheadSetId → Symbol → Prop) x t :
  (∀ k t, K k → T (Item.lookaheads k) t → T' (Item.lookaheads k) t) →
  followed g K T x t → followed g K T' x t.
Proof.
  intros HT. induction 1 as [k x t Hk Hx Ha|w id x t Hw Hid Hs Hg|w id x t _ IH Hid Hs Hp].
  - eapply followed_entry; [done|done|]. unfold after in *. destruct (steps_of g (Item.item k) !! _); [done|by apply HT].
  - by eapply followed_gives.
  - by eapply followed_passes.
Qed.
Lemma closure_token_tokens (K : Item.ParseItemSetEntry → Prop) (T T' : LookaheadSetId → Symbol → Prop) i t :
  (∀ k t, K k → T (Item.lookaheads k) t → T' (Item.lookaheads k) t) →
  closure_token g inlines key_map K T i t → closure_token g inlines key_map K T' i t.
Proof.
  intros HT. destruct 1 as [k t Hk Ht|x id Hx Hinl Hid He|x id t Hx Hinl Hid He].
  - apply closure_token_entry; [done|by apply HT].
  - by apply closure_token_eof.
  - apply closure_token_followed; [by eapply followed_tokens|done..].
Qed.
Lemma origin_token_grows p p' s j t : Lookahead.grows p p' → entries_stand p s → origin_token p' s j t ↔ origin_token p s j t.
Proof.
  intros Hg Hs. split; (apply closure_token_tokens; intros k t' Hk; apply (tokens_of_grows p p'); [done|by eapply kernel_stands]).
Qed.
Lemma is_closure_grows p p' s C : Lookahead.grows p p' → entries_stand p s → is_closure p s C → is_closure p' s C.
Proof.
  intros Hg Hs [H1 H2 H3 H4 H5]. split; [done| |done|done|].
  - intros e He. destruct (H2 e He) as [? [X HX]]. split; [done|]. exists X. by eapply Lookahead.stands_grows.
  - intros e t He. rewrite (tokens_of_grows p p') by (done || by apply H2). rewrite H5 by done.
    by setoid_rewrite (origin_token_grows p p' s _ t Hg Hs).
Qed.

(** The builder's tables only have reserved word sets that exist. *)
Lemma builder_reserved (b : ParseItemSetBuilder I) : builder_ok g n_terminals inlines key_map b →
  (∀ x r, reserved_first_sets (symbol_sets b) !! x = Some r → reserved_known r) ∧
  ∀ v adds a, transitive_closure_additions b !! N.to_nat v = Some adds → a ∈ adds →
    ∃ x id, addition_of g inlines v x id ∧ ta_item a = item_at key_map x id ∧ reserved_known (ai_reserved_lookaheads (ta_info a)).
Proof.
  intros [Hsets _ _ _ Hadds]. split.
  - intros x r Hr. destruct (decide (symbol_known g n_terminals x)) as [Hk|Hk].
    + destruct (Hsets x) as [Hx _]. destruct (Hx Hk) as [_ (r' & Hr' & Hm) _]. simplify_eq.
      destruct (decide (r = 0%N)) as [->|Hne]; [apply Hreserved|]. apply (reserving_known x), (Hm r); lia.
    + destruct (Hsets x) as [_ Hx]. destruct (Hx Hk) as (_ & Hno & _). congruence.
  - intros v adds a Hv Ha. destruct (Hadds v adds Hv) as [Hsound _]. destruct (Hsound a Ha) as (x & id & Hof & Hit & Hinfo).
    exists x, id. split_and!; [done|done|]. destruct (decide (ai_reserved_lookaheads (ta_info a) = 0%N)) as [->|Hne]; [apply Hreserved|].
    destruct Hinfo as [_ Hr _ _]. specialize (Hr (ai_reserved_lookaheads (ta_info a))).
    assert (addition_fact g v x id (AReserved (ai_reserved_lookaheads (ta_info a)))) as Hf by (apply Hr; lia).
    unfold addition_fact in Hf. destruct (pr_requires_eof_lookahead _); [done|]. exact (follows_known _ _ _ Hf).
Qed.

Lemma closing_keeps {E} s (b b' : ParseItemSetBuilder I) C : builder_ok g n_terminals inlines key_map b → entries_stand (pool b) s →
  (∀ e, Item.has s e → reserved_known (Item.following_reserved_word_set e)) →
  for_each (closing_step (E:=E) g) (b, Item.mkItemSet []) (kernel inlines key_map s) = Ok (b', C) →
  keeps (origin s) reserved_known C.
Proof.
  intros Hb Hs Hres Hfor. destruct (builder_reserved b Hb) as [Hfirst Hadds].
  assert (∀ ks b1 s1, (∀ k, k ∈ ks → k ∈ kernel inlines key_map s) → keeps (origin s) reserved_known s1 →
    symbol_sets b1 = symbol_sets b → transitive_closure_additions b1 = transitive_closure_additions b →
    for_each (closing_step (E:=E) g) (b1, s1) ks = Ok (b', C) → keeps (origin s) reserved_known C) as Hgen.
  { induction ks as [|k ks IH]; intros b1 s1 Hks H1 Hs1 Ha1 Hf; cbn in Hf; [by injection Hf as _ <-|].
    apply bind_Ok_inv in Hf as ([b2 s2] & Hstep & Hf). unfold closing_step in Hstep. cbn [fst snd] in Hstep.
    assert (k ∈ kernel inlines key_map s) as Hk by (apply Hks, list_elem_of_here).
    destruct (kernel_stands _ _ _ Hs Hk) as [Hki _].
    destruct (add_item_keeps (origin s) reserved_known (proj1 Hreserved) g (E:=E) b1 b2 s1 s2 k H1) as (H2 & Hs2 & Ha2);
      [by eapply (closure_keyed str_pool g n_terminals inlines key_map items_bound)|by constructor| | | |exact Hstep|].
    - destruct (proj1 (elem_of_concat _ _) Hk) as (l & (e & -> & He)%elem_of_map & (id & -> & _)%elem_of_map). exact (Hres e He).
    - intros x r. rewrite Hs1. apply Hfirst.
    - intros step v adds Hst Hsym. rewrite Ha1. intros Hv a Ha.
      rewrite (item_step_spec str_pool g n_terminals inlines key_map items_bound Hin) in Hst by done. injection Hst as Hst.
      destruct (Hadds v adds a Hv Ha) as (x & id & Hof & -> & Hr).
      pose proof (addition_item_ok str_pool g n_terminals inlines key_map items_bound Hin v x id Hof) as Hxi.
      split_and!; [by eapply (closure_keyed str_pool g n_terminals inlines key_map items_bound)| |done].
      destruct Hof as [Hl Hinl Hid]. constructor; [|done|done]. apply expanded_leads. exists k, v. split_and!; [done|by exists step|done].
    - apply (IH b2 s2); [intros; apply Hks; by apply list_elem_of_further|done|congruence|congruence|done]. }
  eapply (Hgen (kernel inlines key_map s)); [done|by apply keeps_empty|done|done|done].
Qed.

Lemma closure_spec {E} (b : ParseItemSetBuilder I) s :
  builder_ok g n_terminals inlines key_map b → entries_stand (pool b) s →
  (∀ e, Item.has s e → reserved_known (Item.following_reserved_word_set e)) → closure_room inlines key_map b s →
  ∃ b' C, transitive_closure (E:=E) g inlines key_map b s = Ok (b', C) ∧ builder_ok g n_terminals inlines key_map b' ∧
    Lookahead.grows (pool b) (pool b') ∧ is_closure (pool b') s C ∧
    ∀ e, Item.has C e → reserved_known (Item.following_reserved_word_set e).
Proof.
  intros Hb Hs Hres Hroom.
  rewrite (transitive_closure_kernel str_pool g n_terminals inlines key_map items_bound Hin) by (intros e ?; by apply Hs).
  destruct (closing_loop str_pool g n_terminals inlines key_map items_bound Hin (E:=E) b (kernel inlines key_map s)
    (list_max (map length (transitive_closure_additions b))) Hb) as (b' & C & Hfor & Hb' & Hgr & Hok & Hpr & Htok);
    [intros k Hk; by apply (kernel_stands _ s)|apply additions_max|done|].
  destruct (closing_keeps s b b' C Hb Hs Hres Hfor) as [Hset Hkeep]. destruct Hok as [_ _ _ _ Hent]. cbn [fst snd] in *.
  exists b', C. split_and!; [done|done|done| |by intros e He; apply Hkeep]. split; [done|exact Hent|by intros e He; apply Hkeep| |].
  - intros i Hi. destruct (proj2 (Hpr (Item.item_rank i))) as (e & He & Hr); [apply contributes_in_closure; by exists i|]. by exists e.
  - intros e t He. destruct (Hent e He) as [_ [X HX]]. rewrite (tokens_of_stands _ _ _ t HX).
    assert (t ∈ X ↔ token_of (pool b', C) (Item.entry_rank e) t) as ->.
    { rewrite <- (tokens_of_stands _ _ _ t HX). split; [by exists e|]. intros (a & Ha & Har & Hat). cbn in *.
      by rewrite (Item.has_unique C e a) by congruence. }
    rewrite Htok, contributes_lookahead. unfold origin_token. split; intros (j & H1 & H2); exists j.
    + split; [done|]. by apply (origin_token_grows (pool b)).
    + split; [|done]. by apply (origin_token_grows (pool b)) in H2.
Qed.
End closures.
