(* ===== verification/BuildInputs.v ===== *)
(** * [build_tables/build_parse_table.rs]: inputs and item sets

    What the builder needs of the grammar, what holds of the item sets of its
    states, and of their closures. *)
From S2P Require Import Prelude BitVec Symbols TokenSet Ordering StrPool Grammars Lookaheads Items ItemSets FirstSets FollowSets Additions Closure Tables Outcomes BuildTable BuildStates BuildClosure.
Import PT Builder.

Section inputs.
Context {H : Type} (str_pool : StrPool H) (g : SyntaxGrammar) (lg : LexicalGrammar).
Context {F : Type} (variable_info : list (VariableInfo F)).
Context (inlines : InlinedProductionMap) (key_map : Item.ItemKeyMap) (items_bound : nat).
Notation n_terminals := (length (lg_variables lg)).
Notation n_prods := (length (sg_productions g)).
Notation steps_at := (FirstSets.steps_at g).

(** A variable for a repetition. *)
Definition auxiliary (v : N) : Prop := ∃ x, sg_variables g !! N.to_nat v = Some x ∧ is_auxiliary x = true.
(** The variables that a variable to inline can begin with, through others like it. *)
Inductive unfolds (w : N) : N → Prop :=
  | unfolds_first id x : id ∈ var_ids g w → starts_with g id x → unfolds w x
  | unfolds_next y id x : unfolds w y → inlined g y → id ∈ var_ids g y → starts_with g id x → unfolds w x.

(** The production is by itself the start variable. *)
Definition is_start (id : N) : Prop := starts_with g id 0 ∧ steps_at id !! 1 = None.
(** The variables that can be last in the input: the start variable, and a variable that by
    itself is a production of such a one, or a production that must end the input. *)
Inductive ends_input : N → Prop :=
  | ends_start : ends_input 0
  | ends_whole w id x : ends_input w ∨ pr_requires_eof_lookahead (FirstSets.prod_at g id) = true → id ∈ var_ids g w →
      starts_with g id x → steps_at id !! 1 = None → ends_input x.
(** A production mentions the variable. *)
Definition mentioned (v : N) : Prop :=
  ∃ id s, N.to_nat id < n_prods ∧ s ∈ steps_at id ∧ step_symbol s = mkSymbol NonTerminal v.
Notation items_of := (items_of g inlines).
(** The steps before the dot are not variables to inline. *)
Definition plain_before (steps : list ProductionStep) (d : nat) : Prop :=
  ∀ j s w, j < d → steps !! j = Some s → step_symbol s = mkSymbol NonTerminal w → ¬ inlined g w.

(** The grammar is that of [inputs_ok], names can be read,
    the start variable is not inlined and is not a repetition ([intern_symbols] refuses a
    hidden start rule),
    extra symbols and the symbols of conflicts exist, and reserved word sets do; a variable
    among the extra symbols has no empty production; and the inlined
    productions are those of the variables to inline: they agree up to the dot, do
    not go on with such a variable, and go on with every repetition that it
    can begin with.

    Productions can be empty, as flattening leaves them: those of a start rule that
    matches nothing, and those that must end the input.  Where the start variable is
    itself the beginning of a production, so that there are other items after it, no
    item has an empty production there, and no variable that can end the input is by itself the
    start variable ([validate_indirect_recursion] refuses such a cycle): nothing else
    is reduced where the input is accepted. *)
Record table_inputs : Prop := {
  ti_inputs : inputs_ok str_pool g n_terminals inlines key_map items_bound;
  ti_variables : ∀ v, v ∈ sg_variables g → Item.readable str_pool (sv_name v);
  ti_lexical : ∀ v, v ∈ lg_variables lg → Item.readable str_pool (lv_name v);
  ti_externals : ∀ t, t ∈ external_tokens g → Item.readable str_pool (et_name t);
  ti_info : length variable_info = n_vars g;
  ti_start_kind : ¬ auxiliary 0;
  ti_start_first : ∀ id, N.to_nat id < n_prods → starts_with g id 0 →
    (∀ v i, mentioned v → i ∈ items_of v → steps_at i ≠ []) ∧
    ∀ ids i, inlines !! (id, 1%N) = Some ids → i ∈ ids → is_Some (steps_at i !! 1);
  ti_start_cycle : ∀ v id, id ∈ items_of v → is_start id →
    ¬ ends_input v ∧ pr_requires_eof_lookahead (FirstSets.prod_at g id) = false;
  ti_start_inline : ¬ inlined g 0 ∧ ∀ d, inlines !! (Item.START_PRODUCTION_ID, d) = None;
  ti_extras : ∀ x, x ∈ extra_symbols g → symbol_known g n_terminals x ∧
    (kind x = NonTerminal → ¬ auxiliary (index x) ∧ ∀ id, id ∈ var_ids g (index x) → steps_at id ≠ []);
  ti_conflicts : ∀ c x, c ∈ expected_conflicts g → x ∈ c → symbol_known g n_terminals x;
  ti_reserved : reserved_known g 0 ∧ ∀ id s, N.to_nat id < n_prods → s ∈ steps_at id → reserved_known g (step_reserved s);
  ti_inline_key : ∀ id d ids, N.to_nat id < n_prods → inlines !! (id, d) = Some ids →
    ∃ s w, steps_at id !! N.to_nat d = Some s ∧ step_symbol s = mkSymbol NonTerminal w ∧ inlined g w;
  ti_inline_some : ∀ id d s w, N.to_nat id < n_prods → steps_at id !! N.to_nat d = Some s → step_symbol s = mkSymbol NonTerminal w →
    inlined g w → plain_before (steps_at id) (N.to_nat d) → is_Some (inlines !! (id, d));
  ti_inline_prefix : ∀ id d ids i, inlines !! (id, d) = Some ids → i ∈ ids →
    take (N.to_nat d) (map step_symbol (steps_at i)) = take (N.to_nat d) (map step_symbol (steps_at id));
  ti_inline_next : ∀ id d ids i s w, inlines !! (id, d) = Some ids → i ∈ ids → steps_at i !! N.to_nat d = Some s →
    step_symbol s = mkSymbol NonTerminal w → ¬ inlined g w;
  ti_inline_aux : ∀ id d ids s w x, N.to_nat id < n_prods → inlines !! (id, d) = Some ids → steps_at id !! N.to_nat d = Some s →
    step_symbol s = mkSymbol NonTerminal w → unfolds w x → auxiliary x → ¬ inlined g x →
    ∃ i t, i ∈ ids ∧ steps_at i !! N.to_nat d = Some t ∧ step_symbol t = mkSymbol NonTerminal x;
}.
Context (Hti : table_inputs).
Notation Hin := (ti_inputs Hti).
Notation item_ok := (Item.item_ok g key_map).

(** ** Items *)
Definition next_symbol (i : Item.ParseItem) : option Symbol := step_symbol <$> steps_of g i !! N.to_nat (Item.step_index i).
Definition prev_symbol (i : Item.ParseItem) : option Symbol := step_symbol <$> steps_of g i !! (N.to_nat (Item.step_index i) - 1).
Definition clean (i : Item.ParseItem) : Prop := plain_before (steps_of g i) (N.to_nat (Item.step_index i)).
(** The start item, or an item of a variable. *)
Definition item_of_grammar (i : Item.ParseItem) : Prop :=
  Item.variable_index i = (U32 - 1)%N ∧ Item.prod_id i = Item.START_PRODUCTION_ID ∨
  N.to_nat (Item.variable_index i) < n_vars g ∧ N.to_nat (Item.prod_id i) < n_prods.

Lemma n_vars_small : (N.of_nat (n_vars g) < U32 - 1)%N.
Proof. pose proof (in_room _ _ _ _ _ _ Hin). lia. Qed.
Lemma n_prods_small : (N.of_nat n_prods < U32 - 1)%N.
Proof.
  pose proof (Item.slot_count_le g). pose proof (Item.go_count _ _ (in_grammar _ _ _ _ _ _ Hin)). unfold Item.slot_count in *. lia.
Qed.
Lemma augmented_spec i : item_of_grammar i → Item.is_augmented i = true ↔ Item.prod_id i = Item.START_PRODUCTION_ID.
Proof.
  pose proof n_vars_small. pose proof n_prods_small. unfold Item.is_augmented, Item.START_PRODUCTION_ID in *.
  intros [[-> ->]|[Hv Hp]]; [by rewrite N.eqb_refl|]. rewrite N.eqb_eq. lia.
Qed.
Lemma steps_of_start i : Item.prod_id i = Item.START_PRODUCTION_ID → steps_of g i = Item.START_STEPS.
Proof. intros Hp. unfold steps_of, Item.slot_of. by rewrite Hp. Qed.
Lemma steps_of_prod i : N.to_nat (Item.prod_id i) < n_prods → steps_of g i = steps_at (Item.prod_id i).
Proof. intros Hp. unfold steps_of, FirstSets.steps_at, FirstSets.prod_at. by rewrite (slot_of_known str_pool g n_terminals inlines key_map items_bound Hin). Qed.
Lemma item_dot i : item_ok i → N.to_nat (Item.step_index i) ≤ length (steps_of g i).
Proof.
  intros [[_ Hd] _]. cbn in Hd. rewrite Nat2N.id in Hd. unfold Item.dots in Hd. unfold steps_of. lia.
Qed.
Lemma next_known i X : item_ok i → next_symbol i = Some X → symbol_known g n_terminals X.
Proof.
  intros Hi (s & Hs & ->)%fmap_Some. eapply (steps_of_known str_pool g n_terminals inlines key_map items_bound Hin); [done|].
  by eapply list_elem_of_lookup_2.
Qed.
Lemma next_var_symbol i x : next_var g i x ↔ next_symbol i = Some (mkSymbol NonTerminal x).
Proof. unfold next_var, next_symbol. rewrite fmap_Some. naive_solver. Qed.

(** Items of one rank are of the same variable and go on alike. *)
Lemma rank_symbols a b k : item_ok a → item_ok b → Item.item_rank a = Item.item_rank b → N.to_nat (Item.step_index a) ≤ k →
  step_symbol <$> steps_of g a !! k = step_symbol <$> steps_of g b !! k.
Proof.
  intros Ha Hb Hr Hk0. apply (Item.item_rank_same str_pool g key_map (in_keys _ _ _ _ _ _ Hin) a b Ha Hb) in Hr as (Hs & _ & _ & Hc & _).
  unfold Item.item_content, Item.id_key, Item.rank_key, Item.key_of in Hc. cbn in Hc. rewrite !Nat2N.id in Hc.
  injection Hc as _ _ _ _ _ Hd Hk. unfold steps_of. rewrite <- Hs in *.
  apply (f_equal (.!! k)) in Hk. unfold Item.steps_keys in Hk. rewrite !list_lookup_imap in Hk. cbn [plus] in Hk.
  assert (k <? N.to_nat (Item.step_index a) = false) as Hlt by (apply Nat.ltb_ge; lia). rewrite Hlt in Hk. revert Hk.
  destruct (pr_steps (Item.the_prod g (Item.slot_of (Item.prod_id a))) !! _) as [x|], (pr_steps (Item.the_prod g (Item.slot_of (Item.prod_id b))) !! _) as [y|]; cbn; try done.
  unfold Item.next_step_key. congruence.
Qed.
Lemma rank_fields a b : Item.item_rank a = Item.item_rank b → Item.step_index a = Item.step_index b ∧ Item.is_augmented a = Item.is_augmented b.
Proof. intros [= Hs Hv _ _ _]. unfold Item.is_augmented. by rewrite Hv. Qed.
Lemma rank_next_symbol a b : item_ok a → item_ok b → Item.item_rank a = Item.item_rank b → next_symbol a = next_symbol b.
Proof.
  intros Ha Hb Hr. unfold next_symbol. rewrite (rank_symbols a b) by done. by destruct (rank_fields a b Hr) as [<- _].
Qed.

(** ** The item sets of states *)
(** The tokens that can follow an item. *)
Definition named (t : Symbol) : Prop := symbol_known g n_terminals t ∨ t = end_ ∨ t = end_of_nonterminal_extra.
Lemma bordering_symbol_known x t : symbol_known g n_terminals x → bordering g head x t → symbol_known g n_terminals t.
Proof.
  intros Hx [[_ ->]|(_ & _ & s & (w & _ & id & Hid & Hs) & <-)]; [done|].
  eapply step_known; [apply Hin|by eapply (var_ids_known _ _ (in_symbols _ _ _ _ _ _ Hin))|by eapply head_in].
Qed.

(** The set of the start item, which no other state shares, or items after one
    symbol; the start item after its symbol is with items that begin with it, 
    only the end of the input can follow it, and it follows no other finished item of the set;
    no step before a dot is a variable to inline. *)
Record kernel_ok {I} {IS : IndexSet I} (p : Lookahead.LookaheadSetPool I) (s : Item.ParseItemSet) : Prop := {
  ko_set : Item.set_ok s;
  ko_items : entries_stand g key_map p s;
  ko_grammar : ∀ e, Item.has s e → item_of_grammar (Item.item e);
  ko_reserved : ∀ e, Item.has s e → reserved_known g (Item.following_reserved_word_set e);
  ko_steps : (∀ e, Item.has s e → Item.item e = Item.item_start key_map) ∨
    ∃ X, ∀ e, Item.has s e → (0 < Item.step_index (Item.item e))%N ∧ prev_symbol (Item.item e) = Some X;
  ko_start : ∀ e e', Item.has s e → Item.has s e' → Item.is_augmented (Item.item e) = true → (0 < Item.step_index (Item.item e))%N →
    Item.step_index (Item.item e') = 1%N;
  ko_same : ∀ e e', Item.has s e → Item.has s e' → Item.is_augmented (Item.item e) = true → Item.is_augmented (Item.item e') = true →
    Item.item e = Item.item e';
  ko_tokens : ∀ e t, Item.has s e → tokens_of p (Item.lookaheads e) t → named t;
  ko_eof : ∀ e t, Item.has s e → Item.is_augmented (Item.item e) = true → tokens_of p (Item.lookaheads e) t → t = end_;
  ko_accept : ∀ e e', Item.has s e → Item.has s e' → Item.is_augmented (Item.item e) = true → (0 < Item.step_index (Item.item e))%N →
    Item.is_augmented (Item.item e') = false → next_symbol (Item.item e') = None → ¬ tokens_of p (Item.lookaheads e') end_;
  ko_clean : ∀ e, Item.has s e → clean (Item.item e);
}.
Lemma kernel_ok_grows {I} {IS : IndexSet I} (p p' : Lookahead.LookaheadSetPool I) s : Lookahead.grows p p' → kernel_ok p s → kernel_ok p' s.
Proof.
  intros Hg [H1 H2 H3 H4 H5 H6 H7 H8 H9 H10 H11]. split; try done.
  - intros e He. destruct (H2 e He) as [? [X HX]]. split; [done|]. exists X. by eapply Lookahead.stands_grows.
  - intros e t He Ht. apply (H8 e t He). apply (tokens_of_grows p p'); [done|by apply H2|done].
  - intros e t He Ha Ht. apply (H9 e t He Ha). apply (tokens_of_grows p p'); [done|by apply H2|done].
  - intros e e' He He' Ha Hst Ha' Hn Ht. apply (H10 e e' He He' Ha Hst Ha' Hn). apply (tokens_of_grows p p'); [done|by apply H2|done].
Qed.

Section closure.
Context {I : Type} {IS : IndexSet I} (p : Lookahead.LookaheadSetPool I) (s C : Item.ParseItemSet).
Context (Hs : kernel_ok p s) (HC : is_closure g inlines key_map p s C).
Notation K := (λ k, k ∈ kernel inlines key_map s).

(** An entry of the set once its production is inlined. *)
Lemma kernel_entry k : k ∈ kernel inlines key_map s → ∃ e, Item.has s e ∧ item_ok (Item.item k) ∧
  Item.variable_index (Item.item k) = Item.variable_index (Item.item e) ∧ Item.step_index (Item.item k) = Item.step_index (Item.item e) ∧
  item_of_grammar (Item.item k) ∧ Item.lookaheads k = Item.lookaheads e ∧ (Item.is_augmented (Item.item k) = true → Item.item k = Item.item e) ∧
  ((0 < Item.step_index (Item.item e))%N → prev_symbol (Item.item k) = prev_symbol (Item.item e)) ∧
  ∀ w, next_var g (Item.item k) w → ¬ inlined g w.
Proof.
  intros (l & (e & -> & He)%elem_of_map & (id & -> & Hid)%elem_of_map)%elem_of_concat. exists e.
  destruct (ko_items _ _ Hs e He) as [Hei _]. pose proof (ko_grammar _ _ Hs e He) as Hg.
  pose proof (entry_at_ok str_pool g n_terminals inlines key_map items_bound Hin e id Hei Hid) as Hk.
  unfold expand, inlined_prod_ids in Hid. destruct (inlines !! _) as [ids|] eqn:Hi.
  - destruct Hg as [[_ Hp]|[Hv Hp]]; [by rewrite Hp, (proj2 (ti_start_inline Hti)) in Hi|].
    destruct (in_inlines _ _ _ _ _ _ Hin _ _ _ Hi id Hid) as [Hlt Hd]. pose proof (item_dot _ Hei) as Hde.
    assert (Item.is_augmented (Item.item e) = false) as Hna.
    { apply not_true_is_false. rewrite augmented_spec by (by right). unfold Item.START_PRODUCTION_ID. pose proof n_prods_small. lia. }
    split_and!; [done|done|done|done|by right|done| | |].
    + intros Ha. change (Item.is_augmented (Item.item e) = true) in Ha. congruence.
    + intros Hst. unfold prev_symbol. rewrite (steps_of_prod (Item.item (entry_at key_map e id))) by done. rewrite (steps_of_prod (Item.item e)) by done. cbn.
      pose proof (ti_inline_prefix Hti _ _ _ _ Hi Hid) as Hpre. rewrite <- !list_lookup_fmap.
      apply (f_equal (.!! (N.to_nat (Item.step_index (Item.item e)) - 1))) in Hpre. rewrite !lookup_take_lt in Hpre by lia. exact Hpre.
    + intros w (st & Hst & Hw). rewrite steps_of_prod in Hst by done. by eapply (ti_inline_next Hti).
  - apply list_elem_of_singleton in Hid as ->.
    assert (Item.item (entry_at key_map e (Item.prod_id (Item.item e))) = Item.item e) as Heq.
    { unfold entry_at, keys_of. destruct Hei as [_ Hks]. rewrite Hks. by destruct e as [[] ? ?]. }
    rewrite Heq. split_and!; try done. intros w (st & Hst & Hw) Hinl. destruct Hg as [[_ Hp]|[Hv Hp]].
    + rewrite steps_of_start in Hst by done. destruct (N.to_nat _); [|done]. injection Hst as <-. injection Hw as <-.
      by apply (proj1 (ti_start_inline Hti)).
    + pose proof (ko_clean _ _ Hs e He) as Hcl. unfold clean in Hcl. rewrite steps_of_prod in Hst, Hcl by done.
      destruct (ti_inline_some Hti _ _ _ _ Hp Hst Hw Hinl Hcl) as [ids Hids]. congruence.
Qed.
(** It is the entry itself, unless the production is inlined at the dot. *)
Lemma kernel_cases k : k ∈ kernel inlines key_map s → ∃ e, Item.has s e ∧ Item.lookaheads k = Item.lookaheads e ∧
  (Item.item k = Item.item e ∨
   ∃ ids, inlines !! (Item.prod_id (Item.item e), Item.step_index (Item.item e)) = Some ids ∧ Item.prod_id (Item.item k) ∈ ids ∧
     Item.step_index (Item.item k) = Item.step_index (Item.item e)).
Proof.
  intros (l & (e & -> & He)%elem_of_map & (id & -> & Hid)%elem_of_map)%elem_of_concat. exists e. split_and!; [done|done|].
  destruct (ko_items _ _ Hs e He) as [Hei _]. unfold expand, inlined_prod_ids in Hid. destruct (inlines !! _) as [ids|] eqn:Hi; [right; by exists ids|].
  apply list_elem_of_singleton in Hid as ->. left. unfold entry_at, keys_of. destruct Hei as [_ Hks]. cbn. rewrite Hks. by destruct (Item.item e).
Qed.
Lemma kernel_clean k : k ∈ kernel inlines key_map s → clean (Item.item k).
Proof.
  intros Hk. destruct (kernel_cases k Hk) as (e & He & _ & Hor). pose proof (ko_clean _ _ Hs e He) as Hcl.
  destruct Hor as [->|(ids & Hids & Hid & Hst)]; [done|]. intros j st w Hj Hst' Hw. rewrite Hst in Hj.
  destruct (ko_grammar _ _ Hs e He) as [[_ Hp]|[_ Hp]]; [by rewrite Hp, (proj2 (ti_start_inline Hti)) in Hids|].
  destruct (in_inlines _ _ _ _ _ _ Hin _ _ _ Hids _ Hid) as [Hlt _]. rewrite steps_of_prod in Hst' by done.
  pose proof (ti_inline_prefix Hti _ _ _ _ Hids Hid) as Hpre. apply (f_equal (.!! j)) in Hpre. rewrite !lookup_take_lt, !list_lookup_fmap, Hst' in Hpre by lia.
  symmetry in Hpre. apply fmap_Some in Hpre as (st' & Hst0 & Heq). rewrite <- (steps_of_prod (Item.item e)) in Hst0 by done.
  eapply Hcl; [exact Hj|exact Hst0|congruence].
Qed.
Lemma expanded_var x : expanded g K x → N.to_nat x < n_vars g.
Proof.
  intros [k x' Hk (st & Hst & Hx)|w id x' _ Hid (st & Hst & Hx)].
  - destruct (kernel_entry k Hk) as (e & _ & Hki & _).
    assert (symbol_known g n_terminals (step_symbol st)) as Hkn.
    { eapply (steps_of_known str_pool g n_terminals inlines key_map items_bound Hin); [done|by eapply list_elem_of_lookup_2]. }
    by rewrite Hx in Hkn.
  - assert (symbol_known g n_terminals (step_symbol st)) as Hkn.
    { eapply step_known; [apply Hin|by eapply (var_ids_known _ _ (in_symbols _ _ _ _ _ _ Hin))|by eapply head_in]. }
    by rewrite Hx in Hkn.
Qed.

Lemma origin_ok i : origin g inlines key_map s i → item_ok i.
Proof.
  intros [k Hk|x id _ _ Hid]; [by destruct (kernel_entry k Hk) as (? & _ & ? & _)|].
  apply item_at_ok with str_pool n_terminals inlines items_bound; [exact Hin|].
  by eapply (items_of_known str_pool g n_terminals inlines key_map items_bound Hin).
Qed.
(** Where the entries of the closure come from. *)
Lemma closure_entry e : Item.has C e → item_of_grammar (Item.item e) ∧
  ((∃ k, Item.has s k ∧ Item.variable_index (Item.item e) = Item.variable_index (Item.item k) ∧
      Item.step_index (Item.item e) = Item.step_index (Item.item k) ∧
      (Item.is_augmented (Item.item e) = true → Item.item e = Item.item k) ∧
      ((0 < Item.step_index (Item.item k))%N → prev_symbol (Item.item e) = prev_symbol (Item.item k))) ∨
   Item.is_augmented (Item.item e) = false ∧ Item.step_index (Item.item e) = 0%N ∧
   expanded g K (Item.variable_index (Item.item e)) ∧ ¬ inlined g (Item.variable_index (Item.item e))).
Proof.
  intros He. destruct (ic_origin _ _ _ _ _ _ HC e He) as [k Hk|x id Hx Hinl Hid].
  - destruct (kernel_entry k Hk) as (e' & He' & Hok & Hv & Hst & Hg & _ & Haug & Hprev & _). split; [done|]. left. exists e'. done.
  - pose proof (expanded_var x Hx) as Hxv.
    assert (N.to_nat id < n_prods) as Hidk by (by eapply (items_of_known str_pool g n_terminals inlines key_map items_bound Hin)).
    assert (item_of_grammar (item_at key_map x id)) as Hg by by right.
    split; [done|]. right. split_and!; [|done|done|done]. apply not_true_is_false. rewrite augmented_spec by done. cbn.
    unfold Item.START_PRODUCTION_ID. pose proof n_prods_small. lia.
Qed.
Lemma items_of_next x id w : id ∈ items_of x → next_var g (item_at key_map x id) w → ¬ inlined g w.
Proof.
  intros Hid (st & Hst & Hw). pose proof (items_of_known str_pool g n_terminals inlines key_map items_bound Hin _ _ Hid) as Hk.
  rewrite steps_of_prod in Hst by done. cbn in Hst. apply elem_of_concat in Hid as (l & (id0 & -> & Hid0)%elem_of_map & Hid).
  unfold expand, inlined_prod_ids in Hid. destruct (inlines !! (id0, 0%N)) as [ids|] eqn:Hids; [by eapply (ti_inline_next Hti)|].
  apply list_elem_of_singleton in Hid as ->. intros Hinl. destruct (ti_inline_some Hti id0 0%N st w Hk Hst Hw Hinl) as [ids ?]; [by intros j ? ? ?; lia|congruence].
Qed.
(** The closure inlines up to the dot and at it. *)
Lemma closure_clean e : Item.has C e → clean (Item.item e) ∧ ∀ w, next_var g (Item.item e) w → ¬ inlined g w.
Proof.
  intros He. destruct (ic_origin _ _ _ _ _ _ HC e He) as [k Hk|x id Hx Hinl Hid].
  - split; [by apply kernel_clean|]. by destruct (kernel_entry k Hk) as (? & _ & _ & _ & _ & _ & _ & _ & _ & ?).
  - split; [by intros j ? ? ?; cbn in *; lia|]. intros w. by apply (items_of_next x).
Qed.
Lemma closure_eof e t : Item.has C e → Item.is_augmented (Item.item e) = true → tokens_of p (Item.lookaheads e) t → t = end_.
Proof.
  intros He Ha Ht. apply (ic_tokens _ _ _ _ _ _ HC e t He) in Ht as (j & Hr & Hj).
  assert (Item.variable_index j = Item.variable_index (Item.item e)) as Hv by (unfold Item.entry_rank, Item.item_rank in Hr; by simplify_eq).
  assert (∀ x, expanded g K x → Item.is_augmented (Item.item e) = true → x ≠ Item.variable_index (Item.item e)) as Hno.
  { intros x Hx%expanded_var ?%N.eqb_eq ->. pose proof n_vars_small. lia. }
  destruct Hj as [k t Hk Ht|x id Hx _ _ _|x id t Hx _ _ _].
  - destruct (kernel_entry k Hk) as (e' & He' & _ & Hv' & _ & _ & Hl & Hi & _).
    assert (Item.is_augmented (Item.item k) = true) as Hka by (unfold Item.is_augmented in *; by rewrite Hv).
    rewrite Hl in Ht. apply (ko_eof _ _ Hs e' t He'); [by rewrite <- Hi|done].
  - by destruct (Hno x Hx Ha).
  - apply followed_follows in Hx as (k & v & Hk & Hv' & Hf). assert (expanded g K x) as Hx by (apply expanded_leads; exists k, v; split_and!; [done|done|destruct Hf as [Hf|[Hf _]]; by eapply follows_leads]).
    by destruct (Hno x Hx Ha).
Qed.
Lemma kernel_named k t : k ∈ kernel inlines key_map s → tokens_of p (Item.lookaheads k) t → named t.
Proof.
  intros Hk Ht. destruct (kernel_entry k Hk) as (e & He & _ & _ & _ & _ & Hl & _). rewrite Hl in Ht. by apply (ko_tokens _ _ Hs e).
Qed.
Lemma followed_named x t : followed g K (tokens_of p) x t → named t.
Proof.
  induction 1 as [k x t Hk Hx Ha|w id x t _ Hid Hsw Hg|]; [| |done].
  - unfold after in Ha. destruct (steps_of g (Item.item k) !! S _) as [st|] eqn:Hst; [|by eapply kernel_named].
    left. eapply bordering_symbol_known; [|done]. destruct (kernel_entry k Hk) as (_ & _ & Hki & _).
    eapply (steps_of_known str_pool g n_terminals inlines key_map items_bound Hin); [done|by eapply list_elem_of_lookup_2].
  - unfold gives in Hg. destruct (steps_at id !! 1) as [st|] eqn:Hst; [|destruct Hg as [_ [= ->]]; by right; left].
    left. eapply bordering_symbol_known; [|done]. eapply step_known; [apply Hin|by eapply (var_ids_known _ _ (in_symbols _ _ _ _ _ _ Hin))|by eapply list_elem_of_lookup_2].
Qed.
Lemma closure_named e t : Item.has C e → tokens_of p (Item.lookaheads e) t → named t.
Proof.
  intros He Ht. apply (ic_tokens _ _ _ _ _ _ HC e t He) in Ht as (j & _ & [k t' Hk Ht|x id _ _ _ _|x id t' Hx _ _ _]);
    [by eapply kernel_named|by right; left|by eapply followed_named].
Qed.
Lemma closure_same e e' : Item.has C e → Item.has C e' → Item.is_augmented (Item.item e) = true → Item.is_augmented (Item.item e') = true → e = e'.
Proof.
  intros He He' Ha Ha'. apply (Item.has_unique C); [apply (ic_set _ _ _ _ _ _ HC)|done|done|]. unfold Item.entry_rank. f_equal.
  destruct (closure_entry e He) as [_ [(k & Hk & _ & _ & Hki & _)|(? & _)]]; [|congruence].
  destruct (closure_entry e' He') as [_ [(k' & Hk' & _ & _ & Hki' & _)|(? & _)]]; [|congruence].
  specialize (Hki Ha). specialize (Hki' Ha'). rewrite Hki, Hki' in *. by apply (ko_same _ _ Hs).
Qed.
(** A repetition that the closure expands is the next symbol of one of its items. *)
Lemma expanded_inlined w : expanded g K w → inlined g w →
  ∃ v id w0, expanded g K v ∧ ¬ inlined g v ∧ id ∈ var_ids g v ∧ starts_with g id w0 ∧ inlined g w0 ∧
    (w0 = w ∨ unfolds w0 w).
Proof.
  induction 1 as [k w Hk Hw|v id w Hv IH Hid Hsw]; intros Hinl.
  - destruct (kernel_entry k Hk) as (_ & _ & _ & _ & _ & _ & _ & _ & _ & Hno). by destruct (Hno w Hw).
  - destruct (decide (non_terminal v ∈ variables_to_inline g)) as [Hvi|Hvi].
    + destruct (IH Hvi) as (v' & id' & w0 & ? & ? & ? & ? & ? & Hor). exists v', id', w0. split_and!; try done. right.
      destruct Hor as [->|Hu]; [by eapply unfolds_first|by eapply unfolds_next].
    + exists v, id, w. split_and!; try done. by left.
Qed.
Lemma auxiliary_needed x : expanded g K x → ¬ inlined g x → auxiliary x →
  ∃ e, Item.has C e ∧ next_symbol (Item.item e) = Some (mkSymbol NonTerminal x).
Proof.
  intros Hx Hinl Haux.
  assert (∃ i, origin g inlines key_map s i ∧ next_var g i x) as (i & Hi & Hn).
  { destruct Hx as [k x Hk Hn|w id x Hw Hid Hsw]; [exists (Item.item k); split; [by constructor|done]|].
    assert (N.to_nat id < n_prods) as Hidk by by eapply (var_ids_known _ _ (in_symbols _ _ _ _ _ _ Hin)).
    assert (∀ v id w0, expanded g K v → ¬ inlined g v → id ∈ var_ids g v → starts_with g id w0 → inlined g w0 → unfolds w0 x →
      ∃ i, origin g inlines key_map s i ∧ next_var g i x) as Hinlined.
    { clear id Hid Hsw Hidk. intros v id w0 Hv Hvi Hid (st & Hst & Hw0) Hw0i Hu. rewrite head_lookup in Hst.
      assert (N.to_nat id < n_prods) as Hidk by by eapply (var_ids_known _ _ (in_symbols _ _ _ _ _ _ Hin)).
      destruct (ti_inline_some Hti id 0%N st w0 Hidk Hst Hw0 Hw0i) as [ids Hids]; [by intros j ? ? ?; lia|].
      destruct (ti_inline_aux Hti id 0%N ids st w0 x Hidk Hids Hst Hw0 Hu Haux Hinl) as (i & t & Hii & Ht & Htx).
      exists (item_at key_map v i). split.
      - apply closure_item_expanded; [done|done|]. apply elem_of_concat. exists ids. split; [|done]. apply elem_of_map. exists id.
        unfold expand, inlined_prod_ids. by rewrite Hids.
      - exists t. cbn. destruct (in_inlines _ _ _ _ _ _ Hin _ _ _ Hids i Hii) as [Hik _]. by rewrite steps_of_prod. }
    destruct (decide (non_terminal w ∈ variables_to_inline g)) as [Hwi|Hwi].
    - destruct (expanded_inlined w Hw Hwi) as (v & id' & w0 & ? & ? & ? & ? & ? & Hor). eapply Hinlined; [done..|].
      destruct Hor as [->|Hu]; [by eapply unfolds_first|by eapply unfolds_next].
    - pose proof Hsw as (st & Hst & Hxs). rewrite head_lookup in Hst. destruct (inlines !! (id, 0%N)) as [ids|] eqn:Hids.
      { destruct (ti_inline_key Hti _ _ _ Hidk Hids) as (st' & w' & Hst' & Hw' & Hwi'). change (N.to_nat 0) with 0 in Hst'. assert (w' = x) as -> by congruence. done. }
      exists (item_at key_map w id). split.
      + apply closure_item_expanded; [done|done|]. apply elem_of_concat. exists [id]. split; [|apply list_elem_of_here]. apply elem_of_map. exists id.
        unfold expand, inlined_prod_ids. by rewrite Hids.
      + exists st. cbn. by rewrite steps_of_prod. }
  destruct (ic_complete _ _ _ _ _ _ HC i Hi) as (e & He & Hr). exists e. split; [done|].
  rewrite (rank_next_symbol (Item.item e) i); [by apply next_var_symbol|by apply (ic_items _ _ _ _ _ _ HC)| |done].
  by apply origin_ok.
Qed.
End closure.
End inputs.
