(* ===== verification/BuildVerdicts.v ===== *)
(** * [build_tables/build_parse_table.rs]: what becomes of a conflict

    The rules by which precedences and associativities decide which actions of a token
    are left, stated on the items of a state: the reductions that survive one another,
    the verdict between them and the shift, the items that still conflict,
    and the symbols that a declaration of their conflict must list. *)
From S2P Require Import Prelude BitVec Symbols TokenSet Ordering StrPool Grammars Lookaheads Items ItemSets FirstSets FollowSets Additions Closure Tables Outcomes BuildTable BuildConflicts BuildStates BuildClosure BuildInputs.
Import PT Builder.

(** ** Generic lemmas *)
(** What is found compares equal, sorted or not. *)
Lemma binary_search_by_inl {A} (f : A → comparison) l i : binary_search_by f l = inl i → ∃ x, x ∈ l ∧ f x = Eq.
Proof.
  unfold binary_search_by. destruct l as [|a l]; [done|]. set (base := bsearch_loop _ _ _ _ _).
  destruct ((a :: l) !! base) as [x|] eqn:Hx; cbn; [|done]. destruct (f x) eqn:Hf; [|done..]. intros _. exists x.
  split; [by eapply list_elem_of_lookup_2|done].
Qed.
(** A set kept by [binary_search_by] and [insert]. *)
Lemma search_insert_elem {A} (cmp : A → A → comparison) `{!TotalCmp cmp} a l x :
  x ∈ match binary_search_by (λ y, cmp y a) l with inl _ => l | inr i => vec_insert i a l end ↔ x = a ∨ x ∈ l.
Proof.
  destruct (binary_search_by _ l) as [i|i] eqn:Hs.
  - apply binary_search_by_inl in Hs as (y & Hy & ->%tc_eq). split; [by right|]. by intros [->|?].
  - by rewrite vec_insert_perm, elem_of_cons.
Qed.
(** Every element has its result. *)
Lemma mapM_elem_r {E A B} (f : A → outcome E B) l k x : mapM f l = Ok k → x ∈ l → ∃ y, f x = Ok y ∧ y ∈ k.
Proof.
  revert k. induction l as [|a l IH]; intros k Hk Hx; [by apply not_elem_of_nil in Hx|]. cbn in Hk.
  apply bind_Ok_inv in Hk as (y & Hy & Hk). apply bind_Ok_inv in Hk as (ys & Hys & Hk). injection Hk as <-.
  apply elem_of_cons in Hx as [->|Hx]; [exists y; split; [done|apply list_elem_of_here]|].
  destruct (IH ys Hys Hx) as (z & ? & ?). exists z. split; [done|by apply list_elem_of_further].
Qed.
Lemma elem_of_vec_dedup {A} `{EqDecision A} (l : list A) x : x ∈ vec_dedup l ↔ x ∈ l.
Proof.
  induction l as [|a l IH]; [done|]. destruct l as [|b l]; [done|]. cbn [vec_dedup]. case_decide as Hab.
  - subst. rewrite IH, !elem_of_cons. tauto.
  - rewrite !(elem_of_cons _ x a), IH. done.
Qed.
Lemma vec_dedup_sorted {A} `{EqDecision A} (cmp : A → A → comparison) `{!TotalCmp cmp} l :
  StronglySorted (λ a b, cmp a b ≠ Gt) l → StronglySorted (λ a b, cmp a b = Lt) (vec_dedup l).
Proof.
  induction 1 as [|a l Hs IH Ha]; [constructor|]. destruct l as [|b l]; [by repeat constructor|]. cbn [vec_dedup].
  case_decide as Hab; [exact IH|]. constructor; [exact IH|]. rewrite Forall_forall in *. intros x Hx. apply (proj1 (elem_of_vec_dedup (b :: l) x)) in Hx.
  apply (tc_lt_le_trans cmp a b x).
  - specialize (Ha b (list_elem_of_here _ _)). destruct (cmp a b) eqn:Hc; [by apply tc_eq in Hc|done|done].
  - apply elem_of_cons in Hx as [->|Hx]; [by rewrite tc_refl|]. apply StronglySorted_inv in Hs as [_ Hb]. rewrite Forall_forall in Hb. by apply Hb.
Qed.
Lemma precedence_cmp_eq a b : precedence_cmp a b = Eq ↔ a = b.
Proof. destruct a, b; cbn; rewrite ?tc_eq; split; congruence || done. Qed.
#[export] Instance precedence_total : TotalCmp precedence_cmp.
Proof.
  split; [exact precedence_cmp_eq|intros [|a|a] [|b|b]; cbn; try done; apply tc_opp|].
  intros [|a|a] [|b|b] [|d|d]; cbn; try done; apply tc_trans.
Qed.

#[local] Existing Instance Precedences.stands_for_dec.
#[local] Existing Instance Precedences.is_right_dec.
(** The order of precedences only depends on which symbols there are. *)
Lemma precedence_order_ext g p q s s' t t' : (∀ x, x ∈ s ↔ x ∈ s') → (∀ x, x ∈ t ↔ x ∈ t') →
  Precedences.precedence_order g p s q t = Precedences.precedence_order g p s' q t'.
Proof.
  intros Hs Ht.
  assert (∀ p s s' e, (∀ x, x ∈ s ↔ x ∈ s') → Precedences.stands_for g p s e ↔ Precedences.stands_for g p s' e) as Hst.
  { clear. intros p s s' [n|n] Hs; [done|]. cbn. rewrite !elem_of_map. by setoid_rewrite Hs. }
  assert (∀ l, Precedences.list_order g p s q t l = Precedences.list_order g p s' q t' l) as Hl.
  { intros l. unfold Precedences.list_order.
    rewrite (list_find_ext (Precedences.stands_for g p s) (Precedences.stands_for g p s')) by (intros e; by apply Hst).
    rewrite (list_find_ext (Precedences.is_right g p s q t) (Precedences.is_right g p s' q t')); [done|].
    intros e. unfold Precedences.is_right. by rewrite (Hst p s s'), (Hst q t t'). }
  assert (Precedences.named_order g p s q t = Precedences.named_order g p s' q t') as Hn.
  { unfold Precedences.named_order. do 2 f_equal. induction (sg_precedence_orderings g) as [|l ls IH]; [done|]. cbn. by rewrite Hl, IH. }
  unfold Precedences.precedence_order. by rewrite Hn.
Qed.

Section verdicts.
Context (g : SyntaxGrammar).
Notation next_symbol := (next_symbol g).
Notation entry := Item.ParseItemSetEntry.

(** ** Precedence of items *)
(** The step before the dot, its precedence and its associativity. *)
Definition prev_of (i : Item.ParseItem) : option ProductionStep :=
  if (0 <? Item.step_index i)%N then steps_of g i !! (N.to_nat (Item.step_index i) - 1) else None.
Definition prec_of (i : Item.ParseItem) : Precedence := default PNone (Item.the_prec <$> prev_of i).
Definition assoc_of (i : Item.ParseItem) : option Associativity := prev_of i ≫= step_associativity.
Definition rule_of (e : entry) : Symbol := non_terminal (Item.variable_index (Item.item e)).
(** An entry against those of [W], which have the precedence of the last of them and
    all their rules. *)
Definition ranks (e : entry) (W : list entry) : comparison :=
  Precedences.precedence_order g (prec_of (Item.item e)) [rule_of e] (from_option (λ x, prec_of (Item.item x)) PNone (last W)) (map rule_of W).

(** ** Reductions against each other *)
(** The entries of [D] that [R] holds of, one after the other: one of higher
    precedence removes those before it, one of the same precedence joins them, one of
    lower precedence is dropped. *)
Inductive survivors (R : entry → Prop) : list entry → list entry → Prop :=
  | survivors_nil : survivors R [] []
  | survivors_skip D e W : survivors R D W → ¬ R e → survivors R (D ++ [e]) W
  | survivors_first D e : survivors R D [] → R e → survivors R (D ++ [e]) [e]
  | survivors_higher D e W : survivors R D W → W ≠ [] → R e → ranks e W = Gt → survivors R (D ++ [e]) [e]
  | survivors_equal D e W : survivors R D W → W ≠ [] → R e → ranks e W = Eq → survivors R (D ++ [e]) (W ++ [e])
  | survivors_lower D e W : survivors R D W → W ≠ [] → R e → ranks e W = Lt → survivors R (D ++ [e]) W.

Lemma survivors_in R D W x : survivors R D W → x ∈ W → x ∈ D ∧ R x.
Proof.
  induction 1 as [|D e W _ IH He|D e _ _ He|D e W _ _ _ He _|D e W _ IH _ He _|D e W _ IH _ He _]; intros Hx.
  - by apply not_elem_of_nil in Hx.
  - destruct (IH Hx). split; [apply elem_of_app; by left|done].
  - apply list_elem_of_singleton in Hx as ->. split; [apply elem_of_app; right; apply list_elem_of_here|done].
  - apply list_elem_of_singleton in Hx as ->. split; [apply elem_of_app; right; apply list_elem_of_here|done].
  - apply elem_of_app in Hx as [Hx| ->%list_elem_of_singleton].
    + destruct (IH Hx). split; [apply elem_of_app; by left|done].
    + split; [apply elem_of_app; right; apply list_elem_of_here|done].
  - destruct (IH Hx). split; [apply elem_of_app; by left|done].
Qed.
Lemma survivors_none R D W : survivors R D W → W = [] ↔ ∀ x, x ∈ D → ¬ R x.
Proof.
  induction 1 as [|D e W _ IH He|D e _ _ He|D e W _ _ _ He _|D e W _ _ _ He _|D e W _ _ Hne He _].
  - split; [by intros _ x ?%not_elem_of_nil|done].
  - rewrite IH. setoid_rewrite elem_of_app. split; [intros Hx x [?| ->%list_elem_of_singleton]; auto|auto].
  - split; [done|]. intros Hx. destruct (Hx e); [apply elem_of_app; right; apply list_elem_of_here|done].
  - split; [done|]. intros Hx. destruct (Hx e); [apply elem_of_app; right; apply list_elem_of_here|done].
  - split; [by destruct W|]. intros Hx. destruct (Hx e); [apply elem_of_app; right; apply list_elem_of_here|done].
  - split; [done|]. intros Hx. destruct (Hx e); [apply elem_of_app; right; apply list_elem_of_here|done].
Qed.
Lemma survivors_ext R R' D W : (∀ e, e ∈ D → R e ↔ R' e) → survivors R D W → survivors R' D W.
Proof.
  intros HR HD. revert HR. induction HD as [|D e W _ IH He|D e _ IH He|D e W _ IH ? He|D e W _ IH ? He|D e W _ IH ? He]; intros HR;
    [constructor|..]; (assert (R e ↔ R' e) as Hre by (apply HR, elem_of_app; right; apply list_elem_of_here));
    (assert (∀ x, x ∈ D → R x ↔ R' x) as HR' by (intros x Hx; apply HR, elem_of_app; by left)); specialize (IH HR'); rewrite Hre in He.
  - by constructor.
  - by constructor.
  - by eapply survivors_higher.
  - by constructor.
  - by constructor.
Qed.

(** What the builder notes of the entries [W]. *)
Record info_for (W : list entry) (info : ReductionInfo) : Prop := {
  if_precedence : ri_precedence info = from_option (λ x, prec_of (Item.item x)) PNone (last W);
  if_symbols : ∀ x, x ∈ ri_symbols info ↔ x ∈ map rule_of W;
  if_left : has_left_assoc info = true ↔ ∃ e, e ∈ W ∧ assoc_of (Item.item e) = Some Left;
  if_right : has_right_assoc info = true ↔ ∃ e, e ∈ W ∧ assoc_of (Item.item e) = Some Right;
  if_non : has_non_assoc info = true ↔ ∃ e, e ∈ W ∧ assoc_of (Item.item e) = None;
}.
Lemma info_for_nil : info_for [] default_reduction.
Proof. split; cbn; try done; (split; [done|by intros (e & ?%not_elem_of_nil & _)]). Qed.
Lemma info_for_snoc W info e : info_for W info →
  info_for (W ++ [e]) (record_reduction info (prec_of (Item.item e)) (rule_of e) (assoc_of (Item.item e))).
Proof.
  intros [H1 H2 H3 H4 H5].
  assert (∀ (P : entry → Prop), (∃ x, x ∈ W ++ [e] ∧ P x) ↔ (∃ x, x ∈ W ∧ P x) ∨ P e) as Hex.
  { intros P. split.
    - intros (x & [?| ->%list_elem_of_singleton]%elem_of_app & ?); [left; by exists x|by right].
    - intros [(x & ? & ?)|?]; [exists x|exists e]; (split; [apply elem_of_app|done]); [by left|right; apply list_elem_of_here]. }
  assert (∀ x, x ∈ ri_symbols (record_reduction info (prec_of (Item.item e)) (rule_of e) (assoc_of (Item.item e))) ↔ x ∈ map rule_of (W ++ [e])) as Hsym.
  { intros x. rewrite map_app, elem_of_app. cbn [map]. rewrite list_elem_of_singleton, <- H2.
    pose proof (search_insert_elem symbol_cmp (rule_of e) (ri_symbols info) x) as Hs. unfold record_reduction.
    destruct (assoc_of (Item.item e)) as [[]|]; cbn [ri_symbols]; rewrite Hs; tauto. }
  split; [|exact Hsym| | |]; rewrite ?Hex, ?last_snoc; unfold record_reduction; destruct (assoc_of (Item.item e)) as [[]|]; cbn;
    rewrite ?H3, ?H4, ?H5; naive_solver.
Qed.
Lemma info_ranks W info e : info_for W info →
  Precedences.precedence_order g (prec_of (Item.item e)) [rule_of e] (ri_precedence info) (ri_symbols info) = ranks e W.
Proof. intros Hi. unfold ranks. rewrite (if_precedence _ _ Hi). apply precedence_order_ext; [done|apply Hi]. Qed.

(** ** Reductions against the shift *)
Context {I : Type} {IS : IndexSet I} (p : Lookahead.LookaheadSetPool I) (C : Item.ParseItemSet).
(** After the first step of its production, the entry goes on with a symbol that begins
    with the token. *)
Definition shift_side (t : Symbol) (e : entry) : Prop :=
  (0 < Item.step_index (Item.item e))%N ∧ ∃ X, next_symbol (Item.item e) = Some X ∧ bordering g head X t.
(** The token can follow the entry, which is finished. *)
Definition reduce_side (t : Symbol) (e : entry) : Prop :=
  next_symbol (Item.item e) = None ∧ Item.is_augmented (Item.item e) = false ∧ tokens_of p (Item.lookaheads e) t.
Definition conflicting (t : Symbol) (e : entry) : Prop := shift_side t e ∨ reduce_side t e.
Definition shift_ranks (t : Symbol) (W : list entry) (c : comparison) : Prop := ∃ e, Item.has C e ∧ shift_side t e ∧ ranks e W = c.
Definition all_assoc (W : list entry) (a : option Associativity) : Prop := ∀ e, e ∈ W → assoc_of (Item.item e) = a.
(** A repetition conflicts with itself. *)
Definition repeats (t : Symbol) : Prop :=
  ∃ v, auxiliary g v ∧ ∀ e, Item.has C e → conflicting t e → Item.variable_index (Item.item e) = v.

Inductive verdict := Repeats | Shifts | Reduces | Open.
(** The decision between the reductions [W] and the shift: a higher precedence
    wins; with the same precedence, associativity decides when it is the same for all
    reductions; with shifts of the same and of lower precedence, only right
    associativity keeps the shift. *)
Inductive decides (t : Symbol) (W : list entry) : verdict → Prop :=
  | decides_repetition : repeats t → decides t W Repeats
  | decides_higher : ¬ repeats t → shift_ranks t W Gt → ¬ shift_ranks t W Lt → decides t W Shifts
  | decides_lower : ¬ repeats t → ¬ shift_ranks t W Gt → shift_ranks t W Lt →
      ¬ (shift_ranks t W Eq ∧ all_assoc W (Some Right)) → decides t W Reduces
  | decides_lower_right : ¬ repeats t → ¬ shift_ranks t W Gt → shift_ranks t W Lt →
      shift_ranks t W Eq → all_assoc W (Some Right) → decides t W Shifts
  | decides_left : ¬ repeats t → ¬ shift_ranks t W Gt → ¬ shift_ranks t W Lt → all_assoc W (Some Left) → decides t W Reduces
  | decides_right : ¬ repeats t → ¬ shift_ranks t W Gt → ¬ shift_ranks t W Lt → all_assoc W (Some Right) → decides t W Shifts
  | decides_neither : ¬ repeats t → ¬ shift_ranks t W Gt → ¬ shift_ranks t W Lt → ¬ all_assoc W (Some Left) →
      ¬ all_assoc W (Some Right) → decides t W Open
  | decides_both : ¬ repeats t → shift_ranks t W Gt → shift_ranks t W Lt → decides t W Open.

(** The actions that are left of the reductions [r], by the entries [W], and of the
    shift to a state, if any; and the entries that conflict if there is more than one
    action: none for a repetition. *)
Inductive resolves (t : Symbol) (W : list entry) (r : list ParseAction) : option N → list ParseAction → option (entry → Prop) → Prop :=
  | resolves_reductions : resolves t W r None r (Some (conflicting t))
  | resolves_alone n : W = [] → resolves t W r (Some n) [Shift n false] None
  | resolves_repetition n : W ≠ [] → decides t W Repeats → resolves t W r (Some n) (r ++ [Shift n true]) None
  | resolves_shifts n : W ≠ [] → decides t W Shifts → resolves t W r (Some n) [Shift n false] None
  | resolves_reduces n : W ≠ [] → decides t W Reduces → resolves t W r (Some n) r (Some (reduce_side t))
  | resolves_open n : W ≠ [] → decides t W Open →
      resolves t W r (Some n) (r ++ [Shift n false]) (Some (conflicting t)).

(** ** The declaration of a conflict *)
Context (inlines : InlinedProductionMap) (key_map : Item.ItemKeyMap) (sets : list (Item.ParseItemSet * N)).
(** The rules, other than repetitions, that go on with [X] in the closure of [s]. *)
Definition parent_in (s : Item.ParseItemSet) (X y : Symbol) : Prop :=
  ∃ i, origin g inlines key_map s i ∧ next_symbol i = Some X ∧ ¬ auxiliary g (Item.variable_index i) ∧ y = non_terminal (Item.variable_index i).
(** The list holds the parents of [X] in the item set of a state. *)
Definition recorded (X : Symbol) (l : list Symbol) : Prop := ∃ s id, (s, id) ∈ sets ∧ ∀ y, y ∈ l ↔ parent_in s X y.
(** The rules of the entries of [P], in order, with parents in place of repetitions. *)
Definition conflict_set (P : entry → Prop) (c : list Symbol) : Prop :=
  StronglySorted (λ a b, symbol_cmp a b = Lt) c ∧ ∃ parents : Symbol → list Symbol,
    (∀ e, Item.has C e → P e → auxiliary g (Item.variable_index (Item.item e)) → recorded (rule_of e) (parents (rule_of e))) ∧
    ∀ x, x ∈ c ↔ ∃ e, Item.has C e ∧ P e ∧
      (¬ auxiliary g (Item.variable_index (Item.item e)) ∧ x = rule_of e ∨
       auxiliary g (Item.variable_index (Item.item e)) ∧ x ∈ parents (rule_of e)).
(** More than one action is left for a declared conflict only, but for a repetition. *)
Definition declared (l : list ParseAction) (K : option (entry → Prop)) : Prop :=
  2 ≤ length l → ∀ P, K = Some P → ∃ c, conflict_set P c ∧ c ∈ expected_conflicts g.
End verdicts.

(** ** More lookahead sets and states *)
Section grows.
Context (g : SyntaxGrammar) {I : Type} {IS : IndexSet I} (p p' : Lookahead.LookaheadSetPool I) (C : Item.ParseItemSet).
Context (Hp : ∀ e t, Item.has C e → tokens_of p (Item.lookaheads e) t ↔ tokens_of p' (Item.lookaheads e) t).
Notation entry := Item.ParseItemSetEntry.
Definition same_entries (K K' : option (entry → Prop)) : Prop :=
  match K, K' with
  | Some P, Some P' => ∀ e, Item.has C e → P e ↔ P' e
  | None, None => True
  | _, _ => False
  end.
Lemma reduce_side_grows t e : Item.has C e → reduce_side g p t e ↔ reduce_side g p' t e.
Proof. intros He. unfold reduce_side. by rewrite Hp. Qed.
Lemma conflicting_grows t e : Item.has C e → conflicting g p t e ↔ conflicting g p' t e.
Proof. intros He. unfold conflicting. by rewrite reduce_side_grows. Qed.
Lemma repeats_grows t : repeats g p C t ↔ repeats g p' C t.
Proof.
  unfold repeats. split; intros (v & Hv & Hall); exists v; (split; [done|]); intros e He Hc; apply Hall; [done| |done|];
    by apply conflicting_grows.
Qed.
Lemma decides_grows t W v : decides g p C t W v → decides g p' C t W v.
Proof.
  destruct 1 as [H1|H1|H1|H1|H1|H1|H1|H1]; (assert (H1' := H1); rewrite repeats_grows in H1'); [apply decides_repetition|apply decides_higher|apply decides_lower|apply decides_lower_right|
    apply decides_left|apply decides_right|apply decides_neither|apply decides_both]; done.
Qed.
Lemma resolves_grows t W r o l K : resolves g p C t W r o l K → ∃ K', resolves g p' C t W r o l K' ∧ same_entries K K'.
Proof.
  destruct 1 as [|n HW|n HW Hd|n HW Hd|n HW Hd|n HW Hd]; try apply decides_grows in Hd.
  - eexists. split; [constructor|]. intros e He. by apply conflicting_grows.
  - eexists. split; [by constructor|done].
  - eexists. split; [by apply resolves_repetition|done].
  - eexists. split; [by apply resolves_shifts|done].
  - eexists. split; [by apply resolves_reduces|]. intros e He. by apply reduce_side_grows.
  - eexists. split; [by apply resolves_open|]. intros e He. by apply conflicting_grows.
Qed.
Context (inlines : InlinedProductionMap) (key_map : Item.ItemKeyMap) (sets sets' : list (Item.ParseItemSet * N)) (Hsets : sets `prefix_of` sets').
Lemma conflict_set_grows (P P' : entry → Prop) c : (∀ e, Item.has C e → P e ↔ P' e) →
  conflict_set g C inlines key_map sets P c → conflict_set g C inlines key_map sets' P' c.
Proof.
  intros HP (Hc & parents & Hrec & Hx). split; [done|]. exists parents. split.
  - intros e He Hp' Ha. destruct (Hrec e He) as (s & id & Hs & Hy); [by apply HP|done|]. exists s, id. split; [|done].
    destruct Hsets as [more ->]. apply elem_of_app. by left.
  - intros x. rewrite Hx. split; intros (e & He & ? & ?); exists e; (split_and!; [done| |done]); by apply HP.
Qed.
Lemma declared_grows l K K' : same_entries K K' → declared g C inlines key_map sets l K → declared g C inlines key_map sets' l K'.
Proof.
  intros HK Hd Hl P' ->. destruct K as [P|]; [|done]. destruct (Hd Hl P eq_refl) as (c & Hc & ?). exists c. split; [|done]. by apply (conflict_set_grows P).
Qed.
End grows.
