(* ===== verification/BuildGoto.v ===== *)
(** * [build_tables/build_parse_table.rs]: successors of a state

    The item set after a symbol gathers the items of the state that go on with it,
    advanced: items of one rank become one entry, with the lookaheads of all. *)
From S2P Require Import Prelude BitVec Symbols TokenSet Ordering StrPool Grammars Lookaheads Items ItemSets FirstSets FollowSets Additions Closure Tables Outcomes BuildTable BuildStates BuildClosure BuildInputs.
Import PT Builder.

Section goto.
Context {H : Type} (str_pool : StrPool H) (g : SyntaxGrammar) (lg : LexicalGrammar).
Context {F : Type} (variable_info : list (VariableInfo F)).
Context (inlines : InlinedProductionMap) (key_map : Item.ItemKeyMap) (items_bound : nat).
Context {I : Type} {IS : IndexSet I}.
Notation n_terminals := (length (lg_variables lg)).
Notation n_prods := (length (sg_productions g)).
Notation item_ok := (Item.item_ok g key_map).
Notation pool_t := (Lookahead.LookaheadSetPool I).
Notation pool_len p := (length (is_elems (Lookahead.sets p))).

(** An item after [X]: flagged when [X] is a hidden variable with fields. *)
Definition inherits (X : Symbol) : bool :=
  match sg_variables g !! N.to_nat (index X), variable_info !! N.to_nat (index X) with
  | Some v, Some vi => is_non_terminal X && is_hidden v && negb (bool_decide (fields vi = ∅))
  | _, _ => false
  end.
Definition advance (i : Item.ParseItem) (X : Symbol) : Item.ParseItem :=
  if inherits X then with_flag (Item.successor i) else Item.successor i.
Definition advanced (X : Symbol) (e : Item.ParseItemSetEntry) : option Item.ParseItemSetEntry :=
  if decide (next_symbol g (Item.item e) = Some X)
  then Some (Item.mkEntry (advance (Item.item e) X) (Item.lookaheads e) (Item.following_reserved_word_set e)) else None.
Definition advances (l : list Item.ParseItemSetEntry) (X : Symbol) : list Item.ParseItemSetEntry := omap (advanced X) l.

(** [S] gathers the entries of [l]. *)
Record gathers (p : pool_t) (l : list Item.ParseItemSetEntry) (S : Item.ParseItemSet) : Prop := {
  ga_set : Item.set_ok S;
  ga_from : ∀ k, Item.has S k → ∃ a, a ∈ l ∧ Item.item k = Item.item a;
  ga_all : ∀ a, a ∈ l → ∃ k, Item.has S k ∧ Item.entry_rank k = Item.entry_rank a;
  ga_tokens : ∀ k, Item.has S k → ∃ X, Lookahead.stands p (Item.lookaheads k) X ∧
    ∀ t, t ∈ X ↔ ∃ a, a ∈ l ∧ Item.entry_rank a = Item.entry_rank k ∧ tokens_of p (Item.lookaheads a) t;
  ga_reserved : ∀ k n, Item.has S k → (0 < n ≤ Item.following_reserved_word_set k)%N ↔
    ∃ a, a ∈ l ∧ Item.entry_rank a = Item.entry_rank k ∧ (0 < n ≤ Item.following_reserved_word_set a)%N;
}.
Definition all_stand (p : pool_t) (l : list Item.ParseItemSetEntry) : Prop := ∀ a, a ∈ l → ∃ X, Lookahead.stands p (Item.lookaheads a) X.
Lemma gathers_nil p : gathers p [] (Item.mkItemSet []).
Proof.
  assert (∀ k, ¬ Item.has (Item.mkItemSet []) k) as Hno by by intros k ?%not_elem_of_nil.
  split; [split; constructor|by intros k ?%Hno|by intros a ?%not_elem_of_nil|by intros k ?%Hno|by intros k n ?%Hno].
Qed.
Lemma gathers_grows p p' l S : Lookahead.grows p p' → all_stand p l → gathers p l S → gathers p' l S.
Proof.
  intros Hg Hl [H1 H2 H3 H4 H5]. split; try done. intros k Hk. destruct (H4 k Hk) as (X & HX & Ht). exists X.
  split; [by eapply Lookahead.stands_grows|]. intros t. rewrite Ht. split; intros (a & Ha & Hr & Hat); exists a;
    (split_and!; [done|done|]); by apply (tokens_of_grows p p'); auto.
Qed.

Lemma elem_of_snoc_l {A} (x a : A) l : x ∈ l → x ∈ l ++ [a].
Proof. intros ?. apply elem_of_app. by left. Qed.
Lemma elem_of_snoc {A} (a : A) l : a ∈ l ++ [a].
Proof. apply elem_of_app. right. apply list_elem_of_here. Qed.
(** One more entry. *)
Lemma add_successor_spec {E} p m X l a :
  Lookahead.pool_wf p → (N.of_nat (pool_len p) < U32)%N → gathers p l (default (Item.mkItemSet []) (m !! X)) →
  (∀ i, i ∈ l → ∃ Y, Lookahead.stands p (Item.lookaheads i) Y) → Item.keyed (Item.item a) →
  (∃ Y, Lookahead.stands p (Item.lookaheads a) Y) →
  ∃ p' S, add_successor (E:=E) p m X (Item.item a) (Item.lookaheads a) (Item.following_reserved_word_set a) = Ok (p', <[X := S]> m) ∧
    Lookahead.pool_wf p' ∧ Lookahead.grows p p' ∧ pool_len p' ≤ Datatypes.S (pool_len p) ∧ gathers p' (l ++ [a]) S.
Proof.
  intros Hp Hroom Hga Hl Hk [Y HY]. unfold add_successor. set (s := default _ _) in *. clearbody s.
  destruct (Item.upsert_spec (E:=E) s (Item.item a) (ga_set _ _ _ Hga) Hk) as (j & s' & e & -> & He & Hr & _ & Hor & Hup).
  cbn [mbind outcome_bind]. rewrite (vec_get_Some _ _ _ He). cbn [mbind outcome_bind].
  assert (∃ Z, Lookahead.stands p (Item.lookaheads e) Z ∧
    (∀ t, t ∈ Z ↔ ∃ b, b ∈ l ∧ Item.entry_rank b = Item.entry_rank a ∧ tokens_of p (Item.lookaheads b) t) ∧
    (∀ n, (0 < n ≤ Item.following_reserved_word_set e)%N ↔ ∃ b, b ∈ l ∧ Item.entry_rank b = Item.entry_rank a ∧ (0 < n ≤ Item.following_reserved_word_set b)%N) ∧
    ∃ b, b ∈ l ++ [a] ∧ Item.item e = Item.item b) as (Z & HZ & HZt & Hres & b & Hb & Hbi).
  { destruct Hor as [Hh|[-> Hno]].
    - destruct (ga_tokens _ _ _ Hga e Hh) as (Z & HZ & HZt). destruct (ga_from _ _ _ Hga e Hh) as (b & Hb & Hbi). exists Z.
      change (Item.entry_rank a) with (Item.item_rank (Item.item a)). rewrite <- Hr.
      split_and!; [done|done|intros n; by apply (ga_reserved _ _ _ Hga)|]. exists b. split; [by apply elem_of_snoc_l|done].
    - exists ∅. assert (∀ b, b ∈ l → Item.entry_rank b ≠ Item.entry_rank a) as Hnl.
      { intros b Hb Hba. destruct (ga_all _ _ _ Hga b Hb) as (k & Hks & Hkr). apply (Hno k Hks). rewrite Hkr. exact Hba. }
      cbn. split_and!; [apply (Lookahead.pw_empty p Hp)| | |exists a; split; [apply elem_of_snoc|done]].
      + intros t. split; [set_solver|]. intros (b & Hb & Hba & _). by destruct (Hnl b Hb).
      + intros n. split; [lia|]. intros (b & Hb & Hba & _). by destruct (Hnl b Hb). }
  destruct (Lookahead.lookahead_union_spec (E:=E) p _ _ Z Y Hp Hroom HZ HY) as ([id p'] & -> & Hp' & Hg & Hst & Hlen).
  cbn [mbind outcome_bind fst snd] in *. set (e' := Item.mkEntry (Item.item e) id (N.max (Item.following_reserved_word_set e) (Item.following_reserved_word_set a))).
  destruct (Hup e' eq_refl) as [Hset Hhas]. exists p', (Item.update_entry s' j e'). split_and!; [done|done|done|done|].
  assert (Item.entry_rank e' = Item.entry_rank a) as Hre by exact Hr.
  assert (∀ k, Item.has s k → Item.entry_rank k ≠ Item.entry_rank a → ∀ b, b ∈ l ++ [a] ∧ Item.entry_rank b = Item.entry_rank k ↔ b ∈ l ∧ Item.entry_rank b = Item.entry_rank k) as Hold.
  { intros k _ Hne c. split; [|intros [? ?]; split; [by apply elem_of_snoc_l|done]].
    intros [[?| ->%list_elem_of_singleton]%elem_of_app Hbr]; [done|congruence]. }
  split.
  - done.
  - intros k [->|[Hks _]]%Hhas; [by exists b|]. destruct (ga_from _ _ _ Hga k Hks) as (c & Hc & Hci). exists c. split; [by apply elem_of_snoc_l|done].
  - intros c Hc. destruct (decide (Item.entry_rank c = Item.entry_rank a)) as [Hca|Hca].
    { exists e'. split; [apply Hhas; by left|congruence]. }
    assert (c ∈ l) as Hcl by (apply elem_of_app in Hc as [?| ->%list_elem_of_singleton]; done).
    destruct (ga_all _ _ _ Hga c Hcl) as (k & Hks & Hkr). exists k. split; [|done]. apply Hhas. right. split; [done|]. rewrite Hkr. exact Hca.
  - intros k [->|[Hks Hne]]%Hhas.
    + exists (Z ∪ Y). split; [exact Hst|]. intros t. rewrite elem_of_union, HZt, Hre, <- (tokens_of_stands p _ Y t HY). split.
      * intros [(c & Hc & Hca & Hct)|Ht]; [exists c|exists a]; (split_and!; [first [by apply elem_of_snoc_l|apply elem_of_snoc]|done|]); by apply (tokens_of_grows p p'); eauto.
      * intros (c & Hc & Hca & Hct). apply elem_of_app in Hc as [Hc| ->%list_elem_of_singleton].
        -- left. exists c. split_and!; [done|done|]. by apply (tokens_of_grows p p') in Hct; eauto.
        -- right. by apply (tokens_of_grows p p') in Hct; eauto.
    + destruct (ga_tokens _ _ _ Hga k Hks) as (W & HW & HWt). exists W. split; [by eapply Lookahead.stands_grows|].
      intros t. rewrite HWt. split; intros (c & Hc & Hck & Hct); exists c.
      * split_and!; [by apply elem_of_snoc_l|done|]. by apply (tokens_of_grows p p'); eauto.
      * destruct (proj1 (Hold k Hks Hne c) (conj Hc Hck)) as [Hcl _]. split_and!; [done|done|]. by apply (tokens_of_grows p p') in Hct; eauto.
  - intros k n [->|[Hks Hne]]%Hhas.
    + rewrite Hre. cbn. split.
      * intros Hn. destruct (decide (n ≤ Item.following_reserved_word_set e)%N) as [Hle|Hgt].
        -- destruct (proj1 (Hres n) ltac:(lia)) as (c & Hc & Hca & Hcn). exists c. split_and!; [by apply elem_of_snoc_l|done|lia|lia].
        -- exists a. split_and!; [apply elem_of_snoc|done|lia|lia].
      * intros (c & Hc & Hca & Hcn). apply elem_of_app in Hc as [Hc| ->%list_elem_of_singleton]; [|lia].
        assert (0 < n ≤ Item.following_reserved_word_set e)%N by (apply Hres; by exists c). lia.
    + rewrite (ga_reserved _ _ _ Hga k n Hks). split; intros (c & Hc & Hck & Hcn); exists c; [split_and!; [by apply elem_of_snoc_l|done|lia|lia]|].
      destruct (proj1 (Hold k Hks Hne c) (conj Hc Hck)) as [Hcl _]. split_and!; [done|done|lia|lia].
Qed.

(** The sets of successors after some entries of the state, for the symbols of [P]. *)
Definition successors (p : pool_t) (P : Symbol → Prop) (d : list Item.ParseItemSetEntry) (m : gmap Symbol Item.ParseItemSet) : Prop :=
  ∀ X, match m !! X with
       | Some next => P X ∧ advances d X ≠ [] ∧ gathers p (advances d X) next
       | None => P X → advances d X = []
       end.
Lemma advances_app d e X : advances (d ++ [e]) X = advances d X ++ advances [e] X.
Proof. unfold advances. by rewrite omap_app. Qed.
Lemma advances_other e X Y : next_symbol g (Item.item e) = Some Y → X ≠ Y → advances [e] X = [].
Proof. intros He Hne. unfold advances, advanced. cbn. rewrite decide_False; [done|congruence]. Qed.
Lemma advances_done e X : next_symbol g (Item.item e) = None → advances [e] X = [].
Proof. intros He. unfold advances, advanced. cbn. by rewrite He. Qed.
Lemma advances_elem d X a : a ∈ advances d X ↔ ∃ e, e ∈ d ∧ next_symbol g (Item.item e) = Some X ∧
  a = Item.mkEntry (advance (Item.item e) X) (Item.lookaheads e) (Item.following_reserved_word_set e).
Proof.
  unfold advances, advanced. rewrite list_elem_of_omap. split.
  - intros (e & He & Ha). case_decide; [|done]. injection Ha as <-. eauto.
  - intros (e & He & Hn & ->). exists e. split; [done|]. by rewrite decide_True.
Qed.
Lemma advances_stand p d X : all_stand p d → all_stand p (advances d X).
Proof. intros Hd a (e & He & _ & ->)%advances_elem. cbn. by apply Hd. Qed.
Lemma successors_nil p P : successors p P [] ∅.
Proof. intros X. by rewrite lookup_empty. Qed.
Lemma successors_grows p p' P d m : Lookahead.grows p p' → all_stand p d → successors p P d m → successors p' P d m.
Proof.
  intros Hg Hd Hm X. specialize (Hm X). destruct (m !! X); [|done]. destruct Hm as (? & ? & ?). split_and!; [done|done|].
  apply (gathers_grows p p'); [done|by apply advances_stand|done].
Qed.
Lemma successors_skip p P d m e : successors p P d m → (∀ X, P X → advances [e] X = []) → successors p P (d ++ [e]) m.
Proof.
  intros Hm He X. specialize (Hm X). rewrite advances_app. destruct (m !! X) as [next|].
  - destruct Hm as (HP & ? & ?). rewrite (He X HP), app_nil_r. done.
  - intros HP. by rewrite Hm, (He X HP).
Qed.
Lemma successors_insert p P d m e X S : successors p P d m → P X → next_symbol g (Item.item e) = Some X →
  gathers p (advances (d ++ [e]) X) S → successors p P (d ++ [e]) (<[X := S]> m).
Proof.
  intros Hm HX Hn HS Y. destruct (decide (Y = X)) as [->|Hne].
  - rewrite lookup_insert_eq. split_and!; [done| |done]. rewrite advances_app. unfold advances at 2, advanced. cbn. rewrite decide_True by done.
    by destruct (advances d X).
  - rewrite lookup_insert_ne by done. specialize (Hm Y). by rewrite advances_app, (advances_other e Y X), app_nil_r.
Qed.
Lemma successors_default p P d m X : successors p P d m → P X → gathers p (advances d X) (default (Item.mkItemSet []) (m !! X)).
Proof.
  intros Hm HX. specialize (Hm X). destruct (m !! X); cbn; [apply Hm|]. rewrite Hm by done. apply gathers_nil.
Qed.

(** ** The set after a symbol is a set of a state *)
Context (Hti : table_inputs str_pool g lg variable_info inlines key_map items_bound).
Notation Hin := (ti_inputs _ _ _ _ _ _ _ Hti).
Notation next_symbol := (next_symbol g).
Notation prev_symbol := (prev_symbol g).
Notation item_of_grammar := (item_of_grammar g).
Notation kernel_ok := (kernel_ok g lg key_map).
Lemma advance_fields i X : Item.variable_index (advance i X) = Item.variable_index i ∧ Item.prod_id (advance i X) = Item.prod_id i ∧
  Item.step_index (advance i X) = wrap_u32 (Item.step_index i + 1) ∧ Item.keys (advance i X) = Item.keys i.
Proof. unfold advance. by destruct (inherits X). Qed.
Lemma advance_augmented i X : Item.is_augmented (advance i X) = Item.is_augmented i.
Proof. unfold Item.is_augmented. by rewrite (proj1 (advance_fields i X)). Qed.
Lemma advance_ok i X : item_ok i → next_symbol i = Some X →
  item_ok (advance i X) ∧ Item.step_index (advance i X) = (Item.step_index i + 1)%N ∧ prev_symbol (advance i X) = Some X.
Proof.
  intros Hi Hn. pose proof Hn as (st & Hst & ->)%fmap_Some.
  destruct (successor_ok str_pool g n_terminals inlines key_map items_bound Hin i st Hi Hst) as [[Hk Hks] Hs].
  destruct (advance_fields i (step_symbol st)) as (Hv & Hp & Hd & Hke). cbn in Hs.
  assert (Item.step_index (advance i (step_symbol st)) = (Item.step_index i + 1)%N) as Hstep by (rewrite Hd; lia).
  split_and!; [|done|].
  - split; [rewrite Hp, Hstep|intros E; rewrite Hp, Hke; apply Hks]. cbn in Hk.
    by replace (Item.step_index i + 1)%N with (wrap_u32 (Item.step_index i + 1)) by lia.
  - unfold BuildInputs.prev_symbol. rewrite Hstep. replace (N.to_nat (Item.step_index i + 1) - 1) with (N.to_nat (Item.step_index i)) by lia.
    unfold steps_of. rewrite Hp. fold (steps_of g i). by rewrite Hst.
Qed.
Lemma advance_grammar i X : item_of_grammar i → item_of_grammar (advance i X).
Proof. unfold BuildInputs.item_of_grammar. destruct (advance_fields i X) as (-> & -> & _). done. Qed.

Context {MI : MapIter}.
Section next.
Context (p : pool_t) (s C : Item.ParseItemSet) (Hs : kernel_ok p s) (HC : is_closure g inlines key_map p s C).
(** The start item before its symbol is in no closure but that of its set. *)
Lemma closure_start e : Item.has C e → Item.is_augmented (Item.item e) = true → Item.step_index (Item.item e) = 0%N →
  ∀ e', Item.has C e' → Item.step_index (Item.item e') = 0%N.
Proof.
  intros He Haug Hst e' He'.
  destruct (closure_entry _ _ _ _ _ _ _ Hti p s C Hs HC e He) as [_ [(k & Hk & _ & Hks & _)|(? & _)]]; [|congruence].
  destruct (ko_steps _ _ _ _ _ Hs) as [Hstart|(X & HX)]; [|destruct (HX k Hk); lia].
  destruct (closure_entry _ _ _ _ _ _ _ Hti p s C Hs HC e' He') as [_ [(k' & Hk' & _ & -> & _)|(_ & ? & _)]]; [|done].
  by rewrite (Hstart k' Hk').
Qed.
(** In the closure of the start item only a variable that ends the input has the end of the
    input after it. *)
Lemma followed_ends x t : (∀ k, Item.has s k → Item.item k = Item.item_start key_map) →
  followed g (λ k, k ∈ kernel inlines key_map s) (tokens_of p) x t → t = end_ → ends_input g x.
Proof.
  intros Hstart Hf. induction Hf as [k x t Hk (st & Hst & Hx) _|w id x t _ Hid Hsw Hg|w id x t _ IH Hid Hsw [Hp _]]; intros ->.
  - destruct (kernel_entry _ _ _ _ _ _ _ Hti p s Hs k Hk) as (e & He & _ & Hv & _ & Hg & _ & Haug & _).
    assert (Item.item k = Item.item_start key_map) as Hks.
    { rewrite <- (Hstart e He). apply Haug. unfold Item.is_augmented. by rewrite Hv, (Hstart e He). }
    rewrite Hks in Hst. injection Hst as <-. injection Hx as <-. constructor.
  - unfold gives in Hg. destruct (steps_at g id !! 1) as [st|] eqn:Hst.
    + exfalso. assert (symbol_known g n_terminals (step_symbol st)) as Hkn.
      { eapply step_known; [apply Hin|by eapply (var_ids_known _ _ (in_symbols _ _ _ _ _ _ Hin))|by eapply list_elem_of_lookup_2]. }
      by eapply (bordering_symbol_known str_pool g lg variable_info inlines key_map items_bound Hti _ end_) in Hkn.
    + destruct Hg as [Heof _]. eapply ends_whole; [by right|done..].
  - eapply ends_whole; [left; by apply IH|done..].
Qed.
(** Among the items after the start variable only the start item ends with the input. *)
Lemma start_accepts e : (∀ k, Item.has s k → Item.item k = Item.item_start key_map) → Item.has C e → Item.is_augmented (Item.item e) = false →
  Item.step_index (Item.item e) = 0%N → next_symbol (Item.item e) = Some (non_terminal 0) → steps_of g (Item.item e) !! 1 = None →
  ¬ tokens_of p (Item.lookaheads e) end_.
Proof.
  intros Hstart He Ha Hz Hn Hwhole Ht. remember end_ as tok eqn:Htok in Ht. apply (ic_tokens _ _ _ _ _ _ HC e _ He) in Ht as (j & Hr & Hj).
  destruct (ic_items _ _ _ _ _ _ HC e He) as [Hei _].
  assert (∀ x id, id ∈ items_of g inlines x → j = item_at key_map x id → id ∈ items_of g inlines x ∧ is_start g id) as Hst.
  { intros x id Hid ->. pose proof (items_of_known str_pool g n_terminals inlines key_map items_bound Hin _ _ Hid) as Hk.
    pose proof (item_at_ok str_pool g n_terminals inlines key_map items_bound Hin x id Hk) as Hi. split; [done|].
    pose proof (rank_symbols _ _ _ _ _ _ _ Hti _ _ 0 Hi Hei Hr (le_n _)) as H0.
    pose proof (rank_symbols _ _ _ _ _ _ _ Hti _ _ 1 Hi Hei Hr (Nat.le_succ_diag_r 0)) as H1.
    rewrite (steps_of_prod _ _ _ _ _ _ _ Hti (item_at key_map x id)) in H0, H1 by done. rewrite Hwhole in H1. cbn in H0, H1.
    unfold BuildInputs.next_symbol in Hn. rewrite Hz in Hn. change (N.to_nat 0) with 0 in Hn. rewrite Hn in H0. split; [|by apply fmap_None in H1].
    apply fmap_Some in H0 as (st & Hst & Hx). exists st. split; [by rewrite head_lookup|]. by rewrite <- Hx. }
  destruct Hj as [k t Hk _|x id _ _ Hid Heof|x id t Hx _ Hid _].
  - destruct (kernel_entry _ _ _ _ _ _ _ Hti p s Hs k Hk) as (e' & He' & _ & Hv & _).
    destruct (rank_fields _ _ Hr) as [_ Hka]. rewrite Ha in Hka. unfold Item.is_augmented in Hka. by rewrite Hv, (Hstart e' He') in Hka.
  - destruct (Hst x id Hid eq_refl) as [_ Hi]. destruct (ti_start_cycle _ _ _ _ _ _ _ Hti x id Hid Hi). congruence.
  - destruct (Hst x id Hid eq_refl) as [_ Hi]. destruct (ti_start_cycle _ _ _ _ _ _ _ Hti x id Hid Hi) as [Hno _]. apply Hno.
    by apply (followed_ends x t).
Qed.
(** With the start item after its symbol, it alone ends with the input. *)
Lemma accepting_start k : Item.has s k → Item.is_augmented (Item.item k) = true → (0 < Item.step_index (Item.item k))%N →
  ∀ k', Item.has s k' → Item.step_index (Item.item k') = 1%N ∧ prev_symbol (Item.item k') = Some (non_terminal 0).
Proof.
  intros Hk Ha Hpos. destruct (ko_steps _ _ _ _ _ Hs) as [Hstart|(X & HX)]; [rewrite (Hstart k Hk) in Hpos; cbn in Hpos; lia|].
  assert (X = non_terminal 0) as ->.
  { destruct (HX k Hk) as [_ Hpk]. unfold BuildInputs.prev_symbol in Hpk. rewrite (ko_start _ _ _ _ _ Hs k k Hk Hk Ha Hpos) in Hpk.
    rewrite steps_of_start in Hpk by (by apply (augmented_spec _ _ _ _ _ _ _ Hti) in Ha; [|apply (ko_grammar _ _ _ _ _ Hs)]). by injection Hpk. }
  intros k' Hk'. split; [by apply (ko_start _ _ _ _ _ Hs k k')|by apply HX].
Qed.
Lemma accepting_kernel k : Item.has s k → Item.is_augmented (Item.item k) = true → (0 < Item.step_index (Item.item k))%N →
  ∀ k', k' ∈ kernel inlines key_map s → Item.is_augmented (Item.item k') = false →
    N.to_nat (Item.prod_id (Item.item k')) < n_prods ∧ starts_with g (Item.prod_id (Item.item k')) 0 ∧
    (next_symbol (Item.item k') = None → ∃ e, Item.has s e ∧ Item.item k' = Item.item e ∧ Item.lookaheads k' = Item.lookaheads e).
Proof.
  intros Hk Ha Hpos k' Hk' Ha'. pose proof (accepting_start k Hk Ha Hpos) as Hone.
  assert (∀ i, prev_symbol i = Some (non_terminal 0) → Item.step_index i = 1%N → N.to_nat (Item.prod_id i) < n_prods → starts_with g (Item.prod_id i) 0) as Hsw.
  { intros i Hi H1 Hp. unfold BuildInputs.prev_symbol in Hi. rewrite H1, (steps_of_prod _ _ _ _ _ _ _ Hti) in Hi by done.
    apply fmap_Some in Hi as (st & Hst & Hx). exists st. by rewrite head_lookup. }
  assert (∀ i, item_of_grammar i → Item.is_augmented i = false → N.to_nat (Item.prod_id i) < n_prods) as Hprod.
  { intros i [[Hv _]|[_ ?]] Hi; [|done]. unfold Item.is_augmented in Hi. by rewrite Hv, N.eqb_refl in Hi. }
  destruct (kernel_entry _ _ _ _ _ _ _ Hti p s Hs k' Hk') as (e & He & Hki & Hv & Hst & Hg & _ & _ & Hprev & _).
  destruct (Hone e He) as [H1 Hpe]. specialize (Hprod _ Hg Ha'). rewrite H1 in Hst, Hprev. specialize (Hprev ltac:(lia)). rewrite Hpe in Hprev.
  split_and!; [done|by apply Hsw|]. intros Hn. destruct (kernel_cases _ _ _ _ p s Hs k' Hk') as (e' & He' & Hl & [Hi|(ids & Hids & Hid & Hste)]); [by exists e'|].
  destruct (Hone e' He') as [H1' Hpe']. rewrite H1' in Hids.
  assert (N.to_nat (Item.prod_id (Item.item e')) < n_prods) as Hp'.
  { destruct (ko_grammar _ _ _ _ _ Hs e' He') as [[_ Hp]|[_ ?]]; [|done]. by rewrite Hp, (proj2 (ti_start_inline _ _ _ _ _ _ _ Hti)) in Hids. }
  destruct (proj2 (ti_start_first _ _ _ _ _ _ _ Hti _ Hp' (Hsw _ Hpe' H1' Hp')) ids _ Hids Hid) as [st Hst'].
  unfold BuildInputs.next_symbol in Hn. rewrite Hst, (steps_of_prod _ _ _ _ _ _ _ Hti) in Hn by done. change (N.to_nat 1) with 1 in Hn.
  by rewrite Hst' in Hn.
Qed.
Lemma closure_accept e e' : Item.has C e → Item.has C e' → Item.is_augmented (Item.item e) = true → next_symbol (Item.item e) = None →
  next_symbol (Item.item e') = None → tokens_of p (Item.lookaheads e') end_ → Item.is_augmented (Item.item e') = true.
Proof.
  intros He He' Ha Hn Hn' Ht. destruct (Item.is_augmented (Item.item e')) eqn:Ha'; [done|]. exfalso.
  destruct (closure_entry _ _ _ _ _ _ _ Hti p s C Hs HC e He) as [Hg [(k & Hk & _ & Hks & Hka & _)|(? & _)]]; [|congruence].
  specialize (Hka Ha). rewrite Hka in *.
  assert (0 < Item.step_index (Item.item k))%N as Hpos.
  { apply N.neq_0_lt_0. intros Hz. apply (augmented_spec _ _ _ _ _ _ _ Hti) in Ha; [|done]. unfold BuildInputs.next_symbol in Hn.
    by rewrite (steps_of_start _ _ Ha), Hz in Hn. }
  pose proof (accepting_kernel k Hk Ha Hpos) as Hone.
  destruct (ic_items _ _ _ _ _ _ HC e' He') as [Hei' _].
  assert (∀ x, expanded g (λ k, k ∈ kernel inlines key_map s) x → mentioned g x ∧ ∃ id, N.to_nat id < n_prods ∧ starts_with g id 0) as Hexp.
  { induction 1 as [k' x Hk' (st & Hst & Hx)|w id x Hw [_ IH] Hid (st & Hst & Hx)].
    - assert (Item.is_augmented (Item.item k') = false) as Hk'a.
      { apply not_true_is_false. intros Hk'a. destruct (kernel_entry _ _ _ _ _ _ _ Hti p s Hs k' Hk') as (e'' & He'' & _ & _ & Hst' & Hg'' & _).
        rewrite (steps_of_start _ _ (proj1 (augmented_spec _ _ _ _ _ _ _ Hti _ Hg'') Hk'a)), Hst', (proj1 (accepting_start k Hk Ha Hpos e'' He'')) in Hst. done. }
      destruct (Hone k' Hk' Hk'a) as (Hp & Hsw & _). split; [|by eexists]. exists (Item.prod_id (Item.item k')), st.
      rewrite (steps_of_prod _ _ _ _ _ _ _ Hti) in Hst by done. split_and!; [done|by eapply list_elem_of_lookup_2|done].
    - split; [|done]. exists id, st. split_and!; [by eapply (var_ids_known _ _ (in_symbols _ _ _ _ _ _ Hin))|by apply head_in|done]. }
  remember end_ as tok eqn:Htok in Ht. apply (ic_tokens _ _ _ _ _ _ HC e' _ He') in Ht as (j & Hr & Hj). destruct (rank_fields _ _ Hr) as [Hjs Hja]. rewrite Ha' in Hja.
  assert (∀ x id, j = item_at key_map x id → expanded g (λ k, k ∈ kernel inlines key_map s) x → id ∉ items_of g inlines x) as Hno.
  { intros x id -> Hx Hid. pose proof (items_of_known str_pool g n_terminals inlines key_map items_bound Hin _ _ Hid) as Hk'.
    destruct (Hexp x Hx) as (Hm & id0 & Hid0 & Hsw). apply (proj1 (ti_start_first _ _ _ _ _ _ _ Hti id0 Hid0 Hsw) x id Hm Hid).
    pose proof (item_at_ok str_pool g n_terminals inlines key_map items_bound Hin x id Hk') as Hi.
    rewrite <- (rank_next_symbol _ _ _ _ _ _ _ Hti _ _ Hi Hei' Hr) in Hn'. unfold BuildInputs.next_symbol in Hn'.
    rewrite (steps_of_prod _ _ _ _ _ _ _ Hti) in Hn' by done. apply fmap_None, lookup_ge_None in Hn'. cbn in Hn'.
    destruct (steps_at g id); [done|cbn in Hn'; lia]. }
  destruct Hj as [k' t Hk' Ht|x id Hx _ Hid _|x id t Hx _ Hid _].
  - destruct (Hone k' Hk' Hja) as (_ & _ & Hdone).
    destruct (kernel_entry _ _ _ _ _ _ _ Hti p s Hs k' Hk') as (_ & _ & Hki & _).
    rewrite <- (rank_next_symbol _ _ _ _ _ _ _ Hti _ _ Hki Hei' Hr) in Hn'. destruct (Hdone Hn') as (e'' & He'' & Hi & Hl).
    rewrite Hi in *. rewrite Hl, Htok in Ht. by apply (ko_accept _ _ _ _ _ Hs k e'' Hk He'' Ha Hpos Hja Hn').
  - by eapply Hno.
  - eapply Hno; [done| |done]. apply followed_follows in Hx as (k' & v & Hk' & Hv' & Hf). apply expanded_leads. exists k', v.
    split_and!; [done|done|destruct Hf as [Hf|[Hf _]]; by eapply follows_leads].
Qed.
Lemma closure_start_set e : Item.has C e → Item.is_augmented (Item.item e) = true → is_Some (next_symbol (Item.item e)) →
  (∀ k, Item.has s k → Item.item k = Item.item_start key_map) ∧ next_symbol (Item.item e) = Some (non_terminal 0) ∧ Item.step_index (Item.item e) = 0%N.
Proof.
  intros He Ha [X HX]. destruct (closure_entry _ _ _ _ _ _ _ Hti p s C Hs HC e He) as [Hg Hor].
  pose proof (steps_of_start g (Item.item e) (proj1 (augmented_spec _ _ _ _ _ _ _ Hti _ Hg) Ha)) as Hsteps.
  unfold BuildInputs.next_symbol in *. rewrite Hsteps in *.
  assert (Item.step_index (Item.item e) = 0%N) as Hz.
  { apply fmap_Some in HX as (st & Hst%lookup_lt_Some & _). cbn in Hst. lia. }
  rewrite Hz. split_and!; [|done|done]. destruct Hor as [(k & Hk & _ & Hks & _)|(? & _)]; [|congruence].
  destruct (ko_steps _ _ _ _ _ Hs) as [?|(Y & HY)]; [done|]. destruct (HY k Hk). lia.
Qed.
Lemma gathers_kernel p' X next : Lookahead.grows p p' → (∀ e, Item.has C e → reserved_known g (Item.following_reserved_word_set e)) →
  advances (Item.entries C) X ≠ [] → gathers p' (advances (Item.entries C) X) next → kernel_ok p' next.
Proof.
  intros Hgr Hres Hne Hga. pose proof (ti_reserved _ _ _ _ _ _ _ Hti) as [Hr0 _].
  assert (∀ k, Item.has next k → ∃ e, Item.has C e ∧ next_symbol (Item.item e) = Some X ∧ Item.item k = advance (Item.item e) X) as Hfrom.
  { intros k Hk. destruct (ga_from _ _ _ Hga k Hk) as (a & (e & He & Hn & ->)%advances_elem & Hka). by exists e. }
  split.
  - apply Hga.
  - intros k Hk. destruct (Hfrom k Hk) as (e & He & Hn & ->). split.
    + apply advance_ok; [by apply (ic_items _ _ _ _ _ _ HC)|done].
    + destruct (ga_tokens _ _ _ Hga k Hk) as (Y & HY & _). by exists Y.
  - intros k Hk. destruct (Hfrom k Hk) as (e & He & Hn & ->). apply advance_grammar. by apply (closure_entry _ _ _ _ _ _ _ Hti p s C Hs HC).
  - intros k Hk. destruct (decide (Item.following_reserved_word_set k = 0%N)) as [->|Hnz]; [done|].
    destruct (proj1 (ga_reserved _ _ _ Hga k (Item.following_reserved_word_set k) Hk) ltac:(lia)) as (a & (e & He & _ & ->)%advances_elem & _ & Hle).
    eapply reserved_known_le; [|by apply (Hres e He)]. cbn in Hle. lia.
  - right. exists X. intros k Hk. destruct (Hfrom k Hk) as (e & He & Hn & ->).
    destruct (advance_ok (Item.item e) X) as (_ & -> & ?); [by apply (ic_items _ _ _ _ _ _ HC)|done|]. split; [lia|done].
  - intros k k' Hk Hk' Haug Hpos. destruct (Hfrom k Hk) as (e & He & Hn & Hke). destruct (Hfrom k' Hk') as (e' & He' & Hn' & ->).
    destruct (advance_ok (Item.item e) X) as (_ & Hse & _); [by apply (ic_items _ _ _ _ _ _ HC)|done|].
    destruct (advance_ok (Item.item e') X) as (_ & -> & _); [by apply (ic_items _ _ _ _ _ _ HC)|done|].
    assert (Item.is_augmented (Item.item e) = true) as Hae.
    { unfold Item.is_augmented in *. by rewrite Hke, (proj1 (advance_fields _ _)) in Haug. }
    destruct (closure_entry _ _ _ _ _ _ _ Hti p s C Hs HC e He) as [Hge _].
    assert (Item.step_index (Item.item e) = 0%N) as Hz.
    { apply (augmented_spec _ _ _ _ _ _ _ Hti) in Hae; [|done]. apply fmap_Some in Hn as (st & Hst & _).
      rewrite steps_of_start in Hst by done. apply lookup_lt_Some in Hst. cbn in Hst. lia. }
    by rewrite (closure_start e He Hae Hz e' He').
  - intros k k' Hk Hk' Ha Ha'. destruct (Hfrom k Hk) as (e & He & Hn & Hke). destruct (Hfrom k' Hk') as (e' & He' & Hn' & Hke').
    rewrite Hke, Hke', !advance_augmented in *. by rewrite (closure_same _ _ _ _ _ _ _ Hti p s C Hs HC e e').
  - intros k t Hk Ht. destruct (ga_tokens _ _ _ Hga k Hk) as (Y & HY & HYt). apply (tokens_of_stands _ _ _ t HY), HYt in Ht.
    destruct Ht as (a & (e & He & Hn & ->)%advances_elem & Hr & Ht). cbn in Ht.
    apply (closure_named _ _ _ _ _ _ _ Hti p s C Hs HC e t He).
    apply (tokens_of_grows p p') in Ht; [done|done|]. by apply (ic_items _ _ _ _ _ _ HC).
  - intros k t Hk Ha Ht. destruct (ga_tokens _ _ _ Hga k Hk) as (Y & HY & HYt). apply (tokens_of_stands _ _ _ t HY), HYt in Ht.
    destruct Ht as (a & (e & He & Hn & ->)%advances_elem & Hr & Ht). cbn in Ht.
    apply (closure_eof _ _ _ _ _ _ _ Hti p s C Hs HC e t He).
    + rewrite <- (advance_augmented _ X). unfold Item.is_augmented in *. injection Hr as _ Hv _ _ _. cbn in Hv. by rewrite Hv.
    + apply (tokens_of_grows p p') in Ht; [done|done|]. by apply (ic_items _ _ _ _ _ _ HC).
  - intros k k' Hk Hk' Haug _ Ha' Hn' Ht. destruct (Hfrom k Hk) as (e & He & Hn & Hke). rewrite Hke, advance_augmented in Haug.
    destruct (closure_start_set e He Haug ltac:(by rewrite Hn)) as (Hstart & HX & Hez). rewrite Hn in HX. injection HX as ->.
    destruct (ga_tokens _ _ _ Hga k' Hk') as (Y & HY & HYt). apply (tokens_of_stands _ _ _ _ HY), HYt in Ht.
    destruct Ht as (a & (e' & He' & Hnx & ->)%advances_elem & Hr & Ht). cbn in Ht.
    destruct (Hfrom k' Hk') as (e2 & He2 & Hn2 & Hke2). destruct (ic_items _ _ _ _ _ _ HC e' He') as [Hei' HX']. destruct (ic_items _ _ _ _ _ _ HC e2 He2) as [Hei2 _].
    destruct (advance_ok _ _ Hei' Hnx) as (Hok & Hst & _). destruct (advance_ok _ _ Hei2 Hn2) as (Hok2 & _ & _).
    apply (tokens_of_grows p p') in Ht; [|done|done]. unfold Item.entry_rank in Hr. cbn in Hr. rewrite Hke2 in Hr, Ha', Hn'.
    assert (Item.step_index (Item.item e') = 0%N) as Hz by exact (closure_start e He Haug Hez e' He').
    revert Ht. apply start_accepts; try done.
    + destruct (rank_fields _ _ Hr) as [_ Hra]. rewrite Ha', advance_augmented in Hra. done.
    + rewrite <- (rank_next_symbol _ _ _ _ _ _ _ Hti _ _ Hok Hok2 Hr) in Hn'. unfold BuildInputs.next_symbol in Hn'. rewrite Hst, Hz in Hn'.
      apply fmap_None in Hn'. unfold steps_of in *. destruct (advance_fields (Item.item e') (non_terminal 0)) as (_ & Hp & _). by rewrite Hp in Hn'.
  - intros k Hk. destruct (Hfrom k Hk) as (e & He & Hn & ->). destruct (closure_clean _ _ _ _ _ _ _ Hti p s C Hs HC e He) as [Hcl Hno].
    destruct (advance_ok (Item.item e) X) as (_ & Hst & _); [by apply (ic_items _ _ _ _ _ _ HC)|done|].
    destruct (advance_fields (Item.item e) X) as (_ & Hp & _). unfold clean, steps_of. rewrite Hst, Hp. fold (steps_of g (Item.item e)).
    intros j st w Hj Hstj Hw. destruct (decide (j = N.to_nat (Item.step_index (Item.item e)))) as [->|Hne']; [apply Hno; by exists st|].
    by apply (Hcl j st w ltac:(lia)).
Qed.
End next.
End goto.
