(* ===== verification/BuildScan.v ===== *)
(** * [build_tables/build_parse_table.rs]: productions, reductions and successors of
    a state

    What holds of the builder while the items of a state are scanned, and the
    cells of the table that the scan leaves: the reductions of a token that survive
    one another. *)
From S2P Require Import Prelude BitVec Symbols TokenSet Ordering StrPool Grammars Lookaheads Items ItemSets FirstSets FollowSets Additions Closure Tables Outcomes BuildTable BuildConflicts BuildStates BuildClosure BuildInputs BuildVerdicts BuildGoto.
Import PT Builder.

Section scan.
Context {H : Type} (str_pool : StrPool H) (g : SyntaxGrammar) (lg : LexicalGrammar).
Context {F : Type} (variable_info : list (VariableInfo F)).
Context {I : Type} {IS : IndexSet I} {MI : MapIter}.
Context (inlines : InlinedProductionMap) (key_map : Item.ItemKeyMap) (items_bound : nat).
Context (Hti : table_inputs str_pool g lg variable_info inlines key_map items_bound).
Notation n_terminals := (length (lg_variables lg)).
Notation n_prods := (length (sg_productions g)).
Notation item_ok := (Item.item_ok g key_map).
Notation item_of_grammar := (item_of_grammar g).
Notation next_symbol := (next_symbol g).
Notation prev_of := (prev_of g).
Notation prec_of := (prec_of g).
Notation assoc_of := (assoc_of g).
Notation survivors := (survivors g).
Notation builder := (ParseTableBuilder I).
Notation Hin := (ti_inputs _ _ _ _ _ _ _ Hti).
Notation pool_len p := (length (is_elems (Lookahead.sets p))).

(** ** Reading items *)
Definition prod_of (i : Item.ParseItem) : ProdRef := Item.the_prod g (Item.slot_of (Item.prod_id i)).
Lemma item_production_ok {E} i : item_ok i → Item.item_production (E:=E) i g = Ok (prod_of i).
Proof.
  intros [[Hk _] _]. cbn in Hk. rewrite Nat2N.id in Hk. unfold Item.item_production, prod_of, Item.slot_of in *.
  destruct (Item.prod_id i =? Item.START_PRODUCTION_ID)%N; [done|].
  rewrite (sy_prods _ _ (in_symbols _ _ _ _ _ _ Hin)) by (unfold Item.slot_count in Hk; lia). done.
Qed.
Lemma item_symbol_ok {E} i : item_ok i → Item.item_symbol (E:=E) i g = Ok (next_symbol i).
Proof.
  intros Hi. unfold Item.item_symbol. rewrite (item_step_spec str_pool g n_terminals inlines key_map items_bound Hin) by done. cbn.
  unfold BuildInputs.next_symbol. by destruct (steps_of g i !! _).
Qed.
Lemma prev_step_ok {E} i : item_ok i → Item.prev_step (E:=E) i g = Ok (prev_of i) ∧ opt_ok (λ s, s ∈ steps_of g i) (prev_of i).
Proof.
  intros Hi. unfold Item.prev_step, BuildVerdicts.prev_of. destruct (N.ltb_spec 0 (Item.step_index i)) as [Hs|]; [|done].
  rewrite item_production_ok by done. cbn [mbind outcome_bind]. pose proof (item_dot _ _ i Hi).
  assert (is_Some (steps_of g i !! (N.to_nat (Item.step_index i) - 1))) as [s Hst] by (apply lookup_lt_is_Some; lia).
  change (pr_steps (prod_of i)) with (steps_of g i). rewrite (vec_get_Some _ _ _ Hst), Hst. cbn. split; [done|].
  by eapply list_elem_of_lookup_2.
Qed.
Lemma steps_readable i s : item_ok i → s ∈ steps_of g i → Item.step_readable str_pool s.
Proof.
  intros [[Hk _] _] Hs. cbn in Hk. rewrite Nat2N.id in Hk.
  destruct (Item.prod_the_prod str_pool g (in_grammar _ _ _ _ _ _ Hin) (E:=Empty_set) _ Hk) as [_ Hf].
  rewrite Forall_forall in Hf. by apply Hf.
Qed.
Lemma item_precedence_ok {E} i : item_ok i → Item.item_precedence (E:=E) i g = Ok (prec_of i) ∧ Item.prec_readable str_pool (prec_of i).
Proof.
  intros Hi. unfold Item.item_precedence, BuildVerdicts.prec_of. destruct (prev_step_ok (E:=E) i Hi) as (-> & Hs). cbn [mbind outcome_bind].
  destruct (prev_of i) as [s|]; [|done]. by apply Item.read_prec, (steps_readable i).
Qed.
Lemma item_associativity_ok {E} i : item_ok i → Item.item_associativity (E:=E) i g = Ok (assoc_of i).
Proof.
  intros Hi. unfold Item.item_associativity, BuildVerdicts.assoc_of. destruct (prev_step_ok (E:=E) i Hi) as (-> & _). cbn.
  by destruct (prev_of i).
Qed.
(** The last entry of its list of keys. *)
Lemma is_done_ok i : item_ok i → Item.is_done i = true ↔ next_symbol i = None.
Proof.
  intros Hi. destruct (Item.item_ok_key str_pool g key_map (in_keys _ _ _ _ _ _ Hin) i Hi) as (k & _ & ks & Hks & Hl & _).
  assert (Item.keys i = ks) as <-.
  { specialize (Hks Empty_set). rewrite (Item.io_keys _ _ _ Hi) in Hks. by injection Hks. }
  unfold Item.is_done. rewrite Hl, Nat.eqb_eq. unfold Item.dots, BuildInputs.next_symbol. rewrite fmap_None, lookup_ge_None.
  pose proof (item_dot _ _ i Hi). unfold steps_of in *. lia.
Qed.

(** ** Production infos *)
Definition info_of (id : N) (info : ProductionInfo) : Prop :=
  ∀ E, production_info_of (E:=E) g variable_info (FirstSets.steps_at g id) = Ok info.
Lemma add_step_info_ok info i s : Item.step_readable str_pool s → symbol_known g n_terminals (step_symbol s) →
  ∃ info', ∀ E, add_step_info (E:=E) g variable_info info (i, s) = Ok info'.
Proof.
  intros Hr Hk. destruct Hr as [_ (a & Ha & _) (f & Hf & _)]. unfold add_step_info. unfold symbol_known in Hk.
  pose proof (ti_info _ _ _ _ _ _ _ Hti) as Hl. destruct (kind (step_symbol s)) eqn:Hks;
    try (eexists; intros E; rewrite Ha, Hf; cbn [mbind outcome_bind]; rewrite bool_decide_false by done; cbn [mbind outcome_bind]; reflexivity).
  destruct (lookup_lt_is_Some_2 (sg_variables g) (N.to_nat (index (step_symbol s)))) as [v Hv]; [exact Hk|].
  destruct (lookup_lt_is_Some_2 variable_info (N.to_nat (index (step_symbol s)))) as [vi Hvi]; [unfold n_vars in *; lia|].
  destruct (negb (is_visible (sv_kind v))) eqn:Hvis;
    (eexists; intros E; rewrite Ha, Hf; cbn [mbind outcome_bind]; rewrite bool_decide_true by done;
     rewrite (vec_get_Some _ _ _ Hv); cbn [mbind outcome_bind]; rewrite Hvis, ?(vec_get_Some _ _ _ Hvi); reflexivity).
Qed.
Lemma info_exists id : N.to_nat id < n_prods → ∃ info, info_of id info.
Proof.
  intros Hid. pose proof (sy_prods _ _ (in_symbols _ _ _ _ _ _ Hin)) as _. unfold info_of, production_info_of.
  assert (∀ s, s ∈ FirstSets.steps_at g id → Item.step_readable str_pool s ∧ symbol_known g n_terminals (step_symbol s)) as Hs.
  { intros s Hs. pose proof (item_at_ok str_pool g n_terminals inlines key_map items_bound Hin 0 id Hid) as Hi.
    assert (s ∈ steps_of g (item_at key_map 0 id)) as Hs' by (by rewrite (steps_of_prod _ _ _ _ _ _ _ Hti)).
    split; [by apply (steps_readable (item_at key_map 0 id))|]. by eapply (steps_of_known str_pool g n_terminals inlines key_map items_bound Hin). }
  revert Hs. generalize (FirstSets.steps_at g id) as l. intros l Hs.
  assert (∀ e, e ∈ imap (λ i s, (i, s)) l → Item.step_readable str_pool e.2 ∧ symbol_known g n_terminals (step_symbol e.2)) as Hl.
  { intros e (k & s & -> & Hk)%elem_of_lookup_imap_1. apply Hs. by eapply list_elem_of_lookup_2. }
  revert Hl. generalize (imap (λ i s, (i, s)) l) as es. intros es Hl.
  assert (∀ acc, ∃ r, ∀ E, for_each (add_step_info (E:=E) g variable_info) acc es = Ok r) as Hf.
  { induction es as [|[i s] es IH]; intros acc; [by exists acc|]. cbn [for_each].
    destruct (Hl (i, s)) as [Hr Hk]; [apply list_elem_of_here|]. destruct (add_step_info_ok acc i s Hr Hk) as [a Ha].
    destruct (IH ltac:(intros; apply Hl; by apply list_elem_of_further) a) as [r Hr']. exists r. intros E. by rewrite Ha. }
  destruct (Hf (mkProductionInfo [] ∅)) as [r Hr]. eexists. intros E. by rewrite Hr.
Qed.

(** The infos are those of the productions that have an id, and the first one, without aliases
    and fields. *)
Record prods_ok (b : builder) : Prop := {
  po_length : length (production_info_ids_by_prod_id b) = n_prods;
  po_infos : NoDup (production_infos (parse_table b));
  po_from : ∀ x, x ∈ production_infos (parse_table b) → x = mkProductionInfo [] ∅ ∨ ∃ id, N.to_nat id < n_prods ∧ info_of id x;
  po_known : ∀ id k, production_info_ids_by_prod_id b !! N.to_nat id = Some (Some k) →
    ∃ x, production_infos (parse_table b) !! N.to_nat k = Some x ∧ info_of id x ∧
      length (FirstSets.steps_at g id) ≤ max_aliased_production_length (parse_table b);
}.
Lemma infos_small b : prods_ok b → length (production_infos (parse_table b)) ≤ S n_prods.
Proof.
  intros Hb. set (f := λ i, match production_info_of (E:=Empty_set) g variable_info (FirstSets.steps_at g (N.of_nat i)) with Ok x => x | _ => mkProductionInfo [] ∅ end).
  transitivity (length (mkProductionInfo [] ∅ :: map f (seq 0 n_prods))); [|cbn; by rewrite length_map, length_seq].
  apply submseteq_length, NoDup_submseteq; [apply Hb|]. intros x Hx. apply elem_of_cons.
  destruct (po_from b Hb x Hx) as [->|(id & Hid & Hof)]; [by left|]. right. apply elem_of_map. exists (N.to_nat id).
  split; [|apply elem_of_seq; lia]. unfold f. by rewrite N2Nat.id, Hof.
Qed.

(** ** How the builder changes while it works on one state *)
(** Other states stay; lookahead sets, states and infos are only added, and new states
    wait. *)
Record evolves (i : N) (b b' : builder) : Prop := {
  ev_pool : Lookahead.grows (pool_of b) (pool_of b');
  ev_item_sets : state_ids_by_item_set b `prefix_of` state_ids_by_item_set b';
  ev_paths : preceding_symbols_by_id b `prefix_of` preceding_symbols_by_id b';
  ev_queue : parse_state_queue b `prefix_of` parse_state_queue b';
  ev_extras : non_terminal_extra_states b' = non_terminal_extra_states b;
  ev_infos : production_infos (parse_table b) `prefix_of` production_infos (parse_table b');
  ev_states : ∀ j st, j ≠ N.to_nat i → pt_states (parse_table b) !! j = Some st → pt_states (parse_table b') !! j = Some st;
  ev_new : ∀ j, length (state_ids_by_item_set b) ≤ j → j < length (state_ids_by_item_set b') →
    N.of_nat j ∈ map qe_state_id (parse_state_queue b');
  ev_waits : ∀ j, j ∈ map qe_state_id (parse_state_queue b') →
    length (state_ids_by_item_set b) ≤ N.to_nat j ∨ j ∈ map qe_state_id (parse_state_queue b);
}.
Ltac evolve := split; try done; try (by intros; right); try (intros; cbn in *; lia).
#[export] Instance evolves_preorder i : PreOrder (evolves i).
Proof.
  split; [by evolve|]. intros b b' b'' [A1 A2 A3 A4 A5 A6 A7 A8 A9] [B1 B2 B3 B4 B5 B6 B7 B8 B9].
  split; try (by etrans); [auto| |].
  - intros j Hj Hj''. destruct (decide (j < length (state_ids_by_item_set b'))) as [Hj'|]; [|apply B8; lia].
    destruct B4 as [q ->]. rewrite map_app. apply elem_of_app. left. by apply A8.
  - intros j [Hj|Hj]%B9; [left; apply prefix_length in A2; lia|by apply A9].
Qed.
(** No state is added. *)
Record steady (b b' : builder) : Prop := {
  sy_item_sets : state_ids_by_item_set b' = state_ids_by_item_set b;
  sy_queue : parse_state_queue b' = parse_state_queue b;
  sy_states : length (pt_states (parse_table b')) = length (pt_states (parse_table b));
}.
#[export] Instance steady_preorder : PreOrder steady.
Proof. split; [by split|]. intros b b' b'' [A1 A2 A3] [B1 B2 B3]. split; by etrans. Qed.

(** What holds of the builder at every step: its tables, its states and the item
    sets of these, the symbols of paths exist, and conflicts are declared ones. *)
Record sound (b : builder) : Prop := {
  so_builder : builder_ok g n_terminals inlines key_map (item_set_builder b);
  so_states : states_ok g key_map b;
  so_prods : prods_ok b;
  so_kernels : ∀ s id, (s, id) ∈ state_ids_by_item_set b → kernel_ok g lg key_map (pool_of b) s;
  so_paths : ∀ l x, l ∈ preceding_symbols_by_id b → x ∈ l → symbol_known g n_terminals x;
  so_declared : ∀ c, c ∈ actual_conflicts b → c ∈ expected_conflicts g;
}.

Lemma get_production_id_spec {E} i b item : sound b → item_ok item → N.to_nat (Item.prod_id item) < n_prods →
  ∃ k b' x, get_production_id (E:=E) g variable_info b item = Ok (k, b') ∧ sound b' ∧ evolves i b b' ∧ steady b b' ∧
    item_set_builder b' = item_set_builder b ∧ pt_states (parse_table b') = pt_states (parse_table b) ∧
    production_infos (parse_table b') !! N.to_nat k = Some x ∧ info_of (Item.prod_id item) x.
Proof.
  intros Hb Hi Hp. pose proof (so_prods b Hb) as Hpo. unfold get_production_id.
  destruct (lookup_lt_is_Some_2 (production_info_ids_by_prod_id b) (N.to_nat (Item.prod_id item))) as [known Hk]; [by rewrite (po_length b Hpo)|].
  rewrite (vec_get_Some _ _ _ Hk). cbn [mbind outcome_bind]. destruct known as [k|].
  { destruct (po_known b Hpo _ _ Hk) as (x & Hx & Hof & _). exists k, b, x. split_and!; done. }
  rewrite item_production_ok by done. cbn [mbind outcome_bind]. change (pr_steps (prod_of item)) with (steps_of g item).
  rewrite (steps_of_prod _ _ _ _ _ _ _ Hti) by done. destruct (info_exists (Item.prod_id item) Hp) as [x Hx]. rewrite (Hx E). cbn [mbind outcome_bind].
  set (t := parse_table b). set (longest := Nat.max _ _).
  assert (∃ j infos, match list_find (λ y, y = x) (production_infos t) with Some (index, _) => (index, production_infos t) | None => (length (production_infos t), production_infos t ++ [x]) end = (j, infos) ∧
    infos !! j = Some x ∧ production_infos t `prefix_of` infos ∧ NoDup infos ∧ (∀ y, y ∈ infos → y ∈ production_infos t ∨ y = x)) as (j & infos & -> & Hj & Hpre & Hnd & Hor).
  { destruct (list_find _ _) as [[j y]|] eqn:Hf.
    - apply list_find_Some in Hf as (Hj & -> & _). exists j, (production_infos t). split_and!; [done|done|done|apply Hpo|by left].
    - apply list_find_None in Hf. rewrite Forall_forall in Hf. eexists _, _. split_and!; [done|by apply list_lookup_middle|by eexists| |].
      + apply NoDup_app. split_and!; [apply Hpo| |apply NoDup_singleton]. intros y Hy ->%list_elem_of_singleton. by apply (Hf x).
      + intros y [?| ->%list_elem_of_singleton]%elem_of_app; auto. }
  assert (N.to_nat (Item.prod_id item) < length (production_info_ids_by_prod_id b)) as Hlt by (by rewrite (po_length b Hpo)).
  rewrite vec_set_lt by done. cbn [mbind outcome_bind].
  set (b' := mkTableBuilder _ _ _ _ _ _ _ _ _).
  assert (prods_ok b') as Hpo'.
  { split; cbn.
    - by rewrite length_insert, (po_length b Hpo).
    - done.
    - intros y [Hy| ->]%Hor; [by apply (po_from b Hpo)|]. right. by exists (Item.prod_id item).
    - intros id k Hk'. destruct (decide (id = Item.prod_id item)) as [->|Hne].
      + rewrite list_lookup_insert_eq in Hk' by done. injection Hk' as <-. exists x. split_and!; [|done|lia].
        rewrite as_u32_small; [done|]. pose proof (n_prods_small _ _ _ _ _ _ _ Hti). apply lookup_lt_Some in Hj.
        assert (length infos ≤ S n_prods); [|lia].
        assert (length infos = length (production_infos (parse_table b')) ) as -> by done.
        set (b2 := with_table b (mkParseTable (pt_states t) (action_lists t) (pt_symbols t) infos longest (external_lex_states t))).
        assert (prods_ok (mkTableBuilder (item_set_builder b) (core_ids_by_core b) (state_ids_by_item_set b) (preceding_symbols_by_id b)
          (production_info_ids_by_prod_id b) (parse_state_queue b) (non_terminal_extra_states b) (actual_conflicts b) (parse_table b2))) as Hb2.
        { split; cbn; [apply Hpo|done|intros y [Hy| ->]%Hor; [by apply (po_from b Hpo)|right; by exists (Item.prod_id item)]|].
          intros id' k' Hk2. destruct (po_known b Hpo _ _ Hk2) as (y & Hy & ? & ?). exists y. split_and!; [by eapply prefix_lookup_Some|done|]. unfold longest, t. lia. }
        exact (infos_small _ Hb2).
      + rewrite list_lookup_insert_ne in Hk' by lia. destruct (po_known b Hpo _ _ Hk') as (y & Hy & ? & ?). exists y.
        split_and!; [by eapply prefix_lookup_Some|done|]. unfold longest, t. lia. }
  destruct (po_known b' Hpo' (Item.prod_id item) (as_u32 j)) as (y & Hy & Hofy & _).
  { cbn. by rewrite list_lookup_insert_eq. }
  exists (as_u32 j), b', y. split_and!; [done| | |by split|done|done|done|done].
  - split; [apply Hb| |done|apply Hb..]. destruct (so_states b Hb). by split.
  - evolve.
Qed.

(** Only state [i] changes. *)
Definition alike (st st' : ParseState ParseTableEntry) : Prop := ps_id st' = ps_id st ∧ core_id st' = core_id st.
Record only_state (i : N) (st' : ParseState ParseTableEntry) (b b' : builder) : Prop := {
  os_evolves : evolves i b b';
  os_steady : steady b b';
  os_builder : item_set_builder b' = item_set_builder b;
  os_infos : production_infos (parse_table b') = production_infos (parse_table b);
  os_states : pt_states (parse_table b') = <[N.to_nat i := st']> (pt_states (parse_table b));
}.
Lemma os_state i st' b b' : only_state i st' b b' → N.to_nat i < length (pt_states (parse_table b)) →
  pt_states (parse_table b') !! N.to_nat i = Some st'.
Proof. intros Ho Hi. rewrite (os_states _ _ _ _ Ho). by apply list_lookup_insert_eq. Qed.
Lemma get_state_ok {E} (b : builder) i st : pt_states (parse_table b) !! N.to_nat i = Some st → get_state (E:=E) b i = Ok st.
Proof. apply vec_get_Some. Qed.
Lemma set_state_spec {E} i b st st' : sound b → pt_states (parse_table b) !! N.to_nat i = Some st → alike st st' →
  ∃ b', set_state (E:=E) b i st' = Ok b' ∧ sound b' ∧ only_state i st' b b'.
Proof.
  intros Hb Hst [Hid Hco]. unfold set_state. rewrite vec_set_lt by (by eapply lookup_lt_Some). cbn [mbind outcome_bind].
  eexists. split; [reflexivity|]. split.
  - split; [apply Hb| |by destruct (so_prods b Hb)|apply Hb..]. destruct (so_states b Hb) as [H1 H2 H3 H4 H5 H6 H7 H8 H9 H10 H11 H12].
    split; cbn; rewrite ?length_insert; try done.
    + intros j s id Hj. destruct (H11 j s id Hj) as (sj & c & Hsj & ? & ? & ?). destruct (decide (j = N.to_nat i)) as [->|Hne].
      * exists st', c. rewrite list_lookup_insert_eq by (by eapply lookup_lt_Some). simplify_eq. by rewrite Hid, Hco.
      * exists sj, c. by rewrite list_lookup_insert_ne.
    + intros c k Hc. destruct (H12 c k Hc) as (sj & [j Hsj]%list_elem_of_lookup & Hk). destruct (decide (j = N.to_nat i)) as [->|Hne].
      * exists st'. split; [|congruence]. apply list_elem_of_lookup. exists (N.to_nat i). rewrite list_lookup_insert_eq by (by eapply lookup_lt_Some). done.
      * exists sj. split; [|done]. apply list_elem_of_lookup. exists j. by rewrite list_lookup_insert_ne.
  - split; try done.
    + evolve. intros j sj Hne Hj. cbn. by rewrite list_lookup_insert_ne.
    + split; try done. cbn. by rewrite length_insert.
Qed.

(** ** Reductions *)
Lemma non_terminal_known v : N.to_nat v < n_vars g → non_terminal v = mkSymbol NonTerminal v.
Proof. intros Hv. pose proof (n_vars_small _ _ _ _ _ _ _ Hti). unfold non_terminal. by rewrite wrap_u32_small by lia. Qed.
Definition requires_eof (i : Item.ParseItem) : bool := pr_requires_eof_lookahead (prod_of i).
(** The entry is finished and [t] can follow it. *)
Definition reduces (p : Lookahead.LookaheadSetPool I) (e : Item.ParseItemSetEntry) (t : Symbol) : Prop :=
  next_symbol (Item.item e) = None ∧ tokens_of p (Item.lookaheads e) t ∧ (requires_eof (Item.item e) = true → t = end_).
(** The action that reduces by a finished item. *)
Definition reduction (infos : list ProductionInfo) (i : Item.ParseItem) (a : ParseAction) : Prop :=
  if Item.is_augmented i then a = PAccept
  else ∃ k x, a = Reduce (non_terminal (Item.variable_index i)) (wrap_u16 (Item.step_index i)) (pr_dynamic_precedence (prod_of i)) (wrap_u16 k) ∧
    infos !! N.to_nat k = Some x ∧ info_of (Item.prod_id i) x.
Lemma reduction_grows infos infos' i a : infos `prefix_of` infos' → reduction infos i a → reduction infos' i a.
Proof.
  intros Hp. unfold reduction. destruct (Item.is_augmented i); [done|]. intros (k & x & -> & Hk & Hx). exists k, x.
  split_and!; [done|by eapply prefix_lookup_Some|done].
Qed.

(** The actions of the entries [W] in their order, each once. *)
Definition once (l : list ParseAction) (a : ParseAction) : list ParseAction := if bool_decide (a ∈ l) then l else l ++ [a].
Definition reductions_of (infos : list ProductionInfo) (W : list Item.ParseItemSetEntry) (l : list ParseAction) : Prop :=
  ∃ acts, Forall2 (λ e a, reduction infos (Item.item e) a) W acts ∧ l = foldl once [] acts.
Lemma once_spec acts : NoDup (foldl once [] acts) ∧ ∀ a, a ∈ foldl once [] acts ↔ a ∈ acts.
Proof.
  induction acts as [|x acts [IH1 IH2]] using rev_ind; [split; [apply NoDup_nil_2|done]|]. rewrite foldl_app. cbn. unfold once at 1 3.
  case_bool_decide as Hx; [split; [done|]; intros a; rewrite elem_of_app, list_elem_of_singleton, <- IH2; naive_solver|].
  split; [apply NoDup_app; split_and!; [done|by intros a Ha ->%list_elem_of_singleton|apply NoDup_singleton]|].
  intros a. by rewrite !elem_of_app, IH2.
Qed.
Lemma reductions_elem infos W l : reductions_of infos W l →
  ∃ acts, Forall2 (λ e a, reduction infos (Item.item e) a) W acts ∧ NoDup l ∧ ∀ a, a ∈ l ↔ a ∈ acts.
Proof. intros (acts & HW & ->). destruct (once_spec acts). by exists acts. Qed.
Lemma reductions_grow infos infos' W l : infos `prefix_of` infos' → reductions_of infos W l → reductions_of infos' W l.
Proof.
  intros Hp (acts & HW & ->). exists acts. split; [|done]. eapply Forall2_impl; [exact HW|]. intros e a. by apply reduction_grows.
Qed.
Lemma reductions_one infos e a : reduction infos (Item.item e) a → reductions_of infos [e] [a].
Proof. intros Ha. exists [a]. split; [by repeat constructor|done]. Qed.
Lemma reductions_nil infos W l : reductions_of infos W l → l = [] ↔ W = [].
Proof.
  intros (acts & HW & _ & Hl)%reductions_elem. split; intros ->.
  - destruct acts as [|a acts]; [by inversion HW|]. destruct (not_elem_of_nil a). apply Hl, list_elem_of_here.
  - apply Forall2_nil_inv_l in HW as ->. destruct l as [|a l]; [done|]. destruct (not_elem_of_nil a). apply Hl, list_elem_of_here.
Qed.
Lemma reductions_from infos W l a : reductions_of infos W l → a ∈ l → ∃ e, e ∈ W ∧ reduction infos (Item.item e) a.
Proof.
  intros (acts & HW & _ & Hl)%reductions_elem Ha%Hl. apply list_elem_of_lookup in Ha as [k Hk]. destruct (Forall2_lookup_r _ _ _ _ _ HW Hk) as (e & He & ?).
  exists e. split; [by eapply list_elem_of_lookup_2|done].
Qed.
Lemma reductions_snoc infos W l e a : reductions_of infos W l → reduction infos (Item.item e) a →
  reductions_of infos (W ++ [e]) (if bool_decide (a ∈ l) then l else l ++ [a]).
Proof.
  intros (acts & HW & ->) Ha. exists (acts ++ [a]). split; [by apply Forall2_app; [done|repeat constructor]|]. by rewrite foldl_app.
Qed.

(** The cell of a token on which the reductions of the entries [W] are left: their
    actions, what is noted of them, and a conflict when there is more than one action. *)
Record cell_ok (infos : list ProductionInfo) (W : list Item.ParseItemSetEntry) (actions : list ParseAction) (info : ReductionInfo) (conflict : Prop) : Prop := {
  cl_actions : reductions_of infos W actions;
  cl_info : info_for g W info;
  cl_conflict : conflict ↔ 2 ≤ length actions;
}.
Definition cell (infos : list ProductionInfo) (W : list Item.ParseItemSetEntry) (entry : option ParseTableEntry)
    (info : option ReductionInfo) (conflict : Prop) : Prop :=
  match entry, info with
  | None, None => W = [] ∧ ¬ conflict
  | Some en, Some info => W ≠ [] ∧ reusable en = true ∧ cell_ok infos W (actions_of (entry_actions en)) info conflict
  | _, _ => False
  end.
Lemma cell_grows infos infos' W entry info (c c' : Prop) : infos `prefix_of` infos' → (c ↔ c') →
  cell infos W entry info c → cell infos' W entry info c'.
Proof.
  intros Hpre Hc. unfold cell. destruct entry as [en|], info as [info|]; try done; [|tauto].
  intros (? & ? & [H1 H2 H3]). split_and!; [done|done|]. split; [by eapply reductions_grow|done|by rewrite <- Hc].
Qed.
Lemma actions_of_push l a : actions_of (al_push l a) = actions_of l ++ [a].
Proof. by destruct l. Qed.

(** One more reduction. *)
Lemma place_cell {E} infos R D W e t entry info conflicts action :
  TokenSet.wf conflicts → TokenSet.token t → survivors R D W → cell infos W entry info (t ∈ toks conflicts) → R e →
  reduction infos (Item.item e) action →
  (W ≠ [] → N.to_nat (index (rule_of e)) < n_vars g ∧ ∀ x, x ∈ W → N.to_nat (index (rule_of x)) < n_vars g) →
  ∃ r W', place_reduction (E:=E) g action (rule_of e) (prec_of (Item.item e)) (entry_actions (default new_entry entry)) (default default_reduction info) conflicts t = Ok r ∧
    survivors R (D ++ [e]) W' ∧ match r with
    | None => cell infos W' entry (Some (default default_reduction info)) (t ∈ toks conflicts)
    | Some (actions, info', conflicts') =>
        TokenSet.wf conflicts' ∧ (∀ x, x ≠ t → x ∈ toks conflicts' ↔ x ∈ toks conflicts) ∧
        cell infos W' (Some (mkEntry actions (reusable (default new_entry entry))))
          (Some (record_reduction info' (prec_of (Item.item e)) (rule_of e) (assoc_of (Item.item e)))) (t ∈ toks conflicts')
    end.
Proof.
  intros Hw Ht HD Hc He Hact Hknown. unfold place_reduction.
  destruct entry as [en|], info as [info|]; cbn [cell] in Hc; try done; cbn [default from_option id].
  2: { destruct Hc as [-> Hnc]. eexists _, [e]. split; [reflexivity|]. split; [by apply survivors_first|]. split_and!; [done|done|].
    split_and!; [done|done|]. split; [by apply reductions_one|apply (info_for_snoc g []), info_for_nil|]. split; [done|]. cbn. lia. }
  destruct Hc as (HW & Hre & [H1 H2 H3]). destruct (Hknown HW) as [Hke Hkw].
  destruct (actions_of (entry_actions en)) as [|a0 rest] eqn:Hacts; [by destruct HW; apply (reductions_nil _ _ _ H1)|].
  rewrite Precedences.compare_precedence_ok.
  2: { by intros x ->%list_elem_of_singleton. }
  2: { intros x (y & -> & Hy)%(if_symbols _ _ _ H2)%elem_of_map. by apply Hkw. }
  rewrite (info_ranks _ _ _ _ H2). cbn [mbind outcome_bind]. rewrite <- Hacts in *.
  destruct (ranks g e W) eqn:Hrank.
  - pose proof (reductions_snoc _ _ _ _ _ H1 Hact) as Hacts'. case_bool_decide as Hmem.
    + eexists _, (W ++ [e]). split; [reflexivity|]. split; [by apply survivors_equal|]. split_and!; [done|done|]. split_and!; [by destruct W|done|].
      split; [done|by apply info_for_snoc|done].
    + destruct (TokenSet.insert_spec (E:=E) conflicts t Hw Ht) as (c' & -> & Hw' & Hc'). cbn [mbind outcome_bind].
      eexists _, (W ++ [e]). split; [reflexivity|]. split; [by apply survivors_equal|]. split_and!; [done|intros x Hx; rewrite Hc'; set_solver|].
      split_and!; [by destruct W|done|]. cbn [entry_actions]. rewrite actions_of_push. split; [done|by apply info_for_snoc|].
      rewrite length_app, Hacts. cbn. split; [lia|]. intros _. rewrite Hc'. set_solver.
  - eexists _, W. split; [reflexivity|]. split; [by apply survivors_lower|]. by split_and!.
  - destruct (TokenSet.remove_spec (E:=E) conflicts t Hw Ht) as (c' & -> & Hw' & Hc'). cbn [mbind outcome_bind].
    eexists _, [e]. split; [reflexivity|]. split; [by eapply survivors_higher|]. split_and!; [done|intros x Hx; rewrite Hc'; set_solver|].
    split_and!; [done|done|]. split; [by apply reductions_one|apply (info_for_snoc g []), info_for_nil|]. rewrite Hc'. split; [set_solver|cbn; lia].
Qed.

(** ** The scan of a state *)
(** A state without gotos and reserved words yet. *)
Definition blank (st : ParseState ParseTableEntry) : Prop := nonterminal_entries st = [] ∧ reserved_words st = TokenSet.new.
(** The parents of a repetition exist, and are those in the item set of a state. *)
Record parents_known (sets : list (Item.ParseItemSet * N)) (x : AuxiliarySymbolInfo) : Prop := {
  pk_known : ∀ y, y ∈ parent_symbols x → symbol_known g n_terminals y;
  pk_recorded : recorded g inlines key_map sets (auxiliary_symbol x) (parent_symbols x);
}.
Lemma parents_known_grows sets sets' x : sets `prefix_of` sets' → parents_known sets x → parents_known sets' x.
Proof.
  intros [more ->] [H1 (s & id & Hs & Hl)]. split; [done|]. exists s, id. split; [apply elem_of_app; by left|done].
Qed.

Section state.
Context (i : N) (s C : Item.ParseItemSet) (b0 : builder) (aux0 : list AuxiliarySymbolInfo).
Notation p0 := (pool_of b0).
Context (Hs : kernel_ok g lg key_map p0 s) (HC : is_closure g inlines key_map p0 s C).
Context (Hroom : (N.of_nat (pool_len p0 + length (Item.entries C)) < U32)%N).
Notation sets0 := (state_ids_by_item_set b0).
Context (Hset : ∃ id, (s, id) ∈ sets0).
Context (Hparents : ∀ x, x ∈ aux0 → parents_known sets0 x).
Notation is_nt X := (is_non_terminal X = true).
Notation is_tok X := (is_non_terminal X = false).

(** The cell of a token after the entries of [D]. *)
Definition cell_at (infos : list ProductionInfo) (t : Symbol) (D : list Item.ParseItemSetEntry) (entry : option ParseTableEntry)
    (info : option ReductionInfo) (conflict : Prop) : Prop :=
  ∃ W, survivors (λ e, reduces p0 e t) D W ∧ cell infos W entry info conflict.
Lemma cell_at_grows infos infos' t D entry info (c c' : Prop) : infos `prefix_of` infos' → (c ↔ c') →
  cell_at infos t D entry info c → cell_at infos' t D entry info c'.
Proof. intros Hp Hc (W & HW & Hcell). exists W. split; [done|]. by eapply cell_grows. Qed.
Lemma cell_at_skip infos t D e entry info c : ¬ reduces p0 e t → cell_at infos t D entry info c → cell_at infos t (D ++ [e]) entry info c.
Proof. intros He (W & HW & Hcell). exists W. split; [by constructor|done]. Qed.

(** After the entries [d], of which those of [D t] have been looked at for token [t]. *)
Record scanned (D : Symbol → list Item.ParseItemSetEntry) (d : list Item.ParseItemSetEntry) (sc : Scan) : Prop := {
  sd_sound : sound (sc_builder sc);
  sd_evolves : evolves i b0 (sc_builder sc);
  sd_steady : steady b0 (sc_builder sc);
  sd_room : pool_len (pool_of (sc_builder sc)) ≤ pool_len p0 + length d;
  sd_terminals : successors g variable_info (pool_of (sc_builder sc)) (λ X, is_tok X) d (terminal_successors sc);
  sd_nonterminals : successors g variable_info (pool_of (sc_builder sc)) (λ X, is_nt X) d (non_terminal_successors sc);
  sd_state : ∃ st, pt_states (parse_table (sc_builder sc)) !! N.to_nat i = Some st ∧ blank st ∧
    NoDup (terminal_entries st).*1 ∧
    ∀ t, cell_at (production_infos (parse_table (sc_builder sc))) t (D t) (im_get t (terminal_entries st)) (reduction_infos sc !! t)
      (t ∈ toks (lookaheads_with_conflicts sc));
  sd_conflicts : TokenSet.wf (lookaheads_with_conflicts sc);
  sd_aux_kept : ∀ x, x ∈ aux0 → x ∈ sc_aux sc;
  sd_aux : ∀ e v, e ∈ d → next_symbol (Item.item e) = Some (non_terminal v) → auxiliary g v →
    ∃ x, x ∈ sc_aux sc ∧ auxiliary_symbol x = non_terminal v;
  sd_memo : ∀ X x, aux_node_info sc !! X = Some x → auxiliary_symbol x = X ∧ parents_known sets0 x;
  sd_parents : ∀ x, x ∈ sc_aux sc → parents_known sets0 x;
}.
Lemma entry_item e : Item.has C e → item_ok (Item.item e) ∧ item_of_grammar (Item.item e) ∧ ∃ X, Lookahead.stands p0 (Item.lookaheads e) X.
Proof.
  intros He. destruct (ic_items _ _ _ _ _ _ HC e He) as [? ?]. split_and!; [done| |done].
  by apply (closure_entry _ _ _ _ _ _ _ Hti p0 s C Hs HC).
Qed.
Lemma finished_known e e' t : Item.has C e → Item.has C e' → reduces p0 e t → reduces p0 e' t →
  e ≠ e' → N.to_nat (index (rule_of e)) < n_vars g.
Proof.
  intros He He' (Hn & Ht & _) (Hn' & Ht' & _) Hne. destruct (entry_item e He) as (Hi & Hg & _).
  destruct Hg as [[Hv _]|[? ?]]; [|by unfold rule_of; rewrite non_terminal_known].
  exfalso. apply Hne.
  assert (Item.is_augmented (Item.item e) = true) as Ha by (unfold Item.is_augmented; rewrite Hv; apply N.eqb_refl).
  pose proof (closure_eof _ _ _ _ _ _ _ Hti p0 s C Hs HC e t He Ha Ht) as ->.
  eapply (closure_same _ _ _ _ _ _ _ Hti p0 s C Hs HC); [done|done|done|].
  by eapply (closure_accept _ _ _ _ _ _ _ Hti p0 s C Hs HC e e').
Qed.
Lemma tokens_at p id X : Lookahead.pool_wf p → Lookahead.stands p id X →
  ∃ st ts, Lookahead.get (E:=ParseTableBuilderError) p id = Ok st ∧ tokens (E:=ParseTableBuilderError) st = Ok ts ∧ NoDup ts ∧ (∀ t, t ∈ ts ↔ t ∈ X) ∧ (∀ t, t ∈ ts → TokenSet.token t).
Proof.
  intros Hp HX. destruct (Lookahead.get_stands (E:=ParseTableBuilderError) p id X Hp HX) as (st & Hget & Hw & Ht).
  destruct (TokenSet.toks_iter_spec st Hw) as (ts & Hts & Hnd & Hl & _). exists st, ts. unfold tokens. rewrite Hts.
  split_and!; [done|done|done| |by intros t [? _]%Hl]. intros t. rewrite <- Ht, TokenSet.elem_of_toks by done. apply Hl.
Qed.

(** The reductions of one more entry [e], on some tokens. *)
Section finished.
Context (d rest : list Item.ParseItemSetEntry) (e : Item.ParseItemSetEntry).
Context (Hd : Item.entries C = d ++ e :: rest) (He : next_symbol (Item.item e) = None).
Definition so_far (done : list Symbol) (t : Symbol) : list Item.ParseItemSetEntry := if decide (t ∈ done) then d ++ [e] else d.
Lemma so_far_other done t t' : t' ≠ t → so_far (done ++ [t]) t' = so_far done t'.
Proof.
  intros Hne. unfold so_far. destruct (decide (t' ∈ done)) as [Ht|Ht].
  - rewrite decide_True; [done|]. apply elem_of_app. by left.
  - rewrite decide_False; [done|]. by intros [?| ->%list_elem_of_singleton]%elem_of_app.
Qed.
Lemma so_far_done done t : so_far (done ++ [t]) t = d ++ [e].
Proof. unfold so_far. rewrite decide_True; [done|]. apply elem_of_app. right. apply list_elem_of_here. Qed.
Lemma so_far_new done t : t ∉ done → so_far done t = d.
Proof. intros Ht. unfold so_far. by rewrite decide_False. Qed.
Lemma has_e : Item.has C e.
Proof. unfold Item.has. rewrite Hd. set_solver. Qed.
Lemma has_d x : x ∈ d → Item.has C x.
Proof. intros Hx. unfold Item.has. rewrite Hd. apply elem_of_app. by left. Qed.
Lemma not_before : e ∉ d.
Proof.
  intros [k Hk]%list_elem_of_lookup. assert (k = length d); [|apply lookup_lt_Some in Hk; lia].
  apply (Item.rank_unique C k (length d) e e); [apply (ic_set _ _ _ _ _ _ HC)| | |done]; rewrite Hd;
    [by apply lookup_app_l_Some|by apply list_lookup_middle].
Qed.
Lemma add_reduction_spec action done t sc :
  scanned (so_far done) d sc → t ∉ done → TokenSet.token t → tokens_of p0 (Item.lookaheads e) t →
  reduction (production_infos (parse_table (sc_builder sc))) (Item.item e) action →
  ∃ sc', add_reduction (E:=ParseTableBuilderError) g i (requires_eof (Item.item e)) action (rule_of e) (prec_of (Item.item e)) (assoc_of (Item.item e)) sc t = Ok sc' ∧
    scanned (so_far (done ++ [t])) d sc' ∧ production_infos (parse_table (sc_builder sc')) = production_infos (parse_table (sc_builder sc)).
Proof.
  intros Hsc Ht Htok Htl Hact. unfold add_reduction.
  destruct Hsc as [H1 H2 H3 H4 H5 H6 (st & Hst & Hnt & Hnd & Hc) H8 H9 H10 H11 H12].
  assert (∀ t', t' ≠ t → so_far (done ++ [t]) t' = so_far done t') as Hother by (intros t' ?; by apply so_far_other).
  pose proof (Hc t) as Hct. rewrite so_far_new in Hct by done.
  destruct (requires_eof (Item.item e) && negb (bool_decide (t = end_))) eqn:Hskip.
  { apply andb_prop in Hskip as [Heof Hend%negb_true_iff%bool_decide_eq_false]. exists sc. split_and!; [done| |done].
    split; try done. exists st. split; [done|]. split; [done|]. split; [done|]. intros t'. destruct (decide (t' = t)) as [->|Hne]; [|rewrite Hother by done; apply Hc].
    rewrite so_far_done. apply cell_at_skip; [|done]. intros (_ & _ & Hx). by apply Hend, Hx. }
  assert (reduces p0 e t) as Hred.
  { split_and!; [done|done|]. intros Heof. rewrite Heof in Hskip. by apply negb_false_iff, bool_decide_eq_true in Hskip. }
  destruct Hct as (W & HW & Hcell0).
  assert (∀ x, x ∈ W → N.to_nat (index (rule_of x)) < n_vars g ∧ N.to_nat (index (rule_of e)) < n_vars g) as Hknown.
  { intros x Hx. destruct (survivors_in _ _ _ _ _ HW Hx) as [Hxd Hxr]. assert (x ≠ e) as Hne by (intros ->; by apply not_before).
    split; [apply (finished_known x e t)|apply (finished_known e x t)]; auto using has_d, has_e. }
  rewrite (get_state_ok _ _ _ Hst). cbn [mbind outcome_bind].
  destruct (place_cell (E:=ParseTableBuilderError) _ _ _ W e t _ _ (lookaheads_with_conflicts sc) action H8 Htok HW Hcell0 Hred Hact) as (r & W' & -> & HW' & Hr).
  { intros Hne. split; [|intros x Hx; by apply Hknown]. destruct W as [|x W]; [done|]. apply (Hknown x), list_elem_of_here. }
  cbn [mbind outcome_bind]. destruct r as [[[actions info'] conflicts']|].
  - destruct Hr as (Hw' & Hconf & Hcell).
    destruct (set_state_spec (E:=ParseTableBuilderError) i (sc_builder sc) st (with_terminals st (im_insert t (mkEntry actions (reusable (default new_entry (im_get t (terminal_entries st))))) (terminal_entries st))) H1 Hst)
      as (b' & -> & Hsound & Hos); [done|]. cbn [mbind outcome_bind].
    eexists. split; [reflexivity|]. split; [|by apply (os_infos _ _ _ _ Hos)]. pose proof (os_builder _ _ _ _ Hos) as Hib.
    assert (pool_of b' = pool_of (sc_builder sc)) as Hpool by (unfold pool_of; by rewrite Hib).
    split; cbn; rewrite ?Hpool; try done.
    + by etrans; [|apply (os_evolves _ _ _ _ Hos)].
    + by etrans; [|apply (os_steady _ _ _ _ Hos)].
    + eexists. split; [apply (os_state _ _ _ _ Hos); by eapply lookup_lt_Some|]. cbn. split; [done|]. split; [by apply im_insert_nodup|].
      intros t'. rewrite (os_infos _ _ _ _ Hos). destruct (decide (t' = t)) as [->|Hne].
      * rewrite im_get_insert_eq, lookup_insert_eq, so_far_done. by exists W'.
      * rewrite im_get_insert_ne, lookup_insert_ne, Hother by done. eapply cell_at_grows; [done| |apply (Hc t')]. by rewrite Hconf.
  - eexists. split; [reflexivity|]. split; [|done]. split; cbn; try done. exists st. split; [done|]. split; [done|]. split; [done|].
    intros t'. destruct (decide (t' = t)) as [->|Hne].
    + rewrite lookup_insert_eq, so_far_done. by exists W'.
    + rewrite lookup_insert_ne, Hother by done. apply (Hc t').
Qed.

(** The scan goes on with another builder. *)
Lemma scanned_builder R k sc b' : scanned R k sc → sound b' → evolves i (sc_builder sc) b' → steady (sc_builder sc) b' →
  item_set_builder b' = item_set_builder (sc_builder sc) →
  (∀ st, pt_states (parse_table (sc_builder sc)) !! N.to_nat i = Some st → ∃ st', pt_states (parse_table b') !! N.to_nat i = Some st' ∧
     terminal_entries st' = terminal_entries st ∧ (blank st → blank st')) →
  scanned R k (with_sc_builder sc b').
Proof.
  intros [H1 H2 H3 H4 H5 H6 (st & Hst & Hnt & Hnd & Hc) H8 H9 H10 H11 H12] Hb Hev Hsy Hib Hs'.
  assert (pool_of b' = pool_of (sc_builder sc)) as Hpool by (unfold pool_of; by rewrite Hib).
  split; cbn; rewrite ?Hpool; try done; [by etrans|by etrans|].
  destruct (Hs' st Hst) as (st' & Hst' & Ht' & Hn'). exists st'. rewrite Ht'. split; [done|]. split; [by apply Hn'|]. split; [done|].
  intros t. eapply cell_at_grows; [apply (ev_infos _ _ _ Hev)|done|apply Hc].
Qed.
Lemma reduce_action_spec b : sound b → ∃ action b', reduce_action (E:=ParseTableBuilderError) g variable_info b (Item.item e) = Ok (action, b') ∧
  sound b' ∧ evolves i b b' ∧ steady b b' ∧ item_set_builder b' = item_set_builder b ∧ pt_states (parse_table b') = pt_states (parse_table b) ∧
  reduction (production_infos (parse_table b')) (Item.item e) action.
Proof.
  intros Hb. unfold reduce_action, reduction. destruct (Item.is_augmented (Item.item e)) eqn:Ha.
  { exists PAccept, b. split_and!; done. }
  destruct (entry_item e has_e) as (Hi & Hg & _).
  assert (N.to_nat (Item.prod_id (Item.item e)) < n_prods) as Hp.
  { destruct Hg as [[Hv _]|[_ ?]]; [|done]. unfold Item.is_augmented in Ha. by rewrite Hv, N.eqb_refl in Ha. }
  destruct (get_production_id_spec (E:=ParseTableBuilderError) i b (Item.item e) Hb Hi Hp) as (k & b' & x & -> & ? & ? & ? & ? & ? & Hk & Hx).
  cbn [mbind outcome_bind]. rewrite item_production_ok by done. cbn [mbind outcome_bind].
  eexists _, b'. split; [reflexivity|]. split_and!; [done..|]. exists k, x. done.
Qed.
Lemma scan_finished_spec sc : scanned (λ _, d) d sc →
  ∃ sc', scan_finished (E:=ParseTableBuilderError) g variable_info i sc e = Ok sc' ∧ scanned (λ _, d ++ [e]) (d ++ [e]) sc'.
Proof.
  intros Hsc. unfold scan_finished. destruct (entry_item e has_e) as (Hi & Hg & X & HX).
  destruct (reduce_action_spec _ (sd_sound _ _ _ Hsc)) as (action & b1 & -> & Hb1 & Hev1 & Hsy1 & Hib1 & Hst1 & Hact).
  cbn [mbind outcome_bind]. destruct (item_precedence_ok (E:=ParseTableBuilderError) (Item.item e) Hi) as (-> & _). cbn [mbind outcome_bind].
  rewrite item_associativity_ok by done. cbn [mbind outcome_bind].
  rewrite item_production_ok by done. cbn [mbind outcome_bind].
  assert (scanned (λ _, d) d (with_sc_builder sc b1)) as Hsc1.
  { apply scanned_builder; try done. intros st Hst. exists st. by rewrite Hst1. }
  destruct (sd_state _ _ _ Hsc1) as (st & Hst & _). cbn in Hst.
  set (gate := if pr_requires_eof_lookahead _ then _ else _).
  assert (∃ b2, gate = Ok b2 ∧ pool_of b2 = pool_of b1 ∧ sound b2 ∧ production_infos (parse_table b2) = production_infos (parse_table b1) ∧
    scanned (λ _, d) d (with_sc_builder sc b2)) as (b2 & -> & Hp2 & Hb2 & Hi2 & Hsc2).
  { subst gate. destruct (pr_requires_eof_lookahead _); [|by exists b1].
    rewrite (get_state_ok _ _ _ Hst). cbn [mbind outcome_bind].
    destruct (set_state_spec (E:=ParseTableBuilderError) i b1 st (with_eof_gated st) Hb1 Hst) as (b2 & -> & Hb2 & Hos); [done|].
    exists b2. split_and!; [done| |done|apply (os_infos _ _ _ _ Hos)|].
    - unfold pool_of. by rewrite (os_builder _ _ _ _ Hos).
    - change (with_sc_builder sc b2) with (with_sc_builder (with_sc_builder sc b1) b2).
      apply scanned_builder; [done|done|apply (os_evolves _ _ _ _ Hos)|apply (os_steady _ _ _ _ Hos)|apply (os_builder _ _ _ _ Hos)|].
      intros st' Hst'. cbn in Hst'. simplify_eq. exists (with_eof_gated st). split; [|done]. apply (os_state _ _ _ _ Hos). by eapply lookup_lt_Some. }
  cbn [mbind outcome_bind].
  assert (Lookahead.grows p0 (pool_of b2)) as Hg2 by apply (ev_pool _ _ _ (sd_evolves _ _ _ Hsc2)).
  destruct (tokens_at (pool_of b2) (Item.lookaheads e) X) as (set & ts & -> & Hts & Hnd & HtX & Htok);
    [apply (bk_pool _ _ _ _ _ (so_builder b2 Hb2))|by eapply Lookahead.stands_grows|].
  cbn [mbind outcome_bind]. rewrite Hts. cbn [mbind outcome_bind].
  set (infos := production_infos (parse_table b2)) in *.
  destruct (for_each_inv (add_reduction (E:=ParseTableBuilderError) g i (pr_requires_eof_lookahead (prod_of (Item.item e))) action
      (non_terminal (Item.variable_index (Item.item e))) (prec_of (Item.item e)) (assoc_of (Item.item e)))
    (λ done sc', scanned (so_far done) d sc' ∧ production_infos (parse_table (sc_builder sc')) = infos) ts (with_sc_builder sc b2)) as (sc' & Hfor & Hsc' & _).
  - split; [|done]. exact Hsc2.
  - intros done_ t later sc1 Hsplit [Hsc1' Hinf].
    assert (t ∈ ts) as Htin by (rewrite Hsplit; set_solver).
    destruct (add_reduction_spec action done_ t sc1 Hsc1') as (sc2 & Hadd & Hsc2' & Hinf2).
    + rewrite Hsplit in Hnd. apply NoDup_app in Hnd as (_ & Hdis & _). intros Hdone. by apply (Hdis t Hdone), list_elem_of_here.
    + by apply Htok.
    + exists X. split; [done|by apply HtX].
    + by rewrite Hinf, Hi2.
    + exists sc2. split_and!; [exact Hadd|done|by rewrite Hinf2].
  - exists sc'. split; [exact Hfor|]. destruct Hsc' as [A1 A2 A3 A4 A5 A6 (st' & Hst' & Hnt & Hndk & Hc) A8 A9 A10 A11 A12]. split; try done.
    + rewrite length_app. cbn. lia.
    + apply successors_skip; [done|]. intros Y _. by apply advances_done.
    + apply successors_skip; [done|]. intros Y _. by apply advances_done.
    + exists st'. split; [done|]. split; [done|]. split; [done|]. intros t. specialize (Hc t). unfold so_far in Hc.
      destruct (decide (t ∈ ts)) as [|Hts']; [done|]. apply cell_at_skip; [|done]. intros (_ & (Y & HY & Ht) & _).
      apply Hts', HtX. by rewrite (Lookahead.stands_fun _ _ _ _ HX HY).
    + intros x v [Hx| ->%list_elem_of_singleton]%elem_of_app Hn Hv; [by eapply A10|congruence].
Qed.
End finished.

(** One more entry that goes on with a symbol. *)
Lemma aux_parent_ok X e : Item.has C e → (next_symbol (Item.item e) = Some X → ∃ v, X = non_terminal v ∧ auxiliary g v) →
  ∃ r, aux_parent (E:=ParseTableBuilderError) g X e = Ok r ∧ opt_ok (symbol_known g n_terminals) r ∧
    ∀ y, r = Some y ↔ next_symbol (Item.item e) = Some X ∧ ¬ auxiliary g (Item.variable_index (Item.item e)) ∧ y = rule_of e.
Proof.
  intros He HX. destruct (entry_item e He) as (Hi & Hg & _). unfold aux_parent. rewrite item_symbol_ok by done. cbn [mbind outcome_bind].
  case_bool_decide as Hn; [|exists None; split_and!; [done|done|]; intros y; split; [done|by intros (? & _)]]. destruct (HX Hn) as (v & -> & Hv).
  assert (N.to_nat (Item.variable_index (Item.item e)) < n_vars g) as Hlt.
  { destruct Hg as [[_ Hp]|[? _]]; [|done]. exfalso. apply fmap_Some in Hn as (st & Hst & Hx). rewrite (steps_of_start _ _ Hp) in Hst.
    destruct (N.to_nat (Item.step_index (Item.item e))); [|done]. injection Hst as <-.
    change (step_symbol (mkStep 0 0 0 0 NO_RESERVED_WORDS (kind_code NonTerminal))) with (non_terminal 0) in Hx.
    apply (ti_start_kind _ _ _ _ _ _ _ Hti). destruct Hv as (x & Hv & Ha). assert (N.to_nat v < n_vars g) by (by eapply lookup_lt_Some).
    rewrite !non_terminal_known in Hx by (done || apply (in_vars _ _ _ _ _ _ Hin)). injection Hx as <-. by exists x. }
  destruct (lookup_lt_is_Some_2 (sg_variables g) _ Hlt) as [x Hx]. rewrite (vec_get_Some _ _ _ Hx). cbn. eexists. split; [done|].
  destruct (is_auxiliary x) eqn:Ha.
  { split; [done|]. intros y. split; [done|]. intros (_ & Hna & _). destruct Hna. by exists x. }
  split; [|intros y; split; [intros [= <-]|by intros (_ & _ & ->)]; split_and!; [done| |done]; intros (x' & Hx' & Ha'); congruence]. change (symbol_known g n_terminals (non_terminal (Item.variable_index (Item.item e)))). by rewrite non_terminal_known.
Qed.
Lemma parents_spec X ps : (∃ v, X = non_terminal v ∧ auxiliary g v) → mapM (M:=outcome ParseTableBuilderError) (aux_parent (E:=ParseTableBuilderError) g X) (Item.entries C) = Ok ps →
  ∀ y : Symbol, y ∈ omap id ps ↔ parent_in g inlines key_map s X y.
Proof.
  intros HX Hps y. rewrite list_elem_of_omap. split.
  - intros (o & Ho & Hy). cbn in Hy. subst o. destruct (mapM_elem _ _ _ _ Hps Ho) as (e & He & Hr).
    destruct (aux_parent_ok X e He (λ _, HX)) as (r & Hr' & _ & Hiff). rewrite Hr in Hr'. injection Hr' as <-.
    destruct (proj1 (Hiff y) eq_refl) as (Hn & Ha & ->). exists (Item.item e). split_and!; [by apply (ic_origin _ _ _ _ _ _ HC)|done..].
  - intros (j & Hj & Hn & Ha & ->). destruct (ic_complete _ _ _ _ _ _ HC j Hj) as (e & He & Hr).
    destruct (aux_parent_ok X e He (λ _, HX)) as (r & Hr' & _ & Hiff). destruct (entry_item e He) as (Hei & _).
    assert (r = Some (non_terminal (Item.variable_index j))) as ->.
    { apply Hiff. unfold Item.entry_rank in Hr. pose proof Hr as [= _ Hv _ _ _]. unfold rule_of. rewrite Hv. split_and!; [|done|done].
      rewrite (rank_next_symbol _ _ _ _ _ _ _ Hti _ _ Hei (origin_ok _ _ _ _ _ _ _ Hti p0 s Hs j Hj) Hr). done. }
    exists (Some (non_terminal (Item.variable_index j))). split; [|done].
    destruct (mapM_elem_r _ _ _ _ Hps He) as (r' & Hr2 & Hin'). rewrite Hr' in Hr2. by injection Hr2 as <-.
Qed.
Lemma get_auxiliary_spec X : (∃ v, X = non_terminal v ∧ auxiliary g v) →
  ∃ x, get_auxiliary_node_info (E:=ParseTableBuilderError) g C X = Ok x ∧ auxiliary_symbol x = X ∧ parents_known sets0 x.
Proof.
  intros HX. unfold get_auxiliary_node_info.
  destruct (mapM_total (aux_parent (E:=ParseTableBuilderError) g X) (Item.entries C)) as [ps Hps].
  { intros e He. destruct (aux_parent_ok X e He) as (r & ? & _); [done|by exists r]. }
  rewrite Hps. cbn. eexists. split_and!; [done|done|]. split; cbn.
  - intros y (o & Ho & Hy)%list_elem_of_omap. cbn in Hy. subst o.
    destruct (mapM_elem _ _ _ _ Hps Ho) as (e & He & Hr). destruct (aux_parent_ok X e He) as (r & Hr' & Hk & _); [done|].
    rewrite Hr in Hr'. by injection Hr' as <-.
  - destruct Hset as [id Hid]. exists s, id. split; [done|]. by apply parents_spec.
Qed.
Lemma scan_add_spec D d rest sc e X m (P : Symbol → Prop) :
  scanned D d sc → Item.entries C = d ++ e :: rest → next_symbol (Item.item e) = Some X → P X →
  successors g variable_info (pool_of (sc_builder sc)) P d m →
  ∃ p' S, add_successor (E:=ParseTableBuilderError) (pool_of (sc_builder sc)) m X (advance g variable_info (Item.item e) X)
      (Item.lookaheads e) (Item.following_reserved_word_set e) = Ok (p', <[X := S]> m) ∧
    sound (with_lookaheads (sc_builder sc) p') ∧ Lookahead.grows (pool_of (sc_builder sc)) p' ∧
    pool_len p' ≤ pool_len p0 + length (d ++ [e]) ∧ successors g variable_info p' P (d ++ [e]) (<[X := S]> m).
Proof.
  intros Hsc Hd Hn HP Hm. pose proof (sd_sound _ _ _ Hsc) as Hb. pose proof (sd_room _ _ _ Hsc) as Hr.
  assert (Item.has C e) as He by (unfold Item.has; rewrite Hd; set_solver).
  assert (∀ x, x ∈ d → Item.has C x) as Hdc by (intros x Hx; unfold Item.has; rewrite Hd; apply elem_of_app; by left).
  destruct (entry_item e He) as (Hi & _ & Y & HY).
  assert (Lookahead.grows p0 (pool_of (sc_builder sc))) as Hg0 by apply (ev_pool _ _ _ (sd_evolves _ _ _ Hsc)).
  assert (all_stand (pool_of (sc_builder sc)) d) as Hall.
  { intros x Hx. destruct (entry_item x (Hdc x Hx)) as (_ & _ & Z & HZ). exists Z. by eapply Lookahead.stands_grows. }
  set (a := Item.mkEntry (advance g variable_info (Item.item e) X) (Item.lookaheads e) (Item.following_reserved_word_set e)).
  destruct (add_successor_spec (E:=ParseTableBuilderError) (pool_of (sc_builder sc)) m X (advances g variable_info d X) a)
    as (p' & S & Hadd & Hw & Hgr & Hlen & Hga).
  - apply (bk_pool _ _ _ _ _ (so_builder _ Hb)).
  - rewrite Hd, length_app in Hroom. cbn in Hroom. lia.
  - by eapply successors_default.
  - by apply advances_stand.
  - eapply Item.item_ok_keyed; [apply (in_keys _ _ _ _ _ _ Hin)|]. by apply (advance_ok str_pool g lg variable_info inlines key_map items_bound Hti).
  - exists Y. by eapply Lookahead.stands_grows.
  - exists p', S. split_and!; [exact Hadd| |done|rewrite length_app; cbn; lia|].
    + destruct Hb as [B1 B2 B3 B4 B5 B6]. split; [| | | |exact B5|exact B6].
      * by apply builder_ok_pool.
      * by destruct B2.
      * by destruct B3.
      * intros s' id Hs'. eapply (kernel_ok_grows _ _ _ (pool_of (sc_builder sc))); [done|by eapply B4].
    + apply successors_insert; [by eapply successors_grows|done|done|].
      rewrite advances_app. unfold advances at 2, advanced. cbn. by rewrite decide_True.
Qed.

Lemma scan_unfinished_spec d rest sc e X : scanned (λ _, d) d sc → Item.entries C = d ++ e :: rest → next_symbol (Item.item e) = Some X →
  ∃ sc', scan_unfinished (E:=ParseTableBuilderError) g variable_info C sc e X = Ok sc' ∧ scanned (λ _, d ++ [e]) (d ++ [e]) sc'.
Proof.
  intros Hsc Hd Hn. assert (Item.has C e) as He by (unfold Item.has; rewrite Hd; set_solver).
  destruct (entry_item e He) as (Hi & _ & _). pose proof (next_known _ _ _ _ _ _ _ Hti _ _ Hi Hn) as HX.
  assert (∀ t, ¬ reduces p0 e t) as Hskip by (intros t (? & _); congruence).
  destruct (is_non_terminal X) eqn:Hnt; unfold scan_unfinished; rewrite Hnt.
  - assert (kind X = NonTerminal) as Hk by (unfold is_non_terminal in Hnt; by apply bool_decide_eq_true in Hnt).
    unfold symbol_known in HX. rewrite Hk in HX. assert (X = non_terminal (index X)) as HXe.
    { rewrite non_terminal_known by done. destruct X as [k v]. cbn in *. by subst. }
    destruct (lookup_lt_is_Some_2 (sg_variables g) _ HX) as [v Hv]. rewrite (vec_get_Some _ _ _ Hv). cbn [mbind outcome_bind].
    destruct (lookup_lt_is_Some_2 variable_info (N.to_nat (index X))) as [vi Hvi]; [rewrite (ti_info _ _ _ _ _ _ _ Hti); done|].
    set (noted := if is_auxiliary v then _ else _).
    assert (∃ memo aux, noted = Ok (memo, aux) ∧ (∀ x, x ∈ sc_aux sc → x ∈ aux) ∧
      (auxiliary g (index X) → ∃ x, x ∈ aux ∧ auxiliary_symbol x = X) ∧ (∀ Y x, memo !! Y = Some x → auxiliary_symbol x = Y ∧ parents_known sets0 x) ∧
      ∀ x, x ∈ aux → parents_known sets0 x) as (memo & aux & -> & Hkept & Haux & Hmemo & Hpar).
    { subst noted. destruct (is_auxiliary v) eqn:Ha.
      - assert (∃ x, (match aux_node_info sc !! X with Some info => Ok info | None => get_auxiliary_node_info (E:=ParseTableBuilderError) g C X end) = Ok x ∧ auxiliary_symbol x = X ∧ parents_known sets0 x) as (x & -> & Hx & Hxp).
        { destruct (aux_node_info sc !! X) as [x|] eqn:Hx; [exists x; split; [done|by eapply (sd_memo _ _ _ Hsc)]|].
          apply get_auxiliary_spec. exists (index X). split; [done|by exists v]. }
        cbn [mbind outcome_bind]. eexists _, _. split_and!; [reflexivity|set_solver|intros _; exists x; split; [set_solver|done]| |].
        + intros Y y [[-> <-]|[_ Hy]]%lookup_insert_Some; [done|by eapply (sd_memo _ _ _ Hsc)].
        + intros y [Hy| ->%list_elem_of_singleton]%elem_of_app; [by apply (sd_parents _ _ _ Hsc)|done].
      - eexists _, _. split_and!; [reflexivity|done| |apply (sd_memo _ _ _ Hsc)|apply (sd_parents _ _ _ Hsc)]. intros (x & Hx & Hax). congruence. }
    cbn [mbind outcome_bind].
    set (flag := if is_hidden v then _ else _). assert (flag = Ok (inherits g variable_info X)) as ->.
    { subst flag. unfold inherits. rewrite Hv, Hvi, Hnt. destruct (is_hidden v); [|done]. by rewrite (vec_get_Some _ _ _ Hvi). }
    cbn [mbind outcome_bind]. fold (advance g variable_info (Item.item e) X).
    destruct (scan_add_spec _ d rest sc e X (non_terminal_successors sc) (λ X, is_nt X) Hsc Hd Hn Hnt (sd_nonterminals _ _ _ Hsc)) as (p' & S & -> & Hb' & Hgr & Hlen & Hsucc).
    cbn [mbind outcome_bind]. eexists. split; [reflexivity|]. pose proof Hsc as [A1 A2 A3 A4 A5 A6 (st & Hst & Hnte & Hnd & Hc) A8 A9 A10 A11 A12].
    split; cbn; try done.
    + etrans; [exact A2|]. by evolve.
    + etrans; [exact A3|]. by split.
    + apply successors_skip; [|intros Y HY; apply (advances_other _ _ _ _ X Hn); congruence].
      apply (successors_grows _ _ (pool_of (sc_builder sc))); [done| |done]. intros x Hx.
      destruct (entry_item x) as (_ & _ & Z & HZ); [unfold Item.has; rewrite Hd; apply elem_of_app; by left|]. exists Z. eapply Lookahead.stands_grows; [|done]. apply (ev_pool _ _ _ A2).
    + exists st. split; [done|]. split; [done|]. split; [done|]. intros t. by apply cell_at_skip.
    + auto.
    + intros x w [Hx| ->%list_elem_of_singleton]%elem_of_app Hnx Hw.
      * destruct (A10 x w Hx Hnx Hw) as (y & Hy & ?). exists y. auto.
      * rewrite Hn in Hnx. injection Hnx as ->. cbn in Haux. destruct Haux as (y & ? & ?); [|by exists y].
        rewrite wrap_u32_small; [done|]. destruct Hw as (? & Hw%lookup_lt_Some & _). pose proof (n_vars_small _ _ _ _ _ _ _ Hti). unfold n_vars in *. lia.
  - fold (advance g variable_info (Item.item e) X).
    assert (Item.successor (Item.item e) = advance g variable_info (Item.item e) X) as ->.
    { unfold advance, inherits. rewrite Hnt. destruct (sg_variables g !! N.to_nat (index X)), (variable_info !! N.to_nat (index X)); done. }
    destruct (scan_add_spec _ d rest sc e X (terminal_successors sc) (λ X, is_tok X) Hsc Hd Hn Hnt (sd_terminals _ _ _ Hsc)) as (p' & S & -> & Hb' & Hgr & Hlen & Hsucc).
    cbn [mbind outcome_bind]. eexists. split; [reflexivity|]. pose proof Hsc as [A1 A2 A3 A4 A5 A6 (st & Hst & Hnte & Hnd & Hc) A8 A9 A10 A11 A12].
    split; cbn; try done.
    + etrans; [exact A2|]. by evolve.
    + etrans; [exact A3|]. by split.
    + apply successors_skip; [|intros Y HY; apply (advances_other _ _ _ _ X Hn); congruence].
      apply (successors_grows _ _ (pool_of (sc_builder sc))); [done| |done]. intros x Hx.
      destruct (entry_item x) as (_ & _ & Z & HZ); [unfold Item.has; rewrite Hd; apply elem_of_app; by left|]. exists Z. eapply Lookahead.stands_grows; [|done]. apply (ev_pool _ _ _ A2).
    + exists st. split; [done|]. split; [done|]. split; [done|]. intros t. by apply cell_at_skip.
    + intros x w [Hx| ->%list_elem_of_singleton]%elem_of_app Hnx Hw; [by eapply A10|]. rewrite Hn in Hnx. injection Hnx as ->. done.
Qed.
(** The scan of all entries. *)
Lemma scan_items_spec : sound b0 →
  (∃ st, pt_states (parse_table b0) !! N.to_nat i = Some st ∧ terminal_entries st = [] ∧ blank st) →
  ∃ sc, for_each (scan_entry (E:=ParseTableBuilderError) g variable_info i C) (mkScan b0 ∅ ∅ TokenSet.new ∅ ∅ aux0) (Item.entries C) = Ok sc ∧
    scanned (λ _, Item.entries C) (Item.entries C) sc.
Proof.
  intros Hb (st & Hst & Ht & Hn).
  apply (for_each_inv (scan_entry (E:=ParseTableBuilderError) g variable_info i C) (λ d sc, scanned (λ _, d) d sc)).
  - split; cbn; try done; try (by apply successors_nil); try lia.
    + exists st. rewrite Ht. split; [done|]. split; [done|]. split; [apply NoDup_nil_2|]. intros t. rewrite lookup_empty, TokenSet.toks_new. exists [].
      split; [constructor|]. split; [done|]. set_solver.
    + by intros e v ?%not_elem_of_nil.
  - intros d e rest sc Hd Hsc. assert (Item.has C e) as He by (unfold Item.has; rewrite Hd; set_solver).
    unfold scan_entry. rewrite item_symbol_ok by (by apply entry_item). cbn [mbind outcome_bind].
    destruct (next_symbol (Item.item e)) as [X|] eqn:Hnx; [by eapply scan_unfinished_spec|by eapply scan_finished_spec].
Qed.
End state.
End scan.
