(* ===== verification/BuildActions.v ===== *)
(** * [build_tables/build_parse_table.rs]: the shifts and gotos of a state

    Each set of successors becomes a state, found or made, and the action or goto
    that leads to it. *)
From S2P Require Import Prelude BitVec Symbols TokenSet Ordering StrPool Grammars Lookaheads Items ItemSets FirstSets FollowSets Additions Closure Tables Outcomes BuildTable BuildConflicts BuildStates BuildClosure BuildInputs BuildVerdicts BuildGoto BuildScan.
Import PT Builder.

Lemma btree_entries_perm {V} (m : gmap Symbol V) : btree_entries m ≡ₚ map_to_list m.
Proof. apply sort_by_perm. Qed.
Lemma elem_of_btree_entries {V} (m : gmap Symbol V) k v : (k, v) ∈ btree_entries m ↔ m !! k = Some v.
Proof. rewrite btree_entries_perm. apply elem_of_map_to_list. Qed.
Lemma btree_entries_keys {V} (m : gmap Symbol V) : NoDup (btree_entries m).*1.
Proof. rewrite btree_entries_perm. apply NoDup_fst_map_to_list. Qed.
Lemma length_btree_entries {V} (m : gmap Symbol V) : length (btree_entries m) = size m.
Proof. rewrite (Permutation_length (btree_entries_perm m)). apply length_map_to_list. Qed.

Section actions.
Context {H : Type} (str_pool : StrPool H) (g : SyntaxGrammar) (lg : LexicalGrammar).
Context {F : Type} (variable_info : list (VariableInfo F)).
Context {I : Type} {IS : IndexSet I} {MI : MapIter}.
Context (inlines : InlinedProductionMap) (key_map : Item.ItemKeyMap) (items_bound : nat).
Context (Hti : table_inputs str_pool g lg variable_info inlines key_map items_bound).
Notation n_terminals := (length (lg_variables lg)).
Notation n_prods := (length (sg_productions g)).
Notation item_ok := (Item.item_ok g key_map).
Notation next_symbol := (next_symbol g).
Notation builder := (ParseTableBuilder I).
Notation Hin := (ti_inputs _ _ _ _ _ _ _ Hti).
Notation pool_len p := (length (is_elems (Lookahead.sets p))).
Notation sound := (sound g lg variable_info inlines key_map).

(** ** States to come *)
(** The repetitions of the items of a set are known. *)
Definition covers (aux : list AuxiliarySymbolInfo) (s : Item.ParseItemSet) : Prop :=
  ∀ e, Item.has s e → auxiliary g (Item.variable_index (Item.item e)) →
    ∃ x, x ∈ aux ∧ auxiliary_symbol x = non_terminal (Item.variable_index (Item.item e)).
Notation parents_known := (parents_known g lg inlines key_map).
Record waiting_ok (b : builder) (q : ParseStateQueueEntry) : Prop := {
  wo_set : ∃ s, state_ids_by_item_set b !! N.to_nat (qe_state_id q) = Some (s, qe_state_id q) ∧ covers (preceding_auxiliary_symbols q) s;
  wo_state : ∃ st, pt_states (parse_table b) !! N.to_nat (qe_state_id q) = Some st ∧ terminal_entries st = [] ∧ blank st;
  wo_parents : ∀ x, x ∈ preceding_auxiliary_symbols q → parents_known (state_ids_by_item_set b) x;
}.
Record queue_ok (b : builder) : Prop := {
  qo_waiting : ∀ q, q ∈ parse_state_queue b → waiting_ok b q;
  qo_distinct : NoDup (map qe_state_id (parse_state_queue b));
}.
Definition idle (i : N) (b : builder) : Prop := i ∉ map qe_state_id (parse_state_queue b).
Lemma waiting_evolves i b b' q : evolves i b b' → qe_state_id q ≠ i → waiting_ok b q → waiting_ok b' q.
Proof.
  intros Hev Hne [(s & Hs & Hc) (st & Hst & ? & ?) Hp]. split.
  - exists s. split; [|done]. eapply prefix_lookup_Some; [done|apply Hev].
  - exists st. split; [|done]. apply (ev_states _ _ _ Hev); [lia|done].
  - intros x Hx. eapply parents_known_grows; [apply (ev_item_sets _ _ _ Hev)|by apply Hp].
Qed.
Lemma queue_evolves i b b' : evolves i b b' → parse_state_queue b' = parse_state_queue b → idle i b → queue_ok b → queue_ok b'.
Proof.
  intros Hev Hq Hi [H1 H2]. split; rewrite Hq; [|done]. intros q Hin. eapply waiting_evolves; [done| |by apply H1].
  intros <-. apply Hi, elem_of_map. by exists q.
Qed.

(** The state that stands for a set of items. *)
Definition target (b : builder) (s : Item.ParseItemSet) (id : N) : Prop :=
  ∃ s', state_ids_by_item_set b !! N.to_nat id = Some (s', id) ∧ set_key s' = set_key s.
Lemma target_evolves i b b' s id : evolves i b b' → target b s id → target b' s id.
Proof. intros Hev (s' & Hs' & Hk). exists s'. split; [|done]. eapply prefix_lookup_Some; [done|apply Hev]. Qed.

(** A builder with at most one more state. *)
Record one_more (b b' : builder) : Prop := {
  om_builder : item_set_builder b' = item_set_builder b;
  om_infos : production_infos (parse_table b') = production_infos (parse_table b);
  om_states : pt_states (parse_table b) `prefix_of` pt_states (parse_table b');
  om_length : length (state_ids_by_item_set b') ≤ S (length (state_ids_by_item_set b));
  om_conflicts : actual_conflicts b' = actual_conflicts b;
}.
Lemma state_added_spec b path aux s : sound b → queue_ok b →
  kernel_ok g lg key_map (pool_of b) s → covers aux s → (∀ x, x ∈ aux → parents_known (state_ids_by_item_set b) x) → (∀ x, x ∈ path → symbol_known g n_terminals x) → (N.of_nat (S (length (state_ids_by_item_set b))) < U32)%N →
  ∃ id b', add_parse_state (E:=ParseTableBuilderError) b path aux s = Ok (id, b') ∧ sound b' ∧ queue_ok b' ∧
    (∀ i, evolves i b b') ∧ (∀ i, N.to_nat i < length (state_ids_by_item_set b) → idle i b → idle i b') ∧ one_more b b' ∧ target b' s id.
Proof.
  intros Hb Hq Hk Hcov Hpar Hpath Hroom.
  destruct (add_parse_state_spec str_pool g n_terminals inlines key_map items_bound Hin (E:=ParseTableBuilderError) b path aux s)
    as (id & b' & Hadd & Hst & (s' & Hs' & Hkey) & Hor); [apply Hb|intros e He; by apply (ko_items _ _ _ _ _ Hk)|done|].
  exists id, b'. split; [done|]. destruct Hor as [->|Had].
  { split_and!; try done; [by split; try done; lia|by exists s']. }
  destruct (ad_states _ _ _ _ _ _ Had) as [core Ht]. pose proof (ad_sets _ _ _ _ _ _ Had) as Hsets. pose proof (ad_queue _ _ _ _ _ _ Had) as Hqueue.
  assert (pool_of b' = pool_of b) as Hpool by (unfold pool_of; by rewrite (ad_builder _ _ _ _ _ _ Had)).
  assert (∀ i, evolves i b b') as Hev.
  { intros i. split; rewrite ?(ad_builder _ _ _ _ _ _ Had), ?Hpool, ?Hsets, ?(ad_symbols _ _ _ _ _ _ Had), ?Hqueue, ?(ad_extras _ _ _ _ _ _ Had), ?Ht; try done; try by eexists.
    - intros j st _ Hj. cbn. by apply lookup_app_l_Some.
    - intros j Hj Hj'. rewrite length_app in Hj'. cbn in Hj'. rewrite map_app. apply elem_of_app. right. cbn.
      apply list_elem_of_singleton. rewrite (ad_id _ _ _ _ _ _ Had). lia.
    - intros j. rewrite map_app, elem_of_app. cbn. rewrite list_elem_of_singleton, (ad_id _ _ _ _ _ _ Had). intros [?| ->]; [by right|left; lia]. }
  assert (∀ q, q ∈ parse_state_queue b → (qe_state_id q < id)%N) as Hold.
  { intros q Hqin. destruct (wo_set _ _ (qo_waiting b Hq q Hqin)) as (sq & Hsq%lookup_lt_Some & _). rewrite (ad_id _ _ _ _ _ _ Had). lia. }
  split_and!; [| |done| | |by exists s'].
  - destruct (so_prods _ _ _ _ _ _ Hb) as [P1 P2 P3 P4]. split.
    + rewrite (ad_builder _ _ _ _ _ _ Had). apply Hb.
    + done.
    + split; rewrite ?(ad_prods _ _ _ _ _ _ Had), ?Ht; done.
    + rewrite Hsets, Hpool. intros s0 id0 [Hs0|[= -> ->]%list_elem_of_singleton]%elem_of_app; [by eapply (so_kernels _ _ _ _ _ _ Hb)|done].
    + intros l x. rewrite (ad_symbols _ _ _ _ _ _ Had). intros [Hl| ->%list_elem_of_singleton]%elem_of_app; [by apply (so_paths _ _ _ _ _ _ Hb)|apply Hpath].
    + rewrite (ad_conflicts _ _ _ _ _ _ Had). apply Hb.
  - split; rewrite Hqueue.
    + intros q [Hqin| ->%list_elem_of_singleton]%elem_of_app.
      * destruct (qo_waiting b Hq q Hqin) as [(sq & Hsq & Hc) (st & Hsta & ? & ?) Hqp]. split.
        -- exists sq. split; [|done]. eapply prefix_lookup_Some; [done|apply (ev_item_sets _ _ _ (Hev 0%N))].
        -- exists st. split; [|done]. rewrite Ht. cbn. by apply lookup_app_l_Some.
        -- intros x Hx. eapply parents_known_grows; [apply (ev_item_sets _ _ _ (Hev 0%N))|by apply Hqp].
      * split; [| |intros x Hx; eapply parents_known_grows; [apply (ev_item_sets _ _ _ (Hev 0%N))|by apply Hpar]]; cbn.
        -- exists s. split; [|done]. rewrite Hsets, (ad_id _ _ _ _ _ _ Had), Nat2N.id. by apply list_lookup_middle.
        -- exists (mkParseState id [] [] TokenSet.new 0 0 core false). rewrite Ht. cbn. split; [|done]. rewrite (ad_id _ _ _ _ _ _ Had), Nat2N.id.
           rewrite <- (st_length _ _ _ (so_states _ _ _ _ _ _ Hb)). by apply list_lookup_middle.
    + rewrite map_app. apply NoDup_app. split_and!; [apply Hq| |apply NoDup_singleton].
      intros j (q & -> & Hqin)%elem_of_map ?%list_elem_of_singleton. cbn in *. specialize (Hold q Hqin). lia.
  - intros i Hi Hidle. unfold idle. rewrite Hqueue, map_app, elem_of_app. intros [?|?%list_elem_of_singleton]; [done|]. cbn in *.
    pose proof (ad_id _ _ _ _ _ _ Had). lia.
  - split; rewrite ?(ad_builder _ _ _ _ _ _ Had), ?Ht, ?Hsets, ?(ad_conflicts _ _ _ _ _ _ Had), ?length_app; cbn; try done; [by eexists|lia].
Qed.

(** ** The states after a state *)
Section state.
Context (i : N) (s C : Item.ParseItemSet) (b0 : builder) (aux0 : list AuxiliarySymbolInfo) (sc : Scan (I:=I)).
Notation p0 := (pool_of b0).
Context (Hs : kernel_ok g lg key_map p0 s) (HC : is_closure g inlines key_map p0 s C) (Hcovers : covers aux0 s).
Context (Hreserved : ∀ e, Item.has C e → reserved_known g (Item.following_reserved_word_set e)).
Context (Hsc : scanned g lg variable_info inlines key_map i b0 aux0 (λ _, Item.entries C) (Item.entries C) sc).
Notation b1 := (sc_builder sc).
Notation aux1 := (vec_dedup (sc_aux sc)).
Notation advances := (advances g variable_info).

Lemma grows_b1 : Lookahead.grows p0 (pool_of b1).
Proof. apply (ev_pool _ _ _ (sd_evolves _ _ _ _ _ _ _ _ _ _ _ Hsc)). Qed.
Lemma next_kernel p X next : Lookahead.grows p0 p → advances (Item.entries C) X ≠ [] → gathers p (advances (Item.entries C) X) next →
  kernel_ok g lg key_map p next.
Proof.
  intros Hg Hne Hga. eapply (gathers_kernel str_pool g lg variable_info inlines key_map items_bound Hti p0 s C Hs HC); done.
Qed.
Lemma closure_covers e : Item.has C e → auxiliary g (Item.variable_index (Item.item e)) →
  ∃ x, x ∈ aux1 ∧ auxiliary_symbol x = non_terminal (Item.variable_index (Item.item e)).
Proof.
  intros He Ha. setoid_rewrite elem_of_vec_dedup.
  destruct (closure_entry _ _ _ _ _ _ _ Hti p0 s C Hs HC e He) as [_ [(k0 & Hk0 & Hv0 & _)|(_ & _ & Hx & Hinl)]].
  - rewrite Hv0 in *. destruct (Hcovers k0 Hk0 Ha) as (x & Hx & ?). exists x. split; [|done]. by apply (sd_aux_kept _ _ _ _ _ _ _ _ _ _ _ Hsc).
  - destruct (auxiliary_needed _ _ _ _ _ _ _ Hti p0 s C Hs HC _ Hx Hinl Ha) as (e' & He' & Hn').
    apply (sd_aux _ _ _ _ _ _ _ _ _ _ _ Hsc e'); [done| |done]. rewrite Hn'. f_equal. symmetry. eapply non_terminal_known; [done|].
    destruct Ha as (x & Hlt%lookup_lt_Some & _). exact Hlt.
Qed.
Lemma next_covers p X next : gathers p (advances (Item.entries C) X) next → covers aux1 next.
Proof.
  intros Hga k Hk Ha. destruct (ga_from _ _ _ Hga k Hk) as (a & (e & He & Hn & ->)%advances_elem & Hka).
  rewrite Hka in *. destruct (advance_fields g variable_info (Item.item e) X) as (Hv & _). cbn [Item.item] in *. rewrite Hv in *.
  by apply closure_covers.
Qed.

(** The state after the scan, and after the shifts on the tokens of [D]. *)
Context (st1 : ParseState ParseTableEntry) (Hst1 : pt_states (parse_table b1) !! N.to_nat i = Some st1).
Notation entry1 t := (default new_entry (im_get t (terminal_entries st1))).
Record grown (D : list (Symbol * Item.ParseItemSet)) (b : builder) : Prop := {
  gr_sound : sound b;
  gr_queue : queue_ok b;
  gr_idle : idle i b;
  gr_evolves : evolves i b1 b;
  gr_builder : item_set_builder b = item_set_builder b1;
  gr_infos : production_infos (parse_table b) = production_infos (parse_table b1);
  gr_length : length (state_ids_by_item_set b) ≤ length (state_ids_by_item_set b1) + length D;
  gr_conflicts : actual_conflicts b = actual_conflicts b1;
}.
Record shifted (D : list (Symbol * Item.ParseItemSet)) (bc : builder * TokenSet) : Prop := {
  sh_grown : grown D bc.1;
  sh_conflicts : TokenSet.wf bc.2;
  sh_tokens : ∀ t, t ∈ toks bc.2 ↔ t ∈ toks (lookaheads_with_conflicts sc) ∨ t ∈ D.*1 ∧ actions_of (entry_actions (entry1 t)) ≠ [];
  sh_state : ∃ st, pt_states (parse_table bc.1) !! N.to_nat i = Some st ∧ alike st1 st ∧ blank st ∧ NoDup (terminal_entries st).*1 ∧
    (∀ t, t ∉ D.*1 → im_get t (terminal_entries st) = im_get t (terminal_entries st1)) ∧
    ∀ t next, (t, next) ∈ D → ∃ id, target bc.1 next id ∧
      im_get t (terminal_entries st) = Some (mkEntry (al_push (entry_actions (entry1 t)) (Shift id false)) (reusable (entry1 t)));
}.
Context (Hqueue : queue_ok b0) (Hidle : idle i b0) (Hi : N.to_nat i < length (state_ids_by_item_set b0)).
Notation n_successors := (size (terminal_successors sc) + size (non_terminal_successors sc)).
Context (Hroom : (N.of_nat (length (state_ids_by_item_set b0) + n_successors) < U32)%N).
Context (path : list Symbol) (Hpath : ∀ x, x ∈ path → symbol_known g n_terminals x).

Lemma item_sets_b1 : state_ids_by_item_set b1 = state_ids_by_item_set b0.
Proof. apply (sd_steady _ _ _ _ _ _ _ _ _ _ _ Hsc). Qed.
Lemma grown_start : grown [] b1.
Proof.
  pose proof (sd_steady _ _ _ _ _ _ _ _ _ _ _ Hsc) as Hst. pose proof (sy_queue _ _ Hst) as Hq.
  split; try done.
  - apply Hsc.
  - eapply (queue_evolves i b0); [apply Hsc|done|done|done].
  - unfold idle. by rewrite Hq.
  - cbn. lia.
Qed.
Lemma successor_known X : advances (Item.entries C) X ≠ [] → symbol_known g n_terminals X.
Proof.
  intros Hne. destruct (advances (Item.entries C) X) as [|a l] eqn:Ha; [done|].
  assert (a ∈ advances (Item.entries C) X) as (e & He & Hn & _)%advances_elem by (rewrite Ha; apply list_elem_of_here).
  eapply (next_known _ _ _ _ _ _ _ Hti); [by apply (ic_items _ _ _ _ _ _ HC)|done].
Qed.
(** One more successor. *)
Lemma grown_next D b X next : grown D b → length D < n_successors →
  advances (Item.entries C) X ≠ [] → gathers (pool_of b1) (advances (Item.entries C) X) next →
  ∃ id b', add_parse_state (E:=ParseTableBuilderError) b (path ++ [X]) aux1 next = Ok (id, b') ∧ grown (D ++ [(X, next)]) b' ∧ target b' next id ∧
    evolves i b b' ∧ pt_states (parse_table b') !! N.to_nat i = pt_states (parse_table b) !! N.to_nat i.
Proof.
  intros [G1 G2 G3 G4 G5 G6 G7 G8] Hlen Hne Hga. rewrite item_sets_b1 in G7.
  assert (pool_of b = pool_of b1) as Hpool by (unfold pool_of; by rewrite G5).
  assert (length (state_ids_by_item_set b1) ≤ length (state_ids_by_item_set b)) as Hle by (apply prefix_length, (ev_item_sets _ _ _ G4)).
  rewrite item_sets_b1 in Hle.
  destruct (state_added_spec b (path ++ [X]) aux1 next G1 G2) as (id & b' & Hadd & A1 & A2 & A4 & A3 & A5 & A6);
    [|by eapply next_covers| | |lia|].
  2: { intros x Hx. eapply parents_known_grows; [|apply (sd_parents _ _ _ _ _ _ _ _ _ _ _ Hsc); by apply elem_of_vec_dedup].
    rewrite <- item_sets_b1. apply (ev_item_sets _ _ _ G4). }
  2: { intros x [?| ->%list_elem_of_singleton]%elem_of_app; [by apply Hpath|by apply successor_known]. }
  { rewrite Hpool. eapply next_kernel; [apply grows_b1|done|done]. }
  specialize (A3 i ltac:(lia) G3). specialize (A4 i).
  exists id, b'. split_and!; [done| |done|done|].
  - split; try done.
    + by etrans.
    + by rewrite (om_builder _ _ A5).
    + by rewrite (om_infos _ _ A5).
    + pose proof (om_length _ _ A5). rewrite length_app, item_sets_b1. cbn. lia.
    + by rewrite (om_conflicts _ _ A5).
  - destruct (lookup_lt_is_Some_2 (pt_states (parse_table b)) (N.to_nat i)) as [st Hst].
    { rewrite (st_length _ _ _ (so_states _ _ _ _ _ _ G1)). lia. }
    rewrite Hst. eapply prefix_lookup_Some; [done|apply (om_states _ _ A5)].
Qed.
(** Writing to the state of [i]. *)
Lemma grown_write D b st st' : grown D b → pt_states (parse_table b) !! N.to_nat i = Some st → alike st st' →
  ∃ b', set_state (E:=ParseTableBuilderError) b i st' = Ok b' ∧ grown D b' ∧ evolves i b b' ∧ pt_states (parse_table b') !! N.to_nat i = Some st'.
Proof.
  intros [G1 G2 G3 G4 G5 G6 G7 G8] Hst Hal.
  destruct (set_state_spec g lg variable_info inlines key_map (E:=ParseTableBuilderError) i b st st' G1 Hst Hal) as (b' & Hset & Hb' & Hos). exists b'.
  pose proof (os_evolves _ _ _ _ Hos) as Hev. pose proof (os_steady _ _ _ _ Hos) as Hsy.
  split_and!; [done| |done|eapply os_state; [done|by eapply lookup_lt_Some]]. split; try done.
  - eapply (queue_evolves i b); [done|apply Hsy|done|done].
  - unfold idle. by rewrite (sy_queue _ _ Hsy).
  - by etrans.
  - by rewrite (os_builder _ _ _ _ Hos).
  - by rewrite (os_infos _ _ _ _ Hos).
  - by rewrite (sy_item_sets _ _ Hsy).
  - unfold set_state in Hset. apply bind_Ok_inv in Hset as (l & _ & [= <-]). done.
Qed.
Lemma in_terminals X next : terminal_successors sc !! X = Some next →
  is_non_terminal X = false ∧ advances (Item.entries C) X ≠ [] ∧ gathers (pool_of b1) (advances (Item.entries C) X) next.
Proof. intros HX. pose proof (sd_terminals _ _ _ _ _ _ _ _ _ _ _ Hsc X) as H1. by rewrite HX in H1. Qed.
Lemma token_successor X : is_non_terminal X = false → advances (Item.entries C) X ≠ [] → TokenSet.token X ∧ a_token X.
Proof.
  intros Hnt Hne. pose proof (successor_known X Hne) as Hk.
  assert (a_token X) as Ha.
  { destruct (known_cases _ _ _ Hk) as [?|(w & -> & _)]; [done|]. unfold is_non_terminal in Hnt. by apply bool_decide_eq_false in Hnt. }
  split; [|done]. eapply known_token; [apply (in_symbols _ _ _ _ _ _ Hin)|done|done].
Qed.

Lemma add_shift_spec D rest X next bc : shifted D bc → btree_entries (terminal_successors sc) = D ++ (X, next) :: rest →
  ∃ bc', add_shift (E:=ParseTableBuilderError) i path aux1 bc (X, next) = Ok bc' ∧ shifted (D ++ [(X, next)]) bc'.
Proof.
  destruct bc as [b c]. intros [Hgr Hw Htk (st & Hst & Hal & Hnt & Hnd & Hout & Hin')] Hd. cbn [fst snd] in *.
  assert (terminal_successors sc !! X = Some next) as HX by (apply elem_of_btree_entries; rewrite Hd; set_solver).
  destruct (in_terminals X next HX) as (Htok & Hne & Hga).
  assert (X ∉ D.*1) as Hnew.
  { pose proof (btree_entries_keys (terminal_successors sc)) as Hk. rewrite Hd, fmap_app in Hk. apply NoDup_app in Hk as (_ & Hk & _).
    intros Hx. apply (Hk X Hx), list_elem_of_here. }
  assert (length D < n_successors) as Hlen.
  { pose proof (length_btree_entries (terminal_successors sc)) as Hl.
    rewrite Hd, length_app in Hl. cbn in Hl. lia. }
  unfold add_shift. destruct (grown_next D b X next Hgr Hlen Hne Hga) as (id & b' & -> & Hgr' & Htar & Hev & Hsame).
  cbn [mbind outcome_bind]. rewrite Hst in Hsame. rewrite (get_state_ok _ _ _ Hsame). cbn [mbind outcome_bind].
  rewrite (Hout X Hnew).
  set (noted := match actions_of _ with [] => _ | _ => _ end).
  assert (∃ c', noted = Ok c' ∧ TokenSet.wf c' ∧ ∀ t, t ∈ toks c' ↔ t ∈ toks c ∨ t = X ∧ actions_of (entry_actions (entry1 X)) ≠ []) as (c' & -> & Hw' & Hc').
  { subst noted. destruct (actions_of (entry_actions (entry1 X))) eqn:Ha.
    - exists c. split_and!; [done|done|]. intros t. naive_solver.
    - destruct (TokenSet.insert_spec (E:=ParseTableBuilderError) c X Hw) as (c' & Hins & ? & Hc'); [by apply (token_successor X)|].
      exists c'. split_and!; [done|done|]. intros t. rewrite Hc'. split; [|].
      + intros [->%elem_of_singleton|?]%elem_of_union; [by right|by left].
      + intros [?|[-> _]]; [by apply elem_of_union_r|by apply elem_of_union_l, elem_of_singleton]. }
  cbn [mbind outcome_bind].
  set (st' := with_terminals st _).
  destruct (grown_write _ b' st st' Hgr' Hsame) as (b'' & -> & Hgr'' & Hev' & Hst'); [done|].
  cbn [mbind outcome_bind]. eexists. split; [reflexivity|]. split; cbn [fst snd]; [done|done| |].
  - intros t. rewrite Hc', Htk, fmap_app, elem_of_app. cbn. rewrite list_elem_of_singleton. naive_solver.
  - exists st'. split_and!; [done|done|done|by apply im_insert_nodup| |].
    + intros t. rewrite fmap_app, not_elem_of_app. cbn. rewrite list_elem_of_singleton. intros [Ht Hne']. cbn.
      rewrite im_get_insert_ne by done. by apply Hout.
    + intros t next' [Ht|[= -> ->]%list_elem_of_singleton]%elem_of_app; cbn.
      * destruct (Hin' t next' Ht) as (id' & Htar' & Hget). exists id'. split; [by do 2 (eapply target_evolves; [done|])|].
        rewrite im_get_insert_ne; [done|]. intros ->. apply Hnew, list_elem_of_fmap. by exists (X, next').
      * exists id. split; [by eapply target_evolves|]. apply im_get_insert_eq.
Qed.
Lemma add_shifts_spec : alike st1 st1 → blank st1 → NoDup (terminal_entries st1).*1 →
  ∃ bc, for_each (add_shift (E:=ParseTableBuilderError) i path aux1) (b1, lookaheads_with_conflicts sc) (btree_entries (terminal_successors sc)) = Ok bc ∧
    shifted (btree_entries (terminal_successors sc)) bc.
Proof.
  intros Hal Hnt Hnd. apply (for_each_inv _ shifted).
  - split; cbn [fst snd]; [apply grown_start|apply Hsc| |].
    + intros t. cbn. split; [by left|]. intros [?|[?%not_elem_of_nil _]]; done.
    + exists st1. split_and!; try done. by intros t next ?%not_elem_of_nil.
  - intros D [X next] rest bc Hd Hsh. by eapply add_shift_spec.
Qed.

(** After the gotos on the variables of [E] too. *)
Context (D : list (Symbol * Item.ParseItemSet)) (bc : builder * TokenSet).
Context (Hshifted : shifted (btree_entries (terminal_successors sc)) bc).
Context (st2 : ParseState ParseTableEntry) (Hst2 : pt_states (parse_table bc.1) !! N.to_nat i = Some st2 ∧ blank st2).
Record went (E : list (Symbol * Item.ParseItemSet)) (b : builder) : Prop := {
  we_grown : grown (btree_entries (terminal_successors sc) ++ E) b;
  we_evolves : evolves i bc.1 b;
  we_state : ∃ st, pt_states (parse_table b) !! N.to_nat i = Some st ∧ alike st2 st ∧ terminal_entries st = terminal_entries st2 ∧ reserved_words st = TokenSet.new ∧
    (∀ X, X ∉ E.*1 → im_get X (nonterminal_entries st) = None) ∧
    ∀ X next, (X, next) ∈ E → ∃ id, target b next id ∧ im_get X (nonterminal_entries st) = Some (Goto id);
}.
Lemma in_nonterminals X next : non_terminal_successors sc !! X = Some next →
  is_non_terminal X = true ∧ advances (Item.entries C) X ≠ [] ∧ gathers (pool_of b1) (advances (Item.entries C) X) next.
Proof. intros HX. pose proof (sd_nonterminals _ _ _ _ _ _ _ _ _ _ _ Hsc X) as H1. by rewrite HX in H1. Qed.
Lemma add_goto_spec E rest X next b : went E b → btree_entries (non_terminal_successors sc) = E ++ (X, next) :: rest →
  ∃ b', add_goto (E:=ParseTableBuilderError) i path aux1 b (X, next) = Ok b' ∧ went (E ++ [(X, next)]) b'.
Proof.
  intros [Hgr Hev0 (st & Hst & Hal & Ht & Hr & Hout & Hin')] Hd.
  assert (non_terminal_successors sc !! X = Some next) as HX by (apply elem_of_btree_entries; rewrite Hd; set_solver).
  destruct (in_nonterminals X next HX) as (_ & Hne & Hga).
  assert (X ∉ E.*1) as Hnew.
  { pose proof (btree_entries_keys (non_terminal_successors sc)) as Hk. rewrite Hd, fmap_app in Hk. apply NoDup_app in Hk as (_ & Hk & _).
    intros Hx. apply (Hk X Hx), list_elem_of_here. }
  assert (length (btree_entries (terminal_successors sc) ++ E) < n_successors) as Hlen.
  { pose proof (length_btree_entries (terminal_successors sc)) as Hl1.
    pose proof (length_btree_entries (non_terminal_successors sc)) as Hl2.
    rewrite Hd, length_app in Hl2. rewrite length_app. cbn in Hl2. lia. }
  unfold add_goto. destruct (grown_next _ b X next Hgr Hlen Hne Hga) as (id & b' & -> & Hgr' & Htar & Hev & Hsame).
  cbn [mbind outcome_bind]. rewrite Hst in Hsame. rewrite (get_state_ok _ _ _ Hsame). cbn [mbind outcome_bind].
  destruct (grown_write _ b' st (with_nonterminals st (im_insert X (Goto id) (nonterminal_entries st))) Hgr' Hsame) as (b'' & -> & Hgr'' & Hev' & Hst'); [done|].
  exists b''. split; [done|]. split.
  - by rewrite <- app_assoc in Hgr''.
  - etrans; [exact Hev0|]. by etrans.
  - eexists. split; [exact Hst'|]. cbn. split_and!; [exact Hal|exact Ht|exact Hr| |].
    + intros Y. rewrite fmap_app, not_elem_of_app. cbn. rewrite list_elem_of_singleton. intros [HY Hne']. rewrite im_get_insert_ne by done. by apply Hout.
    + intros Y next' [HY|[= -> ->]%list_elem_of_singleton]%elem_of_app.
      * destruct (Hin' Y next' HY) as (id' & Htar' & Hget). exists id'. split; [by do 2 (eapply target_evolves; [done|])|].
        rewrite im_get_insert_ne; [done|]. intros ->. apply Hnew, list_elem_of_fmap. by exists (X, next').
      * exists id. split; [by eapply target_evolves|]. apply im_get_insert_eq.
Qed.
Lemma gotos_spec : ∃ b, for_each (add_goto (E:=ParseTableBuilderError) i path aux1) bc.1 (btree_entries (non_terminal_successors sc)) = Ok b ∧
  went (btree_entries (non_terminal_successors sc)) b.
Proof.
  apply (for_each_inv _ went).
  - destruct Hst2 as (Hst & Hnt & Hr). split; [rewrite app_nil_r; apply Hshifted|done|].
    exists st2. rewrite Hnt. split_and!; try done. by intros X next ?%not_elem_of_nil.
  - intros E [X next] rest b Hd Hwe. by eapply add_goto_spec.
Qed.
End state.
End actions.
