(* ===== verification/BuildResolve.v ===== *)
(** * [build_tables/build_parse_table.rs]: resolving the conflicts of a state

    A conflict is resolved as [BuildVerdicts] says: the actions that are left are those
    of the verdict; more than one is left only for a repetition, or when the
    conflict of the items is declared, and otherwise it is reported. *)
From S2P Require Import Prelude BitVec Symbols TokenSet Ordering StrPool Grammars Lookaheads Items ItemSets FirstSets FollowSets Additions Closure Tables Outcomes BuildTable BuildConflicts BuildStates BuildClosure BuildInputs BuildVerdicts BuildGoto BuildScan BuildActions.
Import PT Builder.

Section resolve.
Context {H : Type} (str_pool : StrPool H) (g : SyntaxGrammar) (lg : LexicalGrammar).
Context {F : Type} (variable_info : list (VariableInfo F)).
Context {I : Type} {IS : IndexSet I} {MI : MapIter}.
Context (inlines : InlinedProductionMap) (key_map : Item.ItemKeyMap) (items_bound : nat).
Context (Hti : table_inputs str_pool g lg variable_info inlines key_map items_bound).
Notation n_terminals := (length (lg_variables lg)).
Notation item_ok := (Item.item_ok g key_map).
Notation next_symbol := (next_symbol g).
Notation builder := (ParseTableBuilder I).
Notation Hin := (ti_inputs _ _ _ _ _ _ _ Hti).
Notation Err := ParseTableBuilderError.
Notation known := (symbol_known g n_terminals).

(** ** Reports *)
Lemma symbol_name_ok x : known x ∨ kind x = End ∨ kind x = EndOfNonTerminalExtra → ∃ n, symbol_name (E:=Err) str_pool g lg x = Ok n.
Proof.
  intros Hx. unfold symbol_name. unfold symbol_known in Hx.
  destruct (kind x); try (by eexists); destruct Hx as [Hx|[?|?]]; try done.
  - destruct (lookup_lt_is_Some_2 _ _ Hx) as [t Ht]. rewrite (vec_get_Some _ _ _ Ht). cbn [mbind outcome_bind].
    rewrite Item.resolve_text by (eapply (ti_externals _ _ _ _ _ _ _ Hti), list_elem_of_lookup_2, Ht). by eexists.
  - destruct (lookup_lt_is_Some_2 _ _ Hx) as [t Ht]. rewrite (vec_get_Some _ _ _ Ht). cbn [mbind outcome_bind].
    rewrite Item.resolve_text by (eapply (ti_lexical _ _ _ _ _ _ _ Hti), list_elem_of_lookup_2, Ht). cbn. by eexists.
  - destruct (lookup_lt_is_Some_2 (sg_variables g) _ Hx) as [t Ht]. rewrite (vec_get_Some _ _ _ Ht). cbn [mbind outcome_bind].
    rewrite Item.resolve_text by (eapply (ti_variables _ _ _ _ _ _ _ Hti), list_elem_of_lookup_2, Ht). by eexists.
Qed.
(** An item of a variable. *)
Definition rule_item (i : Item.ParseItem) : Prop := item_ok i ∧ N.to_nat (Item.variable_index i) < n_vars g.
Lemma rule_name_ok i : rule_item i → ∃ n, symbol_name (E:=Err) str_pool g lg (non_terminal (Item.variable_index i)) = Ok n.
Proof. intros [_ Hv]. apply symbol_name_ok. left. by rewrite (non_terminal_known _ _ _ _ _ _ _ Hti). Qed.
Lemma interpretation_ok path t i : rule_item i → (∀ x, x ∈ path → known x) → known t ∨ kind t = End ∨ kind t = EndOfNonTerminalExtra →
  ∃ r, interpretation (E:=Err) str_pool g lg path t i = Ok r.
Proof.
  intros [Hi Hv] Hpath Ht. unfold interpretation.
  edestruct (mapM_total (symbol_name (E:=Err) str_pool g lg)) as [before ->].
  { intros x Hx. apply symbol_name_ok. left. apply Hpath. eapply elem_of_take in Hx as (k & Hk & _). by eapply list_elem_of_lookup_2. }
  cbn [mbind outcome_bind]. destruct (lookup_lt_is_Some_2 (sg_variables g) _ Hv) as [v Hlv]. rewrite (vec_get_Some _ _ _ Hlv). cbn [mbind outcome_bind].
  rewrite Item.resolve_text by (eapply (ti_variables _ _ _ _ _ _ _ Hti), list_elem_of_lookup_2, Hlv). cbn [mbind outcome_bind].
  rewrite (item_production_ok _ _ _ _ _ _ _ Hti) by done. cbn [mbind outcome_bind].
  edestruct (mapM_total (λ s, symbol_name (E:=Err) str_pool g lg (step_symbol s))) as [names ->].
  { intros s Hs. apply symbol_name_ok. left. by eapply (steps_of_known str_pool g n_terminals inlines key_map items_bound Hin i). }
  cbn [mbind outcome_bind]. destruct (item_precedence_ok _ _ _ _ _ _ _ Hti (E:=Err) i Hi) as (-> & Hp). cbn [mbind outcome_bind].
  generalize dependent (prec_of g i). intros p Hp. set (shown := match p with PNone => _ | _ => _ end).
  assert (∃ o, shown = Ok o) as [o ->].
  { subst shown. destruct p; [by eexists| |]; unfold prec_display; cbn; [by eexists|]. rewrite Item.resolve_text by done. cbn. by eexists. }
  cbn [mbind outcome_bind]. rewrite (item_associativity_ok _ _ _ _ _ _ _ Hti) by done. cbn [mbind outcome_bind].
  destruct (symbol_name_ok t Ht) as [n ->]. cbn. by eexists.
Qed.
Lemma get_rule_names_ok prev l : (∀ i, i ∈ l → rule_item i) → ∃ r, get_rule_names (E:=Err) str_pool g lg prev l = Ok r.
Proof.
  revert prev. induction l as [|i l IH]; intros prev Hl; [by eexists|]. cbn [get_rule_names].
  case_bool_decide; [apply IH; intros; apply Hl; by apply list_elem_of_further|].
  destruct (rule_name_ok i) as [n ->]; [apply Hl, list_elem_of_here|]. cbn [mbind outcome_bind].
  destruct (IH (Some (Item.variable_index i))) as [r ->]; [intros; apply Hl; by apply list_elem_of_further|]. cbn. by eexists.
Qed.
Lemma sort_items_ok l : (∀ i, i ∈ l → rule_item i) → ∃ k, sort_by_m (Item.item_cmp (E:=Err)) l = Ok k ∧ ∀ i, i ∈ k → rule_item i.
Proof.
  intros Hl. rewrite (sort_by_m_Ok _ (λ a b, Item.item_rank_cmp (Item.item_rank a) (Item.item_rank b))).
  - eexists. split; [done|]. intros i. rewrite sort_by_perm. apply Hl.
  - intros x y Hx Hy. apply Item.item_cmp_rank; (eapply Item.item_ok_keyed; [apply (in_keys _ _ _ _ _ _ Hin)|]); by apply Hl.
Qed.
Lemma conflict_error_ok path t items considered names : (∀ i, i ∈ items → rule_item i) → (∀ x, x ∈ path → known x) →
  known t ∨ kind t = End ∨ kind t = EndOfNonTerminalExtra → (∀ x, x ∈ names → known x) →
  ∃ e ns, conflict_error (E:=Err) str_pool g lg path t items considered names = Ok e ∧ symbol_name (E:=Err) str_pool g lg t = Ok (conflicting_lookahead e) ∧
    mapM (symbol_name (E:=Err) str_pool g lg) names = Ok ns ∧ last (possible_resolutions e) = Some (RAddConflict ns).
Proof.
  intros Hitems Hpath Ht Hnames. unfold conflict_error.
  destruct (mapM_total (symbol_name (E:=Err) str_pool g lg) path) as [seq ->]; [intros x Hx; apply symbol_name_ok; left; by apply Hpath|]. cbn [mbind outcome_bind].
  destruct (symbol_name_ok t Ht) as [n Hn]. rewrite Hn. cbn [mbind outcome_bind].
  destruct (mapM_total (interpretation (E:=Err) str_pool g lg path t) items) as [ints ->]; [intros i Hi; apply interpretation_ok; auto|]. cbn [mbind outcome_bind].
  edestruct (sort_items_ok (filter (λ i, Item.is_done i = false) items)) as (shifts & -> & Hsh); [intros i [_ Hi]%list_elem_of_filter; auto|]. cbn [mbind outcome_bind].
  edestruct (sort_items_ok (filter (λ i, Item.is_done i = true) items)) as (reduces & -> & Hre); [intros i [_ Hi]%list_elem_of_filter; auto|]. cbn [mbind outcome_bind].
  set (precs := if (1 <? length names)%nat then _ else _). assert (∃ l, precs = Ok l) as [l ->].
  { subst precs. destruct (1 <? length names)%nat; [|by eexists].
    set (sh := match shifts with [] => _ | _ => _ end). assert (∃ l, sh = Ok l) as [l ->].
    { subst sh. destruct shifts as [|i shifts]; [by eexists|]. destruct (get_rule_names_ok None (i :: shifts) Hsh) as [r ->]. cbn. by eexists. }
    cbn [mbind outcome_bind].
    edestruct (mapM_total (λ item, n ← symbol_name (E:=Err) str_pool g lg (non_terminal (Item.variable_index item)); Ok (RPrecedence [n]))) as [r ->].
    { intros i Hi. destruct (rule_name_ok i (Hre i Hi)) as [r ->]. cbn. by eexists. }
    cbn. by eexists. }
  cbn [mbind outcome_bind]. set (assocs := if considered then _ else _). assert (∃ l, assocs = Ok l) as [l' ->].
  { subst assocs. destruct considered; [|by eexists]. destruct (get_rule_names_ok None reduces Hre) as [r ->]. cbn. by eexists. }
  cbn [mbind outcome_bind].
  destruct (mapM_total (symbol_name (E:=Err) str_pool g lg) names) as [ns Hns]; [intros x Hx; apply symbol_name_ok; left; by apply Hnames|].
  rewrite Hns. eexists _, ns. split; [reflexivity|]. split_and!; [done|done|]. cbn [possible_resolutions]. by rewrite (assoc_L (++)), last_snoc.
Qed.
(** The report of a conflict on [t]: it proposes to declare the symbols [c]. *)
Definition undeclared (t : Symbol) (c : list Symbol) (err : Err) : Prop :=
  ∃ e ns, err = Conflict e ∧ symbol_name (E:=Err) str_pool g lg t = Ok (conflicting_lookahead e) ∧
    mapM (symbol_name (E:=Err) str_pool g lg) c = Ok ns ∧ last (possible_resolutions e) = Some (RAddConflict ns).

(** ** Resolution *)
Lemma actions_of_pop l : actions_of (al_pop l).2 = removelast (actions_of l).
Proof. by destruct l. Qed.
Lemma actions_of_keep l a : last (actions_of l) = Some a → actions_of (keep_last l) = [a].
Proof. destruct l as [|x|l]; cbn; [done|by intros [= ->]|]. by intros ->. Qed.
Lemma actions_of_set_last l a : actions_of l ≠ [] → actions_of (al_set_last l a) = removelast (actions_of l) ++ [a].
Proof. by destruct l. Qed.

Lemma btree_insert_spec i l : Item.keyed i → (∀ x, x ∈ l → Item.keyed x ∧ (Item.item_rank x = Item.item_rank i → x = i)) →
  ∃ l', btree_insert (E:=Err) i l = Ok l' ∧ ∀ x, x ∈ l' ↔ x = i ∨ x ∈ l.
Proof.
  intros Hi. induction l as [|x l IH]; intros Hl; cbn [btree_insert].
  { eexists. split; [done|]. intros x. rewrite list_elem_of_singleton, elem_of_nil. tauto. }
  destruct (Hl x (list_elem_of_here _ _)) as [Hx Hrx].
  rewrite Item.item_cmp_rank by done. cbn [mbind outcome_bind].
  destruct (Item.item_rank_cmp _ _) eqn:Hc.
  - apply tc_eq in Hc. rewrite (Hrx (eq_sym Hc)). eexists. split; [done|]. intros y. rewrite elem_of_cons. tauto.
  - eexists. split; [done|]. intros y. by rewrite elem_of_cons.
  - destruct IH as (l' & -> & Hl'); [intros; apply Hl; by apply list_elem_of_further|]. cbn. eexists. split; [done|].
    intros y. rewrite !elem_of_cons, Hl'. tauto.
Qed.

Section conflict.
Context (C : Item.ParseItemSet) (b : builder) (t : Symbol).
Context (Hbk : builder_ok g n_terminals inlines key_map (item_set_builder b)).
Context (HC : ∀ e, Item.has C e → item_ok (Item.item e) ∧ item_of_grammar g (Item.item e) ∧ ∃ X, Lookahead.stands (pool_of b) (Item.lookaheads e) X).
Context (HCset : Item.set_ok C).
Context (Ht : TokenSet.token t).
Notation conflicting := (conflicting g (pool_of b)).
Notation reduce_side := (reduce_side g (pool_of b)).
Notation shift_side := (shift_side g).
Notation shift_ranks := (shift_ranks g C).
Notation repeats := (repeats g (pool_of b) C).
Notation decides := (decides g (pool_of b) C).
Notation resolves := (resolves g (pool_of b) C).
(** The items of the entries of [P]. *)
Definition items_for (P : Item.ParseItemSetEntry → Prop) (items : list Item.ParseItem) : Prop :=
  ∀ i, i ∈ items ↔ ∃ e, Item.has C e ∧ P e ∧ Item.item e = i.
Lemma conflicting_augmented e : Item.has C e → conflicting t e → Item.is_augmented (Item.item e) = false.
Proof.
  intros He [[Hpos (X & HX & _)]|(_ & Ha & _)]; [|done]. destruct (HC e He) as (_ & Hg & _). apply not_true_is_false. intros Ha.
  apply (augmented_spec _ _ _ _ _ _ _ Hti) in Ha; [|done]. apply fmap_Some in HX as (st & Hst & _). rewrite (steps_of_start _ _ Ha) in Hst.
  apply lookup_lt_Some in Hst. cbn in Hst. lia.
Qed.
Lemma conflicting_rule e : Item.has C e → conflicting t e → rule_item (Item.item e).
Proof.
  intros He Hc. pose proof (conflicting_augmented e He Hc) as Ha. destruct (HC e He) as (Hi & Hg & _). split; [done|].
  destruct Hg as [[Hv _]|[? _]]; [|done]. unfold Item.is_augmented in Ha. by rewrite Hv, N.eqb_refl in Ha.
Qed.
Record conflict_scanned (d : list Item.ParseItemSetEntry) (c : ConflictScan) : Prop := {
  cs_items : ∀ i, i ∈ conflicting_items c ↔ ∃ e, e ∈ d ∧ conflicting t e ∧ Item.item e = i;
  cs_shifts : ∀ q, q ∈ shift_precedence c ↔ ∃ e, e ∈ d ∧ shift_side t e ∧ q = (prec_of g (Item.item e), rule_of e);
}.
Lemma scan_insert d e c : (∀ x, x ∈ d ++ [e] → Item.has C x) → conflict_scanned d c → conflicting t e →
  ∃ l, btree_insert (E:=Err) (Item.item e) (conflicting_items c) = Ok l ∧ ∀ i, i ∈ l ↔ ∃ x, x ∈ d ++ [e] ∧ conflicting t x ∧ Item.item x = i.
Proof.
  intros Hd Hc He. assert (∀ x, x ∈ d ++ [e] → conflicting t x → Item.keyed (Item.item x)) as Hk.
  { intros x Hx Hcx. eapply Item.item_ok_keyed; [apply (in_keys _ _ _ _ _ _ Hin)|]. by apply conflicting_rule; [apply Hd|]. }
  destruct (btree_insert_spec (Item.item e) (conflicting_items c)) as (l & -> & Hl).
  - apply Hk; [apply elem_of_snoc|done].
  - intros i (x & Hx & Hcx & <-)%(cs_items _ _ Hc). split; [apply Hk; [by apply elem_of_snoc_l|done]|]. intros Hr. f_equal.
    apply (Item.has_unique C); [done|apply Hd; by apply elem_of_snoc_l|apply Hd, elem_of_snoc|done].
  - exists l. split; [done|]. intros i. rewrite Hl, (cs_items _ _ Hc). setoid_rewrite elem_of_app. setoid_rewrite list_elem_of_singleton. naive_solver.
Qed.
Lemma scan_skip d e c c' : conflict_scanned d c → c' = c → ¬ conflicting t e → conflict_scanned (d ++ [e]) c'.
Proof.
  intros [H1 H2] -> He. split; [intros i; rewrite H1|intros q; rewrite H2]; setoid_rewrite elem_of_app; setoid_rewrite list_elem_of_singleton.
  - naive_solver.
  - split; [naive_solver|]. intros (x & [?| ->] & Hs & ->); [naive_solver|]. destruct He. by left.
Qed.
Lemma scan_conflict_spec d e c : (∀ x, x ∈ d ++ [e] → Item.has C x) → conflict_scanned d c →
  ∃ c', scan_conflict (E:=Err) g b t c e = Ok c' ∧ conflict_scanned (d ++ [e]) c'.
Proof.
  intros Hd Hc. assert (Item.has C e) as He by apply Hd, elem_of_snoc. destruct (HC e He) as (Hi & Hg & X & HX). unfold scan_conflict.
  rewrite (item_step_spec str_pool g n_terminals inlines key_map items_bound Hin) by done. cbn [mbind outcome_bind].
  change (Item.variable_index (Item.item e) =? U32 - 1)%N with (Item.is_augmented (Item.item e)).
  assert (next_symbol (Item.item e) = step_symbol <$> steps_of g (Item.item e) !! N.to_nat (Item.step_index (Item.item e))) as Hn by done.
  destruct (steps_of g (Item.item e) !! N.to_nat (Item.step_index (Item.item e))) as [st|] eqn:Hst; cbn in Hn.
  - assert (known (step_symbol st)) as Hk by (eapply (steps_of_known str_pool g n_terminals inlines key_map items_bound Hin); [done|by eapply list_elem_of_lookup_2]).
    set (starts := if (0 <? _)%N then _ else _).
    assert (∃ r, starts = Ok r ∧ (r = true ↔ shift_side t e)) as (r & -> & Hr).
    { subst starts. unfold BuildVerdicts.shift_side. destruct (N.ltb_spec 0 (Item.step_index (Item.item e))) as [Hpos|]; [|exists false; split; [done|]; split; [done|intros [? _]; lia]].
      unfold first_set. destruct (proj1 (bk_sets _ _ _ _ _ Hbk (step_symbol st)) Hk) as [(set & -> & Hw & Hset) _ _]. cbn [unwrap mbind outcome_bind].
      rewrite TokenSet.contains_spec; [|done|intros Hnt; unfold TokenSet.token in Ht; by rewrite Hnt in Ht]. eexists. split; [done|].
      specialize (Hset t). rewrite TokenSet.elem_of_toks in Hset by done. split.
      - intros Hm. split; [done|]. exists (step_symbol st). split; [done|]. by apply Hset.
      - intros (_ & Y & HY & HtY). assert (Y = step_symbol st) as -> by congruence. by apply Hset. }
    cbn [mbind outcome_bind]. destruct r.
    2: { exists c. split; [done|]. eapply scan_skip; [done|done|]. intros [Hs|(? & _)]; [by apply Hr in Hs|congruence]. }
    assert (shift_side t e) as Hs by by apply Hr.
    rewrite (conflicting_augmented e He (or_introl Hs)). destruct (scan_insert d e c Hd Hc (or_introl Hs)) as (l & -> & Hl). cbn [mbind outcome_bind].
    destruct (item_precedence_ok _ _ _ _ _ _ _ Hti (E:=Err) (Item.item e) Hi) as (-> & _). cbn [mbind outcome_bind].
    eexists. split; [reflexivity|]. split; cbn; [done|]. intros q.
    rewrite (search_insert_elem precedence_symbol_cmp), (cs_shifts _ _ Hc). setoid_rewrite elem_of_app. setoid_rewrite list_elem_of_singleton.
    change (non_terminal (Item.variable_index (Item.item e))) with (rule_of e). naive_solver.
  - destruct (Lookahead.get_stands (E:=Err) (pool_of b) (Item.lookaheads e) X (bk_pool _ _ _ _ _ Hbk) HX) as (set & -> & Hw & Hset). cbn [mbind outcome_bind].
    rewrite TokenSet.contains_spec by (done || (intros Hnt; unfold TokenSet.token in Ht; by rewrite Hnt in Ht)). cbn [mbind outcome_bind].
    assert (tokens_of (pool_of b) (Item.lookaheads e) t ↔ TokenSet.mem set t = true) as Hmem.
    { rewrite (tokens_of_stands _ _ _ t HX), <- Hset, TokenSet.elem_of_toks by done. naive_solver. }
    assert (¬ shift_side t e) as Hns by (intros (_ & Y & HY & _); congruence).
    destruct (TokenSet.mem set t && negb (Item.is_augmented (Item.item e))) eqn:Hm.
    + apply andb_prop in Hm as [Hm Ha%negb_true_iff]. assert (conflicting t e) as Hce by (right; split_and!; [done|done|by apply Hmem]).
      destruct (scan_insert d e c Hd Hc Hce) as (l & -> & Hl). cbn [mbind outcome_bind].
      eexists. split; [reflexivity|]. split; cbn; [done|]. intros q. rewrite (cs_shifts _ _ Hc).
      setoid_rewrite elem_of_app. setoid_rewrite list_elem_of_singleton. naive_solver.
    + exists c. split; [done|]. eapply scan_skip; [done|done|]. intros [?|(_ & Ha & Htok%Hmem)]; [done|]. by rewrite Htok, Ha in Hm.
Qed.
Lemma scan_conflicts_spec : ∃ c, for_each (scan_conflict (E:=Err) g b t) (mkConflictScan [] []) (Item.entries C) = Ok c ∧ conflict_scanned (Item.entries C) c.
Proof.
  apply (for_each_inv _ conflict_scanned).
  - split; cbn; intros x; rewrite elem_of_nil; (split; [done|]); by intros (e & ?%not_elem_of_nil & _).
  - intros d e rest c Hd Hc. apply scan_conflict_spec; [|done]. intros x Hx. unfold Item.has. rewrite Hd.
    apply elem_of_app in Hx as [Hx| ->%list_elem_of_singleton]; apply elem_of_app; [by left|right; apply list_elem_of_here].
Qed.

(** The comparisons of the shifts with the reductions. *)
Context (W : list Item.ParseItemSetEntry) (info : ReductionInfo) (HW : W ≠ []) (Hinfo : info_for g W info).
Context (Hrules : ∀ e, e ∈ W → N.to_nat (index (rule_of e)) < n_vars g).
Lemma compare_shifts_spec c : conflict_scanned (Item.entries C) c →
  ∃ o, for_each (compare_shift (E:=Err) g info) (mkShiftOrder false false false) (shift_precedence c) = Ok o ∧
    (shift_is_more o = true ↔ shift_ranks t W Gt) ∧ (shift_is_less o = true ↔ shift_ranks t W Lt) ∧ (shift_is_equal o = true ↔ shift_ranks t W Eq).
Proof.
  intros Hc. set (order := λ q : Precedence * Symbol, Precedences.precedence_order g q.1 [q.2] (ri_precedence info) (ri_symbols info)).
  set (seen := λ (d : list (Precedence * Symbol)) o, ∀ q, q ∈ d → order q = o).
  destruct (for_each_inv (compare_shift (E:=Err) g info) (λ d o, (shift_is_more o = true ↔ ∃ q, q ∈ d ∧ order q = Gt) ∧
    (shift_is_less o = true ↔ ∃ q, q ∈ d ∧ order q = Lt) ∧ (shift_is_equal o = true ↔ ∃ q, q ∈ d ∧ order q = Eq))
    (shift_precedence c) (mkShiftOrder false false false)) as (o & Ho & H1 & H2 & H3).
  - cbn. split_and!; (split; [done|by intros (q & ?%not_elem_of_nil & _)]).
  - intros d q rest o Hd (H1 & H2 & H3). unfold compare_shift.
    assert (q ∈ shift_precedence c) as Hq by (rewrite Hd; set_solver). apply (cs_shifts _ _ Hc) in Hq as (e & He & Hs & Hqe).
    rewrite Precedences.compare_precedence_ok.
    2: { intros x ->%list_elem_of_singleton. rewrite Hqe. cbn [snd]. unfold rule_of. rewrite (non_terminal_known _ _ _ _ _ _ _ Hti); [cbn|];
      by apply (conflicting_rule e He (or_introl Hs)). }
    2: { intros x Hx. apply (if_symbols _ _ _ Hinfo), elem_of_map in Hx as (y & -> & Hy). by apply Hrules. }
    cbn [mbind outcome_bind]. fold (order q). eexists. split; [reflexivity|].
    assert (∀ o', (∃ x, x ∈ d ++ [q] ∧ order x = o') ↔ (∃ x, x ∈ d ∧ order x = o') ∨ order q = o') as Hex.
    { intros o'. setoid_rewrite elem_of_app. setoid_rewrite list_elem_of_singleton. naive_solver. }
    rewrite !Hex. destruct (order q); cbn; naive_solver.
  - exists o. split; [done|]. assert (∀ x, (∃ q, q ∈ shift_precedence c ∧ order q = x) ↔ shift_ranks t W x) as Hr.
    { intros x. unfold BuildVerdicts.shift_ranks. setoid_rewrite (cs_shifts _ _ Hc). split.
      - intros (q & (e & He & Hs & ->) & <-). exists e. split_and!; [done|done|]. symmetry. exact (info_ranks g W info e Hinfo).
      - intros (e & He & Hs & <-). eexists. split; [by exists e|]. exact (info_ranks g W info e Hinfo). }
    by rewrite H1, H2, H3, !Hr.
Qed.
(** All associativities are the same. *)
Lemma info_left : all_assoc g W (Some Left) ↔ has_left_assoc info && negb (has_non_assoc info) && negb (has_right_assoc info) = true.
Proof.
  unfold all_assoc. rewrite !andb_true_iff, !negb_true_iff, <- !not_true_iff_false, (if_left _ _ _ Hinfo), (if_right _ _ _ Hinfo), (if_non _ _ _ Hinfo). split.
  - intros Hall. destruct W as [|x l]; [done|]. split_and!; [exists x; split; [|apply Hall]; apply list_elem_of_here|..];
      intros (e & He & Ha); by rewrite (Hall e He) in Ha.
  - intros [[_ Hn] Hr] e He. destruct (assoc_of g (Item.item e)) as [[]|] eqn:Ha; [done|destruct Hr|destruct Hn]; by exists e.
Qed.
Lemma info_right : all_assoc g W (Some Right) ↔ negb (has_left_assoc info) && negb (has_non_assoc info) && has_right_assoc info = true.
Proof.
  unfold all_assoc. rewrite !andb_true_iff, !negb_true_iff, <- !not_true_iff_false, (if_left _ _ _ Hinfo), (if_right _ _ _ Hinfo), (if_non _ _ _ Hinfo). split.
  - intros Hall. destruct W as [|x l]; [done|]. split_and!; [..|exists x; split; [|apply Hall]; apply list_elem_of_here];
      intros (e & He & Ha); by rewrite (Hall e He) in Ha.
  - intros [[Hl Hn] _] e He. destruct (assoc_of g (Item.item e)) as [[]|] eqn:Ha; [destruct Hl|done|destruct Hn]; by exists e.
Qed.

(** What the resolution of the actions [l] comes to: the actions that are left and
    the items that still conflict, if they matter. *)
Definition resolution (r : list ParseAction) (o : option N) (m : outcome Err (ActionList * option (list Item.ParseItem * bool))) : Prop :=
  ∃ actions rest K, m = Ok (actions, rest) ∧ resolves t W r o (actions_of actions) K ∧
    match K with
    | Some P => ∃ items x, rest = Some (items, x) ∧ items_for P items
    | None => rest = None ∨ length (actions_of actions) = 1
    end.
Lemma resolve_reductions_spec r actions c : conflict_scanned (Item.entries C) c → actions_of actions = r → r ≠ [] →
  (∀ n x, last r ≠ Some (Shift n x)) → resolution r None (resolve_shift (E:=Err) g info actions c).
Proof.
  intros Hc <- Hr Hns. unfold resolve_shift. destruct (last (actions_of actions)) as [a|] eqn:Hlast; [|by apply last_None in Hlast].
  cbn [unwrap mbind outcome_bind].
  assert (resolution (actions_of actions) None (Ok (actions, Some (conflicting_items c, false)))) as Hstay.
  { eexists _, _, _. split_and!; [reflexivity|constructor|]. eexists _, _. split; [reflexivity|exact (cs_items _ _ Hc)]. }
  destruct a as [|n x| | |]; try exact Hstay. by destruct (Hns n x).
Qed.
Lemma resolve_shift_spec r n actions c : conflict_scanned (Item.entries C) c → actions_of actions = r ++ [Shift n false] → r ≠ [] →
  (∃ e, Item.has C e ∧ reduce_side t e) → resolution r (Some n) (resolve_shift (E:=Err) g info actions c).
Proof.
  intros Hc Hacts Hr (e0 & He0 & Hre0). unfold resolve_shift. rewrite Hacts, last_snoc. cbn [unwrap mbind outcome_bind].
  destruct (conflicting_items c) as [|i items] eqn:Hci.
  { exfalso. apply (not_elem_of_nil (Item.item e0)). rewrite <- Hci. apply (cs_items _ _ Hc). exists e0. split_and!; [done|by right|done]. }
  cbn [head unwrap mbind outcome_bind].
  assert (∀ j, j ∈ i :: items ↔ ∃ e, Item.has C e ∧ conflicting t e ∧ Item.item e = j) as Hall by (rewrite <- Hci; apply Hc).
  destruct (proj1 (Hall i) (list_elem_of_here _ _)) as (e1 & He1 & Hce1 & Hi1).
  destruct (conflicting_rule e1 He1 Hce1) as [_ Hv]. rewrite Hi1 in Hv.
  destruct (lookup_lt_is_Some_2 (sg_variables g) _ Hv) as [v Hlv]. rewrite (vec_get_Some _ _ _ Hlv). cbn [mbind outcome_bind].
  assert (is_auxiliary v && forallb (λ j, Item.variable_index j =? Item.variable_index i)%N (i :: items) = true ↔ repeats t) as Hrep.
  { rewrite andb_true_iff, forallb_forall. setoid_rewrite <- list_elem_of_In. setoid_rewrite N.eqb_eq. split.
    - intros [Hax Hsame]. exists (Item.variable_index i). split; [by exists v|]. intros e He Hce. apply Hsame, Hall. by exists e.
    - intros (w & (x & Hx & Hax) & Hsame). rewrite <- Hi1 in *. rewrite (Hsame e1 He1 Hce1) in *. rewrite Hx in Hlv. injection Hlv as <-. split; [done|].
      intros j (e & He & Hce & <-)%Hall. by apply Hsame. }
  destruct (is_auxiliary v && _) eqn:Hb.
  { eexists _, _, None. split_and!; [reflexivity| |by left]. rewrite actions_of_set_last by (by rewrite Hacts; destruct r).
    rewrite Hacts, removelast_last. apply resolves_repetition; [done|]. by apply decides_repetition, Hrep. }
  assert (¬ repeats t) as Hno by (rewrite <- Hrep; done).
  destruct (compare_shifts_spec c Hc) as (o & -> & Hmore & Hless & Hequal). cbn [mbind outcome_bind].
  assert (∀ x, decides t W Shifts → resolution r (Some n) (Ok (keep_last actions, Some (i :: items, x)))) as Hkeep.
  { intros x Hd. eexists _, _, None. assert (actions_of (keep_last actions) = [Shift n false]) as Hk by (apply actions_of_keep; by rewrite Hacts, last_snoc).
    split_and!; [reflexivity| |right; by rewrite Hk]. rewrite Hk. by apply resolves_shifts. }
  assert (∀ x, decides t W Reduces → resolution r (Some n) (Ok ((al_pop actions).2, Some (filter (λ i, Item.is_done i = true) (i :: items), x)))) as Hpop.
  { intros x Hd. eexists _, _, (Some (reduce_side t)). split_and!; [reflexivity| |].
    - rewrite actions_of_pop, Hacts, removelast_last. by apply resolves_reduces.
    - eexists _, _. split; [reflexivity|]. intros j. rewrite list_elem_of_filter, Hall. split.
      + intros [Hdone (e & He & [(_ & X & HX & _)|Hre] & <-)]; [|by exists e]. apply (is_done_ok _ _ _ _ _ _ _ Hti) in Hdone; [congruence|by apply HC].
      + intros (e & He & Hre & <-). split; [|exists e; split_and!; [done|by right|done]]. apply (is_done_ok _ _ _ _ _ _ _ Hti); [by apply HC|]. by destruct Hre. }
  assert (∀ x, decides t W Open → resolution r (Some n) (Ok (actions, Some (i :: items, x)))) as Hstay.
  { intros x Hd. eexists _, _, _. split_and!; [reflexivity|rewrite Hacts; by apply resolves_open|]. eexists _, _. split; [reflexivity|exact Hall]. }
  pose proof info_left as Hleft. pose proof info_right as Hright.
  destruct (shift_is_more o), (shift_is_less o); cbn [negb andb].
  - apply Hstay. apply decides_both; [done|by apply Hmore|by apply Hless].
  - apply Hkeep. apply decides_higher; [done|by apply Hmore|by rewrite <- Hless].
  - destruct (shift_is_equal o), (has_left_assoc info), (has_non_assoc info), (has_right_assoc info); cbn in *; first
      [apply Hkeep; apply decides_lower_right; naive_solver|apply Hpop; apply decides_lower; naive_solver].
  - destruct (has_left_assoc info), (has_non_assoc info), (has_right_assoc info); cbn in *; first
      [apply Hpop; apply decides_left; naive_solver|apply Hkeep; apply decides_right; naive_solver|apply Hstay; apply decides_neither; naive_solver].
Qed.

(** The parents of a conflict. *)
Context (sets : list (Item.ParseItemSet * N)).
Context (aux : list AuxiliarySymbolInfo) (Hparents : ∀ x, x ∈ aux → parents_known g lg inlines key_map sets x).
Context (Haux : ∀ e, Item.has C e → auxiliary g (Item.variable_index (Item.item e)) →
  ∃ x, x ∈ aux ∧ auxiliary_symbol x = rule_of e).
Notation conflict_set := (conflict_set g C inlines key_map sets).
(** The parents that were noted last. *)
Definition parents_of (X : Symbol) : list Symbol :=
  match list_find (λ info, auxiliary_symbol info = X) (rev aux) with Some (_, info) => parent_symbols info | None => [] end.
Lemma conflict_symbols_ok e : Item.has C e → conflicting t e → ∃ l, conflict_symbols (E:=Err) g aux (Item.item e) = Ok l ∧ (∀ x, x ∈ l → known x) ∧
  (∀ x, x ∈ l ↔ ¬ auxiliary g (Item.variable_index (Item.item e)) ∧ x = rule_of e ∨ auxiliary g (Item.variable_index (Item.item e)) ∧ x ∈ parents_of (rule_of e)) ∧
  (auxiliary g (Item.variable_index (Item.item e)) → recorded g inlines key_map sets (rule_of e) (parents_of (rule_of e))).
Proof.
  intros He Hc. destruct (conflicting_rule e He Hc) as [_ Hv]. unfold conflict_symbols. fold (rule_of e).
  assert (index (rule_of e) = Item.variable_index (Item.item e)) as -> by (unfold rule_of; by rewrite (non_terminal_known _ _ _ _ _ _ _ Hti)).
  destruct (lookup_lt_is_Some_2 (sg_variables g) _ Hv) as [v Hlv]. rewrite (vec_get_Some _ _ _ Hlv). cbn [mbind outcome_bind].
  destruct (is_auxiliary v) eqn:Ha.
  - assert (auxiliary g (Item.variable_index (Item.item e))) as Hax by by exists v. destruct (Haux e He Hax) as (x & Hx & Hxs).
    destruct (list_find_elem_of (λ info, auxiliary_symbol info = rule_of e) (rev aux) x) as [[k y] Hf];
      [by rewrite list_elem_of_In, <- in_rev, <- list_elem_of_In|done|].
    unfold parents_of. rewrite Hf. cbn. apply list_find_Some in Hf as (Hk%list_elem_of_lookup_2 & Hy & _).
    rewrite list_elem_of_In, <- in_rev, <- list_elem_of_In in Hk. destruct (Hparents y Hk) as [Hyk Hyr]. eexists. split; [done|].
    split_and!; [done|naive_solver|]. intros _. by rewrite <- Hy.
  - assert (¬ auxiliary g (Item.variable_index (Item.item e))) as Hnax by (intros (v' & ? & ?); congruence).
    eexists. split; [done|]. split_and!; [|setoid_rewrite list_elem_of_singleton; naive_solver|done].
    intros x ->%list_elem_of_singleton. unfold rule_of. by rewrite (non_terminal_known _ _ _ _ _ _ _ Hti).
Qed.
Lemma actual_conflict_ok P items : items_for P items → (∀ e, P e → conflicting t e) →
  ∃ l, actual_conflict_of (E:=Err) g aux items = Ok l ∧ conflict_set P l ∧ ∀ x, x ∈ l → known x.
Proof.
  intros Hitems HP. unfold actual_conflict_of.
  assert (∀ i, i ∈ items → ∃ e, Item.has C e ∧ P e ∧ Item.item e = i) as Hfrom by (intros i Hi; by apply Hitems).
  destruct (mapM_total (conflict_symbols (E:=Err) g aux) items) as [ls Hls].
  { intros i (e & He & Hp & <-)%Hfrom. destruct (conflict_symbols_ok e He (HP e Hp)) as (l & ? & _). by exists l. }
  rewrite Hls. cbn.
  assert (∀ x, x ∈ vec_dedup (sort_by symbol_cmp (concat ls)) ↔ ∃ l, l ∈ ls ∧ x ∈ l) as Hx.
  { intros x. rewrite elem_of_vec_dedup, sort_by_perm, elem_of_concat. naive_solver. }
  eexists. split; [done|]. split; [split|].
  - apply (vec_dedup_sorted symbol_cmp). exact (sort_by_key_sorted (λ x, x) symbol_cmp (concat ls)).
  - exists parents_of. split.
    + intros e He Hp Hax. destruct (conflict_symbols_ok e He (HP e Hp)) as (l & _ & _ & _ & Hr). by apply Hr.
    + intros x. rewrite Hx. split.
      * intros (l & Hl & Hxl). destruct (mapM_elem _ _ _ _ Hls Hl) as (i & (e & He & Hp & <-)%Hfrom & Hil).
        destruct (conflict_symbols_ok e He (HP e Hp)) as (l' & Hl' & _ & Hiff & _). rewrite Hil in Hl'. injection Hl' as <-.
        exists e. split_and!; [done|done|by apply Hiff].
      * intros (e & He & Hp & Hor). destruct (conflict_symbols_ok e He (HP e Hp)) as (l & Hl & _ & Hiff & _).
        destruct (mapM_elem_r _ _ _ (Item.item e) Hls) as (l' & Hl' & Hin'); [apply Hitems; by exists e|]. rewrite Hl in Hl'. injection Hl' as <-.
        exists l. split; [done|]. by apply Hiff.
  - intros x (l & Hl & Hxl)%Hx. destruct (mapM_elem _ _ _ _ Hls Hl) as (i & (e & He & Hp & <-)%Hfrom & Hil).
    destruct (conflict_symbols_ok e He (HP e Hp)) as (l' & Hl' & Hk & _). rewrite Hil in Hl'. injection Hl' as <-. by apply Hk.
Qed.
(** The entries that conflict after a resolution. *)
Lemma resolves_conflicting r o l P : resolves t W r o l (Some P) → ∀ e, P e → conflicting t e.
Proof. inversion 1; [by intros|by intros e ?; right|by intros]. Qed.

Lemma resolves_nonempty r o l K : resolves t W r o l K → r ≠ [] → l ≠ [].
Proof. inversion 1; by destruct r. Qed.

Notation declared := (declared g C inlines key_map sets).
Lemma handle_conflict_spec i path st en infos r o : sound g lg variable_info inlines key_map b →
  pt_states (parse_table b) !! N.to_nat i = Some st → im_get t (terminal_entries st) = Some en →
  infos !! t = Some info → r ≠ [] → (∀ c, conflict_scanned (Item.entries C) c → resolution r o (resolve_shift (E:=Err) g info (entry_actions en) c)) →
  (∀ x, x ∈ path → known x) → known t ∨ kind t = End ∨ kind t = EndOfNonTerminalExtra →
  wp (handle_conflict str_pool g lg C i path aux infos b t)
    (λ err, ∃ l P c, resolves t W r o l (Some P) ∧ 2 ≤ length l ∧ conflict_set P c ∧ c ∉ expected_conflicts g ∧ undeclared t c err) (λ b',
    sound g lg variable_info inlines key_map b' ∧ evolves i b b' ∧ steady b b' ∧ item_set_builder b' = item_set_builder b ∧
    production_infos (parse_table b') = production_infos (parse_table b) ∧
    ∃ actions K, pt_states (parse_table b') !! N.to_nat i = Some (with_terminals st (im_insert t (mkEntry actions (reusable en)) (terminal_entries st))) ∧
      resolves t W r o (actions_of actions) K ∧ declared (actions_of actions) K).
Proof.
  intros Hb Hst Hen Hinfos Hr Hresolve Hpath Htk. unfold handle_conflict. rewrite Hinfos. cbn [unwrap mbind outcome_bind].
  rewrite (get_state_ok _ _ _ Hst). cbn [mbind outcome_bind]. rewrite Hen. cbn [unwrap mbind outcome_bind].
  destruct scan_conflicts_spec as (c & -> & Hc). cbn [mbind outcome_bind].
  destruct (Hresolve c Hc) as (actions & rest & K & -> & Hres & Hrest). cbn [mbind outcome_bind].
  destruct (set_state_spec g lg variable_info inlines key_map (E:=Err) i b st (with_terminals st (im_insert t (mkEntry actions (reusable en)) (terminal_entries st))) Hb Hst)
    as (b' & -> & Hb' & Hos); [done|]. cbn [mbind outcome_bind].
  pose proof (os_state _ _ _ _ Hos (lookup_lt_Some _ _ _ Hst)) as Hst'.
  assert (declared (actions_of actions) K → wp (Ok b')
    (λ err, ∃ l P c, resolves t W r o l (Some P) ∧ 2 ≤ length l ∧ conflict_set P c ∧ c ∉ expected_conflicts g ∧ undeclared t c err) (λ b',
    sound g lg variable_info inlines key_map b' ∧ evolves i b b' ∧ steady b b' ∧ item_set_builder b' = item_set_builder b ∧
    production_infos (parse_table b') = production_infos (parse_table b) ∧
    ∃ actions K, pt_states (parse_table b') !! N.to_nat i = Some (with_terminals st (im_insert t (mkEntry actions (reusable en)) (terminal_entries st))) ∧
      resolves t W r o (actions_of actions) K ∧ declared (actions_of actions) K)) as Hdone.
  { intros Hd. cbn. split_and!; [done|apply Hos|apply Hos|apply Hos|apply Hos|]. by exists actions, K. }
  destruct K as [P|].
  2: { assert (declared (actions_of actions) None) as Hd by done. destruct Hrest as [-> | Hone]; [by apply Hdone|].
    destruct rest as [[items considered]|]; [|by apply Hdone]. rewrite Hone. by apply Hdone. }
  destruct Hrest as (items & considered & -> & Hitems).
  destruct (Nat.eqb_spec (length (actions_of actions)) 1) as [Hone|Hmany]; [apply Hdone; intros ?; lia|].
  pose proof (resolves_conflicting _ _ _ _ Hres) as HP.
  destruct (actual_conflict_ok P items Hitems HP) as (l & -> & Hl & Hlk). cbn [mbind outcome_bind].
  case_bool_decide as Hdecl.
  - cbn. split_and!; [|destruct (os_evolves _ _ _ _ Hos); by split|destruct (os_steady _ _ _ _ Hos); by split|apply Hos|apply Hos|].
    + destruct Hb' as [B1 B2 B3 B4 B5 B6]. split; [done|by destruct B2|by destruct B3|done|done|].
      intros x Hx. cbn in Hx. apply elem_of_difference in Hx as [Hx _]. by apply B6.
    + exists actions, (Some P). split_and!; [done|done|]. intros _ P' [= <-]. by exists l.
  - destruct (conflict_error_ok path t items considered l) as (e & ns & -> & ? & ? & ?); [|done|done|done|].
    { intros j (x & Hx & Hp & <-)%Hitems. apply conflicting_rule; auto. }
    exists (actions_of actions), P, l. split_and!; [done| |done|done|by exists e, ns].
    assert (actions_of actions ≠ []) as Hne; [|destruct (actions_of actions) as [|? [|? ?]]; [done|done|cbn; lia]].
    by apply (resolves_nonempty _ _ _ _ Hres).
Qed.
End conflict.
End resolve.
