(* ===== verification/BuildState.v ===== *)
(** * [build_tables/build_parse_table.rs]: the entries of a state

    What a state of the table is for the closure of its item set: the actions of
    every token are those that precedences and associativities leave of the shift and the
    reductions that the items offer, several only for a repetition or a declared conflict;
    the gotos, the extras and the reserved words. *)
From S2P Require Import Prelude BitVec Symbols TokenSet Ordering StrPool Grammars Lookaheads Items ItemSets FirstSets FollowSets Additions Closure Tables Outcomes BuildTable BuildConflicts BuildStates BuildClosure BuildInputs BuildVerdicts BuildGoto BuildScan BuildActions BuildResolve.
Import PT Builder.

Section states.
Context {H : Type} (str_pool : StrPool H) (g : SyntaxGrammar) (lg : LexicalGrammar).
Context {F : Type} (variable_info : list (VariableInfo F)).
Context {I : Type} {IS : IndexSet I} {MI : MapIter}.
Context (inlines : InlinedProductionMap) (key_map : Item.ItemKeyMap) (items_bound : nat).
Context (Hti : table_inputs str_pool g lg variable_info inlines key_map items_bound).
Notation n_terminals := (length (lg_variables lg)).
Notation item_ok := (Item.item_ok g key_map).
Notation next_symbol := (next_symbol g).
Notation builder := (ParseTableBuilder I).
Notation Hin := (ti_inputs _ _ _ _ _ _ _ Hti).
Notation Err := ParseTableBuilderError.
Notation known := (symbol_known g n_terminals).
Notation advances := (advances g variable_info).
Notation infos b := (production_infos (parse_table b)).

(** ** Specification *)
Section spec.
Context (b : builder) (C : Item.ParseItemSet).
Definition reducing (t : Symbol) (e : Item.ParseItemSetEntry) : Prop := Item.has C e ∧ reduces g (pool_of b) e t.
Definition shifting (X : Symbol) : Prop := advances (Item.entries C) X ≠ [].
(** State [n] is for the items of [C] after [X]. *)
Definition leads (X : Symbol) (n : N) : Prop :=
  ∃ next, gathers (pool_of b) (advances (Item.entries C) X) next ∧ target b next n.
Definition shifts_on (t : Symbol) : Prop := is_non_terminal t = false ∧ shifting t.
(** The state that a token is shifted to, if it is. *)
Definition shift_to (t : Symbol) (o : option N) : Prop :=
  match o with Some n => shifts_on t ∧ leads t n | None => ¬ shifts_on t end.
(** What the items of the state ask for on a token: the reductions [r] by the
    entries [W] that survive one another, and a shift. *)
Record asks (t : Symbol) (W : list Item.ParseItemSetEntry) (r : list ParseAction) (o : option N) : Prop := {
  as_survivors : survivors g (λ e, reduces g (pool_of b) e t) (Item.entries C) W;
  as_reductions : reductions_of g variable_info (infos b) W r;
  as_shift : shift_to t o;
}.
(** The actions of a token: what is left of the reductions and the shift, and more than
    one action for a repetition or a declared conflict only. *)
Definition cell_right (t : Symbol) (l : list ParseAction) : Prop :=
  ∃ W r o K, asks t W r o ∧ resolves g (pool_of b) C t W r o l K ∧
    declared g C inlines key_map (state_ids_by_item_set b) l K.
Definition offered (t : Symbol) : Prop := shifts_on t ∨ ∃ e, reducing t e.
(** A state that ends an extra rule has no extras. *)
Definition ends_extra : Prop := offered end_of_nonterminal_extra.
Definition extra_action (t : Symbol) : option ParseAction :=
  match list_find (λ e, e.1 = t) (non_terminal_extra_states b) with
  | Some (_, (_, n)) => Some (Shift n false)
  | None => if bool_decide (t ∈ extra_symbols g) && negb (is_non_terminal t) then Some ShiftExtra else None
  end.
(** The reserved words that an item asks for where the keyword can come. *)
Definition reserves (keyword : Symbol) (e : Item.ParseItemSetEntry) (n : N) : Prop :=
  Item.has C e ∧ match steps_of g (Item.item e) !! N.to_nat (Item.step_index (Item.item e)) with
  | Some s => step_symbol s = keyword ∧ n = step_reserved s
  | None => tokens_of (pool_of b) (Item.lookaheads e) keyword ∧ n = Item.following_reserved_word_set e
  end.
Record state_right (st : ParseState ParseTableEntry) : Prop := {
  sr_terminals : ∀ t, match im_get t (terminal_entries st) with
    | Some en => reusable en = true ∧
        (offered t ∧ cell_right t (actions_of (entry_actions en)) ∨
         ¬ offered t ∧ ¬ ends_extra ∧ ∃ a, extra_action t = Some a ∧ actions_of (entry_actions en) = [a])
    | None => ¬ offered t ∧ (ends_extra ∨ extra_action t = None)
    end;
  sr_nonterminals : ∀ X, match im_get X (nonterminal_entries st) with
    | Some GShiftExtra => ¬ ends_extra ∧ X ∈ extra_symbols g ∧ is_non_terminal X = true
    | Some (Goto n) => is_non_terminal X = true ∧ shifting X ∧ leads X n ∧ (ends_extra ∨ X ∉ extra_symbols g)
    | None => is_non_terminal X = true → ¬ shifting X ∧ (ends_extra ∨ X ∉ extra_symbols g)
    end;
  sr_reserved : match word_token g with
    | None => reserved_words st = TokenSet.new
    | Some keyword => (∀ e n, ¬ reserves keyword e n) ∧ reserved_words st = TokenSet.new ∨
        ∃ n, reserved_word_sets g !! N.to_nat n = Some (reserved_words st) ∧ (∃ e, reserves keyword e n) ∧
          ∀ e m, reserves keyword e m → (m ≤ n)%N
    end;
}.
End spec.

(** Why there can be no table: several actions are left for a token and the conflict
    is not declared, or an extra rule ends where something else can follow. *)
Definition fault_of (b : builder) (C : Item.ParseItemSet) (err : Err) : Prop :=
  (∃ t W r o l P c, asks b C t W r o ∧ resolves g (pool_of b) C t W r o l (Some P) ∧ 2 ≤ length l ∧
    conflict_set g C inlines key_map (state_ids_by_item_set b) P c ∧ c ∉ expected_conflicts g ∧ undeclared str_pool g lg t c err) ∨
  ends_extra b C ∧ (∃ t, t ≠ end_of_nonterminal_extra ∧ offered b C t) ∧ ∃ names, err = AmbiguousExtra names.

(** The specification holds on. *)
(** All that it depends on. *)
Record extends (b b' : builder) : Prop := {
  ex_pool : Lookahead.grows (pool_of b) (pool_of b');
  ex_item_sets : state_ids_by_item_set b `prefix_of` state_ids_by_item_set b';
  ex_extras : non_terminal_extra_states b' = non_terminal_extra_states b;
  ex_infos : production_infos (parse_table b) `prefix_of` production_infos (parse_table b');
}.
Lemma evolves_extends i b b' : evolves i b b' → extends b b'.
Proof. intros []. by split. Qed.
Section evolution.
Context (b b' : builder) (C : Item.ParseItemSet) (Hev : extends b b').
Context (HC : ∀ e, Item.has C e → ∃ X, Lookahead.stands (pool_of b) (Item.lookaheads e) X).
Lemma stands_advances X : all_stand (pool_of b) (advances (Item.entries C) X).
Proof. apply advances_stand. intros e He. by apply HC. Qed.
Lemma reducing_extends t e : reducing b C t e ↔ reducing b' C t e.
Proof.
  unfold reducing, reduces. pose proof (ex_pool _ _ Hev) as Hg.
  split; intros (He & Hn & Ht & Heof); (split; [done|]; split; [done|]; split; [|done]); by apply (tokens_of_grows (pool_of b) (pool_of b')); auto.
Qed.
Lemma leads_extends X n : leads b C X n → leads b' C X n.
Proof.
  intros (next & Hn & Ht). destruct Ht as (s' & Hs' & Hk). exists next. split; [|exists s'; split; [|done]; eapply prefix_lookup_Some; [done|apply (ex_item_sets _ _ Hev)]].
  eapply gathers_grows; [apply (ex_pool _ _ Hev)|apply stands_advances|done].
Qed.
Lemma offered_extends t : offered b C t ↔ offered b' C t.
Proof. unfold offered. by setoid_rewrite reducing_extends. Qed.
Lemma asks_extends t W r o : asks b C t W r o → asks b' C t W r o.
Proof.
  intros [H1 H2 H3]. split.
  - eapply survivors_ext; [|exact H1]. intros e He. destruct (reducing_extends t e) as [A B].
    split; [intros Hr; by apply A|intros Hr; by apply B].
  - eapply reductions_grow; [apply (ex_infos _ _ Hev)|done].
  - destruct o as [n|]; [|done]. destruct H3. split; [done|by apply leads_extends].
Qed.
Lemma tokens_extends e t : Item.has C e → tokens_of (pool_of b) (Item.lookaheads e) t ↔ tokens_of (pool_of b') (Item.lookaheads e) t.
Proof. intros He. symmetry. apply (tokens_of_grows (pool_of b) (pool_of b')); [apply (ex_pool _ _ Hev)|by apply HC]. Qed.
Lemma cell_right_extends t l : cell_right b C t l → cell_right b' C t l.
Proof.
  intros (W & r & o & K & Ha & Hr & Hd). destruct (resolves_grows g _ (pool_of b') C tokens_extends _ _ _ _ _ _ Hr) as (K' & Hr' & HK).
  exists W, r, o, K'. split_and!; [by apply asks_extends|done|]. eapply declared_grows; [apply (ex_item_sets _ _ Hev)|done|done].
Qed.
Lemma state_right_extends st : state_right b C st → state_right b' C st.
Proof.
  intros [H1 H2 H3]. assert (ends_extra b C ↔ ends_extra b' C) as Hcl by apply offered_extends.
  assert (∀ t, extra_action b' t = extra_action b t) as Hex by (intros t; unfold extra_action; by rewrite (ex_extras _ _ Hev)).
  split.
  - intros t. specialize (H1 t). destruct (im_get t (terminal_entries st)); rewrite Hex, <- Hcl, <- offered_extends; [|done].
    destruct H1 as [? [(? & ?)|?]]; (split; [done|]); [left|by right]. split; [done|by apply cell_right_extends].
  - intros X. specialize (H2 X). destruct (im_get X (nonterminal_entries st)) as [[n|]|]; rewrite <- Hcl; try done.
    destruct H2 as (? & ? & ? & ?). split_and!; [done|done|by apply leads_extends|done].
  - destruct (word_token g) as [keyword|]; [|done].
    assert (∀ e n, reserves b C keyword e n ↔ reserves b' C keyword e n) as Hrs.
    { intros e n. unfold reserves. split; intros [He Hm]; (split; [done|]); destruct (steps_of g (Item.item e) !! _); try done;
        (destruct Hm as [Hm ?]; split; [|done]); by apply (tokens_of_grows (pool_of b) (pool_of b')); auto; apply (ex_pool _ _ Hev). }
    by setoid_rewrite <- Hrs.
Qed.
End evolution.
Section evolving.
Context (i : N) (b b' : builder) (C : Item.ParseItemSet) (Hev : evolves i b b').
Context (HC : ∀ e, Item.has C e → ∃ X, Lookahead.stands (pool_of b) (Item.lookaheads e) X).
Notation Hex := (evolves_extends i b b' Hev).
Lemma reducing_evolves t e : reducing b C t e ↔ reducing b' C t e.
Proof. exact (reducing_extends b b' C Hex HC t e). Qed.
Lemma leads_evolves X n : leads b C X n → leads b' C X n.
Proof. exact (leads_extends b b' C Hex HC X n). Qed.
Lemma offered_evolves t : offered b C t ↔ offered b' C t.
Proof. exact (offered_extends b b' C Hex HC t). Qed.
Lemma asks_evolves t W r o : asks b C t W r o → asks b' C t W r o.
Proof. exact (asks_extends b b' C Hex HC t W r o). Qed.
Lemma cell_right_evolves t l : cell_right b C t l → cell_right b' C t l.
Proof. exact (cell_right_extends b b' C Hex HC t l). Qed.
End evolving.

Lemma reduction_not_shift l j n r : ¬ reduction g variable_info l j (Shift n r).
Proof. unfold reduction. destruct (Item.is_augmented j); [done|]. by intros (k & x & ? & _). Qed.

(** ** The entries of one state *)
Section state.
Context (i : N) (s C : Item.ParseItemSet) (b0 : builder) (aux0 : list AuxiliarySymbolInfo) (sc : Scan (I:=I)).
Notation p0 := (pool_of b0).
Context (Hs : kernel_ok g lg key_map p0 s) (HC : is_closure g inlines key_map p0 s C) (Hcovers : covers g aux0 s).
Context (Hsc : scanned g lg variable_info inlines key_map i b0 aux0 (λ _, Item.entries C) (Item.entries C) sc).
Notation b1 := (sc_builder sc).
Notation aux1 := (vec_dedup (sc_aux sc)).
Notation shifts := (btree_entries (terminal_successors sc)).
Context (st1 : ParseState ParseTableEntry) (Hst1 : pt_states (parse_table b1) !! N.to_nat i = Some st1).

Lemma closure_stands e : Item.has C e → ∃ X, Lookahead.stands p0 (Item.lookaheads e) X.
Proof. apply (ic_items _ _ _ _ _ _ HC). Qed.
Lemma stands_evolves b : Lookahead.grows p0 (pool_of b) → ∀ e, Item.has C e → ∃ X, Lookahead.stands (pool_of b) (Item.lookaheads e) X.
Proof. intros Hg e He. destruct (closure_stands e He) as [X HX]. exists X. by eapply Lookahead.stands_grows. Qed.

(** A cell before its conflict, if any, is resolved, and what is noted of its reductions. *)
Definition shift_list (o : option N) : list ParseAction := match o with Some n => [Shift n false] | None => [] end.
Definition precell (b : builder) (conflicts : TokenSet) (t : Symbol) (entry : option ParseTableEntry) : Prop :=
  ∃ W r o, asks b C t W r o ∧ (W ≠ [] → ∃ info, reduction_infos sc !! t = Some info ∧ info_for g W info) ∧
    match entry with
    | Some en => (W ≠ [] ∨ is_Some o) ∧ reusable en = true ∧ actions_of (entry_actions en) = r ++ shift_list o ∧
        (t ∈ toks conflicts ↔ 2 ≤ length (r ++ shift_list o))
    | None => W = [] ∧ o = None ∧ t ∉ toks conflicts
    end.
Lemma asks_offered b t W r o : asks b C t W r o → offered b C t ↔ W ≠ [] ∨ is_Some o.
Proof.
  intros [H1 H2 H3]. pose proof (survivors_none _ _ _ _ H1) as HW. split.
  - intros [Hsh|(e & He & Hr)]; [|left; intros Hn; by apply (proj1 HW Hn e He)].
    right. destruct o as [n|]; [done|]. by destruct H3.
  - intros [Hne|[n ->]]; [right|left; apply H3]. destruct W as [|e W]; [done|]. exists e.
    apply (survivors_in _ _ _ _ _ H1), list_elem_of_here.
Qed.
Lemma shifted_cells bc : shifted g lg variable_info inlines key_map i sc st1 shifts bc →
  ∃ st, pt_states (parse_table bc.1) !! N.to_nat i = Some st ∧ blank st ∧ NoDup (terminal_entries st).*1 ∧ ∀ t, precell bc.1 bc.2 t (im_get t (terminal_entries st)).
Proof.
  intros [Hgr Hw Htk (st & Hst & Hal & Hbl & Hnd & Hout & Hin')]. exists st. split; [done|]. split; [done|]. split; [done|]. intros t.
  assert (pool_of bc.1 = pool_of b1) as Hpool by (unfold pool_of; by rewrite (gr_builder _ _ _ _ _ _ _ _ _ Hgr)).
  assert (infos bc.1 = infos b1) as Hinfos by apply (gr_infos _ _ _ _ _ _ _ _ _ Hgr).
  destruct (sd_state _ _ _ _ _ _ _ _ _ _ _ Hsc) as (st' & Hst' & _ & _ & Hc). assert (st' = st1) as -> by congruence.
  destruct (Hc t) as (W & HW & Hcell). pose proof (sd_terminals _ _ _ _ _ _ _ _ _ _ _ Hsc t) as Hterm.
  assert (survivors g (λ e, reduces g (pool_of bc.1) e t) (Item.entries C) W) as HWb.
  { eapply survivors_ext; [|exact HW]. intros e He. unfold reduces. rewrite Hpool.
    by rewrite (tokens_of_grows p0 (pool_of b1)) by (apply (ev_pool _ _ _ (sd_evolves _ _ _ _ _ _ _ _ _ _ _ Hsc)) || by apply closure_stands). }
  assert (∃ r, reductions_of g variable_info (infos b1) W r ∧ actions_of (entry_actions (default new_entry (im_get t (terminal_entries st1)))) = r ∧
    reusable (default new_entry (im_get t (terminal_entries st1))) = true ∧ (t ∈ toks (lookaheads_with_conflicts sc) ↔ 2 ≤ length r) ∧
    (im_get t (terminal_entries st1) = None ↔ W = []) ∧ (W ≠ [] → ∃ info, reduction_infos sc !! t = Some info ∧ info_for g W info)) as (r & Hr & Hacts & Hreu & Hconf & Hnone & Hnoted).
  { unfold cell in Hcell. destruct (im_get t (terminal_entries st1)) as [en|], (reduction_infos sc !! t) as [info|]; try done.
    - destruct Hcell as (Hne & Hreu & [A1 A2 A3]). eexists. split_and!; [exact A1|done|done|done|by split|by exists info].
    - destruct Hcell as [-> Hno]. exists []. split_and!; [by exists []|done|done| |done|done]. split; [by intros ?|cbn; lia]. }
  pose proof (reductions_nil _ _ _ _ _ Hr) as Hrnil. clear Hcell.
  destruct (terminal_successors sc !! t) as [next|] eqn:Hnext.
  - destruct Hterm as (Htok & Hne & Hga). pose proof (proj2 (elem_of_btree_entries _ _ _) Hnext) as Hmem.
    destruct (Hin' t next Hmem) as (id & Htar & ->). exists W, r, (Some id). split_and!; [split|done|..].
    + done.
    + by rewrite Hinfos.
    + split; [done|]. exists next. by rewrite Hpool.
    + by right; eexists.
    + done.
    + cbn [entry_actions]. by rewrite actions_of_push, Hacts.
    + rewrite Htk, length_app. cbn. rewrite Hacts, Hconf. split.
      * intros [?|[_ Hrn]]; [lia|]. destruct r; [done|cbn; lia].
      * intros Hl. right. split; [apply list_elem_of_fmap; by exists (t, next)|]. intros ->. cbn in Hl. lia.
  - assert (t ∉ shifts.*1) as Hnot.
    { intros ([t' next] & -> & Hmem)%list_elem_of_fmap. apply elem_of_btree_entries in Hmem. cbn in *. congruence. }
    assert (t ∈ toks bc.2 ↔ 2 ≤ length r) as Hconf2 by (rewrite Htk, Hconf; split; [by intros [?|[? _]]|by left]).
    rewrite (Hout t Hnot). exists W, r, None. split_and!; [split|done|].
    + done.
    + by rewrite Hinfos.
    + intros [Htok Hsh]. by apply Hsh, Hterm.
    + destruct (im_get t (terminal_entries st1)) as [en|] eqn:Hen.
      * cbn in Hacts, Hreu. cbn [shift_list]. rewrite app_nil_r. split_and!; [left; naive_solver|done|done|done].
      * assert (W = []) as Hwn by by apply Hnone. split_and!; [done|done|]. rewrite Hconf2. assert (r = []) as -> by by apply Hrnil. cbn. lia.
Qed.

(** A fault that the turn meets. *)
Definition fault_met (err : Err) : Prop :=
  ∃ b, sound g lg variable_info inlines key_map b ∧ evolves i b0 b ∧ fault_of b C err.

(** A conflict is not with the start item. *)
Lemma successor_in X : shifting C X → known X.
Proof.
  intros Hne. unfold shifting in Hne. destruct (advances (Item.entries C) X) as [|a l] eqn:Ha; [done|].
  assert (a ∈ advances (Item.entries C) X) as (e & He & Hn & _)%advances_elem by (rewrite Ha; apply list_elem_of_here).
  eapply (next_known _ _ _ _ _ _ _ Hti); [by apply (ic_items _ _ _ _ _ _ HC)|done].
Qed.
Lemma conflict_rules b t W r o : evolves i b0 b → asks b C t W r o → 2 ≤ length (r ++ shift_list o) →
  W ≠ [] ∧ ∀ e, e ∈ W → Item.is_augmented (Item.item e) = false ∧ N.to_nat (index (rule_of e)) < n_vars g.
Proof.
  intros Hev [H1 H2 H3] Hlen. pose proof (reductions_nil _ _ _ _ _ H2) as Hnil. split.
  { intros Hn. apply Hnil in Hn as ->. destruct o; cbn in Hlen; lia. }
  assert (∀ e, e ∈ W → Item.has C e ∧ next_symbol (Item.item e) = None ∧ tokens_of p0 (Item.lookaheads e) t) as Hin'.
  { intros e He. destruct (survivors_in _ _ _ _ _ H1 He) as (Hec & Hn & Ht & _). split_and!; [done|done|].
    apply (tokens_of_grows p0 (pool_of b)) in Ht; [done|apply (ev_pool _ _ _ Hev)|by apply closure_stands]. }
  intros e He. destruct (Hin' e He) as (Hec & Hn & Ht).
  assert (Item.is_augmented (Item.item e) = false) as Ha.
  { apply not_true_is_false. intros Ha. pose proof (closure_eof _ _ _ _ _ _ _ Hti p0 s C Hs HC e t Hec Ha Ht) as ->.
    destruct o as [n|]; [by destruct H3 as [[_ ?%successor_in] _]|]. cbn in Hlen. rewrite app_nil_r in Hlen.
    assert (∀ a, a ∈ r → a = PAccept) as Hall.
    { intros a Har. destruct (reductions_from _ _ _ _ _ _ H2 Har) as (x & Hx & Hra). destruct (Hin' x Hx) as (Hxc & Hnx & Htx).
      assert (Item.is_augmented (Item.item x) = true) as Hxa by (by apply (closure_accept _ _ _ _ _ _ _ Hti p0 s C Hs HC e x)).
      unfold reduction in Hra. by rewrite Hxa in Hra. }
    destruct (reductions_elem _ _ _ _ _ H2) as (_ & _ & Hnd & _). destruct r as [|a [|a' r]]; cbn in Hlen; [lia|lia|].
    apply NoDup_cons in Hnd as [Hnd _]. apply Hnd. rewrite (Hall a), <- (Hall a'); [apply list_elem_of_here|..].
    - apply list_elem_of_further, list_elem_of_here.
    - apply list_elem_of_here. }
  split; [done|]. destruct (closure_entry _ _ _ _ _ _ _ Hti p0 s C Hs HC e Hec) as [[[Hv _]|[Hv _]] _]; [unfold Item.is_augmented in Ha; by rewrite Hv, N.eqb_refl in Ha|].
  unfold rule_of. by rewrite (non_terminal_known _ _ _ _ _ _ _ Hti).
Qed.
(** Without a conflict there is nothing to resolve. *)
Lemma cell_unresolved b t W r o : asks b C t W r o → length (r ++ shift_list o) < 2 → cell_right b C t (r ++ shift_list o).
Proof.
  intros Ha Hlen. pose proof (reductions_nil _ _ _ _ _ (as_reductions _ _ _ _ _ _ Ha)) as Hnil. destruct o as [n|]; cbn [shift_list] in *.
  - rewrite length_app in Hlen. cbn in Hlen. destruct r as [|a r]; [|cbn in Hlen; lia].
    exists W, [], (Some n), None. split_and!; [done|apply resolves_alone; by apply Hnil|done].
  - rewrite app_nil_r in *. eexists W, r, None, _. split_and!; [done|constructor|]. intros ?. lia.
Qed.

(** The conflicts, one after the other. *)
Definition cell_settled (b : builder) (t : Symbol) (entry : option ParseTableEntry) : Prop :=
  match entry with
  | Some en => offered b C t ∧ reusable en = true ∧ cell_right b C t (actions_of (entry_actions en))
  | None => ¬ offered b C t
  end.
Lemma cell_settled_evolves b b' t entry : evolves i b b' → (∀ e, Item.has C e → ∃ X, Lookahead.stands (pool_of b) (Item.lookaheads e) X) →
  cell_settled b t entry → cell_settled b' t entry.
Proof.
  intros Hev HX. destruct entry as [en|]; cbn; rewrite <- (offered_evolves i b b' C Hev HX); [|done].
  intros (? & ? & ?). split_and!; [done|done|by eapply cell_right_evolves].
Qed.
Lemma precell_evolves b b' c t entry : evolves i b b' → (∀ e, Item.has C e → ∃ X, Lookahead.stands (pool_of b) (Item.lookaheads e) X) →
  precell b c t entry → precell b' c t entry.
Proof. intros Hev HX (W & r & o & Ha & ?). exists W, r, o. split; [by eapply asks_evolves|done]. Qed.
Section conflicts.
Context (b2 : builder) (c2 : TokenSet) (st2 : ParseState ParseTableEntry) (path : list Symbol).
Context (Hb2 : sound g lg variable_info inlines key_map b2) (Hev2 : evolves i b1 b2) (Hib2 : item_set_builder b2 = item_set_builder b1).
Context (Hst2 : pt_states (parse_table b2) !! N.to_nat i = Some st2) (Hcells : ∀ t, precell b2 c2 t (im_get t (terminal_entries st2))) (Hkeys : NoDup (terminal_entries st2).*1).
Context (Hw : TokenSet.wf c2) (Hpath : ∀ x, x ∈ path → known x).
Record resolving (D : list Symbol) (b : builder) : Prop := {
  rv_sound : sound g lg variable_info inlines key_map b;
  rv_evolves : evolves i b2 b;
  rv_steady : steady b2 b;
  rv_builder : item_set_builder b = item_set_builder b2;
  rv_state : ∃ st, pt_states (parse_table b) !! N.to_nat i = Some st ∧ nonterminal_entries st = nonterminal_entries st2 ∧
    reserved_words st = reserved_words st2 ∧ NoDup (terminal_entries st).*1 ∧
    (∀ t, t ∈ D → cell_settled b t (im_get t (terminal_entries st))) ∧
    ∀ t, t ∉ D → im_get t (terminal_entries st) = im_get t (terminal_entries st2);
}.
Lemma evolves_b0 b : evolves i b2 b → evolves i b0 b.
Proof. intros Hev. etrans; [apply (sd_evolves _ _ _ _ _ _ _ _ _ _ _ Hsc)|]. by etrans. Qed.
Lemma stands_b2 e : Item.has C e → ∃ X, Lookahead.stands (pool_of b2) (Item.lookaheads e) X.
Proof.
  intros He. destruct (closure_stands e He) as [X HX]. exists X. eapply Lookahead.stands_grows; [|done]. apply (ev_pool _ _ _ (evolves_b0 b2 ltac:(done))).
Qed.
Lemma resolving_next D rest t b ts : resolving D b → ts = D ++ t :: rest → NoDup ts → (∀ x, x ∈ ts ↔ x ∈ toks c2) →
  wp (handle_conflict str_pool g lg C i path aux1 (reduction_infos sc) b t) fault_met (resolving (D ++ [t])).
Proof.
  intros [R1 R2 R3 R4 (st & Hst & Hnt & Hres & Hkst & Hin' & Hout)] Hd Hnd Hts.
  assert (t ∉ D) as Hnew.
  { rewrite Hd in Hnd. apply NoDup_app in Hnd as (_ & Hdis & _). intros Ht. by apply (Hdis t Ht), list_elem_of_here. }
  assert (t ∈ toks c2) as Htc by (apply Hts; rewrite Hd; set_solver).
  destruct (Hcells t) as (W & r & o & Hasks & Hnoted & Hcell). rewrite <- (Hout t Hnew) in Hcell.
  destruct (im_get t (terminal_entries st)) as [en|] eqn:Hen; [|by destruct Hcell as (_ & _ & ?)].
  destruct Hcell as (Hor & Hreu & Hacts & Hmany). apply Hmany in Htc as Hlen. clear Hmany.
  assert (pool_of b = pool_of b2) as Hpool by (unfold pool_of; by rewrite R4).
  destruct (conflict_rules b2 t W r o (evolves_b0 b2 ltac:(done)) Hasks Hlen) as (HW & Hrules).
  destruct (Hnoted HW) as (info & Hinfo & Hfor).
  assert (∀ e, Item.has C e → Item.item_ok g key_map (Item.item e) ∧ item_of_grammar g (Item.item e) ∧ ∃ X, Lookahead.stands (pool_of b) (Item.lookaheads e) X) as HCb.
  { intros x Hx. destruct (ic_items _ _ _ _ _ _ HC x Hx) as [Hxi _]. split_and!; [done| |rewrite Hpool; by apply stands_b2].
    by apply (closure_entry _ _ _ _ _ _ _ Hti p0 s C Hs HC). }
  assert (TokenSet.token t) as Htok by (apply TokenSet.elem_of_toks in Htc; [|done]; apply Htc).
  assert (r ≠ []) as Hr by (intros Hr; by apply HW, (reductions_nil _ _ _ _ _ (as_reductions _ _ _ _ _ _ Hasks))).
  assert (∃ e, e ∈ W) as [e HeW] by (destruct W as [|e W]; [done|exists e; apply list_elem_of_here]).
  destruct (survivors_in _ _ _ _ _ (as_survivors _ _ _ _ _ _ Hasks) HeW) as (Hec & Hen' & Het & _). destruct (Hrules e HeW) as [Hea _].
  eapply wp_weaken; [eapply (handle_conflict_spec str_pool g lg variable_info inlines key_map items_bound Hti C b t) with
    (W := W) (r := r) (o := o) (sets := state_ids_by_item_set b2); try done| |].
  - apply R1.
  - apply (ic_set _ _ _ _ _ _ HC).
  - intros x Hx. eapply parents_known_grows; [|apply (sd_parents _ _ _ _ _ _ _ _ _ _ _ Hsc); by apply elem_of_vec_dedup].
    apply (ev_item_sets _ _ _ (evolves_b0 b2 ltac:(done))).
  - intros x Hx Ha. by eapply (closure_covers str_pool g lg variable_info inlines key_map items_bound Hti i s C b0 aux0 sc Hs HC Hcovers).
  - intros c Hc. destruct o as [n|]; cbn [shift_list] in Hacts.
    + eapply resolve_shift_spec; try done; [apply R1|apply (ic_set _ _ _ _ _ _ HC)|by intros x Hx; apply Hrules|]. exists e. split; [done|]. split_and!; [done|done|by rewrite Hpool].
    + rewrite app_nil_r in Hacts. eapply resolve_reductions_spec; try done. intros n x Hl. apply last_Some_elem_of in Hl.
      destruct (reductions_from _ _ _ _ _ _ (as_reductions _ _ _ _ _ _ Hasks) Hl) as (y & _ & Hy). by apply reduction_not_shift in Hy.
  - apply (tokens_of_grows p0 (pool_of b2)) in Het; [|apply (ev_pool _ _ _ (evolves_b0 b2 ltac:(done)))|by apply closure_stands].
    destruct (closure_named _ _ _ _ _ _ _ Hti p0 s C Hs HC e t Hec Het) as [?|[->| ->]]; auto.
  - intros err (l & P & c & Hl & Hlen' & Hc & Hnot & Hund). rewrite Hpool in Hl. exists b2. split_and!; [done|by apply evolves_b0|]. left.
    exists t, W, r, o, l, P, c. split_and!; done.
  - intros b' (S1 & S2 & S3 & S4 & S5 & actions & K & Hst' & Hresolved & Hdecl). rewrite Hpool in Hresolved.
    assert (evolves i b2 b') as Hev by by etrans. split; [done|done|by etrans|by rewrite S4|].
    eexists. split; [exact Hst'|]. cbn. split_and!; [done|done|by apply im_insert_nodup| |].
    + intros t' [Ht'| ->%list_elem_of_singleton]%elem_of_app.
      * rewrite im_get_insert_ne by (by intros ->). apply (cell_settled_evolves b b'); [done| |by apply Hin'].
        rewrite Hpool. apply stands_b2.
      * rewrite im_get_insert_eq. apply (cell_settled_evolves b2 b'); [done|apply stands_b2|]. split_and!; [|done|].
        -- apply (asks_offered _ _ _ _ _ Hasks). by left.
        -- exists W, r, o, K. done.
    + intros t'. rewrite not_elem_of_app, list_elem_of_singleton. intros [Ht' Hne']. rewrite im_get_insert_ne by done. by apply Hout.
Qed.
Lemma conflicts_spec : ∃ ts, tokens (E:=Err) c2 = Ok ts ∧
  wp (for_each (handle_conflict str_pool g lg C i path aux1 (reduction_infos sc)) b2 ts) fault_met (λ b,
    resolving ts b ∧ ∃ st, pt_states (parse_table b) !! N.to_nat i = Some st ∧ nonterminal_entries st = nonterminal_entries st2 ∧
      reserved_words st = reserved_words st2 ∧ NoDup (terminal_entries st).*1 ∧ ∀ t, cell_settled b t (im_get t (terminal_entries st))).
Proof.
  destruct (TokenSet.toks_iter_spec c2 Hw) as (ts & Hts & Hnd & Hl & _). exists ts. unfold tokens. rewrite Hts. split; [done|].
  assert (∀ x, x ∈ ts ↔ x ∈ toks c2) as Hmem by (intros x; rewrite TokenSet.elem_of_toks by done; apply Hl).
  eapply wp_mono; [apply (wp_for_each _ _ resolving)|].
  - split; try done. exists st2. split_and!; try done. by intros t ?%not_elem_of_nil.
  - intros D t rest b Hd Hr. by eapply resolving_next.
  - intros b Hr. split; [done|]. destruct (rv_state _ _ Hr) as (st & Hst & Hnt & Hres & Hkst & Hin' & Hout). exists st. split_and!; [done|done|done|done|].
    intros t. destruct (decide (t ∈ ts)) as [Ht|Ht]; [by apply Hin'|]. rewrite (Hout t Ht).
    apply (cell_settled_evolves b2 b); [apply Hr|apply stands_b2|]. pose proof (Hcells t) as Hcell. rewrite Hmem in Ht.
    destruct Hcell as (W & r & o & Hasks & _ & Hcell). pose proof (asks_offered _ _ _ _ _ Hasks) as Hoff.
    destruct (im_get t (terminal_entries st2)) as [en|].
    + destruct Hcell as (Hor & Hreu & Hacts & Hmany). split_and!; [by apply Hoff|done|]. rewrite Hacts. eapply cell_unresolved; [done|].
      apply Nat.nle_gt. intros Hlen. by apply Ht, Hmany.
    + destruct Hcell as (-> & -> & _). cbn. rewrite Hoff. intros [?|[? ?]]; done.
Qed.
End conflicts.

(** The extras. *)
Lemma im_or_insert_get {V} t k (v : V) m : im_get t (im_or_insert k v m) =
  match im_get t m with Some x => Some x | None => if decide (t = k) then Some v else None end.
Proof.
  unfold im_or_insert. destruct (decide (t = k)) as [->|Hne].
  - destruct (im_get k m) as [x|] eqn:Hk; [done|]. by rewrite im_get_insert_eq.
  - destruct (im_get k m); [by destruct (im_get t m)|]. rewrite im_get_insert_ne by done. by destruct (im_get t m).
Qed.
Lemma extra_starts_get t (extras : list (Symbol * N)) m :
  im_get t (foldl (λ m '(t, id), im_or_insert t (one_action (Shift id false)) m) m extras) =
  match im_get t m with Some x => Some x | None => (λ f, one_action (Shift f.2.2 false)) <$> list_find (λ e, e.1 = t) extras end.
Proof.
  revert m. induction extras as [|[k n] extras IH]; intros m; cbn [foldl]; [by destruct (im_get t m)|].
  rewrite IH, im_or_insert_get. cbn [list_find fst]. destruct (im_get t m); [done|]. destruct (decide (t = k)) as [->|Hne].
  - by rewrite decide_True.
  - rewrite decide_False by done. by destruct (list_find (λ e, e.1 = t) extras) as [[? [? ?]]|].
Qed.
Lemma extra_tokens_get l (st : ParseState ParseTableEntry) : let st' := foldl add_extra_token st l in
  alike st st' ∧ reserved_words st' = reserved_words st ∧
  (∀ t, im_get t (terminal_entries st') = match im_get t (terminal_entries st) with Some x => Some x
     | None => if bool_decide (t ∈ l) && negb (is_non_terminal t) then Some (one_action ShiftExtra) else None end) ∧
  ∀ X, im_get X (nonterminal_entries st') = if bool_decide (X ∈ l) && is_non_terminal X then Some GShiftExtra else im_get X (nonterminal_entries st).
Proof.
  revert st. induction l as [|x l IH]; intros st; cbn [foldl]; [by split_and!; try done; intros t; destruct (im_get t (terminal_entries st))|].
  specialize (IH (add_extra_token st x)). cbv zeta in *. destruct IH as (H1 & H2 & H3 & H4).
  assert (alike st (add_extra_token st x) ∧ reserved_words (add_extra_token st x) = reserved_words st) as [Ha Hr].
  { unfold add_extra_token. by destruct (is_non_terminal x). }
  split_and!; [by destruct H1, Ha; split; etrans|by rewrite H2| |].
  - intros t. rewrite H3. unfold add_extra_token. destruct (is_non_terminal x) eqn:Hx; cbn [terminal_entries with_nonterminals with_terminals].
    + destruct (im_get t (terminal_entries st)); [done|]. destruct (decide (t = x)) as [->|Hne]; [by rewrite Hx, !andb_false_r|].
      by rewrite (bool_decide_ext (t ∈ x :: l) (t ∈ l)) by (rewrite elem_of_cons; tauto).
    + rewrite im_or_insert_get. destruct (im_get t (terminal_entries st)); [done|]. destruct (decide (t = x)) as [->|Hne].
      * rewrite bool_decide_true by apply list_elem_of_here. by rewrite Hx.
      * by rewrite (bool_decide_ext (t ∈ x :: l) (t ∈ l)) by (rewrite elem_of_cons; tauto).
  - intros X. rewrite H4. unfold add_extra_token. destruct (is_non_terminal x) eqn:Hx; cbn [nonterminal_entries with_nonterminals with_terminals].
    + destruct (decide (X = x)) as [->|Hne].
      * rewrite (bool_decide_true (x ∈ x :: l)) by apply list_elem_of_here. rewrite Hx, im_get_insert_eq. cbn. by destruct (_ && _).
      * rewrite im_get_insert_ne by done. by rewrite (bool_decide_ext (X ∈ x :: l) (X ∈ l)) by (rewrite elem_of_cons; tauto).
    + destruct (decide (X = x)) as [->|Hne]; [by rewrite Hx, !andb_false_r|].
      by rewrite (bool_decide_ext (X ∈ x :: l) (X ∈ l)) by (rewrite elem_of_cons; tauto).
Qed.
Lemma extra_parents_ok : ∃ l, extra_parents (E:=Err) str_pool g C = Ok l.
Proof.
  unfold extra_parents. apply mapM_total. intros [v u] Hv. rewrite map_iter_perm, elem_of_map_to_list in Hv.
  apply elem_of_list_to_map_2 in Hv. apply elem_of_map in Hv as (w & [= -> _] & (e & He & Hw)%list_elem_of_omap).
  unfold extra_parent in Hw. destruct (negb (Item.is_augmented (Item.item e)) && _) eqn:Ha; [|done]. injection Hw as <-.
  apply andb_prop in Ha as [Ha%negb_true_iff _].
  assert (N.to_nat (Item.variable_index (Item.item e)) < n_vars g) as Hlt.
  { destruct (closure_entry _ _ _ _ _ _ _ Hti p0 s C Hs HC e He) as [[[Hv _]|[? _]] _]; [|done]. unfold Item.is_augmented in Ha. by rewrite Hv, N.eqb_refl in Ha. }
  destruct (lookup_lt_is_Some_2 (sg_variables g) _ Hlt) as [x Hx]. rewrite (vec_get_Some _ _ _ Hx). cbn [mbind outcome_bind].
  rewrite Item.resolve_text by (eapply (ti_variables _ _ _ _ _ _ _ Hti), list_elem_of_lookup_2, Hx). by eexists.
Qed.
Definition gotos_right (b : builder) (st : ParseState ParseTableEntry) : Prop := ∀ X, match im_get X (nonterminal_entries st) with
  | Some (Goto n) => is_non_terminal X = true ∧ shifting C X ∧ leads b C X n
  | Some GShiftExtra => False
  | None => is_non_terminal X = true → ¬ shifting C X
  end.
Lemma add_extras_spec b st : sound g lg variable_info inlines key_map b → evolves i b0 b → pt_states (parse_table b) !! N.to_nat i = Some st →
  (∀ t, cell_settled b t (im_get t (terminal_entries st))) → NoDup (terminal_entries st).*1 → gotos_right b st →
  wp (add_extras str_pool g C i b) fault_met (λ b', sound g lg variable_info inlines key_map b' ∧ evolves i b b' ∧ steady b b' ∧
    item_set_builder b' = item_set_builder b ∧ ∃ st', pt_states (parse_table b') !! N.to_nat i = Some st' ∧ reserved_words st' = reserved_words st ∧
      (∀ t, match im_get t (terminal_entries st') with
       | Some en => reusable en = true ∧
           (offered b' C t ∧ cell_right b' C t (actions_of (entry_actions en)) ∨
            ¬ offered b' C t ∧ ¬ ends_extra b' C ∧ ∃ a, extra_action b' t = Some a ∧ actions_of (entry_actions en) = [a])
       | None => ¬ offered b' C t ∧ (ends_extra b' C ∨ extra_action b' t = None)
       end) ∧
      ∀ X, match im_get X (nonterminal_entries st') with
       | Some GShiftExtra => ¬ ends_extra b' C ∧ X ∈ extra_symbols g ∧ is_non_terminal X = true
       | Some (Goto n) => is_non_terminal X = true ∧ shifting C X ∧ leads b' C X n ∧ (ends_extra b' C ∨ X ∉ extra_symbols g)
       | None => is_non_terminal X = true → ¬ shifting C X ∧ (ends_extra b' C ∨ X ∉ extra_symbols g)
       end).
Proof.
  intros Hb Hev0 Hst Hcells Hkeys Hgotos. unfold add_extras. rewrite (get_state_ok _ _ _ Hst). cbn [mbind outcome_bind].
  assert (is_end_of_non_terminal_extra st = true ↔ ends_extra b C) as Hcl.
  { unfold is_end_of_non_terminal_extra, ends_extra. pose proof (Hcells end_of_nonterminal_extra) as Hc.
    destruct (im_get _ _); cbn in Hc; [by destruct Hc as [? _]|done]. }
  destruct (is_end_of_non_terminal_extra st) eqn:Hend.
  - assert (ends_extra b C) as Hclosing by by apply Hcl. destruct (Nat.ltb_spec 1 (length (terminal_entries st))) as [Hlen|_].
    { destruct extra_parents_ok as [l ->]. cbn. exists b. split_and!; [done|done|]. right. split; [done|]. split; [|by exists l].
      assert (∃ t, t ≠ end_of_nonterminal_extra ∧ t ∈ (terminal_entries st).*1) as (t & Hne & Ht).
      { clear - Hlen Hkeys. destruct (terminal_entries st) as [|[x vx] [|[y vy] m]]; cbn in *; try lia. apply NoDup_cons in Hkeys as [Hx _].
        destruct (decide (x = end_of_nonterminal_extra)) as [->|]; [|exists x; set_solver]. exists y. set_solver. }
      exists t. split; [done|]. specialize (Hcells t).
      destruct (im_get t (terminal_entries st)) as [en|] eqn:Hen; [by destruct Hcells|]. by apply im_get_None in Hen. }
    cbn.
    split_and!; [done|done|done|done|]. exists st. split_and!; [done|done| |].
    + intros t. specialize (Hcells t). destruct (im_get t (terminal_entries st)); cbn in Hcells; [|by split; [|left]].
      destruct Hcells as (? & ? & ?). split; [done|]. by left.
    + intros X. specialize (Hgotos X). destruct (im_get X (nonterminal_entries st)) as [[n|]|]; [|done|].
      * destruct Hgotos as (? & ? & ?). split_and!; try done. by left.
      * intros Hx. split; [by apply Hgotos|by left].
  - assert (¬ ends_extra b C) as Hno by (by rewrite <- Hcl).
    set (st1' := add_extra_starts _ st). pose proof (extra_tokens_get (extra_symbols g) st1') as Hg. cbv zeta in Hg.
    set (st' := foldl add_extra_token st1' (extra_symbols g)) in *. destruct Hg as (G1 & G2 & G3 & G4).
    destruct (set_state_spec g lg variable_info inlines key_map (E:=Err) i b st st' Hb Hst G1) as (b' & -> & Hb' & Hos). cbn.
    pose proof (os_evolves _ _ _ _ Hos) as Hev.
    assert (∀ e, Item.has C e → ∃ X, Lookahead.stands (pool_of b) (Item.lookaheads e) X) as Hstands.
    { intros e He. destruct (closure_stands e He) as [X HX]. exists X. eapply Lookahead.stands_grows; [apply (ev_pool _ _ _ Hev0)|done]. }
    assert (∀ t, offered b' C t ↔ offered b C t) as Hoff by (intros t; symmetry; by apply (offered_evolves i b b' C Hev Hstands)).
    assert (ends_extra b' C ↔ ends_extra b C) as Hcl' by apply Hoff.
    split_and!; [done|done|apply Hos|apply Hos|]. exists st'. split_and!; [eapply os_state; [done|by eapply lookup_lt_Some]|exact G2| |].
    + assert (∀ t, extra_action b' t = extra_action b t) as Hex by (intros t; unfold extra_action; by rewrite (ev_extras _ _ _ Hev)).
      intros t. rewrite Hex, G3. unfold st1', add_extra_starts. cbn [terminal_entries with_terminals]. rewrite extra_starts_get.
      specialize (Hcells t). destruct (im_get t (terminal_entries st)) as [en|]; cbn in Hcells.
      * destruct Hcells as (? & ? & ?). split; [done|]. left. split; [by apply Hoff|by eapply cell_right_evolves].
      * unfold extra_action. destruct (list_find _ _) as [[k [x n]]|]; cbn.
        -- rewrite Hcl', Hoff. split; [done|]. right. split_and!; [done|done|]. by eexists.
        -- destruct (bool_decide (t ∈ extra_symbols g) && negb (is_non_terminal t)); cbn; rewrite Hcl', Hoff; [|by split; [|right]].
           split; [done|]. right. split_and!; [done|done|]. by eexists.
    + intros X. rewrite G4. destruct (bool_decide (X ∈ extra_symbols g) && is_non_terminal X) eqn:Hx.
      { rewrite Hcl'. apply andb_prop in Hx as [Hx%bool_decide_eq_true ?]. done. }
      change (nonterminal_entries st1') with (nonterminal_entries st). specialize (Hgotos X).
      assert (is_non_terminal X = true → X ∉ extra_symbols g) as Hnx.
      { intros Hx'. rewrite Hx', andb_true_r in Hx. by apply bool_decide_eq_false in Hx. }
      destruct (im_get X (nonterminal_entries st)) as [[n|]|]; [|done|].
      * destruct Hgotos as (Hnt & ? & ?). split_and!; [done|done|by eapply leads_evolves|right; by apply Hnx].
      * intros Hx'. split; [by apply Hgotos|right; by apply Hnx].
Qed.

(** The reserved words. *)
Context (Hreserved : ∀ e, Item.has C e → reserved_known g (Item.following_reserved_word_set e)).
Lemma reserved_id_ok b keyword e : sound g lg variable_info inlines key_map b → evolves i b0 b → word_token g = Some keyword → Item.has C e →
  ∃ r, reserved_id (E:=Err) g b keyword e = Ok r ∧ ∀ n, (r = Some n ↔ reserves b C keyword e n) ∧ (r = Some n → N.to_nat n < length (reserved_word_sets g)).
Proof.
  intros Hb Hev Hw He. destruct (ic_items _ _ _ _ _ _ HC e He) as [Hi _]. destruct (closure_stands e He) as [X HX].
  assert (word_token g ≠ None) as Hword by congruence. unfold reserved_id, reserves.
  rewrite (item_step_spec str_pool g n_terminals inlines key_map items_bound Hin) by done. cbn [mbind outcome_bind].
  destruct (steps_of g (Item.item e) !! N.to_nat (Item.step_index (Item.item e))) as [st|] eqn:Hst.
  - eexists. split; [reflexivity|]. case_bool_decide as Hk; [|split; [split; [done|by intros (_ & ? & _)]|done]].
    split; [split; [intros [= <-]|intros (_ & _ & ->)]; done|]. intros [= <-].
    assert (reserved_known g (step_reserved st)) as Hr; [|by apply Hr].
    destruct (proj1 (closure_entry _ _ _ _ _ _ _ Hti p0 s C Hs HC e He)) as [[_ Hp]|[_ Hp]].
    + rewrite (steps_of_start _ _ Hp) in Hst. destruct (N.to_nat (Item.step_index (Item.item e))); [|done]. injection Hst as <-.
      destruct (in_word _ _ _ _ _ _ Hin keyword Hw) as [_ [Hat|Hat]]; by rewrite <- Hk in Hat.
    + rewrite (steps_of_prod _ _ _ _ _ _ _ Hti) in Hst by done. eapply (proj2 (ti_reserved _ _ _ _ _ _ _ Hti)); [done|by eapply list_elem_of_lookup_2].
  - assert (Lookahead.stands (pool_of b) (Item.lookaheads e) X) as HX' by (eapply Lookahead.stands_grows; [apply (ev_pool _ _ _ Hev)|done]).
    destruct (Lookahead.get_stands (E:=Err) (pool_of b) (Item.lookaheads e) X (bk_pool _ _ _ _ _ (so_builder _ _ _ _ _ _ Hb)) HX') as (set & -> & Hws & Hset).
    cbn [mbind outcome_bind]. destruct (in_word _ _ _ _ _ _ Hin keyword Hw) as [Hkn Hat].
    rewrite TokenSet.contains_spec by (first [done|by apply token_not_nt]). cbn [mbind outcome_bind]. eexists. split; [reflexivity|]. intros n.
    rewrite (tokens_of_stands _ _ _ _ HX'), <- Hset, TokenSet.elem_of_toks by done.
    assert (TokenSet.token keyword) as Htok by (eapply known_token; [apply (in_symbols _ _ _ _ _ _ Hin)|done|done]).
    destruct (TokenSet.mem set keyword); cbn.
    + split; [split; [intros [= <-]|intros (_ & _ & ->)]; done|]. intros [= <-]. by apply Hreserved.
    + split; [|done]. split; [done|]. by intros (_ & [_ ?] & _).
Qed.
Lemma max_of_list (n : N) l : foldl N.max n l ∈ n :: l ∧ ∀ m, m ∈ n :: l → (m ≤ foldl N.max n l)%N.
Proof.
  revert n. induction l as [|x l IH]; intros n; cbn [foldl]; [split; [apply list_elem_of_here|by intros m ->%list_elem_of_singleton]|].
  destruct (IH (N.max n x)) as [H1 H2]. split.
  - apply elem_of_cons in H1 as [->|H1]; [|by do 2 apply list_elem_of_further]. destruct (N.max_spec n x) as [[_ ->]|[_ ->]]; [apply list_elem_of_further|]; apply list_elem_of_here.
  - intros m [->|[->|Hm]%elem_of_cons]%elem_of_cons.
    + transitivity (N.max n x); [lia|]. apply H2, list_elem_of_here.
    + transitivity (N.max n x); [lia|]. apply H2, list_elem_of_here.
    + by apply H2, list_elem_of_further.
Qed.
Definition reserved_right (b : builder) (st : ParseState ParseTableEntry) : Prop :=
  match word_token g with
  | None => reserved_words st = TokenSet.new
  | Some keyword => (∀ e n, ¬ reserves b C keyword e n) ∧ reserved_words st = TokenSet.new ∨
      ∃ n, reserved_word_sets g !! N.to_nat n = Some (reserved_words st) ∧ (∃ e, reserves b C keyword e n) ∧
        ∀ e m, reserves b C keyword e m → (m ≤ n)%N
  end.
Lemma add_reserved_words_spec b st : sound g lg variable_info inlines key_map b → evolves i b0 b → pt_states (parse_table b) !! N.to_nat i = Some st →
  reserved_words st = TokenSet.new →
  ∃ b', add_reserved_words (E:=Err) g C i b = Ok b' ∧ sound g lg variable_info inlines key_map b' ∧ evolves i b b' ∧ steady b b' ∧
    item_set_builder b' = item_set_builder b ∧ ∃ st', pt_states (parse_table b') !! N.to_nat i = Some st' ∧
      terminal_entries st' = terminal_entries st ∧ nonterminal_entries st' = nonterminal_entries st ∧ reserved_right b' st'.
Proof.
  intros Hb Hev Hst Hnew. unfold add_reserved_words, reserved_right. destruct (word_token g) as [keyword|] eqn:Hw.
  2: { exists b. split_and!; try done. exists st. done. }
  set (f := λ e, match reserved_id (E:=Err) g b keyword e with Ok r => r | _ => None end).
  assert (∀ e, Item.has C e → reserved_id (E:=Err) g b keyword e = Ok (f e) ∧ ∀ n, (f e = Some n ↔ reserves b C keyword e n) ∧ (f e = Some n → N.to_nat n < length (reserved_word_sets g))) as Hf.
  { intros e He. destruct (reserved_id_ok b keyword e Hb Hev Hw He) as (r & Hr & Hrn). unfold f. by rewrite Hr. }
  rewrite (mapM_Ok _ f) by (intros e He; by apply Hf). cbn [mbind outcome_bind].
  assert (∀ n, n ∈ omap id (map f (Item.entries C)) ↔ ∃ e, reserves b C keyword e n) as Hids.
  { intros n. rewrite list_elem_of_omap. split.
    - intros (o & (e & -> & He)%elem_of_map & Ho). exists e. by apply Hf.
    - intros (e & He). pose proof He as [Hec _]. exists (f e). split; [apply elem_of_map; by exists e|]. by apply Hf. }
  destruct (omap id (map f (Item.entries C))) as [|n l] eqn:Hl.
  { exists b. split_and!; try done. exists st. split_and!; try done. left. split; [|done]. intros e n He. apply (not_elem_of_nil n), Hids. by exists e. }
  destruct (max_of_list n l) as [Hmax Hall]. set (m := foldl N.max n l) in *.
  apply Hids in Hmax as (e & He). pose proof He as [Hec _].
  destruct (lookup_lt_is_Some_2 (reserved_word_sets g) (N.to_nat m)) as [words Hwords].
  { destruct (Hf e Hec) as [_ Hfe]. destruct (Hfe m) as [Hfm Hlt]. by apply Hlt, Hfm. }
  rewrite (vec_get_Some _ _ _ Hwords). cbn [mbind outcome_bind]. rewrite (get_state_ok _ _ _ Hst). cbn [mbind outcome_bind].
  destruct (set_state_spec g lg variable_info inlines key_map (E:=Err) i b st (with_reserved_words st words) Hb Hst) as (b' & -> & Hb' & Hos); [done|].
  exists b'. split_and!; [done|done|apply Hos|apply Hos|apply Hos|]. exists (with_reserved_words st words).
  split_and!; [eapply os_state; [done|by eapply lookup_lt_Some]|done|done|]. right.
  assert (∀ e n, reserves b' C keyword e n ↔ reserves b C keyword e n) as Hsame.
  { intros e' n'. unfold reserves. unfold pool_of. by rewrite (os_builder _ _ _ _ Hos). }
  exists m. split_and!; [done|exists e; by apply Hsame|]. intros e' m' He'. apply Hall, Hids. exists e'. by apply Hsame.
Qed.
End state.
End states.
