(* ===== verification/BuildTurn.v ===== *)
(** * [build_tables/build_parse_table.rs]: one state of the queue

    [add_actions] fills in a state as [state_right] says, whatever conflicts it
    meets, and queues the states that are new. *)
From S2P Require Import Prelude BitVec Symbols TokenSet Ordering StrPool Grammars Lookaheads Items ItemSets FirstSets FollowSets Additions Closure Tables Outcomes BuildTable BuildConflicts BuildStates BuildClosure BuildInputs BuildVerdicts BuildGoto BuildScan BuildActions BuildResolve BuildState.
Import PT Builder.

Section turn.
Context {H : Type} (str_pool : StrPool H) (g : SyntaxGrammar) (lg : LexicalGrammar).
Context {F : Type} (variable_info : list (VariableInfo F)).
Context {I : Type} {IS : IndexSet I} {MI : MapIter}.
Context (inlines : InlinedProductionMap) (key_map : Item.ItemKeyMap) (items_bound : nat).
Context (Hti : table_inputs str_pool g lg variable_info inlines key_map items_bound).
Notation n_terminals := (length (lg_variables lg)).
Notation builder := (ParseTableBuilder I).
Notation Err := ParseTableBuilderError.
Notation known := (symbol_known g n_terminals).
Notation pool_len p := (length (is_elems (Lookahead.sets p))).
Notation sound := (sound g lg variable_info inlines key_map).
Notation advances := (advances g variable_info).

Section actions.
Context (i : N) (s C : Item.ParseItemSet) (b0 : builder) (path : list Symbol) (aux0 : list AuxiliarySymbolInfo).
Notation p0 := (pool_of b0).
Context (Hs : kernel_ok g lg key_map p0 s) (HC : is_closure g inlines key_map p0 s C) (Hcovers : covers g aux0 s).
Context (Hreserved : ∀ e, Item.has C e → reserved_known g (Item.following_reserved_word_set e)).
Context (Hset : ∃ id, (s, id) ∈ state_ids_by_item_set b0) (Hparents : ∀ x, x ∈ aux0 → parents_known g lg inlines key_map (state_ids_by_item_set b0) x) (Hpath : ∀ x, x ∈ path → known x).
Context (Hb0 : sound b0) (Hqueue : queue_ok g lg inlines key_map b0) (Hidle : idle i b0) (Hi : N.to_nat i < length (state_ids_by_item_set b0)).
Context (Hroom : (N.of_nat (pool_len p0 + length (Item.entries C)) < U32)%N).
Context (Hstates : (N.of_nat (length (state_ids_by_item_set b0) + length (Item.entries C)) < U32)%N).
Context (Hstate : ∃ st, pt_states (parse_table b0) !! N.to_nat i = Some st ∧ terminal_entries st = [] ∧ blank st).

Lemma successor_count sc : scanned g lg variable_info inlines key_map i b0 aux0 (λ _, Item.entries C) (Item.entries C) sc →
  size (terminal_successors sc) + size (non_terminal_successors sc) ≤ length (Item.entries C).
Proof.
  intros Hsc. rewrite <- !length_btree_entries, <- (length_fmap fst), <- (length_fmap fst (btree_entries (non_terminal_successors sc))), <- length_app.
  assert (∀ X next, (X, next) ∈ btree_entries (terminal_successors sc) → is_non_terminal X = false ∧ advances (Item.entries C) X ≠ []) as Ht.
  { intros X next HX%elem_of_btree_entries. destruct (in_terminals g lg variable_info inlines key_map i C b0 aux0 sc Hsc X next HX) as (? & ? & _). done. }
  assert (∀ X next, (X, next) ∈ btree_entries (non_terminal_successors sc) → is_non_terminal X = true ∧ advances (Item.entries C) X ≠ []) as Hn.
  { intros X next HX%elem_of_btree_entries. destruct (in_nonterminals g lg variable_info inlines key_map i C b0 aux0 sc Hsc X next HX) as (? & ? & _). done. }
  transitivity (length (omap (λ e, next_symbol g (Item.item e)) (Item.entries C))).
  2: { clear. generalize (Item.entries C) as l. induction l as [|e l IH]; [done|]. cbn. destruct (next_symbol g (Item.item e)); cbn; lia. }
  apply submseteq_length, NoDup_submseteq.
  - apply NoDup_app. split_and!; [apply btree_entries_keys| |apply btree_entries_keys].
    intros X ([X1 n1] & -> & H1)%list_elem_of_fmap ([X2 n2] & Heq & H2)%list_elem_of_fmap. cbn in Heq. subst X2.
    apply Ht in H1 as [H1 _]. apply Hn in H2 as [H2 _]. cbn in *. congruence.
  - intros X HX. assert (advances (Item.entries C) X ≠ []) as Hne.
    { apply elem_of_app in HX as [([X1 n1] & -> & H1)%list_elem_of_fmap|([X1 n1] & -> & H1)%list_elem_of_fmap]; [by apply (Ht X1 n1)|by apply (Hn X1 n1)]. }
    destruct (advances (Item.entries C) X) as [|a l] eqn:Ha; [done|].
    assert (a ∈ advances (Item.entries C) X) as (e & He & Hnx & _)%advances_elem by (rewrite Ha; apply list_elem_of_here).
    apply list_elem_of_omap. by exists e.
Qed.

(** What one turn does. *)
Record turned (b : builder) : Prop := {
  tu_sound : sound b;
  tu_queue : queue_ok g lg inlines key_map b;
  tu_evolves : evolves i b0 b;
  tu_length : length (state_ids_by_item_set b) ≤ length (state_ids_by_item_set b0) + length (Item.entries C);
  tu_state : ∃ st, pt_states (parse_table b) !! N.to_nat i = Some st ∧ state_right g variable_info inlines key_map b C st;
}.
Lemma add_actions_spec : wp (add_actions str_pool g lg variable_info path aux0 i C b0) (fault_met str_pool g lg variable_info inlines key_map i C b0) turned.
Proof.
  unfold add_actions.
  destruct (scan_items_spec str_pool g lg variable_info inlines key_map items_bound Hti i s C b0 aux0 Hs HC Hroom Hset Hparents Hb0 Hstate) as (sc & -> & Hsc).
  cbn [mbind outcome_bind]. pose proof (successor_count sc Hsc) as Hcount.
  destruct (sd_state _ _ _ _ _ _ _ _ _ _ _ Hsc) as (st1 & Hst1 & Hbl1 & Hnd1 & _).
  destruct (add_shifts_spec str_pool g lg variable_info inlines key_map items_bound Hti i s C b0 aux0 sc Hs HC Hcovers Hreserved Hsc st1 Hst1 Hqueue Hidle Hi ltac:(lia) path Hpath)
    as ([b2 c2] & -> & Hsh); [done|done|done|]. cbn [mbind outcome_bind].
  destruct (shifted_cells g lg variable_info inlines key_map i s C b0 aux0 sc HC Hsc st1 Hst1 (b2, c2) Hsh) as (st2 & Hst2 & Hbl2 & Hkeys2 & Hcells). cbn [fst snd] in *.
  destruct (gotos_spec str_pool g lg variable_info inlines key_map items_bound Hti i s C b0 aux0 sc Hs HC Hcovers Hreserved Hsc st1 Hst1 Hqueue Hidle Hi ltac:(lia) path Hpath
    (b2, c2) Hsh st2 (conj Hst2 Hbl2)) as (b3 & Hgotos & Hwe). cbn [fst snd] in Hgotos. rewrite Hgotos. clear Hgotos. cbn [mbind outcome_bind fst].
  destruct Hwe as [Hgr3 Hev23 (st3 & Hst3 & Hal3 & Hterm3 & Hres3 & Hout3 & Hin3)]. cbn [fst snd] in *.
  pose proof (sd_evolves _ _ _ _ _ _ _ _ _ _ _ Hsc) as Hev01. pose proof (gr_evolves _ _ _ _ _ _ _ _ _ Hgr3) as Hev13.
  assert (evolves i (sc_builder sc) b2) as Hev12 by apply (gr_evolves _ _ _ _ _ _ _ _ _ (sh_grown _ _ _ _ _ _ _ _ _ _ Hsh)).
  assert (∀ e, Item.has C e → ∃ X, Lookahead.stands (pool_of b2) (Item.lookaheads e) X) as Hstands2.
  { intros e He. destruct (closure_stands g inlines key_map s C b0 HC e He) as [X HX]. exists X. eapply Lookahead.stands_grows; [|done].
    etrans; [apply (ev_pool _ _ _ Hev01)|apply (ev_pool _ _ _ Hev12)]. }
  assert (∀ t, precell g variable_info C sc b3 c2 t (im_get t (terminal_entries st3))) as Hcells3.
  { intros t. rewrite Hterm3. by apply (precell_evolves g variable_info i C sc b2 b3). }
  assert (NoDup (terminal_entries st3).*1) as Hkeys3 by by rewrite Hterm3.
  destruct (conflicts_spec str_pool g lg variable_info inlines key_map items_bound Hti i s C b0 aux0 sc Hs HC Hcovers Hsc st1 Hst1 b3 c2 st3 path
    (gr_sound _ _ _ _ _ _ _ _ _ Hgr3) Hev13 (gr_builder _ _ _ _ _ _ _ _ _ Hgr3) Hst3 Hcells3 Hkeys3 (sh_conflicts _ _ _ _ _ _ _ _ _ _ Hsh) Hpath) as (ts & -> & Hconf).
  cbn [mbind outcome_bind]. apply wp_bind. eapply wp_mono; [exact Hconf|]. cbn beta. intros b4 [Hr4 (st4 & Hst4 & Hnt4 & Hres4 & Hkeys4 & Hcells4)].
  pose proof (rv_evolves _ _ _ _ _ _ _ _ _ _ _ Hr4) as Hev34.
  assert (evolves i b0 b4) as Hev04 by (etrans; [exact Hev01|]; etrans; [exact Hev13|exact Hev34]).
  assert (gotos_right g variable_info C b4 st4) as Hgotos4.
  { intros X. rewrite Hnt4. assert (pool_of b4 = pool_of (sc_builder sc)) as Hpool.
    { unfold pool_of. by rewrite (rv_builder _ _ _ _ _ _ _ _ _ _ _ Hr4), (gr_builder _ _ _ _ _ _ _ _ _ Hgr3). }
    destruct (non_terminal_successors sc !! X) as [next|] eqn:HX.
    - destruct (in_nonterminals g lg variable_info inlines key_map i C b0 aux0 sc Hsc X next HX) as (Hnt & Hne & Hga).
      destruct (Hin3 X next) as (id & Htar & ->); [by apply elem_of_btree_entries|]. split_and!; [done|done|]. exists next. rewrite Hpool.
      split; [done|]. eapply target_evolves; [exact Hev34|exact Htar].
    - rewrite Hout3 by (intros ([Y next] & -> & HY%elem_of_btree_entries)%list_elem_of_fmap; cbn in *; congruence).
      intros Hnt Hsh4. pose proof (sd_nonterminals _ _ _ _ _ _ _ _ _ _ _ Hsc X) as HnX. rewrite HX in HnX. by apply Hsh4, HnX. }
  apply wp_bind. eapply wp_mono; [apply (add_extras_spec str_pool g lg variable_info inlines key_map items_bound Hti i s C b0 Hs HC b4 st4
    (rv_sound _ _ _ _ _ _ _ _ _ _ _ Hr4) Hev04 Hst4 Hcells4 Hkeys4 Hgotos4)|].
  cbn beta. intros b5 (Hb5 & Hev45 & Hsy45 & Hib5 & st5 & Hst5 & Hres5 & Hterm5 & Hnt5).
  assert (evolves i b0 b5) as Hev05 by (etrans; [exact Hev04|exact Hev45]).
  destruct (add_reserved_words_spec str_pool g lg variable_info inlines key_map items_bound Hti i s C b0 Hs HC Hreserved b5 st5 Hb5 Hev05 Hst5)
    as (b6 & -> & Hb6 & Hev56 & Hsy56 & Hib6 & st6 & Hst6 & Ht6 & Hn6 & Hr6); [congruence|].
  cbn. assert (steady b3 b6) as Hsy36.
  { etrans; [apply (rv_steady _ _ _ _ _ _ _ _ _ _ _ Hr4)|]. etrans; [exact Hsy45|exact Hsy56]. }
  assert (evolves i b3 b6) as Hev36 by (etrans; [exact Hev34|]; etrans; [exact Hev45|exact Hev56]).
  split.
  - done.
  - apply (queue_evolves g lg inlines key_map i b3); [done|apply Hsy36|apply (gr_idle _ _ _ _ _ _ _ _ _ Hgr3)|apply (gr_queue _ _ _ _ _ _ _ _ _ Hgr3)].
  - etrans; [exact Hev05|exact Hev56].
  - rewrite (sy_item_sets _ _ Hsy36). pose proof (gr_length _ _ _ _ _ _ _ _ _ Hgr3) as Hlen.
    rewrite (sy_item_sets _ _ (sd_steady _ _ _ _ _ _ _ _ _ _ _ Hsc)), length_app, !length_btree_entries in Hlen. lia.
  - exists st6. split; [done|].
    assert (∀ e, Item.has C e → ∃ X, Lookahead.stands (pool_of b5) (Item.lookaheads e) X) as Hstands5.
    { intros e He. destruct (closure_stands g inlines key_map s C b0 HC e He) as [X HX]. exists X. eapply Lookahead.stands_grows; [|done]. apply (ev_pool _ _ _ Hev05). }
    assert (∀ t, extra_action g b6 t = extra_action g b5 t) as Hex by (intros t; unfold extra_action; by rewrite (ev_extras _ _ _ Hev56)).
    assert (∀ t, offered g variable_info b6 C t ↔ offered g variable_info b5 C t) as Hoff by (intros t; symmetry; by apply (offered_evolves g variable_info i b5 b6)).
    assert (ends_extra g variable_info b6 C ↔ ends_extra g variable_info b5 C) as Hcl by apply Hoff.
    split; [|rewrite Hn6|exact Hr6].
    + intros t. rewrite Ht6. specialize (Hterm5 t). rewrite Hex. destruct (im_get t (terminal_entries st5)); rewrite Hcl, Hoff; [|done].
      destruct Hterm5 as [? [(? & ?)|?]]; (split; [done|]); [left|by right]. split; [done|by apply (cell_right_evolves g variable_info inlines key_map i b5 b6)].
    + intros X. specialize (Hnt5 X). destruct (im_get X (nonterminal_entries st5)) as [[n|]|]; rewrite Hcl; try done.
      destruct Hnt5 as (? & ? & ? & ?). split_and!; [done|done|by apply (leads_evolves g variable_info i b5 b6)|done].
Qed.
End actions.
End turn.
