(* ===== verification/BuildQueue.v ===== *)
(** * [build_tables/build_parse_table.rs]: the queue of states

    Every turn fills in one more state, so that the queue is worked off; the states
    that have left it stay as [state_right] says. *)
From S2P Require Import Prelude BitVec Symbols TokenSet Ordering StrPool Grammars Lookaheads Items ItemSets FirstSets FollowSets Additions Closure Tables Outcomes BuildTable BuildConflicts BuildStates BuildClosure BuildInputs BuildVerdicts BuildGoto BuildScan BuildActions BuildResolve BuildState BuildTurn.
Import PT Builder.

Section queue.
Context {H : Type} (str_pool : StrPool H) (g : SyntaxGrammar) (lg : LexicalGrammar).
Context {F : Type} (variable_info : list (VariableInfo F)).
Context {I : Type} {IS : IndexSet I} {MI : MapIter}.
Context (inlines : InlinedProductionMap) (key_map : Item.ItemKeyMap) (items_bound : nat).
Context (Hti : table_inputs str_pool g lg variable_info inlines key_map items_bound).
Notation n_terminals := (length (lg_variables lg)).
Notation builder := (ParseTableBuilder I).
Notation Err := ParseTableBuilderError.
Notation pool_len p := (length (is_elems (Lookahead.sets p))).
Notation sound := (sound g lg variable_info inlines key_map).
Notation Hin := (ti_inputs _ _ _ _ _ _ _ Hti).

(** State [j] is that of the closure of its item set. *)
Definition state_done (b : builder) (j : nat) : Prop :=
  ∃ s C st, state_ids_by_item_set b !! j = Some (s, N.of_nat j) ∧ is_closure g inlines key_map (pool_of b) s C ∧
    pt_states (parse_table b) !! j = Some st ∧ state_right g variable_info inlines key_map b C st.
Record progress (b : builder) : Prop := {
  pg_sound : sound b;
  pg_queue : queue_ok g lg inlines key_map b;
  pg_states : ∀ j, j < length (state_ids_by_item_set b) → N.of_nat j ∈ map qe_state_id (parse_state_queue b) ∨ state_done b j;
}.
Lemma state_done_extends b b' j : sound b → extends b b' →
  (∀ st, pt_states (parse_table b) !! j = Some st → pt_states (parse_table b') !! j = Some st) → state_done b j → state_done b' j.
Proof.
  intros Hb Hex Hkeep (s & C & st & Hs & HC & Hst & Hr). exists s, C, st.
  assert (kernel_ok g lg key_map (pool_of b) s) as Hk by (eapply (so_kernels _ _ _ _ _ _ Hb); by eapply list_elem_of_lookup_2).
  split_and!.
  - eapply prefix_lookup_Some; [done|apply (ex_item_sets _ _ Hex)].
  - eapply (is_closure_grows str_pool g n_terminals inlines key_map items_bound Hin (pool_of b)); [apply (ex_pool _ _ Hex)|apply (ko_items _ _ _ _ _ Hk)|done].
  - by apply Hkeep.
  - apply (state_right_extends g variable_info inlines key_map b b' C Hex); [|done]. apply (ic_items _ _ _ _ _ _ HC).
Qed.

(** The handles that a turn can need are 32-bit integers. *)
Definition turn_room (b : builder) (entry : ParseStateQueueEntry) : Prop :=
  match state_ids_by_item_set b !! N.to_nat (qe_state_id entry) with
  | Some (s, _) =>
      closure_room inlines key_map (item_set_builder b) s ∧
      match transitive_closure (E:=Err) g inlines key_map (item_set_builder b) s with
      | Ok (ib, C) =>
          (N.of_nat (pool_len (pool ib) + length (Item.entries C)) < U32)%N ∧
          (N.of_nat (length (state_ids_by_item_set b) + length (Item.entries C)) < U32)%N
      | _ => True
      end
  | None => True
  end.
#[export] Instance turn_room_dec b entry : Decision (turn_room b entry).
Proof.
  unfold turn_room. destruct (state_ids_by_item_set b !! _) as [[s id]|]; [|exact _].
  destruct (transitive_closure _ _ _ _ _) as [[ib C]| | |]; exact _.
Defined.
Lemma sound_builder b ib : sound b → builder_ok g n_terminals inlines key_map ib → Lookahead.grows (pool_of b) (pool ib) → sound (with_item_sets b ib).
Proof.
  intros [B1 B2 B3 B4 B5 B6] Hib Hg. split; [done|by destruct B2|by destruct B3| |done|done].
  intros s id Hs. eapply (kernel_ok_grows _ _ _ (pool_of b)); [done|by eapply B4].
Qed.
Definition turns_left (b : builder) : N := (U32 - N.of_nat (length (state_ids_by_item_set b)) + N.of_nat (length (parse_state_queue b)))%N.
Lemma queue_ids_bound (b : builder) : queue_ok g lg inlines key_map b → ∀ j, j ∈ map qe_state_id (parse_state_queue b) → N.to_nat j < length (state_ids_by_item_set b).
Proof.
  intros Hq j (q & -> & Hqin)%elem_of_map. destruct (wo_set _ _ _ _ _ _ (qo_waiting _ _ _ _ _ Hq q Hqin)) as (s & Hs%lookup_lt_Some & _). done.
Qed.
(** What is wrong with a grammar that has no table: a fault of the closure of the items
    of some state. *)
Definition faulty (err : Err) : Prop :=
  ∃ b s id C, sound b ∧ (s, id) ∈ state_ids_by_item_set b ∧ is_closure g inlines key_map (pool_of b) s C ∧
    fault_of str_pool g lg variable_info inlines key_map b C err.
Lemma process_state_spec b entry queue : progress b → parse_state_queue b = entry :: queue → turn_room b entry →
  wp (process_state str_pool g lg variable_info inlines key_map (with_queue b queue) entry) faulty (λ b',
    progress b' ∧ (turns_left b' < turns_left b)%N ∧ state_ids_by_item_set b `prefix_of` state_ids_by_item_set b' ∧
    non_terminal_extra_states b' = non_terminal_extra_states b ∧ Lookahead.grows (pool_of b) (pool_of b')).
Proof.
  intros [Hb Hq Hstates] Hqueue Hroom. set (i := qe_state_id entry).
  destruct (qo_waiting _ _ _ _ _ Hq entry) as [(s & Hs & Hcov) Hblank Hpar]; [rewrite Hqueue; apply list_elem_of_here|]. fold i in Hs, Hblank.
  unfold process_state. cbn [state_ids_by_item_set with_queue]. fold i. rewrite (vec_get_Some _ _ _ Hs). cbn [mbind outcome_bind fst].
  assert (kernel_ok g lg key_map (pool_of b) s) as Hk by (eapply (so_kernels _ _ _ _ _ _ Hb); by eapply list_elem_of_lookup_2).
  unfold turn_room in Hroom. fold i in Hroom. rewrite Hs in Hroom. destruct Hroom as [Hcr Hroom].
  destruct (closure_spec str_pool g n_terminals inlines key_map items_bound Hin (ti_reserved _ _ _ _ _ _ _ Hti) (E:=Err) (item_set_builder b) s)
    as (ib & C & Hclose & Hib & Hgr & HC & Hres); [apply Hb|apply (ko_items _ _ _ _ _ Hk)|apply (ko_reserved _ _ _ _ _ Hk)|done|].
  rewrite Hclose in Hroom. destruct Hroom as [Hpool Hlen].
  change (item_set_builder (with_queue b queue)) with (item_set_builder b). rewrite Hclose. cbn [mbind outcome_bind].
  destruct (lookup_lt_is_Some_2 (preceding_symbols_by_id b) (N.to_nat i)) as [path Hpath].
  { rewrite (st_symbols _ _ _ (so_states _ _ _ _ _ _ Hb)). by eapply lookup_lt_Some. }
  change (preceding_symbols_by_id (with_queue b queue)) with (preceding_symbols_by_id b). rewrite (vec_get_Some _ _ _ Hpath). cbn [mbind outcome_bind].
  set (b0 := with_item_sets (with_queue b queue) ib).
  assert (sound (with_queue b queue)) as Hbq by (destruct Hb as [B1 B2 B3 B4 B5 B6]; split; try done; [by destruct B2|by destruct B3]).
  assert (sound b0) as Hb0 by by apply sound_builder.
  pose proof (qo_distinct _ _ _ _ _ Hq) as Hnd. rewrite Hqueue in Hnd. cbn in Hnd. apply NoDup_cons in Hnd as [Hidle Hnd].
  assert (evolves i (with_queue b queue) b0) as Hev0 by (split; try done; [by intros; cbn in *; lia|by right]).
  assert (queue_ok g lg inlines key_map (with_queue b queue)) as Hq0.
  { split; [|done]. intros q Hqin. destruct (qo_waiting _ _ _ _ _ Hq q) as [W1 W2 W3]; [rewrite Hqueue; by apply list_elem_of_further|]. by split. }
  assert (queue_ok g lg inlines key_map b0) as Hqb0 by (by apply (queue_evolves g lg inlines key_map i (with_queue b queue))).
  eapply wp_weaken; [apply (add_actions_spec str_pool g lg variable_info inlines key_map items_bound Hti i s C b0 path (preceding_auxiliary_symbols entry))|..].
  - by eapply kernel_ok_grows.
  - done.
  - done.
  - done.
  - exists i. by eapply list_elem_of_lookup_2.
  - done.
  - intros x Hx. apply (so_paths _ _ _ _ _ _ Hb path); [by eapply list_elem_of_lookup_2|done].
  - done.
  - done.
  - done.
  - by eapply lookup_lt_Some.
  - done.
  - done.
  - done.
  - intros err (b' & Hb' & Hev & Hfault). exists b', s, i, C. split_and!; [done| | |done].
    + eapply list_elem_of_lookup_2, prefix_lookup_Some; [exact Hs|apply (ev_item_sets _ _ _ Hev)].
    + eapply (is_closure_grows str_pool g n_terminals inlines key_map items_bound Hin (pool ib)); [apply (ev_pool _ _ _ Hev)| |done].
      apply (ko_items _ _ _ _ _ (kernel_ok_grows _ _ _ _ _ _ Hgr Hk)).
  - intros b' [T1 T2 T3 T4 (st & Hst & Hright)]. assert (evolves i (with_queue b queue) b') as Hev by (etrans; [exact Hev0|exact T3]).
    assert (state_done b' (N.to_nat i)) as Hdone.
    { exists s, C, st. rewrite N2Nat.id. split_and!; [|  |done|done].
      - eapply prefix_lookup_Some; [exact Hs|apply (ev_item_sets _ _ _ Hev)].
      - eapply (is_closure_grows str_pool g n_terminals inlines key_map items_bound Hin (pool ib)); [apply (ev_pool _ _ _ T3)| |done].
        apply (ko_items _ _ _ _ _ (kernel_ok_grows _ _ _ _ _ _ Hgr Hk)). }
    split_and!; [| |apply (ev_item_sets _ _ _ Hev)|apply (ev_extras _ _ _ Hev)|apply (ev_pool _ _ _ Hev)].
    2: { assert (length (parse_state_queue b') ≤ length queue + (length (state_ids_by_item_set b') - length (state_ids_by_item_set b))) as Hcount.
      { transitivity (length (map qe_state_id queue ++ map N.of_nat (List.seq (length (state_ids_by_item_set b)) (length (state_ids_by_item_set b') - length (state_ids_by_item_set b))))).
        2: { rewrite length_app, !length_map, length_seq. lia. }
        rewrite <- (length_map qe_state_id (parse_state_queue b')).
        apply submseteq_length, NoDup_submseteq; [apply (qo_distinct _ _ _ _ _ T2)|]. intros j Hj. apply elem_of_app.
        destruct (ev_waits _ _ _ Hev j Hj) as [Hge|?]; [|by left]. right. apply elem_of_map. exists (N.to_nat j). rewrite N2Nat.id. split; [done|].
        apply elem_of_seq. pose proof (queue_ids_bound b' T2 j Hj). cbn in Hge. lia. }
      pose proof (st_small _ _ _ (so_states _ _ _ _ _ _ T1)). pose proof (prefix_length _ _ (ev_item_sets _ _ _ Hev)) as Hle. cbn in Hle.
      unfold turns_left. rewrite Hqueue. cbn [length]. lia. }
    split; [done|done|]. intros j Hj. destruct (decide (j = N.to_nat i)) as [->|Hne]; [by right|].
    destruct (decide (j < length (state_ids_by_item_set b))) as [Hlt|Hge]; [|left; apply (ev_new _ _ _ Hev); [cbn; lia|done]].
    destruct (Hstates j Hlt) as [Hjq|Hjd].
    + left. rewrite Hqueue in Hjq. cbn in Hjq. apply elem_of_cons in Hjq as [Hji|Hjq]; [fold i in Hji; lia|].
      destruct (ev_queue _ _ _ Hev) as [more ->]. cbn. rewrite map_app. apply elem_of_app. by left.
    + right. apply (state_done_extends b b'); [done| | |done].
      * destruct (evolves_extends _ _ _ Hev). by split.
      * intros st' Hst'. apply (ev_states _ _ _ Hev); [done|exact Hst'].
Qed.

(** Every turn of [fuel] turns has room. *)
Fixpoint fits (fuel : nat) (b : builder) : Prop :=
  match fuel, parse_state_queue b with
  | S fuel, entry :: queue =>
      turn_room b entry ∧
      match process_state str_pool g lg variable_info inlines key_map (with_queue b queue) entry with
      | Ok b => fits fuel b
      | _ => True
      end
  | _, _ => True
  end.
Notation process_queue := (process_queue str_pool g lg variable_info inlines key_map).
(** What is left when the queue is empty. *)
Record worked_off (b b' : builder) : Prop := {
  wk_sound : sound b';
  wk_queue : parse_state_queue b' = [];
  wk_states : ∀ j, j < length (state_ids_by_item_set b') → state_done b' j;
  wk_sets : state_ids_by_item_set b `prefix_of` state_ids_by_item_set b';
  wk_extras : non_terminal_extra_states b' = non_terminal_extra_states b;
  wk_pool : Lookahead.grows (pool_of b) (pool_of b');
}.
Lemma process_queue_spec fuel b : progress b → fits fuel b → (turns_left b < N.of_nat fuel)%N → wp (process_queue fuel b) faulty (worked_off b).
Proof.
  revert b. induction fuel as [|fuel IH]; intros b Hb Hfit Hleft; [lia|]. cbn [PT.process_queue]. cbn [fits] in Hfit.
  destruct (parse_state_queue b) as [|entry queue] eqn:Hq.
  { cbn. split; try done; [apply Hb|]. intros j Hj. destruct (pg_states _ Hb j Hj) as [Hjq|?]; [|done].
    rewrite Hq in Hjq. by apply not_elem_of_nil in Hjq. }
  destruct Hfit as [Hroom Hfit]. apply wp_bind. pose proof (process_state_spec b entry queue Hb Hq Hroom) as Hturn.
  destruct (process_state _ _ _ _ _ _ _ _) as [b'| | |]; cbn in Hturn |- *; try done.
  destruct Hturn as (Hb' & Hlt & Hsets & Hextras & Hpool). eapply wp_mono; [apply IH; [done|done|lia]|].
  intros b'' [W1 W2 W3 W4 W5 W6]. split; try done; [by etrans|by rewrite W5|by etrans].
Qed.
(** More fuel changes nothing. *)
Lemma process_queue_more fuel more b : process_queue fuel b ≠ OutOfFuel → process_queue (fuel + more) b = process_queue fuel b.
Proof.
  revert b. induction fuel as [|fuel IH]; intros b Hb; [done|]. cbn [PT.process_queue plus] in *.
  destruct (parse_state_queue b) as [|entry queue]; [done|].
  destruct (process_state _ _ _ _ _ _ _ _) as [b'| | |]; cbn in *; [by apply IH|done|done|done].
Qed.
Lemma fits_finished fuel b : process_queue fuel b ≠ OutOfFuel → fits fuel b → ∀ n, fits n b.
Proof.
  revert b. induction fuel as [|fuel IH]; intros b Hb Hf n; [done|]. destruct n as [|n]; [done|]. cbn [PT.process_queue fits] in *.
  destruct (parse_state_queue b) as [|entry queue]; [done|]. destruct Hf as [Hroom Hf]. split; [done|].
  destruct (process_state _ _ _ _ _ _ _ _) as [b'| | |]; cbn in *; [by apply IH|done|done|done].
Qed.
#[export] Instance fits_dec fuel b : Decision (fits fuel b).
Proof.
  revert b. induction fuel as [|fuel IH]; intros b; cbn [fits]; [exact _|]. destruct (parse_state_queue b) as [|entry queue]; [exact _|].
  destruct (process_state _ _ _ _ _ _ _ _) as [b'| | |]; exact _.
Defined.
End queue.
