(* ===== verification/BuildFirst.v ===== *)
(** * [build_tables/build_parse_table.rs]: the first states

    The states that the others are found from: that of the start item, and those of
    the extra rules, by the tokens that they begin with. *)
From S2P Require Import Prelude BitVec Symbols TokenSet Ordering StrPool Grammars Lookaheads Items ItemSets FirstSets FollowSets Additions Closure Tables Outcomes BuildTable BuildConflicts BuildStates BuildClosure BuildInputs BuildVerdicts BuildGoto BuildScan BuildActions BuildResolve BuildState BuildTurn BuildQueue.
Import PT Builder.

Section first.
Context {H : Type} (str_pool : StrPool H) (g : SyntaxGrammar) (lg : LexicalGrammar).
Context {F : Type} (variable_info : list (VariableInfo F)).
Context {I : Type} {IS : IndexSet I} {MI : MapIter}.
Context (inlines : InlinedProductionMap) (key_map : Item.ItemKeyMap) (items_bound : nat).
Context (Hti : table_inputs str_pool g lg variable_info inlines key_map items_bound).
Notation n_terminals := (length (lg_variables lg)).
Notation n_prods := (length (sg_productions g)).
Notation builder := (ParseTableBuilder I).
Notation pool_t := (Lookahead.LookaheadSetPool I).
Notation Err := ParseTableBuilderError.
Notation pool_len p := (length (is_elems (Lookahead.sets p))).
Notation sound := (sound g lg variable_info inlines key_map).
Notation item_ok := (Item.item_ok g key_map).
Notation Hin := (ti_inputs _ _ _ _ _ _ _ Hti).

(** ** Extra rules *)
(** An item of an extra rule, after its first symbol [X]. *)
Definition extra_entry (p : pool_t) (X : Symbol) (e : Item.ParseItemSetEntry) : Prop :=
  ∃ v id, Item.item e = Item.mkItem v 1 id (keys_of key_map id) false ∧ non_terminal v ∈ extra_symbols g ∧ N.to_nat v < n_vars g ∧
    id ∈ var_ids g v ∧ step_symbol <$> head (FirstSets.steps_at g id) = Some X ∧ Item.following_reserved_word_set e = 0%N ∧
    ∃ Y, Lookahead.stands p (Item.lookaheads e) Y ∧ ∀ t, t ∈ Y → t = end_of_nonterminal_extra.
Definition extra_set (p : pool_t) (X : Symbol) (s : Item.ParseItemSet) : Prop := Item.set_ok s ∧ ∀ e, Item.has s e → extra_entry p X e.
Lemma extra_entry_grows p p' X e : Lookahead.grows p p' → extra_entry p X e → extra_entry p' X e.
Proof.
  intros Hg (v & id & H1 & H2 & H3 & H4 & H5 & H6 & Y & HY & Ht). exists v, id. split_and!; try done. exists Y.
  split; [by eapply Lookahead.stands_grows|done].
Qed.
Lemma extra_item_ok v id X : N.to_nat v < n_vars g → id ∈ var_ids g v → step_symbol <$> head (FirstSets.steps_at g id) = Some X →
  item_ok (Item.mkItem v 1 id (keys_of key_map id) false) ∧ N.to_nat id < n_prods.
Proof.
  intros Hv Hid HX. pose proof (var_ids_known _ _ (in_symbols _ _ _ _ _ _ Hin) _ _ Hid) as Hlt. split; [|done].
  assert (Item.known g id 1) as Hk.
  { apply (known_at str_pool g n_terminals inlines key_map items_bound Hin); [done|]. destruct (FirstSets.steps_at g id); [done|cbn; lia]. }
  split; [done|]. intros E. by apply (keys_for_known str_pool g n_terminals inlines key_map items_bound Hin id 1).
Qed.
Lemma extra_kernel p X s : kind X ≠ NonTerminal → extra_set p X s → kernel_ok g lg key_map p s ∧ covers g [] s.
Proof.
  intros Hkind [Hs He].
  assert (∀ e, Item.has s e → item_ok (Item.item e) ∧ N.to_nat (Item.variable_index (Item.item e)) < n_vars g ∧
    N.to_nat (Item.prod_id (Item.item e)) < n_prods ∧ Item.step_index (Item.item e) = 1%N ∧ prev_symbol g (Item.item e) = Some X) as Hall.
  { intros e Hh. destruct (He e Hh) as (v & id & Hi & _ & Hv & Hid & HX & _). rewrite Hi. destruct (extra_item_ok v id X Hv Hid HX) as [Hok Hlt].
    split_and!; [done|done|done|done|]. unfold prev_symbol. rewrite (steps_of_prod _ _ _ _ _ _ _ Hti) by done. cbn [Item.step_index Item.prod_id].
    rewrite <- HX, head_lookup. done. }
  assert (∀ e, Item.has s e → Item.is_augmented (Item.item e) = false) as Hna.
  { intros e Hh. destruct (Hall e Hh) as (_ & Hv & _). unfold Item.is_augmented. apply N.eqb_neq. pose proof (n_vars_small _ _ _ _ _ _ _ Hti). lia. }
  split; [split|].
  - done.
  - intros e Hh. split; [by apply Hall|]. destruct (He e Hh) as (_ & _ & _ & _ & _ & _ & _ & _ & Y & HY & _). by exists Y.
  - intros e Hh. right. by split; apply Hall.
  - intros e Hh. destruct (He e Hh) as (_ & _ & _ & _ & _ & _ & _ & -> & _). apply (ti_reserved _ _ _ _ _ _ _ Hti).
  - right. exists X. intros e Hh. destruct (Hall e Hh) as (_ & _ & _ & -> & ?). split; [lia|done].
  - intros e e' Hh Hh' Ha. rewrite (Hna e Hh) in Ha. done.
  - intros e e' Hh Hh' Ha. rewrite (Hna e Hh) in Ha. done.
  - intros e t Hh (Z & HZ & Ht). destruct (He e Hh) as (_ & _ & _ & _ & _ & _ & _ & _ & Y & HY & HYt).
    rewrite (Lookahead.stands_fun _ _ _ _ HZ HY) in Ht. right. right. by apply HYt.
  - intros e t Hh Ha. rewrite (Hna e Hh) in Ha. done.
  - intros e e' Hh Hh' Ha. rewrite (Hna e Hh) in Ha. done.
  - intros e Hh j st w Hj Hst Hw. destruct (Hall e Hh) as (_ & _ & _ & Hone & HX). rewrite Hone in Hj. assert (j = 0) as -> by lia.
    unfold prev_symbol in HX. rewrite Hone in HX. change (N.to_nat 1 - 1) with 0 in HX. rewrite Hst in HX. injection HX as <-. by rewrite Hw in Hkind.
  - intros e Hh Haux. destruct (He e Hh) as (v & id & Hi & Hx & Hv & _). rewrite Hi in Haux. cbn in Haux. exfalso.
    rewrite (non_terminal_known _ _ _ _ _ _ _ Hti) in Hx by done. by apply (proj2 (ti_extras _ _ _ _ _ _ _ Hti _ Hx) eq_refl).
Qed.

(** The item of production [id] after its first symbol is in the set of this symbol. *)
Definition extra_item_in (sets : gmap Symbol Item.ParseItemSet) (v id : N) : Prop :=
  ∃ X s e, step_symbol <$> head (FirstSets.steps_at g id) = Some X ∧ sets !! X = Some s ∧ Item.has s e ∧
    Item.entry_rank e = Item.item_rank (Item.mkItem v 1 id (keys_of key_map id) false).

(** The item sets of the extra rules. *)
Section extras.
Context (p0 : pool_t) (Hp0 : Lookahead.pool_wf p0) (bound : nat) (Hbound : (N.of_nat (pool_len p0 + bound) < U32)%N).
(** The sets after the productions of [D], each with its variable. *)
Record extras_ok (D : list (N * N)) (st : pool_t * gmap Symbol Item.ParseItemSet) : Prop := {
  xo_pool : Lookahead.pool_wf st.1;
  xo_grows : Lookahead.grows p0 st.1;
  xo_room : pool_len st.1 ≤ pool_len p0 + length D;
  xo_size : size st.2 ≤ length D;
  xo_sets : ∀ X s, st.2 !! X = Some s → extra_set st.1 X s ∧ ∃ e, Item.has s e;
  xo_known : ∀ X s, st.2 !! X = Some s → symbol_known g n_terminals X;
  xo_done : ∀ v id, (v, id) ∈ D → extra_item_in st.2 v id;
}.
Lemma add_extra_item_spec D st v id : extras_ok D st → length D < bound → N.to_nat v < n_vars g → non_terminal v ∈ extra_symbols g → id ∈ var_ids g v →
  ∃ st', add_extra_item (E:=Err) g key_map v st id = Ok st' ∧ extras_ok (D ++ [(v, id)]) st'.
Proof.
  destruct st as [p m]. intros [X1 X2 X3 X4 X5 X6 X7] Hn Hv Hx Hid. cbn [fst snd] in *.
  pose proof (var_ids_known _ _ (in_symbols _ _ _ _ _ _ Hin) _ _ Hid) as Hlt. unfold add_extra_item.
  rewrite (sy_prods _ _ (in_symbols _ _ _ _ _ _ Hin)) by done. cbn [mbind outcome_bind].
  change (first_symbol (FirstSets.prod_at g id)) with (step_symbol <$> head (FirstSets.steps_at g id)).
  destruct (step_symbol <$> head (FirstSets.steps_at g id)) as [X|] eqn:HX.
  2: { destruct (ti_extras _ _ _ _ _ _ _ Hti _ Hx) as [_ Hxn]. rewrite (non_terminal_known _ _ _ _ _ _ _ Hti) in Hxn by done.
    destruct (Hxn eq_refl) as [_ Hne]. specialize (Hne id Hid). by destruct (FirstSets.steps_at g id). }
  cbn [unwrap mbind outcome_bind]. destruct (extra_item_ok v id X Hv Hid HX) as [Hok _].
  assert (Item.keys_for (E:=Err) key_map id = Ok (keys_of key_map id)) as -> by apply (Item.io_keys _ _ _ Hok). cbn [mbind outcome_bind].
  set (item := Item.mkItem v 1 id (keys_of key_map id) false) in *.
  assert (extra_set p X (default (Item.mkItemSet []) (m !! X))) as [Hs He].
  { destruct (m !! X) as [s|] eqn:Hm; [by apply X5|]. split; [split; constructor|]. by intros e ?%not_elem_of_nil. }
  destruct (Item.upsert_spec (E:=Err) (default (Item.mkItemSet []) (m !! X)) item Hs) as (j & s' & e & -> & Hj & Hr & _ & Hor & Hup);
    [by apply (Item.item_ok_keyed str_pool g key_map (in_keys _ _ _ _ _ _ Hin))|].
  cbn [mbind outcome_bind]. rewrite (vec_get_Some _ _ _ Hj). cbn [mbind outcome_bind].
  assert (extra_entry p X e) as Hee.
  { destruct Hor as [Hh|[-> _]]; [by apply He|]. exists v, id. split_and!; try done. exists ∅. split; [apply (Lookahead.pw_empty p X1)|set_solver]. }
  destruct Hee as (v' & id' & Hi' & Hx' & Hv' & Hid' & HX' & Hf & Y & HY & HYt).
  destruct (Lookahead.lookahead_insert_spec (E:=Err) p (Item.lookaheads e) Y end_of_nonterminal_extra X1) as ([l p'] & -> & Hp' & Hg & Hst & Hlen);
    [unfold Lookahead.roomy; lia|done|done|]. cbn [mbind outcome_bind fst snd] in *.
  set (e' := Item.mkEntry (Item.item e) l (Item.following_reserved_word_set e)). destruct (Hup e' eq_refl) as [Hset Hhas].
  eexists. split; [reflexivity|]. split; cbn [fst snd].
  - done.
  - by etrans.
  - rewrite length_app. cbn. lia.
  - rewrite map_size_insert, length_app. destruct (m !! X); cbn; lia.
  - intros Z s [[-> <-]|[_ HZ]]%lookup_insert_Some.
    + split; [|exists e'; apply Hhas; by left]. split; [done|]. intros a [->|[Ha _]]%Hhas; [|by eapply extra_entry_grows, He].
      exists v', id'. split_and!; try done. exists ({[end_of_nonterminal_extra]} ∪ Y). split; [done|]. intros t [->%elem_of_singleton|Ht]%elem_of_union; [done|by apply HYt].
    + destruct (X5 Z s HZ) as [[? Hse] ?]. split; [|done]. split; [done|]. intros a Ha. by eapply extra_entry_grows, Hse.
  - intros Z s [[-> <-]|[_ HZ]]%lookup_insert_Some; [|by eapply X6].
    apply fmap_Some in HX as (st & Hhead & ->). eapply step_known; [apply Hin|exact Hlt|by eapply head_in].
  - assert (∀ w i, extra_item_in m w i ∨ w = v ∧ i = id → extra_item_in (<[X:=Item.update_entry s' j e']> m) w i) as Hstep.
    2: { intros w i [Hwi|[= -> ->]%list_elem_of_singleton]%elem_of_app; apply Hstep; [left; by apply X7|by right]. }
    intros w i [(Z & sz & ez & HZ & Hsz & Hez & Hrz)|[-> ->]].
    2: { exists X, (Item.update_entry s' j e'), e'. split_and!; [done|apply lookup_insert_eq|apply Hhas; by left|exact Hr]. }
    destruct (decide (Z = X)) as [->|Hne].
    2: { exists Z, sz, ez. split_and!; [done|by rewrite lookup_insert_ne|done|done]. }
    rewrite Hsz in Hhas. exists X, (Item.update_entry s' j e').
    destruct (decide (Item.entry_rank ez = Item.item_rank item)) as [Hsame|Hdiff].
    + exists e'. split_and!; [done|apply lookup_insert_eq|apply Hhas; by left|]. rewrite <- Hrz, Hsame. exact Hr.
    + exists ez. split_and!; [done|apply lookup_insert_eq|apply Hhas; by right|done].
Qed.
Lemma extra_item_sets_spec : length (extra_symbols g) * n_prods ≤ bound →
  ∃ st D, extra_item_sets (E:=Err) g key_map p0 = Ok st ∧ extras_ok D st ∧ length D ≤ length (extra_symbols g) * n_prods ∧
    ∀ x id, x ∈ extra_symbols g → is_non_terminal x = true → id ∈ var_ids g (index x) → (index x, id) ∈ D.
Proof.
  intros Hle. unfold extra_item_sets. set (xs := filter _ (extra_symbols g)).
  assert (length xs ≤ length (extra_symbols g)) as Hxs by apply length_filter.
  destruct (for_each_inv (λ st x, ids ← variable_prod_ids g (N.to_nat (index x)); for_each (add_extra_item (E:=Err) g key_map (index x)) st (prod_range ids))
    (λ d st, ∃ D, extras_ok D st ∧ length D ≤ length d * n_prods ∧ ∀ x id, x ∈ d → id ∈ var_ids g (index x) → (index x, id) ∈ D) xs (p0, ∅))
    as (st & Hst & D & Hok & HD & Hall).
  - exists []. split; [|split; [done|by intros x id ?%not_elem_of_nil]]. split; cbn; try done; [lia|]. by intros v id ?%not_elem_of_nil.
  - intros d x rest st Hd (D & Hok & HD & Hall). assert (x ∈ xs) as [Hnt Hx]%list_elem_of_filter by (rewrite Hd; set_solver).
    unfold is_non_terminal in Hnt. apply bool_decide_eq_true in Hnt. destruct (ti_extras _ _ _ _ _ _ _ Hti x Hx) as [Hk _].
    unfold symbol_known in Hk. rewrite Hnt in Hk.
    assert (non_terminal (index x) = x) as Hxe by (rewrite (non_terminal_known _ _ _ _ _ _ _ Hti) by done; destruct x; cbn in *; by subst).
    destruct (variable_prod_ids_ok g n_terminals (in_symbols _ _ _ _ _ _ Hin) (E:=Err) (index x) Hk) as (r & Hr & Hids).
    rewrite Hr. cbn [mbind outcome_bind].
    assert (length (prod_range r) ≤ n_prods) as Hlen.
    { unfold variable_prod_ids in Hr. apply vec_get_Ok in Hr. pose proof (sy_ranges _ _ (in_symbols _ _ _ _ _ _ Hin) _ _ Hr).
      unfold prod_range. rewrite length_map, length_seq. lia. }
    assert (S (length d) ≤ length xs) as Hdl by (rewrite Hd, length_app; cbn; lia).
    assert (S (length d) * n_prods ≤ length (extra_symbols g) * n_prods) as Hdp by (apply Nat.mul_le_mono_r; lia).
    destruct (for_each_inv (add_extra_item (E:=Err) g key_map (index x)) (λ k, extras_ok (D ++ map (pair (index x)) k)) (prod_range r) st) as (st' & Hst' & Hok').
    + cbn. by rewrite app_nil_r.
    + intros k id more st' Hsplit Hst'. destruct (add_extra_item_spec _ st' (index x) id Hst') as (st'' & Hadd & Hok'').
      * assert (S (length k) ≤ length (prod_range r)) by (rewrite Hsplit, length_app; cbn; lia). rewrite length_app, length_map. lia.
      * done.
      * by rewrite Hxe.
      * rewrite <- Hids, Hsplit. set_solver.
      * exists st''. split; [done|]. by rewrite map_app, (assoc_L (++)).
    + exists st'. split; [done|]. eexists. split; [exact Hok'|]. rewrite !length_app, length_map. cbn. split; [lia|].
      intros y id [Hy| ->%list_elem_of_singleton]%elem_of_app Hid; apply elem_of_app; [left; by apply Hall|right].
      apply elem_of_map. exists id. by rewrite Hids.
  - exists st, D. split_and!; [exact Hst|done| |].
    + etrans; [exact HD|]. by apply Nat.mul_le_mono_r.
    + intros x id Hx Hnt Hid. apply Hall; [|done]. by apply list_elem_of_filter.
Qed.
End extras.

(** ** The first states *)
Lemma start_item_ok : item_ok (Item.item_start key_map).
Proof.
  split; [|done]. change (Item.known g Item.START_PRODUCTION_ID 0). unfold Item.known, Item.in_range. change (Item.slot_of Item.START_PRODUCTION_ID) with 0.
  split; [change (0 < Item.slot_count g); unfold Item.slot_count; lia|change (0 < Item.dots g 0); unfold Item.dots; lia].
Qed.
Lemma start_kernel p id : Lookahead.stands p id {[end_]} →
  kernel_ok g lg key_map p (Item.mkItemSet [Item.mkEntry (Item.item_start key_map) id 0]) ∧ covers g [] (Item.mkItemSet [Item.mkEntry (Item.item_start key_map) id 0]).
Proof.
  intros Hid. pose proof start_item_ok as Hok.
  assert (∀ e, Item.has (Item.mkItemSet [Item.mkEntry (Item.item_start key_map) id 0]) e → e = Item.mkEntry (Item.item_start key_map) id 0) as Hone
    by (intros e ?%list_elem_of_singleton; done).
  split; [split|].
  - split; repeat constructor. by apply (Item.item_ok_keyed str_pool g key_map (in_keys _ _ _ _ _ _ Hin)).
  - intros e ->%Hone. split; [done|by eexists].
  - intros e ->%Hone. by left.
  - intros e ->%Hone. apply (ti_reserved _ _ _ _ _ _ _ Hti).
  - left. by intros e ->%Hone.
  - by intros e e' ->%Hone ->%Hone.
  - by intros e e' ->%Hone ->%Hone.
  - intros e t ->%Hone (Y & HY & Ht). cbn in HY. rewrite (Lookahead.stands_fun _ _ _ _ HY Hid) in Ht. apply elem_of_singleton in Ht. by right; left.
  - intros e t ->%Hone _ (Y & HY & Ht). cbn in HY. rewrite (Lookahead.stands_fun _ _ _ _ HY Hid) in Ht. by apply elem_of_singleton in Ht.
  - by intros e e' ->%Hone ->%Hone.
  - intros e ->%Hone j st w Hj. cbn in Hj. lia.
  - intros e ->%Hone (x & Hx%lookup_lt_Some & _). cbn in Hx. pose proof (n_vars_small _ _ _ _ _ _ _ Hti). unfold n_vars in *. lia.
Qed.
Lemma empty_kernel p : kernel_ok g lg key_map p (Item.mkItemSet []) ∧ covers g [] (Item.mkItemSet []).
Proof.
  assert (∀ e, ¬ Item.has (Item.mkItemSet []) e) as Hno by by intros e ?%not_elem_of_nil.
  split; [split|]; try (by intros e ?%Hno); try (by intros e ? ?%Hno).
  - split; constructor.
  - left. by intros e ?%Hno.
Qed.

(** A builder all of whose states wait. *)
Record seeded (b : builder) : Prop := {
  se_sound : sound b;
  se_queue : queue_ok g lg inlines key_map b;
  se_waits : ∀ j, j < length (state_ids_by_item_set b) → N.of_nat j ∈ map qe_state_id (parse_state_queue b);
}.
Notation first_builder ib := (with_table (new_builder g ib) (mkParseTable [] empty_pool [] [mkProductionInfo [] ∅] 1 [])).
Lemma seeded_first ib : builder_ok g n_terminals inlines key_map ib → seeded (first_builder ib).
Proof.
  intros Hib. split; [split|..]; cbn; try done.
  - split; cbn; try done; try constructor; try (by intros ? ? ?%not_elem_of_nil); lia.
  - split; cbn.
    + by rewrite length_replicate.
    + apply NoDup_singleton.
    + intros x ->%list_elem_of_singleton. by left.
    + intros id k [Hk _]%lookup_replicate. done.
  - by intros s id ?%not_elem_of_nil.
  - by intros l x ?%not_elem_of_nil.
  - intros c. by rewrite elem_of_list_to_set.
  - split; cbn; [by intros q ?%not_elem_of_nil|constructor].
  - intros j Hj. lia.
Qed.
Lemma seeded_pool b p : seeded b → Lookahead.pool_wf p → Lookahead.grows (pool_of b) p → seeded (with_lookaheads b p).
Proof.
  intros [Hb [Hq Hd] Hw] Hp Hg. split; [|split; [|done]|done].
  - apply sound_builder; [done| |done]. apply builder_ok_pool; [apply Hb|done|done].
  - intros q Hqin. by destruct (Hq q Hqin).
Qed.
Lemma seeded_add b s : seeded b → kernel_ok g lg key_map (pool_of b) s ∧ covers g [] s → (N.of_nat (S (length (state_ids_by_item_set b))) < U32)%N →
  ∃ id b', add_parse_state (E:=Err) b [] [] s = Ok (id, b') ∧ seeded b' ∧ target b' s id ∧ pool_of b' = pool_of b ∧
    state_ids_by_item_set b `prefix_of` state_ids_by_item_set b' ∧ length (state_ids_by_item_set b') ≤ S (length (state_ids_by_item_set b)) ∧
    non_terminal_extra_states b' = non_terminal_extra_states b.
Proof.
  intros [Hb Hq Hw] [Hk Hc] Hroom.
  destruct (state_added_spec str_pool g lg variable_info inlines key_map items_bound Hti b [] [] s Hb Hq Hk Hc)
    as (id & b' & Hadd & Hb' & Hq' & Hev & _ & Hom & Ht); [by intros x ?%not_elem_of_nil..|done|].
  exists id, b'. specialize (Hev 0%N). split_and!; [done| |done| |apply (ev_item_sets _ _ _ Hev)|apply Hom|apply (ev_extras _ _ _ Hev)].
  - split; [done|done|]. intros j Hj. destruct (decide (j < length (state_ids_by_item_set b))) as [Hlt|]; [|apply (ev_new _ _ _ Hev); [lia|done]].
    destruct (ev_queue _ _ _ Hev) as [more ->]. rewrite map_app. apply elem_of_app. left. by apply Hw.
  - unfold pool_of. by rewrite (om_builder _ _ Hom).
Qed.
Lemma target_prefix (b b' : builder) s id : state_ids_by_item_set b `prefix_of` state_ids_by_item_set b' → target b s id → target b' s id.
Proof. intros Hpre (s' & Hs' & Hk). exists s'. split; [|done]. by eapply prefix_lookup_Some. Qed.

(** The first states: one without items, that of the start item, which the end of the
    input follows, and those of the extra rules. *)
Definition start_set (id : N) : Item.ParseItemSet := Item.mkItemSet [Item.mkEntry (Item.item_start key_map) id 0].
Record extra_states (b : builder) : Prop := {
  es_listed : ∀ X n, (X, n) ∈ non_terminal_extra_states b →
    kind X ≠ NonTerminal ∧ ∃ s, extra_set (pool_of b) X s ∧ target b s n;
  es_complete : ∀ x id, x ∈ extra_symbols g → is_non_terminal x = true → id ∈ var_ids g (index x) →
    ∃ X s n e, (X, n) ∈ non_terminal_extra_states b ∧ target b s n ∧ step_symbol <$> head (FirstSets.steps_at g id) = Some X ∧
      Item.has s e ∧ Item.entry_rank e = Item.item_rank (Item.mkItem (index x) 1 id (keys_of key_map id) false);
}.
Record opened (b : builder) : Prop := {
  op_empty : target b (Item.mkItemSet []) 0;
  op_start : ∃ id, Lookahead.stands (pool_of b) id {[end_]} ∧ target b (start_set id) 1;
  op_extras : extra_states b;
}.
(** An extra rule that begins with another rule. *)
Definition improper (err : Err) : Prop :=
  ∃ x id X n, x ∈ extra_symbols g ∧ id ∈ var_ids g (index x) ∧ step_symbol <$> head (FirstSets.steps_at g id) = Some X ∧
    kind X = NonTerminal ∧ symbol_name (E:=Err) str_pool g lg X = Ok n ∧ err = ImproperNonTerminalExtra n.
Notation initial_states := (initial_states str_pool g lg key_map).
Lemma add_extra_states_spec b sets : seeded b → non_terminal_extra_states b = [] → (∀ X s, (X, s) ∈ sets → extra_set (pool_of b) X s ∧ (∃ e, Item.has s e) ∧ symbol_known g n_terminals X) →
  (N.of_nat (length (state_ids_by_item_set b) + length sets) < U32)%N →
  wp (for_each (add_extra_state str_pool g lg) b sets) improper (λ b', seeded b' ∧ pool_of b' = pool_of b ∧
    state_ids_by_item_set b `prefix_of` state_ids_by_item_set b' ∧
    Forall2 (λ e x, x.1 = e.1 ∧ kind e.1 ≠ NonTerminal ∧ target b' e.2 x.2) sets (non_terminal_extra_states b')).
Proof.
  intros Hb Hnone Hsets Hroom.
  set (P := λ (d : list (Symbol * Item.ParseItemSet)) (b' : builder), seeded b' ∧ pool_of b' = pool_of b ∧ state_ids_by_item_set b `prefix_of` state_ids_by_item_set b' ∧
    length (state_ids_by_item_set b') ≤ length (state_ids_by_item_set b) + length d ∧
    Forall2 (λ e x, x.1 = e.1 ∧ kind e.1 ≠ NonTerminal ∧ target b' e.2 x.2) d (non_terminal_extra_states b')).
  eapply wp_mono; [apply (wp_for_each _ _ P)|by intros b' (? & ? & ? & ? & ?)].
  - split_and!; [done|done|done|lia|]. rewrite Hnone. constructor.
  - intros d [X s] rest b' Hd (Hb' & Hpool & Hpre & Hlen & Hall). destruct (Hsets X s) as (Hx & [e He] & Hkn); [rewrite Hd; set_solver|].
    unfold add_extra_state. destruct (is_non_terminal X) eqn:Hnt; unfold is_non_terminal in Hnt.
    + apply bool_decide_eq_true in Hnt. destruct (symbol_name_ok str_pool g lg variable_info inlines key_map items_bound Hti X) as [n Hn]; [by left|].
      rewrite Hn. cbn. destruct Hx as [_ Hx]. destruct (Hx e He) as (v & id & _ & Hv & Hlt & Hid & HX & _).
      exists (non_terminal v), id, X, n. split_and!; try done. by rewrite (non_terminal_known _ _ _ _ _ _ _ Hti).
    + apply bool_decide_eq_false in Hnt.
      assert (S (length d) ≤ length sets) as Hdl by (rewrite Hd, length_app; cbn; lia).
      destruct (seeded_add b' s) as (id & b'' & -> & Hb'' & Ht & Hpool' & Hpre' & Hlen' & Hx'); [done|rewrite Hpool; by eapply extra_kernel|lia|].
      cbn. split_and!.
      * destruct Hb'' as [[B1 B2 B3 B4 B5 B6] [Hq Hqd] Hw]. split; [split; try done; [by destruct B2|by destruct B3]|split; [|done]|done].
        intros q Hqin. by destruct (Hq q Hqin).
      * change (pool_of b'' = pool_of b). congruence.
      * etrans; [exact Hpre|exact Hpre'].
      * change (length (state_ids_by_item_set b'') ≤ length (state_ids_by_item_set b) + length (d ++ [(X, s)])). rewrite length_app. cbn. lia.
      * rewrite Hx'. apply Forall2_app; [|by repeat constructor].
        eapply Forall2_impl; [exact Hall|]. intros [Y t] [Z n] (? & ? & Hy). split_and!; [done|done|]. by apply (target_prefix b').
Qed.

Definition opening_room (ib : ParseItemSetBuilder I) : Prop :=
  (N.of_nat (pool_len (pool ib) + 1 + length (extra_symbols g) * n_prods) < U32)%N ∧ (N.of_nat (2 + length (extra_symbols g) * n_prods) < U32)%N.
Lemma Forall2_fst_elem {A B} (R : A → B → Prop) l k : Forall2 R l k → (∀ x, x ∈ l → ∃ y, y ∈ k ∧ R x y) ∧ (∀ y, y ∈ k → ∃ x, x ∈ l ∧ R x y).
Proof.
  intros HR. split.
  - intros x [i Hi]%list_elem_of_lookup. destruct (Forall2_lookup_l _ _ _ _ _ HR Hi) as (y & Hy & ?). exists y. split; [by eapply list_elem_of_lookup_2|done].
  - intros y [i Hi]%list_elem_of_lookup. destruct (Forall2_lookup_r _ _ _ _ _ HR Hi) as (x & Hx & ?). exists x. split; [by eapply list_elem_of_lookup_2|done].
Qed.
Lemma initial_states_spec ib : builder_ok g n_terminals inlines key_map ib → opening_room ib →
  wp (initial_states (new_builder g ib)) improper (λ b, seeded b ∧ opened b ∧ Lookahead.grows (pool ib) (pool_of b)).
Proof.
  intros Hib [Hroom1 Hroom2]. pose proof (seeded_first ib Hib) as H0. set (b0 := first_builder ib) in *. unfold PT.initial_states.
  change (with_table (new_builder g ib) _) with b0. cbv zeta.
  destruct (seeded_add b0 (Item.mkItemSet [])) as (id0 & b1 & -> & H1 & T1 & P1 & L1 & N1 & X1); [done|apply empty_kernel|done|]. cbn [mbind outcome_bind].
  assert (pool_of b0 = pool ib) as Hp0 by done.
  assert (Lookahead.pool_wf (pool_of b1)) as Hw1 by (apply (bk_pool _ _ _ _ _ (so_builder _ _ _ _ _ _ (se_sound _ H1)))).
  destruct (Lookahead.lookahead_insert_spec (E:=Err) (pool_of b1) Lookahead.EMPTY ∅ end_ Hw1) as ([id p] & Hins & Hp & Hg & Hst & Hlen);
    [unfold Lookahead.roomy; rewrite P1, Hp0; lia|by apply Lookahead.pw_empty|done|]. cbn [fst snd] in *.
  unfold Lookahead.singleton. rewrite Hins. clear Hins. cbn [mbind outcome_bind].
  pose proof (seeded_pool b1 p H1 Hp Hg) as H1'. replace ({[end_]} ∪ ∅ : gset Symbol) with ({[end_]} : gset Symbol) in Hst by set_solver.
  fold (start_set id).
  destruct (seeded_add (with_lookaheads b1 p) (start_set id)) as (id2 & b2 & -> & H2 & T2 & P2 & L2 & N2 & X2); [done|by apply start_kernel|cbn in *; lia|]. cbn [mbind outcome_bind].
  change (pool_of (with_lookaheads b1 p)) with p in *. change (state_ids_by_item_set (with_lookaheads b1 p)) with (state_ids_by_item_set b1) in *.
  change (length (state_ids_by_item_set b0)) with 0 in *.
  assert (id0 = 0%N) as ->. { destruct T1 as (s' & Hs'%lookup_lt_Some & _). lia. }
  assert (id2 = 1%N) as ->.
  { destruct T2 as (s2 & Hs2 & K2). pose proof (lookup_lt_Some _ _ _ Hs2). destruct (decide (id2 = 0%N)) as [->|]; [|lia].
    destruct T1 as (s1 & Hs1 & K1). rewrite (prefix_lookup_Some _ _ _ _ Hs1 L2) in Hs2. injection Hs2 as ->. by rewrite K2 in K1. }
  assert (Lookahead.pool_wf (pool_of b2)) as Hw2 by (by rewrite P2).
  destruct (extra_item_sets_spec (pool_of b2) Hw2 (length (extra_symbols g) * n_prods)) as ([p3 sets] & D & -> & [E1 E2 E3 E4 E5 E6 E7] & HD & Hall);
    [rewrite P2; cbn in *; rewrite P1, Hp0 in Hlen; lia|done|]. cbn [mbind outcome_bind fst snd] in *.
  pose proof (seeded_pool b2 p3 H2 E1 E2) as H3.
  eapply wp_mono; [apply (add_extra_states_spec (with_lookaheads b2 p3) (btree_entries sets)); [done| | |]|].
  - change (non_terminal_extra_states b2 = []). by rewrite X2; change (non_terminal_extra_states b1 = []); rewrite X1.
  - intros X s HX%elem_of_btree_entries. destruct (E5 X s HX). split_and!; [done|done|by eapply E6].
  - rewrite length_btree_entries. change (state_ids_by_item_set (with_lookaheads b2 p3)) with (state_ids_by_item_set b2). lia.
  - intros b3 (H4 & P4 & L4 & F4). change (pool_of (with_lookaheads b2 p3)) with p3 in P4. apply Forall2_fst_elem in F4 as [F4 F5].
    change (state_ids_by_item_set (with_lookaheads b2 p3)) with (state_ids_by_item_set b2) in L4.
    assert (Lookahead.grows p p3) as Hg3 by (by rewrite P2 in E2).
    split_and!; [done| |rewrite P4; etrans; [|exact Hg3]; by rewrite P1, Hp0 in Hg]. split.
    + apply (target_prefix b2); [done|]. by apply (target_prefix b1).
    + exists id. split; [rewrite P4; by eapply Lookahead.stands_grows|]. by apply (target_prefix b2).
    + split.
      * intros X n Hn. destruct (F5 _ Hn) as ([Y s] & HY%elem_of_btree_entries & Heq & Hk & Ht). cbn in Heq, Hk, Ht. subst Y. split; [done|].
        exists s. rewrite P4. split; [by apply E5|done].
      * intros x i Hx Hnt Hi. destruct (E7 _ _ (Hall x i Hx Hnt Hi)) as (X & s & e & HX & Hs & He & Hr).
        destruct (F4 (X, s)) as ([Y n] & Hn & Heq & _ & Ht); [by apply elem_of_btree_entries|]. cbn in Heq, Ht. subst Y.
        exists X, s, n, e. done.
Qed.
Lemma unnecessary_conflicts_ok b : sound b → ∃ d, unnecessary_conflicts (E:=Err) str_pool g lg b = Ok d.
Proof.
  intros Hb. unfold unnecessary_conflicts. case_bool_decide; [by eexists|].
  destruct (mapM_total (mapM (symbol_name (E:=Err) str_pool g lg)) (elements (actual_conflicts b))) as [ns ->]; [|cbn; by eexists].
  intros c Hc%elem_of_elements. apply mapM_total. intros x Hx. apply (symbol_name_ok str_pool g lg variable_info inlines key_map items_bound Hti). left.
  eapply (ti_conflicts _ _ _ _ _ _ _ Hti c); [by apply (so_declared _ _ _ _ _ _ Hb)|done].
Qed.
End first.
