(* ===== verification/BuildCorrect.v ===== *)
(** * [build_tables/build_parse_table.rs]: the whole table

    The table that is built is the LR(1) automaton of the grammar, with the conflicts
    resolved, or the error that is returned names what is wrong with the grammar. *)
From S2P Require Import Prelude BitVec Symbols TokenSet Ordering StrPool Grammars Lookaheads Items ItemSets FirstSets FollowSets Additions Closure Tables Outcomes BuildTable BuildConflicts BuildStates BuildClosure BuildInputs BuildVerdicts BuildGoto BuildScan BuildActions BuildResolve BuildState BuildTurn BuildQueue BuildFirst.
Import PT Builder.

Section correct.
Context {H : Type} (str_pool : StrPool H) (g : SyntaxGrammar) (lg : LexicalGrammar).
Context {F : Type} (variable_info : list (VariableInfo F)).
Context {I : Type} {IS : IndexSet I} {MI : MapIter}.
Context (inlines : InlinedProductionMap) (key_map : Item.ItemKeyMap) (items_bound : nat).
Context (Hti : table_inputs str_pool g lg variable_info inlines key_map items_bound).
Notation n_terminals := (length (lg_variables lg)).
Notation builder := (ParseTableBuilder I).
Notation sound := (sound g lg variable_info inlines key_map).
Notation opened := (opened g key_map).
Notation initial_states := (initial_states str_pool g lg key_map).
Notation process_queue := (process_queue str_pool g lg variable_info inlines key_map).
Notation build_parse_table := (build_parse_table str_pool g lg variable_info inlines key_map).
Notation fits := (fits str_pool g lg variable_info inlines key_map).

(** Every state is filled in, and there are the states that parsing begins with. *)
Record automaton (b : builder) : Prop := {
  au_sound : sound b;
  au_states : ∀ j, j < length (state_ids_by_item_set b) → state_done g variable_info inlines key_map b j;
  au_opened : opened b;
}.
Lemma opened_worked_off b b' : opened b → worked_off g lg variable_info inlines key_map b b' → opened b'.
Proof.
  intros [O1 (id & O2 & O3) [X1 X2]] [W1 W2 W3 W4 W5 W6].
  split; [by apply (target_prefix b)|exists id; split; [by eapply Lookahead.stands_grows|by apply (target_prefix b)]|].
  split; rewrite W5.
  - intros X n Hn. destruct (X1 X n Hn) as (? & s & [Hs He] & ?). split; [done|]. exists s. split; [|by apply (target_prefix b)].
    split; [done|]. intros e Hh. by eapply extra_entry_grows, He.
  - intros x i Hx Hnt Hi. destruct (X2 x i Hx Hnt Hi) as (X & s & n & e & ? & ? & ?). exists X, s, n, e. split_and!; try done; [by apply (target_prefix b)|tauto..].
Qed.

Lemma build_more fuel more ib diagnostics x :
  build_parse_table fuel ib diagnostics = Ok x → build_parse_table (fuel + more) ib diagnostics = Ok x.
Proof.
  unfold PT.build_parse_table, build. destruct (initial_states (new_builder g ib)) as [b| | |]; cbn; [|done..].
  intros Hx. rewrite process_queue_more; [done|]. intros Hb. by rewrite Hb in Hx.
Qed.
End correct.

(** ** An example *)
(** One case for every element of a list that is written out. *)
Ltac listed Hx := repeat (apply elem_of_cons in Hx as [Hx|Hx]; [subst|]); try (exfalso; revert Hx; apply not_elem_of_nil).
(** Any number of sums of words, with a separator and a comment between two marks as
    extras: the start rule can match nothing. *)
Definition table_example : SyntaxGrammar :=
  let step x := pack x PNone None None None 0 in
  let left x := pack x (PInteger 1) (Some Left) None None 0 in
  mkSyntaxGrammar [mkSyntaxVariable 1 Named; mkSyntaxVariable 2 Named; mkSyntaxVariable 1 Named; mkSyntaxVariable 2 Auxiliary]
    [terminal 2; non_terminal 2] [] [] [] []
    (Some (terminal 1)) [] [TokenSet.new]
    [step (non_terminal 3); left (non_terminal 1); left (terminal 0); left (non_terminal 1); step (terminal 1); step (terminal 3); step (terminal 3);
     step (non_terminal 3); step (non_terminal 3); step (non_terminal 1)]
    [mkProduction 0 1 0 false; mkProduction 1 0 0 false; mkProduction 1 3 0 false; mkProduction 4 1 0 false; mkProduction 5 2 0 false;
     mkProduction 7 2 0 false; mkProduction 9 1 0 false]
    [(0, 2); (2, 4); (4, 5); (5, 7)]%N.
Definition table_example_lexical : LexicalGrammar := mkLexicalGrammar [] (replicate 4 (mkLexicalVariable 1 Named 0 0)).
Definition no_info : VariableInfo FieldInfo :=
  let none := mkFieldInfo (mkChildQuantity false false false) [] in mkVariableInfo ∅ none none false.
Definition table_example_infos : list (VariableInfo FieldInfo) := replicate 4 no_info.
Definition table_example_keys : Item.ItemKeyMap :=
  match Item.new_key_map (E:=Empty_set) item_example_pool table_example with Ok m => m | _ => Item.mkKeyMap [] [] end.
Definition table_example_builder : outcome Empty_set (ParseItemSetBuilder (list TokenSet)) :=
  builder_new table_example 4 ∅ table_example_keys 6 (follow_fuel table_example 4).
Definition table_example_table (fuel : nat) : outcome ParseTableBuilderError (list (list (Symbol * list ParseAction) * list (Symbol * GotoAction))) :=
  match table_example_builder with
  | Ok ib =>
      '(t, _, _) ← build_parse_table item_example_pool table_example table_example_lexical table_example_infos ∅ table_example_keys fuel ib [];
      Ok (map (λ s, (map (λ e, (e.1, actions_of (entry_actions e.2))) (terminal_entries s), nonterminal_entries s)) (pt_states t))
  | _ => Panic
  end.
Example table_example_runs : match table_example_table 60 with
  | Ok t => (λ s, s.1) <$> t !! 1 = Some [(end_, [Reduce (non_terminal 0) 0 0 0]); (terminal 1, [Shift 3 false]); (terminal 3, [Shift 2 false]);
        (terminal 2, [ShiftExtra])]%N ∧
      (λ s, s.1) <$> t !! 9 = Some [(terminal 1, [Reduce (non_terminal 3) 2 0 0; Shift 3 true]); (end_, [Reduce (non_terminal 3) 2 0 0]);
        (terminal 3, [Shift 2 false]); (terminal 2, [ShiftExtra])]%N ∧
      (λ s, s.1) <$> t !! 10 = Some [(terminal 0, [Reduce (non_terminal 1) 3 0 0]); (terminal 1, [Reduce (non_terminal 1) 3 0 0]);
        (end_, [Reduce (non_terminal 1) 3 0 0]); (terminal 3, [Shift 2 false]); (terminal 2, [ShiftExtra])]%N
  | _ => False
  end.
Proof. vm_compute. done. Qed.
Lemma table_example_prods id : N.to_nat id < 7 → id ∈ [0; 1; 2; 3; 4; 5; 6]%N.
Proof. intros Hid. rewrite <- (N2Nat.id id). revert Hid. generalize (N.to_nat id). do 7 (intros [|k]; [intros _; repeat constructor|revert k]). intros; lia. Qed.
Lemma table_example_symbols : symbols_ok table_example 4.
Proof.
  split; [| | | |done..].
  - intros id Hid%table_example_prods E; listed Hid; done.
  - intros id Hid%table_example_prods; listed Hid; repeat constructor.
  - done.
  - intros [|[|[|[|v]]]] r Hr; [injection Hr as <-; cbn; lia..|done].
Qed.
Lemma example_readable id : (id < 3)%N → Item.readable item_example_pool id.
Proof.
  intros Hid. assert (id = 0%N ∨ id = 1%N ∨ id = 2%N) as [->|[->| ->]] by lia; by eexists.
Qed.
Lemma table_example_readable x p a : (∃ n, p = PInteger n) ∨ p = PNone → Item.step_readable item_example_pool (pack x p a None None 0).
Proof. intros [[n ->]| ->]; split; [eexists|exists None|exists None|eexists|exists None|exists None]; by destruct x as [[] ?], a as [[]|]. Qed.
Lemma table_example_ok : Item.grammar_ok item_example_pool table_example.
Proof.
  split; [|reflexivity].
  intros id Hid. pose proof (table_example_prods (N.of_nat id) ltac:(rewrite Nat2N.id; exact Hid)) as Hin.
  assert (∃ n, id = N.to_nat n ∧ n ∈ [0; 1; 2; 3; 4; 5; 6]%N) as (n & -> & Hn) by (exists (N.of_nat id); by rewrite Nat2N.id). clear Hin.
  listed Hn; (eexists; split; [reflexivity|]); repeat (apply Forall_cons; split; [apply table_example_readable; (by right) || (left; by eexists)|]); constructor.
Qed.
Lemma table_example_inputs : inputs_ok item_example_pool table_example 4 ∅ table_example_keys 2.
Proof.
  pose proof table_example_symbols as Hsy.
  split; [done|exact table_example_ok| | | |cbn; lia| | | |done].
  - destruct (Item.new_key_map_spec item_example_pool table_example table_example_ok (E:=Empty_set)) as (m & Hm & Hspec).
    unfold table_example_keys. by rewrite Hm.
  - done.
  - intros w [= <-]. split; [vm_compute; lia|by left].
  - intros v id x s Hid _ Hs. apply (var_ids_known _ _ Hsy), table_example_prods in Hid.
    listed Hid; vm_compute in Hs; simplify_eq; try (eexists; left; (split; [by left|reflexivity])).
    + exists (terminal 1). right. split; [done|split; [by left|]]. exists (pack (terminal 1) PNone None None None 0). split; [|done].
      exists 1%N. split; [|by exists 3%N; split; [vm_compute; set_solver|]].
      apply rtc_once. exists (pack (non_terminal 1) PNone None None None 0). split; [|done]. exists 6%N. split; [vm_compute; set_solver|done].
  - intros id s Hid%table_example_prods Hs. listed Hid; listed Hs; done.
  - intros v. unfold items_of, var_ids. destruct (N.to_nat v) as [|[|[|[|k]]]]; vm_compute; lia.
Qed.
Lemma table_example_auxiliary v : auxiliary table_example v → v = 3%N.
Proof.
  intros (x & Hx & Ha). destruct (N.to_nat v) as [|[|[|[|k]]]] eqn:Hv; [injection Hx as <-; done..|lia|done].
Qed.
Lemma table_example_table_inputs :
  table_inputs item_example_pool table_example table_example_lexical table_example_infos ∅ table_example_keys 2.
Proof.
  split; try done.
  - exact table_example_inputs.
  - intros v Hv. listed Hv; by apply example_readable.
  - intros v Hv. cbn in Hv. listed Hv; by apply example_readable.
  - by intros t ?%not_elem_of_nil.
  - by intros ?%table_example_auxiliary.
  - intros id Hid%table_example_prods (s & Hs & Hx). listed Hid; vm_compute in Hs; simplify_eq.
  - intros v id Hid [(s & Hs & Hx) _].
    apply (items_of_known item_example_pool table_example 4 ∅ table_example_keys 2 table_example_inputs), table_example_prods in Hid.
    listed Hid; vm_compute in Hs; simplify_eq.
  - split; [|done]. unfold inlined. by intros ?%not_elem_of_nil.
  - intros x Hx. listed Hx; (split; [vm_compute; lia|intros Hk]); [done|]. split; [by intros ?%table_example_auxiliary|].
    intros id Hid. vm_compute in Hid. listed Hid; done.
  - by intros c x ?%not_elem_of_nil.
  - split; [intros _; cbn; lia|]. intros id s Hid%table_example_prods Hs _. listed Hid; listed Hs; cbn; lia.
  - intros id d s w _ _ _ Hw. by apply not_elem_of_nil in Hw.
Qed.

(** Two extra rules with the same token: their state has no preceding symbols, and the
    difference [preceding_symbols.len() - item.step_index] of the report falls below
    0. *)
Definition extra_conflict_grammar : SyntaxGrammar :=
  let step x := pack x PNone None None None 0 in
  mkSyntaxGrammar [mkSyntaxVariable 1 Named; mkSyntaxVariable 2 Named; mkSyntaxVariable 1 Named; mkSyntaxVariable 2 Named]
    [non_terminal 2; non_terminal 3] [] [] [] [] None [] []
    [step (non_terminal 1); step (terminal 0); step (terminal 1); step (terminal 1)]
    [mkProduction 0 1 0 false; mkProduction 1 1 0 false; mkProduction 2 1 0 false; mkProduction 3 1 0 false]
    [(0, 1); (1, 2); (2, 3); (3, 4)]%N.
Definition extra_conflict : outcome ParseTableBuilderError ConflictError :=
  match Item.new_key_map (E:=ParseTableBuilderError) item_example_pool extra_conflict_grammar with
  | Ok keys =>
      ib ← builder_new (I:=list TokenSet) extra_conflict_grammar 2 ∅ keys 6 40;
      match build_parse_table item_example_pool extra_conflict_grammar (mkLexicalGrammar [] (replicate 2 (mkLexicalVariable 1 Named 0 0)))
              (replicate 4 no_info) ∅ keys 10 ib [] with
      | Err (Conflict e) => Ok e
      | _ => Panic
      end
  | _ => Panic
  end.
Example extra_conflict_underflows : match extra_conflict with
  | Ok e => symbol_sequence e = [] ∧ map int_step_index (possible_interpretations e) = [1; 1]%N
  | _ => False
  end.
Proof. vm_compute. done. Qed.

(** One production of the extra rule matches nothing: [initial_states] takes the first symbol of each production
    of an extra rule ([production.first_symbol().unwrap()]).  The check of [flatten_grammar] only
    asks for the rules that a step mentions. *)
Definition empty_extra_grammar : SyntaxGrammar :=
  let step x := pack x PNone None None None 0 in
  mkSyntaxGrammar [mkSyntaxVariable 1 Named; mkSyntaxVariable 2 Named] [non_terminal 1] [] [] [] [] None [] []
    [step (terminal 0); step (terminal 1)]
    [mkProduction 0 1 0 false; mkProduction 1 1 0 false; mkProduction 2 0 0 false] [(0, 1); (1, 3)]%N.
Example empty_extra_panics : match Item.new_key_map (E:=ParseTableBuilderError) item_example_pool empty_extra_grammar with
  | Ok keys =>
      match builder_new (E:=ParseTableBuilderError) (I:=list TokenSet) empty_extra_grammar 2 ∅ keys 6 40 with
      | Ok ib => initial_states item_example_pool empty_extra_grammar (mkLexicalGrammar [] (replicate 2 (mkLexicalVariable 1 Named 0 0))) keys
          (new_builder empty_extra_grammar ib) = Panic
      | _ => False
      end
  | _ => False
  end.
Proof. vm_compute. done. Qed.
