(* ===== verification/TokenConflicts.v ===== *)
(** * [build_tables/token_conflicts.rs] and [build_tables/coincident_tokens.rs]

    For each pair of tokens the conflict map walks the NFA from both start
    states and records how the tokens compete.  The bit matrices derived from
    the statuses are what the table builders query.  The hash of a state set is
    [rustc_hash]'s and an argument. *)
From S2P Require Import Prelude Symbols TokenSet CharSet Nfa Grammars Tables.

Notation out := (outcome Empty_set) (only parsing).

(** ** Status bits *)
Definition MATCHES_PREFIX : N := 1.
Definition DOES_MATCH_CONTINUATION : N := 2.
Definition DOES_MATCH_VALID_CONT : N := 4.
Definition DOES_MATCH_SEPARATORS : N := 8.
Definition MATCHES_SAME_STRING : N := 16.
Definition MATCHES_DIFFERENT_STRING : N := 32.

(** [bitflags]' [insert], [intersects] and [contains]. *)
Definition st_insert (s bits : N) : N := N.lor s bits.
Definition intersects (s bits : N) : bool := negb (N.land s bits =? 0)%N.
Definition st_contains (s bits : N) : bool := (N.land s bits =? bits)%N.

(** ** Preferences *)
Definition prefer_token (g : LexicalGrammar) (left_ right_ : Z * nat) : out bool :=
  match (left_.1 ?= right_.1)%Z with
  | Lt => Ok false
  | Gt => Ok true
  | Eq =>
      lv ← vec_get (lg_variables g) left_.2;
      rv ← vec_get (lg_variables g) right_.2;
      Ok (match (implicit_precedence lv ?= implicit_precedence rv)%Z with
          | Lt => false
          | Gt => true
          | Eq => left_.2 <? right_.2
          end)
  end.

Definition prefer_transition (g : LexicalGrammar) (t : NfaTransition) (completed_id : nat)
    (completed_precedence : Z) (has_separator_transitions : bool) : bool :=
  if (Nfa.precedence t <? completed_precedence)%Z then false
  else if (Nfa.precedence t =? completed_precedence)%Z then
    if is_separator t then false
    else if has_separator_transitions &&
            negb (existsb (λ i, Nat.eqb i completed_id) (variable_indices_for_nfa_states g (states t)))
    then false else true
  else true.

(** ** Characters *)
Fixpoint add_all_chars (all_chars : CharacterSet) (l : list (CharacterSet * bool)) : out CharacterSet :=
  match l with
  | [] => Ok all_chars
  | (chars, _) :: l => all_chars ← add all_chars chars; add_all_chars all_chars l
  end.
Fixpoint get_starting_chars (fuel : nat) (cursor : NfaCursor) (vs : list LexicalVariable) :
    out (list CharacterSet * NfaCursor) :=
  match vs with
  | [] => Ok ([], cursor)
  | v :: vs =>
      cursor ← reset fuel cursor [start_state v];
      ts ← transition_chars cursor;
      all_chars ← add_all_chars CharSet.empty ts;
      '(rest, cursor) ← get_starting_chars fuel cursor vs;
      Ok (all_chars :: rest, cursor)
  end.

Fixpoint add_following (starting_chars : list CharacterSet) (chars : CharacterSet) (tokens : list Symbol) :
    out CharacterSet :=
  match tokens with
  | [] => Ok chars
  | token :: tokens =>
      if is_terminal token then
        sc ← vec_get starting_chars (N.to_nat (index token));
        chars ← add chars sc;
        add_following starting_chars chars tokens
      else add_following starting_chars chars tokens
  end.
Fixpoint get_following_chars (starting_chars : list CharacterSet) (following_tokens : list TokenSet) :
    out (list CharacterSet) :=
  match following_tokens with
  | [] => Ok []
  | ft :: fts =>
      tokens ← iter ft;
      chars ← add_following starting_chars CharSet.empty tokens;
      rest ← get_following_chars starting_chars fts;
      Ok (chars :: rest)
  end.

(** ** The status of a pair of tokens *)
Section status.
Context (hash_state_set : list N → N) (grammar : LexicalGrammar)
  (following_chars : list CharacterSet) (nfa_state_to_var : list nat) (i j : nat).

(** [result.0] is token [i]'s status and [result.1] token [j]'s. *)
Definition mark_status (result : N * N) (id : nat) (bits : N) : N * N :=
  if Nat.eqb id i then (st_insert result.1 bits, result.2) else (result.1, st_insert result.2 bits).

(** [all(|&s| nfa_state_to_var[s] == first)]. *)
Fixpoint all_in_var (first : nat) (ss : list N) : out bool :=
  match ss with
  | [] => Ok true
  | s :: ss => v ← vec_get nfa_state_to_var (N.to_nat s); if Nat.eqb v first then all_in_var first ss else Ok false
  end.

(** The completions of the state; [sep] is what [within_separator] would be
    computed to. *)
Fixpoint completions_loop (sep : bool) (l : list (nat * Z)) (completion : option (nat * Z)) (result : N * N) :
    out (option (nat * Z) * (N * N)) :=
  match l with
  | [] => Ok (completion, result)
  | (id, prec) :: l =>
      let result := if sep then mark_status result id DOES_MATCH_SEPARATORS else result in
      match completion with
      | Some (prev_id, prev_precedence) =>
          if Nat.eqb id prev_id then completions_loop sep l completion result
          else
            b ← prefer_token grammar (prev_precedence, prev_id) (prec, id);
            let '(preferred_id, completion) :=
              if b : bool then (prev_id, completion) else (id, Some (id, prec)) in
            completions_loop sep l completion (mark_status result preferred_id MATCHES_SAME_STRING)
      | None => completions_loop sep l (Some (id, prec)) result
      end
  end.

(** The variables of the successor states. *)
Fixpoint successor_loop (completed_id : nat) (l : list N) (advanced_id prev_var : option nat) :
    out (option nat * bool) :=
  match l with
  | [] => Ok (advanced_id, false)
  | state_id :: l =>
      var_id ← vec_get nfa_state_to_var (N.to_nat state_id);
      if bool_decide (prev_var = Some var_id) then successor_loop completed_id l advanced_id prev_var
      else if Nat.eqb var_id completed_id then Ok (advanced_id, true)
      else successor_loop completed_id l (Some var_id) (Some var_id)
  end.

(** [can_advance] is [true] on every path of the source. *)
Definition transition_status (within_separator : option bool) (completion : option (nat * Z))
    (t : NfaTransition) (result : N * N) : out (N * N) :=
  match completion with
  | None => Ok result
  | Some (completed_id, completed_precedence) =>
      '(advanced_id, contains_completed) ← successor_loop completed_id (states t) None None;
      match advanced_id, contains_completed with
      | Some advanced_id, false =>
          if prefer_transition grammar t completed_id completed_precedence (default false within_separator) then
            let result := mark_status result advanced_id DOES_MATCH_CONTINUATION in
            fc ← vec_get following_chars (if Nat.eqb advanced_id i then j else i);
            b ← does_intersect (characters t) fc;
            Ok (if b : bool then mark_status result advanced_id DOES_MATCH_VALID_CONT else result)
          else Ok (mark_status result completed_id MATCHES_PREFIX)
      | _, _ => Ok result
      end
  end.

Fixpoint transitions_loop (within_separator : option bool) (completion : option (nat * Z))
    (ts : list NfaTransition) (visited : gset N) (queue : list (list N)) (result : N * N) :
    out (gset N * list (list N) * (N * N)) :=
  match ts with
  | [] => Ok (visited, queue, result)
  | t :: ts =>
      result ← transition_status within_separator completion t result;
      let h := hash_state_set (states t) in
      if bool_decide (h ∈ visited)
      then transitions_loop within_separator completion ts visited queue result
      else transitions_loop within_separator completion ts ({[h]} ∪ visited) (states t :: queue) result
  end.

(** The walk; the queue is a stack whose head is its top. *)
Fixpoint conflict_loop (fuel : nat) (n : nat) (cursor : NfaCursor) (visited : gset N)
    (queue : list (list N)) (result : N * N) : out (N * N * NfaCursor) :=
  match queue with
  | [] => Ok (result, cursor)
  | state_set :: queue =>
      match n with
      | O => OutOfFuel
      | S n =>
          s0 ← vec_get state_set 0;
          first_live ← vec_get nfa_state_to_var (N.to_nat s0);
          all_same ← all_in_var first_live state_set;
          if all_same : bool then
            conflict_loop fuel n cursor visited queue (mark_status result first_live MATCHES_DIFFERENT_STRING)
          else
            cursor ← reset fuel cursor state_set;
            comps ← completions cursor;
            chars ← transition_chars cursor;
            let sep := existsb snd chars in
            let within_separator := match comps with [] => None | _ => Some sep end in
            '(completion, result) ← completions_loop sep comps None result;
            ts ← transitions cursor;
            '(visited, queue, result) ← transitions_loop within_separator completion ts visited queue result;
            conflict_loop fuel n cursor visited queue result
      end
  end.
End status.

Definition compute_conflict_status (hash_state_set : list N → N) (fuel n : nat) (cursor : NfaCursor)
    (grammar : LexicalGrammar) (following_chars : list CharacterSet) (nfa_state_to_var : list nat) (i j : nat) :
    out (N * N * NfaCursor) :=
  vi ← vec_get (lg_variables grammar) i;
  vj ← vec_get (lg_variables grammar) j;
  conflict_loop hash_state_set grammar following_chars nfa_state_to_var i j fuel n cursor ∅
    [[start_state vi; start_state vj]] (0%N, 0%N).

(** ** The map *)
Record TokenConflictMap := mkTokenConflictMap {
  tc_n : nat;
  status_matrix : list N;
  following_tokens : list TokenSet;
  starting_chars_by_index : list CharacterSet;
  following_chars_by_index : list CharacterSet;
  conflict_or_prefix_bits : list N;
  overlap_either_bits : list N;
  row_words : nat;
}.

Definition matrix_index (variable_count i j : nat) : nat := variable_count * i + j.

(** [div_ceil(64)]. *)
Definition div_ceil_64 (n : nat) : nat := Nat.div (n + 63) 64.

Definition conflict_mask : N :=
  N.lor (N.lor (N.lor DOES_MATCH_VALID_CONT DOES_MATCH_SEPARATORS) MATCHES_SAME_STRING) MATCHES_PREFIX.
Definition overlap_mask : N :=
  N.lor (N.lor (N.lor DOES_MATCH_SEPARATORS MATCHES_PREFIX) MATCHES_SAME_STRING) DOES_MATCH_CONTINUATION.

(** The pairs [(i, j)] with [j < i], in the order of the two loops. *)
Definition lower_pairs (n : nat) : list (nat * nat) :=
  concat (map (λ i, map (λ j, (i, j)) (seq 0 i)) (seq 0 n)).
Fixpoint fill_matrix (status : NfaCursor → nat → nat → out (N * N * NfaCursor)) (n : nat) (cursor : NfaCursor)
    (matrix : list N) (pairs : list (nat * nat)) : out (list N) :=
  match pairs with
  | [] => Ok matrix
  | (i, j) :: pairs =>
      '(s, cursor) ← status cursor i j;
      matrix ← vec_set matrix (matrix_index n i j) s.1;
      matrix ← vec_set matrix (matrix_index n j i) s.2;
      fill_matrix status n cursor matrix pairs
  end.

(** [bits[row_base + j / 64] |= 1 << (j % 64)]. *)
Definition set_row_bit (bits : list N) (row_words i j : nat) : out (list N) :=
  let k := i * row_words + Nat.div j 64 in
  w ← vec_get bits k;
  vec_set bits k (N.lor w (N.shiftl 1 (N.of_nat (Nat.modulo j 64)))).

Fixpoint fill_rows (p : nat → nat → out bool) (row_words : nat) (bits : list N) (pairs : list (nat * nat)) :
    out (list N) :=
  match pairs with
  | [] => Ok bits
  | (i, j) :: pairs =>
      b ← p i j;
      bits ← (if b : bool then set_row_bit bits row_words i j else Ok bits);
      fill_rows p row_words bits pairs
  end.
Definition all_pairs (n : nat) : list (nat * nat) := list_prod (seq 0 n) (seq 0 n).

Definition entry (matrix : list N) (n i j : nat) : out N := vec_get matrix (matrix_index n i j).
Definition is_conflict_or_prefix (matrix : list N) (n i j : nat) : out bool :=
  e ← entry matrix n i j; Ok (intersects e conflict_mask).
Definition is_overlap_either (matrix : list N) (n i j : nat) : out bool :=
  ij ← entry matrix n i j; ji ← entry matrix n j i; Ok (intersects ij overlap_mask || intersects ji overlap_mask).

(** The two matrices of rows. *)
Definition conflict_rows (matrix : list N) (n : nat) : out (list N) :=
  fill_rows (is_conflict_or_prefix matrix n) (div_ceil_64 n) (replicate (n * div_ceil_64 n) 0%N) (all_pairs n).
Definition overlap_rows (matrix : list N) (n : nat) : out (list N) :=
  fill_rows (is_overlap_either matrix n) (div_ceil_64 n) (replicate (n * div_ceil_64 n) 0%N) (all_pairs n).

Definition new_map (hash_state_set : list N → N) (fuel steps : nat) (grammar : LexicalGrammar)
    (following_tokens : list TokenSet) : out TokenConflictMap :=
  cursor ← Nfa.new fuel (lg_nfa grammar) [];
  '(starting_chars, cursor) ← get_starting_chars fuel cursor (lg_variables grammar);
  following_chars ← get_following_chars starting_chars following_tokens;
  let nfa_state_to_var :=
    map (λ id, variable_index_for_nfa_state grammar (as_u32 id)) (seq 0 (length (lg_nfa grammar))) in
  let n := length (lg_variables grammar) in
  matrix ← fill_matrix
             (λ cursor i j, compute_conflict_status hash_state_set fuel steps cursor grammar following_chars
                              nfa_state_to_var i j)
             n cursor (replicate (n * n) 0%N) (lower_pairs n);
  conflict_bits ← conflict_rows matrix n;
  overlap_bits ← overlap_rows matrix n;
  Ok (mkTokenConflictMap n matrix following_tokens starting_chars following_chars conflict_bits overlap_bits
        (div_ceil_64 n)).

(** ** Queries *)
Definition tc_entry (m : TokenConflictMap) (i j : nat) : out N := entry (status_matrix m) (tc_n m) i j.
Definition has_same_conflict_status (m : TokenConflictMap) (a b other : nat) : out bool :=
  l ← tc_entry m a other; r ← tc_entry m b other; Ok (l =? r)%N.
Definition does_match_different_string (m : TokenConflictMap) (i j : nat) : out bool :=
  e ← tc_entry m i j; Ok (st_contains e MATCHES_DIFFERENT_STRING).
Definition does_match_same_string (m : TokenConflictMap) (i j : nat) : out bool :=
  e ← tc_entry m i j; Ok (st_contains e MATCHES_SAME_STRING).
Definition does_conflict (m : TokenConflictMap) (i j : nat) : out bool :=
  e ← tc_entry m i j;
  Ok (intersects e (N.lor (N.lor DOES_MATCH_VALID_CONT DOES_MATCH_SEPARATORS) MATCHES_SAME_STRING)).
Definition does_match_prefix (m : TokenConflictMap) (i j : nat) : out bool :=
  e ← tc_entry m i j; Ok (st_contains e MATCHES_PREFIX).
Definition does_match_shorter_or_longer (m : TokenConflictMap) (i j : nat) : out bool :=
  e ← tc_entry m i j;
  r ← tc_entry m j i;
  Ok (intersects e (N.lor DOES_MATCH_VALID_CONT DOES_MATCH_SEPARATORS) && negb (st_contains r DOES_MATCH_SEPARATORS)).
Definition does_overlap (m : TokenConflictMap) (i j : nat) : out bool :=
  e ← tc_entry m i j; Ok (intersects e overlap_mask).

(** ** Coincident tokens *)
Record CoincidentTokenIndex := mkCoincident {
  contains_bits : list N;
  without_word_bits : list N;
  row_bits : list N;
  ci_n : nat;
}.

Definition or_bit (bits : list N) (k : nat) : out (list N) :=
  w ← vec_get bits (Nat.div k 64);
  vec_set bits (Nat.div k 64) (N.lor w (N.shiftl 1 (N.of_nat (Nat.modulo k 64)))).
Definition test_bit (bits : list N) (k : nat) : out bool :=
  w ← vec_get bits (Nat.div k 64);
  Ok (negb (N.land w (N.shiftl 1 (N.of_nat (Nat.modulo k 64))) =? 0)%N).

(** The body of the two loops, for the pair [(a, b)]. *)
Definition record_pair (has_word : bool) (row_words : nat) (r : CoincidentTokenIndex) (a b : nat) :
    out CoincidentTokenIndex :=
  let n := ci_n r in
  let ab := a * n + b in
  let ba := b * n + a in
  cb ← or_bit (contains_bits r) ab;
  cb ← or_bit cb ba;
  wb ← (if has_word then Ok (without_word_bits r)
        else wb ← or_bit (without_word_bits r) ab; or_bit wb ba);
  rb ← set_row_bit (row_bits r) row_words a b;
  rb ← set_row_bit rb row_words b a;
  Ok (mkCoincident cb wb rb n).
Fixpoint record_from (has_word : bool) (row_words : nat) (r : CoincidentTokenIndex) (a : nat) (bs : list nat) :
    out CoincidentTokenIndex :=
  match bs with
  | [] => Ok r
  | b :: bs => r ← record_pair has_word row_words r a b; record_from has_word row_words r a bs
  end.
(** [for (i, &a) in indices.enumerate() { for &b in &indices[i..] .. }]. *)
Fixpoint record_state (has_word : bool) (row_words : nat) (r : CoincidentTokenIndex) (indices : list nat) :
    out CoincidentTokenIndex :=
  match indices with
  | [] => Ok r
  | a :: rest => r ← record_from has_word row_words r a indices; record_state has_word row_words r rest
  end.
Fixpoint record_states {T} (word_token : option Symbol) (row_words : nat) (r : CoincidentTokenIndex)
    (ss : list (ParseState T)) : out CoincidentTokenIndex :=
  match ss with
  | [] => Ok r
  | s :: ss =>
      let terminal_indices :=
        map (λ e, N.to_nat (index (fst e))) (List.filter (λ e, is_terminal (fst e)) (terminal_entries s)) in
      let has_word := match word_token with
                      | Some w => match im_get w (terminal_entries s) with Some _ => true | None => false end
                      | None => false
                      end in
      r ← record_state has_word row_words r terminal_indices;
      record_states word_token row_words r ss
  end.
Definition coincident_new {T} (table : ParseTable T) (g : LexicalGrammar) (word_token : option Symbol) :
    out CoincidentTokenIndex :=
  let n := length (lg_variables g) in
  let row_words := div_ceil_64 n in
  record_states word_token row_words
    (mkCoincident (replicate (div_ceil_64 (n * n)) 0%N) (replicate (div_ceil_64 (n * n)) 0%N)
       (replicate (n * row_words) 0%N) n) (pt_states table).
Definition all_coincident_states_have_word (r : CoincidentTokenIndex) (a b : Symbol) : out bool :=
  t ← test_bit (without_word_bits r) (N.to_nat (index a) * ci_n r + N.to_nat (index b)); Ok (negb t).
Definition coincident_contains (r : CoincidentTokenIndex) (a b : Symbol) : out bool :=
  test_bit (contains_bits r) (N.to_nat (index a) * ci_n r + N.to_nat (index b)).

(** ** Bit matrices *)

(** Bit [k] of a vector of words. *)
Definition fbit (bits : list N) (k : nat) : bool :=
  N.testbit (default 0%N (bits !! Nat.div k 64)) (N.of_nat (Nat.modulo k 64)).

Lemma testbit_or_one w b b' : N.testbit (N.lor w (N.shiftl 1 b)) b' = N.testbit w b' || (b =? b')%N.
Proof.
  rewrite N.lor_spec, N.shiftl_1_l, N.pow2_bits_eqb. done.
Qed.

Lemma or_bit_spec bits k :
  Nat.div k 64 < length bits →
  ∃ bits', or_bit bits k = Ok bits' ∧ length bits' = length bits ∧
    ∀ k', fbit bits' k' = fbit bits k' || bool_decide (k' = k).
Proof.
  intros Hk. unfold or_bit. destruct (lookup_lt_is_Some_2 bits _ Hk) as [w Hw].
  rewrite (vec_get_Some _ _ _ Hw). cbn [mbind outcome_bind]. rewrite vec_set_lt by done.
  eexists. split; [done|]. split; [by rewrite length_insert|]. intros k'. unfold fbit.
  destruct (decide (Nat.div k' 64 = Nat.div k 64)) as [Heq|Hne].
  - rewrite Heq, list_lookup_insert_eq, Hw by done. cbn [default from_option]. unfold id.
    rewrite testbit_or_one. f_equal. pose proof (Nat.div_mod_eq k 64). pose proof (Nat.div_mod_eq k' 64).
    case N.eqb_spec; intros; case_bool_decide; try done; lia.
  - rewrite list_lookup_insert_ne by done. case_bool_decide as Hkk; [by subst|]. by rewrite orb_false_r.
Qed.

Lemma test_bit_spec bits k : Nat.div k 64 < length bits → test_bit bits k = Ok (fbit bits k).
Proof.
  intros Hk. unfold test_bit, fbit. destruct (lookup_lt_is_Some_2 bits _ Hk) as [w Hw].
  rewrite (vec_get_Some _ _ _ Hw). cbn [mbind outcome_bind]. f_equal. rewrite Hw. cbn [default from_option]. unfold id.
  set (b := N.of_nat (Nat.modulo k 64)). destruct (N.testbit w b) eqn:Hb.
  - case N.eqb_spec; [|done]. intros H0. assert (N.testbit (N.land w (N.shiftl 1 b)) b = false) as Hf by by rewrite H0, N.bits_0.
    rewrite N.land_spec, Hb, N.shiftl_1_l, N.pow2_bits_true in Hf. done.
  - case N.eqb_spec; [done|]. intros H0. exfalso. apply H0. apply N.bits_inj. intros b'.
    rewrite N.land_spec, N.bits_0, N.shiftl_1_l, N.pow2_bits_eqb. case N.eqb_spec; [intros <-; by rewrite Hb|].
    by rewrite andb_false_r.
Qed.

(** The rows are word-aligned: bit [j] of row [i] is bit [64 * row_words * i + j]. *)
Definition row_index (row_words i j : nat) : nat := i * row_words * 64 + j.
Lemma row_index_div rw i j : Nat.div (row_index rw i j) 64 = i * rw + Nat.div j 64.
Proof. unfold row_index. rewrite Nat.add_comm, Nat.div_add by lia. lia. Qed.
Lemma set_row_bit_or_bit bits rw i j : set_row_bit bits rw i j = or_bit bits (row_index rw i j).
Proof.
  unfold set_row_bit, or_bit. rewrite row_index_div. unfold row_index.
  rewrite (Nat.add_comm _ j), Nat.Div0.mod_add. done.
Qed.
Definition row_bit (bits : list N) (rw i j : nat) : bool := fbit bits (row_index rw i j).

Lemma div_ceil_64_spec n : n ≤ div_ceil_64 n * 64.
Proof. unfold div_ceil_64. pose proof (Nat.div_mod_eq (n + 63) 64). pose proof (Nat.mod_upper_bound (n + 63) 64). lia. Qed.
Lemma row_index_inj n i j i' j' :
  j < n → j' < n → row_index (div_ceil_64 n) i j = row_index (div_ceil_64 n) i' j' → i = i' ∧ j = j'.
Proof.
  unfold row_index. pose proof (div_ceil_64_spec n). intros Hj Hj' Heq.
  apply (Nat.div_mod_unique (div_ceil_64 n * 64)); lia.
Qed.
Lemma row_index_lt n i j : i < n → j < n → Nat.div (row_index (div_ceil_64 n) i j) 64 < n * div_ceil_64 n.
Proof.
  intros Hi Hj. rewrite row_index_div. pose proof (div_ceil_64_spec n).
  assert (Nat.div j 64 < div_ceil_64 n) by (apply Nat.Div0.div_lt_upper_bound; lia). nia.
Qed.

Lemma fbit_replicate m k : fbit (replicate m 0%N) k = false.
Proof.
  unfold fbit. destruct (replicate m 0%N !! Nat.div k 64) as [w|] eqn:Hw; cbn.
  - apply lookup_replicate in Hw as [-> _]. by rewrite N.bits_0.
  - done.
Qed.

Lemma fill_rows_spec (p : nat → nat → out bool) (q : nat → nat → bool) n bits pairs :
  length bits = n * div_ceil_64 n →
  Forall (λ '(i, j), i < n ∧ j < n ∧ p i j = Ok (q i j)) pairs →
  ∃ bits', fill_rows p (div_ceil_64 n) bits pairs = Ok bits' ∧ length bits' = length bits ∧
    ∀ i j, i < n → j < n →
      row_bit bits' (div_ceil_64 n) i j = row_bit bits (div_ceil_64 n) i j || bool_decide ((i, j) ∈ pairs) && q i j.
Proof.
  revert bits. induction pairs as [|[a b] pairs IH]; intros bits Hlen Hp.
  { exists bits. split; [done|]. split; [done|]. intros. rewrite bool_decide_eq_false_2 by apply not_elem_of_nil.
    by rewrite orb_false_r. }
  apply Forall_cons in Hp as [(Ha & Hb & Hab) Hp]. cbn [fill_rows]. rewrite Hab. cbn [mbind outcome_bind].
  assert (∃ bits1, (if q a b then set_row_bit bits (div_ceil_64 n) a b else Ok bits) = Ok bits1 ∧
    length bits1 = length bits ∧ ∀ k, fbit bits1 k = fbit bits k || (q a b && bool_decide (k = row_index (div_ceil_64 n) a b)))
    as (bits1 & -> & Hl1 & Hx1).
  { destruct (q a b); [|by exists bits; split_and?; [| |intros; rewrite orb_false_r]].
    rewrite set_row_bit_or_bit. apply or_bit_spec. rewrite Hlen. by apply row_index_lt. }
  cbn [mbind outcome_bind]. destruct (IH bits1) as (bits' & -> & Hl' & Hx'); [lia|done|].
  exists bits'. split; [done|]. split; [lia|]. intros i j Hi Hj. rewrite Hx' by done. unfold row_bit. rewrite Hx1, <- orb_assoc.
  f_equal. destruct (decide ((i, j) = (a, b))) as [[= -> ->]|Hne].
  - rewrite (bool_decide_eq_true_2 (row_index _ _ _ = _)) by done.
    rewrite (bool_decide_eq_true_2 (_ ∈ _ :: _)) by apply list_elem_of_here. rewrite andb_true_r. cbn.
    by destruct (q a b), (bool_decide _).
  - rewrite (bool_decide_eq_false_2 (row_index _ _ _ = _)), andb_false_r.
    2: { intros Heq. apply row_index_inj in Heq as [-> ->]; done. }
    cbn [orb]. f_equal. apply bool_decide_ext. rewrite elem_of_cons. naive_solver.
Qed.

Lemma all_pairs_elem n i j : (i, j) ∈ all_pairs n ↔ i < n ∧ j < n.
Proof. unfold all_pairs. rewrite list_elem_of_In, in_prod_iff, !in_seq. lia. Qed.

Lemma matrix_entry n matrix i j :
  length matrix = n * n → i < n → j < n → ∃ e, entry matrix n i j = Ok e.
Proof.
  intros Hlen Hi Hj. unfold entry, matrix_index.
  destruct (lookup_lt_is_Some_2 matrix (n * i + j)) as [e He]; [rewrite Hlen; nia|]. exists e. by apply vec_get_Some.
Qed.

Lemma rows_spec n (p : nat → nat → out bool) :
  (∀ i j, i < n → j < n → ∃ b, p i j = Ok b) →
  ∃ bits, fill_rows p (div_ceil_64 n) (replicate (n * div_ceil_64 n) 0%N) (all_pairs n) = Ok bits ∧
    ∀ i j, i < n → j < n → p i j = Ok (row_bit bits (div_ceil_64 n) i j).
Proof.
  intros Hp. set (q := λ i j, match p i j with Ok b => b | _ => false end).
  destruct (fill_rows_spec p q n (replicate (n * div_ceil_64 n) 0%N) (all_pairs n)) as (bits & Heq & _ & Hx).
  - by rewrite length_replicate.
  - apply Forall_forall. intros [i j] Hij. apply all_pairs_elem in Hij as [Hi Hj]. split_and?; [done|done|].
    unfold q. by destruct (Hp i j Hi Hj) as [b ->].
  - exists bits. split; [done|]. intros i j Hi Hj. rewrite (Hx i j Hi Hj).
    rewrite bool_decide_eq_true_2 by by apply all_pairs_elem. unfold row_bit at 1. rewrite fbit_replicate. cbn.
    unfold q. by destruct (Hp i j Hi Hj) as [b ->].
Qed.

Lemma intersects_or e a b : intersects e (N.lor a b) = intersects e a || intersects e b.
Proof.
  unfold intersects. rewrite N.land_lor_distr_r.
  case (N.eqb_spec (N.land e a) 0); intros Ha; case (N.eqb_spec (N.land e b) 0); intros Hb; cbn;
    case N.eqb_spec; intros Hab; cbn; try done; exfalso.
  - by rewrite Ha, Hb in Hab.
  - by apply N.lor_eq_0_iff in Hab as [].
  - by apply N.lor_eq_0_iff in Hab as [].
  - by apply N.lor_eq_0_iff in Hab as [].
Qed.
(** For the single bit [MATCHES_PREFIX], [intersects] and [contains] agree. *)
Lemma intersects_prefix e :
  intersects e conflict_mask =
  intersects e (N.lor (N.lor DOES_MATCH_VALID_CONT DOES_MATCH_SEPARATORS) MATCHES_SAME_STRING) ||
  st_contains e MATCHES_PREFIX.
Proof.
  unfold conflict_mask. rewrite intersects_or. f_equal. unfold intersects, st_contains, MATCHES_PREFIX.
  destruct e as [|[p|p|]]; reflexivity.
Qed.

(** C32: the two matrices of rows are the statuses queried by the table
    builders: bit [j] of row [i] of the first one is set exactly when token [i]
    conflicts with token [j] or matches a prefix of it, and of the second one
    exactly when the two tokens overlap in either direction; no access is out
    of bounds. *)
Theorem conflict_rows_correct (n : nat) (matrix : list N) :
  length matrix = n * n →
  ∃ cb ob, conflict_rows matrix n = Ok cb ∧ overlap_rows matrix n = Ok ob ∧
    ∀ fs ss fc i j, i < n → j < n →
      let m := mkTokenConflictMap n matrix fs ss fc cb ob (div_ceil_64 n) in
      (∃ c p, does_conflict m i j = Ok c ∧ does_match_prefix m i j = Ok p ∧
        row_bit cb (div_ceil_64 n) i j = c || p) ∧
      (∃ o1 o2, does_overlap m i j = Ok o1 ∧ does_overlap m j i = Ok o2 ∧
        row_bit ob (div_ceil_64 n) i j = o1 || o2).
Proof.
  intros Hlen. unfold conflict_rows, overlap_rows.
  destruct (rows_spec n (is_conflict_or_prefix matrix n)) as (cb & -> & Hcb).
  { intros i j Hi Hj. unfold is_conflict_or_prefix. destruct (matrix_entry n matrix i j) as [e ->]; [done..|]. by eexists. }
  destruct (rows_spec n (is_overlap_either matrix n)) as (ob & -> & Hob).
  { intros i j Hi Hj. unfold is_overlap_either. destruct (matrix_entry n matrix i j) as [e ->]; [done..|].
    destruct (matrix_entry n matrix j i) as [e' ->]; [done..|]. by eexists. }
  exists cb, ob. split; [done|]. split; [done|]. intros fs ss fc i j Hi Hj.
  specialize (Hcb i j Hi Hj). specialize (Hob i j Hi Hj).
  unfold is_conflict_or_prefix in Hcb. unfold is_overlap_either in Hob.
  destruct (matrix_entry n matrix i j) as [e He]; [done..|]. destruct (matrix_entry n matrix j i) as [e' He']; [done..|].
  rewrite He in Hcb, Hob. rewrite He' in Hob. cbn [mbind outcome_bind] in Hcb, Hob. injection Hcb as Hcb. injection Hob as Hob.
  unfold does_conflict, does_match_prefix, does_overlap, tc_entry. cbn [status_matrix tc_n]. rewrite He, He'.
  cbn [mbind outcome_bind]. split.
  - do 2 eexists. split; [done|]. split; [done|]. rewrite <- Hcb. apply intersects_prefix.
  - do 2 eexists. split; [done|]. split; [done|]. done.
Qed.

(** ** The index of coincident tokens *)
Fixpoint state_pairs (l : list nat) : list (nat * nat) :=
  match l with [] => [] | a :: rest => map (λ b, (a, b)) l ++ state_pairs rest end.

Lemma state_pairs_elem l a b : (a, b) ∈ state_pairs l ∨ (b, a) ∈ state_pairs l ↔ a ∈ l ∧ b ∈ l.
Proof.
  induction l as [|c l IH]; [cbn; rewrite !elem_of_nil; tauto|].
  cbn [state_pairs]. rewrite !elem_of_app, !elem_of_cons.
  assert (∀ x y, (x, y) ∈ map (λ b, (c, b)) (c :: l) ↔ x = c ∧ (y = c ∨ y ∈ l)) as Hm.
  { intros x y. rewrite list_elem_of_fmap. setoid_rewrite elem_of_cons. split; [by intros (? & [= -> ->] & ?)|].
    intros [-> ?]. by exists y. }
  rewrite !Hm. tauto.
Qed.
Lemma state_pairs_incl l a b : (a, b) ∈ state_pairs l → a ∈ l ∧ b ∈ l.
Proof. intros H. apply state_pairs_elem. by left. Qed.

(** The state of the index after the pairs [ps], [ws] of them without the
    word token. *)
Definition ci_ok (n : nat) (ps ws : list (nat * nat)) (r : CoincidentTokenIndex) : Prop :=
  ci_n r = n ∧ length (contains_bits r) = div_ceil_64 (n * n) ∧
  length (without_word_bits r) = div_ceil_64 (n * n) ∧ length (row_bits r) = n * div_ceil_64 n ∧
  (∀ a b, a < n → b < n →
    (fbit (contains_bits r) (a * n + b) = true ↔ (a, b) ∈ ps ∨ (b, a) ∈ ps) ∧
    (fbit (without_word_bits r) (a * n + b) = true ↔ (a, b) ∈ ws ∨ (b, a) ∈ ws) ∧
    (row_bit (row_bits r) (div_ceil_64 n) a b = true ↔ (a, b) ∈ ps ∨ (b, a) ∈ ps)).

Lemma flat_lt n a b : a < n → b < n → Nat.div (a * n + b) 64 < div_ceil_64 (n * n).
Proof. intros. pose proof (div_ceil_64_spec (n * n)). apply Nat.Div0.div_lt_upper_bound. nia. Qed.
Lemma flat_inj n a b a' b' : b < n → b' < n → a * n + b = a' * n + b' ↔ (a, b) = (a', b').
Proof.
  intros Hb Hb'. split; [|by intros [= -> ->]]. intros Heq.
  destruct (Nat.div_mod_unique n a a' b b') as [-> ->]; [done..|lia|done].
Qed.

Lemma or_flat_spec n bits ps a b :
  length bits = div_ceil_64 (n * n) → a < n → b < n →
  (∀ x y, x < n → y < n → fbit bits (x * n + y) = true ↔ (x, y) ∈ ps ∨ (y, x) ∈ ps) →
  ∃ bits1 bits2, or_bit bits (a * n + b) = Ok bits1 ∧ or_bit bits1 (b * n + a) = Ok bits2 ∧
    length bits2 = div_ceil_64 (n * n) ∧
    (∀ x y, x < n → y < n → fbit bits2 (x * n + y) = true ↔ (x, y) ∈ (a, b) :: ps ∨ (y, x) ∈ (a, b) :: ps).
Proof.
  intros Hlen Ha Hb H. destruct (or_bit_spec bits (a * n + b)) as (b1 & H1 & L1 & X1); [rewrite Hlen; by apply flat_lt|].
  destruct (or_bit_spec b1 (b * n + a)) as (b2 & H2 & L2 & X2); [rewrite L1, Hlen; by apply flat_lt|].
  exists b1, b2. split_and?; [done|done|congruence|]. intros x y Hx Hy.
  rewrite X2, X1, !orb_true_iff, !bool_decide_eq_true, H, !flat_inj, !elem_of_cons by done.
  intuition congruence.
Qed.
Lemma or_row_spec n bits ps a b :
  length bits = n * div_ceil_64 n → a < n → b < n →
  (∀ x y, x < n → y < n → row_bit bits (div_ceil_64 n) x y = true ↔ (x, y) ∈ ps ∨ (y, x) ∈ ps) →
  ∃ bits1 bits2, set_row_bit bits (div_ceil_64 n) a b = Ok bits1 ∧ set_row_bit bits1 (div_ceil_64 n) b a = Ok bits2 ∧
    length bits2 = n * div_ceil_64 n ∧
    (∀ x y, x < n → y < n → row_bit bits2 (div_ceil_64 n) x y = true ↔ (x, y) ∈ (a, b) :: ps ∨ (y, x) ∈ (a, b) :: ps).
Proof.
  intros Hlen Ha Hb H. setoid_rewrite set_row_bit_or_bit.
  destruct (or_bit_spec bits (row_index (div_ceil_64 n) a b)) as (b1 & H1 & L1 & X1); [rewrite Hlen; by apply row_index_lt|].
  destruct (or_bit_spec b1 (row_index (div_ceil_64 n) b a)) as (b2 & H2 & L2 & X2); [rewrite L1, Hlen; by apply row_index_lt|].
  exists b1, b2. split_and?; [done|done|congruence|]. intros x y Hx Hy. unfold row_bit in *.
  rewrite X2, X1, !orb_true_iff, !bool_decide_eq_true, H, !elem_of_cons by done.
  assert (∀ u v, u < n → v < n → row_index (div_ceil_64 n) x y = row_index (div_ceil_64 n) u v ↔ (x, y) = (u, v)) as Hinj.
  { intros u v Hu Hv. split; [|by intros [= -> ->]]. by intros [-> ->]%row_index_inj. }
  rewrite !Hinj by done. intuition congruence.
Qed.

Lemma record_pair_spec hw n ps ws r a b :
  ci_ok n ps ws r → a < n → b < n →
  ∃ r', record_pair hw (div_ceil_64 n) r a b = Ok r' ∧
    ci_ok n ((a, b) :: ps) (if hw then ws else (a, b) :: ws) r'.
Proof.
  intros (Hn & Lc & Lw & Lr & H) Ha Hb. unfold record_pair. rewrite Hn.
  destruct (or_flat_spec n (contains_bits r) ps a b) as (c1 & c2 & -> & Hc2 & Lc' & Xc); [done..|naive_solver|].
  cbn [mbind outcome_bind]. rewrite Hc2. cbn [mbind outcome_bind].
  destruct (or_flat_spec n (without_word_bits r) ws a b) as (w1 & w2 & Hw1 & Hw2 & Lw' & Xw); [done..|naive_solver|].
  destruct (or_row_spec n (row_bits r) ps a b) as (r1 & r2 & Hr1 & Hr2 & Lr' & Xr); [done..|naive_solver|].
  rewrite Hw1. cbn [mbind outcome_bind]. rewrite Hw2. destruct hw; cbn [mbind outcome_bind]; rewrite Hr1;
    cbn [mbind outcome_bind]; rewrite Hr2; eexists; (split; [done|]); unfold ci_ok;
    cbn [ci_n contains_bits without_word_bits row_bits]; (split_and?; [done..|]); intros x y Hx Hy; (split; [by apply Xc|]);
    (split; [|by apply Xr]); [by apply H|by apply Xw].
Qed.

(** [ci_ok] only depends on the sets of pairs. *)
Lemma ci_ok_ext n ps ps' ws ws' r :
  (∀ p, p ∈ ps ↔ p ∈ ps') → (∀ p, p ∈ ws ↔ p ∈ ws') → ci_ok n ps ws r → ci_ok n ps' ws' r.
Proof.
  intros Hp Hw (Hn & Lc & Lw & Lr & H). unfold ci_ok. split_and?; try done. intros a b Ha Hb. destruct (H a b Ha Hb) as (H1 & H2 & H3).
  rewrite <- !Hp, <- !Hw. done.
Qed.

Lemma record_from_spec hw n a bs : ∀ ps ws r,
  ci_ok n ps ws r → a < n → Forall (λ b, b < n) bs →
  ∃ r', record_from hw (div_ceil_64 n) r a bs = Ok r' ∧
    ci_ok n (map (λ b, (a, b)) bs ++ ps) (if hw then ws else map (λ b, (a, b)) bs ++ ws) r'.
Proof.
  induction bs as [|b bs IH]; intros ps ws r Hr Ha Hbs; cbn [record_from map app].
  { exists r. split; [done|]. by destruct hw. }
  apply Forall_cons in Hbs as [Hb Hbs]. destruct (record_pair_spec hw n ps ws r a b Hr Ha Hb) as (r1 & -> & H1).
  cbn [mbind outcome_bind]. destruct (IH _ _ _ H1 Ha Hbs) as (r' & -> & H'). exists r'. split; [done|].
  revert H'. apply ci_ok_ext; intros p; destruct hw; rewrite ?elem_of_app, ?elem_of_cons, ?elem_of_app; tauto.
Qed.

Lemma record_state_spec hw n l : ∀ ps ws r,
  ci_ok n ps ws r → Forall (λ b, b < n) l →
  ∃ r', record_state hw (div_ceil_64 n) r l = Ok r' ∧
    ci_ok n (state_pairs l ++ ps) (if hw then ws else state_pairs l ++ ws) r'.
Proof.
  induction l as [|a l IH]; intros ps ws r Hr Hl.
  { exists r. split; [done|]. by destruct hw. }
  pose proof Hl as [Ha Hl']%Forall_cons. cbn [record_state state_pairs].
  destruct (record_from_spec hw n a (a :: l) ps ws r Hr Ha Hl) as (r1 & -> & H1). cbn [mbind outcome_bind].
  destruct (IH _ _ _ H1 Hl') as (r' & -> & H'). exists r'. split; [done|].
  revert H'. apply ci_ok_ext; intros p; destruct hw; rewrite ?elem_of_app; tauto.
Qed.

(** The terminals with an action in a parse state, and whether the word token
    is one of them. *)
Definition state_terminals {T} (s : ParseState T) : list nat :=
  map (λ e, N.to_nat (index (fst e))) (List.filter (λ e, is_terminal (fst e)) (terminal_entries s)).
Definition state_has_word {T} (word_token : option Symbol) (s : ParseState T) : bool :=
  match word_token with
  | Some w => match im_get w (terminal_entries s) with Some _ => true | None => false end
  | None => false
  end.

(** A state with an action on both tokens. *)
Definition both_in {T} (a b : Symbol) (s : ParseState T) : Prop :=
  N.to_nat (index a) ∈ state_terminals s ∧ N.to_nat (index b) ∈ state_terminals s.

(** The pairs of a list of parse states that satisfy [p]. *)
Definition pairs_of {T} (p : ParseState T → bool) (ss : list (ParseState T)) : list (nat * nat) :=
  concat (map (λ s, if p s then state_pairs (state_terminals s) else []) ss).
Lemma pairs_of_elem {T} (p : ParseState T → bool) ss a b :
  (a, b) ∈ pairs_of p ss ∨ (b, a) ∈ pairs_of p ss ↔
  ∃ s, s ∈ ss ∧ p s = true ∧ a ∈ state_terminals s ∧ b ∈ state_terminals s.
Proof.
  unfold pairs_of. induction ss as [|s ss IH]; cbn [map concat]; [split; [intros []; set_solver|intros (? & []%elem_of_nil & _)]|].
  rewrite !elem_of_app. setoid_rewrite elem_of_cons. destruct (p s) eqn:Hp.
  - pose proof (state_pairs_elem (state_terminals s) a b). split.
    + intros [[?|?]|[?|?]]; [exists s; tauto|destruct IH as [IH _]; destruct IH as (s' & ?); [tauto|exists s'; tauto]
                            |exists s; tauto|destruct IH as [IH _]; destruct IH as (s' & ?); [tauto|exists s'; tauto]].
    + intros (s' & [-> |Hs'] & Hp' & Hab); [tauto|]. assert (∃ s, s ∈ ss ∧ p s = true ∧ a ∈ state_terminals s ∧ b ∈ state_terminals s) as Hex by by exists s'.
      apply IH in Hex. tauto.
  - rewrite !elem_of_nil. split.
    + intros [[[]|?]|[[]|?]]; (destruct IH as [IH _]; destruct IH as (s' & ?); [tauto|exists s'; tauto]).
    + intros (s' & [-> |Hs'] & Hp' & Hab); [congruence|]. assert (∃ s, s ∈ ss ∧ p s = true ∧ a ∈ state_terminals s ∧ b ∈ state_terminals s) as Hex by by exists s'.
      apply IH in Hex. tauto.
Qed.

Lemma record_states_spec {T} word_token n (ss : list (ParseState T)) : ∀ ps ws r,
  ci_ok n ps ws r → Forall (λ s, Forall (λ a, a < n) (state_terminals s)) ss →
  ∃ r', record_states word_token (div_ceil_64 n) r ss = Ok r' ∧
    ci_ok n (pairs_of (λ _, true) ss ++ ps) (pairs_of (λ s, negb (state_has_word word_token s)) ss ++ ws) r'.
Proof.
  induction ss as [|s ss IH]; intros ps ws r Hr Hss; [by exists r|].
  apply Forall_cons in Hss as [Hs Hss]. cbn [record_states].
  destruct (record_state_spec (state_has_word word_token s) n (state_terminals s) ps ws r Hr Hs) as (r1 & H1 & Hr1).
  unfold state_has_word, state_terminals in H1. rewrite H1. cbn [mbind outcome_bind].
  destruct (IH _ _ _ Hr1 Hss) as (r' & -> & H'). exists r'. split; [done|]. revert H'.
  unfold pairs_of. cbn [map concat].
  apply ci_ok_ext; intros p; destruct (state_has_word word_token s); cbn [negb]; rewrite ?elem_of_app, ?elem_of_nil; tauto.
Qed.

(** C33: the index of coincident tokens answers exactly what it is asked: when
    every terminal with an action is a token of the lexical grammar, the
    construction does not panic, two tokens are coincident exactly when some
    parse state has an action on both, and all their coincident states have the
    word token exactly when no parse state has an action on both and none on the
    word token.  The aligned rows hold the same relation. *)
Theorem coincident_index_correct {T} (table : ParseTable T) (g : LexicalGrammar) (word_token : option Symbol) :
  let n := length (lg_variables g) in
  Forall (λ s, Forall (λ a, a < n) (state_terminals s)) (pt_states table) →
  ∃ r, coincident_new table g word_token = Ok r ∧
    ∀ a b : Symbol, N.to_nat (index a) < n → N.to_nat (index b) < n →
      (∃ c, coincident_contains r a b = Ok c ∧ (c = true ↔ ∃ s, s ∈ pt_states table ∧ both_in a b s)) ∧
      (∃ c, all_coincident_states_have_word r a b = Ok c ∧
        (c = true ↔ ∀ s, s ∈ pt_states table → both_in a b s → state_has_word word_token s = true)) ∧
      (row_bit (row_bits r) (div_ceil_64 n) (N.to_nat (index a)) (N.to_nat (index b)) = true ↔
        ∃ s, s ∈ pt_states table ∧ both_in a b s).
Proof.
  intros n Hss. unfold coincident_new. fold n.
  destruct (record_states_spec word_token n (pt_states table) [] []
    (mkCoincident (replicate (div_ceil_64 (n * n)) 0%N) (replicate (div_ceil_64 (n * n)) 0%N)
       (replicate (n * div_ceil_64 n) 0%N) n)) as (r & Hr & (Hn & Lc & Lw & Lr & H)); [|done|].
  { split; [done|]. cbn [contains_bits without_word_bits row_bits]. rewrite !length_replicate. split_and?; [done..|].
    intros a b Ha Hb. unfold row_bit. rewrite !fbit_replicate, !elem_of_nil. intuition congruence. }
  exists r. split; [done|]. intros a b Ha Hb. destruct (H _ _ Ha Hb) as (H1 & H2 & H3).
  rewrite !app_nil_r, pairs_of_elem in H1, H2, H3.
  unfold coincident_contains, all_coincident_states_have_word. rewrite Hn.
  rewrite !test_bit_spec by (rewrite ?Lc, ?Lw; by apply flat_lt). cbn [mbind outcome_bind].
  assert ((∃ s, s ∈ pt_states table ∧ true = true ∧ N.to_nat (index a) ∈ state_terminals s ∧ N.to_nat (index b) ∈ state_terminals s) ↔
          ∃ s, s ∈ pt_states table ∧ both_in a b s) as Hex by (unfold both_in; naive_solver).
  rewrite Hex in H1, H3. split_and?; [by eexists| |done].
  eexists. split; [done|]. rewrite negb_true_iff, <- not_true_iff_false, H2. split.
  - intros Hno s Hs [Hsa Hsb]. apply not_false_iff_true. intros Hw. apply Hno. exists s. by rewrite Hw.
  - intros Hall (s & Hs & Hw%negb_true_iff & Hab). by rewrite (Hall s Hs Hab) in Hw.
Qed.

(** Both tokens exist, so a comparison is three nested ones. *)
Lemma prefer_token_true g (l r : Z * nat) lv rv :
  lg_variables g !! l.2 = Some lv → lg_variables g !! r.2 = Some rv →
  ∃ b, prefer_token g l r = Ok b ∧
    (b = true ↔ (r.1 < l.1)%Z ∨ (l.1 = r.1 ∧ (implicit_precedence rv < implicit_precedence lv)%Z) ∨
       (l.1 = r.1 ∧ implicit_precedence lv = implicit_precedence rv ∧ l.2 < r.2)).
Proof.
  intros Hl Hr. unfold prefer_token. rewrite (vec_get_Some _ _ _ Hl), (vec_get_Some _ _ _ Hr). cbn [mbind outcome_bind].
  destruct (Z.compare_spec l.1 r.1) as [Heq|Hlt|Hgt]; (eexists; split; [done|]); [|split; [done|lia]|split; [lia|done]].
  destruct (Z.compare_spec (implicit_precedence lv) (implicit_precedence rv)).
  - rewrite Nat.ltb_lt. lia.
  - split; [done|lia].
  - split; [lia|done].
Qed.

(** The preference between two tokens that match at once is a strict total
    order on tokens, whatever their precedences: of two different tokens exactly
    one is preferred, and the preference is transitive. *)
Theorem prefer_token_order (g : LexicalGrammar) (l m r : Z * nat) :
  l.2 < length (lg_variables g) → m.2 < length (lg_variables g) → r.2 < length (lg_variables g) →
  (∃ a b, prefer_token g l m = Ok a ∧ prefer_token g m l = Ok b ∧
     (a = true → b = false) ∧ (l ≠ m → a = negb b)) ∧
  (prefer_token g l m = Ok true → prefer_token g m r = Ok true → prefer_token g l r = Ok true).
Proof.
  intros [lv Hl]%lookup_lt_is_Some_2 [mv Hm]%lookup_lt_is_Some_2 [rv Hr]%lookup_lt_is_Some_2.
  destruct (prefer_token_true g l m lv mv Hl Hm) as (a & Ha & Hab), (prefer_token_true g m l mv lv Hm Hl) as (b & Hb & Hbb),
    (prefer_token_true g m r mv rv Hm Hr) as (c & Hc & Hcb), (prefer_token_true g l r lv rv Hl Hr) as (d & Hd & Hdb).
  rewrite Ha, Hb, Hc, Hd. split.
  - exists a, b. split_and?; [done|done| |].
    + intros H%Hab. apply not_true_iff_false. rewrite Hbb. lia.
    + intros Hne. assert (a = true ∨ b = true) as Hor.
      { rewrite Hab, Hbb. assert (l.1 = m.1 → l.2 ≠ m.2) by (destruct l, m; cbn; congruence). 
        assert (l.2 = m.2 → implicit_precedence lv = implicit_precedence mv) by (intros Heq; rewrite Heq in Hl; congruence). lia. }
      assert (a = true → b = false) by (intros H%Hab; apply not_true_iff_false; rewrite Hbb; lia).
      destruct a, b; naive_solver.
  - intros [= ->] [= ->]. f_equal. apply Hdb. pose proof (proj1 Hab eq_refl). pose proof (proj1 Hcb eq_refl). lia.
Qed.

Example conflict_rows_witness :
  length [0; 16; 1; 0]%N = 2 * 2 ∧
  ∃ cb ob, conflict_rows [0; 16; 1; 0]%N 2 = Ok cb ∧ overlap_rows [0; 16; 1; 0]%N 2 = Ok ob ∧
    ∀ fs ss fc i j, i < 2 → j < 2 →
      let m := mkTokenConflictMap 2 [0; 16; 1; 0]%N fs ss fc cb ob (div_ceil_64 2) in
      (∃ c p, does_conflict m i j = Ok c ∧ does_match_prefix m i j = Ok p ∧
        row_bit cb (div_ceil_64 2) i j = c || p) ∧
      (∃ o1 o2, does_overlap m i j = Ok o1 ∧ does_overlap m j i = Ok o2 ∧
        row_bit ob (div_ceil_64 2) i j = o1 || o2).
Proof. split; [reflexivity|]. exact (conflict_rows_correct 2 [0; 16; 1; 0]%N eq_refl). Defined.

(** Two tokens and two parse states: the first state accepts both tokens, the
    second one the second token only. *)
Definition wit_vars : list LexicalVariable :=
  [mkLexicalVariable 0 Named 0%Z 0; mkLexicalVariable 1 Named 1%Z 1].
Definition wit_grammar : LexicalGrammar := mkLexicalGrammar [] wit_vars.
Definition wit_state (l : list (Symbol * unit)) : ParseState unit :=
  mkParseState 0%N l [] TokenSet.new 0%N 0%N 0%N false.
Definition wit_table : ParseTable unit :=
  mkParseTable [wit_state [(terminal 0, ()); (terminal 1, ())]; wit_state [(terminal 1, ())]]
    empty_pool [] [] 0 [].

Example coincident_index_witness :
  Forall (λ s, Forall (λ a, a < 2) (state_terminals s)) (pt_states wit_table) ∧
  ∃ r, coincident_new wit_table wit_grammar None = Ok r ∧
    ∀ a b : Symbol, N.to_nat (index a) < 2 → N.to_nat (index b) < 2 →
      (∃ c, coincident_contains r a b = Ok c ∧ (c = true ↔ ∃ s, s ∈ pt_states wit_table ∧ both_in a b s)) ∧
      (∃ c, all_coincident_states_have_word r a b = Ok c ∧
        (c = true ↔ ∀ s, s ∈ pt_states wit_table → both_in a b s → state_has_word None s = true)) ∧
      (row_bit (row_bits r) (div_ceil_64 2) (N.to_nat (index a)) (N.to_nat (index b)) = true ↔
        ∃ s, s ∈ pt_states wit_table ∧ both_in a b s).
Proof.
  assert (H : Forall (λ s, Forall (λ a, a < 2) (state_terminals s)) (pt_states wit_table)).
  { repeat (apply Forall_cons; split); try apply Forall_nil; vm_compute; repeat (apply Forall_cons; split);
      try apply Forall_nil; lia. }
  split; [exact H|]. exact (coincident_index_correct wit_table wit_grammar None H).
Defined.

Example prefer_token_witness :
  0 < 2 ∧ 1 < 2 ∧
  (∃ a b, prefer_token wit_grammar (0%Z, 0) (0%Z, 1) = Ok a ∧ prefer_token wit_grammar (0%Z, 1) (0%Z, 0) = Ok b ∧
     (a = true → b = false) ∧ ((0%Z, 0) ≠ (0%Z, 1) → a = negb b)) ∧
  (prefer_token wit_grammar (0%Z, 0) (0%Z, 1) = Ok true → prefer_token wit_grammar (0%Z, 1) (0%Z, 0) = Ok true →
   prefer_token wit_grammar (0%Z, 0) (0%Z, 0) = Ok true).
Proof.
  split; [lia|]. split; [lia|].
  apply (prefer_token_order wit_grammar (0%Z, 0) (0%Z, 1) (0%Z, 0)); cbn; lia.
Defined.
