(* ===== verification/LexTable.v ===== *)
(** * [build_tables/build_lex_table.rs]: the table builder

    The builder determinizes the NFA of the lexical grammar: a state of the
    lex table stands for a sorted set of NFA states and a flag that says
    whether the end of the file is a valid token there.  The hash map of the
    builder is a [gmap], its queue a list.  [fuel] bounds the closure under
    split edges and [n] the number of entries taken from the queue. *)
From S2P Require Import Prelude BitVec Symbols TokenSet CharSet Nfa Grammars Tables TokenConflicts.

Notation out := (outcome Empty_set) (only parsing).

Record QueueEntry := mkQueueEntry {
  qe_state_id : LexStateId;
  qe_nfa_states : list N;
  qe_eof_valid : bool;
}.
Record LexTableBuilder := mkBuilder {
  lexical_grammar : LexicalGrammar;
  cursor : NfaCursor;
  table : LexTable;
  state_queue : list QueueEntry;
  state_ids_by_nfa_state_set : gmap (list N * bool) LexStateId;
}.

Definition set_cursor (b : LexTableBuilder) (c : NfaCursor) : LexTableBuilder :=
  mkBuilder (lexical_grammar b) c (table b) (state_queue b) (state_ids_by_nfa_state_set b).
Definition set_queue (b : LexTableBuilder) (q : list QueueEntry) : LexTableBuilder :=
  mkBuilder (lexical_grammar b) (cursor b) (table b) q (state_ids_by_nfa_state_set b).

(** [&mut self.table.states[i]], updated by [f]. *)
Definition update_state (b : LexTableBuilder) (i : nat) (f : LexState → LexState) : out LexTableBuilder :=
  st ← vec_get (table b) i;
  states ← vec_set (table b) i (f st);
  Ok (mkBuilder (lexical_grammar b) (cursor b) states (state_queue b) (state_ids_by_nfa_state_set b)).

Definition builder_new (fuel : nat) (g : LexicalGrammar) : out LexTableBuilder :=
  c ← Nfa.new fuel (lg_nfa g) [];
  Ok (mkBuilder g c [] [] ∅).
Definition builder_reset (b : LexTableBuilder) : LexTableBuilder :=
  mkBuilder (lexical_grammar b) (cursor b) [] [] ∅.

(** The state of a set of NFA states, and whether it is a new one. *)
Definition add_state (fuel : nat) (b : LexTableBuilder) (nfa_states : list N) (eof_valid : bool) :
    out (LexStateId * bool * LexTableBuilder) :=
  c ← reset fuel (cursor b) nfa_states;
  let key := (state_ids c, eof_valid) in
  match state_ids_by_nfa_state_set b !! key with
  | Some id => Ok (id, false, set_cursor b c)
  | None =>
      let state_id := as_u32 (length (table b)) in
      Ok (state_id, true,
          mkBuilder (lexical_grammar b) c (table b ++ [default_lex_state])
            (state_queue b ++ [mkQueueEntry state_id (state_ids c) eof_valid])
            (<[key := state_id]> (state_ids_by_nfa_state_set b)))
  end.

(** The completion that is preferred to the others. *)
Fixpoint best_completion (g : LexicalGrammar) (completion : option (nat * Z)) (l : list (nat * Z)) :
    out (option (nat * Z)) :=
  match l with
  | [] => Ok completion
  | (id, prec) :: l =>
      skip ← match completion with
             | Some (prev_id, prev_precedence) => prefer_token g (prev_precedence, prev_id) (prec, id)
             | None => Ok false
             end;
      best_completion g (if skip : bool then completion else Some (id, prec)) l
  end.

(** A transition is skipped when the completed token is preferred to it. *)
Definition keep_transition (g : LexicalGrammar) (completion : option (nat * Z)) (has_sep : bool) (t : NfaTransition) :
    bool :=
  match completion with
  | Some (completed_id, completed_precedence) => prefer_transition g t completed_id completed_precedence has_sep
  | None => true
  end.

Fixpoint add_transitions (fuel : nat) (b : LexTableBuilder) (state_id : LexStateId) (eof_valid : bool)
    (completion : option (nat * Z)) (has_sep : bool) (ts : list NfaTransition) : out LexTableBuilder :=
  match ts with
  | [] => Ok b
  | t :: ts =>
      if keep_transition (lexical_grammar b) completion has_sep t then
        '(next_state_id, _, b) ← add_state fuel b (states t) (eof_valid && is_separator t);
        b ← update_state b (N.to_nat state_id)
              (λ st, mkLexState (accept_action st) (eof_action st)
                       (advance_actions st ++ [(characters t, mkAdvance next_state_id (negb (is_separator t)))]));
        add_transitions fuel b state_id eof_valid completion has_sep ts
      else add_transitions fuel b state_id eof_valid completion has_sep ts
  end.

Definition populate_state (fuel : nat) (b : LexTableBuilder) (state_id : LexStateId) (nfa_states : list N)
    (eof_valid : bool) : out LexTableBuilder :=
  let b := set_cursor b (force_reset (cursor b) nfa_states) in
  cs ← completions (cursor b);
  completion ← best_completion (lexical_grammar b) None cs;
  '(ts, has_sep) ← transitions_and_any_sep (cursor b);
  b ← (if eof_valid then
         '(next_state_id, _, b) ← add_state fuel b [] false;
         update_state b (N.to_nat state_id)
           (λ st, mkLexState (accept_action st) (Some (mkAdvance next_state_id true)) (advance_actions st))
       else Ok b);
  b ← add_transitions fuel b state_id eof_valid completion has_sep ts;
  match completion with
  | Some (complete_id, _) =>
      update_state b (N.to_nat state_id)
        (λ st, mkLexState (Some (terminal (N.of_nat complete_id))) (eof_action st) (advance_actions st))
  | None =>
      if bool_decide (state_ids (cursor b) = []) then
        update_state b (N.to_nat state_id)
          (λ st, mkLexState (Some end_) (eof_action st) (advance_actions st))
      else Ok b
  end.

(** [while let Some(..) = self.state_queue.pop_front()]. *)
Fixpoint populate_loop (fuel n : nat) (b : LexTableBuilder) : out LexTableBuilder :=
  match state_queue b with
  | [] => Ok b
  | e :: queue =>
      match n with
      | O => OutOfFuel
      | S n =>
          b ← populate_state fuel (set_queue b queue) (qe_state_id e) (qe_nfa_states e) (qe_eof_valid e);
          populate_loop fuel n b
      end
  end.

(** The start states of the terminals among [l], and whether a token of [l] is
    not a terminal. *)
Fixpoint token_start_states (g : LexicalGrammar) (l : list Symbol) : out (list N * bool) :=
  match l with
  | [] => Ok ([], false)
  | token :: l =>
      if is_terminal token then
        v ← vec_get (lg_variables g) (N.to_nat (index token));
        '(ss, eof_valid) ← token_start_states g l;
        Ok (start_state v :: ss, eof_valid)
      else '(ss, _) ← token_start_states g l; Ok (ss, true)
  end.

Definition add_state_for_tokens (fuel n : nat) (b : LexTableBuilder) (tokens : TokenSet) :
    out (LexStateId * LexTableBuilder) :=
  l ← iter tokens;
  '(nfa_states, eof_valid) ← token_start_states (lexical_grammar b) l;
  '(state_id, _, b) ← add_state fuel b nfa_states eof_valid;
  b ← populate_loop fuel n b;
  Ok (state_id, b).

(** ** The lexer that the table determinizes *)
Notation config := (list N * bool)%type (only parsing).

(** The raw transitions and the completions of a set of NFA states. *)
Definition as_raw (st : NfaState) : option (CharacterSet * bool * Z * N) :=
  match st with Advance chars id sep prec => Some (chars, sep, prec, id) | _ => None end.
Definition as_completion (st : NfaState) : option (nat * Z) :=
  match st with Accept v p => Some (v, p) | _ => None end.
Definition raws (f : list NfaState) (S_ : list N) : list (CharacterSet * bool * Z * N) :=
  omap (λ id, st ← f !! N.to_nat id; as_raw st) S_.
Definition comps (f : list NfaState) (S_ : list N) : list (nat * Z) :=
  omap (λ id, st ← f !! N.to_nat id; as_completion st) S_.

(** [S_] lists the non-split states reachable from [sts] over split edges. *)
Definition is_closure (f : list NfaState) (sts S_ : list N) : Prop :=
  StronglySorted N.lt S_ ∧ ∀ x, x ∈ S_ ↔ ¬ is_split f x ∧ ∃ s, s ∈ sts ∧ eps f s x.

(** The completion [c] comes before [d]: its precedence is higher; or the
    precedences are equal and the implicit precedence of its variable is
    higher; or these are equal too and its variable comes first. *)
Definition outranks (g : LexicalGrammar) (c d : nat * Z) : Prop :=
  ∃ v w, lg_variables g !! c.1 = Some v ∧ lg_variables g !! d.1 = Some w ∧
    ((d.2 < c.2)%Z ∨
     (c.2 = d.2 ∧ (implicit_precedence w < implicit_precedence v)%Z) ∨
     (c.2 = d.2 ∧ implicit_precedence v = implicit_precedence w ∧ c.1 < d.1)).

(** The completion of [l] that comes before all the others. *)
Definition best_of (g : LexicalGrammar) (l : list (nat * Z)) (o : option (nat * Z)) : Prop :=
  match o with
  | None => l = []
  | Some c => c ∈ l ∧ ∀ c', c' ∈ l → c' = c ∨ outranks g c c'
  end.
Definition best (g : LexicalGrammar) (S_ : list N) (o : option (nat * Z)) : Prop :=
  best_of g (comps (lg_nfa g) S_) o.

(** The NFA states of the [v]-th variable end with its start state: those
    that no earlier variable starts at or above. *)
Definition owns (g : LexicalGrammar) (v : nat) (s : N) : Prop :=
  (∃ lv, lg_variables g !! v = Some lv ∧ (s <= start_state lv)%N) ∧
  ∀ u lu, u < v → lg_variables g !! u = Some lu → (start_state lu < s)%N.

(** Going on is as good as ending the best completed token: no token is
    completed; or the transition has the higher precedence; or it has the
    same one, is not a separator, and, when the set has separator transitions
    at all, it stays within the completed variable. *)
Definition goes_on (g : LexicalGrammar) (S_ : list N) (o : option (nat * Z)) (sep : bool) (prec : Z) (sts : list N) :
    Prop :=
  match o with
  | None => True
  | Some (v, p) =>
      (p < prec)%Z ∨
      (prec = p ∧ sep = false ∧
       ((∀ chars is_sep pr id, (chars, is_sep, pr, id) ∈ raws (lg_nfa g) S_ → is_sep = false) ∨
        ∃ s, s ∈ sts ∧ owns g v s))
  end.

(** One step of the lexer over a character: to all NFA states that a
    transition for it leads to, when going on is as good as ending the token;
    the flag says whether the character is part of the token. *)
Inductive lex_move (g : LexicalGrammar) (c : config) (x : N) : config → bool → Prop :=
  | lex_move_intro sep prec sts S' o :
      target_of x (raws (lg_nfa g) c.1) (sep, prec, sts) → best g c.1 o →
      goes_on g c.1 o sep prec sts →
      is_closure (lg_nfa g) sts S' →
      lex_move g c x (S', c.2 && sep) (negb sep).

(** What the lexer accepts: the best completion, or the end of the file in the
    empty set of states. *)
Definition lex_accept (g : LexicalGrammar) (c : config) (a : option Symbol) : Prop :=
  ∃ o, best g c.1 o ∧
    a = match o with
        | Some (id, _) => Some (terminal (N.of_nat id))
        | None => if bool_decide (c.1 = []) then Some end_ else None
        end.

(** The action of a lex state on a character. *)
Definition lex_next (st : LexState) (x : N) : option AdvanceAction :=
  snd <$> head (List.filter (λ e, cs_mem x (fst e)) (advance_actions st)).

(** [st] is the state of the configuration [c], when [keys] lists the
    configurations of the states. *)
Definition state_spec (g : LexicalGrammar) (keys : list config) (c : config) (st : LexState) : Prop :=
  lex_accept g c (accept_action st) ∧
  (if c.2 then ∃ t, eof_action st = Some (mkAdvance t true) ∧ keys !! N.to_nat t = Some ([], false)
   else eof_action st = None) ∧
  (∀ x, match lex_next st x with
        | None => ∀ c' main, ¬ lex_move g c x c' main
        | Some a => ∃ c', lex_move g c x c' (in_main_token a) ∧ keys !! N.to_nat (aa_state a) = Some c'
        end) ∧
  Forall (λ e, cs_ok e.1 ∧ N.to_nat (aa_state e.2) < length keys) (advance_actions st).

(** What the builder needs of the NFA: every index is in range, character sets
    are well formed and not empty, splits lead to a state that is not one, and
    the variables are in the order of their start states, as [expand_tokens]
    allocates them. *)
Record lexer_ok (g : LexicalGrammar) : Prop := {
  lx_nfa : nfa_ok (lg_nfa g);
  lx_advance : ∀ i cs id sep prec, lg_nfa g !! i = Some (Advance cs id sep prec) →
    N.to_nat id < length (lg_nfa g) ∧ cs_ok cs ∧ CharSet.is_empty cs = false;
  lx_accept : ∀ i v p, lg_nfa g !! i = Some (Accept v p) → v < length (lg_variables g);
  lx_live : ∀ x, N.to_nat x < length (lg_nfa g) → ∃ y, eps (lg_nfa g) x y ∧ ¬ is_split (lg_nfa g) y;
  lx_start : Forall (λ v, N.to_nat (start_state v) < length (lg_nfa g)) (lg_variables g);
  lx_sorted : starts_sorted g;
}.

(** ** Sets of NFA states *)
Section lexer.
Context (g : LexicalGrammar) (Hg : lexer_ok g).
Notation f := (lg_nfa g).

Definition set_ok (S_ : list N) : Prop :=
  StronglySorted N.lt S_ ∧ ∀ x, x ∈ S_ → N.to_nat x < length f ∧ ¬ is_split f x.

Lemma eps_in_range s x : eps f s x → N.to_nat s < length f → N.to_nat x < length f.
Proof.
  induction 1 as [s|s l r x Hs _ IH|s l r x Hs _ IH]; intros Hlt; [done|apply IH..];
    by destruct (lx_nfa _ Hg _ _ _ Hs).
Qed.
Lemma is_closure_ok sts S_ :
  is_closure f sts S_ → (∀ s, s ∈ sts → N.to_nat s < length f) → set_ok S_.
Proof.
  intros [Hs Hx] Hin. split; [done|]. intros x (Hn & s & Hsin & He)%Hx. split; [|done].
  eapply eps_in_range; [exact He|by apply Hin].
Qed.
Lemma is_closure_nonempty sts S_ :
  is_closure f sts S_ → (∀ s, s ∈ sts → N.to_nat s < length f) → sts ≠ [] → S_ ≠ [].
Proof.
  intros [_ Hx] Hin Hne. destruct sts as [|s sts]; [done|].
  destruct (lx_live _ Hg s) as (y & He & Hy); [apply Hin, list_elem_of_here|]. intros ->.
  apply (not_elem_of_nil y), Hx. split; [done|]. exists s. split; [apply list_elem_of_here|done].
Qed.

Lemma reset_spec fuel c sts :
  nfa c = f → (∀ s, s ∈ sts → N.to_nat s < length f) → length sts + 2 * length f ≤ fuel →
  ∃ c', reset fuel c sts = (Ok c' : out NfaCursor) ∧ nfa c' = f ∧ is_closure f sts (state_ids c').
Proof.
  intros Hc Hin Hf. unfold reset. rewrite Hc.
  destruct (add_states_spec (E:=Empty_set) fuel (mkCursor [] f) sts) as (c' & -> & Hc' & Hs & Hx); cbn in *;
    [by apply Hg|done|constructor|done|].
  exists c'. split; [done|]. split; [done|]. split; [done|]. intros x. rewrite Hx, elem_of_nil. tauto.
Qed.

Lemma filter_states_spec {A} (h : NfaState → option A) S_ :
  (∀ x, x ∈ S_ → N.to_nat x < length f) →
  filter_states (E:=Empty_set) f h S_ = Ok (omap (λ id, st ← f !! N.to_nat id; h st) S_).
Proof.
  induction S_ as [|x S_ IH]; intros Hin; [done|]. cbn [filter_states].
  destruct (lookup_lt_is_Some_2 f (N.to_nat x)) as [st Hst]; [apply Hin, list_elem_of_here|].
  rewrite (vec_get_Some _ _ _ Hst). cbn [mbind outcome_bind]. rewrite IH by (intros; apply Hin; by apply list_elem_of_further).
  cbn. rewrite Hst. cbn. by destruct (h st).
Qed.

Lemma comps_spec c : nfa c = f → set_ok (state_ids c) → completions c = (Ok (comps f (state_ids c)) : out _).
Proof. intros Hc [_ Hs]. unfold completions. rewrite Hc. apply filter_states_spec. intros. by apply Hs. Qed.
Lemma raws_spec c : nfa c = f → set_ok (state_ids c) → raw_transitions c = (Ok (raws f (state_ids c)) : out _).
Proof. intros Hc [_ Hs]. unfold raw_transitions. rewrite Hc. apply filter_states_spec. intros. by apply Hs. Qed.

Lemma raws_elem S_ cs sep prec id :
  (cs, sep, prec, id) ∈ raws f S_ ↔ ∃ x, x ∈ S_ ∧ f !! N.to_nat x = Some (Advance cs id sep prec).
Proof.
  unfold raws. rewrite list_elem_of_omap. split.
  - intros (x & Hx & Heq). exists x. split; [done|]. destruct (f !! N.to_nat x) as [[]|]; cbn in Heq; try done.
    by injection Heq as -> -> -> ->.
  - intros (x & Hx & Heq). exists x. by rewrite Heq.
Qed.
Lemma comps_elem S_ v p : (v, p) ∈ comps f S_ ↔ ∃ x, x ∈ S_ ∧ f !! N.to_nat x = Some (Accept v p).
Proof.
  unfold comps. rewrite list_elem_of_omap. split.
  - intros (x & Hx & Heq). exists x. split; [done|]. destruct (f !! N.to_nat x) as [[]|]; cbn in Heq; try done.
    by injection Heq as -> ->.
  - intros (x & Hx & Heq). exists x. by rewrite Heq.
Qed.
Lemma raws_ok S_ : Forall raw_ok (raws f S_).
Proof.
  apply Forall_forall. intros [[[cs sep] prec] id] (x & _ & Hx)%raws_elem. unfold raw_ok. cbn.
  by destruct (lx_advance _ Hg _ _ _ _ _ Hx) as (_ & ? & _).
Qed.

(** The targets of a character are in range. *)
Lemma target_in_range x S_ sep prec sts :
  target_of x (raws f S_) (sep, prec, sts) → sts ≠ [] ∧ ∀ s, s ∈ sts → N.to_nat s < length f.
Proof.
  intros ((sp & pr & st & Ha) & _ & _ & _ & _ & Hst). split.
  - intros ->. apply (not_elem_of_nil st), Hst. by exists sp, pr.
  - intros s (sp' & pr' & cs & Hin & _)%Hst. apply raws_elem in Hin as (y & _ & Hy).
    by destruct (lx_advance _ Hg _ _ _ _ _ Hy).
Qed.

(** A character has at most one target. *)
Lemma target_of_unique x iter k k' : target_of x iter k → target_of x iter k' → k = k'.
Proof.
  destruct k as [[s p] sts], k' as [[s' p'] sts'].
  intros (_ & Hs & (? & ? & Hp) & Hm & Hsort & Hst) (_ & Hs' & (? & ? & Hp') & Hm' & Hsort' & Hst'). f_equal; [f_equal|].
  - destruct s, s'; try done; [symmetry; apply Hs'|apply Hs]; tauto.
  - apply Hm' in Hp. apply Hm in Hp'. lia.
  - apply lt_sorted_unique; [done..|]. intros y. by rewrite Hst, Hst'.
Qed.

(** The grouped transitions of a set of states are its targets. *)
Lemma grouped_spec c :
  nfa c = f → set_ok (state_ids c) →
  ∃ ts, transitions_and_any_sep c =
      (Ok (ts, existsb (λ '(_, is_sep, _, _), is_sep) (raws f (state_ids c))) : out _) ∧
    (ts = [] ↔ raws f (state_ids c) = []) ∧
    (∀ t x, t ∈ ts → cs_mem x (characters t) = true → target_of x (raws f (state_ids c)) (key t)) ∧
    (∀ x k, target_of x (raws f (state_ids c)) k → ∃ t, t ∈ ts ∧ cs_mem x (characters t) = true ∧ key t = k) ∧
    Forall (λ t, cs_ok (characters t) ∧ ∃ x, cs_mem x (characters t) = true) ts.
Proof.
  intros Hc Hok. unfold transitions_and_any_sep. rewrite (raws_spec c Hc Hok). cbn [mbind outcome_bind].
  set (rs := raws f (state_ids c)). destruct (group_transitions_spec (E:=Empty_set) rs) as (ts & -> & Htr & _ & _ & Hat).
  { apply raws_ok. }
  cbn [mbind outcome_bind]. exists ts. split; [done|].
  assert (∀ t x, t ∈ ts → cs_mem x (characters t) = true → target_of x rs (key t)) as Hto.
  { intros t x Ht Hx. apply (Hat x). apply list_elem_of_split in Ht as (l1 & l2 & ->).
    rewrite at_app, at_cons, !elem_of_app. right. left. unfold at1. rewrite Hx. apply list_elem_of_here. }
  assert (Forall (λ t, cs_ok (characters t) ∧ ∃ x, cs_mem x (characters t) = true) ts) as Hne.
  { eapply Forall_impl; [exact Htr|]. intros t [Ht He]. split; [done|]. by apply not_empty_spec. }
  assert (∀ x sp pr st, applies x rs sp pr st → ∃ t, t ∈ ts ∧ cs_mem x (characters t) = true) as Hex.
  { intros x sp pr st Ha. destruct (Hat x) as (_ & [Hnil _] & _). destruct (at_ x ts) as [|k l] eqn:Heq.
    - exfalso. by eapply Hnil.
    - assert (k ∈ at_ x ts) as Hk by (rewrite Heq; apply list_elem_of_here). unfold at_ in Hk.
      apply list_elem_of_In, in_concat in Hk as (l' & Hl & Hk). apply in_map_iff in Hl as (t & <- & Ht).
      exists t. split; [by apply list_elem_of_In|]. unfold at1 in Hk. by destruct (cs_mem x (characters t)). }
  split_and?; [split| | |]; [|intros Hnil; destruct ts as [|t ts]; [done|]| | |]; try done.
  - intros ->. destruct rs as [|[[[cs sp] pr] id] rs'] eqn:Hrs; [done|exfalso].
    assert ((cs, sp, pr, id) ∈ raws f (state_ids c)) as Hin by (fold rs; rewrite Hrs; apply list_elem_of_here).
    apply raws_elem in Hin as (y & _ & Hy). destruct (lx_advance _ Hg _ _ _ _ _ Hy) as (_ & Hcs & Hnc).
    destruct (not_empty_spec _ Hcs Hnc) as [x Hx]. destruct (Hex x sp pr id) as (t & Ht & _); [|by apply elem_of_nil in Ht].
    exists cs. split; [apply list_elem_of_here|done].
  - exfalso. apply Forall_cons in Hne as [[_ [x Hx]] _]. destruct (Hto t x) as ((sp & pr & st & cs & Hin & _) & _);
      [apply list_elem_of_here|done|]. rewrite Hnil in Hin. by apply elem_of_nil in Hin.
  - intros x [[s p] sts] Hk. pose proof Hk as ((sp & pr & st & Ha) & _). destruct (Hex _ _ _ _ Ha) as (t & Ht & Hx).
    exists t. split; [done|]. split; [done|]. eapply target_of_unique; [by apply Hto|done].
Qed.

(** ** The preferred completion *)
Notation valid c := (c.1 < length (lg_variables g)).

Lemma prefer_total (c d : nat * Z) :
  valid c → valid d → c ≠ d → ∃ b, prefer_token g (c.2, c.1) (d.2, d.1) = Ok b ∧ prefer_token g (d.2, d.1) (c.2, c.1) = Ok (negb b).
Proof.
  intros [cv Hc]%lookup_lt_is_Some_2 [dv Hd]%lookup_lt_is_Some_2 Hne.
  destruct (prefer_token_true g (c.2, c.1) (d.2, d.1) cv dv Hc Hd) as (b & -> & Hb).
  destruct (prefer_token_true g (d.2, d.1) (c.2, c.1) dv cv Hd Hc) as (b' & -> & Hb'). cbn [fst snd] in *.
  exists b. split; [done|]. f_equal.
  assert (c.1 = d.1 → cv = dv) by (intros Heq; rewrite Heq in Hc; congruence).
  assert (c.2 = d.2 → c.1 ≠ d.1) by (destruct c, d; cbn; congruence).
  assert (implicit_precedence cv ≠ implicit_precedence dv → c.1 ≠ d.1) by (intros H1 H2; apply H1; f_equal; auto).
  assert (b' = true ↔ b ≠ true) as Hbb.
  { rewrite Hb', Hb. destruct (Z.lt_trichotomy c.2 d.2) as [?|[?|?]]; [lia| |lia].
    destruct (Z.lt_trichotomy (implicit_precedence cv) (implicit_precedence dv)) as [?|[?|?]]; lia. }
  destruct b, b'; naive_solver.
Qed.
Lemma prefer_trans (c d e : nat * Z) :
  valid c → valid d → valid e → prefer_token g (c.2, c.1) (d.2, d.1) = Ok true →
  prefer_token g (d.2, d.1) (e.2, e.1) = Ok true → prefer_token g (c.2, c.1) (e.2, e.1) = Ok true.
Proof.
  intros [cv Hc]%lookup_lt_is_Some_2 [dv Hd]%lookup_lt_is_Some_2 [ev He]%lookup_lt_is_Some_2.
  destruct (prefer_token_true g (c.2, c.1) (d.2, d.1) cv dv Hc Hd) as (b1 & -> & H1).
  destruct (prefer_token_true g (d.2, d.1) (e.2, e.1) dv ev Hd He) as (b2 & -> & H2).
  destruct (prefer_token_true g (c.2, c.1) (e.2, e.1) cv ev Hc He) as (b3 & -> & H3). cbn [fst snd] in *.
  intros [= ->] [= ->]. f_equal. apply H3. pose proof (proj1 H1 eq_refl). pose proof (proj1 H2 eq_refl). lia.
Qed.

Lemma prefer_outranks (c d : nat * Z) :
  valid c → valid d → prefer_token g (c.2, c.1) (d.2, d.1) = Ok true ↔ outranks g c d.
Proof.
  intros [cv Hc]%lookup_lt_is_Some_2 [dv Hd]%lookup_lt_is_Some_2.
  destruct (prefer_token_true g (c.2, c.1) (d.2, d.1) cv dv Hc Hd) as (b & -> & Hb). cbn [fst snd] in Hb. unfold outranks.
  rewrite Hc, Hd. split; [intros [= ->]; exists cv, dv; tauto|].
  intros (v & w & [= <-] & [= <-] & H). f_equal. tauto.
Qed.

(** [best_of] in terms of [prefer_token]. *)
Definition best_pref (l : list (nat * Z)) (o : option (nat * Z)) : Prop :=
  match o with
  | None => l = []
  | Some c => c ∈ l ∧ ∀ c', c' ∈ l → c' = c ∨ prefer_token g (c.2, c.1) (c'.2, c'.1) = Ok true
  end.
Lemma best_pref_spec l o : (∀ c, c ∈ l → valid c) → best_pref l o ↔ best_of g l o.
Proof.
  intros Hv. destruct o as [c|]; [|done]. split; intros [Hin H]; (split; [done|]); intros c' Hc'; specialize (H c' Hc');
    pose proof (prefer_outranks c c' (Hv c Hin) (Hv c' Hc')); tauto.
Qed.

Lemma best_completion_pref l : ∀ seen o,
  (∀ c, c ∈ seen ++ l → valid c) → best_pref seen o →
  ∃ o', best_completion g o l = Ok o' ∧ best_pref (seen ++ l) o'.
Proof.
  induction l as [|[id prec] l IH]; intros seen o Hv Ho; cbn [best_completion].
  { exists o. by rewrite List.app_nil_r. }
  assert (∃ b, match o with
             | Some (pi, pp) => prefer_token g (pp, pi) (prec, id)
             | None => Ok false
             end = Ok b ∧ best_pref (seen ++ [(id, prec)]) (if b : bool then o else Some (id, prec))) as (b & -> & Hb).
  { assert (valid (id, prec)) as Hn by (apply Hv, elem_of_app; right; apply list_elem_of_here).
    destruct o as [[pi pp]|]; cbn in Ho.
    - destruct Ho as [Hin Ho]. assert (valid (pi, pp)) as Hp by (apply Hv, elem_of_app; by left).
      destruct (decide ((pi, pp) = (id, prec))) as [Heq|Hne].
      + injection Heq as -> ->. destruct (lookup_lt_is_Some_2 _ _ Hn) as [v Hvv].
        destruct (prefer_token_true g (prec, id) (prec, id) v v Hvv Hvv) as (b & -> & _). exists b. split; [done|].
        assert (best_pref (seen ++ [(id, prec)]) (Some (id, prec))) by
          (split; [apply elem_of_app; by left|]; intros c [Hc| ->%list_elem_of_singleton]%elem_of_app; [by apply Ho|by left]).
        by destruct b.
      + destruct (prefer_total _ _ Hp Hn Hne) as (b & H1 & H2). cbn [fst snd] in H1, H2. exists b. split; [done|]. destruct b.
        * split; [apply elem_of_app; by left|]. intros c [Hc| ->%list_elem_of_singleton]%elem_of_app; [by apply Ho|by right].
        * split; [apply elem_of_app; right; apply list_elem_of_here|].
          intros c [Hc| ->%list_elem_of_singleton]%elem_of_app; [|by left]. right. destruct (Ho c Hc) as [-> |Hpc]; [done|].
          apply (prefer_trans (id, prec) (pi, pp) c); [done|done| |done|done]. apply Hv, elem_of_app. by left.
    - exists false. split; [done|]. rewrite Ho. split; [apply list_elem_of_here|]. intros c ->%list_elem_of_singleton. by left. }
  cbn [mbind outcome_bind]. destruct (IH (seen ++ [(id, prec)]) (if b then o else Some (id, prec))) as (o' & Heq & Ho').
  { intros c. rewrite <- (assoc_L (++)). apply Hv. }
  { exact Hb. }
  exists o'. rewrite <- (assoc_L (++)) in Ho'. done.
Qed.

Lemma best_completion_spec l :
  (∀ c, c ∈ l → valid c) → ∃ o, best_completion g None l = Ok o ∧ best_of g l o.
Proof.
  intros Hv. destruct (best_completion_pref l [] None Hv eq_refl) as (o & Ho & Hb). exists o. split; [done|].
  by apply best_pref_spec.
Qed.

(** A best completion is unique. *)
Lemma best_of_unique l o o' : (∀ c, c ∈ l → valid c) → best_of g l o → best_of g l o' → o = o'.
Proof.
  intros Hv Ho%best_pref_spec Ho'%best_pref_spec; [|done..]. destruct o as [c|], o' as [d|]; cbn in *; [|destruct Ho as [Hc _]; subst; by apply elem_of_nil in Hc
    |destruct Ho' as [Hc _]; subst; by apply elem_of_nil in Hc|done].
  destruct Ho as [Hc Ho], Ho' as [Hd Ho']. destruct (decide (c = d)) as [-> |Hne]; [done|].
  destruct (Ho d Hd) as [-> |H1]; [done|]. destruct (Ho' c Hc) as [-> |H2]; [done|].
  destruct (prefer_total c d (Hv c Hc) (Hv d Hd) Hne) as (b & Hb & Hb'). destruct b; cbn [negb] in Hb'; congruence.
Qed.
Lemma comps_valid S_ : ∀ c, c ∈ comps f S_ → valid c.
Proof. intros [v p] (x & _ & Hx)%comps_elem. by eapply lx_accept. Qed.
Lemma best_valid S_ o : best g S_ o → ∀ c, o = Some c → valid c.
Proof. intros Hb c ->. destruct Hb as [Hin _]. by apply (comps_valid S_). Qed.

(** ** The preference of a transition over the completion *)
Lemma owner_spec v s : v < length (lg_variables g) → variable_index_for_nfa_state g s = v ↔ owns g v s.
Proof.
  intros [lv Hv]%lookup_lt_is_Some_2. destruct (variable_index_for_nfa_state_correct g s (lx_sorted _ Hg)) as [Hk Hx]. split.
  - intros Heq. rewrite Heq in Hx. split.
    + exists lv. split; [done|]. pose proof (Hx v lv Hv). lia.
    + intros u lu Hu Hl. by apply (Hx u lu Hl).
  - intros [(lv' & Hv' & Hle) Hlt]. assert (lv' = lv) as -> by congruence.
    pose proof (Hx v lv Hv) as H1. destruct (decide (variable_index_for_nfa_state g s < v)) as [Hlt'|]; [|lia].
    destruct (lookup_lt_is_Some_2 (lg_variables g) (variable_index_for_nfa_state g s)) as [lu Hu];
      [apply lookup_lt_Some in Hv; lia|]. pose proof (Hlt _ lu Hlt' Hu). pose proof (Hx _ lu Hu). lia.
Qed.
Lemma owners_spec v l : ∀ prev,
  existsb (λ i, Nat.eqb i v) (variable_indices_loop g prev l) = true ∨ prev = Some v ↔
  (∃ s, s ∈ l ∧ variable_index_for_nfa_state g s = v) ∨ prev = Some v.
Proof.
  induction l as [|s l IH]; intros prev; cbn [variable_indices_loop].
  { split; [by intros [|]; [|right]|]. intros [(s & ?%elem_of_nil & _)|]; [done|by right]. }
  setoid_rewrite elem_of_cons. case_bool_decide as Hp.
  - rewrite IH. subst prev. split; [intros [(x & ? & ?)|]; [left; exists x; auto|by right]|].
    intros [(x & [-> |?] & Hx)|]; [right; by rewrite Hx|left; by exists x|by right].
  - cbn [existsb]. rewrite orb_true_iff, Nat.eqb_eq. specialize (IH (Some (variable_index_for_nfa_state g s))).
    assert (Some (variable_index_for_nfa_state g s) = Some v ↔ variable_index_for_nfa_state g s = v) as Hs by (split; congruence).
    rewrite Hs in IH. clear Hs. split.
    + intros [[H|H]|H]; [left; by exists s; auto| |by right]. left.
      destruct (proj1 IH (or_introl H)) as [(x & ? & ?)|?]; [exists x; auto|exists s; auto].
    + intros [(x & [-> |Hx] & Hv)|H]; [by left; left| |by right].
      left. destruct (proj2 IH (or_introl (ex_intro _ x (conj Hx Hv)))); [by right|by left].
Qed.
Lemma keep_transition_spec S_ o t :
  (∀ c, o = Some c → valid c) →
  keep_transition g o (existsb (λ '(_, is_sep, _, _), is_sep) (raws f S_)) t = true ↔
  goes_on g S_ o (is_separator t) (Nfa.precedence t) (states t).
Proof.
  intros Hv. destruct o as [[v p]|]; [|done]. cbn [keep_transition goes_on]. specialize (Hv _ eq_refl). cbn in Hv.
  unfold prefer_transition.
  assert (existsb (λ i, Nat.eqb i v) (variable_indices_for_nfa_states g (states t)) = true ↔ ∃ s, s ∈ states t ∧ owns g v s) as Hown.
  { pose proof (owners_spec v (states t) None) as Ho. setoid_rewrite (owner_spec v _ Hv) in Ho.
    unfold variable_indices_for_nfa_states. split; intros H; [destruct (proj1 Ho (or_introl H))|destruct (proj2 Ho (or_introl H))];
      done. }
  assert (existsb (λ '(_, is_sep, _, _), is_sep) (raws f S_) = false ↔
          ∀ chars is_sep pr id, (chars, is_sep, pr, id) ∈ raws f S_ → is_sep = false) as Hsep.
  { rewrite <- not_true_iff_false, existsb_exists. split.
    - intros Hno chars is_sep pr id Hin. destruct is_sep; [|done]. exfalso. apply Hno. eexists. split; [by apply list_elem_of_In|done].
    - intros Hall ([[[chars is_sep] pr] id] & Hin%list_elem_of_In & Heq). cbn in Heq. by rewrite (Hall _ _ _ _ Hin) in Heq. }
  case (Z.ltb_spec (Nfa.precedence t) p); intros Hlt; [split; [done|intros [?|(? & _)]; lia]|].
  case (Z.eqb_spec (Nfa.precedence t) p); intros Heq; [|split; [left; lia|done]].
  destruct (is_separator t); [split; [done|intros [?|(_ & ? & _)]; [lia|done]]|].
  rewrite <- Hown, <- Hsep. destruct (existsb (λ '(_, is_sep, _, _), is_sep) (raws f S_)); cbn [andb];
    [|split; [right; tauto|done]].
  destruct (existsb _ (variable_indices_for_nfa_states g (states t))); cbn [negb]; [split; [right; tauto|done]|].
  split; [done|]. intros [?|(_ & _ & [?|?])]; [lia|done..].
Qed.
End lexer.

(** ** The invariant of the builder *)
Section builder.
Context (g : LexicalGrammar) (Hg : lexer_ok g).
Notation f := (lg_nfa g).
Implicit Types (b : LexTableBuilder) (keys : list config).

Definition chars_ok (st : LexState) : Prop := Forall (λ e, cs_ok e.1) (advance_actions st).

(** What keeps the builder from panicking and bounds its work. *)
Record builder_wf b : Prop := {
  bw_grammar : lexical_grammar b = g;
  bw_nfa : nfa (cursor b) = f;
  bw_size : size (state_ids_by_nfa_state_set b) = length (table b);
  bw_map : ∀ c i, state_ids_by_nfa_state_set b !! c = Some i → set_ok g c.1 ∧ N.to_nat i < length (table b);
  bw_chars : Forall chars_ok (table b);
  bw_queue : Forall (λ e, set_ok g (qe_nfa_states e) ∧ N.to_nat (qe_state_id e) < length (table b)) (state_queue b);
}.

(** The queue holds the states from [q] on. *)
Definition queue_from (q : nat) keys : list QueueEntry :=
  imap (λ j c, mkQueueEntry (N.of_nat (q + j)) c.1 c.2) (drop q keys).

(** [keys] lists the configuration of every state: the states below [p] are
    complete, those from [q] on are queued and still empty. *)
Record builder_inv (p q : nat) keys b : Prop := {
  bi_keys : length keys = length (table b);
  bi_map : ∀ c i, state_ids_by_nfa_state_set b !! c = Some i ↔ keys !! N.to_nat i = Some c;
  bi_queue : state_queue b = queue_from q keys;
  bi_q : q ≤ length (table b);
  bi_fresh : ∀ i, q ≤ i → i < length (table b) → table b !! i = Some default_lex_state;
  bi_done : ∀ i c, i < p → keys !! i = Some c → ∃ st, table b !! i = Some st ∧ state_spec g keys c st;
}.

Lemma state_spec_mono keys keys' c st : keys `prefix_of` keys' → state_spec g keys c st → state_spec g keys' c st.
Proof.
  intros Hp (Ha & He & Hx & Hcs). split; [done|]. split; [|split].
  - destruct c.2; [|done]. destruct He as (t & ? & Ht). exists t. split; [done|]. by eapply prefix_lookup_Some.
  - intros x. specialize (Hx x). destruct (lex_next st x); [|done]. destruct Hx as (c' & ? & Hc'). exists c'.
    split; [done|]. by eapply prefix_lookup_Some.
  - eapply Forall_impl; [exact Hcs|]. intros e [? ?]. split; [done|]. apply prefix_length in Hp. lia.
Qed.

(** The work that is left: [b'] comes from [b] by adding states. *)
Record grows b b' : Prop := {
  gr_wf : builder_wf b';
  gr_len : length (table b) ≤ length (table b');
  gr_queue : length (state_queue b') + length (table b) = length (state_queue b) + length (table b');
}.
Lemma grows_refl b : builder_wf b → grows b b.
Proof. by split. Qed.
Lemma grows_trans b1 b2 b3 : grows b1 b2 → grows b2 b3 → grows b1 b3.
Proof. intros [] []. split; [done|lia|lia]. Qed.

(** The ids fit as long as there are at most 2^32 states. *)
Notation fits b := (N.of_nat (length (table b)) <= U32)%N.

Lemma set_cursor_wf b c : builder_wf b → nfa c = f → builder_wf (set_cursor b c).
Proof. by intros []. Qed.
Lemma set_cursor_inv p q keys b c : builder_inv p q keys b → builder_inv p q keys (set_cursor b c).
Proof. by intros []. Qed.

Lemma queue_from_snoc q keys c :
  q ≤ length keys → queue_from q (keys ++ [c]) = queue_from q keys ++ [mkQueueEntry (N.of_nat (length keys)) c.1 c.2].
Proof.
  intros Hq. unfold queue_from. rewrite drop_app_le by done. rewrite imap_app. cbn.
  rewrite length_drop. do 2 f_equal. f_equal. lia.
Qed.

Lemma add_state_spec fuel b sts ev :
  builder_wf b → (∀ s, s ∈ sts → N.to_nat s < length f) → length sts + 2 * length f ≤ fuel →
  ∃ id fresh b', add_state fuel b sts ev = Ok (id, fresh, b') ∧ grows b b' ∧
    N.to_nat id < length (table b') ∧
    (∀ i, i < length (table b) → table b' !! i = table b !! i) ∧
    is_closure f sts (state_ids (cursor b')) ∧
    (∀ p q keys, fits b' → builder_inv p q keys b → p ≤ length keys →
      ∃ keys', builder_inv p q keys' b' ∧ keys `prefix_of` keys' ∧
        keys' !! N.to_nat id = Some (state_ids (cursor b'), ev)).
Proof.
  intros Hb Hin Hf. pose proof Hb as [Hbg Hbn Hbs Hbm Hbc Hbq]. unfold add_state.
  destruct (reset_spec g Hg fuel (cursor b) sts Hbn Hin Hf) as (c & -> & Hc & Hcl). cbn [mbind outcome_bind].
  pose proof (is_closure_ok g Hg sts _ Hcl Hin) as Hok.
  destruct (state_ids_by_nfa_state_set b !! (state_ids c, ev)) as [id|] eqn:Hm.
  - exists id, false, (set_cursor b c). split; [done|]. split; [by split; [apply set_cursor_wf| |]|].
    split; [by apply (Hbm _ _ Hm)|]. split; [done|]. split; [done|]. intros p q keys _ Hi _. exists keys.
    split; [by apply set_cursor_inv|]. split; [done|]. by apply (bi_map _ _ _ _ Hi).
  - set (id := as_u32 (length (table b))).
    assert (N.to_nat id ≤ length (table b)) as Hid.
    { unfold id, as_u32, wrap_u32. pose proof (N.Div0.mod_le (N.of_nat (length (table b))) U32). lia. }
    eexists id, true, _. split; [done|].
    assert (length (table b ++ [default_lex_state]) = S (length (table b))) as Hlen by (rewrite length_app; cbn; lia).
    split; [|cbn [table cursor]; split; [lia|split; [intros; by apply lookup_app_l|split; [done|]]]].
    { split; cbn [table state_queue]; [|lia|rewrite length_app; cbn; lia]. split; cbn; [done|done| | | |].
      - rewrite map_size_insert_None by done. lia.
      - intros c' i. rewrite Hlen. destruct (decide (c' = (state_ids c, ev))) as [-> |Hne].
        + rewrite lookup_insert_eq. intros [= <-]. split; [done|lia].
        + rewrite lookup_insert_ne by done. intros [??]%Hbm. split; [done|lia].
      - apply Forall_app. split; [done|]. apply Forall_singleton, Forall_nil_2.
      - apply Forall_app. split; [|by apply Forall_singleton; cbn; split; [|lia]].
        eapply Forall_impl; [exact Hbq|]. intros e [??]. split; [done|]. rewrite Hlen. lia. }
    intros p q keys Hfit [Hik Him Hiq Hiqq Hif Hid'] Hp. cbn [table] in Hfit. rewrite Hlen in Hfit.
    assert (id = N.of_nat (length (table b))) as Hidd by (unfold id, as_u32; rewrite wrap_u32_small; lia).
    assert (N.to_nat id = length keys) as Hidn by lia.
    exists (keys ++ [(state_ids c, ev)]). split; [|split; [by apply prefix_app_r|by rewrite Hidn; apply list_lookup_middle]].
    split; cbn [table state_queue state_ids_by_nfa_state_set].
    + rewrite length_app, Hlen. cbn. lia.
    + intros c' i. destruct (decide (c' = (state_ids c, ev))) as [-> |Hne].
      * rewrite lookup_insert_eq. split; [intros [= <-]; by rewrite Hidn; apply list_lookup_middle|].
        intros [Hl|[Hge Hl]]%lookup_app_Some; [apply Him in Hl; congruence|].
        apply list_lookup_singleton_Some in Hl as [Hl _]. f_equal. lia.
      * rewrite lookup_insert_ne by done. rewrite Him, lookup_app_Some. split; [by left|]. intros [?|[Hge Hl]]; [done|].
        apply list_lookup_singleton_Some in Hl as [_ Hl]. by destruct Hne.
    + rewrite queue_from_snoc by lia. rewrite Hiq. cbn [fst snd]. do 3 f_equal. lia.
    + rewrite Hlen. lia.
    + intros i Hqi Hi. rewrite Hlen in Hi. destruct (decide (i = length (table b))) as [-> |Hne].
      * by apply list_lookup_middle.
      * rewrite lookup_app_l by lia. apply Hif; lia.
    + intros i c' Hpi Hl. rewrite lookup_app_l in Hl by lia. destruct (Hid' i c' Hpi Hl) as (st & Hst & Hspec).
      exists st. split; [by apply lookup_app_l_Some|]. eapply state_spec_mono; [|done]. by apply prefix_app_r.
Qed.

Lemma update_state_spec b i st h :
  builder_wf b → table b !! i = Some st → (chars_ok st → chars_ok (h st)) →
  ∃ b', update_state b i h = Ok b' ∧ grows b b' ∧ cursor b' = cursor b ∧ length (table b') = length (table b) ∧
    table b' !! i = Some (h st) ∧
    ∀ q keys, q ≤ S i → builder_inv i (S i) keys b → builder_inv i (S i) keys b'.
Proof.
  intros [Hbg Hbn Hbs Hbm Hbc Hbq] Hi Hch. pose proof (lookup_lt_Some _ _ _ Hi) as Hlt. unfold update_state.
  rewrite (vec_get_Some _ _ _ Hi). cbn [mbind outcome_bind]. rewrite vec_set_lt by done. cbn [mbind outcome_bind].
  eexists. split; [done|]. cbn [table cursor]. rewrite length_insert. split; [|split_and?; [done|done|by apply list_lookup_insert_eq|]].
  - split; cbn; rewrite ?length_insert; [|lia|lia]. split; cbn; rewrite ?length_insert; try done.
    apply Forall_insert; [done|]. apply Hch. rewrite Forall_forall in Hbc. apply Hbc. by eapply list_elem_of_lookup_2.
  - intros q keys _ [Hik Him Hiq Hiqq Hif Hid']. split; cbn; rewrite ?length_insert; [done..| |].
    + intros j Hj1 Hj2. rewrite list_lookup_insert_ne by lia. by apply Hif.
    + intros j c Hj Hc. rewrite list_lookup_insert_ne by lia. by apply Hid'.
Qed.

(** The action of a transition. *)
Definition action_for keys (ev : bool) (t : NfaTransition) (e : CharacterSet * AdvanceAction) : Prop :=
  e.1 = characters t ∧ in_main_token e.2 = negb (is_separator t) ∧
  ∃ S', is_closure f (states t) S' ∧ keys !! N.to_nat (aa_state e.2) = Some (S', ev && is_separator t).
Lemma action_for_mono keys keys' ev t e : keys `prefix_of` keys' → action_for keys ev t e → action_for keys' ev t e.
Proof.
  intros Hp (? & ? & S' & ? & Hk). split; [done|]. split; [done|]. exists S'. split; [done|]. by eapply prefix_lookup_Some.
Qed.

Definition target_ok (t : NfaTransition) : Prop :=
  cs_ok (characters t) ∧ states t ≠ [] ∧ ∀ s, s ∈ states t → N.to_nat s < length f.

Lemma add_transitions_spec fuel id ev o hs ts : ∀ b st,
  builder_wf b → table b !! N.to_nat id = Some st → Forall target_ok ts →
  Forall (λ t, length (states t) + 2 * length f ≤ fuel) ts →
  ∃ b' acts, add_transitions fuel b id ev o hs ts = Ok b' ∧ grows b b' ∧
    table b' !! N.to_nat id = Some (mkLexState (accept_action st) (eof_action st) (advance_actions st ++ acts)) ∧
    (if decide (filter (λ t, keep_transition g o hs t = true) ts = []) then cursor b' = cursor b
     else state_ids (cursor b') ≠ []) ∧
    (∀ keys, fits b' → builder_inv (N.to_nat id) (S (N.to_nat id)) keys b →
      ∃ keys', builder_inv (N.to_nat id) (S (N.to_nat id)) keys' b' ∧ keys `prefix_of` keys' ∧
        Forall2 (action_for keys' ev) (filter (λ t, keep_transition g o hs t = true) ts) acts).
Proof.
  induction ts as [|t ts IH]; intros b st Hb Hst Hts Hf; cbn [add_transitions].
  { exists b, []. split; [done|]. split; [by apply grows_refl|]. rewrite List.app_nil_r.
    split; [by destruct st|]. split; [done|]. intros keys _ Hi. exists keys. by split_and?. }
  apply Forall_cons in Hts as [(Hcs & Hne & Ht) Hts]. apply Forall_cons in Hf as [Hft Hf]. rewrite filter_cons, (bw_grammar _ Hb).
  destruct (keep_transition g o hs t) eqn:Hk.
  2: { rewrite decide_False by done. by apply IH. }
  rewrite (decide_True (P:=true = true)) by done.
  destruct (add_state_spec fuel b (states t) (ev && is_separator t) Hb Ht Hft)
    as (nid & fresh & b1 & -> & Hg1 & Hnid & Hold1 & Hcl1 & Hinv1). cbn [mbind outcome_bind].
  assert (table b1 !! N.to_nat id = Some st) as Hst1 by (rewrite Hold1; [done|by eapply lookup_lt_Some]).
  destruct (update_state_spec b1 (N.to_nat id) st
    (λ st, mkLexState (accept_action st) (eof_action st)
             (advance_actions st ++ [(characters t, mkAdvance nid (negb (is_separator t)))])) (gr_wf _ _ Hg1) Hst1)
    as (b2 & -> & Hg2 & Hc2 & Hl2 & Hst2 & Hinv2);
    [intros Hch; apply Forall_app; split; [exact Hch|by apply Forall_singleton]|]. cbn [mbind outcome_bind].
  destruct (IH b2 _ (gr_wf _ _ Hg2) Hst2 Hts Hf) as (b3 & acts & -> & Hg3 & Hst3 & Hcur & Hinv3).
  exists b3, ((characters t, mkAdvance nid (negb (is_separator t))) :: acts). split; [done|].
  split; [by eapply grows_trans; [exact Hg1|]; eapply grows_trans|]. cbn [accept_action eof_action advance_actions] in Hst3.
  split; [by rewrite Hst3, <- (assoc_L (++))|]. split.
  { destruct (decide (t :: _ = [])); [done|]. destruct (decide (filter _ ts = [])); [|done]. rewrite Hcur, Hc2. by eapply is_closure_nonempty. }
  intros keys Hfit Hi. pose proof (gr_len _ _ Hg3) as Hl3.
  destruct (Hinv1 (N.to_nat id) (S (N.to_nat id)) keys) as (k1 & Hi1 & Hp1 & Hk1); [lia|done| |].
  { rewrite (bi_keys _ _ _ _ Hi). apply lookup_lt_Some in Hst. lia. }
  destruct (Hinv3 k1 Hfit) as (k2 & Hi2 & Hp2 & Hall); [by eapply Hinv2|].
  exists k2. split; [done|]. split; [by etrans|]. constructor; [|done]. apply (action_for_mono k1); [done|].
  split; [done|]. split; [done|]. exists (state_ids (cursor b1)). by split.
Qed.

(** The actions of the kept transitions are the moves of the configuration. *)
Lemma lex_next_spec keys S_ ev o ts acts st x :
  set_ok g S_ → best g S_ o →
  (∀ t x, t ∈ ts → cs_mem x (characters t) = true → target_of x (raws f S_) (key t)) →
  (∀ x k, target_of x (raws f S_) k → ∃ t, t ∈ ts ∧ cs_mem x (characters t) = true ∧ key t = k) →
  let hs := existsb (λ '(_, is_sep, _, _), is_sep) (raws f S_) in
  Forall2 (action_for keys ev) (filter (λ t, keep_transition g o hs t = true) ts) acts →
  advance_actions st = acts →
  match lex_next st x with
  | None => ∀ c' main, ¬ lex_move g (S_, ev) x c' main
  | Some a => ∃ c', lex_move g (S_, ev) x c' (in_main_token a) ∧ keys !! N.to_nat (aa_state a) = Some c'
  end.
Proof.
  intros Hok Ho Hto Hex hs Hall Hst. unfold lex_next. rewrite Hst. destruct (List.filter _ acts) as [|[cs a] l] eqn:Hf; cbn.
  - intros c' main Hmove. destruct Hmove as [sep prec sts S' o' Ht Ho' Hk Hcl]. cbn [fst snd] in *.
    assert (o' = o) as -> by (eapply best_of_unique; [by apply comps_valid|done..]).
    destruct (Hex _ _ Ht) as (t & Htin & Hx & Hkey). unfold key in Hkey. injection Hkey as Hk1 Hk2 Hk3.
    assert (t ∈ filter (λ t, keep_transition g o hs t = true) ts) as Hin.
    { apply list_elem_of_filter. split; [|done]. apply (keep_transition_spec g Hg); [by eapply best_valid|]. by rewrite Hk1, Hk2, Hk3. }
    apply list_elem_of_lookup in Hin as [i Hi]. destruct (Forall2_lookup_l _ _ _ _ _ Hall Hi) as ([cs a] & Ha & Hcs & _).
    assert (In (cs, a) (List.filter (λ e, cs_mem x e.1) acts)) as Hbad; [|by rewrite Hf in Hbad].
    apply filter_In. split; [apply list_elem_of_In; by eapply list_elem_of_lookup_2|]. cbn in *. by rewrite Hcs.
  - assert (In (cs, a) (List.filter (λ e, cs_mem x e.1) acts)) as Hin by (rewrite Hf; by left).
    apply filter_In in Hin as [Hin Hx]. apply list_elem_of_In, list_elem_of_lookup in Hin as [i Hi].
    destruct (Forall2_lookup_r _ _ _ _ _ Hall Hi) as (t & Ht & Hcs & Hm & S' & Hcl & Hk). cbn [fst snd] in *.
    apply list_elem_of_lookup_2, list_elem_of_filter in Ht as [Hkeep Ht]. exists (S', ev && is_separator t).
    split; [|done]. rewrite Hm. rewrite Hcs in Hx.
    apply (keep_transition_spec g Hg) in Hkeep; [|by eapply best_valid].
    exact (lex_move_intro g (S_, ev) x _ _ _ S' o (Hto _ _ Ht Hx) Ho Hkeep Hcl).
Qed.

(** An empty set of configurations has no transition; a set without
    completions that is not empty has one. *)
Lemma raws_nil S_ : set_ok g S_ → comps f S_ = [] → raws f S_ = [] ↔ S_ = [].
Proof.
  intros [_ Hok] Hc. split; [|by intros ->]. intros Hr. destruct S_ as [|x S_]; [done|exfalso].
  destruct (Hok x) as [Hx Hns]; [apply list_elem_of_here|].
  destruct (lookup_lt_is_Some_2 f (N.to_nat x) Hx) as [[cs id sp pr|l r|v p] Hst].
  - assert ((cs, sp, pr, id) ∈ raws f (x :: S_)) as Hin; [|rewrite Hr in Hin; by apply elem_of_nil in Hin].
    apply raws_elem. exists x. split; [apply list_elem_of_here|done].
  - apply Hns. by exists l, r.
  - assert ((v, p) ∈ comps f (x :: S_)) as Hin; [|rewrite Hc in Hin; by apply elem_of_nil in Hin].
    apply comps_elem. exists x. split; [apply list_elem_of_here|done].
Qed.

(** The action on the end of the file. *)
Lemma add_eof_spec fuel b (ev : bool) i st :
  builder_wf b → table b !! i = Some st → 2 * length f ≤ fuel →
  ∃ b' st', (if ev then
         '(next_state_id, _, b) ← add_state fuel b [] false;
         update_state b i
           (λ st, mkLexState (accept_action st) (Some (mkAdvance next_state_id true)) (advance_actions st))
       else Ok b) = Ok b' ∧ grows b b' ∧ table b' !! i = Some st' ∧
    accept_action st' = accept_action st ∧ advance_actions st' = advance_actions st ∧
    (if ev then state_ids (cursor b') = [] else cursor b' = cursor b) ∧
    (∀ keys, fits b' → builder_inv i (S i) keys b →
      ∃ keys', builder_inv i (S i) keys' b' ∧ keys `prefix_of` keys' ∧
        (if ev then ∃ t, eof_action st' = Some (mkAdvance t true) ∧ keys' !! N.to_nat t = Some ([], false)
         else eof_action st' = eof_action st)).
Proof.
  intros Hb Hst Hf. destruct ev.
  - destruct (add_state_spec fuel b [] false Hb) as (nid & fr & b1 & -> & Hg1 & Hnid & Hold & Hcl & Hinv);
      [by intros s ?%elem_of_nil|cbn; lia|]. cbn [mbind outcome_bind].
    assert (table b1 !! i = Some st) as Hst1 by (rewrite Hold; [done|by eapply lookup_lt_Some]).
    destruct (update_state_spec b1 i st
      (λ st, mkLexState (accept_action st) (Some (mkAdvance nid true)) (advance_actions st)) (gr_wf _ _ Hg1) Hst1 (λ H, H))
      as (b2 & -> & Hg2 & Hc2 & Hl2 & Hst2 & Hinv2).
    assert (state_ids (cursor b1) = []) as Hnil.
    { destruct Hcl as [_ Hx]. destruct (state_ids (cursor b1)) as [|x l]; [done|]. exfalso.
      destruct (proj1 (Hx x) (list_elem_of_here _ _)) as (_ & s & Hs & _). by apply elem_of_nil in Hs. }
    exists b2. eexists. split; [done|]. split; [by eapply grows_trans|]. split; [done|]. split; [done|]. split; [done|].
    split; [by rewrite Hc2|]. intros keys Hfit Hi. destruct (Hinv i (S i) keys) as (k1 & Hi1 & Hp1 & Hk1); [lia|done| |].
    { rewrite (bi_keys _ _ _ _ Hi). apply lookup_lt_Some in Hst. lia. }
    exists k1. split; [by eapply Hinv2|]. split; [done|]. exists nid. split; [done|]. by rewrite Hnil in Hk1.
  - exists b, st. split; [done|]. split; [by apply grows_refl|]. split; [done|]. split; [done|]. split; [done|].
    split; [done|]. intros keys _ Hi. by exists keys.
Qed.

Lemma populate_state_spec fuel b id S_ ev st0 :
  builder_wf b → table b !! N.to_nat id = Some st0 → set_ok g S_ → 3 * length f ≤ fuel →
  ∃ b', populate_state fuel b id S_ ev = Ok b' ∧ grows b b' ∧
    ∀ keys, fits b' → st0 = default_lex_state →
      builder_inv (N.to_nat id) (S (N.to_nat id)) keys b → keys !! N.to_nat id = Some (S_, ev) →
      ∃ keys', builder_inv (S (N.to_nat id)) (S (N.to_nat id)) keys' b' ∧ keys `prefix_of` keys'.
Proof.
  intros Hb Hst Hok Hf. unfold populate_state.
  set (b0 := set_cursor b (force_reset (cursor b) S_)).
  assert (builder_wf b0) as Hb0 by (apply set_cursor_wf; [done|apply (bw_nfa _ Hb)]).
  rewrite (comps_spec g (cursor b0) (bw_nfa _ Hb0) Hok). cbn [mbind outcome_bind].
  rewrite (bw_grammar _ Hb0).
  destruct (best_completion_spec g (comps f S_)) as (o & Ho & Hbest); [by apply comps_valid|].
  cbn [state_ids cursor b0 set_cursor force_reset]. rewrite Ho. cbn [mbind outcome_bind].
  destruct (grouped_spec g Hg (cursor b0) (bw_nfa _ Hb0) Hok) as (ts & Hgr & Hnil & Hto & Hex & Hne).
  cbn [state_ids cursor b0 set_cursor force_reset] in Hgr, Hnil, Hto, Hex. rewrite Hgr. cbn [mbind outcome_bind]. clear Ho Hgr.
  assert (Forall (λ t, target_ok t ∧ length (states t) ≤ length f) ts) as Hts.
  { apply Forall_forall. intros t Ht. rewrite Forall_forall in Hne. destruct (Hne t Ht) as [Hcst [x Hx]].
    pose proof (Hto t x Ht Hx) as Htt. destruct (target_in_range g Hg _ _ _ _ _ Htt) as [H1 H2].
    split; [by split_and?|]. destruct Htt as (_ & _ & _ & _ & Hsort & _). by apply lt_sorted_length. }
  destruct (add_eof_spec fuel b0 ev (N.to_nat id) st0 Hb0 Hst) as
    (b1 & st1 & -> & Hg1 & Hst1 & Hacc1 & Hadv1 & Hc1 & Hinv1); [lia|]. cbn [mbind outcome_bind].
  destruct (add_transitions_spec fuel id ev o (existsb (λ '(_, is_sep, _, _), is_sep) (raws f S_)) ts b1 st1
    (gr_wf _ _ Hg1) Hst1) as (b2 & acts & -> & Hg2 & Hst2 & Hc2 & Hinv2).
  { eapply Forall_impl; [exact Hts|]. by intros t [? _]. }
  { eapply Forall_impl; [exact Hts|]. intros t [_ ?]. lia. }
  cbn [mbind outcome_bind]. rewrite Hadv1, Hacc1 in Hst2.
  set (acc := match o with Some (cid, _) => Some (terminal (N.of_nat cid))
              | None => if bool_decide (state_ids (cursor b2) = []) then Some end_ else accept_action st0 end).
  assert (∃ b3, match o with
    | Some (cid, _) => update_state b2 (N.to_nat id)
        (λ st, mkLexState (Some (terminal (N.of_nat cid))) (eof_action st) (advance_actions st))
    | None => if bool_decide (state_ids (cursor b2) = []) then
        update_state b2 (N.to_nat id) (λ st, mkLexState (Some end_) (eof_action st) (advance_actions st)) else Ok b2
    end = Ok b3 ∧ grows b2 b3 ∧ length (table b3) = length (table b2) ∧
    table b3 !! N.to_nat id = Some (mkLexState acc (eof_action st1) (advance_actions st0 ++ acts)) ∧
    ∀ keys, builder_inv (N.to_nat id) (S (N.to_nat id)) keys b2 → builder_inv (N.to_nat id) (S (N.to_nat id)) keys b3)
    as (b3 & -> & Hg3 & Hl3 & Hst3 & Hinv3).
  { pose proof (λ h, update_state_spec b2 (N.to_nat id) _ h (gr_wf _ _ Hg2) Hst2) as Hup.
    unfold acc. destruct o as [[cid p]|]; [|case_bool_decide].
    - destruct (Hup (λ st, mkLexState (Some (terminal (N.of_nat cid))) (eof_action st) (advance_actions st)) (λ H, H))
        as (b3 & -> & ? & _ & ? & ? & Hi). exists b3. split_and?; try done. intros. by eapply Hi.
    - destruct (Hup (λ st, mkLexState (Some end_) (eof_action st) (advance_actions st)) (λ H, H))
        as (b3 & -> & ? & _ & ? & ? & Hi). exists b3. split_and?; try done. intros. by eapply Hi.
    - exists b2. split; [done|]. split; [apply grows_refl, Hg2|]. by split_and?. }
  exists b3. split; [done|].
  assert (grows b b0) as Hg0 by by split.
  split; [by eapply grows_trans; [exact Hg0|]; eapply grows_trans; [exact Hg1|]; eapply grows_trans|].
  intros keys Hfit Hdef Hi Hk. subst st0. rewrite Hl3 in Hfit. pose proof (gr_len _ _ Hg2) as Hl2.
  destruct (Hinv1 keys) as (k1 & Hi1 & Hp1 & Heof); [lia|by apply set_cursor_inv|].
  destruct (Hinv2 k1 Hfit Hi1) as (k2 & Hi2 & Hp2 & Hacts). exists k2. split; [|by etrans].
  assert (keys `prefix_of` k2) as Hp by by etrans.
  destruct (Hinv3 k2 Hi2) as [Hik Him Hiq Hiqq Hif Hid]. split; [done..|].
  intros i c Hlt Hc. destruct (decide (i = N.to_nat id)) as [-> |Hne']; [|apply Hid; [lia|done]].
  assert (c = (S_, ev)) as -> by (pose proof (prefix_lookup_Some _ _ _ _ Hk Hp); congruence).
  eexists. split; [exact Hst3|]. split; [|split; [|split]]; cbn [fst snd accept_action eof_action].
  - exists o. split; [done|]. unfold acc. destruct o as [[cid p]|]; [done|]. cbn in Hbest.
    assert (state_ids (cursor b2) = [] ↔ S_ = []) as Heq; [|by rewrite (bool_decide_ext _ _ Heq)].
    rewrite <- (raws_nil S_ Hok Hbest), <- Hnil.
    assert (filter (λ t, keep_transition g None (existsb (λ '(_, is_sep, _, _), is_sep) (raws f S_)) t = true) ts = ts) as Hall.
    { clear. induction ts as [|t ts IH]; [done|]. rewrite filter_cons. cbn [keep_transition].
      rewrite decide_True by done. by f_equal. }
    rewrite Hall in Hc2. destruct (decide (ts = [])) as [-> |Hn]; [|by split].
    split; [done|]. intros _. rewrite Hc2. destruct ev; [done|]. rewrite Hc1. cbn.
    apply (raws_nil S_ Hok Hbest). by apply Hnil.
  - destruct ev; [|done]. destruct Heof as (t & Ht & Hkt). exists t. split; [done|]. by eapply prefix_lookup_Some.
  - intros x. by eapply lex_next_spec.
  - cbn [advance_actions default_lex_state app]. apply Forall_lookup_2. intros i e He.
    destruct (Forall2_lookup_r _ _ _ _ _ Hacts He) as (t & Ht & Hcs & _ & S' & _ & Hkt).
    apply list_elem_of_lookup_2, list_elem_of_filter in Ht as [_ Ht]. rewrite Forall_forall in Hne.
    split; [rewrite Hcs; by apply (Hne t Ht)|by eapply lookup_lt_Some].
Qed.

(** ** Termination: there are finitely many configurations *)
Fixpoint sublists {A} (l : list A) : list (list A) :=
  match l with [] => [[]] | x :: l => map (cons x) (sublists l) ++ sublists l end.
Lemma sublists_length {A} (l : list A) : length (sublists l) = 2 ^ length l.
Proof. induction l as [|x l IH]; [done|]. cbn [sublists length Nat.pow]. rewrite length_app, length_map, IH. lia. Qed.
Lemma sublists_sorted n : ∀ m S_,
  StronglySorted N.lt S_ → (∀ x, x ∈ S_ → m ≤ N.to_nat x ∧ N.to_nat x < m + n) → S_ ∈ sublists (map N.of_nat (seq m n)).
Proof.
  induction n as [|n IH]; intros m S_ Hs Hx.
  - destruct S_ as [|x S_]; [apply list_elem_of_here|]. destruct (Hx x (list_elem_of_here _ _)). lia.
  - cbn [seq map sublists]. apply elem_of_app. destruct S_ as [|x S_].
    + right. apply IH; [constructor|]. by intros x ?%elem_of_nil.
    + apply StronglySorted_inv in Hs as [Hs Hlt]. rewrite Forall_forall in Hlt.
      assert (∀ y, y ∈ S_ → S m ≤ N.to_nat y ∧ N.to_nat y < S m + n) as Hy.
      { intros y Hy. specialize (Hlt y Hy). destruct (Hx x (list_elem_of_here _ _)). destruct (Hx y); [by apply list_elem_of_further|]. lia. }
      destruct (decide (N.to_nat x = m)) as [Heq|Hne].
      * left. apply elem_of_map. exists S_. split; [f_equal; lia|]. by apply IH.
      * right. apply IH; [by constructor; [|apply Forall_forall]|]. intros y [-> |Hin]%elem_of_cons; [|by apply Hy].
        destruct (Hx x (list_elem_of_here _ _)). lia.
Qed.

(** The number of configurations. *)
Definition config_count : nat := 2 ^ S (length f).
Lemma table_bound b : builder_wf b → length (table b) ≤ config_count.
Proof.
  intros Hb. rewrite <- (bw_size _ Hb). rewrite <- size_dom.
  set (all := list_prod (sublists (map N.of_nat (seq 0 (length f)))) [true; false]).
  transitivity (length all).
  - transitivity (size (list_to_set all : gset config)).
    + apply subseteq_size. intros c [i Hi]%elem_of_dom. destruct (bw_map _ Hb _ _ Hi) as [[Hs Hx] _].
      apply elem_of_list_to_set, list_elem_of_In. destruct c as [S_ ev]. apply in_prod; [|destruct ev; cbn; tauto].
      apply list_elem_of_In, sublists_sorted; [done|]. intros x Hin. destruct (Hx x Hin). cbn in *. lia.
    + clear. induction all as [|c l IH]; [done|]. cbn [list_to_set length].
      rewrite size_union_alt, size_singleton.
      pose proof (subseteq_size (list_to_set l ∖ {[c]}) (list_to_set l : gset config) ltac:(set_solver)). cbn in *. lia.
  - unfold all. rewrite length_prod, sublists_length, length_map, length_seq. unfold config_count. cbn. lia.
Qed.

Lemma set_queue_wf b e q : builder_wf b → state_queue b = e :: q → builder_wf (set_queue b q).
Proof. intros [? ? ? ? ? Hq] Heq. rewrite Heq in Hq. apply Forall_cons in Hq as [_ Hq]. by split. Qed.


Lemma queue_from_S p keys c : keys !! p = Some c →
  queue_from p keys = mkQueueEntry (N.of_nat p) c.1 c.2 :: queue_from (S p) keys.
Proof.
  intros Hp. unfold queue_from. rewrite (drop_S _ _ _ Hp). cbn [imap]. rewrite Nat.add_0_r. f_equal.
  apply imap_ext. intros j c' _. cbn. do 2 f_equal. lia.
Qed.

Lemma populate_loop_spec fuel n : ∀ b,
  builder_wf b → 3 * length f ≤ fuel → length (state_queue b) + (config_count - length (table b)) ≤ n →
  ∃ b', populate_loop fuel n b = Ok b' ∧ builder_wf b' ∧ length (table b) ≤ length (table b') ∧ state_queue b' = [] ∧
    ∀ p keys, fits b' → builder_inv p p keys b →
      ∃ keys', builder_inv (length keys') (length keys') keys' b' ∧ keys `prefix_of` keys'.
Proof.
  induction n as [|n IH]; intros b Hb Hf Hn; cbn [populate_loop]; destruct (state_queue b) as [|[id S_ ev] queue] eqn:Hq.
  2: cbn in Hn; lia.
  1,2: exists b; split; [done|]; split; [done|]; split; [done|]; split; [done|]; intros p keys _ Hi;
    exists keys; split; [|done]; pose proof Hi as [Hik Him Hiq Hiqq Hif Hid];
    assert (p = length keys) as <-; [|done]; rewrite Hq in Hiq; destruct (lookup_lt_is_Some keys p) as [_ Hs];
    destruct (decide (p < length keys)) as [Hlt|]; [|lia]; destruct (Hs Hlt) as [c Hc];
    rewrite (queue_from_S _ _ _ Hc) in Hiq; discriminate Hiq.
  cbn [qe_state_id qe_nfa_states qe_eof_valid].
  pose proof (set_queue_wf b _ queue Hb Hq) as Hb0. pose proof (bw_queue _ Hb) as Hqs. rewrite Hq in Hqs.
  apply Forall_cons in Hqs as [[Hok Hid] _]. cbn [qe_nfa_states qe_state_id] in Hok, Hid.
  destruct (lookup_lt_is_Some_2 _ _ Hid) as [st0 Hst0].
  destruct (populate_state_spec fuel (set_queue b queue) id S_ ev st0 Hb0 Hst0 Hok Hf) as (b1 & -> & Hg1 & Hinv1).
  cbn [mbind outcome_bind]. pose proof (table_bound _ (gr_wf _ _ Hg1)). destruct Hg1 as [Hw1 Hl1 Hq1].
  cbn [table state_queue set_queue length] in Hl1, Hq1, Hn.
  destruct (IH b1 Hw1 Hf) as (b' & -> & Hw' & Hl' & Hq' & Hinv'); [lia|].
  exists b'. split; [done|]. split; [done|]. split; [lia|]. split; [done|]. intros p keys Hfit Hi.
  pose proof Hi as [Hik Him Hiq Hiqq Hif Hidd]. rewrite Hq in Hiq.
  destruct (keys !! p) as [c|] eqn:Hp.
  2: { unfold queue_from in Hiq. rewrite drop_ge in Hiq by by apply lookup_ge_None. discriminate Hiq. }
  rewrite (queue_from_S _ _ _ Hp) in Hiq. injection Hiq as Hip HS Hev Hqq.
  assert (N.to_nat id = p) as Hidp by lia. rewrite Hidp in Hinv1, Hst0.
  destruct (Hinv1 keys) as (k1 & Hi1 & Hp1); [lia| | |by rewrite HS, Hev, Hp; destruct c|].
  { apply lookup_lt_Some in Hp. rewrite Hif in Hst0; [by injection Hst0|lia|lia]. }
  { split; cbn; [done|done|done|apply lookup_lt_Some in Hp; lia|intros; apply Hif; lia|done]. }
  destruct (Hinv' (S p) k1 Hfit Hi1) as (k2 & Hi2 & Hp2). exists k2. split; [done|]. by etrans.
Qed.

(** A builder between two calls: every state is complete. *)
Definition built keys b : Prop := builder_wf b ∧ builder_inv (length keys) (length keys) keys b.

Lemma builder_new_spec fuel : 2 * length f ≤ fuel → ∃ b, builder_new fuel g = Ok b ∧ built [] b ∧ table b = [].
Proof.
  intros Hf. unfold builder_new, Nfa.new.
  destruct (add_states_spec (E:=Empty_set) fuel (mkCursor [] f) []) as (c & -> & Hc & _); cbn;
    [by apply Hg|by intros s ?%elem_of_nil|constructor|lia|].
  eexists. split; [done|]. split; [|done]. split.
  - split; cbn; [done|done|by rewrite map_size_empty| |constructor|constructor]. intros c' i. by rewrite lookup_empty.
  - split; cbn; [done| |done|lia|lia|lia]. intros c' i. rewrite lookup_empty, lookup_nil. done.
Qed.
Lemma builder_reset_spec b : builder_wf b → built [] (builder_reset b).
Proof.
  intros []. split.
  - split; cbn; [done|done|by rewrite map_size_empty| |constructor|constructor]. intros c' i. by rewrite lookup_empty.
  - split; cbn; [done| |done|lia|lia|lia]. intros c' i. rewrite lookup_empty, lookup_nil. done.
Qed.

(** The NFA states in which the tokens start. *)
Definition starts (tokens : TokenSet) (s : N) : Prop :=
  ∃ t v, t ∈ toks tokens ∧ is_terminal t = true ∧ lg_variables g !! N.to_nat (index t) = Some v ∧ s = start_state v.

Lemma token_start_states_spec l :
  (∀ t, t ∈ l → is_terminal t = true → N.to_nat (index t) < length (lg_variables g)) →
  ∃ ss ev, token_start_states g l = Ok (ss, ev) ∧ length ss ≤ length l ∧
    (∀ s, s ∈ ss ↔ ∃ t v, t ∈ l ∧ is_terminal t = true ∧ lg_variables g !! N.to_nat (index t) = Some v ∧ s = start_state v) ∧
    (ev = true ↔ ∃ t, t ∈ l ∧ is_terminal t = false).
Proof.
  induction l as [|t l IH]; intros Hl; cbn [token_start_states].
  { exists [], false. split; [done|]. split; [done|]. split; [|by split; [|intros (t & ?%elem_of_nil & _)]].
    intros s. split; [by intros ?%elem_of_nil|]. by intros (t & v & ?%elem_of_nil & _). }
  destruct IH as (ss & ev & Heq & Hlen & Hss & Hev); [intros; apply Hl; [by apply list_elem_of_further|done]|].
  rewrite Heq. setoid_rewrite elem_of_cons. destruct (is_terminal t) eqn:Ht.
  - destruct (lookup_lt_is_Some_2 (lg_variables g) (N.to_nat (index t))) as [v Hv]; [apply Hl; [apply list_elem_of_here|done]|].
    rewrite (vec_get_Some _ _ _ Hv). cbn [mbind outcome_bind]. exists (start_state v :: ss), ev. split; [done|]. split; [cbn; lia|]. split.
    + intros s. rewrite elem_of_cons, Hss. split; [intros [-> |(t' & v' & ?)]; [by exists t, v; auto|exists t', v'; tauto]|].
      intros (t' & v' & [-> |?] & ? & ? & ->); [left; congruence|right; by exists t', v'].
    + rewrite Hev. split; [intros (t' & ?); exists t'; tauto|]. intros (t' & [-> |?] & ?); [congruence|by exists t'].
  - cbn [mbind outcome_bind]. exists ss, true. split; [done|]. split; [cbn; lia|]. split.
    + intros s. rewrite Hss. split; [intros (t' & v' & ?); exists t', v'; tauto|].
      intros (t' & v' & [-> |?] & ? & ? & ->); [congruence|by exists t', v'].
    + split; [|done]. intros _. exists t. auto.
Qed.

Definition tokens_ok (tokens : TokenSet) : Prop :=
  wf tokens ∧ ∀ t, t ∈ toks tokens → is_terminal t = true → N.to_nat (index t) < length (lg_variables g).

(** The configuration in which the lexer looks for the tokens: the closure of
    their start states, with the end of the file when a token is no terminal. *)
Definition is_start (tokens : TokenSet) (c : config) : Prop :=
  StronglySorted N.lt c.1 ∧ (∀ x, x ∈ c.1 ↔ ¬ is_split f x ∧ ∃ s, starts tokens s ∧ eps f s x) ∧
  (c.2 = true ↔ ∃ t, t ∈ toks tokens ∧ is_terminal t = false).
Definition start_config keys (tokens : TokenSet) (id : LexStateId) : Prop :=
  ∃ c, keys !! N.to_nat id = Some c ∧ is_start tokens c.
Lemma start_config_mono keys keys' tokens id :
  keys `prefix_of` keys' → start_config keys tokens id → start_config keys' tokens id.
Proof. intros Hp (c & Hk & H). exists c. split; [by eapply prefix_lookup_Some|done]. Qed.

Lemma add_state_for_tokens_spec fuel n b tokens :
  builder_wf b → state_queue b = [] → tokens_ok tokens → len tokens + 3 * length f ≤ fuel → config_count ≤ n →
  ∃ id b', add_state_for_tokens fuel n b tokens = Ok (id, b') ∧
    builder_wf b' ∧ state_queue b' = [] ∧ length (table b) ≤ length (table b') ∧ N.to_nat id < length (table b') ∧
    ∀ keys, fits b' → built keys b → ∃ keys', built keys' b' ∧ keys `prefix_of` keys' ∧ start_config keys' tokens id.
Proof.
  intros Hb Hq [Hw Ht] Hf Hn. unfold add_state_for_tokens.
  destruct (toks_iter_spec tokens Hw) as (l & Hl & _ & Hlx & Hlen). rewrite Hl. cbn [mbind outcome_bind].
  assert (∀ t, t ∈ l ↔ t ∈ toks tokens) as Hlt by (intros t; rewrite Hlx; symmetry; by apply elem_of_toks).
  rewrite (bw_grammar _ Hb).
  destruct (token_start_states_spec l) as (ss & ev & -> & Hsl & Hss & Hev); [intros t Htl; apply Ht; by apply Hlt|].
  cbn [mbind outcome_bind].
  destruct (add_state_spec fuel b ss ev Hb) as (id & fr & b1 & -> & Hg1 & Hid & Hold & Hcl & Hinv); [|lia|].
  { intros s (t & v & _ & _ & Hv & ->)%Hss. pose proof (lx_start _ Hg) as Hst. rewrite Forall_forall in Hst.
    apply Hst. by eapply list_elem_of_lookup_2. }
  cbn [mbind outcome_bind]. destruct Hg1 as [Hw1 Hl1 Hq1]. pose proof (table_bound _ Hw1).
  rewrite Hq in Hq1. cbn in Hq1.
  destruct (populate_loop_spec fuel n b1 Hw1) as (b' & -> & Hw' & Hl' & Hq' & Hinv'); [lia|lia|].
  cbn [mbind outcome_bind]. exists id, b'. split; [done|]. split; [done|]. split; [done|]. split; [lia|]. split; [lia|].
  intros keys Hfit [_ Hi].
  destruct (Hinv (length keys) (length keys) keys) as (k1 & Hi1 & Hp1 & Hk1); [lia|done|done|].
  destruct (Hinv' (length keys) k1 Hfit Hi1) as (k2 & Hi2 & Hp2).
  exists k2. split; [by split|]. split; [by etrans|]. exists (state_ids (cursor b1), ev).
  split; [by eapply prefix_lookup_Some|]. destruct Hcl as [Hsort Hx]. split; [done|]. cbn [fst snd]. split.
  - intros x. rewrite Hx. unfold starts. setoid_rewrite Hss. setoid_rewrite Hlt. done.
  - rewrite Hev. setoid_rewrite Hlt. done.
Qed.
Lemma built_queue keys b : built keys b → state_queue b = [].
Proof. intros [_ Hi]. rewrite (bi_queue _ _ _ _ Hi). unfold queue_from. by rewrite drop_ge. Qed.

(** ** Runs *)

(** The run of the lexer over a string, and of the table. *)
Inductive lex_run : config → list N → config → Prop :=
  | lex_run_nil c : lex_run c [] c
  | lex_run_cons c x c1 main w c2 : lex_move g c x c1 main → lex_run c1 w c2 → lex_run c (x :: w) c2.
Fixpoint table_run (t : LexTable) (i : LexStateId) (w : list N) : option LexStateId :=
  match w with
  | [] => Some i
  | x :: w => st ← t !! N.to_nat i; a ← lex_next st x; table_run t (aa_state a) w
  end.

Lemma is_closure_unique sts S_ S' : is_closure f sts S_ → is_closure f sts S' → S_ = S'.
Proof. intros [Hs Hx] [Hs' Hx']. apply lt_sorted_unique; [done..|]. intros x. by rewrite Hx, Hx'. Qed.
Lemma lex_move_unique c x c1 m1 c2 m2 : lex_move g c x c1 m1 → lex_move g c x c2 m2 → c1 = c2 ∧ m1 = m2.
Proof.
  intros [s1 p1 t1 S1 o1 Ht1 Ho1 Hk1 Hc1] [s2 p2 t2 S2 o2 Ht2 Ho2 Hk2 Hc2].
  pose proof (target_of_unique _ _ _ _ Ht1 Ht2) as [= -> -> ->]. by rewrite (is_closure_unique _ _ _ Hc1 Hc2).
Qed.

Lemma table_run_spec keys b w : ∀ i c,
  built keys b → keys !! N.to_nat i = Some c →
  match table_run (table b) i w with
  | Some j => ∃ c' st, lex_run c w c' ∧ keys !! N.to_nat j = Some c' ∧ table b !! N.to_nat j = Some st ∧ state_spec g keys c' st
  | None => ∀ c', ¬ lex_run c w c'
  end.
Proof.
  induction w as [|x w IH]; intros i c Hb Hi; cbn [table_run]; pose proof (lookup_lt_Some _ _ _ Hi) as Hlt;
    destruct (bi_done _ _ _ _ (proj2 Hb) _ _ Hlt Hi) as (st & Hst & Hspec).
  { exists c, st. split; [constructor|done]. }
  rewrite Hst. cbn. pose proof Hspec as (_ & _ & Hx & _). specialize (Hx x). destruct (lex_next st x) as [a|]; cbn.
  - destruct Hx as (c1 & Hm & Hk). specialize (IH _ _ Hb Hk). destruct (table_run (table b) (aa_state a) w).
    + destruct IH as (c' & st' & Hr & ? & ? & ?). exists c', st'. split; [by econstructor|done].
    + intros c' Hr. inversion Hr as [|? ? c2 main ? ? Hm' Hr']; subst.
      destruct (lex_move_unique _ _ _ _ _ _ Hm Hm') as [<- _]. by eapply IH.
  - intros c' Hr. inversion Hr as [|? ? c2 main ? ? Hm' Hr']; subst. by eapply Hx.
Qed.
End builder.

(** C9: [add_state_for_tokens] always ends (within as many queue entries as
    there are sets of NFA states) and adds to a complete table the complete
    determinization for the given tokens: every state of the table stands for
    a set of NFA states, the returned state for the closure of the tokens'
    start states, and each state accepts and moves exactly as the NFA lexer
    does from its set.  That lexer accepts the first of the completed tokens
    by precedence, implicit precedence and position, and moves on a character
    to all the targets of its transitions, unless the completed token's
    precedence is higher, or is equal and the transition is a separator or
    leaves the token of a set with separators.  The ids are [u32]: the result
    is stated for tables of at most 2^32 states. *)
Theorem add_state_for_tokens_correct (g : LexicalGrammar) (fuel n : nat) (b : LexTableBuilder) (keys : list config)
    (tokens : TokenSet) :
  lexer_ok g → built g keys b → tokens_ok g tokens →
  len tokens + 3 * length (lg_nfa g) ≤ fuel → config_count g ≤ n →
  ∃ id b', add_state_for_tokens fuel n b tokens = Ok (id, b') ∧
    ((N.of_nat (length (table b')) <= U32)%N →
     ∃ keys', built g keys' b' ∧ keys `prefix_of` keys' ∧ start_config g keys' tokens id ∧
       ∀ i c, keys' !! i = Some c → ∃ st, table b' !! i = Some st ∧ state_spec g keys' c st).
Proof.
  intros Hg Hb Ht Hf Hn.
  destruct (add_state_for_tokens_spec g Hg fuel n b tokens (proj1 Hb) (built_queue _ _ _ Hb) Ht Hf Hn)
    as (id & b' & -> & _ & _ & _ & _ & H).
  exists id, b'. split; [done|]. intros Hfit. destruct (H keys Hfit Hb) as (keys' & Hb' & Hp & Hid).
  exists keys'. split_and?; [done..|]. intros i c Hi.
  apply (bi_done _ _ _ _ _ (proj2 Hb')); [by eapply lookup_lt_Some|done].
Qed.

(** ** Witnesses *)

(** Two tokens: "a", and an optional "a" or "b". *)
Definition ex_nfa : list NfaState :=
  [Accept 0 0; Advance (from_char 97) 0 false 0; Accept 1 0;
   Advance (mkCharacterSet [(97, 99)%N]) 2 false 0; Split 3 2].
Definition ex_grammar : LexicalGrammar :=
  mkLexicalGrammar ex_nfa [mkLexicalVariable 0 Named 0%Z 1; mkLexicalVariable 1 Named 0%Z 4].
Definition ex_builder : LexTableBuilder := mkBuilder ex_grammar (mkCursor [] ex_nfa) [] [] ∅.
Definition ex_tokens : TokenSet := mkTokenSet (BitVec.mk [3]%N 2) BitVec.new true false.
Definition ex_table_builder : LexTableBuilder :=
  match add_state_for_tokens 18 64 ex_builder ex_tokens with Ok (_, b) => b | _ => ex_builder end.

Example lex_table_example :
  length (table ex_table_builder) = 4 ∧
  map (λ w, table_run (table ex_table_builder) 0 w ≫= λ j, table ex_table_builder !! N.to_nat j ≫= accept_action)
    [[]; [97]; [98]; [98; 97]]%N = [Some (terminal 1); Some (terminal 0); Some (terminal 1); None].
Proof. split; vm_compute; reflexivity. Qed.

Ltac index_cases k n :=
  lazymatch n with
  | O => cbn; intros; try done
  | S ?n => destruct k as [|k]; [cbn; intros; simplify_eq; try (cbn; lia)|index_cases k n]
  end.
Ltac nfa_cases := let k := fresh "k" in intros k; index_cases k 5.
Lemma ex_lexer_ok : lexer_ok ex_grammar.
Proof.
  split.
  - unfold nfa_ok. nfa_cases.
  - nfa_cases; (split; [cbn; lia|split; [|done]]); unfold cs_ok, bounded; cbn; (split; [lia|]);
      apply Forall_singleton; cbn; unfold END; lia.
  - nfa_cases.
  - intros x Hx. cbn in Hx. assert (∃ i, x = N.of_nat i ∧ i < 5) as (i & -> & Hi) by (exists (N.to_nat x); lia).
    assert (∀ j, (j ≠ 4)%N → ¬ is_split (lg_nfa ex_grammar) j) as Hns.
    { intros j Hj (l & r & Hl). assert (∀ k, k ≠ 4 → ex_nfa !! k ≠ Some (Split l r)) as Hk; [|apply (Hk (N.to_nat j)); [lia|done]].
      intros k Hk. do 5 (destruct k as [|k]; [done|]). done. }
    destruct (decide (i = 4)) as [-> |Hne].
    + exists 2%N. split; [|by apply Hns]. eapply eps_right; [reflexivity|apply eps_refl].
    + exists (N.of_nat i). split; [apply eps_refl|]. apply Hns. lia.
  - repeat (apply Forall_cons; split); [cbn; lia|cbn; lia|apply Forall_nil; done].
  - by repeat constructor.
Qed.
Lemma ex_built_new : built ex_grammar [] ex_builder.
Proof.
  destruct (builder_new_spec ex_grammar ex_lexer_ok 10) as (b & Hb & H & _); [cbn; lia|].
  assert (builder_new 10 ex_grammar = Ok ex_builder) as Heq by (vm_compute; reflexivity).
  rewrite Heq in Hb. by injection Hb as <-.
Qed.
Lemma ex_tokens_ok : tokens_ok ex_grammar ex_tokens.
Proof.
  split.
  - split; by apply BitVec.check_wf.
  - intros t Ht Hterm. unfold toks in Ht.
    assert (iter ex_tokens = Ok [terminal 0; terminal 1; end_]) as Hi by (vm_compute; reflexivity).
    rewrite Hi in Ht. apply elem_of_list_to_set in Ht. rewrite !elem_of_cons in Ht.
    destruct Ht as [-> |[-> |[-> |?%elem_of_nil]]]; try done; vm_compute; lia.
Qed.

Example add_state_for_tokens_witness :
  lexer_ok ex_grammar ∧ built ex_grammar [] ex_builder ∧ tokens_ok ex_grammar ex_tokens ∧
  len ex_tokens + 3 * 5 ≤ 18 ∧ config_count ex_grammar ≤ 64 ∧
  ∃ id b', add_state_for_tokens 18 64 ex_builder ex_tokens = Ok (id, b') ∧
    ((N.of_nat (length (table b')) <= U32)%N →
     ∃ keys', built ex_grammar keys' b' ∧ [] `prefix_of` keys' ∧ start_config ex_grammar keys' ex_tokens id ∧
       ∀ i c, keys' !! i = Some c → ∃ st, table b' !! i = Some st ∧ state_spec ex_grammar keys' c st).
Proof.
  assert (Hl : len ex_tokens + 3 * 5 ≤ 18) by (vm_compute; lia).
  assert (Hc : config_count ex_grammar ≤ 64) by (vm_compute; lia).
  split; [exact ex_lexer_ok|]. split; [exact ex_built_new|]. split; [exact ex_tokens_ok|]. split; [exact Hl|]. split; [exact Hc|].
  exact (add_state_for_tokens_correct ex_grammar 18 64 ex_builder [] ex_tokens ex_lexer_ok ex_built_new ex_tokens_ok Hl Hc).
Defined.
