(* ===== verification/LexMinimize.v ===== *)
(** * [build_tables/build_lex_table.rs]: merging token sets, minimization and
    sorting

    A lex table is minimized by partition refinement, then sorted.  The hash
    map of the signatures is an association list in the order of first
    insertion: its order is forgotten by the sort that follows. *)
From S2P Require Import Prelude BitVec Symbols TokenSet Ordering CharSet Nfa Dedup Grammars Tables TokenConflicts LexTable.

Notation out := (outcome Empty_set) (only parsing).

(** ** Merging token sets *)

(** [&l[a..b]]. *)
Definition slice {A} (l : list A) (a b : nat) : out (list A) :=
  if bool_decide (a ≤ b ≤ length l) then Ok (take (b - a) (drop a l)) else Panic.

Definition terminal_bits_words (s : TokenSet) : list N := BitVec.as_slice (terminal_bits s).

Definition check_token_conflicts (i : nat) (set_without_terminal : TokenSet) (token_conflict_map : TokenConflictMap)
    (coincident_token_index : CoincidentTokenIndex) : out bool :=
  let wpr := row_words token_conflict_map in
  let row_start := i * wpr in
  let set_bits := terminal_bits_words set_without_terminal in
  conflict_row ← slice (conflict_or_prefix_bits token_conflict_map) row_start (row_start + wpr);
  if existsb (λ '(c, s), negb (N.land c s =? 0)%N) (zip conflict_row set_bits) then Ok true
  else
    overlap_row ← slice (overlap_either_bits token_conflict_map) row_start (row_start + wpr);
    coincident_row ← slice (row_bits coincident_token_index) row_start (row_start + wpr);
    Ok (existsb (λ '((o, s), c), negb (N.land (N.land o s) (BitVec.u64_not c) =? 0)%N)
          (zip (zip overlap_row set_bits) coincident_row)).

(** [tokens.terminals().filter(|t| !other.contains_terminal(t)).any(..)]. *)
Fixpoint any_conflict (other : TokenSet) (m : TokenConflictMap) (ci : CoincidentTokenIndex) (ts : list Symbol) :
    out bool :=
  match ts with
  | [] => Ok false
  | t :: ts =>
      c ← contains_terminal other (index t);
      if c : bool then any_conflict other m ci ts
      else
        b ← check_token_conflicts (N.to_nat (index t)) other m ci;
        if b : bool then Ok true else any_conflict other m ci ts
  end.
Definition merge_token_set (tokens other : TokenSet) (m : TokenConflictMap) (ci : CoincidentTokenIndex) :
    out (bool * TokenSet) :=
  ts ← terminals tokens;
  b ← any_conflict other m ci ts;
  if b : bool then Ok (false, tokens)
  else
    ts ← terminals other;
    b ← any_conflict tokens m ci ts;
    if b : bool then Ok (false, tokens) else Ok (true, snd (insert_all tokens other)).

(** ** Minimization *)
Notation signature := (bool * option Symbol * bool * list (CharacterSet * bool))%type (only parsing).
#[global] Instance CharacterSet_eq_dec : EqDecision CharacterSet.
Proof. solve_decision. Defined.

Definition lex_signature (i : nat) (state : LexState) : signature :=
  (Nat.eqb i 0, accept_action state,
   match eof_action state with Some _ => true | None => false end,
   map (λ '(characters, action), (characters, in_main_token action)) (advance_actions state)).

(** [entry(signature).or_insert(Vec::new()).push(i)]. *)
Fixpoint sig_push (sig : signature) (i : N) (m : list (signature * list N)) : list (signature * list N) :=
  match m with
  | [] => [(sig, [i])]
  | (sig', l) :: m => if decide (sig = sig') then (sig', l ++ [i]) :: m else (sig', l) :: sig_push sig i m
  end.
Fixpoint group_by_signature (i : nat) (states : LexTable) (m : list (signature * list N)) : list (signature * list N) :=
  match states with
  | [] => m
  | s :: states => group_by_signature (S i) states (sig_push (lex_signature i s) (as_u32 i) m)
  end.

(** The order of [Vec<u32>]. *)
Fixpoint ids_cmp (a b : list N) : comparison :=
  match a, b with
  | [], [] => Eq
  | [], _ => Lt
  | _, [] => Gt
  | x :: a, y :: b => match (x ?= y)%N with Eq => ids_cmp a b | c => c end
  end.

(** [v.swap(i, 0)]. *)
Definition swap_first {A} (i : nat) (l : list A) : out (list A) :=
  x ← vec_get l i; y ← vec_get l 0; l ← vec_set l i y; vec_set l 0 x.

(** [group_ids_by_state_id[state_id] = group_id]. *)
Fixpoint set_group (group_id : N) (l : list N) (ids : list N) : out (list N) :=
  match l with
  | [] => Ok ids
  | x :: l => ids ← vec_set ids (N.to_nat x) group_id; set_group group_id l ids
  end.
Fixpoint set_groups (group_id : nat) (groups : list (list N)) (ids : list N) : out (list N) :=
  match groups with
  | [] => Ok ids
  | l :: groups => ids ← set_group (as_u32 group_id) l ids; set_groups (S group_id) groups ids
  end.

(** An index out of range, which would be a panic, compares as [None]. *)
Definition lex_states_differ (left_ right_ : LexState) (ids : list N) : bool :=
  existsb (λ '(l, r), negb (bool_decide (ids !! N.to_nat (aa_state l.2) = ids !! N.to_nat (aa_state r.2))))
    (zip (advance_actions left_) (advance_actions right_)).

Definition split_lex_states (E : Type) (left_ right_ : LexState) (ids : list N) : outcome E bool :=
  Ok (lex_states_differ left_ right_ ids).

(** A state whose targets are renamed by [new_ids]. *)
Definition rename_action (new_ids : list N) (a : AdvanceAction) : out AdvanceAction :=
  i ← vec_get new_ids (N.to_nat (aa_state a)); Ok (mkAdvance i (in_main_token a)).
Fixpoint rename_actions (new_ids : list N) (l : list (CharacterSet * AdvanceAction)) :
    out (list (CharacterSet * AdvanceAction)) :=
  match l with
  | [] => Ok []
  | (chars, a) :: l => a ← rename_action new_ids a; l ← rename_actions new_ids l; Ok ((chars, a) :: l)
  end.
Definition rename_state (new_ids : list N) (s : LexState) : out LexState :=
  acts ← rename_actions new_ids (advance_actions s);
  eof ← match eof_action s with Some a => a ← rename_action new_ids a; Ok (Some a) | None => Ok None end;
  Ok (mkLexState (accept_action s) eof acts).

(** The new state of each group: the renamed first state of the group, which
    is taken out of the table. *)
Fixpoint new_states (ids : list N) (groups : list (list N)) (states : LexTable) : out LexTable :=
  match groups with
  | [] => Ok []
  | l :: groups =>
      i ← vec_get l 0;
      s ← vec_get states (N.to_nat i);
      states ← vec_set states (N.to_nat i) default_lex_state;
      s ← rename_state ids s;
      rest ← new_states ids groups states;
      Ok (s :: rest)
  end.

Definition with_lex_state_id {T} (s : ParseState T) (id : LexStateId) : ParseState T :=
  mkParseState (ps_id s) (terminal_entries s) (nonterminal_entries s) (reserved_words s) id
    (external_lex_state_id s) (core_id s) (has_eof_gated_reduce s).
Fixpoint rename_lex_states {T} (ids : list N) (ss : list (ParseState T)) : out (list (ParseState T)) :=
  match ss with
  | [] => Ok []
  | s :: ss =>
      i ← vec_get ids (N.to_nat (lex_state_id s));
      ss ← rename_lex_states ids ss;
      Ok (with_lex_state_id s i :: ss)
  end.

Fixpoint position {A} (p : A → bool) (l : list A) : option nat :=
  match l with [] => None | x :: l => if p x then Some 0 else S <$> position p l end.

(** The groups that the refinement starts from. *)
Definition initial_groups (states : LexTable) : out (list (list N)) :=
  let groups := sort_by ids_cmp (map snd (group_by_signature 0 states [])) in
  error_group_index ← unwrap (position (existsb (N.eqb 0)) groups);
  swap_first error_group_index groups.

Definition minimize_lex_table {T} (k n : nat) (states : LexTable) (parse_states : list (ParseState T)) :
    out (LexTable * list (ParseState T)) :=
  groups ← initial_groups states;
  ids ← set_groups 0 groups (replicate (length states) 0%N);
  '(groups, ids) ← split_until_stable states split_lex_states k n groups ids 1;
  new ← new_states ids groups states;
  parse_states ← rename_lex_states ids parse_states;
  Ok (new, parse_states).

(** ** Sorting *)
Definition action_cmp (a b : AdvanceAction) : comparison :=
  then_cmp (aa_state a ?= aa_state b)%N (Bool.compare (in_main_token a) (in_main_token b)).
(** The derived [Ord] of [LexState]. *)
Definition lex_state_cmp (a b : LexState) : comparison :=
  then_cmp (opt_cmp symbol_cmp (accept_action a) (accept_action b))
    (then_cmp (opt_cmp action_cmp (eof_action a) (eof_action b))
       (list_cmp (λ x y, then_cmp (CharSet.cmp x.1 y.1) (action_cmp x.2 y.2)) (advance_actions a) (advance_actions b))).

(** [new_ids_by_old_id[old_id] = id]. *)
Fixpoint invert_loop (id : nat) (old_ids : list nat) (new_ids : list N) : out (list N) :=
  match old_ids with
  | [] => Ok new_ids
  | old_id :: old_ids => new_ids ← vec_set new_ids old_id (as_u32 id); invert_loop (S id) old_ids new_ids
  end.
Fixpoint reorder (new_ids : list N) (old_ids : list nat) (states : LexTable) : out LexTable :=
  match old_ids with
  | [] => Ok []
  | old_id :: old_ids =>
      s ← vec_get states old_id;
      states ← vec_set states old_id default_lex_state;
      s ← rename_state new_ids s;
      rest ← reorder new_ids old_ids states;
      Ok (s :: rest)
  end.
Definition sort_states {T} (states : LexTable) (parse_states : list (ParseState T)) :
    out (LexTable * list (ParseState T)) :=
  match seq 0 (length states) with
  | [] => Panic
  | i :: rest =>
      let key id := default default_lex_state (states !! id) in
      let old_ids := i :: sort_by (λ a b, lex_state_cmp (key a) (key b)) rest in
      new_ids ← invert_loop 0 old_ids (replicate (length old_ids) 0%N);
      new ← reorder new_ids old_ids states;
      parse_states ← rename_lex_states new_ids parse_states;
      Ok (new, parse_states)
  end.

(** ** Merging token sets: the words agree with the bits *)
Lemma slice_spec {A} (l : list A) a b : a ≤ b → b ≤ length l → slice l a b = Ok (take (b - a) (drop a l)).
Proof. intros. unfold slice. by rewrite bool_decide_eq_true_2. Qed.

(** Some word of [l], at a position where [ws] has one too, satisfies [p]. *)
Lemma existsb_zip {A B} (p : A * B → bool) (l : list A) (k : list B) :
  existsb p (zip l k) = true ↔ ∃ i a b, l !! i = Some a ∧ k !! i = Some b ∧ p (a, b) = true.
Proof.
  rewrite existsb_exists. split.
  - intros ([a b] & Hin & Hp). apply list_elem_of_In, list_elem_of_lookup in Hin as [i Hi].
    apply lookup_zip_Some in Hi as [Ha Hb]. by exists i, a, b.
  - intros (i & a & b & Ha & Hb & Hp). exists (a, b). split; [|done].
    apply list_elem_of_In, list_elem_of_lookup. exists i. by apply lookup_zip_Some.
Qed.
Lemma word_nonzero w : (w < U64)%N → negb (w =? 0)%N = true ↔ ∃ k, (k < 64)%N ∧ N.testbit w k = true.
Proof.
  intros Hw. rewrite negb_true_iff, N.eqb_neq. split.
  - intros Hne. exists (N.log2 w). split; [|by apply N.bit_log2]. apply N.log2_lt_pow2; [lia|done].
  - intros (k & _ & Hk) ->. by rewrite N.bits_0 in Hk.
Qed.
Lemma land_word c s : (s < U64)%N → (N.land c s < U64)%N.
Proof.
  intros Hs. destruct (decide (N.land c s = 0%N)) as [->|Hne]; [done|]. change U64 with (2 ^ 64)%N.
  apply N.log2_lt_pow2; [lia|]. pose proof (N.log2_land c s).
  assert (s ≠ 0)%N by (intros ->; by rewrite N.land_0_r in Hne).
  assert (N.log2 s < 64)%N by (apply N.log2_lt_pow2; [lia|done]). lia.
Qed.

Section merge.
Context (n : nat) (m : TokenConflictMap) (ci : CoincidentTokenIndex).
Context (Hrw : row_words m = div_ceil_64 n) (Hcl : length (conflict_or_prefix_bits m) = n * div_ceil_64 n)
  (Hol : length (overlap_either_bits m) = n * div_ceil_64 n) (Hrl : length (row_bits ci) = n * div_ceil_64 n).
Notation rw := (div_ceil_64 n).

(** Token [i] cannot be added to a set with token [j]. *)
Definition clashes (i j : nat) : Prop :=
  row_bit (conflict_or_prefix_bits m) rw i j = true ∨
  row_bit (overlap_either_bits m) rw i j = true ∧ row_bit (row_bits ci) rw i j = false.

(** The terminals of a set, as indices. *)
Definition has_terminal (s : TokenSet) (j : nat) : Prop := BitVec.bit (BitVec.words (terminal_bits s)) (N.of_nat j) = true.
Definition in_lexicon (s : TokenSet) : Prop := wf s ∧ ∀ j, has_terminal s j → j < n.

Lemma row_lookup (bits : list N) i w (c : N) :
  take (i * rw + rw - i * rw) (drop (i * rw) bits) !! w = Some c ↔ w < rw ∧ bits !! (i * rw + w) = Some c.
Proof.
  replace (i * rw + rw - i * rw) with rw by lia. destruct (decide (w < rw)).
  - rewrite lookup_take_lt, lookup_drop by done. tauto.
  - rewrite lookup_take_ge by lia. naive_solver lia.
Qed.
Lemma row_bit_word (bits : list N) i w k c :
  (k < 64)%N → bits !! (i * rw + w) = Some c → row_bit bits rw i (w * 64 + N.to_nat k) = N.testbit c k.
Proof.
  intros Hk Hc. unfold row_bit, fbit. rewrite row_index_div.
  replace (Nat.div (w * 64 + N.to_nat k) 64) with w by (rewrite Nat.add_comm, Nat.div_add, Nat.div_small; lia).
  rewrite Hc. cbn [default from_option]. unfold id. f_equal. unfold row_index.
  rewrite (Nat.add_comm _ (w * 64 + _)), Nat.Div0.mod_add, (Nat.add_comm (w * 64)), Nat.Div0.mod_add, Nat.mod_small; lia.
Qed.
Lemma terminal_bit_word s w k x :
  wf s → (k < 64)%N → terminal_bits_words s !! w = Some x →
  has_terminal s (w * 64 + N.to_nat k) ↔ N.testbit x k = true.
Proof.
  intros Hs Hk Hx. unfold has_terminal. rewrite <- BitVec.as_slice_bit by apply Hs.
  replace (N.of_nat (w * 64 + N.to_nat k)) with (64 * N.of_nat w + k)%N by lia.
  rewrite BitVec.bit_at by done. unfold BitVec.word_or_0. unfold terminal_bits_words in Hx. by rewrite Hx.
Qed.
Lemma has_terminal_word s j :
  wf s → has_terminal s j → ∃ x, terminal_bits_words s !! Nat.div j 64 = Some x ∧ N.testbit x (N.of_nat (Nat.modulo j 64)) = true.
Proof.
  intros Hs Hj. unfold has_terminal in Hj. rewrite <- BitVec.as_slice_bit in Hj by apply Hs.
  pose proof (Nat.div_mod_eq j 64). replace (N.of_nat j) with (64 * N.of_nat (Nat.div j 64) + N.of_nat (Nat.modulo j 64))%N in Hj by lia.
  rewrite BitVec.bit_at in Hj by (pose proof (Nat.mod_upper_bound j 64); lia). unfold BitVec.word_or_0 in Hj.
  unfold terminal_bits_words. destruct (BitVec.as_slice (terminal_bits s) !! Nat.div j 64) as [x|]; [by exists x|].
  cbn in Hj. by rewrite ?N.bits_0 in Hj.
Qed.
Lemma terminal_word_ok s w x : wf s → terminal_bits_words s !! w = Some x → (x < U64)%N.
Proof.
  intros Hs Hx. assert (Forall BitVec.word_ok (terminal_bits_words s)) as Hall.
  { unfold terminal_bits_words, BitVec.as_slice. apply Forall_take. apply (BitVec.wf_words _ (wf_terminal _ Hs)). }
  rewrite Forall_forall in Hall. apply Hall. by eapply list_elem_of_lookup_2.
Qed.

(** The words of two rows that meet a set of terminals. *)
Lemma row_meets (bits : list N) i s (p : nat → bool) (q : N * N → bool) :
  wf s → (∀ w c x, bits !! (i * rw + w) = Some c → w < rw → terminal_bits_words s !! w = Some x →
    q (c, x) = true ↔ ∃ k, (k < 64)%N ∧ N.testbit x k = true ∧ p (w * 64 + N.to_nat k) = true) →
  i < n → length bits = n * rw → in_lexicon s →
  existsb q (zip (take (i * rw + rw - i * rw) (drop (i * rw) bits)) (terminal_bits_words s)) = true ↔
  ∃ j, has_terminal s j ∧ p j = true.
Proof.
  intros Hs Hq Hi Hlen [_ Hlex]. rewrite existsb_zip. split.
  - intros (w & c & x & [Hw Hc]%row_lookup & Hx & H). apply (Hq w c x Hc Hw Hx) in H as (k & Hk & Hxk & Hp).
    exists (w * 64 + N.to_nat k). split; [|done]. by apply (terminal_bit_word s w k x).
  - intros (j & Hj & Hp). destruct (has_terminal_word s j Hs Hj) as (x & Hx & Hxj). pose proof (Hlex j Hj) as Hjn.
    pose proof (div_ceil_64_spec n). assert (Nat.div j 64 < rw) as Hw by (apply Nat.Div0.div_lt_upper_bound; lia).
    destruct (lookup_lt_is_Some_2 bits (i * rw + Nat.div j 64)) as [c Hc]; [rewrite Hlen; nia|].
    exists (Nat.div j 64), c, x. split; [by apply row_lookup|]. split; [done|]. apply (Hq _ c x Hc Hw Hx).
    exists (N.of_nat (Nat.modulo j 64)). pose proof (Nat.mod_upper_bound j 64). split; [lia|]. split; [done|].
    rewrite Nat2N.id. rewrite (Nat.mul_comm _ 64), <- Nat.div_mod_eq. done.
Qed.

Lemma check_token_conflicts_spec i s :
  in_lexicon s → i < n →
  ∃ b, check_token_conflicts i s m ci = Ok b ∧ (b = true ↔ ∃ j, has_terminal s j ∧ clashes i j).
Proof.
  intros Hs Hi. pose proof (proj1 Hs) as Hw. unfold check_token_conflicts. rewrite Hrw.
  rewrite (slice_spec (conflict_or_prefix_bits m)) by nia. cbn [mbind outcome_bind].
  assert (∀ bits w c k, (k < 64)%N → bits !! (i * rw + w) = Some c →
    row_bit bits rw i (w * 64 + N.to_nat k) = N.testbit c k) as Hrb by (intros; by apply row_bit_word).
  assert (Hc : existsb (λ '(c, s), negb (N.land c s =? 0)%N)
      (zip (take (i * rw + rw - i * rw) (drop (i * rw) (conflict_or_prefix_bits m))) (terminal_bits_words s)) = true ↔
    ∃ j, has_terminal s j ∧ row_bit (conflict_or_prefix_bits m) rw i j = true).
  { apply row_meets; [done| |done|done|done]. intros w c x Hc Hlt Hx.
    rewrite word_nonzero by by apply land_word, (terminal_word_ok s w).
    split; intros (k & Hk & H); exists k; (split; [done|]); rewrite N.land_spec, (Hrb _ _ _ _ Hk Hc) in *; [|].
    - by apply andb_true_iff in H as [? ?].
    - apply andb_true_iff. tauto. }
  destruct (existsb _ _); [exists true; split; [done|]; split; [|done]|].
  { intros _. destruct (proj1 Hc eq_refl) as (j & ? & ?). exists j. split; [done|by left]. }
  rewrite !slice_spec by nia. cbn [mbind outcome_bind]. eexists. split; [done|].
  transitivity (∃ j, has_terminal s j ∧ row_bit (overlap_either_bits m) rw i j && negb (row_bit (row_bits ci) rw i j) = true).
  - rewrite existsb_zip. split.
    + intros (w & [o x] & c & [[Hlt Ho]%row_lookup Hx]%lookup_zip_Some & [_ Hcc]%row_lookup & H).
      apply word_nonzero in H as (k & Hk & H).
      2: { rewrite N.land_comm, N.land_assoc. by apply land_word, (terminal_word_ok s w). }
      rewrite !N.land_spec, BitVec.u64_not_bit in H by done. apply andb_true_iff in H as [[H1 H2]%andb_true_iff H3].
      exists (w * 64 + N.to_nat k). split; [by apply (terminal_bit_word s w k x)|].
      by rewrite (Hrb _ _ _ _ Hk Ho), (Hrb _ _ _ _ Hk Hcc), H1, H3.
    + intros (j & Hj & [H1 H3]%andb_true_iff). destruct (has_terminal_word s j Hw Hj) as (x & Hx & Hxj).
      pose proof (proj2 Hs j Hj) as Hjn. pose proof (div_ceil_64_spec n). pose proof (Nat.mod_upper_bound j 64).
      assert (Nat.div j 64 < rw) as Hlt by (apply Nat.Div0.div_lt_upper_bound; lia).
      assert (i * rw + Nat.div j 64 < n * rw) as Hin by nia.
      destruct (lookup_lt_is_Some_2 (overlap_either_bits m) (i * rw + Nat.div j 64)) as [o Ho]; [by rewrite Hol|].
      destruct (lookup_lt_is_Some_2 (row_bits ci) (i * rw + Nat.div j 64)) as [c Hcc]; [by rewrite Hrl|].
      exists (Nat.div j 64), (o, x), c. split; [apply lookup_zip_Some; split; [by apply row_lookup|done]|].
      split; [by apply row_lookup|]. apply word_nonzero.
      { rewrite N.land_comm, N.land_assoc. by apply land_word, (terminal_word_ok s (Nat.div j 64)). }
      assert (j = Nat.div j 64 * 64 + N.to_nat (N.of_nat (Nat.modulo j 64))) as Hjj.
      { rewrite Nat2N.id, (Nat.mul_comm _ 64). apply Nat.div_mod_eq. }
      rewrite Hjj in H1, H3. exists (N.of_nat (Nat.modulo j 64)). split; [lia|].
      assert (N.of_nat (Nat.modulo j 64) < 64)%N as Hk by lia.
      rewrite (Hrb _ _ _ _ Hk Ho) in H1. rewrite (Hrb _ _ _ _ Hk Hcc) in H3.
      rewrite !N.land_spec, BitVec.u64_not_bit by lia. by rewrite H1, H3, Hxj.
  - assert (¬ ∃ j, has_terminal s j ∧ row_bit (conflict_or_prefix_bits m) rw i j = true) as Hno by (rewrite <- Hc; done).
    unfold clashes. setoid_rewrite andb_true_iff. setoid_rewrite negb_true_iff. split.
    + intros (j & ? & ?). exists j. tauto.
    + intros (j & Hj & [?|?]); [destruct Hno; by exists j|by exists j].
Qed.

Lemma terminals_spec s :
  in_lexicon s → ∃ ts, terminals s = Ok ts ∧ (∀ t, t ∈ ts → N.to_nat (index t) < n) ∧
    ∀ i, has_terminal s i ↔ ∃ t, t ∈ ts ∧ N.to_nat (index t) = i.
Proof.
  intros [Hs Hn]. unfold terminals. destruct (iter_bits _ (wf_terminal _ Hs)) as (l & -> & _ & Hl & _).
  cbn [mbind outcome_bind]. exists (map terminal l). split; [done|].
  assert (∀ x, x ∈ l → index (terminal x) = x) as Hix.
  { intros x Hx%Hl. pose proof (bit_index_small _ _ (wf_terminal _ Hs) Hx). cbn. apply wrap_u32_small. lia. }
  assert (∀ x, x ∈ l ↔ has_terminal s (N.to_nat x)) as Hlx by (intros x; unfold has_terminal; by rewrite Hl, N2Nat.id).
  split.
  - intros t (x & -> & Hx)%elem_of_map. rewrite Hix by done. by apply Hn, Hlx.
  - intros i. rewrite <- (Nat2N.id i), <- Hlx. split.
    + intros Hi. exists (terminal (N.of_nat i)). rewrite elem_of_map. split; [by exists (N.of_nat i)|]. by rewrite Hix.
    + intros (t & (x & -> & Hx)%elem_of_map & Hi). rewrite Hix in Hi by done. by replace (N.of_nat i) with x by lia.
Qed.

Lemma any_conflict_spec other ts :
  in_lexicon other → (∀ t, t ∈ ts → N.to_nat (index t) < n) →
  ∃ b, any_conflict other m ci ts = Ok b ∧
    (b = true ↔ ∃ t j, t ∈ ts ∧ ¬ has_terminal other (N.to_nat (index t)) ∧ has_terminal other j ∧ clashes (N.to_nat (index t)) j).
Proof.
  intros Ho. induction ts as [|t ts IH]; intros Hts; cbn [any_conflict].
  { exists false. split; [done|]. split; [done|]. by intros (t & j & ?%elem_of_nil & _). }
  destruct IH as (b & Heq & Hb); [intros; apply Hts; by apply list_elem_of_further|]. rewrite Heq.
  pose proof (contains_spec (E:=Empty_set) other (mkSymbol Terminal (index t)) (proj1 Ho)) as Hc.
  unfold TokenSet.contains in Hc. cbn in Hc. unfold contains_terminal. cbn. rewrite Hc by done.
  unfold mem. cbn. setoid_rewrite elem_of_cons.
  destruct (BitVec.bit (BitVec.words (terminal_bits other)) (index t)) eqn:Hbit.
  - exists b. split; [done|]. rewrite Hb. split; [intros (t' & j & ?); exists t', j; tauto|].
    intros (t' & j & [-> |Ht] & Hn & ?); [|by exists t', j]. exfalso. apply Hn. unfold has_terminal. by rewrite N2Nat.id.
  - destruct (check_token_conflicts_spec (N.to_nat (index t)) other Ho) as (c & -> & Hcc); [apply Hts, list_elem_of_here|].
    cbn. assert (¬ has_terminal other (N.to_nat (index t))) as Hn by (unfold has_terminal; rewrite N2Nat.id; congruence).
    destruct c.
    + exists true. split; [done|]. split; [|done]. intros _. destruct (proj1 Hcc eq_refl) as (j & ? & ?). exists t, j. auto.
    + exists b. split; [done|]. rewrite Hb. split; [intros (t' & j & ?); exists t', j; tauto|].
      intros (t' & j & [-> |Ht] & ? & ? & ?); [|by exists t', j]. exfalso.
      assert (false = true) by (apply Hcc; by exists j). done.
Qed.

(** A token that only one of the sets has clashes with a token of the other. *)
Definition separated (s other : TokenSet) : Prop :=
  ∃ i j, has_terminal s i ∧ ¬ has_terminal other i ∧ has_terminal other j ∧ clashes i j.

Lemma any_conflict_separated s other :
  in_lexicon s → in_lexicon other →
  ∃ ts b, terminals s = Ok ts ∧ any_conflict other m ci ts = Ok b ∧ (b = true ↔ separated s other).
Proof.
  intros Hs Ho. destruct (terminals_spec s Hs) as (ts & Hts & Hn & Hx).
  destruct (any_conflict_spec other ts Ho Hn) as (b & Hb & Hbx). exists ts, b. split; [done|]. split; [done|]. rewrite Hbx.
  unfold separated. split.
  - intros (t & j & ? & ? & ? & ?). exists (N.to_nat (index t)), j. rewrite Hx. split; [by exists t|done].
  - intros (i & j & (t & ? & <-)%Hx & ?). by exists t, j.
Qed.

Lemma merge_token_set_spec tokens other :
  in_lexicon tokens → in_lexicon other →
  ∃ b tokens', merge_token_set tokens other m ci = Ok (b, tokens') ∧
    (b = true ↔ ¬ separated tokens other ∧ ¬ separated other tokens) ∧
    (if b then wf tokens' ∧ toks tokens' = toks tokens ∪ toks other else tokens' = tokens).
Proof.
  intros Ht Ho. unfold merge_token_set.
  destruct (any_conflict_separated tokens other Ht Ho) as (ts1 & b1 & -> & H1 & Hb1). cbn [mbind outcome_bind].
  rewrite H1. cbn [mbind outcome_bind]. destruct b1.
  { exists false, tokens. split; [done|]. split; [|done]. split; [done|]. intros [Hn _]. exfalso. by apply Hn, Hb1. }
  destruct (any_conflict_separated other tokens Ho Ht) as (ts2 & b2 & -> & H2 & Hb2). cbn [mbind outcome_bind].
  rewrite H2. cbn [mbind outcome_bind]. destruct b2.
  { exists false, tokens. split; [done|]. split; [|done]. split; [done|]. intros [_ Hn]. exfalso. by apply Hn, Hb2. }
  destruct (insert_all tokens other) as [r s'] eqn:Hins.
  destruct (toks_insert_all_spec _ _ _ _ (proj1 Ht) (proj1 Ho) Hins) as (Hw & Htoks & _).
  exists true, s'. split; [done|]. split; [|done]. split; [|done]. intros _. by rewrite <- Hb1, <- Hb2.
Qed.
End merge.

(** C26: the word-level check agrees with the pairwise one: [merge_token_set]
    merges two sets of tokens of the lexical grammar exactly when no token that
    only one of them has clashes with a token of the other one (it conflicts or
    matches a prefix, or overlaps a token it is not coincident with); then the
    result is the union, and the set is unchanged otherwise. *)
Theorem merge_token_set_correct (n : nat) (m : TokenConflictMap) (ci : CoincidentTokenIndex) (tokens other : TokenSet) :
  row_words m = div_ceil_64 n → length (conflict_or_prefix_bits m) = n * div_ceil_64 n →
  length (overlap_either_bits m) = n * div_ceil_64 n → length (row_bits ci) = n * div_ceil_64 n →
  in_lexicon n tokens → in_lexicon n other →
  ∃ b tokens', merge_token_set tokens other m ci = Ok (b, tokens') ∧
    (b = true ↔ ¬ separated n m ci tokens other ∧ ¬ separated n m ci other tokens) ∧
    (if b then wf tokens' ∧ toks tokens' = toks tokens ∪ toks other else tokens' = tokens).
Proof. intros. by apply merge_token_set_spec. Qed.

(** ** Renaming *)
Definition ren_action (ids : list N) (a : AdvanceAction) : AdvanceAction :=
  mkAdvance (default 0%N (ids !! N.to_nat (aa_state a))) (in_main_token a).
Definition ren_state (ids : list N) (s : LexState) : LexState :=
  mkLexState (accept_action s) (ren_action ids <$> eof_action s)
    (map (λ e, (e.1, ren_action ids e.2)) (advance_actions s)).

(** Every target is a state below [m]. *)
Definition targets_below (m : nat) (s : LexState) : Prop :=
  Forall (λ e, N.to_nat (aa_state e.2) < m) (advance_actions s) ∧
  (∀ a, eof_action s = Some a → N.to_nat (aa_state a) < m).

Lemma rename_action_spec ids a :
  N.to_nat (aa_state a) < length ids → rename_action ids a = Ok (ren_action ids a).
Proof.
  intros [i Hi]%lookup_lt_is_Some_2. unfold rename_action, ren_action. by rewrite (vec_get_Some _ _ _ Hi), Hi.
Qed.
Lemma rename_state_spec ids s : targets_below (length ids) s → rename_state ids s = Ok (ren_state ids s).
Proof.
  intros [Ha He]. unfold rename_state, ren_state.
  assert (rename_actions ids (advance_actions s) = Ok (map (λ e, (e.1, ren_action ids e.2)) (advance_actions s))) as ->.
  { induction Ha as [|[cs a] l Ha _ IH]; [done|]. cbn [rename_actions]. rewrite rename_action_spec by done.
    cbn [mbind outcome_bind]. by rewrite IH. }
  cbn [mbind outcome_bind]. destruct (eof_action s) as [a|]; [|done]. by rewrite rename_action_spec by by apply He.
Qed.

Lemma ren_next ids s x : lex_next (ren_state ids s) x = ren_action ids <$> lex_next s x.
Proof.
  unfold lex_next. cbn. induction (advance_actions s) as [|[cs a] l IH]; [done|]. cbn. by destruct (cs_mem x cs).
Qed.

(** A table whose states are renamed states of another one runs as it does. *)
Definition quotient (ids : list N) (t t' : LexTable) : Prop :=
  length ids = length t ∧ Forall (targets_below (length t)) t ∧
  ∀ i s, t !! i = Some s → ∃ g, ids !! i = Some g ∧ t' !! N.to_nat g = Some (ren_state ids s).
Lemma quotient_run ids t t' w : ∀ i g,
  quotient ids t t' → ids !! N.to_nat i = Some g →
  table_run t' g w = (table_run t i w ≫= λ j, ids !! N.to_nat j).
Proof.
  induction w as [|x w IH]; intros i g Hq Hg; cbn [table_run]; [cbn; by rewrite Hg|].
  pose proof Hq as (Hl & Ht & Hs). destruct (lookup_lt_is_Some_2 t (N.to_nat i)) as [s Hi].
  { rewrite <- Hl. by eapply lookup_lt_Some. }
  destruct (Hs _ _ Hi) as (g' & Hg' & Hst). rewrite Hg in Hg'. injection Hg' as <-.
  rewrite Hi, Hst. cbn. rewrite ren_next. destruct (lex_next s x) as [a|] eqn:Ha; [|done]. cbn.
  rewrite Forall_forall in Ht. destruct (Ht s) as [Hacts _]; [by eapply list_elem_of_lookup_2|].
  assert (N.to_nat (aa_state a) < length ids) as [j Hj]%lookup_lt_is_Some_2.
  { rewrite Hl. unfold lex_next in Ha. destruct (List.filter _ _) as [|[cs a'] l] eqn:Hf; [done|]. injection Ha as ->.
    assert (In (cs, a) (advance_actions s)) as Hin by (eapply proj1, filter_In; rewrite Hf; by left).
    rewrite Forall_forall in Hacts. apply (Hacts (cs, a)). by apply list_elem_of_In. }
  rewrite Hj. cbn. by apply IH.
Qed.

Lemma rename_lex_states_spec {T} ids (ss : list (ParseState T)) :
  Forall (λ s, N.to_nat (lex_state_id s) < length ids) ss →
  ∃ ss', rename_lex_states ids ss = Ok ss' ∧
    Forall2 (λ s s', ∃ i, ids !! N.to_nat (lex_state_id s) = Some i ∧ s' = with_lex_state_id s i) ss ss'.
Proof.
  induction 1 as [|s ss Hs _ (ss' & IH & H2)]; [by exists []|]. cbn [rename_lex_states].
  destruct (lookup_lt_is_Some_2 _ _ Hs) as [i Hi]. rewrite (vec_get_Some _ _ _ Hi). cbn [mbind outcome_bind].
  rewrite IH. cbn [mbind outcome_bind]. eexists. split; [done|]. constructor; [by exists i|done].
Qed.

(** ** The initial groups *)
Section groups.
Context (t : LexTable) (Hfit : (N.of_nat (length t) < U32)%N).

Definition sig_of (x : N) : option signature := lex_signature (N.to_nat x) <$> t !! N.to_nat x.

(** The map after the states below [k]. *)
Definition sig_map_ok (k : nat) (m : list (signature * list N)) : Prop :=
  concat (map snd m) ≡ₚ map N.of_nat (seq 0 k) ∧ NoDup (map fst m) ∧
  Forall (λ e, e.2 ≠ [] ∧ Forall (λ x, sig_of x = Some e.1) e.2) m.

Lemma sig_push_spec sig i m :
  NoDup (map fst m) → Forall (λ e, e.2 ≠ [] ∧ Forall (λ x, sig_of x = Some e.1) e.2) m → sig_of i = Some sig →
  concat (map snd (sig_push sig i m)) ≡ₚ i :: concat (map snd m) ∧
  NoDup (map fst (sig_push sig i m)) ∧ (∀ x, x ∈ map fst (sig_push sig i m) ↔ x = sig ∨ x ∈ map fst m) ∧
  Forall (λ e, e.2 ≠ [] ∧ Forall (λ x, sig_of x = Some e.1) e.2) (sig_push sig i m).
Proof.
  intros Hnd Hall Hi. induction m as [|[sig' l] m IH]; cbn [sig_push map concat fst snd].
  { cbn. split; [done|]. split; [apply NoDup_singleton|]. split; [intros x; rewrite list_elem_of_singleton, elem_of_nil; tauto|].
    apply Forall_singleton. cbn. split; [done|]. by apply Forall_singleton. }
  cbn [map fst] in Hnd. apply NoDup_cons in Hnd as [Hn Hnd]. apply Forall_cons in Hall as [[Hne Hl] Hall].
  destruct (IH Hnd Hall) as (Hp & Hnd' & Hel & Hall'). destruct (decide (sig = sig')) as [-> |Hneq]; cbn [map concat fst snd].
  - split; [rewrite <- (assoc_L (++)); cbn; by rewrite <- Permutation_middle|]. split; [by constructor|].
    split; [intros x; rewrite elem_of_cons; tauto|]. apply Forall_cons. split; [|done]. cbn in *.
    split; [by destruct l|]. apply Forall_app. split; [done|by apply Forall_singleton].
  - split; [by rewrite Hp, <- Permutation_middle|]. split.
    + constructor; [|done]. rewrite Hel. intros [->|?]; done.
    + split; [intros x; rewrite !elem_of_cons, Hel; tauto|]. by apply Forall_cons.
Qed.
Lemma group_by_signature_spec ss : ∀ k m,
  drop k t = ss → sig_map_ok k m → sig_map_ok (length t) (group_by_signature k ss m).
Proof.
  induction ss as [|s ss IH]; intros k m Hd (Hp & Hnd & Hall); cbn [group_by_signature].
  - assert (length t ≤ k) as Hk by (apply (f_equal length) in Hd; rewrite length_drop in Hd; cbn in Hd; lia).
    destruct (decide (k = length t)) as [-> |]; [by split|]. exfalso.
    assert (N.of_nat (length t) ∈ concat (map snd m)) as Hin.
    { rewrite Hp. apply elem_of_map. exists (length t). split; [done|]. apply elem_of_seq. lia. }
    apply list_elem_of_In, in_concat in Hin as (l & Hl & Hx). apply in_map_iff in Hl as (e & <- & He).
    rewrite Forall_forall in Hall. apply list_elem_of_In in He. destruct (Hall e He) as [_ Hs]. rewrite Forall_forall in Hs.
    apply list_elem_of_In in Hx. specialize (Hs _ Hx). unfold sig_of in Hs. rewrite Nat2N.id in Hs.
    by rewrite (proj2 (lookup_ge_None t (length t))) in Hs by lia.
  - assert (t !! k = Some s) as Hk by (rewrite <- (Nat.add_0_r k), <- lookup_drop, Hd; done).
    assert (as_u32 k = N.of_nat k) as Hu by (unfold as_u32; apply wrap_u32_small; apply lookup_lt_Some in Hk; lia).
    apply IH; [by rewrite (drop_S _ _ _ Hk) in Hd; injection Hd|].
    destruct (sig_push_spec (lex_signature k s) (as_u32 k) m Hnd Hall) as (Hp' & Hnd' & _ & Hall').
    { unfold sig_of. by rewrite Hu, Nat2N.id, Hk. }
    split; [|by split]. rewrite Hp', Hp, Hu, seq_S, map_app. cbn. by rewrite Permutation_app_comm.
Qed.

Lemma position_spec {A} (p : A → bool) l :
  match position p l with
  | Some i => ∃ x, l !! i = Some x ∧ p x = true
  | None => ∀ x, x ∈ l → p x = false
  end.
Proof.
  induction l as [|y l IH]; cbn; [by intros x ?%elem_of_nil|]. destruct (p y) eqn:Hp; [by exists y|].
  destruct (position p l); [done|]. by intros x [-> |?]%elem_of_cons; [|apply IH].
Qed.
Lemma swap_first_spec {A} (l : list A) i x :
  l !! i = Some x → ∃ l', swap_first i l = Ok l' ∧ l' ≡ₚ l ∧ l' !! 0 = Some x.
Proof.
  intros Hi. unfold swap_first. rewrite (vec_get_Some _ _ _ Hi). destruct l as [|y l]; [done|]. cbn [mbind outcome_bind].
  rewrite (vec_get_Some _ 0 y) by done. cbn [mbind outcome_bind].
  rewrite vec_set_lt by by eapply lookup_lt_Some. cbn [mbind outcome_bind].
  rewrite vec_set_lt by (rewrite length_insert; cbn; lia). eexists. split; [done|].
  split; [|apply list_lookup_insert_eq; rewrite length_insert; cbn; lia].
  destruct i as [|i]; cbn in *; [by injection Hi as ->|].
  rewrite (insert_perm _ _ y _ Hi), perm_swap. f_equiv. symmetry. by apply delete_Permutation.
Qed.

(** The partition the refinement starts from: by signature, state 0 alone in
    the first group. *)
Definition initial_ok (groups : list (list N)) : Prop :=
  concat groups ≡ₚ map N.of_nat (seq 0 (length t)) ∧ [] ∉ groups ∧
  (∀ l x y, l ∈ groups → x ∈ l → y ∈ l → sig_of x = sig_of y) ∧
  (∀ l x y, l ∈ groups → x ∈ l → N.to_nat y < length t → sig_of x = sig_of y → y ∈ l) ∧
  groups !! 0 = Some [0%N].

Lemma all_states_elem x : x ∈ map N.of_nat (seq 0 (length t)) ↔ N.to_nat x < length t.
Proof.
  rewrite elem_of_map. setoid_rewrite elem_of_seq. split; [intros (k & -> & ?); lia|].
  intros Hx. exists (N.to_nat x). lia.
Qed.
Lemma all_states_NoDup : NoDup (map N.of_nat (seq 0 (length t))).
Proof.
  apply (NoDup_fmap_2 N.of_nat), NoDup_seq. 
Qed.

Lemma initial_groups_spec : 0 < length t → ∃ groups, initial_groups t = Ok groups ∧ initial_ok groups.
Proof.
  intros H0. unfold initial_groups. set (m := group_by_signature 0 t []).
  destruct (group_by_signature_spec t 0 []) as (Hp & Hnd & Hall); [done|by split; [|split; [constructor|constructor]]|]. fold m in Hp, Hnd, Hall.
  set (G := sort_by ids_cmp (map snd m)). assert (G ≡ₚ map snd m) as HG by apply sort_by_perm.
  assert (concat G ≡ₚ map N.of_nat (seq 0 (length t))) as Hcat by by rewrite (concat_perm _ _ HG).
  pose proof (position_spec (existsb (N.eqb 0)) G) as Hpos. destruct (position _ G) as [i|]; cbn [unwrap mbind outcome_bind].
  2: { exfalso. assert (0%N ∈ concat G) as (l & Hl & Hx)%elem_of_concat by (rewrite Hcat; by apply all_states_elem).
       specialize (Hpos l Hl). apply not_true_iff_false in Hpos. apply Hpos, existsb_exists. exists 0%N.
       by rewrite <- list_elem_of_In. }
  destruct Hpos as (l0 & Hl0 & Hz). apply existsb_exists in Hz as (z & Hz & Hzz). apply N.eqb_eq in Hzz as <-.
  apply list_elem_of_In in Hz. destruct (swap_first_spec G i l0 Hl0) as (groups & -> & Hgp & Hg0).
  exists groups. split; [done|].
  assert (concat groups ≡ₚ map N.of_nat (seq 0 (length t))) as Hc by by rewrite (concat_perm _ _ Hgp).
  assert (∀ l, l ∈ groups → ∃ e, e ∈ m ∧ e.2 = l) as Hgm.
  { intros l Hl. rewrite Hgp, HG in Hl. apply elem_of_map in Hl as (e & -> & He). by exists e. }
  rewrite Forall_forall in Hall.
  assert (∀ l x, l ∈ groups → x ∈ l → ∃ e, e ∈ m ∧ e.2 = l ∧ sig_of x = Some e.1) as Hsig.
  { intros l x Hl Hx. destruct (Hgm l Hl) as (e & He & <-). exists e. split; [done|]. split; [done|].
    destruct (Hall e He) as [_ Hs]. rewrite Forall_forall in Hs. by apply Hs. }
  assert (∀ l x y, l ∈ groups → x ∈ l → y ∈ l → sig_of x = sig_of y) as Hsame.
  { intros l x y Hl Hx Hy. destruct (Hgm l Hl) as (e & He & <-). destruct (Hall e He) as [_ Hs]. rewrite Forall_forall in Hs.
    by rewrite (Hs x Hx), (Hs y Hy). }
  split; [done|]. split; [|split; [done|split]].
  - intros Hnil. destruct (Hgm [] Hnil) as (e & He & Hee). by destruct (Hall e He).
  - intros l x y Hl Hx Hy Hxy. assert (y ∈ concat groups) as (l' & Hl' & Hyl)%elem_of_concat by (rewrite Hc; by apply all_states_elem).
    destruct (Hsig l x Hl Hx) as (e & He & <- & Hs), (Hsig l' y Hl' Hyl) as (e' & He' & <- & Hs').
    assert (e = e') as ->; [|done]. rewrite Hs, Hs' in Hxy. injection Hxy as Hfst.
    apply list_elem_of_lookup in He as [a Ha], He' as [b Hb].
    assert (a = b) as ->; [|congruence]. apply (NoDup_lookup (map fst m) a b e.1 Hnd);
      rewrite list_lookup_fmap, ?Ha, ?Hb; cbn; congruence.
  - rewrite Hg0. f_equal. assert (l0 ∈ groups) as Hlg by by eapply list_elem_of_lookup_2.
    assert (∀ x, x ∈ l0 → x = 0%N) as Hx0.
    { intros x Hx. pose proof (Hsame l0 0%N x Hlg Hz Hx) as Hs. unfold sig_of in Hs. cbn in Hs.
      destruct t as [|s0 t'] eqn:Ht; [done|]. cbn in Hs. destruct (_ !! N.to_nat x) as [sx|]; [|done].
      injection Hs as Hs _. destruct (Nat.eqb_spec (N.to_nat x) 0); [lia|done]. }
    assert (NoDup l0) as Hnl.
    { eapply (concat_NoDup_part groups 0); [|done]. rewrite Hc. apply all_states_NoDup. }
    destruct l0 as [|a [|b l]]; [by apply elem_of_nil in Hz|f_equal; apply Hx0, list_elem_of_here|].
    exfalso. apply NoDup_cons in Hnl as [Hn _]. apply Hn. rewrite (Hx0 a (list_elem_of_here _ _)).
    rewrite <- (Hx0 b); [apply list_elem_of_here|apply list_elem_of_further, list_elem_of_here].
Qed.
End groups.

(** ** Assigning groups and taking the new states *)
Lemma set_group_spec g l : ∀ ids,
  (∀ x, x ∈ l → N.to_nat x < length ids) →
  ∃ ids', set_group g l ids = Ok ids' ∧ length ids' = length ids ∧
    ∀ k, ids' !! k = if bool_decide (N.of_nat k ∈ l) then Some g else ids !! k.
Proof.
  induction l as [|x l IH]; intros ids Hl; cbn [set_group]; [by exists ids|].
  rewrite vec_set_lt by apply Hl, list_elem_of_here. cbn [mbind outcome_bind].
  destruct (IH (<[N.to_nat x:=g]> ids)) as (ids' & -> & Hlen & Hk).
  { intros y Hy. rewrite length_insert. apply Hl. by apply list_elem_of_further. }
  exists ids'. split; [done|]. rewrite Hlen, length_insert. split; [done|]. intros k. rewrite Hk.
  destruct (decide (N.of_nat k ∈ l)) as [Hin|Hin].
  - rewrite !bool_decide_eq_true_2; [done|by apply list_elem_of_further|done].
  - rewrite (bool_decide_eq_false_2 (N.of_nat k ∈ l)) by done. case_bool_decide as Hc.
    + apply elem_of_cons in Hc as [<-|?]; [|done]. rewrite Nat2N.id. apply list_lookup_insert_eq.
      specialize (Hl _ (list_elem_of_here _ _)). lia.
    + apply not_elem_of_cons in Hc as [Hne _]. apply list_lookup_insert_ne. lia.
Qed.
Lemma set_groups_spec gs : ∀ g0 ids,
  NoDup (concat gs) → (∀ x, x ∈ concat gs → N.to_nat x < length ids) → (N.of_nat (g0 + length gs) < U32)%N →
  ∃ ids', set_groups g0 gs ids = Ok ids' ∧ length ids' = length ids ∧
    (∀ i l x, gs !! i = Some l → x ∈ l → ids' !! N.to_nat x = Some (N.of_nat (g0 + i))) ∧
    (∀ k, N.of_nat k ∉ concat gs → ids' !! k = ids !! k).
Proof.
  induction gs as [|l gs IH]; intros g0 ids Hnd Hin Hfit; cbn [set_groups].
  { exists ids. split; [done|]. split; [done|]. split; [intros i l x; by rewrite lookup_nil|done]. }
  cbn [concat] in *. apply NoDup_app in Hnd as (_ & Hd & Hnd).
  destruct (set_group_spec (as_u32 g0) l ids) as (ids1 & -> & Hl1 & Hx1); [intros; apply Hin, elem_of_app; by left|].
  cbn [mbind outcome_bind]. destruct (IH (S g0) ids1 Hnd) as (ids' & -> & Hl' & Hx' & Hk').
  { intros x Hx. rewrite Hl1. apply Hin, elem_of_app. by right. }
  { cbn in Hfit. lia. }
  exists ids'. split; [done|]. split; [congruence|]. split.
  - intros [|i] l' x Hl Hx; cbn in Hl.
    + injection Hl as <-. rewrite Hk', Hx1, N2Nat.id, bool_decide_eq_true_2 by (rewrite ?N2Nat.id; auto).
      f_equal. unfold as_u32. rewrite wrap_u32_small by (cbn in Hfit; lia). f_equal. lia.
    + rewrite (Hx' i l' x Hl Hx). do 2 f_equal. lia.
  - intros k [Hkl Hkc]%not_elem_of_app. rewrite Hk' by done. rewrite Hx1. by rewrite bool_decide_eq_false_2.
Qed.

Lemma new_states_spec ids gs : ∀ t0 t,
  length t0 = length t → (∀ x, x ∈ concat gs → t0 !! N.to_nat x = t !! N.to_nat x ∧ N.to_nat x < length t) →
  NoDup (concat gs) → [] ∉ gs → Forall (targets_below (length ids)) t →
  ∃ new, new_states ids gs t0 = Ok new ∧
    Forall2 (λ l s', ∃ x s, head l = Some x ∧ t !! N.to_nat x = Some s ∧ s' = ren_state ids s) gs new.
Proof.
  induction gs as [|l gs IH]; intros t0 t Hlen Hin Hnd Hne Ht; cbn [new_states]; [by exists []|].
  apply not_elem_of_cons in Hne as [Hl Hne]. destruct l as [|x l]; [done|]. cbn [concat] in *.
  rewrite (vec_get_Some (x :: l) 0 x) by done. cbn [mbind outcome_bind].
  destruct (Hin x) as [Hx Hxt]; [apply elem_of_app; left; apply list_elem_of_here|].
  destruct (lookup_lt_is_Some_2 _ _ Hxt) as [s Hs]. rewrite Hs in Hx. rewrite (vec_get_Some _ _ _ Hx). cbn [mbind outcome_bind].
  rewrite vec_set_lt by lia. cbn [mbind outcome_bind]. pose proof Ht as Ht'. rewrite Forall_forall in Ht'.
  rewrite rename_state_spec by (apply Ht'; by eapply list_elem_of_lookup_2). cbn [mbind outcome_bind].
  apply NoDup_app in Hnd as (_ & Hd & Hnd).
  destruct (IH (<[N.to_nat x:=default_lex_state]> t0) t) as (new & -> & Hnew); [by rewrite length_insert| |done|done|done|].
  { intros y Hy. destruct (Hin y) as [? ?]; [apply elem_of_app; by right|]. split; [|done].
    rewrite list_lookup_insert_ne; [done|]. intros Heq. apply N2Nat.inj in Heq as ->.
    apply (Hd y); [apply list_elem_of_here|done]. }
  cbn [mbind outcome_bind]. eexists. split; [done|]. constructor; [by exists x, s|done].
Qed.

(** ** The refined groups *)
Lemma lex_states_differ_false l r ids :
  lex_states_differ l r ids = false ↔
  ∀ i a b, advance_actions l !! i = Some a → advance_actions r !! i = Some b →
    ids !! N.to_nat (aa_state a.2) = ids !! N.to_nat (aa_state b.2).
Proof.
  unfold lex_states_differ. rewrite <- not_true_iff_false, existsb_zip. split.
  - intros Hno i a b Ha Hb. destruct (decide (ids !! N.to_nat (aa_state a.2) = ids !! N.to_nat (aa_state b.2))); [done|].
    destruct Hno. exists i, a, b. by rewrite bool_decide_eq_false_2.
  - intros H (i & a & b & Ha & Hb & Hn). apply negb_true_iff, bool_decide_eq_false in Hn. apply Hn. by eapply H.
Qed.
Lemma lex_states_differ_irrefl s ids : lex_states_differ s s ids = false.
Proof. apply lex_states_differ_false. congruence. Qed.
Lemma lex_states_differ_sym s s' ids : lex_states_differ s s' ids = lex_states_differ s' s ids.
Proof.
  apply eq_true_iff_eq. rewrite <- !not_false_iff_true, !lex_states_differ_false.
  split; intros H H'; apply H; intros i a b Ha Hb; symmetry; by eapply H'.
Qed.
Lemma lex_splits t : splits t split_lex_states.
Proof. intros a b ids _ _ _. by eexists. Qed.
Lemma split_lex_irrefl s ids : split_lex_states Empty_set s s ids ≠ Ok true.
Proof. unfold split_lex_states. by rewrite lex_states_differ_irrefl. Qed.
Lemma split_lex_sym s s' ids : split_lex_states Empty_set s s' ids = Ok true → split_lex_states Empty_set s' s ids = Ok true.
Proof. unfold split_lex_states. by rewrite lex_states_differ_sym. Qed.

(** States with the same signature and equivalent targets are renamed alike. *)
Lemma ren_state_eq ids i j s s' :
  lex_signature i s = lex_signature j s' → lex_states_differ s s' ids = false →
  (∀ a a', eof_action s = Some a → eof_action s' = Some a' → a = a') →
  ren_state ids s = ren_state ids s'.
Proof.
  unfold lex_signature. intros [= _ Hacc He Hacts] Hd Heof. unfold ren_state. rewrite Hacc. f_equal.
  - destruct (eof_action s) as [a|], (eof_action s') as [a'|]; try done. by rewrite (Heof a a').
  - pose proof (proj1 (lex_states_differ_false _ _ _) Hd) as Hd'. clear Hd Hacc He Heof. revert Hacts Hd'.
    generalize (advance_actions s) (advance_actions s'). intros l. induction l as [|[cs a] l IH]; intros [|[cs' a'] l']; try done.
    cbn. intros [= -> Hm Hl] Hd. f_equal.
    + f_equal. unfold ren_action. rewrite Hm. pose proof (Hd 0 _ _ eq_refl eq_refl) as H0. cbn in H0. by rewrite H0.
    + apply IH; [done|]. intros i' a0 b0 Ha Hb. by apply (Hd (S i')).
Qed.

(** Related states have the same signature and related targets: the same
    accepted token, the same list of character sets with the same flags, and
    for each of these sets related targets.  It compares the lists as they
    are: states that split the same characters differently are not related,
    even if no string tells them apart. *)
Definition lex_bisim (t : LexTable) (R : N → N → Prop) : Prop :=
  ∀ a b, R a b → ∃ s s', t !! N.to_nat a = Some s ∧ t !! N.to_nat b = Some s' ∧
    lex_signature (N.to_nat a) s = lex_signature (N.to_nat b) s' ∧
    ∀ i e e', advance_actions s !! i = Some e → advance_actions s' !! i = Some e' → R (aa_state e.2) (aa_state e'.2).

Section minimize.
Context (t : LexTable) (Hfit : (N.of_nat (length t) < U32)%N) (H0 : 0 < length t).
Context (Ht : Forall (targets_below (length t)) t).
Context (Heof : ∀ s s' a a', s ∈ t → s' ∈ t → eof_action s = Some a → eof_action s' = Some a' → a = a').

Lemma part_ok_initial groups ids :
  initial_ok t groups → length ids = length t →
  (∀ i l x, groups !! i = Some l → x ∈ l → ids !! N.to_nat x = Some (N.of_nat i)) → part_ok t groups ids.
Proof.
  intros (Hc & _) Hl Hids. split; [rewrite Hc; apply all_states_NoDup|]. split; [|done].
  intros x Hx. rewrite Hc in Hx. by apply all_states_elem.
Qed.

(** The equivalence that a bisimulation generates. *)
Inductive bisim_eqv (R : N → N → Prop) : N → N → Prop :=
  | eqv_base a b : R a b → bisim_eqv R a b
  | eqv_sym a b : R a b → bisim_eqv R b a.
Lemma bisim_eqv_bisim R : lex_bisim t R → lex_bisim t (bisim_eqv R).
Proof.
  intros HR a b [a' b' H|a' b' H]; destruct (HR _ _ H) as (s & s' & Hs & Hs' & Hsig & Hact).
  - exists s, s'. split_and?; [done..|]. intros. eapply eqv_base. eauto.
  - exists s', s. split_and?; [done..|]. intros. eapply eqv_sym. eauto.
Qed.

Lemma bisim_clash R groups ids a b y :
  lex_bisim t R → part_ok t groups ids → concat groups ≡ₚ map N.of_nat (seq 0 (length t)) →
  together R groups → R a b → clash t split_lex_states ids y a → clash t split_lex_states ids y b.
Proof.
  intros HR (Hnd & Hr & Hlen & Hids) Hc Htog Hab (sy & sa & Hy & Ha & Hd).
  destruct (HR a b Hab) as (s & s' & Hs & Hs' & Hsig & Hact). rewrite Hs in Ha. injection Ha as ->.
  exists sy, s'. split; [done|]. split; [done|]. unfold split_lex_states in *. injection Hd as Hd. f_equal.
  apply not_false_iff_true. intros Hf. apply not_false_iff_true in Hd. apply Hd.
  rewrite lex_states_differ_false in Hf. apply lex_states_differ_false. intros i e e' He He'.
  assert (∃ e'', advance_actions s' !! i = Some e'') as [e'' He''].
  { apply lookup_lt_is_Some_2. injection Hsig as _ _ _ Hm. apply (f_equal length) in Hm. rewrite !length_map in Hm.
    rewrite <- Hm. by eapply lookup_lt_Some. }
  rewrite (Hf i e e'' He He''). specialize (Hact i e' e'' He' He'').
  destruct (HR _ _ Hact) as (z & z' & Hz & Hz' & _).
  assert (aa_state e'.2 ∈ concat groups) as (l & Hl & Hel)%elem_of_concat.
  { rewrite Hc. apply all_states_elem; [done|by eapply lookup_lt_Some]. }
  pose proof (Htog _ _ l Hact Hl Hel) as Hel'. apply list_elem_of_lookup in Hl as [g Hg].
  by rewrite (Hids g l _ Hg Hel), (Hids g l _ Hg Hel').
Qed.

(** The refinement, from the initial groups. *)
Lemma refine_spec k n groups ids :
  initial_ok t groups → part_ok t groups ids → length t ≤ n → length t < k →
  ∃ groups' ids', split_until_stable (E:=Empty_set) t split_lex_states k n groups ids 1 = Ok (groups', ids') ∧
    part_ok t groups' ids' ∧ concat groups' ≡ₚ map N.of_nat (seq 0 (length t)) ∧ [] ∉ groups' ∧
    refines groups' groups ∧ groups' !! 0 = Some [0%N] ∧
    (∀ g l, 1 ≤ g → groups' !! g = Some l → stable_group t split_lex_states ids' l) ∧
    ∀ R a b l, lex_bisim t R → R a b → l ∈ groups' → a ∈ l → b ∈ l.
Proof.
  intros (Hc & Hne & Hsame & Hall & Hg0) Hok Hn Hk. pose proof (slack_sum groups Hne) as Hs.
  rewrite Hc, length_map, length_seq in Hs.
  destruct (split_until_stable_spec (E:=Empty_set) t split_lex_states (lex_splits t) k n groups ids 1 Hok)
    as (groups' & ids' & Heq & Hok' & Hp & Href & Hlow & Hne' & Hst & _); [lia|lia|lia|].
  exists groups', ids'. split; [done|]. split; [done|]. split; [by rewrite Hp|]. split; [by apply Hne'|].
  split; [done|]. split; [rewrite Hlow by (cbn; lia); done|]. split; [intros g l Hg; by apply Hst|].
  intros R a b l HR Hab Hl Ha.
  assert (together (bisim_eqv R) groups') as Htog; [|by apply (Htog a b l); [constructor| |]].
  pose proof (bisim_eqv_bisim R HR) as HE.
  assert (Hsym : ∀ x y, bisim_eqv R x y → bisim_eqv R y x).
  { intros x y [x' y' H|x' y' H]; [by apply eqv_sym|by apply eqv_base]. }
  assert (Hcl : ∀ gs js, part_ok t gs js → concat gs ≡ₚ map N.of_nat (seq 0 (length t)) → together (bisim_eqv R) gs →
    ∀ x y z, bisim_eqv R x y → clash t split_lex_states js z x → clash t split_lex_states js z y).
  { intros gs js Hpo Hcc Ht' x y z Hxy Hz. by eapply (bisim_clash (bisim_eqv R)). }
  eapply (split_until_stable_together t split_lex_states (lex_splits t) (bisim_eqv R) Hsym split_lex_irrefl split_lex_sym
    (map N.of_nat (seq 0 (length t))) Hcl k n 1 groups ids); [done|exact Hc|lia|lia| |exact Heq].
  intros x y l' Hxy Hl' Hx. destruct (HE _ _ Hxy) as (s & s' & Hs1 & Hs2 & Hsig & _).
  apply (Hall l' x y Hl' Hx); [by eapply lookup_lt_Some|]. unfold sig_of. by rewrite Hs1, Hs2; cbn; rewrite Hsig.
Qed.

Lemma minimize_spec {T} k n (ps : list (ParseState T)) :
  Forall (λ s, N.to_nat (lex_state_id s) < length t) ps → length t ≤ n → length t < k →
  ∃ t' ps' ids, minimize_lex_table k n t ps = Ok (t', ps') ∧ quotient ids t t' ∧
    (∀ i, ids !! i = Some 0%N ↔ i = 0) ∧
    (∀ g, g < length t' → ∃ i, ids !! i = Some (N.of_nat g)) ∧ length t' ≤ length t ∧
    Forall2 (λ s s', ∃ i, ids !! N.to_nat (lex_state_id s) = Some i ∧ s' = with_lex_state_id s i) ps ps' ∧
    ∀ R a b, lex_bisim t R → R a b → ids !! N.to_nat a = ids !! N.to_nat b.
Proof.
  intros Hps Hn Hk. unfold minimize_lex_table.
  destruct (initial_groups_spec t Hfit H0) as (groups & -> & Hinit). cbn [mbind outcome_bind].
  pose proof Hinit as (Hc & Hne & Hsame & Hall & Hg0). pose proof (slack_sum groups Hne) as Hsl.
  rewrite Hc, length_map, length_seq in Hsl.
  destruct (set_groups_spec groups 0 (replicate (length t) 0%N)) as (ids & -> & Hlen & Hids & _).
  { rewrite Hc. apply all_states_NoDup. }
  { intros x Hx. rewrite Hc in Hx. rewrite length_replicate. by apply all_states_elem in Hx. }
  { lia. }
  rewrite length_replicate in Hlen. cbn [mbind outcome_bind].
  pose proof (part_ok_initial groups ids Hinit Hlen Hids) as Hok.
  destruct (refine_spec k n groups ids Hinit Hok Hn Hk) as (gs & js & -> & Hok' & Hc' & Hne' & Href & Hg0' & Hst & Hmin).
  cbn [mbind outcome_bind]. pose proof Hok' as (Hnd & Hr & Hli & Hlk).
  destruct (new_states_spec js gs t t) as (new & -> & Hnew); [done| |done|done|by rewrite Hli|].
  { intros x Hx. split; [done|]. rewrite Hc' in Hx. by apply all_states_elem in Hx. }
  cbn [mbind outcome_bind]. destruct (rename_lex_states_spec js ps) as (ps' & -> & Hps'); [by rewrite Hli|].
  cbn [mbind outcome_bind]. exists new, ps', js. split; [done|].
  assert (∀ i, i < length t → ∃ g l, gs !! g = Some l ∧ N.of_nat i ∈ l ∧ js !! i = Some (N.of_nat g)) as Hcov.
  { intros i Hi. assert (N.of_nat i ∈ concat gs) as (l & Hl & Hx)%elem_of_concat.
    { rewrite Hc'. apply all_states_elem; [done|]. by rewrite Nat2N.id. }
    apply list_elem_of_lookup in Hl as [g Hg]. exists g, l. split; [done|]. split; [done|].
    pose proof (Hlk g l _ Hg Hx) as H. by rewrite Nat2N.id in H. }
  pose proof (Forall2_length _ _ _ Hnew) as Hlnew. pose proof (slack_sum gs Hne') as Hsl'.
  rewrite Hc', length_map, length_seq in Hsl'.
  split; [split; [done|]; split; [done|]|split; [|split; [|split; [lia|split; [done|]]]]].
  - intros i s Hs. destruct (Hcov i) as (g & l & Hg & Hx & Hig); [by eapply lookup_lt_Some|].
    exists (N.of_nat g). split; [done|]. rewrite Nat2N.id.
    destruct (Forall2_lookup_l _ _ _ _ _ Hnew Hg) as (s' & Hs' & x0 & s0 & Hhd & Hs0 & ->). rewrite Hs'. f_equal.
    destruct l as [|y l]; [done|]. injection Hhd as ->.
    assert (x0 ∈ x0 :: l) as Hx0 by apply list_elem_of_here.
    destruct (Href (x0 :: l)) as (l0 & Hl0 & Hsub); [by eapply list_elem_of_lookup_2|].
    pose proof (Hsame l0 x0 (N.of_nat i) Hl0 (Hsub _ Hx0) (Hsub _ Hx)) as Hsig. unfold sig_of in Hsig.
    rewrite Hs0, Nat2N.id, Hs in Hsig. cbn in Hsig. injection Hsig as Hsig1 Hsig2 Hsig3 Hsig4.
    apply (ren_state_eq js (N.to_nat x0) i).
    + unfold lex_signature. by rewrite Hsig1, Hsig2, Hsig3, Hsig4.
    + apply list_elem_of_lookup in Hx as [j Hj]. destruct j as [|j].
      * injection Hj as ->. rewrite Nat2N.id, Hs in Hs0. injection Hs0 as ->. apply lex_states_differ_irrefl.
      * destruct g as [|g]; [rewrite Hg0' in Hg; injection Hg as <- <-; done|].
        apply not_true_iff_false. intros Hd. apply (Hst (S g) (x0 :: l) ltac:(lia) Hg 0 (S j) x0 (N.of_nat i) ltac:(lia) eq_refl Hj).
        exists s0, s. rewrite Nat2N.id. split_and!; [done|done|]. unfold split_lex_states. by rewrite Hd.
    + intros a a'. apply Heof; by eapply list_elem_of_lookup_2.
  - intros i. split.
    + intros Hi. destruct (Hcov i) as (g & l & Hg & Hx & Hig); [rewrite <- Hli; by eapply lookup_lt_Some|].
      rewrite Hi in Hig. injection Hig as Hig. assert (g = 0) as -> by lia. rewrite Hg0' in Hg. injection Hg as <-.
      apply list_elem_of_singleton in Hx. lia.
    + intros ->. apply (Hlk 0 [0%N] 0%N Hg0'). apply list_elem_of_here.
  - intros g Hg. destruct (lookup_lt_is_Some_2 gs g) as [[|x l] Hl]; [lia| |].
    + exfalso. apply Hne'. by eapply list_elem_of_lookup_2.
    + exists (N.to_nat x). apply (Hlk g (x :: l)); [done|apply list_elem_of_here].
  - intros R a b HR Hab. destruct (HR a b Hab) as (s & s' & Hs & Hs' & _).
    destruct (Hcov (N.to_nat a)) as (g & l & Hg & Hx & Hig); [by eapply lookup_lt_Some|]. rewrite N2Nat.id in Hx.
    rewrite Hig. symmetry. apply (Hlk g l); [done|]. eapply Hmin; [done|done|by eapply list_elem_of_lookup_2|done].
Qed.
End minimize.

(** ** Sorting *)
Lemma invert_loop_spec old : ∀ id new,
  NoDup old → (∀ x, x ∈ old → x < length new) → (N.of_nat (id + length old) < U32)%N →
  ∃ new', invert_loop id old new = Ok new' ∧ length new' = length new ∧
    (∀ k x, old !! k = Some x → new' !! x = Some (N.of_nat (id + k))) ∧ (∀ x, x ∉ old → new' !! x = new !! x).
Proof.
  induction old as [|x old IH]; intros id new Hnd Hlt Hfit; cbn [invert_loop]; [by exists new|].
  apply NoDup_cons in Hnd as [Hx Hnd]. cbn in Hfit.
  assert (x < length new) as Hxl by (apply Hlt, list_elem_of_here).
  rewrite vec_set_lt by done. cbn [mbind outcome_bind].
  destruct (IH (S id) (<[x:=as_u32 id]> new) Hnd) as (new' & -> & Hl & Hk & Hn).
  { intros y Hy. rewrite length_insert. apply Hlt. by apply list_elem_of_further. }
  { lia. }
  exists new'. rewrite length_insert in Hl. split; [done|]. split; [done|]. split.
  - intros [|k] y Hy; cbn in Hy.
    + injection Hy as <-. rewrite Hn, list_lookup_insert_eq by done. unfold as_u32. rewrite wrap_u32_small by lia.
      do 2 f_equal. lia.
    + rewrite (Hk k y Hy). do 2 f_equal. lia.
  - intros y [Hne Hy]%not_elem_of_cons. rewrite Hn by done. by apply list_lookup_insert_ne.
Qed.

Lemma reorder_spec ids old : ∀ t0 t,
  length t0 = length t → (∀ x, x ∈ old → t0 !! x = t !! x ∧ x < length t) → NoDup old →
  Forall (targets_below (length ids)) t →
  ∃ new, reorder ids old t0 = Ok new ∧ Forall2 (λ x s', ∃ s, t !! x = Some s ∧ s' = ren_state ids s) old new.
Proof.
  induction old as [|x old IH]; intros t0 t Hlen Hin Hnd Ht; cbn [reorder]; [by exists []|].
  apply NoDup_cons in Hnd as [Hx Hnd]. destruct (Hin x (list_elem_of_here _ _)) as [Heq Hxt].
  destruct (lookup_lt_is_Some_2 _ _ Hxt) as [s Hs]. rewrite Hs in Heq. rewrite (vec_get_Some _ _ _ Heq). cbn [mbind outcome_bind].
  rewrite vec_set_lt by lia. cbn [mbind outcome_bind]. pose proof Ht as Ht'. rewrite Forall_forall in Ht'.
  rewrite rename_state_spec by (apply Ht'; by eapply list_elem_of_lookup_2). cbn [mbind outcome_bind].
  destruct (IH (<[x:=default_lex_state]> t0) t) as (new & -> & Hnew); [by rewrite length_insert| |done|done|].
  { intros y Hy. destruct (Hin y) as [? ?]; [by apply list_elem_of_further|]. split; [|done].
    rewrite list_lookup_insert_ne; [done|]. by intros ->. }
  cbn [mbind outcome_bind]. eexists. split; [done|]. constructor; [by exists s|done].
Qed.

Lemma sort_states_spec {T} (t : LexTable) (ps : list (ParseState T)) :
  0 < length t → (N.of_nat (length t) < U32)%N → Forall (targets_below (length t)) t →
  Forall (λ s, N.to_nat (lex_state_id s) < length t) ps →
  ∃ t' ps' ids, sort_states t ps = Ok (t', ps') ∧ quotient ids t t' ∧ ids ≡ₚ map N.of_nat (seq 0 (length t)) ∧
    ids !! 0 = Some 0%N ∧ length t' = length t ∧
    Forall2 (λ s s', ∃ i, ids !! N.to_nat (lex_state_id s) = Some i ∧ s' = with_lex_state_id s i) ps ps'.
Proof.
  intros H0 Hfit Ht Hps. unfold sort_states. destruct (length t) as [|n] eqn:Hn; [lia|]. cbn [seq]. rewrite <- Hn in *.
  set (key id := default default_lex_state (t !! id)).
  set (old := 0 :: sort_by (λ a b, lex_state_cmp (key a) (key b)) (seq 1 n)).
  match goal with |- context [invert_loop 0 ?o _] => change o with old end.
  assert (old ≡ₚ seq 0 (length t)) as Hp by (unfold old; rewrite sort_by_perm, Hn; done).
  assert (length old = length t) as Hlo by (rewrite (Permutation_length Hp), length_seq; done).
  assert (NoDup old) as Hnd by (rewrite Hp; apply NoDup_seq).
  assert (∀ x, x ∈ old ↔ x < length t) as Hin by (intros x; rewrite Hp, elem_of_seq; lia).
  destruct (invert_loop_spec old 0 (replicate (length old) 0%N) Hnd) as (ids & -> & Hli & Hk & _).
  { intros x Hx. rewrite length_replicate, Hlo. by apply Hin. }
  { lia. }
  rewrite length_replicate, Hlo in Hli. cbn [mbind outcome_bind].
  destruct (reorder_spec ids old t t) as (new & -> & Hnew); [done|intros x Hx; split; [done|by apply Hin]|done|by rewrite Hli|].
  cbn [mbind outcome_bind]. destruct (rename_lex_states_spec ids ps) as (ps' & -> & Hps'); [by rewrite Hli|].
  cbn [mbind outcome_bind]. exists new, ps', ids. split; [done|]. pose proof (Forall2_length _ _ _ Hnew) as Hln.
  split; [split; [done|split; [done|]]|split; [|split; [|split; [lia|done]]]].
  - intros i s Hi. assert (i ∈ old) as [k Hki]%list_elem_of_lookup by (apply Hin; by eapply lookup_lt_Some).
    exists (N.of_nat k). split; [by rewrite (Hk k i Hki)|]. rewrite Nat2N.id.
    destruct (Forall2_lookup_l _ _ _ _ _ Hnew Hki) as (s' & Hs' & s0 & Hs0 & ->). rewrite Hi in Hs0. by injection Hs0 as <-.
  - assert (0 :: seq 1 n = seq 0 (length t)) as -> by (rewrite Hn; done). symmetry. apply submseteq_length_Permutation.
    + apply NoDup_submseteq; [apply (NoDup_fmap_2 N.of_nat), NoDup_seq|]. intros x (k & -> & Hx)%elem_of_map.
      apply elem_of_seq in Hx. destruct (lookup_lt_is_Some_2 old k) as [y Hy]; [lia|].
      eapply list_elem_of_lookup_2. by rewrite (Hk k y Hy).
    + rewrite length_map, length_seq. lia.
  - apply (Hk 0 0 eq_refl).
Qed.

(** Every state of a quotient is a renamed state, so its targets exist. *)
Lemma quotient_targets ids t t' :
  quotient ids t t' → (∀ g, g < length t' → ∃ i, ids !! i = Some (N.of_nat g)) → Forall (targets_below (length t')) t'.
Proof.
  intros (Hl & Ht & Hs) Hsurj. apply Forall_lookup_2. intros g s' Hg.
  destruct (Hsurj g) as [i Hi]; [by eapply lookup_lt_Some|].
  destruct (lookup_lt_is_Some_2 t i) as [s Hsi]; [rewrite <- Hl; by eapply lookup_lt_Some|].
  destruct (Hs i s Hsi) as (g' & Hg' & Hst). rewrite Hi in Hg'. injection Hg' as <-. rewrite Nat2N.id, Hg in Hst. injection Hst as ->.
  assert (∀ a, N.to_nat (aa_state a) < length t → N.to_nat (aa_state (ren_action ids a)) < length t') as Hren.
  { intros a [sa Ha]%lookup_lt_is_Some_2. destruct (Hs _ _ Ha) as (ga & Hga & Hgt). unfold ren_action. rewrite Hga. cbn.
    by eapply lookup_lt_Some. }
  rewrite Forall_forall in Ht. destruct (Ht s) as [Ha He]; [by eapply list_elem_of_lookup_2|]. split; cbn.
  - apply Forall_forall. intros e (e0 & -> & He0)%elem_of_map. rewrite Forall_forall in Ha. by apply Hren, Ha.
  - intros a Ha'. destruct (eof_action s) as [a0|]; [|done]. injection Ha' as <-. by apply Hren, He.
Qed.
Lemma quotient_accept ids t t' i g s : quotient ids t t' → ids !! i = Some g → t !! i = Some s →
  ∃ s', t' !! N.to_nat g = Some s' ∧ accept_action s' = accept_action s.
Proof.
  intros (_ & _ & Hs) Hi Hsi. destruct (Hs i s Hsi) as (g' & Hg' & Hst). rewrite Hi in Hg'. injection Hg' as <-.
  eexists. by split.
Qed.

(** The states that [ids] merges are related by a bisimulation. *)
Definition merged (ids : list N) (a b : N) : Prop :=
  ∃ g, ids !! N.to_nat a = Some g ∧ ids !! N.to_nat b = Some g.
Lemma quotient_bisim ids t t' : quotient ids t t' → (∀ i, ids !! i = Some 0%N ↔ i = 0) → lex_bisim t (merged ids).
Proof.
  intros (Hl & Ht & Hs) H0 a b (g & Ha & Hb).
  destruct (lookup_lt_is_Some_2 t (N.to_nat a)) as [s Hsa]; [rewrite <- Hl; by eapply lookup_lt_Some|].
  destruct (lookup_lt_is_Some_2 t (N.to_nat b)) as [s' Hsb]; [rewrite <- Hl; by eapply lookup_lt_Some|].
  destruct (Hs _ _ Hsa) as (g1 & Hg1 & H1), (Hs _ _ Hsb) as (g2 & Hg2 & H2).
  assert (g1 = g) as -> by congruence. assert (g2 = g) as -> by congruence. rewrite H1 in H2. injection H2 as Hacc Heof Hadv.
  assert (∀ (l l' : list (CharacterSet * AdvanceAction)),
    map (λ e, (e.1, ren_action ids e.2)) l = map (λ e, (e.1, ren_action ids e.2)) l' →
    map (λ '(cs, a), (cs, in_main_token a)) l = map (λ '(cs, a), (cs, in_main_token a)) l') as Hsig.
  { clear. induction l as [|[cs a] l IH]; intros [|[cs' a'] l']; try done. cbn. intros [= -> ? -> ?]. f_equal. by apply IH. }
  exists s, s'. split; [done|]. split; [done|]. split.
  - unfold lex_signature. rewrite Hacc, (Hsig _ _ Hadv).
    assert (Nat.eqb (N.to_nat a) 0 = Nat.eqb (N.to_nat b) 0) as ->.
    { apply eq_bool_prop_intro. rewrite !Is_true_true, !Nat.eqb_eq, <- !H0. rewrite Ha, Hb. done. }
    destruct (eof_action s), (eof_action s'); done.
  - intros i e e' He He'. assert (ren_action ids e.2 = ren_action ids e'.2) as Hr.
    { apply (f_equal (λ l : list _, l !! i)) in Hadv. change (map ?h) with (fmap (M:=list) h) in Hadv.
      rewrite !list_lookup_fmap, He, He' in Hadv. cbn in Hadv. congruence. }
    injection Hr as Hr _. rewrite Forall_forall in Ht.
    assert (∀ z (x : LexState) ex, t !! z = Some x → advance_actions x !! i = Some ex → ∃ gx, ids !! N.to_nat (aa_state ex.2) = Some gx)
      as Htg.
    { intros z x ex Hx Hex. destruct (Ht x) as [Hall _]; [by eapply list_elem_of_lookup_2|]. rewrite Forall_forall in Hall.
      apply lookup_lt_is_Some_2. rewrite Hl. apply Hall. by eapply list_elem_of_lookup_2. }
    destruct (Htg _ _ _ Hsa He) as [ge Hge], (Htg _ _ _ Hsb He') as [ge' Hge'].
    rewrite Hge, Hge' in Hr. cbn in Hr. exists ge. split; [done|congruence].
Qed.

(** C11: minimization merges exactly the states that are alike: for a table
    whose targets exist and whose actions on the end of the file agree, it
    ends without panicking and renames every state to one with the same
    actions up to the renaming (the new table runs over any string as the old
    one does), keeps state 0 apart, uses every new state, renames the parse
    states' lex states, and gives two states the same new state exactly when
    some bisimulation relates them (the same accepted token, the same
    character sets with the same flags, targets that are again related).
    The new table need not be the smallest one for the language: states that
    split the same characters into different sets stay apart. *)
Theorem minimize_lex_table_correct {T} (k n : nat) (t : LexTable) (ps : list (ParseState T)) :
  (N.of_nat (length t) < U32)%N → 0 < length t → Forall (targets_below (length t)) t →
  (∀ s s' a a', s ∈ t → s' ∈ t → eof_action s = Some a → eof_action s' = Some a' → a = a') →
  Forall (λ s, N.to_nat (lex_state_id s) < length t) ps → length t ≤ n → length t < k →
  ∃ t' ps' ids, minimize_lex_table k n t ps = Ok (t', ps') ∧
    (∀ w i g, ids !! N.to_nat i = Some g → table_run t' g w = (table_run t i w ≫= λ j, ids !! N.to_nat j)) ∧
    (∀ i s, t !! i = Some s → ∃ g, ids !! i = Some g ∧ t' !! N.to_nat g = Some (ren_state ids s)) ∧
    (∀ i, ids !! i = Some 0%N ↔ i = 0) ∧
    (∀ g, g < length t' → ∃ i, ids !! i = Some (N.of_nat g)) ∧ length t' ≤ length t ∧
    Forall2 (λ s s', ∃ i, ids !! N.to_nat (lex_state_id s) = Some i ∧ s' = with_lex_state_id s i) ps ps' ∧
    (∀ R a b, lex_bisim t R → R a b → ids !! N.to_nat a = ids !! N.to_nat b) ∧ lex_bisim t (merged ids).
Proof.
  intros Hfit H0 Ht Heof Hps Hn Hk.
  destruct (minimize_spec t Hfit H0 Ht Heof k n ps Hps Hn Hk) as (t' & ps' & ids & -> & Hq & Hz & ? & ? & ? & ?).
  exists t', ps', ids. split; [done|]. split; [intros w i g; by apply quotient_run|]. split; [apply Hq|].
  split_and?; try done. by eapply quotient_bisim.
Qed.

(** ** Witnesses *)

(** States 1 and 2 behave alike, state 3 accepts. *)
Definition ex_lex_table : LexTable :=
  [mkLexState None None [(from_char 97, mkAdvance 1 true); (from_char 98, mkAdvance 2 true)];
   mkLexState None None [(from_char 99, mkAdvance 3 true)];
   mkLexState None None [(from_char 99, mkAdvance 3 true)];
   mkLexState (Some (terminal 0)) None []].
Definition ex_min_states : list (ParseState unit) := [mkParseState 0%N [] [] TokenSet.new 2%N 0%N 0%N false].
Example minimize_example :
  (λ r, (map (λ s, map (λ e, aa_state e.2) (advance_actions s)) r.1, map lex_state_id r.2)) <$>
    minimize_lex_table 5 4 ex_lex_table ex_min_states = Ok ([[1; 1]; [2]; []]%N, [1%N]).
Proof. vm_compute. reflexivity. Qed.

(** States 1 and 2 go on to accept the same strings, but list the characters
    differently, and stay apart. *)
Definition ex_split_table : LexTable :=
  [mkLexState None None [(from_char 97, mkAdvance 1 true); (from_char 98, mkAdvance 2 true)];
   mkLexState None None [(from_char 97, mkAdvance 3 true); (from_char 98, mkAdvance 3 true)];
   mkLexState None None [(mkCharacterSet [(97, 99)%N], mkAdvance 3 true)];
   mkLexState (Some (terminal 0)) None []].
Example minimize_not_smallest :
  (λ r, length r.1) <$> minimize_lex_table 5 4 ex_split_table ex_min_states = Ok 4.
Proof. vm_compute. reflexivity. Qed.
Example minimize_lex_table_witness :
  ∃ t' ps' ids, minimize_lex_table 5 4 ex_lex_table ex_min_states = Ok (t', ps') ∧
    (∀ w i g, ids !! N.to_nat i = Some g → table_run t' g w = (table_run ex_lex_table i w ≫= λ j, ids !! N.to_nat j)) ∧
    (∀ i s, ex_lex_table !! i = Some s → ∃ g, ids !! i = Some g ∧ t' !! N.to_nat g = Some (ren_state ids s)) ∧
    (∀ i, ids !! i = Some 0%N ↔ i = 0) ∧
    (∀ g, g < length t' → ∃ i, ids !! i = Some (N.of_nat g)) ∧ length t' ≤ length ex_lex_table ∧
    Forall2 (λ s s', ∃ i, ids !! N.to_nat (lex_state_id s) = Some i ∧ s' = with_lex_state_id s i) ex_min_states ps' ∧
    (∀ R a b, lex_bisim ex_lex_table R → R a b → ids !! N.to_nat a = ids !! N.to_nat b) ∧
    lex_bisim ex_lex_table (merged ids).
Proof.
  apply (minimize_lex_table_correct 5 4 ex_lex_table ex_min_states);
    [reflexivity|cbn; lia| | |apply Forall_singleton; cbn; lia|cbn; lia|cbn; lia].
  - unfold ex_lex_table. repeat (apply Forall_cons; split); try (apply Forall_nil; done);
      (split; [cbn; repeat (apply Forall_cons; split); try (apply Forall_nil; done); cbn; lia|by intros ? [=]]).
  - intros s s' a a' Hs _ Ha. unfold ex_lex_table in Hs. rewrite !elem_of_cons in Hs.
    destruct Hs as [-> |[-> |[-> |[-> |?%elem_of_nil]]]]; discriminate || done.
Defined.

Definition ex_merge_map : TokenConflictMap := mkTokenConflictMap 2 [0; 16; 1; 0]%N [] [] [] [2; 0]%N [2; 1]%N 1.
Definition ex_merge_index : CoincidentTokenIndex := mkCoincident [0]%N [0]%N [0; 0]%N 2.
Definition ex_set_0 : TokenSet := mkTokenSet (BitVec.mk [1]%N 1) BitVec.new false false.
Definition ex_set_1 : TokenSet := mkTokenSet (BitVec.mk [2]%N 2) BitVec.new true false.
Lemma ex_set_lexicon (s : TokenSet) :
  s = ex_set_0 ∨ s = ex_set_1 → in_lexicon 2 s.
Proof.
  intros Hs. assert (wf s) as Hw by (destruct Hs as [-> | ->]; split; by apply BitVec.check_wf). split; [done|].
  intros j Hj. destruct (has_terminal_word 2 ex_merge_map ex_merge_index eq_refl eq_refl eq_refl eq_refl s j Hw Hj) as (x & Hx & Hb).
  assert (Nat.div j 64 = 0) as Hq.
  { apply lookup_lt_Some in Hx. assert (length (terminal_bits_words s) = 1) by (destruct Hs as [-> | ->]; vm_compute; reflexivity). lia. }
  assert (j < 64) by (apply Nat.div_small_iff; [lia|done]). rewrite Hq in Hx. rewrite Nat.mod_small in Hb by done.
  destruct Hs as [-> | ->]; vm_compute in Hx; injection Hx as <-.
  all: destruct (decide (j < 2)) as [|Hge]; [done|]; rewrite N.bits_above_log2 in Hb; [done|cbn; lia].
Qed.
Example merge_token_set_witness :
  in_lexicon 2 ex_set_0 ∧ in_lexicon 2 ex_set_1 ∧
  ∃ b tokens', merge_token_set ex_set_0 ex_set_1 ex_merge_map ex_merge_index = Ok (b, tokens') ∧
    (b = true ↔ ¬ separated 2 ex_merge_map ex_merge_index ex_set_0 ex_set_1 ∧
                ¬ separated 2 ex_merge_map ex_merge_index ex_set_1 ex_set_0) ∧
    (if b then wf tokens' ∧ toks tokens' = toks ex_set_0 ∪ toks ex_set_1 else tokens' = ex_set_0).
Proof.
  assert (H0 : in_lexicon 2 ex_set_0) by (apply (ex_set_lexicon _); left; reflexivity).
  assert (H1 : in_lexicon 2 ex_set_1) by (apply (ex_set_lexicon _); right; reflexivity).
  split; [exact H0|]. split; [exact H1|].
  exact (merge_token_set_correct 2 ex_merge_map ex_merge_index ex_set_0 ex_set_1 eq_refl eq_refl eq_refl eq_refl H0 H1).
Defined.
