(* ===== verification/Minimize.v ===== *)
(** * [build_tables/minimize_parse_table.rs]: the passes

    The minimizer merges states with equal cores that do not conflict, skips unit
    reductions, removes states without references and sorts the states by size.
    The queries that [debug!] prints the result of are not modelled. *)
From S2P Require Import Prelude BitVec Symbols TokenSet Ordering CharSet Nfa Dedup Grammars Tables TokenConflicts LexMinimize.

Lemma StronglySorted_impl {A} (R R' : A → A → Prop) l : (∀ a b, R a b → R' a b) → StronglySorted R l → StronglySorted R' l.
Proof. intros HR. induction 1 as [|x l _ IH Hx]; constructor; [done|]. eapply Forall_impl; [exact Hx|]. cbn. auto. Qed.
Lemma StronglySorted_lookup {A} (R : A → A → Prop) l i j a b : StronglySorted R l → l !! i = Some a → l !! j = Some b → i < j → R a b.
Proof.
  intros Hs. revert i j. induction Hs as [|x l _ IH Hx]; intros [|i] [|j] Hi Hj Hij; cbn in *; try done; try lia.
  - injection Hi as <-. rewrite Forall_forall in Hx. by eapply Hx, list_elem_of_lookup_2.
  - apply (IH i j); [done|done|lia].
Qed.

(** [sort_unstable_by_key], whose order of elements with equal keys is not
    specified. *)
Class UnstableSort := {
  sort_unstable_by_key : ∀ {A}, (A → Z) → list A → list A;
  sort_unstable_perm : ∀ {A} (k : A → Z) l, sort_unstable_by_key k l ≡ₚ l;
  sort_unstable_sorted : ∀ {A} (k : A → Z) l, StronglySorted (λ a b, (k a ≤ k b)%Z) (sort_unstable_by_key k l);
}.
#[global, program] Instance insertion_sort : UnstableSort := {|
  sort_unstable_by_key A k l := sort_by (λ a b, (k a ?= k b)%Z) l;
|}.
Next Obligation. intros A k l. apply sort_by_perm. Qed.
Next Obligation.
  intros A k l. eapply StronglySorted_impl; [|apply (sort_by_key_sorted k Z.compare)]. done.
Qed.

(** ** Symbol keys *)
Definition KEY_TAG_SHIFT : N := 61.
Definition KEY_INDEX_MASK : N := 2305843009213693951.
Notation SymbolKey := N (only parsing).
Definition key_new (sym : Symbol) : SymbolKey := N.lor (N.shiftl (kind_code (kind sym)) KEY_TAG_SHIFT) (index sym).
Definition key_index (key : SymbolKey) : N := wrap_u32 (N.land key KEY_INDEX_MASK).
Definition key_symbol (key : SymbolKey) : Symbol :=
  mkSymbol (match N.shiftr key KEY_TAG_SHIFT with
            | 0 => External
            | 1 => End
            | 2 => EndOfNonTerminalExtra
            | 3 => Terminal
            | _ => NonTerminal
            end%N) (key_index key).

(** The precomputed bit sets; rows of [cb_row_words] words. *)
Record ConflictBits := mkConflictBits {
  cb_row_words : nat;
  state_terminals : list N;
  cb_conflict_rows : list N;
  keyword_bits : list N;
  internal_external : list N;
}.
Definition get_row {E : Type} (bits : list N) (row_words i : nat) : outcome E (list N) := Grammars.slice bits (i * row_words) (i * row_words + row_words).
Definition get_conflict_row {E : Type} (b : ConflictBits) (token : nat) : outcome E (list N) := get_row (cb_conflict_rows b) (cb_row_words b) token.
Definition get_state_row {E : Type} (b : ConflictBits) (state : nat) : outcome E (list N) := get_row (state_terminals b) (cb_row_words b) state.

Definition with_states {T} (t : ParseTable T) (states : list (ParseState T)) : ParseTable T :=
  mkParseTable states (action_lists t) (pt_symbols t) (production_infos t) (max_aliased_production_length t) (external_lex_states t).
Definition with_pool {T} (t : ParseTable T) (p : ActionListPool) : ParseTable T :=
  mkParseTable (pt_states t) p (pt_symbols t) (production_infos t) (max_aliased_production_length t) (external_lex_states t).
Definition default_state {T} : ParseState T := mkParseState 0 [] [] TokenSet.new 0 0 0 false.
(** [ids[state_id as usize]]. *)
Definition id_at {E : Type} (ids : list N) (state_id : ParseStateId) : outcome E ParseStateId := vec_get ids (N.to_nat state_id).

(** ** Unit reductions *)
Section unit_reductions.
Context (g : SyntaxGrammar) (simple_aliases : AliasMap).

Definition alias_steps {E : Type} (aliased : gset Symbol) (steps : list ProductionStep) : outcome E (gset Symbol) :=
  for_each (λ aliased step, a ← step_get_alias step; Ok (match a with Some _ => {[step_symbol step]} ∪ aliased | None => aliased end)) aliased steps.
Definition aliased_symbols {E : Type} : outcome E (gset Symbol) :=
  for_each (λ aliased i,
    ids ← variable_prod_ids g i;
    for_each (λ aliased prod_id, p ← production g prod_id; alias_steps aliased (pr_steps p)) aliased
      (prod_range ids)) ∅ (seq 0 (length (sg_variables g))).

(** The guard of the match arm for a unit reduction, with its short cuts. *)
Definition is_unit_reduction {E : Type} (aliased : gset Symbol) (found : option Symbol) (action : ParseAction) : outcome E (option Symbol) :=
  match action with
  | Reduce symbol 1 _ 0 =>
      if bool_decide (simple_aliases !! symbol ≠ None) || bool_decide (symbol ∈ supertype_symbols g)
         || bool_decide (symbol ∈ extra_symbols g) || bool_decide (symbol ∈ aliased) then Ok None
      else
        v ← vec_get (sg_variables g) (N.to_nat (index symbol));
        Ok (if negb (bool_decide (sv_kind v = Named)) && (bool_decide (found = None) || bool_decide (found = Some symbol))
            then Some symbol else None)
  | _ => Ok None
  end.
(** The loops over the actions of an entry and over the entries: [None] once some
    action is neither a unit reduction nor the shift of an extra. *)
Fixpoint unit_actions {E : Type} (aliased : gset Symbol) (found : option Symbol) (actions : list ParseAction) : outcome E (option (option Symbol)) :=
  match actions with
  | [] => Ok (Some found)
  | ShiftExtra :: actions => unit_actions aliased found actions
  | action :: actions =>
      u ← is_unit_reduction aliased found action;
      match u with Some symbol => unit_actions aliased (Some symbol) actions | None => Ok None end
  end.
Fixpoint unit_entries {E : Type} (p : ActionListPool) (aliased : gset Symbol) (found : option Symbol) (entries : list (Symbol * N)) :
    outcome E (option (option Symbol)) :=
  match entries with
  | [] => Ok (Some found)
  | (_, id) :: entries =>
      actions ← pool_get p id;
      r ← unit_actions aliased found actions;
      match r with Some found => unit_entries p aliased found entries | None => Ok None end
  end.
Definition unit_reduction_symbol {E : Type} (p : ActionListPool) (aliased : gset Symbol) (s : ParseState N) : outcome E (option Symbol) :=
  if has_eof_gated_reduce s then Ok None
  else r ← unit_entries p aliased None (terminal_entries s); Ok (default None r).
Definition unit_reduction_symbols_by_state {E : Type} (t : ParseTable N) (aliased : gset Symbol) : outcome E (gmap N Symbol) :=
  for_each (λ m '(i, s),
    u ← unit_reduction_symbol (action_lists t) aliased s;
    Ok (match u with Some symbol => <[as_u32 i := symbol]> m | None => m end)) ∅ (imap pair (pt_states t)).
End unit_reductions.

(** One round over a state: the gotos, then the shifts. *)
Definition goto_entry {T} (s : ParseState T) (symbol : Symbol) : option ParseStateId :=
  match im_get symbol (nonterminal_entries s) with Some (Goto x) => Some x | _ => None end.
Definition skip_gotos {E : Type} (units : gmap N Symbol) (s : ParseState N) : outcome E (bool * ParseState N) :=
  s' ← update_nonterminal_references s (λ other s, Ok (match units !! other with Some symbol => default other (goto_entry s symbol) | None => other end));
  Ok (forallb (λ e, match e.2 with Goto x => bool_decide (units !! x = None) | GShiftExtra => true end) (nonterminal_entries s), s').
Definition skip_action (units : gmap N Symbol) (s : ParseState N) (a : ParseAction) : option ParseAction :=
  match a with
  | Shift target r =>
      symbol ← units !! target; new ← goto_entry s symbol; if decide (new = target) then None else Some (Shift new r)
  | _ => None
  end.
Notation dedup_map := (gmap (list ParseAction) N) (only parsing).
(** The loop over the entries; [done] turns false when an entry changes. *)
Fixpoint skip_shifts {E : Type} (units : gmap N Symbol) (s : ParseState N) (p : ActionListPool) (ids : dedup_map) (entries : list (Symbol * N)) :
    outcome E (bool * list (Symbol * N) * ActionListPool * dedup_map) :=
  match entries with
  | [] => Ok (true, [], p, ids)
  | (symbol, old_id) :: entries =>
      actions ← pool_get p old_id;
      let changed := existsb (λ a, bool_decide (is_Some (skip_action units s a))) actions in
      let '(id, p, ids) :=
        if changed : bool then
          let '(index, p, ids) := intern p ids (from_slice (map (λ a, default a (skip_action units s a)) actions)) in
          (id_new index (id_reusable old_id), p, ids)
        else (old_id, p, ids) in
      '(done, rest, p, ids) ← skip_shifts units s p ids entries;
      Ok (negb changed && done, (symbol, id) :: rest, p, ids)
  end.
(** [while !done]. *)
Fixpoint skip_state {E : Type} (units : gmap N Symbol) (fuel : nat) (s : ParseState N) (p : ActionListPool) (ids : dedup_map) :
    outcome E (ParseState N * ActionListPool * dedup_map) :=
  match fuel with
  | O => OutOfFuel
  | S fuel =>
      '(done1, s) ← skip_gotos units s;
      '(done2, entries, p, ids) ← skip_shifts units s p ids (terminal_entries s);
      let s := with_terminals s entries in
      if done1 && done2 then Ok (s, p, ids) else skip_state units fuel s p ids
  end.
Definition skip_next {E : Type} (units : gmap N Symbol) (fuel : nat) (st : list (ParseState N) * ActionListPool * dedup_map) (s : ParseState N) :
    outcome E (list (ParseState N) * ActionListPool * dedup_map) :=
  let '(done, p, ids) := st in '(s, p, ids) ← skip_state units fuel s p ids; Ok (done ++ [s], p, ids).
Definition skip_states {E : Type} (units : gmap N Symbol) (fuel : nat) (t : ParseTable N) : outcome E (ParseTable N) :=
  '(states, p, _) ← for_each (skip_next units fuel) ([], action_lists t, ∅) (pt_states t);
  Ok (with_pool (with_states t states) p).
Definition remove_unit_reductions {E : Type} (g : SyntaxGrammar) (simple_aliases : AliasMap) (fuel : nat) (t : ParseTable N) : outcome E (ParseTable N) :=
  aliased ← aliased_symbols g;
  units ← unit_reduction_symbols_by_state g simple_aliases t aliased;
  if decide (units = ∅) then Ok t else skip_states units fuel t.

(** ** Merging states *)
(** [bits[index / 64] |= 1 << (index % 64)] in row [i], a slice of its own. *)
Definition set_in_row {E : Type} (bits : list N) (row_words i index : nat) : outcome E (list N) :=
  let word := Nat.div index 64 in
  if (word <? row_words)%nat then
    w ← vec_get bits (i * row_words + word);
    vec_set bits (i * row_words + word) (N.lor w (N.shiftl 1 (N.of_nat (Nat.modulo index 64))))
  else Panic.
Definition set_terminal {E : Type} (row_words i : nat) (bits : list N) (symbol : Symbol) : outcome E (list N) :=
  if is_terminal symbol then set_in_row bits row_words i (N.to_nat (index symbol)) else Ok bits.
Definition state_terminal_bits {E : Type} (row_words : nat) (states : list (ParseState N)) : outcome E (list N) :=
  for_each (λ bits '(i, s), for_each (set_terminal row_words i) bits (terminal_entries s).*1)
    (replicate (length states * row_words) 0%N) (imap pair states).
Definition conflict_bits (states : list (ParseState N)) (g : SyntaxGrammar) (lg : LexicalGrammar) (conflicts : TokenConflictMap) (keywords : list Symbol) :
    out ConflictBits :=
  let n := length (lg_variables lg) in
  let row_words := div_ceil_64 n in
  terminals ← state_terminal_bits row_words states;
  rows ← fill_rows (does_conflict conflicts) row_words (replicate (n * row_words) 0%N) (all_pairs n);
  keyword_bits ← for_each (set_terminal row_words 0) (replicate row_words 0%N) keywords;
  internal_external ← for_each (λ bits e,
    match corresponding_internal_token e with Some token => set_in_row bits row_words 0 (N.to_nat (index token)) | None => Ok bits end)
    (replicate row_words 0%N) (external_tokens g);
  Ok (mkConflictBits row_words terminals rows keyword_bits internal_external).

(** The maps of the states, sorted by key. *)
Definition by_key {A} (l : list (N * A)) : list (N * A) := sort_by (λ a b, (a.1 ?= b.1)%N) l.
Definition entry_map (s : ParseState N) : list (SymbolKey * N) := by_key (map (λ e, (key_new e.1, e.2)) (terminal_entries s)).
Fixpoint shifts {E : Type} (p : ActionListPool) (entries : list (Symbol * N)) : outcome E (list (SymbolKey * ParseStateId)) :=
  match entries with
  | [] => Ok []
  | (symbol, id) :: entries =>
      actions ← pool_get p id;
      rest ← shifts p entries;
      Ok (match last actions with Some (Shift x _) => (key_new symbol, x) :: rest | _ => rest end)
  end.
Definition shift_map {E : Type} (p : ActionListPool) (s : ParseState N) : outcome E (list (SymbolKey * ParseStateId)) :=
  l ← shifts p (terminal_entries s); Ok (by_key l).
Definition nonterminal_map (s : ParseState N) : list (N * GotoAction) := by_key (map (λ e, (index e.1, e.2)) (nonterminal_entries s)).

Section conflicts.
Context (p : ActionListPool) (g : SyntaxGrammar) (keywords : TokenSet).

(** The loop over the two lists of actions. *)
Fixpoint actions_conflict {E : Type} (ids : list N) (actions1 actions2 : list ParseAction) : outcome E bool :=
  match actions1, actions2 with
  | Shift s1 r1 :: actions1, Shift s2 r2 :: actions2 =>
      group1 ← id_at ids s1;
      group2 ← id_at ids s2;
      if (group1 =? group2)%N && Bool.eqb r1 r2 then actions_conflict ids actions1 actions2 else Ok true
  | action1 :: actions1, action2 :: actions2 => if decide (action1 = action2) then actions_conflict ids actions1 actions2 else Ok true
  | _, _ => Ok false
  end.
Definition entries_conflict {E : Type} (ids : list N) (id1 id2 : N) : outcome E bool :=
  if (id_index id1 =? id_index id2)%nat then Ok false
  else
    actions1 ← pool_get p id1;
    actions2 ← pool_get p id2;
    if negb (length actions1 =? length actions2)%nat then Ok true else actions_conflict ids actions1 actions2.

(** The loop over the words of a row. *)
Fixpoint words_conflict {E : Type} (bits : ConflictBits) (is_keyword is_word : bool) (w : nat) (row right_bits : list N) : outcome E bool :=
  match row with
  | [] => Ok false
  | row_word :: row =>
      right_word ← vec_get right_bits w;
      let candidates := N.land right_word row_word in
      let candidates :=
        match word_token g with
        | Some word =>
            if is_keyword && (Nat.div (N.to_nat (index word)) 64 =? w)%nat
            then N.land candidates (BitVec.u64_not (N.shiftl 1 (N.of_nat (Nat.modulo (N.to_nat (index word)) 64)))) else candidates
        | None => candidates
        end in
      candidates ← (if is_word then k ← vec_get (keyword_bits bits) w; Ok (N.land candidates (BitVec.u64_not k)) else Ok candidates);
      if (candidates =? 0)%N then words_conflict bits is_keyword is_word (S w) row right_bits else Ok true
  end.
Definition token_conflicts {E : Type} (bits : ConflictBits) (right_state : ParseState N) (new_token : Symbol) : outcome E bool :=
  if decide (new_token = end_of_nonterminal_extra) then Ok true
  else if is_external new_token then Ok true
  else
    reserved ← TokenSet.contains (Tables.reserved_words right_state) new_token;
    if reserved : bool then Ok false
    else
      internal_external ←
        (if is_terminal new_token then
           w ← vec_get (internal_external bits) (Nat.div (N.to_nat (index new_token)) 64);
           Ok (negb (N.land w (N.shiftl 1 (N.of_nat (Nat.modulo (N.to_nat (index new_token)) 64))) =? 0)%N)
         else Ok false);
      if internal_external : bool then Ok true
      else
        let is_word := bool_decide (word_token g = Some new_token) in
        is_keyword ← match word_token g with Some _ => TokenSet.contains keywords new_token | None => Ok false end;
        row ← get_conflict_row bits (N.to_nat (index new_token));
        right_bits ← get_state_row bits (N.to_nat (ps_id right_state));
        words_conflict bits is_keyword is_word 0 row right_bits.

(** The merge join of the sorted entries of two states. *)
Fixpoint states_conflict_loop {E : Type} (ids : list N) (bits : ConflictBits) (state1 state2 : ParseState N) (entries1 : list (SymbolKey * N)) :
    list (SymbolKey * N) → outcome E bool :=
  fix go (entries2 : list (SymbolKey * N)) : outcome E bool :=
    match entries1, entries2 with
    | [], [] => Ok false
    | (k1, _) :: rest1, [] =>
        c ← token_conflicts bits state2 (key_symbol k1);
        if c : bool then Ok true else states_conflict_loop ids bits state1 state2 rest1 []
    | [], (k2, _) :: rest2 =>
        c ← token_conflicts bits state1 (key_symbol k2);
        if c : bool then Ok true else go rest2
    | (k1, id1) :: rest1, (k2, id2) :: rest2 =>
        match (k1 ?= k2)%N with
        | Eq =>
            c ← entries_conflict ids id1 id2;
            if c : bool then Ok true else states_conflict_loop ids bits state1 state2 rest1 rest2
        | Lt =>
            c ← token_conflicts bits state2 (key_symbol k1);
            if c : bool then Ok true else states_conflict_loop ids bits state1 state2 rest1 entries2
        | Gt =>
            c ← token_conflicts bits state1 (key_symbol k2);
            if c : bool then Ok true else go rest2
        end
    end.
Definition states_conflict (entry_maps : list (list (SymbolKey * N))) (bits : ConflictBits) (E : Type) (state1 state2 : ParseState N) (ids : list N) :
    outcome E bool :=
  entries1 ← vec_get entry_maps (N.to_nat (ps_id state1));
  entries2 ← vec_get entry_maps (N.to_nat (ps_id state2));
  states_conflict_loop ids bits state1 state2 entries1 entries2.
End conflicts.

(** The merge joins of [state_successors_differ]. *)
Fixpoint join_differ {E A} (differ : A → A → outcome E bool) (l1 : list (N * A)) : list (N * A) → outcome E bool :=
  fix go (l2 : list (N * A)) : outcome E bool :=
    match l1, l2 with
    | (k1, x1) :: rest1, (k2, x2) :: rest2 =>
        match (k1 ?= k2)%N with
        | Lt => join_differ differ rest1 l2
        | Gt => go rest2
        | Eq => d ← differ x1 x2; if d : bool then Ok true else join_differ differ rest1 rest2
        end
    | _, _ => Ok false
    end.
Definition groups_differ {E : Type} (ids : list N) (s1 s2 : ParseStateId) : outcome E bool :=
  group1 ← id_at ids s1; group2 ← id_at ids s2; Ok (negb (group1 =? group2)%N).
Definition gotos_differ {E : Type} (ids : list N) (s1 s2 : GotoAction) : outcome E bool :=
  match s1, s2 with
  | GShiftExtra, GShiftExtra => Ok false
  | Goto s1, Goto s2 => groups_differ ids s1 s2
  | _, _ => Ok true
  end.
Definition state_successors_differ (shift_maps : list (list (SymbolKey * ParseStateId))) (nonterminal_maps : list (list (N * GotoAction)))
    (E : Type) (state1 state2 : ParseState N) (ids : list N) : outcome E bool :=
  shifts1 ← vec_get shift_maps (N.to_nat (ps_id state1));
  shifts2 ← vec_get shift_maps (N.to_nat (ps_id state2));
  d ← join_differ (groups_differ ids) shifts1 shifts2;
  if d : bool then Ok true
  else
    nonterms1 ← vec_get nonterminal_maps (N.to_nat (ps_id state1));
    nonterms2 ← vec_get nonterminal_maps (N.to_nat (ps_id state2));
    join_differ (gotos_differ ids) nonterms1 nonterms2.

(** The states grouped by their cores. *)
Definition core_groups {E : Type} (states : list (ParseState N)) : outcome E (list (list N) * list N) :=
  core_max ← match states with [] => Panic | s :: states => Ok (foldl (λ m s, N.max m (core_id s)) (core_id s) states) end;
  let core_count := wrap_u32 (1 + core_max) in
  groups ← for_each (λ groups '(i, s), g ← vec_get groups (N.to_nat (core_id s)); vec_set groups (N.to_nat (core_id s)) (g ++ [as_u32 i]))
             (replicate (N.to_nat core_count) []) (imap pair states);
  Ok (groups, map core_id states).
(** [group.iter().position(|g| g.contains(&x)).unwrap()] and [swap]. *)
Definition group_of {E : Type} (groups : list (list N)) (x : N) : outcome E nat := unwrap (fst <$> list_find (λ l, x ∈ l) groups).
Definition swap_groups {E : Type} (groups : list (list N)) (i j : nat) : outcome E (list (list N)) :=
  x ← vec_get groups i; y ← vec_get groups j; groups ← vec_set groups i y; vec_set groups j x.

(** [mem::take]. *)
Definition take_state {E : Type} (states : list (ParseState N)) (i : N) : outcome E (ParseState N * list (ParseState N)) :=
  s ← vec_get states (N.to_nat i); states ← vec_set states (N.to_nat i) default_state; Ok (s, states).
Definition extend {V} (m : list (Symbol * V)) (other : list (Symbol * V)) : list (Symbol * V) := foldl (λ m '(k, v), im_insert k v m) m other.
Definition absorb {E : Type} (s other : ParseState N) : outcome E (ParseState N) :=
  let terminals := extend (terminal_entries s) (terminal_entries other) in
  let nonterminals := extend (nonterminal_entries s) (nonterminal_entries other) in
  let '(_, reserved) := TokenSet.insert_all (Tables.reserved_words s) (Tables.reserved_words other) in
  reserved ← for_each (λ r symbol, '(_, r) ← TokenSet.remove r symbol; Ok r) reserved terminals.*1;
  Ok (mkParseState (ps_id s) terminals nonterminals reserved (Tables.lex_state_id s) (external_lex_state_id s) (core_id s)
        (has_eof_gated_reduce s || has_eof_gated_reduce other)).
Definition absorb_next {E : Type} (st : ParseState N * list (ParseState N)) (id : N) : outcome E (ParseState N * list (ParseState N)) :=
  let '(s, states) := st in '(other, states) ← take_state states id; s ← absorb s other; Ok (s, states).
Definition merge_group {E : Type} (ids : list N) (states : list (ParseState N)) (state_ids : list N) : outcome E (ParseState N * list (ParseState N)) :=
  match state_ids with
  | [] => Panic
  | first :: rest =>
      '(s, states) ← take_state states first;
      '(s, states) ← for_each absorb_next (s, states) rest;
      s ← update_nonterminal_references s (λ x _, id_at ids x);
      Ok (s, states)
  end.
Definition merge_next {E : Type} (ids : list N) (st : list (ParseState N) * list (ParseState N)) (group : list N) :
    outcome E (list (ParseState N) * list (ParseState N)) :=
  let '(new_states, states) := st in '(s, states) ← merge_group ids states group; Ok (new_states ++ [s], states).
Definition merge_groups {E : Type} (ids : list N) (groups : list (list N)) (states : list (ParseState N)) : outcome E (list (ParseState N)) :=
  '(new_states, _) ← for_each (merge_next ids) ([], states) groups;
  Ok new_states.

Definition merge_compatible_states (g : SyntaxGrammar) (lg : LexicalGrammar) (conflicts : TokenConflictMap) (keywords : TokenSet) (k n : nat) (t : ParseTable N) :
    out (ParseTable N) :=
  let states := pt_states t in
  '(groups, ids) ← core_groups states;
  keyword_list ← TokenSet.iter keywords;
  bits ← conflict_bits states g lg conflicts keyword_list;
  '(groups, ids, _) ← split_state_id_groups states (states_conflict (action_lists t) g keywords (map entry_map states) bits) n groups ids 0;
  shift_maps ← mapM (shift_map (action_lists t)) states;
  '(groups, ids) ← split_until_stable states (state_successors_differ shift_maps (map nonterminal_map states)) k n groups ids 0;
  error_group_index ← group_of groups 0;
  start_group_index ← group_of groups 1;
  groups ← swap_groups groups error_group_index 0;
  groups ← swap_groups groups start_group_index 1;
  states ← merge_groups ids groups states;
  remap_terminal_references (with_states t states) (id_at ids).

(** ** Removing states without references *)
Definition mark_references {E : Type} (p : ActionListPool) (usage : list bool) (s : ParseState N) : outcome E (list bool) :=
  refs ← referenced_states s p; for_each (λ usage x, vec_set usage (N.to_nat x) true) usage refs.
Definition state_usage_map {E : Type} (t : ParseTable N) : outcome E (list bool) :=
  usage ← vec_set (replicate (length (pt_states t)) false) 0 true;
  usage ← vec_set usage 1 true;
  for_each (mark_references (action_lists t)) usage (pt_states t).
Fixpoint state_replacement_map (state_id removed : nat) (usage : list bool) : list N :=
  match usage with
  | [] => []
  | used :: usage => as_u32 (state_id - removed) :: state_replacement_map (S state_id) (if used : bool then removed else S removed) usage
  end.
(** The loop over the states that are left, with [original_state_id]. *)
Fixpoint drop_unused {E : Type} (usage : list bool) (replacement : list N) (original_state_id : nat) (states : list (ParseState N)) : outcome E (list (ParseState N)) :=
  match states with
  | [] => Ok []
  | s :: states =>
      used ← vec_get usage original_state_id;
      if used : bool then
        s ← update_nonterminal_references s (λ x _, id_at replacement x);
        rest ← drop_unused usage replacement (S original_state_id) states;
        Ok (s :: rest)
      else drop_unused usage replacement (S original_state_id) states
  end.
Definition remove_unused_states {E : Type} (t : ParseTable N) : outcome E (ParseTable N) :=
  usage ← state_usage_map t;
  let replacement := state_replacement_map 0 0 usage in
  states ← drop_unused usage replacement 0 (pt_states t);
  remap_terminal_references (with_states t states) (id_at replacement).

(** ** Sorting states *)
Definition state_size (s : ParseState N) : nat := length (terminal_entries s) + length (nonterminal_entries s).
Definition size_key (states : list (ParseState N)) (i : nat) : Z :=
  if (i <=? 1)%nat then (Z.of_nat i - 1000000)%Z else (- Z.of_nat (default 0%nat (state_size <$> states !! i)))%Z.
Definition inverse_ids {E : Type} (old_ids : list nat) : outcome E (list N) :=
  for_each (λ ids '(id, old_id), vec_set ids old_id (as_u32 id)) (replicate (length old_ids) 0%N) (imap pair old_ids).
Definition place_state {E : Type} (ids : list N) (st : list (ParseState N) * list (ParseState N)) (old_id : nat) :
    outcome E (list (ParseState N) * list (ParseState N)) :=
  let '(new, states) := st in
  '(s, states) ← take_state states (N.of_nat old_id);
  s ← update_nonterminal_references s (λ x _, id_at ids x);
  Ok (new ++ [s], states).
Definition reorder_states_by_descending_size {E : Type} `{UnstableSort} (t : ParseTable N) : outcome E (ParseTable N) :=
  let old_ids := sort_unstable_by_key (size_key (pt_states t)) (seq 0 (length (pt_states t))) in
  ids ← inverse_ids old_ids;
  '(states, _) ← for_each (place_state ids) ([], pt_states t) old_ids;
  remap_terminal_references (with_states t states) (id_at ids).

(** ** The pass *)
Definition minimize_parse_table `{UnstableSort} (g : SyntaxGrammar) (lg : LexicalGrammar) (simple_aliases : AliasMap) (conflicts : TokenConflictMap)
    (keywords : TokenSet) (merge_states : bool) (k n fuel : nat) (t : ParseTable N) : out (ParseTable N) :=
  t ← (if merge_states then merge_compatible_states g lg conflicts keywords k n t else Ok t);
  t ← remove_unit_reductions g simple_aliases fuel t;
  t ← remove_unused_states t;
  reorder_states_by_descending_size t.
