(* ===== verification/MinimizeStates.v ===== *)
(** * [build_tables/minimize_parse_table.rs]: unused states and the order of states

    Both passes rename the states of the table: what a state does is kept up to
    the renaming. *)
From S2P Require Import Prelude Symbols TokenSet Ordering Tables Minimize.

(** ** Renaming gotos *)
Definition remap_goto (r : ParseStateId → ParseStateId) (g : GotoAction) : GotoAction :=
  match g with Goto x => Goto (r x) | GShiftExtra => GShiftExtra end.
Definition remap_gotos (r : ParseStateId → ParseStateId) (m : list (Symbol * GotoAction)) : list (Symbol * GotoAction) :=
  map (λ e, (e.1, remap_goto r e.2)) m.
Lemma remap_gotos_keys r m : (remap_gotos r m).*1 = m.*1.
Proof. unfold remap_gotos. induction m as [|e m IH]; cbn; [done|]. by rewrite IH. Qed.
Lemma goto_updates_spec {E : Type} f r pre post :
  NoDup (pre ++ post).*1 → (∀ k x, (k, Goto x) ∈ post → f x = Ok (r x)) →
  ∃ u, goto_updates (E:=E) f post = Ok u ∧
    foldl (λ m '(symbol, new_state), im_insert symbol (Goto new_state) m) (remap_gotos r pre ++ post) u = remap_gotos r (pre ++ post).
Proof.
  revert pre. induction post as [|[k g] post IH]; intros pre Hnd Hf; cbn [goto_updates].
  { exists []. split; [done|]. cbn. by rewrite !List.app_nil_r. }
  assert (NoDup ((pre ++ [(k, g)]) ++ post).*1) as Hnd' by by rewrite <- (assoc_L (++)).
  destruct (IH (pre ++ [(k, g)]) Hnd') as (u & Hu & Hfold); [intros k' x Hx; apply (Hf k'); by apply list_elem_of_further|].
  rewrite <- (assoc_L (++)) in Hfold. cbn [app] in Hfold.
  assert (remap_gotos r (pre ++ [(k, g)]) ++ post = remap_gotos r pre ++ (k, remap_goto r g) :: post) as Hpre.
  { unfold remap_gotos. rewrite map_app, <- (assoc_L (++)). done. }
  rewrite Hpre in Hfold. destruct g as [x|]; [|by exists u].
  rewrite (Hf k x) by apply list_elem_of_here. cbn [mbind outcome_bind]. rewrite Hu. cbn [mbind outcome_bind].
  eexists. split; [done|]. destruct (N.eqb_spec (r x) x) as [Hx|Hx].
  - rewrite <- Hfold. cbn. by rewrite Hx.
  - cbn [foldl]. rewrite im_insert_mid; [done|]. rewrite remap_gotos_keys. rewrite fmap_app in Hnd. apply NoDup_app in Hnd as (_ & Hd & _).
    intros Hk. apply (Hd k Hk). apply list_elem_of_here.
Qed.
Lemma update_gotos_spec {E T : Type} (s : ParseState T) f r :
  NoDup (nonterminal_entries s).*1 → (∀ k x, (k, Goto x) ∈ nonterminal_entries s → f x s = Ok (r x)) →
  update_nonterminal_references (E:=E) s f = Ok (with_nonterminals s (remap_gotos r (nonterminal_entries s))).
Proof.
  intros Hnd Hf. unfold update_nonterminal_references.
  destruct (goto_updates_spec (E:=E) (λ x, f x s) r [] (nonterminal_entries s) Hnd Hf) as (u & -> & Hu). cbn in *. by rewrite Hu.
Qed.

(** ** Tables whose references exist *)
Definition holds (p : ActionListPool) (id : N) (l : list ParseAction) : Prop := ∀ E, pool_get (E:=E) p id = Ok l.
Lemma holds_fun p id l l' : holds p id l → holds p id l' → l = l'.
Proof. intros H H'. specialize (H Empty_set). rewrite H' in H. congruence. Qed.
Definition pool_valid (p : ActionListPool) : Prop := ∃ lists, pool_ok p lists.
Definition keys_ok (s : ParseState N) : Prop := NoDup (terminal_entries s).*1 ∧ NoDup (nonterminal_entries s).*1.
(** State [s] refers to state [x], with pool [p]. *)
Definition refers (p : ActionListPool) (s : ParseState N) (x : ParseStateId) : Prop :=
  (∃ k id l r, (k, id) ∈ terminal_entries s ∧ holds p id l ∧ Shift x r ∈ l) ∨ ∃ k, (k, Goto x) ∈ nonterminal_entries s.
Record state_ok (p : ActionListPool) (n : nat) (s : ParseState N) : Prop := {
  so_keys : keys_ok s;
  so_ids : ∀ k id, (k, id) ∈ terminal_entries s → ∃ l, holds p id l;
  so_refs : ∀ x, refers p s x → N.to_nat x < n;
}.
Record table_ok (t : ParseTable N) : Prop := {
  to_pool : pool_valid (action_lists t);
  to_states : ∀ s, s ∈ pt_states t → state_ok (action_lists t) (length (pt_states t)) s;
  to_size : (N.of_nat (length (pt_states t)) < U32)%N;
}.

Lemma pool_holds p lists id l : pool_ok p lists → holds p id l ↔ lists !! id_index id = Some l.
Proof.
  intros Hp. split; [|intros Hl E; by eapply pool_get_ok]. intros Hh. destruct (decide (id_index id < length lists)) as [Hlt|Hge].
  - apply lookup_lt_is_Some_2 in Hlt as [l' Hl']. rewrite Hl'. f_equal.
    eapply holds_fun; [|exact Hh]. intros E. by eapply pool_get_ok.
  - specialize (Hh Empty_set). unfold pool_get in Hh. destruct Hp as (_ & Hr & _). rewrite Hr in Hh.
    unfold vec_get in Hh. rewrite lookup_ge_None_2 in Hh by (rewrite length_ranges_from; lia). done.
Qed.

(** Remapping the terminal references renames the shifts of every state. *)
Lemma remap_spec {E : Type} (t : ParseTable N) (f : ParseStateId → outcome E ParseStateId) r :
  pool_valid (action_lists t) →
  (∀ s k id, s ∈ pt_states t → (k, id) ∈ terminal_entries s →
     ∃ l, holds (action_lists t) id l ∧ ∀ x b, Shift x b ∈ l → f x = Ok (r x)) →
  ∃ p', remap_terminal_references t f = Ok (with_pool t p') ∧ pool_valid p' ∧
    ∀ s k id l, s ∈ pt_states t → (k, id) ∈ terminal_entries s → holds (action_lists t) id l → holds p' id (map (remap_action r) l).
Proof.
  intros [lists Hp] Hs. assert (ids_in lists (pt_states t)) as Hids.
  { apply Forall_forall. intros s Hin. apply Forall_forall. intros [k id] He.
    destruct (Hs s k id Hin He) as (l & Hl & _). rewrite (pool_holds _ _ _ _ Hp) in Hl. by eapply lookup_lt_Some. }
  assert (∀ i, live_in (pt_states t) i = true ↔ ∃ s k id, s ∈ pt_states t ∧ (k, id) ∈ terminal_entries s ∧ id_index id = i) as Hlive.
  { intros i. unfold live_in. rewrite existsb_exists. split.
    - intros (s & Hin%list_elem_of_In & ((k & id) & He%list_elem_of_In & Hi%bool_decide_eq_true)%existsb_exists). by exists s, k, id.
    - intros (s & k & id & Hin & He & Hi). exists s. split; [by apply list_elem_of_In|]. apply existsb_exists. exists (k, id).
      split; [by apply list_elem_of_In|by apply bool_decide_eq_true]. }
  destruct (remap_terminal_spec t lists f r Hp Hids) as (t' & -> & Ht' & Hp').
  { intros i l x b (s & k & id & Hin & He & <-)%Hlive Hl Hx. destruct (Hs s k id Hin He) as (l' & Hl' & Hf).
    apply (pool_holds _ _ _ _ Hp) in Hl. rewrite (holds_fun _ _ _ _ Hl Hl') in Hx. by eapply Hf. }
  exists (action_lists t'). split; [by rewrite Ht' at 1|]. split; [by eexists|]. intros s k id l Hin He Hl.
  apply (pool_holds _ _ _ _ Hp) in Hl. apply (pool_holds _ _ _ _ Hp'). unfold remap_lists. rewrite list_lookup_imap, Hl. cbn.
  by rewrite (proj2 (Hlive (id_index id))) by eauto 8.
Qed.

(** [s'] does what [s] does, with the states renamed. *)
Record renamed (p p' : ActionListPool) (r : ParseStateId → ParseStateId) (s s' : ParseState N) : Prop := {
  rn_state : s' = with_nonterminals s (remap_gotos r (nonterminal_entries s));
  rn_actions : ∀ k id l, (k, id) ∈ terminal_entries s → holds p id l → holds p' id (map (remap_action r) l);
}.
Lemma elem_of_remap_action r x b l : Shift x b ∈ map (remap_action r) l ↔ ∃ y, x = r y ∧ Shift y b ∈ l.
Proof.
  rewrite elem_of_map. split.
  - intros ([|y b'| | |] & Heq & Hin); try done. injection Heq as -> ->. by exists y.
  - intros (y & -> & Hin). by exists (Shift y b).
Qed.
Lemma elem_of_remap_gotos r k x m : (k, Goto x) ∈ remap_gotos r m ↔ ∃ y, x = r y ∧ (k, Goto y) ∈ m.
Proof.
  unfold remap_gotos. rewrite elem_of_map. split.
  - intros ([k' [y|]] & Heq & Hin); [|done]. injection Heq as -> ->. by exists y.
  - intros (y & -> & Hin). by exists (k, Goto y).
Qed.
Lemma renamed_refers p p' r n s s' x : state_ok p n s → renamed p p' r s s' → refers p' s' x ↔ ∃ y, x = r y ∧ refers p s y.
Proof.
  intros Hok [-> Ha]. unfold refers. cbn [terminal_entries nonterminal_entries with_nonterminals]. setoid_rewrite elem_of_remap_gotos. split.
  - intros [(k & id & l & b & He & Hl & Hx)|(k & y & -> & Hy)]; [|eauto].
    destruct (so_ids _ _ _ Hok k id He) as [l0 Hl0]. pose proof (Ha k id l0 He Hl0) as Hl1.
    rewrite (holds_fun _ _ _ _ Hl Hl1) in Hx. apply elem_of_remap_action in Hx as (y & -> & Hy). exists y. split; [done|]. left. by exists k, id, l0, b.
  - intros (y & -> & [(k & id & l & b & He & Hl & Hx)|(k & Hy)]); [|eauto].
    left. exists k, id, (map (remap_action r) l), b. split_and!; [done|by eapply Ha|]. apply elem_of_remap_action. eauto.
Qed.
Lemma renamed_ok p p' r n n' s s' : state_ok p n s → renamed p p' r s s' → (∀ x, refers p s x → N.to_nat (r x) < n') → state_ok p' n' s'.
Proof.
  intros Hok Hren Hr. pose proof Hren as [Hs' Ha]. destruct (so_keys _ _ _ Hok) as [K1 K2]. split.
  - rewrite Hs'. split; cbn; [done|by rewrite remap_gotos_keys].
  - rewrite Hs'. cbn. intros k id He. destruct (so_ids _ _ _ Hok k id He) as [l Hl]. eauto.
  - intros x (y & -> & Hy)%(renamed_refers _ _ _ _ _ _ x Hok Hren). by apply Hr.
Qed.

Definition rename_state (r : ParseStateId → ParseStateId) (s : ParseState N) : ParseState N :=
  with_nonterminals s (remap_gotos r (nonterminal_entries s)).
(** A pass that takes some states of a table, renames their gotos, and then the
    shifts of the pool. *)
Lemma rename_pass {E : Type} t new (f : ParseStateId → outcome E ParseStateId) r :
  table_ok t → (∀ s', s' ∈ new → ∃ s, s ∈ pt_states t ∧ s' = rename_state r s) → (N.of_nat (length new) < U32)%N →
  (∀ s x, s ∈ pt_states t → refers (action_lists t) s x → f x = Ok (r x) ∧ N.to_nat (r x) < length new) →
  ∃ p', remap_terminal_references (with_states t new) f = Ok (with_pool (with_states t new) p') ∧
    table_ok (with_pool (with_states t new) p') ∧
    ∀ s, s ∈ pt_states t → rename_state r s ∈ new → renamed (action_lists t) p' r s (rename_state r s).
Proof.
  intros [Hp Hs Hn] Hnew Hsize Hf.
  destruct (remap_spec (E:=E) (with_states t new) f r) as (p' & -> & Hp' & Hact); [done| |].
  { intros s' k id (s & Hin & ->)%Hnew He. cbn in He. destruct (so_ids _ _ _ (Hs s Hin) k id He) as [l Hl]. exists l. split; [done|].
    intros x b Hx. apply (Hf s x Hin). left. by exists k, id, l, b. }
  assert (∀ s, s ∈ pt_states t → rename_state r s ∈ new → renamed (action_lists t) p' r s (rename_state r s)) as Hren.
  { intros s Hin Hin'. split; [done|]. intros k id l He Hl. by apply (Hact (rename_state r s) k id l). }
  exists p'. split; [done|]. split; [|done]. split; cbn; [done| |done].
  intros s' Hin'. destruct (Hnew s' Hin') as (s & Hin & ->). eapply renamed_ok; [by apply Hs|by apply Hren|].
  intros x Hx. by apply (Hf s x Hin).
Qed.

(** ** Removing states *)
Lemma referenced_states_spec {E : Type} p n s : state_ok p n s → ∃ refs, referenced_states (E:=E) s p = Ok refs ∧ ∀ x, x ∈ refs ↔ refers p s x.
Proof.
  intros Hok. pose proof (so_ids _ _ _ Hok) as Hids. unfold referenced_states, refers.
  assert (∃ ts, shift_targets (E:=E) p (terminal_entries s) = Ok ts ∧
    ∀ x, x ∈ ts ↔ ∃ k id l b, (k, id) ∈ terminal_entries s ∧ holds p id l ∧ Shift x b ∈ l) as (ts & -> & Hts).
  { clear Hok. induction (terminal_entries s) as [|[k id] es IH]; cbn [shift_targets].
    - exists []. split; [done|]. intros x. rewrite elem_of_nil. split; [done|]. by intros (k & id & l & b & ?%not_elem_of_nil & _).
    - destruct (Hids k id (list_elem_of_here _ _)) as [l Hl]. rewrite (Hl E). cbn [mbind outcome_bind].
      destruct IH as (ts & -> & Hts); [intros; eapply Hids; by apply list_elem_of_further|]. cbn [mbind outcome_bind].
      eexists. split; [done|]. intros x. rewrite elem_of_app, Hts, list_elem_of_omap. setoid_rewrite elem_of_cons. split.
      + intros [([|y b| | |] & Ha & [= ->])|(k' & id' & l' & b & He & Hl' & Hx)]; [exists k, id, l, b; auto|exists k', id', l', b; auto].
      + intros (k' & id' & l' & b & [[= -> ->]|He] & Hl' & Hx); [left|right; by exists k', id', l', b].
        rewrite (holds_fun _ _ _ _ Hl' Hl) in Hx. by exists (Shift x b). }
  cbn. eexists. split; [done|]. intros x. rewrite elem_of_app, Hts, list_elem_of_omap. f_equiv. split.
  - intros ([k [y|]] & Hin & [= ->]). by exists k.
  - intros [k Hk]. by exists (k, Goto x).
Qed.

(** A list of flags with the ones of [P] set. *)
Definition flags_of (usage : list bool) (n : nat) (P : nat → Prop) : Prop :=
  length usage = n ∧ ∀ i b, usage !! i = Some b → b = true ↔ P i.
Lemma set_flag {E : Type} usage n P i : flags_of usage n P → i < n →
  ∃ usage', vec_set (E:=E) usage i true = Ok usage' ∧ flags_of usage' n (λ j, P j ∨ j = i).
Proof.
  intros [Hl HP] Hi. rewrite vec_set_lt by lia. eexists. split; [done|]. split; [by rewrite length_insert|].
  intros j b [(-> & <- & _)|[Hne Hj]]%list_lookup_insert_Some; [tauto|]. rewrite (HP j b Hj). split; [tauto|]. intros [?| ->]; done.
Qed.
Lemma flags_of_ext usage n P Q : (∀ i, P i ↔ Q i) → flags_of usage n P → flags_of usage n Q.
Proof. intros HPQ [Hl HP]. split; [done|]. intros i b Hi. by rewrite <- HPQ, HP. Qed.
Lemma set_flags {E : Type} usage n P xs : flags_of usage n P → (∀ x, x ∈ xs → N.to_nat x < n) →
  ∃ usage', for_each (λ usage x, vec_set (E:=E) usage (N.to_nat x) true) usage xs = Ok usage' ∧ flags_of usage' n (λ j, P j ∨ N.of_nat j ∈ xs).
Proof.
  intros HP Hxs. apply (for_each_inv _ (λ d u, flags_of u n (λ j, P j ∨ N.of_nat j ∈ d))).
  - eapply flags_of_ext; [|done]. intros i. rewrite elem_of_nil. tauto.
  - intros d x r u -> Hu. destruct (set_flag (E:=E) u n _ (N.to_nat x) Hu) as (u' & -> & Hu'); [apply Hxs; set_solver|].
    eexists. split; [done|]. eapply flags_of_ext; [|done]. intros j. cbn. rewrite elem_of_app, list_elem_of_singleton.
    split; [intros [[?|?]| ->]; [auto|auto|right; right; lia]|]. intros [?|[?|<-]]; [auto|auto|]. right. lia.
Qed.
(** The states that are kept: the first two and those referred to. *)
Definition in_use (t : ParseTable N) (i : nat) : Prop := i ≤ 1 ∨ ∃ s, s ∈ pt_states t ∧ refers (action_lists t) s (N.of_nat i).
Lemma state_usage_map_spec {E : Type} t : table_ok t → 2 ≤ length (pt_states t) →
  ∃ usage, state_usage_map (E:=E) t = Ok usage ∧ flags_of usage (length (pt_states t)) (in_use t).
Proof.
  intros [Hp Hs Hn] H2. unfold state_usage_map.
  destruct (set_flag (E:=E) (replicate (length (pt_states t)) false) (length (pt_states t)) (λ _, False) 0) as (u0 & -> & H0); [|lia|].
  { split; [by rewrite length_replicate|]. by intros i b [-> _]%lookup_replicate. }
  cbn [mbind outcome_bind]. destruct (set_flag (E:=E) u0 _ _ 1 H0) as (u1 & -> & H1); [lia|]. cbn [mbind outcome_bind].
  destruct (for_each_inv (mark_references (E:=E) (action_lists t))
    (λ d u, flags_of u (length (pt_states t)) (λ i, i ≤ 1 ∨ ∃ s, s ∈ d ∧ refers (action_lists t) s (N.of_nat i))) (pt_states t) u1) as (u & -> & Hu).
  - eapply flags_of_ext; [|done]. intros i. cbn. split; [intros [[[]| ->]| ->]; left; lia|].
    intros [Hi|(s & ?%not_elem_of_nil & _)]; [|done]. destruct i as [|[|]]; [auto|auto|lia].
  - intros d s r u Heq Hu. assert (s ∈ pt_states t) as Hin by (rewrite Heq; set_solver). unfold mark_references.
    destruct (referenced_states_spec (E:=E) _ _ s (Hs s Hin)) as (refs & -> & Hrefs). cbn [mbind outcome_bind].
    destruct (set_flags (E:=E) u _ _ refs Hu) as (u' & -> & Hu').
    { intros x Hx%Hrefs. by apply (so_refs _ _ _ (Hs s Hin)). }
    eexists. split; [done|]. eapply flags_of_ext; [|done]. intros i. cbn. rewrite Hrefs.
    setoid_rewrite elem_of_app. setoid_rewrite list_elem_of_singleton. naive_solver.
  - by exists u.
Qed.

(** The number of flags set before an index. *)
Fixpoint rank (usage : list bool) (i : nat) : nat :=
  match usage, i with
  | b :: usage, S i => (if b : bool then 1 else 0) + rank usage i
  | _, _ => 0
  end.
Lemma rank_le usage i : rank usage i ≤ i.
Proof. revert i. induction usage as [|b usage IH]; intros [|i]; cbn; [lia..|]. specialize (IH i). destruct b; lia. Qed.
Lemma rank_mono usage i j : i ≤ j → rank usage i ≤ rank usage j.
Proof. revert i j. induction usage as [|b usage IH]; intros [|i] [|j] H; cbn; [lia..|]. specialize (IH i j). lia. Qed.
Lemma rank_lt usage i j : usage !! i = Some true → i < j → rank usage i < rank usage j.
Proof.
  revert i j. induction usage as [|b usage IH]; intros [|i] [|j] Hi Hij; cbn in *; try done; try lia.
  - injection Hi as ->. lia.
  - specialize (IH i j Hi). lia.
Qed.
Lemma replacement_spec usage sid removed i b : removed ≤ sid → usage !! i = Some b →
  state_replacement_map sid removed usage !! i = Some (as_u32 (sid - removed + rank usage i)).
Proof.
  revert sid removed i. induction usage as [|c usage IH]; intros sid removed [|i] Hle Hi; cbn [state_replacement_map rank]; try done.
  - cbn. do 2 f_equal. lia.
  - cbn. rewrite (IH (S sid) _ i) by (destruct c; [lia|lia|done|done] || (destruct c; [lia|lia]) || done). do 2 f_equal. destruct c; lia.
Qed.
Lemma drop_unused_spec {E : Type} replacement r pre post states :
  length post = length states →
  (∀ s, s ∈ states → keys_ok s ∧ ∀ k x, (k, Goto x) ∈ nonterminal_entries s → id_at (E:=E) replacement x = Ok (r x)) →
  ∃ new, drop_unused (E:=E) (pre ++ post) replacement (length pre) states = Ok new ∧ length new = rank post (length post) ∧
    (∀ i s, states !! i = Some s → post !! i = Some true → new !! rank post i = Some (rename_state r s)) ∧
    ∀ j s', new !! j = Some s' → ∃ i s, states !! i = Some s ∧ post !! i = Some true ∧ j = rank post i ∧ s' = rename_state r s.
Proof.
  revert pre states. induction post as [|b post IH]; intros pre [|s states] Hl Hs; cbn in Hl; try done.
  { exists []. done. }
  cbn [drop_unused]. rewrite (vec_get_Some _ _ b) by apply lookup_mid. cbn [mbind outcome_bind].
  destruct (IH (pre ++ [b]) states) as (new & Hdrop & Hlen & Hfwd & Hbwd); [lia|intros; apply Hs; by apply list_elem_of_further|].
  rewrite <- (assoc_L (++)), length_snoc in Hdrop. cbn [app] in Hdrop. destruct b.
  - destruct (Hs s (list_elem_of_here _ _)) as [[_ Hk] Hg].
    rewrite (update_gotos_spec s _ r Hk) by (intros k x Hx; by eapply Hg). cbn [mbind outcome_bind]. rewrite Hdrop. cbn [mbind outcome_bind].
    eexists. split; [done|]. cbn [length rank]. split; [lia|]. split.
    + intros [|i] s0 Hi Hb; cbn in *; [by injection Hi as <-|by apply Hfwd].
    + intros [|j] s' Hj; cbn in Hj; [injection Hj as <-; by exists 0, s|]. destruct (Hbwd j s' Hj) as (i & s0 & ? & ? & -> & ->). by exists (S i), s0.
  - rewrite Hdrop. exists new. split; [done|]. cbn [length rank]. split; [lia|]. split.
    + intros [|i] s0 Hi Hb; [done|]. by apply Hfwd.
    + intros j s' Hj. destruct (Hbwd j s' Hj) as (i & s0 & ? & ? & -> & ->). by exists (S i), s0.
Qed.

(** C17: [remove_unused_states] does not panic on a table whose references exist;
    it keeps the first two states and those that some state refers to, in their
    order; what a kept state does is what it did, with the states renamed, and
    the references of the new table exist. *)
Theorem remove_unused_states_correct (E : Type) (t : ParseTable N) :
  table_ok t → 2 ≤ length (pt_states t) →
  ∃ t' r, remove_unused_states (E:=E) t = Ok t' ∧ table_ok t' ∧ r 0%N = 0%N ∧ r 1%N = 1%N ∧
    (∀ i j, in_use t i → i < j → j < length (pt_states t) → (r (N.of_nat i) < r (N.of_nat j))%N) ∧
    (∀ i s, pt_states t !! i = Some s → in_use t i →
       ∃ s', pt_states t' !! N.to_nat (r (N.of_nat i)) = Some s' ∧ renamed (action_lists t) (action_lists t') r s s') ∧
    ∀ j s', pt_states t' !! j = Some s' → ∃ i, in_use t i ∧ i < length (pt_states t) ∧ j = N.to_nat (r (N.of_nat i)).
Proof.
  intros Ht H2. pose proof Ht as [Hp Hs Hn]. unfold remove_unused_states.
  destruct (state_usage_map_spec (E:=E) t Ht H2) as (usage & -> & Hlen & Huse). cbn [mbind outcome_bind].
  set (r := λ x, as_u32 (rank usage (N.to_nat x))).
  assert (∀ i, i ≤ length usage → N.to_nat (r (N.of_nat i)) = rank usage i) as Hr.
  { intros i Hi. unfold r. rewrite Nat2N.id. pose proof (rank_le usage i). apply as_u32_small. lia. }
  assert (∀ x, N.to_nat x < length usage → id_at (E:=E) (state_replacement_map 0 0 usage) x = Ok (r x)) as Hid.
  { intros x Hx. apply vec_get_Some. apply lookup_lt_is_Some_2 in Hx as [b Hb]. by rewrite (replacement_spec usage 0 0 _ b) by (lia || done). }
  assert (∀ i, in_use t i → i < length usage → usage !! i = Some true) as Huse'.
  { intros i Hi Hlt. apply lookup_lt_is_Some_2 in Hlt as [b Hb]. rewrite Hb. f_equal. by apply (Huse i b Hb). }
  destruct (drop_unused_spec (E:=E) (state_replacement_map 0 0 usage) r [] usage (pt_states t)) as (new & Hdrop & Hlnew & Hfwd & Hbwd); [done| |].
  { intros s Hin. split; [by eapply so_keys, Hs|]. intros k x Hx. apply Hid. rewrite Hlen. apply (so_refs _ _ _ (Hs s Hin)). right. eauto. }
  cbn [app length] in Hdrop. rewrite Hdrop. cbn [mbind outcome_bind].
  assert (∀ s x, s ∈ pt_states t → refers (action_lists t) s x → id_at (E:=E) (state_replacement_map 0 0 usage) x = Ok (r x) ∧ N.to_nat (r x) < length new) as Href.
  { intros s x Hin Hx. pose proof (so_refs _ _ _ (Hs s Hin) x Hx) as Hlt. split; [apply Hid; lia|].
    rewrite Hlnew. rewrite <- (N2Nat.id x), Hr by lia. apply rank_lt; [|lia]. apply Huse'; [|lia]. right. exists s. by rewrite N2Nat.id. }
  pose proof (rank_le usage (length usage)).
  destruct (rename_pass (E:=E) t new (id_at (state_replacement_map 0 0 usage)) r Ht) as (p' & -> & Hok' & Hren); [| |exact Href|].
  { intros s' [j Hj]%list_elem_of_lookup. destruct (Hbwd j s' Hj) as (i & s & Hi & _ & _ & ->). exists s. split; [by eapply list_elem_of_lookup_2|done]. }
  { lia. }
  exists (with_pool (with_states t new) p'), r. split; [done|]. split; [done|].
  assert (in_use t 0 ∧ in_use t 1) as [U0 U1] by (split; left; lia).
  split_and!.
  - apply N2Nat.inj. change 0%N with (N.of_nat 0) at 1. rewrite Hr by lia. by destruct usage.
  - apply N2Nat.inj. change 1%N with (N.of_nat 1) at 1. rewrite Hr by lia.
    pose proof (Huse' 0 U0 ltac:(lia)). destruct usage as [|b usage]; [done|]. cbn in *. simplify_eq. by destruct usage.
  - intros i j Hi Hij Hj. pose proof (rank_lt usage i j (Huse' i Hi ltac:(lia)) Hij). rewrite <- !Hr in * by lia. lia.
  - intros i s Hi Hu. assert (i < length usage) as Hlt by (rewrite Hlen; by eapply lookup_lt_Some).
    pose proof (Hfwd i s Hi (Huse' i Hu Hlt)) as Hf. exists (rename_state r s). rewrite Hr by lia. split; [done|].
    apply Hren; by eapply list_elem_of_lookup_2.
  - intros j s' Hj. destruct (Hbwd j s' Hj) as (i & s & Hi & Hb & -> & _). exists i. pose proof (lookup_lt_Some _ _ _ Hi).
    split_and!; [by apply (Huse i true Hb)|done|by rewrite Hr by lia].
Qed.

(** ** Sorting states *)
Lemma inverse_ids_spec {E : Type} old n : old ≡ₚ seq 0 n → (N.of_nat n < U32)%N →
  ∃ ids, inverse_ids (E:=E) old = Ok ids ∧ length ids = n ∧ ∀ j o, old !! j = Some o → ids !! o = Some (N.of_nat j).
Proof.
  intros Hp Hn. assert (length old = n) as Hl by by rewrite Hp, length_seq.
  assert (NoDup old) as Hnd by (rewrite Hp; apply NoDup_seq). unfold inverse_ids.
  destruct (for_each_inv (λ ids '(id, old_id), vec_set (E:=E) ids old_id (as_u32 id))
    (λ d ids, length ids = n ∧ ∀ j o, d !! j = Some (j, o) → ids !! o = Some (N.of_nat j)) (imap pair old) (replicate (length old) 0%N)) as (ids & -> & Hlen & Hids).
  - by rewrite length_replicate.
  - intros d [id o] r ids Heq [Hlen Hids]. pose proof (f_equal (λ l, l !! length d) Heq) as Hlook. cbn in Hlook.
    rewrite lookup_mid, list_lookup_imap in Hlook. destruct (old !! length d) as [o'|] eqn:Ho; [|done]. cbn in Hlook. injection Hlook as <- <-.
    assert (o' < n) as Hon by (assert (o' ∈ old) as Hin by (by eapply list_elem_of_lookup_2); rewrite Hp, elem_of_seq in Hin; lia).
    rewrite vec_set_lt by lia. eexists. split; [done|]. split; [by rewrite length_insert|].
    intros j o1 [Hj|[Hj Hj']]%lookup_snoc_Some.
    + destruct Hj as [Hlt Hj]. assert (old !! j = Some o1) as Hjo.
      { pose proof (f_equal (λ l, l !! j) Heq) as H'. cbn in H'. rewrite lookup_app_l, Hj, list_lookup_imap in H' by done.
        destruct (old !! j); [|done]. cbn in H'. by injection H' as ->. }
      rewrite list_lookup_insert_ne; [by apply Hids|]. intros ->. pose proof (NoDup_lookup old _ _ _ Hnd Ho Hjo). lia.
    + injection Hj' as <-. subst. apply list_lookup_insert_Some. left. split_and!; [done| |lia]. unfold as_u32. rewrite wrap_u32_small; [done|].
      apply lookup_lt_Some in Ho. lia.
  - exists ids. split; [done|]. split; [done|]. intros j o Hj. apply Hids. by rewrite list_lookup_imap, Hj.
Qed.

(** Taking the states in a new order. *)
Lemma take_state_spec {E : Type} states i s : states !! N.to_nat i = Some s →
  take_state (E:=E) states i = Ok (s, <[N.to_nat i := default_state]> states).
Proof.
  intros Hs. unfold take_state. rewrite (vec_get_Some _ _ _ Hs). cbn. by rewrite vec_set_lt by by eapply lookup_lt_Some.
Qed.
Definition state_at (states : list (ParseState N)) (i : nat) : ParseState N := default default_state (states !! i).
Lemma place_state_spec {E : Type} ids r new states o s :
  states !! o = Some s → keys_ok s → (∀ k x, (k, Goto x) ∈ nonterminal_entries s → id_at (E:=E) ids x = Ok (r x)) →
  place_state (E:=E) ids (new, states) o = Ok (new ++ [rename_state r s], <[o := default_state]> states).
Proof.
  intros Hs [_ K2] Hg. unfold place_state. rewrite (take_state_spec _ _ s), Nat2N.id by by rewrite Nat2N.id. cbn [mbind outcome_bind].
  by rewrite (update_gotos_spec s _ r K2 Hg).
Qed.
Lemma take_states_spec {E : Type} ids r states old : ∀ new states0,
  NoDup old → length states0 = length states → (∀ o, o ∈ old → states0 !! o = states !! o ∧ o < length states) →
  (∀ o, o ∈ old → keys_ok (state_at states o) ∧ ∀ k x, (k, Goto x) ∈ nonterminal_entries (state_at states o) → id_at (E:=E) ids x = Ok (r x)) →
  ∃ states', for_each (place_state (E:=E) ids) (new, states0) old = Ok (new ++ map (λ o, rename_state r (state_at states o)) old, states').
Proof.
  induction old as [|o old IH]; intros new states0 Hnd Hlen Hold Hok; cbn [for_each map].
  { exists states0. by rewrite List.app_nil_r. }
  apply NoDup_cons in Hnd as [Ho Hnd]. destruct (Hold o (list_elem_of_here _ _)) as [Hs0 Hlt].
  pose proof (lookup_lt_is_Some_2 _ _ Hlt) as [s Hs]. assert (state_at states o = s) as Hat by by unfold state_at; rewrite Hs.
  destruct (Hok o (list_elem_of_here _ _)) as [Hk Hg]. rewrite Hat in *.
  rewrite (place_state_spec ids r new states0 o s) by (done || congruence). cbn [mbind outcome_bind].
  destruct (IH (new ++ [rename_state r s]) (<[o := default_state]> states0) Hnd) as (states' & ->).
  - by rewrite length_insert.
  - intros o' Ho'. destruct (Hold o') as [? ?]; [by apply list_elem_of_further|]. split; [|done].
    rewrite list_lookup_insert_ne; [done|]. intros ->. done.
  - intros o' Ho'. apply Hok. by apply list_elem_of_further.
  - exists states'. by rewrite <- (assoc_L (++)).
Qed.

(** The first two states stay first. *)
Lemma size_key_order states old :
  2 ≤ length states → (∀ s, s ∈ states → (N.of_nat (state_size s) < 999999)%N) → old ≡ₚ seq 0 (length states) →
  StronglySorted (λ a b, (size_key states a ≤ size_key states b)%Z) old →
  ∃ rest, old = 0 :: 1 :: rest ∧ ∀ i, i ∈ rest → 2 ≤ i.
Proof.
  intros H2 Hsize Hp Hs.
  assert (∀ i, i ∈ old → 2 ≤ i → (-999999 < size_key states i)%Z) as Hkey.
  { intros i Hi Hi2. rewrite Hp, elem_of_seq in Hi. unfold size_key. rewrite (proj2 (Nat.leb_gt i 1)) by lia.
    destruct (lookup_lt_is_Some_2 states i) as [s Hsi]; [lia|]. rewrite Hsi. cbn. pose proof (Hsize s ltac:(by eapply list_elem_of_lookup_2)). lia. }
  assert (0 ∈ old ∧ 1 ∈ old) as [M0 M1] by (rewrite Hp, !elem_of_seq; lia).
  assert (NoDup old) as Hnd by (rewrite Hp; apply NoDup_seq).
  destruct Hs as [|a old Hs Ha]; [by apply not_elem_of_nil in M0|]. rewrite Forall_forall in Ha.
  assert (a = 0) as ->.
  { destruct (decide (a = 0)) as [|Hne]; [done|]. assert (0 ∈ old) as H0 by set_solver. specialize (Ha 0 H0). change (size_key states 0) with (-1000000)%Z in Ha.
    destruct (decide (a = 1)) as [->|]; [change (size_key states 1) with (-999999)%Z in Ha; lia|].
    pose proof (Hkey a (list_elem_of_here _ _) ltac:(lia)). lia. }
  apply NoDup_cons in Hnd as [N0 Hnd]. assert (1 ∈ old) as M1' by set_solver.
  destruct Hs as [|b old Hs Hb]; [by apply not_elem_of_nil in M1'|]. rewrite Forall_forall in Hb.
  assert (b = 1) as ->.
  { destruct (decide (b = 1)) as [|Hne]; [done|]. assert (1 ∈ old) as H1 by set_solver. specialize (Hb 1 H1). change (size_key states 1) with (-999999)%Z in Hb.
    assert (b ≠ 0) by (intros ->; apply N0, list_elem_of_here).
    pose proof (Hkey b (list_elem_of_further _ _ _ (list_elem_of_here _ _)) ltac:(lia)). lia. }
  exists old. split; [done|]. apply NoDup_cons in Hnd as [N1 _]. intros i Hi.
  assert (i ≠ 0) by (intros ->; apply N0; by apply list_elem_of_further). assert (i ≠ 1) by (by intros ->). lia.
Qed.

(** C19: [reorder_states_by_descending_size] does not panic on a table whose
    references exist and whose states have fewer entries than the sort keys allow;
    it permutes the states, keeps the first two in place and puts the others in
    descending order of their number of entries, whatever order the sort leaves
    equal ones in; what a state does is what it did, with the states renamed. *)
Theorem reorder_states_correct (E : Type) (US : UnstableSort) (t : ParseTable N) :
  table_ok t → 2 ≤ length (pt_states t) → (∀ s, s ∈ pt_states t → (N.of_nat (state_size s) < 999999)%N) →
  ∃ t' r, reorder_states_by_descending_size (E:=E) t = Ok t' ∧ table_ok t' ∧ r 0%N = 0%N ∧ r 1%N = 1%N ∧
    length (pt_states t') = length (pt_states t) ∧
    (∀ i j, i < length (pt_states t) → j < length (pt_states t) → r (N.of_nat i) = r (N.of_nat j) → i = j) ∧
    (∀ i s, pt_states t !! i = Some s →
       ∃ s', pt_states t' !! N.to_nat (r (N.of_nat i)) = Some s' ∧ renamed (action_lists t) (action_lists t') r s s') ∧
    ∀ i j s s', 2 ≤ i → i < j → pt_states t' !! i = Some s → pt_states t' !! j = Some s' → state_size s' ≤ state_size s.
Proof.
  intros Ht H2 Hsize. pose proof Ht as [Hp Hs Hn]. unfold reorder_states_by_descending_size.
  set (old := sort_unstable_by_key _ _). assert (old ≡ₚ seq 0 (length (pt_states t))) as Hold by apply sort_unstable_perm.
  pose proof (sort_unstable_sorted (size_key (pt_states t)) (seq 0 (length (pt_states t)))) as Hsorted. fold old in Hsorted.
  destruct (size_key_order _ _ H2 Hsize Hold Hsorted) as (rest & Hrest & Hge).
  destruct (inverse_ids_spec (E:=E) old _ Hold Hn) as (ids & -> & Hlids & Hids). cbn [mbind outcome_bind].
  set (r := λ x : N, default 0%N (ids !! N.to_nat x)).
  assert (∀ i, i < length (pt_states t) → ∃ j, old !! j = Some i ∧ r (N.of_nat i) = N.of_nat j) as Hpos.
  { intros i Hi. assert (i ∈ old) as [j Hj]%list_elem_of_lookup by (rewrite Hold, elem_of_seq; lia). exists j. split; [done|].
    unfold r. by rewrite Nat2N.id, (Hids j i Hj). }
  assert (∀ o, o ∈ old → o < length (pt_states t)) as Hlt by (intros o Ho; rewrite Hold, elem_of_seq in Ho; lia).
  assert (∀ s x, s ∈ pt_states t → refers (action_lists t) s x → id_at (E:=E) ids x = Ok (r x) ∧ N.to_nat (r x) < length (pt_states t)) as Href.
  { intros s x Hin Hx. pose proof (so_refs _ _ _ (Hs s Hin) x Hx) as Hxl. destruct (Hpos _ Hxl) as (j & Hj & Hr). rewrite N2Nat.id in Hr.
    rewrite Hr, Nat2N.id. split; [by apply vec_get_Some, Hids|]. apply lookup_lt_Some in Hj. by rewrite Hold, length_seq in Hj. }
  destruct (take_states_spec (E:=E) ids r (pt_states t) old [] (pt_states t)) as (left_ & ->).
  { rewrite Hold. apply NoDup_seq. } { done. } { intros o Ho. split; [done|by apply Hlt]. }
  { intros o Ho. destruct (lookup_lt_is_Some_2 _ _ (Hlt o Ho)) as [s Hso]. unfold state_at. rewrite Hso. cbn.
    assert (s ∈ pt_states t) as Hin by by eapply list_elem_of_lookup_2. split; [by eapply so_keys, Hs|]. intros k x Hx.
    apply (Href s x Hin). right. eauto. }
  cbn [mbind outcome_bind app]. set (new := map _ old).
  assert (length new = length (pt_states t)) as Hlnew by (unfold new; by rewrite length_map, Hold, length_seq).
  destruct (rename_pass (E:=E) t new (id_at ids) r Ht) as (p' & -> & Hok' & Hren).
  { intros s' (o & -> & Ho)%elem_of_map. exists (state_at (pt_states t) o). split; [|done].
    destruct (lookup_lt_is_Some_2 _ _ (Hlt o Ho)) as [s Hso]. unfold state_at. rewrite Hso. by eapply list_elem_of_lookup_2. }
  { by rewrite Hlnew. } { by rewrite Hlnew. }
  exists (with_pool (with_states t new) p'), r. split; [done|]. split; [done|].
  assert (∀ j o, old !! j = Some o → r (N.of_nat o) = N.of_nat j) as Hinv by (intros j o Hj; unfold r; by rewrite Nat2N.id, (Hids j o Hj)).
  split_and!.
  - apply (Hinv 0 0). by rewrite Hrest.
  - apply (Hinv 1 1). by rewrite Hrest.
  - done.
  - intros i j Hi Hj Hij. destruct (Hpos i Hi) as (a & Ha & Hra), (Hpos j Hj) as (b & Hb & Hrb). rewrite Hra, Hrb in Hij. apply Nat2N.inj in Hij. congruence.
  - intros i s Hi. destruct (Hpos i) as (j & Hj & Hr); [by eapply lookup_lt_Some|]. exists (rename_state r s). rewrite Hr, Nat2N.id.
    assert (new !! j = Some (rename_state r s)) as Hnew by (unfold new; rewrite list_lookup_fmap, Hj; cbn; by unfold state_at; rewrite Hi).
    split; [done|]. apply Hren; by eapply list_elem_of_lookup_2.
  - intros i j s s' Hi Hij His Hjs. cbn in His, Hjs. unfold new in His, Hjs.
    rewrite list_lookup_fmap in His, Hjs. destruct (old !! i) as [a|] eqn:Ha; [|done]. destruct (old !! j) as [b|] eqn:Hb; [|done].
    cbn in His, Hjs. injection His as <-. injection Hjs as <-.
    assert (2 ≤ a ∧ 2 ≤ b) as [Ha2 Hb2].
    { rewrite Hrest in Ha, Hb. destruct i as [|[|i]]; [lia..|]. destruct j as [|[|j]]; [lia..|]. split; apply Hge; by eapply list_elem_of_lookup_2. }
    assert (∀ o, o ∈ old → 2 ≤ o → size_key (pt_states t) o = (- Z.of_nat (state_size (rename_state r (state_at (pt_states t) o))))%Z) as Hk.
    { intros o Ho Ho2. unfold size_key. rewrite (proj2 (Nat.leb_gt o 1)) by lia. unfold state_at.
      destruct (lookup_lt_is_Some_2 _ _ (Hlt o Ho)) as [so Hso]. rewrite Hso. cbn. unfold state_size, rename_state. cbn. unfold remap_gotos. by rewrite length_map. }
    pose proof (StronglySorted_lookup _ _ _ _ _ _ Hsorted Ha Hb Hij) as Hle. cbn in Hle.
    rewrite !Hk in Hle by (done || by eapply list_elem_of_lookup_2). lia.
Qed.

(** ** Checking a concrete table *)
Definition state_okb (lists : list (list ParseAction)) (n : nat) (s : ParseState N) : bool :=
  bool_decide (NoDup (terminal_entries s).*1) && bool_decide (NoDup (nonterminal_entries s).*1) &&
  forallb (λ e, match lists !! id_index e.2 with
                | Some l => forallb (λ a, match a with Shift x _ => (N.to_nat x <? n)%nat | _ => true end) l
                | None => false
                end) (terminal_entries s) &&
  forallb (λ e, match e.2 with Goto x => (N.to_nat x <? n)%nat | GShiftExtra => true end) (nonterminal_entries s).
Lemma table_ok_check t lists : pool_ok (action_lists t) lists → (N.of_nat (length (pt_states t)) < U32)%N →
  forallb (state_okb lists (length (pt_states t))) (pt_states t) = true → table_ok t.
Proof.
  intros Hp Hn Hs. rewrite forallb_forall in Hs. setoid_rewrite <- list_elem_of_In in Hs. split; [by eexists| |done]. intros s Hin. specialize (Hs s Hin).
  unfold state_okb in Hs. rewrite !andb_true_iff, !bool_decide_eq_true, !forallb_forall in Hs. setoid_rewrite <- list_elem_of_In in Hs.
  destruct Hs as (((K1 & K2) & Hi) & Hg). split; [done| |].
  - intros k id He. specialize (Hi _ He). cbn in Hi. destruct (lists !! id_index id) as [l|] eqn:Hl; [|done]. exists l. by apply (pool_holds _ _ _ _ Hp).
  - intros x [(k & id & l & b & He & Hl & Hx)|(k & Hx)].
    + specialize (Hi _ He). cbn in Hi. apply (pool_holds _ _ _ _ Hp) in Hl. rewrite Hl, forallb_forall in Hi. apply list_elem_of_In in Hx.
      specialize (Hi _ Hx). by apply Nat.ltb_lt in Hi.
    + specialize (Hg _ Hx). cbn in Hg. by apply Nat.ltb_lt in Hg.
Qed.

(** State 3 is not referred to, and state 4 has the most entries. *)
Definition ex_pool : ActionListPool := mkActionPool [Shift 2 false; Shift 4 false; ShiftExtra] [mkActionRange 0 1; mkActionRange 1 1; mkActionRange 2 1] [].
Definition ex_lists : list (list ParseAction) := [[Shift 2 false]; [Shift 4 false]; [ShiftExtra]].
Definition ex_parse_state (id : N) (ts : list (Symbol * N)) (nts : list (Symbol * GotoAction)) : ParseState N := mkParseState id ts nts TokenSet.new 0 0 0 false.
Definition ex_parse_table : ParseTable N :=
  mkParseTable
    [ex_parse_state 0 [] []; ex_parse_state 1 [(terminal 0, 0%N)] [(mkSymbol NonTerminal 0, Goto 4)]; ex_parse_state 2 [(terminal 1, 1%N)] [];
     ex_parse_state 3 [(terminal 0, 1%N)] []; ex_parse_state 4 [(terminal 0, 2%N); (terminal 1, 0%N)] []] ex_pool [] [] 0 [].
Lemma ex_parse_table_ok : table_ok ex_parse_table.
Proof. apply (table_ok_check ex_parse_table ex_lists); [repeat split|reflexivity|vm_compute; reflexivity]. Qed.
Example remove_unused_example :
  (λ t, (map (λ s, (ps_id s, nonterminal_entries s)) (pt_states t), actions (action_lists t))) <$> remove_unused_states (E:=Empty_set) ex_parse_table =
    Ok ([(0%N, []); (1%N, [(mkSymbol NonTerminal 0, Goto 3)]); (2%N, []); (4%N, [])], [Shift 2 false; Shift 3 false; ShiftExtra]).
Proof. vm_compute. reflexivity. Qed.
Lemma remove_unused_states_witness :
  ∃ t' r, remove_unused_states (E:=Empty_set) ex_parse_table = Ok t' ∧ table_ok t' ∧ r 0%N = 0%N ∧ r 1%N = 1%N ∧
    (∀ i j, in_use ex_parse_table i → i < j → j < length (pt_states ex_parse_table) → (r (N.of_nat i) < r (N.of_nat j))%N) ∧
    (∀ i s, pt_states ex_parse_table !! i = Some s → in_use ex_parse_table i →
       ∃ s', pt_states t' !! N.to_nat (r (N.of_nat i)) = Some s' ∧ renamed (action_lists ex_parse_table) (action_lists t') r s s') ∧
    ∀ j s', pt_states t' !! j = Some s' → ∃ i, in_use ex_parse_table i ∧ i < length (pt_states ex_parse_table) ∧ j = N.to_nat (r (N.of_nat i)).
Proof. apply (remove_unused_states_correct Empty_set ex_parse_table); [apply ex_parse_table_ok|cbn; lia]. Defined.
Lemma reorder_states_witness :
  ∃ t' r, reorder_states_by_descending_size (E:=Empty_set) ex_parse_table = Ok t' ∧ table_ok t' ∧ r 0%N = 0%N ∧ r 1%N = 1%N ∧
    length (pt_states t') = length (pt_states ex_parse_table) ∧
    (∀ i j, i < length (pt_states ex_parse_table) → j < length (pt_states ex_parse_table) → r (N.of_nat i) = r (N.of_nat j) → i = j) ∧
    (∀ i s, pt_states ex_parse_table !! i = Some s →
       ∃ s', pt_states t' !! N.to_nat (r (N.of_nat i)) = Some s' ∧ renamed (action_lists ex_parse_table) (action_lists t') r s s') ∧
    ∀ i j s s', 2 ≤ i → i < j → pt_states t' !! i = Some s → pt_states t' !! j = Some s' → state_size s' ≤ state_size s.
Proof.
  apply (reorder_states_correct Empty_set insertion_sort ex_parse_table); [apply ex_parse_table_ok|cbn; lia|].
  apply Forall_forall. repeat (apply Forall_cons; split; [reflexivity|]). apply Forall_nil. done.
Defined.
