(* ===== verification/MinimizeConflicts.v ===== *)
(** * [build_tables/minimize_parse_table.rs]: which states are compatible

    The bit sets, the lexical conflicts of a token with a state, and the merge
    joins over sorted entries. *)
From S2P Require Import Prelude BitVec Symbols TokenSet Ordering CharSet Nfa Dedup Grammars Tables TokenConflicts Minimize MinimizeStates.

(** ** Symbol keys *)
Lemma key_bits sym : (index sym < U32)%N → key_new sym = (kind_code (kind sym) * 2 ^ 61 + index sym)%N.
Proof.
  intros Hi. unfold key_new, KEY_TAG_SHIFT. rewrite N.shiftl_mul_pow2.
  assert (N.land (kind_code (kind sym) * 2 ^ 61) (index sym) = 0%N) as Hz.
  { apply N.bits_inj_0. intros k. rewrite N.land_spec. destruct (N.lt_ge_cases k 61).
    - by rewrite (N.mul_pow2_bits_low _ 61 k) by done.
    - assert (N.testbit (index sym) k = false) as ->; [|apply andb_false_r]. destruct (decide (index sym = 0%N)) as [->|]; [apply N.bits_0|].
      apply N.bits_above_log2. assert (N.log2 (index sym) < 32)%N by (apply N.log2_lt_pow2; [lia|exact Hi]). lia. }
  by rewrite <- N.lxor_lor, <- N.add_nocarry_lxor.
Qed.
Lemma key_parts sym : (index sym < U32)%N → N.shiftr (key_new sym) KEY_TAG_SHIFT = kind_code (kind sym) ∧ key_index (key_new sym) = index sym.
Proof.
  intros Hi. rewrite key_bits by done. assert (index sym < 2 ^ 61)%N as Hi61 by (etrans; [exact Hi|reflexivity]). split.
  - unfold KEY_TAG_SHIFT. rewrite N.shiftr_div_pow2, N.add_comm, N.div_add by done. by rewrite (N.div_small (index sym)) by done.
  - unfold key_index. change KEY_INDEX_MASK with (N.ones 61). rewrite N.land_ones, N.add_comm, N.Div0.mod_add, N.mod_small by done.
    by apply wrap_u32_small.
Qed.
(** The key of a symbol gives back the symbol, and orders as symbols do. *)
Lemma key_symbol_new sym : (index sym < U32)%N → key_symbol (key_new sym) = sym.
Proof. intros Hi. destruct (key_parts sym Hi) as [H1 H2]. unfold key_symbol. rewrite H1, H2. destruct sym as [[] i]; done. Qed.
Lemma key_new_inj a b : (index a < U32)%N → (index b < U32)%N → key_new a = key_new b → a = b.
Proof. intros Ha Hb Heq. rewrite <- (key_symbol_new a Ha), <- (key_symbol_new b Hb). by rewrite Heq. Qed.

(** ** Sorted maps *)
Definition keys_lt {A} (l : list (N * A)) : Prop := StronglySorted (λ a b, (a.1 < b.1)%N) l.
Lemma by_key_perm {A} (l : list (N * A)) : by_key l ≡ₚ l.
Proof. apply sort_by_perm. Qed.
Lemma by_key_sorted {A} (l : list (N * A)) : NoDup l.*1 → keys_lt (by_key l).
Proof.
  intros Hnd. pose proof (sort_by_key_sorted (fst (A:=N) (B:=A)) N.compare l) as Hs. fold (by_key l) in Hs.
  assert (NoDup (by_key l).*1) as Hnd' by by rewrite by_key_perm. clear Hnd. unfold keys_lt. induction Hs as [|x k Hs IH Hx]; [constructor|].
  cbn in Hnd'. apply NoDup_cons in Hnd' as [Hn Hnd]. constructor; [by apply IH|]. rewrite Forall_forall in *. intros y Hy.
  assert (x.1 ≤ y.1)%N by exact (Hx y Hy). assert (x.1 ≠ y.1); [|lia]. intros Heq. apply Hn. rewrite Heq. apply list_elem_of_fmap. by exists y.
Qed.
Lemma keys_lt_cons {A} (x : N * A) l : keys_lt (x :: l) → keys_lt l ∧ ∀ y, y ∈ l → (x.1 < y.1)%N.
Proof. unfold keys_lt. intros Hs. inversion Hs as [|? ? ? Hx]. rewrite Forall_forall in Hx. done. Qed.

(** The merge joins visit the common keys; the one of [states_conflict] visits the
    others too. *)
Lemma join_differ_spec {A} (differ : ∀ E : Type, A → A → outcome E bool) (P : A → A → Prop) l1 l2 :
  keys_lt l1 → keys_lt l2 →
  (∀ k x1 x2, (k, x1) ∈ l1 → (k, x2) ∈ l2 → ∃ b, (∀ E, differ E x1 x2 = Ok b) ∧ (b = false ↔ P x1 x2)) →
  ∃ b, (∀ E, join_differ (differ E) l1 l2 = Ok b) ∧ (b = false ↔ ∀ k x1 x2, (k, x1) ∈ l1 → (k, x2) ∈ l2 → P x1 x2).
Proof.
  revert l2. induction l1 as [|[k1 x1] l1 IH1]; intros l2 H1 H2 Hd.
  { exists false. split; [by destruct l2|]. split; [|done]. by intros _ k x1 x2 ?%not_elem_of_nil. }
  induction l2 as [|[k2 x2] l2 IH2].
  { exists false. split; [done|]. split; [|done]. by intros _ k y1 y2 _ ?%not_elem_of_nil. }
  pose proof (keys_lt_cons _ _ H1) as [S1 L1]. pose proof (keys_lt_cons _ _ H2) as [S2 L2]. cbn [fst] in *.
  assert (∀ y, (k1, y) ∉ l1) as N1 by (intros y Hy; specialize (L1 _ Hy); cbn in L1; lia).
  assert (∀ y, (k2, y) ∉ l2) as N2 by (intros y Hy; specialize (L2 _ Hy); cbn in L2; lia).
  cbn [join_differ]. destruct (N.compare_spec k1 k2) as [->|Hlt|Hgt].
  - destruct (Hd k2 x1 x2) as (b & Hb & Hbf); [apply list_elem_of_here..|].
    destruct (IH1 l2) as (b' & Hb' & Hbf'); [done|done|intros; eapply Hd; by apply list_elem_of_further|].
    exists (b || b'). split.
    + intros E. rewrite Hb. cbn. destruct b; [done|]. apply Hb'.
    + rewrite orb_false_iff, Hbf, Hbf'. setoid_rewrite elem_of_cons. split.
      * intros [Hp Hps] k y1 y2 [[= -> ->]|Hy1] [Heq|Hy2]; [by injection Heq as ->|by destruct (N2 y2)|injection Heq as -> ->; by destruct (N1 y1)|eauto].
      * intros Hp. split; [apply (Hp k2); by left|]. intros k y1 y2 ? ?. apply (Hp k); by right.
  - destruct (IH1 ((k2, x2) :: l2)) as (b' & Hb' & Hbf'); [done|done|intros; eapply Hd; [by apply list_elem_of_further|done]|].
    exists b'. split; [done|]. rewrite Hbf'. setoid_rewrite elem_of_cons. split.
    + intros Hp k y1 y2 [[= -> ->]|Hy1] Hy2; [|by apply (Hp k)]. destruct Hy2 as [[= -> ->]|Hy2]; [lia|]. specialize (L2 _ Hy2). cbn in L2. lia.
    + intros Hp k y1 y2 Hy1 Hy2. apply (Hp k); [by right|done].
  - destruct IH2 as (b' & Hb' & Hbf'); [done|intros; eapply Hd; [done|by apply list_elem_of_further]|].
    exists b'. split; [exact Hb'|]. rewrite Hbf'. setoid_rewrite elem_of_cons. split.
    + intros Hp k y1 y2 Hy1 [[= -> ->]|Hy2]; [|by apply (Hp k)]. destruct Hy1 as [[= -> ->]|Hy1]; [lia|]. specialize (L1 _ Hy1). cbn in L1. lia.
    + intros Hp k y1 y2 Hy1 Hy2. apply (Hp k); [done|by right].
Qed.
Lemma states_loop_spec p g keywords ids bits s1 s2 (Pe : N → N → Prop) (P1 P2 : SymbolKey → Prop) l1 l2 :
  keys_lt l1 → keys_lt l2 →
  (∀ k id1 id2, (k, id1) ∈ l1 → (k, id2) ∈ l2 → ∃ b, (∀ E, entries_conflict (E:=E) p ids id1 id2 = Ok b) ∧ (b = false → Pe id1 id2)) →
  (∀ k id, (k, id) ∈ l1 → ∃ b, (∀ E, token_conflicts (E:=E) g keywords bits s2 (key_symbol k) = Ok b) ∧ (b = false → P1 k)) →
  (∀ k id, (k, id) ∈ l2 → ∃ b, (∀ E, token_conflicts (E:=E) g keywords bits s1 (key_symbol k) = Ok b) ∧ (b = false → P2 k)) →
  ∃ b, (∀ E, states_conflict_loop (E:=E) p g keywords ids bits s1 s2 l1 l2 = Ok b) ∧
    (b = false → (∀ k id1 id2, (k, id1) ∈ l1 → (k, id2) ∈ l2 → Pe id1 id2) ∧
       (∀ k, k ∈ l1.*1 → k ∉ l2.*1 → P1 k) ∧ (∀ k, k ∈ l2.*1 → k ∉ l1.*1 → P2 k)).
Proof.
  revert l2. induction l1 as [|[k1 x1] l1 IH1]; intros l2 H1 H2 He Ht1 Ht2.
  { induction l2 as [|[k2 x2] l2 IH2].
    - exists false. split; [done|]. intros _. split_and!; [by intros k x1 x2 ?%not_elem_of_nil|by intros k ?%not_elem_of_nil|by intros k ?%not_elem_of_nil].
    - pose proof (keys_lt_cons _ _ H2) as [S2 L2]. destruct (Ht2 k2 x2) as (c & Hc & Hcf); [apply list_elem_of_here|].
      destruct IH2 as (b & Hb & Hbf); [done|by intros k id1 id2 ?%not_elem_of_nil|intros; eapply Ht2; by apply list_elem_of_further|].
      exists (c || b). split; [intros E; cbn [states_conflict_loop]; rewrite Hc; cbn; destruct c; [done|apply Hb]|].
      intros [Hc0 Hb0]%orb_false_iff. destruct (Hbf Hb0) as (B1 & B2 & B3). split_and!; [by intros k y1 y2 ?%not_elem_of_nil|by intros k ?%not_elem_of_nil|].
      intros k [->|Hk]%elem_of_cons _; [by apply Hcf|]. apply B3; [done|by apply not_elem_of_nil]. }
  induction l2 as [|[k2 x2] l2 IH2].
  { pose proof (keys_lt_cons _ _ H1) as [S1 L1]. destruct (Ht1 k1 x1) as (c & Hc & Hcf); [apply list_elem_of_here|].
    destruct (IH1 []) as (b & Hb & Hbf); [done|done|by intros k id1 id2 _ ?%not_elem_of_nil|intros; eapply Ht1; by apply list_elem_of_further|by intros k id ?%not_elem_of_nil|].
    exists (c || b). split; [intros E; cbn [states_conflict_loop]; rewrite Hc; cbn; destruct c; [done|apply Hb]|].
    intros [Hc0 Hb0]%orb_false_iff. destruct (Hbf Hb0) as (B1 & B2 & B3). split_and!; [by intros k y1 y2 _ ?%not_elem_of_nil| |by intros k ?%not_elem_of_nil].
    intros k [->|Hk]%elem_of_cons _; [by apply Hcf|]. apply B2; [done|by apply not_elem_of_nil]. }
  pose proof (keys_lt_cons _ _ H1) as [S1 L1]. pose proof (keys_lt_cons _ _ H2) as [S2 L2]. cbn [fst] in *.
  assert (∀ y, y ∈ l1.*1 → (k1 < y)%N) as M1 by (intros y ([z w] & -> & Hz)%list_elem_of_fmap; by apply (L1 _ Hz)).
  assert (∀ y, y ∈ l2.*1 → (k2 < y)%N) as M2 by (intros y ([z w] & -> & Hz)%list_elem_of_fmap; by apply (L2 _ Hz)).
  assert (∀ k y, (k, y) ∈ l1 → k ∈ l1.*1) as F1 by (intros k y Hy; apply list_elem_of_fmap; by exists (k, y)).
  assert (∀ k y, (k, y) ∈ l2 → k ∈ l2.*1) as F2 by (intros k y Hy; apply list_elem_of_fmap; by exists (k, y)).
  change (((k1, x1) :: l1).*1) with (k1 :: l1.*1) in *. change (((k2, x2) :: l2).*1) with (k2 :: l2.*1) in *.
  destruct (N.compare_spec k1 k2) as [<-|Hlt|Hgt].
  - destruct (He k1 x1 x2) as (c & Hc & Hcf); [apply list_elem_of_here..|].
    destruct (IH1 l2) as (b & Hb & Hbf); [done|done|intros; eapply He; by apply list_elem_of_further|intros; eapply Ht1; by apply list_elem_of_further|intros; eapply Ht2; by apply list_elem_of_further|].
    exists (c || b). split; [intros E; cbn [states_conflict_loop]; rewrite N.compare_refl, Hc; cbn; destruct c; [done|apply Hb]|].
    intros [Hc0 Hb0]%orb_false_iff. destruct (Hbf Hb0) as (B1 & B2 & B3). split_and!.
    + intros k y1 y2 [[= -> ->]|Hy1]%elem_of_cons [Heq|Hy2]%elem_of_cons; [injection Heq as ->; by apply Hcf| | |by eapply B1].
      * specialize (M2 _ (F2 _ _ Hy2)). lia.
      * injection Heq as -> ->. specialize (M1 _ (F1 _ _ Hy1)). lia.
    + intros k [->|Hk]%elem_of_cons [? ?]%not_elem_of_cons; [done|by apply B2].
    + intros k [->|Hk]%elem_of_cons [? ?]%not_elem_of_cons; [done|by apply B3].
  - destruct (Ht1 k1 x1) as (c & Hc & Hcf); [apply list_elem_of_here|].
    destruct (IH1 ((k2, x2) :: l2)) as (b & Hb & Hbf); [done|done|intros; eapply He; [by apply list_elem_of_further|done]|intros; eapply Ht1; by apply list_elem_of_further|done|].
    exists (c || b). split; [intros E; cbn [states_conflict_loop]; rewrite (proj2 (N.compare_lt_iff _ _) Hlt), Hc; cbn; destruct c; [done|apply Hb]|].
    intros [Hc0 Hb0]%orb_false_iff. destruct (Hbf Hb0) as (B1 & B2 & B3). change (((k2, x2) :: l2).*1) with (k2 :: l2.*1) in *. split_and!.
    + intros k y1 y2 [[= -> ->]|Hy1]%elem_of_cons Hy2; [|by eapply B1].
      apply elem_of_cons in Hy2 as [[= -> ->]|Hy2]; [lia|]. specialize (M2 _ (F2 _ _ Hy2)). lia.
    + intros k [->|Hk]%elem_of_cons Hn; [by apply Hcf|by apply B2].
    + intros k Hk Hn. apply B3; [done|]. by apply not_elem_of_cons in Hn as [_ ?].
  - destruct (Ht2 k2 x2) as (c & Hc & Hcf); [apply list_elem_of_here|].
    destruct IH2 as (b & Hb & Hbf); [done|intros; eapply He; [done|by apply list_elem_of_further]|intros; eapply Ht2; by apply list_elem_of_further|].
    exists (c || b). split; [intros E; cbn [states_conflict_loop]; rewrite (proj2 (N.compare_gt_iff _ _) Hgt), Hc; cbn; destruct c; [done|apply Hb]|].
    intros [Hc0 Hb0]%orb_false_iff. destruct (Hbf Hb0) as (B1 & B2 & B3). split_and!.
    + intros k y1 y2 Hy1 [[= -> ->]|Hy2]%elem_of_cons; [|by eapply B1].
      apply elem_of_cons in Hy1 as [[= -> ->]|Hy1]; [lia|]. specialize (M1 _ (F1 _ _ Hy1)). lia.
    + intros k Hk Hn. apply B2; [done|]. by apply not_elem_of_cons in Hn as [_ ?].
    + intros k [->|Hk]%elem_of_cons Hn; [by apply Hcf|by apply B3].
Qed.

(** ** Entries *)
(** Actions that are equal but for the targets of shifts, and in the groups [ids]. *)
Definition same_shape (a b : ParseAction) : Prop :=
  match a, b with Shift _ r, Shift _ r' => r = r' | Shift _ _, _ => False | _, Shift _ _ => False | _, _ => a = b end.
Lemma same_shape_refl a : same_shape a a.
Proof. by destruct a. Qed.
Lemma same_shape_sym a b : same_shape a b → same_shape b a.
Proof. destruct a, b; cbn; congruence || done. Qed.
Definition entries_agree (p : ActionListPool) (id1 id2 : N) : Prop :=
  ∃ l1 l2, holds p id1 l1 ∧ holds p id2 l2 ∧ Forall2 same_shape l1 l2.
Lemma entries_agree_sym p id1 id2 : entries_agree p id1 id2 → entries_agree p id2 id1.
Proof. intros (l1 & l2 & H1 & H2 & Hf). exists l2, l1. split_and!; [done|done|]. apply Forall2_flip. eapply Forall2_impl; [exact Hf|]. intros a b. apply same_shape_sym. Qed.
Lemma actions_conflict_spec ids l1 l2 :
  (∀ x r, Shift x r ∈ l1 ++ l2 → N.to_nat x < length ids) →
  ∃ b, (∀ E, actions_conflict (E:=E) ids l1 l2 = Ok b) ∧ (length l1 = length l2 → b = false → Forall2 same_shape l1 l2).
Proof.
  revert l2. induction l1 as [|a l1 IH]; intros [|b l2] Hr; [exists false; split; [done|constructor]|by exists false|exists false; split; [by destruct a|done]|].
  destruct (IH l2) as (c & Hc & Hcf).
  { intros x r [Hx|Hx]%elem_of_app; apply (Hr x r); set_solver. }
  assert ((∃ x r y r', a = Shift x r ∧ b = Shift y r') ∨ ∀ E, actions_conflict (E:=E) ids (a :: l1) (b :: l2) = if decide (a = b) then actions_conflict ids l1 l2 else Ok true)
    as [(x & r & y & r' & -> & ->)|Heq].
  { destruct a as [|x r| | |], b as [|y r'| | |]; try (right; intros E; reflexivity). left. by exists x, r, y, r'. }
  - destruct (lookup_lt_is_Some_2 ids (N.to_nat x)) as [gx Hgx]; [apply (Hr x r); set_solver|].
    destruct (lookup_lt_is_Some_2 ids (N.to_nat y)) as [gy Hgy]; [apply (Hr y r'); set_solver|].
    exists (if (gx =? gy)%N && Bool.eqb r r' then c else true). split.
    + intros E. cbn. unfold id_at. rewrite (vec_get_Some _ _ _ Hgx). cbn. rewrite (vec_get_Some _ _ _ Hgy). cbn. by destruct (_ && _).
    + intros [= Hl]. destruct (_ && _) eqn:Hb; [|done]. apply andb_true_iff in Hb as [_ ->%eqb_prop]. intros Hcc. constructor; [done|by apply Hcf].
  - exists (if decide (a = b) then c else true). split; [intros E; rewrite Heq; by case_decide|].
    intros [= Hl]. case_decide as Hab; [|done]. subst. intros Hcc. constructor; [apply same_shape_refl|by apply Hcf].
Qed.
Lemma entries_conflict_spec p n ids id1 id2 l1 l2 :
  pool_valid p → holds p id1 l1 → holds p id2 l2 → length ids = n → (∀ x r, Shift x r ∈ l1 ++ l2 → N.to_nat x < n) →
  ∃ b, (∀ E, entries_conflict (E:=E) p ids id1 id2 = Ok b) ∧ (b = false → entries_agree p id1 id2).
Proof.
  intros [lists Hp] H1 H2 Hlen Hr. subst n. unfold entries_conflict, entries_agree. destruct (Nat.eqb_spec (id_index id1) (id_index id2)) as [Heq|Hne].
  - exists false. split; [done|]. intros _. exists l1, l2. split_and!; [done|done|].
    assert (l1 = l2) as ->. { apply (pool_holds _ _ _ _ Hp) in H1, H2. rewrite Heq in H1. congruence. }
    clear. induction l2; constructor; [apply same_shape_refl|done].
  - destruct (actions_conflict_spec ids l1 l2 Hr) as (b & Hb & Hbf). destruct (Nat.eqb_spec (length l1) (length l2)) as [Hl|Hl].
    + exists b. split; [intros E; rewrite H1; cbn; rewrite H2; cbn; by rewrite (proj2 (Nat.eqb_eq _ _) Hl)|]. intros Hb0. exists l1, l2. auto.
    + exists true. split; [intros E; rewrite H1; cbn; rewrite H2; cbn; by rewrite (proj2 (Nat.eqb_neq _ _) Hl)|done].
Qed.

(** ** Bit sets *)
(** Bit [k] of a vector is the membership in [P]. *)
Definition bits_of (bits : list N) (len : nat) (P : nat → Prop) : Prop := length bits = len ∧ ∀ k, fbit bits k = true ↔ P k.
Lemma bits_of_ext bits len P Q : (∀ k, P k ↔ Q k) → bits_of bits len P → bits_of bits len Q.
Proof. intros HPQ [? HP]. split; [done|]. intros k. by rewrite HP. Qed.
Lemma bits_of_replicate len : bits_of (replicate len 0%N) len (λ _, False).
Proof. split; [by rewrite length_replicate|]. intros k. by rewrite fbit_replicate. Qed.
Lemma set_in_row_spec {E : Type} bits rw m P i j :
  bits_of bits (m * rw) P → i < m → Nat.div j 64 < rw →
  ∃ bits', set_in_row (E:=E) bits rw i j = Ok bits' ∧ bits_of bits' (m * rw) (λ k, P k ∨ k = row_index rw i j).
Proof.
  intros [Hl HP] Hi Hj. unfold set_in_row. rewrite (proj2 (Nat.ltb_lt _ _) Hj).
  assert (i * rw + Nat.div j 64 < length bits) as Hlt by nia.
  destruct (or_bit_spec bits (row_index rw i j)) as (bits' & Hor & Hl' & Hb); [by rewrite row_index_div|].
  rewrite <- set_row_bit_or_bit in Hor. unfold set_row_bit in Hor.
  destruct (lookup_lt_is_Some_2 _ _ Hlt) as [w Hw]. rewrite (vec_get_Some _ _ _ Hw) in Hor. rewrite (vec_get_Some _ _ _ Hw). cbn [mbind outcome_bind] in *.
  rewrite vec_set_lt in Hor by done. rewrite vec_set_lt by done. injection Hor as <-. eexists. split; [done|]. split; [by rewrite length_insert|].
  intros k. rewrite Hb, orb_true_iff, HP, bool_decide_eq_true. done.
Qed.
Lemma set_terminals_spec {E : Type} bits rw m P i (l : list Symbol) :
  bits_of bits (m * rw) P → i < m → (∀ x, x ∈ l → kind x = Terminal → Nat.div (N.to_nat (index x)) 64 < rw) →
  ∃ bits', for_each (set_terminal (E:=E) rw i) bits l = Ok bits' ∧
    bits_of bits' (m * rw) (λ k, P k ∨ ∃ x, x ∈ l ∧ kind x = Terminal ∧ k = row_index rw i (N.to_nat (index x))).
Proof.
  intros HP Hi Hl. apply (for_each_inv _ (λ d b, bits_of b (m * rw) (λ k, P k ∨ ∃ x, x ∈ d ∧ kind x = Terminal ∧ k = row_index rw i (N.to_nat (index x))))).
  - eapply bits_of_ext; [|exact HP]. intros k. set_solver.
  - intros d x r b -> Hb. unfold set_terminal, is_terminal. case_bool_decide as Hx.
    + destruct (set_in_row_spec (E:=E) b rw m _ i (N.to_nat (index x)) Hb Hi) as (b' & -> & Hb'); [apply Hl; set_solver|].
      eexists. split; [done|]. eapply bits_of_ext; [|exact Hb']. intros k. cbn. set_solver.
    + eexists. split; [done|]. eapply bits_of_ext; [|exact Hb]. intros k. cbn. set_solver.
Qed.

Section bits.
Context (states : list (ParseState N)) (g : SyntaxGrammar) (lg : LexicalGrammar) (conflicts : TokenConflictMap) (keywords : TokenSet).
Notation n := (length (lg_variables lg)).
Notation rw := (div_ceil_64 n).

(** Tokens of the grammar; the two tokens that are no terminals have index 0. *)
Definition known_token (x : Symbol) : Prop :=
  match kind x with
  | Terminal => N.to_nat (index x) < n
  | External => True
  | End | EndOfNonTerminalExtra => index x = 0%N
  | NonTerminal => False
  end ∧ (index x + 1 < U32)%N.
Lemma known_token_token x : known_token x → TokenSet.token x ∧ kind x ≠ NonTerminal.
Proof. unfold known_token, TokenSet.token. destruct (kind x); intros [? ?]; split; done. Qed.
Record tokens_ok : Prop := {
  tk_n : tc_n conflicts = n;
  tk_matrix : length (status_matrix conflicts) = n * n;
  tk_keys : ∀ s x, s ∈ states → x ∈ (terminal_entries s).*1 → known_token x;
  tk_reserved : ∀ s, s ∈ states → TokenSet.wf (Tables.reserved_words s);
  tk_keywords : TokenSet.wf keywords;
  tk_keyword : ∀ x, x ∈ toks keywords → kind x = Terminal → N.to_nat (index x) < n;
  tk_external : ∀ e x, e ∈ external_tokens g → corresponding_internal_token e = Some x → N.to_nat (index x) < n;
}.
Context (Hok : tokens_ok).

Lemma word_lt j : j < n → Nat.div j 64 < rw.
Proof. intros Hj. pose proof (div_ceil_64_spec n). apply Nat.Div0.div_lt_upper_bound. lia. Qed.
Record bits_ok (b : ConflictBits) : Prop := {
  bo_words : cb_row_words b = rw;
  bo_states : length (state_terminals b) = length states * rw;
  bo_rows : length (cb_conflict_rows b) = n * rw;
  bo_keywords : length (keyword_bits b) = rw;
  bo_external : length (internal_external b) = rw;
  bo_state_bit : ∀ i s j, states !! i = Some s → j < n → row_bit (state_terminals b) rw i j = true ↔ mkSymbol Terminal (N.of_nat j) ∈ (terminal_entries s).*1;
  bo_row_bit : ∀ i j, i < n → j < n → does_conflict conflicts i j = Ok (row_bit (cb_conflict_rows b) rw i j);
  bo_keyword_bit : ∀ j, j < n → fbit (keyword_bits b) j = true ↔ mkSymbol Terminal (N.of_nat j) ∈ toks keywords;
  bo_external_bit : ∀ j, j < n → fbit (internal_external b) j = true ↔
    ∃ e x, e ∈ external_tokens g ∧ corresponding_internal_token e = Some x ∧ N.to_nat (index x) = j;
}.
Lemma terminal_of x j : kind x = Terminal → N.to_nat (index x) = j → x = mkSymbol Terminal (N.of_nat j).
Proof. destruct x as [k i]. cbn. intros -> <-. by rewrite N2Nat.id. Qed.

Lemma state_bits_spec {E : Type} : ∃ bits, state_terminal_bits (E:=E) rw states = Ok bits ∧ length bits = length states * rw ∧
  ∀ i s j, states !! i = Some s → j < n → row_bit bits rw i j = true ↔ mkSymbol Terminal (N.of_nat j) ∈ (terminal_entries s).*1.
Proof.
  unfold state_terminal_bits.
  destruct (for_each_inv (λ bits '(i, s), for_each (set_terminal (E:=E) rw i) bits (terminal_entries s).*1)
    (λ d b, bits_of b (length states * rw) (λ k, ∃ i s x, (i, s) ∈ d ∧ x ∈ (terminal_entries s).*1 ∧ kind x = Terminal ∧ k = row_index rw i (N.to_nat (index x))))
    (imap pair states) (replicate (length states * rw) 0%N)) as (bits & -> & Hl & Hb).
  - eapply bits_of_ext; [|apply bits_of_replicate]. intros k. split; [done|]. by intros (i & s & x & ?%not_elem_of_nil & _).
  - intros d [i s] r b Heq Hb. assert ((i, s) ∈ imap pair states) as Hin by (rewrite Heq; set_solver).
    apply elem_of_lookup_imap in Hin as (i' & s' & [= -> ->] & Hs).
    destruct (set_terminals_spec (E:=E) b rw (length states) _ i' (terminal_entries s').*1 Hb) as (b' & Hfor & Hb').
    + by eapply lookup_lt_Some.
    + intros x Hx Ht. apply word_lt. destruct (tk_keys Hok s' x) as [Hk _]; [by eapply list_elem_of_lookup_2|done|]. by rewrite Ht in Hk.
    + exists b'. split; [exact Hfor|]. eapply bits_of_ext; [|exact Hb']. intros k. cbn.
      setoid_rewrite elem_of_app. setoid_rewrite list_elem_of_singleton. split.
      * intros [(i & s & x & ? & ?)|(x & ?)]; [exists i, s, x; auto|exists i', s', x; auto].
      * intros (i & s & x & [Hd|Heq'] & Hx); [left; by exists i, s, x|]. injection Heq' as -> ->. right. by exists x.
  - exists bits. split; [done|]. split; [done|]. intros i s j Hs Hj. unfold row_bit. rewrite Hb. split.
    + intros (i' & s' & x & Hin & Hx & Ht & Heq). apply elem_of_lookup_imap in Hin as (i2 & s2 & [= -> ->] & Hs2).
      assert (N.to_nat (index x) < n) as Hxn.
      { destruct (tk_keys Hok s2 x) as [Hk _]; [by eapply list_elem_of_lookup_2|done|]. by rewrite Ht in Hk. }
      destruct (row_index_inj n _ _ _ _ Hj Hxn Heq) as [-> ->]. rewrite Hs in Hs2. injection Hs2 as ->. by rewrite <- (terminal_of x _ Ht eq_refl).
    + intros Hx. exists i, s, (mkSymbol Terminal (N.of_nat j)). cbn. rewrite Nat2N.id. split_and!; [|done|done|done].
      apply elem_of_lookup_imap. by exists i, s.
Qed.
Lemma one_row_index j : row_index rw 0 j = j.
Proof. unfold row_index. lia. Qed.
Lemma conflict_bits_spec kws : TokenSet.iter keywords = Ok kws → ∃ b, conflict_bits states g lg conflicts kws = Ok b ∧ bits_ok b.
Proof.
  intros Hkws. unfold conflict_bits. destruct (state_bits_spec (E:=Empty_set)) as (sb & -> & Hsl & Hsb). cbn [mbind outcome_bind].
  assert (∀ i j, i < n → j < n → ∃ c, does_conflict conflicts i j = Ok c) as Hdc.
  { intros i j Hi Hj. unfold does_conflict, tc_entry. rewrite (tk_n Hok).
    destruct (matrix_entry n (status_matrix conflicts) i j (tk_matrix Hok) Hi Hj) as [e ->]. by eexists. }
  set (q := λ i j, match does_conflict conflicts i j with Ok c => c | _ => false end).
  destruct (fill_rows_spec (does_conflict conflicts) q n (replicate (n * rw) 0%N) (all_pairs n)) as (rows & -> & Hrl & Hrb).
  { by rewrite length_replicate. }
  { apply Forall_forall. intros [i j] [Hi Hj]%all_pairs_elem. split_and!; [done|done|]. unfold q. by destruct (Hdc i j Hi Hj) as [c ->]. }
  cbn [mbind outcome_bind]. destruct (toks_iter_spec keywords (tk_keywords Hok)) as (l & Hl & _ & Hin & _). rewrite Hl in Hkws. injection Hkws as <-.
  assert (∀ x, x ∈ l ↔ x ∈ toks keywords) as Hlk by (intros x; rewrite Hin; by rewrite elem_of_toks by apply Hok).
  destruct (set_terminals_spec (E:=Empty_set) (replicate rw 0%N) rw 1 (λ _, False) 0 l) as (kb & Hkb & Hkl & Hkbit).
  { rewrite Nat.mul_1_l. apply bits_of_replicate. } { lia. } { intros x Hx%Hlk Ht. by apply word_lt, (tk_keyword Hok). }
  rewrite Hkb. cbn [mbind outcome_bind].
  destruct (for_each_inv (λ bits e, match corresponding_internal_token e with Some token => set_in_row (E:=Empty_set) bits rw 0 (N.to_nat (index token)) | None => Ok bits end)
    (λ d b, bits_of b (1 * rw) (λ k, ∃ e x, e ∈ d ∧ corresponding_internal_token e = Some x ∧ N.to_nat (index x) = k)) (external_tokens g) (replicate rw 0%N))
    as (eb & Heb & Hel & Hebit).
  { rewrite Nat.mul_1_l. eapply bits_of_ext; [|apply bits_of_replicate]. intros k. split; [done|]. by intros (e & x & ?%not_elem_of_nil & _). }
  { intros d e r b Heq Hb. assert (e ∈ external_tokens g) as He by (rewrite Heq; set_solver). destruct (corresponding_internal_token e) as [x|] eqn:Hx.
    - destruct (set_in_row_spec (E:=Empty_set) b rw 1 _ 0 (N.to_nat (index x)) Hb) as (b' & Hset & Hb'); [lia|by apply word_lt, (tk_external Hok e)|].
      exists b'. split; [exact Hset|]. eapply bits_of_ext; [|exact Hb']. intros k. cbv beta. rewrite one_row_index.
      setoid_rewrite elem_of_app. setoid_rewrite list_elem_of_singleton. naive_solver.
    - exists b. split; [done|]. eapply bits_of_ext; [|exact Hb]. intros k. cbn. setoid_rewrite elem_of_app. setoid_rewrite list_elem_of_singleton. naive_solver. }
  rewrite Heb. cbn [mbind outcome_bind]. eexists. split; [done|]. rewrite Nat.mul_1_l in *. rewrite length_replicate in Hrl.
  split; cbn [cb_row_words state_terminals cb_conflict_rows keyword_bits internal_external]; [done|done|done|done|done|done| | |].
  - intros i j Hi Hj. rewrite (Hrb i j Hi Hj), bool_decide_eq_true_2 by by apply all_pairs_elem. unfold row_bit. rewrite fbit_replicate. cbn.
    unfold q. by destruct (Hdc i j Hi Hj) as [c ->].
  - intros j Hj. rewrite Hkbit. split.
    + intros [[]|(x & Hx%Hlk & Ht & Heq)]. rewrite one_row_index in Heq. by rewrite <- (terminal_of x j Ht).
    + intros Hx. right. exists (mkSymbol Terminal (N.of_nat j)). rewrite Hlk, one_row_index. cbn. by rewrite Nat2N.id.
  - intros j _. apply Hebit.
Qed.

(** ** Lexical conflicts *)
(** The exemptions of keywords and the word token. *)
Definition exempt (x : Symbol) (j : nat) : Prop :=
  (∃ w, word_token g = Some w ∧ x ∈ toks keywords ∧ N.to_nat (index w) = j) ∨
  word_token g = Some x ∧ mkSymbol Terminal (N.of_nat j) ∈ toks keywords.
(** Token [x] can be added to those of state [s]: it is reserved there, or it is
    no token of the external scanner and conflicts with no terminal of [s] but
    the exempted ones.  For the end of the input the code takes the conflicts of
    the terminal of the same index, 0. *)
Definition may_add (x : Symbol) (s : ParseState N) : Prop :=
  x ≠ end_of_nonterminal_extra ∧ kind x ≠ External ∧
  (x ∈ toks (Tables.reserved_words s) ∨
   (kind x = Terminal → ∀ e y, e ∈ external_tokens g → corresponding_internal_token e = Some y → index y ≠ index x) ∧
   ∀ j, j < n → mkSymbol Terminal (N.of_nat j) ∈ (terminal_entries s).*1 → does_conflict conflicts (N.to_nat (index x)) j = Ok true → exempt x j).

Lemma get_row_spec {E : Type} bits i : (i + 1) * rw ≤ length bits →
  ∃ row, get_row (E:=E) bits rw i = Ok row ∧ length row = rw ∧ ∀ w, w < rw → row !! w = bits !! (i * rw + w).
Proof.
  intros Hl. assert (i * rw + rw ≤ length bits) as Hl' by lia. clear Hl. revert Hl'. unfold get_row, Grammars.slice.
  generalize (i * rw) as a. generalize rw as b. intros b a Hl. rewrite (proj2 (Nat.leb_le _ _)) by lia. rewrite (proj2 (Nat.leb_le _ _)) by lia.
  eexists. split; [done|]. split; [rewrite length_take, length_drop; lia|]. intros w Hw.
  rewrite lookup_take_lt by lia. apply lookup_drop.
Qed.
(** The words from [w] on leave no bit that is in both rows and not exempt. *)
Lemma words_conflict_spec bits is_keyword is_word w row right_bits :
  bits_ok bits → w + length row = rw → length right_bits = rw →
  ∃ b, (∀ E, words_conflict (E:=E) g bits is_keyword is_word w row right_bits = Ok b) ∧
    (b = false → ∀ i c row_word, row !! i = Some row_word → c < 64 → N.testbit row_word (N.of_nat c) = true →
       N.testbit (default 0%N (right_bits !! (w + i))) (N.of_nat c) = true →
       is_keyword = true ∧ (∃ wd, word_token g = Some wd ∧ N.to_nat (index wd) = (w + i) * 64 + c) ∨
       is_word = true ∧ fbit (keyword_bits bits) ((w + i) * 64 + c) = true).
Proof.
  intros Hb. revert w. induction row as [|row_word row IH]; intros w Hw Hr; [exists false; split; [done|]; by intros _ i c ? ?|].
  cbn [length] in Hw. destruct (IH (S w)) as (b & Hbb & Hbf); [lia|done|].
  destruct (lookup_lt_is_Some_2 right_bits w) as [rword Hrw]; [lia|].
  destruct (lookup_lt_is_Some_2 (keyword_bits bits) w) as [kword Hkw]; [rewrite (bo_keywords _ Hb); lia|].
  set (c0 := N.land rword row_word).
  set (c1 := match word_token g with
             | Some word => if is_keyword && (Nat.div (N.to_nat (index word)) 64 =? w)%nat
                 then N.land c0 (BitVec.u64_not (N.shiftl 1 (N.of_nat (Nat.modulo (N.to_nat (index word)) 64)))) else c0
             | None => c0 end).
  set (c2 := if is_word then N.land c1 (BitVec.u64_not kword) else c1).
  exists (if (c2 =? 0)%N then b else true). split.
  { intros E. cbn [words_conflict]. rewrite (vec_get_Some _ _ _ Hrw). cbn [mbind outcome_bind]. fold c0. fold c1.
    assert ((if is_word then k ← vec_get (keyword_bits bits) w; Ok (N.land c1 (BitVec.u64_not k)) else Ok c1) = Ok (E:=E) c2) as ->.
    { unfold c2. destruct is_word; [|done]. by rewrite (vec_get_Some _ _ _ Hkw). }
    cbn [mbind outcome_bind]. destruct (c2 =? 0)%N; [apply Hbb|done]. }
  destruct (N.eqb_spec c2 0) as [Hz|]; [|done]. intros Hf i c rwd Hi Hc Hbit Hrbit. destruct i as [|i].
  2: { replace (w + S i) with (S w + i) in * by lia. by eapply Hbf. }
  cbn in Hi. injection Hi as ->. rewrite Nat.add_0_r in *. rewrite Hrw in Hrbit. cbn in Hrbit.
  assert (N.testbit c0 (N.of_nat c) = true) as H0 by (unfold c0; by rewrite N.land_spec, Hbit, Hrbit).
  assert (N.testbit c2 (N.of_nat c) = false) as H2 by (by rewrite Hz, N.bits_0).
  destruct (N.testbit c1 (N.of_nat c)) eqn:H1.
  - right. unfold c2 in H2. destruct is_word; [|congruence]. rewrite N.land_spec, H1, u64_not_bit in H2 by lia. split; [done|].
    unfold fbit. replace (Nat.div (w * 64 + c) 64) with w by (rewrite Nat.add_comm, Nat.div_add, Nat.div_small by lia; lia).
    replace (Nat.modulo (w * 64 + c) 64) with c by (rewrite Nat.add_comm, Nat.Div0.mod_add, Nat.mod_small; lia). rewrite Hkw. cbn. by destruct (N.testbit kword _).
  - left. unfold c1 in H1. destruct (word_token g) as [wd|]; [|congruence]. destruct (is_keyword && _) eqn:Hk; [|congruence].
    apply andb_true_iff in Hk as [-> Hdiv%Nat.eqb_eq]. split; [done|]. exists wd. split; [done|].
    rewrite N.land_spec, H0, u64_not_bit, BitVec.shiftl_1_bit in H1 by lia. destruct (bool_decide _) eqn:Hcc in H1; [|done].
    apply bool_decide_eq_true in Hcc. pose proof (Nat.div_mod_eq (N.to_nat (index wd)) 64). lia.
Qed.

Lemma token_conflicts_spec b x i s :
  bits_ok b → known_token x → states !! i = Some s → N.to_nat (ps_id s) = i →
  ∃ c, (∀ E, token_conflicts (E:=E) g keywords b s x = Ok c) ∧ (c = false → may_add x s).
Proof.
  intros Hb Hx Hs Hid. pose proof (known_token_token x Hx) as [Htok Hnt]. unfold token_conflicts, may_add.
  destruct (decide (x = end_of_nonterminal_extra)) as [->|Hne]; [by exists true|].
  destruct (is_external x) eqn:Hext; [by exists true|]. unfold is_external in Hext. apply bool_decide_eq_false in Hext.
  pose proof (tk_reserved Hok s ltac:(by eapply list_elem_of_lookup_2)) as Hres. setoid_rewrite (λ E, contains_spec (E:=E) _ x Hres Hnt). cbn [mbind outcome_bind].
  destruct (mem (Tables.reserved_words s) x) eqn:Hmem.
  { exists false. split; [done|]. intros _. split_and!; [done|done|]. left. by apply elem_of_toks. }
  assert (kind x = Terminal ∧ N.to_nat (index x) < n ∨ kind x = End ∧ index x = 0%N) as Hkind.
  { destruct Hx as [Hx _]. destruct x as [[] xi]; cbn in *; try done; auto. subst. by destruct Hne. }
  assert (∃ ie, (∀ E, (if is_terminal x then
       w ← vec_get (internal_external b) (Nat.div (N.to_nat (index x)) 64);
       Ok (negb (N.land w (N.shiftl 1 (N.of_nat (Nat.modulo (N.to_nat (index x)) 64))) =? 0)%N) else Ok false) = Ok (E:=E) ie) ∧
     (ie = false → kind x = Terminal → fbit (internal_external b) (N.to_nat (index x)) = false)) as (ie & Hie & Hief).
  { unfold is_terminal. destruct Hkind as [[Ht Hlt]|[Hend _]].
    - rewrite bool_decide_eq_true_2 by done. destruct (lookup_lt_is_Some_2 (internal_external b) (Nat.div (N.to_nat (index x)) 64)) as [w Hw].
      { rewrite (bo_external _ Hb). by apply word_lt. }
      eexists. split; [intros E; rewrite (vec_get_Some _ _ _ Hw); done|]. rewrite negb_false_iff, N.eqb_eq. intros Hz _. unfold fbit. rewrite Hw. cbn.
      apply (f_equal (λ v, N.testbit v (N.of_nat (Nat.modulo (N.to_nat (index x)) 64)))) in Hz. rewrite N.land_spec, N.bits_0, N.shiftl_1_l, N.pow2_bits_true, andb_true_r in Hz. done.
    - exists false. by rewrite Hend. }
  destruct ie; [exists true; split; [intros E; rewrite Hie; done|done]|].
  set (is_keyword := match word_token g with Some _ => mem keywords x | None => false end).
  assert (∀ E, match word_token g with Some _ => TokenSet.contains keywords x | None => Ok false end = Ok (E:=E) is_keyword) as Hkw.
  { intros E. unfold is_keyword. destruct (word_token g); [|done]. apply contains_spec; [apply (tk_keywords Hok)|done]. }
  destruct (get_row_spec (E:=Empty_set) (cb_conflict_rows b) (N.to_nat (index x))) as (row & _ & Hrowl & Hrow).
  { rewrite (bo_rows _ Hb). destruct Hkind as [[_ Hlt]|[_ Hz]]; [nia|]. rewrite Hz. cbn. destruct n eqn:Hn; [by cbn|nia]. }
  destruct (get_row_spec (E:=Empty_set) (state_terminals b) i) as (right_bits & _ & Hrightl & Hright).
  { rewrite (bo_states _ Hb). apply lookup_lt_Some in Hs. nia. }
  destruct (words_conflict_spec b is_keyword (bool_decide (word_token g = Some x)) 0 row right_bits Hb) as (c & Hc & Hcf); [by rewrite Hrowl|done|].
  exists c. split.
  { intros E. rewrite Hie. cbn [mbind outcome_bind]. rewrite Hkw. cbn [mbind outcome_bind]. unfold get_conflict_row, get_state_row. rewrite (bo_words _ Hb), Hid.
    destruct (get_row_spec (E:=E) (cb_conflict_rows b) (N.to_nat (index x))) as (row' & -> & Hrowl' & Hrow').
    { rewrite (bo_rows _ Hb). destruct Hkind as [[_ Hlt]|[_ Hz]]; [nia|]. rewrite Hz. cbn. destruct n eqn:Hn; [by cbn|nia]. }
    destruct (get_row_spec (E:=E) (state_terminals b) i) as (right' & -> & Hrightl' & Hright').
    { rewrite (bo_states _ Hb). apply lookup_lt_Some in Hs. nia. }
    cbn [mbind outcome_bind]. rewrite <- (Hc E). f_equal; apply (list_eq_same_length _ _ rw); try done; intros w y z Hw Hy Hz; (rewrite Hrow', Hrow in * || rewrite Hright', Hright in * ); done || congruence. }
  intros Hc0. split_and!; [done|done|]. right. split.
  { intros Ht e y He Hy Heq. destruct Hkind as [[_ Hlt]|[Hend _]]; [|congruence].
    assert (fbit (internal_external b) (N.to_nat (index x)) = true) as Htrue by (apply (bo_external_bit _ Hb); [done|]; exists e, y; by rewrite Heq).
    rewrite Hief in Htrue by done. done. }
  intros j Hj Hterm Hdc. assert (N.to_nat (index x) < n) as Hxn by (destruct Hkind as [[_ ?]|[_ ->]]; lia).
  rewrite (bo_row_bit _ Hb _ _ Hxn Hj) in Hdc. injection Hdc as Hdc.
  apply (bo_state_bit _ Hb i s j Hs Hj) in Hterm. unfold row_bit, fbit in Hdc, Hterm. rewrite row_index_div in Hdc, Hterm.
  assert (∀ a, Nat.modulo (row_index rw a j) 64 = Nat.modulo j 64) as Hmod by (intros a; unfold row_index; by rewrite Nat.add_comm, Nat.Div0.mod_add).
  rewrite Hmod in Hdc, Hterm. pose proof (word_lt j Hj) as Hw. rewrite <- Hrow in Hdc by done. rewrite <- Hright in Hterm by done.
  destruct (row !! Nat.div j 64) as [row_word|] eqn:Hrw; [|change (N.testbit 0%N (N.of_nat (Nat.modulo j 64)) = true) in Hdc; by rewrite N.bits_0 in Hdc].
  change (N.testbit row_word (N.of_nat (Nat.modulo j 64)) = true) in Hdc.
  assert (Nat.div j 64 * 64 + Nat.modulo j 64 = j) as Hjj by (pose proof (Nat.div_mod_eq j 64); lia).
  destruct (Hcf Hc0 (Nat.div j 64) (Nat.modulo j 64) row_word Hrw) as [(Hk & w & Hword & Hwi)|[Hword Hkb]]; [by apply Nat.mod_upper_bound|done|done| |].
  - left. exists w. rewrite Nat.add_0_l, Hjj in Hwi. split_and!; [done| |done]. apply elem_of_toks; [apply (tk_keywords Hok)|]. split; [done|].
    unfold is_keyword in Hk. by rewrite Hword in Hk.
  - right. apply bool_decide_eq_true in Hword. split; [done|]. rewrite Nat.add_0_l, Hjj in Hkb. by apply (bo_keyword_bit _ Hb).
Qed.
End bits.
