(* ===== verification/MinimizeGroups.v ===== *)
(** * [build_tables/minimize_parse_table.rs]: the groups of compatible states

    Both tests of a pair of states return, and tell what the states that stay in a
    group share: the actions of their common entries, lexically compatible tokens,
    and, once the partition is stable, the groups of their successors. *)
From S2P Require Import Prelude BitVec Symbols TokenSet Ordering CharSet Nfa Dedup Grammars Tables TokenConflicts Minimize MinimizeStates MinimizeConflicts.

Section groups.
Context (t : ParseTable N) (g : SyntaxGrammar) (lg : LexicalGrammar) (conflicts : TokenConflictMap) (keywords : TokenSet).
Notation states := (pt_states t).
Notation p := (action_lists t).

(** What the parse table builder guarantees. *)
Record mergeable : Prop := {
  mg_table : table_ok t;
  mg_tokens : tokens_ok states g lg conflicts keywords;
  mg_id : ∀ i s, states !! i = Some s → N.to_nat (ps_id s) = i;
  mg_nonterminals : ∀ s k, s ∈ states → k ∈ (nonterminal_entries s).*1 → kind k = NonTerminal;
  mg_shift_last : ∀ s k id l j x r, s ∈ states → (k, id) ∈ terminal_entries s → holds p id l → l !! j = Some (Shift x r) → S j = length l;
  mg_core_max : ∀ s, s ∈ states → (core_id s + 1 < U32)%N;
  mg_cores : ∀ s c, s ∈ states → (c ≤ core_id s)%N → ∃ s', s' ∈ states ∧ core_id s' = c;
  mg_error : ∃ s, states !! 0 = Some s ∧ core_id s = 0%N;
  mg_start : ∃ s, states !! 1 = Some s ∧ core_id s = 1%N;
}.
Context (Hm : mergeable).

Lemma mg_state s : s ∈ states → state_ok p (length states) s.
Proof. apply (to_states _ (mg_table Hm)). Qed.
Lemma mg_key s k : s ∈ states → k ∈ (terminal_entries s).*1 → (index k < U32)%N.
Proof. intros Hs Hk. destruct (tk_keys _ _ _ _ _ (mg_tokens Hm) s k Hs Hk) as [_ ?]. lia. Qed.
Lemma elem_of_keys {V} (k : Symbol) (v : V) l : (k, v) ∈ l → k ∈ l.*1.
Proof. intros Hin. apply list_elem_of_fmap. by exists (k, v). Qed.
Lemma elem_of_vals {V} (k : Symbol) (l : list (Symbol * V)) : k ∈ l.*1 → ∃ v, (k, v) ∈ l.
Proof. intros ([k' v] & -> & Hin)%list_elem_of_fmap. by exists v. Qed.

(** ** The sorted maps *)
Lemma entry_map_elem s key id : (key, id) ∈ entry_map s ↔ ∃ k, key = key_new k ∧ (k, id) ∈ terminal_entries s.
Proof.
  unfold entry_map. rewrite by_key_perm, elem_of_map. split.
  - intros ([k id'] & [= -> ->] & Hin). by exists k.
  - intros (k & -> & Hin). by exists (k, id).
Qed.
Lemma entry_map_sorted s : s ∈ states → keys_lt (entry_map s).
Proof.
  intros Hs. apply by_key_sorted. destruct (so_keys _ _ _ (mg_state s Hs)) as [Hnd _].
  assert ((map (λ e, (key_new e.1, e.2)) (terminal_entries s)).*1 = key_new <$> (terminal_entries s).*1) as ->.
  { generalize (terminal_entries s). intros l. induction l as [|e l IH]; cbn; [done|]. by rewrite IH. }
  apply NoDup_fmap_2_strong; [|done]. intros a b Ha Hb. apply key_new_inj; by apply (mg_key s).
Qed.
Lemma nonterminal_map_elem s i x : s ∈ states → (i, x) ∈ nonterminal_map s ↔ (mkSymbol NonTerminal i, x) ∈ nonterminal_entries s.
Proof.
  intros Hs. unfold nonterminal_map. rewrite by_key_perm, elem_of_map. split.
  - intros ([k x'] & [= -> ->] & Hin). pose proof (mg_nonterminals Hm s k Hs (elem_of_keys _ _ _ Hin)) as Hk. destruct k; cbn in *. by subst.
  - intros Hin. by exists (mkSymbol NonTerminal i, x).
Qed.
Lemma nonterminal_map_sorted s : s ∈ states → keys_lt (nonterminal_map s).
Proof.
  intros Hs. apply by_key_sorted. destruct (so_keys _ _ _ (mg_state s Hs)) as [_ Hnd].
  assert ((map (λ e, (index e.1, e.2)) (nonterminal_entries s)).*1 = index <$> (nonterminal_entries s).*1) as ->.
  { generalize (nonterminal_entries s). intros l. induction l as [|e l IH]; cbn; [done|]. by rewrite IH. }
  apply NoDup_fmap_2_strong; [|done]. intros [ka ia] [kb ib] Ha Hb Hab. apply (mg_nonterminals Hm s) in Ha, Hb; [|done..]. cbn in *. by subst.
Qed.
(** The target of the shift of an entry. *)
Definition shift_of (s : ParseState N) (k : Symbol) (x : ParseStateId) : Prop :=
  ∃ id l r, (k, id) ∈ terminal_entries s ∧ holds p id l ∧ last l = Some (Shift x r).
Lemma shift_of_refers s k x : shift_of s k x → refers p s x.
Proof. intros (id & l & r & Hin & Hl & Hlast). left. exists k, id, l, r. split_and!; [done|done|]. by apply last_Some_elem_of. Qed.
Lemma shifts_spec entries : (∀ k id, (k, id) ∈ entries → ∃ l, holds p id l) → NoDup entries.*1 → (∀ k, k ∈ entries.*1 → (index k < U32)%N) →
  ∃ l, (∀ E, shifts (E:=E) p entries = Ok l) ∧ NoDup l.*1 ∧
    ∀ key x, (key, x) ∈ l ↔ ∃ k id a r, key = key_new k ∧ (k, id) ∈ entries ∧ holds p id a ∧ last a = Some (Shift x r).
Proof.
  induction entries as [|[k id] entries IH]; intros Hh Hnd Hi; cbn [shifts].
  { exists []. split; [done|]. split; [constructor|]. intros key x. split; [by intros ?%not_elem_of_nil|]. by intros (k & id & a & r & _ & ?%not_elem_of_nil & _). }
  apply NoDup_cons in Hnd as [Hk Hnd]. destruct IH as (rest & Hrest & Hndr & Hiff).
  { intros k' id' Hin. apply (Hh k'). by apply list_elem_of_further. } { done. } { intros k' Hk'. apply Hi. by apply list_elem_of_further. }
  destruct (Hh k id (list_elem_of_here _ _)) as [a Ha].
  exists (match last a with Some (Shift x _) => (key_new k, x) :: rest | _ => rest end). split.
  { intros E. rewrite (Ha E). cbn. by rewrite Hrest. }
  assert (key_new k ∉ rest.*1) as Hkr.
  { intros ([key x] & Heq & Hin)%list_elem_of_fmap. cbn in Heq. subst. apply Hiff in Hin as (k' & id' & a' & r & Heq & Hin & _).
    apply key_new_inj in Heq as ->; [by destruct Hk; eapply elem_of_keys|apply Hi, list_elem_of_here|]. apply Hi, list_elem_of_further. by eapply elem_of_keys. }
  assert (∀ key x, (∃ k' id' a' r, key = key_new k' ∧ (k', id') ∈ (k, id) :: entries ∧ holds p id' a' ∧ last a' = Some (Shift x r)) ↔
    (key = key_new k ∧ ∃ r, last a = Some (Shift x r)) ∨ (key, x) ∈ rest) as Hsplit.
  { intros key x. rewrite Hiff. split.
    - intros (k' & id' & a' & r & -> & [[= -> ->]|Hin]%elem_of_cons & Ha' & Hl); [|right; by exists k', id', a', r].
      left. split; [done|]. exists r. by rewrite (holds_fun _ _ _ _ Ha Ha').
    - intros [[-> [r Hl]]|(k' & id' & a' & r & -> & Hin & Ha' & Hl)].
      + exists k, id, a, r. split_and!; [done|by apply list_elem_of_here|done|done].
      + exists k', id', a', r. split_and!; [done|by apply list_elem_of_further|done|done]. }
  destruct (last a) as [[|x r| | |]|] eqn:Hla; try (split; [done|]; intros key y; rewrite Hsplit; naive_solver).
  split; [cbn; by constructor|]. intros key y. rewrite Hsplit, elem_of_cons. naive_solver.
Qed.
Lemma shift_map_spec s : s ∈ states → ∃ m, (∀ E, shift_map (E:=E) p s = Ok m) ∧ keys_lt m ∧
  ∀ key x, (key, x) ∈ m ↔ ∃ k, key = key_new k ∧ shift_of s k x.
Proof.
  intros Hs. destruct (mg_state s Hs) as [[Hnd _] Hh _]. destruct (shifts_spec (terminal_entries s) Hh Hnd) as (l & Hl & Hndl & Hiff); [intros k; by apply mg_key|].
  exists (by_key l). split; [intros E; unfold shift_map; by rewrite Hl|]. split; [by apply by_key_sorted|].
  intros key x. rewrite by_key_perm, Hiff. unfold shift_of. naive_solver.
Qed.

(** ** States that conflict *)
Notation may_add := (may_add g lg conflicts keywords).
(** States whose entries for a token have the same actions, and that may get each
    other's tokens. *)
Definition compatible (s1 s2 : ParseState N) : Prop :=
  (∀ k id1 id2, (k, id1) ∈ terminal_entries s1 → (k, id2) ∈ terminal_entries s2 → entries_agree p id1 id2) ∧
  (∀ k, k ∈ (terminal_entries s1).*1 → k ∉ (terminal_entries s2).*1 → may_add k s2) ∧
  ∀ k, k ∈ (terminal_entries s2).*1 → k ∉ (terminal_entries s1).*1 → may_add k s1.
Lemma compatible_sym s1 s2 : compatible s1 s2 → compatible s2 s1.
Proof. intros (H1 & H2 & H3). split_and!; [|done|done]. intros k id1 id2 Hk1 Hk2. apply entries_agree_sym. by apply (H1 k). Qed.

Lemma entry_map_keys s key : key ∈ (entry_map s).*1 ↔ ∃ k, key = key_new k ∧ k ∈ (terminal_entries s).*1.
Proof.
  rewrite list_elem_of_fmap. split.
  - intros ([key' id] & -> & (k & -> & Hin)%entry_map_elem). exists k. split; [done|by eapply elem_of_keys].
  - intros (k & -> & [id Hin]%elem_of_vals). exists (key_new k, id). split; [done|]. apply entry_map_elem. by exists k.
Qed.
Lemma entry_maps_get {E : Type} i s : states !! i = Some s → vec_get (E:=E) (map entry_map states) (N.to_nat (ps_id s)) = Ok (entry_map s).
Proof. intros Hi. rewrite (mg_id Hm i s Hi). apply vec_get_Some. by rewrite list_lookup_fmap, Hi. Qed.
Lemma states_conflict_spec b s1 s2 ids :
  bits_ok states g lg conflicts keywords b → s1 ∈ states → s2 ∈ states → length ids = length states →
  ∃ c, (∀ E, states_conflict p g keywords (map entry_map states) b E s1 s2 ids = Ok c) ∧ (c = false → compatible s1 s2).
Proof.
  intros Hb H1 H2 Hids. pose proof H1 as [i1 Hi1]%list_elem_of_lookup. pose proof H2 as [i2 Hi2]%list_elem_of_lookup.
  assert (∀ s i, states !! i = Some s → s ∈ states → ∀ s', s' ∈ states → ∀ key id, (key, id) ∈ entry_map s' →
    ∃ c, (∀ E, token_conflicts (E:=E) g keywords b s (key_symbol key) = Ok c) ∧ (c = false → may_add (key_symbol key) s)) as Htok.
  { intros s i Hi Hs s' Hs' key id (k & -> & Hin%elem_of_keys)%entry_map_elem. rewrite key_symbol_new by by eapply mg_key.
    eapply (token_conflicts_spec states g lg conflicts keywords (mg_tokens Hm) b k i s Hb); [|done|by apply (mg_id Hm)].
    by apply (tk_keys _ _ _ _ _ (mg_tokens Hm) s'). }
  destruct (states_loop_spec p g keywords ids b s1 s2 (entries_agree p) (λ key, may_add (key_symbol key) s2) (λ key, may_add (key_symbol key) s1)
    (entry_map s1) (entry_map s2)) as (c & Hc & Hcf); [by apply entry_map_sorted|by apply entry_map_sorted| |by apply (Htok s2 i2)|by apply (Htok s1 i1)|].
  { intros key id1 id2 (k1 & -> & Hin1)%entry_map_elem (k2 & _ & Hin2)%entry_map_elem.
    destruct (so_ids _ _ _ (mg_state s1 H1) k1 id1 Hin1) as [l1 Hl1]. destruct (so_ids _ _ _ (mg_state s2 H2) k2 id2 Hin2) as [l2 Hl2].
    apply (entries_conflict_spec p (length states) ids id1 id2 l1 l2); [apply (to_pool _ (mg_table Hm))|done|done|done|].
    intros x r [Hx|Hx]%elem_of_app; [eapply (so_refs _ _ _ (mg_state s1 H1))|eapply (so_refs _ _ _ (mg_state s2 H2))]; left; eauto 8. }
  exists c. split.
  { intros E. unfold states_conflict. rewrite (entry_maps_get i1 s1 Hi1). cbn [mbind outcome_bind]. rewrite (entry_maps_get i2 s2 Hi2). cbn [mbind outcome_bind]. apply Hc. }
  intros Hc0. destruct (Hcf Hc0) as (C1 & C2 & C3). split_and!.
  - intros k id1 id2 Hk1 Hk2. apply (C1 (key_new k)); apply entry_map_elem; eauto.
  - intros k Hk Hn. rewrite <- (key_symbol_new k) by by eapply (mg_key s1). apply C2; [apply entry_map_keys; eauto|].
    intros (k' & Heq & Hk')%entry_map_keys. apply key_new_inj in Heq as ->; [done|by eapply (mg_key s1)|by eapply (mg_key s2)].
  - intros k Hk Hn. rewrite <- (key_symbol_new k) by by eapply (mg_key s2). apply C3; [apply entry_map_keys; eauto|].
    intros (k' & Heq & Hk')%entry_map_keys. apply key_new_inj in Heq as ->; [done|by eapply (mg_key s2)|by eapply (mg_key s1)].
Qed.

(** ** States whose successors differ *)
Definition goto_agrees (ids : list N) (a b : GotoAction) : Prop :=
  match a, b with GShiftExtra, GShiftExtra => True | Goto x, Goto y => ids !! N.to_nat x = ids !! N.to_nat y | _, _ => False end.
(** The successors of both states for a symbol are in a group. *)
Definition successors_agree (ids : list N) (s1 s2 : ParseState N) : Prop :=
  (∀ k x y, shift_of s1 k x → shift_of s2 k y → ids !! N.to_nat x = ids !! N.to_nat y) ∧
  ∀ k a b, (k, a) ∈ nonterminal_entries s1 → (k, b) ∈ nonterminal_entries s2 → goto_agrees ids a b.
Lemma goto_agrees_sym ids a b : goto_agrees ids a b → goto_agrees ids b a.
Proof. by destruct a, b. Qed.
Lemma successors_agree_sym ids s1 s2 : successors_agree ids s1 s2 → successors_agree ids s2 s1.
Proof. intros [H1 H2]. split; [intros k x y ? ?; symmetry; by eapply H1|]. intros k a b ? ?. apply goto_agrees_sym. by eapply H2. Qed.
Lemma groups_differ_spec ids x y : N.to_nat x < length ids → N.to_nat y < length ids →
  ∃ b, (∀ E, groups_differ (E:=E) ids x y = Ok b) ∧ (b = false ↔ ids !! N.to_nat x = ids !! N.to_nat y).
Proof.
  intros [gx Hx]%lookup_lt_is_Some_2 [gy Hy]%lookup_lt_is_Some_2. exists (negb (gx =? gy)%N). split.
  - intros E. unfold groups_differ, id_at. rewrite (vec_get_Some _ _ _ Hx). cbn. by rewrite (vec_get_Some _ _ _ Hy).
  - rewrite Hx, Hy, negb_false_iff, N.eqb_eq. split; congruence.
Qed.
Lemma nonterminal_maps_get {E : Type} i s : states !! i = Some s → vec_get (E:=E) (map nonterminal_map states) (N.to_nat (ps_id s)) = Ok (nonterminal_map s).
Proof. intros Hi. rewrite (mg_id Hm i s Hi). apply vec_get_Some. by rewrite list_lookup_fmap, Hi. Qed.
Definition shift_maps_ok (maps : list (list (SymbolKey * ParseStateId))) : Prop :=
  ∀ i s, states !! i = Some s → ∃ m, maps !! i = Some m ∧ shift_map (E:=Empty_set) p s = Ok m.
Lemma state_successors_spec maps s1 s2 ids :
  shift_maps_ok maps → s1 ∈ states → s2 ∈ states → length ids = length states →
  ∃ c, (∀ E, state_successors_differ maps (map nonterminal_map states) E s1 s2 ids = Ok c) ∧ (c = false ↔ successors_agree ids s1 s2).
Proof.
  intros Hmaps H1 H2 Hids. pose proof H1 as [i1 Hi1]%list_elem_of_lookup. pose proof H2 as [i2 Hi2]%list_elem_of_lookup.
  destruct (Hmaps i1 s1 Hi1) as (m1 & Hm1 & Hs1). destruct (Hmaps i2 s2 Hi2) as (m2 & Hm2 & Hs2).
  destruct (shift_map_spec s1 H1) as (m1' & Hm1' & Hlt1 & Hiff1). rewrite Hm1' in Hs1. injection Hs1 as ->.
  destruct (shift_map_spec s2 H2) as (m2' & Hm2' & Hlt2 & Hiff2). rewrite Hm2' in Hs2. injection Hs2 as ->.
  assert (∀ s x, s ∈ states → refers p s x → N.to_nat x < length ids) as Href by (intros s x Hs Hx; rewrite Hids; by apply (so_refs _ _ _ (mg_state s Hs))).
  destruct (join_differ_spec (λ E, groups_differ (E:=E) ids) (λ x y, ids !! N.to_nat x = ids !! N.to_nat y) m1 m2 Hlt1 Hlt2) as (b & Hb & Hbf).
  { intros key x y (k1 & -> & Hx)%Hiff1 (k2 & _ & Hy)%Hiff2. apply groups_differ_spec; [apply (Href s1)|apply (Href s2)]; by try eapply shift_of_refers. }
  destruct (join_differ_spec (λ E, gotos_differ (E:=E) ids) (goto_agrees ids) (nonterminal_map s1) (nonterminal_map s2)) as (c & Hc & Hcf);
    [by apply nonterminal_map_sorted|by apply nonterminal_map_sorted| |].
  { intros i x y Hx%nonterminal_map_elem Hy%nonterminal_map_elem; [|done..]. destruct x as [x|], y as [y|]; cbn.
    - apply groups_differ_spec; [apply (Href s1)|apply (Href s2)]; try done; right; eauto.
    - by exists true.
    - by exists true.
    - by exists false. }
  exists (b || c). split.
  { intros E. unfold state_successors_differ. rewrite (mg_id Hm _ _ Hi1), (mg_id Hm _ _ Hi2), (vec_get_Some _ _ _ Hm1). cbn [mbind outcome_bind].
    rewrite (vec_get_Some _ _ _ Hm2). cbn [mbind outcome_bind]. rewrite (Hb E). cbn [mbind outcome_bind]. destruct b; [done|].
    rewrite (vec_get_Some _ i1 (nonterminal_map s1)) by by rewrite list_lookup_fmap, Hi1. cbn [mbind outcome_bind].
    rewrite (vec_get_Some _ i2 (nonterminal_map s2)) by by rewrite list_lookup_fmap, Hi2. cbn [mbind outcome_bind]. apply Hc. }
  rewrite orb_false_iff, Hbf, Hcf. unfold successors_agree. split; intros [A1 A2]; (split; [|]).
  - intros k x y Hx Hy. apply (A1 (key_new k)); [apply Hiff1|apply Hiff2]; eauto.
  - intros k a b' Ha Hb'. pose proof (mg_nonterminals Hm s1 k H1 (elem_of_keys _ _ _ Ha)) as Hk. destruct k as [k i]. cbn in Hk. subst.
    apply (A2 i); by apply nonterminal_map_elem.
  - intros key x y (k1 & -> & Hx)%Hiff1 (k2 & Heq & Hy)%Hiff2. destruct Hx as (id1 & l1 & r1 & E1 & Hx), Hy as (id2 & l2 & r2 & E2 & Hy).
    apply key_new_inj in Heq as <-; [|eapply (mg_key s1); [done|by eapply elem_of_keys]|eapply (mg_key s2); [done|by eapply elem_of_keys]].
    apply (A1 k1); [by exists id1, l1, r1|by exists id2, l2, r2].
  - intros i x y Hx%nonterminal_map_elem Hy%nonterminal_map_elem; [|done..]. by eapply A2.
Qed.
End groups.
