(* ===== verification/MinimizeMerge.v ===== *)
(** * [build_tables/minimize_parse_table.rs]: merging states

    The states of a group become one state, which does what each of them did. *)
From S2P Require Import Prelude BitVec Symbols TokenSet Ordering CharSet Nfa Dedup Grammars Tables TokenConflicts LexMinimize Minimize MinimizeStates MinimizeConflicts MinimizeGroups.

(** ** Extending index maps *)
Lemma extend_spec {V} (m o : list (Symbol * V)) : NoDup m.*1 →
  NoDup (extend m o).*1 ∧ (∀ e, e ∈ extend m o → e ∈ m ∨ e ∈ o) ∧ ∀ k, k ∈ (extend m o).*1 ↔ k ∈ m.*1 ∨ k ∈ o.*1.
Proof.
  unfold extend. revert m. induction o as [|[k v] o IH]; intros m Hnd; cbn [foldl].
  - split; [done|]. split; [by left|]. intros k. cbn. rewrite elem_of_nil. tauto.
  - destruct (IH (im_insert k v m)) as (H1 & H2 & H3); [by apply im_insert_nodup|]. split; [done|]. split.
    + intros e [He|He]%H2; [|right; by apply list_elem_of_further]. apply im_insert_elem in He as [->|He]; [right; apply list_elem_of_here|by left].
    + intros x. rewrite H3, im_insert_keys. cbn. rewrite elem_of_cons. tauto.
Qed.

(** ** Absorbing a state *)
(** State [s] collects the entries of [members]; the reserved words of several
    states lose the tokens that have entries. *)
Record collects (members : list (ParseState N)) (s : ParseState N) : Prop := {
  co_keys : keys_ok s;
  co_terminal : ∀ e, e ∈ terminal_entries s → ∃ m, m ∈ members ∧ e ∈ terminal_entries m;
  co_terminals : ∀ k, k ∈ (terminal_entries s).*1 ↔ ∃ m, m ∈ members ∧ k ∈ (terminal_entries m).*1;
  co_goto : ∀ e, e ∈ nonterminal_entries s → ∃ m, m ∈ members ∧ e ∈ nonterminal_entries m;
  co_gotos : ∀ k, k ∈ (nonterminal_entries s).*1 ↔ ∃ m, m ∈ members ∧ k ∈ (nonterminal_entries m).*1;
  co_wf : TokenSet.wf (Tables.reserved_words s);
  co_reserved : ∀ x, x ∈ toks (Tables.reserved_words s) ↔
    (∃ m, m ∈ members ∧ x ∈ toks (Tables.reserved_words m)) ∧ (length members = 1 ∨ x ∉ (terminal_entries s).*1);
  co_eof : has_eof_gated_reduce s = existsb has_eof_gated_reduce members;
}.
Lemma collects_one s : keys_ok s → TokenSet.wf (Tables.reserved_words s) → collects [s] s.
Proof.
  intros Hk Hw. split; [done| | | | |done| |by cbn; rewrite orb_false_r]; setoid_rewrite list_elem_of_singleton; [naive_solver..|].
  intros x. cbn. naive_solver.
Qed.
Lemma remove_all_spec {E : Type} r l : TokenSet.wf r → (∀ x, x ∈ l → TokenSet.token x) →
  ∃ r', for_each (λ r symbol, '(_, r) ← TokenSet.remove (E:=E) r symbol; Ok r) r l = Ok r' ∧ TokenSet.wf r' ∧
    ∀ x, x ∈ toks r' ↔ x ∈ toks r ∧ x ∉ l.
Proof.
  intros Hw Hl. apply (for_each_inv _ (λ d r', TokenSet.wf r' ∧ ∀ x, x ∈ toks r' ↔ x ∈ toks r ∧ x ∉ d)).
  - split; [done|]. intros x. rewrite elem_of_nil. tauto.
  - intros d x rest r' -> [Hw' Hr']. destruct (TokenSet.remove_spec (E:=E) r' x Hw') as (r2 & -> & Hw2 & Ht2); [apply Hl; set_solver|].
    cbn. eexists. split; [done|]. split; [done|]. intros y. rewrite Ht2. set_solver.
Qed.
Lemma absorb_spec {E : Type} members s m :
  members ≠ [] → collects members s → keys_ok m → TokenSet.wf (Tables.reserved_words m) →
  (∀ m' x, m' ∈ m :: members → x ∈ (terminal_entries m').*1 → TokenSet.token x) →
  ∃ s', absorb (E:=E) s m = Ok s' ∧ collects (members ++ [m]) s'.
Proof.
  intros Hne [[K1 K2] T1 T2 G1 G2 W R F] [M1 M2] Wm Htok. unfold absorb.
  destruct (extend_spec (terminal_entries s) (terminal_entries m) K1) as (A1 & A2 & A3).
  destruct (extend_spec (nonterminal_entries s) (nonterminal_entries m) K2) as (B1 & B2 & B3).
  destruct (TokenSet.insert_all _ _) as [changed res] eqn:Hall. apply toks_insert_all_spec in Hall as (Wr & Hr & _); [|done..].
  assert (∀ P : ParseState N → Prop, (∃ m', m' ∈ members ++ [m] ∧ P m') ↔ (∃ m', m' ∈ members ∧ P m') ∨ P m) as Hex.
  { intros P. setoid_rewrite elem_of_app. setoid_rewrite list_elem_of_singleton. naive_solver. }
  destruct (remove_all_spec (E:=E) res (extend (terminal_entries s) (terminal_entries m)).*1 Wr) as (res' & -> & Wr' & Hr').
  { intros x [(m' & Hm' & Hx)%T2|Hx]%A3; [apply (Htok m'); [by apply list_elem_of_further|done]|apply (Htok m); [apply list_elem_of_here|done]]. }
  cbn [mbind outcome_bind]. eexists. split; [done|].
  assert (∀ k, k ∈ (extend (terminal_entries s) (terminal_entries m)).*1 ↔ ∃ m', m' ∈ members ++ [m] ∧ k ∈ (terminal_entries m').*1) as Hkeys.
  { intros k. by rewrite A3, T2, Hex. }
  split; cbn [terminal_entries nonterminal_entries Tables.reserved_words has_eof_gated_reduce]; [done| |done| | |done| |].
  - intros e [He|He]%A2; apply Hex; [left; by apply T1|by right].
  - intros e [He|He]%B2; apply Hex; [left; by apply G1|by right].
  - intros k. by rewrite B3, G2, Hex.
  - intros x. rewrite Hr', Hr, elem_of_union, R, Hex. assert (length (members ++ [m]) ≠ 1) as Hl by (destruct members; [done|rewrite length_app; cbn; lia]).
    split.
    + intros [[[? _]|?] Hx]; auto.
    + intros [Hx [?|Hn]]; [done|]. split; [|done]. destruct Hx as [Hx|Hx]; [|by right]. left. split; [done|]. right. intros Hk. apply Hn, A3. by left.
  - rewrite existsb_app, F. cbn. by rewrite orb_false_r.
Qed.

(** ** Grouping by cores *)
Lemma concat_insert_perm {A} (G : list (list A)) c l x : G !! c = Some l → concat (<[c := l ++ [x]]> G) ≡ₚ concat G ++ [x].
Proof.
  intros Hc. rewrite insert_take_drop by by eapply lookup_lt_Some. rewrite <- (take_drop_middle G c l Hc) at 3.
  rewrite !concat_app. cbn. rewrite <- !(assoc_L (++)). do 2 f_equiv. apply Permutation_app_comm.
Qed.
Definition cores_of (d : list (nat * ParseState N)) (c : nat) : list N := map (λ e, as_u32 e.1) (filter (λ e, core_id e.2 = N.of_nat c) d).
Lemma core_max_spec (states : list (ParseState N)) s0 :
  let m := foldl (λ m s, N.max m (core_id s)) (core_id s0) states in
  (∀ s, s ∈ s0 :: states → (core_id s ≤ m)%N) ∧ ∃ s, s ∈ s0 :: states ∧ core_id s = m.
Proof.
  assert (∀ states m0, let m := foldl (λ m s, N.max m (core_id s)) m0 states in
    (m0 ≤ m)%N ∧ (∀ s, s ∈ states → (core_id s ≤ m)%N) ∧ (m = m0 ∨ ∃ s : ParseState N, s ∈ states ∧ core_id s = m)) as Hgen.
  { clear. intros states. induction states as [|s states IH]; intros m0; cbn.
    - split; [lia|]. split; [by intros s ?%not_elem_of_nil|by left].
    - destruct (IH (N.max m0 (core_id s))) as (H1 & H2 & H3). split; [lia|]. split.
      + intros x [->|Hx]%elem_of_cons; [lia|by apply H2].
      + destruct H3 as [H3|(x & Hx & H3)]; [|right; exists x; split; [by apply list_elem_of_further|done]].
        rewrite H3. destruct (N.max_spec m0 (core_id s)) as [[_ ->]|[_ ->]]; [right; exists s; split; [apply list_elem_of_here|done]|by left]. }
  destruct (Hgen states (core_id s0)) as (H1 & H2 & H3). cbn. split.
  - intros s [->|Hs]%elem_of_cons; [done|by apply H2].
  - destruct H3 as [H3|(x & Hx & H3)]; [exists s0; split; [apply list_elem_of_here|done]|exists x; split; [by apply list_elem_of_further|done]].
Qed.

Section merge.
Context (t : ParseTable N) (g : SyntaxGrammar) (lg : LexicalGrammar) (conflicts : TokenConflictMap) (keywords : TokenSet).
Notation states := (pt_states t).
Notation p := (action_lists t).
Context (Hm : mergeable t g lg conflicts keywords).

Lemma state_at_lookup i s : states !! i = Some s → state_at states i = s.
Proof. intros Hi. unfold state_at. by rewrite Hi. Qed.
Lemma cores_of_snoc d i s c : cores_of (d ++ [(i, s)]) c = cores_of d c ++ (if decide (core_id s = N.of_nat c) then [as_u32 i] else []).
Proof. unfold cores_of. rewrite filter_app, filter_cons, filter_nil. cbn [snd]. case_decide; by rewrite map_app. Qed.
Lemma cores_lookup d cnt c : c < cnt → map (cores_of d) (seq 0 cnt) !! c = Some (cores_of d c).
Proof. intros Hc. by rewrite list_lookup_fmap, lookup_seq_lt. Qed.
Lemma cores_step d i s cnt : N.to_nat (core_id s) < cnt →
  <[N.to_nat (core_id s) := cores_of d (N.to_nat (core_id s)) ++ [as_u32 i]]> (map (cores_of d) (seq 0 cnt)) = map (cores_of (d ++ [(i, s)])) (seq 0 cnt).
Proof.
  intros Hc. apply (list_eq_same_length _ _ cnt); [by rewrite length_map, length_seq|by rewrite length_insert, length_map, length_seq|].
  intros c x y Hlt. rewrite (cores_lookup _ _ _ Hlt), cores_of_snoc. destruct (decide (c = N.to_nat (core_id s))) as [->|Hne].
  - rewrite list_lookup_insert_eq by by rewrite length_map, length_seq. rewrite decide_True by lia. congruence.
  - rewrite list_lookup_insert_ne, (cores_lookup _ _ _ Hlt) by done. rewrite decide_False, List.app_nil_r by lia. congruence.
Qed.
Lemma core_group_step {E : Type} d i s cnt : N.to_nat (core_id s) < cnt → concat (map (cores_of d) (seq 0 cnt)) ≡ₚ map (λ e, as_u32 e.1) d →
  (l ← vec_get (E:=E) (map (cores_of d) (seq 0 cnt)) (N.to_nat (core_id s)); vec_set (map (cores_of d) (seq 0 cnt)) (N.to_nat (core_id s)) (l ++ [as_u32 i]))
    = Ok (map (cores_of (d ++ [(i, s)])) (seq 0 cnt)) ∧
  concat (map (cores_of (d ++ [(i, s)])) (seq 0 cnt)) ≡ₚ map (λ e, as_u32 e.1) (d ++ [(i, s)]).
Proof.
  intros Hc Hp. pose proof (cores_lookup d cnt _ Hc) as Hlook. rewrite (vec_get_Some _ _ _ Hlook). cbn [mbind outcome_bind].
  rewrite vec_set_lt by by rewrite length_map, length_seq. rewrite cores_step by done. split; [done|].
  rewrite <- cores_step by done. rewrite (concat_insert_perm _ _ _ _ Hlook), Hp, map_app. done.
Qed.
Lemma list_lookup_map {A B} (f : A → B) l i : map f l !! i = f <$> l !! i.
Proof. apply list_lookup_fmap. Qed.
Lemma imap_pair_lookup {A} (l : list A) i e : imap pair l !! i = Some e ↔ e.1 = i ∧ l !! i = Some e.2.
Proof. rewrite list_lookup_imap. destruct (l !! i) as [x|]; cbn; [|naive_solver]. destruct e. cbn. naive_solver. Qed.
Lemma core_groups_spec {E : Type} : ∃ groups ids, core_groups (E:=E) states = Ok (groups, ids) ∧ part_ok states groups ids ∧ [] ∉ groups ∧
  concat groups ≡ₚ map N.of_nat (seq 0 (length states)) ∧
  (∃ l, groups !! 0 = Some (0%N :: l)) ∧ (∃ l, groups !! 1 = Some (1%N :: l)) ∧
  ∀ c l x, groups !! c = Some l → x ∈ l → ∃ s, states !! N.to_nat x = Some s ∧ core_id s = N.of_nat c.
Proof.
  destruct (mg_error _ _ _ _ _ Hm) as (s0 & Hs0 & Hc0). destruct (mg_start _ _ _ _ _ Hm) as (s1 & Hs1 & Hc1).
  pose proof (to_size _ (mg_table _ _ _ _ _ Hm)) as Hsize. unfold core_groups.
  set (cm := match states with [] => Panic | s :: states => Ok (E:=E) (foldl (λ m s, N.max m (core_id s)) (core_id s) states) end).
  assert (∃ m, cm = Ok m ∧ (∀ s, s ∈ states → (core_id s ≤ m)%N) ∧ ∃ s, s ∈ states ∧ core_id s = m) as (m & -> & Hle & (sm & Hsm & Hmax)).
  { unfold cm. destruct states as [|s l]; [done|]. destruct (core_max_spec l s) as [H1 H2]. by eexists. }
  cbn [mbind outcome_bind]. pose proof (mg_core_max _ _ _ _ _ Hm sm Hsm) as Hfit. rewrite wrap_u32_small by lia.
  set (cnt := N.to_nat (1 + m)). assert (N.of_nat cnt = 1 + m)%N as Hcnt by (unfold cnt; lia). clearbody cnt.
  assert (replicate cnt [] = map (cores_of []) (seq 0 cnt)) as ->.
  { clear. generalize 0. induction cnt as [|c IH]; intros a; cbn; [done|]. by rewrite <- IH. }
  destruct (for_each_inv (λ groups '(i, s), l ← vec_get (E:=E) groups (N.to_nat (core_id s)); vec_set groups (N.to_nat (core_id s)) (l ++ [as_u32 i]))
    (λ d groups, groups = map (cores_of d) (seq 0 cnt) ∧ concat groups ≡ₚ map (λ e, as_u32 e.1) d) (imap pair states) (map (cores_of []) (seq 0 cnt)))
    as (groups & -> & Hgroups & Hperm).
  { split; [done|]. clear. generalize 0. induction cnt as [|c IH]; intros a; [done|]. apply (IH (S a)). }
  { intros d [i s] r groups Heq [-> Hcat]. assert ((i, s) ∈ imap pair states) as Hin by (rewrite Heq; set_solver).
    apply elem_of_lookup_imap in Hin as (i' & s' & [= -> ->] & Hi).
    assert (N.to_nat (core_id s') < cnt) as Hlt by (pose proof (Hle s' ltac:(by eapply list_elem_of_lookup_2)); lia).
    destruct (core_group_step (E:=E) d i' s' cnt Hlt Hcat) as [Hstep Hp]. eexists. split; [exact Hstep|]. by split. }
  cbn [mbind outcome_bind]. eexists _, _. split; [done|].
  assert (concat groups ≡ₚ map N.of_nat (seq 0 (length states))) as Hall.
  { rewrite Hperm. enough (map (λ e, as_u32 e.1) (imap pair states) = map N.of_nat (seq 0 (length states))) as -> by done.
    apply list_eq. intros i. rewrite !list_lookup_map, list_lookup_imap.
    destruct (states !! i) as [s|] eqn:Hi; cbn.
    - rewrite lookup_seq_lt by by eapply lookup_lt_Some. cbn. unfold as_u32. rewrite wrap_u32_small; [done|]. apply lookup_lt_Some in Hi. lia.
    - by rewrite lookup_seq_ge by by apply lookup_ge_None_1. }
  assert (∀ c l x, groups !! c = Some l → x ∈ l → ∃ s, states !! N.to_nat x = Some s ∧ core_id s = N.of_nat c) as Hcore.
  { intros c l x Hl Hx. subst groups. rewrite list_lookup_fmap in Hl. destruct (seq 0 cnt !! c) as [c'|] eqn:Hseq; [|done]. cbn in Hl. injection Hl as <-.
    apply lookup_seq in Hseq as [-> Hlt]. unfold cores_of in Hx. apply elem_of_map in Hx as ([i s] & -> & Hin). apply list_elem_of_filter in Hin as [Hcs Hin].
    apply elem_of_lookup_imap in Hin as (i' & s' & [= -> ->] & Hi). exists s'. cbn in *. unfold as_u32. rewrite wrap_u32_small by (apply lookup_lt_Some in Hi; lia).
    by rewrite Nat2N.id. }
  split_and!.
  - split; [rewrite Hall; apply (NoDup_fmap_2 N.of_nat), NoDup_seq|]. split; [|split; [by rewrite length_map|]].
    + intros x. rewrite Hall. intros (i & -> & Hi)%elem_of_map. apply elem_of_seq in Hi. lia.
    + intros c l x Hl Hx. destruct (Hcore c l x Hl Hx) as (s & Hs & Hc). by rewrite list_lookup_fmap, Hs, <- Hc.
  - subst groups. intros (c & Hc & Hin)%elem_of_map. apply elem_of_seq in Hin.
    destruct (mg_cores _ _ _ _ _ Hm sm (N.of_nat c) Hsm) as (s & [i Hi]%list_elem_of_lookup & Hcs); [lia|].
    assert (as_u32 i ∈ cores_of (imap pair states) c) as Hx; [|rewrite <- Hc in Hx; by apply not_elem_of_nil in Hx].
    unfold cores_of. apply elem_of_map. exists (i, s). split; [done|]. apply list_elem_of_filter. split; [done|]. apply elem_of_lookup_imap. by exists i, s.
  - done.
  - subst groups. rewrite cores_lookup by lia. unfold cores_of. destruct states as [|x l]; [done|]. injection Hs0 as ->. cbn [imap].
    rewrite filter_cons, decide_True by done. by eexists.
  - assert (core_id s1 ≤ m)%N as H1 by (apply Hle; by eapply list_elem_of_lookup_2). subst groups. rewrite cores_lookup by lia. unfold cores_of.
    destruct states as [|x [|y l]]; [done..|]. injection Hs0 as ->. injection Hs1 as ->. cbn [imap].
    rewrite filter_cons, decide_False by (cbn; lia). rewrite filter_cons, decide_True by done. by eexists.
  - exact Hcore.
Qed.

(** ** Merging a group *)
Definition member (x : N) : ParseState N := state_at states (N.to_nat x).
Lemma member_lookup x : N.to_nat x < length states → states !! N.to_nat x = Some (member x).
Proof. intros [s Hs]%lookup_lt_is_Some_2. unfold member, state_at. by rewrite Hs. Qed.
Lemma member_elem x : N.to_nat x < length states → member x ∈ states.
Proof. intros Hx. by eapply list_elem_of_lookup_2, member_lookup. Qed.
Lemma state_token s x : s ∈ states → x ∈ (terminal_entries s).*1 → TokenSet.token x.
Proof. intros Hs Hx. apply (known_token_token lg), (tk_keys _ _ _ _ _ (mg_tokens _ _ _ _ _ Hm) s x Hs Hx). Qed.

Section group.
Context {E : Type} (ids : list N) (r : ParseStateId → ParseStateId).
Context (Hids : ∀ s x, s ∈ states → refers p s x → id_at (E:=E) ids x = Ok (r x)).

Lemma absorb_all_spec first rest states0 :
  NoDup (first :: rest) → length states0 = length states →
  (∀ x, x ∈ first :: rest → N.to_nat x < length states ∧ states0 !! N.to_nat x = states !! N.to_nat x) →
  ∃ s states1, for_each (absorb_next (E:=E)) (member first, <[N.to_nat first := default_state]> states0) rest = Ok (s, states1) ∧
    collects (map member (first :: rest)) s ∧ length states1 = length states ∧ ∀ i, N.of_nat i ∉ first :: rest → states1 !! i = states0 !! i.
Proof.
  intros Hnd Hlen Hl. pose proof Hnd as [Hf Hndr]%NoDup_cons.
  assert (∀ x, x ∈ first :: rest → keys_ok (member x) ∧ TokenSet.wf (Tables.reserved_words (member x))) as Hok.
  { intros x Hx. destruct (Hl x Hx) as [Hlt _]. pose proof (member_elem x Hlt) as Hin. split; [by apply (so_keys _ _ _ (mg_state _ _ _ _ _ Hm _ Hin))|].
    by apply (tk_reserved _ _ _ _ _ (mg_tokens _ _ _ _ _ Hm)). }
  destruct (for_each_inv (absorb_next (E:=E)) (λ d st, collects (map member (first :: d)) st.1 ∧ length st.2 = length states ∧
      ∀ i, N.of_nat i ∉ first :: d → st.2 !! i = states0 !! i) rest (member first, <[N.to_nat first := default_state]> states0)) as ([s states1] & -> & Hc & Hl1 & Hi).
  - destruct (Hok first (list_elem_of_here _ _)) as [? ?]. split; [by apply collects_one|]. split; [by cbn; rewrite length_insert|]. cbn.
    intros i Hi. rewrite list_lookup_insert_ne; [done|]. intros <-. apply Hi. rewrite N2Nat.id. apply list_elem_of_here.
  - intros d x r' [s st] -> (Hc & Hlst & Hi). cbn [fst snd] in *. unfold absorb_next.
    assert (x ∈ first :: d ++ x :: r') as Hx by (rewrite elem_of_cons, elem_of_app, elem_of_cons; auto).
    destruct (Hl x Hx) as [Hlt Heq]. assert (x ∉ first :: d) as Hxd.
    { intros [->|Hxd]%elem_of_cons; [apply Hf, elem_of_app; right; apply list_elem_of_here|].
      apply NoDup_app in Hndr as (_ & Hdis & _). by apply (Hdis x Hxd), list_elem_of_here. }
    rewrite (take_state_spec _ _ (member x)) by (rewrite Hi, Heq by (by rewrite N2Nat.id); by apply member_lookup). cbn [mbind outcome_bind].
    destruct (Hok x Hx) as [Hk Hw]. destruct (absorb_spec (E:=E) (map member (first :: d)) s (member x)) as (s' & -> & Hs'); [done|done|done|done| |].
    { intros m' y Hm' Hy. apply (state_token m'); [|done].
      assert (∃ z, m' = member z ∧ z ∈ first :: d ++ x :: r') as (z & -> & Hz).
      { apply elem_of_cons in Hm' as [->|(z & -> & Hz)%elem_of_map]; [by exists x|]. exists z. split; [done|].
        apply elem_of_cons in Hz as [->|Hz]; [apply list_elem_of_here|]. apply list_elem_of_further, elem_of_app. by left. }
      by apply member_elem, Hl. }
    cbn [mbind outcome_bind]. eexists. split; [done|]. cbn [fst snd]. split; [|split; [by rewrite length_insert|]].
    + replace (map member (first :: d ++ [x])) with (map member (first :: d) ++ [member x]); [done|]. cbn. by rewrite map_app.
    + intros i Hni. rewrite list_lookup_insert_ne; [apply Hi|].
      * intros Hin. apply Hni. apply elem_of_cons in Hin as [->|Hin]; [apply list_elem_of_here|]. apply list_elem_of_further, elem_of_app. by left.
      * intros <-. apply Hni. rewrite N2Nat.id. apply list_elem_of_further, elem_of_app. right. apply list_elem_of_here.
  - exists s, states1. by split_and!.
Qed.
Lemma merge_group_spec l states0 :
  l ≠ [] → NoDup l → length states0 = length states →
  (∀ x, x ∈ l → N.to_nat x < length states ∧ states0 !! N.to_nat x = states !! N.to_nat x) →
  ∃ s states1, merge_group (E:=E) ids states0 l = Ok (rename_state r s, states1) ∧
    collects (map member l) s ∧ length states1 = length states ∧ ∀ i, N.of_nat i ∉ l → states1 !! i = states0 !! i.
Proof.
  intros Hne Hnd Hlen Hl. destruct l as [|first rest]; [done|]. unfold merge_group.
  destruct (Hl first (list_elem_of_here _ _)) as [Hlt Heq].
  rewrite (take_state_spec _ _ (member first)) by (rewrite Heq; by apply member_lookup). cbn [mbind outcome_bind].
  destruct (absorb_all_spec first rest states0 Hnd Hlen Hl) as (s & states1 & -> & Hc & Hl1 & Hi). cbn [mbind outcome_bind].
  rewrite (update_gotos_spec s (λ x _, id_at ids x) r); [|apply (co_keys _ _ Hc)|].
  - cbn [mbind outcome_bind]. by exists s, states1.
  - intros k x (m & (y & -> & Hy)%elem_of_map & Hin)%(co_goto _ _ Hc). apply (Hids (member y)); [by apply member_elem, Hl|]. right. eauto.
Qed.
Lemma merge_groups_spec groups :
  [] ∉ groups → NoDup (concat groups) → in_range states (concat groups) →
  ∃ new, merge_groups (E:=E) ids groups states = Ok new ∧
    Forall2 (λ l s', ∃ s, s' = rename_state r s ∧ collects (map member l) s) groups new.
Proof.
  intros Hne Hnd Hr. unfold merge_groups.
  destruct (for_each_inv (merge_next (E:=E) ids) (λ d st, Forall2 (λ l s', ∃ s, s' = rename_state r s ∧ collects (map member l) s) d st.1 ∧
    length st.2 = length states ∧ ∀ i, N.of_nat i ∉ concat d → st.2 !! i = states !! i) groups ([], states)) as ([new st] & -> & Hf & _).
  - done.
  - intros d l r' [new st] -> (Hf & Hlst & Hi). cbn [fst snd] in *. unfold merge_next. rewrite concat_app in Hnd, Hr. cbn in Hnd, Hr.
    apply NoDup_app in Hnd as (_ & Hdis & (Hndl & _)%NoDup_app).
    destruct (merge_group_spec l st) as (s & st1 & -> & Hc & Hl1 & Hi1); [|done|done| |].
    { intros ->. apply Hne, elem_of_app. right. apply list_elem_of_here. }
    { intros x Hx. split; [apply Hr; rewrite !elem_of_app; auto|]. apply Hi. rewrite N2Nat.id. intros Hxd. apply (Hdis x Hxd), elem_of_app. by left. }
    cbn [mbind outcome_bind]. eexists. split; [done|]. cbn [fst snd]. split; [|split; [done|]].
    + apply Forall2_app; [done|]. constructor; [by exists s|constructor].
    + intros i Hni. rewrite concat_app in Hni. cbn in Hni. rewrite List.app_nil_r, elem_of_app in Hni. rewrite Hi1, Hi by tauto. done.
  - cbn. by exists new.
Qed.
End group.

(** ** The groups the refinements end with *)
Lemma swap_same {E : Type} (groups : list (list N)) i : i < length groups → swap_groups (E:=E) groups i i = Ok groups.
Proof.
  intros Hi. pose proof (lookup_lt_is_Some_2 _ _ Hi) as [l Hl]. unfold swap_groups. rewrite (vec_get_Some _ _ _ Hl). cbn [mbind outcome_bind].
  rewrite vec_set_lt by done. cbn [mbind outcome_bind]. rewrite list_insert_id by done. rewrite vec_set_lt by done. by rewrite list_insert_id.
Qed.
Lemma group_of_first {E : Type} l0 l1 groups : NoDup (concat ((0%N :: l0) :: (1%N :: l1) :: groups)) →
  group_of (E:=E) ((0%N :: l0) :: (1%N :: l1) :: groups) 0 = Ok 0 ∧ group_of (E:=E) ((0%N :: l0) :: (1%N :: l1) :: groups) 1 = Ok 1.
Proof.
  intros Hnd. unfold group_of. cbn [list_find]. split; [by rewrite decide_True by apply list_elem_of_here|].
  cbn [concat] in Hnd. apply NoDup_app in Hnd as (_ & Hdis & _). rewrite decide_False; [by rewrite decide_True by apply list_elem_of_here|].
  intros Hin. apply (Hdis 1%N Hin). apply list_elem_of_here.
Qed.
Lemma slack_states groups : [] ∉ groups → concat groups ≡ₚ map N.of_nat (seq 0 (length states)) → length groups + slack groups = length states.
Proof. intros Hne Hp. rewrite slack_sum by done. by rewrite Hp, length_map, length_seq. Qed.

Lemma conflict_splits b : bits_ok states g lg conflicts keywords b → splits states (states_conflict p g keywords (map entry_map states) b).
Proof. intros Hb sa sb ids Ha Hb' Hids. destruct (states_conflict_spec t g lg conflicts keywords Hm b sa sb ids Hb Ha Hb' Hids) as (c & Hc & _). by exists c. Qed.
Lemma successor_splits maps : shift_maps_ok t maps → splits states (state_successors_differ maps (map nonterminal_map states)).
Proof. intros Hmaps sa sb ids Ha Hb' Hids. destruct (state_successors_spec t g lg conflicts keywords Hm maps sa sb ids Hmaps Ha Hb' Hids) as (c & Hc & _). by exists c. Qed.
Definition compatible_ids (a b : N) : Prop := compatible t g lg conflicts keywords (member a) (member b).
Lemma no_clash_compatible b x y ids : bits_ok states g lg conflicts keywords b → length ids = length states → in_range states [x; y] →
  ¬ clash states (states_conflict p g keywords (map entry_map states) b) ids x y → compatible_ids x y.
Proof.
  intros Hb Hids Hr Hc. assert (N.to_nat x < length states ∧ N.to_nat y < length states) as [Hx Hy] by (split; apply Hr; set_solver).
  destruct (states_conflict_spec t g lg conflicts keywords Hm b (member x) (member y) ids Hb) as (c & Heq & Hcf); [by apply member_elem..|done|].
  apply Hcf. destruct c; [|done]. exfalso. apply Hc. exists (member x), (member y). split_and!; [by apply member_lookup..|apply Heq].
Qed.
Lemma compatible_refl s : s ∈ states → compatible t g lg conflicts keywords s s.
Proof.
  intros Hs. destruct (mg_state _ _ _ _ _ Hm s Hs) as [[Hnd _] Hh _]. split_and!; [|done|done]. intros k id1 id2 H1 H2.
  pose proof (im_get_elem _ _ _ Hnd H1) as G1. rewrite (im_get_elem _ _ _ Hnd H2) in G1. injection G1 as ->.
  destruct (Hh k id1 H1) as [l Hl]. exists l, l. split_and!; [done|done|]. clear. induction l; constructor; [apply same_shape_refl|done].
Qed.

(** Any two states of a group are compatible, and the successors of both are in a
    group. *)
Definition grouped (groups : list (list N)) (ids : list N) : Prop :=
  ∀ l a b, l ∈ groups → a ∈ l → b ∈ l →
    core_id (member a) = core_id (member b) ∧ compatible_ids a b ∧ successors_agree t ids (member a) (member b).

Lemma shift_maps_spec {E : Type} : ∃ maps, mapM (shift_map (E:=E) p) states = Ok maps ∧ shift_maps_ok t maps.
Proof.
  set (f := λ s, match shift_map (E:=Empty_set) p s with Ok m => m | _ => [] end). exists (map f states). split.
  - apply mapM_Ok. intros s Hs. destruct (shift_map_spec t g lg conflicts keywords Hm s Hs) as (m & Hmm & _). unfold f. by rewrite !Hmm.
  - intros i s Hi. exists (f s). split; [by rewrite list_lookup_map, Hi|].
    destruct (shift_map_spec t g lg conflicts keywords Hm s) as (m & Hmm & _); [by eapply list_elem_of_lookup_2|]. unfold f. by rewrite !Hmm.
Qed.
Lemma stable_agree maps ids l a b : shift_maps_ok t maps → length ids = length states → in_range states l →
  stable_group states (state_successors_differ maps (map nonterminal_map states)) ids l → a ∈ l → b ∈ l → successors_agree t ids (member a) (member b).
Proof.
  intros Hmaps Hids Hr Hst Ha Hb.
  assert (∀ i j x y, i < j → l !! i = Some x → l !! j = Some y → successors_agree t ids (member x) (member y)) as Hlt.
  { intros i j x y Hij Hx Hy. assert (N.to_nat x < length states ∧ N.to_nat y < length states) as [Lx Ly] by (split; apply Hr; by eapply list_elem_of_lookup_2).
    destruct (state_successors_spec t g lg conflicts keywords Hm maps (member x) (member y) ids Hmaps) as (c & Hc & Hcf); [by apply member_elem..|done|].
    apply Hcf. destruct c; [|done]. exfalso. apply (Hst i j x y Hij Hx Hy). exists (member x), (member y). split_and!; [by apply member_lookup..|apply Hc]. }
  pose proof Ha as [i Hi]%list_elem_of_lookup. pose proof Hb as [j Hj]%list_elem_of_lookup. destruct (Nat.lt_trichotomy i j) as [Hij|[->|Hij]].
  - by eapply Hlt.
  - rewrite Hi in Hj. injection Hj as ->. assert (N.to_nat b < length states) as Lb by by apply Hr.
    pose proof (mg_state _ _ _ _ _ Hm _ (member_elem b Lb)) as [[K1 K2] Hh _]. split.
    + intros k x y (id1 & l1 & r1 & E1 & P1 & L1) (id2 & l2 & r2 & E2 & P2 & L2). pose proof (im_get_elem _ _ _ K1 E1) as G1.
      rewrite (im_get_elem _ _ _ K1 E2) in G1. injection G1 as ->. rewrite (holds_fun _ _ _ _ P1 P2), L2 in L1. by injection L1 as ->.
    + intros k x y E1 E2. pose proof (im_get_elem _ _ _ K2 E1) as G1. rewrite (im_get_elem _ _ _ K2 E2) in G1. injection G1 as ->. by destruct x.
  - apply successors_agree_sym. by eapply Hlt.
Qed.

Lemma merge_steps k n : length states ≤ n → length states < k →
  ∃ groups ids, part_ok states groups ids ∧ [] ∉ groups ∧ concat groups ≡ₚ map N.of_nat (seq 0 (length states)) ∧
    (∃ l0 l1 rest, groups = (0%N :: l0) :: (1%N :: l1) :: rest) ∧ grouped groups ids ∧
    merge_compatible_states g lg conflicts keywords k n t = (states' ← merge_groups ids groups states; remap_terminal_references (with_states t states') (id_at ids)).
Proof.
  intros Hn Hk. pose proof (to_size _ (mg_table _ _ _ _ _ Hm)) as Hsize. unfold merge_compatible_states.
  destruct (core_groups_spec (E:=Empty_set)) as (g0 & i0 & -> & Hok0 & Hne0 & Hp0 & (la & Ha) & (lb & Hb) & Hcore). cbn [mbind outcome_bind].
  pose proof (slack_states g0 Hne0 Hp0) as Hs0.
  destruct (toks_iter_spec keywords (tk_keywords _ _ _ _ _ (mg_tokens _ _ _ _ _ Hm))) as (kws & Hkws & _).
  destruct (conflict_bits_spec states g lg conflicts keywords (mg_tokens _ _ _ _ _ Hm) kws Hkws) as (bits & Hbits & Hbok).
  rewrite Hkws. cbn [mbind outcome_bind]. rewrite Hbits. cbn [mbind outcome_bind].
  destruct (split_pass_spec (E:=Empty_set) states _ (conflict_splits bits Hbok) n g0 i0 0 Hok0) as (g1 & i1 & b1 & Hs1 & Hok1 & Hp1 & Hr1 & Hsum1 & _ & Hne1 & _); [lia|lia|].
  rewrite Hs1. cbn [mbind outcome_bind].
  pose proof (split_pass_heads states _ (conflict_splits bits Hbok) n g0 i0 0 g1 i1 b1 Hok0 ltac:(lia) Hs1) as Hh1.
  assert (∀ l, l ∈ g1 → pairwise compatible_ids l) as Hpair1.
  { eapply (split_pass_pairs states _ (conflict_splits bits Hbok) compatible_ids); [| |exact Hok0|lia|exact Hs1].
    - intros a b. apply compatible_sym.
    - intros a b ids Hlen Hr. by apply (no_clash_compatible bits). }
  destruct (shift_maps_spec (E:=Empty_set)) as (maps & -> & Hmaps). cbn [mbind outcome_bind].
  destruct (split_until_stable_spec (E:=Empty_set) states _ (successor_splits maps Hmaps) k n g1 i1 0 Hok1) as (g2 & i2 & Hs2 & Hok2 & Hp2 & Hr2 & _ & Hne2 & Hst2 & Hsum2); [lia..|].
  rewrite Hs2. cbn [mbind outcome_bind].
  pose proof (split_until_stable_heads states _ (successor_splits maps Hmaps) k n 0 g1 i1 g2 i2 Hok1 ltac:(lia) ltac:(lia) Hs2) as Hh2.
  destruct (heads_kept_trans _ _ _ Hh1 Hh2 _ _ _ Ha) as [l0 Hl0]. destruct (heads_kept_trans _ _ _ Hh1 Hh2 _ _ _ Hb) as [l1 Hl1].
  assert (∃ rest, g2 = (0%N :: l0) :: (1%N :: l1) :: rest) as [rest Hg2].
  { destruct g2 as [|x [|y rest]]; try done. cbn in Hl0, Hl1. injection Hl0 as ->. injection Hl1 as ->. by exists rest. }
  pose proof Hok2 as (Hnd2 & Hrange2 & Hlen2 & _).
  assert (NoDup (concat ((0%N :: l0) :: (1%N :: l1) :: rest))) as Hndg by by rewrite <- Hg2.
  destruct (group_of_first (E:=Empty_set) l0 l1 rest Hndg) as [Hf0 Hf1]. rewrite <- Hg2 in Hf0, Hf1. rewrite Hf0. cbn [mbind outcome_bind]. rewrite Hf1. cbn [mbind outcome_bind].
  rewrite swap_same by (rewrite Hg2; cbn; lia). cbn [mbind outcome_bind]. rewrite swap_same by (rewrite Hg2; cbn; lia). cbn [mbind outcome_bind].
  exists g2, i2. split_and!; [done|by apply Hne2, Hne1|by rewrite Hp2, Hp1|by exists l0, l1, rest| |done].
  intros l a b Hl Hal Hbl. destruct (Hr2 l Hl) as (k1 & Hk1 & Hsub1). destruct (Hr1 k1 Hk1) as (k0 & [c Hk0]%list_elem_of_lookup & Hsub0).
  assert (in_range states l) as Hlr by (pose proof Hl as [gi Hgi]%list_elem_of_lookup; by eapply in_range_group).
  split_and!.
  - destruct (Hcore c k0 a Hk0) as (sa & Hsa & Hca); [by apply Hsub0, Hsub1|]. destruct (Hcore c k0 b Hk0) as (sb & Hsb & Hcb); [by apply Hsub0, Hsub1|].
    unfold member. by rewrite (state_at_lookup _ _ Hsa), (state_at_lookup _ _ Hsb), Hca, Hcb.
  - destruct (decide (a = b)) as [->|Hab]; [by apply compatible_refl, member_elem, Hlr|]. apply (Hpair1 k1 Hk1); [by apply Hsub1..|done].
  - pose proof Hl as [gi Hgi]%list_elem_of_lookup. eapply (stable_agree maps i2 l); [done|done|done|apply (Hst2 gi); [lia|done]|done|done].
Qed.

(** ** The merged states *)
Lemma same_shape_remap r l l' :
  Forall2 same_shape l l' → (∀ j x b, l !! j = Some (Shift x b) → S j = length l) →
  (∀ x y b b', last l = Some (Shift x b) → last l' = Some (Shift y b') → r x = r y) → map (remap_action r) l = map (remap_action r) l'.
Proof.
  intros Hf Hlast Heq. pose proof (Forall2_length _ _ _ Hf) as Hlen.
  apply (list_eq_same_length _ _ (length l)); [by rewrite length_map|by rewrite length_map|].
  intros i a b Hi Ha Hb. rewrite list_lookup_map in Ha, Hb. destruct (l !! i) as [a0|] eqn:La; [|done]. destruct (l' !! i) as [b0|] eqn:Lb; [|done].
  cbn in Ha, Hb. injection Ha as <-. injection Hb as <-. pose proof (Forall2_lookup_lr _ _ _ _ _ _ Hf La Lb) as Hs.
  destruct a0, b0; cbn in *; try done; try by injection Hs as ->. subst. f_equal. pose proof (Hlast _ _ _ La) as Hi'.
  eapply Heq; rewrite last_lookup; [by replace (pred (length l)) with i by lia|by replace (pred (length l')) with i by lia].
Qed.
End merge.

(** State [s'] does what each state of [members] does, and nothing else, with
    the states renamed. *)
Record merged_state (members : list (ParseState N)) (p p' : ActionListPool) (r : ParseStateId → ParseStateId) (s' : ParseState N) : Prop := {
  me_terminals : ∀ m k id l, m ∈ members → (k, id) ∈ terminal_entries m → holds p id l →
    ∃ id', (k, id') ∈ terminal_entries s' ∧ holds p' id' (map (remap_action r) l);
  me_gotos : ∀ m k a, m ∈ members → (k, a) ∈ nonterminal_entries m → (k, remap_goto r a) ∈ nonterminal_entries s';
  me_terminal_from : ∀ k, k ∈ (terminal_entries s').*1 → ∃ m, m ∈ members ∧ k ∈ (terminal_entries m).*1;
  me_goto_from : ∀ k, k ∈ (nonterminal_entries s').*1 → ∃ m, m ∈ members ∧ k ∈ (nonterminal_entries m).*1;
  me_reserved : ∀ x, x ∈ toks (Tables.reserved_words s') ↔
    (∃ m, m ∈ members ∧ x ∈ toks (Tables.reserved_words m)) ∧ (length members = 1 ∨ x ∉ (terminal_entries s').*1);
  me_eof : has_eof_gated_reduce s' = existsb has_eof_gated_reduce members;
}.
(** The states that become state [j]. *)
Definition members_of (r : ParseStateId → ParseStateId) (states : list (ParseState N)) (j : nat) : list (ParseState N) :=
  map (state_at states) (filter (λ i, r (N.of_nat i) = N.of_nat j) (seq 0 (length states))).

Section merged.
Context (t : ParseTable N) (g : SyntaxGrammar) (lg : LexicalGrammar) (conflicts : TokenConflictMap) (keywords : TokenSet).
Notation states := (pt_states t).
Notation p := (action_lists t).
Context (Hm : mergeable t g lg conflicts keywords).
Context (groups : list (list N)) (ids : list N) (Hok : part_ok states groups ids) (Hgrouped : grouped t g lg conflicts keywords groups ids).
Context (Hall : concat groups ≡ₚ map N.of_nat (seq 0 (length states))).
Definition group_id (x : N) : N := default 0%N (ids !! N.to_nat x).

Lemma group_id_in j l x : groups !! j = Some l → x ∈ l → group_id x = N.of_nat j.
Proof. intros Hl Hx. unfold group_id. by rewrite (proj2 (proj2 (proj2 Hok)) j l x Hl Hx). Qed.
Lemma group_exists i : i < length states → ∃ j l, groups !! j = Some l ∧ N.of_nat i ∈ l.
Proof.
  intros Hi. assert (N.of_nat i ∈ concat groups) as (l & [j Hj]%list_elem_of_lookup & Hin)%elem_of_concat; [|by exists j, l].
  rewrite Hall. apply elem_of_map. exists i. split; [done|]. apply elem_of_seq. lia.
Qed.
Lemma group_states j l : groups !! j = Some l → in_range states l.
Proof. intros Hl. eapply in_range_group; [apply Hok|exact Hl]. Qed.
Lemma group_members j l : groups !! j = Some l → map (member t) l ≡ₚ members_of group_id states j.
Proof.
  intros Hl. pose proof Hok as (Hnd & _ & Hlen & _). assert (NoDup l) as Hndl.
  { rewrite <- (take_drop_middle _ _ _ Hl), concat_app in Hnd. cbn in Hnd. apply NoDup_app in Hnd as (_ & _ & Hnd). by apply NoDup_app in Hnd as (? & _ & _). }
  unfold members_of. assert (l ≡ₚ map N.of_nat (filter (λ i, group_id (N.of_nat i) = N.of_nat j) (seq 0 (length states)))) as Hp.
  - apply NoDup_Permutation; [done|apply (NoDup_fmap_2 N.of_nat), NoDup_filter, NoDup_seq|]. intros x. rewrite elem_of_map. split.
    + intros Hx. exists (N.to_nat x). rewrite N2Nat.id. split; [done|]. apply list_elem_of_filter. rewrite N2Nat.id. split; [by eapply group_id_in|].
      apply elem_of_seq. pose proof (group_states j l Hl x Hx). lia.
    + intros (i & -> & Hi). apply list_elem_of_filter in Hi as [Hg Hi%elem_of_seq]. destruct (group_exists i) as (j' & l' & Hl' & Hin); [lia|].
      rewrite (group_id_in j' l' _ Hl' Hin) in Hg. apply Nat2N.inj in Hg as ->. rewrite Hl in Hl'. by injection Hl' as <-.
  - rewrite Hp, map_map. apply Permutation_refl'. apply map_ext. intros i. unfold member. by rewrite Nat2N.id.
Qed.
Lemma ids_at {E : Type} s x : s ∈ states → refers p s x → id_at (E:=E) ids x = Ok (group_id x) ∧ N.to_nat (group_id x) < length groups.
Proof.
  intros Hs Hx. pose proof (so_refs _ _ _ (mg_state _ _ _ _ _ Hm s Hs) x Hx) as Hlt.
  destruct (group_exists _ Hlt) as (j & l & Hl & Hin). rewrite N2Nat.id in Hin. rewrite (group_id_in j l x Hl Hin), Nat2N.id.
  split; [|by eapply lookup_lt_Some]. apply vec_get_Some. by eapply (proj2 (proj2 (proj2 Hok))).
Qed.

(** What a collecting state does, its members do. *)
Lemma collects_merged p' l s :
  l ∈ groups → collects (map (member t) l) s →
  (∀ k id a, (k, id) ∈ terminal_entries s → holds p id a → holds p' id (map (remap_action group_id) a)) →
  merged_state (map (member t) l) p p' group_id (rename_state group_id s).
Proof.
  intros Hl [[K1 K2] T1 T2 G1 G2 W R F] Hren. pose proof Hl as [j Hj]%list_elem_of_lookup.
  assert (∀ x, x ∈ l → member t x ∈ states) as Hin by (intros x Hx; by eapply member_elem, group_states).
  split; cbn [rename_state with_nonterminals terminal_entries nonterminal_entries Tables.reserved_words has_eof_gated_reduce].
  - intros m k id a (x & -> & Hx)%elem_of_map Hk Ha.
    assert (k ∈ (terminal_entries s).*1) as [id' Hid']%elem_of_vals by (apply T2; exists (member t x); split; [apply elem_of_map; eauto|by eapply elem_of_keys]).
    exists id'. split; [done|]. destruct (T1 _ Hid') as (m' & (y & -> & Hy)%elem_of_map & Hk').
    destruct (Hgrouped l x y Hl Hx Hy) as (_ & (Hag & _ & _) & Hsucc & _). destruct (Hag k id id' Hk Hk') as (a0 & a' & Ha0 & Ha' & Hshape).
    rewrite (holds_fun _ _ _ _ Ha0 Ha) in Hshape. rewrite (same_shape_remap group_id a a' Hshape); [by eapply Hren| |].
    + intros i z b. by eapply (mg_shift_last _ _ _ _ _ Hm (member t x) k id a i z b (Hin x Hx)).
    + intros z w b b' Hz Hw. unfold group_id. rewrite (Hsucc k z w); [done|by exists id, a, b|by exists id', a', b'].
  - intros m k a (x & -> & Hx)%elem_of_map Hk.
    assert (k ∈ (nonterminal_entries s).*1) as [a' Ha']%elem_of_vals by (apply G2; exists (member t x); split; [apply elem_of_map; eauto|by eapply elem_of_keys]).
    destruct (G1 _ Ha') as (m' & (y & -> & Hy)%elem_of_map & Hk'). destruct (Hgrouped l x y Hl Hx Hy) as (_ & _ & _ & Hgoto).
    pose proof (Hgoto k a a' Hk Hk') as Hg. unfold remap_gotos. apply elem_of_map. exists (k, a'). split; [|done]. f_equal.
    destruct a, a'; cbn in *; try done. unfold group_id. by rewrite Hg.
  - intros k Hk. by apply T2.
  - intros k. rewrite remap_gotos_keys. apply G2.
  - done.
  - done.
Qed.
Lemma merged_state_perm ms ms' p' r s' : ms ≡ₚ ms' → merged_state ms p p' r s' → merged_state ms' p p' r s'.
Proof.
  intros Hp [H1 H2 H3 H4 H5 H6]. setoid_rewrite Hp in H1. setoid_rewrite Hp in H2. setoid_rewrite Hp in H3. setoid_rewrite Hp in H4. setoid_rewrite Hp in H5.
  split; [done..|]. rewrite H6. apply eq_true_iff_eq. rewrite !existsb_exists. setoid_rewrite <- list_elem_of_In. by setoid_rewrite Hp.
Qed.
End merged.

Lemma collects_refers members s p x : collects members s → refers p s x → ∃ m, m ∈ members ∧ refers p m x.
Proof.
  intros Hc [(k & id & l & b & Hin & Hl & Hx)|(k & Hin)].
  - destruct (co_terminal _ _ Hc _ Hin) as (m & Hm & Hk). exists m. split; [done|]. left. by exists k, id, l, b.
  - destruct (co_goto _ _ Hc _ Hin) as (m & Hm & Hk). exists m. split; [done|]. right. by exists k.
Qed.
Lemma collects_ok members s p n : collects members s → (∀ m, m ∈ members → state_ok p n m) → state_ok p n s.
Proof.
  intros Hc Hok. split; [apply (co_keys _ _ Hc)| |].
  - intros k id Hin. destruct (co_terminal _ _ Hc _ Hin) as (m & Hm & Hk). by apply (so_ids _ _ _ (Hok m Hm) k).
  - intros x Hx. destruct (collects_refers _ _ _ _ Hc Hx) as (m & Hm & Hmx). by apply (so_refs _ _ _ (Hok m Hm)).
Qed.

(** C3: on a table as the builder makes it, [merge_compatible_states] does not
    panic.  Every state becomes part of one new state (the error state stays 0
    and the start state 1), which has the entries of each of its members, with
    the same actions and gotos after the states are renamed, and no others.  The
    members of a state have the same core and are compatible: a token is only
    added to a state for which [token_conflicts] finds no conflict. *)
Theorem merge_compatible_states_correct (g : SyntaxGrammar) (lg : LexicalGrammar) (conflicts : TokenConflictMap) (keywords : TokenSet) (k n : nat) (t : ParseTable N) :
  mergeable t g lg conflicts keywords → length (pt_states t) ≤ n → length (pt_states t) < k →
  ∃ t' r, merge_compatible_states g lg conflicts keywords k n t = Ok t' ∧ table_ok t' ∧ r 0%N = 0%N ∧ r 1%N = 1%N ∧
    (∀ i, i < length (pt_states t) → N.to_nat (r (N.of_nat i)) < length (pt_states t')) ∧
    ∀ j s', pt_states t' !! j = Some s' → let members := members_of r (pt_states t) j in
      members ≠ [] ∧ merged_state members (action_lists t) (action_lists t') r s' ∧
      ∀ m m', m ∈ members → m' ∈ members → core_id m = core_id m' ∧ compatible t g lg conflicts keywords m m'.
Proof.
  intros Hm Hn Hk. destruct (merge_steps t g lg conflicts keywords Hm k n Hn Hk) as (groups & ids & Hok & Hne & Hall & (l0 & l1 & rest & Hg) & Hgrouped & ->).
  pose proof Hok as (Hnd & Hrange & Hlen & Hids). set (r := group_id ids).
  assert (∀ E s x, s ∈ pt_states t → refers (action_lists t) s x → id_at (E:=E) ids x = Ok (r x)) as Hat.
  { intros E s x Hs Hx. by destruct (ids_at t g lg conflicts keywords Hm groups ids Hok Hall (E:=E) s x Hs Hx). }
  destruct (merge_groups_spec t g lg conflicts keywords Hm (E:=Empty_set) ids r (Hat _) groups Hne Hnd Hrange) as (new & -> & Hnew).
  cbn [mbind outcome_bind]. pose proof (Forall2_length _ _ _ Hnew) as Hlnew.
  assert (∀ x, x ∈ concat groups → member t x ∈ pt_states t) as Hmem by (intros x Hx; by apply member_elem, Hrange).
  assert (∀ j s', new !! j = Some s' → ∃ l s, groups !! j = Some l ∧ s' = rename_state r s ∧ collects (map (member t) l) s ∧
    ∀ m, m ∈ map (member t) l → m ∈ pt_states t) as Hstate.
  { intros j s' Hj. destruct (Forall2_lookup_r _ _ _ _ _ Hnew Hj) as (l & Hl & s & -> & Hc). exists l, s. split_and!; [done|done|done|].
    intros m (x & -> & Hx)%elem_of_map. apply Hmem, elem_of_concat. exists l. split; [by eapply list_elem_of_lookup_2|done]. }
  pose proof (mg_table _ _ _ _ _ Hm) as [Hpool Hts Hsize].
  assert (∀ l s, collects (map (member t) l) s → (∀ m, m ∈ map (member t) l → m ∈ pt_states t) → state_ok (action_lists t) (length (pt_states t)) s) as Hcok.
  { intros l s Hc Hin. eapply collects_ok; [exact Hc|]. intros m Hmm. by apply Hts, Hin. }
  destruct (remap_spec (E:=Empty_set) (with_states t new) (id_at ids) r Hpool) as (p' & -> & Hp' & Hact).
  { intros s' key id [j Hj]%list_elem_of_lookup Hin. destruct (Hstate j s' Hj) as (l & s & _ & -> & Hc & Hin'). cbn in Hin.
    destruct (so_ids _ _ _ (Hcok l s Hc Hin') key id Hin) as [a Ha]. exists a. split; [done|]. intros x b Hx.
    destruct (collects_refers _ _ (action_lists t) x Hc) as (m & Hmm & Hmx); [left; by exists key, id, a, b|]. by apply (Hat _ m); [apply Hin'|]. }
  assert (∀ j s', new !! j = Some s' → ∃ l s, groups !! j = Some l ∧ s' = rename_state r s ∧ collects (map (member t) l) s ∧
    (∀ m, m ∈ map (member t) l → m ∈ pt_states t) ∧ renamed (action_lists t) p' r s (rename_state r s)) as Hren.
  { intros j s' Hj. destruct (Hstate j s' Hj) as (l & s & Hl & -> & Hc & Hin). exists l, s. split_and!; [done..|]. split; [done|].
    intros key id a Hk1 Ha. apply (Hact (rename_state r s) key id a); [by eapply list_elem_of_lookup_2|done|done]. }
  exists (with_pool (with_states t new) p'), r. split; [done|]. split; [|split; [|split; [|split]]].
  - split; [done| |].
    + intros s' [j Hj]%list_elem_of_lookup. destruct (Hren j s' Hj) as (l & s & Hl & -> & Hc & Hin & Hr). eapply renamed_ok; [by eapply Hcok|exact Hr|].
      intros x (m & Hmm & Hmx)%(collects_refers _ _ _ _ Hc). cbn. rewrite <- Hlnew.
      by destruct (ids_at t g lg conflicts keywords Hm groups ids Hok Hall (E:=Empty_set) m x (Hin m Hmm) Hmx).
    + cbn. rewrite <- Hlnew. pose proof (slack_states t groups Hne Hall). lia.
  - eapply (group_id_in t groups ids Hok 0); [by rewrite Hg|apply list_elem_of_here].
  - eapply (group_id_in t groups ids Hok 1); [by rewrite Hg|apply list_elem_of_here].
  - intros i Hi. destruct (group_exists t groups Hall i Hi) as (j & l & Hl & Hin). unfold r. rewrite (group_id_in t groups ids Hok j l _ Hl Hin), Nat2N.id. cbn.
    rewrite <- Hlnew. by eapply lookup_lt_Some.
  - intros j s' Hj. cbn in Hj. destruct (Hren j s' Hj) as (l & s & Hl & -> & Hc & Hin & Hr). cbv zeta. set (members := members_of r (pt_states t) j).
    pose proof (group_members t groups ids Hok Hall j l Hl) as Hp. fold r in Hp. fold members in Hp.
    assert (l ∈ groups) as Hlg by by eapply list_elem_of_lookup_2. split_and!.
    + intros Hnil. rewrite Hnil in Hp. apply Permutation_nil_r, map_eq_nil in Hp. by subst.
    + eapply merged_state_perm; [exact Hp|]. eapply collects_merged; [exact Hm|exact Hok|exact Hgrouped|exact Hlg|exact Hc|apply Hr].
    + intros m m'. rewrite <- Hp. intros (x & -> & Hx)%elem_of_map (y & -> & Hy)%elem_of_map. by destruct (Hgrouped l x y Hlg Hx Hy) as (? & ? & _).
Qed.

(** ** Witness *)
(** States 2 and 3 have the same core and reduce the same production. *)
Definition ex_merge_lists : list (list ParseAction) := [[Shift 2 false]; [Shift 3 false]; [Reduce (mkSymbol NonTerminal 0) 1 0 0]].
Definition ex_merge_pool : ActionListPool :=
  mkActionPool [Shift 2 false; Shift 3 false; Reduce (mkSymbol NonTerminal 0) 1 0 0] [mkActionRange 0 1; mkActionRange 1 1; mkActionRange 2 1] [].
Definition ex_core_state (id core : N) (ts : list (Symbol * N)) : ParseState N := mkParseState id ts [] TokenSet.new 0 0 core false.
Definition ex_merge_table : ParseTable N :=
  mkParseTable [ex_core_state 0 0 []; ex_core_state 1 1 [(terminal 0, 0%N); (terminal 1, 1%N)]; ex_core_state 2 2 [(terminal 0, 2%N)]; ex_core_state 3 2 [(terminal 1, 2%N)]]
    ex_merge_pool [] [] 0 [].
Definition ex_merge_syntax : SyntaxGrammar := mkSyntaxGrammar [] [] [] [] [] [] None [] [] [] [] [].
Definition ex_merge_lexical : LexicalGrammar :=
  mkLexicalGrammar [] [mkLexicalVariable 1 Named 0 0; mkLexicalVariable 2 Named 0 0].
Definition ex_merge_conflicts : TokenConflictMap := mkTokenConflictMap 2 [0; 0; 0; 0]%N [] [] [] [0; 0]%N [0; 0]%N 1.

Example merge_example :
  (λ t, map (λ s, (ps_id s, terminal_entries s)) (pt_states t)) <$>
    merge_compatible_states ex_merge_syntax ex_merge_lexical ex_merge_conflicts TokenSet.new 5 4 ex_merge_table =
    Ok [(0%N, []); (1%N, [(terminal 0, 0%N); (terminal 1, 1%N)]); (2%N, [(terminal 0, 2%N); (terminal 1, 2%N)])].
Proof. vm_compute. reflexivity. Qed.
Lemma ex_mergeable : mergeable ex_merge_table ex_merge_syntax ex_merge_lexical ex_merge_conflicts TokenSet.new.
Proof.
  assert (pool_ok ex_merge_pool ex_merge_lists) as Hp by repeat split.
  assert (∀ P : ParseState N → Prop, Forall P (pt_states ex_merge_table) → ∀ s, s ∈ pt_states ex_merge_table → P s) as Hall.
  { intros P HP s Hs. rewrite Forall_forall in HP. by apply HP. }
  split.
  - apply (table_ok_check ex_merge_table ex_merge_lists Hp); [reflexivity|vm_compute; reflexivity].
  - split; [done|done| | |apply wf_new| |].
    + intros s x. revert s. apply (Hall (λ s, x ∈ (terminal_entries s).*1 → known_token ex_merge_lexical x)).
      repeat (apply Forall_cons; split); try (apply Forall_nil; done); cbn; intros Hx;
        repeat (apply elem_of_cons in Hx as [->|Hx]; [split; vm_compute; [lia|done]|]); by apply not_elem_of_nil in Hx.
    + apply Hall. repeat (apply Forall_cons; split); try (apply Forall_nil; done); apply wf_new.
    + intros x Hx. vm_compute in Hx. done.
    + intros e x He. by apply not_elem_of_nil in He.
  - intros i s Hi. do 4 (destruct i as [|i]; [injection Hi as <-; done|]). done.
  - intros s k. revert s. apply (Hall (λ s, k ∈ (nonterminal_entries s).*1 → kind k = NonTerminal)).
    repeat (apply Forall_cons; split); try (apply Forall_nil; done); by intros ?%not_elem_of_nil.
  - intros s k id l j x r _ _ Hl Hj. apply (pool_holds _ _ _ _ Hp) in Hl.
    assert (length l = 1) as Hlen by (destruct (id_index id) as [|[|[|]]]; cbn in Hl; by simplify_eq). apply lookup_lt_Some in Hj. lia.
  - apply Hall. repeat (apply Forall_cons; split); try (apply Forall_nil; done); reflexivity.
  - intros s c Hs Hc. assert (core_id s ≤ 2)%N as H2.
    { revert s Hs Hc. intros s Hs _. revert s Hs. apply Hall. repeat (apply Forall_cons; split); try (apply Forall_nil; done); vm_compute; discriminate. }
    assert (∃ i s', pt_states ex_merge_table !! i = Some s' ∧ core_id s' = c) as (i & s' & Hi & Hs'); [|exists s'; split; [by eapply list_elem_of_lookup_2|done]].
    assert (c = 0 ∨ c = 1 ∨ c = 2)%N as [-> | [-> | ->]] by lia; [exists 0|exists 1|exists 2]; eexists; split; reflexivity.
  - by eexists.
  - by eexists.
Qed.
Lemma merge_compatible_states_witness :
  ∃ t' r, merge_compatible_states ex_merge_syntax ex_merge_lexical ex_merge_conflicts TokenSet.new 5 4 ex_merge_table = Ok t' ∧ table_ok t' ∧ r 0%N = 0%N ∧ r 1%N = 1%N ∧
    (∀ i, i < length (pt_states ex_merge_table) → N.to_nat (r (N.of_nat i)) < length (pt_states t')) ∧
    ∀ j s', pt_states t' !! j = Some s' → let members := members_of r (pt_states ex_merge_table) j in
      members ≠ [] ∧ merged_state members (action_lists ex_merge_table) (action_lists t') r s' ∧
      ∀ m m', m ∈ members → m' ∈ members → core_id m = core_id m' ∧
        compatible ex_merge_table ex_merge_syntax ex_merge_lexical ex_merge_conflicts TokenSet.new m m'.
Proof.
  apply (merge_compatible_states_correct ex_merge_syntax ex_merge_lexical ex_merge_conflicts TokenSet.new 5 4 ex_merge_table);
    [exact ex_mergeable|cbn; lia|cbn; lia].
Defined.
