(* ===== verification/MinimizeUnit.v ===== *)
(** * [build_tables/minimize_parse_table.rs]: unit reductions

    A shift or goto to a state that only reduces a hidden symbol with one child is
    replaced by the goto of that symbol. *)
From S2P Require Import Prelude Symbols TokenSet Grammars Tables Minimize MinimizeStates.

(** ** Symbols with an alias *)
Section aliased.
Context (g : SyntaxGrammar).
(** The productions of every variable can be read. *)
Definition readable : Prop := ∀ v, v < length (sg_variables g) →
  ∃ r, sg_var_prods g !! v = Some r ∧ ∀ id, id ∈ prod_range r → ∃ q, ∀ E, production (E:=E) g id = Ok q.
(** Some step of the production, or of a production of a variable, has an alias
    for the symbol. *)
Definition aliased_in_prod (x : Symbol) (id : N) : Prop :=
  ∃ q s, production (E:=Empty_set) g id = Ok q ∧ s ∈ pr_steps q ∧ step_alias s ≠ 0%N ∧ x = step_symbol s.
Definition aliased_in_var (x : Symbol) (v : nat) : Prop := ∃ r, sg_var_prods g !! v = Some r ∧ ∃ id, id ∈ prod_range r ∧ aliased_in_prod x id.
Definition aliased_in_step (x : Symbol) : Prop := ∃ v, v < length (sg_variables g) ∧ aliased_in_var x v.
Context (Hg : readable).

Lemma exists_snoc {A} (d : list A) y (P : A → Prop) : (∃ a, a ∈ d ++ [y] ∧ P a) ↔ (∃ a, a ∈ d ∧ P a) ∨ P y.
Proof. setoid_rewrite elem_of_app. setoid_rewrite list_elem_of_singleton. naive_solver. Qed.
Lemma exists_nil {A} (P : A → Prop) : (∃ a, a ∈ [] ∧ P a) ↔ False.
Proof. split; [|done]. by intros (a & ?%not_elem_of_nil & _). Qed.
Lemma alias_steps_spec {E : Type} aliased steps :
  ∃ aliased', alias_steps (E:=E) aliased steps = Ok aliased' ∧ ∀ x, x ∈ aliased' ↔ x ∈ aliased ∨ ∃ s, s ∈ steps ∧ step_alias s ≠ 0%N ∧ x = step_symbol s.
Proof.
  unfold alias_steps. apply (for_each_inv _ (λ d a, ∀ x, x ∈ a ↔ x ∈ aliased ∨ ∃ s, s ∈ d ∧ step_alias s ≠ 0%N ∧ x = step_symbol s)).
  - intros x. rewrite exists_nil. tauto.
  - intros d s r a -> Ha. unfold step_get_alias. destruct (N.eqb_spec (step_alias s) 0) as [Hz|Hz]; cbn [negb].
    + cbn. eexists. split; [done|]. intros x. rewrite Ha, exists_snoc. tauto.
    + unfold from_raw. rewrite (proj2 (N.eqb_neq _ _) Hz). cbn. eexists. split; [done|]. intros x. rewrite elem_of_union, Ha, elem_of_singleton, exists_snoc. tauto.
Qed.
Lemma alias_prods_spec {E : Type} a ids : (∀ id, id ∈ ids → ∃ q, ∀ E, production (E:=E) g id = Ok q) →
  ∃ a', for_each (λ aliased prod_id, q ← production (E:=E) g prod_id; alias_steps aliased (pr_steps q)) a ids = Ok a' ∧
    ∀ x, x ∈ a' ↔ x ∈ a ∨ ∃ id, id ∈ ids ∧ aliased_in_prod x id.
Proof.
  intros Hids. apply (for_each_inv _ (λ d a', ∀ x, x ∈ a' ↔ x ∈ a ∨ ∃ id, id ∈ d ∧ aliased_in_prod x id)).
  - intros x. rewrite exists_nil. tauto.
  - intros d id r a' -> Ha. destruct (Hids id) as [q Hq]; [set_solver|]. rewrite (Hq E). cbn [mbind outcome_bind].
    destruct (alias_steps_spec (E:=E) a' (pr_steps q)) as (a2 & -> & Ha2). eexists. split; [done|]. intros x. rewrite Ha2, Ha, exists_snoc.
    assert (aliased_in_prod x id ↔ ∃ s, s ∈ pr_steps q ∧ step_alias s ≠ 0%N ∧ x = step_symbol s) as ->; [|tauto].
    unfold aliased_in_prod. split; [intros (q' & s & Hq' & ?)|intros (s & ?); by exists q, s]. rewrite Hq in Hq'. injection Hq' as <-. by exists s.
Qed.
Lemma aliased_symbols_spec {E : Type} : ∃ aliased, aliased_symbols (E:=E) g = Ok aliased ∧ ∀ x, x ∈ aliased ↔ aliased_in_step x.
Proof.
  unfold aliased_symbols.
  destruct (for_each_inv (λ aliased i, ids ← variable_prod_ids (E:=E) g i;
      for_each (λ aliased prod_id, q ← production g prod_id; alias_steps aliased (pr_steps q)) aliased (prod_range ids))
    (λ d a, ∀ x, x ∈ a ↔ ∃ v, v ∈ d ∧ aliased_in_var x v) (seq 0 (length (sg_variables g))) ∅) as (aliased & -> & Ha).
  - intros x. rewrite exists_nil. set_solver.
  - intros d v r a Heq Ha. assert (v < length (sg_variables g)) as Hv.
    { assert (v ∈ seq 0 (length (sg_variables g))) as Hin by (rewrite Heq; set_solver). apply elem_of_seq in Hin. lia. }
    destruct (Hg v Hv) as (rng & Hrng & Hprods). unfold variable_prod_ids. rewrite (vec_get_Some _ _ _ Hrng). cbn [mbind outcome_bind].
    destruct (alias_prods_spec (E:=E) a (prod_range rng) Hprods) as (a' & -> & Ha'). eexists. split; [done|]. intros x. rewrite Ha', Ha, exists_snoc.
    assert (aliased_in_var x v ↔ ∃ id, id ∈ prod_range rng ∧ aliased_in_prod x id) as ->; [|done].
    unfold aliased_in_var. rewrite Hrng. split; [by intros (r' & [= <-] & ?)|eauto].
  - exists aliased. split; [done|]. intros x. rewrite Ha. unfold aliased_in_step. setoid_rewrite elem_of_seq. split.
    + intros (v & Hv & ?). exists v. split; [lia|done].
    + intros (v & Hv & ?). exists v. split; [lia|done].
Qed.
End aliased.

(** ** States that only reduce one hidden symbol with one child *)
Section units.
Context (g : SyntaxGrammar) (simple_aliases : AliasMap).
(** A reduction of the symbol leaves no node of its own. *)
Definition hidden (y : Symbol) : Prop :=
  simple_aliases !! y = None ∧ y ∉ supertype_symbols g ∧ y ∉ extra_symbols g ∧ ¬ aliased_in_step g y ∧
  ∃ v, sg_variables g !! N.to_nat (index y) = Some v ∧ sv_kind v ≠ Named.
Definition uniform (y : Symbol) (l : list ParseAction) : Prop := ∀ a, a ∈ l → a = ShiftExtra ∨ ∃ dp, a = Reduce y 1 dp 0.
Definition reduces (y : Symbol) (l : list ParseAction) : Prop := ∃ dp, Reduce y 1 dp 0 ∈ l.
(** State [s] of a table with pool [p] is a unit reduction to [y]. *)
Record unit_state (p : ActionListPool) (s : ParseState N) (y : Symbol) : Prop := {
  us_hidden : hidden y;
  us_eof : has_eof_gated_reduce s = false;
  us_uniform : ∀ k id l, (k, id) ∈ terminal_entries s → holds p id l → uniform y l;
  us_reduces : ∃ k id l, (k, id) ∈ terminal_entries s ∧ holds p id l ∧ reduces y l;
}.
Definition reductions_known (l : list ParseAction) : Prop :=
  ∀ y c dp i, Reduce y c dp i ∈ l → N.to_nat (index y) < length (sg_variables g).

Context (aliased : gset Symbol) (Haliased : ∀ x, x ∈ aliased ↔ aliased_in_step g x).
Lemma is_unit_spec found a : reductions_known [a] →
  ∃ u, (∀ E, is_unit_reduction (E:=E) g simple_aliases aliased found a = Ok u) ∧
    ∀ y, u = Some y ↔ (∃ dp, a = Reduce y 1 dp 0) ∧ hidden y ∧ (found = None ∨ found = Some y).
Proof.
  intros Hk. destruct a as [| | | |y c dp i]; try (exists None; split; [done|]; intros y; split; [done|]; by intros [[dp ?] _]).
  destruct (decide (c = 1%N ∧ i = 0%N)) as [[-> ->]|Hci].
  2: { exists None. split; [intros E; cbn; destruct c as [|[]], i; try done; by destruct Hci|].
       intros z. split; [done|]. intros [[dp' Heq] _]. injection Heq as -> -> -> ->. by destruct Hci. }
  cbn [is_unit_reduction].
  destruct (lookup_lt_is_Some_2 (sg_variables g) (N.to_nat (index y))) as [v Hv]; [eapply Hk, list_elem_of_here|].
  destruct (_ || _ || _ || _) eqn:Hb.
  - exists None. split; [done|]. intros z. split; [done|]. intros ([dp' Heq] & (H1 & H2 & H3 & H4 & _) & _). exfalso. injection Heq as <- _. rewrite <- Haliased in H4.
    rewrite !orb_true_iff, !bool_decide_eq_true in Hb. tauto.
  - apply orb_false_iff in Hb as [[[B1 B2]%orb_false_iff B3]%orb_false_iff B4].
    apply bool_decide_eq_false in B1, B2, B3, B4. rewrite Haliased in B4.
    eexists. split; [intros E; rewrite (vec_get_Some _ _ _ Hv); cbn; done|]. intros z.
    destruct (negb _ && _) eqn:Hc.
    + apply andb_true_iff in Hc as [Hc1%negb_true_iff%bool_decide_eq_false Hc2%orb_true_iff]. rewrite !bool_decide_eq_true in Hc2. split.
      * intros [= ->]. split; [by eexists|]. split; [|tauto]. split_and!; [by destruct (simple_aliases !! z); [destruct B1|]|done..|by exists v].
      * intros ([dp' Heq] & _). by injection Heq as -> _.
    + split; [done|]. intros ([dp' Heq] & (_ & _ & _ & _ & v' & Hv' & Hkind) & Hf). injection Heq as <- _. rewrite Hv in Hv'. injection Hv' as <-.
      apply andb_false_iff in Hc as [Hc|Hc]; [apply negb_false_iff, bool_decide_eq_true in Hc; done|].
      apply orb_false_iff in Hc as [C1%bool_decide_eq_false C2%bool_decide_eq_false]. tauto.
Qed.

Lemma unit_actions_step found a l : a ≠ ShiftExtra → ∀ E, unit_actions (E:=E) g simple_aliases aliased found (a :: l) =
  (u ← is_unit_reduction g simple_aliases aliased found a; match u with Some symbol => unit_actions g simple_aliases aliased (Some symbol) l | None => Ok None end).
Proof. by destruct a. Qed.
Lemma uniform_cons y a l : uniform y (a :: l) ↔ (a = ShiftExtra ∨ ∃ dp, a = Reduce y 1 dp 0) ∧ uniform y l.
Proof. unfold uniform. setoid_rewrite elem_of_cons. naive_solver. Qed.
Lemma reductions_known_cons a l : reductions_known (a :: l) → reductions_known [a] ∧ reductions_known l.
Proof. unfold reductions_known. setoid_rewrite elem_of_cons. setoid_rewrite elem_of_nil. naive_solver. Qed.
Lemma unit_actions_some y l : hidden y → reductions_known l →
  ∃ r, (∀ E, unit_actions (E:=E) g simple_aliases aliased (Some y) l = Ok r) ∧ (r = Some (Some y) ∧ uniform y l ∨ r = None ∧ ¬ uniform y l).
Proof.
  intros Hy. induction l as [|a l IH]; intros Hk; [exists (Some (Some y)); split; [done|]; left; split; [done|]; by intros a ?%not_elem_of_nil|].
  apply reductions_known_cons in Hk as [Hka Hkl]. destruct (IH Hkl) as (r & Hr & Hcase). setoid_rewrite uniform_cons.
  destruct (decide (a = ShiftExtra)) as [->|Hne].
  { exists r. split; [exact Hr|]. destruct Hcase as [[-> ?]|[-> ?]]; [left|right]; tauto. }
  setoid_rewrite (unit_actions_step (Some y) a l Hne). destruct (is_unit_spec (Some y) a Hka) as (u & Hu & Hiff). setoid_rewrite Hu. cbn [mbind outcome_bind].
  destruct u as [z|].
  - destruct (proj1 (Hiff z) eq_refl) as (Ha & _ & [?|[= <-]]); [done|]. exists r. split; [exact Hr|]. destruct Hcase as [[-> ?]|[-> ?]]; [left|right]; tauto.
  - exists None. split; [done|]. right. split; [done|]. intros [[->|Ha] _]; [done|]. by assert (None = Some y) by (apply Hiff; auto).
Qed.
Lemma unit_actions_none l : reductions_known l →
  ∃ r, (∀ E, unit_actions (E:=E) g simple_aliases aliased None l = Ok r) ∧ ∀ y, default None r = Some y ↔ hidden y ∧ uniform y l ∧ reduces y l.
Proof.
  induction l as [|a l IH]; intros Hk.
  { exists (Some None). split; [done|]. intros y. split; [done|]. by intros (_ & _ & dp & ?%not_elem_of_nil). }
  apply reductions_known_cons in Hk as [Hka Hkl]. destruct (decide (a = ShiftExtra)) as [->|Hne].
  { destruct (IH Hkl) as (r & Hr & Hiff). exists r. split; [exact Hr|]. intros y. rewrite Hiff, uniform_cons. unfold reduces. setoid_rewrite elem_of_cons. naive_solver. }
  setoid_rewrite (unit_actions_step None a l Hne). destruct (is_unit_spec None a Hka) as (u & Hu & Hiff). setoid_rewrite Hu. cbn [mbind outcome_bind].
  destruct u as [z|].
  - destruct (proj1 (Hiff z) eq_refl) as ([dp ->] & Hz & _). destruct (unit_actions_some z l Hz Hkl) as (r & Hr & Hcase). exists r. split; [exact Hr|].
    intros y. rewrite uniform_cons. assert (∀ dp', Reduce z 1 dp 0 = Reduce y 1 dp' 0 → z = y) as Hinj by (intros dp' Heq; by injection Heq).
    destruct Hcase as [[-> Hun]|[-> Hun]]; cbn.
    + split; [|by intros (_ & [[?|[dp' ->%Hinj]] _] & _)]. intros [= ->]. split; [done|]. split; [split; [right; by eexists|done]|]. exists dp. apply list_elem_of_here.
    + split; [done|]. by intros (_ & [[?|[dp' ->%Hinj]] ?] & _).
  - exists None. split; [done|]. intros y. split; [done|]. intros (Hy & [[?|Ha] _]%uniform_cons & _); [done|]. by assert (None = Some y) by (apply Hiff; auto).
Qed.
Lemma unit_actions_app found l1 l2 : ∀ E, unit_actions (E:=E) g simple_aliases aliased found (l1 ++ l2) =
  (r ← unit_actions g simple_aliases aliased found l1; match r with Some found => unit_actions g simple_aliases aliased found l2 | None => Ok None end).
Proof.
  intros E. revert found. induction l1 as [|a l1 IH]; intros found; [done|]. cbn [app]. destruct (decide (a = ShiftExtra)) as [->|Hne]; [apply IH|].
  rewrite !unit_actions_step by done. destruct (is_unit_reduction _ _ _ _ a) as [[y|]|e| |]; cbn [mbind outcome_bind]; [apply IH|done..].
Qed.
(** The lists of the entries of a state. *)
Definition entry_lists (p : ActionListPool) (entries : list (Symbol * N)) (ls : list (list ParseAction)) : Prop := Forall2 (λ e l, holds p e.2 l) entries ls.
Lemma entry_lists_exist p entries : (∀ k id, (k, id) ∈ entries → ∃ l, holds p id l) → ∃ ls, entry_lists p entries ls.
Proof.
  induction entries as [|[k id] entries IH]; intros Hh; [exists []; constructor|]. destruct (Hh k id (list_elem_of_here _ _)) as [l Hl].
  destruct IH as [ls Hls]; [intros k' id' Hin; apply (Hh k'); by apply list_elem_of_further|]. exists (l :: ls). by constructor.
Qed.
Lemma entry_lists_elem p entries ls a : entry_lists p entries ls → a ∈ concat ls ↔ ∃ k id l, (k, id) ∈ entries ∧ holds p id l ∧ a ∈ l.
Proof.
  intros Hf. rewrite elem_of_concat. split.
  - intros (l & [i Hi]%list_elem_of_lookup & Ha). destruct (Forall2_lookup_r _ _ _ _ _ Hf Hi) as ([k id] & He & Hl). exists k, id, l.
    split_and!; [by eapply list_elem_of_lookup_2|done|done].
  - intros (k & id & l & [i Hi]%list_elem_of_lookup & Hl & Ha). destruct (Forall2_lookup_l _ _ _ _ _ Hf Hi) as (l' & Hl' & Hh). cbn in Hh.
    exists l'. split; [by eapply list_elem_of_lookup_2|]. by rewrite (holds_fun _ _ _ _ Hh Hl).
Qed.
Lemma unit_entries_spec {E : Type} p entries ls : entry_lists p entries ls → ∀ found,
  unit_entries (E:=E) g simple_aliases p aliased found entries = unit_actions g simple_aliases aliased found (concat ls).
Proof.
  induction 1 as [|[k id] l entries ls Hl _ IH]; intros found; [done|]. cbn [unit_entries concat]. cbn [snd] in Hl. rewrite (Hl E). cbn [mbind outcome_bind].
  rewrite unit_actions_app. destruct (unit_actions g simple_aliases aliased found l) as [[f|]|e| |]; cbn [mbind outcome_bind]; [apply IH|done..].
Qed.
Lemma unit_symbol_spec p s n : state_ok p n s → (∀ k id l, (k, id) ∈ terminal_entries s → holds p id l → reductions_known l) →
  ∃ u, (∀ E, unit_reduction_symbol (E:=E) g simple_aliases p aliased s = Ok u) ∧ ∀ y, u = Some y ↔ unit_state p s y.
Proof.
  intros Hok Hk. unfold unit_reduction_symbol. destruct (has_eof_gated_reduce s) eqn:He.
  { exists None. split; [done|]. intros y. split; [done|]. intros [_ ? _ _]. congruence. }
  destruct (entry_lists_exist p (terminal_entries s) (so_ids _ _ _ Hok)) as [ls Hls]. setoid_rewrite (λ E, unit_entries_spec (E:=E) p _ ls Hls).
  destruct (unit_actions_none (concat ls)) as (r & Hr & Hiff).
  { intros y c dp i (k & id & l & Hin & Hl & Ha)%(entry_lists_elem _ _ _ _ Hls). by eapply Hk. }
  exists (default None r). split; [intros E; by rewrite Hr|]. intros y. rewrite Hiff. unfold uniform, reduces. setoid_rewrite (entry_lists_elem _ _ _ _ Hls). split.
  - intros (H1 & H2 & dp & k & id & l & Hin & Hl & Ha). split; [done|done| |].
    + intros k' id' l' Hin' Hl' a Ha'. apply H2. by exists k', id', l'.
    + exists k, id, l. split_and!; [done|done|by exists dp].
  - intros [H1 _ H2 (k & id & l & Hin & Hl & dp & Ha)]. split; [done|]. split; [|by exists dp, k, id, l].
    intros a (k' & id' & l' & Hin' & Hl' & Ha'). by apply (H2 k' id' l').
Qed.
Lemma units_spec {E : Type} t : table_ok t → (∀ s k id l, s ∈ pt_states t → (k, id) ∈ terminal_entries s → holds (action_lists t) id l → reductions_known l) →
  ∃ units, unit_reduction_symbols_by_state (E:=E) g simple_aliases t aliased = Ok units ∧
    ∀ x y, units !! x = Some y ↔ ∃ s, pt_states t !! N.to_nat x = Some s ∧ unit_state (action_lists t) s y.
Proof.
  intros [_ Hs Hsize] Hk. unfold unit_reduction_symbols_by_state.
  destruct (for_each_inv (λ (m : gmap N Symbol) '(i, s), u ← unit_reduction_symbol (E:=E) g simple_aliases (action_lists t) aliased s;
      Ok (match u with Some symbol => <[as_u32 i := symbol]> m | None => m end))
    (λ d (m : gmap N Symbol), ∀ x y, m !! x = Some y ↔ ∃ s, (N.to_nat x, s) ∈ d ∧ unit_state (action_lists t) s y) (imap pair (pt_states t)) ∅) as (units & -> & Hu).
  - intros x y. rewrite lookup_empty. split; [done|]. by intros (s & ?%not_elem_of_nil & _).
  - intros d [i s] r m Heq Hm. assert ((i, s) ∈ imap pair (pt_states t)) as Hin by (rewrite Heq; set_solver).
    assert (∀ s', (i, s') ∉ d) as Hnew.
    { intros s' Hd. apply list_elem_of_lookup in Hd as [j Hj]. pose proof (lookup_lt_Some _ _ _ Hj) as Hlt.
      assert (imap pair (pt_states t) !! j = Some (i, s')) as H1 by (rewrite Heq, lookup_app_l; done).
      assert (imap pair (pt_states t) !! length d = Some (i, s)) as H2 by (rewrite Heq; apply lookup_mid).
      rewrite list_lookup_imap in H1, H2. destruct (pt_states t !! j); [|done]. destruct (pt_states t !! length d); [|done].
      cbn in *. injection H1 as H1 _. injection H2 as H2 _. lia. }
    apply elem_of_lookup_imap in Hin as (i' & s' & [= -> ->] & Hi). assert (s' ∈ pt_states t) as Hin' by by eapply list_elem_of_lookup_2.
    destruct (unit_symbol_spec (action_lists t) s' _ (Hs s' Hin')) as (u & Hu & Hiff); [intros k id l; by apply Hk|]. rewrite (Hu E). cbn [mbind outcome_bind].
    assert (as_u32 i' = N.of_nat i') as -> by (unfold as_u32; apply wrap_u32_small; apply lookup_lt_Some in Hi; lia).
    eexists. split; [done|]. intros x y. setoid_rewrite elem_of_app. setoid_rewrite list_elem_of_singleton.
    destruct (decide (x = N.of_nat i')) as [->|Hne].
    + rewrite Nat2N.id. assert ((∃ s, ((i', s) ∈ d ∨ (i', s) = (i', s')) ∧ unit_state (action_lists t) s y) ↔ u = Some y) as ->.
      { rewrite Hiff. split; [|intros ?; exists s'; auto]. intros (s & [Hd|[= ->]] & ?); [by apply Hnew in Hd|done]. }
      destruct u as [z|]; [by rewrite lookup_insert_eq|]. split; [|done]. intros (s & Hd & _)%Hm. rewrite Nat2N.id in Hd. by apply Hnew in Hd.
    + assert (∀ s, (N.to_nat x, s) = (i', s') ↔ False) as Hf by (intros s; split; [intros [= <- _]; lia|done]). setoid_rewrite Hf.
      assert (match u with Some symbol => <[N.of_nat i' := symbol]> m | None => m end !! x = m !! x) as -> by (destruct u; [by rewrite lookup_insert_ne|done]).
      rewrite Hm. naive_solver.
  - exists units. split; [done|]. intros x y. rewrite Hu. split.
    + intros (s & Hin & ?). apply elem_of_lookup_imap in Hin as (i & s' & [= -> ->] & Hi). by exists s'.
    + intros (s & Hi & ?). exists s. split; [|done]. apply elem_of_lookup_imap. by exists (N.to_nat x), s.
Qed.
End units.

(** ** Interning into a pool that was built before *)
Definition dedup_sound (ids : gmap (list ParseAction) N) (lists : list (list ParseAction)) : Prop :=
  ∀ l i, ids !! l = Some i → lists !! N.to_nat i = Some l.
(** The pool extends_pool: what it holds stays. *)
Record extends_pool (p : ActionListPool) (lists : list (list ParseAction)) (p' : ActionListPool) (ids' : gmap (list ParseAction) N) (ext : list (list ParseAction)) : Prop := {
  gr_pool : pool_ok p' (lists ++ ext);
  gr_ids : dedup_sound ids' (lists ++ ext);
  gr_holds : ∀ id l, holds p id l → holds p' id l;
}.
Lemma holds_ext p p' lists ext id l : pool_ok p lists → pool_ok p' (lists ++ ext) → holds p id l → holds p' id l.
Proof. intros Hp Hp' Hl. apply (pool_holds _ _ _ _ Hp'). apply (pool_holds _ _ _ _ Hp) in Hl. by apply lookup_app_l_Some. Qed.
Lemma extends_refl p lists ids : pool_ok p lists → dedup_sound ids lists → extends_pool p lists p ids [].
Proof. intros Hp Hd. split; rewrite ?List.app_nil_r; done. Qed.
Lemma extends_trans p lists p1 ids1 ext1 p2 ids2 ext2 :
  extends_pool p lists p1 ids1 ext1 → extends_pool p1 (lists ++ ext1) p2 ids2 ext2 → extends_pool p lists p2 ids2 (ext1 ++ ext2).
Proof. intros [H1 H2 H3] [H4 H5 H6]. split; rewrite ?(assoc_L (++)); auto. Qed.
Lemma intern_sound p lists ids l b :
  pool_ok p lists → dedup_sound ids lists → (N.of_nat (length (concat lists) + length l) < U32)%N → (N.of_nat (S (length lists)) < REUSABLE_BIT)%N →
  ∃ i p' ids' ext, intern p ids (from_slice l) = (i, p', ids') ∧ extends_pool p lists p' ids' ext ∧ holds p' (id_new i b) l ∧ id_reusable (id_new i b) = b ∧
    length (concat ext) ≤ length l ∧ length ext ≤ 1.
Proof.
  intros Hp Hd H1 H2. unfold intern. rewrite actions_of_from_slice. destruct (ids !! l) as [i|] eqn:Hl.
  - pose proof (Hd _ _ Hl) as Hli. assert (i < REUSABLE_BIT)%N as Hi by (apply lookup_lt_Some in Hli; destruct Hp as (_ & _ & _ & ?); lia).
    exists i, p, ids, []. split; [done|]. split; [by apply extends_refl|]. split; [apply (pool_holds _ _ _ _ Hp); by rewrite id_index_new|].
    split; [by apply id_reusable_new|]. cbn. lia.
  - pose proof (pool_push_ok p lists l Hp H1 H2) as [Hp' Hi]. destruct (pool_push p l) as [i p'] eqn:Hpush. cbn [fst snd] in *.
    assert (i < REUSABLE_BIT)%N as Hi' by lia. assert ((lists ++ [l]) !! N.to_nat i = Some l) as Hlk by (rewrite Hi; apply lookup_mid).
    exists i, p', (<[l := i]> ids), [l]. split; [done|]. split; [|split; [apply (pool_holds _ _ _ _ Hp'); by rewrite id_index_new|]].
    + split; [done| |intros id k; by apply (holds_ext p p' lists [l])]. intros k j. rewrite lookup_insert_Some. intros [[<- <-]|[_ Hk]]; [done|].
      rewrite lookup_app_l; [by apply Hd|]. by eapply lookup_lt_Some, Hd.
    + split; [by apply id_reusable_new|]. cbn. rewrite List.app_nil_r. lia.
Qed.

(** ** One round over a state *)
Section skip.
Context (units : gmap N Symbol).
Definition skip_one (s : ParseState N) (a : ParseAction) : ParseAction := default a (skip_action units s a).
Definition changes (s : ParseState N) (l : list ParseAction) : bool := existsb (λ a, bool_decide (is_Some (skip_action units s a))) l.
Lemma changes_false s l : changes s l = false → map (skip_one s) l = l.
Proof.
  unfold changes. induction l as [|a l IH]; cbn; [done|]. rewrite orb_false_iff, bool_decide_eq_false. intros [Ha Hl]. f_equal; [|by apply IH].
  unfold skip_one. destruct (skip_action units s a); [|done]. by destruct Ha.
Qed.
Definition same_flags (e e' : Symbol * N) : Prop := e'.1 = e.1 ∧ id_reusable e'.2 = id_reusable e.2.
Lemma skip_shifts_spec {E : Type} s entries : ∀ p lists ids ls,
  pool_ok p lists → dedup_sound ids lists → entry_lists p entries ls →
  (N.of_nat (length (concat lists) + length (concat ls)) < U32)%N → (N.of_nat (length lists + length entries) < REUSABLE_BIT)%N →
  ∃ rest p' ids' ext, skip_shifts (E:=E) units s p ids entries = Ok (negb (existsb (changes s) ls), rest, p', ids') ∧
    extends_pool p lists p' ids' ext ∧ Forall2 same_flags entries rest ∧ entry_lists p' rest (map (map (skip_one s)) ls) ∧
    (existsb (changes s) ls = false → rest = entries ∧ p' = p ∧ ids' = ids ∧ ext = []) ∧
    length (concat ext) ≤ length (concat ls) ∧ length ext ≤ length entries.
Proof.
  induction entries as [|[k id] entries IH]; intros p lists ids ls Hp Hd Hls H1 H2; cbn [skip_shifts].
  { inversion Hls; subst. exists [], p, ids, []. split; [done|]. split; [by apply extends_refl|]. split; [constructor|]. split; [constructor|]. done. }
  inversion Hls as [|? l ? ls' Hl Hls' E1 E2]; subst. cbn [snd] in Hl. cbn [concat length] in H1, H2. rewrite length_app in H1.
  rewrite (Hl E). cbn [mbind outcome_bind existsb]. fold (changes s l). destruct (changes s l) eqn:Hc; cbn [orb negb andb].
  - destruct (intern_sound p lists ids (map (skip_one s) l) (id_reusable id) Hp Hd) as (i & p1 & ids1 & ext1 & Hint & Hg1 & Hh1 & Hr1 & Hs1 & Hs2).
    { rewrite length_map. lia. } { lia. }
    change (map (λ a, default a (skip_action units s a)) l) with (map (skip_one s) l). rewrite Hint. rewrite length_map in Hs1.
    destruct (IH p1 (lists ++ ext1) ids1 ls') as (rest & p2 & ids2 & ext2 & -> & Hg2 & Hf & He & _ & Hs3 & Hs4).
    { apply Hg1. } { apply Hg1. } { eapply Forall2_impl; [exact Hls'|]. intros e l' He. by apply (gr_holds _ _ _ _ _ Hg1). }
    { rewrite concat_app, length_app. lia. } { rewrite length_app. lia. }
    cbn [mbind outcome_bind]. eexists _, p2, ids2, (ext1 ++ ext2). split; [done|]. split; [by eapply extends_trans|].
    split; [constructor; [by split|done]|]. split; [constructor; [by apply (gr_holds _ _ _ _ _ Hg2)|done]|]. split; [done|].
    rewrite concat_app, !length_app. cbn. rewrite length_app. lia.
  - destruct (IH p lists ids ls' Hp Hd Hls') as (rest & p2 & ids2 & ext2 & -> & Hg2 & Hf & He & Hsame & Hs3 & Hs4); [lia|lia|].
    cbn [mbind outcome_bind]. eexists _, p2, ids2, ext2. split; [done|]. split; [done|]. split; [constructor; [done|done]|].
    split; [constructor; [rewrite changes_false by done; by apply (gr_holds _ _ _ _ _ Hg2)|done]|]. split.
    + intros Hn. destruct (Hsame Hn) as (-> & -> & -> & ->). done.
    + cbn. rewrite length_app. lia.
Qed.

Lemma goto_entry_spec s y z : keys_ok s → goto_entry s y = Some z ↔ (y, Goto z) ∈ nonterminal_entries s.
Proof.
  intros [_ Hnd]. unfold goto_entry. split.
  - destruct (im_get y (nonterminal_entries s)) as [[x|]|] eqn:Hy; [|done..]. intros [= ->]. by apply im_get_Some.
  - intros Hin. by rewrite (im_get_elem _ _ _ Hnd Hin).
Qed.
Definition skip_goto (s : ParseState N) (x : ParseStateId) : ParseStateId :=
  match units !! x with Some y => default x (goto_entry s y) | None => x end.
Definition gotos_done (s : ParseState N) : bool :=
  forallb (λ e, match e.2 with Goto x => bool_decide (units !! x = None) | GShiftExtra => true end) (nonterminal_entries s).
Definition skipped_gotos (s : ParseState N) : ParseState N := with_nonterminals s (remap_gotos (skip_goto s) (nonterminal_entries s)).
Lemma skip_gotos_spec {E : Type} s : keys_ok s → skip_gotos (E:=E) units s = Ok (gotos_done s, skipped_gotos s).
Proof.
  intros [K1 K2]. unfold skip_gotos. rewrite (update_gotos_spec s _ (skip_goto s)); [done|done|]. intros k x Hx. unfold skip_goto. by destruct (units !! x).
Qed.
Lemma gotos_done_spec s : gotos_done s = true ↔ ∀ k x, (k, Goto x) ∈ nonterminal_entries s → units !! x = None.
Proof.
  unfold gotos_done. rewrite forallb_forall. setoid_rewrite <- list_elem_of_In. split.
  - intros H k x Hx. specialize (H _ Hx). cbn in H. by apply bool_decide_eq_true in H.
  - intros H [k [x|]] Hx; [|done]. cbn. apply bool_decide_eq_true. by eapply H.
Qed.
Lemma skipped_gotos_done s : gotos_done s = true → skipped_gotos s = s.
Proof.
  rewrite gotos_done_spec. intros H. unfold skipped_gotos. assert (remap_gotos (skip_goto s) (nonterminal_entries s) = nonterminal_entries s) as ->; [|by destruct s].
  unfold remap_gotos. transitivity (map id (nonterminal_entries s)); [|apply map_id]. apply map_ext_in. intros [k [x|]] Hin; [|done].
  unfold id. cbn. unfold skip_goto. rewrite (H k x); [done|]. by apply list_elem_of_In.
Qed.

(** ** Chains of unit reductions from a state *)
(** After a shift or goto to [x], reducing leads to [z]. *)
Definition unit_step (s : ParseState N) (x z : ParseStateId) : Prop := ∃ y, units !! x = Some y ∧ (y, Goto z) ∈ nonterminal_entries s.
Definition goto_skips (s : ParseState N) (a a' : GotoAction) : Prop :=
  match a, a' with Goto x, Goto x' => rtc (unit_step s) x x' | GShiftExtra, GShiftExtra => True | _, _ => False end.
Definition action_skips (s : ParseState N) (a a' : ParseAction) : Prop :=
  match a, a' with Shift x b, Shift x' b' => rtc (unit_step s) x x' ∧ b = b' | Shift _ _, _ => False | _, Shift _ _ => False | _, _ => a = a' end.
(** State [s] is state [s0] with some steps of its chains skipped; [ls] are its
    action lists and [ls0] those of [s0]. *)
Record skipping (s0 : ParseState N) (ls0 : list (list ParseAction)) (p : ActionListPool) (s : ParseState N) (ls : list (list ParseAction)) : Prop := {
  sp_frame : s = with_terminals (with_nonterminals s0 (nonterminal_entries s)) (terminal_entries s);
  sp_gotos : Forall2 (λ e e', e'.1 = e.1 ∧ goto_skips s0 e.2 e'.2) (nonterminal_entries s0) (nonterminal_entries s);
  sp_flags : Forall2 same_flags (terminal_entries s0) (terminal_entries s);
  sp_lists : entry_lists p (terminal_entries s) ls;
  sp_actions : Forall2 (Forall2 (action_skips s0)) ls0 ls;
}.
(** Nothing is left to skip. *)
Definition settled (s : ParseState N) (ls : list (list ParseAction)) : Prop := gotos_done s = true ∧ existsb (changes s) ls = false.

Lemma action_skips_refl s a : action_skips s a a.
Proof. destruct a; cbn; auto using rtc_refl. Qed.
Lemma Forall2_keys {V W} (P : Symbol * V → Symbol * W → Prop) l l' : Forall2 (λ e e', e'.1 = e.1 ∧ P e e') l l' → l'.*1 = l.*1.
Proof. induction 1 as [|e e' l l' [He _] _ IH]; cbn; [done|]. by rewrite He, IH. Qed.

Section state.
Context (s0 : ParseState N) (ls0 : list (list ParseAction)) (Hkeys : keys_ok s0).
(** The chains of the gotos end. *)
Context (rank : ParseStateId → nat).
Definition chains_end : Prop := ∀ k x y, (k, Goto x) ∈ nonterminal_entries s0 → units !! x = Some y →
  ∃ z, (y, Goto z) ∈ nonterminal_entries s0 ∧ rank z < rank x.
Context (Hchains : chains_end).

Lemma skipping_keys p s ls : skipping s0 ls0 p s ls → keys_ok s.
Proof.
  intros Hs. destruct Hkeys as [K1 K2]. split.
  - assert ((terminal_entries s).*1 = (terminal_entries s0).*1) as ->; [|done]. by apply (Forall2_keys (λ e e', id_reusable e'.2 = id_reusable e.2)), (sp_flags _ _ _ _ _ Hs).
  - assert ((nonterminal_entries s).*1 = (nonterminal_entries s0).*1) as ->; [|done]. apply (Forall2_keys (λ e e', goto_skips s0 e.2 e'.2)), (sp_gotos _ _ _ _ _ Hs).
Qed.
Lemma goto_unique s k x x' : keys_ok s → (k, Goto x) ∈ nonterminal_entries s → (k, Goto x') ∈ nonterminal_entries s → x = x'.
Proof. intros [_ Hnd] H H'. apply (im_get_elem _ _ _ Hnd) in H, H'. congruence. Qed.
Lemma goto_origin p s ls k x : skipping s0 ls0 p s ls → (k, Goto x) ∈ nonterminal_entries s →
  ∃ x0, (k, Goto x0) ∈ nonterminal_entries s0 ∧ rtc (unit_step s0) x0 x.
Proof.
  intros Hs [i Hi]%list_elem_of_lookup. destruct (Forall2_lookup_r _ _ _ _ _ (sp_gotos _ _ _ _ _ Hs) Hi) as ([k0 a0] & H0 & Hk & Hg). cbn in Hk, Hg. subst k0.
  destruct a0 as [x0|]; [|done]. exists x0. split; [by eapply list_elem_of_lookup_2|done].
Qed.
Lemma goto_image p s ls k x0 : skipping s0 ls0 p s ls → (k, Goto x0) ∈ nonterminal_entries s0 →
  ∃ x, (k, Goto x) ∈ nonterminal_entries s ∧ rtc (unit_step s0) x0 x.
Proof.
  intros Hs [i Hi]%list_elem_of_lookup. destruct (Forall2_lookup_l _ _ _ _ _ (sp_gotos _ _ _ _ _ Hs) Hi) as ([k0 a] & H0 & Hk & Hg). cbn in Hk, Hg. subst k0.
  destruct a as [x|]; [|done]. exists x. split; [by eapply list_elem_of_lookup_2|done].
Qed.
Lemma chain_target x z k : (k, Goto x) ∈ nonterminal_entries s0 → rtc (unit_step s0) x z →
  rank z ≤ rank x ∧ ∃ k', (k', Goto z) ∈ nonterminal_entries s0.
Proof.
  intros Hx Hr. revert k Hx. induction Hr as [x|x w z (y & Hy & Hw) _ IH]; intros k Hx; [split; [done|by exists k]|].
  destruct (Hchains k x y Hx Hy) as (w' & Hw' & Hlt). rewrite (goto_unique s0 y w' w Hkeys Hw' Hw) in Hlt. destruct (IH y Hw) as [? ?]. split; [lia|done].
Qed.
Lemma goto_step p s ls k x y : skipping s0 ls0 p s ls → (k, Goto x) ∈ nonterminal_entries s → units !! x = Some y →
  ∃ z, goto_entry s y = Some z ∧ rtc (unit_step s0) x z ∧ rank z < rank x.
Proof.
  intros Hs Hx Hy. destruct (goto_origin p s ls k x Hs Hx) as (x0 & H0 & Hr). destruct (chain_target x0 x k H0 Hr) as (_ & k' & Hk').
  destruct (Hchains k' x y Hk' Hy) as (z0 & Hz0 & Hlt). destruct (goto_image p s ls y z0 Hs Hz0) as (z & Hz & Hrz).
  destruct (chain_target z0 z y Hz0 Hrz) as [Hle _]. exists z. split; [apply goto_entry_spec; [by eapply skipping_keys|done]|]. split; [|lia].
  eapply rtc_l; [|exact Hrz]. by exists y.
Qed.
Lemma skip_goto_chain p s ls k x : skipping s0 ls0 p s ls → (k, Goto x) ∈ nonterminal_entries s → rtc (unit_step s0) x (skip_goto s x).
Proof.
  intros Hs Hx. unfold skip_goto. destruct (units !! x) as [y|] eqn:Hy; [|done]. by destruct (goto_step p s ls k x y Hs Hx Hy) as (z & -> & Hz & _).
Qed.
Lemma skip_one_chain p s ls a : skipping s0 ls0 p s ls → action_skips s0 a (skip_one s a).
Proof.
  intros Hs. unfold skip_one, skip_action. destruct a as [|x b| | |]; try done. destruct (units !! x) as [y|] eqn:Hy; [|done]. cbn.
  destruct (goto_entry s y) as [z|] eqn:Hz; [|done]. cbn. case_decide; [done|]. split; [|done].
  apply goto_entry_spec in Hz; [|by eapply skipping_keys]. destruct (goto_origin p s ls y z Hs Hz) as (z0 & Hz0 & Hr). eapply rtc_l; [|exact Hr]. by exists y.
Qed.
Lemma action_skips_trans a b c : action_skips s0 a b → action_skips s0 b c → action_skips s0 a c.
Proof. destruct a, b; try done; destruct c; try done; cbn; [|congruence]. intros [? ->] [? ->]. split; [by etrans|done]. Qed.

Lemma skip_round p s ls p' rest : skipping s0 ls0 p s ls → (∀ id l, holds p id l → holds p' id l) →
  Forall2 same_flags (terminal_entries s) rest → entry_lists p' rest (map (map (skip_one (skipped_gotos s))) ls) →
  skipping s0 ls0 p' (with_terminals (skipped_gotos s) rest) (map (map (skip_one (skipped_gotos s))) ls).
Proof.
  intros Hs Hp Hf He.
  assert (skipping s0 ls0 p (skipped_gotos s) ls) as Hs1.
  { destruct Hs as [Hframe Hg Hfl Hls Ha]. split; cbn; [by rewrite Hframe at 1| |done|done|done].
    unfold remap_gotos. apply Forall2_fmap_r. apply Forall2_same_length_lookup. split; [by eapply Forall2_length|].
    intros i e e' Hi Hi'. destruct (Forall2_lookup_lr _ _ _ _ _ _ Hg Hi Hi') as [Hk Hgs]. split; [done|]. destruct e as [k a], e' as [k' a']. cbn in *. subst k'.
    destruct a as [x|], a' as [x'|]; try done. cbn in *. etrans; [exact Hgs|]. eapply (skip_goto_chain p s ls k); [by split|]. by eapply list_elem_of_lookup_2. }
  pose proof Hs1 as [Hframe Hg Hfl Hls Ha]. split; cbn; [by rewrite Hframe at 1|done| |done|].
  - clear -Hfl Hf. cbn in Hfl. revert rest Hf. induction Hfl as [|e e' l l' [H1 H2] _ IH]; intros rest Hf; inversion Hf as [|? e2 ? rest2 [H3 H4] Hf']; subst; constructor; [|by apply IH].
    split; congruence.
  - apply Forall2_fmap_r. eapply Forall2_impl; [exact Ha|]. intros l l' Hll. cbn. apply Forall2_fmap_r. eapply Forall2_impl; [exact Hll|].
    intros a b Hab. eapply action_skips_trans; [exact Hab|]. by eapply skip_one_chain.
Qed.

(** ** The rounds over a state *)
(** The gotos to unit reductions have chains shorter than [m]. *)
Definition below (s : ParseState N) (m : nat) : Prop := ∀ k x y, (k, Goto x) ∈ nonterminal_entries s → units !! x = Some y → rank x < m.
Lemma below_0 s : below s 0 → gotos_done s = true.
Proof. intros Hb. apply gotos_done_spec. intros k x Hx. destruct (units !! x) as [y|] eqn:Hy; [|done]. specialize (Hb k x y Hx Hy). lia. Qed.
Lemma below_round p s ls m : skipping s0 ls0 p s ls → below s m → below (skipped_gotos s) (pred m).
Proof.
  intros Hs Hb k x' y'. cbn. intros (x & -> & Hx)%elem_of_remap_gotos. unfold skip_goto. destruct (units !! x) as [y|] eqn:Hy; [|congruence].
  destruct (goto_step p s ls k x y Hs Hx Hy) as (z & -> & _ & Hlt). cbn. intros _. specialize (Hb k x y Hx Hy). lia.
Qed.
Lemma done_round_settled s ls rest : keys_ok s → gotos_done s = true → settled (with_terminals s rest) (map (map (skip_one s)) ls).
Proof.
  intros Hk Hd. split; [exact Hd|]. pose proof (proj1 (gotos_done_spec s) Hd) as Hg. apply not_true_iff_false. intros (l & Hl & Hc)%existsb_exists.
  apply in_map_iff in Hl as (l0 & <- & _). apply existsb_exists in Hc as (a & (a0 & <- & _)%in_map_iff & Hc%bool_decide_eq_true).
  assert (skip_action units s (skip_one s a0) = None) as Hn; [|change (is_Some (skip_action units s (skip_one s a0))) in Hc; rewrite Hn in Hc; by destruct Hc].
  unfold skip_one. destruct (skip_action units s a0) as [a'|] eqn:Ha; [|done]. cbn. destruct a0 as [|x b| | |]; try done. cbn in Ha.
  destruct (units !! x) as [y|]; [|done]. cbn in Ha. destruct (goto_entry s y) as [z|] eqn:Hz; [|done]. cbn in Ha. case_decide; [done|]. injection Ha as <-.
  apply goto_entry_spec in Hz; [|done]. cbn. by rewrite (Hg y z Hz).
Qed.
Lemma settled_round {E : Type} fuel s p ids lists ls : keys_ok s → settled s ls → pool_ok p lists → dedup_sound ids lists → entry_lists p (terminal_entries s) ls →
  (N.of_nat (length (concat lists) + length (concat ls)) < U32)%N → (N.of_nat (length lists + length (terminal_entries s)) < REUSABLE_BIT)%N →
  skip_state (E:=E) units (S fuel) s p ids = Ok (s, p, ids).
Proof.
  intros Hk [Hd Hc] Hp Hi Hls H1 H2. cbn [skip_state]. rewrite (skip_gotos_spec s Hk), Hd, (skipped_gotos_done s Hd). cbn [mbind outcome_bind].
  destruct (skip_shifts_spec (E:=E) s (terminal_entries s) p lists ids ls Hp Hi Hls H1 H2) as (rest & p' & ids' & ext & -> & _ & _ & _ & Hsame & _).
  destruct (Hsame Hc) as (-> & -> & -> & _). rewrite Hc. cbn. by destruct s.
Qed.
Lemma skip_state_spec {E : Type} m : ∀ fuel s p ids lists ls,
  m + 2 ≤ fuel → skipping s0 ls0 p s ls → below s m → pool_ok p lists → dedup_sound ids lists →
  (N.of_nat (length (concat lists) + (m + 2) * length (concat ls0)) < U32)%N → (N.of_nat (length lists + (m + 2) * length (terminal_entries s0)) < REUSABLE_BIT)%N →
  ∃ s' p' ids' ext ls', skip_state (E:=E) units fuel s p ids = Ok (s', p', ids') ∧ extends_pool p lists p' ids' ext ∧
    skipping s0 ls0 p' s' ls' ∧ settled s' ls' ∧
    length (concat ext) ≤ (m + 1) * length (concat ls0) ∧ length ext ≤ (m + 1) * length (terminal_entries s0).
Proof.
  assert (∀ p s ls, skipping s0 ls0 p s ls → length (concat ls) = length (concat ls0) ∧ length (terminal_entries s) = length (terminal_entries s0)) as Hlen.
  { intros p s ls Hs. split; [|symmetry; by eapply Forall2_length, sp_flags].
    pose proof (sp_actions _ _ _ _ _ Hs) as Ha. clear -Ha. induction Ha as [|l l' k k' Hl _ IH]; cbn; [done|]. rewrite !length_app, IH. by rewrite (Forall2_length _ _ _ Hl). }
  induction m as [|m IH]; intros [|fuel] s p ids lists ls Hfuel Hs Hb Hp Hd H1 H2; try lia; destruct (Hlen p s ls Hs) as [L1 L2];
    pose proof (skipping_keys p s ls Hs) as Hk; cbn [skip_state]; rewrite (skip_gotos_spec s Hk); cbn [mbind outcome_bind];
    (destruct (skip_shifts_spec (E:=E) (skipped_gotos s) (terminal_entries (skipped_gotos s)) p lists ids ls Hp Hd) as (rest & p1 & ids1 & ext1 & -> & Hg1 & Hf1 & He1 & Hsame & Hs1 & Hs2);
      [apply (sp_lists _ _ _ _ _ Hs)|rewrite L1; lia|cbn; rewrite L2; lia|]); cbn [terminal_entries skipped_gotos with_nonterminals] in Hf1, Hs2;
    cbn [mbind outcome_bind]; pose proof (skip_round p s ls p1 rest Hs (gr_holds _ _ _ _ _ Hg1) Hf1 He1) as Hs'.
  - pose proof (below_0 s Hb) as Hdone. rewrite Hdone, (skipped_gotos_done s Hdone) in *.
    pose proof (done_round_settled s ls rest Hk Hdone) as Hset. destruct (existsb (changes s) ls) eqn:Hc; cbn [negb andb].
    + destruct fuel as [|fuel]; [lia|]. destruct (Hlen _ _ _ Hs') as [L3 L4].
      rewrite (settled_round fuel _ p1 ids1 (lists ++ ext1) (map (map (skip_one s)) ls)); [|by eapply skipping_keys|done|apply Hg1|apply Hg1|apply Hs'| |].
      * eexists _, p1, ids1, ext1, _. split; [done|]. split; [done|]. split; [done|]. split; [done|]. lia.
      * rewrite concat_app, length_app. lia.
      * rewrite length_app. lia.
    + eexists _, p1, ids1, ext1, _. split; [done|]. split; [done|]. split; [done|]. split; [done|]. lia.
  - destruct (gotos_done s && negb (existsb (changes (skipped_gotos s)) ls)) eqn:Hend.
    + apply andb_true_iff in Hend as [Hdone _]. rewrite (skipped_gotos_done s Hdone) in *.
      eexists _, p1, ids1, ext1, _. split; [done|]. split; [done|]. split; [done|]. split; [by apply done_round_settled|]. lia.
    + destruct (IH fuel _ p1 ids1 (lists ++ ext1) _ ltac:(lia) Hs') as (s' & p' & ids' & ext & ls' & -> & Hg & Hsk & Hset & Hs3 & Hs4); [|apply Hg1|apply Hg1| | |].
      * by apply (below_round p s ls (S m)).
      * rewrite concat_app, length_app. lia.
      * rewrite length_app. lia.
      * exists s', p', ids', (ext1 ++ ext), ls'. split; [done|]. split; [by eapply extends_trans|]. split; [done|]. split; [done|].
        rewrite concat_app, !length_app. lia.
Qed.
End state.
End skip.

(** ** All states *)
Definition actions_size (p : ActionListPool) (s : ParseState N) : nat :=
  sum_list_with (λ e, match pool_get (E:=Empty_set) p e.2 with Ok l => length l | _ => 0 end) (terminal_entries s).
Lemma entry_lists_size p s ls : entry_lists p (terminal_entries s) ls → actions_size p s = length (concat ls).
Proof.
  unfold actions_size. generalize (terminal_entries s). intros es Hls. induction Hls as [|e l es ls Hl _ IH]; cbn; [done|]. rewrite Hl, IH. by rewrite length_app.
Qed.
Lemma skipping_mono units s0 ls0 p p' s ls : (∀ id l, holds p id l → holds p' id l) → skipping units s0 ls0 p s ls → skipping units s0 ls0 p' s ls.
Proof. intros Hp [H1 H2 H3 H4 H5]. split; [done..| |done]. eapply Forall2_impl; [exact H4|]. intros e l. apply Hp. Qed.
Lemma skipping_start units s p ls : entry_lists p (terminal_entries s) ls → skipping units s ls p s ls.
Proof.
  intros Hls. split; [by destruct s| | |done|].
  - apply Forall2_same_length_lookup. split; [done|]. intros i e e' H H'. rewrite H in H'. injection H' as <-. split; [done|]. destruct e as [k [x|]]; [apply rtc_refl|done].
  - apply Forall2_same_length_lookup. split; [done|]. intros i e e' H H'. rewrite H in H'. by injection H' as <-.
  - clear. induction ls as [|l ls IH]; constructor; [|done]. clear. induction l as [|a l IH]; constructor; [apply action_skips_refl|done].
Qed.

Section states.
Context (t : ParseTable N) (Ht : table_ok t) (units : gmap N Symbol) (rank : ParseStateId → nat) (m : nat).
Context (Hchains : ∀ s, s ∈ pt_states t → chains_end units s rank ∧ below units rank s m).
Notation p := (action_lists t).
(** What becomes of a state. *)
Definition skipped (p' : ActionListPool) (s s' : ParseState N) : Prop :=
  ∃ ls ls', entry_lists p (terminal_entries s) ls ∧ skipping units s ls p' s' ls' ∧ settled units s' ls'.
Lemma sum_snoc {A} (f : A → nat) d x : sum_list_with f (d ++ [x]) = sum_list_with f d + f x.
Proof. rewrite sum_list_with_app. cbn. lia. Qed.
Lemma skip_states_spec {E : Type} fuel lists :
  m + 2 ≤ fuel → pool_ok p lists →
  (N.of_nat (length (concat lists) + (m + 2) * sum_list_with (actions_size p) (pt_states t)) < U32)%N →
  (N.of_nat (length lists + (m + 2) * sum_list_with (λ s, length (terminal_entries s)) (pt_states t)) < REUSABLE_BIT)%N →
  ∃ new p', skip_states (E:=E) units fuel t = Ok (with_pool (with_states t new) p') ∧ pool_valid p' ∧ Forall2 (skipped p') (pt_states t) new.
Proof.
  intros Hfuel Hp H1 H2. unfold skip_states.
  destruct (for_each_inv (skip_next (E:=E) units fuel) (λ d '(new, p', ids'), ∃ ext, extends_pool p lists p' ids' ext ∧ Forall2 (skipped p') d new ∧
      length (concat ext) ≤ (m + 1) * sum_list_with (actions_size p) d ∧ length ext ≤ (m + 1) * sum_list_with (λ s, length (terminal_entries s)) d)
    (pt_states t) ([], p, ∅)) as ([[new p'] ids'] & -> & ext & Hg & Hf & _).
  - exists []. split; [apply extends_refl; [done|by intros l i ?]|]. split; [constructor|]. cbn. lia.
  - intros d s r [[new p'] ids'] Heq (ext & Hg & Hf & S1 & S2). unfold skip_next.
    assert (s ∈ pt_states t) as Hin by (rewrite Heq; set_solver). destruct (Hchains s Hin) as [Hch Hb]. pose proof (to_states _ Ht s Hin) as Hso.
    destruct (entry_lists_exist p (terminal_entries s) (so_ids _ _ _ Hso)) as [ls Hls]. pose proof (entry_lists_size p s ls Hls) as Hsize.
    assert (entry_lists p' (terminal_entries s) ls) as Hls' by (eapply Forall2_impl; [exact Hls|]; intros e l; apply (gr_holds _ _ _ _ _ Hg)).
    rewrite Heq, !sum_list_with_app in H1, H2. cbn in H1, H2.
    destruct (skip_state_spec units s ls (so_keys _ _ _ Hso) rank Hch (E:=E) m fuel s p' ids' (lists ++ ext) ls Hfuel) as (s' & p2 & ids2 & ext2 & ls' & -> & Hg2 & Hsk & Hset & S3 & S4);
      [by apply skipping_start|done|apply Hg|apply Hg| | |].
    + rewrite concat_app, length_app, <- Hsize. nia.
    + rewrite length_app. nia.
    + cbn [mbind outcome_bind]. eexists. split; [done|]. cbn. exists (ext ++ ext2). split; [by eapply extends_trans|]. split.
      * apply Forall2_app; [|constructor; [by exists ls, ls'|constructor]]. eapply Forall2_impl; [exact Hf|].
        intros s1 s1' (k & k' & Hk & Hk' & Hset1). exists k, k'. split; [done|]. split; [|done]. eapply skipping_mono; [|exact Hk']. apply (gr_holds _ _ _ _ _ Hg2).
      * rewrite !sum_snoc, concat_app, !length_app. rewrite <- Hsize in S3. lia.
  - cbn. eexists _, _. split; [done|]. split; [|exact Hf]. eexists. apply Hg.
Qed.

Lemma unit_step_refers s x z n : state_ok p n s → rtc (unit_step units s) x z → x = z ∨ N.to_nat z < n.
Proof.
  intros Hok Hr. apply rtc_inv_r in Hr as [->|(w & _ & y & _ & Hz)]; [by left|]. right. apply (so_refs _ _ _ Hok). right. eauto.
Qed.
Lemma skipped_ok p' n s s' : state_ok p n s → chains_end units s rank → skipped p' s s' → state_ok p' n s'.
Proof.
  intros Hok Hch (ls & ls' & Hls & Hsk & _). split; [by eapply skipping_keys, Hsk; apply Hok| |].
  - intros k id [i Hi]%list_elem_of_lookup. destruct (Forall2_lookup_l _ _ _ _ _ (sp_lists _ _ _ _ _ _ Hsk) Hi) as (l & _ & Hl). by exists l.
  - intros x' [(k & id & l & b & [i Hi]%list_elem_of_lookup & Hl & Hx')|(k & Hx')].
    + destruct (Forall2_lookup_l _ _ _ _ _ (sp_lists _ _ _ _ _ _ Hsk) Hi) as (l1 & Hl1 & Hh). cbn in Hh. rewrite (holds_fun _ _ _ _ Hl Hh) in Hx'. clear Hl Hh l.
      destruct (Forall2_lookup_r _ _ _ _ _ (sp_actions _ _ _ _ _ _ Hsk) Hl1) as (l0 & Hl0 & Hacts). apply list_elem_of_lookup in Hx' as [j Hj].
      destruct (Forall2_lookup_r _ _ _ _ _ Hacts Hj) as (a0 & Ha0 & Ha). destruct a0 as [|x b0| | |]; try done. destruct Ha as [Hr _].
      destruct (unit_step_refers s x x' n Hok Hr) as [<-|]; [|done]. apply (so_refs _ _ _ Hok). left.
      destruct (Forall2_lookup_r _ _ _ _ _ Hls Hl0) as ([k0 id0] & He & Hh0). exists k0, id0, l0, b0. split_and!; [by eapply list_elem_of_lookup_2|done|by eapply list_elem_of_lookup_2].
    + destruct (goto_origin units s ls p' s' ls' k x' Hsk Hx') as (x & Hx & Hr). destruct (unit_step_refers s x x' n Hok Hr) as [<-|]; [|done].
      apply (so_refs _ _ _ Hok). right. eauto.
Qed.
End states.

(** ** The pass *)
Section bypass.
Context (g : SyntaxGrammar) (simple_aliases : AliasMap) (t : ParseTable N).
Notation p := (action_lists t).
(** State [x] is a unit reduction to [y]. *)
Definition is_unit (x : ParseStateId) (y : Symbol) : Prop := ∃ s, pt_states t !! N.to_nat x = Some s ∧ unit_state g simple_aliases p s y.
(** A shift or goto from [s] to [x] is followed by the reduction of [x] and the
    goto from [s] to [z]. *)
Definition reduces_to (s : ParseState N) (x z : ParseStateId) : Prop := ∃ y, is_unit x y ∧ (y, Goto z) ∈ nonterminal_entries s.
(** State [s'] of a table with pool [p'] goes where [s] does after the unit
    reductions. *)
Definition goto_bypassed (s : ParseState N) (a a' : GotoAction) : Prop :=
  match a, a' with Goto x, Goto x' => rtc (reduces_to s) x x' ∧ ∀ y, ¬ is_unit x' y | GShiftExtra, GShiftExtra => True | _, _ => False end.
Definition action_bypassed (s : ParseState N) (a a' : ParseAction) : Prop :=
  match a, a' with
  | Shift x b, Shift x' b' => rtc (reduces_to s) x x' ∧ nf (reduces_to s) x' ∧ b = b'
  | Shift _ _, _ | _, Shift _ _ => False
  | _, _ => a = a'
  end.
Record bypassed (p' : ActionListPool) (s s' : ParseState N) : Prop := {
  by_frame : s' = with_terminals (with_nonterminals s (nonterminal_entries s')) (terminal_entries s');
  by_gotos : Forall2 (λ e e', e'.1 = e.1 ∧ goto_bypassed s e.2 e'.2) (nonterminal_entries s) (nonterminal_entries s');
  by_terminals : Forall2 (λ e e', e'.1 = e.1 ∧ id_reusable e'.2 = id_reusable e.2 ∧
    ∃ l l', holds p e.2 l ∧ holds p' e'.2 l' ∧ Forall2 (action_bypassed s) l l') (terminal_entries s) (terminal_entries s');
}.

Context (units : gmap N Symbol) (Hunits : ∀ x y, units !! x = Some y ↔ is_unit x y).
Lemma unit_step_reduces s x z : unit_step units s x z ↔ reduces_to s x z.
Proof. unfold unit_step, reduces_to. by setoid_rewrite Hunits. Qed.
Lemma chain_reduces s x z : rtc (unit_step units s) x z → rtc (reduces_to s) x z.
Proof. induction 1 as [|x w z Hw _ IH]; [done|]. eapply rtc_l; [|exact IH]. by apply unit_step_reduces. Qed.
Lemma settled_shift p' s s' ls ls' x b l : keys_ok s' → skipping units s ls p' s' ls' → settled units s' ls' → l ∈ ls' → Shift x b ∈ l → nf (reduces_to s) x.
Proof.
  intros Hk Hsk [Hd Hc] Hl Hx [z (y & Hy & Hz)%unit_step_reduces]. destruct (goto_image units s ls p' s' ls' y z Hsk Hz) as (z' & Hz' & _).
  pose proof (proj1 (gotos_done_spec units s') Hd) as Hg. apply not_true_iff_false in Hc. apply Hc. apply existsb_exists. exists l. split; [by apply list_elem_of_In|].
  apply existsb_exists. exists (Shift x b). split; [by apply list_elem_of_In|]. apply bool_decide_eq_true. cbn. rewrite Hy. cbn.
  rewrite (proj2 (goto_entry_spec s' y z' Hk) Hz'). cbn. rewrite decide_False; [by eexists|]. intros ->. by rewrite (Hg y x Hz') in Hy.
Qed.
Lemma skipped_bypassed p' s s' : keys_ok s → skipped t units p' s s' → bypassed p' s s'.
Proof.
  intros Hks (ls & ls' & Hls & Hsk & Hset). assert (keys_ok s') as Hk by by eapply skipping_keys.
  pose proof Hsk as [Hframe Hgotos Hflags Hlists Hacts]. split; [done| |].
  - apply Forall2_same_length_lookup. split; [by eapply Forall2_length|]. intros i e e' Hi Hi'.
    destruct (Forall2_lookup_lr _ _ _ _ _ _ Hgotos Hi Hi') as [H1 H2]. split; [done|]. destruct e as [k [x|]], e' as [k' [x'|]]; cbn in *; try done.
    split; [by apply chain_reduces|]. intros y Hy%Hunits. pose proof (proj1 (gotos_done_spec units s') (proj1 Hset) k' x') as Hn.
    rewrite Hn in Hy; [done|]. by eapply list_elem_of_lookup_2.
  - apply Forall2_same_length_lookup. split; [by eapply Forall2_length|]. intros i e e' Hi Hi'.
    destruct (Forall2_lookup_lr _ _ _ _ _ _ Hflags Hi Hi') as [H1 H2]. split; [done|]. split; [done|].
    destruct (Forall2_lookup_l _ _ _ _ _ Hls Hi) as (l & Hl & Hh). destruct (Forall2_lookup_l _ _ _ _ _ Hlists Hi') as (l' & Hl' & Hh').
    exists l, l'. split; [done|]. split; [done|]. pose proof (Forall2_lookup_lr _ _ _ _ _ _ Hacts Hl Hl') as Ha.
    apply Forall2_same_length_lookup. split; [by eapply Forall2_length|]. intros j a a' Hj Hj'. pose proof (Forall2_lookup_lr _ _ _ _ _ _ Ha Hj Hj') as Haa.
    destruct a as [|x b| | |], a' as [|x' b'| | |]; cbn in *; try done. destruct Haa as [Hr ->]. split; [by apply chain_reduces|]. split; [|done].
    eapply (settled_shift p' s s' ls ls' x' b' l'); try done; by eapply list_elem_of_lookup_2.
Qed.
End bypass.

(** C6: [remove_unit_reductions] ends without panicking on a table whose
    references exist, whose reductions are of variables, whose chains of unit
    reductions end, and whose pool has room.  In every state, a goto target that
    is a unit reduction is replaced by the state that its reductions lead to,
    which is none, and so is the target of a shift as far as the state has gotos
    for it; nothing else changes. *)
Theorem remove_unit_reductions_correct (E : Type) (g : SyntaxGrammar) (simple_aliases : AliasMap) (fuel m : nat) (rank : ParseStateId → nat) (t : ParseTable N)
    (lists : list (list ParseAction)) :
  table_ok t → readable g → pool_ok (action_lists t) lists →
  (∀ s k id l, s ∈ pt_states t → (k, id) ∈ terminal_entries s → holds (action_lists t) id l → reductions_known g l) →
  (∀ s k x y, s ∈ pt_states t → (k, Goto x) ∈ nonterminal_entries s → is_unit g simple_aliases t x y →
     rank x < m ∧ ∃ z, (y, Goto z) ∈ nonterminal_entries s ∧ rank z < rank x) →
  (N.of_nat (length (concat lists) + (m + 2) * sum_list_with (actions_size (action_lists t)) (pt_states t)) < U32)%N →
  (N.of_nat (length lists + (m + 2) * sum_list_with (λ s, length (terminal_entries s)) (pt_states t)) < REUSABLE_BIT)%N →
  m + 2 ≤ fuel →
  ∃ t', remove_unit_reductions (E:=E) g simple_aliases fuel t = Ok t' ∧ table_ok t' ∧
    Forall2 (bypassed g simple_aliases t (action_lists t')) (pt_states t) (pt_states t').
Proof.
  intros Ht Hg Hp Hred Hchains H1 H2 Hfuel. unfold remove_unit_reductions.
  destruct (aliased_symbols_spec g Hg (E:=E)) as (aliased & -> & Haliased). cbn [mbind outcome_bind].
  destruct (units_spec g simple_aliases aliased Haliased (E:=E) t Ht Hred) as (units & -> & Hunits). cbn [mbind outcome_bind].
  assert (∀ s, s ∈ pt_states t → chains_end units s rank ∧ below units rank s m) as Hch.
  { intros s Hs. split; intros k x y Hx Hy%Hunits; by destruct (Hchains s k x y Hs Hx Hy). }
  case_decide as Hnone.
  - exists t. split; [done|]. split; [done|]. apply Forall2_same_length_lookup. split; [done|]. intros i s s' Hi Hi'. rewrite Hi in Hi'. injection Hi' as <-.
    assert (s ∈ pt_states t) as Hs by by eapply list_elem_of_lookup_2. pose proof (to_states _ Ht s Hs) as Hso.
    apply (skipped_bypassed g simple_aliases t units Hunits); [apply Hso|].
    destruct (entry_lists_exist (action_lists t) (terminal_entries s) (so_ids _ _ _ Hso)) as [ls Hls]. exists ls, ls. split; [done|]. split; [by apply skipping_start|].
    split; [apply gotos_done_spec; intros k x _; by rewrite Hnone, lookup_empty|]. apply not_true_iff_false.
    intros (l & _ & (a & _ & Ha%bool_decide_eq_true)%existsb_exists)%existsb_exists. destruct a as [|x b| | |]; cbn in Ha; [by destruct Ha| |by destruct Ha..].
    rewrite Hnone, lookup_empty in Ha. by destruct Ha.
  - destruct (skip_states_spec t Ht units rank m Hch (E:=E) fuel lists Hfuel Hp H1 H2) as (new & p' & -> & Hp' & Hf).
    eexists. split; [done|]. pose proof (Forall2_length _ _ _ Hf) as Hlen. split.
    + split; cbn; [done| |rewrite <- Hlen; apply Ht]. intros s' [i Hi]%list_elem_of_lookup. destruct (Forall2_lookup_r _ _ _ _ _ Hf Hi) as (s & Hs & Hsk).
      assert (s ∈ pt_states t) as Hin by by eapply list_elem_of_lookup_2. rewrite <- Hlen.
      eapply (skipped_ok t units rank p'); [by apply to_states|by apply Hch|exact Hsk].
    + cbn. apply Forall2_same_length_lookup. split; [done|]. intros i s s' Hi Hi'. apply (skipped_bypassed g simple_aliases t units Hunits).
      * apply (so_keys _ _ _ (to_states _ Ht s ltac:(by eapply list_elem_of_lookup_2))).
      * by apply (Forall2_lookup_lr _ _ _ _ _ _ Hf Hi Hi').
Qed.

(** ** Witness *)
(** State 2 reduces a token to the hidden symbol 1, and state 4 that to 0. *)
Definition ex_symbol (i : N) : Symbol := mkSymbol NonTerminal i.
Definition ex_unit_grammar : SyntaxGrammar :=
  mkSyntaxGrammar [mkSyntaxVariable 1 Hidden; mkSyntaxVariable 2 Hidden] [] [] [] [] [] None [] [] [] [] [(0, 0); (0, 0)]%N.
Definition ex_unit_lists : list (list ParseAction) := [[Shift 2 false]; [Reduce (ex_symbol 1) 1 0 0]; [Reduce (ex_symbol 0) 1 0 0]; [PAccept]].
Definition ex_unit_pool : ActionListPool :=
  mkActionPool [Shift 2 false; Reduce (ex_symbol 1) 1 0 0; Reduce (ex_symbol 0) 1 0 0; PAccept] [mkActionRange 0 1; mkActionRange 1 1; mkActionRange 2 1; mkActionRange 3 1] [].
Definition ex_unit_table : ParseTable N :=
  mkParseTable
    [ex_parse_state 0 [] []; ex_parse_state 1 [(terminal 0, 0%N)] [(ex_symbol 0, Goto 3); (ex_symbol 1, Goto 4)]; ex_parse_state 2 [(terminal 1, 1%N)] [];
     ex_parse_state 3 [(terminal 1, 3%N)] []; ex_parse_state 4 [(terminal 1, 2%N)] []] ex_unit_pool [] [] 0 [].
Definition ex_rank (x : ParseStateId) : nat := if (x =? 4)%N then 1 else 0.
Example remove_unit_example :
  (λ t, (map (λ s, (terminal_entries s, nonterminal_entries s)) (pt_states t) !! 1, actions (action_lists t))) <$>
    remove_unit_reductions (E:=Empty_set) ex_unit_grammar ∅ 4 ex_unit_table =
    Ok (Some ([(terminal 0, 4%N)], [(ex_symbol 0, Goto 3); (ex_symbol 1, Goto 3)]),
        [Shift 2 false; Reduce (ex_symbol 1) 1 0 0; Reduce (ex_symbol 0) 1 0 0; PAccept; Shift 3 false]).
Proof. vm_compute. reflexivity. Qed.
Lemma ex_unit_pool_ok : pool_ok (action_lists ex_unit_table) ex_unit_lists.
Proof. repeat split. Qed.
Lemma ex_unit_is_unit k x y s : s ∈ pt_states ex_unit_table → (k, Goto x) ∈ nonterminal_entries s → is_unit ex_unit_grammar ∅ ex_unit_table x y →
  s = ex_parse_state 1 [(terminal 0, 0%N)] [(ex_symbol 0, Goto 3); (ex_symbol 1, Goto 4)] ∧ x = 4%N ∧ y = ex_symbol 0.
Proof.
  intros Hs Hx (s' & Hs' & [_ _ _ (k' & id & l & Hin & Hl & dp & Hr)]). apply (pool_holds _ _ _ _ ex_unit_pool_ok) in Hl.
  cbn in Hs. rewrite !elem_of_cons, elem_of_nil in Hs. destruct Hs as [-> |[-> |[-> |[-> |[-> |[]]]]]]; cbn in Hx; rewrite ?elem_of_cons, elem_of_nil in Hx; try done.
  destruct Hx as [Hx|[Hx|[]]]; injection Hx as -> ->; cbn in Hs'; injection Hs' as <-; cbn in Hin; apply list_elem_of_singleton in Hin; injection Hin as -> ->;
    vm_compute in Hl; injection Hl as <-; apply list_elem_of_singleton in Hr; [done|]. by injection Hr as ->.
Qed.
Lemma remove_unit_reductions_witness :
  ∃ t', remove_unit_reductions (E:=Empty_set) ex_unit_grammar ∅ 4 ex_unit_table = Ok t' ∧ table_ok t' ∧
    Forall2 (bypassed ex_unit_grammar ∅ ex_unit_table (action_lists t')) (pt_states ex_unit_table) (pt_states t').
Proof.
  apply (remove_unit_reductions_correct Empty_set ex_unit_grammar ∅ 4 2 ex_rank ex_unit_table ex_unit_lists).
  - apply (table_ok_check ex_unit_table ex_unit_lists ex_unit_pool_ok); [reflexivity|vm_compute; reflexivity].
  - intros v Hv. cbn in Hv. exists (0, 0)%N. split; [by destruct v as [|[|]]; [..|lia]|]. intros id Hid. vm_compute in Hid. by apply not_elem_of_nil in Hid.
  - exact ex_unit_pool_ok.
  - intros s k id l _ _ Hl y c dp i Hin. apply (pool_holds _ _ _ _ ex_unit_pool_ok) in Hl.
    destruct (id_index id) as [|[|[|[|]]]]; cbn in Hl; try done; injection Hl as <-; apply list_elem_of_singleton in Hin; try done; injection Hin as -> _ _ _; cbn; lia.
  - intros s k x y Hs Hx Hu. destruct (ex_unit_is_unit k x y s Hs Hx Hu) as (-> & -> & ->). split; [cbn; lia|]. exists 3%N. split; [apply list_elem_of_here|cbn; lia].
  - vm_compute. reflexivity.
  - vm_compute. reflexivity.
  - lia.
Defined.
