(* ===== verification/LexBuild.v ===== *)
(** * [build_tables/build_lex_table.rs]: the whole pass

    [build_lex_table] gives every parse state a lex state of the main table:
    the token sets of the parse states are merged, determinized, minimized and
    sorted.  The large character sets are collected from one table per token. *)
From S2P Require Import Prelude BitVec Symbols TokenSet CharSet Nfa Grammars Tables TokenConflicts LexTable LexMinimize.

Notation out := (outcome Empty_set) (only parsing).

(** ** The whole pass *)
Definition LARGE_CHARACTER_RANGE_COUNT : nat := 8.

(** The tokens of a parse state, keywords replaced by the word token. *)
Fixpoint lex_tokens (word_token : option Symbol) (keywords : TokenSet) (l : list Symbol) : out (list Symbol) :=
  match l with
  | [] => Ok []
  | token :: l =>
      o ← (if is_terminal token then
             k ← TokenSet.contains keywords token;
             Ok (if k : bool then word_token else Some token)
           else Ok (if is_eof token then Some token else None));
      rest ← lex_tokens word_token keywords l;
      Ok (match o with Some t => t :: rest | None => rest end)
  end.
Definition state_tokens {T} (word_token : option Symbol) (keywords : TokenSet) (s : ParseState T) : out TokenSet :=
  r ← iter (reserved_words s);
  l ← lex_tokens word_token keywords (map fst (terminal_entries s) ++ r);
  from_iter l.

(** Merging a parse state into the first set that admits it. *)
Fixpoint merge_entry (i : N) (tokens : TokenSet) (m : TokenConflictMap) (ci : CoincidentTokenIndex)
    (entries : list (TokenSet * list N)) : out (option (list (TokenSet * list N))) :=
  match entries with
  | [] => Ok None
  | (set, ids) :: entries =>
      '(merged, set) ← merge_token_set set tokens m ci;
      if merged : bool then Ok (Some ((set, ids ++ [i]) :: entries))
      else
        o ← merge_entry i tokens m ci entries;
        Ok (option_map (cons (set, ids)) o)
  end.
Fixpoint merge_states {T} (word_token : option Symbol) (keywords : TokenSet) (m : TokenConflictMap)
    (ci : CoincidentTokenIndex) (i : nat) (ss : list (ParseState T)) (entries : list (TokenSet * list N)) :
    out (list (TokenSet * list N)) :=
  match ss with
  | [] => Ok entries
  | s :: ss =>
      tokens ← state_tokens word_token keywords s;
      o ← merge_entry (as_u32 i) tokens m ci entries;
      merge_states word_token keywords m ci (S i) ss
        (match o with Some entries => entries | None => entries ++ [(tokens, [as_u32 i])] end)
  end.

Fixpoint assign_lex_state {T} (id : LexStateId) (l : list N) (ss : list (ParseState T)) : out (list (ParseState T)) :=
  match l with
  | [] => Ok ss
  | i :: l =>
      s ← vec_get ss (N.to_nat i);
      ss ← vec_set ss (N.to_nat i) (with_lex_state_id s id);
      assign_lex_state id l ss
  end.
Fixpoint add_entries {T} (fuel n : nat) (b : LexTableBuilder) (entries : list (TokenSet * list N))
    (ss : list (ParseState T)) : out (LexTableBuilder * list (ParseState T)) :=
  match entries with
  | [] => Ok (b, ss)
  | (tokens, ids) :: entries =>
      '(id, b) ← add_state_for_tokens fuel n b tokens;
      ss ← assign_lex_state id ids ss;
      add_entries fuel n b entries ss
  end.

Fixpoint large_sets_of_actions (acts : list (CharacterSet * AdvanceAction)) (characters : CharacterSet)
    (sets : list (option Symbol * CharacterSet)) : out (CharacterSet * list (option Symbol * CharacterSet)) :=
  match acts with
  | [] => Ok (characters, sets)
  | (chars, action) :: acts =>
      if in_main_token action then
        characters ← add characters chars; large_sets_of_actions acts characters sets
      else
        large_sets_of_actions acts characters
          (if (LARGE_CHARACTER_RANGE_COUNT <? range_count chars) && negb (existsb (λ e, bool_decide (e.2 = chars)) sets)
           then sets ++ [(None, chars)] else sets)
  end.
Fixpoint large_sets_of_states (symbol : Symbol) (states : LexTable) (sets : list (option Symbol * CharacterSet)) :
    out (list (option Symbol * CharacterSet)) :=
  match states with
  | [] => Ok sets
  | s :: states =>
      '(characters, sets) ← large_sets_of_actions (advance_actions s) empty sets;
      large_sets_of_states symbol states
        (if (LARGE_CHARACTER_RANGE_COUNT <? range_count characters)
            && negb (existsb (λ e, bool_decide (e.2 = characters)) sets)
         then sets ++ [(Some symbol, characters)] else sets)
  end.
Fixpoint large_sets (fuel n : nat) (b : LexTableBuilder) (ix : list nat) (sets : list (option Symbol * CharacterSet)) :
    out (list (option Symbol * CharacterSet)) :=
  match ix with
  | [] => Ok sets
  | variable_ix :: ix =>
      let symbol := terminal (N.of_nat variable_ix) in
      tokens ← from_iter [symbol];
      '(_, b) ← add_state_for_tokens fuel n (builder_reset b) tokens;
      sets ← large_sets_of_states symbol (table b) sets;
      large_sets fuel n b ix sets
  end.

Record LexTables := mkLexTables {
  main_lex_table : LexTable;
  keyword_lex_table : LexTable;
  large_character_sets : list (option Symbol * CharacterSet);
}.

(** [fuel] and [n] bound the determinization, [k] and [m] the minimization. *)
Definition build_lex_table {T} (fuel n k m : nat) (parse_states : list (ParseState T)) (word_token : option Symbol)
    (lexical_grammar : LexicalGrammar) (keywords : TokenSet) (ci : CoincidentTokenIndex) (cm : TokenConflictMap) :
    out (LexTables * list (ParseState T)) :=
  keyword_lex_table ← match word_token with
                      | Some _ =>
                          b ← builder_new fuel lexical_grammar;
                          '(_, b) ← add_state_for_tokens fuel n b keywords;
                          Ok (table b)
                      | None => Ok []
                      end;
  entries ← merge_states word_token keywords cm ci 0 parse_states [];
  b ← builder_new fuel lexical_grammar;
  '(b, parse_states) ← add_entries fuel n b entries parse_states;
  '(main, parse_states) ← minimize_lex_table k m (table b) parse_states;
  '(main, parse_states) ← sort_states main parse_states;
  sets ← large_sets fuel n b (seq 0 (length (lg_variables lexical_grammar))) [];
  Ok (mkLexTables main keyword_lex_table sets, parse_states).


(** ** The tokens of a parse state *)
Lemma from_iter_spec {E} l :
  (∀ t, t ∈ l → token t) → ∃ s, from_iter (E:=E) l = Ok s ∧ wf s ∧ ∀ t, t ∈ toks s ↔ t ∈ l.
Proof.
  intros Hl. unfold from_iter.
  assert (∀ acc, wf acc → ∃ s, from_iter_loop (E:=E) acc l = Ok s ∧ wf s ∧ ∀ t, t ∈ toks s ↔ t ∈ toks acc ∨ t ∈ l) as Hgen.
  { induction l as [|x l IH]; intros acc Hacc; cbn [from_iter_loop].
    - exists acc. split; [done|]. split; [done|]. intros t. rewrite elem_of_nil. tauto.
    - destruct (insert_spec (E:=E) acc x Hacc) as (a & -> & Ha & Htok); [apply Hl, list_elem_of_here|]. cbn [mbind outcome_bind].
      destruct (IH ltac:(intros; apply Hl; by apply list_elem_of_further) a Ha) as (s & -> & Hs & Hx). exists s.
      split; [done|]. split; [done|]. intros t. rewrite Hx, Htok, elem_of_union, elem_of_singleton, elem_of_cons. tauto. }
  destruct (Hgen TokenSet.new wf_new) as (s & -> & Hs & Hx). exists s. split; [done|]. split; [done|]. intros t. rewrite Hx.
  assert (toks TokenSet.new = ∅) as -> by (by vm_compute). set_solver.
Qed.

Section build.
Context (g : LexicalGrammar) (Hg : lexer_ok g) (word_token : option Symbol) (keywords : TokenSet).
Context {T : Type}.
Notation n_tokens := (length (lg_variables g)).
Context (Hn : (N.of_nat n_tokens < U32)%N).
Context (Hword : ∀ w, word_token = Some w → is_terminal w = true ∧ N.to_nat (index w) < n_tokens).
Context (Hkw : wf keywords).

(** A terminal of the lexical grammar, or the end of the file. *)
Definition lexed (t : Symbol) : Prop :=
  (is_terminal t = true → N.to_nat (index t) < n_tokens) ∧ (is_eof t = true → index t = 0%N).
Definition parse_state_ok (s : ParseState T) : Prop :=
  (∀ t, t ∈ map fst (terminal_entries s) → lexed t) ∧ tokens_ok g (reserved_words s).

(** [t] is what the lexer looks for when the parse state has the token [u]. *)
Definition stands_for (u t : Symbol) : Prop :=
  (is_terminal u = true ∧ if mem keywords u then word_token = Some t else t = u) ∨
  (is_terminal u = false ∧ is_eof u = true ∧ t = u).
(** The tokens that the lexer must recognize in a parse state. *)
Definition needs (s : ParseState T) (t : Symbol) : Prop :=
  ∃ u, (u ∈ map fst (terminal_entries s) ∨ u ∈ toks (reserved_words s)) ∧ stands_for u t.

Lemma lex_tokens_spec l : ∃ l', lex_tokens word_token keywords l = Ok l' ∧ ∀ t, t ∈ l' ↔ ∃ u, u ∈ l ∧ stands_for u t.
Proof.
  induction l as [|u l (l' & IH & Hl')]; cbn [lex_tokens].
  { exists []. split; [done|]. intros t. split; [by intros ?%elem_of_nil|]. by intros (u & ?%elem_of_nil & _). }
  assert (∃ o, (if is_terminal u then k ← TokenSet.contains keywords u; Ok (if k : bool then word_token else Some u)
    else Ok (if is_eof u then Some u else None)) = (Ok o : out _) ∧ ∀ t, o = Some t ↔ stands_for u t) as (o & -> & Ho).
  { unfold stands_for. destruct (is_terminal u) eqn:Hu.
    - unfold is_terminal in Hu. apply bool_decide_eq_true in Hu.
      rewrite contains_spec by (done || congruence). cbn [mbind outcome_bind]. eexists. split; [done|]. intros t.
      destruct (mem keywords u); naive_solver.
    - eexists. split; [done|]. intros t. destruct (is_eof u); naive_solver. }
  cbn [mbind outcome_bind]. rewrite IH. cbn [mbind outcome_bind]. eexists. split; [done|]. intros t.
  setoid_rewrite elem_of_cons. destruct o as [t0|].
  - rewrite elem_of_cons, Hl'. split.
    + intros [-> |(v & ? & ?)]; [exists u; split; [by left|by apply Ho]|exists v; auto].
    + intros (v & [-> |?] & Hs); [left; apply Ho in Hs; congruence|right; by exists v].
  - rewrite Hl'. split; [intros (v & ? & ?); exists v; auto|].
    intros (v & [-> |?] & Hs); [apply Ho in Hs; done|by exists v].
Qed.

Lemma needs_lexed s t : parse_state_ok s → needs s t → token t ∧ (is_terminal t = true → N.to_nat (index t) < n_tokens).
Proof.
  intros [He [Hw Hr]] (u & Hu & Hs).
  assert (∀ v, is_terminal v = true → N.to_nat (index v) < n_tokens → token v) as Htok.
  { intros [k i] Hk Hi. unfold is_terminal in Hk. apply bool_decide_eq_true in Hk. cbn in *. subst k. unfold token. cbn. lia. }
  assert (is_terminal u = true → N.to_nat (index u) < n_tokens) as Hut by (destruct Hu as [?|?]; [by apply He|by apply Hr]).
  destruct Hs as [[Hterm Hk]|(Hterm & Heof & ->)].
  - destruct (mem keywords u); [apply Hword in Hk as [? ?]; auto|subst; auto].
  - split; [|congruence]. unfold is_eof in Heof. apply bool_decide_eq_true in Heof. unfold token. rewrite Heof.
    destruct Hu as [Hu|Hu]; [apply (He u Hu); unfold is_eof; by rewrite bool_decide_eq_true_2|].
    apply elem_of_toks in Hu as [Htk _]; [|done]. unfold token in Htk. by rewrite Heof in Htk.
Qed.

(** Sets of tokens of the lexical grammar, in both forms. *)
Lemma in_lexicon_iff s : in_lexicon n_tokens s ↔ tokens_ok g s.
Proof.
  unfold in_lexicon, tokens_ok, has_terminal. split; intros [Hw H]; (split; [done|]).
  - intros [k i] [Htok Hm]%elem_of_toks Hk; [|done]. unfold is_terminal in Hk. apply bool_decide_eq_true in Hk.
    cbn in *. subst k. apply H. by rewrite N2Nat.id.
  - intros j Hj. pose proof (bit_index_small _ _ (wf_terminal _ Hw) Hj) as Hsm.
    specialize (H (mkSymbol Terminal (N.of_nat j))). cbn in H. rewrite Nat2N.id in H. apply H; [|done].
    by apply elem_of_toks.
Qed.

Lemma state_tokens_spec s :
  parse_state_ok s → ∃ ts, state_tokens word_token keywords s = Ok ts ∧ in_lexicon n_tokens ts ∧ ∀ t, t ∈ toks ts ↔ needs s t.
Proof.
  intros Hs. pose proof Hs as [He [Hw Hr]]. unfold state_tokens.
  destruct (toks_iter_spec (reserved_words s) Hw) as (r & -> & _ & Hrx & _). cbn [mbind outcome_bind].
  destruct (lex_tokens_spec (map fst (terminal_entries s) ++ r)) as (l & -> & Hl). cbn [mbind outcome_bind].
  assert (∀ t, t ∈ l ↔ needs s t) as Hln.
  { intros t. rewrite Hl. unfold needs. setoid_rewrite elem_of_app. setoid_rewrite Hrx. setoid_rewrite elem_of_toks; [|done]. done. }
  destruct (from_iter_spec (E:=Empty_set) l) as (ts & -> & Hwt & Hts); [intros t Ht%Hln; by apply (needs_lexed s)|].
  exists ts. split; [done|]. split; [|intros t; by rewrite Hts]. apply in_lexicon_iff. split; [done|].
  intros t Ht%Hts%Hln Hterm. by apply (needs_lexed s).
Qed.

(** ** Merging the parse states *)
Context (m : TokenConflictMap) (ci : CoincidentTokenIndex).
Context (Hrw : row_words m = div_ceil_64 n_tokens) (Hcl : length (conflict_or_prefix_bits m) = n_tokens * div_ceil_64 n_tokens)
  (Hol : length (overlap_either_bits m) = n_tokens * div_ceil_64 n_tokens) (Hrl : length (row_bits ci) = n_tokens * div_ceil_64 n_tokens).
Context (ps : list (ParseState T)) (Hps : Forall parse_state_ok ps) (Hpl : (N.of_nat (length ps) < U32)%N).

(** An entry holds every token that its parse states, all below [k], need, and
    no token that no parse state needs. *)
Definition entry_ok (k : nat) (e : TokenSet * list N) : Prop :=
  in_lexicon n_tokens e.1 ∧ (∀ t, t ∈ toks e.1 → ∃ s, s ∈ ps ∧ needs s t) ∧
  ∀ i, i ∈ e.2 → N.to_nat i < k ∧ ∀ s t, ps !! N.to_nat i = Some s → needs s t → t ∈ toks e.1.
Definition covered (k : nat) (es : list (TokenSet * list N)) : Prop :=
  Forall (entry_ok k) es ∧ ∀ i, i < k → ∃ e, e ∈ es ∧ N.of_nat i ∈ e.2.

Lemma merge_entry_spec k tokens es s :
  ps !! k = Some s → in_lexicon n_tokens tokens → (∀ t, t ∈ toks tokens ↔ needs s t) → Forall (entry_ok k) es →
  ∃ o, merge_entry (N.of_nat k) tokens m ci es = Ok o ∧
    ∀ es', o = Some es' → Forall (entry_ok (S k)) es' ∧
      (∀ e i, e ∈ es → i ∈ e.2 → ∃ e', e' ∈ es' ∧ i ∈ e'.2) ∧ ∃ e', e' ∈ es' ∧ N.of_nat k ∈ e'.2.
Proof.
  intros Hk Hlex Hneeds. induction es as [|[set ids] es IH]; intros Hes; cbn [merge_entry]; [by exists None|].
  apply Forall_cons in Hes as [(Hset & Hsrc & Hids) Hes]. cbn [fst snd] in *.
  assert (∀ es, Forall (entry_ok k) es → Forall (entry_ok (S k)) es) as Hup.
  { intros l Hl. eapply Forall_impl; [exact Hl|]. intros e (? & ? & He). split; [done|]. split; [done|]. intros i Hi.
    destruct (He i Hi). split; [lia|done]. }
  destruct (merge_token_set_spec n_tokens m ci Hrw Hcl Hol Hrl set tokens Hset Hlex) as (b & set' & -> & _ & Hb).
  cbn [mbind outcome_bind]. destruct b.
  - destruct Hb as [Hw Hu]. eexists. split; [done|]. intros es' [= <-]. split; [|split].
    + apply Forall_cons. split; [|by apply Hup]. split; [|split]; cbn [fst snd].
      * apply in_lexicon_iff. split; [done|]. intros t. rewrite Hu, elem_of_union.
        apply in_lexicon_iff in Hset as [_ H1]. apply in_lexicon_iff in Hlex as [_ H2]. intros [?|?]; auto.
      * intros t. rewrite Hu, elem_of_union. intros [?|Ht]; [by apply Hsrc|]. exists s. split; [by eapply list_elem_of_lookup_2|by apply Hneeds].
      * intros i. rewrite elem_of_app, list_elem_of_singleton. intros [Hi| ->].
        -- destruct (Hids i Hi) as [? Hi']. split; [lia|]. intros s' t Hs' Ht. rewrite Hu, elem_of_union. left. by eapply Hi'.
        -- rewrite Nat2N.id. split; [lia|]. intros s' t Hs' Ht. rewrite Hk in Hs'. injection Hs' as <-.
           rewrite Hu, elem_of_union. right. by apply Hneeds.
    + intros e i He Hi. apply elem_of_cons in He as [-> |He].
      * exists (set', ids ++ [N.of_nat k]). split; [apply list_elem_of_here|]. cbn in *. apply elem_of_app. by left.
      * exists e. split; [by apply list_elem_of_further|done].
    + exists (set', ids ++ [N.of_nat k]). split; [apply list_elem_of_here|]. cbn. apply elem_of_app. right. apply list_elem_of_here.
  - subst set'. destruct (IH Hes) as (o & -> & Ho). cbn [mbind outcome_bind]. eexists. split; [done|].
    intros es' Hes'. destruct o as [es1|]; [|done]. injection Hes' as <-. destruct (Ho es1 eq_refl) as (H1 & H2 & H3).
    split; [|split].
    + apply Forall_cons. split; [|done]. assert (Forall (entry_ok (S k)) [(set, ids)]) as H4; [|by apply Forall_cons in H4 as [? _]].
      apply Hup, Forall_singleton. by split_and?.
    + intros e i He Hi. apply elem_of_cons in He as [-> |He].
      * exists (set, ids). split; [apply list_elem_of_here|done].
      * destruct (H2 e i He Hi) as (e' & ? & ?). exists e'. split; [by apply list_elem_of_further|done].
    + destruct H3 as (e' & ? & ?). exists e'. split; [by apply list_elem_of_further|done].
Qed.

Lemma merge_states_spec ss : ∀ k es,
  k ≤ length ps → drop k ps = ss → covered k es →
  ∃ es', merge_states word_token keywords m ci k ss es = Ok es' ∧ covered (length ps) es'.
Proof.
  induction ss as [|s ss IH]; intros k es Hkl Hd [Hes Hcov]; cbn [merge_states].
  { exists es. split; [done|]. assert (length ps ≤ k) as Hk by (apply (f_equal length) in Hd; rewrite length_drop in Hd; cbn in Hd; lia).
    by assert (k = length ps) as <- by lia. }
  assert (ps !! k = Some s) as Hk by (rewrite <- (Nat.add_0_r k), <- lookup_drop, Hd; done).
  assert (as_u32 k = N.of_nat k) as Hu by (unfold as_u32; apply wrap_u32_small; apply lookup_lt_Some in Hk; lia).
  assert (parse_state_ok s) as Hs by (rewrite Forall_forall in Hps; apply Hps; by eapply list_elem_of_lookup_2).
  destruct (state_tokens_spec s Hs) as (ts & -> & Hlex & Hts). cbn [mbind outcome_bind]. rewrite Hu.
  destruct (merge_entry_spec k ts es s Hk Hlex Hts Hes) as (o & -> & Ho). cbn [mbind outcome_bind].
  assert (drop (S k) ps = ss) as Hd' by (rewrite (drop_S _ _ _ Hk) in Hd; by injection Hd).
  apply IH; [by eapply lookup_lt_Some|done|]. destruct o as [es1|].
  - destruct (Ho es1 eq_refl) as (H1 & H2 & H3). split; [done|]. intros i Hi.
    destruct (decide (i = k)) as [-> |]; [done|]. destruct (Hcov i) as (e & He & Hie); [lia|]. by apply (H2 e).
  - split.
    + apply Forall_app. split.
      * eapply Forall_impl; [exact Hes|]. intros e (? & ? & He). split; [done|]. split; [done|]. intros i Hi. destruct (He i Hi). split; [lia|done].
      * apply Forall_singleton. split; [done|]. cbn. split.
        { intros t Ht%Hts. exists s. split; [by eapply list_elem_of_lookup_2|done]. }
        intros i ->%list_elem_of_singleton. rewrite Nat2N.id. split; [lia|].
        intros s' t Hs' Ht. rewrite Hk in Hs'. injection Hs' as <-. by apply Hts.
    + intros i Hi. destruct (decide (i = k)) as [-> |].
      * exists (ts, [N.of_nat k]). split; [apply elem_of_app; right; apply list_elem_of_here|apply list_elem_of_here].
      * destruct (Hcov i) as (e & He & Hie); [lia|]. exists e. split; [apply elem_of_app; by left|done].
Qed.

(** ** The lex states of the merged sets *)

(** Two parse states that differ in their lex state at most. *)
Definition same_but_lex (s s' : ParseState T) : Prop := s' = with_lex_state_id s (lex_state_id s').

Lemma assign_lex_state_spec id l : ∀ ss,
  (∀ i, i ∈ l → N.to_nat i < length ss) →
  ∃ ss', assign_lex_state id l ss = Ok ss' ∧
    ∀ i, ss' !! i = if bool_decide (N.of_nat i ∈ l) then (λ s : ParseState T, with_lex_state_id s id) <$> ss !! i else ss !! i.
Proof.
  induction l as [|x l IH]; intros ss Hl; cbn [assign_lex_state]; [by exists ss|].
  destruct (lookup_lt_is_Some_2 ss (N.to_nat x)) as [s Hs]; [apply Hl, list_elem_of_here|].
  rewrite (vec_get_Some _ _ _ Hs). cbn [mbind outcome_bind].
  rewrite vec_set_lt by by eapply lookup_lt_Some. cbn [mbind outcome_bind].
  destruct (IH (<[N.to_nat x:=with_lex_state_id s id]> ss)) as (ss' & -> & Hss').
  { intros i Hi. rewrite length_insert. apply Hl. by apply list_elem_of_further. }
  exists ss'. split; [done|]. intros i. rewrite Hss'. destruct (decide (i = N.to_nat x)) as [-> |Hne].
  - rewrite N2Nat.id, list_lookup_insert_eq, Hs by by eapply lookup_lt_Some.
    rewrite (bool_decide_eq_true_2 (x ∈ x :: l)) by apply list_elem_of_here. by case_bool_decide.
  - rewrite list_lookup_insert_ne by done. f_equal. assert (N.of_nat i ∈ x :: l ↔ N.of_nat i ∈ l) as Hiff.
    { rewrite elem_of_cons. split; [intros [?|?]; [lia|done]|by right]. }
    by rewrite (bool_decide_ext _ _ Hiff).
Qed.

(** A parse state of an entry has the lex state of (the tokens of) an entry. *)
Definition assigned (keys : list (list N * bool)) (es : list (TokenSet * list N)) (i : nat) (s' : ParseState T) : Prop :=
  ∃ e, e ∈ es ∧ N.of_nat i ∈ e.2 ∧ start_config g keys e.1 (lex_state_id s').

Lemma add_entries_spec fuel n es : ∀ b ss,
  builder_wf g b → state_queue b = [] → Forall (entry_ok (length ps)) es → length ss = length ps →
  (∀ e, e ∈ es → len e.1 + 3 * length (lg_nfa g) ≤ fuel) → config_count g ≤ n →
  ∃ b' ss', add_entries fuel n b es ss = Ok (b', ss') ∧ builder_wf g b' ∧ state_queue b' = [] ∧
    length (table b) ≤ length (table b') ∧ length ss' = length ss ∧
    (es ≠ [] → 0 < length (table b')) ∧
    ∀ keys, (N.of_nat (length (table b')) <= U32)%N → built g keys b →
      ∃ keys', built g keys' b' ∧ keys `prefix_of` keys' ∧
        ∀ i s, ss !! i = Some s → ∃ s', ss' !! i = Some s' ∧ same_but_lex s s' ∧
          ((lex_state_id s' = lex_state_id s ∧ ∀ e, e ∈ es → N.of_nat i ∉ e.2) ∨ assigned keys' es i s').
Proof.
  induction es as [|[tokens ids] es IH]; intros b ss Hb Hq Hes Hlen Hfuel Hcount; cbn [add_entries].
  { exists b, ss. do 5 (split; [done|]). split; [done|]. intros keys _ Hkb. exists keys. split; [done|]. split; [done|].
    intros i s Hs. exists s. split; [done|]. split; [by destruct s|]. left. split; [done|]. by intros e ?%elem_of_nil. }
  apply Forall_cons in Hes as [(Hlex & _ & Hids) Hes]. cbn [fst snd] in *. apply in_lexicon_iff in Hlex.
  destruct (add_state_for_tokens_spec g Hg fuel n b tokens Hb Hq Hlex) as (id & b1 & -> & Hb1 & Hq1 & Hl1 & Hid & Hk1);
    [apply (Hfuel (tokens, ids)), list_elem_of_here|done|]. cbn [mbind outcome_bind].
  destruct (assign_lex_state_spec id ids ss) as (ss1 & -> & Hss1); [intros i Hi; rewrite Hlen; by apply Hids|]. cbn [mbind outcome_bind].
  assert (length ss1 = length ss) as Hlen1.
  { apply Nat.le_antisymm; apply Nat.nlt_ge; intros Hlt; apply lookup_lt_is_Some_2 in Hlt as [x Hx].
    - rewrite Hss1 in Hx. rewrite (proj2 (lookup_ge_None ss _)) in Hx by done. by case_bool_decide.
    - pose proof (Hss1 (length ss1)) as Hy. rewrite Hx, (proj2 (lookup_ge_None ss1 _)) in Hy by done. by case_bool_decide. }
  destruct (IH b1 ss1 Hb1 Hq1 Hes) as (b2 & ss2 & -> & Hb2 & Hq2 & Hl2 & Hlen2 & Hpos & Hk2);
    [lia|intros; apply Hfuel; by apply list_elem_of_further|done|].
  exists b2, ss2. do 3 (split; [done|]). split; [lia|]. split; [lia|]. split; [lia|]. intros keys Hfit Hkb.
  destruct (Hk1 keys) as (k1 & Hbk1 & Hp1 & Hst); [lia|done|]. destruct (Hk2 k1 Hfit Hbk1) as (k2 & Hbk2 & Hp2 & Hall).
  exists k2. split; [done|]. split; [by etrans|]. intros i s Hs.
  assert (∃ s1, ss1 !! i = Some s1 ∧ same_but_lex s s1 ∧
    (if bool_decide (N.of_nat i ∈ ids) then lex_state_id s1 = id else s1 = s)) as (s1 & Hs1 & Hsame1 & Hi1).
  { rewrite Hss1, Hs. case_bool_decide; cbn; eexists; (split; [done|]); split; by destruct s. }
  destruct (Hall i s1 Hs1) as (s2 & Hs2 & Hsame2 & Hcase). exists s2. split; [done|].
  split; [unfold same_but_lex in *; rewrite Hsame2, Hsame1; by destruct s|].
  destruct Hcase as [[Heq Hno]|(e & He & Hie & Hc)].
  - case_bool_decide as Hin.
    + right. exists (tokens, ids). split; [apply list_elem_of_here|]. split; [done|]. cbn. rewrite Heq, Hi1.
      by eapply start_config_mono.
    + left. subst s1. split; [done|]. intros e [-> |He]%elem_of_cons; [done|by apply Hno].
  - right. exists e. split; [by apply list_elem_of_further|done].
Qed.

(** The merged sets hold at most the terminals and the end of the file. *)
Lemma entry_len k e : entry_ok k e → len e.1 ≤ S n_tokens.
Proof.
  intros ([Hw Hlt] & Hsrc & _). rewrite len_spec by done.
  set (all := list_to_set (end_ :: map (λ i, mkSymbol Terminal (N.of_nat i)) (seq 0 n_tokens)) : gset Symbol).
  transitivity (size all).
  - apply subseteq_size. intros t Ht. destruct (Hsrc t Ht) as (s & Hs & Hneed).
    rewrite Forall_forall in Hps. destruct (needs_lexed s t (Hps s Hs) Hneed) as [Htok Hterm].
    apply elem_of_list_to_set. rewrite elem_of_cons, elem_of_map.
    destruct Hneed as (u & _ & [[Hu Hk]|(Hu & He & ->)]).
    + right. assert (is_terminal t = true) as Htt.
      { destruct (mem keywords u); [by apply Hword|by subst]. }
      exists (N.to_nat (index t)). specialize (Hterm Htt). rewrite elem_of_seq. split; [|lia].
      unfold is_terminal in Htt. apply bool_decide_eq_true in Htt. destruct t; cbn in *. subst. by rewrite N2Nat.id.
    + left. unfold is_eof in He. apply bool_decide_eq_true in He. unfold token in Htok. rewrite He in Htok.
      destruct u; cbn in *. by subst.
  - etrans; [|reflexivity]. unfold all. clear. 
    assert (∀ l : list Symbol, size (list_to_set l : gset Symbol) ≤ length l) as Hsz.
    { induction l as [|x l IH]; [done|]. cbn [list_to_set length]. rewrite size_union_alt, size_singleton.
      pose proof (subseteq_size (list_to_set l ∖ {[x]}) (list_to_set l : gset Symbol) ltac:(set_solver)). cbn in *. lia. }
    etrans; [apply Hsz|]. cbn. by rewrite length_map, length_seq.
Qed.

(** A complete table is well formed, with one action on the end of the file. *)
Lemma built_targets keys b : built g keys b →
  Forall (targets_below (length (table b))) (table b) ∧
  ∀ s s' a a', s ∈ table b → s' ∈ table b → eof_action s = Some a → eof_action s' = Some a' → a = a'.
Proof.
  intros [Hb Hi].
  assert (∀ s, s ∈ table b → ∃ c, state_spec g keys c s) as Hspec.
  { intros s [i His]%list_elem_of_lookup. destruct (lookup_lt_is_Some_2 keys i) as [c Hc].
    { rewrite (bi_keys _ _ _ _ _ Hi). by eapply lookup_lt_Some. }
    destruct (bi_done _ _ _ _ _ Hi i c) as (s' & Hs' & Hsp); [by eapply lookup_lt_Some|done|]. exists c. congruence. }
  assert (∀ s a, s ∈ table b → eof_action s = Some a → in_main_token a = true ∧
    state_ids_by_nfa_state_set b !! ([], false) = Some (aa_state a)) as Heof.
  { intros s a Hs Ha. destruct (Hspec s Hs) as (c & _ & He & _). destruct c.2; [|congruence].
    destruct He as (t & He & Ht). rewrite Ha in He. injection He as ->. split; [done|]. by apply (bi_map _ _ _ _ _ Hi). }
  split.
  - apply Forall_forall. intros s Hs. destruct (Hspec s Hs) as (c & _ & _ & _ & Hall). split.
    + eapply Forall_impl; [exact Hall|]. intros e [_ He]. by rewrite <- (bi_keys _ _ _ _ _ Hi).
    + intros a Ha. destruct (Heof s a Hs Ha) as [_ Hm]. by apply (bw_map _ _ Hb _ _ Hm).
  - intros s s' [t1 m1] [t2 m2] Hs Hs' Ha Ha'. destruct (Heof _ _ Hs Ha) as [E1 E2], (Heof _ _ Hs' Ha') as [E3 E4]. cbn in *. congruence.
Qed.

(** ** The large character sets *)
Lemma large_sets_of_actions_spec acts : ∀ cs sets,
  Forall (λ e, cs_ok e.1) acts → cs_ok cs →
  ∃ cs' sets', large_sets_of_actions acts cs sets = Ok (cs', sets').
Proof.
  induction acts as [|[c a] acts IH]; intros cs sets Hacts Hcs; cbn [large_sets_of_actions]; [by eexists _, _|].
  apply Forall_cons in Hacts as [Hc Hacts]. destruct (in_main_token a); [|by apply IH].
  destruct (add_spec (E:=Empty_set) cs c Hcs Hc) as (u & -> & Hu & _). cbn [mbind outcome_bind]. by apply IH.
Qed.
Lemma large_sets_of_states_spec symbol ss : ∀ sets,
  Forall chars_ok ss → ∃ sets', large_sets_of_states symbol ss sets = Ok sets'.
Proof.
  induction ss as [|s ss IH]; intros sets Hss; cbn [large_sets_of_states]; [by eexists|].
  apply Forall_cons in Hss as [Hs Hss]. destruct (large_sets_of_actions_spec (advance_actions s) empty sets Hs) as (cs & sets1 & ->).
  { split; [done|constructor]. }
  cbn [mbind outcome_bind]. by apply IH.
Qed.
Lemma large_sets_spec fuel n ix : ∀ b sets,
  builder_wf g b → (∀ i, i ∈ ix → i < n_tokens) → 1 + 3 * length (lg_nfa g) ≤ fuel → config_count g ≤ n →
  ∃ sets', large_sets fuel n b ix sets = Ok sets'.
Proof.
  induction ix as [|i ix IH]; intros b sets Hb Hix Hf Hc; cbn [large_sets]; [by eexists|].
  assert (i < n_tokens) as Hi by apply Hix, list_elem_of_here.
  assert (terminal (N.of_nat i) = mkSymbol Terminal (N.of_nat i)) as Ht by (unfold terminal; rewrite wrap_u32_small by lia; done).
  destruct (from_iter_spec (E:=Empty_set) [terminal (N.of_nat i)]) as (ts & -> & Hw & Hx).
  { intros t ->%list_elem_of_singleton. rewrite Ht. unfold token. cbn. lia. }
  cbn [mbind outcome_bind].
  pose proof (builder_reset_spec g b Hb) as Hb0.
  destruct (add_state_for_tokens_spec g Hg fuel n (builder_reset b) ts (proj1 Hb0) eq_refl)
    as (id & b' & -> & Hb' & _); [| |done|].
  { split; [done|]. intros t ->%Hx%list_elem_of_singleton _. rewrite Ht. cbn. by rewrite Nat2N.id. }
  { rewrite len_spec by done. assert (toks ts = {[terminal (N.of_nat i)]}) as ->; [|rewrite size_singleton; lia].
    apply set_eq. intros t. rewrite Hx, elem_of_singleton. apply list_elem_of_singleton. }
  cbn [mbind outcome_bind].
  destruct (large_sets_of_states_spec (terminal (N.of_nat i)) (table b') sets (bw_chars _ _ Hb')) as (sets1 & ->).
  cbn [mbind outcome_bind]. apply IH; [done|intros; apply Hix; by apply list_elem_of_further|done|done].
Qed.
End build.

(** ** The end-to-end theorem *)

(** What [build_lex_table] needs of its arguments: the tokens are tokens of the
    lexical grammar, the bit rows have the size of the grammar, and there is a
    parse state. *)
Record lex_input_ok {T} (g : LexicalGrammar) (word_token : option Symbol) (keywords : TokenSet) (m : TokenConflictMap)
    (ci : CoincidentTokenIndex) (ps : list (ParseState T)) : Prop := {
  li_lexer : lexer_ok g;
  li_vars : (N.of_nat (length (lg_variables g)) < U32)%N;
  li_word : ∀ w, word_token = Some w → is_terminal w = true ∧ N.to_nat (index w) < length (lg_variables g);
  li_keywords : tokens_ok g keywords;
  li_rows : row_words m = div_ceil_64 (length (lg_variables g));
  li_conflict : length (conflict_or_prefix_bits m) = length (lg_variables g) * div_ceil_64 (length (lg_variables g));
  li_overlap : length (overlap_either_bits m) = length (lg_variables g) * div_ceil_64 (length (lg_variables g));
  li_coincident : length (row_bits ci) = length (lg_variables g) * div_ceil_64 (length (lg_variables g));
  li_states : Forall (parse_state_ok g) ps;
  li_count : (N.of_nat (length ps) < U32)%N;
  li_some : ps ≠ [];
}.

(** The table that is built before it is minimized. *)
Definition unminimized {T} (fuel n : nat) (ps : list (ParseState T)) (word_token : option Symbol)
    (g : LexicalGrammar) (keywords : TokenSet) (ci : CoincidentTokenIndex) (m : TokenConflictMap) : out LexTable :=
  entries ← merge_states word_token keywords m ci 0 ps [];
  b ← builder_new fuel g;
  '(b, _) ← add_entries fuel n b entries ps;
  Ok (table b).

Lemma covered_nonempty g word_token keywords {T} (ps : list (ParseState T)) es :
  ps ≠ [] → covered g word_token keywords ps (length ps) es → es ≠ [].
Proof.
  intros Hne [_ Hc] ->. destruct ps as [|s ps]; [done|]. destruct (Hc 0) as (e & He & _); [cbn; lia|]. by apply elem_of_nil in He.
Qed.

(** The parse state of the main table behaves as the lexer does from the start
    configuration of some tokens. *)
Definition lexes (g : LexicalGrammar) (t : LexTable) (id : LexStateId) (c : list N * bool) : Prop :=
  ∀ w, match table_run t id w with
       | Some j => ∃ c' st, lex_run g c w c' ∧ t !! N.to_nat j = Some st ∧ lex_accept g c' (accept_action st)
       | None => ∀ c', ¬ lex_run g c w c'
       end.

Lemma lexes_quotient g ids t t' id id' c :
  quotient ids t t' → ids !! N.to_nat id = Some id' → lexes g t id c → lexes g t' id' c.
Proof.
  intros Hq Hid Hl w. specialize (Hl w). rewrite (quotient_run ids t t' w id id' Hq Hid).
  destruct (table_run t id w) as [j|]; [|done]. cbn. destruct Hl as (c' & st & Hr & Hj & Ha).
  pose proof Hq as (_ & _ & Hs). destruct (Hs _ _ Hj) as (g' & Hg' & Hst). rewrite Hg'.
  exists c', (ren_state ids st). by split_and?.
Qed.

Lemma build_lex_table_spec {T} (g : LexicalGrammar) (word_token : option Symbol) (keywords : TokenSet)
    (m : TokenConflictMap) (ci : CoincidentTokenIndex) (ps : list (ParseState T)) (fuel n k mm : nat) :
  lex_input_ok g word_token keywords m ci ps →
  S (length (lg_variables g)) + 3 * length (lg_nfa g) ≤ fuel → len keywords + 3 * length (lg_nfa g) ≤ fuel →
  config_count g ≤ n → config_count g < k → config_count g ≤ mm →
  (∀ t, unminimized fuel n ps word_token g keywords ci m = Ok t → (N.of_nat (length t) < U32)%N) →
  ∃ tables ps', build_lex_table fuel n k mm ps word_token g keywords ci m = Ok (tables, ps') ∧
    Forall2 (λ s s', same_but_lex s s' ∧ ∃ tokens c,
      (∀ t, needs word_token keywords s t → t ∈ toks tokens) ∧
      (∀ t, t ∈ toks tokens → ∃ s0, s0 ∈ ps ∧ needs word_token keywords s0 t) ∧
      is_start g tokens c ∧ lexes g (main_lex_table tables) (lex_state_id s') c) ps ps'.
Proof.
  intros [Hg Hv Hw Hkw Hrw Hcl Hol Hrl Hps Hpl Hne] Hfuel Hfk Hn Hk Hmm Hfit. unfold build_lex_table.
  assert (∃ kt, match word_token with
    | Some _ => b ← builder_new fuel g; '(_, b) ← add_state_for_tokens fuel n b keywords; Ok (table b)
    | None => Ok [] end = (Ok kt : out _)) as (kt & ->).
  { destruct word_token; [|by eexists].
    destruct (builder_new_spec g Hg fuel) as (b & -> & Hb & _); [lia|]. cbn [mbind outcome_bind].
    destruct (add_state_for_tokens_spec g Hg fuel n b keywords (proj1 Hb) (built_queue _ _ _ Hb) Hkw Hfk Hn) as (id & b' & -> & _).
    by eexists. }
  cbn [mbind outcome_bind].
  destruct (merge_states_spec g word_token keywords Hv Hw (proj1 Hkw) m ci Hrw Hcl Hol Hrl ps Hps Hpl ps 0 [])
    as (es & Hes & Hcov); [lia|done|split; [constructor|lia]|]. unfold unminimized in Hfit. rewrite Hes in *. cbn [mbind outcome_bind] in *.
  destruct (builder_new_spec g Hg fuel) as (b0 & Hb0 & Hbuilt0 & Htab0); [lia|]. rewrite Hb0 in *. cbn [mbind outcome_bind] in *.
  destruct (add_entries_spec g Hg word_token keywords Hv m ci Hrw Hcl Hol Hrl ps Hpl fuel n es b0 ps (proj1 Hbuilt0) (built_queue _ _ _ Hbuilt0) (proj1 Hcov) eq_refl)
    as (b & ss & Hadd & Hwf & _ & _ & Hlss & Hpos & Hstr); [|done|].
  { intros e He. destruct Hcov as [Hall _]. rewrite Forall_forall in Hall.
    pose proof (entry_len g word_token keywords Hv Hw m ci Hrw Hcl Hol Hrl ps Hps Hpl _ e (Hall e He)). lia. }
  rewrite Hadd in *. cbn [mbind outcome_bind] in *. specialize (Hfit _ eq_refl).
  specialize (Hpos (covered_nonempty _ _ _ _ _ Hne Hcov)).
  destruct (Hstr [] ltac:(lia) Hbuilt0) as (keys & Hbk & _ & Hass).
  destruct (built_targets g keys b Hbk) as [Htb Heof]. pose proof (table_bound g b Hwf) as Hbound.
  assert (∀ i s, ps !! i = Some s → ∃ s', ss !! i = Some s' ∧ same_but_lex s s' ∧ assigned g keys es i s') as Hass'.
  { intros i s Hs. destruct (Hass i s Hs) as (s' & Hs' & Hsame & [[_ Hno]|Ha]); [|by exists s'].
    destruct Hcov as [_ Hc]. destruct (Hc i) as (e & He & Hie); [by eapply lookup_lt_Some|]. by destruct (Hno e He). }
  assert (Forall (λ s, N.to_nat (lex_state_id s) < length (table b)) ss) as Hlex.
  { apply Forall_lookup_2. intros i s' Hs'. destruct (lookup_lt_is_Some_2 ps i) as [s Hs]; [rewrite <- Hlss; by eapply lookup_lt_Some|].
    destruct (Hass' i s Hs) as (s2 & Hs2 & _ & e & _ & _ & c & Hc & _). rewrite Hs' in Hs2. injection Hs2 as <-.
    rewrite <- (bi_keys _ _ _ _ _ (proj2 Hbk)). by eapply lookup_lt_Some. }
  destruct (minimize_spec (table b) Hfit Hpos Htb Heof k mm ss Hlex) as (t1 & ps1 & ids1 & -> & Hq1 & Hz1 & Hsurj & Hlt1 & Hps1 & _); [lia|lia|].
  cbn [mbind outcome_bind].
  assert (0 < length t1) as Hpos1.
  { pose proof Hq1 as (_ & _ & Hs). destruct (lookup_lt_is_Some_2 (table b) 0 Hpos) as [s0 Hs0].
    destruct (Hs 0 s0 Hs0) as (g0 & _ & Hg0). apply lookup_lt_Some in Hg0. lia. }
  assert (Forall (λ s, N.to_nat (lex_state_id s) < length t1) ps1) as Hlex1.
  { apply Forall_lookup_2. intros i s1 Hs1. destruct (Forall2_lookup_r _ _ _ _ _ Hps1 Hs1) as (s & Hs & id1 & Hid & ->). cbn.
    pose proof Hq1 as (Hl & _ & Hst). destruct (lookup_lt_is_Some_2 (table b) (N.to_nat (lex_state_id s))) as [st Hstt];
      [rewrite <- Hl; by eapply lookup_lt_Some|]. destruct (Hst _ _ Hstt) as (g' & Hg' & Hg2). rewrite Hid in Hg'. injection Hg' as <-.
    by eapply lookup_lt_Some. }
  destruct (sort_states_spec t1 ps1 Hpos1 ltac:(lia) (quotient_targets _ _ _ Hq1 Hsurj) Hlex1) as (t2 & ps2 & ids2 & -> & Hq2 & _ & _ & _ & Hps2).
  cbn [mbind outcome_bind].
  destruct (large_sets_spec g Hg Hv m ci Hrw Hcl Hol Hrl ps Hpl fuel n (seq 0 (length (lg_variables g))) b [] Hwf) as (sets & ->);
    [intros i Hi; apply elem_of_seq in Hi; lia|lia|done|]. cbn [mbind outcome_bind].
  eexists _, ps2. split; [done|]. cbn [main_lex_table]. apply Forall2_same_length_lookup_2.
  { rewrite <- (Forall2_length _ _ _ Hps2), <- (Forall2_length _ _ _ Hps1). done. }
  intros i s s2 Hs Hs2. destruct (Forall2_lookup_r _ _ _ _ _ Hps2 Hs2) as (s1 & Hs1 & id2 & Hid2 & ->).
  destruct (Forall2_lookup_r _ _ _ _ _ Hps1 Hs1) as (s' & Hs' & id1 & Hid1 & ->). cbn [lex_state_id with_lex_state_id] in *.
  destruct (Hass' i s Hs) as (s0 & Hs0 & Hsame & e & He & Hie & c & Hc & Hstart). rewrite Hs' in Hs0. injection Hs0 as <-.
  split; [unfold same_but_lex in *; rewrite Hsame; by destruct s|]. exists e.1, c.
  destruct Hcov as [Hall _]. rewrite Forall_forall in Hall. destruct (Hall e He) as (_ & Hsrc & Hneeds).
  split; [intros t Ht; apply (proj2 (Hneeds _ Hie) s t); [by rewrite Nat2N.id|done]|]. split; [done|]. split; [done|].
  eapply (lexes_quotient g ids2 t1 t2); [exact Hq2|exact Hid2|]. eapply (lexes_quotient g ids1 (table b) t1); [exact Hq1|exact Hid1|].
  intros w. pose proof (table_run_spec g keys b w _ c Hbk Hc) as H. destruct (table_run (table b) _ w); [|done].
  destruct H as (c' & st & ? & _ & ? & ? & _). by exists c', st.
Qed.

(** C4: the lexer that the pass builds recognizes what the parse states need:
    for a well-formed input, enough fuel and a table of less than 2^32 states,
    the pass ends without panicking, only changes the parse states' lex states,
    and from the lex state of a parse state the main table (minimized and
    sorted) lexes every string as the NFA does from the start of a set of
    tokens, which holds every token that the parse state needs and only tokens
    that some parse state needs. *)
Theorem build_lex_table_correct {T} (g : LexicalGrammar) (word_token : option Symbol) (keywords : TokenSet)
    (m : TokenConflictMap) (ci : CoincidentTokenIndex) (ps : list (ParseState T)) (fuel n k mm : nat) :
  lex_input_ok g word_token keywords m ci ps →
  S (length (lg_variables g)) + 3 * length (lg_nfa g) ≤ fuel → len keywords + 3 * length (lg_nfa g) ≤ fuel →
  config_count g ≤ n → config_count g < k → config_count g ≤ mm →
  (∀ t, unminimized fuel n ps word_token g keywords ci m = Ok t → (N.of_nat (length t) < U32)%N) →
  ∃ tables ps', build_lex_table fuel n k mm ps word_token g keywords ci m = Ok (tables, ps') ∧
    Forall2 (λ s s', same_but_lex s s' ∧ ∃ tokens c,
      (∀ t, needs word_token keywords s t → t ∈ toks tokens) ∧
      (∀ t, t ∈ toks tokens → ∃ s0, s0 ∈ ps ∧ needs word_token keywords s0 t) ∧
      is_start g tokens c ∧ lexes g (main_lex_table tables) (lex_state_id s') c) ps ps'.
Proof. intros. by apply build_lex_table_spec. Qed.

(** ** Witnesses *)

(** Two parse states of the example lexer: one needs both tokens, the other
    one the second token and the end of the file.  No tokens conflict. *)
Definition ex_parse_states : list (ParseState unit) :=
  [mkParseState 0%N [(terminal 0, ()); (terminal 1, ())] [] TokenSet.new 0%N 0%N 0%N false;
   mkParseState 1%N [(terminal 1, ()); (end_, ())] [] TokenSet.new 0%N 0%N 0%N false].
Definition ex_conflicts : TokenConflictMap := mkTokenConflictMap 2 [0; 0; 0; 0]%N [] [] [] [0; 0]%N [0; 0]%N 1.
Definition ex_coincident : CoincidentTokenIndex := mkCoincident [0]%N [0]%N [0; 0]%N 2.

Lemma ex_lex_input_ok : lex_input_ok ex_grammar None TokenSet.new ex_conflicts ex_coincident ex_parse_states.
Proof.
  assert (toks TokenSet.new = ∅) as Hnew by (vm_compute; reflexivity).
  assert (tokens_ok ex_grammar TokenSet.new) as Hnt.
  { split; [apply wf_new|]. intros t Ht. rewrite Hnew in Ht. by apply elem_of_empty in Ht. }
  split; try done; [exact ex_lexer_ok|].
  repeat (apply Forall_cons; split); [split; [|exact Hnt]|split; [|exact Hnt]|apply Forall_nil; done];
    intros t Ht; cbn [map fst terminal_entries] in Ht; rewrite !elem_of_cons in Ht;
    destruct Ht as [-> |[-> |?%elem_of_nil]]; try done; split; vm_compute; (lia || done).
Qed.
Example build_lex_table_witness :
  lex_input_ok ex_grammar None TokenSet.new ex_conflicts ex_coincident ex_parse_states ∧
  ∃ tables ps', build_lex_table 18 64 65 64 ex_parse_states None ex_grammar TokenSet.new ex_coincident ex_conflicts =
    Ok (tables, ps') ∧
    Forall2 (λ s s', same_but_lex s s' ∧ ∃ tokens c,
      (∀ t, needs None TokenSet.new s t → t ∈ toks tokens) ∧
      (∀ t, t ∈ toks tokens → ∃ s0, s0 ∈ ex_parse_states ∧ needs None TokenSet.new s0 t) ∧
      is_start ex_grammar tokens c ∧ lexes ex_grammar (main_lex_table tables) (lex_state_id s') c) ex_parse_states ps'.
Proof.
  split; [exact ex_lex_input_ok|].
  apply (build_lex_table_correct ex_grammar None TokenSet.new ex_conflicts ex_coincident ex_parse_states 18 64 65 64);
    [exact ex_lex_input_ok|vm_compute; lia|vm_compute; lia|vm_compute; lia|vm_compute; lia|vm_compute; lia|].
  intros t Ht.
  assert (Hl : length t = match unminimized 18 64 ex_parse_states None ex_grammar TokenSet.new ex_coincident ex_conflicts with
                          | Ok t => length t | _ => 0 end) by (rewrite Ht; reflexivity).
  rewrite Hl. vm_compute. reflexivity.
Defined.
