(* ===== verification/TablePasses.v ===== *)
(** * [build_tables.rs]: the passes between the parse table and its minimization

    The tokens that can follow each token, the keywords, the error state, the
    symbols in use, the states of the external scanner, and the tokens that cannot be
    reused.  Log messages are left out; [char::is_alphabetic] is an argument. *)
From S2P Require Import Prelude BitVec Symbols TokenSet CharSet Nfa Grammars Lookaheads ItemSets Tables Outcomes BuildTable BuildState TokenConflicts Minimize LexBuild.

Notation out := (outcome Empty_set) (only parsing).

(** [Iterator::any] and [Iterator::filter] with a closure that can panic. *)
Fixpoint any_m {E A} (p : A → outcome E bool) (l : list A) : outcome E bool :=
  match l with [] => Ok false | x :: l => b ← p x; if b : bool then Ok true else any_m p l end.
Fixpoint filter_m {E A} (p : A → outcome E bool) (l : list A) : outcome E (list A) :=
  match l with [] => Ok [] | x :: l => b ← p x; rest ← filter_m p l; Ok (if b : bool then x :: rest else rest) end.
(** [a && b] of fallible conditions. *)
Definition and_m {E} (a b : outcome E bool) : outcome E bool := x ← a; if x : bool then b else Ok false.

Module Passes.
(** ** Following tokens *)
Section following.
Context {I : Type} (g : SyntaxGrammar) (lg : LexicalGrammar) (b : Builder.ParseItemSetBuilder I).
Notation n_terminals := (length (lg_variables lg)).
Notation n_externals := (length (external_tokens g)).
Definition follow_left {E} (right_tokens : TokenSet) (reserved : option TokenSet) (result : list TokenSet) (left_token : Symbol) :
    outcome E (list TokenSet) :=
  if is_terminal left_token then
    s ← vec_get result (N.to_nat (index left_token));
    let s := (TokenSet.insert_all_terminals s right_tokens).2 in
    let s := match reserved with Some r => (TokenSet.insert_all_terminals s r).2 | None => s end in
    vec_set result (N.to_nat (index left_token)) s
  else Ok result.
Definition follow_steps (result : list TokenSet) (e : ProductionStep * ProductionStep) : out (list TokenSet) :=
  left_tokens ← Builder.last_set b (step_symbol e.1);
  right_tokens ← Builder.first_set b (step_symbol e.2);
  reserved ← Builder.reserved_first_set g b (step_symbol e.2);
  ts ← TokenSet.iter left_tokens;
  for_each (follow_left right_tokens reserved) result ts.
Definition follow_production (result : list TokenSet) (p : Production) : out (list TokenSet) :=
  steps ← Grammars.slice (sg_steps g) (step_range p).1 (step_range p).2;
  for_each follow_steps result (zip steps (tail steps)).
Definition follow_extra {E} (all_tokens : TokenSet) (result : list TokenSet) (extra : Symbol) : outcome E (list TokenSet) :=
  if is_terminal extra then
    result ← mapM (λ s, TokenSet.insert s extra) result;
    vec_set result (N.to_nat (index extra)) all_tokens
  else Ok result.
Definition get_following_tokens : out (list TokenSet) :=
  let result := replicate n_terminals (TokenSet.with_capacity (N.of_nat n_terminals) (N.of_nat n_externals)) in
  all_tokens ← TokenSet.from_iter (map (λ i, terminal (N.of_nat i)) (seq 0 (length result)));
  result ← for_each follow_production result (sg_productions g);
  for_each (follow_extra all_tokens) result (extra_symbols g).
End following.

(** ** Keywords *)
Section keywords.
Context (is_alphabetic : N → bool) (fuel : nat) (lg : LexicalGrammar) (conflicts : TokenConflictMap) (coincident : CoincidentTokenIndex).
Notation n_terminals := (length (lg_variables lg)).
Definition all_chars_are_alphabetical (cursor : NfaCursor) : out bool :=
  ts ← transition_chars cursor;
  Ok (forallb (λ e : CharacterSet * bool, let '(cs, is_sep) := e in
        if is_sep then true else forallb (λ c, is_alphabetic c || (c =? 95)%N) (chars cs)) ts).
Definition is_candidate (word : Symbol) (cursor : NfaCursor) (i : nat) (v : LexicalVariable) : out (bool * NfaCursor) :=
  cursor ← reset fuel cursor [start_state v];
  c ← and_m (all_chars_are_alphabetical cursor)
        (and_m (does_match_same_string conflicts i (N.to_nat (index word)))
           (d ← does_match_different_string conflicts i (N.to_nat (index word)); Ok (negb d)));
  Ok (c, cursor).
Definition candidate_loop (word : Symbol) (st : list Symbol * NfaCursor) (e : nat * LexicalVariable) : out (list Symbol * NfaCursor) :=
  '(c, cursor) ← is_candidate word st.2 e.1 e.2;
  Ok (if c : bool then st.1 ++ [terminal (N.of_nat e.1)] else st.1, cursor).
Definition shadows (candidates : list Symbol) (t : Symbol) : out bool :=
  any_m (λ o, if bool_decide (o ≠ t) then does_match_same_string conflicts (N.to_nat (index o)) (N.to_nat (index t)) else Ok false) candidates.
Definition capture_conflicts (word : Symbol) (candidates : TokenSet) (t : Symbol) : out bool :=
  any_m (λ other,
    is_kw ← TokenSet.contains candidates (terminal (N.of_nat other));
    if is_kw : bool then Ok false
    else
      has_word ← all_coincident_states_have_word coincident t (terminal (N.of_nat other));
      if has_word : bool then Ok false
      else
        same ← has_same_conflict_status conflicts (N.to_nat (index t)) (N.to_nat (index word)) other;
        Ok (negb same)) (seq 0 n_terminals).
Definition identify_keywords (word_token : option Symbol) : out TokenSet :=
  match word_token with
  | None => Ok TokenSet.new
  | Some word =>
      cursor ← Nfa.new fuel (lg_nfa lg) [];
      '(l, _) ← for_each (candidate_loop word) ([], cursor) (imap (λ i v, (i, v)) (lg_variables lg));
      candidates ← TokenSet.from_iter l;
      cs ← TokenSet.iter candidates;
      l ← filter_m (λ t, s ← shadows cs t; Ok (negb s)) cs;
      keywords ← TokenSet.from_iter l;
      ks ← TokenSet.iter keywords;
      l ← filter_m (λ t, c ← capture_conflicts word candidates t; Ok (negb c)) ks;
      TokenSet.from_iter l
  end.
End keywords.

(** ** The error state *)
Section error_state.
Context (g : SyntaxGrammar) (lg : LexicalGrammar) (coincident : CoincidentTokenIndex) (conflicts : TokenConflictMap) (keywords : TokenSet).
Notation n_terminals := (length (lg_variables lg)).
Definition conflicts_with_other_tokens (i : nat) : out bool :=
  any_m (λ j, and_m (Ok (negb (j =? i)%nat))
                (and_m (c ← coincident_contains coincident (terminal (N.of_nat i)) (terminal (N.of_nat j)); Ok (negb c))
                   (does_match_shorter_or_longer conflicts i j))) (seq 0 n_terminals).
Definition recover_entry : ParseTableEntry := mkEntry (One Recover) false.
(** A token that the error state leaves out. *)
Definition excluded (free : TokenSet) (free_tokens : list Symbol) (symbol : Symbol) : out bool :=
  and_m (c ← TokenSet.contains free symbol; Ok (negb c))
    (and_m (c ← TokenSet.contains keywords symbol; Ok (negb c))
       (and_m (Ok (bool_decide (word_token g ≠ Some symbol)))
          (any_m (λ t, and_m (c ← coincident_contains coincident symbol t; Ok (negb c))
                         (does_conflict conflicts (N.to_nat (index symbol)) (N.to_nat (index t)))) free_tokens))).
Definition recover_terminal (free : TokenSet) (free_tokens : list Symbol) (entries : list (Symbol * ParseTableEntry)) (i : nat) :
    out (list (Symbol * ParseTableEntry)) :=
  let symbol := terminal (N.of_nat i) in
  x ← excluded free free_tokens symbol;
  Ok (if x : bool then entries else PT.im_or_insert symbol recover_entry entries).
Definition recover_external (entries : list (Symbol * ParseTableEntry)) (e : nat * ExternalToken) : list (Symbol * ParseTableEntry) :=
  match corresponding_internal_token e.2 with
  | None => PT.im_or_insert (external (N.of_nat e.1)) recover_entry entries
  | Some _ => entries
  end.
Definition populate_error_state (t : ParseTable ParseTableEntry) : out (ParseTable ParseTableEntry) :=
  state ← vec_get (pt_states t) 0;
  l ← filter_m (λ i, c ← conflicts_with_other_tokens i; Ok (negb c)) (seq 0 n_terminals);
  free ← TokenSet.from_iter (map (λ i, terminal (N.of_nat i)) l);
  free_tokens ← TokenSet.iter free;
  entries ← for_each (recover_terminal free free_tokens) (terminal_entries state) (seq 0 n_terminals);
  let entries := foldl recover_external entries (imap (λ i x, (i, x)) (external_tokens g)) in
  let entries := im_insert end_ recover_entry entries in
  states ← vec_set (pt_states t) 0 (with_terminals state entries);
  Ok (with_states t states).
End error_state.

(** ** Symbols in use *)
Section used_symbols.
Context (g : SyntaxGrammar) (lg : LexicalGrammar).
(** The usages of terminals, externals and variables. *)
Notation usages := (list bool * list bool * list bool)%type.
Definition mark_entry {E} (u : usages) (symbol : Symbol) : outcome E usages :=
  let '(terminals, externals, non_terminals) := u in
  match kind symbol with
  | Terminal => l ← vec_set terminals (N.to_nat (index symbol)) true; Ok (l, externals, non_terminals)
  | External => l ← vec_set externals (N.to_nat (index symbol)) true; Ok (terminals, l, non_terminals)
  | _ => Ok u
  end.
Definition mark_goto {E} (u : usages) (symbol : Symbol) : outcome E usages :=
  let '(terminals, externals, non_terminals) := u in
  l ← vec_set non_terminals (N.to_nat (index symbol)) true; Ok (terminals, externals, l).
Definition mark_state {E} {T} (u : usages) (s : ParseState T) : outcome E usages :=
  u ← for_each mark_entry u (terminal_entries s).*1;
  for_each mark_goto u (nonterminal_entries s).*1.
Definition push_terminal {E} (symbols : list Symbol) (e : nat * bool) : outcome E (list Symbol) :=
  if e.2 then
    if match word_token g with Some t => (N.to_nat (index t) =? e.1)%nat | None => false end
    then if (length symbols <? 1)%nat then Panic else Ok (vec_insert 1 (terminal (N.of_nat e.1)) symbols)
    else Ok (symbols ++ [terminal (N.of_nat e.1)])
  else Ok symbols.
Definition used (f : N → Symbol) (l : list bool) : list Symbol :=
  omap (λ e : nat * bool, if e.2 then Some (f (N.of_nat e.1)) else None) (imap (λ i x, (i, x)) l).
Definition populate_used_symbols {E} {T} (t : ParseTable T) : outcome E (ParseTable T) :=
  '(terminals, externals, non_terminals) ←
    for_each mark_state (replicate (length (lg_variables lg)) false, replicate (length (external_tokens g)) false,
                         replicate (length (sg_variables g)) false) (pt_states t);
  symbols ← for_each push_terminal (pt_symbols t ++ [end_]) (imap (λ i x, (i, x)) terminals);
  Ok (mkParseTable (pt_states t) (action_lists t) (symbols ++ used external externals ++ used non_terminal non_terminals)
        (production_infos t) (max_aliased_production_length t) (external_lex_states t)).
End used_symbols.

(** ** States of the external scanner *)
Section external.
Context (g : SyntaxGrammar).
Definition external_by_internal : gmap N nat :=
  foldl (λ (m : gmap N nat) '(i, x), match corresponding_internal_token x with Some s => <[index s := i]> m | None => m end) ∅
    (imap (λ i x, (i, x)) (external_tokens g)).
Definition add_external {E} (tokens : TokenSet) (token : Symbol) : outcome E TokenSet :=
  if is_external token then TokenSet.insert tokens token
  else if is_terminal token then
    match external_by_internal !! index token with
    | Some i => TokenSet.insert tokens (external (N.of_nat i))
    | None => Ok tokens
    end
  else Ok tokens.
Definition with_external_lex_state {T} (s : ParseState T) (id : N) : ParseState T :=
  mkParseState (ps_id s) (terminal_entries s) (nonterminal_entries s) (reserved_words s) (lex_state_id s) id (core_id s)
    (has_eof_gated_reduce s).
Definition external_state {E} {T} (st : list (ParseState T) * list TokenSet) (s : ParseState T) :
    outcome E (list (ParseState T) * list TokenSet) :=
  tokens ← for_each add_external TokenSet.new (terminal_entries s).*1;
  let '(i, lex_states) :=
    match list_find (λ x, TokenSet.eq x tokens = true) st.2 with
    | Some (i, _) => (i, st.2)
    | None => (length st.2, st.2 ++ [tokens])
    end in
  Ok (st.1 ++ [with_external_lex_state s (as_u32 i)], lex_states).
Definition populate_external_lex_states {E} {T} (t : ParseTable T) : outcome E (ParseTable T) :=
  '(states, lex_states) ← for_each external_state ([], external_lex_states t ++ [TokenSet.new]) (pt_states t);
  Ok (mkParseTable states (action_lists t) (pt_symbols t) (production_infos t) (max_aliased_production_length t) lex_states).
End external.

(** ** Tokens that cannot be reused *)
Section fragile.
Context (conflicts : TokenConflictMap).
Definition valid_terminal_indices {T} (s : ParseState T) : list N :=
  map index (filter (λ x, is_terminal x = true) (terminal_entries s).*1).
Definition mark_fragile_entry (valid : list N) (e : Symbol * N) : out (Symbol * N) :=
  if is_terminal e.1 then
    o ← any_m (λ i, does_overlap conflicts (N.to_nat i) (N.to_nat (index e.1))) valid;
    Ok (e.1, if o : bool then set_reusable e.2 false else e.2)
  else Ok e.
Definition mark_fragile_state (s : ParseState N) : out (ParseState N) :=
  es ← mapM (mark_fragile_entry (valid_terminal_indices s)) (terminal_entries s);
  Ok (with_terminals s es).
Definition mark_fragile_tokens (t : ParseTable N) : out (ParseTable N) :=
  states ← mapM mark_fragile_state (pt_states t);
  Ok (with_states t states).
End fragile.
End Passes.
