(* ===== verification/PassQueries.v ===== *)
(** * [build_tables.rs]: queries of the passes

    Fallible conditions, and the matrices of the conflict map and of the index of
    coincident tokens as functions. *)
From S2P Require Import Prelude BitVec Symbols TokenSet CharSet Nfa StrPool Grammars Lookaheads Items ItemSets FirstSets FollowSets Additions Tables Outcomes BuildTable BuildState TokenConflicts LexTable Minimize LexBuild TablePasses.
Import Passes.

(** ** Fallible conditions *)
Section conditions.
Context {E A : Type} (p : A → outcome E bool) (b : A → bool) (l : list A) (Hp : ∀ x, x ∈ l → p x = Ok (b x)).
Lemma any_m_Ok : any_m p l = Ok (existsb b l).
Proof.
  induction l as [|x k IH]; [done|]. cbn. rewrite Hp by apply list_elem_of_here. cbn. destruct (b x); [done|].
  apply IH. intros. apply Hp. by apply list_elem_of_further.
Qed.
Lemma filter_m_Ok : filter_m p l = Ok (List.filter b l).
Proof.
  induction l as [|x k IH]; [done|]. cbn. rewrite Hp by apply list_elem_of_here. cbn.
  rewrite IH by (intros; apply Hp; by apply list_elem_of_further). cbn. by destruct (b x).
Qed.
End conditions.
Lemma and_m_Ok {E} (x y : bool) (m n : outcome E bool) : m = Ok x → n = Ok y → and_m m n = Ok (x && y).
Proof. intros -> ->. by destruct x. Qed.
Lemma not_m_Ok {E} (x : bool) (m : outcome E bool) : m = Ok x → (c ← m; Ok (negb c)) = Ok (negb x).
Proof. by intros ->. Qed.
Lemma existsb_seq (b : nat → bool) n : existsb b (seq 0 n) = true ↔ ∃ i, i < n ∧ b i = true.
Proof.
  rewrite existsb_exists. setoid_rewrite in_seq. split; [intros (i & [_ Hi] & Hb)|intros (i & Hi & Hb)]; exists i; (split; [lia|done]).
Qed.

Lemma mapM_Forall2 {E A B} (f : A → outcome E B) (P : A → B → Prop) l : (∀ x, x ∈ l → ∃ y, f x = Ok y ∧ P x y) → ∃ k, mapM f l = Ok k ∧ Forall2 P l k.
Proof.
  induction l as [|x l IH]; intros Hf; [exists []; split; [done|constructor]|]. destruct (Hf x) as (y & Hy & Hp); [apply list_elem_of_here|].
  destruct IH as (k & Hk & Hps); [intros; apply Hf; by apply list_elem_of_further|]. exists (y :: k). cbn. rewrite Hy, Hk. split; [done|by constructor].
Qed.

(** ** Queries *)
(** The matrices of the conflict map and of the index of coincident tokens have the
    entries of [n] tokens. *)
Record conflicts_ok (n : nat) (m : TokenConflictMap) : Prop := { cm_n : tc_n m = n; cm_length : length (status_matrix m) = n * n }.
Record coincident_ok (n : nat) (r : CoincidentTokenIndex) : Prop := {
  co_n : ci_n r = n;
  co_contains : length (contains_bits r) = div_ceil_64 (n * n);
  co_word : length (without_word_bits r) = div_ceil_64 (n * n);
}.
Definition status (m : TokenConflictMap) (i j : nat) : N := default 0%N (status_matrix m !! matrix_index (tc_n m) i j).
Definition same_string (m : TokenConflictMap) (i j : nat) : bool := st_contains (status m i j) MATCHES_SAME_STRING.
Definition different_string (m : TokenConflictMap) (i j : nat) : bool := st_contains (status m i j) MATCHES_DIFFERENT_STRING.
Definition conflicting (m : TokenConflictMap) (i j : nat) : bool :=
  intersects (status m i j) (N.lor (N.lor DOES_MATCH_VALID_CONT DOES_MATCH_SEPARATORS) MATCHES_SAME_STRING).
Definition shorter_or_longer (m : TokenConflictMap) (i j : nat) : bool :=
  intersects (status m i j) (N.lor DOES_MATCH_VALID_CONT DOES_MATCH_SEPARATORS) && negb (st_contains (status m j i) DOES_MATCH_SEPARATORS).
Definition overlapping (m : TokenConflictMap) (i j : nat) : bool := intersects (status m i j) overlap_mask.
(** Some state has actions on both tokens; every such state has one on the word token. *)
Definition together (r : CoincidentTokenIndex) (i j : nat) : bool := fbit (contains_bits r) (i * ci_n r + j).
Definition word_together (r : CoincidentTokenIndex) (i j : nat) : bool := negb (fbit (without_word_bits r) (i * ci_n r + j)).
Section queries.
Context (n : nat) (m : TokenConflictMap) (r : CoincidentTokenIndex) (Hm : conflicts_ok n m) (Hr : coincident_ok n r).
Context (i j : nat) (Hi : i < n) (Hj : j < n).
Lemma tc_entry_status : tc_entry m i j = Ok (status m i j) ∧ tc_entry m j i = Ok (status m j i).
Proof.
  destruct Hm as [Hn Hl]. unfold tc_entry, entry, status. rewrite Hn. unfold matrix_index.
  assert (∀ k, k < n * n → vec_get (E:=Empty_set) (status_matrix m) k = Ok (default 0%N (status_matrix m !! k))) as Hget.
  { intros k Hk. destruct (lookup_lt_is_Some_2 (status_matrix m) k) as [x Hx]; [lia|]. by rewrite (vec_get_Some _ _ _ Hx), Hx. }
  split; apply Hget; nia.
Qed.
Lemma same_string_ok : does_match_same_string m i j = Ok (same_string m i j).
Proof. unfold does_match_same_string. by rewrite (proj1 tc_entry_status). Qed.
Lemma different_string_ok : does_match_different_string m i j = Ok (different_string m i j).
Proof. unfold does_match_different_string. by rewrite (proj1 tc_entry_status). Qed.
Lemma conflicting_ok : does_conflict m i j = Ok (conflicting m i j).
Proof. unfold does_conflict. by rewrite (proj1 tc_entry_status). Qed.
Lemma shorter_or_longer_ok : does_match_shorter_or_longer m i j = Ok (shorter_or_longer m i j).
Proof. unfold does_match_shorter_or_longer. destruct tc_entry_status as [-> H]. cbn. by rewrite H. Qed.
Lemma overlapping_ok : does_overlap m i j = Ok (overlapping m i j).
Proof. unfold does_overlap. by rewrite (proj1 tc_entry_status). Qed.
Context (a b : Symbol) (Ha : N.to_nat (index a) = i) (Hb : N.to_nat (index b) = j).
Lemma together_ok : coincident_contains r a b = Ok (together r i j).
Proof.
  destruct Hr as [Hn Hl _]. unfold coincident_contains, together. rewrite Ha, Hb, Hn. apply test_bit_spec. rewrite Hl. by apply flat_lt.
Qed.
Lemma word_together_ok : all_coincident_states_have_word r a b = Ok (word_together r i j).
Proof.
  destruct Hr as [Hn _ Hl]. unfold all_coincident_states_have_word, word_together. rewrite Ha, Hb, Hn.
  rewrite test_bit_spec; [done|]. rewrite Hl. by apply flat_lt.
Qed.
End queries.

(** Tokens by their indices. *)
Lemma terminal_index n i : (N.of_nat n < U32)%N → i < n → N.to_nat (index (terminal (N.of_nat i))) = i.
Proof. intros Hn Hi. unfold terminal. cbn. rewrite wrap_u32_small by lia. lia. Qed.
Lemma terminal_inj n i j : (N.of_nat n < U32)%N → i < n → j < n → terminal (N.of_nat i) = terminal (N.of_nat j) → i = j.
Proof. intros Hn Hi Hj Heq. rewrite <- (terminal_index n i), <- (terminal_index n j), Heq; done. Qed.
Lemma terminal_token n i : (N.of_nat n + 1 < U32)%N → i < n → TokenSet.token (terminal (N.of_nat i)).
Proof. intros Hn Hi. unfold TokenSet.token, terminal. cbn. rewrite wrap_u32_small by lia. lia. Qed.
(** A set of tokens and the list that its iterator gives. *)
Lemma collect_tokens {E} l : (∀ t, t ∈ l → TokenSet.token t) → ∃ s ts, TokenSet.from_iter (E:=E) l = Ok s ∧ TokenSet.wf s ∧
  TokenSet.iter s = Ok ts ∧ NoDup ts ∧ (∀ t, t ∈ toks s ↔ t ∈ l) ∧ ∀ t, t ∈ ts ↔ t ∈ l.
Proof.
  intros Hl. destruct (from_iter_spec (E:=E) l Hl) as (s & Hs & Hw & Ht). destruct (TokenSet.toks_iter_spec s Hw) as (ts & Hts & Hnd & Hmem & _).
  exists s, ts. split_and!; try done. intros t. by rewrite Hmem, <- TokenSet.elem_of_toks, Ht.
Qed.

(** ** Symbols of states *)
(** A state has actions, or a goto, on the symbol. *)
Definition entry_symbol {T} (ss : list (ParseState T)) (x : Symbol) : Prop := ∃ s, s ∈ ss ∧ x ∈ (terminal_entries s).*1.
Definition goto_symbol {T} (ss : list (ParseState T)) (x : Symbol) : Prop := ∃ s, s ∈ ss ∧ x ∈ (nonterminal_entries s).*1.

(** ** An example *)
(** The token [a], the word token [(a|b|c)*] and an external token. *)
Definition pass_grammar : SyntaxGrammar :=
  mkSyntaxGrammar [mkSyntaxVariable 1 Named] [] [] [mkExternalToken 1 Named None; mkExternalToken 1 Named (Some (terminal 0))] [] []
    (Some (terminal 1)) [] [TokenSet.new] [] [] [].
Definition pass_hash (l : list N) : N := foldr (λ s h, s + 1 + 8 * h)%N 0%N l.
Definition pass_conflicts : TokenConflictMap :=
  match new_map pass_hash 20 20 ex_grammar [TokenSet.new; TokenSet.new] with Ok m => m | _ => ex_conflicts end.
Definition pass_entry : ParseTableEntry := mkEntry (One (Shift 1 false)) true.
Definition pass_error_state : ParseState ParseTableEntry := mkParseState 0 [] [] TokenSet.new 0 0 0 false.
Definition pass_table : ParseTable ParseTableEntry :=
  mkParseTable [pass_error_state;
    mkParseState 1 [(terminal 1, pass_entry); (external 0, pass_entry)] [(non_terminal 0, Goto 2)] TokenSet.new 0 0 0 false;
    mkParseState 2 [(terminal 0, pass_entry); (terminal 1, pass_entry)] [] TokenSet.new 0 0 0 false] empty_pool [] [] 0 [].
Definition pass_coincident : CoincidentTokenIndex :=
  match coincident_new pass_table ex_grammar (word_token pass_grammar) with Ok r => r | _ => ex_coincident end.
Lemma pass_conflicts_ok : conflicts_ok 2 pass_conflicts ∧ status_matrix pass_conflicts = [0; 16; 32; 0]%N.
Proof. split; [split|]; vm_compute; reflexivity. Qed.
Lemma pass_coincident_ok : coincident_ok 2 pass_coincident.
Proof. split; vm_compute; reflexivity. Qed.
Definition pass_letter (c : N) : bool := (97 <=? c)%N && (c <=? 122)%N.
