(* ===== verification/ErrorState.v ===== *)
(** * [build_tables.rs]: the error state

    The entries that [populate_error_state] adds, and the flags that
    [mark_fragile_tokens] clears. *)
From S2P Require Import Prelude BitVec Symbols TokenSet CharSet Nfa StrPool Grammars Lookaheads Items ItemSets FirstSets FollowSets Additions Tables Outcomes BuildTable BuildState TokenConflicts LexTable Minimize LexBuild TablePasses PassQueries.
Import Passes.

(** ** The error state *)
Section error_state.
Context (g : SyntaxGrammar) (lg : LexicalGrammar) (r : CoincidentTokenIndex) (m : TokenConflictMap) (keywords : TokenSet).
Notation n := (length (lg_variables lg)).
Notation tok i := (terminal (N.of_nat i)).
Context (Hm : conflicts_ok n m) (Hr : coincident_ok n r) (Hn : (N.of_nat n + 1 < U32)%N) (Hkw : TokenSet.wf keywords).
(** No other token, except where both can come, matches a part or a continuation of it. *)
Definition conflict_free (i : nat) : Prop := i < n ∧ ∀ j, j < n → j ≠ i → together r i j = true ∨ shorter_or_longer m i j = false.
(** A token that is left to the recovery of a conflict-free token. *)
Definition left_out (i : nat) : Prop :=
  ¬ conflict_free i ∧ tok i ∉ toks keywords ∧ word_token g ≠ Some (tok i) ∧
  ∃ j, conflict_free j ∧ together r i j = false ∧ conflicting m i j = true.
Lemma small_terminals : (N.of_nat n < U32)%N.
Proof. lia. Qed.
Lemma conflicts_with_other_ok i : i < n →
  ∃ c, conflicts_with_other_tokens lg r m i = Ok c ∧ (c = false ↔ conflict_free i).
Proof.
  intros Hi. unfold conflicts_with_other_tokens.
  rewrite (any_m_Ok _ (λ j, negb (j =? i)%nat && (negb (together r i j) && shorter_or_longer m i j))).
  2: { intros j Hj. apply elem_of_seq in Hj as [_ Hj]. cbn in Hj. apply and_m_Ok; [done|]. apply and_m_Ok; [|by apply (shorter_or_longer_ok n)].
    apply not_m_Ok. apply (together_ok n); try done; by apply (terminal_index n); [lia|]. }
  eexists. split; [done|]. rewrite <- not_true_iff_false, existsb_seq. unfold conflict_free. split.
  - intros Hno. split; [done|]. intros j Hj Hne. destruct (together r i j) eqn:Ht; [by left|]. destruct (shorter_or_longer m i j) eqn:Hs; [|by right].
    destruct Hno. exists j. rewrite Ht, Hs. split; [done|]. destruct (Nat.eqb_spec j i); done.
  - intros [_ Hall] (j & Hj & Hb). destruct (Nat.eqb_spec j i) as [|Hne]; [done|]. destruct (Hall j Hj Hne) as [Ht|Ht]; rewrite Ht in Hb; [done|].
    by rewrite !andb_false_r in Hb.
Qed.
(** The tokens that the error state recovers on. *)
Definition recovers (x : Symbol) : Prop :=
  (∃ i, i < n ∧ x = tok i ∧ ¬ left_out i) ∨
  ∃ i e, external_tokens g !! i = Some e ∧ corresponding_internal_token e = None ∧ x = external (N.of_nat i).
(** The entry of [x] is the old one or, for the tokens of [R], a new one. *)
Definition filled (R : Symbol → Prop) (old es : list (Symbol * ParseTableEntry)) (x : Symbol) : Prop :=
  match im_get x old with
  | Some e => im_get x es = Some e
  | None => R x ∧ im_get x es = Some recover_entry ∨ ¬ R x ∧ im_get x es = None
  end.
Lemma filled_ext R R' old es x : (R x ↔ R' x) → filled R old es x → filled R' old es x.
Proof. intros HR. unfold filled. destruct (im_get x old); [done|]. by rewrite HR. Qed.
Lemma filled_start old x : filled (λ _, False) old old x.
Proof. unfold filled. destruct (im_get x old) eqn:Hx; [done|]. right. naive_solver. Qed.
Lemma filled_insert R old es k x : filled R old es x → filled (λ y, R y ∨ y = k) old (PT.im_or_insert k recover_entry es) x.
Proof.
  unfold filled. rewrite im_or_insert_get. destruct (im_get x old); [by intros ->|]. intros [[HR ->]|[HR ->]].
  - left. naive_solver.
  - case_decide as Heq; [left|right]; naive_solver.
Qed.
Lemma excluded_ok free fs i : i < n → TokenSet.wf free → (∀ t, t ∈ toks free ↔ ∃ j, conflict_free j ∧ t = tok j) → (∀ t, t ∈ fs ↔ t ∈ toks free) →
  ∃ c, excluded g r m keywords free fs (tok i) = Ok c ∧ (c = true ↔ left_out i).
Proof.
  intros Hi Hf Hfree Hfs. unfold excluded. pose proof small_terminals as Hns.
  assert (kind (tok i) ≠ NonTerminal) as Hnt by done. pose proof (terminal_token n i Hn Hi) as Htok.
  erewrite (and_m_Ok (negb (TokenSet.mem free (tok i)))); [|apply not_m_Ok; by apply TokenSet.contains_spec|].
  2: { apply and_m_Ok; [apply not_m_Ok; by apply TokenSet.contains_spec|]. apply and_m_Ok; [done|].
    apply (any_m_Ok _ (λ t, negb (together r i (N.to_nat (index t))) && conflicting m i (N.to_nat (index t)))). intros t Ht.
    apply Hfs, Hfree in Ht as (j & [Hj _] & ->). rewrite (terminal_index n j), (terminal_index n i) by done. apply and_m_Ok; [|by apply (conflicting_ok n)].
    apply not_m_Ok. apply (together_ok n); try done; by apply (terminal_index n). }
  eexists. split; [done|]. rewrite !andb_true_iff, !negb_true_iff, bool_decide_eq_true, existsb_exists. unfold left_out.
  assert (TokenSet.mem free (tok i) = false ↔ ¬ conflict_free i) as ->.
  { rewrite <- not_true_iff_false. apply not_iff_compat. split.
    - intros Hmem. destruct (proj1 (Hfree (tok i))) as (j & Hj & Heq); [by apply TokenSet.elem_of_toks|]. pose proof Hj as [Hjn _].
      by rewrite (terminal_inj n i j Hns Hi Hjn Heq).
    - intros Hc. assert (tok i ∈ toks free) as Hin by (apply Hfree; by exists i). by apply TokenSet.elem_of_toks in Hin as [_ ?]. }
  assert (TokenSet.mem keywords (tok i) = false ↔ tok i ∉ toks keywords) as ->.
  { rewrite <- not_true_iff_false, TokenSet.elem_of_toks by done. tauto. }
  assert ((∃ t, In t fs ∧ negb (together r i (N.to_nat (index t))) && conflicting m i (N.to_nat (index t)) = true) ↔
    ∃ j, conflict_free j ∧ together r i j = false ∧ conflicting m i j = true) as ->; [|tauto].
  setoid_rewrite <- list_elem_of_In. setoid_rewrite andb_true_iff. setoid_rewrite negb_true_iff. split.
  - intros (t & Ht & Hb). apply Hfs, Hfree in Ht as (j & Hj & ->). exists j. pose proof Hj as [Hjn _]. by rewrite (terminal_index n j) in Hb.
  - intros (j & Hj & Hb). exists (tok j). pose proof Hj as [Hjn _]. rewrite (terminal_index n j) by done. split; [|done]. apply Hfs, Hfree. by exists j.
Qed.
Lemma recover_externals old es R : (∀ x, filled R old es x) → ∀ k l, external_tokens g = k ++ l →
  ∀ x, filled (λ x, R x ∨ ∃ i e, k !! i = Some e ∧ corresponding_internal_token e = None ∧ x = external (N.of_nat i)) old
    (foldl recover_external es (imap (λ i e, (i, e)) k)) x.
Proof.
  intros Hes k. induction k as [|e k IH] using rev_ind; intros l Hk x.
  { eapply filled_ext; [|apply Hes]. split; [by left|]. intros [?|(i & e & He & _)]; [done|by rewrite lookup_nil in He]. }
  rewrite <- app_assoc in Hk. specialize (IH _ Hk). rewrite imap_app, foldl_app. cbn [imap foldl compose]. rewrite Nat.add_0_r.
  assert (∀ i y, (k ++ [e]) !! i = Some y ↔ k !! i = Some y ∨ i = length k ∧ y = e) as Hsplit.
  { intros i y. rewrite lookup_app_Some, list_lookup_singleton_Some. split; [naive_solver lia|]. intros [?|[-> ->]]; [by left|right]. by rewrite Nat.sub_diag. }
  unfold recover_external at 1. cbn [fst snd].
  destruct (corresponding_internal_token e) as [w|] eqn:He.
  - eapply filled_ext; [|apply IH]. setoid_rewrite Hsplit. naive_solver congruence.
  - eapply filled_ext; [|apply (filled_insert _ _ _ (external (N.of_nat (length k))) _ (IH x))]. setoid_rewrite Hsplit. split.
    + intros [[?|(i & y & ?)]| ->]; [by left|right; exists i, y; tauto|right; exists (length k), e; tauto].
    + intros [?|(i & y & [?|[-> ->]] & ? & ->)]; [by do 2 left|left; right; by exists i, y|by right].
Qed.
Lemma populate_error_state_spec t s : pt_states t !! 0 = Some s →
  ∃ entries, populate_error_state g lg r m keywords t =
      Ok (with_states t (<[0 := with_terminals s entries]> (pt_states t))) ∧
    im_get end_ entries = Some recover_entry ∧ ∀ x, x ≠ end_ → filled recovers (terminal_entries s) entries x.
Proof.
  intros Hs. unfold populate_error_state. rewrite (vec_get_Some _ _ _ Hs). cbn [mbind outcome_bind].
  set (f := λ i, match conflicts_with_other_tokens lg r m i with Ok c => negb c | _ => false end).
  assert (∀ i, i < n → conflicts_with_other_tokens lg r m i = Ok (negb (f i)) ∧ (f i = true ↔ conflict_free i)) as Hf.
  { intros i Hi. destruct (conflicts_with_other_ok i Hi) as (c & Hc & Hcf). unfold f. rewrite Hc, negb_involutive. split; [done|]. rewrite <- Hcf. by destruct c. }
  rewrite (filter_m_Ok _ f) by (intros i Hi; apply elem_of_seq in Hi as [_ Hi]; cbn in Hi; destruct (Hf i Hi) as [-> _]; cbn; by rewrite negb_involutive).
  cbn [mbind outcome_bind].
  assert (∀ i, i ∈ List.filter f (seq 0 n) ↔ conflict_free i) as Hmem.
  { intros i. rewrite list_elem_of_In, filter_In, in_seq. split; [intros [[_ Hi] Hfi]; by apply Hf|]. intros Hi. pose proof Hi as [Hin _].
    split; [lia|by apply Hf]. }
  destruct (collect_tokens (E:=Empty_set) (map (λ i, tok i) (List.filter f (seq 0 n)))) as (free & fs & -> & Hw & Hfs & _ & Hfree & Hts).
  { intros t' (i & -> & [Hi _]%Hmem)%elem_of_map. by apply (terminal_token n). }
  cbn [mbind outcome_bind]. rewrite Hfs. cbn [mbind outcome_bind].
  assert (∀ x, x ∈ toks free ↔ ∃ j, conflict_free j ∧ x = tok j) as Hfree'.
  { intros x. rewrite Hfree, elem_of_map. setoid_rewrite Hmem. naive_solver. }
  destruct (for_each_inv (recover_terminal g r m keywords free fs) (λ d es, ∀ x, filled (λ x, ∃ i, i ∈ d ∧ x = tok i ∧ ¬ left_out i) (terminal_entries s) es x)
    (seq 0 n) (terminal_entries s)) as (es & -> & Hes).
  { intros x. eapply filled_ext; [|apply filled_start]. split; [done|]. by intros (i & ?%not_elem_of_nil & _). }
  { intros d i rest es Hd Hes. assert (i < n) as Hi by (assert (i ∈ seq 0 n) as [_ ?]%elem_of_seq by (rewrite Hd; set_solver); done).
    unfold recover_terminal. destruct (excluded_ok free fs i Hi Hw Hfree') as (c & -> & Hc); [intros x; by rewrite Hts, Hfree|]. cbn [mbind outcome_bind].
    eexists. split; [reflexivity|]. intros x. specialize (Hes x). destruct c.
    - eapply filled_ext; [|exact Hes]. setoid_rewrite elem_of_app. setoid_rewrite list_elem_of_singleton. split; [naive_solver|].
      intros (j & [Hj| ->] & -> & Hl); [by exists j|]. by destruct Hl; apply Hc.
    - eapply filled_ext; [|apply (filled_insert _ _ _ (tok i) _ Hes)]. setoid_rewrite elem_of_app. setoid_rewrite list_elem_of_singleton.
      assert (¬ left_out i) by (rewrite <- Hc; done). split; [intros [(j & ? & ? & ?)| ->]; [exists j; tauto|exists i; tauto]|].
      intros (j & [Hj| ->] & -> & Hl); [left; by exists j|by right]. }
  cbn [mbind outcome_bind]. rewrite vec_set_lt by by eapply lookup_lt_Some. cbn [mbind outcome_bind].
  eexists. split; [reflexivity|]. split; [apply im_get_insert_eq|]. intros x Hx.
  pose proof (recover_externals _ es _ Hes (external_tokens g) [] (eq_sym (app_nil_r _)) x) as Hall.
  unfold filled in *. rewrite im_get_insert_ne by done.
  assert (((∃ i, i ∈ seq 0 n ∧ x = tok i ∧ ¬ left_out i) ∨ ∃ i e, external_tokens g !! i = Some e ∧ corresponding_internal_token e = None ∧ x = external (N.of_nat i)) ↔ recovers x) as HR.
  { unfold recovers. setoid_rewrite elem_of_seq. f_equiv. split; intros (i & ? & ?); exists i; (split; [lia|done]). }
  destruct (im_get x (terminal_entries s)); [done|]. by rewrite HR in Hall.
Qed.
End error_state.

(** ** Tokens that cannot be reused *)
Section fragile.
Context (n : nat) (m : TokenConflictMap) (Hm : conflicts_ok n m).
(** Another token of the state overlaps with the terminal [x]. *)
Definition fragile {T} (s : ParseState T) (x : Symbol) : Prop :=
  kind x = Terminal ∧ ∃ y, y ∈ (terminal_entries s).*1 ∧ kind y = Terminal ∧ overlapping m (N.to_nat (index y)) (N.to_nat (index x)) = true.
Definition marked_entry (s : ParseState N) (e e' : Symbol * N) : Prop :=
  e'.1 = e.1 ∧ id_index e'.2 = id_index e.2 ∧ (id_reusable e'.2 = true ↔ id_reusable e.2 = true ∧ ¬ fragile s e.1).
Lemma mark_fragile_entry_spec (s : ParseState N) e : e ∈ terminal_entries s →
  (∀ x, x ∈ (terminal_entries s).*1 → kind x = Terminal → N.to_nat (index x) < n) →
  ∃ e', mark_fragile_entry m (valid_terminal_indices s) e = Ok e' ∧ marked_entry s e e'.
Proof.
  intros He Hk. destruct e as [x id]. unfold mark_fragile_entry, marked_entry, fragile. cbn [fst snd].
  assert (x ∈ (terminal_entries s).*1) as Hx by (apply list_elem_of_fmap; by exists (x, id)).
  destruct (is_terminal x) eqn:Ht; unfold is_terminal in Ht; apply bool_decide_eq_true in Ht || apply bool_decide_eq_false in Ht.
  2: { exists (x, id). split; [done|]. cbn. naive_solver. }
  assert (∀ i, i ∈ valid_terminal_indices s ↔ ∃ y, y ∈ (terminal_entries s).*1 ∧ kind y = Terminal ∧ i = index y) as Hv.
  { intros i. unfold valid_terminal_indices. rewrite elem_of_map. setoid_rewrite list_elem_of_filter. unfold is_terminal. setoid_rewrite bool_decide_eq_true. naive_solver. }
  rewrite (any_m_Ok _ (λ i, overlapping m (N.to_nat i) (N.to_nat (index x)))).
  2: { intros i (y & Hy & Hyt & ->)%Hv. apply (overlapping_ok n); [done|by apply Hk|by apply Hk]. }
  cbn [mbind outcome_bind]. eexists. split; [done|]. cbn [fst snd]. split; [done|].
  destruct (existsb _ _) eqn:Ho.
  - destruct (set_reusable_spec id false) as [-> ->]. split; [done|]. split; [done|]. intros [_ []]. split; [done|].
    apply existsb_exists in Ho as (i & Hi & Hb). apply list_elem_of_In, Hv in Hi as (y & ? & ? & ->). by exists y.
  - split; [done|]. split; [intros ?; split; [done|]|by intros [? _]]. intros [_ (y & Hy & Hyt & Hb)].
    apply not_true_iff_false in Ho. apply Ho, existsb_exists. exists (index y). split; [|done]. apply list_elem_of_In, Hv. by exists y.
Qed.
(** [mark_fragile_tokens] takes the flag of reuse from the entries of the terminals that
    overlap with a token of the same state, and changes nothing else. *)
Lemma mark_fragile_tokens_spec (t : ParseTable N) :
  (∀ x, entry_symbol (pt_states t) x → kind x = Terminal → N.to_nat (index x) < n) →
  ∃ states, mark_fragile_tokens m t = Ok (with_states t states) ∧
    Forall2 (λ s s', ∃ es, s' = with_terminals s es ∧ Forall2 (marked_entry s) (terminal_entries s) es) (pt_states t) states.
Proof.
  intros Hk. unfold mark_fragile_tokens.
  assert (∀ s, s ∈ pt_states t → ∃ s', mark_fragile_state m s = Ok s' ∧ ∃ es, s' = with_terminals s es ∧ Forall2 (marked_entry s) (terminal_entries s) es) as Hs.
  { intros s Hs. unfold mark_fragile_state.
    destruct (mapM_Forall2 (E:=Empty_set) (mark_fragile_entry m (valid_terminal_indices s)) (marked_entry s) (terminal_entries s)) as (es & -> & Hes).
    { intros e He. apply mark_fragile_entry_spec; [done|]. intros x Hx. apply Hk. by exists s. }
    cbn [mbind outcome_bind]. eexists. split; [done|]. by exists es. }
  destruct (mapM_Forall2 (E:=Empty_set) (mark_fragile_state m) _ (pt_states t) Hs) as (states & -> & Hst). by exists states.
Qed.
End fragile.

(** ** Properties *)
(** C15: [populate_error_state] succeeds, changes only the entries of state 0, and there
    keeps the old entries and adds a recovery for exactly the end of the input, the
    external tokens without an internal counterpart and the terminals that are not left
    out: the terminals left out conflict with a conflict-free token that they never occur
    with, and are neither conflict-free nor keywords nor the word token. *)
Theorem populate_error_state_correct (g : SyntaxGrammar) (lg : LexicalGrammar) (r : CoincidentTokenIndex) (m : TokenConflictMap)
    (keywords : TokenSet) (t : ParseTable ParseTableEntry) (s : ParseState ParseTableEntry) :
  conflicts_ok (length (lg_variables lg)) m → coincident_ok (length (lg_variables lg)) r →
  (N.of_nat (length (lg_variables lg)) + 1 < U32)%N → TokenSet.wf keywords → pt_states t !! 0 = Some s →
  ∃ entries, populate_error_state g lg r m keywords t = Ok (with_states t (<[0 := with_terminals s entries]> (pt_states t))) ∧
    im_get end_ entries = Some recover_entry ∧
    ∀ x, x ≠ end_ → filled (recovers g lg r m keywords) (terminal_entries s) entries x.
Proof. intros. by apply populate_error_state_spec. Qed.
(** C29: [mark_fragile_tokens] succeeds and changes only flags: the entry of a terminal keeps
    its actions, and stays reusable exactly if no token of the same state overlaps with it. *)
Theorem mark_fragile_tokens_correct (n : nat) (m : TokenConflictMap) (t : ParseTable N) :
  conflicts_ok n m → (∀ x, entry_symbol (pt_states t) x → kind x = Terminal → N.to_nat (index x) < n) →
  ∃ states, mark_fragile_tokens m t = Ok (with_states t states) ∧
    Forall2 (λ s s', ∃ es, s' = with_terminals s es ∧ Forall2 (marked_entry m s) (terminal_entries s) es) (pt_states t) states.
Proof. intros. by apply (mark_fragile_tokens_spec n). Qed.

(** ** Witnesses *)
Example error_state_run :
  match populate_error_state pass_grammar ex_grammar pass_coincident pass_conflicts TokenSet.new pass_table with
  | Ok t => map (λ s, (terminal_entries s).*1) (pt_states t) = [[terminal 0; terminal 1; external 0; end_]; [terminal 1; external 0]; [terminal 0; terminal 1]]%N
  | _ => False
  end.
Proof. vm_compute. reflexivity. Qed.
Lemma populate_error_state_witness : ∃ entries,
  populate_error_state pass_grammar ex_grammar pass_coincident pass_conflicts TokenSet.new pass_table =
    Ok (with_states pass_table (<[0 := with_terminals pass_error_state entries]> (pt_states pass_table))) ∧
  im_get end_ entries = Some recover_entry ∧
  ∀ x, x ≠ end_ → filled (recovers pass_grammar ex_grammar pass_coincident pass_conflicts TokenSet.new) [] entries x.
Proof.
  apply (populate_error_state_correct pass_grammar ex_grammar pass_coincident pass_conflicts TokenSet.new pass_table pass_error_state);
    [exact (proj1 pass_conflicts_ok)|exact pass_coincident_ok|reflexivity|exact TokenSet.wf_new|reflexivity].
Defined.
Definition fragile_table : ParseTable N :=
  mkParseTable [mkParseState 0 [(terminal 0, id_new 0 true); (terminal 1, id_new 0 true); (end_, id_new 0 true)] [] TokenSet.new 0 0 0 false] empty_pool [] [] 0 [].
Example fragile_run : match mark_fragile_tokens pass_conflicts fragile_table with
  | Ok t => map (λ s, map (λ e, (e.1, id_reusable e.2)) (terminal_entries s)) (pt_states t) = [[(terminal 0, true); (terminal 1, false); (end_, true)]]%N
  | _ => False
  end.
Proof. vm_compute. reflexivity. Qed.
Lemma mark_fragile_tokens_witness : ∃ states, mark_fragile_tokens pass_conflicts fragile_table = Ok (with_states fragile_table states) ∧
  Forall2 (λ s s', ∃ es, s' = with_terminals s es ∧ Forall2 (marked_entry pass_conflicts s) (terminal_entries s) es) (pt_states fragile_table) states.
Proof.
  apply (mark_fragile_tokens_correct 2 pass_conflicts fragile_table (proj1 pass_conflicts_ok)).
  intros x (s & Hs & Hx) Hk. apply list_elem_of_singleton in Hs as ->. cbn in Hx.
  repeat (apply elem_of_cons in Hx as [->|Hx]; [vm_compute; lia|]). by apply not_elem_of_nil in Hx.
Defined.
