(* ===== verification/UsedSymbols.v ===== *)
(** * [build_tables.rs]: symbols in use

    The symbols that [populate_used_symbols] numbers. *)
From S2P Require Import Prelude BitVec Symbols TokenSet CharSet Nfa StrPool Grammars Lookaheads Items ItemSets FirstSets FollowSets Additions Tables Outcomes BuildTable BuildState TokenConflicts LexTable Minimize LexBuild TablePasses PassQueries.
Import Passes.

(** ** Symbols in use *)
(** The indices that are marked, from index [k] on. *)
Fixpoint marked (k : nat) (l : list bool) : list nat :=
  match l with [] => [] | b :: l => (if b : bool then [k] else []) ++ marked (S k) l end.
Lemma elem_of_marked l : ∀ k i, i ∈ marked k l ↔ ∃ j, l !! j = Some true ∧ i = k + j.
Proof.
  induction l as [|b l IH]; intros k i; cbn.
  { split; [by intros ?%not_elem_of_nil|intros (j & Hj & _); by rewrite lookup_nil in Hj]. }
  rewrite elem_of_app, IH. split.
  - intros [Hi|(j & Hj & ->)]; [|exists (S j); split; [done|lia]]. exists 0. destruct b; [|by apply not_elem_of_nil in Hi].
    apply list_elem_of_singleton in Hi as ->. split; [done|lia].
  - intros ([|j] & Hj & ->); cbn in Hj; [left; injection Hj as ->; rewrite Nat.add_0_r; apply list_elem_of_here|right; exists j; split; [done|lia]].
Qed.
Lemma marked_sorted l : ∀ k, StronglySorted lt (marked k l).
Proof.
  induction l as [|b l IH]; intros k; cbn; [constructor|]. destruct b; cbn; [|apply IH]. constructor; [apply IH|].
  apply Forall_forall. intros i (j & _ & ->)%elem_of_marked. lia.
Qed.
Lemma marked_snoc l b : ∀ k, marked k (l ++ [b]) = marked k l ++ if b then [k + length l] else [].
Proof.
  induction l as [|c l IH]; intros k; cbn; [rewrite Nat.add_0_r; by destruct b|]. rewrite IH, <- app_assoc. do 2 f_equal.
  by rewrite Nat.add_succ_r.
Qed.
Lemma used_marked_from (f : N → Symbol) l : ∀ k, omap (M:=list) (λ e : nat * bool, if e.2 then Some (f (N.of_nat e.1)) else None) (imap (λ i x, (k + i, x)) l) = map (λ i, f (N.of_nat i)) (marked k l).
Proof.
  induction l as [|b l IH]; intros k; [done|]. cbn. rewrite Nat.add_0_r, map_app, <- IH. 
  assert (imap ((λ i x, (k + i, x)) ∘ S) l = imap (λ i x, (S k + i, x)) l) as -> by (apply imap_ext; intros; cbn; by rewrite Nat.add_succ_r).
  by destruct b.
Qed.
Lemma used_marked f l : used f l = map (λ i, f (N.of_nat i)) (marked 0 l).
Proof. apply (used_marked_from f l 0). Qed.

Section used_symbols.
Context (g : SyntaxGrammar) (lg : LexicalGrammar).
Notation n := (length (lg_variables lg)).
Notation tok i := (terminal (N.of_nat i)).
Definition is_word (i : nat) : bool := match word_token g with Some w => (N.to_nat (index w) =? i)%nat | None => false end.
(** The word token first, then the others. *)
Definition word_first (l : list nat) : list nat := List.filter is_word l ++ List.filter (λ i, negb (is_word i)) l.
Lemma push_terminals {E} l : for_each (E:=E) (push_terminal g) [end_] (imap (λ i x, (i, x)) l) = Ok (end_ :: map (λ i, tok i) (word_first (marked 0 l))).
Proof.
  induction l as [|b l IH] using rev_ind; [done|]. rewrite imap_app. cbn [imap compose]. rewrite Nat.add_0_r.
  rewrite for_each_app, IH. cbn [mbind outcome_bind for_each]. rewrite marked_snoc. unfold push_terminal. cbn [fst snd].
  destruct b; [|by rewrite app_nil_r]. fold (is_word (length l)). cbn [length Nat.ltb Nat.leb].
  unfold word_first. rewrite !List.filter_app. cbn [List.filter]. rewrite Nat.add_0_l.
  destruct (is_word (length l)) eqn:Hw; cbn [negb].
  - assert (List.filter is_word (marked 0 l) = []) as ->.
    { destruct (List.filter is_word (marked 0 l)) as [|j k] eqn:Hf; [done|]. assert (In j (List.filter is_word (marked 0 l))) as Hj by (rewrite Hf; by left).
      apply filter_In in Hj as [Hj Hwj]. apply list_elem_of_In, elem_of_marked in Hj as (i & Hi & ->). apply lookup_lt_Some in Hi.
      unfold is_word in *. destruct (word_token g); [|done]. apply Nat.eqb_eq in Hw, Hwj. lia. }
    cbn. by rewrite app_nil_r.
  - by rewrite app_nil_r, map_app, map_app, map_app, !app_assoc.
Qed.

Notation n_ext := (length (external_tokens g)).
Notation n_vars := (length (sg_variables g)).
(** [m] marks: those of the indices that [P] holds of. *)
Definition flagged (m : nat) (l : list bool) (P : nat → Prop) : Prop := length l = m ∧ ∀ i, l !! i = Some true ↔ P i.
Lemma flagged_ext m l (P P' : nat → Prop) : (∀ i, P i ↔ P' i) → flagged m l P → flagged m l P'.
Proof. intros HP [Hl H]. split; [done|]. intros i. by rewrite H. Qed.
Lemma flagged_start m : flagged m (replicate m false) (λ _, False).
Proof. split; [apply length_replicate|]. intros i. split; [|done]. by intros [? _]%lookup_replicate. Qed.
Lemma flagged_set {E} m l P i : flagged m l P → i < m → ∃ l', vec_set (E:=E) l i true = Ok l' ∧ flagged m l' (λ j, P j ∨ j = i).
Proof.
  intros [Hl HP] Hi. rewrite vec_set_lt by lia. eexists. split; [done|]. split; [by rewrite length_insert|]. intros j.
  rewrite list_lookup_insert. case_decide as Hd; [naive_solver|]. rewrite HP. split; [by left|]. intros [?| ->]; [done|lia].
Qed.
Definition index_of (P : Symbol → Prop) (i : nat) : Prop := ∃ x, P x ∧ N.to_nat (index x) = i.
(** The marks of the tokens [P] and of the variables [G]. *)
Record usages_ok (u : list bool * list bool * list bool) (P G : Symbol → Prop) : Prop := {
  us_terminals : flagged n u.1.1 (index_of (λ x, P x ∧ kind x = Terminal));
  us_externals : flagged n_ext u.1.2 (index_of (λ x, P x ∧ kind x = External));
  us_variables : flagged n_vars u.2 (index_of G);
}.
Lemma usages_ext u (P P' G G' : Symbol → Prop) : (∀ x, P x ↔ P' x) → (∀ x, G x ↔ G' x) → usages_ok u P G → usages_ok u P' G'.
Proof. intros HP HG [? ? ?]. split; (eapply flagged_ext; [|done]); intros i; unfold index_of; by setoid_rewrite HP || setoid_rewrite HG. Qed.
(** A token of a state is a token of the grammar. *)
Definition key_known (x : Symbol) : Prop :=
  match kind x with Terminal => N.to_nat (index x) < n | External => N.to_nat (index x) < n_ext | _ => True end.
Lemma mark_entry_ok {E} u P G x : usages_ok u P G → key_known x → ∃ u', mark_entry (E:=E) u x = Ok u' ∧ usages_ok u' (λ y, P y ∨ y = x) G.
Proof.
  destruct u as [[ts xs] vs]. intros [Ht Hx Hv] Hk. unfold mark_entry. cbn [fst snd] in *. unfold key_known in Hk.
  destruct (kind x) eqn:Hkind.
  all: try (eexists; split; [done|]; split; cbn [fst snd]; [| |done]; eapply flagged_ext; [|done| |done]; intros i; unfold index_of; naive_solver congruence).
  - destruct (flagged_set (E:=E) _ _ _ _ Hx Hk) as (l & -> & Hl). eexists; split; [done|]; split; cbn [fst snd]; [|eapply flagged_ext; [|exact Hl]|done].
    + eapply flagged_ext; [|done]. intros i; unfold index_of; naive_solver congruence.
    + intros i; unfold index_of; naive_solver.
  - destruct (flagged_set (E:=E) _ _ _ _ Ht Hk) as (l & -> & Hl). eexists; split; [done|]; split; cbn [fst snd]; [eapply flagged_ext; [|exact Hl]| |done].
    + intros i; unfold index_of; naive_solver.
    + eapply flagged_ext; [|done]. intros i; unfold index_of; naive_solver congruence.
Qed.
Lemma mark_goto_ok {E} u P G x : usages_ok u P G → N.to_nat (index x) < n_vars → ∃ u', mark_goto (E:=E) u x = Ok u' ∧ usages_ok u' P (λ y, G y ∨ y = x).
Proof.
  destruct u as [[ts xs] vs]. intros [Ht Hx Hv] Hk. cbn in *. destruct (flagged_set (E:=E) _ _ _ _ Hv Hk) as (l & -> & Hl).
  eexists. split; [done|]. split; cbn [fst snd]; [done|done|]. eapply flagged_ext; [|exact Hl]. intros i. unfold index_of. naive_solver.
Qed.
Lemma mark_state_ok {E T} u P G (s : ParseState T) : usages_ok u P G → (∀ x, x ∈ (terminal_entries s).*1 → key_known x) →
  (∀ x, x ∈ (nonterminal_entries s).*1 → N.to_nat (index x) < n_vars) →
  ∃ u', mark_state (E:=E) u s = Ok u' ∧ usages_ok u' (λ x, P x ∨ x ∈ (terminal_entries s).*1) (λ x, G x ∨ x ∈ (nonterminal_entries s).*1).
Proof.
  intros Hu Hk Hg. unfold mark_state.
  destruct (for_each_inv (E:=E) mark_entry (λ d u, usages_ok u (λ x, P x ∨ x ∈ d) G) (terminal_entries s).*1 u) as (u1 & -> & Hu1).
  { eapply usages_ext; [| |exact Hu]; [|done]. intros x. split; [by left|]. by intros [?|?%not_elem_of_nil]. }
  { intros d x r u' Hd Hu'. destruct (mark_entry_ok (E:=E) _ _ _ x Hu') as (u2 & Hu2 & Hok); [apply Hk; rewrite Hd; set_solver|].
    exists u2. split; [done|]. eapply usages_ext; [| |exact Hok]; [|done]. intros y. set_solver. }
  cbn [mbind outcome_bind].
  destruct (for_each_inv (E:=E) mark_goto (λ d u, usages_ok u (λ x, P x ∨ x ∈ (terminal_entries s).*1) (λ x, G x ∨ x ∈ d)) (nonterminal_entries s).*1 u1) as (u2 & -> & Hu2).
  { eapply usages_ext; [| |exact Hu1]; [done|]. intros x. split; [by left|]. by intros [?|?%not_elem_of_nil]. }
  { intros d x r u' Hd Hu'. destruct (mark_goto_ok (E:=E) _ _ _ x Hu') as (u3 & Hu3 & Hok); [apply Hg; rewrite Hd; set_solver|].
    exists u3. split; [done|]. eapply usages_ext; [| |exact Hok]; [done|]. intros y. set_solver. }
  by exists u2.
Qed.
Lemma mark_states_ok {E T} (ss : list (ParseState T)) : (∀ x, entry_symbol ss x → key_known x) → (∀ x, goto_symbol ss x → N.to_nat (index x) < n_vars) →
  ∃ u, for_each (E:=E) mark_state (replicate n false, replicate n_ext false, replicate n_vars false) ss = Ok u ∧
    usages_ok u (entry_symbol ss) (goto_symbol ss).
Proof.
  intros Hk Hg.
  apply (for_each_inv (E:=E) mark_state (λ d u, usages_ok u (entry_symbol d) (goto_symbol d))).
  { unfold entry_symbol, goto_symbol. split; (eapply flagged_ext; [|apply flagged_start]); intros i; unfold index_of; set_solver. }
  intros d s r u Hd Hu. destruct (mark_state_ok (E:=E) _ _ _ s Hu) as (u' & Hu' & Hok).
  { intros x Hx. apply Hk. exists s. rewrite Hd. split; [set_solver|done]. }
  { intros x Hx. apply Hg. exists s. rewrite Hd. split; [set_solver|done]. }
  exists u'. split; [done|]. eapply usages_ext; [| |exact Hok]; intros x; unfold entry_symbol, goto_symbol.
  all: setoid_rewrite elem_of_app; setoid_rewrite list_elem_of_singleton; naive_solver.
Qed.
(** Distinct symbols, from distinct indices. *)
Definition symbols_of (ts xs vs : list nat) : list Symbol :=
  end_ :: map (λ i, tok i) (word_first ts) ++ map (λ i, external (N.of_nat i)) xs ++ map (λ i, non_terminal (N.of_nat i)) vs.
Lemma word_first_perm l : word_first l ≡ₚ l.
Proof.
  unfold word_first. induction l as [|i l IH]; [done|]. cbn. destruct (is_word i); cbn; [by rewrite IH|].
  by rewrite <- Permutation_middle, IH.
Qed.
Lemma indices_NoDup m (f : N → Symbol) l : (N.of_nat m < U32)%N → (∀ i, index (f i) = wrap_u32 i) → NoDup l → (∀ i, i ∈ l → i < m) →
  NoDup (map (λ i, f (N.of_nat i)) l).
Proof.
  intros Hm Hf Hl Hlt. induction Hl as [|i l Hi Hl IH]; [constructor|]. cbn. constructor.
  - intros (j & Heq & Hj)%elem_of_map. destruct Hi. apply (f_equal index) in Heq. rewrite !Hf, !wrap_u32_small in Heq.
    + by replace i with j by lia.
    + specialize (Hlt j ltac:(by apply list_elem_of_further)). lia.
    + specialize (Hlt i ltac:(apply list_elem_of_here)). lia.
  - apply IH. intros. apply Hlt. by apply list_elem_of_further.
Qed.
Lemma sorted_NoDup l : StronglySorted lt l → NoDup l.
Proof. induction 1 as [|i l _ IH Hi]; constructor; [|done]. rewrite Forall_forall in Hi. intros Hin%Hi. lia. Qed.
Lemma symbols_NoDup ts xs vs : (N.of_nat n < U32)%N → (N.of_nat n_ext < U32)%N → (N.of_nat n_vars < U32)%N →
  NoDup ts → NoDup xs → NoDup vs → (∀ i, i ∈ ts → i < n) → (∀ i, i ∈ xs → i < n_ext) → (∀ i, i ∈ vs → i < n_vars) → NoDup (symbols_of ts xs vs).
Proof.
  intros Hn Hx Hv Ht1 Hx1 Hv1 Ht2 Hx2 Hv2. unfold symbols_of. pose proof (word_first_perm ts) as Hp.
  constructor.
  { rewrite !elem_of_app, !elem_of_map. intros [(i & ? & _)|[(i & ? & _)|(i & ? & _)]]; done. }
  apply NoDup_app. split; [apply (indices_NoDup n terminal); [done|done|by rewrite Hp|intros i; rewrite Hp; apply Ht2]|]. split.
  { intros x (i & -> & _)%elem_of_map. rewrite elem_of_app, !elem_of_map. intros [(j & ? & _)|(j & ? & _)]; done. }
  apply NoDup_app. split; [by apply (indices_NoDup n_ext external)|]. split; [|by apply (indices_NoDup n_vars non_terminal)].
  intros x (i & -> & _)%elem_of_map. rewrite !elem_of_map. by intros (j & ? & _).
Qed.
(** [populate_used_symbols] numbers the symbols that the states have actions or gotos on:
    the end, the word token if it is used, and the other terminals, the externals and the
    variables, each in the order of their indices. *)
Lemma populate_used_symbols_spec {E T} (t : ParseTable T) : pt_symbols t = [] →
  (∀ x, entry_symbol (pt_states t) x → key_known x) → (∀ x, goto_symbol (pt_states t) x → N.to_nat (index x) < n_vars) →
  ∃ ts xs vs, populate_used_symbols (E:=E) g lg t =
      Ok (mkParseTable (pt_states t) (action_lists t)
        (symbols_of ts xs vs) (production_infos t) (max_aliased_production_length t) (external_lex_states t)) ∧
    StronglySorted lt ts ∧ StronglySorted lt xs ∧ StronglySorted lt vs ∧
    (∀ i, i ∈ ts ↔ index_of (λ x, entry_symbol (pt_states t) x ∧ kind x = Terminal) i) ∧
    (∀ i, i ∈ xs ↔ index_of (λ x, entry_symbol (pt_states t) x ∧ kind x = External) i) ∧
    (∀ i, i ∈ vs ↔ index_of (goto_symbol (pt_states t)) i).
Proof.
  intros Hsy Hk Hg. unfold populate_used_symbols. destruct (mark_states_ok (E:=E) (pt_states t) Hk Hg) as ([[ts xs] vs] & -> & [[_ Ht] [_ Hx] [_ Hv]]).
  cbn [mbind outcome_bind fst snd] in *. rewrite Hsy, app_nil_l, push_terminals. cbn [mbind outcome_bind]. rewrite !used_marked.
  exists (marked 0 ts), (marked 0 xs), (marked 0 vs). split; [done|].
  do 3 (split; [apply marked_sorted|]).
  assert (∀ l i, i ∈ marked 0 l ↔ l !! i = Some true) as Hm.
  { intros l i. rewrite elem_of_marked. split; [by intros (j & ? & ->)|]. intros ?. by exists i. }
  setoid_rewrite Hm. done.
Qed.
End used_symbols.

(** ** Properties *)
(** C23: when the symbols of the states exist, [populate_used_symbols] lists the end of the
    input, the word token if some state has an action on it, and then the other terminals, the
    external tokens and the variables that the states have entries on, each kind in the
    order of the indices; no symbol is listed twice. *)
Theorem populate_used_symbols_correct (E T : Type) (g : SyntaxGrammar) (lg : LexicalGrammar) (t : ParseTable T) :
  (N.of_nat (length (lg_variables lg)) < U32)%N → (N.of_nat (length (external_tokens g)) < U32)%N → (N.of_nat (length (sg_variables g)) < U32)%N →
  pt_symbols t = [] → (∀ x, entry_symbol (pt_states t) x → key_known g lg x) →
  (∀ x, goto_symbol (pt_states t) x → N.to_nat (index x) < length (sg_variables g)) →
  ∃ ts xs vs, populate_used_symbols (E:=E) g lg t =
      Ok (mkParseTable (pt_states t) (action_lists t) (symbols_of g ts xs vs) (production_infos t) (max_aliased_production_length t)
        (external_lex_states t)) ∧
    NoDup (symbols_of g ts xs vs) ∧ StronglySorted lt ts ∧ StronglySorted lt xs ∧ StronglySorted lt vs ∧
    (∀ i, i ∈ ts ↔ index_of (λ x, entry_symbol (pt_states t) x ∧ kind x = Terminal) i) ∧
    (∀ i, i ∈ xs ↔ index_of (λ x, entry_symbol (pt_states t) x ∧ kind x = External) i) ∧
    (∀ i, i ∈ vs ↔ index_of (goto_symbol (pt_states t)) i).
Proof.
  intros Hn Hx Hv Hsy Hk Hg. destruct (populate_used_symbols_spec (E:=E) g lg t Hsy Hk Hg) as (ts & xs & vs & Hp & Ht & Hxs & Hvs & Hmt & Hmx & Hmv).
  exists ts, xs, vs. do 2 (split; [done || apply (symbols_NoDup g lg)|]); try done; try (by apply sorted_NoDup).
  - intros i (x & [He Hkx] & <-)%Hmt. specialize (Hk x He). unfold key_known in Hk. by rewrite Hkx in Hk.
  - intros i (x & [He Hkx] & <-)%Hmx. specialize (Hk x He). unfold key_known in Hk. by rewrite Hkx in Hk.
  - intros i (x & He & <-)%Hmv. by apply Hg.
Qed.

(** ** Witness *)
Example used_symbols_run : match populate_used_symbols (E:=Empty_set) pass_grammar ex_grammar pass_table with
  | Ok t => pt_symbols t = [end_; terminal 1; terminal 0; external 0; non_terminal 0]%N
  | _ => False
  end.
Proof. vm_compute. reflexivity. Qed.
Lemma populate_used_symbols_witness : ∃ ts xs vs, populate_used_symbols (E:=Empty_set) pass_grammar ex_grammar pass_table =
    Ok (mkParseTable (pt_states pass_table) empty_pool (symbols_of pass_grammar ts xs vs) [] 0 []) ∧ NoDup (symbols_of pass_grammar ts xs vs).
Proof.
  destruct (populate_used_symbols_correct Empty_set _ pass_grammar ex_grammar pass_table) as (ts & xs & vs & Hp & Hnd & _);
    [reflexivity|reflexivity|reflexivity|reflexivity| | |].
  - intros x (s & Hs & Hx). repeat (apply elem_of_cons in Hs as [->|Hs];
      [cbn in Hx; repeat (apply elem_of_cons in Hx as [->|Hx]; [vm_compute; lia|]); by apply not_elem_of_nil in Hx|]). by apply not_elem_of_nil in Hs.
  - intros x (s & Hs & Hx). repeat (apply elem_of_cons in Hs as [->|Hs];
      [cbn in Hx; repeat (apply elem_of_cons in Hx as [->|Hx]; [vm_compute; lia|]); by apply not_elem_of_nil in Hx|]). by apply not_elem_of_nil in Hs.
  - exists ts, xs, vs. split; [exact Hp|exact Hnd].
Defined.
