(* ===== verification/ExternalStates.v ===== *)
(** * [build_tables.rs]: states of the external scanner

    The sets of external tokens that [populate_external_lex_states] gives the states. *)
From S2P Require Import Prelude BitVec Symbols TokenSet CharSet Nfa StrPool Grammars Lookaheads Items ItemSets FirstSets FollowSets Additions Tables Outcomes BuildTable BuildState TokenConflicts LexTable Minimize LexBuild TablePasses PassQueries UsedSymbols.
Import Passes.

(** ** States of the external scanner *)
Section external.
Context (g : SyntaxGrammar) (Hsmall : (N.of_nat (length (external_tokens g)) + 1 < U32)%N).
(** The last external token of [l] for the internal token with index [k]. *)
Definition last_for (l : list ExternalToken) (k : N) (i : nat) : Prop :=
  (∃ e w, l !! i = Some e ∧ corresponding_internal_token e = Some w ∧ index w = k) ∧
  ∀ j e w, i < j → l !! j = Some e → corresponding_internal_token e = Some w → index w ≠ k.
Lemma last_for_fold l k i :
  foldl (λ (m : gmap N nat) '(i, x), match corresponding_internal_token x with Some s => <[index s := i]> m | None => m end) ∅
    (imap (λ i x, (i, x)) l) !! k = Some i ↔ last_for l k i.
Proof.
  revert k i. induction l as [|e l IH] using rev_ind; intros k i.
  { cbn. rewrite lookup_empty. split; [done|]. intros [(e & w & He & _) _]. by rewrite lookup_nil in He. }
  rewrite imap_app, foldl_app. cbn [imap foldl compose]. rewrite Nat.add_0_r.
  assert (∀ j y, (l ++ [e]) !! j = Some y ↔ l !! j = Some y ∨ j = length l ∧ y = e) as Hsplit.
  { intros j y. rewrite lookup_app_Some, list_lookup_singleton_Some. split; [|intros [?|[-> ->]]; [by left|right; by rewrite Nat.sub_diag]].
      intros [?|(? & ? & ?)]; [by left|right]. split; [lia|done]. }
  unfold last_for in *. setoid_rewrite Hsplit.
  assert (∀ j y, l !! j = Some y → j < length l) as Hlen by (intros; by eapply lookup_lt_Some).
  destruct (corresponding_internal_token e) as [s|] eqn:He.
  - destruct (decide (index s = k)) as [<-|Hne].
    + rewrite lookup_insert. rewrite decide_True by done. split.
      * intros [= <-]. split; [exists e, s; split; [by right|done]|]. intros j y w Hj [Hy|[-> _]]; [apply Hlen in Hy; lia|lia].
      * intros [(y & w & [Hy|[-> ->]] & Hw & Hk) Hall]; [|done]. exfalso. apply (Hall (length l) e s); [by eapply Hlen|by right|done|done].
    + rewrite lookup_insert_ne by done. rewrite IH. split.
      * intros [(y & w & Hy & Hw & Hk) Hall]. split; [by exists y, w; split; [left|]|]. intros j z v Hj [Hz|[-> ->]] Hv; [by eapply Hall|naive_solver].
      * intros [(y & w & [Hy|[-> ->]] & Hw & Hk) Hall]; [|naive_solver]. split; [by exists y, w|]. intros j z v Hj Hz. eapply Hall; [done|by left].
  - rewrite IH. split.
    + intros [(y & w & Hy & Hw & Hk) Hall]. split; [by exists y, w; split; [left|]|]. intros j z v Hj [Hz|[-> ->]] Hv; [by eapply Hall|naive_solver].
    + intros [(y & w & [Hy|[-> ->]] & Hw & Hk) Hall]; [|naive_solver]. split; [by exists y, w|]. intros j z v Hj Hz. eapply Hall; [done|by left].
Qed.
(** The external tokens that a token calls for. *)
Definition calls_for (x y : Symbol) : Prop :=
  kind x = External ∧ y = x ∨ kind x = Terminal ∧ ∃ i, last_for (external_tokens g) (index x) i ∧ y = external (N.of_nat i).
Definition scans {T} (s : ParseState T) (y : Symbol) : Prop := ∃ x, x ∈ (terminal_entries s).*1 ∧ calls_for x y.
Lemma add_external_spec {E} ts x : TokenSet.wf ts → (kind x = External → TokenSet.token x) →
  ∃ ts', add_external (E:=E) g ts x = Ok ts' ∧ TokenSet.wf ts' ∧ ∀ y, y ∈ toks ts' ↔ y ∈ toks ts ∨ calls_for x y.
Proof.
  intros Hw Hx. unfold add_external, calls_for, is_external, is_terminal. destruct (kind x) eqn:Hk; cbn.
  all: try (exists ts; split; [done|]; split; [done|]; naive_solver).
  - destruct (TokenSet.insert_spec (E:=E) ts x Hw (Hx eq_refl)) as (ts' & Hi & Hw' & Ht). exists ts'. split; [done|]. split; [done|].
    intros y. rewrite Ht. set_solver.
  - destruct (external_by_internal g !! index x) as [i|] eqn:Hi.
    + apply last_for_fold in Hi. pose proof Hi as [(e & w & He & _) _]. apply lookup_lt_Some in He.
      destruct (TokenSet.insert_spec (E:=E) ts (external (N.of_nat i)) Hw) as (ts' & -> & Hw' & Ht).
      { unfold TokenSet.token, external. cbn. rewrite wrap_u32_small by lia. lia. }
      exists ts'. split; [done|]. split; [done|]. intros y. rewrite Ht, elem_of_union, elem_of_singleton. split.
      * intros [->|?]; [right; right; split; [done|by exists i]|by left].
      * intros [?|[[? _]|[_ (j & Hj & ->)]]]; [by right|done|left]. unfold external_by_internal in *. apply last_for_fold in Hi, Hj. congruence.
    + exists ts. split; [done|]. split; [done|]. intros y. split; [by left|]. intros [?|[[? _]|[_ (j & Hj & ->)]]]; [done|done|].
      apply last_for_fold in Hj. unfold external_by_internal in Hi. congruence.
Qed.
Lemma external_tokens_spec {E T} (s : ParseState T) : (∀ x, x ∈ (terminal_entries s).*1 → kind x = External → TokenSet.token x) →
  ∃ ts, for_each (E:=E) (add_external g) TokenSet.new (terminal_entries s).*1 = Ok ts ∧ TokenSet.wf ts ∧ ∀ y, y ∈ toks ts ↔ scans s y.
Proof.
  intros Hk. unfold scans.
  apply (for_each_inv (E:=E) (add_external g) (λ d ts, TokenSet.wf ts ∧ ∀ y, y ∈ toks ts ↔ ∃ x, x ∈ d ∧ calls_for x y)).
  { split; [apply TokenSet.wf_new|]. intros y. rewrite TokenSet.toks_new. set_solver. }
  intros d x r ts Hd [Hw Ht]. destruct (add_external_spec (E:=E) ts x Hw) as (ts' & Hts & Hw' & Ht'); [apply Hk; rewrite Hd; set_solver|].
  exists ts'. split; [done|]. split; [done|]. intros y. rewrite Ht', Ht. setoid_rewrite elem_of_app. setoid_rewrite list_elem_of_singleton. naive_solver.
Qed.

(** The lex states [ls] stand for different sets, the first for the empty one, and the
    states [ss'] are the states [ss] with their lex states. *)
Record lexed_externally {T} (ss ss' : list (ParseState T)) (ls : list TokenSet) : Prop := {
  le_wf : Forall TokenSet.wf ls;
  le_first : ∃ s, ls !! 0 = Some s ∧ toks s = ∅;
  le_distinct : ∀ i j a b, ls !! i = Some a → ls !! j = Some b → toks a = toks b → i = j;
  le_used : ∀ i a, ls !! S i = Some a → ∃ s, s ∈ ss ∧ ∀ y, y ∈ toks a ↔ scans s y;
  le_bound : length ls ≤ S (length ss);
  le_states : Forall2 (λ s s', ∃ id ts, s' = with_external_lex_state s id ∧ ls !! N.to_nat id = Some ts ∧ ∀ y, y ∈ toks ts ↔ scans s y) ss ss';
}.
Lemma external_state_spec {E T} (ss ss' : list (ParseState T)) ls s : lexed_externally ss ss' ls →
  (∀ x, x ∈ (terminal_entries s).*1 → kind x = External → TokenSet.token x) → (N.of_nat (S (length ss)) < U32)%N →
  ∃ st, external_state (E:=E) g (ss', ls) s = Ok st ∧ lexed_externally (ss ++ [s]) st.1 st.2.
Proof.
  intros [Hw (s0 & Hs0 & He0) Hd Hu Hb Hst] Hk Hlen. unfold external_state. cbn [fst snd].
  destruct (external_tokens_spec (E:=E) s Hk) as (ts & -> & Hts & Hmem). cbn [mbind outcome_bind].
  assert (∀ i, i < length ls → N.to_nat (as_u32 i) = i) as Hid by (intros i Hi; rewrite as_u32_small by lia; lia).
  rewrite Forall_forall in Hw. pose proof (λ i a Hi, Hw a (list_elem_of_lookup_2 ls i a Hi)) as Hwi. rewrite <- Forall_forall in Hw.
  destruct (list_find (λ x, TokenSet.eq x ts = true) ls) as [[i a]|] eqn:Hf; (eexists; split; [done|]; cbn [fst snd]).
  - apply list_find_Some in Hf as (Hi & Heq & _). rewrite TokenSet.toks_eq_spec in Heq by eauto. apply bool_decide_eq_true in Heq.
    split; [done|by exists s0|done| |rewrite length_app; cbn; lia|].
    + intros j b Hj. destruct (Hu j b Hj) as (r & Hr & ?). exists r. split; [apply elem_of_app; by left|done].
    + apply Forall2_app; [done|]. constructor; [|constructor]. exists (as_u32 i), a. apply lookup_lt_Some in Hi as Hil. rewrite Hid by done. by rewrite Heq.
  - rewrite list_find_None, Forall_forall in Hf.
    assert (∀ i a, ls !! i = Some a → toks a ≠ toks ts) as Hnew.
    { intros i a Hi Heq. apply (Hf a); [by eapply list_elem_of_lookup_2|]. rewrite TokenSet.toks_eq_spec by eauto. by apply bool_decide_eq_true. }
    assert (∀ i a, (ls ++ [ts]) !! i = Some a ↔ ls !! i = Some a ∨ i = length ls ∧ a = ts) as Hsplit.
    { intros i a. rewrite lookup_app_Some, list_lookup_singleton_Some. split; [|intros [?|[-> ->]]; [by left|right; by rewrite Nat.sub_diag]].
      intros [?|(? & ? & ?)]; [by left|right]. split; [lia|done]. }
    split.
    + apply Forall_app. split; [done|by constructor].
    + exists s0. split; [|done]. apply Hsplit. by left.
    + intros i j a b [Hi|[-> ->]]%Hsplit [Hj|[-> ->]]%Hsplit Heq; [by eapply Hd|by destruct (Hnew i a Hi)|by destruct (Hnew j b Hj)|done].
    + intros i a [Hi|[_ ->]]%Hsplit; [|exists s; split; [apply elem_of_app; right; apply list_elem_of_here|done]]. destruct (Hu i a Hi) as (r & Hr & ?). exists r. split; [apply elem_of_app; by left|done].
    + rewrite !length_app. cbn. lia.
    + apply Forall2_app.
      * eapply Forall2_impl; [exact Hst|]. intros x y (id & r & -> & Hr & ?). exists id, r. split; [done|]. split; [|done]. apply Hsplit. by left.
      * constructor; [|constructor]. exists (as_u32 (length ls)), ts. split; [done|]. split; [|done].
        rewrite as_u32_small by lia. apply Hsplit. right. split; [lia|done].
Qed.
(** [populate_external_lex_states] gives every state the set of the external tokens that
    its tokens call for; equal sets are one lex state, and the first is the empty one. *)
Lemma populate_external_lex_states_spec {E T} (t : ParseTable T) : external_lex_states t = [] →
  (∀ x, entry_symbol (pt_states t) x → kind x = External → TokenSet.token x) → (N.of_nat (length (pt_states t)) < U32)%N →
  ∃ states ls, populate_external_lex_states (E:=E) g t =
      Ok (mkParseTable states (action_lists t) (pt_symbols t) (production_infos t) (max_aliased_production_length t) ls) ∧
    lexed_externally (pt_states t) states ls.
Proof.
  intros Hx Hk Hlen. unfold populate_external_lex_states. rewrite Hx, app_nil_l.
  destruct (for_each_inv (E:=E) (external_state g) (λ d st, lexed_externally d st.1 st.2) (pt_states t) ([], [TokenSet.new])) as ([states ls] & -> & Hok).
  - split; cbn.
    + repeat constructor; apply TokenSet.wf_new.
    + exists TokenSet.new. split; [done|apply TokenSet.toks_new].
    + intros [|i] [|j] a b Hi Hj _; cbn in *; try done; by rewrite lookup_nil in *.
    + done.
    + lia.
    + constructor.
  - intros d s r [ss' ls] Hd Hok. apply external_state_spec; [done| |].
    + intros x Hin. apply Hk. exists s. rewrite Hd. split; [set_solver|done].
    + rewrite Hd, length_app in Hlen. cbn in Hlen. lia.
  - by exists states, ls.
Qed.
End external.

(** ** Properties *)
(** C24: [populate_external_lex_states] gives every state the set of exactly the external
    tokens that its tokens call for: those that it has actions on, and for an internal token
    the last external token that stands for it.  Different ids are different sets, id 0 is
    the empty set, every other one is that of some state, and no state changes otherwise. *)
Theorem populate_external_lex_states_correct (E T : Type) (g : SyntaxGrammar) (t : ParseTable T) :
  (N.of_nat (length (external_tokens g)) + 1 < U32)%N → external_lex_states t = [] →
  (∀ x, entry_symbol (pt_states t) x → kind x = External → TokenSet.token x) → (N.of_nat (length (pt_states t)) < U32)%N →
  ∃ states ls, populate_external_lex_states (E:=E) g t =
      Ok (mkParseTable states (action_lists t) (pt_symbols t) (production_infos t) (max_aliased_production_length t) ls) ∧
    lexed_externally g (pt_states t) states ls.
Proof. intros. by apply populate_external_lex_states_spec. Qed.

(** ** Witness *)
Example external_states_run : match populate_external_lex_states (E:=Empty_set) pass_grammar pass_table with
  | Ok t => (map external_lex_state_id (pt_states t), map TokenSet.iter (external_lex_states t)) =
      ([0; 1; 2], [Ok []; Ok [external 0]; Ok [external 1]])%N
  | _ => False
  end.
Proof. vm_compute. reflexivity. Qed.
Lemma populate_external_lex_states_witness : ∃ states ls, populate_external_lex_states (E:=Empty_set) pass_grammar pass_table =
    Ok (mkParseTable states empty_pool [] [] 0 ls) ∧ lexed_externally pass_grammar (pt_states pass_table) states ls.
Proof.
  apply (populate_external_lex_states_correct Empty_set _ pass_grammar pass_table); [reflexivity|reflexivity| |reflexivity].
  intros x (s & Hs & Hx) _. repeat (apply elem_of_cons in Hs as [->|Hs];
    [cbn in Hx; repeat (apply elem_of_cons in Hx as [->|Hx]; [vm_compute; reflexivity|]); by apply not_elem_of_nil in Hx|]). by apply not_elem_of_nil in Hs.
Defined.
