(* ===== verification/Keywords.v ===== *)
(** * [build_tables.rs]: keywords

    The tokens that [identify_keywords] leaves to the keyword lexer. *)
From S2P Require Import Prelude BitVec Symbols TokenSet CharSet Nfa StrPool Grammars Lookaheads Items ItemSets FirstSets FollowSets Additions Tables Outcomes BuildTable BuildState TokenConflicts LexTable Minimize LexBuild TablePasses PassQueries.
Import Passes.

Section keywords.
Context (is_alphabetic : N → bool) (lg : LexicalGrammar) (m : TokenConflictMap) (r : CoincidentTokenIndex).
Notation n := (length (lg_variables lg)).
Notation tok i := (terminal (N.of_nat i)).
Notation f := (lg_nfa lg).
Context (Hlg : lexer_ok lg) (Hm : conflicts_ok n m) (Hr : coincident_ok n r) (Hn : (N.of_nat n + 1 < U32)%N).
(** Every character that can come first, separators apart, is a letter or [_]. *)
Definition alphabetic_start (v : LexicalVariable) : Prop :=
  ∀ x cs id prec c, eps f (start_state v) x → f !! N.to_nat x = Some (Advance cs id false prec) → c ∈ chars cs →
    is_alphabetic c = true ∨ c = 95%N.
Definition same_status (a b other : nat) : bool := (status m a other =? status m b other)%N.
Lemma same_status_ok a b other : a < n → b < n → other < n → has_same_conflict_status m a b other = Ok (same_status a b other).
Proof.
  intros Ha Hb Ho. unfold has_same_conflict_status. destruct (tc_entry_status n m Hm a other Ha Ho) as [-> _].
  by destruct (tc_entry_status n m Hm b other Hb Ho) as [-> _].
Qed.
Section word.
Context (word : Symbol).
Notation w := (N.to_nat (index word)).
Context (Hword : w < n).
(** A token whose strings are strings of the word token, by the conflict map. *)
Definition keyword_candidate (i : nat) : Prop :=
  ∃ v, lg_variables lg !! i = Some v ∧ alphabetic_start v ∧ same_string m i w = true ∧ different_string m i w = false.
(** No other candidate matches the same string. *)
Definition unshadowed (i : nat) : Prop := ∀ j, keyword_candidate j → j ≠ i → same_string m j i = false.
(** Lexing the word token instead adds no conflict with a token that is not a candidate. *)
Definition capturable (i : nat) : Prop :=
  ∀ o, o < n → ¬ keyword_candidate o → word_together r i o = true ∨ same_status i w o = true.
Lemma alphabetical_ok c v : nfa c = f → LexTable.is_closure f [start_state v] (state_ids c) → N.to_nat (start_state v) < length f →
  ∃ a, all_chars_are_alphabetical is_alphabetic c = Ok a ∧ (a = true ↔ alphabetic_start v).
Proof.
  intros Hc Hcl Hv. assert (∀ s, s ∈ [start_state v] → N.to_nat s < length f) as Hin by (by intros s ->%list_elem_of_singleton).
  unfold all_chars_are_alphabetical, transition_chars. rewrite (raws_spec lg c Hc (is_closure_ok lg Hlg _ _ Hcl Hin)).
  cbn [mbind outcome_bind]. eexists. split; [done|]. rewrite forallb_forall. unfold alphabetic_start.
  assert (∀ x, x ∈ state_ids c ↔ ¬ is_split f x ∧ eps f (start_state v) x) as Hx.
  { intros x. destruct Hcl as [_ ->]. split; [intros [? (s & ->%list_elem_of_singleton & ?)]; done|intros [? ?]].
    split; [done|]. exists (start_state v). split; [apply list_elem_of_here|done]. }
  split.
  - intros Hall x cs id prec ch Hrch Hst Hch. specialize (Hall (cs, false)). rewrite forallb_forall in Hall.
    assert (is_alphabetic ch || (ch =? 95)%N = true) as Hb.
    { apply Hall; [|by apply list_elem_of_In]. apply list_elem_of_In, elem_of_map. exists (cs, false, prec, id). split; [done|].
      apply raws_elem. exists x. split; [|done]. apply Hx. split; [|done]. unfold is_split. rewrite Hst. by intros (? & ? & ?). }
    apply orb_true_iff in Hb as [?|?%N.eqb_eq]; [by left|by right].
  - intros Hall [cs sep] He. apply list_elem_of_In, elem_of_map in He as ([[[cs' sep'] prec] id] & Heq & Hin2). injection Heq as -> ->.
    apply raws_elem in Hin2 as (x & [Hns Hrch]%Hx & Hst). destruct sep'; [done|]. apply forallb_forall. intros ch Hch%list_elem_of_In.
    apply orb_true_iff. destruct (Hall x cs' id prec ch Hrch Hst Hch) as [->| ->]; [by left|by right].
Qed.
Lemma candidate_lt i : keyword_candidate i → i < n.
Proof. intros (v & Hv & _). by apply lookup_lt_Some in Hv. Qed.
Lemma shadows_ok cs i : i < n → (∀ x, x ∈ cs ↔ ∃ j, x = tok j ∧ keyword_candidate j) → ∃ b, shadows m cs (tok i) = Ok b ∧ (b = false ↔ unshadowed i).
Proof.
  intros Hi Hcs. assert (N.of_nat n < U32)%N as Hs by lia. unfold shadows.
  rewrite (any_m_Ok _ (λ o, bool_decide (o ≠ tok i) && same_string m (N.to_nat (index o)) i)).
  2: { intros x (j & -> & Hj)%Hcs. pose proof (candidate_lt j Hj). rewrite !(terminal_index n) by done. case_bool_decide; [|done]. by apply (same_string_ok n). }
  eexists. split; [done|]. rewrite <- not_true_iff_false, existsb_exists. unfold unshadowed. split.
  - intros Hno j Hj Hne. apply not_true_iff_false. intros Hss. destruct Hno. pose proof (candidate_lt j Hj). exists (tok j). split; [apply list_elem_of_In, Hcs; by exists j|].
    rewrite (terminal_index n), Hss by done. apply andb_true_iff. split; [|done]. apply bool_decide_eq_true. by intros ?%(terminal_inj n).
  - intros Hall (x & Hx & Hb). apply list_elem_of_In, Hcs in Hx as (j & -> & Hj). pose proof (candidate_lt j Hj). apply andb_true_iff in Hb as [Hne Hss].
    apply bool_decide_eq_true in Hne. rewrite (terminal_index n) in Hss by done. rewrite Hall in Hss; [done|done|]. by intros ->.
Qed.
Lemma capture_ok candidates i : i < n → TokenSet.wf candidates → (∀ x, x ∈ toks candidates ↔ ∃ j, x = tok j ∧ keyword_candidate j) →
  ∃ b, capture_conflicts lg m r word candidates (tok i) = Ok b ∧ (b = false ↔ capturable i).
Proof.
  intros Hi Hw Hcs. assert (N.of_nat n < U32)%N as Hs by lia. unfold capture_conflicts.
  assert (∀ o, o < n → TokenSet.mem candidates (tok o) = true ↔ keyword_candidate o) as Hmem.
  { intros o Ho. pose proof (terminal_token n o Hn Ho). transitivity (tok o ∈ toks candidates); [rewrite TokenSet.elem_of_toks by done; tauto|]. rewrite Hcs. split.
    - intros (j & Heq & Hj). by rewrite (terminal_inj n o j Hs Ho (candidate_lt j Hj) Heq).
    - intros ?. by exists o. }
  rewrite (any_m_Ok _ (λ o, negb (TokenSet.mem candidates (tok o)) && (negb (word_together r i o) && negb (same_status i w o)))).
  2: { intros o [_ Ho]%elem_of_seq. cbn in Ho. rewrite TokenSet.contains_spec by done. cbn [mbind outcome_bind].
    destruct (TokenSet.mem _ _); [done|]. cbn [negb andb].
    rewrite (word_together_ok n r Hr i o Hi Ho) by (by apply (terminal_index n)). cbn [mbind outcome_bind]. destruct (word_together _ _ _); [done|].
    rewrite (terminal_index n) by done. by rewrite same_status_ok. }
  eexists. split; [done|]. rewrite <- not_true_iff_false, existsb_seq. unfold capturable. split.
  - intros Hno o Ho Hc. destruct (word_together r i o) eqn:Ht; [by left|]. destruct (same_status i w o) eqn:Hst; [by right|]. destruct Hno. exists o.
    rewrite Ht, Hst. split; [done|]. destruct (TokenSet.mem candidates (tok o)) eqn:Hm'; [|done]. by apply Hmem in Hm'.
  - intros Hall (o & Ho & Hb). rewrite !andb_true_iff, !negb_true_iff in Hb. destruct Hb as (Hm' & Ht & Hst).
    destruct (Hall o Ho) as [?|?]; [|congruence|congruence]. intros ?%Hmem; [congruence|done].
Qed.
Context (fuel : nat) (Hfuel : 1 + 2 * length f ≤ fuel).
Lemma is_candidate_ok c i v : nfa c = f → lg_variables lg !! i = Some v →
  ∃ b c', is_candidate is_alphabetic fuel m word c i v = Ok (b, c') ∧ nfa c' = f ∧ (b = true ↔ keyword_candidate i).
Proof.
  intros Hc Hv. pose proof (lx_start lg Hlg) as Hst. rewrite Forall_forall in Hst. specialize (Hst v (list_elem_of_lookup_2 _ _ _ Hv)).
  apply lookup_lt_Some in Hv as Hi.
  destruct (LexTable.reset_spec lg Hlg fuel c [start_state v] Hc) as (c' & Hc' & Hn' & Hcl); [by intros s ->%list_elem_of_singleton|cbn; lia|].
  unfold is_candidate. rewrite Hc'. cbn [mbind outcome_bind]. destruct (alphabetical_ok c' v Hn' Hcl Hst) as (a & Ha & Hal).
  rewrite (and_m_Ok _ _ _ _ Ha (and_m_Ok _ _ _ _ (same_string_ok n m Hm i w Hi Hword) (not_m_Ok _ _ (different_string_ok n m Hm i w Hi Hword)))).
  cbn [mbind outcome_bind]. eexists _, c'. split; [done|]. split; [done|]. rewrite !andb_true_iff, negb_true_iff, Hal. unfold keyword_candidate.
  naive_solver.
Qed.
Lemma candidates_ok c : nfa c = f → ∃ l c', for_each (candidate_loop is_alphabetic fuel m word) ([], c) (imap (λ i v, (i, v)) (lg_variables lg)) = Ok (l, c') ∧
  ∀ x, x ∈ l ↔ ∃ i, x = tok i ∧ keyword_candidate i.
Proof.
  intros Hc.
  destruct (for_each_inv (candidate_loop is_alphabetic fuel m word)
    (λ d st, nfa st.2 = f ∧ ∀ x, x ∈ st.1 ↔ ∃ i v, (i, v) ∈ d ∧ x = tok i ∧ keyword_candidate i)
    (imap (λ i v, (i, v)) (lg_variables lg)) ([], c)) as ([l c'] & Hl & Hc' & Hmem); cbn [fst snd] in *.
  - split; [done|]. intros x. set_solver.
  - intros d [i v] rest [l c1] Hd [Hc1 Hl]. cbn [fst snd] in *.
    assert (lg_variables lg !! i = Some v) as Hv.
    { assert ((i, v) ∈ imap (λ i v, (i, v)) (lg_variables lg)) as (j & y & Heq & Hy)%elem_of_lookup_imap_1 by (rewrite Hd; set_solver). by injection Heq as -> ->. }
    destruct (is_candidate_ok c1 i v Hc1 Hv) as (b & c2 & Hb & Hc2 & Hcand). unfold candidate_loop. cbn [fst snd]. rewrite Hb. cbn [mbind outcome_bind].
    eexists. split; [done|]. cbn [fst snd]. split; [done|]. intros x. setoid_rewrite elem_of_app. setoid_rewrite list_elem_of_singleton. destruct b.
    + rewrite elem_of_app, Hl, list_elem_of_singleton. split.
      * intros [(j & y & ? & ? & ?)| ->]; [exists j, y; tauto|exists i, v; tauto].
      * intros (j & y & [?|[= -> ->]] & -> & ?); [left; by exists j, y|by right].
    + rewrite Hl. split; [intros (j & y & ? & ? & ?); exists j, y; tauto|]. intros (j & y & [?|[= -> ->]] & -> & ?); [by exists j, y|naive_solver].
  - exists l, c'. split; [done|]. intros x. rewrite Hmem. split; [intros (i & v & _ & ?); by exists i|]. intros (i & -> & Hi). pose proof Hi as (v & Hv & _).
    exists i, v. split; [|done]. apply elem_of_lookup_imap. by exists i, v.
Qed.
End word.
(** [identify_keywords] finds the tokens that the word token covers, that no other such
    token shadows and that can be captured without new conflicts. *)
Lemma identify_keywords_spec fuel word : N.to_nat (index word) < n → 1 + 2 * length f ≤ fuel →
  ∃ keywords, identify_keywords is_alphabetic fuel lg m r (Some word) = Ok keywords ∧ TokenSet.wf keywords ∧
    ∀ x, x ∈ toks keywords ↔ ∃ i, x = tok i ∧ keyword_candidate word i ∧ unshadowed word i ∧ capturable word i.
Proof.
  intros Hw Hfuel. assert (N.of_nat n < U32)%N as Hs by lia. unfold identify_keywords, Nfa.new.
  destruct (add_states_spec (E:=Empty_set) fuel (mkCursor [] f) []) as (c & -> & Hc & _); [apply Hlg|by intros ? ?%not_elem_of_nil|constructor|cbn; lia|].
  cbn [mbind outcome_bind]. destruct (candidates_ok word Hw fuel Hfuel c Hc) as (l & c' & -> & Hl). cbn [mbind outcome_bind].
  pose proof (candidate_lt word) as Hlt.
  assert (∀ i, i < n → TokenSet.token (tok i)) as Htok by (intros; by apply (terminal_token n)).
  destruct (collect_tokens (E:=Empty_set) l) as (candidates & cs & -> & Hwf & Hcs & _ & Hcand & Hcmem); [intros t (i & -> & Hi)%Hl; by apply Htok, Hlt|].
  cbn [mbind outcome_bind]. rewrite Hcs. cbn [mbind outcome_bind].
  set (bs := λ x, match shadows m cs x with Ok b => b | _ => true end).
  assert (∀ i, i < n → shadows m cs (tok i) = Ok (bs (tok i)) ∧ (bs (tok i) = false ↔ unshadowed word i)) as Hbs.
  { intros i Hi. destruct (shadows_ok word Hw cs i Hi) as (b & Hb & Hsh); [intros x; by rewrite Hcmem, Hl|]. unfold bs. by rewrite Hb. }
  rewrite (filter_m_Ok _ (λ x, negb (bs x))) by (intros x (i & -> & Hi)%Hcmem%Hl; destruct (Hbs i) as [-> _]; [by apply Hlt|done]).
  cbn [mbind outcome_bind].
  assert (∀ x, x ∈ List.filter (λ x, negb (bs x)) cs ↔ ∃ i, x = tok i ∧ keyword_candidate word i ∧ unshadowed word i) as Hkw1.
  { intros x. rewrite list_elem_of_In, filter_In, <- list_elem_of_In, Hcmem, Hl, negb_true_iff. split.
    - intros [(i & -> & Hi) Hb]. exists i. split; [done|]. split; [done|]. by apply Hbs; [apply Hlt|].
    - intros (i & -> & Hi & Hb). split; [by exists i|]. by apply Hbs; [apply Hlt|]. }
  destruct (collect_tokens (E:=Empty_set) (List.filter (λ x, negb (bs x)) cs)) as (kws & ks & -> & _ & Hks & _ & _ & Hkmem); [intros t (i & -> & Hi & _)%Hkw1; by apply Htok, Hlt|].
  cbn [mbind outcome_bind]. rewrite Hks. cbn [mbind outcome_bind].
  set (bc := λ x, match capture_conflicts lg m r word candidates x with Ok b => b | _ => true end).
  assert (∀ i, i < n → capture_conflicts lg m r word candidates (tok i) = Ok (bc (tok i)) ∧ (bc (tok i) = false ↔ capturable word i)) as Hbc.
  { intros i Hi. destruct (capture_ok word Hw candidates i Hi Hwf) as (b & Hb & Hsh); [intros x; by rewrite Hcand, Hl|]. unfold bc. by rewrite Hb. }
  rewrite (filter_m_Ok _ (λ x, negb (bc x))) by (intros x (i & -> & Hi & _)%Hkmem%Hkw1; destruct (Hbc i) as [-> _]; [by apply Hlt|done]).
  cbn [mbind outcome_bind].
  assert (∀ x, x ∈ List.filter (λ x, negb (bc x)) ks ↔ ∃ i, x = tok i ∧ keyword_candidate word i ∧ unshadowed word i ∧ capturable word i) as Hkw2.
  { intros x. rewrite list_elem_of_In, filter_In, <- list_elem_of_In, Hkmem, Hkw1, negb_true_iff. split.
    - intros [(i & -> & Hi & ?) Hb]. exists i. do 3 (split; [done|]). by apply Hbc; [apply Hlt|].
    - intros (i & -> & Hi & ? & Hb). split; [by exists i|]. by apply Hbc; [apply Hlt|]. }
  destruct (collect_tokens (E:=Empty_set) (List.filter (λ x, negb (bc x)) ks)) as (res & rs & -> & Hrw & _ & _ & Hres & _); [intros t (i & -> & Hi & _)%Hkw2; by apply Htok, Hlt|].
  exists res. split; [done|]. split; [done|]. intros x. by rewrite Hres, Hkw2.
Qed.
End keywords.

(** ** Properties *)
(** C14: [identify_keywords] succeeds, and a terminal is a keyword exactly if it begins with
    letters or underscores only, matches by the conflict map a string of the word token and
    none that is not one, no other such terminal matches the same string, and lexing the
    word token in its place adds no conflict with a terminal that is not such a candidate. *)
Theorem identify_keywords_correct (is_alphabetic : N → bool) (lg : LexicalGrammar) (m : TokenConflictMap) (r : CoincidentTokenIndex)
    (fuel : nat) (word : Symbol) :
  lexer_ok lg → conflicts_ok (length (lg_variables lg)) m → coincident_ok (length (lg_variables lg)) r →
  (N.of_nat (length (lg_variables lg)) + 1 < U32)%N → N.to_nat (index word) < length (lg_variables lg) → 1 + 2 * length (lg_nfa lg) ≤ fuel →
  ∃ keywords, identify_keywords is_alphabetic fuel lg m r (Some word) = Ok keywords ∧ TokenSet.wf keywords ∧
    ∀ x, x ∈ toks keywords ↔ ∃ i, x = terminal (N.of_nat i) ∧ keyword_candidate is_alphabetic lg m word i ∧
      unshadowed is_alphabetic lg m word i ∧ capturable is_alphabetic lg m r word i.
Proof. intros. by apply identify_keywords_spec. Qed.

(** ** Witness *)
Example keywords_run : match identify_keywords pass_letter 20 ex_grammar pass_conflicts pass_coincident (Some (terminal 1)) with
  | Ok ks => TokenSet.iter ks = Ok [terminal 0]%N
  | _ => False
  end.
Proof. vm_compute. reflexivity. Qed.
Lemma identify_keywords_witness :
  ∃ keywords, identify_keywords pass_letter 20 ex_grammar pass_conflicts pass_coincident (Some (terminal 1)) = Ok keywords ∧ TokenSet.wf keywords ∧
    ∀ x, x ∈ toks keywords ↔ ∃ i, x = terminal (N.of_nat i) ∧ keyword_candidate pass_letter ex_grammar pass_conflicts (terminal 1) i ∧
      unshadowed pass_letter ex_grammar pass_conflicts (terminal 1) i ∧ capturable pass_letter ex_grammar pass_conflicts pass_coincident (terminal 1) i.
Proof.
  apply (identify_keywords_correct pass_letter ex_grammar pass_conflicts pass_coincident 20 (terminal 1));
    [exact ex_lexer_ok|exact (proj1 pass_conflicts_ok)|exact pass_coincident_ok|reflexivity|vm_compute; lia|vm_compute; lia].
Defined.
