(* ===== verification/FollowingTokens.v ===== *)
(** * [build_tables.rs]: following tokens

    What [get_following_tokens] computes: the terminals that can come after a
    terminal, from the LAST and FIRST sets of adjacent steps. *)
From S2P Require Import Prelude BitVec Symbols TokenSet CharSet Nfa StrPool Grammars Lookaheads Items ItemSets FirstSets FollowSets Additions Tables Outcomes BuildTable BuildState BuildCorrect TokenConflicts LexTable Minimize LexBuild TablePasses PassQueries.
Import Passes Builder.

Lemma insert_all_terminals_spec s o : TokenSet.wf s → TokenSet.wf o →
  TokenSet.wf (TokenSet.insert_all_terminals s o).2 ∧
  ∀ t, t ∈ toks (TokenSet.insert_all_terminals s o).2 ↔ t ∈ toks s ∨ kind t = Terminal ∧ t ∈ toks o.
Proof.
  intros Hs Ho. unfold TokenSet.insert_all_terminals. destruct (BitVec.insert_all _ _) as [r b] eqn:Hi. cbn [snd].
  destruct (BitVec.insert_all_spec _ _ _ _ (TokenSet.wf_terminal _ Hs) (TokenSet.wf_terminal _ Ho) Hi) as (Hb & Hbit & _).
  assert (TokenSet.wf (mkTokenSet b (external_bits s) (eof s) (end_of_nt_extra s))) as Hw by (split; [done|apply Hs]).
  split; [done|]. intros [k i]. rewrite !TokenSet.elem_of_toks by done. unfold TokenSet.mem, TokenSet.token. destruct k; cbn; rewrite ?Hbit, ?orb_true_iff; naive_solver.
Qed.

Section following.
Context (g : SyntaxGrammar) (lg : LexicalGrammar).
Notation n := (length (lg_variables lg)).
Notation tok i := (terminal (N.of_nat i)).
Notation known := (symbol_known g n).
Context (Hg : symbols_ok g n) {I : Type} (b : ParseItemSetBuilder I) (Hb : entries_for g known (symbol_sets b)).
Context (Hreserved : reserved_word_sets g ≠ [] ∧ Forall TokenSet.wf (reserved_word_sets g) ∧
  ∀ id s, N.to_nat id < length (sg_productions g) → s ∈ steps_at g id → N.to_nat (step_reserved s) < length (reserved_word_sets g)).
Context (Hextras : ∀ x, x ∈ extra_symbols g → kind x = Terminal → N.to_nat (index x) < n).

(** The words reserved at the beginning of [x]: the set with the largest id. *)
Definition reserved_before (x t : Symbol) : Prop :=
  ∃ r set, (∀ k, (0 < k)%N → (k ≤ r)%N ↔ ∃ s, derives_step g x s ∧ (k ≤ step_reserved s)%N) ∧
    reserved_word_sets g !! N.to_nat r = Some set ∧ t ∈ toks set.
Definition comes_before (x t : Symbol) : Prop := kind t = Terminal ∧ (derives g head x t ∨ reserved_before x t).
(** Adjacent steps of a production. *)
Definition adjacent (x y : Symbol) : Prop :=
  ∃ id k s t, N.to_nat id < length (sg_productions g) ∧ steps_at g id !! k = Some s ∧ steps_at g id !! S k = Some t ∧
    step_symbol s = x ∧ step_symbol t = y.
Definition follows_terminal (i : nat) (t : Symbol) : Prop := ∃ x y, adjacent x y ∧ derives g last x (tok i) ∧ comes_before y t.
(** The list has [n] sets, the set at [i] that of the tokens that [R i] holds of. *)
Definition holding (R : nat → Symbol → Prop) (result : list TokenSet) : Prop :=
  length result = n ∧ ∀ i, i < n → ∃ s, result !! i = Some s ∧ TokenSet.wf s ∧ ∀ t, t ∈ toks s ↔ R i t.
Lemma holding_ext R R' result : (∀ i t, i < n → R i t ↔ R' i t) → holding R result → holding R' result.
Proof.
  intros HR [Hl H]. split; [done|]. intros i Hi. destruct (H i Hi) as (s & Hs & Hw & Ht). exists s. split; [done|]. split; [done|].
  intros t. by rewrite Ht, HR.
Qed.
Lemma holding_set {E} R result i s : holding R result → i < n → TokenSet.wf s →
  ∃ result', vec_set (E:=E) result i s = Ok result' ∧ holding (λ j t, j = i ∧ t ∈ toks s ∨ j ≠ i ∧ R j t) result'.
Proof.
  intros [Hl H] Hi Hs. rewrite vec_set_lt by lia. eexists. split; [done|]. split; [by rewrite length_insert|]. intros j Hj.
  destruct (decide (j = i)) as [->|Hne].
  - exists s. rewrite list_lookup_insert_eq by lia. naive_solver.
  - rewrite list_lookup_insert_ne by done. destruct (H j Hj) as (u & Hu & Hw & Ht). exists u. naive_solver.
Qed.
Lemma known_terminal x : kind x = Terminal → N.to_nat (index x) < n → x = tok (N.to_nat (index x)).
Proof.
  intros Hk Hi. pose proof (sy_terminals _ _ Hg). destruct x as [k v]. cbn in *. subst k. unfold terminal. rewrite wrap_u32_small by lia.
  by rewrite N2Nat.id.
Qed.
Lemma tok_inj i j : i < n → j < n → tok i = tok j → i = j.
Proof. pose proof (sy_terminals _ _ Hg). apply terminal_inj. lia. Qed.

Lemma follow_left_spec {E} R result right_tokens reserved x : holding R result → TokenSet.wf right_tokens →
  (∀ s, reserved = Some s → TokenSet.wf s) → (kind x = Terminal → N.to_nat (index x) < n) →
  ∃ result', follow_left (E:=E) right_tokens reserved result x = Ok result' ∧
    holding (λ i t, R i t ∨ x = tok i ∧ kind t = Terminal ∧ (t ∈ toks right_tokens ∨ ∃ s, reserved = Some s ∧ t ∈ toks s)) result'.
Proof.
  intros HR Hr Hres Hx. unfold follow_left, is_terminal. case_bool_decide as Hk.
  2: { exists result. split; [done|]. eapply holding_ext; [|exact HR]. intros i t _. split; [by left|]. intros [?|[-> _]]; [done|by destruct Hk]. }
  specialize (Hx Hk). set (i := N.to_nat (index x)) in *. pose proof HR as [_ Hall]. destruct (Hall i Hx) as (s & Hs & Hw & Ht).
  rewrite (vec_get_Some _ _ _ Hs). cbn [mbind outcome_bind].
  destruct (insert_all_terminals_spec s right_tokens Hw Hr) as [Hw1 Ht1].
  set (s1 := (TokenSet.insert_all_terminals s right_tokens).2) in *.
  set (s2 := match reserved with Some r => (TokenSet.insert_all_terminals s1 r).2 | None => s1 end).
  assert (TokenSet.wf s2 ∧ ∀ t, t ∈ toks s2 ↔ R i t ∨ kind t = Terminal ∧ (t ∈ toks right_tokens ∨ ∃ s, reserved = Some s ∧ t ∈ toks s)) as [Hw2 Ht2].
  { unfold s2. destruct reserved as [r|].
    - destruct (insert_all_terminals_spec s1 r Hw1 (Hres r eq_refl)) as [Hw2 Ht2]. split; [done|]. intros t. rewrite Ht2, Ht1, Ht. naive_solver.
    - split; [done|]. intros t. rewrite Ht1, Ht. naive_solver. }
  destruct (holding_set (E:=E) R result i s2 HR Hx Hw2) as (result' & Hset & Hres'). exists result'. split; [done|].
  eapply holding_ext; [|exact Hres']. intros j t Hj. cbn. rewrite Ht2. rewrite (known_terminal x Hk Hx). fold i. split.
  - intros [[-> [?|?]]|[_ ?]]; [by left|by right|by left].
  - intros [?|[Heq ?]]; [|left; split; [by apply tok_inj|by right]]. destruct (decide (j = i)) as [->|]; [left; split; [done|by left]|by right].
Qed.
Lemma builder_sets x : known x → ∃ first final reserved,
  Builder.first_set (E:=Empty_set) b x = Ok first ∧ Builder.last_set (E:=Empty_set) b x = Ok final ∧
  Builder.reserved_first_set (E:=Empty_set) g b x = Ok (Some reserved) ∧
  TokenSet.wf first ∧ TokenSet.wf final ∧ TokenSet.wf reserved ∧
  (∀ t, t ∈ toks first ↔ derives g head x t) ∧ (∀ t, t ∈ toks final ↔ derives g last x t) ∧ (∀ t, t ∈ toks reserved ↔ reserved_before x t).
Proof.
  intros Hx. destruct (proj1 (Hb x) Hx) as [(first & Hf & Hfw & Hft) (r & Hr & Hrn) (final & Hl & Hlw & Hlt)].
  destruct Hreserved as (Hne & Hwf & Hin). rewrite Forall_forall in Hwf.
  assert (∀ k, (0 < k)%N → (k ≤ r)%N ↔ ∃ s, derives_step g x s ∧ (k ≤ step_reserved s)%N) as Hrd.
  { intros k Hk. rewrite Hrn by done. apply reserving_derives. }
  assert (N.to_nat r < length (reserved_word_sets g)) as Hlen.
  { destruct (decide (r = 0)%N) as [->|Hr0]; [destruct (reserved_word_sets g); [done|cbn; lia]|].
    assert (∃ s, derives_step g x s ∧ (r ≤ step_reserved s)%N) as (s & Hs & Hle) by (apply Hrd; lia).
    assert (∃ id, N.to_nat id < length (sg_productions g) ∧ s ∈ steps_at g id) as (id & Hid & Hsin).
    { clear -Hs Hg. induction Hs as [v id s Hid Hh|]; [|done]. exists id. split; [by eapply var_ids_known|by apply head_in]. }
    specialize (Hin id s Hid Hsin). lia. }
  destruct (lookup_lt_is_Some_2 _ _ Hlen) as [set Hset].
  exists first, final, set. unfold Builder.first_set, Builder.last_set, Builder.reserved_first_set. rewrite Hf, Hl, Hr, (vec_get_Some _ _ _ Hset).
  do 5 (split; [done|]). split; [by eapply Hwf, list_elem_of_lookup_2|].
  split; [intros t; rewrite Hft; apply (bordering_derives _ _ Hg); [done|apply head_in]|].
  split; [intros t; rewrite Hlt; apply (bordering_derives _ _ Hg); [done|intros ? ?; apply last_Some_elem_of]|].
  intros t. split; [intros Ht; by exists r, set|]. intros (r' & set' & Hr' & Hset' & Ht).
  assert (r' = r) as ->; [|congruence]. apply N.le_antisymm.
  - destruct (decide (r' = 0)%N) as [->|]; [lia|]. apply Hrd; [lia|]. apply Hr'; lia.
  - destruct (decide (r = 0)%N) as [->|]; [lia|]. apply Hr'; [lia|]. apply Hrd; lia.
Qed.
Lemma derives_known pick x t : (∀ l s, pick l = Some s → s ∈ l) → known x → derives g pick x t → known t.
Proof.
  intros Hpick Hx Hd. induction Hd as [t|v id s t Hid Hs _ IH]; [done|]. apply IH.
  eapply step_known; [exact Hg|by eapply var_ids_known|by eapply Hpick].
Qed.
Lemma follow_steps_spec R result x y : known (step_symbol x) → known (step_symbol y) → holding R result →
  ∃ result', follow_steps g b result (x, y) = Ok result' ∧
    holding (λ i t, R i t ∨ derives g last (step_symbol x) (tok i) ∧ comes_before (step_symbol y) t) result'.
Proof.
  intros Hx Hy HR. unfold follow_steps. cbn [fst snd].
  destruct (builder_sets _ Hx) as (_ & left_ & _ & _ & -> & _ & _ & Hlw & _ & _ & Hlt & _).
  destruct (builder_sets _ Hy) as (right_ & _ & reserved & -> & _ & -> & Hrw & _ & Hsw & Hrt & _ & Hst).
  cbn [mbind outcome_bind]. destruct (TokenSet.toks_iter_spec left_ Hlw) as (ts & -> & _ & Hts & _). cbn [mbind outcome_bind].
  assert (∀ t, t ∈ ts ↔ derives g last (step_symbol x) t) as Hmem by (intros t; by rewrite Hts, <- TokenSet.elem_of_toks, Hlt).
  destruct (for_each_inv (E:=Empty_set) (follow_left right_ (Some reserved))
    (λ d, holding (λ i t, R i t ∨ tok i ∈ d ∧ comes_before (step_symbol y) t)) ts result) as (result' & Hres & Hhold).
  - eapply holding_ext; [|exact HR]. intros i t _. split; [by left|]. by intros [?|[?%not_elem_of_nil _]].
  - intros d u r st Hd Hst'. destruct (follow_left_spec (E:=Empty_set) _ st right_ (Some reserved) u Hst' Hrw) as (st' & Hst2 & Hh).
    + by intros s [= <-].
    + intros Hk. assert (known u) as Hku by (eapply derives_known; [intros ? ?; apply last_Some_elem_of|exact Hx|apply Hmem; rewrite Hd; set_solver]).
      unfold symbol_known in Hku. by rewrite Hk in Hku.
    + exists st'. split; [done|]. eapply holding_ext; [|exact Hh]. intros i t _. cbn. unfold comes_before.
      assert ((∃ s, Some reserved = Some s ∧ t ∈ toks s) ↔ t ∈ toks reserved) as -> by (split; [by intros (? & [= <-] & ?)|intros ?; by exists reserved]).
      rewrite elem_of_app, list_elem_of_singleton, Hrt, Hst. assert (u = tok i ↔ tok i = u) as -> by done. clear. tauto.
  - exists result'. split; [done|]. eapply holding_ext; [|exact Hhold]. intros i t _. cbn. by rewrite Hmem.
Qed.
Lemma zip_tail (l : list ProductionStep) x y : (x, y) ∈ zip l (tail l) ↔ ∃ k, l !! k = Some x ∧ l !! S k = Some y.
Proof.
  rewrite list_elem_of_lookup. setoid_rewrite lookup_zip_with_Some. setoid_rewrite lookup_tail. split.
  - intros (k & u & v & [= -> ->] & ? & ?). by exists k.
  - intros (k & ? & ?). by exists k, x, y.
Qed.
Lemma follow_production_spec R result id p : sg_productions g !! N.to_nat id = Some p → holding R result →
  ∃ result', follow_production g b result p = Ok result' ∧
    holding (λ i t, R i t ∨ ∃ k x y, steps_at g id !! k = Some x ∧ steps_at g id !! S k = Some y ∧
      derives g last (step_symbol x) (tok i) ∧ comes_before (step_symbol y) t) result'.
Proof.
  intros Hp HR. apply lookup_lt_Some in Hp as Hid. unfold follow_production.
  assert (Grammars.slice (E:=Empty_set) (sg_steps g) (step_range p).1 (step_range p).2 = Ok (steps_at g id)) as ->.
  { pose proof (sy_prods _ _ Hg id Hid Empty_set) as Hprod. unfold production in Hprod. rewrite (vec_get_Some _ _ _ Hp) in Hprod.
    cbn [mbind outcome_bind] in Hprod. destruct (step_range p) as [u v]. apply bind_Ok_inv in Hprod as (steps & Hs & Heq).
    cbn [fst snd]. rewrite Hs. injection Heq as Heq. unfold steps_at. by rewrite <- Heq. }
  cbn [mbind outcome_bind].
  destruct (for_each_inv (E:=Empty_set) (follow_steps g b) (λ d, holding (λ i t, R i t ∨ ∃ x y, (x, y) ∈ d ∧
      derives g last (step_symbol x) (tok i) ∧ comes_before (step_symbol y) t)) (zip (steps_at g id) (tail (steps_at g id))) result) as (result' & Hres & Hhold).
  - eapply holding_ext; [|exact HR]. intros i t _. split; [by left|]. intros [?|(x & y & ?%not_elem_of_nil & _)]; done.
  - intros d [x y] r st Hd Hst. assert ((x, y) ∈ zip (steps_at g id) (tail (steps_at g id))) as (k & Hx & Hy)%zip_tail by (rewrite Hd; set_solver).
    assert (known (step_symbol x)) as Hkx by (by eapply step_known, list_elem_of_lookup_2).
    assert (known (step_symbol y)) as Hky by (by eapply step_known, list_elem_of_lookup_2).
    destruct (follow_steps_spec _ st x y Hkx Hky Hst) as (st' & Hst' & Hh).
    exists st'. split; [done|]. eapply holding_ext; [|exact Hh]. intros i t _. cbn. setoid_rewrite elem_of_app. setoid_rewrite list_elem_of_singleton. split.
    + intros [[?|(u & v & ? & ?)]|?]; [by left|right; exists u, v; tauto|right; exists x, y; tauto].
    + intros [?|(u & v & [?|[= -> ->]] & ?)]; [by left; left|left; right; by exists u, v|by right].
  - exists result'. split; [done|]. eapply holding_ext; [|exact Hhold]. intros i t _. cbn. setoid_rewrite zip_tail. naive_solver.
Qed.
Lemma follow_extra_spec R all_tokens result done_ x : TokenSet.wf all_tokens → (∀ t, t ∈ toks all_tokens ↔ ∃ j, j < n ∧ t = tok j) →
  (kind x = Terminal → N.to_nat (index x) < n) → (∀ y, y ∈ done_ → kind y = Terminal → N.to_nat (index y) < n) →
  let after d i t := if decide (tok i ∈ d) then ∃ j, j < n ∧ t = tok j else R i t ∨ kind t = Terminal ∧ t ∈ d in
  holding (after done_) result → ∃ result', follow_extra (E:=Empty_set) all_tokens result x = Ok result' ∧ holding (after (done_ ++ [x])) result'.
Proof.
  intros Hw Hall Hx Hdone after HR. unfold follow_extra, is_terminal. case_bool_decide as Hk.
  2: { exists result. split; [done|]. eapply holding_ext; [|exact HR]. intros i t _. unfold after.
    assert (tok i ∈ done_ ++ [x] ↔ tok i ∈ done_) as Heq by (rewrite elem_of_app, list_elem_of_singleton; naive_solver).
    destruct (decide (tok i ∈ done_)), (decide (tok i ∈ done_ ++ [x])); try tauto. rewrite elem_of_app, list_elem_of_singleton. naive_solver. }
  specialize (Hx Hk). set (k := N.to_nat (index x)) in *. assert (x = tok k) as Hxk by (by apply known_terminal).
  pose proof (terminal_token n k (sy_terminals _ _ Hg) Hx) as Htok. rewrite <- Hxk in Htok.
  destruct HR as [Hlen Hsets].
  destruct (mapM_Forall2 (E:=Empty_set) (λ s, TokenSet.insert s x) (λ s s', TokenSet.wf s → TokenSet.wf s' ∧ ∀ t, t ∈ toks s' ↔ t = x ∨ t ∈ toks s) result) as (result1 & -> & Hf).
  { intros s Hs. apply list_elem_of_lookup in Hs as [i Hi]. destruct (Hsets i) as (s' & Hs' & Hws & _); [rewrite <- Hlen; by eapply lookup_lt_Some|].
    assert (s' = s) as -> by congruence. destruct (TokenSet.insert_spec (E:=Empty_set) s x Hws Htok) as (s1 & -> & ? & Ht). exists s1. split; [done|]. intros _.
    split; [done|]. intros t. rewrite Ht. set_solver. }
  cbn [mbind outcome_bind].
  assert (holding (λ i t, t = x ∨ after done_ i t) result1) as H1.
  { split; [by rewrite <- (Forall2_length _ _ _ Hf)|]. intros i Hi. destruct (Hsets i Hi) as (s & Hs & Hws & Ht).
    destruct (Forall2_lookup_l _ _ _ _ _ Hf Hs) as (s1 & Hs1 & Hp). destruct (Hp Hws) as [? Ht1]. exists s1. split; [done|]. split; [done|]. intros t. by rewrite Ht1, Ht. }
  destruct (holding_set (E:=Empty_set) _ _ k all_tokens H1 Hx Hw) as (result' & Hset & Hh). exists result'. split; [done|].
  eapply holding_ext; [|exact Hh]. intros i t Hi. cbn. unfold after. rewrite Hall.
  assert (tok i ∈ done_ ++ [x] ↔ tok i ∈ done_ ∨ i = k) as Heq.
  { rewrite elem_of_app, list_elem_of_singleton, Hxk. split; [intros [?|?]; [by left|right; by apply tok_inj]|]. intros [?| ->]; [by left|by right]. }
  destruct (decide (tok i ∈ done_ ++ [x])) as [Hin|Hin]; destruct (decide (tok i ∈ done_)) as [Hd|Hd]; rewrite Heq in Hin; try tauto.
  - split; [|intros ?; destruct (decide (i = k)); [by left|right; split; [done|by right]]]. intros [[_ ?]|[_ [->|?]]]; [done| |done]. by exists k.
  - rewrite elem_of_app, list_elem_of_singleton. naive_solver.
Qed.
(** [get_following_tokens] gives every terminal the terminals that can come after it: any of
    them after a terminal that is an extra, and after another one those that begin the
    symbol after one that it ends, the words reserved there, and the extras. *)
Lemma get_following_tokens_spec : ∃ result, get_following_tokens g lg b = Ok result ∧
  holding (λ i t, if decide (tok i ∈ extra_symbols g) then ∃ j, j < n ∧ t = tok j
    else follows_terminal i t ∨ kind t = Terminal ∧ t ∈ extra_symbols g) result.
Proof.
  unfold get_following_tokens. rewrite length_replicate.
  destruct (collect_tokens (E:=Empty_set) (map (λ i, tok i) (seq 0 n))) as (all_tokens & _ & -> & Hw & _ & _ & Hall & _).
  { intros t (i & -> & [_ Hi]%elem_of_seq)%elem_of_map. apply (terminal_token n); [apply Hg|done]. }
  cbn [mbind outcome_bind].
  assert (∀ t, t ∈ toks all_tokens ↔ ∃ j, j < n ∧ t = tok j) as Hall'.
  { intros t. rewrite Hall, elem_of_map. setoid_rewrite elem_of_seq. split.
    - intros (j & ? & ?). exists j. split; [lia|done].
    - intros (j & ? & ?). exists j. split; [done|lia]. }
  destruct (for_each_inv (follow_production g b) (λ d, holding (λ i t, ∃ id k x y, N.to_nat id < length d ∧ steps_at g id !! k = Some x ∧
      steps_at g id !! S k = Some y ∧ derives g last (step_symbol x) (tok i) ∧ comes_before (step_symbol y) t)) (sg_productions g)
      (replicate n (TokenSet.with_capacity (N.of_nat n) (N.of_nat (length (external_tokens g)))))) as (result & -> & Hres).
  - split; [apply length_replicate|]. intros i Hi. eexists. split; [by apply lookup_replicate_2|]. split; [apply TokenSet.wf_with_capacity|].
    intros t. rewrite TokenSet.toks_with_capacity. split; [set_solver|]. intros (id & _ & _ & _ & Hid & _). cbn in Hid. lia.
  - intros d p r st Hd Hst.
    assert (sg_productions g !! N.to_nat (N.of_nat (length d)) = Some p) as Hp by (rewrite Nat2N.id, Hd; by apply list_lookup_middle).
    destruct (follow_production_spec _ st _ p Hp Hst) as (st' & Hst' & Hh).
    exists st'. split; [done|]. eapply holding_ext; [|exact Hh]. intros i t _. cbn. rewrite length_app. cbn. split.
    + intros [(id & k & x & y & ? & ?)|(k & x & y & ?)]; [exists id, k, x, y; split; [lia|done]|].
      exists (N.of_nat (length d)), k, x, y. split; [lia|done].
    + intros (id & k & x & y & Hid & ?). destruct (decide (N.to_nat id = length d)) as [Heq|]; [right|left; exists id, k, x, y; split; [lia|done]].
      rewrite <- Heq, N2Nat.id. by exists k, x, y.
  - cbn [mbind outcome_bind].
    destruct (for_each_inv (E:=Empty_set) (follow_extra all_tokens) (λ d, holding (λ i t, if decide (tok i ∈ d) then ∃ j, j < n ∧ t = tok j
      else follows_terminal i t ∨ kind t = Terminal ∧ t ∈ d)) (extra_symbols g) result) as (result' & Hres' & Hh).
    + eapply holding_ext; [|exact Hres]. intros i t _. cbn. rewrite decide_False by apply not_elem_of_nil. unfold follows_terminal, adjacent. split.
      * intros (id & k & x & y & Hid & Hx & Hy & Hd & Hc). left. exists (step_symbol x), (step_symbol y). split; [|done]. by exists id, k, x, y.
      * intros [(u & v & (id & k & x & y & Hid & Hx & Hy & <- & <-) & Hd & Hc)|[_ ?%not_elem_of_nil]]; [|done]. by exists id, k, x, y.
    + intros d x r st Hd Hst. eapply follow_extra_spec; [done|done| | |exact Hst].
      * apply Hextras. rewrite Hd. set_solver.
      * intros y Hy. apply Hextras. rewrite Hd. set_solver.
    + by exists result'.
Qed.
End following.

(** ** Properties *)
(** C13: with the FIRST and LAST sets of the grammar, [get_following_tokens] gives every
    terminal a set: after an extra that is a terminal, all the terminals; after another
    terminal, exactly the extras that are terminals and the terminals that begin a symbol, or
    are reserved at its beginning, where the symbol before it in some production can end
    with the terminal. *)
Theorem get_following_tokens_correct (g : SyntaxGrammar) (lg : LexicalGrammar) (I : Type) (b : ParseItemSetBuilder I) :
  symbols_ok g (length (lg_variables lg)) → entries_for g (symbol_known g (length (lg_variables lg))) (symbol_sets b) →
  reserved_word_sets g ≠ [] ∧ Forall TokenSet.wf (reserved_word_sets g) ∧
    (∀ id s, N.to_nat id < length (sg_productions g) → s ∈ steps_at g id → N.to_nat (step_reserved s) < length (reserved_word_sets g)) →
  (∀ x, x ∈ extra_symbols g → kind x = Terminal → N.to_nat (index x) < length (lg_variables lg)) →
  ∃ result, get_following_tokens g lg b = Ok result ∧
    holding lg (λ i t, if decide (terminal (N.of_nat i) ∈ extra_symbols g) then ∃ j, j < length (lg_variables lg) ∧ t = terminal (N.of_nat j)
      else follows_terminal g i t ∨ kind t = Terminal ∧ t ∈ extra_symbols g) result.
Proof. intros. by apply get_following_tokens_spec. Qed.

(** ** Witness *)
Example following_run : match table_example_builder with
  | Ok b => match get_following_tokens table_example table_example_lexical b with
            | Ok l => map TokenSet.iter l = [Ok [terminal 1; terminal 2]; Ok [terminal 0; terminal 1; terminal 2];
                Ok [terminal 0; terminal 1; terminal 2; terminal 3]; Ok [terminal 2; terminal 3]]%N
            | _ => False
            end
  | _ => False
  end.
Proof. vm_compute. reflexivity. Qed.
Lemma get_following_tokens_witness : ∃ b result, table_example_builder = Ok b ∧
  get_following_tokens table_example table_example_lexical b = Ok result ∧ length result = 4.
Proof.
  destruct (item_set_builder_spec item_example_pool table_example 4 ∅ table_example_keys 2 table_example_inputs (I:=list TokenSet) (E:=Empty_set)
    6 (follow_fuel table_example 4)) as (b & Hb & [Hok]); [apply le_n|apply le_n|].
  destruct (get_following_tokens_correct table_example table_example_lexical _ b table_example_symbols Hok) as (result & Hr & Hl & _).
  - split; [done|]. split; [repeat constructor; apply TokenSet.wf_new|].
    intros id s Hid Hs. assert (Forall (λ s, N.to_nat (step_reserved s) < 1) (steps_at table_example id)) as Hall.
    { apply table_example_prods in Hid. listed Hid; vm_compute; repeat constructor. }
    rewrite Forall_forall in Hall. exact (Hall s Hs).
  - intros x Hx _. repeat (apply elem_of_cons in Hx as [->|Hx]; [vm_compute; lia|]). destruct (not_elem_of_nil _ Hx).
  - exists b, result. split; [exact Hb|]. split; [exact Hr|exact Hl].
Defined.
