(* ===== verification/BuildTables.v ===== *)
(** * [build_tables.rs]: all the tables

    [build_tables] runs the construction of the parse table and the passes one after the
    other. *)
From S2P Require Import Prelude BitVec Symbols TokenSet Ordering CharSet Nfa StrPool Grammars Lookaheads Items ItemSets FirstSets FollowSets Additions Tables Outcomes BuildTable BuildCorrect TokenConflicts LexTable Minimize LexBuild TablePasses PassQueries.
Import Passes PT Builder.

Record Tables := mkTables {
  final_parse_table : ParseTable N;
  final_main_lex_table : LexTable;
  final_keyword_lex_table : LexTable;
  final_large_character_sets : list (option Symbol * CharacterSet);
}.
(** Bounds of the loops: FIRST sets and additions, the queue of states, closures of NFA
    states, pairs of tokens, refinement and unit reductions of the parse table, lex states
    and their minimization. *)
Record Fuel := mkFuel {
  edge_fuel : nat; addition_fuel : nat; queue_fuel : nat; nfa_fuel : nat; status_fuel : nat;
  split_fuel : nat; group_fuel : nat; unit_fuel : nat;
  lex_fuel : nat; lex_state_fuel : nat; lex_split_fuel : nat; lex_group_fuel : nat;
}.
(** The infallible passes among the fallible ones. *)
Definition lift {E A} (m : outcome Empty_set A) : outcome E A := map_err (Empty_set_rect (λ _, E)) m.

Section build.
Context (is_alphabetic : N → bool) (hash_state_set : list N → N) `{UnstableSort} {I : Type} `{IndexSet I} {MI : MapIter}.
Context {S : Type} (fuel : Fuel) (g : SyntaxGrammar) (lg : LexicalGrammar) (simple_aliases : AliasMap) {F : Type} (variable_info : list (VariableInfo F))
  (inlines : InlinedProductionMap) (str_pool : StrPool S) (merge_states : bool).
(** From the grammar to a table with its error state and its symbols. *)
Definition unminimized_tables (diagnostics : list Diagnostic) :
    result (ParseTable N * TokenConflictMap * CoincidentTokenIndex * TokenSet * list Diagnostic) :=
  key_map ← Item.new_key_map str_pool g;
  builder ← builder_new (I:=I) g (length (lg_variables lg)) inlines key_map (edge_fuel fuel) (addition_fuel fuel);
  following ← lift (get_following_tokens g lg builder);
  '(t, _, diagnostics) ← build_parse_table str_pool g lg variable_info inlines key_map (queue_fuel fuel) builder diagnostics;
  conflicts ← lift (new_map hash_state_set (nfa_fuel fuel) (status_fuel fuel) lg following);
  coincident ← lift (coincident_new t lg (word_token g));
  keywords ← lift (identify_keywords is_alphabetic (nfa_fuel fuel) lg conflicts coincident (word_token g));
  t ← lift (populate_error_state g lg coincident conflicts keywords t);
  t ← populate_used_symbols g lg t;
  Ok (intern_table t, conflicts, coincident, keywords, diagnostics).
Definition build_tables (diagnostics : list Diagnostic) : result (Tables * list Diagnostic) :=
  '(t, conflicts, coincident, keywords, diagnostics) ← unminimized_tables diagnostics;
  t ← lift (minimize_parse_table g lg simple_aliases conflicts keywords merge_states (split_fuel fuel) (group_fuel fuel) (unit_fuel fuel) t);
  '(lex_tables, states) ← lift (build_lex_table (lex_fuel fuel) (lex_state_fuel fuel) (lex_split_fuel fuel) (lex_group_fuel fuel)
    (pt_states t) (word_token g) lg keywords coincident conflicts);
  t ← populate_external_lex_states g (with_states t states);
  t ← lift (mark_fragile_tokens conflicts t);
  '(states, pool) ← canonicalize (action_lists t) (pt_states t);
  let t := with_pool (with_states t states) pool in
  if 65535 <? length (pt_states t) then Err (StateCount (length (pt_states t)))
  else Ok (mkTables t (main_lex_table lex_tables) (keyword_lex_table lex_tables) (large_character_sets lex_tables), diagnostics).
End build.

(** ** An example *)
(** A statement is the keyword [a] and a word, or a word. *)
Definition tables_example : SyntaxGrammar :=
  let step x := pack x PNone None None None 0 in
  mkSyntaxGrammar [mkSyntaxVariable 1 Named; mkSyntaxVariable 2 Named] [] [] [] [] [] (Some (terminal 1)) [] [TokenSet.new]
    [step (non_terminal 1); step (terminal 0); step (terminal 1); step (terminal 1)]
    [mkProduction 0 1 0 false; mkProduction 1 2 0 false; mkProduction 3 1 0 false]
    [(0, 1); (1, 3)]%N.
Definition tables_fuel : Fuel := mkFuel 40 40 40 40 40 40 40 40 40 64 65 64.
Example build_tables_run :
  match build_tables pass_letter pass_hash (I:=list TokenSet) tables_fuel tables_example ex_grammar ∅ [no_info; no_info] ∅ item_example_pool true [] with
  | Ok (t, _) => (map (λ s, ((terminal_entries s).*1, nonterminal_entries s)) (pt_states (final_parse_table t)), pt_symbols (final_parse_table t),
      actions (action_lists (final_parse_table t))) =
      ([([terminal 0; terminal 1; end_], []); ([terminal 0; terminal 1], [(non_terminal 0, Goto 4); (non_terminal 1, Goto 5)]);
        ([terminal 1], []); ([end_], []); ([end_], []); ([end_], []); ([end_], [])],
       [end_; terminal 1; terminal 0; non_terminal 0; non_terminal 1],
       [Recover; Shift 2 false; Shift 3 false; Shift 6 false; Reduce (non_terminal 1) 1 0 0; PAccept; Reduce (non_terminal 0) 1 0 0;
        Reduce (non_terminal 1) 2 0 0])%N
  | _ => False
  end.
Proof. vm_compute. reflexivity. Qed.
