(* ===== verification/Validate.v ===== *)
(** * [crates/generate/src/prepare_grammar.rs]: the validation of an input
    grammar

    [validate_indirect_recursion] searches the unit derivations of the grammar
    for a cycle, depth first; [validate_precedences] checks the declared
    orderings against each other and the precedences that rules name against
    the declared ones.  Both walk rules with an explicit stack, a list here
    whose head is the top.  A [BTreeSet] of ids that is iterated is a strictly
    increasing list, one that is only asked for membership a [gset]. *)
From S2P Require Import Prelude Symbols Ordering StrPool Rules RuleTrees Grammars.

(** [indexmap::IndexMap<StrId, _>], a parameter with what its documentation
    says: [insert] replaces the value of a key, [get] finds it, [keys] lists
    the keys present. *)
Class IndexMap (M A : Type) := {
  im_empty : M;
  im_insert : StrId → A → M → M;
  im_get : StrId → M → option A;
  im_keys : M → list StrId;
  im_get_empty k : im_get k im_empty = None;
  im_get_insert k k' v m : im_get k (im_insert k' v m) = if decide (k = k') then Some v else im_get k m;
  elem_of_im_keys k m : k ∈ im_keys m ↔ is_Some (im_get k m);
}.

(** The laws can be met: an association list in insertion order. *)
Fixpoint assoc_insert {A} (k : StrId) (v : A) (m : list (StrId * A)) : list (StrId * A) :=
  match m with
  | [] => [(k, v)]
  | (k', v') :: m => if decide (k' = k) then (k, v) :: m else (k', v') :: assoc_insert k v m
  end.
Fixpoint assoc_get {A} (k : StrId) (m : list (StrId * A)) : option A :=
  match m with
  | [] => None
  | (k', v) :: m => if decide (k' = k) then Some v else assoc_get k m
  end.
#[global, program] Instance assoc_index_map A : IndexMap (list (StrId * A)) A := {|
  im_empty := [];
  im_insert := assoc_insert;
  im_get := assoc_get;
  im_keys m := m.*1;
|}.
Next Obligation. done. Qed.
Next Obligation.
  intros A k k' v m. induction m as [|[k0 v0] m IH]; cbn; [repeat case_decide; congruence|].
  repeat case_decide; cbn; repeat case_decide; congruence.
Qed.
Next Obligation.
  intros A k m. induction m as [|[k0 v0] m IH]; cbn; [rewrite elem_of_nil, is_Some_alt; done|].
  rewrite elem_of_cons, IH. case_decide; naive_solver.
Qed.

(** ** Errors *)
Definition IndirectRecursionError := list bytes.
Inductive ValidatePrecedenceError :=
  | Undeclared (precedence rule : bytes)
  | Ordering (precedence_1 precedence_2 : bytes).

(** ["Grammar contains an indirectly recursive rule: "] and [" -> "]. *)
Definition recursion_prefix : bytes :=
  [71; 114; 97; 109; 109; 97; 114; 32; 99; 111; 110; 116; 97; 105; 110; 115; 32; 97; 110; 32; 105; 110; 100;
   105; 114; 101; 99; 116; 108; 121; 32; 114; 101; 99; 117; 114; 115; 105; 118; 101; 32; 114; 117; 108; 101;
   58; 32]%N.
Definition arrow : bytes := [32; 45; 62; 32]%N.
Definition indirect_recursion_fmt (e : IndirectRecursionError) : bytes :=
  recursion_prefix ++ concat (imap (λ i symbol, (if 0 <? i then arrow else []) ++ symbol) e).

Section validate.
Context {H M : Type} `{IndexMap M (list StrId)}.
Implicit Types (m : M) (g : InputGrammar H) (p : RulePool H).

(** ** Indirect recursion *)
(** The [while let] of [validate_indirect_recursion]. *)
Fixpoint unit_walk {E} (n : nat) p (name : StrId) (stack : list RuleId) (productions : list StrId) :
    outcome E (list StrId) :=
  match stack with
  | [] => Ok productions
  | id :: stack =>
      match n with
      | O => OutOfFuel
      | S n =>
          nd ← node p id;
          match nd with
          | NamedSymbol sid =>
              unit_walk n p name stack
                (if negb (sid =? name)%N then insert_sorted productions sid else productions)
          | Choice r => cs ← child_slice p r; unit_walk n p name (rev cs ++ stack) productions
          | Metadata _ rule => unit_walk n p name (rule :: stack) productions
          | _ => unit_walk n p name stack productions
          end
      end
  end.

Fixpoint epsilon_transitions_loop {E} (n : nat) p (vs : list Variable_) m :
    outcome E M :=
  match vs with
  | [] => Ok m
  | v :: vs =>
      productions ← unit_walk n p (var_name v) [var_root v] [];
      epsilon_transitions_loop n p vs (im_insert (var_name v) productions m)
  end.

(** [path.iter().position(|s| *s == current)]. *)
Definition position_of (x : StrId) (path : list StrId) : option nat := fst <$> list_find (x =.) path.

(** The state of the search: [visited] and [path]. *)
Notation search := (gset StrId * list StrId)%type (only parsing).

(** [for next in next_symbols]. *)
Fixpoint cycle_each {E} (f : StrId → search → outcome E (option (nat * nat) * search))
    (nexts : list StrId) (s : search) : outcome E (option (nat * nat) * search) :=
  match nexts with
  | [] => Ok (None, s)
  | next :: nexts =>
      '(r, s) ← f next s;
      match r with Some c => Ok (Some c, s) | None => cycle_each f nexts s end
  end.

Fixpoint get_cycle {E} (n : nat) (transitions : M) (current : StrId) (s : search) :
    outcome E (option (nat * nat) * search) :=
  match n with
  | O => OutOfFuel
  | S n =>
      let '(visited, path) := s in
      match position_of current path with
      | Some first_idx =>
          let path := path ++ [current] in
          Ok (Some (first_idx, length path - 1), (visited, path))
      | None =>
          if bool_decide (current ∈ visited) then Ok (None, (visited, path))
          else
            let s := ({[current]} ∪ visited, path ++ [current]) in
            '(r, (visited, path)) ←
              (match im_get current transitions with
               | Some next_symbols => cycle_each (get_cycle n transitions) next_symbols s
               | None => Ok (None, s)
               end);
            Ok (r, (visited, match r with Some _ => path | None => removelast path end))
      end
  end.

(** [.map(|&s| grammar.pool.resolve(s).to_string()).collect()]. *)
Definition resolve_all {E} p (l : list StrId) : outcome E (list bytes) :=
  foldr (λ s acc, b ← resolve (str_pool p) s; bs ← acc; Ok (b :: bs)) (Ok []) l.

Fixpoint recursion_loop (n : nat) p m (keys : list StrId) :
    outcome IndirectRecursionError unit :=
  match keys with
  | [] => Ok tt
  | start_symbol :: keys =>
      '(r, (_, path)) ← get_cycle n m start_symbol (∅, []);
      match r with
      | Some (start_idx, end_idx) =>
          (* [path[start_idx..=end_idx]] *)
          cycle ← slice path start_idx (S end_idx);
          cycle_symbols ← resolve_all p cycle;
          Err cycle_symbols
      | None => recursion_loop n p m keys
      end
  end.

Definition validate_indirect_recursion (n : nat) g : outcome IndirectRecursionError unit :=
  m ← epsilon_transitions_loop n (pool g) (variables g) im_empty;
  recursion_loop n (pool g) m (im_keys m).

(** ** Precedences *)

(** [format!("'{}'", ..)] and [format!("$.{}", ..)]. *)
Definition display {E} g (e : PrecedenceEntry) : outcome E bytes :=
  match e with
  | PEName sid => s ← resolve (str_pool (pool g)) sid; Ok ([39%N] ++ s ++ [39%N])
  | PESymbol sid => s ← resolve (str_pool (pool g)) sid; Ok ([36; 46]%N ++ s)
  end.

Definition pe_cmp {E} g (a b : PrecedenceEntry) : outcome E comparison :=
  match a, b with
  | PEName a, PEName b | PESymbol a, PESymbol b =>
      sa ← resolve (str_pool (pool g)) a; sb ← resolve (str_pool (pool g)) b; Ok (bytes_cmp sa sb)
  | PEName _, PESymbol _ => Ok Lt
  | PESymbol _, PEName _ => Ok Gt
  end.

Notation pairs_map := (gmap (PrecedenceEntry * PrecedenceEntry) comparison) (only parsing).

(** The inner loop.  [mem::swap] exchanges the loop variable [entry1] of the
    outer loop with [entry2], and the exchange outlives the iteration. *)
Fixpoint orderings_inner g (entry1 : PrecedenceEntry) (rest : list PrecedenceEntry) (pairs : pairs_map) :
    outcome ValidatePrecedenceError pairs_map :=
  match rest with
  | [] => Ok pairs
  | entry2 :: rest =>
      if bool_decide (entry1 = entry2) then orderings_inner g entry1 rest pairs
      else
        c ← pe_cmp g entry1 entry2;
        let '(ordering, entry1, entry2) :=
          match c with Gt => (Lt, entry2, entry1) | _ => (Gt, entry1, entry2) end in
        match pairs !! (entry1, entry2) with
        | None => orderings_inner g entry1 rest (<[(entry1, entry2) := ordering]> pairs)
        | Some o =>
            if negb (bool_decide (o = ordering))
            then d1 ← display g entry1; d2 ← display g entry2; Err (Ordering d1 d2)
            else orderings_inner g entry1 rest pairs
        end
  end.
Fixpoint orderings_list g (l : list PrecedenceEntry) (pairs : pairs_map) :
    outcome ValidatePrecedenceError pairs_map :=
  match l with
  | [] => Ok pairs
  | entry1 :: rest => pairs ← orderings_inner g entry1 rest pairs; orderings_list g rest pairs
  end.
Fixpoint orderings_loop g (ls : list (list PrecedenceEntry)) (pairs : pairs_map) :
    outcome ValidatePrecedenceError pairs_map :=
  match ls with
  | [] => Ok pairs
  | l :: ls => pairs ← orderings_list g l pairs; orderings_loop g ls pairs
  end.

Definition name_entry (e : PrecedenceEntry) : option StrId :=
  match e with PEName sid => Some sid | PESymbol _ => None end.
Definition precedence_names g : gset StrId :=
  list_to_set (omap name_entry (concat (precedence_orderings g))).

Fixpoint precedence_walk (n : nat) g (names : gset StrId) (v : Variable_) (stack : list RuleId) :
    outcome ValidatePrecedenceError unit :=
  match stack with
  | [] => Ok tt
  | id :: stack =>
      match n with
      | O => OutOfFuel
      | S n =>
          nd ← node (pool g) id;
          match nd with
          | Repeat inner => precedence_walk n g names v (inner :: stack)
          | Seq r | Choice r =>
              cs ← child_slice (pool g) r; precedence_walk n g names v (rev cs ++ stack)
          | Metadata pid rule =>
              m ← get_params (pool g) pid;
              match precedence m with
              | PName sid =>
                  if negb (bool_decide (sid ∈ names)) then
                    ps ← resolve (str_pool (pool g)) sid;
                    rs ← resolve (str_pool (pool g)) (var_name v);
                    Err (Undeclared ps rs)
                  else precedence_walk n g names v (rule :: stack)
              | _ => precedence_walk n g names v (rule :: stack)
              end
          | _ => precedence_walk n g names v stack
          end
      end
  end.
Fixpoint precedence_loop (n : nat) g (names : gset StrId) (vs : list Variable_) :
    outcome ValidatePrecedenceError unit :=
  match vs with
  | [] => Ok tt
  | v :: vs => _ ← precedence_walk n g names v [var_root v]; precedence_loop n g names vs
  end.

Definition validate_precedences (n : nat) g : outcome ValidatePrecedenceError unit :=
  _ ← orderings_loop g (precedence_orderings g) ∅;
  precedence_loop n g (precedence_names g) (variables g).
End validate.

(** ** The depth-first search finds a cycle exactly when there is one *)
Section search.
Context {M : Type} `{IndexMap M (list StrId)} (t : M).

Definition edge (x y : StrId) : Prop := ∃ s, im_get x t = Some s ∧ y ∈ s.
Definition chain (R : StrId → StrId → Prop) (l : list StrId) : Prop :=
  ∀ i x y, l !! i = Some x → l !! S i = Some y → R x y.

Lemma chain_snoc R l x : chain R (l ++ [x]) ↔ chain R l ∧ (∀ y, last l = Some y → R y x).
Proof.
  split.
  - intros Hc. split.
    + intros i a b Ha Hb. by apply (Hc i); apply lookup_app_l_Some.
    + intros y Hy. destruct (exists_last_or_nil l) as [->|(k & z & ->)]; [done|].
      rewrite last_snoc in Hy. simplify_eq. apply (Hc (length k)).
      * apply lookup_app_l_Some. by apply list_lookup_middle.
      * rewrite <- length_snoc with (x := y). by apply list_lookup_middle.
  - intros [Hc Hl] i a b Ha Hb. apply lookup_app_Some in Hb as [Hb|[Hle Hb]].
    + apply (Hc i); [|done]. rewrite lookup_app_l in Ha by (apply lookup_lt_Some in Hb; lia). done.
    + apply list_lookup_singleton_Some in Hb as [Hi <-].
      assert (length l = S i) as Hli by lia. apply Hl. rewrite last_lookup, Hli. cbn.
      by rewrite lookup_app_l in Ha by lia.
Qed.
Lemma chain_sub R l a n : chain R l → chain R (take n (drop a l)).
Proof.
  intros Hc i x y Hx Hy. apply lookup_take_Some in Hx as [Hx _], Hy as [Hy _].
  rewrite lookup_drop in Hx, Hy. apply (Hc (a + i)); [done|]. by rewrite <- Nat.add_succ_r.
Qed.

(** The ids left for good: visited and not on the path. *)
Record search_ok (visited : gset StrId) (path : list StrId) : Prop := {
  so_path : ∀ x, x ∈ path → x ∈ visited;
  so_chain : chain edge path;
  so_closed : ∀ x y, x ∈ visited → x ∉ path → edge x y → y ∈ visited ∧ y ∉ path;
  so_acyclic : ∀ x, x ∈ visited → x ∉ path → ¬ tc edge x x;
}.

Definition cycle_found (path : list StrId) (a b : nat) : Prop :=
  chain edge path ∧ a < b ∧ b = length path - 1 ∧ ∃ x, path !! a = Some x ∧ path !! b = Some x.
Definition searched (cur : list StrId) visited path (r : option (nat * nat)) visited' path' : Prop :=
  match r with
  | Some (a, b) => cycle_found path' a b
  | None => path' = path ∧ visited ⊆ visited' ∧ search_ok visited' path ∧
            ∀ x, x ∈ cur → x ∈ visited' ∧ x ∉ path
  end.

Lemma position_of_Some x l i : position_of x l = Some i → l !! i = Some x.
Proof.
  unfold position_of. intros ([j y] & Hf & ->)%fmap_Some. apply list_find_Some in Hf as (Hj & -> & _). done.
Qed.
Lemma position_of_None x l : position_of x l = None → x ∉ l.
Proof.
  unfold position_of. intros Hf%fmap_None Hin. apply list_find_None in Hf. rewrite Forall_forall in Hf. by apply (Hf x).
Qed.

Lemma search_ok_push visited path cur :
  search_ok visited path → cur ∉ visited → (∀ y, last path = Some y → edge y cur) →
  search_ok ({[cur]} ∪ visited) (path ++ [cur]).
Proof.
  intros [Hp Hc Hcl Ha] Hcur Hl. split.
  - intros x. rewrite elem_of_app, list_elem_of_singleton. set_solver.
  - by apply chain_snoc.
  - intros x y Hx Hnp He. rewrite elem_of_app, list_elem_of_singleton in *.
    destruct (Hcl x y) as [Hy Hyp]; [set_solver|tauto|done|]. set_solver.
  - intros x Hx Hnp. rewrite elem_of_app, list_elem_of_singleton in *. apply Ha; [set_solver|tauto].
Qed.

Lemma closed_tc (D : StrId → Prop) x y : (∀ x y, D x → edge x y → D y) → D x → tc edge x y → D y.
Proof. intros Hcl Hx Ht. induction Ht; eauto. Qed.

Lemma search_ok_pop visited path cur :
  search_ok visited (path ++ [cur]) → cur ∉ path → (∀ y, edge cur y → y ∈ visited ∧ y ∉ path ++ [cur]) →
  search_ok visited path.
Proof.
  intros [Hp Hc Hcl Ha] Hcur Hs. split.
  - intros x Hx. apply Hp. apply elem_of_app. by left.
  - by apply chain_snoc in Hc as [? _].
  - intros x y Hx Hnp He. destruct (decide (x = cur)) as [->|Hne].
    + destruct (Hs y He) as [? Hy]. rewrite elem_of_app in Hy. tauto.
    + destruct (Hcl x y Hx) as [? Hy]; [|done|]; rewrite elem_of_app, ?list_elem_of_singleton in *; tauto.
  - intros x Hx Hnp. destruct (decide (x = cur)) as [->|Hne].
    + intros Ht.
      assert (∃ y, edge cur y ∧ (y = cur ∨ tc edge y cur)) as (y & Hy & Hyc).
      { inversion Ht; subst; eauto. }
      destruct (Hs y Hy) as [Hyv Hyp]. destruct Hyc as [->|Hyc].
      { apply Hyp, elem_of_app. right. by apply list_elem_of_singleton. }
      destruct (closed_tc (λ z, z ∈ visited ∧ z ∉ path ++ [cur]) y cur) as [_ Hn]; [|done|done|].
      * intros a b [? ?] ?. by apply (Hcl a b).
      * apply Hn, elem_of_app. right. by apply list_elem_of_singleton.
    + apply Ha; [done|]. rewrite elem_of_app, list_elem_of_singleton. tauto.
Qed.

Lemma cycle_each_spec {E} (f : StrId → gset StrId * list StrId → outcome E (option (nat * nat) * (gset StrId * list StrId)))
    nexts visited path (P : gset StrId → Prop) :
  (∀ v v', P v → v ⊆ v' → P v') →
  (∀ next v, next ∈ nexts → P v → search_ok v path →
     ∃ r v' path', f next (v, path) = Ok (r, (v', path')) ∧ searched [next] v path r v' path') →
  P visited → search_ok visited path →
  ∃ r v' path', cycle_each f nexts (visited, path) = Ok (r, (v', path')) ∧ searched nexts visited path r v' path'.
Proof.
  intros HP. revert visited. induction nexts as [|next nexts IH]; intros visited Hf Hv Hok; cbn.
  { exists None, visited, path. split; [done|]. split_and!; [done..|]. intros x Hx. by apply not_elem_of_nil in Hx. }
  destruct (Hf next visited) as (r & v' & path' & -> & Hs); [apply list_elem_of_here|done|done|]. cbn.
  destruct r as [[a b]|]; [by exists (Some (a, b)), v', path'|]. destruct Hs as (-> & Hsub & Hok' & Hin).
  destruct (IH v') as (r & v'' & path' & -> & Hs); [|by eapply HP|done|].
  { intros y v Hy. apply Hf. by apply list_elem_of_further. }
  exists r, v'', path'. split; [done|]. destruct r as [[a b]|]; [done|].
  destruct Hs as (-> & Hsub' & Hok'' & Hin'). split_and!; [done|set_solver|done|].
  intros x [->|Hx]%elem_of_cons; [|by apply Hin'].
  destruct (Hin next) as [? ?]; [apply list_elem_of_here|]. set_solver.
Qed.

Lemma get_cycle_spec {E} n cur visited path :
  search_ok visited path → (∀ y, last path = Some y → edge y cur) →
  size ((list_to_set (im_keys t) : gset StrId) ∖ visited) < n →
  ∃ r v' path', get_cycle (E:=E) n t cur (visited, path) = Ok (r, (v', path')) ∧ searched [cur] visited path r v' path'.
Proof.
  revert cur visited path. induction n as [|n IH]; intros cur visited path Hok Hl Hn; [lia|]. cbn [get_cycle].
  destruct (position_of cur path) as [i|] eqn:Hpos.
  { apply position_of_Some in Hpos. eexists _, _, _. split; [done|].
    pose proof (lookup_lt_Some _ _ _ Hpos). rewrite length_snoc, Nat.sub_succ, Nat.sub_0_r. split_and!.
    - apply chain_snoc. split; [apply Hok|done].
    - done.
    - rewrite length_snoc. lia.
    - exists cur. split; [by apply lookup_app_l_Some|by apply list_lookup_middle]. }
  apply position_of_None in Hpos. case_bool_decide as Hv.
  { exists None, visited, path. split; [done|]. split_and!; [done..|]. by intros x ->%list_elem_of_singleton. }
  set (nexts := default [] (im_get cur t)).
  assert (match im_get cur t with
          | Some next_symbols => cycle_each (E:=E) (get_cycle n t) next_symbols ({[cur]} ∪ visited, path ++ [cur])
          | None => Ok (None, ({[cur]} ∪ visited, path ++ [cur]))
          end = cycle_each (get_cycle n t) nexts ({[cur]} ∪ visited, path ++ [cur])) as ->.
  { subst nexts. by destruct (im_get cur t). }
  assert (∀ y, edge cur y ↔ y ∈ nexts) as Hnexts.
  { intros y. unfold edge, nexts. destruct (im_get cur t); cbn; [naive_solver|]. rewrite elem_of_nil. naive_solver. }
  destruct (cycle_each_spec (E:=E) (get_cycle n t) nexts ({[cur]} ∪ visited) (path ++ [cur])
              (λ v, {[cur]} ∪ visited ⊆ v)) as (r & v' & path' & -> & Hs).
  - set_solver.
  - intros next v Hnext Hsub Hok'. apply IH; [done| |].
    + intros y. rewrite last_snoc. intros [= <-]. by apply Hnexts.
    + assert (cur ∈ (list_to_set (im_keys t) : gset StrId)) as Hk.
      { apply elem_of_list_to_set, elem_of_im_keys. apply Hnexts in Hnext as (s & Hs & _). by exists s. }
      assert (size ((list_to_set (im_keys t) : gset StrId) ∖ v) <
              size ((list_to_set (im_keys t) : gset StrId) ∖ visited)); [|lia].
      apply subset_size. set_solver.
  - done.
  - by apply search_ok_push.
  - cbn. exists r, v', (match r with Some _ => path' | None => removelast path' end). split; [done|].
    destruct r as [[a b]|]; [done|]. destruct Hs as (-> & Hsub & Hok' & Hin). rewrite removelast_last.
    split_and!; [done|set_solver| |intros x ->%list_elem_of_singleton; set_solver].
    apply search_ok_pop with cur; [done|done|]. intros y Hy%Hnexts. by apply Hin.
Qed.
End search.

(** ** Single-symbol productions *)

(** The strings of symbols that a rule stands for; a leaf is a symbol, [repeat]
    matches its content once or more. *)
Definition is_leaf (t : tree) : bool :=
  match t with TString _ | TPattern _ _ | TNamed _ | TSym _ _ | TEof => true | _ => false end.
Inductive yields : tree → list tree → Prop :=
  | yields_leaf t : is_leaf t = true → yields t [t]
  | yields_blank : yields TBlank []
  | yields_seq_nil : yields (TSeq []) []
  | yields_seq_cons t l w1 w2 : yields t w1 → yields (TSeq l) w2 → yields (TSeq (t :: l)) (w1 ++ w2)
  | yields_choice t l w : t ∈ l → yields t w → yields (TChoice l) w
  | yields_repeat_once t w : yields t w → yields (TRepeat t) w
  | yields_repeat_more t w1 w2 : yields t w1 → yields (TRepeat t) w2 → yields (TRepeat t) (w1 ++ w2)
  | yields_metadata m t w : yields t w → yields (TMetadata m t) w
  | yields_reserved t ctx w : yields t w → yields (TReserved t ctx) w.

(** [u] is one of the alternatives of [t]. *)
Inductive alternative : tree → tree → Prop :=
  | alt_refl t : alternative t t
  | alt_choice t l u : t ∈ l → alternative t u → alternative (TChoice l) u
  | alt_metadata m t u : alternative t u → alternative (TMetadata m t) u.

(** No sequence, repetition or [reserved] among the alternatives of a rule
    stands for a single name. *)
Definition plain (t : tree) : Prop :=
  ∀ u s, alternative t u →
    match u with TSeq _ | TRepeat _ | TReserved _ _ => ¬ yields u [TNamed s] | _ => True end.

(** The names that the search collects: the alternatives that are names. *)
Fixpoint unit_refs (t : tree) : list StrId :=
  match t with
  | TNamed s => [s]
  | TChoice l => concat (map unit_refs l)
  | TMetadata _ t => unit_refs t
  | _ => []
  end.
Lemma unit_refs_alternative s : ∀ t, s ∈ unit_refs t → alternative t (TNamed s).
Proof.
  apply (tree_size_ind (λ t, s ∈ unit_refs t → alternative t (TNamed s))).
  intros [| | |s'| |l|l|t| |m t|t ctx] IH; cbn; try (intros Hx; destruct (not_elem_of_nil _ Hx)).
  - intros ->%list_elem_of_singleton. constructor.
  - intros (t & Ht & Hs)%elem_of_concat_map. apply (alt_choice t); [done|]. apply IH; [|done].
    pose proof (tsum_elem _ _ Ht). unfold tsum in *. cbn. lia.
  - intros Hs. apply alt_metadata, IH; [cbn; lia|done].
Qed.
Lemma alternative_yields t u w : alternative t u → yields u w → yields t w.
Proof. induction 1; intros; eauto using yields. Qed.
Lemma unit_refs_yields s t : s ∈ unit_refs t → yields t [TNamed s].
Proof. intros Ha%unit_refs_alternative. eapply alternative_yields; [exact Ha|by constructor]. Qed.
Lemma plain_unit_refs t s : plain t → yields t [TNamed s] → s ∈ unit_refs t.
Proof.
  intros Hp Hy. remember [TNamed s] as w eqn:Hw. revert Hp Hw.
  induction Hy as [t Hl| | |t l w1 w2 H1 IH1 H2 IH2|t l w Ht Hy IH|t w Hy IH|t w1 w2 H1 IH1 H2 IH2|m t w Hy IH|t ctx w Hy IH];
    intros Hp Hw.
  - injection Hw as ->. apply list_elem_of_here.
  - done.
  - done.
  - destruct (Hp _ s (alt_refl _)). rewrite <- Hw. by constructor.
  - cbn. apply elem_of_concat_map. exists t. split; [done|]. apply IH; [|done].
    intros u x Hu. apply Hp. by apply (alt_choice t).
  - destruct (Hp _ s (alt_refl _)). rewrite <- Hw. by constructor.
  - destruct (Hp _ s (alt_refl _)). rewrite <- Hw. by apply yields_repeat_more.
  - cbn. apply IH; [|done]. intros u x Hu. apply Hp. by constructor.
  - destruct (Hp _ s (alt_refl _)). rewrite <- Hw. by constructor.
Qed.

Section grammar.
Context {H M : Type} `{IndexMap M (list StrId)}.
Implicit Types (g : InputGrammar H) (p : RulePool H) (m : M).

(** Pushing the children of a node. *)
Lemma children_pushed {E} p r cs us stack ts :
  child_slice (E:=Empty_set) p r = Ok cs → Forall2 (denotes p) cs us → Forall2 (denotes p) stack ts →
  child_slice (E:=E) p r = Ok cs ∧ Forall2 (denotes p) (rev cs ++ stack) (rev us ++ ts).
Proof.
  intros Hc Hus Hts. split; [by eapply child_slice_any|]. apply Forall2_app; [|done].
  rewrite !rev_alt. by apply Forall2_reverse.
Qed.
Lemma elem_of_rev {A} (x : A) l : x ∈ rev l ↔ x ∈ l.
Proof. rewrite rev_alt. change (rev_append l []) with (reverse l). apply elem_of_reverse. Qed.
Lemma unit_walk_spec {E} n p name stack ts prods :
  Forall2 (denotes p) stack ts → tsum ts ≤ n → StronglySorted N.lt prods →
  ∃ prods', unit_walk (E:=E) n p name stack prods = Ok prods' ∧ StronglySorted N.lt prods' ∧
    ∀ x, x ∈ prods' ↔ x ∈ prods ∨ x ≠ name ∧ x ∈ concat (map unit_refs ts).
Proof.
  revert stack ts prods. induction n as [|n IH]; intros stack ts prods Hs Hn Hp;
    destruct Hs as [|id t stack ts Hid Hs]; try (exists prods; cbn; split_and!; [done..|]; set_solver).
  { pose proof (tree_size_pos t). cbn in Hn. lia. }
  change (tsum (t :: ts)) with (tree_size t + tsum ts) in Hn. pose proof (tree_size_pos t).
  destruct (denotes_node_Ok (E:=E) _ _ _ Hid) as (nd & Hnd & Ht). cbn [unit_walk]. rewrite Hnd. cbn [mbind outcome_bind].
  assert (unit_refs t = [] → ∃ prods', unit_walk (E:=E) n p name stack prods = Ok prods' ∧
    StronglySorted N.lt prods' ∧
    ∀ x, x ∈ prods' ↔ x ∈ prods ∨ x ≠ name ∧ x ∈ concat (map unit_refs (t :: ts))) as Hskip.
  { intros Hu. cbn. rewrite Hu. apply IH; [done|lia|done]. }
  destruct nd as [|s|q f|s|k i|r|r|id'| |mid id'|id' ctx]; cbn in Ht; destr_ex; subst; try (by apply Hskip).
  - set (prods1 := if negb (s =? name)%N then insert_sorted prods s else prods).
    assert (StronglySorted N.lt prods1 ∧ ∀ x, x ∈ prods1 ↔ x ∈ prods ∨ x ≠ name ∧ x = s) as [Hp1 Hin1].
    { subst prods1. destruct (insert_sorted_spec prods s Hp) as [? Hin].
      case N.eqb_spec; cbn; intros; (split; [done|]); intros x; rewrite ?Hin; naive_solver. }
    destruct (IH stack ts prods1) as (prods' & -> & Hp' & Hin); [done|lia|done|].
    exists prods'. split_and!; [done..|]. intros x. cbn. rewrite Hin, Hin1. set_solver.
  - destruct (children_pushed (E:=E) p r _ _ stack ts ltac:(done) ltac:(done) Hs) as [-> Hf].
    cbn [mbind outcome_bind].
    destruct (IH _ _ prods Hf) as (prods' & -> & Hp' & Hin); [|done|].
    { rewrite tsum_app, tsum_rev. cbn in Hn. unfold tsum in *. lia. }
    exists prods'. split_and!; [done..|]. intros b. rewrite Hin. cbn [map concat unit_refs].
    rewrite map_app, concat_app, !elem_of_app, !elem_of_concat_map. setoid_rewrite elem_of_rev. done.
  - match goal with Hd : denotes p id' ?u |- _ => apply (IH (id' :: stack) (u :: ts) prods) end;
      [by constructor| |done].
    cbn in Hn. unfold tsum in *. cbn. lia.
Qed.

(** The last variable of a name: a later one replaces it in the map. *)
Definition last_named (a : StrId) (vs : list Variable_) : option Variable_ :=
  last (filter (λ v, var_name v = a) vs).
Definition refers p (v : Variable_) (b : StrId) : Prop :=
  ∃ t, denotes p (var_root v) t ∧ b ∈ unit_refs t ∧ b ≠ var_name v.
Definition unit_edge g (a b : StrId) : Prop :=
  ∃ v, last_named a (variables g) = Some v ∧ refers (pool g) v b.

(** The name [a] has a production of the single symbol [b], another name; and
    it does so with a plain rule. *)
Definition single_production g (a b : StrId) : Prop :=
  ∃ v t, last_named a (variables g) = Some v ∧ denotes (pool g) (var_root v) t ∧ yields t [TNamed b] ∧ b ≠ a.
Definition plain_production g (a b : StrId) : Prop :=
  single_production g a b ∧
  ∃ v t, last_named a (variables g) = Some v ∧ denotes (pool g) (var_root v) t ∧ plain t.

Lemma last_named_cons a v vs :
  last_named a (v :: vs) =
  match last_named a vs with Some v' => Some v' | None => if decide (var_name v = a) then Some v else None end.
Proof.
  unfold last_named. rewrite filter_cons. case_decide; [|by destruct (last _)].
  rewrite last_cons. by destruct (last _).
Qed.
Lemma last_named_elem a v vs : last_named a vs = Some v → v ∈ vs ∧ var_name v = a.
Proof.
  induction vs as [|v' vs IH]; [done|]. rewrite last_named_cons.
  destruct (last_named a vs) as [v1|]; [intros [= ->]; destruct IH; [done|]; split; [by apply list_elem_of_further|done]|].
  case_decide; [|done]. intros [= <-]. split; [apply list_elem_of_here|done].
Qed.

Lemma epsilon_transitions_spec {E} n p vs ts m :
  Forall2 (λ v t, denotes p (var_root v) t) vs ts → Forall (λ t, tree_size t ≤ n) ts →
  ∃ m', epsilon_transitions_loop (E:=E) n p vs m = Ok m' ∧
    (∀ a b, edge m' a b ↔ match last_named a vs with Some v => refers p v b | None => edge m a b end) ∧
    (∀ k, k ∈ im_keys m' ↔ k ∈ map var_name vs ∨ k ∈ im_keys m).
Proof.
  intros Hf. revert m. induction Hf as [|v t vs ts Ht Hf IH]; intros m Hn.
  { exists m. split_and!; [done..|]. set_solver. }
  apply Forall_cons in Hn as [Hnt Hn]. cbn [epsilon_transitions_loop].
  destruct (unit_walk_spec (E:=E) n p (var_name v) [var_root v] [t] []) as (prods & -> & _ & Hin).
  { by repeat constructor. }
  { unfold tsum. cbn. lia. }
  { constructor. }
  cbn [mbind outcome_bind]. destruct (IH (im_insert (var_name v) prods m) Hn) as (m' & -> & He & Hk).
  assert (∀ b, b ∈ prods ↔ refers p v b) as Hprods.
  { intros b. rewrite Hin. cbn. rewrite List.app_nil_r. unfold refers. split.
    - intros [Hb|[? ?]]; [by apply not_elem_of_nil in Hb|]. by exists t.
    - intros (t' & Ht' & ? & ?). rewrite (denotes_det _ _ _ _ Ht Ht'). by right. }
  exists m'. split_and!; [done| |].
  - intros a b. rewrite He, last_named_cons. destruct (last_named a vs); [done|].
    unfold edge. rewrite im_get_insert. case_decide as Ha.
    + rewrite decide_True by done. rewrite <- Hprods. naive_solver.
    + by rewrite decide_False by done.
  - intros k. rewrite Hk, !elem_of_im_keys, im_get_insert. cbn. rewrite elem_of_cons.
    case_decide; subst; [|tauto]. split; [tauto|]. intros _. right. by eexists.
Qed.

Definition resolves p (id : StrId) (s : bytes) : Prop := ∀ E, resolve (E:=E) (str_pool p) id = Ok s.
Lemma resolve_all_spec {E} p l ss : Forall2 (resolves p) l ss → resolve_all (E:=E) p l = Ok ss.
Proof.
  induction 1 as [|x s l ss Hx _ IH]; [done|]. cbn. rewrite (Hx E). cbn. unfold resolve_all in IH. by rewrite IH.
Qed.

(** A closed walk along [R], as the error reports it. *)
Definition closed_walk (R : StrId → StrId → Prop) (c : list StrId) : Prop :=
  2 ≤ length c ∧ head c = last c ∧ chain R c.

Lemma chain_tc R c : 2 ≤ length c → chain R c → ∃ x y, head c = Some x ∧ last c = Some y ∧ tc R x y.
Proof.
  intros Hl Hc. destruct c as [|x c]; [cbn in Hl; lia|]. destruct c as [|z c] using rev_ind; [cbn in Hl; lia|].
  exists x, z. split; [done|]. split; [by rewrite <- (last_snoc z (x :: c))|].
  change (x :: c ++ [z]) with ((x :: c) ++ [z]) in Hc. clear Hl IHc. revert z Hc.
  induction c as [|y c IH] using rev_ind; intros z Hc%chain_snoc.
  - apply tc_once. by apply Hc.
  - destruct Hc as [Hc Hl]. eapply tc_r; [by apply IH|]. apply Hl. by rewrite <- (last_snoc y (x :: c)).
Qed.

Lemma cycle_of_path {E} m path a b :
  cycle_found m path a b →
  ∃ c, slice (E:=E) path a (S b) = Ok c ∧ closed_walk (edge m) c.
Proof.
  intros (Hc & Hab & Hb & x & Ha & Hbx). exists (take (S b - a) (drop a path)).
  apply lookup_lt_Some in Hbx as Hlt. unfold slice.
  rewrite (proj2 (Nat.leb_le _ _)), (proj2 (Nat.leb_le _ _)) by lia. split; [done|].
  assert (length (take (S b - a) (drop a path)) = S (b - a)) as Hlen by (rewrite length_take, length_drop; lia).
  split_and!; [lia| |by apply chain_sub].
  rewrite head_lookup, last_lookup, Hlen. cbn [pred].
  rewrite !lookup_take_lt, !lookup_drop by lia. rewrite Nat.add_0_r, Ha, <- Hbx. f_equal. lia.
Qed.

Lemma search_ok_empty m : search_ok m ∅ [].
Proof. split; try set_solver. intros i x y. by rewrite lookup_nil. Qed.

Lemma closed_walk_sources R c x : closed_walk R c → x ∈ c → ∃ y, R x y.
Proof.
  intros (Hl & Heq & Hc) [i Hi]%list_elem_of_lookup.
  destruct (c !! S i) as [y|] eqn:Hy; [exists y; by apply (Hc i)|].
  apply lookup_ge_None in Hy. apply lookup_lt_Some in Hi as Hlt.
  assert (head c = Some x) as Hx.
  { rewrite Heq, last_lookup, <- Hi. f_equal. lia. }
  destruct (lookup_lt_is_Some_2 c 1 ltac:(lia)) as [y Hy1]. exists y. apply (Hc 0); [|done]. by rewrite <- head_lookup.
Qed.

Lemma recursion_loop_spec n p m keys :
  (∀ x y, edge m x y → ∃ s, resolves p x s) → size (list_to_set (im_keys m) : gset StrId) < n →
  (recursion_loop n p m keys = Ok tt ∧ ∀ x, x ∈ keys → ¬ tc (edge m) x x) ∨
  (∃ c ss, recursion_loop n p m keys = Err ss ∧ Forall2 (resolves p) c ss ∧ closed_walk (edge m) c).
Proof.
  intros Hres Hn. induction keys as [|k keys IH]; [left; split; [done|]; intros x Hx; by apply not_elem_of_nil in Hx|].
  cbn [recursion_loop].
  destruct (get_cycle_spec (E:=IndirectRecursionError) m n k ∅ [] (search_ok_empty m)) as (r & v' & path' & -> & Hs).
  { done. }
  { eapply Nat.le_lt_trans; [|exact Hn]. apply subseteq_size. set_solver. }
  cbn [mbind outcome_bind]. destruct r as [[a b]|].
  - right. destruct (cycle_of_path (E:=list bytes) m path' a b Hs) as (c & -> & Hc). cbn [mbind outcome_bind].
    assert (∃ ss, Forall2 (resolves p) c ss) as [ss Hss].
    { assert (Forall (λ x, ∃ s, resolves p x s) c) as Hall.
      { apply Forall_forall. intros x Hx. destruct (closed_walk_sources _ _ _ Hc Hx) as [y Hy]. eauto. }
      clear -Hall. induction Hall as [|x c [s Hx] _ [ss IH]]; [by exists []|]. exists (s :: ss). by constructor. }
    exists c, ss. rewrite (resolve_all_spec p c ss Hss). by cbn.
  - destruct Hs as (-> & _ & Hok & Hin). destruct (Hin k) as [Hkv Hkp]; [by apply list_elem_of_singleton|].
    destruct IH as [[-> IH]|IH]; [left|by right]. split; [done|].
    intros x [->|Hx]%elem_of_cons; [|by apply IH]. by apply Hok.
Qed.

Lemma size_list_to_set_le (l : list StrId) : size (list_to_set l : gset StrId) ≤ length l.
Proof.
  induction l as [|x l IH]; [done|]. cbn. rewrite size_union_alt, size_singleton.
  pose proof (subseteq_size ((list_to_set l : gset StrId) ∖ {[x]}) (list_to_set l) ltac:(set_solver)). lia.
Qed.
Lemma chain_mono (R R' : StrId → StrId → Prop) c : (∀ x y, R x y → R' x y) → chain R c → chain R' c.
Proof. intros HR Hc i x y Hx Hy. eapply HR, Hc; eauto. Qed.

(** The edges of the search are single-symbol productions, and all of those
    of plain rules. *)
Lemma unit_edge_single g a b : unit_edge g a b → single_production g a b.
Proof.
  intros (v & Hv & t & Ht & Hb & Hne). exists v, t. split; [done|]. split; [done|].
  split; [by apply unit_refs_yields|]. by apply last_named_elem in Hv as [_ <-].
Qed.
Lemma plain_unit_edge g a b : plain_production g a b → unit_edge g a b.
Proof.
  intros [(v & t & Hv & Ht & Hy & Hne) (v' & t' & Hv' & Ht' & Hp)]. simplify_eq.
  assert (t' = t) as -> by by eapply denotes_det. exists v. split; [done|]. exists t. split; [done|].
  split; [by apply plain_unit_refs|]. by apply last_named_elem in Hv as [_ ->].
Qed.

Lemma validate_indirect_recursion_spec n g ts :
  Forall2 (λ v t, denotes (pool g) (var_root v) t) (variables g) ts → Forall (λ t, tree_size t ≤ n) ts →
  length (variables g) < n → (∀ v, v ∈ variables g → ∃ s, resolves (pool g) (var_name v) s) →
  (validate_indirect_recursion (M:=M) n g = Ok tt ∧ ∀ x, ¬ tc (unit_edge g) x x) ∨
  (∃ c ss, validate_indirect_recursion (M:=M) n g = Err ss ∧ Forall2 (resolves (pool g)) c ss ∧
     closed_walk (unit_edge g) c ∧ ∃ x, tc (unit_edge g) x x).
Proof.
  intros Hf Hn Hl Hres. unfold validate_indirect_recursion.
  destruct (epsilon_transitions_spec (E:=IndirectRecursionError) n (pool g) (variables g) ts im_empty Hf Hn) as (m & -> & He & Hk).
  assert (∀ a b, edge m a b ↔ unit_edge g a b) as Hedge.
  { intros a b. rewrite He. unfold unit_edge. destruct (last_named a (variables g)) as [v|]; [naive_solver|].
    unfold edge. rewrite im_get_empty. naive_solver. }
  assert (∀ a b, unit_edge g a b → a ∈ map var_name (variables g)) as Hsrc.
  { intros a b (v & [Hv <-]%last_named_elem & _). apply elem_of_map. by exists v. }
  cbn [mbind outcome_bind]. destruct (recursion_loop_spec n (pool g) m (im_keys m)) as [[-> Hno]|(c & ss & -> & Hss & Hc)].
  - intros x y (v & Hv & _)%Hedge. apply last_named_elem in Hv as [Hv <-]. by apply Hres.
  - eapply Nat.le_lt_trans; [|exact Hl]. rewrite <- (length_map var_name).
    etrans; [|apply size_list_to_set_le]. apply subseteq_size. intros x.
    rewrite !elem_of_list_to_set, Hk, elem_of_im_keys, im_get_empty. by intros [?|[? ?]].
  - left. split; [done|]. intros x Hx.
    assert (tc (edge m) x x) as Hm by (eapply (tc_congruence (λ x, x)); [|exact Hx]; intros; by apply Hedge).
    apply (Hno x); [|done]. apply Hk. left. assert (∃ y, edge m x y) as [y Hy] by (inversion Hm; eauto).
    by eapply Hsrc, Hedge.
  - right. destruct Hc as (Hlc & Hhd & Hch).
    assert (chain (unit_edge g) c) as Hch' by (eapply chain_mono; [|exact Hch]; intros; by apply Hedge).
    destruct (chain_tc _ c Hlc Hch') as (x & y & Hx & Hy & Ht). exists c, ss. split_and!; [done..|].
    exists x. replace y with x in Ht by congruence. done.
Qed.

(** C12: on a grammar whose rules denote trees, the check for indirect
    recursion ends.  When it fails, the error spells a real cycle: names of
    which each has a production of the next one alone, and that ends where it
    starts.  When it succeeds, every such cycle goes through a rule that is not
    plain: one in which a sequence, a repetition or [reserved] stands for a
    single name; the search does not look inside these. *)
Theorem validate_indirect_recursion_correct n g ts :
  Forall2 (λ v t, denotes (pool g) (var_root v) t) (variables g) ts → Forall (λ t, tree_size t ≤ n) ts →
  length (variables g) < n → (∀ v, v ∈ variables g → ∃ s, resolves (pool g) (var_name v) s) →
  (validate_indirect_recursion (M:=M) n g = Ok tt ∧ ∀ x, ¬ tc (plain_production g) x x) ∨
  (∃ c ss, validate_indirect_recursion (M:=M) n g = Err ss ∧ Forall2 (resolves (pool g)) c ss ∧
     closed_walk (single_production g) c ∧ ∃ x, tc (single_production g) x x).
Proof.
  intros Hf Hn Hl Hres.
  destruct (validate_indirect_recursion_spec n g ts Hf Hn Hl Hres) as [[-> Hno]|(c & ss & -> & Hss & (Hlc & Hhd & Hch) & x & Hx)].
  - left. split; [done|]. intros x Hx. apply (Hno x). eapply (tc_congruence (λ x, x)); [|exact Hx]. apply plain_unit_edge.
  - right. exists c, ss. split; [done|]. split; [done|]. split.
    + split_and!; [done..|]. eapply chain_mono; [|exact Hch]. apply unit_edge_single.
    + exists x. eapply (tc_congruence (λ x, x)); [|exact Hx]. apply unit_edge_single.
Qed.
End grammar.

(** ** The order of precedence entries *)
Definition entry_id (e : PrecedenceEntry) : StrId := match e with PEName s | PESymbol s => s end.

(** The comparison under a naming of the ids: names before symbols, then by
    string. *)
Definition entry_cmp (nm : StrId → bytes) (a b : PrecedenceEntry) : comparison :=
  match a, b with
  | PEName a, PEName b | PESymbol a, PESymbol b => bytes_cmp (nm a) (nm b)
  | PEName _, PESymbol _ => Lt
  | PESymbol _, PEName _ => Gt
  end.
Definition is_min (nm : StrId → bytes) (x : PrecedenceEntry) (l : list PrecedenceEntry) : Prop :=
  x ∈ l ∧ ∀ z, z ∈ l → entry_cmp nm x z ≠ Gt.

(** The entry [x] the check compares with [l !! j]: the least of the entries
    from the start position [i] up to [j]. *)
Definition compared_in nm (l : list PrecedenceEntry) (x y : PrecedenceEntry) : Prop :=
  ∃ i j, i < j ∧ l !! j = Some y ∧ x ≠ y ∧ is_min nm x (take (j - i) (drop i l)).
Definition comes_before (ls : list (list PrecedenceEntry)) (x y : PrecedenceEntry) : Prop :=
  ∃ l i j, l ∈ ls ∧ i < j ∧ l !! i = Some x ∧ l !! j = Some y.

(** [x] is before [y] in a list, and no entry between them sorts before [x]:
    [x] and [y] may be neighbours, for example. *)
Definition plainly_before nm (ls : list (list PrecedenceEntry)) (x y : PrecedenceEntry) : Prop :=
  ∃ l i j, l ∈ ls ∧ i < j ∧ l !! i = Some x ∧ l !! j = Some y ∧
    ∀ k z, i < k < j → l !! k = Some z → entry_cmp nm x z ≠ Gt.

Lemma entry_cmp_opp nm a b : entry_cmp nm b a = CompOpp (entry_cmp nm a b).
Proof. destruct a, b; cbn; try done; apply (tc_opp (c:=bytes_cmp)). Qed.
Lemma entry_cmp_refl nm a : entry_cmp nm a a = Eq.
Proof. destruct a; apply (tc_refl bytes_cmp). Qed.

(** The pairs in the order in which they are compared. *)
Fixpoint scan nm (e : PrecedenceEntry) (l : list PrecedenceEntry) : list (PrecedenceEntry * PrecedenceEntry) :=
  match l with
  | [] => []
  | y :: l =>
      if bool_decide (e = y) then scan nm e l
      else (e, y) :: scan nm (match entry_cmp nm e y with Gt => y | _ => e end) l
  end.
Fixpoint scan_all nm (l : list PrecedenceEntry) : list (PrecedenceEntry * PrecedenceEntry) :=
  match l with [] => [] | e :: l => scan nm e l ++ scan_all nm l end.

Section entries.
Context (nm : StrId → bytes) (P : PrecedenceEntry → Prop).
(** Distinct ids name distinct strings. *)
Context (nm_inj : ∀ a b, P a → P b → nm (entry_id a) = nm (entry_id b) → entry_id a = entry_id b).

Lemma entry_cmp_eq a b : P a → P b → entry_cmp nm a b = Eq → a = b.
Proof.
  intros Ha Hb. destruct a, b; cbn; try done; intros Hc%tc_eq; f_equal; exact (nm_inj _ _ Ha Hb Hc).
Qed.
Lemma entry_cmp_trans a b c :
  P a → P b → P c → entry_cmp nm a b ≠ Gt → entry_cmp nm b c ≠ Gt → entry_cmp nm a c ≠ Gt.
Proof.
  intros Ha Hb Hc. destruct (entry_cmp nm a b) eqn:Hab; [|intros _|done].
  { by apply entry_cmp_eq in Hab as ->. }
  destruct (entry_cmp nm b c) eqn:Hbc; [|intros _|done].
  { apply entry_cmp_eq in Hbc as ->; [|done..]. by rewrite Hab. }
  assert (entry_cmp nm a c = Lt) as ->; [|done].
  destruct a, b, c; cbn in *; try done; eapply (tc_trans (c:=bytes_cmp)); eassumption.
Qed.

(** The running minimum. *)
Lemma is_min_unique x y l : Forall P l → is_min nm x l → is_min nm y l → x = y.
Proof.
  intros HP [Hx Hxm] [Hy Hym]. rewrite Forall_forall in HP.
  specialize (Hxm y Hy). specialize (Hym x Hx). rewrite entry_cmp_opp in Hym.
  apply entry_cmp_eq; [by apply HP..|]. by destruct (entry_cmp nm x y).
Qed.
Lemma is_min_snoc e k y :
  Forall P k → P y → is_min nm e k → is_min nm (match entry_cmp nm e y with Gt => y | _ => e end) (k ++ [y]).
Proof.
  intros HP Hy [He Hm]. rewrite Forall_forall in HP. destruct (entry_cmp nm e y) eqn:Hc.
  1-2: split; [apply elem_of_app; by left|]; intros z [Hz| ->%list_elem_of_singleton]%elem_of_app; [by apply Hm|by rewrite Hc].
  split; [apply elem_of_app; right; by apply list_elem_of_singleton|].
  intros z [Hz| ->%list_elem_of_singleton]%elem_of_app; [|by rewrite entry_cmp_refl].
  apply entry_cmp_trans with e; [done|by apply HP..| |by apply Hm]. by rewrite entry_cmp_opp, Hc.
Qed.

Lemma scan_spec k e l x y :
  Forall P (k ++ l) → is_min nm e k →
  (x, y) ∈ scan nm e l ↔ ∃ j, l !! j = Some y ∧ x ≠ y ∧ is_min nm x (k ++ take j l).
Proof.
  revert k e. induction l as [|z l IH]; intros k e HP Hm; cbn [scan].
  { rewrite elem_of_nil. split; [done|]. by intros (j & Hj & _). }
  assert (Forall P ((k ++ [z]) ++ l)) as HP' by by rewrite <- (assoc_L (++)).
  assert (∃ e', e' = (match entry_cmp nm e z with Gt => z | _ => e end) ∧ is_min nm e' (k ++ [z])) as (e' & He' & Hm').
  { eexists. split; [done|]. apply Forall_app in HP as [? [? ?]%Forall_cons]. by apply is_min_snoc. }
  assert ((∃ j, (z :: l) !! j = Some y ∧ x ≠ y ∧ is_min nm x (k ++ take j (z :: l))) ↔
    (z = y ∧ x ≠ y ∧ x = e) ∨ (x, y) ∈ scan nm e' l) as Hsplit.
  { rewrite (IH (k ++ [z]) e') by done. split.
    - intros ([|j] & Hj & Hne & Hx); cbn in *.
      + left. rewrite List.app_nil_r in Hx. simplify_eq. split_and!; [done..|].
        apply Forall_app in HP as [HPk _]. by apply (is_min_unique x e k).
      + right. exists j. by rewrite <- (assoc_L (++)).
    - intros [(<- & Hne & ->)|(j & Hj & Hne & Hx)].
      + exists 0. cbn. by rewrite List.app_nil_r.
      + exists (S j). cbn. by rewrite <- (assoc_L (++)) in Hx. }
  rewrite Hsplit. case_bool_decide as Hez.
  - subst z. rewrite entry_cmp_refl in He'. subst e'. split; [by right|]. intros [(-> & ? & ->)|?]; done.
  - rewrite <- He', elem_of_cons. naive_solver.
Qed.

Lemma scan_all_spec l x y : Forall P l → (x, y) ∈ scan_all nm l ↔ compared_in nm l x y.
Proof.
  unfold compared_in. induction l as [|e l IH]; intros HP; cbn [scan_all].
  { rewrite elem_of_nil. split; [done|]. intros (i & j & _ & Hj & _). by rewrite lookup_nil in Hj. }
  rewrite elem_of_app, (scan_spec [e] e l) by
    (done || (split; [by apply list_elem_of_singleton|]; intros z ->%list_elem_of_singleton; by rewrite entry_cmp_refl)).
  apply Forall_cons in HP as [_ HP]. rewrite IH by done. split.
  - intros [(j & Hj & Hne & Hm)|(i & j & Hij & Hj & Hne & Hm)].
    + exists 0, (S j). split_and!; [lia|done|done|]. done.
    + exists (S i), (S j). split_and!; [lia|done|done|]. done.
  - intros (i & j & Hij & Hj & Hne & Hm). destruct j as [|j]; [lia|]. destruct i as [|i].
    + left. by exists j.
    + right. exists i, j. split_and!; [lia|done..].
Qed.
End entries.

Lemma compared_comes_before nm l ls x y : l ∈ ls → compared_in nm l x y → comes_before ls x y.
Proof.
  intros Hl (i & j & Hij & Hj & _ & [Hx _]). apply list_elem_of_lookup in Hx as [k Hk].
  apply lookup_take_Some in Hk as [Hk ?]. rewrite lookup_drop in Hk. exists l, (i + k), j. split_and!; [done|lia|done..].
Qed.

Lemma plainly_compared nm l i j x y :
  i < j → l !! i = Some x → l !! j = Some y → x ≠ y →
  (∀ k z, i < k < j → l !! k = Some z → entry_cmp nm x z ≠ Gt) → compared_in nm l x y.
Proof.
  intros Hij Hi Hj Hne Hbetween. exists i, j. split_and!; [done..|]. split.
  - apply list_elem_of_lookup. exists 0. rewrite lookup_take_lt, lookup_drop, Nat.add_0_r by lia. done.
  - intros z [k Hk]%list_elem_of_lookup. apply lookup_take_Some in Hk as [Hk Hlt]. rewrite lookup_drop in Hk.
    destruct k as [|k]; [|by apply (Hbetween (i + S k)); [lia|]].
    rewrite Nat.add_0_r, Hi in Hk. injection Hk as <-. by rewrite entry_cmp_refl.
Qed.

(** ** The map of compared pairs *)
Definition entry_display (nm : StrId → bytes) (e : PrecedenceEntry) : bytes :=
  match e with PEName s => [39%N] ++ nm s ++ [39%N] | PESymbol s => [36; 46]%N ++ nm s end.

Section record.
Context (nm : StrId → bytes) (P : PrecedenceEntry → Prop).
Context (nm_inj : ∀ a b, P a → P b → nm (entry_id a) = nm (entry_id b) → entry_id a = entry_id b).
Notation pairs_map := (gmap (PrecedenceEntry * PrecedenceEntry) comparison) (only parsing).

Definition record_one (xy : PrecedenceEntry * PrecedenceEntry) (pairs : pairs_map) :
    outcome ValidatePrecedenceError pairs_map :=
  let '(ordering, a, b) :=
    match entry_cmp nm xy.1 xy.2 with Gt => (Lt, xy.2, xy.1) | _ => (Gt, xy.1, xy.2) end in
  match pairs !! (a, b) with
  | None => Ok (<[(a, b) := ordering]> pairs)
  | Some o => if bool_decide (o = ordering) then Ok pairs
              else Err (Ordering (entry_display nm a) (entry_display nm b))
  end.
Fixpoint record_all (l : list (PrecedenceEntry * PrecedenceEntry)) (pairs : pairs_map) :
    outcome ValidatePrecedenceError pairs_map :=
  match l with [] => Ok pairs | xy :: l => pairs ← record_one xy pairs; record_all l pairs end.

Lemma record_all_app l1 l2 pairs : record_all (l1 ++ l2) pairs = record_all l1 pairs ≫= record_all l2.
Proof.
  revert pairs. induction l1 as [|xy l1 IH]; intros pairs; [done|]. cbn [record_all app].
  by destruct (record_one xy pairs); cbn.
Qed.

Definition consistent (D : list (PrecedenceEntry * PrecedenceEntry)) : Prop := ∀ x y, (x, y) ∈ D → (y, x) ∉ D.
Definition pairs_inv (D : list (PrecedenceEntry * PrecedenceEntry)) (pairs : pairs_map) : Prop :=
  ∀ a b o, pairs !! (a, b) = Some o ↔
    entry_cmp nm a b = Lt ∧ ((o = Gt ∧ (a, b) ∈ D) ∨ (o = Lt ∧ (b, a) ∈ D)).
Definition pair_ok (xy : PrecedenceEntry * PrecedenceEntry) : Prop := P xy.1 ∧ P xy.2 ∧ xy.1 ≠ xy.2.

(** The key under which a pair is recorded. *)
Lemma record_key x y :
  pair_ok (x, y) →
  ∃ o a b, match entry_cmp nm x y with Gt => (Lt, y, x) | _ => (Gt, x, y) end = (o, a, b) ∧
    entry_cmp nm a b = Lt ∧ ((o = Gt ∧ x = a ∧ y = b) ∨ (o = Lt ∧ x = b ∧ y = a)).
Proof.
  intros (Hx & Hy & Hne). cbn in *. destruct (entry_cmp nm x y) eqn:Hc.
  - by apply (entry_cmp_eq nm P nm_inj) in Hc.
  - exists Gt, x, y. split_and!; [done..|by left].
  - exists Lt, y, x. rewrite entry_cmp_opp, Hc. split_and!; [done..|by right].
Qed.

Lemma record_one_spec D x y pairs :
  pairs_inv D pairs → consistent D → pair_ok (x, y) →
  (∃ pairs', record_one (x, y) pairs = Ok pairs' ∧ pairs_inv (D ++ [(x, y)]) pairs' ∧ consistent (D ++ [(x, y)])) ∨
  (∃ a b, record_one (x, y) pairs = Err (Ordering (entry_display nm a) (entry_display nm b)) ∧
     (a, b) ∈ D ++ [(x, y)] ∧ (b, a) ∈ D ++ [(x, y)]).
Proof.
  intros Hinv Hcon Hok. destruct (record_key x y Hok) as (o & a & b & Hkey & Hab & Ho).
  assert (entry_cmp nm b a = Gt) as Hba by by rewrite entry_cmp_opp, Hab.
  assert (∀ u v, (u, v) ∈ D ++ [(x, y)] ↔ (u, v) ∈ D ∨ u = x ∧ v = y) as Hin.
  { intros u v. rewrite elem_of_app, list_elem_of_singleton. naive_solver. }
  unfold record_one. cbn [fst snd]. rewrite Hkey. destruct (pairs !! (a, b)) as [o'|] eqn:Hl.
  - apply Hinv in Hl as [_ Hl]. case_bool_decide as Hoo.
    + left. exists pairs. split; [done|]. subst o'.
      assert ((x, y) ∈ D) as Hxy by naive_solver. split.
      * intros u v w. rewrite (Hinv u v w), !Hin. naive_solver.
      * intros u v Hu Hv. apply Hin in Hu, Hv.
        apply (Hcon u v); [destruct Hu as [?|[-> ->]]; done|destruct Hv as [?|[-> ->]]; done].
    + right. exists a, b. split; [done|]. rewrite !Hin. naive_solver.
  - assert ((a, b) ∉ D ∧ (b, a) ∉ D) as [Hn1 Hn2].
    { split; intros HD.
      - assert (pairs !! (a, b) = Some Gt); [apply Hinv; auto|congruence].
      - assert (pairs !! (a, b) = Some Lt); [apply Hinv; auto|congruence]. }
    left. eexists. split; [done|]. split.
    + intros u v w. rewrite lookup_insert_Some, (Hinv u v w), !Hin. split.
      * intros [[[= <- <-] <-]|[Hne [Huv HD]]]; naive_solver.
      * intros [Huv [[-> [HD|[-> ->]]]|[-> [HD|[-> ->]]]]].
        -- right. split; [by intros [= -> ->]|auto].
        -- left. destruct Ho as [(-> & -> & ->)|(_ & -> & ->)]; [done|congruence].
        -- right. split; [by intros [= -> ->]|auto].
        -- left. destruct Ho as [(_ & -> & ->)|(-> & -> & ->)]; [congruence|done].
    + assert (x ≠ y) as Hne by apply Hok.
      assert ((x, y) ∉ D ∧ (y, x) ∉ D) as [Hn3 Hn4] by (destruct Ho as [(_ & -> & ->)|(_ & -> & ->)]; done).
      intros u v Hu Hv. apply Hin in Hu, Hv.
      destruct Hu as [Hu|[Hu1 Hu2]], Hv as [Hv|[Hv1 Hv2]]; subst; [by apply (Hcon u v)|done..].
Qed.

Lemma record_all_spec D l pairs :
  pairs_inv D pairs → consistent D → Forall pair_ok l →
  (∃ pairs', record_all l pairs = Ok pairs' ∧ consistent (D ++ l)) ∨
  (∃ a b, record_all l pairs = Err (Ordering (entry_display nm a) (entry_display nm b)) ∧
     (a, b) ∈ D ++ l ∧ (b, a) ∈ D ++ l).
Proof.
  revert D pairs. induction l as [|[x y] l IH]; intros D pairs Hinv Hcon Hl.
  { left. exists pairs. by rewrite List.app_nil_r. }
  apply Forall_cons in Hl as [Hxy Hl]. cbn [record_all].
  destruct (record_one_spec D x y pairs) as [(pairs1 & -> & Hinv1 & Hcon1)|(a & b & -> & Ha & Hb)]; [done..| |].
  - cbn [mbind outcome_bind]. rewrite snoc_mid. by apply IH.
  - right. exists a, b. split; [done|]. rewrite snoc_mid. split; apply elem_of_app; by left.
Qed.
End record.

(** ** Named precedences of a rule *)

(** The rule names the precedence [s]: inside some [reserved] when the flag is
    set. *)
Inductive names_precedence (s : StrId) : bool → tree → Prop :=
  | names_here m t : precedence m = PName s → names_precedence s false (TMetadata m t)
  | names_metadata b m t : names_precedence s b t → names_precedence s b (TMetadata m t)
  | names_seq b t l : t ∈ l → names_precedence s b t → names_precedence s b (TSeq l)
  | names_choice b t l : t ∈ l → names_precedence s b t → names_precedence s b (TChoice l)
  | names_repeat b t : names_precedence s b t → names_precedence s b (TRepeat t)
  | names_reserved b t ctx : names_precedence s b t → names_precedence s true (TReserved t ctx).

(** The names that the walk meets: it does not enter [reserved]. *)
Fixpoint tree_precs (t : tree) : list StrId :=
  match t with
  | TSeq l | TChoice l => concat (map tree_precs l)
  | TRepeat t => tree_precs t
  | TMetadata m t => (match precedence m with PName s => [s] | _ => [] end) ++ tree_precs t
  | _ => []
  end.
Lemma elem_of_tree_precs s t : s ∈ tree_precs t ↔ names_precedence s false t.
Proof.
  split.
  - revert t. apply (tree_size_ind (λ t, s ∈ tree_precs t → names_precedence s false t)).
    intros [| | | | |l|l|t| |m t|t ctx] IH; cbn; try (intros Hx; destruct (not_elem_of_nil _ Hx)).
    1-2: intros (t & Ht & Hs)%elem_of_concat_map; pose proof (tsum_elem _ _ Ht); unfold tsum in *;
      (eapply names_seq || eapply names_choice); [exact Ht|]; apply IH; [cbn; lia|done].
    + intros Hs. apply names_repeat, IH; [cbn; lia|done].
    + intros [Hs|Hs]%elem_of_app; [|apply names_metadata, IH; [cbn; lia|done]].
      apply names_here. destruct (precedence m); try destruct (not_elem_of_nil _ Hs).
      by apply list_elem_of_singleton in Hs as ->.
  - intros Hn. remember false as b eqn:Hb. induction Hn as [m t Hm|b m t _ IH|b t l Ht _ IH|b t l Ht _ IH|b t _ IH|b t ctx _ IH];
      cbn; [|rewrite elem_of_app; right; auto|apply elem_of_concat_map; eauto|apply elem_of_concat_map; eauto|auto|done].
    rewrite Hm. apply elem_of_app. left. apply list_elem_of_here.
Qed.

Section precedences.
Context {H : Type} (g : InputGrammar H) (nm : StrId → bytes).
Definition entry_in (e : PrecedenceEntry) : Prop := e ∈ concat (precedence_orderings g).
Context (nm_ok : ∀ e, entry_in e → resolves (pool g) (entry_id e) (nm (entry_id e))).
Context (nm_inj : ∀ a b, entry_in a → entry_in b → nm (entry_id a) = nm (entry_id b) → entry_id a = entry_id b).

Lemma pe_cmp_spec {E} a b : entry_in a → entry_in b → pe_cmp (E:=E) g a b = Ok (entry_cmp nm a b).
Proof.
  intros Ha%nm_ok Hb%nm_ok. destruct a, b; cbn in *; try done; by rewrite (Ha E), (Hb E).
Qed.
Lemma display_spec {E} a : entry_in a → display (E:=E) g a = Ok (entry_display nm a).
Proof. intros Ha%nm_ok. destruct a; cbn in *; by rewrite (Ha E). Qed.

Lemma orderings_inner_scan e l pairs :
  entry_in e → Forall entry_in l → orderings_inner g e l pairs = record_all nm (scan nm e l) pairs.
Proof.
  revert e pairs. induction l as [|y l IH]; intros e pairs He Hl; [done|]. apply Forall_cons in Hl as [Hy Hl].
  cbn [orderings_inner scan]. case_bool_decide; [by apply IH|]. rewrite pe_cmp_spec by done.
  cbn [record_all mbind outcome_bind]. unfold record_one. cbn [fst snd].
  destruct (entry_cmp nm e y); cbn [fst snd].
  all: destruct (pairs !! _) as [o|]; [case_bool_decide; cbn [negb]|]; cbn [mbind outcome_bind];
    try (by apply IH); rewrite !display_spec by done; done.
Qed.
Lemma orderings_list_scan l pairs :
  Forall entry_in l → orderings_list g l pairs = record_all nm (scan_all nm l) pairs.
Proof.
  revert pairs. induction l as [|e l IH]; intros pairs Hl; [done|]. apply Forall_cons in Hl as [He Hl].
  cbn [orderings_list scan_all]. rewrite record_all_app, orderings_inner_scan by done.
  destruct (record_all _ _ _); cbn [mbind outcome_bind]; try done. by apply IH.
Qed.
Lemma orderings_loop_scan ls pairs :
  Forall (Forall entry_in) ls → orderings_loop g ls pairs = record_all nm (concat (map (scan_all nm) ls)) pairs.
Proof.
  revert pairs. induction ls as [|l ls IH]; intros pairs Hls; [done|]. apply Forall_cons in Hls as [Hl Hls].
  cbn [orderings_loop map concat]. rewrite record_all_app, orderings_list_scan by done.
  destruct (record_all _ _ _); cbn [mbind outcome_bind]; try done. by apply IH.
Qed.

(** [x] is compared, as the earlier one, with [y]. *)
Definition compared (x y : PrecedenceEntry) : Prop :=
  ∃ l, l ∈ precedence_orderings g ∧ compared_in nm l x y.

Lemma entry_in_lists : Forall (Forall entry_in) (precedence_orderings g).
Proof.
  apply Forall_forall. intros l Hl. apply Forall_forall. intros e He. apply elem_of_concat. eauto.
Qed.
Lemma compared_scan x y :
  (x, y) ∈ concat (map (scan_all nm) (precedence_orderings g)) ↔ compared x y.
Proof.
  pose proof entry_in_lists as Hin. rewrite Forall_forall in Hin. rewrite elem_of_concat_map. split.
  - intros (l & Hl & Hxy). exists l. split; [done|]. by apply (scan_all_spec nm entry_in nm_inj); [apply Hin|].
  - intros (l & Hl & Hxy). exists l. split; [done|]. by apply (scan_all_spec nm entry_in nm_inj); [apply Hin|].
Qed.
Lemma comes_before_in x y : comes_before (precedence_orderings g) x y → entry_in x ∧ entry_in y.
Proof.
  intros (l & i & j & Hl & _ & Hx & Hy). split; apply elem_of_concat; exists l; (split; [done|]);
    by eapply list_elem_of_lookup_2.
Qed.

Lemma orderings_spec :
  (∃ pairs, orderings_loop g (precedence_orderings g) ∅ = Ok pairs ∧ ∀ x y, compared x y → ¬ compared y x) ∨
  (∃ x y, orderings_loop g (precedence_orderings g) ∅ = Err (Ordering (entry_display nm x) (entry_display nm y)) ∧
     compared x y ∧ compared y x).
Proof.
  rewrite orderings_loop_scan by apply entry_in_lists.
  set (D := concat (map (scan_all nm) (precedence_orderings g))).
  assert (∀ x y, (x, y) ∈ D ↔ compared x y) as HD by apply compared_scan.
  destruct (record_all_spec nm entry_in nm_inj [] D ∅) as [(pairs & -> & Hc)|(a & b & -> & Ha & Hb)].
  - intros a b o. rewrite lookup_empty. split; [done|]. intros [_ [[_ Hn]|[_ Hn]]]; by apply not_elem_of_nil in Hn.
  - intros x y Hn. by apply not_elem_of_nil in Hn.
  - apply Forall_forall. intros [x y] Hxy%HD. destruct Hxy as (l & Hl & Hcmp).
    pose proof (compared_comes_before _ _ _ _ _ Hl Hcmp) as [? ?]%comes_before_in.
    split_and!; [done..|]. by destruct Hcmp as (? & ? & _ & _ & ? & _).
  - left. exists pairs. split; [done|]. intros x y Hxy%HD Hyx%HD. by apply (Hc x y).
  - right. exists a, b. by rewrite <- !HD.
Qed.

Definition declared (s : StrId) : Prop := entry_in (PEName s).
Lemma elem_of_precedence_names s : s ∈ precedence_names g ↔ declared s.
Proof.
  unfold precedence_names, declared, entry_in. rewrite elem_of_list_to_set, list_elem_of_omap. split.
  - intros ([x|x] & Hx & [= ->]). done.
  - intros Hs. by exists (PEName s).
Qed.

Lemma precedence_walk_spec n v stack ts :
  Forall2 (denotes (pool g)) stack ts → tsum ts ≤ n → (∃ s, resolves (pool g) (var_name v) s) →
  (∀ s, s ∈ concat (map tree_precs ts) → ∃ b, resolves (pool g) s b) →
  (precedence_walk n g (precedence_names g) v stack = Ok tt ∧ ∀ s, s ∈ concat (map tree_precs ts) → declared s) ∨
  (∃ s ps rs, precedence_walk n g (precedence_names g) v stack = Err (Undeclared ps rs) ∧
     s ∈ concat (map tree_precs ts) ∧ ¬ declared s ∧ resolves (pool g) s ps ∧ resolves (pool g) (var_name v) rs).
Proof.
  intros Hs Hn Hv. revert stack ts Hs Hn. induction n as [|n IH]; intros stack ts Hs Hn Hr;
    destruct Hs as [|id t stack ts Hid Hs]; try (left; split; [done|]; intros s Hx; by apply not_elem_of_nil in Hx).
  { pose proof (tree_size_pos t). cbn in Hn. lia. }
  change (tsum (t :: ts)) with (tree_size t + tsum ts) in Hn. pose proof (tree_size_pos t).
  destruct (denotes_node_Ok (E:=ValidatePrecedenceError) _ _ _ Hid) as (nd & Hnd & Ht).
  cbn [precedence_walk]. rewrite Hnd. cbn [mbind outcome_bind].
  (* A step that replaces the top by parts with the same precedences. *)
  assert (∀ stack' ts', Forall2 (denotes (pool g)) stack' ts' → tsum ts' ≤ n →
    (∀ s, s ∈ concat (map tree_precs ts') ↔ s ∈ concat (map tree_precs (t :: ts))) →
    (precedence_walk n g (precedence_names g) v stack' = Ok tt ∧
       ∀ s, s ∈ concat (map tree_precs (t :: ts)) → declared s) ∨
    (∃ s ps rs, precedence_walk n g (precedence_names g) v stack' = Err (Undeclared ps rs) ∧
       s ∈ concat (map tree_precs (t :: ts)) ∧ ¬ declared s ∧ resolves (pool g) s ps ∧
       resolves (pool g) (var_name v) rs)) as Hstep.
  { intros stack' ts' Hf Hsz Heq. destruct (IH stack' ts' Hf Hsz) as [[-> Hd]|(s & ps & rs & -> & Hin & ?)].
    - intros s Hx%Heq. by apply Hr.
    - left. split; [done|]. intros s Hx%Heq. by apply Hd.
    - right. exists s, ps, rs. by rewrite <- Heq. }
  assert (∀ s, s ∈ concat (map tree_precs (t :: ts)) ↔ s ∈ tree_precs t ∨ s ∈ concat (map tree_precs ts)) as Hcons.
  { intros s. cbn. by rewrite elem_of_app. }
  destruct nd as [|s|q f|s|k i|r|r|id'| |mid id'|id' ctx]; cbn in Ht;
    try (destr_ex; subst; apply (Hstep stack ts); [done|lia|]; intros; rewrite Hcons; cbn; rewrite elem_of_nil; tauto).
  1-2: destruct Ht as (cs & us & Hc & _ & Hus & ->);
    destruct (children_pushed (E:=ValidatePrecedenceError) _ _ _ _ stack ts Hc Hus Hs) as [-> Hf];
    cbn [mbind outcome_bind]; apply (Hstep _ _ Hf); [rewrite tsum_app, tsum_rev; cbn in Hn; unfold tsum in *; lia|];
    intros s; cbn; rewrite map_app, concat_app, !elem_of_app, !elem_of_concat_map; by setoid_rewrite elem_of_rev.
  - destruct Ht as (u & Hu & ->). apply (Hstep (id' :: stack) (u :: ts)); [by constructor| |done].
    cbn in Hn. unfold tsum in *. cbn. lia.
  - destruct Ht as (m & u & Hm & Hu & ->). unfold get_params. erewrite vec_get_Some by done. cbn [mbind outcome_bind].
    assert (Forall2 (denotes (pool g)) (id' :: stack) (u :: ts)) as Hf by by constructor.
    assert (tsum (u :: ts) ≤ n) as Hsz by (cbn in Hn; unfold tsum in *; cbn; lia).
    destruct (precedence m) as [|z|s] eqn:Hp;
      try (apply (Hstep _ _ Hf Hsz); intros s; rewrite Hcons; cbn; rewrite Hp, elem_of_app; done).
    case_bool_decide as Hs'; cbn [negb].
    + apply elem_of_precedence_names in Hs'. destruct (IH _ _ Hf Hsz) as [[-> Hd]|(s' & ps & rs & -> & Hin & ?)].
      * intros s' Hx. apply Hr, Hcons. cbn. rewrite Hp. cbn in Hx. rewrite elem_of_app in Hx |- *. tauto.
      * left. split; [done|]. intros s'. rewrite Hcons. cbn. rewrite Hp. cbn in Hd. setoid_rewrite elem_of_app in Hd.
        rewrite elem_of_app, list_elem_of_singleton. intros [[->|?]|?]; auto.
      * right. exists s', ps, rs. split; [done|]. split; [|done]. rewrite Hcons. cbn. rewrite Hp.
        cbn in Hin. rewrite elem_of_app in Hin. rewrite elem_of_app. tauto.
    + rewrite elem_of_precedence_names in Hs'. right.
      destruct (Hr s) as [ps Hps]; [rewrite Hcons; cbn; rewrite Hp; set_solver|]. destruct Hv as [rs Hrs].
      exists s, ps, rs. rewrite (Hps ValidatePrecedenceError), (Hrs ValidatePrecedenceError). cbn [mbind outcome_bind].
      split_and!; [done| |done..]. rewrite Hcons. cbn. rewrite Hp. set_solver.
Qed.

Lemma precedence_loop_spec n vs ts :
  Forall2 (λ v t, denotes (pool g) (var_root v) t) vs ts → Forall (λ t, tree_size t ≤ n) ts →
  (∀ v, v ∈ vs → ∃ s, resolves (pool g) (var_name v) s) →
  (∀ t s, t ∈ ts → s ∈ tree_precs t → ∃ b, resolves (pool g) s b) →
  (precedence_loop n g (precedence_names g) vs = Ok tt ∧ ∀ t s, t ∈ ts → s ∈ tree_precs t → declared s) ∨
  (∃ i v t s ps rs, precedence_loop n g (precedence_names g) vs = Err (Undeclared ps rs) ∧
     vs !! i = Some v ∧ ts !! i = Some t ∧ s ∈ tree_precs t ∧ ¬ declared s ∧
     resolves (pool g) s ps ∧ resolves (pool g) (var_name v) rs).
Proof.
  induction 1 as [|v t vs ts Ht Hf IH]; intros Hn Hv Hr.
  { left. split; [done|]. intros t s Hx. by apply not_elem_of_nil in Hx. }
  apply Forall_cons in Hn as [Hnt Hn]. cbn [precedence_loop].
  assert (∀ s, s ∈ concat (map tree_precs [t]) ↔ s ∈ tree_precs t) as Hone.
  { intros s. cbn. by rewrite List.app_nil_r. }
  destruct (precedence_walk_spec n v [var_root v] [t]) as [[-> Hd]|(s & ps & rs & -> & Hin & ? & ? & ?)].
  - by repeat constructor.
  - unfold tsum. cbn. lia.
  - apply Hv, list_elem_of_here.
  - intros s Hs%Hone. apply (Hr t s); [apply list_elem_of_here|done].
  - cbn [mbind outcome_bind].
    destruct IH as [[-> Hd']|(i & v' & t' & s & ps & rs & -> & ? & ? & ?)]; [done| | | |].
    + intros v' Hv'. by apply Hv, list_elem_of_further.
    + intros t' s Ht'. apply Hr. by apply list_elem_of_further.
    + left. split; [done|]. intros t' s [->|Ht']%elem_of_cons Hs; [by apply Hd, Hone|by apply (Hd' t')].
    + right. by exists (S i), v', t', s, ps, rs.
  - right. exists 0, v, t, s, ps, rs. by rewrite <- Hone.
Qed.

Lemma validate_precedences_spec n ts :
  Forall2 (λ v t, denotes (pool g) (var_root v) t) (variables g) ts → Forall (λ t, tree_size t ≤ n) ts →
  (∀ v, v ∈ variables g → ∃ s, resolves (pool g) (var_name v) s) →
  (∀ t s, t ∈ ts → s ∈ tree_precs t → ∃ b, resolves (pool g) s b) →
  (validate_precedences n g = Ok tt ∧ (∀ x y, compared x y → ¬ compared y x) ∧
     ∀ t s, t ∈ ts → s ∈ tree_precs t → declared s) ∨
  (∃ x y, validate_precedences n g = Err (Ordering (entry_display nm x) (entry_display nm y)) ∧
     compared x y ∧ compared y x ∧
     x ≠ y ∧ comes_before (precedence_orderings g) x y ∧ comes_before (precedence_orderings g) y x) ∨
  (∃ i v t s ps rs, validate_precedences n g = Err (Undeclared ps rs) ∧ (∀ x y, compared x y → ¬ compared y x) ∧
     variables g !! i = Some v ∧ ts !! i = Some t ∧ s ∈ tree_precs t ∧ ¬ declared s ∧
     resolves (pool g) s ps ∧ resolves (pool g) (var_name v) rs).
Proof.
  intros Hf Hn Hv Hr. unfold validate_precedences.
  destruct orderings_spec as [(pairs & -> & Hc)|(x & y & -> & Hxy & Hyx)]; cbn [mbind outcome_bind].
  - destruct (precedence_loop_spec n _ ts Hf Hn Hv Hr) as [[-> Hd]|(i & v & t & s & ps & rs & -> & ?)].
    + by left.
    + right. right. exists i, v, t, s, ps, rs. done.
  - right. left. exists x, y. split; [done|]. split; [done|]. split; [done|].
    destruct Hxy as (l & Hl & Hxy), Hyx as (l' & Hl' & Hyx). split; [by destruct Hxy as (? & ? & _ & _ & ? & _)|]. split; [exact (compared_comes_before _ _ _ _ _ Hl Hxy)|exact (compared_comes_before _ _ _ _ _ Hl' Hyx)].
Qed.
(** What the check is for: no entry comes both before and after another one,
    and every named precedence of a rule is declared. *)
Definition precedences_valid (ts : list tree) : Prop :=
  (∀ x y, x ≠ y → comes_before (precedence_orderings g) x y → ¬ comes_before (precedence_orderings g) y x) ∧
  ∀ t s b, t ∈ ts → names_precedence s b t → declared s.

Lemma names_any t s : s ∈ tree_precs t → ∃ b, names_precedence s b t.
Proof. intros Hs%elem_of_tree_precs. by exists false. Qed.
Lemma plainly_compared_in x y : x ≠ y → plainly_before nm (precedence_orderings g) x y → compared x y.
Proof. intros Hne (l & i & j & Hl & Hij & Hi & Hj & Hb). exists l. split; [done|]. by eapply plainly_compared. Qed.
Lemma short_plainly_before x y :
  Forall (λ l, length l ≤ 2) (precedence_orderings g) → comes_before (precedence_orderings g) x y →
  plainly_before nm (precedence_orderings g) x y.
Proof.
  intros Hs (l & i & j & Hl & Hij & Hi & Hj). rewrite Forall_forall in Hs. specialize (Hs l Hl).
  apply lookup_lt_Some in Hj as Hlt. exists l, i, j. split_and!; [done..|]. lia.
Qed.

(** C20: the check of precedences ends, and never rejects a valid grammar: an
    ordering error spells two different entries that do come one before the
    other in the declared lists, both ways round, and an undeclared
    precedence is named by the rule that the error spells, and is not declared.
    When it succeeds, every precedence named outside [reserved] is declared,
    and no two entries contradict each other in places where nothing between
    them sorts before the first of them; so it accepts exactly the valid
    grammars among those whose orderings have at most two entries and whose
    [reserved] rules name no precedence.  In general it is not complete: see
    [conflicting_orderings_accepted] and [reserved_precedence_unchecked]. *)
Theorem validate_precedences_correct n ts :
  Forall2 (λ v t, denotes (pool g) (var_root v) t) (variables g) ts → Forall (λ t, tree_size t ≤ n) ts →
  (∀ v, v ∈ variables g → ∃ s, resolves (pool g) (var_name v) s) →
  (∀ t s, t ∈ ts → names_precedence s false t → ∃ str, resolves (pool g) s str) →
  ((validate_precedences n g = Ok tt ∧
      (∀ t s, t ∈ ts → names_precedence s false t → declared s) ∧
      (∀ x y, x ≠ y → plainly_before nm (precedence_orderings g) x y → ¬ plainly_before nm (precedence_orderings g) y x)) ∨
   (∃ x y, validate_precedences n g = Err (Ordering (entry_display nm x) (entry_display nm y)) ∧
      x ≠ y ∧ comes_before (precedence_orderings g) x y ∧ comes_before (precedence_orderings g) y x) ∨
   (∃ i v t s ps rs, validate_precedences n g = Err (Undeclared ps rs) ∧
      variables g !! i = Some v ∧ ts !! i = Some t ∧ (∃ b, names_precedence s b t) ∧ ¬ declared s ∧
      resolves (pool g) s ps ∧ resolves (pool g) (var_name v) rs)) ∧
  (precedences_valid ts → validate_precedences n g = Ok tt) ∧
  (Forall (λ l, length l ≤ 2) (precedence_orderings g) → (∀ t s, t ∈ ts → ¬ names_precedence s true t) →
   validate_precedences n g = Ok tt → precedences_valid ts).
Proof.
  intros Hf Hn Hv Hr.
  destruct (validate_precedences_spec n ts Hf Hn Hv) as [(-> & Hc & Hd)|[(x & y & -> & _ & _ & Hne & Hxy & Hyx)|
    (i & v & t & s & ps & rs & -> & _ & Hvi & Hti & Hs & Hnd & Hps & Hrs)]].
  - intros t s Ht Hs%elem_of_tree_precs. by eapply Hr.
  - assert (∀ x y, x ≠ y → plainly_before nm (precedence_orderings g) x y → ¬ plainly_before nm (precedence_orderings g) y x)
      as Hp.
    { intros x y Hne Hxy Hyx. apply (Hc x y); apply plainly_compared_in; done. }
    assert (∀ t s, t ∈ ts → names_precedence s false t → declared s) as Hdec.
    { intros t s Ht Hs%elem_of_tree_precs. by eapply Hd. }
    split; [left; by split_and!|]. split; [done|]. intros Hshort Hnr _. split.
    + intros x y Hne Hxy Hyx. by apply (Hp x y Hne); apply short_plainly_before.
    + intros t s [] Ht Hs; [by destruct (Hnr t s Ht)|by eapply Hdec].
  - split; [right; left; by exists x, y|]. split; [|done]. intros [Hval _]. by destruct (Hval x y Hne Hxy).
  - split; [right; right; exists i, v, t, s, ps, rs; split_and!; try done; by apply names_any|]. split; [|done].
    intros [_ Hval]. destruct Hnd. apply names_any in Hs as [b Hs]. eapply Hval; [|exact Hs].
    by eapply list_elem_of_lookup_2.
Qed.
End precedences.

(** ** Examples *)

(** Ids 1, 2, 3 name ["a"], ["b"], ["c"]. *)
Definition example_strings : StrPool unit :=
  mkPool [97; 98; 99]%N [mkSpan 0 1; mkSpan 1 2; mkSpan 2 3] tt.
Definition example_name (id : StrId) : bytes := [(96 + id)%N].
Definition example_grammar (nds : list Rule) (cs : list RuleId) (ms : list MetadataParams)
    (vs : list Variable_) (orderings : list (list PrecedenceEntry)) : InputGrammar unit :=
  mkInputGrammar (mkRulePool nds cs ms example_strings) 1 vs [] [] [] [] [] [] None orderings.

(** [a -> b | c], [b -> prec(1, a)]. *)
Definition example_recursive : InputGrammar unit :=
  example_grammar [NamedSymbol 2; NamedSymbol 3; Choice (mkRange 0 2); NamedSymbol 1; Metadata 0 3] [0; 1]%N
    [with_precedence default_params (PInteger 1)] [mkVariable 1 2; mkVariable 2 4] [].

Lemma validate_indirect_recursion_correct_witness :
  ∃ c ss, validate_indirect_recursion (M:=list (StrId * list StrId)) 5 example_recursive = Err ss ∧
    Forall2 (resolves (pool example_recursive)) c ss ∧ closed_walk (single_production example_recursive) c.
Proof.
  destruct (validate_indirect_recursion_correct (M:=list (StrId * list StrId)) 5 example_recursive
    [TChoice [TNamed 2; TNamed 3]; TMetadata (with_precedence default_params (PInteger 1)) (TNamed 1)])
    as [[Hok _]|(c & ss & He & Hss & Hc & _)].
  - constructor; [exists 5; reflexivity|constructor; [exists 5; reflexivity|constructor]].
  - repeat constructor.
  - cbn. lia.
  - intros v Hv. exists (example_name (var_name v)). intros E. cbn in Hv. apply elem_of_cons in Hv as [->|Hv]; [reflexivity|].
    apply elem_of_cons in Hv as [->|Hv]; [reflexivity|]. by apply not_elem_of_nil in Hv.
  - vm_compute in Hok. discriminate Hok.
  - exists c, ss. split; [exact He|]. exact (conj Hss Hc).
Defined.

(** The search does not see a single symbol inside [reserved], a repetition
    or a sequence whose other parts can be empty: [b -> a] together with each of
    [a -> reserved(b)], [a -> repeat1(b)] and [a -> seq(b, choice(c, blank))]. *)
Definition example_hidden (nds : list Rule) (root : RuleId) (cs : list RuleId) : InputGrammar unit :=
  example_grammar ([NamedSymbol 2; NamedSymbol 1] ++ nds) cs [] [mkVariable 1 root; mkVariable 2 1] [].
Definition hidden_reserved := example_hidden [Reserved 0 3] 2 [].
Definition hidden_repeat := example_hidden [Repeat 0] 2 [].
Definition hidden_seq := example_hidden [NamedSymbol 3; Blank; Choice (mkRange 0 2); Seq (mkRange 2 2)] 5 [2; 3; 0; 4]%N.

Lemma hidden_cycle g root t :
  variables g = [mkVariable 1 root; mkVariable 2 1] → denotes (pool g) root t → denotes (pool (H:=unit) g) 1 (TNamed 1) →
  yields t [TNamed 2] → tc (single_production g) 1%N 1%N.
Proof.
  intros Hv Ht H1 Hy. apply (tc_l _ 1%N 2%N).
  - exists (mkVariable 1 root), t. rewrite Hv. split_and!; [done..|lia].
  - apply tc_once. exists (mkVariable 2 1), (TNamed 1). rewrite Hv. split_and!; [done|done|by constructor|lia].
Qed.
Lemma indirect_recursion_missed :
  (validate_indirect_recursion (M:=list (StrId * list StrId)) 9 hidden_reserved = Ok tt ∧
     tc (single_production hidden_reserved) 1%N 1%N) ∧
  (validate_indirect_recursion (M:=list (StrId * list StrId)) 9 hidden_repeat = Ok tt ∧
     tc (single_production hidden_repeat) 1%N 1%N) ∧
  (validate_indirect_recursion (M:=list (StrId * list StrId)) 9 hidden_seq = Ok tt ∧
     tc (single_production hidden_seq) 1%N 1%N).
Proof.
  assert (yields (TNamed 2) [TNamed 2]) as Hb by by constructor.
  split_and!; try (vm_compute; reflexivity).
  - apply (hidden_cycle _ 2 (TReserved (TNamed 2) 3)); [done|by exists 5|by exists 5|by constructor].
  - apply (hidden_cycle _ 2 (TRepeat (TNamed 2))); [done|by exists 5|by exists 5|by constructor].
  - apply (hidden_cycle _ 5 (TSeq [TNamed 2; TChoice [TNamed 3; TBlank]])); [done|by exists 5|by exists 5|].
    apply (yields_seq_cons (TNamed 2) _ [TNamed 2] []); [done|].
    apply (yields_seq_cons (TChoice [TNamed 3; TBlank]) [] [] []); [|constructor].
    apply (yields_choice TBlank); [apply list_elem_of_further, list_elem_of_here|constructor].
Qed.

(** A rule [a] with the precedence ["c"], which no ordering declares. *)
Definition example_undeclared : InputGrammar unit :=
  example_grammar [NamedSymbol 2; Metadata 0 0] [] [with_precedence default_params (PName 3)] [mkVariable 1 1]
    [[PEName 1; PESymbol 2]].

Lemma validate_precedences_correct_witness :
  validate_precedences 2 example_undeclared = Err (Undeclared [99]%N [97]%N) ∧
  ∃ s, ¬ declared example_undeclared s ∧ resolves (pool example_undeclared) s [99]%N.
Proof.
  destruct (validate_precedences_correct example_undeclared example_name) with (n := 2)
    (ts := [TMetadata (with_precedence default_params (PName 3)) (TNamed 2)])
    as [[[Hok _]|[(x & y & He & _)|(i & v & t & s & ps & rs & He & _ & _ & _ & Hd & Hps & _)]] _].
  - intros e He E. apply elem_of_cons in He as [->|He]; [reflexivity|].
    apply elem_of_cons in He as [->|He]; [reflexivity|]. by apply not_elem_of_nil in He.
  - intros x y _ _ [= Hxy]. lia.
  - constructor; [exists 5; reflexivity|constructor].
  - repeat constructor.
  - intros v Hv. exists [97%N]. intros E. apply elem_of_cons in Hv as [->|Hv]; [reflexivity|]. by apply not_elem_of_nil in Hv.
  - intros t s Ht Hs. apply elem_of_tree_precs in Hs. apply elem_of_cons in Ht as [->|Ht]; [|by apply not_elem_of_nil in Ht].
    apply elem_of_cons in Hs as [->|Hs]; [|by apply not_elem_of_nil in Hs]. exists [99%N]. intros E. reflexivity.
  - vm_compute in Hok. discriminate Hok.
  - vm_compute in He. discriminate He.
  - split; [vm_compute; reflexivity|]. exists s. split; [exact Hd|].
    assert (ps = [99%N]) as <- by (vm_compute in He; congruence). exact Hps.
Defined.

(** The exchange of [entry1] and [entry2] outlives its iteration: after
    [b, a, c], where [b] and [a] are exchanged, [c] is compared with [a] only,
    and the contradicting list [c, b] is accepted. *)
Definition example_missed : InputGrammar unit :=
  example_grammar [Blank] [] [] [mkVariable 1 0] [[PEName 2; PEName 1; PEName 3]; [PEName 3; PEName 2]].
Lemma conflicting_orderings_accepted :
  validate_precedences 1 example_missed = Ok tt ∧
  comes_before (precedence_orderings example_missed) (PEName 2) (PEName 3) ∧
  comes_before (precedence_orderings example_missed) (PEName 3) (PEName 2).
Proof.
  split; [vm_compute; reflexivity|]. split.
  - exists [PEName 2; PEName 1; PEName 3], 0, 2. split_and!; [apply list_elem_of_here|lia|done..].
  - exists [PEName 3; PEName 2], 0, 1. split_and!; [apply list_elem_of_further, list_elem_of_here|lia|done..].
Qed.

(** A precedence inside [reserved] is not checked. *)
Lemma reserved_precedence_unchecked :
  validate_precedences 3
    (example_grammar [NamedSymbol 2; Metadata 0 0; Reserved 1 1] [] [with_precedence default_params (PName 3)]
       [mkVariable 1 2] []) = Ok tt.
Proof. vm_compute. reflexivity. Qed.
