(* ===== verification/Flatten.v ===== *)
(** * [crates/generate/src/prepare_grammar/flatten_grammar.rs]: rules become
    productions

    A rule is walked once for every combination of alternatives: a cursor holds
    the alternative taken at each choice of the walk and is advanced like a
    counter whose digits have different bases.  Every walk that reaches its end
    gives a production, unless the variable has it already. *)
From S2P Require Import Prelude Symbols TokenSet StrPool Rules RuleTrees Grammars.

Inductive FlattenGrammarError :=
  | NoReservedWordSet (name : bytes)
  | TooManyReservedWordSets (count : nat)
  | EmptyString (name : bytes)
  | RecursiveInline (name : bytes)
  | NoReachableProductions (name : bytes).

(** [extract_tokens.rs]: the metadata of the syntax grammar. *)
Record ExtractedGrammarMeta := mkMeta {
  kinds : list VariableType;
  em_extra_symbols : list Symbol;
  em_external_tokens : list ExternalToken;
  em_reserved_sets : list (StrId * list Symbol);
  supertypes : list Symbol;
  conflicts : list (list Symbol);
  inline : list Symbol;
  word : option Symbol;
}.

Record FlattenCtx := mkCtx {
  prec : Precedence;
  assoc : option Associativity;
  ctx_alias : option Alias;
  ctx_field : option StrId;
  ctx_reserved : N;
}.
Definition default_ctx : FlattenCtx := mkCtx PNone None None None 0.

(** ** The cursor *)
Record ChoiceCursor := mkCursor { decisions : list N; arities : list N; depth : nat }.

Definition cursor_reset (c : ChoiceCursor) : ChoiceCursor := mkCursor [] [] 0.
Definition begin_path (c : ChoiceCursor) : ChoiceCursor := mkCursor (decisions c) [] 0.
(** The digit at a depth: [self.decisions.get(depth).copied().unwrap_or(0)]. *)
Definition decision (ds : list N) (depth : nat) : N := default 0%N (ds !! depth).
Definition select (c : ChoiceCursor) (len : N) : N * ChoiceCursor :=
  (decision (decisions c) (depth c), mkCursor (decisions c) (arities c ++ [len]) (S (depth c))).

(** [Vec::resize]. *)
Definition vec_resize {A} (l : list A) (n : nat) (x : A) : list A := take n l ++ replicate (n - length l) x.

(** [for depth in (0..d).rev()]. *)
Fixpoint advance_loop (ds ars : list N) (d : nat) : option (list N) :=
  match d with
  | O => None
  | S d =>
      let selected := decision ds d in
      if (selected + 1 <? default 0 (ars !! d))%N
      then Some (<[d := (selected + 1)%N]> (vec_resize ds (S d) 0%N))
      else advance_loop ds ars d
  end.
Definition advance (c : ChoiceCursor) : bool * ChoiceCursor :=
  match advance_loop (decisions c) (arities c) (length (arities c)) with
  | Some ds => (true, mkCursor ds (arities c) (depth c))
  | None => (false, c)
  end.

(** [as u16]. *)
Definition wrap_u16 (n : N) : N := (n mod 65536)%N.

(** ** The walk *)
Record FlattenState := mkFlatten {
  fs_steps : list ProductionStep;
  choices : ChoiceCursor;
  dyn_prec : Z;
  dead : bool;
}.
Definition default_state : FlattenState := mkFlatten [] (mkCursor [] [] 0) 0 false.
Definition reset_path (st : FlattenState) : FlattenState := mkFlatten [] (begin_path (choices st)) 0 false.
Definition reset_variable (st : FlattenState) : FlattenState :=
  reset_path (mkFlatten (fs_steps st) (cursor_reset (choices st)) (dyn_prec st) (dead st)).

Definition push_step (st : FlattenState) (k : SymbolType) (i : N) (ctx : FlattenCtx) : FlattenState :=
  mkFlatten
    (fs_steps st ++ [pack (mkSymbol k i) (prec ctx) (assoc ctx) (ctx_alias ctx) (ctx_field ctx) (ctx_reserved ctx)])
    (choices st) (dyn_prec st) (dead st).
(** [self.steps.last_mut().unwrap()]. *)
Definition update_last {E} (st : FlattenState) (f : ProductionStep → ProductionStep) : outcome E FlattenState :=
  match last (fs_steps st) with
  | Some s => Ok (mkFlatten (removelast (fs_steps st) ++ [f s]) (choices st) (dyn_prec st) (dead st))
  | None => Panic
  end.
Definition restore_outer_prec {E} (st : FlattenState) (outer : Precedence) : outcome E FlattenState :=
  update_last st (λ s, set_precedence s outer).
Definition restore_outer_assoc {E} (st : FlattenState) (outer : option Associativity) : outcome E FlattenState :=
  update_last st (λ s, set_associativity s outer).

Definition set_dead (st : FlattenState) : FlattenState := mkFlatten (fs_steps st) (choices st) (dyn_prec st) true.
Definition set_choices (st : FlattenState) (c : ChoiceCursor) : FlattenState :=
  mkFlatten (fs_steps st) c (dyn_prec st) (dead st).

(** [i32::abs], wrapping at the least value. *)
Definition i32_abs (z : Z) : Z := if (z =? -2147483648)%Z then z else Z.abs z.

(** The context inside a metadata node, and the dynamic precedence. *)
Definition inner_ctx (m : MetadataParams) (ctx : FlattenCtx) : FlattenCtx :=
  mkCtx (if bool_decide (precedence m = PNone) then prec ctx else precedence m)
        (match associativity m with Some a => Some a | None => assoc ctx end)
        (match alias m with Some a => Some a | None => ctx_alias ctx end)
        (match Symbols.field m with Some f => Some f | None => ctx_field ctx end)
        (ctx_reserved ctx).
Definition raise_dyn_prec (m : MetadataParams) (st : FlattenState) : FlattenState :=
  mkFlatten (fs_steps st) (choices st)
    (if (i32_abs (dyn_prec st) <? i32_abs (dynamic_precedence m))%Z then dynamic_precedence m else dyn_prec st)
    (dead st).
(** What follows the walk of a metadata node's rule. *)
Definition leave_metadata {E} (m : MetadataParams) (ctx : FlattenCtx) (at_end did_push : bool) (st : FlattenState) :
    outcome E FlattenState :=
  if did_push && negb at_end then
    st ← (if bool_decide (precedence m = PNone) then Ok st else restore_outer_prec st (prec ctx));
    if bool_decide (associativity m = None) then Ok st else restore_outer_assoc st (assoc ctx)
  else Ok st.

(** [for (i, &child) in children.iter().enumerate()]: the last child is at the
    end when the sequence is. *)
Definition is_nil {A} (l : list A) : bool := match l with [] => true | _ => false end.
Fixpoint apply_each {E} (f : RuleId → bool → FlattenState → outcome E (bool * FlattenState)) (at_end : bool)
    (children : list RuleId) (did_push : bool) (st : FlattenState) : outcome E (bool * FlattenState) :=
  match children with
  | [] => Ok (did_push, st)
  | child :: rest =>
      '(b, st) ← f child (at_end && is_nil rest) st;
      if dead st then Ok (did_push || b, st) else apply_each f at_end rest (did_push || b) st
  end.

(** [FxHashMap<StrId, u16>]: [std]'s map under another hash function. *)
Notation reserved_map := (gmap StrId N) (only parsing).

Section flatten.
Context {H : Type}.
Implicit Types (p : RulePool H) (g : InputGrammar H).

Fixpoint apply (n : nat) p (reserved_ids : reserved_map) (id : RuleId) (ctx : FlattenCtx) (at_end : bool)
    (st : FlattenState) : outcome FlattenGrammarError (bool * FlattenState) :=
  match n with
  | O => OutOfFuel
  | S n =>
      nd ← node p id;
      match nd with
      | Sym k i => Ok (true, push_step st k i ctx)
      | Seq r =>
          children ← child_slice p r;
          apply_each (λ child at_end st, apply n p reserved_ids child ctx at_end st) at_end children false st
      | Choice r =>
          if (rlen r =? 0)%N then Ok (false, set_dead st)
          else
            let '(selected, c) := select (choices st) (rlen r) in
            let st := set_choices st c in
            children ← child_slice p r;
            child ← vec_get children (N.to_nat selected);
            apply n p reserved_ids child ctx at_end st
      | REof => Ok (true, push_step st (kind end_) (index end_) ctx)
      | Metadata pid rule =>
          m ← get_params p pid;
          let st := raise_dyn_prec m st in
          '(did_push, st) ← apply n p reserved_ids rule (inner_ctx m ctx) at_end st;
          st ← leave_metadata m ctx at_end did_push st;
          Ok (did_push, st)
      | Reserved rule name =>
          match reserved_ids !! name with
          | None => s ← resolve (str_pool p) name; Err (NoReservedWordSet s)
          | Some reserved =>
              let inner := mkCtx (prec ctx) (assoc ctx) (ctx_alias ctx) (ctx_field ctx) reserved in
              apply n p reserved_ids rule inner at_end st
          end
      | _ => Ok (false, st)
      end
  end.

(** ** Emitting productions *)
Definition position {A} (f : A → bool) (l : list A) : option nat := fst <$> list_find (λ x, f x = true) l.

(** The loop of [emit_ready]: is the production there already? *)
Fixpoint emitted {E} (st : FlattenState) (steps : list ProductionStep) (ps : list Production)
    (eof : bool) : outcome E bool :=
  match ps with
  | [] => Ok false
  | q :: ps =>
      if (prod_dynamic_precedence q =? dyn_prec st)%Z && bool_decide (requires_eof_lookahead q = eof) then
        let '(a, b) := step_range q in
        s ← slice steps a b;
        if bool_decide (s = fs_steps st) then Ok true else emitted st steps ps eof
      else emitted st steps ps eof
  end.

Definition emit_ready {E} (st : FlattenState) (out : ProductionStore) (prod_start : N) (eof : bool) :
    outcome E ProductionStore :=
  ps ← slice (st_productions out) (N.to_nat prod_start) (length (st_productions out));
  found ← emitted st (st_steps out) ps eof;
  Ok (if found : bool then out
      else mkStore (st_steps out ++ fs_steps st)
             (st_productions out ++
                [mkProduction (as_u32 (length (st_steps out))) (as_u32 (length (fs_steps st))) (dyn_prec st) eof])
             (st_var_prods out)).

(** The result of [emit] with the updated state and store. *)
Definition emit {E} (st : FlattenState) (out : ProductionStore) (prod_start : N) :
    outcome E (bool * FlattenState * ProductionStore) :=
  match position (λ s, bool_decide (step_symbol s = end_)) (fs_steps st) with
  | None => out ← emit_ready st out prod_start false; Ok (true, st, out)
  | Some eof_index =>
      if negb (Nat.eqb eof_index (length (fs_steps st) - 1)) then Ok (false, st, out)
      else
        let st := mkFlatten (removelast (fs_steps st)) (choices st) (dyn_prec st) (dead st) in
        out ← emit_ready st out prod_start true; Ok (true, st, out)
  end.

(** The [loop] over the paths of one variable, bounded by [m] paths. *)
Fixpoint path_loop (m n : nat) p (reserved_ids : reserved_map) (root : RuleId) (prod_start : N)
    (dropped_for_eof : bool) (st : FlattenState) (out : ProductionStore) :
    outcome FlattenGrammarError (bool * FlattenState * ProductionStore) :=
  match m with
  | O => OutOfFuel
  | S m =>
      '(_, st) ← apply n p reserved_ids root default_ctx true st;
      '(dropped_for_eof, st, out) ←
        (if negb (dead st) then
           '(b, st, out) ← emit st out prod_start; Ok (dropped_for_eof || negb b, st, out)
         else Ok (dropped_for_eof, st, out));
      let '(more, c) := advance (choices st) in
      let st := set_choices st c in
      if negb more then Ok (dropped_for_eof, st, out)
      else path_loop m n p reserved_ids root prod_start dropped_for_eof (reset_path st) out
  end.

Fixpoint flatten_variables (m n : nat) p (reserved_ids : reserved_map) (vs : list Variable_)
    (st : FlattenState) (out : ProductionStore) : outcome FlattenGrammarError (FlattenState * ProductionStore) :=
  match vs with
  | [] => Ok (st, out)
  | v :: vs =>
      let prod_start := as_u32 (length (st_productions out)) in
      '(dropped_for_eof, st, out) ← path_loop m n p reserved_ids (var_root v) prod_start false (reset_variable st) out;
      let prod_end := as_u32 (length (st_productions out)) in
      if dropped_for_eof && (prod_start =? prod_end)%N
      then s ← resolve (str_pool p) (var_name v); Err (NoReachableProductions s)
      else flatten_variables m n p reserved_ids vs st
             (mkStore (st_steps out) (st_productions out) (st_var_prods out ++ [(prod_start, prod_end)]))
  end.

(** ** The checks after flattening *)
Fixpoint check_productions g (out : ProductionStore) (i : nat) (used inlined : bool) (ps : list Production) :
    outcome FlattenGrammarError unit :=
  match ps with
  | [] => Ok tt
  | q :: ps =>
      let symbol := non_terminal (N.of_nat i) in
      _ ← (if used && (steps_len q =? 0)%N && negb (requires_eof_lookahead q) then
             v ← vec_get (variables g) i; s ← resolve (str_pool (pool g)) (var_name v); Err (EmptyString s)
           else Ok tt);
      _ ← (if inlined then
             let '(a, b) := step_range q in
             steps ← slice (st_steps out) a b;
             if existsb (λ s, bool_decide (step_symbol s = symbol)) steps
             then v ← vec_get (variables g) i; s ← resolve (str_pool (pool g)) (var_name v); Err (RecursiveInline s)
             else Ok tt
           else Ok tt);
      check_productions g out i used inlined ps
  end.
Fixpoint check_variables g (meta : ExtractedGrammarMeta) (out : ProductionStore) (i : nat)
    (ranges : list (N * N)) : outcome FlattenGrammarError unit :=
  match ranges with
  | [] => Ok tt
  | (p_start, p_end) :: ranges =>
      let symbol := non_terminal (N.of_nat i) in
      let used := existsb (λ s, bool_decide (step_symbol s = symbol)) (st_steps out) in
      let inlined := bool_decide (symbol ∈ inline meta) in
      ps ← slice (st_productions out) (N.to_nat p_start) (N.to_nat p_end);
      _ ← check_productions g out i used inlined ps;
      check_variables g meta out (S i) ranges
  end.
Definition check g (meta : ExtractedGrammarMeta) (out : ProductionStore) : outcome FlattenGrammarError unit :=
  check_variables g meta out 0 (st_var_prods out).

(** The ids of the reserved word sets; the last of a name wins. *)
Definition reserved_ids_of (sets : list (StrId * list Symbol)) : reserved_map :=
  fst (foldl (λ '(m, i) '(name, _), (<[name := wrap_u16 i]> m, (i + 1)%N)) (∅, 0%N) sets).

Definition flatten_grammar (m n : nat) g (meta : ExtractedGrammarMeta) (st : FlattenState) (out : ProductionStore) :
    outcome FlattenGrammarError (FlattenState * ProductionStore) :=
  if (65535 <? length (em_reserved_sets meta)) then Err (TooManyReservedWordSets (length (em_reserved_sets meta)))
  else
    let reserved_ids := reserved_ids_of (em_reserved_sets meta) in
    '(st, out) ← flatten_variables m n (pool g) reserved_ids (variables g) st out;
    _ ← check g meta out;
    Ok (st, out).

(** ** The assembled grammar *)
Definition assemble_syntax_grammar {E} g (meta : ExtractedGrammarMeta) (out : ProductionStore) : outcome E (SyntaxGrammar * StrPool H) :=
  reserved_word_sets ← foldr (λ '(_, symbols) acc, s ← TokenSet.from_iter symbols; l ← acc; Ok (s :: l)) (Ok []) (em_reserved_sets meta);
  let reserved_word_sets := match reserved_word_sets with [] => [TokenSet.new] | l => l end in
  Ok (mkSyntaxGrammar
        (zip_with (λ v k, mkSyntaxVariable (var_name v) k) (variables g) (kinds meta))
        (em_extra_symbols meta) (conflicts meta) (em_external_tokens meta) (supertypes meta) (inline meta)
        (word meta) (precedence_orderings g) reserved_word_sets
        (st_steps out) (st_productions out) (st_var_prods out),
      str_pool (pool g)).
End flatten.

(** ** Decision trees

    A walk that makes choices is a tree with one child per alternative; its
    leaves, from left to right, are the results of all walks.  The cursor
    enumerates them. *)
Inductive dtree (A : Type) := Leaf (a : A) | Node (l : list (dtree A)).
Arguments Leaf {A}.
Arguments Node {A}.

Section dtree_ind.
Context {A : Type} (P : dtree A → Prop).
Context (PLeaf : ∀ a, P (Leaf a)) (PNode : ∀ l, Forall P l → P (Node l)).
Fixpoint dtree_rect' (D : dtree A) : P D :=
  match D with
  | Leaf a => PLeaf a
  | Node l => PNode l ((fix go l := match l return Forall P l with
                                    | [] => Forall_nil_2 P
                                    | D :: l => Forall_cons_2 P D l (dtree_rect' D) (go l)
                                    end) l)
  end.
End dtree_ind.

Fixpoint leaves {A} (D : dtree A) : list A :=
  match D with Leaf a => [a] | Node l => concat (map leaves l) end.
Fixpoint dbind {A B} (D : dtree A) (f : A → dtree B) : dtree B :=
  match D with Leaf a => f a | Node l => Node (map (λ D, dbind D f) l) end.

(** The walk that follows the digits [ds], with the bases it meets. *)
Fixpoint walk {A} (D : dtree A) (ds : list N) : option (A * list N) :=
  match D with
  | Leaf a => Some (a, [])
  | Node l =>
      '(a, ars) ← mjoin (map (λ D, walk D (tail ds)) l !! N.to_nat (decision ds 0));
      Some (a, N.of_nat (length l) :: ars)
  end.
(** The leaves from the one at [ds] on. *)
Fixpoint leaves_from {A} (D : dtree A) (ds : list N) : list A :=
  match D with
  | Leaf a => [a]
  | Node l =>
      let i := N.to_nat (decision ds 0) in
      default [] (map (λ D, leaves_from D (tail ds)) l !! i) ++ concat (map leaves (drop (S i) l))
  end.
(** [advance_loop], from the first digit. *)
Fixpoint next_digits (ds ars : list N) : option (list N) :=
  match ars with
  | [] => None
  | n :: ars =>
      match next_digits (tail ds) ars with
      | Some ds' => Some (decision ds 0 :: ds')
      | None => if (decision ds 0 + 1 <? n)%N then Some [(decision ds 0 + 1)%N] else None
      end
  end.

(** No choice is without alternatives. *)
Inductive good {A} : dtree A → Prop :=
  | good_leaf a : good (Leaf a)
  | good_node l : l ≠ [] → Forall good l → good (Node l).

Lemma decision_tail ds d : decision (tail ds) d = decision ds (S d).
Proof. unfold decision. destruct ds; [by rewrite lookup_nil|done]. Qed.
Lemma vec_resize_cons {A} (ds : list A) d (x : A) :
  vec_resize ds (S (S d)) x = default x (head ds) :: vec_resize (tail ds) (S d) x.
Proof. by destruct ds. Qed.

Lemma advance_loop_cons ds n ars d :
  advance_loop ds (n :: ars) (S d) =
  match advance_loop (tail ds) ars d with
  | Some ds' => Some (decision ds 0 :: ds')
  | None => if (decision ds 0 + 1 <? n)%N then Some [(decision ds 0 + 1)%N] else None
  end.
Proof.
  induction d as [|d IH].
  - cbn. destruct (_ <? n)%N; [|done]. by destruct ds.
  - change (advance_loop ds (n :: ars) (S (S d))) with
      (if (decision ds (S d) + 1 <? default 0 (ars !! d))%N
       then Some (<[S d := (decision ds (S d) + 1)%N]> (vec_resize ds (S (S d)) 0%N))
       else advance_loop ds (n :: ars) (S d)).
    cbn [advance_loop] in IH |- *. rewrite decision_tail.
    destruct (_ <? default 0 (ars !! d))%N; [|by rewrite IH].
    rewrite vec_resize_cons. by destruct ds.
Qed.
Lemma advance_next_digits ds ars : advance_loop ds ars (length ars) = next_digits ds ars.
Proof.
  revert ds. induction ars as [|n ars IH]; intros ds; [done|].
  cbn [length]. by rewrite advance_loop_cons, IH.
Qed.

Lemma leaves_from_nil {A} (D : dtree A) : good D → leaves_from D [] = leaves D.
Proof.
  induction D as [a|l IH] using dtree_rect'; intros Hg; inversion Hg as [|? Hne Hl]; subst; [done|].
  destruct l as [|D l]; [done|]. apply Forall_cons in IH as [IH _], Hl as [Hl _]. cbn. by rewrite IH, drop_0.
Qed.
Lemma walk_nil {A} (D : dtree A) : good D → ∃ r, walk D [] = Some r.
Proof.
  induction D as [a|l IH] using dtree_rect'; intros Hg; inversion Hg as [|? Hne Hl]; subst; [by eexists|].
  destruct l as [|D l]; [done|]. apply Forall_cons in IH as [IH _], Hl as [Hl _].
  destruct (IH Hl) as [[a ars] Hw]. cbn. rewrite Hw. by eexists.
Qed.

Lemma lookup_map {A B} (f : A → B) l i : map f l !! i = f <$> l !! i.
Proof. exact (list_lookup_fmap f l i). Qed.

(** One walk takes one leaf, and the next digits lead to the rest. *)
Lemma walk_step {A} (D : dtree A) ds a ars :
  good D → walk D ds = Some (a, ars) →
  leaves_from D ds = a :: (match next_digits ds ars with Some ds' => leaves_from D ds' | None => [] end) ∧
  (∀ ds', next_digits ds ars = Some ds' → ∃ r, walk D ds' = Some r).
Proof.
  revert ds a ars. induction D as [x|l IH] using dtree_rect'; intros ds a ars Hg Hw.
  { cbn in Hw. by simplify_eq. }
  inversion Hg as [|? Hne Hl]; subst. cbn in Hw. set (i := N.to_nat (decision ds 0)) in *.
  destruct (l !! i) as [D|] eqn:Hi.
  2: { by rewrite lookup_map, Hi in Hw. }
  rewrite lookup_map, Hi in Hw. cbn in Hw. destruct (walk D (tail ds)) as [[a' ars']|] eqn:HD; [|done].
  cbn in Hw. injection Hw as <- <-.
  rewrite Forall_forall in IH, Hl. assert (D ∈ l) as Hin by by eapply list_elem_of_lookup_2.
  destruct (IH D Hin (tail ds) a' ars' (Hl D Hin) HD) as [Hfrom Hnext].
  assert (∀ ds' D', l !! N.to_nat (decision ds' 0) = Some D' →
    leaves_from (Node l) ds' = leaves_from D' (tail ds') ++ concat (map leaves (drop (S (N.to_nat (decision ds' 0))) l))) as Hnode.
  { intros ds' D' Hd. cbn. by rewrite lookup_map, Hd. }
  assert (∀ ds' D', l !! N.to_nat (decision ds' 0) = Some D' → (∃ r, walk D' (tail ds') = Some r) →
    ∃ r, walk (Node l) ds' = Some r) as Hwalk.
  { intros ds' D' Hd [[b bs] Hb]. cbn.
    rewrite lookup_map, Hd. cbn. rewrite Hb. by eexists. }
  rewrite (Hnode ds D Hi), Hfrom. cbn [next_digits].
  destruct (next_digits (tail ds) ars') as [ds'|].
  - split.
    + rewrite (Hnode (decision ds 0 :: ds') D) by done. done.
    + intros ? [= <-]. by apply (Hwalk (decision ds 0 :: ds') D), Hnext.
  - case N.ltb_spec; intros Hlt.
    + destruct (lookup_lt_is_Some_2 l (S i) ltac:(lia)) as [D' HD'].
      assert (l !! N.to_nat (decision [(decision ds 0 + 1)%N] 0) = Some D') as HD2.
      { cbn. rewrite <- HD'. f_equal. lia. }
      assert (good D') as Hg' by (apply Hl; by eapply list_elem_of_lookup_2).
      split; [|intros ? [= <-]; by apply (Hwalk _ D'), walk_nil].
      rewrite (Hnode _ D' HD2). cbn [tail app]. rewrite leaves_from_nil by done. f_equal.
      replace (N.to_nat (decision [(decision ds 0 + 1)%N] 0)) with (S i) by (cbn; lia).
      change (N.to_nat (decision ds 0)) with i. by rewrite (drop_S _ _ _ HD').
    + split; [|done]. cbn. rewrite drop_ge by lia. done.
Qed.

Lemma walk_dbind {A B} (D : dtree A) (f : A → dtree B) ds b ars :
  walk (dbind D f) ds = Some (b, ars) →
  ∃ a ars1 ars2, walk D ds = Some (a, ars1) ∧ walk (f a) (drop (length ars1) ds) = Some (b, ars2) ∧ ars = ars1 ++ ars2.
Proof.
  revert ds b ars. induction D as [a|l IH] using dtree_rect'; intros ds b ars Hw; [by exists a, [], ars|].
  cbn in Hw |- *. rewrite map_map in Hw.
  rewrite lookup_map in Hw. rewrite lookup_map.
  destruct (l !! _) as [D|] eqn:Hi; [|done]. cbn in Hw |- *.
  rewrite Forall_forall in IH. specialize (IH D (list_elem_of_lookup_2 _ _ _ Hi)).
  destruct (walk (dbind D f) (tail ds)) as [[b' ars']|] eqn:HD; [|done]. cbn in Hw. injection Hw as <- <-.
  destruct (IH _ _ _ HD) as (a & ars1 & ars2 & Hw1 & Hw2 & ->). rewrite Hw1. cbn.
  eexists a, _, ars2. split; [done|]. rewrite length_map. split; [|done]. cbn [length]. rewrite <- Hw2.
  destruct ds; [|done]. cbn [tail]. by rewrite !drop_nil.
Qed.
Lemma leaves_dbind {A B} (D : dtree A) (f : A → dtree B) :
  leaves (dbind D f) = concat (map (λ a, leaves (f a)) (leaves D)).
Proof.
  induction D as [a|l IH] using dtree_rect'; cbn; [by rewrite List.app_nil_r|].
  rewrite map_map. induction IH as [|D l HD _ IHl]; [done|]. cbn. by rewrite HD, IHl, map_app, concat_app.
Qed.
Lemma good_dbind {A B} (D : dtree A) (f : A → dtree B) : good D → (∀ a, good (f a)) → good (dbind D f).
Proof.
  induction D as [a|l IH] using dtree_rect'; intros Hg Hf; [apply Hf|]. inversion Hg as [|? Hne Hl]; subst. cbn.
  constructor; [by destruct l|]. rewrite Forall_map. rewrite Forall_forall in *. eauto.
Qed.

(** ** The decision tree of a rule *)

(** What a walk has collected, the cursor apart. *)
Record path := mkPath { pt_steps : list ProductionStep; pt_dyn : Z; pt_dead : bool }.
Definition empty_path : path := mkPath [] 0 false.
Definition with_cursor (q : path) (c : ChoiceCursor) : FlattenState := mkFlatten (pt_steps q) c (pt_dyn q) (pt_dead q).

Definition push_path (q : path) (k : SymbolType) (i : N) (ctx : FlattenCtx) : path :=
  mkPath (pt_steps q ++ [pack (mkSymbol k i) (prec ctx) (assoc ctx) (ctx_alias ctx) (ctx_field ctx) (ctx_reserved ctx)])
         (pt_dyn q) (pt_dead q).
Definition raise_path (m : MetadataParams) (q : path) : path :=
  mkPath (pt_steps q)
    (if (i32_abs (pt_dyn q) <? i32_abs (dynamic_precedence m))%Z then dynamic_precedence m else pt_dyn q) (pt_dead q).
(** The last step of a region takes the outer precedence and associativity
    where the region set its own. *)
Definition restore_step (m : MetadataParams) (ctx : FlattenCtx) (s : ProductionStep) : ProductionStep :=
  let s := if bool_decide (precedence m = PNone) then s else set_precedence s (prec ctx) in
  if bool_decide (associativity m = None) then s else set_associativity s (assoc ctx).
Definition leave_path (m : MetadataParams) (ctx : FlattenCtx) (at_end did_push : bool) (q : path) : path :=
  if did_push && negb at_end then
    match last (pt_steps q) with
    | Some s => mkPath (removelast (pt_steps q) ++ [restore_step m ctx s]) (pt_dyn q) (pt_dead q)
    | None => q
    end
  else q.

Notation result E := (outcome E (bool * path)) (only parsing).
Definition dbind_ok {E} (D : dtree (result E)) (f : bool → path → dtree (result E)) : dtree (result E) :=
  dbind D (λ r, match r with
                | Ok (b, q) => f b q
                | Err e => Leaf (Err e)
                | Panic => Leaf Panic
                | OutOfFuel => Leaf OutOfFuel
                end).

Section decision_each.
Context {E : Type} (F : tree → bool → path → dtree (result E)) (at_end : bool).
Fixpoint decision_each (l : list tree) (did_push : bool) (q : path) : dtree (result E) :=
  match l with
  | [] => Leaf (Ok (did_push, q))
  | t :: rest =>
      dbind_ok (F t (at_end && is_nil rest) q) (λ b q,
        if pt_dead q then Leaf (Ok (did_push || b, q)) else decision_each rest (did_push || b) q)
  end.
End decision_each.

Section decision_tree.
Context (reserved_ids : gmap StrId N) (nm : StrId → bytes).

(** One node per choice that is met, a child per alternative. *)
Fixpoint decision_tree (t : tree) (ctx : FlattenCtx) (at_end : bool) (q : path) {struct t} :
    dtree (result FlattenGrammarError) :=
  match t with
  | TSym k i => Leaf (Ok (true, push_path q k i ctx))
  | TEof => Leaf (Ok (true, push_path q End 0 ctx))
  | TSeq l =>
      decision_each (λ t at_end q, decision_tree t ctx at_end q) at_end l false q
  | TChoice [] => Leaf (Ok (false, mkPath (pt_steps q) (pt_dyn q) true))
  | TChoice l => Node (map (λ t, decision_tree t ctx at_end q) l)
  | TMetadata m t =>
      dbind_ok (decision_tree t (inner_ctx m ctx) at_end (raise_path m q)) (λ b q,
        Leaf (Ok (b, leave_path m ctx at_end b q)))
  | TReserved t name =>
      match reserved_ids !! name with
      | None => Leaf (Err (NoReservedWordSet (nm name)))
      | Some r => decision_tree t (mkCtx (prec ctx) (assoc ctx) (ctx_alias ctx) (ctx_field ctx) r) at_end q
      end
  | _ => Leaf (Ok (false, q))
  end.
Lemma good_dbind_ok {E} (D : dtree (result E)) f : good D → (∀ b q, good (f b q)) → good (dbind_ok D f).
Proof. intros. apply good_dbind; [done|]. intros [[b q]|e| |]; try constructor. done. Qed.

Lemma tree_size_elem t l : t ∈ l → tree_size t < S (tsum l).
Proof. intros Ht%tsum_elem. lia. Qed.

Lemma good_decision_tree t : ∀ ctx at_end q, good (decision_tree t ctx at_end q).
Proof.
  induction t as [t IH] using tree_size_ind. intros ctx at_end q.
  destruct t as [| | | | |l|l| | |m t|t name]; try (cbn; constructor; done).
  - cbn [decision_tree]. assert (∀ u, u ∈ l → ∀ ctx ae q, good (decision_tree u ctx ae q)) as Hl.
    { intros u Hu. apply IH. by apply tree_size_elem. }
    clear IH. generalize false as b. revert q. induction l as [|t l IHl]; intros q b; cbn; [constructor|].
    apply good_dbind_ok; [apply Hl, list_elem_of_here|]. intros b' q'. destruct (pt_dead q'); [constructor|].
    apply IHl. intros u Hu. by apply Hl, list_elem_of_further.
  - destruct l as [|t l]; [constructor|]. change (decision_tree (TChoice (t :: l)) ctx at_end q) with
      (Node (map (λ t, decision_tree t ctx at_end q) (t :: l))). constructor; [done|].
    apply Forall_map, Forall_forall. intros u Hu. apply IH. by apply tree_size_elem.
  - cbn. apply good_dbind_ok; [apply IH; cbn; lia|]. intros. constructor.
  - cbn. destruct (reserved_ids !! name); [apply IH; cbn; lia|constructor].
Qed.

(** A walk that has pushed has steps. *)
Definition result_ok (q : path) (r : result FlattenGrammarError) : Prop :=
  match r with
  | Ok (b, q') => (b = true → pt_steps q' ≠ []) ∧ (pt_steps q ≠ [] → pt_steps q' ≠ [])
  | Err _ => True
  | _ => False
  end.
Lemma Forall_leaves_dbind_ok {E} (P Q : result E → Prop) D f :
  Forall P (leaves D) → (∀ b q, P (Ok (b, q)) → Forall Q (leaves (f b q))) → (∀ e, P (Err e) → Q (Err e)) →
  (¬ P Panic ∧ ¬ P OutOfFuel) → Forall Q (leaves (dbind_ok D f)).
Proof.
  intros HD Hf He [Hp Ho]. unfold dbind_ok. rewrite leaves_dbind, Forall_concat, Forall_map. eapply Forall_impl; [exact HD|].
  intros [[b q]|e| |] Hr; cbn; [by apply Hf|constructor; [by apply He|constructor]|done|done].
Qed.

Lemma leave_path_nonempty m ctx at_end b q : pt_steps q ≠ [] → pt_steps (leave_path m ctx at_end b q) ≠ [].
Proof.
  intros Hq. unfold leave_path. destruct (b && _); [|done]. destruct (last (pt_steps q)); [|done]. cbn.
  by destruct (removelast (pt_steps q)).
Qed.
Lemma decision_tree_ok t : ∀ ctx at_end q, Forall (result_ok q) (leaves (decision_tree t ctx at_end q)).
Proof.
  induction t as [t IH] using tree_size_ind. intros ctx at_end q.
  assert (∀ k i, Forall (result_ok q) [Ok (true, push_path q k i ctx)]) as Hpush.
  { intros k i. constructor; [|constructor]. cbn. by destruct (pt_steps q). }
  destruct t as [| | | | |l|l| | |m t|t name]; try (cbn; constructor; done); try apply Hpush.
  - cbn [decision_tree]. assert (∀ u, u ∈ l → ∀ ctx ae q, Forall (result_ok q) (leaves (decision_tree u ctx ae q))) as Hl.
    { intros u Hu. apply IH. by apply tree_size_elem. }
    clear IH Hpush.
    assert (∀ l b q, (b = true → pt_steps q ≠ []) → (∀ u, u ∈ l → ∀ ctx ae q, Forall (result_ok q) (leaves (decision_tree u ctx ae q))) →
      Forall (result_ok q) (leaves (decision_each (λ t ae q, decision_tree t ctx ae q) at_end l b q))) as Hgen; [|by apply Hgen].
    clear. induction l as [|t l IHl]; intros b q Hb Hl; cbn; [by repeat constructor|].
    apply (Forall_leaves_dbind_ok (result_ok q)); [apply Hl, list_elem_of_here| |done|by split; intros []].
    intros b' q' [Hb' Hq']. assert ((b || b') = true → pt_steps q' ≠ []) as Hbb by (intros [?|?]%orb_true_iff; auto).
    destruct (pt_dead q'); [by repeat constructor|].
    eapply Forall_impl; [apply IHl; [done|]|].
    { intros u Hu. by apply Hl, list_elem_of_further. }
    intros [[b2 q2]|e| |]; cbn; [|done..]. intros [? ?]. auto.
  - destruct l as [|t l]; [cbn; by repeat constructor|]. change (leaves (decision_tree (TChoice (t :: l)) ctx at_end q)) with
      (concat (map leaves (map (λ t, decision_tree t ctx at_end q) (t :: l)))).
    rewrite Forall_concat, !Forall_map. apply Forall_forall. intros u Hu. apply IH. by apply tree_size_elem.
  - cbn. apply (Forall_leaves_dbind_ok (result_ok (raise_path m q))); [apply IH; cbn; lia| |done|by split; intros []].
    intros b q' [Hb Hq']. constructor; [|constructor]. cbn. split; intros; apply leave_path_nonempty; auto.
  - cbn. destruct (reserved_ids !! name); [apply IH; cbn; lia|by repeat constructor].
Qed.
End decision_tree.

(** ** The code follows the decision tree *)
Fixpoint tree_reserved (t : tree) : list StrId :=
  match t with
  | TSeq l | TChoice l => concat (map tree_reserved l)
  | TRepeat t | TMetadata _ t => tree_reserved t
  | TReserved t name => name :: tree_reserved t
  | _ => []
  end.

Section apply.
Context {H : Type} (p : RulePool H) (reserved_ids : gmap StrId N) (nm : StrId → bytes).
Notation dt := (decision_tree reserved_ids nm).

(** The missing reserved word sets have names. *)
Definition reserved_named (t : tree) : Prop :=
  ∀ s, s ∈ tree_reserved t → reserved_ids !! s = None → ∀ E, resolve (E:=E) (str_pool p) s = Ok (nm s).
Lemma reserved_named_elem t l : t ∈ l → (∀ s, s ∈ concat (map tree_reserved l) → reserved_ids !! s = None →
  ∀ E, resolve (E:=E) (str_pool p) s = Ok (nm s)) → reserved_named t.
Proof.
  intros Ht Hl s Hs. apply Hl. apply elem_of_concat. exists (tree_reserved t). split; [|done].
  apply elem_of_map. eauto.
Qed.

Definition after {E} (ds A ars : list N) (d : nat) (r : result E) : outcome E (bool * FlattenState) :=
  match r with
  | Ok (b, q) => Ok (b, with_cursor q (mkCursor ds (A ++ ars) (d + length ars)))
  | Err e => Err e
  | Panic => Panic
  | OutOfFuel => OutOfFuel
  end.

Lemma leave_metadata_path {E} m ctx at_end b q c :
  (b = true → pt_steps q ≠ []) →
  leave_metadata (E:=E) m ctx at_end b (with_cursor q c) = Ok (with_cursor (leave_path m ctx at_end b q) c).
Proof.
  intros Hb. unfold leave_metadata, leave_path, restore_step. destruct (b && negb at_end) eqn:Hc; [|done].
  apply andb_true_iff in Hc as [-> _]. specialize (Hb eq_refl).
  destruct (exists_last_or_nil (pt_steps q)) as [?|(k & s & Hk)]; [done|].
  destruct q as [steps dn dd]. cbn in Hk |- *. subst steps. unfold restore_outer_prec, restore_outer_assoc, update_last.
  rewrite last_snoc, removelast_last.
  repeat case_bool_decide; do 3 (cbn -[removelast last]; rewrite ?last_snoc, ?removelast_last); done.
Qed.

(** A leaf is a possible result of the tree. *)
Lemma walk_elem {A} (D : dtree A) ds a ars : walk D ds = Some (a, ars) → a ∈ leaves D.
Proof.
  revert ds a ars. induction D as [x|l IH] using dtree_rect'; intros ds a ars Hw.
  { cbn in Hw. simplify_eq. apply list_elem_of_here. }
  cbn in Hw. rewrite lookup_map in Hw. destruct (l !! _) as [D|] eqn:Hi; [|done]. cbn in Hw.
  destruct (walk D (tail ds)) as [[a' ars']|] eqn:HD; [|done]. cbn in Hw. simplify_eq.
  apply list_elem_of_lookup_2 in Hi. rewrite Forall_forall in IH. cbn. apply elem_of_concat.
  exists (leaves D). split; [apply elem_of_map; eauto|]. by eapply IH.
Qed.

(** One level: a walk through a bind, then the rest. *)
Lemma walk_dbind_ok {E} (D : dtree (result E)) f ds r ars :
  walk (dbind_ok D f) ds = Some (r, ars) →
  ∃ r1 ars1 ars2, walk D ds = Some (r1, ars1) ∧ ars = ars1 ++ ars2 ∧
    match r1 with
    | Ok (b, q) => walk (f b q) (drop (length ars1) ds) = Some (r, ars2)
    | Err e => r = Err e ∧ ars2 = []
    | Panic => r = Panic ∧ ars2 = []
    | OutOfFuel => r = OutOfFuel ∧ ars2 = []
    end.
Proof.
  intros (r1 & ars1 & ars2 & Hw1 & Hw2 & ->)%walk_dbind. exists r1, ars1, ars2. split_and!; [done..|].
  destruct r1 as [[b q]|e| |]; [done|..]; cbn in Hw2; by simplify_eq.
Qed.

Definition applies n id t : Prop :=
  ∀ ctx ae q ds A d r ars, walk (dt t ctx ae q) (drop d ds) = Some (r, ars) →
    apply n p reserved_ids id ctx ae (with_cursor q (mkCursor ds A d)) = after ds A ars d r.

Lemma apply_each_spec n cs ts ctx ae b q ds A d r ars :
  Forall2 (applies n) cs ts →
  walk (decision_each (λ t ae q, dt t ctx ae q) ae ts b q) (drop d ds) = Some (r, ars) →
  apply_each (λ c ae st, apply n p reserved_ids c ctx ae st) ae cs b (with_cursor q (mkCursor ds A d)) = after ds A ars d r.
Proof.
  intros Hf. revert b q A d r ars. induction Hf as [|c t cs ts Hc Hf IH]; intros b q A d r ars Hw.
  { cbn in Hw. simplify_eq. cbn. by rewrite List.app_nil_r, Nat.add_0_r. }
  apply walk_dbind_ok in Hw as (r1 & ars1 & ars2 & Hw1 & -> & Hr).
  assert (is_nil cs = is_nil ts) as Hnil by by destruct Hf.
  cbn [apply_each]. rewrite Hnil, (Hc _ _ _ _ A _ _ _ Hw1).
  destruct r1 as [[b1 q1]|e| |]; [|by destruct Hr as [-> ->]..]. cbn -[with_cursor apply_each].
  change (dead (with_cursor q1 _)) with (pt_dead q1). rewrite drop_drop in Hr. destruct (pt_dead q1).
  - cbn in Hr. simplify_eq. cbn. by rewrite List.app_nil_r.
  - rewrite (IH _ _ (A ++ ars1) _ _ _ Hr). unfold after. rewrite (assoc_L (++)), length_app, Nat.add_assoc. done.
Qed.

Lemma apply_spec n id t : denotes p id t → tree_size t ≤ n → reserved_named t → applies n id t.
Proof.
  revert id t. induction n as [|n IH]; intros id t Hid Hn Hres.
  { pose proof (tree_size_pos t). lia. }
  destruct (denotes_node_Ok (E:=FlattenGrammarError) _ _ _ Hid) as (nd & Hnd & Ht).
  intros ctx ae q ds A d r ars Hw. cbn [apply]. rewrite Hnd. cbn [mbind outcome_bind].
  assert (∀ cs us, Forall2 (denotes p) cs us → S (tsum us) ≤ S n →
    (∀ s, s ∈ concat (map tree_reserved us) → reserved_ids !! s = None → ∀ E, resolve (E:=E) (str_pool p) s = Ok (nm s)) →
    Forall2 (applies n) cs us) as Hkids.
  { intros cs us Hf Hsz Hr. apply Forall2_same_length_lookup. split; [by eapply Forall2_length|].
    intros i c u Hc Hu. apply IH; [by eapply Forall2_lookup_lr| |].
    - pose proof (tsum_elem u us ltac:(by eapply list_elem_of_lookup_2)). lia.
    - eapply reserved_named_elem; [by eapply list_elem_of_lookup_2|done]. }
  assert (∀ r, walk (dt t ctx ae q) (drop d ds) = Some (Ok r, []) → after ds A [] d (Ok r) =
    Ok (E:=FlattenGrammarError) (r.1, with_cursor r.2 (mkCursor ds A d))) as Hleaf.
  { intros [b q'] _. cbn. by rewrite List.app_nil_r, Nat.add_0_r. }
  destruct nd as [|s|q0 f|s|k i|rg|rg|id'| |mid id'|id' name]; cbn in Ht; destr_ex; subst;
    try (cbn in Hw; simplify_eq; by rewrite Hleaf).
  - apply (child_slice_any (E':=FlattenGrammarError)) in H0 as Hc. rewrite Hc. cbn [mbind outcome_bind].
    eapply apply_each_spec; [|exact Hw]. apply Hkids; [done|cbn in Hn; unfold tsum; lia|done].
  - pose proof (Forall2_length _ _ _ H2) as Hlen. rewrite H1. destruct x0 as [|u us].
    { rewrite Hlen. cbn in Hw |- *. simplify_eq. cbn. by rewrite List.app_nil_r, Nat.add_0_r. }
    change (dt (TChoice (u :: us)) ctx ae q) with (Node (map (λ t, dt t ctx ae q) (u :: us))) in Hw.
    case N.eqb_spec; intros Hz; [exfalso; rewrite Hlen in Hz; cbn in Hz; lia|].
    cbn [walk] in Hw. rewrite map_map, lookup_map in Hw.
    assert (decision (drop d ds) 0 = decision ds d) as Hdec by (unfold decision; by rewrite lookup_drop, Nat.add_0_r).
    rewrite Hdec in Hw. destruct ((u :: us) !! N.to_nat (decision ds d)) as [u'|] eqn:Hu; [|done].
    cbn [mbind option_bind mjoin option_join fmap option_fmap option_map] in Hw.
    destruct (walk _ (tail (drop d ds))) as [[r' ars']|] eqn:Hw'; [|done]. cbn in Hw. injection Hw as <- <-.
    destruct (Forall2_lookup_r _ _ _ _ _ H2 Hu) as (c & Hc & _).
    unfold select. cbn [choices with_cursor decisions arities depth].
    apply (child_slice_any (E':=FlattenGrammarError)) in H0. rewrite H0. cbn [mbind outcome_bind].
    rewrite (vec_get_Some _ _ _ Hc). cbn [mbind outcome_bind].
    change (set_choices _ _) with (with_cursor q (mkCursor ds (A ++ [N.of_nat (length x)]) (S d))).
    pose proof (Hkids x (u :: us) H2 Hn Hres) as Hall.
    destruct (Forall2_lookup_r _ _ _ _ _ Hall Hu) as (c' & Hc' & Happ). rewrite Hc in Hc'. injection Hc' as <-.
    assert (tail (drop d ds) = drop (S d) ds) as Htl.
    { clear. revert d. induction ds as [|x ds IH]; intros [|d]; try done. apply IH. }
    rewrite Htl in Hw'. rewrite (Happ _ _ _ _ (A ++ [N.of_nat (length x)]) _ _ _ Hw'). rewrite Hlen.
    unfold after. destruct r' as [[b q']|e| |]; [|done..].
    rewrite <- (assoc_L (++)), length_map. cbn [app length]. by rewrite Nat.add_succ_r.
  - unfold get_params. erewrite vec_get_Some by done. cbn [mbind outcome_bind].
    change (raise_dyn_prec x (with_cursor q (mkCursor ds A d))) with (with_cursor (raise_path x q) (mkCursor ds A d)).
    cbn [decision_tree] in Hw. apply walk_dbind_ok in Hw as (r1 & ars1 & ars2 & Hw1 & -> & Hr).
    rewrite (IH id' x0 ltac:(done) ltac:(cbn in Hn; lia) Hres _ _ _ _ A _ _ _ Hw1).
    pose proof (decision_tree_ok reserved_ids nm x0 (inner_ctx x ctx) ae (raise_path x q)) as Hok.
    rewrite Forall_forall in Hok. specialize (Hok _ (walk_elem _ _ _ _ Hw1)).
    destruct r1 as [[b1 q1]|e| |]; [|by destruct Hr as [-> ->]..]. cbn in Hr. simplify_eq.
    cbn [after mbind outcome_bind]. rewrite leave_metadata_path by apply Hok. cbn. by rewrite List.app_nil_r.
  - cbn [decision_tree] in Hw. destruct (reserved_ids !! name) as [rv|] eqn:Hname.
    + eapply IH; [done|cbn in Hn; lia| |exact Hw]. intros s Hs. apply Hres. by apply list_elem_of_further.
    + cbn in Hw. simplify_eq. rewrite (Hres name (list_elem_of_here _ _) Hname). done.
Qed.
End apply.

(** ** The store of a list of productions *)
#[global] Instance ProdRef_eq_dec : EqDecision ProdRef.
Proof. solve_decision. Defined.

Fixpoint layout (start : nat) (ps : list ProdRef) : list Production :=
  match ps with
  | [] => []
  | r :: ps =>
      mkProduction (N.of_nat start) (N.of_nat (length (pr_steps r))) (pr_dynamic_precedence r)
        (pr_requires_eof_lookahead r) :: layout (start + length (pr_steps r)) ps
  end.
Definition all_steps (ps : list ProdRef) : list ProductionStep := concat (map pr_steps ps).
Definition store (ps : list ProdRef) (vp : list (N * N)) : ProductionStore := mkStore (all_steps ps) (layout 0 ps) vp.
(** Steps and productions together, to bound both. *)
Definition weight (ps : list ProdRef) : nat := sum_list (map (λ r, S (length (pr_steps r))) ps).

Lemma weight_app ps1 ps2 : weight (ps1 ++ ps2) = weight ps1 + weight ps2.
Proof. unfold weight. induction ps1; cbn; lia. Qed.
Lemma weight_bounds ps : length ps + length (all_steps ps) = weight ps.
Proof. unfold all_steps, weight. induction ps; cbn; [done|]. rewrite length_app. lia. Qed.
Lemma length_layout s ps : length (layout s ps) = length ps.
Proof. revert s. induction ps; intros s; cbn; [done|]. by rewrite IHps. Qed.
Lemma layout_app s ps1 ps2 : layout s (ps1 ++ ps2) = layout s ps1 ++ layout (s + length (all_steps ps1)) ps2.
Proof.
  unfold all_steps. revert s. induction ps1 as [|r ps1 IH]; intros s; cbn; [by rewrite Nat.add_0_r|].
  rewrite length_app, IH. do 3 f_equal. lia.
Qed.
Lemma all_steps_app ps1 ps2 : all_steps (ps1 ++ ps2) = all_steps ps1 ++ all_steps ps2.
Proof. unfold all_steps. by rewrite map_app, concat_app. Qed.

(** Every production of the layout finds its steps. *)
Lemma step_slice {E} (pre post steps : list ProductionStep) (q : Production) :
  steps_start q = N.of_nat (length pre) → steps_len q = N.of_nat (length steps) →
  (N.of_nat (length (pre ++ steps ++ post)) < U32)%N →
  (let '(a, b) := step_range q in slice (E:=E) (pre ++ steps ++ post) a b) = Ok steps.
Proof.
  intros Hs Hl Hlt. rewrite !length_app in Hlt. unfold step_range, slice. rewrite Hs, Hl, wrap_u32_small by lia.
  rewrite (proj2 (Nat.leb_le _ _)) by lia. rewrite (proj2 (Nat.leb_le _ _)) by (rewrite !length_app; lia).
  cbn [andb]. f_equal. rewrite Nat2N.id, drop_app_length. rewrite take_app_le by lia. apply take_ge. lia.
Qed.

Section emit.
Context {E : Type}.

Lemma emitted_spec q c eof pre ps :
  (N.of_nat (length (pre ++ all_steps ps)) < U32)%N →
  emitted (E:=E) (with_cursor q c) (pre ++ all_steps ps) (layout (length pre) ps) eof =
  Ok (bool_decide (mkProdRef (pt_steps q) (pt_dyn q) eof ∈ ps)).
Proof.
  revert pre. induction ps as [|r ps IH]; intros pre Hlt.
  { cbn. rewrite bool_decide_false; [done|]. apply not_elem_of_nil. }
  assert (pre ++ all_steps (r :: ps) = (pre ++ pr_steps r) ++ all_steps ps) as Heq by (unfold all_steps; cbn; by rewrite (assoc_L (++))).
  assert (emitted (E:=E) (with_cursor q c) (pre ++ all_steps (r :: ps)) (layout (length pre + length (pr_steps r)) ps) eof =
    Ok (bool_decide (mkProdRef (pt_steps q) (pt_dyn q) eof ∈ ps))) as Hrest.
  { rewrite Heq, <- length_app. apply IH. by rewrite <- Heq. }
  cbn [emitted layout]. cbn [prod_dynamic_precedence requires_eof_lookahead dyn_prec fs_steps with_cursor].
  rewrite Hrest. destruct r as [steps dn eof']. cbn [pr_steps pr_dynamic_precedence pr_requires_eof_lookahead] in *.
  case Z.eqb_spec; intros Hd; cbn [andb].
  2: { f_equal. apply bool_decide_ext. rewrite elem_of_cons. naive_solver. }
  destruct (bool_decide (eof' = eof)) eqn:He; [apply bool_decide_eq_true in He|apply bool_decide_eq_false in He].
  2: { f_equal. apply bool_decide_ext. rewrite elem_of_cons. naive_solver. }
  pose proof (step_slice (E:=E) pre (all_steps ps) steps
    (mkProduction (N.of_nat (length pre)) (N.of_nat (length steps)) dn eof') eq_refl eq_refl Hlt) as Hsl.
  destruct (step_range _) as [a b]. change (all_steps (mkProdRef steps dn eof' :: ps)) with (steps ++ all_steps ps) in *.
  rewrite Hsl. cbn [mbind outcome_bind].
  destruct (bool_decide (steps = pt_steps q)) eqn:Hst; [apply bool_decide_eq_true in Hst|apply bool_decide_eq_false in Hst].
  - f_equal. symmetry. apply bool_decide_true. rewrite elem_of_cons. left. congruence.
  - f_equal. apply bool_decide_ext. rewrite elem_of_cons. naive_solver.
Qed.

Lemma drop_layout s ps k : k ≤ length ps →
  drop k (layout s ps) = layout (s + length (all_steps (take k ps))) (drop k ps).
Proof.
  intros Hk. rewrite <- (take_drop k ps) at 1. rewrite layout_app.
  rewrite <- (length_take_le ps k Hk) at 1. rewrite <- (length_layout s (take k ps)) at 1. by rewrite drop_app_length.
Qed.

(** The productions of a variable start at position [k]. *)
Definition add_prod (k : nat) (ps : list ProdRef) (r : ProdRef) : list ProdRef :=
  if bool_decide (r ∈ drop k ps) then ps else ps ++ [r].

Lemma emit_ready_spec q c k ps vp eof :
  k ≤ length ps → (N.of_nat (weight ps + S (length (pt_steps q))) < U32)%N →
  emit_ready (E:=E) (with_cursor q c) (store ps vp) (N.of_nat k) eof =
  Ok (store (add_prod k ps (mkProdRef (pt_steps q) (pt_dyn q) eof)) vp).
Proof.
  intros Hk Hw. pose proof (weight_bounds ps). unfold emit_ready, slice. cbn [store st_productions st_steps st_var_prods].
  rewrite Nat2N.id, length_layout, (proj2 (Nat.leb_le _ _) Hk), Nat.leb_refl. cbn [andb mbind outcome_bind].
  rewrite drop_layout by done. rewrite take_ge by (rewrite length_layout, length_drop; lia).
  assert (all_steps ps = all_steps (take k ps) ++ all_steps (drop k ps)) as Hsplit.
  { by rewrite <- all_steps_app, take_drop. }
  rewrite Hsplit at 1. cbn [Nat.add]. rewrite emitted_spec by (rewrite <- Hsplit; lia). cbn [mbind outcome_bind].
  unfold add_prod. case_bool_decide; [done|]. unfold store. rewrite all_steps_app, layout_app.
  change (all_steps [_]) with (pt_steps q ++ []). rewrite List.app_nil_r. cbn [Nat.add layout fs_steps with_cursor dyn_prec].
  unfold as_u32. by rewrite !wrap_u32_small by lia.
Qed.

(** What a finished walk contributes. *)
Definition ready (q : path) : option ProdRef :=
  match position (λ s, bool_decide (step_symbol s = end_)) (pt_steps q) with
  | None => Some (mkProdRef (pt_steps q) (pt_dyn q) false)
  | Some i =>
      if Nat.eqb i (length (pt_steps q) - 1)
      then Some (mkProdRef (removelast (pt_steps q)) (pt_dyn q) true) else None
  end.

Lemma ready_length q r : ready q = Some r → length (pr_steps r) ≤ length (pt_steps q).
Proof.
  unfold ready. destruct (position _ _); [|by intros [= <-]]. case (Nat.eqb_spec _ _); [|done].
  intros _ [= <-]. cbn. destruct (exists_last_or_nil (pt_steps q)) as [->|(k & x & ->)]; [cbn; lia|].
  rewrite removelast_last, length_app. lia.
Qed.

Lemma emit_spec q c k ps vp :
  k ≤ length ps → (N.of_nat (weight ps + S (length (pt_steps q))) < U32)%N →
  ∃ steps', emit (E:=E) (with_cursor q c) (store ps vp) (N.of_nat k) =
    Ok (match ready q with Some _ => true | None => false end,
        mkFlatten steps' c (pt_dyn q) (pt_dead q),
        store (match ready q with Some r => add_prod k ps r | None => ps end) vp).
Proof.
  intros Hk Hw. unfold emit, ready. cbn [fs_steps with_cursor].
  destruct (position _ (pt_steps q)) as [i|].
  - destruct (Nat.eqb_spec i (length (pt_steps q) - 1)); cbn [negb]; [|by eexists].
    exists (removelast (pt_steps q)).
    change (mkFlatten (removelast (pt_steps q)) _ _ _) with (with_cursor (mkPath (removelast (pt_steps q)) (pt_dyn q) (pt_dead q)) c).
    rewrite emit_ready_spec; [done|done|]. cbn.
    assert (length (removelast (pt_steps q)) ≤ length (pt_steps q)); [|lia].
    destruct (exists_last_or_nil (pt_steps q)) as [->|(k' & x & ->)]; [done|]. rewrite removelast_last, length_app. lia.
  - exists (pt_steps q). by rewrite emit_ready_spec.
Qed.
End emit.

(** ** All the productions *)

(** The walks of one variable in order: dead ones give nothing, the others a
    production, unless it is there or the end of input is not last. *)
Fixpoint collect (k : nat) (L : list (result FlattenGrammarError)) (dropped : bool) (ps : list ProdRef) :
    outcome FlattenGrammarError (bool * list ProdRef) :=
  match L with
  | [] => Ok (dropped, ps)
  | r :: L =>
      '(_, q) ← r;
      if pt_dead q then collect k L dropped ps
      else match ready q with
           | Some r => collect k L dropped (add_prod k ps r)
           | None => collect k L true ps
           end
  end.

Lemma collect_app L dr ps new :
  collect (length ps) L dr (ps ++ new) = ('(dr, new) ← collect 0 L dr new; Ok (dr, ps ++ new)).
Proof.
  revert dr new. induction L as [|r L IH]; intros dr new; [done|]. cbn [collect].
  destruct r as [[b q]|e| |]; try done. cbn [mbind outcome_bind].
  destruct (pt_dead q); [apply IH|]. destruct (ready q) as [r|]; [|apply IH].
  rewrite <- IH. f_equal. unfold add_prod. rewrite drop_app_length, drop_0.
  case_bool_decide; [done|]. by rewrite (assoc_L (++)).
Qed.

Definition paths_weight (L : list (result FlattenGrammarError)) : nat :=
  sum_list (map (λ r, match r with Ok (_, q) => S (length (pt_steps q)) | _ => 0 end) L).

Lemma collect_weight k L dr ps dr' ps' :
  collect k L dr ps = Ok (dr', ps') → weight ps' ≤ weight ps + paths_weight L.
Proof.
  revert dr ps. induction L as [|r L IH]; intros dr ps; [intros [= -> ->]; lia|]. cbn [collect].
  destruct r as [[b q]|e| |]; try done. cbn [mbind outcome_bind]. unfold paths_weight in *. cbn [map sum_list].
  destruct (pt_dead q); [intros Hc%IH; cbn; lia|]. destruct (ready q) as [r|] eqn:Hr; [|intros Hc%IH; cbn; lia].
  intros Hc%IH. apply ready_length in Hr. unfold add_prod in Hc. case_bool_decide; [cbn; lia|].
  rewrite weight_app in Hc. cbn in Hc. cbn. lia.
Qed.

Section variables.
Context {H : Type} (p : RulePool H) (reserved_ids : gmap StrId N) (nm : StrId → bytes).
Definition paths (t : tree) : list (result FlattenGrammarError) :=
  leaves (decision_tree reserved_ids nm t default_ctx true empty_path).

Lemma path_loop_spec n root t k vp m ds r0 ars0 dr ps :
  denotes p root t → tree_size t ≤ n → reserved_named p reserved_ids nm t →
  let D := decision_tree reserved_ids nm t default_ctx true empty_path in
  walk D ds = Some (r0, ars0) → length (leaves_from D ds) ≤ m → k ≤ length ps →
  (N.of_nat (weight ps + paths_weight (leaves_from D ds)) < U32)%N →
  ∃ st', path_loop m n p reserved_ids root (N.of_nat k) dr (with_cursor empty_path (mkCursor ds [] 0)) (store ps vp) =
    ('(dr, ps) ← collect k (leaves_from D ds) dr ps; Ok (dr, st', store ps vp)).
Proof.
  intros Hid Hn Hres D. assert (good D) as Hg by apply good_decision_tree.
  revert ds r0 ars0 dr ps. induction m as [|m IH]; intros ds r0 ars0 dr ps Hw Hm Hk Hsz.
  { destruct (walk_step D ds r0 ars0 Hg Hw) as [Hfrom _]. rewrite Hfrom in Hm. cbn in Hm. lia. }
  destruct (walk_step D ds r0 ars0 Hg Hw) as [Hfrom Hnext]. rewrite Hfrom in Hm, Hsz |- *.
  cbn [path_loop collect].
  pose proof (apply_spec p reserved_ids nm n root t Hid Hn Hres default_ctx true empty_path ds [] 0 r0 ars0 Hw) as ->.
  destruct r0 as [[b q]|e| |]; cbn [after mbind outcome_bind]; try by exists default_state.
  unfold paths_weight in Hsz. cbn [map sum_list] in Hsz.
  change (sum_list (map _ ?L)) with (paths_weight L) in Hsz.
  (* The digits after this walk. *)
  assert (∀ steps' dn dd dr' ps', k ≤ length ps' → weight ps' ≤ weight ps + S (length (pt_steps q)) →
    ∃ st', (let '(more, c) := advance (mkCursor ds ([] ++ ars0) (0 + length ars0)) in
            let st := set_choices (mkFlatten steps' (mkCursor ds ([] ++ ars0) (0 + length ars0)) dn dd) c in
            if negb more then Ok (dr', st, store ps' vp)
            else path_loop m n p reserved_ids root (N.of_nat k) dr' (reset_path st) (store ps' vp)) =
    ('(dr, ps) ← collect k (match next_digits ds ars0 with Some ds' => leaves_from D ds' | None => [] end) dr' ps';
     Ok (dr, st', store ps vp))) as Hcont.
  { intros steps' dn dd dr' ps' Hk' Hw'. unfold advance. cbn [decisions arities]. rewrite advance_next_digits.
    cbn [app] in *. destruct (next_digits ds ars0) as [ds'|]; [|by eexists].
    destruct (Hnext ds' eq_refl) as [[r1 ars1] Hw1]. cbn [negb].
    change (reset_path _) with (with_cursor empty_path (mkCursor ds' [] 0)).
    apply (IH ds' r1 ars1); [done|cbn in Hm; lia|done|]. cbn in Hsz. lia. }
  change (dead (with_cursor q _)) with (pt_dead q). change (choices (with_cursor q ?c)) with c.
  destruct (pt_dead q) eqn:Hdead; cbn [negb mbind outcome_bind].
  { apply Hcont; [done|lia]. }
  destruct (emit_spec (E:=FlattenGrammarError) q (mkCursor ds ([] ++ ars0) (0 + length ars0)) k ps vp Hk) as (steps' & ->).
  { cbn in Hsz. lia. }
  cbn [mbind outcome_bind choices]. destruct (ready q) as [r|] eqn:Hr; cbn [negb].
  - rewrite orb_false_r. apply Hcont; unfold add_prod; case_bool_decide; rewrite ?length_app, ?weight_app; try lia.
    apply ready_length in Hr. unfold weight. cbn. lia.
  - rewrite orb_true_r. apply Hcont; [done|lia].
Qed.

(** The productions of each variable. *)
Fixpoint spec_productions (vs : list Variable_) (ts : list tree) : outcome FlattenGrammarError (list (list ProdRef)) :=
  match vs, ts with
  | v :: vs, t :: ts =>
      '(dropped, ps) ← collect 0 (paths t) false [];
      if dropped && is_nil ps then Err (NoReachableProductions (nm (var_name v)))
      else pss ← spec_productions vs ts; Ok (ps :: pss)
  | _, _ => Ok []
  end.
Fixpoint ranges (start : nat) (pss : list (list ProdRef)) : list (N * N) :=
  match pss with
  | [] => []
  | ps :: pss => (N.of_nat start, N.of_nat (start + length ps)) :: ranges (start + length ps) pss
  end.
Definition store_of (pss : list (list ProdRef)) : ProductionStore := store (concat pss) (ranges 0 pss).

Lemma flatten_variables_spec m n vs ts st ps vp :
  Forall2 (λ v t, denotes p (var_root v) t) vs ts →
  Forall (λ t, tree_size t ≤ n ∧ length (paths t) ≤ m ∧ reserved_named p reserved_ids nm t) ts →
  (∀ v, v ∈ vs → ∀ E, resolve (E:=E) (str_pool p) (var_name v) = Ok (nm (var_name v))) →
  (N.of_nat (weight ps + sum_list (map (λ t, paths_weight (paths t)) ts)) < U32)%N →
  ∃ st', flatten_variables m n p reserved_ids vs st (store ps vp) =
    (pss ← spec_productions vs ts; Ok (st', store (ps ++ concat pss) (vp ++ ranges (length ps) pss))).
Proof.
  intros Hf. revert st ps vp. induction Hf as [|v t vs ts Ht Hf IH]; intros st ps vp Hts Hnm Hw.
  { exists st. cbn. by rewrite !List.app_nil_r. }
  apply Forall_cons in Hts as [(Hn & Hm & Hres) Hts]. cbn [flatten_variables spec_productions].
  pose proof (weight_bounds ps) as Hb. cbn [map] in Hw. change (sum_list (?a :: ?l)) with (a + sum_list l) in Hw.
  assert (as_u32 (length (st_productions (store ps vp))) = N.of_nat (length ps)) as ->.
  { cbn. unfold as_u32. rewrite length_layout, wrap_u32_small by lia. done. }
  change (reset_variable st) with (with_cursor empty_path (mkCursor [] [] 0)).
  assert (good (decision_tree reserved_ids nm t default_ctx true empty_path)) as Hg by apply good_decision_tree.
  destruct (walk_nil _ Hg) as [[r0 ars0] Hwalk].
  destruct (path_loop_spec n (var_root v) t (length ps) vp m [] r0 ars0 false ps Ht Hn Hres Hwalk) as [st1 ->].
  { by rewrite leaves_from_nil. }
  { done. }
  { rewrite leaves_from_nil by done. unfold paths in Hw. lia. }
  rewrite leaves_from_nil by done. fold (paths t).
  pose proof (collect_app (paths t) false ps []) as Hca. rewrite List.app_nil_r in Hca. rewrite Hca. clear Hca.
  destruct (collect 0 (paths t) false []) as [[dr new]|e| |] eqn:Hc; cbn [mbind outcome_bind]; try by exists st.
  apply collect_weight in Hc. change (weight []) with 0 in Hc. pose proof (weight_bounds new) as Hbn.
  assert (as_u32 (length (st_productions (store (ps ++ new) vp))) = N.of_nat (length ps + length new)) as ->.
  { cbn. unfold as_u32. rewrite length_layout, length_app, wrap_u32_small by lia. done. }
  assert ((N.of_nat (length ps) =? N.of_nat (length ps + length new))%N = is_nil new) as ->.
  { destruct new; cbn; [apply N.eqb_eq; lia|apply N.eqb_neq; lia]. }
  destruct (dr && is_nil new).
  { exists st. rewrite (Hnm v (list_elem_of_here _ _)). done. }
  change (mkStore _ _ _) with (store (ps ++ new) (vp ++ [(N.of_nat (length ps), N.of_nat (length ps + length new))])).
  edestruct (IH st1 (ps ++ new)) as [st2 ->].
  - done.
  - intros v' Hv'. apply Hnm. by apply list_elem_of_further.
  - rewrite weight_app. lia.
  - exists st2. destruct (spec_productions vs ts) as [pss|e| |]; cbn [mbind outcome_bind]; try done.
    cbn [concat ranges]. by rewrite length_app, <- !(assoc_L (++)).
Qed.
End variables.

(** ** The checks, on the productions *)
Section checks.
Context (inlined_symbols : list Symbol) (nm : StrId → bytes) (all : list ProdRef).
Definition mentions (x : Symbol) (steps : list ProductionStep) : bool :=
  existsb (λ s, bool_decide (step_symbol s = x)) steps.

(** A used variable has no empty production, an inlined one does not mention
    itself; the first production in order that is wrong is reported. *)
Fixpoint spec_check_variable (v : Variable_) (x : Symbol) (ps : list ProdRef) : outcome FlattenGrammarError unit :=
  match ps with
  | [] => Ok tt
  | r :: ps =>
      if mentions x (all_steps all) && is_nil (pr_steps r) && negb (pr_requires_eof_lookahead r)
      then Err (EmptyString (nm (var_name v)))
      else if bool_decide (x ∈ inlined_symbols) && mentions x (pr_steps r)
      then Err (RecursiveInline (nm (var_name v)))
      else spec_check_variable v x ps
  end.
Fixpoint spec_check (i : nat) (vs : list Variable_) (pss : list (list ProdRef)) : outcome FlattenGrammarError unit :=
  match vs, pss with
  | v :: vs, ps :: pss =>
      _ ← spec_check_variable v (non_terminal (N.of_nat i)) ps; spec_check (S i) vs pss
  | _, _ => Ok tt
  end.
End checks.

Lemma length_zero_nil {A} (l : list A) : (N.of_nat (length l) =? 0)%N = is_nil l.
Proof. by destruct l. Qed.

Lemma check_productions_spec {H} (g : InputGrammar H) nm inl out i v pre post ps :
  variables g !! i = Some v → (∀ E, resolve (E:=E) (str_pool (pool g)) (var_name v) = Ok (nm (var_name v))) →
  st_steps out = pre ++ all_steps ps ++ post → (N.of_nat (length (st_steps out)) < U32)%N →
  ∀ all, st_steps out = all_steps all →
  let x := non_terminal (N.of_nat i) in
  check_productions g out i (mentions x (st_steps out)) (bool_decide (x ∈ inl)) (layout (length pre) ps) =
  spec_check_variable inl nm all v x ps.
Proof.
  intros Hv Hnm Hout Hlt all Hall. cbn zeta. revert pre Hout.
  induction ps as [|r ps IH]; intros pre Hout; [done|].
  change (all_steps (r :: ps)) with (pr_steps r ++ all_steps ps) in Hout. rewrite <- (assoc_L (++)) in Hout.
  cbn [layout check_productions spec_check_variable steps_len requires_eof_lookahead]. rewrite length_zero_nil, <- Hall.
  rewrite (vec_get_Some _ _ _ Hv). cbn [mbind outcome_bind]. rewrite Hnm. cbn [mbind outcome_bind].
  destruct (_ && _ && _); [done|]. cbn [mbind outcome_bind].
  assert (check_productions g out i (mentions (non_terminal (N.of_nat i)) (st_steps out))
    (bool_decide (non_terminal (N.of_nat i) ∈ inl)) (layout (length pre + length (pr_steps r)) ps) =
    spec_check_variable inl nm all v (non_terminal (N.of_nat i)) ps) as Hrest.
  { rewrite <- length_app. apply IH. by rewrite <- (assoc_L (++)). }
  rewrite Hrest. destruct (bool_decide _) eqn:Hb; cbn [andb mbind outcome_bind]; [|done].
  pose proof (step_slice (E:=FlattenGrammarError) pre (all_steps ps ++ post) (pr_steps r)
    (mkProduction (N.of_nat (length pre)) (N.of_nat (length (pr_steps r))) (pr_dynamic_precedence r)
       (pr_requires_eof_lookahead r)) eq_refl eq_refl) as Hsl.
  rewrite <- Hout in Hsl. specialize (Hsl Hlt). destruct (step_range _) as [a b]. rewrite Hsl.
  cbn [mbind outcome_bind]. unfold mentions. by destruct (existsb _ (pr_steps r)).
Qed.

Lemma check_variables_spec {H} (g : InputGrammar H) nm meta pre pss vs vp :
  let out := store (pre ++ concat pss) vp in
  (N.of_nat (weight (pre ++ concat pss)) < U32)%N →
  (∀ v, v ∈ variables g → ∀ E, resolve (E:=E) (str_pool (pool g)) (var_name v) = Ok (nm (var_name v))) →
  ∀ i, drop i (variables g) = vs → length vs = length pss →
  check_variables g meta out i (ranges (length pre) pss) = spec_check (inline meta) nm (pre ++ concat pss) i vs pss.
Proof.
  intros out Hw Hnm. subst out. revert pre vs Hw. induction pss as [|ps pss IH]; intros pre vs Hw i Hdrop Hlen.
  { by destruct vs. }
  destruct vs as [|v vs]; [done|]. cbn [ranges check_variables spec_check].
  assert (variables g !! i = Some v) as Hv.
  { rewrite <- (Nat.add_0_r i), <- lookup_drop, Hdrop. done. }
  assert (drop (S i) (variables g) = vs) as Hdrop'.
  { rewrite <- Nat.add_1_r, <- drop_drop, Hdrop. done. }
  cbn [concat] in *. pose proof (weight_bounds (pre ++ ps ++ concat pss)) as Hb.
  assert (slice (E:=FlattenGrammarError) (st_productions (store (pre ++ ps ++ concat pss) vp))
    (N.to_nat (N.of_nat (length pre))) (N.to_nat (N.of_nat (length pre + length ps))) =
    Ok (layout (length (all_steps pre)) ps)) as ->.
  { unfold slice. rewrite !Nat2N.id. cbn [store st_productions]. rewrite length_layout, !length_app.
    rewrite (proj2 (Nat.leb_le _ _)), (proj2 (Nat.leb_le _ _)) by lia. cbn [andb]. f_equal.
    rewrite !layout_app. cbn [Nat.add]. rewrite drop_app_length' by (by rewrite length_layout).
    rewrite take_app_length' by (rewrite length_layout; lia). done. }
  cbn [mbind outcome_bind].
  change (existsb _ _) with (mentions (non_terminal (N.of_nat i)) (st_steps (store (pre ++ ps ++ concat pss) vp))).
  rewrite (check_productions_spec g nm (inline meta) _ i v (all_steps pre) (all_steps (concat pss)) ps Hv) with
    (all := pre ++ ps ++ concat pss).
  - destruct (spec_check_variable _ _ _ _ _ _) as [[]|e| |]; cbn [mbind outcome_bind]; try done.
    rewrite (assoc_L (++)), <- length_app. apply IH; [by rewrite <- (assoc_L (++))|done|by injection Hlen].
  - apply Hnm. by eapply list_elem_of_lookup_2.
  - cbn. by rewrite !all_steps_app.
  - cbn. lia.
  - done.
Qed.

Lemma spec_productions_length rm nm vs ts pss :
  length vs = length ts → spec_productions rm nm vs ts = Ok pss → length vs = length pss.
Proof.
  revert ts pss. induction vs as [|v vs IH]; intros [|t ts] pss; cbn; try done; [by intros _ [= <-]|].
  intros [= Hl] Hs. inv_ok. destruct a as [dr ps]. destruct (dr && is_nil ps); [done|]. inv_ok. cbn. f_equal. by eapply IH.
Qed.
Lemma spec_productions_weight rm nm vs ts pss :
  spec_productions rm nm vs ts = Ok pss →
  weight (concat pss) ≤ sum_list (map (λ t, paths_weight (paths rm nm t)) ts).
Proof.
  revert ts pss. induction vs as [|v vs IH]; intros [|t ts] pss; cbn; try (intros [= <-]; cbn; lia).
  intros Hs. inv_ok. destruct a as [dr ps]. destruct (dr && is_nil ps); [done|]. inv_ok.
  apply collect_weight in Hs0. apply IH in Hs1. cbn [concat map].
  change (sum_list (?a :: ?l)) with (a + sum_list l). rewrite weight_app. change (weight []) with 0 in Hs0. lia.
Qed.

(** What flattening gives: the productions of every variable, checked. *)
Definition spec_flatten {H} (g : InputGrammar H) (meta : ExtractedGrammarMeta) nm (ts : list tree) :
    outcome FlattenGrammarError (list (list ProdRef)) :=
  pss ← spec_productions (reserved_ids_of (em_reserved_sets meta)) nm (variables g) ts;
  _ ← spec_check (inline meta) nm (concat pss) 0 (variables g) pss;
  Ok pss.

(** C18: flattening ends, and gives for every variable, in order, the
    productions of the leaves of its rule's decision tree, each once and in the
    order of the leaves, laid out one after the other in the store, or the
    first error that the leaves and the checks give. *)
Theorem flatten_grammar_correct {H} (g : InputGrammar H) meta nm m n ts st :
  Forall2 (λ v t, denotes (pool g) (var_root v) t) (variables g) ts →
  Forall (λ t, tree_size t ≤ n ∧ length (paths (reserved_ids_of (em_reserved_sets meta)) nm t) ≤ m ∧
               reserved_named (pool g) (reserved_ids_of (em_reserved_sets meta)) nm t) ts →
  (∀ v, v ∈ variables g → ∀ E, resolve (E:=E) (str_pool (pool g)) (var_name v) = Ok (nm (var_name v))) →
  (N.of_nat (sum_list (map (λ t, paths_weight (paths (reserved_ids_of (em_reserved_sets meta)) nm t)) ts)) < U32)%N →
  length (em_reserved_sets meta) ≤ 65535 →
  ∃ st', flatten_grammar m n g meta st (mkStore [] [] []) =
         (pss ← spec_flatten g meta nm ts; Ok (st', store_of pss)).
Proof.
  intros Hf Hts Hnm Hw Hr. unfold flatten_grammar, spec_flatten. rewrite (proj2 (Nat.ltb_ge _ _)) by lia.
  destruct (flatten_variables_spec (pool g) (reserved_ids_of (em_reserved_sets meta)) nm m n (variables g) ts st [] [])
    as [st' Hfl]; [done..|].
  change (store [] []) with (mkStore [] [] []) in Hfl. rewrite Hfl. exists st'.
  destruct (spec_productions _ _ _ _) as [pss|e| |] eqn:Hs; cbn [mbind outcome_bind]; try done.
  pose proof (spec_productions_weight _ _ _ _ _ Hs) as Hwt.
  pose proof (spec_productions_length _ _ _ _ _ (Forall2_length _ _ _ Hf) Hs) as Hl. cbn [app].
  unfold check. change (st_var_prods (store (concat pss) (ranges (length []) pss))) with (ranges (length (A:=ProdRef) []) pss).
  rewrite (check_variables_spec g nm meta [] pss (variables g) (ranges 0 pss)); [|change ([] ++ concat pss) with (concat pss); lia|done|done|done].
  cbn [app]. by destruct (spec_check _ _ _ _ _ _) as [[]|e| |].
Qed.

(** ** The productions derive the sequences of the rule *)

(** The symbol sequences of a rule.  Node kinds that earlier passes remove give
    the empty sequence, as the walk skips them. *)
Inductive yields : tree → list Symbol → Prop :=
  | yields_sym k i : yields (TSym k i) [mkSymbol k i]
  | yields_eof : yields TEof [end_]
  | yields_seq l ws : Forall2 yields l ws → yields (TSeq l) (concat ws)
  | yields_choice l t w : t ∈ l → yields t w → yields (TChoice l) w
  | yields_metadata m t w : yields t w → yields (TMetadata m t) w
  | yields_reserved t name w : yields t w → yields (TReserved t name) w
  | yields_blank : yields TBlank []
  | yields_string s : yields (TString s) []
  | yields_pattern s f : yields (TPattern s f) []
  | yields_named s : yields (TNamed s) []
  | yields_repeat t : yields (TRepeat t) [].

(** The setters of a step keep its symbol. *)
Definition step_ok (s : ProductionStep) : Prop := (flags s < 256)%N.
Definition keeps_symbol (f : ProductionStep → ProductionStep) : Prop :=
  ∀ s, step_ok s → step_ok (f s) ∧ step_symbol (f s) = step_symbol s.

Lemma keeps_symbol_masked mask bits (f : ProductionStep → ProductionStep) :
  (mask, bits) ∈ [(PREC_MASK, 0); (PREC_MASK, PREC_INTEGER); (PREC_MASK, PREC_NAME); (ASSOC_MASK, 0);
     (ASSOC_MASK, ASSOC_LEFT); (ASSOC_MASK, ASSOC_RIGHT); (ALIAS_NAMED, 0); (ALIAS_NAMED, ALIAS_NAMED)]%N →
  mask ≠ KIND_MASK →
  (∀ s, sym_index (f s) = sym_index s ∧ flags (f s) = N.lor (N.land (flags s) (not_u8 mask)) bits) → keeps_symbol f.
Proof.
  intros Hin Hne Hf s Hs. destruct (Hf s) as [Hi Hfl]. destruct (masks_kept mask bits (flags s) Hs Hin) as (H1 & _ & H3).
  unfold step_ok, step_symbol. rewrite Hfl, Hi. split; [done|]. rewrite (H3 KIND_MASK); [done|apply list_elem_of_here|done].
Qed.
Ltac mask_elem := rewrite list_elem_of_In; cbn; tauto.
Lemma keeps_set_precedence v : keeps_symbol (λ s, set_precedence s v).
Proof.
  destruct v as [|z|n]; [apply (keeps_symbol_masked PREC_MASK 0)|apply (keeps_symbol_masked PREC_MASK PREC_INTEGER)|
    apply (keeps_symbol_masked PREC_MASK PREC_NAME)]; try mask_elem; done.
Qed.
Lemma keeps_set_associativity a : keeps_symbol (λ s, set_associativity s a).
Proof.
  destruct a as [[]|]; [apply (keeps_symbol_masked ASSOC_MASK ASSOC_LEFT)|apply (keeps_symbol_masked ASSOC_MASK ASSOC_RIGHT)|
    apply (keeps_symbol_masked ASSOC_MASK 0)]; try mask_elem; done.
Qed.
Lemma keeps_set_alias a : keeps_symbol (λ s, set_alias s a).
Proof.
  destruct a as [[v []]|]; [apply (keeps_symbol_masked ALIAS_NAMED ALIAS_NAMED)|apply (keeps_symbol_masked ALIAS_NAMED 0)|
    apply (keeps_symbol_masked ALIAS_NAMED 0)]; try mask_elem; done.
Qed.
Lemma keeps_restore m ctx : keeps_symbol (restore_step m ctx).
Proof.
  intros s Hs. unfold restore_step. destruct (keeps_set_precedence (prec ctx) s Hs) as [Hp Hp'].
  destruct (bool_decide (precedence m = PNone)); case_bool_decide; try done.
  - by apply keeps_set_associativity.
  - destruct (keeps_set_associativity (assoc ctx) _ Hp) as [? ?]. split; [done|congruence].
Qed.
Lemma pack_symbol x v a al f r : step_ok (pack x v a al f r) ∧ step_symbol (pack x v a al f r) = x.
Proof.
  unfold pack. set (s := mkStep _ _ _ _ _ _). assert (step_ok s ∧ step_symbol s = x) as [H0 E0] by by destruct x as [[] ?].
  destruct (keeps_set_precedence v s H0) as [H1 E1]. destruct (keeps_set_associativity a _ H1) as [H2 E2].
  destruct (keeps_set_alias al _ H2) as [H3 E3]. cbn beta in *.
  split; [done|]. change (step_symbol (set_field ?s _)) with (step_symbol s). by rewrite E3, E2, E1.
Qed.

Definition symbols (l : list ProductionStep) : list Symbol := map step_symbol l.
(** [q'] continues [q] by the symbols [w]. *)
Definition continues (q q' : path) (w : list Symbol) : Prop :=
  Forall step_ok (pt_steps q') ∧ pt_dead q' = false ∧ symbols (pt_steps q') = symbols (pt_steps q) ++ w.

Lemma push_continues q k i ctx :
  Forall step_ok (pt_steps q) → pt_dead q = false → continues q (push_path q k i ctx) [mkSymbol k i].
Proof.
  intros Hq Hd. destruct (pack_symbol (mkSymbol k i) (prec ctx) (assoc ctx) (ctx_alias ctx) (ctx_field ctx) (ctx_reserved ctx))
    as [Hs Hx]. unfold continues, push_path. cbn [pt_steps pt_dead]. unfold symbols. rewrite map_app. cbn [map].
  rewrite Hx. split_and!; [|done..]. apply Forall_app. by repeat constructor.
Qed.
Lemma leave_continues m ctx ae b q : Forall step_ok (pt_steps q) →
  Forall step_ok (pt_steps (leave_path m ctx ae b q)) ∧ pt_dead (leave_path m ctx ae b q) = pt_dead q ∧
  symbols (pt_steps (leave_path m ctx ae b q)) = symbols (pt_steps q).
Proof.
  intros Hq. unfold leave_path. destruct (b && negb ae); [|done].
  destruct (exists_last_or_nil (pt_steps q)) as [Hk|(k & s & Hk)]; rewrite Hk in *; [by cbn; rewrite Hk|].
  rewrite last_snoc, removelast_last. apply Forall_app in Hq as [Hq [Hs _]%Forall_cons]. destruct (keeps_restore m ctx s Hs) as [H1 H2]. cbn.
  split_and!; [by apply Forall_app; repeat constructor|done|]. unfold symbols. rewrite !map_app. cbn. by rewrite H2.
Qed.

Section language.
Context (reserved_ids : gmap StrId N) (nm : StrId → bytes).
Notation dt := (decision_tree reserved_ids nm).

(** Every reserved word set of the rule exists. *)
Definition reserved_known (t : tree) : Prop := ∀ s, s ∈ tree_reserved t → is_Some (reserved_ids !! s).
Lemma reserved_known_elem t l : t ∈ l → (∀ s, s ∈ concat (map tree_reserved l) → is_Some (reserved_ids !! s)) → reserved_known t.
Proof. intros Ht Hl s Hs. apply Hl, elem_of_concat. exists (tree_reserved t). split; [apply elem_of_map; eauto|done]. Qed.

Lemma leaves_dbind_ok {E} (D : dtree (result E)) f r :
  r ∈ leaves (dbind_ok D f) ↔
  ∃ r1, r1 ∈ leaves D ∧ match r1 with
                        | Ok (b, q) => r ∈ leaves (f b q)
                        | Err e => r = Err e
                        | Panic => r = Panic
                        | OutOfFuel => r = OutOfFuel
                        end.
Proof.
  unfold dbind_ok. rewrite leaves_dbind, elem_of_concat. setoid_rewrite elem_of_map. split.
  - intros (k & (r1 & -> & Hr1) & Hr). exists r1. split; [done|].
    destruct r1 as [[b q]|e| |]; [done|by apply list_elem_of_singleton in Hr..].
  - intros (r1 & Hr1 & Hr). eexists. split; [exists r1; by split|].
    destruct r1 as [[b q]|e| |]; [done|by apply list_elem_of_singleton..].
Qed.

(** The alive leaves are the sequences, and there are no errors. *)
Definition leaves_yield (t : tree) : Prop :=
  ∀ ctx ae q, Forall step_ok (pt_steps q) → pt_dead q = false →
    (∀ r, r ∈ leaves (dt t ctx ae q) → ∃ b q', r = Ok (b, q') ∧
       (pt_dead q' = true ∨ ∃ w, yields t w ∧ continues q q' w)) ∧
    (∀ w, yields t w → ∃ b q', Ok (b, q') ∈ leaves (dt t ctx ae q) ∧ continues q q' w).

Lemma continues_trans q q1 q2 w1 w2 : continues q q1 w1 → continues q1 q2 w2 → continues q q2 (w1 ++ w2).
Proof. intros (_ & _ & H1) (? & ? & H2). split_and!; [done..|]. by rewrite H2, H1, (assoc_L (++)). Qed.

Lemma decision_each_yields l ctx ae b q :
  (∀ t, t ∈ l → leaves_yield t) → Forall step_ok (pt_steps q) → pt_dead q = false →
  (∀ r, r ∈ leaves (decision_each (λ t ae q, dt t ctx ae q) ae l b q) → ∃ b' q', r = Ok (b', q') ∧
     (pt_dead q' = true ∨ ∃ ws, Forall2 yields l ws ∧ continues q q' (concat ws))) ∧
  (∀ ws, Forall2 yields l ws → ∃ b' q', Ok (b', q') ∈ leaves (decision_each (λ t ae q, dt t ctx ae q) ae l b q) ∧
     continues q q' (concat ws)).
Proof.
  revert b q. induction l as [|t l IH]; intros b q Hl Hq Hd.
  { assert (continues q q []) as Hc by (split_and!; [done..|]; by rewrite List.app_nil_r). split.
    - intros r ->%list_elem_of_singleton. exists b, q. split; [done|]. right. exists []. by split.
    - intros ws Hws. inversion Hws; subst. exists b, q. split; [by apply list_elem_of_singleton|done]. }
  destruct (Hl t (list_elem_of_here _ _) ctx (ae && is_nil l) q Hq Hd) as [Hto Hfrom].
  assert (∀ u, u ∈ l → leaves_yield u) as Hl' by (intros u Hu; by apply Hl, list_elem_of_further).
  cbn [decision_each]. split.
  - intros r (r1 & Hr1 & Hr)%leaves_dbind_ok. destruct (Hto r1 Hr1) as (b1 & q1 & -> & Hq1).
    destruct (pt_dead q1) eqn:Hd1.
    + apply list_elem_of_singleton in Hr as ->. eexists _, q1. split; [done|]. by left.
    + destruct Hq1 as [?|(w & Hw & Hc)]; [congruence|].
      destruct (IH (b || b1) q1 Hl' (proj1 Hc) Hd1) as [IHto _].
      destruct (IHto r Hr) as (b' & q' & -> & Hq'). exists b', q'. split; [done|].
      destruct Hq' as [?|(ws & Hws & Hc')]; [by left|]. right. exists (w :: ws).
      split; [by constructor|]. by eapply continues_trans.
  - intros ws Hws. inversion Hws as [|? w ? ws' Hw Hws']; subst.
    destruct (Hfrom w Hw) as (b1 & q1 & Hr1 & Hc). pose proof Hc as (Hok & Hd1 & _).
    destruct (IH (b || b1) q1 Hl' Hok Hd1) as [_ IHfrom]. destruct (IHfrom ws' Hws') as (b' & q' & Hr & Hc').
    exists b', q'. split; [|by eapply continues_trans]. apply leaves_dbind_ok. eexists. split; [exact Hr1|].
    cbn. by rewrite Hd1.
Qed.

Lemma leaves_yield_leaf t : (∀ ctx ae q, leaves (dt t ctx ae q) = [Ok (false, q)]) → (∀ w, yields t w ↔ w = []) → leaves_yield t.
Proof.
  intros Hl Hw ctx ae q Hq Hd. assert (continues q q []) as Hc by (split_and!; [done..|]; by rewrite List.app_nil_r).
  rewrite Hl. split.
  - intros r ->%list_elem_of_singleton. exists false, q. split; [done|]. right. exists []. by rewrite Hw.
  - intros w ->%Hw. exists false, q. split; [by apply list_elem_of_singleton|done].
Qed.
Lemma leaves_yield_push t k i :
  (∀ ctx ae q, leaves (dt t ctx ae q) = [Ok (true, push_path q k i ctx)]) → (∀ w, yields t w ↔ w = [mkSymbol k i]) →
  leaves_yield t.
Proof.
  intros Hl Hw ctx ae q Hq Hd. pose proof (push_continues q k i ctx Hq Hd) as Hc. rewrite Hl. split.
  - intros r ->%list_elem_of_singleton. eexists _, _. split; [done|]. right. eexists. split; [|exact Hc]. by apply Hw.
  - intros w ->%Hw. eexists _, _. split; [by apply list_elem_of_singleton|done].
Qed.

Lemma decision_tree_yields t : reserved_known t → leaves_yield t.
Proof.
  induction t as [t IH] using tree_size_ind. intros Hr.
  assert (∀ l, tree_size t = S (tsum l) → tree_reserved t = concat (map tree_reserved l) → ∀ u, u ∈ l → leaves_yield u) as Hkids.
  { intros l Hsz Hres u Hu. apply IH; [rewrite Hsz; by apply tree_size_elem|]. eapply reserved_known_elem; [done|].
    by rewrite <- Hres. }
  destruct t as [|s|s f|s|k i|l|l|t| |m t|t name].
  - apply leaves_yield_leaf; [done|]. intros w. split; [by inversion 1|intros ->; constructor].
  - apply leaves_yield_leaf; [done|]. intros w. split; [by inversion 1|intros ->; constructor].
  - apply leaves_yield_leaf; [done|]. intros w. split; [by inversion 1|intros ->; constructor].
  - apply leaves_yield_leaf; [done|]. intros w. split; [by inversion 1|intros ->; constructor].
  - apply (leaves_yield_push _ k i); [done|]. intros w. split; [by inversion 1|intros ->; constructor].
  - intros ctx ae q Hq Hd.
    destruct (decision_each_yields l ctx ae false q (Hkids l eq_refl eq_refl) Hq Hd) as [Hto Hfrom].
    cbn [decision_tree]. split.
    + intros r Hin. destruct (Hto r Hin) as (b' & q' & -> & Hq'). exists b', q'. split; [done|].
      destruct Hq' as [?|(ws & Hws & Hc)]; [by left|]. right. exists (concat ws). split; [by constructor|done].
    + intros w Hw. inversion Hw; subst. by apply Hfrom.
  - intros ctx ae q Hq Hd. destruct l as [|t l].
    + split.
      * intros r ->%list_elem_of_singleton. eexists _, _. split; [done|]. by left.
      * intros w Hw. inversion Hw; subst. exfalso. by eapply not_elem_of_nil.
    + pose proof (Hkids (t :: l) eq_refl eq_refl) as Hl.
      change (leaves (dt (TChoice (t :: l)) ctx ae q)) with (concat (map leaves (map (λ t, dt t ctx ae q) (t :: l)))).
      rewrite map_map. setoid_rewrite elem_of_concat. setoid_rewrite elem_of_map. split.
      * intros r (k & (u & -> & Hu) & Hin). destruct (proj1 (Hl u Hu ctx ae q Hq Hd) r Hin) as (b' & q' & -> & Hq').
        exists b', q'. split; [done|]. destruct Hq' as [?|(w & Hw & Hc)]; [by left|]. right. exists w.
        split; [by apply (yields_choice _ u)|done].
      * intros w Hw. inversion Hw as [| | |? u ? Hu Hw'| | | | | | |]; subst.
        destruct (proj2 (Hl u Hu ctx ae q Hq Hd) w Hw') as (b' & q' & Hin & Hc). exists b', q'. split; [|done].
        eexists. split; [|exact Hin]. eauto.
  - apply leaves_yield_leaf; [done|]. intros w. split; [by inversion 1|intros ->; constructor].
  - apply (leaves_yield_push _ End 0); [done|]. intros w. split; [by inversion 1|intros ->; constructor].
  - assert (leaves_yield t) as Ht by (apply IH; [cbn; lia|exact Hr]). intros ctx ae q Hq Hd. cbn [decision_tree].
    destruct (Ht (inner_ctx m ctx) ae (raise_path m q) Hq Hd) as [Hto Hfrom].
    assert (∀ b1 q1 w, continues (raise_path m q) q1 w → continues q (leave_path m ctx ae b1 q1) w) as Hleave.
    { intros b1 q1 w (Hok & Hd1 & Hs). destruct (leave_continues m ctx ae b1 q1 Hok) as (? & ? & Hs').
      split_and!; [done|congruence|]. by rewrite Hs', Hs. }
    split.
    + intros r (r1 & Hr1 & Hin)%leaves_dbind_ok. destruct (Hto r1 Hr1) as (b1 & q1 & -> & Hq1).
      apply list_elem_of_singleton in Hin as ->. eexists _, _. split; [done|].
      destruct Hq1 as [Hd1|(w & Hw & Hc)]; [|right; exists w; split; [by constructor|by apply Hleave]].
      left. unfold leave_path. destruct (b1 && negb ae); [|done]. by destruct (last (pt_steps q1)).
    + intros w Hw. inversion Hw as [| | | |? ? ? Hw'| | | | | |]; subst. destruct (Hfrom w Hw') as (b1 & q1 & Hin & Hc).
      eexists _, _. split; [|by apply Hleave]. apply leaves_dbind_ok. eexists. split; [exact Hin|].
      by apply list_elem_of_singleton.
  - destruct (Hr name (list_elem_of_here _ _)) as [rv Hrv].
    assert (leaves_yield t) as Ht.
    { apply IH; [cbn; lia|]. intros s Hs. apply Hr. by apply list_elem_of_further. }
    intros ctx ae q Hq Hd. cbn [decision_tree]. rewrite Hrv.
    destruct (Ht (mkCtx (prec ctx) (assoc ctx) (ctx_alias ctx) (ctx_field ctx) rv) ae q Hq Hd) as [Hto Hfrom]. split.
    + intros r Hin. destruct (Hto r Hin) as (b' & q' & -> & Hq'). exists b', q'. split; [done|].
      destruct Hq' as [?|(w & Hw & Hc)]; [by left|]. right. exists w. split; [by constructor|done].
    + intros w Hw. inversion Hw; subst. by apply Hfrom.
Qed.

(** The sequence of a production, the required end of input included. *)
Definition production_word (r : ProdRef) : list Symbol :=
  symbols (pr_steps r) ++ (if pr_requires_eof_lookahead r then [end_] else []).
(** The end of input occurs at most at the end. *)
Definition eof_last (w : list Symbol) : Prop := ∀ i, w !! i = Some end_ → S i = length w.

Lemma ready_spec q :
  match ready q with
  | Some r => production_word r = symbols (pt_steps q) ∧ eof_last (symbols (pt_steps q))
  | None => ¬ eof_last (symbols (pt_steps q))
  end.
Proof.
  unfold ready, position. destruct (list_find _ (pt_steps q)) as [[i s]|] eqn:Hf; cbn [fmap option_fmap option_map fst].
  - apply list_find_Some in Hf as (Hi & Hs & Hfirst). apply bool_decide_eq_true in Hs.
    assert (symbols (pt_steps q) !! i = Some end_) as Hsi by (unfold symbols; rewrite lookup_map, Hi; cbn; by rewrite Hs).
    pose proof (lookup_lt_Some _ _ _ Hi) as Hlt. case (Nat.eqb_spec _ _); intros Heq.
    + destruct (exists_last_or_nil (pt_steps q)) as [Hk|(k & x & Hk)]; rewrite Hk in *; [cbn in Hlt; lia|].
      rewrite length_app in Heq. cbn in Heq. assert (i = length k) as -> by lia.
      rewrite list_lookup_middle in Hi by done. injection Hi as <-. unfold production_word, eof_last, symbols. cbn [pr_steps pr_requires_eof_lookahead].
      rewrite removelast_last, !map_app. cbn [map]. rewrite Hs. split; [done|].
      intros j Hj. rewrite length_app, length_map. cbn. apply lookup_app_Some in Hj as [Hj|[Hle Hj]].
      * exfalso. rewrite lookup_map in Hj. apply fmap_Some in Hj as (y & Hy & Hye).
        eapply (Hfirst j y); [by apply lookup_app_l_Some|by apply lookup_lt_Some in Hy|]. by apply bool_decide_eq_true.
      * apply list_lookup_singleton_Some in Hj as [Hj _]. rewrite length_map in Hj, Hle. lia.
    + intros He. specialize (He i Hsi). unfold symbols in He. rewrite length_map in He. lia.
  - apply list_find_None in Hf. rewrite Forall_forall in Hf. split; [unfold production_word; cbn; by rewrite List.app_nil_r|].
    intros j Hj. exfalso. unfold symbols in Hj. rewrite lookup_map in Hj. apply fmap_Some in Hj as (y & Hy & Hye).
    apply (Hf y); [by eapply list_elem_of_lookup_2|]. by apply bool_decide_eq_true.
Qed.

(** The productions a list of walks gives. *)
Lemma collect_leaves_spec L dr ps :
  (∀ r, r ∈ L → ∃ b q, r = Ok (b, q)) → NoDup ps →
  ∃ dr' ps', collect 0 L dr ps = Ok (dr', ps') ∧ NoDup ps' ∧
    (∀ r, r ∈ ps' ↔ r ∈ ps ∨ ∃ b q, Ok (b, q) ∈ L ∧ pt_dead q = false ∧ ready q = Some r) ∧
    (dr' = true ↔ dr = true ∨ ∃ b q, Ok (b, q) ∈ L ∧ pt_dead q = false ∧ ready q = None).
Proof.
  revert dr ps. induction L as [|x L IH]; intros dr ps HL Hnd.
  { exists dr, ps. split_and!; [done..| |]; [intros r|]; (split; [by left|]); intros [?|(b & q & Hn & _)]; try done;
      by apply not_elem_of_nil in Hn. }
  destruct (HL x (list_elem_of_here _ _)) as (b & q & ->). cbn [collect mbind outcome_bind].
  assert (∀ r, r ∈ L → ∃ b q, r = Ok (b, q)) as HL' by (intros r Hr; by apply HL, list_elem_of_further).
  assert (∀ P : path → Prop, (∃ b' q', Ok (b', q') ∈ (Ok (b, q) : result FlattenGrammarError) :: L ∧ P q') ↔
    P q ∨ ∃ b' q', Ok (b', q') ∈ L ∧ P q') as Hex.
  { intros P. setoid_rewrite elem_of_cons. naive_solver. }
  assert (∀ ps1 dr1, NoDup ps1 →
    (∀ r, r ∈ ps1 ↔ r ∈ ps ∨ (pt_dead q = false ∧ ready q = Some r)) →
    (dr1 = true ↔ dr = true ∨ (pt_dead q = false ∧ ready q = None)) →
    ∃ dr' ps', collect 0 L dr1 ps1 = Ok (dr', ps') ∧ NoDup ps' ∧
    (∀ r, r ∈ ps' ↔ r ∈ ps ∨ ∃ b' q', Ok (b', q') ∈ (Ok (b, q) : result FlattenGrammarError) :: L ∧ pt_dead q' = false ∧ ready q' = Some r) ∧
    (dr' = true ↔ dr = true ∨ ∃ b' q', Ok (b', q') ∈ (Ok (b, q) : result FlattenGrammarError) :: L ∧ pt_dead q' = false ∧ ready q' = None)) as Hgo.
  { intros ps1 dr1 Hnd1 Hin1 Hdr1. destruct (IH dr1 ps1 HL' Hnd1) as (dr' & ps' & -> & Hnd' & Hin' & Hdr').
    exists dr', ps'. split; [done|]. split; [done|]. split.
    - intros r. rewrite Hin', Hin1, (Hex (λ q', pt_dead q' = false ∧ ready q' = Some r)). tauto.
    - rewrite Hdr', Hdr1, (Hex (λ q', pt_dead q' = false ∧ ready q' = None)). tauto. }
  destruct (pt_dead q) eqn:Hd; [|destruct (ready q) as [r|] eqn:Hr].
  - apply Hgo; [done|naive_solver|naive_solver].
  - unfold add_prod. rewrite drop_0. case_bool_decide as Hin.
    + apply Hgo; [done|naive_solver|naive_solver].
    + apply Hgo; [|intros r'; rewrite elem_of_app, list_elem_of_singleton; naive_solver|naive_solver].
      apply NoDup_app. split_and!; [done| |apply NoDup_singleton]. by intros r' Hr' ->%list_elem_of_singleton.
  - apply Hgo; [done|naive_solver|naive_solver].
Qed.

Lemma paths_productions t :
  reserved_known t →
  ∃ dropped ps, collect 0 (paths reserved_ids nm t) false [] = Ok (dropped, ps) ∧ NoDup ps ∧
    (∀ w, (∃ r, r ∈ ps ∧ production_word r = w) ↔ yields t w ∧ eof_last w) ∧
    (dropped = true ↔ ∃ w, yields t w ∧ ¬ eof_last w).
Proof.
  intros Hr. destruct (decision_tree_yields t Hr default_ctx true empty_path) as [Hto Hfrom]; [constructor|done|].
  fold (paths reserved_ids nm t) in Hto, Hfrom.
  destruct (collect_leaves_spec (paths reserved_ids nm t) false []) as (dr & ps & -> & Hnd & Hin & Hdr).
  { intros r Hr'. destruct (Hto r Hr') as (b & q & -> & _). eauto. }
  { constructor. }
  assert (∀ b q, Ok (b, q) ∈ paths reserved_ids nm t → pt_dead q = false → yields t (symbols (pt_steps q))) as Hword.
  { intros b q Hq Hd. destruct (Hto _ Hq) as (b' & q' & [= -> ->] & [?|(w & Hw & (_ & _ & Hs))]); [congruence|]. by rewrite Hs. }
  exists dr, ps. split; [done|]. split; [done|]. split.
  - intros w. split.
    + intros (r & Hrp & <-). apply Hin in Hrp as [Hn|(b & q & Hq & Hd & Hrq)]; [by apply not_elem_of_nil in Hn|].
      pose proof (ready_spec q) as Hs. rewrite Hrq in Hs. destruct Hs as [-> He]. split; [by eapply Hword|done].
    + intros [Hw He]. destruct (Hfrom w Hw) as (b & q & Hq & (_ & Hd & Hs)). cbn in Hs.
      pose proof (ready_spec q) as Hrq. rewrite Hs in Hrq. destruct (ready q) as [r|] eqn:Hrr; [|done].
      exists r. split; [|apply Hrq]. apply Hin. right. eauto.
  - rewrite Hdr. split.
    + intros [?|(b & q & Hq & Hd & Hrq)]; [done|]. pose proof (ready_spec q) as Hs. rewrite Hrq in Hs.
      exists (symbols (pt_steps q)). split; [by eapply Hword|done].
    + intros (w & Hw & He). right. destruct (Hfrom w Hw) as (b & q & Hq & (_ & Hd & Hs)). cbn in Hs.
      exists b, q. split; [done|]. split; [done|]. pose proof (ready_spec q) as Hrq. rewrite Hs in Hrq.
      destruct (ready q); [|done]. by destruct Hrq.
Qed.
End language.

(** ** Flattening and the language of the grammar *)

(** What the errors say of the rules. *)
Inductive flatten_error (meta : ExtractedGrammarMeta) (nm : StrId → bytes) (vs : list Variable_) (ts : list tree) :
    FlattenGrammarError → Prop :=
  | error_unreachable i v t :
      vs !! i = Some v → ts !! i = Some t → (∃ w, yields t w) → (∀ w, yields t w → ¬ eof_last w) →
      flatten_error meta nm vs ts (NoReachableProductions (nm (var_name v)))
  | error_empty i v t :
      vs !! i = Some v → ts !! i = Some t → yields t [] →
      (∃ u w, u ∈ ts ∧ yields u w ∧ eof_last w ∧ non_terminal (N.of_nat i) ∈ w) →
      flatten_error meta nm vs ts (EmptyString (nm (var_name v)))
  | error_inline i v t w :
      vs !! i = Some v → ts !! i = Some t → non_terminal (N.of_nat i) ∈ inline meta →
      yields t w → eof_last w → non_terminal (N.of_nat i) ∈ w →
      flatten_error meta nm vs ts (RecursiveInline (nm (var_name v))).

(** The productions of one rule are its sequences. *)
Definition productions_of (t : tree) (ps : list ProdRef) : Prop :=
  NoDup ps ∧ ∀ w, (∃ r, r ∈ ps ∧ production_word r = w) ↔ yields t w ∧ eof_last w.

Lemma mentions_true x l : mentions x l = true ↔ x ∈ symbols l.
Proof.
  unfold mentions, symbols. rewrite existsb_exists, elem_of_map. split.
  - intros (s & Hs & <-%bool_decide_eq_true). exists s. by rewrite list_elem_of_In.
  - intros (s & -> & Hs). exists s. rewrite <- list_elem_of_In, bool_decide_eq_true. done.
Qed.
Lemma elem_of_production_word x i r : x = non_terminal i → x ∈ production_word r ↔ x ∈ symbols (pr_steps r).
Proof.
  intros ->. unfold production_word. rewrite elem_of_app. destruct (pr_requires_eof_lookahead r);
    rewrite ?list_elem_of_singleton, ?elem_of_nil; [|tauto]. split; [|by left]. by intros [?|[=]].
Qed.
Lemma empty_production r : production_word r = [] ↔ pr_steps r = [] ∧ pr_requires_eof_lookahead r = false.
Proof. destruct r as [[|s l] d []]; unfold production_word; cbn; naive_solver. Qed.
Lemma mentions_all x ps : mentions x (all_steps ps) = true ↔ ∃ r, r ∈ ps ∧ x ∈ symbols (pr_steps r).
Proof.
  rewrite mentions_true. unfold all_steps, symbols. rewrite concat_map, map_map, elem_of_concat.
  setoid_rewrite elem_of_map at 1. split; [intros (k & (r & -> & ?) & ?)|intros (r & ? & ?)]; eauto.
Qed.

Section errors.
Context (meta : ExtractedGrammarMeta) (nm : StrId → bytes).

Lemma spec_productions_language vs ts :
  length vs = length ts → Forall (reserved_known (reserved_ids_of (em_reserved_sets meta))) ts →
  (∃ pss, spec_productions (reserved_ids_of (em_reserved_sets meta)) nm vs ts = Ok pss ∧ Forall2 productions_of ts pss ∧
     ∀ t, t ∈ ts → (∃ w, yields t w) → ∃ w, yields t w ∧ eof_last w) ∨
  (∃ i v t, spec_productions (reserved_ids_of (em_reserved_sets meta)) nm vs ts = Err (NoReachableProductions (nm (var_name v))) ∧
     vs !! i = Some v ∧ ts !! i = Some t ∧ (∃ w, yields t w) ∧ ∀ w, yields t w → ¬ eof_last w).
Proof.
  revert ts. induction vs as [|v vs IH]; intros [|t ts] Hl Hr; try done.
  { left. exists []. split; [done|]. split; [constructor|]. intros t Ht. by apply not_elem_of_nil in Ht. }
  apply Forall_cons in Hr as [Hr Hrs]. injection Hl as Hl. cbn [spec_productions].
  destruct (paths_productions _ nm t Hr) as (dr & ps & -> & Hnd & Hw & Hdr). cbn [mbind outcome_bind].
  destruct (dr && is_nil ps) eqn:Hb.
  - right. exists 0, v, t. apply andb_true_iff in Hb as [(w0 & Hw0 & _)%Hdr Hb]. split_and!; [done..| |].
    + by exists w0.
    + intros w Hy He. destruct (proj2 (Hw w) (conj Hy He)) as (r & Hin & _). destruct ps; [|done]. by apply not_elem_of_nil in Hin.
  - assert ((∃ w, yields t w) → ∃ w, yields t w ∧ eof_last w) as Hreach.
    { intros [w Hy]. destruct ps as [|r ps]; [|exists (production_word r); apply Hw; exists r; split; [apply list_elem_of_here|done]].
      rewrite andb_true_r in Hb. exists w. split; [done|].
      assert (¬ ¬ eof_last w) as Hnn by (intros Hn; assert (dr = true) by (apply Hdr; eauto); congruence).
      intros i Hi. destruct (decide (S i = length w)) as [|Hne]; [done|]. exfalso. apply Hnn. intros He. by apply Hne, He. }
    destruct (IH ts Hl Hrs) as [(pss & -> & Hps & Hall)|(i & v' & t' & -> & Hi)]; cbn [mbind outcome_bind].
    + left. exists (ps :: pss). split; [done|]. split; [by constructor|].
      intros u [->|Hu]%elem_of_cons; [done|by apply Hall].
    + right. by exists (S i), v', t'.
Qed.

Lemma spec_check_variable_cases all v x ps :
  (spec_check_variable (inline meta) nm all v x ps = Ok tt ∧
     (mentions x (all_steps all) = true → ∀ r, r ∈ ps → production_word r ≠ []) ∧
     (x ∈ inline meta → ∀ r, r ∈ ps → x ∉ symbols (pr_steps r))) ∨
  (spec_check_variable (inline meta) nm all v x ps = Err (EmptyString (nm (var_name v))) ∧
     mentions x (all_steps all) = true ∧ ∃ r, r ∈ ps ∧ production_word r = []) ∨
  (spec_check_variable (inline meta) nm all v x ps = Err (RecursiveInline (nm (var_name v))) ∧
     x ∈ inline meta ∧ ∃ r, r ∈ ps ∧ x ∈ symbols (pr_steps r)).
Proof.
  induction ps as [|r ps IH].
  { left. split; [done|]. split; intros _ r Hr; by apply not_elem_of_nil in Hr. }
  cbn [spec_check_variable].
  assert (is_nil (pr_steps r) && negb (pr_requires_eof_lookahead r) = true ↔ production_word r = []) as Hempty.
  { rewrite empty_production, andb_true_iff, negb_true_iff. destruct (pr_steps r); cbn; split; intros [? ?]; done. }
  rewrite <- andb_assoc. destruct (_ && (_ && _)) eqn:He.
  { apply andb_true_iff in He as [Hm He%Hempty]. right. left. split_and!; [done..|]. exists r. split; [apply list_elem_of_here|done]. }
  destruct (bool_decide _ && _) eqn:Hi.
  { apply andb_true_iff in Hi as [Hx%bool_decide_eq_true Hm%mentions_true]. right. right. split_and!; [done..|].
    exists r. split; [apply list_elem_of_here|done]. }
  destruct IH as [(-> & He' & Hi')|[(-> & Hm & r' & Hr' & ?)|(-> & Hx & r' & Hr' & ?)]].
  - left. split; [done|]. split.
    + intros Hm r' [->|Hr']%elem_of_cons; [|by apply He']. intros Hw%Hempty. by rewrite Hm, Hw in He.
    + intros Hx r' [->|Hr']%elem_of_cons; [|by apply Hi']. intros Hw%mentions_true.
      rewrite bool_decide_true, Hw in Hi by done. done.
  - right. left. split_and!; [done..|]. exists r'. split; [by apply list_elem_of_further|done].
  - right. right. split_and!; [done..|]. exists r'. split; [by apply list_elem_of_further|done].
Qed.

Lemma spec_check_cases all i vs pss :
  length vs = length pss →
  (spec_check (inline meta) nm all i vs pss = Ok tt ∧
     ∀ j ps, pss !! j = Some ps → let x := non_terminal (N.of_nat (i + j)) in
       (mentions x (all_steps all) = true → ∀ r, r ∈ ps → production_word r ≠ []) ∧
       (x ∈ inline meta → ∀ r, r ∈ ps → x ∉ symbols (pr_steps r))) ∨
  (∃ j v ps e, spec_check (inline meta) nm all i vs pss = Err e ∧ vs !! j = Some v ∧ pss !! j = Some ps ∧
     let x := non_terminal (N.of_nat (i + j)) in
     (e = EmptyString (nm (var_name v)) ∧ mentions x (all_steps all) = true ∧ ∃ r, r ∈ ps ∧ production_word r = []) ∨
     (e = RecursiveInline (nm (var_name v)) ∧ x ∈ inline meta ∧ ∃ r, r ∈ ps ∧ x ∈ symbols (pr_steps r))).
Proof.
  revert i pss. induction vs as [|v vs IH]; intros i [|ps pss] Hl; try done.
  { left. split; [done|]. intros j ps Hj. by rewrite lookup_nil in Hj. }
  injection Hl as Hl. cbn [spec_check].
  destruct (spec_check_variable_cases all v (non_terminal (N.of_nat i)) ps) as [(-> & H1 & H2)|[(-> & H1)|(-> & H1)]];
    cbn [mbind outcome_bind].
  - destruct (IH (S i) pss Hl) as [(-> & Hall)|(j & v' & ps' & e & -> & Hv & Hp & He)].
    + left. split; [done|]. intros [|j] ps' Hj; cbn in Hj.
      * simplify_eq. rewrite Nat.add_0_r. by split.
      * rewrite Nat.add_succ_r. by apply (Hall j).
    + right. exists (S j), v', ps', e. rewrite Nat.add_succ_r. done.
  - right. exists 0, v, ps, (EmptyString (nm (var_name v))). rewrite Nat.add_0_r. split_and?; [done..|]. by left.
  - right. exists 0, v, ps, (RecursiveInline (nm (var_name v))). rewrite Nat.add_0_r. split_and?; [done..|]. by right.
Qed.
End errors.

(** The symbols used in the productions are those used in the sequences. *)
Lemma mentions_language ts pss x :
  Forall2 productions_of ts pss → (∃ i, x = non_terminal i) →
  mentions x (all_steps (concat pss)) = true ↔ ∃ u w, u ∈ ts ∧ yields u w ∧ eof_last w ∧ x ∈ w.
Proof.
  intros Hps[i Hx]. rewrite mentions_all. setoid_rewrite elem_of_concat. split.
  - intros (r & (ps & [j Hj]%list_elem_of_lookup & Hrp) & Hxr).
    destruct (Forall2_lookup_r _ _ _ _ _ Hps Hj) as (u & Hu & _ & Hpu).
    destruct (proj1 (Hpu (production_word r)) (ex_intro _ r (conj Hrp eq_refl))) as [Hy He].
    exists u, (production_word r). split; [by eapply list_elem_of_lookup_2|]. split_and!; [done..|].
    by apply (elem_of_production_word x i).
  - intros (u & w & [j Hj]%list_elem_of_lookup & Hy & He & Hxw).
    destruct (Forall2_lookup_l _ _ _ _ _ Hps Hj) as (ps & Hp & _ & Hpu).
    destruct (proj2 (Hpu w) (conj Hy He)) as (r & Hrp & <-). exists r.
    split; [exists ps; split; [by eapply list_elem_of_lookup_2|done]|]. by apply (elem_of_production_word x i).
Qed.


(** ** Witnesses: the rule of the unit test on dynamic precedences,
    [seq(1, prec.dynamic(101, seq(2, choice(prec.dynamic(102, seq(3, 4)), 5), 6)), 7)]. *)
Definition example_rule : tree :=
  let nt i := TSym NonTerminal i in
  TSeq [nt 1; TMetadata (with_dynamic_precedence default_params 101)
    (TSeq [nt 2; TChoice [TMetadata (with_dynamic_precedence default_params 102) (TSeq [nt 3; nt 4]); nt 5]; nt 6]); nt 7]%N.
Definition example_flatten : InputGrammar unit :=
  mkInputGrammar
    (mkRulePool
       [Sym NonTerminal 1; Sym NonTerminal 2; Sym NonTerminal 3; Sym NonTerminal 4; Sym NonTerminal 5; Sym NonTerminal 6;
        Sym NonTerminal 7; Seq (mkRange 0 2); Metadata 0 7; Choice (mkRange 2 2); Seq (mkRange 4 3); Metadata 1 10;
        Seq (mkRange 7 3)]
       [2; 3; 8; 4; 1; 9; 5; 0; 11; 6]%N
       [with_dynamic_precedence default_params 102; with_dynamic_precedence default_params 101]
       (mkPool [97]%N [mkSpan 0 1] tt))
    1 [mkVariable 1 12] [] [] [] [] [] [] None [].
Definition example_meta : ExtractedGrammarMeta := mkMeta [Named] [] [] [] [] [] [] None.
Definition example_names (id : StrId) : bytes := [97%N].

Example flatten_unit_test :
  (λ '(_, out), (map (λ q, (prod_dynamic_precedence q, symbols (take (N.to_nat (steps_len q)) (drop (N.to_nat (steps_start q)) (st_steps out)))))
                   (st_productions out))) <$>
  flatten_grammar 3 20 example_flatten example_meta default_state (mkStore [] [] []) =
  Ok [(102%Z, map non_terminal [1; 2; 3; 4; 6; 7]); (101%Z, map non_terminal [1; 2; 5; 6; 7])]%N.
Proof. vm_compute. reflexivity. Qed.

Lemma flatten_grammar_correct_witness :
  ∃ st', flatten_grammar 3 20 example_flatten example_meta default_state (mkStore [] [] []) =
    (pss ← spec_flatten example_flatten example_meta example_names [example_rule]; Ok (st', store_of pss)).
Proof.
  apply (flatten_grammar_correct example_flatten example_meta example_names 3 20 [example_rule] default_state).
  - constructor; [exists 20; reflexivity|constructor].
  - constructor; [|constructor]. split; [vm_compute; lia|]. split; [vm_compute; lia|]. intros s Hs. by apply not_elem_of_nil in Hs.
  - intros v Hv E. apply elem_of_cons in Hv as [->|Hv]; [reflexivity|]. by apply not_elem_of_nil in Hv.
  - vm_compute. reflexivity.
  - apply Nat.le_0_l.
Defined.

