(* ===== verification/ZeroWidth.v ===== *)
(** * [crates/generate/src/prepare_grammar/expand_repeats.rs]: the analysis of
    zero width

    Which rules can match no character, with or without crossing [eof()].  The
    table of the variables is computed by passes until nothing changes; it is
    the least solution, given here as an inductive relation. *)
From S2P Require Import Prelude Symbols StrPool Rules RuleTrees Grammars.

Record Width := mkWidth { nullable : bool; eof_nullable : bool }.
#[global] Instance Width_eq_dec : EqDecision Width.
Proof. solve_decision. Defined.
Definition default_width : Width := mkWidth false false.

(** [Width::merge]: the merged width and whether it is new. *)
Definition merge (w other : Width) : Width * bool :=
  let w' := mkWidth (nullable w || nullable other) (eof_nullable w || eof_nullable other) in
  (w', negb (bool_decide (w' = w))).

Inductive Visit := Enter (id : RuleId) | Exit (id : RuleId).

(** [self.values.drain(base..)] with [base = len - n]. *)
Definition drain_last {E A} (values : list A) (n : nat) : outcome E (list A * list A) :=
  if (n <=? length values) then Ok (take (length values - n) values, drop (length values - n) values) else Panic.

Definition choice_width (ws : list Width) : Width :=
  foldl (λ w c, mkWidth (nullable w || nullable c) (eof_nullable w || eof_nullable c)) default_width ws.
Definition seq_width (ws : list Width) : Width :=
  let '(nullable_, any_eof, all_zero_width) :=
    foldl (λ '(n, e, z) c, (n && nullable c, e || eof_nullable c, z && (nullable c || eof_nullable c)))
          (true, false, true) ws in
  mkWidth nullable_ (all_zero_width && any_eof).

(** The width of a symbol; [EndOfNonTerminalExtra] is [unreachable!]. *)
Definition symbol_width {E} (by_variable : list Width) (k : SymbolType) (i : N) : outcome E Width :=
  match k with
  | End => Ok (mkWidth false true)
  | NonTerminal => Ok (default default_width (by_variable !! N.to_nat i))
  | External => Ok (mkWidth true false)
  | Terminal => Ok default_width
  | EndOfNonTerminalExtra => Panic
  end.

Section eval.
Context {H : Type}.
Implicit Types p : RulePool H.

Fixpoint eval_loop {E} (n : nat) p (by_variable : list Width) (stack : list Visit) (values : list Width) :
    outcome E (list Width) :=
  match stack with
  | [] => Ok values
  | step :: stack =>
      match n with
      | O => OutOfFuel
      | S n =>
          match step with
          | Enter id =>
              nd ← node p id;
              match nd with
              | Seq r | Choice r =>
                  cs ← child_slice p r;
                  eval_loop n p by_variable (rev (map Enter cs) ++ Exit id :: stack) values
              | Repeat rule | Metadata _ rule | Reserved rule _ =>
                  eval_loop n p by_variable (Enter rule :: Exit id :: stack) values
              | Blank => eval_loop n p by_variable stack (values ++ [mkWidth true false])
              | RString s => eval_loop n p by_variable stack (values ++ [mkWidth (s =? EMPTY_STR_ID)%N false])
              | REof => eval_loop n p by_variable stack (values ++ [mkWidth false true])
              | Sym k i => w ← symbol_width by_variable k i; eval_loop n p by_variable stack (values ++ [w])
              | Pattern _ _ | NamedSymbol _ => Panic
              end
          | Exit id =>
              nd ← node p id;
              match nd with
              | Choice r =>
                  '(values, ws) ← drain_last values (N.to_nat (rlen r));
                  eval_loop n p by_variable stack (values ++ [choice_width ws])
              | Seq r =>
                  '(values, ws) ← drain_last values (N.to_nat (rlen r));
                  eval_loop n p by_variable stack (values ++ [seq_width ws])
              | Repeat _ | Metadata _ _ | Reserved _ _ => eval_loop n p by_variable stack values
              | _ => Panic
              end
          end
      end
  end.

Definition eval {E} (n : nat) p (by_variable : list Width) (root : RuleId) : outcome E Width :=
  values ← eval_loop n p by_variable [Enter root] [];
  Ok (default default_width (last values)).

(** One pass of [ZeroWidth::new] from variable [i] on. *)
Fixpoint width_pass {E} (n : nat) p (i : nat) (vs : list Variable_) (by_variable : list Width) (changed : bool) :
    outcome E (list Width * bool) :=
  match vs with
  | [] => Ok (by_variable, changed)
  | v :: vs =>
      width ← eval n p by_variable (var_root v);
      old ← vec_get by_variable i;
      let '(new, c) := merge old width in
      by_variable ← vec_set by_variable i new;
      width_pass n p (S i) vs by_variable (changed || c)
  end.
Fixpoint width_loop {E} (m n : nat) p (vs : list Variable_) (by_variable : list Width) : outcome E (list Width) :=
  match m with
  | O => OutOfFuel
  | S m =>
      '(by_variable, changed) ← width_pass n p 0 vs by_variable false;
      if negb changed then Ok by_variable else width_loop m n p vs by_variable
  end.
Definition zero_width_new {E} (m n : nat) p (vs : list Variable_) : outcome E (list Width) :=
  width_loop m n p vs (replicate (length vs) default_width).
End eval.

(** ** Widths of trees *)

(** The rules that reach the analysis have no patterns, no names and no marker
    for the end of an extra: earlier passes removed them. *)
Fixpoint syntactic (t : tree) : bool :=
  match t with
  | TPattern _ _ | TNamed _ | TSym EndOfNonTerminalExtra _ => false
  | TSeq l | TChoice l => forallb syntactic l
  | TRepeat t | TMetadata _ t | TReserved t _ => syntactic t
  | _ => true
  end.

Definition sym_width (by_variable : list Width) (k : SymbolType) (i : N) : Width :=
  match k with
  | End => mkWidth false true
  | NonTerminal => default default_width (by_variable !! N.to_nat i)
  | External => mkWidth true false
  | Terminal | EndOfNonTerminalExtra => default_width
  end.
Definition any_width (ws : list Width) : Width := mkWidth (existsb nullable ws) (existsb eof_nullable ws).
Definition all_width (ws : list Width) : Width :=
  mkWidth (forallb nullable ws) (forallb (λ w, nullable w || eof_nullable w) ws && existsb eof_nullable ws).
Fixpoint tree_width (by_variable : list Width) (t : tree) : Width :=
  match t with
  | TBlank => mkWidth true false
  | TString s => mkWidth (s =? EMPTY_STR_ID)%N false
  | TEof => mkWidth false true
  | TSym k i => sym_width by_variable k i
  | TSeq l => all_width (map (tree_width by_variable) l)
  | TChoice l => any_width (map (tree_width by_variable) l)
  | TRepeat t | TMetadata _ t | TReserved t _ => tree_width by_variable t
  | TPattern _ _ | TNamed _ => default_width
  end.

Lemma choice_width_any ws : choice_width ws = any_width ws.
Proof.
  unfold choice_width, any_width.
  assert (∀ w, foldl (λ w c, mkWidth (nullable w || nullable c) (eof_nullable w || eof_nullable c)) w ws =
    mkWidth (nullable w || existsb nullable ws) (eof_nullable w || existsb eof_nullable ws)) as ->; [|done].
  induction ws as [|c ws IH]; intros [n e]; cbn; [by rewrite !orb_false_r|].
  rewrite IH. cbn. by rewrite !orb_assoc.
Qed.
Lemma seq_width_all ws : seq_width ws = all_width ws.
Proof.
  unfold seq_width, all_width.
  assert (∀ n e z, foldl (λ '(n, e, z) c, (n && nullable c, e || eof_nullable c, z && (nullable c || eof_nullable c)))
      (n, e, z) ws =
    (n && forallb nullable ws, e || existsb eof_nullable ws, z && forallb (λ w, nullable w || eof_nullable w) ws)) as ->; [|done].
  induction ws as [|c ws IH]; intros n e z; cbn; [by rewrite !andb_true_r, orb_false_r|].
  rewrite IH. by rewrite !andb_assoc, orb_assoc.
Qed.
Lemma existsb_rev {A} (f : A → bool) l : existsb f (rev l) = existsb f l.
Proof. apply eq_true_iff_eq. rewrite !existsb_exists. setoid_rewrite <- in_rev. done. Qed.
Lemma forallb_rev {A} (f : A → bool) l : forallb f (rev l) = forallb f l.
Proof. apply eq_true_iff_eq. rewrite !forallb_forall. setoid_rewrite <- in_rev. done. Qed.
Lemma any_width_rev ws : any_width (rev ws) = any_width ws.
Proof. unfold any_width. by rewrite !existsb_rev. Qed.
Lemma all_width_rev ws : all_width (rev ws) = all_width ws.
Proof. unfold all_width. by rewrite !forallb_rev, existsb_rev. Qed.

(** The steps of the walk: a leaf takes one, the others two more than their
    parts. *)
Fixpoint walk_cost (t : tree) : nat :=
  match t with
  | TSeq l | TChoice l => S (S (sum_list (map walk_cost l)))
  | TRepeat t | TMetadata _ t | TReserved t _ => S (S (walk_cost t))
  | _ => 1
  end.
Lemma walk_cost_le n t : tree_size t ≤ n → walk_cost t ≤ 2 * tree_size t.
Proof.
  revert t. induction n as [|n IH]; intros t Hn; [pose proof (tree_size_pos t); lia|].
  assert (∀ l, sum_list (map tree_size l) ≤ n → sum_list (map walk_cost l) ≤ 2 * sum_list (map tree_size l)) as Hl.
  { induction l as [|u l IHl]; cbn; [lia|]. intros Hs. specialize (IH u ltac:(lia)). specialize (IHl ltac:(lia)). lia. }
  destruct t; cbn in Hn |- *; try lia; try (specialize (Hl l ltac:(lia)); lia); specialize (IH t ltac:(lia)); lia.
Qed.

Lemma drain_last_app {E A} (values ws : list A) n :
  n = length ws → drain_last (E:=E) (values ++ ws) n = Ok (values, ws).
Proof.
  intros ->. unfold drain_last. rewrite length_app, (proj2 (Nat.leb_le _ _)) by lia.
  replace (length values + length ws - length ws) with (length values) by lia.
  by rewrite take_app_length, drop_app_length.
Qed.

Section eval_spec.
Context {H : Type}.
Implicit Types p : RulePool H.

Definition evaluates {E} p by_variable id t : Prop :=
  ∀ n stack values, walk_cost t ≤ n →
    eval_loop (E:=E) n p by_variable (Enter id :: stack) values =
    eval_loop (n - walk_cost t) p by_variable stack (values ++ [tree_width by_variable t]).

Lemma eval_children {E} p by_variable cs us n stack values :
  Forall2 (evaluates (E:=E) p by_variable) cs us → sum_list (map walk_cost us) ≤ n →
  eval_loop (E:=E) n p by_variable (rev (map Enter cs) ++ stack) values =
  eval_loop (n - sum_list (map walk_cost us)) p by_variable stack (values ++ rev (map (tree_width by_variable) us)).
Proof.
  intros Hf. revert n stack values. induction Hf as [|c u cs us Hc Hf IH]; intros n stack values Hn.
  { cbn. by rewrite Nat.sub_0_r, List.app_nil_r. }
  cbn [map rev]. rewrite <- (assoc_L (++)). cbn [app]. cbn in Hn. rewrite IH by lia. rewrite Hc by lia.
  cbn [sum_list]. f_equal; [cbn; lia|]. by rewrite (assoc_L (++)).
Qed.

Lemma eval_loop_spec {E} p by_variable id t :
  denotes p id t → syntactic t = true → evaluates (E:=E) p by_variable id t.
Proof.
  intros [k Hk]. revert id t Hk. induction k as [|k IH]; intros id t Hk Hsyn; [done|].
  assert (denotes p id t) as Hid by (by exists (S k)).
  destruct (denotes_node_Ok (E:=E) _ _ _ Hid) as (nd & Hnd & Ht).
  cbn [to_tree] in Hk. pose proof Hnd as Hl. unfold node in Hl. apply vec_get_Ok in Hl. rewrite Hl in Hk. cbn in Hk.
  intros n stack values Hn.
  destruct n as [|n]; [destruct t; cbn in Hn; lia|].
  cbn [eval_loop]. rewrite Hnd. cbn [mbind outcome_bind].
  assert (∀ cs us, Forall2 (λ c u, to_tree k p c = Some u) cs us → forallb syntactic us = true →
    Forall2 (evaluates (E:=E) p by_variable) cs us) as Hkids.
  { intros cs us Hf. induction Hf as [|c u cs us Hc Hf IHf]; cbn; [constructor|].
    intros [? ?]%andb_true_iff. constructor; [by apply IH|by apply IHf]. }
  assert (∀ id' u, to_tree k p id' = Some u → syntactic u = true → walk_cost t = S (S (walk_cost u)) →
    tree_width by_variable t = tree_width by_variable u →
    (match nd with Repeat _ | Metadata _ _ | Reserved _ _ => True | _ => False end) →
    eval_loop (E:=E) n p by_variable (Enter id' :: Exit id :: stack) values =
    eval_loop (S n - walk_cost t) p by_variable stack (values ++ [tree_width by_variable t])) as Hone.
  { intros id' u Hu Hsu Hc Hw Hnd'. rewrite (IH id' u Hu Hsu) by lia. rewrite Hc, Hw.
    destruct (n - walk_cost u) as [|n'] eqn:Hn'; [lia|]. cbn [eval_loop]. rewrite Hnd. cbn [mbind outcome_bind].
    replace (S n - S (S (walk_cost u))) with n' by lia. by destruct nd. }
  destruct nd as [|s|q f|s|kd i|rg|rg|id'| |mid id'|id' name].
  - cbn in Ht. subst t. cbn. by rewrite Nat.sub_0_r.
  - cbn in Ht. subst t. cbn. by rewrite Nat.sub_0_r.
  - cbn in Ht. by subst t.
  - cbn in Ht. by subst t.
  - cbn in Ht. subst t. destruct kd; cbn in Hsyn |- *; try done; by rewrite Nat.sub_0_r.
  - apply fmap_Some in Hk as (us & (cs & Hc & Hlen & Hf)%slice_trees_Some & ->). cbn in Hsyn, Hn |- *.
    apply (child_slice_any (E':=E)) in Hc. rewrite Hc. cbn [mbind outcome_bind].
    rewrite (eval_children _ _ cs us) by (auto || lia).
    destruct (n - _) as [|n'] eqn:Hn'; [lia|]. cbn [eval_loop]. rewrite Hnd. cbn [mbind outcome_bind].
    rewrite drain_last_app by (rewrite length_rev, length_map, Hlen, Nat2N.id; by eapply Forall2_length).
    cbn [mbind outcome_bind]. rewrite seq_width_all, all_width_rev. f_equal. lia.
  - apply fmap_Some in Hk as (us & (cs & Hc & Hlen & Hf)%slice_trees_Some & ->). cbn in Hsyn, Hn |- *.
    apply (child_slice_any (E':=E)) in Hc. rewrite Hc. cbn [mbind outcome_bind].
    rewrite (eval_children _ _ cs us) by (auto || lia).
    destruct (n - _) as [|n'] eqn:Hn'; [lia|]. cbn [eval_loop]. rewrite Hnd. cbn [mbind outcome_bind].
    rewrite drain_last_app by (rewrite length_rev, length_map, Hlen, Nat2N.id; by eapply Forall2_length).
    cbn [mbind outcome_bind]. rewrite choice_width_any, any_width_rev. f_equal. lia.
  - apply fmap_Some in Hk as (u & Hu & ->). by apply (Hone id' u).
  - cbn in Ht. subst t. cbn. by rewrite Nat.sub_0_r.
  - destruct (params p !! N.to_nat mid); [|done]. cbn in Hk. apply fmap_Some in Hk as (u & Hu & ->). by apply (Hone id' u).
  - apply fmap_Some in Hk as (u & Hu & ->). by apply (Hone id' u).
Qed.

Lemma eval_spec {E} n p by_variable id t :
  denotes p id t → syntactic t = true → 2 * tree_size t ≤ n →
  eval (E:=E) n p by_variable id = Ok (tree_width by_variable t).
Proof.
  intros Hid Hs Hn. unfold eval. pose proof (walk_cost_le _ t (le_n _)).
  rewrite (eval_loop_spec p by_variable id t Hid Hs) by lia. by destruct (n - walk_cost t).
Qed.
End eval_spec.

(** ** The least solution *)

(** [zero_width ts k t]: the rule [t] can match no characters, crossing the end
    of input exactly when [k]; the variables stand for [ts].  External tokens
    count as able to match nothing, other tokens never are. *)
Inductive zero_width (ts : list tree) : bool → tree → Prop :=
  | zero_blank : zero_width ts false TBlank
  | zero_string : zero_width ts false (TString EMPTY_STR_ID)
  | zero_eof : zero_width ts true TEof
  | zero_end i : zero_width ts true (TSym End i)
  | zero_external i : zero_width ts false (TSym External i)
  | zero_variable k i t : ts !! N.to_nat i = Some t → zero_width ts k t → zero_width ts k (TSym NonTerminal i)
  | zero_nil : zero_width ts false (TSeq [])
  | zero_cons k1 k2 t l : zero_width ts k1 t → zero_width ts k2 (TSeq l) → zero_width ts (k1 || k2) (TSeq (t :: l))
  | zero_choice k t l : t ∈ l → zero_width ts k t → zero_width ts k (TChoice l)
  | zero_repeat k t : zero_width ts k t → zero_width ts k (TRepeat t)
  | zero_metadata k m t : zero_width ts k t → zero_width ts k (TMetadata m t)
  | zero_reserved k t c : zero_width ts k t → zero_width ts k (TReserved t c).

Definition flag (k : bool) (w : Width) : bool := if k then eof_nullable w else nullable w.

Lemma flag_any k ws : flag k (any_width ws) = true ↔ ∃ w, w ∈ ws ∧ flag k w = true.
Proof. destruct k; cbn; rewrite existsb_exists; by setoid_rewrite <- list_elem_of_In. Qed.
Lemma all_width_cons w ws :
  all_width (w :: ws) = mkWidth (nullable w && nullable (all_width ws))
    ((eof_nullable w && (nullable (all_width ws) || eof_nullable (all_width ws))) || (nullable w && eof_nullable (all_width ws))).
Proof.
  unfold all_width. cbn. f_equal.
  destruct (nullable w) eqn:H1, (eof_nullable w) eqn:H2; cbn; rewrite ?andb_false_r, ?orb_false_r; try done;
    assert (forallb nullable ws = true → forallb (λ w, nullable w || eof_nullable w) ws = true) as Himp by
      (rewrite !forallb_forall; intros Hf x Hx; by rewrite Hf);
    assert (forallb (λ w, nullable w || eof_nullable w) ws = true → existsb eof_nullable ws = false → forallb nullable ws = true) as Himp2 by
      (rewrite !forallb_forall; intros Hf He x Hx; specialize (Hf x Hx); destruct (nullable x); [done|]; cbn in Hf;
       assert (existsb eof_nullable ws = true) by (rewrite existsb_exists; eauto); congruence);
    destruct (forallb nullable ws), (forallb (λ w, nullable w || eof_nullable w) ws), (existsb eof_nullable ws); cbn;
    try done; try (by specialize (Himp eq_refl)); by specialize (Himp2 eq_refl eq_refl).
Qed.

Section least.
Context (ts : list tree).
Notation var_flag by_variable k i := (flag k (default default_width (by_variable !! N.to_nat i)) = true).

(** A sound table gives sound widths. *)
Lemma tree_width_sound by_variable :
  (∀ k i, var_flag by_variable k i → zero_width ts k (TSym NonTerminal i)) →
  ∀ t k, flag k (tree_width by_variable t) = true → zero_width ts k t.
Proof.
  intros Hby. assert (∀ n t, tree_size t ≤ n → ∀ k, flag k (tree_width by_variable t) = true → zero_width ts k t) as Hall;
    [|intros t; by apply (Hall (tree_size t))].
  induction n as [|n IH]; intros t Hn k Hk; [pose proof (tree_size_pos t); lia|].
  destruct t as [|s|q f|s|kd i|l|l|t| |m t|t c]; cbn in Hn, Hk.
  - destruct k; [done|constructor].
  - destruct k; [done|]. cbn in Hk. apply N.eqb_eq in Hk as ->. constructor.
  - by destruct k.
  - by destruct k.
  - destruct kd; cbn in Hk; try (by destruct k); try (destruct k; [done|constructor]).
    + destruct k; [constructor|done].
    + by apply Hby.
  - assert (∀ l k, sum_list (map tree_size l) ≤ n → flag k (all_width (map (tree_width by_variable) l)) = true →
      zero_width ts k (TSeq l)) as Hl; [|apply Hl; [lia|done]].
    clear l k Hn Hk. induction l as [|u l IHl]; intros k Hn Hk; [destruct k; [done|constructor]|].
    cbn in Hn. cbn [map] in Hk. rewrite all_width_cons in Hk.
    assert (∃ k1 k2, k = k1 || k2 ∧ flag k1 (tree_width by_variable u) = true ∧
      flag k2 (all_width (map (tree_width by_variable) l)) = true) as (k1 & k2 & -> & H1 & H2).
    { destruct k; cbn in Hk.
      - apply orb_true_iff in Hk as [[Hw [Ha|Ha]%orb_true_iff]%andb_true_iff|[Hw Ha]%andb_true_iff];
          [exists true, false|exists true, true|exists false, true]; done.
      - apply andb_true_iff in Hk as [? ?]. by exists false, false. }
    constructor; [apply IH; [lia|done]|apply IHl; [lia|done]].
  - apply flag_any in Hk as (w & (u & -> & Hu)%elem_of_map & Hw). apply (zero_choice _ _ u); [done|].
    apply IH; [|done]. pose proof (tsum_elem u l Hu). unfold tsum in *. lia.
  - constructor. apply IH; [lia|done].
  - destruct k; [constructor|done].
  - constructor. apply IH; [lia|done].
  - constructor. apply IH; [lia|done].
Qed.

(** A table that is closed has every flag. *)
Definition width_closed by_variable : Prop :=
  ∀ i t k, ts !! i = Some t → flag k (tree_width by_variable t) = true →
    flag k (default default_width (by_variable !! i)) = true.
Lemma tree_width_complete by_variable k t :
  width_closed by_variable → zero_width ts k t → flag k (tree_width by_variable t) = true.
Proof.
  intros Hcl Hz. induction Hz as [| | | | |k i t Hi _ IH| |k1 k2 t l _ IH1 _ IH2|k t l Hin _ IH| | |]; try done.
  - cbn. by apply (Hcl _ t).
  - cbn [tree_width map] in *. rewrite all_width_cons. destruct k1, k2; cbn in *.
    + by rewrite IH1, IH2, orb_true_r.
    + by rewrite IH1, IH2.
    + by rewrite IH1, IH2, orb_true_r.
    + by rewrite IH1, IH2.
  - cbn. apply flag_any. exists (tree_width by_variable t). split; [apply elem_of_map; eauto|done].
Qed.
End least.

(** ** The passes end in the least solution *)
Definition flag_count (l : list Width) : nat :=
  sum_list (map (λ w, (if nullable w then 1 else 0) + (if eof_nullable w then 1 else 0)) l).
Lemma flag_count_le l : flag_count l ≤ 2 * length l.
Proof. unfold flag_count. induction l as [|w l IH]; cbn; [lia|]. destruct (nullable w), (eof_nullable w); lia. Qed.
Lemma flag_count_insert l i w w' :
  l !! i = Some w → (∀ k, flag k w = true → flag k w' = true) →
  flag_count l ≤ flag_count (<[i := w']> l) ∧ (w' ≠ w → flag_count l < flag_count (<[i := w']> l)).
Proof.
  unfold flag_count. intros Hi Hle. revert i Hi. induction l as [|x l IH]; intros [|i] Hi; cbn in *; simplify_eq.
  - pose proof (Hle true) as Ht. pose proof (Hle false) as Hf. destruct w as [[] []], w' as [[] []]; cbn in *;
      try specialize (Ht eq_refl); try specialize (Hf eq_refl); try done; (split; [lia|]); intros Hne; try lia; done.
  - destruct (IH i Hi) as [Hle1 Hlt1]. split; [by apply Nat.add_le_mono_l|].
    intros Hne. by apply Nat.add_lt_mono_l, Hlt1.
Qed.

Lemma merge_spec w other w' c :
  merge w other = (w', c) →
  (∀ k, flag k w' = flag k w || flag k other) ∧ (c = true ↔ w' ≠ w).
Proof.
  unfold merge. intros [= <- <-]. split; [by intros []|].
  rewrite negb_true_iff, bool_decide_eq_false. done.
Qed.

Section passes.
Context {H : Type} {E : Type} (p : RulePool H) (n : nat).

Lemma width_pass_spec i vs ts all by_variable changed :
  Forall2 (λ v t, denotes p (var_root v) t) vs ts → Forall (λ t, syntactic t = true ∧ 2 * tree_size t ≤ n) ts →
  drop i all = ts → length by_variable = length all →
  (∀ k j, flag k (default default_width (by_variable !! N.to_nat j)) = true → zero_width all k (TSym NonTerminal j)) →
  ∃ by' c, width_pass (E:=E) n p i vs by_variable changed = Ok (by', changed || c) ∧
    length by' = length all ∧
    (∀ k j, flag k (default default_width (by' !! N.to_nat j)) = true → zero_width all k (TSym NonTerminal j)) ∧
    flag_count by_variable ≤ flag_count by' ∧ (c = true → flag_count by_variable < flag_count by') ∧
    (c = false → by' = by_variable ∧ ∀ j t k, i ≤ j → all !! j = Some t → flag k (tree_width by_variable t) = true →
       flag k (default default_width (by_variable !! j)) = true).
Proof.
  intros Hf. revert i by_variable changed. induction Hf as [|v t vs ts Ht Hf IH]; intros i by_variable changed Hts Hdrop Hlen Hsound.
  { exists by_variable, false. rewrite orb_false_r. split_and!; [done..|lia|done|]. intros _. split; [done|].
    intros j t k Hj Hl. apply lookup_lt_Some in Hl. assert (length (drop i all) = 0) as Hd by by rewrite Hdrop.
    rewrite length_drop in Hd. lia. }
  apply Forall_cons in Hts as [[Hsyn Hsz] Hts]. cbn [width_pass]. rewrite (eval_spec n p by_variable (var_root v) t) by done.
  cbn [mbind outcome_bind].
  assert (all !! i = Some t) as Hi by (rewrite <- (Nat.add_0_r i), <- lookup_drop, Hdrop; done).
  assert (drop (S i) all = ts) as Hdrop' by (rewrite <- Nat.add_1_r, <- drop_drop, Hdrop; done).
  destruct (lookup_lt_is_Some_2 by_variable i) as [w Hw]; [rewrite Hlen; by eapply lookup_lt_Some|].
  rewrite (vec_get_Some _ _ _ Hw). cbn [mbind outcome_bind]. destruct (merge w _) as [w' c] eqn:Hm.
  apply merge_spec in Hm as [Hfl Hc]. rewrite vec_set_lt by by eapply lookup_lt_Some. cbn [mbind outcome_bind].
  pose proof (tree_width_sound all by_variable Hsound t) as Hst.
  assert (∀ k, flag k w = true → flag k w' = true) as Hup by (intros k Hk; by rewrite Hfl, Hk).
  destruct (flag_count_insert by_variable i w w' Hw Hup) as [Hle Hlt].
  destruct (IH (S i) (<[i := w']> by_variable) (changed || c) Hts Hdrop') as (by' & c' & -> & Hlen' & Hsound' & Hle' & Hlt' & Hno').
  { by rewrite length_insert. }
  { intros k j Hk. destruct (decide (N.to_nat j = i)) as [Hj|Hj]; [|by rewrite list_lookup_insert_ne in Hk by done; apply Hsound].
    rewrite Hj, list_lookup_insert_eq in Hk by by eapply lookup_lt_Some. cbn in Hk. rewrite Hfl in Hk.
    apply orb_true_iff in Hk as [Hk|Hk]; [apply Hsound; by rewrite Hj, Hw|].
    apply (zero_variable _ _ _ t); [by rewrite Hj|by apply Hst]. }
  exists by', (c || c'). rewrite orb_assoc. split_and!; [done|done|done|lia| |].
  - intros Hcc. apply orb_true_iff in Hcc as [Hc1|Hc1].
    + specialize (Hlt (proj1 Hc Hc1)). lia.
    + specialize (Hlt' Hc1). lia.
  - intros [Hc1 Hc2]%orb_false_iff. destruct (decide (w' = w)) as [->|Hne]; [|by rewrite (proj2 Hc Hne) in Hc1].
    destruct (Hno' Hc2) as [-> Hcl]. rewrite list_insert_id in Hcl |- * by done. split; [done|].
    intros j u k Hj Hu Hk. destruct (decide (j = i)) as [->|]; [|apply (Hcl j u k); [lia|done..]].
    simplify_eq. rewrite Hw. cbn. by rewrite Hfl, Hk, orb_true_r.
Qed.

Lemma width_loop_spec m vs all by_variable :
  Forall2 (λ v t, denotes p (var_root v) t) vs all → Forall (λ t, syntactic t = true ∧ 2 * tree_size t ≤ n) all →
  length by_variable = length all → 2 * length all - flag_count by_variable < m →
  (∀ k j, flag k (default default_width (by_variable !! N.to_nat j)) = true → zero_width all k (TSym NonTerminal j)) →
  ∃ by', width_loop (E:=E) m n p vs by_variable = Ok by' ∧ length by' = length all ∧
    ∀ k i, flag k (default default_width (by' !! N.to_nat i)) = true ↔ zero_width all k (TSym NonTerminal i).
Proof.
  intros Hf Hts. revert by_variable. induction m as [|m IH]; intros by_variable Hlen Hm Hsound; [lia|].
  cbn [width_loop].
  destruct (width_pass_spec 0 vs all all by_variable false Hf Hts eq_refl Hlen Hsound)
    as (by' & c & -> & Hlen' & Hsound' & Hle & Hlt & Hno).
  cbn [mbind outcome_bind orb]. destruct c; cbn [negb].
  - apply IH; [done| |done]. specialize (Hlt eq_refl). pose proof (flag_count_le by'). rewrite Hlen' in *. lia.
  - destruct (Hno eq_refl) as [-> Hcl]. exists by_variable. split_and!; [done..|]. intros k i. split; [apply Hsound|].
    intros Hz. inversion Hz as [| | | | |? ? t Hi Ht| | | | | |]; subst.
    apply (Hcl _ t); [lia|done|]. eapply tree_width_complete; [|done]. intros j u k' Hj. apply Hcl; [lia|done].
Qed.

Lemma zero_width_new_spec m vs ts :
  Forall2 (λ v t, denotes p (var_root v) t) vs ts → Forall (λ t, syntactic t = true ∧ 2 * tree_size t ≤ n) ts →
  2 * length ts < m →
  ∃ by', zero_width_new (E:=E) m n p vs = Ok by' ∧ length by' = length ts ∧
    (∀ k i, flag k (default default_width (by' !! N.to_nat i)) = true ↔ zero_width ts k (TSym NonTerminal i)) ∧
    (∀ k t, flag k (tree_width by' t) = true ↔ zero_width ts k t).
Proof.
  intros Hf Hts Hm. unfold zero_width_new.
  destruct (width_loop_spec m vs ts (replicate (length vs) default_width) Hf Hts) as (by' & -> & Hlen & Hby).
  - rewrite length_replicate. by eapply Forall2_length.
  - lia.
  - intros k j. destruct (replicate (length vs) default_width !! N.to_nat j) as [w|] eqn:Hw; [|by destruct k].
    apply lookup_replicate in Hw as [-> _]. by destruct k.
  - exists by'. split_and!; [done..|]. intros k t. split; [apply tree_width_sound; by intros; apply Hby|].
    apply tree_width_complete. intros i u k' Hi Hu. rewrite <- (Nat2N.id i). apply Hby.
    apply (zero_variable _ _ _ u); [by rewrite Nat2N.id|]. apply (tree_width_sound _ by'); [by intros; apply Hby|done].
Qed.
End passes.

(** C22: the passes over the grammar end, and the table and the walk give the
    flags of exactly the rules that can match zero characters, without and
    with crossing the end of input: the least solution, whatever the order of
    the variables. *)
Theorem zero_width_correct {H} (E : Type) (p : RulePool H) m n vs ts :
  Forall2 (λ v t, denotes p (var_root v) t) vs ts → Forall (λ t, syntactic t = true ∧ 2 * tree_size t ≤ n) ts →
  2 * length ts < m →
  ∃ by_variable, zero_width_new (E:=E) m n p vs = Ok by_variable ∧
    (∀ k i, flag k (default default_width (by_variable !! N.to_nat i)) = true ↔ zero_width ts k (TSym NonTerminal i)) ∧
    (∀ id t, denotes p id t → syntactic t = true → 2 * tree_size t ≤ n →
       ∃ w, eval (E:=E) n p by_variable id = Ok w ∧ ∀ k, flag k w = true ↔ zero_width ts k t).
Proof.
  intros Hf Hts Hm. destruct (zero_width_new_spec (E:=E) p n m vs ts Hf Hts Hm) as (by' & -> & _ & Hby & Hw).
  exists by'. split_and!; [done..|]. intros id t Hid Hsyn Hn. exists (tree_width by' t).
  split; [by apply eval_spec|]. intros k. apply Hw.
Qed.

(** ** Witness: [a -> choice(seq(b, eof()), blank)], [b -> choice(a, b)]. *)
Definition example_zero : RulePool unit :=
  mkRulePool [Sym NonTerminal 1; REof; Seq (mkRange 0 2); Blank; Choice (mkRange 2 2); Sym NonTerminal 0; Choice (mkRange 4 2)]
             [0; 1; 2; 3; 5; 0]%N [] (mkPool [] [] tt).
Lemma zero_width_correct_witness :
  let ts := [TChoice [TSeq [TSym NonTerminal 1; TEof]; TBlank]; TChoice [TSym NonTerminal 0; TSym NonTerminal 1]]%N in
  ∃ by_variable, zero_width_new (E:=Empty_set) 5 20 example_zero [mkVariable 1 4; mkVariable 2 6] = Ok by_variable ∧
    ∀ k i, flag k (default default_width (by_variable !! N.to_nat i)) = true ↔ zero_width ts k (TSym NonTerminal i).
Proof.
  intros ts.
  destruct (zero_width_correct Empty_set example_zero 5 20 [mkVariable 1 4; mkVariable 2 6] ts) as (by' & H1 & H2 & _).
  - constructor; [exists 9; reflexivity|constructor; [exists 9; reflexivity|constructor]].
  - constructor; [split; [reflexivity|vm_compute; lia]|constructor; [split; [reflexivity|vm_compute; lia]|constructor]].
  - cbn. lia.
  - exists by'. exact (conj H1 H2).
Defined.
