(* ===== verification/RepeatLanguage.v ===== *)
(** * What a grammar's rules derive, and the replacement of a repetition

    [sem] gives the values a rule derives in a monoid: the symbol sequences when
    the monoid is that of lists, the zero widths when it is that of booleans.
    Replacing repetitions of a rule by a variable that stands for a binary tree
    of it changes nothing, in any monoid. *)
From S2P Require Import Prelude Symbols StrPool Rules RuleTrees ZeroWidth.

(** The nodes without parts that are not variables. *)
Definition is_leaf (t : tree) : bool :=
  match t with
  | TBlank | TString _ | TPattern _ _ | TNamed _ | TEof => true
  | TSym NonTerminal _ => false
  | TSym _ _ => true
  | _ => false
  end.

Section sem.
Context {M : Type} (e : M) (op : M → M → M) (leaf : tree → M → Prop).
Inductive sem (ts : list tree) : tree → M → Prop :=
  | sem_leaf t m : is_leaf t = true → leaf t m → sem ts t m
  | sem_var i t m : ts !! N.to_nat i = Some t → sem ts t m → sem ts (TSym NonTerminal i) m
  | sem_nil : sem ts (TSeq []) e
  | sem_cons t l m1 m2 : sem ts t m1 → sem ts (TSeq l) m2 → sem ts (TSeq (t :: l)) (op m1 m2)
  | sem_choice t l m : t ∈ l → sem ts t m → sem ts (TChoice l) m
  | sem_once t m : sem ts t m → sem ts (TRepeat t) m
  | sem_more t m1 m2 : sem ts t m1 → sem ts (TRepeat t) m2 → sem ts (TRepeat t) (op m1 m2)
  | sem_metadata p t m : sem ts t m → sem ts (TMetadata p t) m
  | sem_reserved t c m : sem ts t m → sem ts (TReserved t c) m.
End sem.

(** ** Replacing repetitions of [c] by the variable [k] *)

(** The body of the auxiliary variable: the sequence of two of it, then the
    flattened alternatives of the repeated rule. *)
Definition seq_tree (k : N) : tree := TSeq [TSym NonTerminal k; TSym NonTerminal k].
Definition wrap_tree (k : N) (c : tree) : tree :=
  match flatten_onto [seq_tree k] [c] with [t] => t | l => TChoice l end.

Lemma flatten_onto_one es c : flatten_onto es [c] = foldl add_new es (flatten_tree c).
Proof. unfold flatten_onto. cbn. by rewrite List.app_nil_r. Qed.

(** Its alternatives: only the sequence when there are no others. *)
Lemma wrap_tree_cases k c :
  ∃ es, (∀ u, u ∈ es ↔ u = seq_tree k ∨ u ∈ flatten_tree c) ∧
    (wrap_tree k c = TChoice es ∨ wrap_tree k c = seq_tree k ∧ es = [seq_tree k]).
Proof.
  unfold wrap_tree. rewrite flatten_onto_one. set (es := foldl add_new _ _).
  destruct (foldl_add_new_spec (flatten_tree c) [seq_tree k]) as [Hnd Hin]; [apply NoDup_singleton|].
  exists es. assert (∀ u, u ∈ es ↔ u = seq_tree k ∨ u ∈ flatten_tree c) as Hes.
  { intros u. unfold es. by rewrite Hin, list_elem_of_singleton. }
  split; [done|]. destruct es as [|u [|v es]]; [left; done| |left; done].
  assert (u = seq_tree k) as ->; [|by right]. assert (seq_tree k ∈ [u]) as Hk by (apply Hes; by left).
  by apply list_elem_of_singleton in Hk.
Qed.

(** The variables of a tree, the contents of its repetitions. *)
Fixpoint tree_vars (t : tree) : list N :=
  match t with
  | TSym NonTerminal i => [i]
  | TSeq l | TChoice l => concat (map tree_vars l)
  | TRepeat t | TMetadata _ t | TReserved t _ => tree_vars t
  | _ => []
  end.
Fixpoint repeats (t : tree) : list tree :=
  match t with
  | TSeq l | TChoice l => concat (map repeats l)
  | TRepeat t => t :: repeats t
  | TMetadata _ t | TReserved t _ => repeats t
  | _ => []
  end.
Definition scoped (n : nat) (t : tree) : Prop := ∀ i, i ∈ tree_vars t → N.to_nat i < n.

Section repl.
Context (c : tree) (k : N) (n : nat).

(** [repl t t']: [t'] is [t], whose variables are below [n], with some
    repetitions of [c] replaced. *)
Inductive repl : tree → tree → Prop :=
  | repl_hit : repl (TRepeat c) (TSym NonTerminal k)
  | repl_leaf t : is_leaf t = true → repl t t
  | repl_var i : N.to_nat i < n → repl (TSym NonTerminal i) (TSym NonTerminal i)
  | repl_seq_nil : repl (TSeq []) (TSeq [])
  | repl_seq_cons t t' l l' : repl t t' → repl (TSeq l) (TSeq l') → repl (TSeq (t :: l)) (TSeq (t' :: l'))
  | repl_choice_nil : repl (TChoice []) (TChoice [])
  | repl_choice_cons t t' l l' : repl t t' → repl (TChoice l) (TChoice l') → repl (TChoice (t :: l)) (TChoice (t' :: l'))
  | repl_repeat t t' : repl t t' → repl (TRepeat t) (TRepeat t')
  | repl_metadata m t t' : repl t t' → repl (TMetadata m t) (TMetadata m t')
  | repl_reserved t t' x : repl t t' → repl (TReserved t x) (TReserved t' x).

Lemma repl_choice_elem l l' : repl (TChoice l) (TChoice l') →
  (∀ t, t ∈ l → ∃ t', t' ∈ l' ∧ repl t t') ∧ (∀ t', t' ∈ l' → ∃ t, t ∈ l ∧ repl t t').
Proof.
  revert l'. induction l as [|t l IH]; intros l' Hr; inversion Hr as [|? Hlf| | | | |? t' ? l1 Ht Hl| | |]; subst; try done.
  - split; intros ? Hn; by apply not_elem_of_nil in Hn.
  - destruct (IH l1 Hl) as [H1 H2]. split.
    + intros u [->|Hu]%elem_of_cons; [exists t'; split; [apply list_elem_of_here|done]|].
      destruct (H1 u Hu) as (u' & ? & ?). exists u'. split; [by apply list_elem_of_further|done].
    + intros u [->|Hu]%elem_of_cons; [exists t; split; [apply list_elem_of_here|done]|].
      destruct (H2 u Hu) as (u' & ? & ?). exists u'. split; [by apply list_elem_of_further|done].
Qed.

Lemma repl_lists l l' : Forall2 repl l l' → repl (TSeq l) (TSeq l') ∧ repl (TChoice l) (TChoice l').
Proof. induction 1 as [|t t' l l' Ht _ [IH1 IH2]]; split; by constructor. Qed.

Lemma scoped_cons t l : scoped n (TSeq (t :: l)) ↔ scoped n t ∧ scoped n (TSeq l).
Proof. unfold scoped. cbn. setoid_rewrite elem_of_app. naive_solver. Qed.

Lemma repl_refl t : scoped n t → repl t t.
Proof.
  assert (∀ m t, tree_size t ≤ m → scoped n t → repl t t) as Hall; [|by apply (Hall (tree_size t))].
  clear t. induction m as [|m IH]; intros t Hm Hok; [pose proof (tree_size_pos t); lia|].
  assert (∀ l, sum_list (map tree_size l) ≤ m → scoped n (TSeq l) → Forall2 repl l l) as Hl.
  { induction l as [|u l IHl]; [constructor|]. intros Hs [Hu Hl]%scoped_cons. cbn in Hs.
    constructor; [apply IH; [lia|done]|apply IHl; [lia|done]]. }
  destruct t as [| | | |kd i|l|l|t| |mp t|t x]; cbn in Hm; try (by apply repl_leaf).
  - destruct kd; try by apply repl_leaf. apply repl_var, Hok, list_elem_of_here.
  - apply repl_lists, Hl; [lia|done].
  - apply repl_lists, Hl; [lia|done].
  - apply repl_repeat. apply IH; [lia|done].
  - apply repl_metadata. apply IH; [lia|done].
  - apply repl_reserved. apply IH; [lia|done].
Qed.

(** A rule without repetitions stays what it is. *)
Lemma repl_free t t' : repl t t' → repeats t = [] → t' = t.
Proof.
  induction 1 as [| | | |t t' l l' _ IH1 _ IH2| |t t' l l' _ IH1 _ IH2| |m t t' _ IH|t t' x _ IH]; cbn; try done.
  - intros [H1 H2]%app_eq_nil. rewrite (IH1 H1). specialize (IH2 H2). by simplify_eq.
  - intros [H1 H2]%app_eq_nil. rewrite (IH1 H1). specialize (IH2 H2). by simplify_eq.
  - intros Hr. by rewrite (IH Hr).
  - intros Hr. by rewrite (IH Hr).
Qed.
Lemma repl_size t t' : repl t t' → tree_size t' ≤ tree_size t.
Proof. induction 1; cbn in *; lia. Qed.
Lemma repl_syntactic t t' : repl t t' → syntactic t = true → syntactic t' = true.
Proof.
  induction 1 as [| | | |t t' l l' _ IH1 _ IH2| |t t' l l' _ IH1 _ IH2| | |]; cbn in *; try done;
    intros [H1 H2]%andb_true_iff; rewrite IH1, IH2; done.
Qed.
Lemma repl_scoped n' t t' : repl t t' → n ≤ n' → N.to_nat k < n' → scoped n' t'.
Proof.
  intros Hr Hle Hk. induction Hr as [|t Hl|i Hi| |t t' l l' _ IH1 _ IH2| |t t' l l' _ IH1 _ IH2| | |];
    intros j Hj; cbn in Hj; try (by apply not_elem_of_nil in Hj); try (by auto).
  - by apply list_elem_of_singleton in Hj as ->.
  - destruct t as [| | | |[]| | | | | |]; cbn in *; try done; by apply not_elem_of_nil in Hj.
  - apply list_elem_of_singleton in Hj as ->. lia.
  - apply elem_of_app in Hj as [?|?]; auto.
  - apply elem_of_app in Hj as [?|?]; auto.
Qed.

(** Where the repetitions of the new rule come from, and where the old ones went. *)
Lemma repl_repeats t t' : repl t t' →
  (∀ d', d' ∈ repeats t' → ∃ d, d ∈ repeats t ∧ repl d d') ∧
  (∀ d, d ∈ repeats t → repeats c = [] → d = c ∨ ∃ d', d' ∈ repeats t' ∧ repl d d').
Proof.
  induction 1 as [|t Hl| | |t t' l l' _ [IH1 IH1'] _ [IH2 IH2']| |t t' l l' _ [IH1 IH1'] _ [IH2 IH2']|t t' Ht [IH IH']| |];
    cbn; try (split; intros ? Hd; by apply not_elem_of_nil in Hd); try done.
  - split; [intros ? Hd; by apply not_elem_of_nil in Hd|]. intros d Hd Hc. rewrite Hc in Hd.
    apply list_elem_of_singleton in Hd. by left.
  - destruct t as [| | | |[]| | | | | |]; try done; cbn; split; intros ? Hd; by apply not_elem_of_nil in Hd.
  - setoid_rewrite elem_of_app. split; [intros d' [Hd|Hd]; [destruct (IH1 _ Hd)|destruct (IH2 _ Hd)]; naive_solver|].
    intros d [Hd|Hd] Hc; [destruct (IH1' _ Hd Hc)|destruct (IH2' _ Hd Hc)]; naive_solver.
  - setoid_rewrite elem_of_app. split; [intros d' [Hd|Hd]; [destruct (IH1 _ Hd)|destruct (IH2 _ Hd)]; naive_solver|].
    intros d [Hd|Hd] Hc; [destruct (IH1' _ Hd Hc)|destruct (IH2' _ Hd Hc)]; naive_solver.
  - setoid_rewrite elem_of_cons. split.
    + intros d' [->|Hd]; [eauto|]. destruct (IH _ Hd). naive_solver.
    + intros d [->|Hd] Hc; [right; eauto|]. destruct (IH' _ Hd Hc); naive_solver.
Qed.
End repl.

(** ** The replacement keeps what is derived *)
Section preserve.
Context {M : Type} (e : M) (op : M → M → M) (leaf : tree → M → Prop).
Context (op_assoc : ∀ a b d, op (op a b) d = op a (op b d)) (op_unit : ∀ a, op a e = a).
Notation S := (sem e op leaf).

Lemma sem_repeat_app ts t m1 m2 : S ts (TRepeat t) m1 → S ts (TRepeat t) m2 → S ts (TRepeat t) (op m1 m2).
Proof.
  intros H1 H2. remember (TRepeat t) as u eqn:Hu. revert Hu. induction H1 as [? ? Hl| | | | |? m Ht _|? a b Ht _ _ IH| |];
    intros; simplify_eq; [by apply sem_more|]. rewrite op_assoc. apply sem_more; [done|by apply IH].
Qed.

Lemma sem_flatten n ts t m : tree_size t ≤ n → S ts t m ↔ ∃ u, u ∈ flatten_tree t ∧ S ts u m.
Proof.
  revert t. induction n as [|n IH]; intros t Hn; [pose proof (tree_size_pos t); lia|].
  assert (flatten_tree t = [t] → S ts t m ↔ ∃ u, u ∈ flatten_tree t ∧ S ts u m) as Hone.
  { intros ->. setoid_rewrite list_elem_of_singleton. naive_solver. }
  destruct t as [| | | | | |l| | | |]; try by apply Hone.
  cbn [flatten_tree]. setoid_rewrite elem_of_concat_map. split.
  - intros Hs. inversion Hs as [? ? Hl| | | |u ? ? Hu Hum| | | |]; subst; [done|].
    apply IH in Hum as (x & Hx & Hxm); [eauto|]. pose proof (tsum_elem u l Hu). cbn in Hn. unfold tsum in *. lia.
  - intros (x & (u & Hu & Hx) & Hxm). apply (sem_choice _ _ _ _ u); [done|]. apply IH; [|eauto].
    pose proof (tsum_elem u l Hu). cbn in Hn. unfold tsum in *. lia.
Qed.

Lemma flatten_tree_vars n t u j : tree_size t ≤ n → u ∈ flatten_tree t → j ∈ tree_vars u → j ∈ tree_vars t.
Proof.
  revert t u. induction n as [|n IH]; intros t u Hn Hu Hj; [pose proof (tree_size_pos t); lia|].
  destruct t; try (by apply list_elem_of_singleton in Hu as ->).
  cbn in Hu. apply elem_of_concat_map in Hu as (v & Hv & Hu). cbn. apply elem_of_concat_map. exists v.
  split; [done|]. eapply IH; [|done|done]. pose proof (tsum_elem v l Hv). cbn in Hn. unfold tsum in *. lia.
Qed.

Context (c : tree) (k : N) (ts ts' : list tree).
Notation R := (repl c k (length ts)).
Context (Hk' : ts' !! N.to_nat k = Some (wrap_tree k c)).
Context (Hc : scoped (length ts) c).
Context (Hvar : ∀ i t, N.to_nat i ≠ N.to_nat k → ts !! N.to_nat i = Some t → ∃ t', ts' !! N.to_nat i = Some t' ∧ R t t').
Context (Hk : N.to_nat k < length ts → ts !! N.to_nat k = Some (wrap_tree k c) ∨ ts !! N.to_nat k = Some (TRepeat c)).

Lemma seq_tree_app tz m1 m2 : S tz (TSym NonTerminal k) m1 → S tz (TSym NonTerminal k) m2 → S tz (seq_tree k) (op m1 m2).
Proof. intros H1 H2. rewrite <- (op_unit m2). apply sem_cons; [done|]. apply sem_cons; [done|]. apply sem_nil. Qed.

(** A variable with the body [wrap_tree k c] derives the repetitions. *)
Lemma wrap_tree_closed tz :
  tz !! N.to_nat k = Some (wrap_tree k c) →
  (∀ m, S tz c m → S tz (TSym NonTerminal k) m) ∧
  (∀ m1 m2, S tz (TSym NonTerminal k) m1 → S tz (TSym NonTerminal k) m2 → S tz (TSym NonTerminal k) (op m1 m2)).
Proof.
  intros Hz. destruct (wrap_tree_cases k c) as (es & Hes & Hw). split.
  - intros m Hm. apply (sem_flatten _ _ _ _ (le_n _)) in Hm as (u & Hu & Hm).
    apply (sem_var _ _ _ _ k _ _ Hz). destruct Hw as [->|[-> ->]].
    + apply (sem_choice _ _ _ _ u); [|done]. apply Hes. by right.
    + assert (u ∈ [seq_tree k]) as ->%list_elem_of_singleton by (apply Hes; by right). done.
  - intros m1 m2 H1 H2. apply (sem_var _ _ _ _ k _ _ Hz). pose proof (seq_tree_app tz m1 m2 H1 H2) as Hs.
    destruct Hw as [->|[-> _]]; [|done]. apply (sem_choice _ _ _ _ (seq_tree k)); [|done]. apply Hes. by left.
Qed.
Lemma wrap_tree_repeat tz m : tz !! N.to_nat k = Some (wrap_tree k c) → S tz (TRepeat c) m → S tz (TSym NonTerminal k) m.
Proof.
  intros Hz Hm. destruct (wrap_tree_closed tz Hz) as [H1 H2]. remember (TRepeat c) as u eqn:Hu. revert Hu.
  induction Hm as [? ? Hl| | | | |? m Ht _|? a b Ht _ _ IH| |]; intros; simplify_eq; [by apply H1|].
  apply H2; [by apply H1|by apply IH].
Qed.

Lemma repl_alt u : u ∈ flatten_tree c → R u u.
Proof. intros Hu. apply repl_refl. intros j Hj. apply Hc. by apply (flatten_tree_vars _ c u j (le_n _)). Qed.
Lemma repl_wrap : N.to_nat k < length ts → R (wrap_tree k c) (wrap_tree k c).
Proof.
  intros Hlt. assert (R (seq_tree k) (seq_tree k)) as Hseq.
  { apply repl_refl. intros j. cbn. rewrite !elem_of_cons, elem_of_nil. intros [->|[->|[]]]; done. }
  destruct (wrap_tree_cases k c) as (es & Hes & [->|[-> _]]); [|done].
  apply repl_lists. assert (∀ u, u ∈ es → R u u) as Hall.
  { intros u [->|Hu]%Hes; [done|by apply repl_alt]. }
  clear Hes. induction es as [|u es IH]; constructor; [apply Hall, list_elem_of_here|].
  apply IH. intros v Hv. apply Hall. by apply list_elem_of_further.
Qed.

Lemma repl_sem t t' m : R t t' → S ts t m → S ts' t' m.
Proof.
  destruct (wrap_tree_closed ts' Hk') as [Hone Happ]. pose proof (repl_refl c k _ c Hc) as Hcc.
  intros Hr Hm. revert t' Hr. induction Hm as [t m Hl Hm|i t m Hi Hm IH| |t l m1 m2 _ IH1 _ IH2|t l m Hin _ IH|t m _ IH|t m1 m2 _ IH1 _ IH2|p t m _ IH|t x m _ IH];
    intros t' Hr.
  - destruct Hr; try done. by apply sem_leaf.
  - inversion Hr as [|? Hl|? Hlt| | | | | | |]; subst; [done|]. destruct (decide (N.to_nat i = N.to_nat k)) as [Heq|Hne].
    + apply N2Nat.inj in Heq as ->. destruct (Hk Hlt) as [Ht|Ht]; rewrite Ht in Hi; injection Hi as <-.
      * apply (sem_var _ _ _ _ k _ _ Hk'). by apply IH, repl_wrap.
      * apply wrap_tree_repeat; [done|]. apply IH. by apply repl_repeat.
    + destruct (Hvar i t Hne Hi) as (t' & Ht' & Hr'). apply (sem_var _ _ _ _ i t'); [done|]. by apply IH.
  - inversion Hr; subst; apply sem_nil.
  - inversion Hr; subst; [done|]. apply sem_cons; [by apply IH1|by apply IH2].
  - assert (∃ l', t' = TChoice l') as [l' ->] by (inversion Hr; subst; eauto; done).
    destruct (repl_choice_elem c k _ _ _ Hr) as [Hto _]. destruct (Hto t Hin) as (u & Hu & Hru).
    apply (sem_choice _ _ _ _ u); [done|by apply IH].
  - inversion Hr; subst; [by apply Hone, IH|done|apply sem_once; by apply IH].
  - inversion Hr as [|? Hl| | | | | |? ? Ht| |]; subst; [|done|apply sem_more; [by apply IH1|by apply IH2]].
    apply Happ; [by apply Hone, IH1|by apply IH2].
  - inversion Hr; subst; [done|]. apply sem_metadata. by apply IH.
  - inversion Hr; subst; [done|]. apply sem_reserved. by apply IH.
Qed.

(** The converse, with what the parts of the new body stand for. *)
Definition new_part (t : tree) : Prop :=
  t = TSym NonTerminal k ∨ t = wrap_tree k c ∨ t = seq_tree k ∨ t = TSeq [TSym NonTerminal k].

Lemma sem_repl_all t' m : S ts' t' m →
  (∀ t, R t t' → S ts t m) ∧ (new_part t' → S ts (TRepeat c) m).
Proof.
  assert (∀ m, N.to_nat k < length ts → S ts (TRepeat c) m → S ts (TSym NonTerminal k) m) as Hkeep.
  { intros x Hok Hx. destruct (Hk Hok) as [Ht|Ht]; [by apply wrap_tree_repeat|by apply (sem_var _ _ _ _ k _ _ Ht)]. }
  destruct (wrap_tree_cases k c) as (es & Hes & Hw). unfold new_part.
  intros Hm. induction Hm as [t' m Hl Hm|i t' m Hi Hm [IH1 IH2]| |t' l m1 m2 _ [IHt1 IHt2] Hl2 [IHl1 IHl2]|t' l m Hin _ [IH1 IH2]|t' m _ [IH _]|t' m1 m2 _ [IH1 _] _ [IH2 _]|p t' m _ [IH _]|t' x m _ [IH _]].
  - split.
    + intros t Hr. inversion Hr; subst; try done. by apply sem_leaf.
    + intros [->|[->|[->| ->]]]; try done. by destruct Hw as [Hw|[Hw _]]; rewrite Hw in Hl.
  - assert (i = k → S ts (TRepeat c) m) as Hnew.
    { intros ->. rewrite Hk' in Hi. injection Hi as <-. apply IH2. by right; left. }
    split.
    + intros t Hr. inversion Hr as [| |? Hlt| | | | | | |]; subst; [by apply Hnew|done|].
      destruct (decide (N.to_nat i = N.to_nat k)) as [Heq|Hne].
      * apply N2Nat.inj in Heq as ->. by apply Hkeep, Hnew.
      * destruct (lookup_lt_is_Some_2 ts _ Hlt) as [u Hu]. destruct (Hvar i u Hne Hu) as (u' & Hu' & Hr').
        rewrite Hi in Hu'. injection Hu' as <-. apply (sem_var _ _ _ _ i u); [done|by apply IH1].
    + intros [[= ->]|[Heq|[Heq|Heq]]]; [by apply Hnew| |done|done].
      by destruct Hw as [Hw|[Hw _]]; rewrite Hw in Heq.
  - split.
    + intros t Hr. inversion Hr; subst; [done|]. apply sem_nil.
    + intros [Heq|[Heq|[Heq|Heq]]]; try done. by destruct Hw as [Hw|[Hw _]]; rewrite Hw in Heq.
  - split.
    + intros t Hr. inversion Hr; subst; [done|]. apply sem_cons; [by apply IHt1|by apply IHl1].
    + intros Heq. assert (TSeq (t' :: l) = seq_tree k ∨ TSeq (t' :: l) = TSeq [TSym NonTerminal k]) as [[= -> ->]|[= -> ->]].
      { destruct Heq as [Heq|[Heq|Heq]]; [done| |done]. destruct Hw as [Hw|[Hw _]]; rewrite Hw in Heq; [done|by left]. }
      * apply sem_repeat_app; [apply IHt2; by left|apply IHl2; by right; right; right].
      * assert (m2 = e) as -> by (inversion Hl2; subst; done). rewrite op_unit. apply IHt2. by left.
  - split.
    + intros t Hr. assert (∃ l0, t = TChoice l0) as [l0 ->] by (inversion Hr; subst; eauto; done).
      destruct (repl_choice_elem c k _ _ _ Hr) as [_ Hof]. destruct (Hof t' Hin) as (u & Hu & Hru).
      apply (sem_choice _ _ _ _ u); [done|by apply IH1].
    + intros Heq. assert (TChoice l = wrap_tree k c) as Heq' by (destruct Heq as [?|[?|[?|?]]]; done). clear Heq.
      destruct Hw as [Hw|[Hw _]]; rewrite Hw in Heq'; [|done]. injection Heq' as ->.
      apply Hes in Hin as [->|Hu]; [apply IH2; by right; right; left|].
      apply sem_once, (sem_flatten _ _ _ _ (le_n _)). exists t'. split; [done|]. by apply IH1, repl_alt.
  - split; [intros t Hr; inversion Hr; subst; [done|]; by apply sem_once, IH|].
    intros [?|[Hn|[?|?]]]; try done. by destruct Hw as [Hw|[Hw _]]; rewrite Hw in Hn.
  - split; [intros t Hr; inversion Hr; subst; [done|]; apply sem_more; [by apply IH1|by apply IH2, repl_repeat]|].
    intros [?|[Hn|[?|?]]]; try done. by destruct Hw as [Hw|[Hw _]]; rewrite Hw in Hn.
  - split; [intros t Hr; inversion Hr; subst; [done|]; by apply sem_metadata, IH|].
    intros [?|[Hn|[?|?]]]; try done. by destruct Hw as [Hw|[Hw _]]; rewrite Hw in Hn.
  - split; [intros t Hr; inversion Hr; subst; [done|]; by apply sem_reserved, IH|].
    intros [?|[Hn|[?|?]]]; try done. by destruct Hw as [Hw|[Hw _]]; rewrite Hw in Hn.
Qed.
End preserve.

(** ** Rules that mean the same in two grammars *)
Definition agree (ts : list tree) (t : tree) (ts' : list tree) (t' : tree) : Prop :=
  ∀ (M : Type) (e : M) (op : M → M → M) (leaf : tree → M → Prop),
    (∀ a b d, op (op a b) d = op a (op b d)) → (∀ a, op a e = a) →
    ∀ m, sem e op leaf ts t m ↔ sem e op leaf ts' t' m.

Lemma agree_refl ts t : agree ts t ts t.
Proof. done. Qed.
Lemma agree_trans ts t ts' t' ts'' t'' : agree ts t ts' t' → agree ts' t' ts'' t'' → agree ts t ts'' t''.
Proof. intros H1 H2 M e op leaf Ha Hu m. by rewrite (H1 M e op leaf Ha Hu), (H2 M e op leaf Ha Hu). Qed.

(** The zero widths are the values in the booleans. *)
Definition zero_leaf (t : tree) (k : bool) : Prop :=
  match t with
  | TBlank | TSym External _ => k = false
  | TString s => s = EMPTY_STR_ID ∧ k = false
  | TEof | TSym End _ => k = true
  | _ => False
  end.
Lemma zero_width_sem ts k t : zero_width ts k t ↔ sem false orb zero_leaf ts t k.
Proof.
  split; induction 1 as [| | | | |? ? ? ? ? ?| |? ? ? ? ? ? ? ?|? ? ? ? ? ?| | |] || induction 1 as [t m Hl Hm| | | | | |t m1 m2 _ IH1 _ IH2| |];
    try by (apply sem_leaf).
  all: try (by apply sem_nil). all: try (by apply sem_cons). all: try (by eapply sem_var). all: try (by eapply sem_choice).
  all: try (by apply sem_once). all: try (by apply sem_metadata). all: try (by apply sem_reserved).
  all: try (by econstructor).
  - destruct t as [| | | |[]| | | | | |]; cbn in *; try done; destr_ex; subst; constructor.
  - destruct m1; cbn; [by constructor|done].
Qed.
Lemma agree_zero ts t ts' t' k : agree ts t ts' t' → zero_width ts k t ↔ zero_width ts' k t'.
Proof.
  intros Ha. rewrite !zero_width_sem. apply Ha; [by intros [] [] []|by intros []].
Qed.

(** No repetition is out of the reach of the expansion, which does not enter
    [reserved]. *)
Fixpoint reserved_free (t : tree) : bool :=
  match t with
  | TSeq l | TChoice l => forallb reserved_free l
  | TRepeat t | TMetadata _ t => reserved_free t
  | TReserved t _ => bool_decide (repeats t = [])
  | _ => true
  end.
Lemma repl_reserved_free c k n t t' : repl c k n t t' → reserved_free t = true → reserved_free t' = true.
Proof.
  induction 1 as [| | | |t t' l l' _ IH1 _ IH2| |t t' l l' _ IH1 _ IH2| | |t t' x Hr _]; cbn in *; try done.
  - intros [H1 H2]%andb_true_iff. rewrite IH1, IH2; done.
  - intros [H1 H2]%andb_true_iff. rewrite IH1, IH2; done.
  - rewrite !bool_decide_eq_true. intros Hn. by rewrite (repl_free _ _ _ _ _ Hr Hn).
Qed.

Record wf_rule (n : nat) (t : tree) : Prop := {
  wf_syntactic : syntactic t = true;
  wf_reserved : reserved_free t = true;
  wf_scoped : scoped n t;
}.
Lemma wf_rule_le n n' t : wf_rule n t → n ≤ n' → wf_rule n' t.
Proof. intros [Hs Hr Hv] Hle. split; [done..|]. intros i Hi. specialize (Hv i Hi). lia. Qed.

(** A repetition that cannot match the end of input only. *)
Definition checked (ts : list tree) (c : tree) : Prop := ¬ zero_width ts true c.

(** [t'] is [t] after some repetitions were checked and expanded. *)
Record expanded (ts : list tree) (t : tree) (ts' : list tree) (t' : tree) : Prop := {
  ex_agree : agree ts t ts' t';
  ex_size : tree_size t' ≤ tree_size t;
  ex_free : repeats t = [] → t' = t;
  ex_wf : wf_rule (length ts') t';
  ex_repeat : ∀ d', t' = TRepeat d' → ∃ d, t = TRepeat d;
  ex_new : ∀ d', d' ∈ repeats t' → ∃ d, d ∈ repeats t ∧ agree ts d ts' d';
  ex_old : ∀ d, d ∈ repeats t → checked ts d ∨ ∃ d', d' ∈ repeats t' ∧ agree ts d ts' d';
}.

Lemma expanded_refl ts t : wf_rule (length ts) t → expanded ts t ts t.
Proof. intros Hwf. split; [done|lia|done|done|eauto|eauto using agree_refl..]. Qed.
Lemma expanded_trans ts t ts' t' ts'' t'' :
  expanded ts t ts' t' → expanded ts' t' ts'' t'' → expanded ts t ts'' t''.
Proof.
  intros [A1 S1 F1 W1 R1 N1 O1] [A2 S2 F2 W2 R2 N2 O2]. split.
  - by eapply agree_trans.
  - lia.
  - intros Hf. rewrite F2; [by apply F1|]. by rewrite F1.
  - done.
  - intros d'' (d' & Hd')%R2. by apply R1 in Hd'.
  - intros d'' (d' & Hd' & Ha')%N2. destruct (N1 d' Hd') as (d & Hd & Ha). exists d. split; [done|by eapply agree_trans].
  - intros d [?|(d' & Hd' & Ha)]%O1; [by left|]. destruct (O2 d' Hd') as [Hch|(d'' & Hd'' & Ha')].
    + left. intros Hz. by apply Hch, (agree_zero _ _ _ _ _ Ha).
    + right. exists d''. split; [done|by eapply agree_trans].
Qed.

(** One step of the expansion: repetitions of [c] become the variable [k]. *)
Record repl_step (c : tree) (k : N) (ts ts' : list tree) : Prop := {
  rs_new : ts' !! N.to_nat k = Some (wrap_tree k c);
  rs_wf : wf_rule (length ts) c;
  rs_free : repeats c = [];
  rs_checked : checked ts c;
  rs_le : length ts ≤ length ts';
  rs_var : ∀ i t, N.to_nat i ≠ N.to_nat k → ts !! N.to_nat i = Some t →
    ∃ t', ts' !! N.to_nat i = Some t' ∧ repl c k (length ts) t t';
  rs_old : N.to_nat k < length ts →
    ts !! N.to_nat k = Some (wrap_tree k c) ∨ ts !! N.to_nat k = Some (TRepeat c);
}.

Lemma repl_agree c k ts ts' t t' : repl_step c k ts ts' → repl c k (length ts) t t' → agree ts t ts' t'.
Proof.
  intros [Hk' Hwf _ _ _ Hvar Hk] Hr M e op leaf Ha Hu m. pose proof (wf_scoped _ _ Hwf) as Hc. split.
  - by eapply repl_sem.
  - intros Hm. by eapply (sem_repl_all e op leaf Ha Hu c k ts ts').
Qed.
Lemma repl_expanded c k ts ts' t t' :
  repl_step c k ts ts' → wf_rule (length ts) t → repl c k (length ts) t t' → expanded ts t ts' t'.
Proof.
  intros Hst [Hs Hrf Hv] Hr. destruct (repl_repeats _ _ _ _ _ Hr) as [Hnew Hold]. split.
  - by eapply repl_agree.
  - by eapply repl_size.
  - by apply (repl_free _ _ _ _ _ Hr).
  - split; [by eapply repl_syntactic|by eapply repl_reserved_free|].
    eapply repl_scoped; [done|apply Hst|]. eapply lookup_lt_Some, Hst.
  - intros d' ->. inversion Hr; subst; [done|eauto].
  - intros d' (d & Hd & Hr')%Hnew. exists d. split; [done|by eapply repl_agree].
  - intros d Hd. destruct (Hold d Hd (rs_free _ _ _ _ Hst)) as [->|(d' & Hd' & Hr')]; [left; apply Hst|].
    right. exists d'. split; [done|by eapply repl_agree].
Qed.

(** A rule whose repetitions are all expanded. *)
Definition flat_rule (n : nat) (t : tree) : Prop := wf_rule n t ∧ repeats t = [].
Lemma concat_nil {A B} (g : A → list B) l : concat (map g l) = [] ↔ ∀ x, x ∈ l → g x = [].
Proof.
  induction l as [|x l IH]; cbn; [split; [by intros _ ? ?%not_elem_of_nil|done]|].
  split.
  - intros [Hx Hl]%app_eq_nil. intros y [->|Hy]%elem_of_cons; [done|by apply IH].
  - intros Hall. rewrite (Hall x (list_elem_of_here _ _)). apply IH. intros y Hy. apply Hall. by apply list_elem_of_further.
Qed.
Lemma wf_list n l :
  (wf_rule n (TSeq l) ↔ ∀ u, u ∈ l → wf_rule n u) ∧ (wf_rule n (TChoice l) ↔ ∀ u, u ∈ l → wf_rule n u).
Proof.
  assert ((∀ u, u ∈ l → wf_rule n u) ↔
    forallb syntactic l = true ∧ forallb reserved_free l = true ∧ ∀ i, i ∈ concat (map tree_vars l) → N.to_nat i < n) as Hall.
  { rewrite !forallb_forall. setoid_rewrite <- list_elem_of_In. setoid_rewrite elem_of_concat_map. split.
    - intros Hw. split_and!; [intros u Hu; by apply Hw..|]. intros i (u & Hu & Hi). by apply (Hw u Hu).
    - intros (H1 & H2 & H3) u Hu. split; [auto..|]. intros i Hi. apply H3. eauto. }
  split; rewrite Hall; (split; [intros [? ? ?]; by split_and!|intros (? & ? & ?); by split]).
Qed.
Lemma flat_list n l :
  (flat_rule n (TSeq l) ↔ ∀ u, u ∈ l → flat_rule n u) ∧ (flat_rule n (TChoice l) ↔ ∀ u, u ∈ l → flat_rule n u).
Proof.
  unfold flat_rule. cbn [repeats]. rewrite (concat_nil repeats l). destruct (wf_list n l) as [-> ->]. naive_solver.
Qed.
Lemma flatten_tree_flat m n t u : tree_size t ≤ m → flat_rule n t → u ∈ flatten_tree t → flat_rule n u.
Proof.
  revert t. induction m as [|m IH]; intros t Hm Ht Hu; [pose proof (tree_size_pos t); lia|].
  destruct t as [| | | | | |l| | | |]; try (by apply list_elem_of_singleton in Hu as ->).
  cbn in Hu. apply elem_of_concat_map in Hu as (v & Hv & Hu). apply (IH v); [|by apply (proj2 (flat_list n l))|done].
  pose proof (tsum_elem v l Hv). cbn in Hm. unfold tsum in *. lia.
Qed.
Lemma wrap_tree_flat n k c : flat_rule n c → N.to_nat k < n → flat_rule n (wrap_tree k c).
Proof.
  intros Hc Hk. assert (flat_rule n (seq_tree k)) as Hseq.
  { split; [|done]. split; [done..|]. intros j. cbn. rewrite !elem_of_cons, elem_of_nil. intros [->|[->|[]]]; done. }
  destruct (wrap_tree_cases k c) as (es & Hes & [->|[-> _]]); [|done]. apply (proj2 (flat_list n es)).
  intros u [->|Hu]%Hes; [done|by apply (flatten_tree_flat _ n c u (le_n _))].
Qed.
