(* ===== verification/ExpandRepeats.v ===== *)
(** * [crates/generate/src/prepare_grammar/expand_repeats.rs]: repetitions become
    auxiliary variables

    A repetition of [content] is replaced by a variable [r] with the rule
    [choice(seq(r, r), content)], shared by equal contents.  The pool is changed
    in place while it is walked. *)
From S2P Require Import Prelude Symbols StrPool Rules RuleTrees Grammars Flatten ZeroWidth.

Inductive Task := VisitTask (id : RuleId) | ExpandTask (id content : RuleId).

(** The error carries the name of the variable. *)
Inductive ExpandRepeatsError := mkExpandRepeatsError (name : bytes).

(** [FxHashMap<u64, Vec<(RuleId, Symbol)>>]. *)
Notation memo_map := (gmap N (list (N * Symbol))) (only parsing).

(** The fields of [Expander] that last between the roots; [stack] is emptied by
    every walk. *)
Record Expander := mkExpander {
  preceding : nat;
  aux : list Variable_;
  memo : memo_map;
  by_variable : list Width;
}.

(** ["_repeat"] and the digits of [{}]; a [u32] has at most ten. *)
Definition repeat_infix : bytes := [95; 114; 101; 112; 101; 97; 116]%N.
Fixpoint dec_digits (fuel : nat) (n : N) (acc : bytes) : bytes :=
  match fuel with
  | O => acc
  | S fuel =>
      let acc := (48 + n mod 10)%N :: acc in
      if (n <? 10)%N then acc else dec_digits fuel (n / 10) acc
  end.
Definition repeat_name (var_name : bytes) (counter : N) : bytes :=
  var_name ++ repeat_infix ++ dec_digits 10 counter [].

Section expand.
Context {H : Type} `{HashTable H} (hash_one : bytes → N) (fx : list HashItem → N).
Implicit Types (p : RulePool H) (g : InputGrammar H) (e : Expander).

(** [RulePool::intern]. *)
Definition pool_intern {E} p (s : bytes) : outcome E (StrId * RulePool H) :=
  '(id, sp) ← intern hash_one (str_pool p) s; Ok (id, set_str_pool p sp).

Definition wrap_in_binary_tree {E} (k : nat) p (symbol : Symbol) (inner : RuleId) : outcome E (RuleId * RulePool H) :=
  let '(s1, p) := push_node p (rule_of_symbol symbol) in
  let '(s2, p) := push_node p (rule_of_symbol symbol) in
  let '(range, p) := push_children p [s1; s2] in
  let '(seq, p) := push_node p (Seq range) in
  elements ← flatten_loop k p [inner] [seq];
  if length elements =? 1 then root ← vec_get elements 0; Ok (root, p)
  else
    let '(range, p) := push_children p elements in
    Ok (push_node p (Choice range)).

(** [for &(node, symbol) in candidates]. *)
Fixpoint find_candidate {E} (k : nat) p (candidates : list (N * Symbol)) (content : RuleId) : outcome E (option Symbol) :=
  match candidates with
  | [] => Ok None
  | (node, symbol) :: candidates =>
      b ← subtree_eq k p node content;
      if b : bool then Ok (Some symbol) else find_candidate k p candidates content
  end.

(** A new auxiliary variable for [content]. *)
Definition new_aux {E} (k : nat) p e (var_name : StrId) (counter : N) (width : Width) (hash : N) (content : RuleId) :
    outcome E (Symbol * N * RulePool H * Expander) :=
  let counter := wrap_u32 (counter + 1) in
  s ← resolve (str_pool p) var_name;
  '(name, p) ← pool_intern p (repeat_name s counter);
  let symbol := non_terminal (N.of_nat (preceding e + length (aux e))) in
  let by' := by_variable e ++ [width] in
  let memo' := <[hash := default [] (memo e !! hash) ++ [(content, symbol)]]> (memo e) in
  '(root, p) ← wrap_in_binary_tree k p symbol content;
  Ok (symbol, counter, p, mkExpander (preceding e) (aux e ++ [mkVariable name root]) memo' by').

Fixpoint expand_loop (n k : nat) p e (var_name : StrId) (counter : N) (stack : list Task) :
    outcome ExpandRepeatsError (N * RulePool H * Expander) :=
  match stack with
  | [] => Ok (counter, p, e)
  | task :: stack =>
      match n with
      | O => OutOfFuel
      | S n =>
          match task with
          | VisitTask id =>
              nd ← node p id;
              match nd with
              | Repeat content => expand_loop n k p e var_name counter (VisitTask content :: ExpandTask id content :: stack)
              | Seq r | Choice r =>
                  cs ← child_slice p r; expand_loop n k p e var_name counter (map VisitTask cs ++ stack)
              | Metadata _ rule => expand_loop n k p e var_name counter (VisitTask rule :: stack)
              | _ => expand_loop n k p e var_name counter stack
              end
          | ExpandTask id content =>
              width ← eval k p (by_variable e) content;
              if eof_nullable width then s ← resolve (str_pool p) var_name; Err (mkExpandRepeatsError s)
              else
                hash ← subtree_hash fx k p content;
                found ← match memo e !! hash with
                        | Some candidates => find_candidate k p candidates content
                        | None => Ok None
                        end;
                match found with
                | Some symbol =>
                    p ← set_node p id (rule_of_symbol symbol);
                    expand_loop n k p e var_name counter stack
                | None =>
                    '(symbol, counter, p, e) ← new_aux k p e var_name counter width hash content;
                    p ← set_node p id (rule_of_symbol symbol);
                    expand_loop n k p e var_name counter stack
                end
          end
      end
  end.
Definition expand_root (n k : nat) p e (root : RuleId) (var_name : StrId) (counter : N) :
    outcome ExpandRepeatsError (N * RulePool H * Expander) :=
  expand_loop n k p e var_name counter [VisitTask root].

(** The loop of [expand_repeats] over the variables, from index [i] on; the
    variables, the kinds and the inlined symbols are updated by index. *)
Fixpoint expand_variables (n k : nat) (i todo : nat) p (vs : list Variable_) (kds : list VariableType)
    (inl : list Symbol) e : outcome ExpandRepeatsError (RulePool H * list Variable_ * list VariableType * list Symbol * Expander) :=
  match todo with
  | O => Ok (p, vs, kds, inl, e)
  | S todo =>
      v ← vec_get vs i;
      kd ← vec_get kds i;
      nd ← (if bool_decide (kd = Hidden) then nd ← node p (var_root v); Ok (Some nd) else Ok None);
      match nd with
      | Some (Repeat content) =>
          width ← eval k p (by_variable e) content;
          if eof_nullable width then s ← resolve (str_pool p) (var_name v); Err (mkExpandRepeatsError s)
          else
            '(_, p, e) ← expand_root n k p e content (var_name v) 0;
            '(root, p) ← wrap_in_binary_tree k p (non_terminal (N.of_nat i)) content;
            vs ← vec_set vs i (mkVariable (var_name v) root);
            kds ← vec_set kds i Auxiliary;
            expand_variables n k (S i) todo p vs kds
              (filter (λ s, s ≠ non_terminal (N.of_nat i)) inl) e
      | _ =>
          '(_, p, e) ← expand_root n k p e (var_root v) (var_name v) 0;
          expand_variables n k (S i) todo p vs kds inl e
      end
  end.

Definition with_pool g p vs : InputGrammar H :=
  mkInputGrammar p (grammar_name g) vs (external_roots g) (extra_roots g) (reserved_sets g) (supertype_names g)
    (conflict_names g) (inline_names g) (word_name g) (precedence_orderings g).
Definition with_kinds (meta : ExtractedGrammarMeta) kds inl : ExtractedGrammarMeta :=
  mkMeta kds (em_extra_symbols meta) (em_external_tokens meta) (em_reserved_sets meta) (supertypes meta)
    (conflicts meta) inl (word meta).

Definition expand_repeats (m n k : nat) g (meta : ExtractedGrammarMeta) :
    outcome ExpandRepeatsError (InputGrammar H * ExtractedGrammarMeta) :=
  widths ← zero_width_new m k (pool g) (variables g);
  let e := mkExpander (length (variables g)) [] ∅ widths in
  '(p, vs, kds, inls, e) ← expand_variables n k 0 (length (variables g)) (pool g) (variables g) (kinds meta) (inline meta) e;
  Ok (with_pool g p (vs ++ aux e), with_kinds meta (kds ++ replicate (length (aux e)) Auxiliary) inls).
End expand.
