(* ===== verification/ExpandCorrect.v ===== *)
(** * The expansion of repetitions keeps the language

    The walk of [ExpandRepeats] is followed through the pool that it changes in
    place: every step is a replacement in the sense of [RepeatLanguage], and the
    invariant ties the pool, the memo and the table of widths to the grammar that
    the pool stands for. *)
From S2P Require Import Prelude Symbols StrPool Rules RuleTrees Grammars Flatten ZeroWidth RepeatLanguage ExpandRepeats.

(** ** Replacing a node of the pool *)
Section pool.
Context {H : Type}.
Implicit Types p : RulePool H.

Definition pool_repl (c : tree) (k : N) (n : nat) p p' : Prop :=
  ∀ x t, denotes p x t → scoped n t → ∃ t', denotes p' x t' ∧ repl c k n t t'.

Lemma extends_repl c k n p p' : extends p p' → pool_repl c k n p p'.
Proof. intros He x t Hx Hs. exists t. split; [by eapply denotes_extends|by apply repl_refl]. Qed.

Lemma set_node_repl c k n p id content :
  nodes p !! N.to_nat id = Some (Repeat content) → denotes p content c →
  pool_repl c k n p (set_nodes p (<[N.to_nat id := Sym NonTerminal k]> (nodes p))).
Proof.
  intros Hid Hc. set (p' := set_nodes _ _). intros x t [d Hd]. revert x t Hd.
  assert (denotes p id (TRepeat c)) as Hidt.
  { apply denotes_unfold. exists (Repeat content). split; [done|]. exists c. done. }
  induction d as [|d IH]; intros x t Hd Hs; [done|].
  assert (denotes p x t) as Hx by (by exists (S d)).
  destruct (decide (N.to_nat x = N.to_nat id)) as [Heq|Hne].
  { apply N2Nat.inj in Heq as ->. rewrite (denotes_det _ _ _ _ Hx Hidt) in *. exists (TSym NonTerminal k). split; [|constructor].
    apply denotes_unfold. exists (Sym NonTerminal k). split; [|done]. cbn.
    apply list_lookup_insert_eq. by eapply lookup_lt_Some. }
  cbn in Hd. destruct (nodes p !! N.to_nat x) as [nd|] eqn:Hnd; cbn in Hd; [|done].
  assert (nodes p' !! N.to_nat x = Some nd) as Hnd' by (cbn; by rewrite list_lookup_insert_ne by done).
  assert (∀ t', denotes_node p' nd t' → denotes p' x t') as Hfold.
  { intros t' Ht'. apply denotes_unfold. by exists nd. }
  assert (∀ r ts, slice_trees (to_tree d p) p r = Some ts → scoped n (TSeq ts) → ∃ cs ts',
    child_slice (E:=Empty_set) p' r = Ok cs ∧ rlen r = N.of_nat (length cs) ∧ Forall2 (denotes p') cs ts' ∧ Forall2 (repl c k n) ts ts') as Hkids.
  { intros r ts (cs & Hcs & Hlen & Hf)%slice_trees_Some Hsc. exists cs.
    assert (∃ ts', Forall2 (denotes p') cs ts' ∧ Forall2 (repl c k n) ts ts') as (ts' & ? & ?); [|exists ts'; by split_and!].
    clear Hcs Hlen. induction Hf as [|y u cs us Hy Hf IHf]; [exists []; by split|].
    apply scoped_cons in Hsc as [Hu Hus]. destruct (IH y u Hy Hu) as (u' & Hu' & Hr).
    destruct (IHf Hus) as (us' & ? & ?). exists (u' :: us'). split; by constructor. }
  destruct nd as [|s|q g|s|kd i|r|r|y| |mid y|y w]; cbn in Hd.
  1-4, 9: injection Hd as <-; eexists; split; [by apply Hfold|by apply repl_leaf].
  - injection Hd as <-. eexists. split; [by apply Hfold|by apply repl_refl].
  - apply fmap_Some in Hd as (ts & Hts & ->). destruct (Hkids r ts Hts Hs) as (cs & ts' & ? & ? & ? & Hr).
    exists (TSeq ts'). split; [apply Hfold; by exists cs, ts'|by apply repl_lists].
  - apply fmap_Some in Hd as (ts & Hts & ->). destruct (Hkids r ts Hts Hs) as (cs & ts' & ? & ? & ? & Hr).
    exists (TChoice ts'). split; [apply Hfold; by exists cs, ts'|by apply repl_lists].
  - apply fmap_Some in Hd as (u & Hu & ->). destruct (IH y u Hu Hs) as (u' & ? & ?).
    exists (TRepeat u'). split; [apply Hfold; cbn; eauto|by apply repl_repeat].
  - destruct (params p !! N.to_nat mid) as [mp|] eqn:Hm; [|done]. cbn in Hd.
    apply fmap_Some in Hd as (u & Hu & ->). destruct (IH y u Hu Hs) as (u' & ? & ?).
    exists (TMetadata mp u'). split; [apply Hfold; cbn; eauto|by apply repl_metadata].
  - apply fmap_Some in Hd as (u & Hu & ->). destruct (IH y u Hu Hs) as (u' & ? & ?).
    exists (TReserved u' w). split; [apply Hfold; cbn; eauto|by apply repl_reserved].
Qed.

(** The body of an auxiliary variable. *)
Lemma foldl_add_new_nonempty l es : es ≠ [] → foldl add_new es l ≠ [].
Proof.
  revert es. induction l as [|x l IH]; intros es Hes; [done|]. cbn. apply IH. unfold add_new.
  case_decide; [done|]. by destruct es.
Qed.
Lemma wrap_in_binary_tree_spec {E} n p (k : N) inner c K :
  denotes p inner c → tree_size c ≤ K → 3 ≤ K → 2 * K ≤ n → (k < U32)%N →
  (N.of_nat (length (nodes p) + 4) < U32)%N → (N.of_nat (length (children p) + (K + 3)) < U32)%N →
  ∃ root p', wrap_in_binary_tree (E:=E) n p (non_terminal k) inner = Ok (root, p') ∧ extends p p' ∧
    str_pool p' = str_pool p ∧ params p' = params p ∧ denotes p' root (wrap_tree k c) ∧
    length (nodes p') ≤ length (nodes p) + 4 ∧ length (children p') ≤ length (children p) + (K + 3).
Proof.
  intros Hc HcK HK Hn Hk Hnodes Hch. unfold wrap_in_binary_tree, non_terminal. rewrite (wrap_u32_small k) by done.
  set (nd := rule_of_symbol _). cbn [push_node push_children fst snd].
  set (p1 := set_nodes p (nodes p ++ [nd])). set (p2 := set_nodes p1 (nodes p1 ++ [nd])).
  set (s1 := as_u32 (length (nodes p))). set (s2 := as_u32 (length (nodes p1))).
  destruct (push_node_denotes p nd (TSym NonTerminal k)) as [He1 Hd1]; [split; lia|done|].
  destruct (push_node_denotes p1 nd (TSym NonTerminal k)) as [He2 Hd2]; [split; cbn; rewrite ?length_app; cbn; lia|done|].
  change (push_node p nd).2 with p1 in *. change (push_node p1 nd).2 with p2 in *.
  change (push_node p nd).1 with s1 in *. change (push_node p1 nd).1 with s2 in *.
  set (p3 := set_children p2 (children p2 ++ [s1; s2])).
  assert (extends p2 p3) as He3 by (split_and!; [done|by eexists|done]).
  set (range := mkRange _ _).
  assert (denotes_node p3 (Seq range) (seq_tree k)) as Hseq.
  { exists [s1; s2], [TSym NonTerminal k; TSym NonTerminal k]. split_and!; [|done| |done].
    - unfold p3, range. apply (child_slice_tail p2 [s1; s2]). cbn. lia.
    - constructor; [by apply (denotes_extends _ _ _ _ He3), (denotes_extends _ _ _ _ He2)|].
      constructor; [by apply (denotes_extends _ _ _ _ He3)|constructor]. }
  destruct (push_node_denotes p3 (Seq range) (seq_tree k)) as [He4 Hd4];
    [split; cbn; rewrite ?length_app; cbn; lia|done|].
  set (p4 := (push_node p3 (Seq range)).2) in *. set (sq := (push_node p3 (Seq range)).1) in *.
  assert (extends p p4) as He04.
  { destruct He1 as (?&?&?), He2 as (?&?&?), He3 as (?&?&?), He4 as (?&?&?). split_and!; by repeat (etrans; [done|]). }
  destruct (flatten_loop_spec (E:=E) K n p4 [inner] [c] [sq] [seq_tree k]) as (els & Hels & Hfd);
    [by constructor; [eapply denotes_extends|constructor]|by constructor|by constructor|by constructor; [cbn|constructor]|unfold tsum; cbn; lia|].
  change (as_u32 (length (nodes p3))) with sq. change (set_nodes p3 (nodes p3 ++ [Seq range])) with p4.
  rewrite Hels. cbn [mbind outcome_bind].
  pose proof (Forall2_length _ _ _ Hfd) as Hlen. unfold wrap_tree.
  assert (length els ≤ 1 + tree_size c) as Hle.
  { rewrite Hlen, flatten_onto_one. etrans; [apply foldl_add_new_length|]. cbn.
    pose proof (flatten_tree_length _ c (le_n _)). lia. }
  assert (length (nodes p4) = length (nodes p) + 3) as Hn4 by (cbn; rewrite !length_app; cbn; lia).
  assert (length (children p4) = length (children p) + 2) as Hc4 by (cbn; rewrite !length_app; cbn; lia).
  destruct (Nat.eqb_spec (length els) 1) as [H1|H1].
  - destruct Hfd as [|root t els ts Hroot Hfd]; [done|]. cbn in H1, Hlen. destruct els; [|done]. destruct ts; [|done].
    cbn. exists root, p4. split_and!; [done|done|done|done|done|lia|lia].
  - set (p5 := set_children p4 (children p4 ++ els)).
    assert (extends p4 p5) as He5 by (split_and!; [done|by eexists|done]).
    destruct (flatten_onto [seq_tree k] [c]) as [|u [|v us]] eqn:Hfl; [|by cbn in Hlen|].
    { exfalso. rewrite flatten_onto_one in Hfl. by apply (foldl_add_new_nonempty (flatten_tree c) [seq_tree k]) in Hfl. }
    edestruct (push_node_denotes p5 (Choice (mkRange (as_u32 (length (children p4))) (as_u32 (length els))))) as [He6 Hd6].
    + split; cbn -[p4]; rewrite ?length_app; lia.
    + exists els, (u :: v :: us). split_and!; [unfold p5; apply child_slice_tail; lia| | |reflexivity].
      * cbn -[p4]. unfold as_u32. rewrite wrap_u32_small by lia. done.
      * eapply Forall2_impl; [exact Hfd|]. intros. by eapply denotes_extends.
    + eexists _, _. split; [reflexivity|]. split_and!; [|done|done|exact Hd6| |].
      * destruct He04 as (?&?&?), He5 as (?&?&?), He6 as (?&?&?). split_and!; by repeat (etrans; [done|]).
      * cbn -[p4]. rewrite length_app. cbn -[p4]. lia.
      * cbn -[p4]. rewrite length_app. lia.
Qed.
End pool.

(** ** The table of widths *)
Definition widths_exact (ts : list tree) (by_variable : list Width) : Prop :=
  length by_variable = length ts ∧
  ∀ b i, flag b (default default_width (by_variable !! N.to_nat i)) = true ↔ zero_width ts b (TSym NonTerminal i).

Lemma widths_eval ts by_variable b t :
  widths_exact ts by_variable → flag b (tree_width by_variable t) = true ↔ zero_width ts b t.
Proof.
  intros [_ Hw]. split; [apply tree_width_sound; intros; by apply Hw|].
  apply tree_width_complete. intros i u b' Hi Hu. rewrite <- (Nat2N.id i). apply Hw.
  apply (zero_variable _ _ _ u); [by rewrite Nat2N.id|]. apply (tree_width_sound _ by_variable); [intros; by apply Hw|done].
Qed.
Lemma zero_width_var ts b i : zero_width ts b (TSym NonTerminal i) → N.to_nat i < length ts.
Proof. intros Hz. inversion Hz; subst. by eapply lookup_lt_Some. Qed.
Lemma widths_exact_bounded ts by_variable :
  length by_variable = length ts →
  (∀ b i, N.to_nat i < length ts → flag b (default default_width (by_variable !! N.to_nat i)) = true ↔ zero_width ts b (TSym NonTerminal i)) →
  widths_exact ts by_variable.
Proof.
  intros Hl Hw. split; [done|]. intros b i. destruct (decide (N.to_nat i < length ts)) as [|Hge]; [by apply Hw|].
  rewrite (lookup_ge_None_2 by_variable) by lia. split; [by destruct b|]. intros Hz%zero_width_var. lia.
Qed.

Lemma step_zero c k ts ts' b d : repl_step c k ts ts' → scoped (length ts) d → zero_width ts b d ↔ zero_width ts' b d.
Proof. intros Hst Hd. apply agree_zero. eapply repl_agree; [done|by apply repl_refl]. Qed.
Lemma step_zero_var c k ts ts' b i :
  repl_step c k ts ts' → N.to_nat i < length ts → zero_width ts b (TSym NonTerminal i) ↔ zero_width ts' b (TSym NonTerminal i).
Proof. intros Hst Hi. apply agree_zero. eapply repl_agree; [done|by apply repl_var]. Qed.

Lemma widths_same c k ts ts' by_variable :
  repl_step c k ts ts' → length ts' = length ts → widths_exact ts by_variable → widths_exact ts' by_variable.
Proof.
  intros Hst Hl [Hlb Hw]. apply widths_exact_bounded; [lia|]. intros b i Hi.
  rewrite Hw. apply (step_zero_var c k); [done|lia].
Qed.
Lemma zero_repeat_inv ts b c : zero_width ts b (TRepeat c) ↔ zero_width ts b c.
Proof. split; [by inversion 1|constructor; done]. Qed.
Lemma widths_new c ts ts' by_variable w :
  repl_step c (N.of_nat (length ts)) ts ts' → length ts' = S (length ts) → widths_exact ts by_variable →
  (∀ b, flag b w = true ↔ zero_width ts b c) → widths_exact ts' (by_variable ++ [w]).
Proof.
  intros Hst Hl [Hlb Hw] Hwc. apply widths_exact_bounded; [rewrite length_app; cbn; lia|]. intros b i Hi.
  destruct (decide (N.to_nat i = length ts)) as [Heq|Hne].
  - rewrite Heq, <- Hlb, list_lookup_middle by done. cbn. rewrite Hwc, <- zero_repeat_inv.
    apply agree_zero. eapply repl_agree; [done|]. replace i with (N.of_nat (length ts)) by lia. constructor.
  - rewrite lookup_app_l by lia. rewrite Hw. eapply step_zero_var; [done|lia].
Qed.

(** ** The grammar that the pool stands for *)
Definition aux_trees (n : nat) (cs : list tree) : list tree := imap (λ j c, wrap_tree (N.of_nat (n + j)) c) cs.
Lemma length_aux_trees n cs : length (aux_trees n cs) = length cs.
Proof. apply length_imap. Qed.
Lemma aux_trees_snoc n cs c : aux_trees n (cs ++ [c]) = aux_trees n cs ++ [wrap_tree (N.of_nat (n + length cs)) c].
Proof. unfold aux_trees. rewrite imap_app. cbn. by rewrite Nat.add_0_r. Qed.
Lemma aux_trees_lookup n cs j c : cs !! j = Some c → aux_trees n cs !! j = Some (wrap_tree (N.of_nat (n + j)) c).
Proof. intros Hj. unfold aux_trees. by rewrite list_lookup_imap, Hj. Qed.

Lemma Forall2_pool_repl {H} c k n (p p' : RulePool H) ids us :
  pool_repl c k n p p' → Forall2 (denotes p) ids us → Forall (scoped n) us →
  ∃ us', Forall2 (denotes p') ids us' ∧ Forall2 (repl c k n) us us'.
Proof.
  intros Hp Hf. induction Hf as [|x t ids us Hx Hf IH]; intros Hs; [exists []; by split|].
  apply Forall_cons in Hs as [Ht Hs]. destruct (Hp x t Hx Ht) as (t' & ? & ?). destruct (IH Hs) as (us' & ? & ?).
  exists (t' :: us'). split; by constructor.
Qed.
Lemma flat_pool_repl {H} c k n (p p' : RulePool H) x t :
  pool_repl c k n p p' → flat_rule n t → denotes p x t → denotes p' x t.
Proof.
  intros Hp [[_ _ Hs] Hf] Hx. destruct (Hp x t Hx Hs) as (t' & Hx' & Hr). by rewrite (repl_free _ _ _ _ _ Hr Hf) in Hx'.
Qed.

Lemma Forall2_flat {H} c k n (p p' : RulePool H) ids us :
  pool_repl c k n p p' → Forall (flat_rule n) us → Forall2 (denotes p) ids us → Forall2 (denotes p') ids us.
Proof.
  intros Hp Hall Hf. induction Hf as [|x t ids us Hx Hf IH]; [constructor|]. apply Forall_cons in Hall as [Ht Hall].
  constructor; [by eapply flat_pool_repl|by apply IH].
Qed.

(** [rank_ok f p]: [f] is a measure of the old rules that are read. *)
Section rank.
Context {H : Type} (f : N → nat).
Implicit Types p : RulePool H.
Definition node_rank p (bound : nat) (nd : Rule) : Prop :=
  match nd with
  | Seq r | Choice r => ∃ cs, child_slice (E:=Empty_set) p r = Ok cs ∧ Forall (λ y, 0 < f y < bound) cs
  | Repeat y | Metadata _ y | Reserved y _ => 0 < f y < bound
  | _ => True
  end.
Definition rank_ok p : Prop :=
  (∀ x nd, nodes p !! N.to_nat x = Some nd → 0 < f x → node_rank p (f x) nd) ∧
  (∀ x, length (nodes p) ≤ N.to_nat x → f x = 0).

Lemma child_slice_prefix {E} p p' r cs :
  children p `prefix_of` children p' → child_slice (E:=E) p r = Ok cs → child_slice (E:=E) p' r = Ok cs.
Proof.
  intros Hl Hcs. change (child_slice (E:=E) (set_children p (children p')) r = Ok cs). eapply child_slice_extends; [|done].
  by split_and!.
Qed.
Lemma node_rank_children p p' b nd :
  children p `prefix_of` children p' → node_rank p b nd → node_rank p' b nd.
Proof.
  intros Hl Hn. destruct nd as [| | | | |r|r| | | |]; try done; cbn in *;
    destruct Hn as (cs & Hcs & Hf); exists cs; (split; [by eapply child_slice_prefix|done]).
Qed.
Lemma rank_ok_extends p p' : extends p p' → rank_ok p → rank_ok p'.
Proof.
  intros ([kn Hkn] & Hch & _) [Hr H0]. split.
  - intros x nd Hx Hf. apply (node_rank_children p); [done|]. apply Hr; [|done].
    rewrite Hkn in Hx. apply lookup_app_Some in Hx as [Hx|[Hge _]]; [done|]. rewrite (H0 x Hge) in Hf. lia.
  - intros x Hx. apply H0. rewrite Hkn, length_app in Hx. lia.
Qed.
Lemma rank_ok_set p id k : rank_ok p → rank_ok (set_nodes p (<[id := Sym NonTerminal k]> (nodes p))).
Proof.
  intros [Hr H0]. split; [|intros x; cbn; rewrite length_insert; apply H0].
  intros x nd Hx Hf. cbn in Hx. apply list_lookup_insert_Some in Hx as [(_ & <- & _)|[_ Hx]]; [done|].
  apply (node_rank_children p); [done|by apply Hr].
Qed.
End rank.

(** ** The invariant of the expansion *)
Section inv.
Context {H : Type} {HT : HashTable H} (hash_one : bytes → N) (fx : list HashItem → N).
Context (f : N → nat) (K B : nat) (strs0 : list bytes).
Implicit Types p : RulePool H.

(** The variables [vs] stand for [tvs]; the auxiliary ones for the repetitions
    of [cs]; [strs] are the interned strings, the initial ones [strs0] first. *)
Definition name_ok (name : StrId) (s : bytes) : Prop :=
  ∃ i, name = N.of_nat (S i) ∧ strs0 !! i = Some s ∧ length s ≤ B.
Record exp_inv (vs : list Variable_) (tvs cs : list tree) (strs : list bytes) p (e : Expander) : Prop := {
  ei_len : preceding e = length tvs;
  ei_vars : Forall2 (denotes p) (map var_root vs) tvs;
  ei_aux : Forall2 (denotes p) (map var_root (aux e)) (aux_trees (length tvs) cs);
  ei_wf : Forall (wf_rule (length tvs + length cs)) tvs;
  ei_cs : Forall (λ c, flat_rule (length tvs + length cs) c ∧ checked (tvs ++ aux_trees (length tvs) cs) c ∧ tree_size c ≤ K) cs;
  ei_nodup : NoDup cs;
  ei_memo : ∀ h l nd s, memo e !! h = Some l → (nd, s) ∈ l →
    ∃ j c, cs !! j = Some c ∧ s = non_terminal (N.of_nat (length tvs + j)) ∧ denotes p nd c;
  ei_known : ∀ j c, cs !! j = Some c → ∃ l nd,
    memo e !! fx (tree_items c) = Some l ∧ (nd, non_terminal (N.of_nat (length tvs + j))) ∈ l;
  ei_widths : widths_exact (tvs ++ aux_trees (length tvs) cs) (by_variable e);
  ei_strs : pool_inv hash_one (str_pool p) strs;
  ei_prefix : strs0 `prefix_of` strs;
  ei_names : Forall (λ a, ∃ v s ctr i, v ∈ vs ∧ name_ok (var_name v) s ∧
    var_name a = N.of_nat (S i) ∧ strs !! i = Some (repeat_name s ctr)) (aux e);
  ei_rank : rank_ok f p;
}.

(** What remains of the index ranges for [r] more auxiliary variables. *)
Record room (r : nat) p (e : Expander) (strs : list bytes) : Prop := {
  room_nodes : (N.of_nat (length (nodes p) + 4 * r) < U32)%N;
  room_children : (N.of_nat (length (children p) + (K + 3) * r) < U32)%N;
  room_vars : (N.of_nat (preceding e + length (aux e) + r) < U32)%N;
  room_strs : (N.of_nat (length (concat strs) + (B + 17) * r) < U32)%N;
}.
Lemma room_le r r' p e strs : room r p e strs → r' ≤ r → room r' p e strs.
Proof. intros [] Hle. split; nia. Qed.

(** How one walk moves the pool and its grammar: nodes of rank above [kappa]
    are untouched. *)
Record moved (kappa : nat) p (ts : list tree) p' (ts' : list tree) : Prop := {
  mv_tree : ∀ x t, denotes p x t → wf_rule (length ts) t → ∃ t', denotes p' x t' ∧ expanded ts t ts' t';
  mv_le : length ts ≤ length ts';
  mv_var : ∀ i, N.to_nat i < length ts → agree ts (TSym NonTerminal i) ts' (TSym NonTerminal i);
  mv_nodes : ∀ x, kappa < f x → nodes p' !! N.to_nat x = nodes p !! N.to_nat x;
  mv_children : children p `prefix_of` children p';
  mv_params : params p' = params p;
}.
Lemma moved_refl kappa p ts : moved kappa p ts p ts.
Proof. split; try done. intros x t Hx Hwf. exists t. split; [done|by apply expanded_refl]. Qed.
Lemma moved_trans k1 k2 kappa p ts p' ts' p'' ts'' :
  moved k1 p ts p' ts' → moved k2 p' ts' p'' ts'' → k1 ≤ kappa → k2 ≤ kappa → moved kappa p ts p'' ts''.
Proof.
  intros [T1 L1 V1 N1 C1 P1] [T2 L2 V2 N2 C2 P2] Hk1 Hk2. split.
  - intros x t Hx Hwf. destruct (T1 x t Hx Hwf) as (t' & Hx' & He). destruct (T2 x t' Hx' (ex_wf _ _ _ _ He)) as (t'' & Hx'' & He').
    exists t''. split; [done|by eapply expanded_trans].
  - lia.
  - intros i Hi. eapply agree_trans; [by apply V1|apply V2; lia].
  - intros x Hx. rewrite N2, N1 by lia. done.
  - by etrans.
  - congruence.
Qed.
Lemma moved_le k1 k2 p ts p' ts' : moved k1 p ts p' ts' → k1 ≤ k2 → moved k2 p ts p' ts'.
Proof. intros Hm Hle. eapply moved_trans; [exact Hm|apply (moved_refl k1)|done..]. Qed.
Lemma moved_step kappa c k p p' ts ts' :
  repl_step c k ts ts' → pool_repl c k (length ts) p p' →
  (∀ x, kappa < f x → nodes p' !! N.to_nat x = nodes p !! N.to_nat x) →
  children p `prefix_of` children p' → params p' = params p → moved kappa p ts p' ts'.
Proof.
  intros Hst Hp Hn Hc Hpar. split; try done.
  - intros x t Hx Hwf. destruct (Hp x t Hx (wf_scoped _ _ Hwf)) as (t' & Hx' & Hr). exists t'.
    split; [done|by eapply repl_expanded].
  - apply Hst.
  - intros i Hi. eapply repl_agree; [done|by apply repl_var].
Qed.
Lemma moved_flat kappa p ts p' ts' x t :
  moved kappa p ts p' ts' → denotes p x t → flat_rule (length ts) t → denotes p' x t.
Proof.
  intros Hm Hx [Hwf Hf]. destruct (mv_tree _ _ _ _ _ Hm x t Hx Hwf) as (t' & Hx' & He).
  by rewrite (ex_free _ _ _ _ He Hf) in Hx'.
Qed.

Lemma inv_length vs tvs cs strs p e : exp_inv vs tvs cs strs p e → length vs = length tvs ∧ length (aux e) = length cs.
Proof.
  intros Hi. pose proof (Forall2_length _ _ _ (ei_vars _ _ _ _ _ _ Hi)) as H1.
  pose proof (Forall2_length _ _ _ (ei_aux _ _ _ _ _ _ Hi)) as H2.
  rewrite length_map in H1, H2. rewrite length_aux_trees in H2. done.
Qed.
Lemma length_grammar tvs cs n : length (tvs ++ aux_trees n cs) = length tvs + length cs.
Proof. by rewrite length_app, length_aux_trees. Qed.
Lemma grammar_flat vs tvs cs strs p e :
  exp_inv vs tvs cs strs p e → Forall (flat_rule (length tvs + length cs)) (aux_trees (length tvs) cs).
Proof.
  intros Hi. apply Forall_lookup. intros j t Hj. unfold aux_trees in Hj. rewrite list_lookup_imap in Hj.
  destruct (cs !! j) as [c|] eqn:Hc; [|done]. injection Hj as <-. apply lookup_lt_Some in Hc as Hlt.
  apply wrap_tree_flat; [|lia]. pose proof (ei_cs _ _ _ _ _ _ Hi) as Hcs. rewrite Forall_lookup in Hcs. by destruct (Hcs j c Hc).
Qed.

Notation gr tvs cs := (tvs ++ aux_trees (length tvs) cs).

Lemma extends_nodes p p' x : extends p p' → rank_ok f p → 0 < f x → nodes p' !! N.to_nat x = nodes p !! N.to_nat x.
Proof.
  intros ([l Hl] & _) [_ H0] Hx. rewrite Hl. apply lookup_app_l.
  destruct (decide (N.to_nat x < length (nodes p))) as [|Hge]; [done|]. rewrite H0 in Hx by lia. lia.
Qed.

(** A new variable for [c], not used yet. *)
Lemma add_aux_step tvs cs c :
  flat_rule (length tvs + length cs) c → checked (gr tvs cs) c → Forall (wf_rule (length tvs + length cs)) (gr tvs cs) →
  repl_step c (N.of_nat (length tvs + length cs)) (gr tvs cs) (gr tvs (cs ++ [c])).
Proof.
  intros [Hwf Hf] Hch Hall. rewrite <- (length_grammar tvs cs (length tvs)) in *. rewrite aux_trees_snoc, (assoc_L (++)).
  rewrite <- (length_grammar tvs cs (length tvs)). split; try done.
  - rewrite Nat2N.id. by apply list_lookup_middle.
  - rewrite !length_app. lia.
  - intros i t Hne Hi. exists t. split; [by apply lookup_app_l_Some|]. apply repl_refl.
    rewrite Forall_lookup in Hall. by apply (Hall _ _ Hi).
  - rewrite Nat2N.id. lia.
Qed.

Lemma add_aux_inv vs tvs cs strs p e c content root p' strs' name w v s ctr i :
  exp_inv vs tvs cs strs p e → flat_rule (length tvs + length cs) c → checked (gr tvs cs) c → tree_size c ≤ K → c ∉ cs →
  denotes p content c → (∀ b, flag b w = true ↔ zero_width (gr tvs cs) b c) →
  extends p p' → params p' = params p → pool_inv hash_one (str_pool p') strs' → strs `prefix_of` strs' →
  denotes p' root (wrap_tree (N.of_nat (length tvs + length cs)) c) →
  v ∈ vs → name_ok (var_name v) s → name = N.of_nat (S i) → strs' !! i = Some (repeat_name s ctr) →
  let h := fx (tree_items c) in
  let e' := mkExpander (preceding e) (aux e ++ [mkVariable name root])
    (<[h := default [] (memo e !! h) ++ [(content, non_terminal (N.of_nat (length tvs + length cs)))]]> (memo e)) (by_variable e ++ [w]) in
  exp_inv vs tvs (cs ++ [c]) strs' p' e' ∧ ∀ kappa, moved kappa p (gr tvs cs) p' (gr tvs (cs ++ [c])).
Proof.
  intros Hinv Hflat Hch HK Hnew Hcont Hw Hext Hpar Hpool Hpre Hroot Hv Hname Hn Hi h e'.
  pose proof (grammar_flat _ _ _ _ _ _ Hinv) as Haux. destruct Hinv as [Il Iv Ia Iwf Ics Ind Im Ik Iw Ip Ipre In Ir].
  assert (repl_step c (N.of_nat (length tvs + length cs)) (gr tvs cs) (gr tvs (cs ++ [c]))) as Hst.
  { apply add_aux_step; [done..|]. apply Forall_app. split; [done|]. eapply Forall_impl; [done|]. by intros ? []. }
  assert (length tvs + length (cs ++ [c]) = S (length tvs + length cs)) as Hlen by (rewrite length_app; cbn; lia).
  split.
  - split; cbn; try rewrite Hlen; try done.
    + eapply Forall2_impl; [done|]. intros. by eapply denotes_extends.
    + rewrite map_app, aux_trees_snoc. apply Forall2_app; [|by constructor].
      eapply Forall2_impl; [done|]. intros. by eapply denotes_extends.
    + eapply Forall_impl; [done|]. intros t Ht. eapply wf_rule_le; [done|lia].
    + assert (∀ d, flat_rule (length tvs + length cs) d ∧ checked (gr tvs cs) d ∧ tree_size d ≤ K →
        flat_rule (S (length tvs + length cs)) d ∧ checked (gr tvs (cs ++ [c])) d ∧ tree_size d ≤ K) as Hall.
      { intros d ([Hdw Hdf] & Hd & ?). split_and!; [split; [eapply wf_rule_le; [done|lia]|done]| |done].
        unfold checked. rewrite <- (step_zero _ _ _ _ true d Hst); [done|]. rewrite length_grammar. apply Hdw. }
      apply Forall_app. split; [by eapply Forall_impl|]. constructor; [by apply Hall|constructor].
    + apply NoDup_app. split_and!; [done| |apply NoDup_singleton]. intros d Hd ->%list_elem_of_singleton. done.
    + intros h' l nd sy Hl Hin.
      assert (∀ l, memo e !! h' = Some l → (nd, sy) ∈ l → ∃ j d, (cs ++ [c]) !! j = Some d ∧
        sy = non_terminal (N.of_nat (length tvs + j)) ∧ denotes p' nd d) as Hold.
      { intros l' Hl' Hin'. destruct (Im _ _ _ _ Hl' Hin') as (j & d & Hj & ? & ?). exists j, d.
        split_and!; [by apply lookup_app_l_Some|done|by eapply denotes_extends]. }
      destruct (decide (h = h')) as [<-|Hne]; [|rewrite lookup_insert_ne in Hl by done; by apply (Hold l)].
      rewrite lookup_insert_eq in Hl. injection Hl as <-. apply elem_of_app in Hin as [Hin|Hin].
      * destruct (memo e !! h) as [l'|]; [by apply (Hold l')|by apply not_elem_of_nil in Hin].
      * apply list_elem_of_singleton in Hin as [= -> ->]. exists (length cs), c.
        split_and!; [by apply list_lookup_middle|done|by eapply denotes_extends].
    + intros j d [Hj|[Hge Hj]]%lookup_app_Some.
      * destruct (Ik j d Hj) as (l & nd & Hl & Hin). destruct (decide (h = fx (tree_items d))) as [Heq|Hne].
        -- rewrite <- Heq in *. rewrite lookup_insert_eq. eexists _, nd. split; [done|]. rewrite Hl. cbn.
           apply elem_of_app. by left.
        -- rewrite lookup_insert_ne by done. by exists l, nd.
      * apply list_lookup_singleton_Some in Hj as [Hj <-]. fold h. rewrite lookup_insert_eq. eexists _, content.
        split; [done|]. apply elem_of_app. right. replace j with (length cs) by lia. by apply list_elem_of_singleton.
    + apply (widths_new c (gr tvs cs)); [by rewrite length_grammar| |done|done]. rewrite !length_grammar. lia.
    + by etrans.
    + apply Forall_app. split.
      * eapply Forall_impl; [done|]. intros a (v' & s' & c' & j & ? & ? & ? & Hj). exists v', s', c', j.
        split_and!; [done..|]. by eapply prefix_lookup_Some.
      * constructor; [|constructor]. by exists v, s, ctr, i.
    + by apply (rank_ok_extends f p).
  - intros kappa. eapply moved_step; [done|by apply extends_repl| |apply Hext|done].
    intros x Hx. apply extends_nodes; [done..|lia].
Qed.

(** A replacement that adds no variable keeps the invariant. *)
Lemma step_inv vs vs' tvs tvs' cs strs p p' e c k :
  exp_inv vs tvs cs strs p e → repl_step c k (gr tvs cs) (gr tvs' cs) → pool_repl c k (length tvs + length cs) p p' →
  length tvs = length tvs' → Forall2 (denotes p') (map var_root vs') tvs' → Forall (wf_rule (length tvs + length cs)) tvs' →
  map var_name vs' = map var_name vs → str_pool p' = str_pool p → rank_ok f p' → exp_inv vs' tvs' cs strs p' e.
Proof.
  intros Hinv Hst Hpr Hlen Hv' Hwf' Hnames Hsp Hrank. pose proof (grammar_flat _ _ _ _ _ _ Hinv) as Haux.
  destruct Hinv as [Il Iv Ia Iwf Ics Ind Im Ik Iw Ip Ipre In Ir]. pose proof Ics as Hcs. rewrite Forall_lookup in Hcs.
  assert (gr tvs' cs = tvs' ++ aux_trees (length tvs) cs) as Heq by by rewrite Hlen.
  split; rewrite <- ?Hlen; rewrite <- ?Heq; try done.
  - by eapply Forall2_flat.
  - eapply Forall_impl; [exact Ics|]. intros d (Hd & Hcd & ?). split_and!; [done| |done]. unfold checked.
    rewrite <- (step_zero _ _ _ _ true d Hst); [done|]. rewrite length_grammar. apply Hd.
  - intros h l nd s Hl Hin. destruct (Im h l nd s Hl Hin) as (i & d & Hi & ? & ?). exists i, d. split_and!; [done..|].
    eapply flat_pool_repl; [done| |done]. by destruct (Hcs i d Hi).
  - eapply widths_same; [done| |done]. rewrite !length_grammar. lia.
  - by rewrite Hsp.
  - eapply Forall_impl; [exact In|]. intros a (v & s & ctr & i & Hv & Hn & ?).
    assert (var_name v ∈ map var_name vs') as (v' & Hvn & Hv1)%elem_of_map by (rewrite Hnames; apply elem_of_map; eauto).
    exists v', s, ctr, i. by rewrite <- Hvn.
Qed.

(** The repetition of the contents [c] at [id] becomes its variable. *)
Lemma set_aux_inv vs tvs cs strs p e id content c j :
  exp_inv vs tvs cs strs p e → cs !! j = Some c →
  nodes p !! N.to_nat id = Some (Repeat content) → denotes p content c →
  let p' := set_nodes p (<[N.to_nat id := Sym NonTerminal (N.of_nat (length tvs + j))]> (nodes p)) in
  ∃ tvs', exp_inv vs tvs' cs strs p' e ∧ length tvs' = length tvs ∧ moved (f id) p (gr tvs cs) p' (gr tvs' cs).
Proof.
  intros Hinv Hj Hid Hcont p'. pose proof (grammar_flat _ _ _ _ _ _ Hinv) as Haux.
  destruct Hinv as [Il Iv Ia Iwf Ics Ind Im Ik Iw Ip Ipre In Ir]. set (k := N.of_nat (length tvs + j)).
  pose proof (set_node_repl c k (length tvs + length cs) p id content Hid Hcont) as Hpr. fold p' in Hpr.
  pose proof Ics as Hcs. rewrite Forall_lookup in Hcs. destruct (Hcs j c Hj) as (Hflat & Hch & HcK).
  destruct (Forall2_pool_repl _ _ _ _ _ _ _ Hpr Iv) as (tvs' & Hv' & Hr).
  { eapply Forall_impl; [done|]. by intros ? []. }
  pose proof (Forall2_length _ _ _ Hr) as Hlen. pose proof (lookup_lt_Some _ _ _ Hj) as Hjlt.
  assert (repl_step c k (gr tvs cs) (gr tvs' cs)) as Hst.
  { assert (∀ i t, i ≠ N.to_nat k → gr tvs cs !! i = Some t → ∃ t', gr tvs' cs !! i = Some t' ∧ repl c k (length (gr tvs cs)) t t') as Hvar.
    { intros i t _ [Hi|[Hge Hi]]%lookup_app_Some; rewrite length_grammar.
      - eapply Forall2_lookup_l in Hi as (t' & Hi' & Hrt); [|done]. exists t'. split; [by apply lookup_app_l_Some|done].
      - exists t. split; [rewrite lookup_app_r, <- Hlen by lia; done|]. apply repl_refl.
        rewrite Forall_lookup in Haux. by destruct (Haux _ _ Hi) as [[]]. }
    assert (gr tvs cs !! N.to_nat k = Some (wrap_tree k c)) as Hk.
    { unfold k. rewrite Nat2N.id, lookup_app_r by lia. replace (_ + j - _) with j by lia. by apply aux_trees_lookup. }
    split; rewrite ?length_grammar; try done; try lia.
    - rewrite <- Hlen. unfold k. rewrite Nat2N.id, lookup_app_r by lia. replace (_ + j - _) with j by lia. by apply aux_trees_lookup.
    - by apply Hflat.
    - by apply Hflat.
    - intros i t Hne. rewrite <- (length_grammar tvs cs (length tvs)). by apply Hvar.
    - by left. }
  exists tvs'. split_and!; [|done|].
  - apply (step_inv vs _ tvs _ _ _ p _ _ c k); [by split|done..| |done|done|by apply rank_ok_set].
    apply Forall_lookup. intros i t' Hi. eapply Forall2_lookup_r in Hi as (t & Hi & Hrt); [|done].
    rewrite Forall_lookup in Iwf. replace (length tvs + length cs) with (length (gr tvs' cs)) by (rewrite length_grammar; lia).
    eapply ex_wf, repl_expanded; [done|rewrite length_grammar; by eapply Iwf|by rewrite length_grammar].
  - eapply moved_step; [done|by rewrite length_grammar| |done|done]. intros x Hx. cbn. apply list_lookup_insert_ne.
    intros Heq%N2Nat.inj. subst. lia.
Qed.

(** ** One expansion *)
Context (k : nat) (HK3 : 3 ≤ K) (Hk : 2 * K ≤ k) (Hboot : 2 ≤ length strs0).

Lemma find_candidate_spec {E} p l content c :
  denotes p content c → (∀ nd s, (nd, s) ∈ l → ∃ d, denotes p nd d ∧ tree_size d ≤ K) →
  ∃ r, find_candidate (E:=E) k p l content = Ok r ∧
    match r with Some s => ∃ nd, (nd, s) ∈ l ∧ denotes p nd c | None => ∀ nd s, (nd, s) ∈ l → ¬ denotes p nd c end.
Proof.
  intros Hc. induction l as [|[nd s] l IH]; intros Hl; cbn [find_candidate].
  { exists None. split; [done|]. by intros ? ? ?%not_elem_of_nil. }
  destruct (Hl nd s (list_elem_of_here _ _)) as (d & Hd & HdK).
  destruct (subtree_eq_decides (E:=E) k p nd content d c) as (b & -> & Hb); [done..|lia|]. cbn [mbind outcome_bind].
  destruct b.
  - exists (Some s). split; [done|]. exists nd. split; [apply list_elem_of_here|]. by rewrite <- (proj1 Hb eq_refl).
  - destruct IH as (r & -> & Hr); [intros; eapply Hl; by apply list_elem_of_further|]. exists r. split; [done|].
    destruct r as [s'|].
    + destruct Hr as (nd' & ? & ?). exists nd'. split; [by apply list_elem_of_further|done].
    + intros nd' s' [[= -> ->]|Hin]%elem_of_cons; [|by apply (Hr nd' s')]. intros Hc'.
      rewrite (denotes_det _ _ _ _ Hd Hc') in Hb. by assert (false = true) by by apply Hb.
Qed.

Lemma dec_digits_length n x acc : length (dec_digits n x acc) ≤ n + length acc.
Proof.
  revert x acc. induction n as [|n IH]; intros x acc; cbn; [done|].
  destruct (x <? 10)%N; [cbn; lia|]. specialize (IH (x / 10)%N ((48 + x mod 10)%N :: acc)). cbn in IH. lia.
Qed.
Lemma repeat_name_length s ctr : length s ≤ B → length (repeat_name s ctr) ≤ B + 17.
Proof.
  intros Hs. unfold repeat_name. rewrite !length_app. pose proof (dec_digits_length 10 ctr []) as Hd. cbn [length] in *.
  change (length repeat_infix) with 7. lia.
Qed.

Lemma name_resolve {E} p strs name s :
  pool_inv hash_one (str_pool p) strs → strs0 `prefix_of` strs → name_ok name s → resolve (E:=E) (str_pool p) name = Ok s.
Proof.
  intros Hp Hpre (i & -> & Hi & _). apply (span_str_spec hash_one (str_pool p) strs); [done|]. by eapply prefix_lookup_Some.
Qed.
Lemma strs_booted strs s : strs0 `prefix_of` strs → boot_next strs s.
Proof. intros Hpre%prefix_length. split; intros ->; cbn in Hpre; lia. Qed.

(** The table of widths answers whether the contents can match the end only. *)
Lemma eval_inv {E} vs tvs cs strs p e content c :
  exp_inv vs tvs cs strs p e → denotes p content c → syntactic c = true → tree_size c ≤ K →
  ∃ w, eval (E:=E) k p (by_variable e) content = Ok w ∧ ∀ b, flag b w = true ↔ zero_width (gr tvs cs) b c.
Proof.
  intros Hinv Hc Hs HcK. exists (tree_width (by_variable e) c). split; [apply eval_spec; [done..|lia]|].
  intros b. apply widths_eval, Hinv.
Qed.

(** A miss of the memo: a new variable. *)
Lemma new_aux_spec {E} vs tvs cs strs p e v s ctr w content c r :
  exp_inv vs tvs cs strs p e → flat_rule (length tvs + length cs) c → checked (gr tvs cs) c → tree_size c ≤ K → c ∉ cs →
  denotes p content c → (∀ b, flag b w = true ↔ zero_width (gr tvs cs) b c) →
  v ∈ vs → name_ok (var_name v) s → room (S r) p e strs →
  ∃ ctr' p' e' strs', new_aux (E:=E) hash_one k p e (var_name v) ctr w (fx (tree_items c)) content =
      Ok (non_terminal (N.of_nat (length tvs + length cs)), ctr', p', e') ∧
    exp_inv vs tvs (cs ++ [c]) strs' p' e' ∧ (∀ kappa, moved kappa p (gr tvs cs) p' (gr tvs (cs ++ [c]))) ∧
    extends p p' ∧ room r p' e' strs'.
Proof.
  intros Hinv Hflat Hch HcK Hnew Hc Hw Hv Hname [Rn Rc Rv Rs]. destruct (inv_length _ _ _ _ _ _ Hinv) as [Hlv Hla].
  pose proof (ei_len _ _ _ _ _ _ Hinv) as Hprec. pose proof (ei_strs _ _ _ _ _ _ Hinv) as Hpool.
  pose proof (ei_prefix _ _ _ _ _ _ Hinv) as Hpre. unfold new_aux. rewrite (name_resolve p strs _ s) by done.
  cbn [mbind outcome_bind]. set (ctr' := wrap_u32 (ctr + 1)).
  pose proof (repeat_name_length s ctr') as Hrl. destruct (Hname) as (? & _ & _ & HsB). specialize (Hrl HsB).
  destruct (intern_spec (E:=E) hash_one (str_pool p) strs (repeat_name s ctr')) as (i & sp & strs' & Hint & Hpool' & Hi & Hs');
    [done|lia|by apply strs_booted|].
  unfold pool_intern. rewrite Hint. cbn [mbind outcome_bind]. rewrite Hprec, Hla.
  set (p1 := set_str_pool p sp).
  assert (extends p p1) as He1 by (by split_and!).
  destruct (wrap_in_binary_tree_spec (E:=E) k p1 (N.of_nat (length tvs + length cs)) content c K) as
    (root & p' & -> & He & Hsp & Hpar & Hroot & Hln & Hlc); [by eapply denotes_extends|done..|lia|cbn; lia|cbn; lia|].
  cbn [mbind outcome_bind].
  assert (extends p p') as He' by (destruct He1 as (?&?&?), He as (?&?&?); split_and!; by etrans).
  assert (strs `prefix_of` strs') as Hpre' by (rewrite Hs'; case_decide; [done|by eexists]).
  edestruct (add_aux_inv vs tvs cs strs p e c content root p' strs' (N.of_nat (S i)) w v s ctr' i) as [Hinv' Hmv];
    try done; [by rewrite Hsp|].
  rewrite Hprec in Hinv'. eexists ctr', p', _, strs'. split; [reflexivity|]. split_and!; [exact Hinv'|exact Hmv|done|].
  cbn in Hln, Hlc. split; cbn.
  - lia.
  - nia.
  - rewrite length_app. cbn. lia.
  - assert (length (concat strs') ≤ length (concat strs) + (B + 17)) as Hle; [|nia].
    rewrite Hs'. case_decide; [lia|]. rewrite concat_app, length_app. cbn. rewrite List.app_nil_r. lia.
Qed.

(** A task [Expand]: an error, or the node becomes a variable. *)
Lemma non_terminal_inj i j : (i < U32)%N → (j < U32)%N → non_terminal i = non_terminal j → i = j.
Proof. unfold non_terminal. intros Hi Hj [= Heq]. by rewrite !wrap_u32_small in Heq by done. Qed.
Lemma expand_task vs tvs cs strs p e v s ctr id content c r fuel stack :
  exp_inv vs tvs cs strs p e → nodes p !! N.to_nat id = Some (Repeat content) → denotes p content c →
  flat_rule (length tvs + length cs) c → tree_size c ≤ K → v ∈ vs → name_ok (var_name v) s → room (S r) p e strs →
  let res := expand_loop hash_one fx (S fuel) k p e (var_name v) ctr (ExpandTask id content :: stack) in
  (zero_width (gr tvs cs) true c ∧ res = Err (mkExpandRepeatsError s)) ∨
  (checked (gr tvs cs) c ∧ ∃ ctr' p' e' tvs' cs' strs' y,
     res = expand_loop hash_one fx fuel k p' e' (var_name v) ctr' stack ∧ exp_inv vs tvs' cs' strs' p' e' ∧
     length tvs' = length tvs ∧ moved (f id) p (gr tvs cs) p' (gr tvs' cs') ∧
     nodes p' !! N.to_nat id = Some (Sym NonTerminal y) ∧ room r p' e' strs').
Proof.
  intros Hinv Hid Hc Hflat HcK Hv Hname Hroom res.
  destruct (eval_inv (E:=ExpandRepeatsError) vs tvs cs strs p e content c) as (w & Hev & Hw); [done|done|apply Hflat|done|].
  unfold res. cbn [expand_loop]. 
  rewrite Hev. cbn [mbind outcome_bind].
  destruct (eof_nullable w) eqn:Heof.
  { left. split; [by apply (Hw true)|]. rewrite (name_resolve p strs _ s) by (done || apply Hinv). done. }
  assert (checked (gr tvs cs) c) as Hch by (intros Hz; apply (Hw true) in Hz; cbn in Hz; congruence).
  right. split; [done|]. destruct (inv_length _ _ _ _ _ _ Hinv) as [Hlv Hla].
  pose proof (ei_len _ _ _ _ _ _ Hinv) as Hprec.
  assert (∀ p1 e1 cs1 strs1 j, exp_inv vs tvs cs1 strs1 p1 e1 → cs1 !! j = Some c →
    nodes p1 !! N.to_nat id = Some (Repeat content) → denotes p1 content c → room r p1 e1 strs1 →
    moved 0 p (gr tvs cs) p1 (gr tvs cs1) → (N.of_nat (length tvs + j) < U32)%N → ∀ ctr1,
    ∃ ctr' p' e' tvs' cs' strs' y,
     (p2 ← set_node p1 id (rule_of_symbol (non_terminal (N.of_nat (length tvs + j))));
        expand_loop hash_one fx fuel k p2 e1 (var_name v) ctr1 stack) =
       expand_loop hash_one fx fuel k p' e' (var_name v) ctr' stack ∧ exp_inv vs tvs' cs' strs' p' e' ∧
     length tvs' = length tvs ∧ moved (f id) p (gr tvs cs) p' (gr tvs' cs') ∧
     nodes p' !! N.to_nat id = Some (Sym NonTerminal y) ∧ room r p' e' strs') as Hset.
  { intros p1 e1 cs1 strs1 j Hinv1 Hj Hid1 Hc1 Hroom1 Hmv Hjs ctr1.
    destruct (set_aux_inv vs tvs cs1 strs1 p1 e1 id content c j) as (tvs' & Hinv' & Hlen' & Hmv'); [done..|].
    unfold set_node. rewrite vec_set_lt by by eapply lookup_lt_Some. cbn [mbind outcome_bind].
    change (rule_of_symbol (non_terminal (N.of_nat (length tvs + j)))) with (Sym NonTerminal (wrap_u32 (N.of_nat (length tvs + j)))).
    rewrite wrap_u32_small by done. eexists ctr1, _, e1, tvs', cs1, strs1, _. split_and!; [reflexivity|exact Hinv'|done| | |].
    - eapply moved_trans; [exact Hmv|exact Hmv'|lia|lia].
    - cbn. apply list_lookup_insert_eq. by eapply lookup_lt_Some.
    - destruct Hroom1. split; cbn; rewrite ?length_insert; done. }
  unfold subtree_hash. rewrite (subtree_hash_loop_spec (E:=ExpandRepeatsError) k p [content] [c]);
    [|by constructor|unfold tsum; cbn; lia].
  cbn [mbind outcome_bind]. assert (concat (map tree_items [c]) = tree_items c) as -> by (cbn; by rewrite List.app_nil_r).
  pose proof (ei_cs _ _ _ _ _ _ Hinv) as Hcs. rewrite Forall_lookup in Hcs.
  pose proof (room_vars _ _ _ _ Hroom) as Hrv.
  assert (∃ found, match memo e !! fx (tree_items c) with Some l => find_candidate (E:=ExpandRepeatsError) k p l content | None => Ok None end = Ok found ∧
    match found with
    | Some sy => ∃ j, cs !! j = Some c ∧ sy = non_terminal (N.of_nat (length tvs + j))
    | None => c ∉ cs
    end) as (found & -> & Hfound).
  { destruct (memo e !! fx (tree_items c)) as [l|] eqn:Hl.
    - destruct (find_candidate_spec (E:=ExpandRepeatsError) p l content c Hc) as (found & -> & Hfound).
      + intros nd sy Hin. destruct (ei_memo _ _ _ _ _ _ Hinv _ _ _ _ Hl Hin) as (j & d & Hj & _ & Hd). exists d.
        split; [done|]. by destruct (Hcs j d Hj) as (_ & _ & ?).
      + exists found. split; [done|]. destruct found as [sy|].
        * destruct Hfound as (nd & Hin & Hnd). destruct (ei_memo _ _ _ _ _ _ Hinv _ _ _ _ Hl Hin) as (j & d & Hj & -> & Hd).
          rewrite (denotes_det _ _ _ _ Hd Hnd) in Hj. by exists j.
        * intros [j Hj]%list_elem_of_lookup. destruct (ei_known _ _ _ _ _ _ Hinv j c Hj) as (l' & nd & Hl' & Hin).
          rewrite Hl in Hl'. injection Hl' as <-. destruct (ei_memo _ _ _ _ _ _ Hinv _ _ _ _ Hl Hin) as (j' & d & Hj' & Heq & Hd).
          apply lookup_lt_Some in Hj as Hlt, Hj' as Hlt'. apply non_terminal_inj in Heq; [|lia..].
          assert (j = j') as <- by lia. rewrite Hj in Hj'. injection Hj' as <-. by apply (Hfound _ _ Hin).
    - exists None. split; [done|]. intros [j Hj]%list_elem_of_lookup.
      destruct (ei_known _ _ _ _ _ _ Hinv j c Hj) as (l' & nd & Hl' & _). congruence. }
  cbn [mbind outcome_bind]. destruct found as [sy|].
  - destruct Hfound as (j & Hj & ->). pose proof (lookup_lt_Some _ _ _ Hj).
    eapply Hset; [exact Hinv|done..| |apply moved_refl|lia]. eapply room_le; [done|lia].
  - destruct (new_aux_spec (E:=ExpandRepeatsError) vs tvs cs strs p e v s ctr w content c r) as (ctr' & p1 & e1 & strs1 & -> & Hinv1 & Hmv & Hext & Hroom1); [done..|].
    cbn [mbind outcome_bind]. eapply (Hset p1 e1 (cs ++ [c]) strs1 (length cs)); [done|by apply list_lookup_middle| |by eapply denotes_extends|done|apply Hmv|lia].
    destruct Hext as ([l Hl] & _). rewrite Hl. by apply lookup_app_l_Some.
Qed.

(** ** The walk of one rule *)
Definition visit_result (kappa : nat) (ids : list RuleId) (us : list tree) vs tvs cs p (v : Variable_) (s : bytes) (r fuel : nat)
    (stack : list Task) (res : outcome ExpandRepeatsError (N * RulePool H * Expander)) : Prop :=
  ((∃ d, d ∈ concat (map repeats us) ∧ zero_width (gr tvs cs) true d) ∧ res = Err (mkExpandRepeatsError s)) ∨
  ((∀ d, d ∈ concat (map repeats us) → checked (gr tvs cs) d) ∧ ∃ fuel' ctr' p' e' tvs' cs' strs',
     res = expand_loop hash_one fx fuel' k p' e' (var_name v) ctr' stack ∧ fuel ≤ fuel' + 2 * tsum us ∧
     exp_inv vs tvs' cs' strs' p' e' ∧ length tvs' = length tvs ∧ moved kappa p (gr tvs cs) p' (gr tvs' cs') ∧
     Forall (λ x, ∃ t', denotes p' x t' ∧ flat_rule (length tvs' + length cs') t') ids ∧ room r p' e' strs').
Definition visits_ok (kappa : nat) (ids : list RuleId) (us : list tree) : Prop :=
  ∀ vs tvs cs strs p e v s ctr r fuel stack,
  exp_inv vs tvs cs strs p e → v ∈ vs → name_ok (var_name v) s → room (tsum us + r) p e strs →
  Forall2 (denotes p) ids us → Forall (wf_rule (length tvs + length cs)) us → Forall (λ u, tree_size u ≤ K) us →
  Forall (λ x, 0 < f x ≤ kappa) ids → 2 * tsum us ≤ fuel →
  visit_result kappa ids us vs tvs cs p v s r fuel stack
    (expand_loop hash_one fx fuel k p e (var_name v) ctr (map VisitTask ids ++ stack)).

Lemma visits_le kappa x t : visits_ok (f x) [x] [t] → visits_ok kappa [x] [t].
Proof.
  intros Hok vs tvs cs strs p e v s ctr r fuel stack Hinv Hv Hname Hroom Hd Hwf HK Hids Hfuel.
  destruct (proj1 (Forall_singleton _ _) Hids) as [Hx0 Hx].
  destruct (Hok vs tvs cs strs p e v s ctr r fuel stack) as [?|(Hch & fuel' & ctr' & p' & e' & tvs' & cs' & strs' & H1 & H2 & H3 & H4 & H5 & H6 & H7)];
    [done..|apply Forall_singleton; by split|done|by left|]. right. split; [done|].
  exists fuel', ctr', p', e', tvs', cs', strs'. split_and!; try done. eapply moved_le; [done|lia].
Qed.

(** What a rule becomes when other rules are walked. *)
Lemma moved_rules kappa p ts p' ts' ids us :
  moved kappa p ts p' ts' → Forall2 (denotes p) ids us → Forall (wf_rule (length ts)) us →
  ∃ us', Forall2 (denotes p') ids us' ∧ Forall2 (λ u u', expanded ts u ts' u') us us'.
Proof.
  intros Hm Hf. induction Hf as [|x t ids us Hx Hf IH]; intros Hwf; [exists []; by split|].
  apply Forall_cons in Hwf as [Ht Hwf]. destruct (mv_tree _ _ _ _ _ Hm x t Hx Ht) as (t' & ? & ?).
  destruct (IH Hwf) as (us' & ? & ?). exists (t' :: us'). split; by constructor.
Qed.
Lemma expanded_rules ts ts' us us' :
  Forall2 (λ u u', expanded ts u ts' u') us us' →
  tsum us' ≤ tsum us ∧ Forall (wf_rule (length ts')) us' ∧
  (Forall (λ u, tree_size u ≤ K) us → Forall (λ u, tree_size u ≤ K) us') ∧
  (∀ d', d' ∈ concat (map repeats us') → ∃ d, d ∈ concat (map repeats us) ∧ agree ts d ts' d') ∧
  ((∀ d', d' ∈ concat (map repeats us') → checked ts' d') → ∀ d, d ∈ concat (map repeats us) → checked ts d).
Proof.
  induction 1 as [|u u' us us' He _ (IHs & IHw & IHk & IHn & IHo)]; cbn [map concat].
  - split_and!; [done|apply Forall_nil_2|done|by intros d' ?%not_elem_of_nil|by intros _ d ?%not_elem_of_nil].
  - pose proof (ex_size _ _ _ _ He). unfold tsum in *. cbn. setoid_rewrite elem_of_app. split_and!.
    + lia.
    + constructor; [apply He|done].
    + intros [? ?]%Forall_cons. constructor; [lia|by apply IHk].
    + intros d' [Hd|Hd]; [destruct (ex_new _ _ _ _ He d' Hd) as (d & ? & ?)|destruct (IHn d' Hd) as (d & ? & ?)]; exists d; auto.
    + intros Hall d [Hd|Hd]; [|apply IHo; auto].
      destruct (ex_old _ _ _ _ He d Hd) as [?|(d' & Hd' & Ha)]; [done|].
      intros Hz. apply (Hall d'); [by left|]. by apply (agree_zero _ _ _ _ _ Ha).
Qed.

Lemma visits_list kappa m :
  (∀ x t, tree_size t ≤ m → visits_ok kappa [x] [t]) → ∀ ids us, tsum us ≤ m → visits_ok kappa ids us.
Proof.
  intros Hone ids. induction ids as [|x ids IH]; intros us Hm vs tvs cs strs p e v s ctr r fuel stack Hinv Hv Hname Hroom Hd Hwf HK Hids Hfuel.
  - inversion Hd; subst. right. split; [by intros d ?%not_elem_of_nil|].
    exists fuel, ctr, p, e, tvs, cs, strs. split_and!; try done; [lia|apply moved_refl].
  - inversion Hd as [|? t ? us0 Hx Hd0]; subst. apply Forall_cons in Hwf as [Hwt Hwf]. apply Forall_cons in HK as [HtK HK].
    apply Forall_cons in Hids as [Hfx Hids]. unfold visit_result. change (tsum (t :: us0)) with (tree_size t + tsum us0) in *.
    assert (tsum [t] = tree_size t) as Ht1 by (unfold tsum; cbn; lia).
    cbn [map app concat].
    destruct (Hone x t ltac:(lia) vs tvs cs strs p e v s ctr (tsum us0 + r) fuel (map VisitTask ids ++ stack)) as
      [[(d & Hin & Hz) Herr]|(Hch & fuel1 & ctr1 & p1 & e1 & tvs1 & cs1 & strs1 & Hres & Hf1 & Hinv1 & Hl1 & Hm1 & Hflat1 & Hroom1)];
      rewrite ?Ht1; try done; try (by constructor); try lia; [by eapply room_le; [done|lia]| |].
    { left. cbn in Hin. rewrite List.app_nil_r in Hin. split; [exists d; split; [apply elem_of_app; by left|done]|exact Herr]. }
    cbn [map concat] in Hch. rewrite List.app_nil_r in Hch. cbn [map app] in Hres. cbn [app]. rewrite Hres.
    destruct (moved_rules _ _ _ _ _ _ _ Hm1 Hd0) as (us1 & Hd1 & He1); [by rewrite length_grammar|].
    destruct (expanded_rules _ _ _ _ He1) as (Hs1 & Hw1 & Hk1 & Hn1 & Ho1). rewrite length_grammar in Hw1.
    destruct (IH us1 ltac:(lia) vs tvs1 cs1 strs1 p1 e1 v s ctr1 r fuel1 stack) as
      [[(d & Hin & Hz) Herr]|(Hch2 & fuel2 & ctr2 & p2 & e2 & tvs2 & cs2 & strs2 & Hres2 & Hf2 & Hinv2 & Hl2 & Hm2 & Hflat2 & Hroom2)];
      try done; [eapply room_le; [done|lia]|auto|lia| |].
    { left. split; [|exact Herr]. destruct (Hn1 d Hin) as (d0 & Hd0' & Ha). exists d0.
      split; [apply elem_of_app; by right|by apply (agree_zero _ _ _ _ _ Ha)]. }
    right. split; [intros d [Hin|Hin]%elem_of_app; [by apply Hch|by apply Ho1]|].
    exists fuel2, ctr2, p2, e2, tvs2, cs2, strs2. split_and!; [done|lia|done|lia|by eapply moved_trans| |done].
    constructor; [|done]. apply Forall_cons in Hflat1 as [(t' & Ht' & Hft) _]. exists t'.
    split; [eapply moved_flat; [done..|by rewrite length_grammar]|].
    destruct Hft as [Hwt' Hrt']. split; [|done]. eapply wf_rule_le; [done|].
    pose proof (mv_le _ _ _ _ _ Hm2) as Hle. by rewrite !length_grammar in Hle.
Qed.

Lemma tsum_one t : tsum [t] = tree_size t.
Proof. unfold tsum. cbn. lia. Qed.
Lemma repeats_one t : concat (map repeats [t]) = repeats t.
Proof. cbn. by rewrite List.app_nil_r. Qed.

(** *** One task [Visit], given the walks of the smaller rules *)
Section visit.
Context (n : nat) (id : RuleId) (t : tree) (Hn : tree_size t ≤ S n).
Context (IH : ∀ x u, tree_size u ≤ n → visits_ok (f id - 1) [x] [u]).
Context (vs : list Variable_) (tvs cs : list tree) (strs : list bytes) (p : RulePool H) (e : Expander) (v : Variable_) (s : bytes)
  (ctr : N) (r fuel : nat) (stack : list Task).
Context (Hinv : exp_inv vs tvs cs strs p e) (Hv : v ∈ vs) (Hname : name_ok (var_name v) s).
Context (Hroom : room (tree_size t + r) p e strs) (Hid : denotes p id t) (Hwf : wf_rule (length tvs + length cs) t).
Context (HK : tree_size t ≤ K) (Hfuel : 2 * tree_size t ≤ S fuel) (Hfid : 0 < f id).
Notation loop n p e ctr stack := (expand_loop hash_one fx n k p e (var_name v) ctr stack).
Notation visited := (visit_result (f id) [id] [t] vs tvs cs p v s r (S fuel) stack (loop (S fuel) p e ctr (VisitTask id :: stack))).

(** Rules that are not entered. *)
Lemma visit_skip : loop (S fuel) p e ctr (VisitTask id :: stack) = loop fuel p e ctr stack → repeats t = [] → visited.
Proof.
  intros Hstep Hfree. unfold visit_result. rewrite !repeats_one, tsum_one. right.
  split; [rewrite Hfree; by intros d ?%not_elem_of_nil|]. pose proof (tree_size_pos t).
  exists fuel, ctr, p, e, tvs, cs, strs. split_and!; [exact Hstep|lia|done|done|apply moved_refl| |eapply room_le; [done|lia]].
  constructor; [|constructor]. exists t. split; [done|]. by split.
Qed.

(** Rules that are entered through a list of rules. *)
Lemma visit_enter nd ids us (mk : list tree → tree) :
  nodes p !! N.to_nat id = Some nd → Forall2 (denotes p) ids us → Forall (λ y, 0 < f y < f id) ids →
  loop (S fuel) p e ctr (VisitTask id :: stack) = loop fuel p e ctr (map VisitTask ids ++ stack) →
  tree_size t = S (tsum us) → repeats t = concat (map repeats us) → Forall (wf_rule (length tvs + length cs)) us →
  (∀ n us, Forall (flat_rule n) us → length us = length ids → flat_rule n (mk us)) →
  (∀ p' us', nodes p' !! N.to_nat id = Some nd → children p `prefix_of` children p' → params p' = params p →
     Forall2 (denotes p') ids us' → denotes p' id (mk us')) → visited.
Proof.
  intros Hnd Hf Hr Hstep Hsz Hrep Hwfs Hflat Hden. rewrite Hstep. unfold visit_result. rewrite !repeats_one, tsum_one, Hrep.
  destruct (visits_list (f id - 1) n IH ids us ltac:(lia) vs tvs cs strs p e v s ctr r fuel stack) as
    [Herr|(Hch & fuel1 & ctr1 & p1 & e1 & tvs1 & cs1 & strs1 & Hres & Hf1 & Hinv1 & Hl1 & Hm1 & Hflat1 & Hroom1)];
    try done; [eapply room_le; [done|lia]| | |lia|by left|].
  { apply Forall_forall. intros u Hu. pose proof (tsum_elem u us Hu). lia. }
  { eapply Forall_impl; [done|]. cbn. intros. lia. }
  right. split; [done|]. exists fuel1, ctr1, p1, e1, tvs1, cs1, strs1. split_and!; [done|lia|done|done|eapply moved_le; [done|lia]| |done].
  rewrite Forall_singleton. assert (∃ us', Forall2 (denotes p1) ids us' ∧ Forall (flat_rule (length tvs1 + length cs1)) us') as (us' & Hus' & Hfl).
  { clear -Hflat1. induction Hflat1 as [|x ids (t' & Hx & Ht') _ (us' & ? & ?)]; [exists []; by split|].
    exists (t' :: us'). split; by constructor. }
  exists (mk us'). split; [apply Hden; [|apply Hm1|apply Hm1|done]|apply Hflat; [done|symmetry; by eapply Forall2_length]].
  rewrite (mv_nodes _ _ _ _ _ Hm1); [done|lia].
Qed.

(** A list of rules, by [mk] the sequence or the choice of it. *)
Lemma visit_list nd rg cs0 us (mk : list tree → tree) :
  nodes p !! N.to_nat id = Some nd → child_slice (E:=Empty_set) p rg = Ok cs0 → Forall2 (denotes p) cs0 us → node_rank f p (f id) nd →
  (nd = Seq rg ∧ mk = TSeq) ∨ (nd = Choice rg ∧ mk = TChoice) → rlen rg = N.of_nat (length cs0) → t = mk us → visited.
Proof.
  intros Hnd Hcs0 Hf Hr Hcase Hlen0 Ht.
  assert (∃ cs1, child_slice (E:=Empty_set) p rg = Ok cs1 ∧ Forall (λ y, 0 < f y < f id) cs1) as (cs1 & Hcs1 & Hr1) by by destruct Hcase as [[-> _]|[-> _]].
  rewrite Hcs0 in Hcs1. injection Hcs1 as <-.
  assert (∀ n l, (wf_rule n (mk l) ↔ ∀ u, u ∈ l → wf_rule n u) ∧ (flat_rule n (mk l) ↔ ∀ u, u ∈ l → flat_rule n u)) as Hall.
  { intros m l. destruct (wf_list m l), (flat_list m l). by destruct Hcase as [[_ ->]|[_ ->]]. }
  apply (visit_enter nd cs0 us mk); try done.
  - cbn [expand_loop]. unfold node. rewrite (vec_get_Some _ _ _ Hnd). cbn [mbind outcome_bind].
    destruct Hcase as [[-> _]|[-> _]]; by rewrite (child_slice_any _ _ _ Hcs0).
  - rewrite Ht. by destruct Hcase as [[_ ->]|[_ ->]].
  - rewrite Ht. by destruct Hcase as [[_ ->]|[_ ->]].
  - rewrite Ht in Hwf. apply Forall_forall. exact (proj1 (proj1 (Hall _ us)) Hwf).
  - intros m us' Hus' _. apply (proj2 (Hall m us')). by apply Forall_forall.
  - intros p' us' Hn' Hch' _ Hf'. apply denotes_unfold. exists nd. split; [done|].
    destruct Hcase as [[-> ->]|[-> ->]]; exists cs0, us'; (split_and!; [by eapply child_slice_prefix|done..]).
Qed.

(** A repetition: its contents first, then its own task. *)
Lemma visit_repeat y u :
  nodes p !! N.to_nat id = Some (Repeat y) → denotes p y u → 0 < f y < f id → t = TRepeat u → visited.
Proof.
  intros Hnd Hu Hfy Ht. assert (tree_size t = S (tree_size u)) as Hts by by rewrite Ht.
  assert (wf_rule (length tvs + length cs) u) as Hwu by (rewrite Ht in Hwf; destruct Hwf; by split).
  assert (loop (S fuel) p e ctr (VisitTask id :: stack) = loop fuel p e ctr (VisitTask y :: ExpandTask id y :: stack)) as ->.
  { cbn [expand_loop]. unfold node. by rewrite (vec_get_Some _ _ _ Hnd). }
  unfold visit_result. rewrite !repeats_one, tsum_one, Ht. cbn [repeats tree_size].
  destruct (IH y u ltac:(lia) vs tvs cs strs p e v s ctr (S r) fuel (ExpandTask id y :: stack)) as
    [[(d & Hin & Hz) Herr]|(Hch & fuel1 & ctr1 & p1 & e1 & tvs1 & cs1 & strs1 & Hres & Hf1 & Hinv1 & Hl1 & Hm1 & Hflat1 & Hroom1)];
    rewrite ?tsum_one, ?repeats_one in *; try done; try (by repeat constructor; lia); try lia.
  { eapply room_le; [done|lia]. }
  { by constructor. } { by constructor. }
  { left. split; [|exact Herr]. exists d. split; [by apply list_elem_of_further|done]. }
  rewrite Forall_singleton in Hflat1. destruct Hflat1 as (u1 & Hd1 & Hfl1).
  destruct (mv_tree _ _ _ _ _ Hm1 y u Hu) as (u1' & Hd1' & He1); [by rewrite length_grammar|].
  rewrite (denotes_det _ _ _ _ Hd1' Hd1) in *. clear Hd1' u1'.
  destruct fuel1 as [|fuel1]; [lia|]. cbn [map app] in Hres. rewrite Hres.
  assert (nodes p1 !! N.to_nat id = Some (Repeat y)) as Hid1 by (rewrite (mv_nodes _ _ _ _ _ Hm1); [done|lia]).
  pose proof (ex_size _ _ _ _ He1) as Hsz1.
  assert (∀ b, zero_width (gr tvs cs) b u ↔ zero_width (gr tvs1 cs1) b u1) as Hzu by (intros b; apply agree_zero, He1).
  destruct (expand_task vs tvs1 cs1 strs1 p1 e1 v s ctr1 id y u1 r fuel1 stack) as
    [[Hz Herr]|(Hch1 & ctr2 & p2 & e2 & tvs2 & cs2 & strs2 & y2 & Hres2 & Hinv2 & Hl2 & Hm2 & Hn2 & Hroom2)];
    [done..|lia|done|done|done| |].
  { left. split; [|exact Herr]. exists u. split; [apply list_elem_of_here|by apply Hzu]. }
  right. split; [intros d [->|Hin]%elem_of_cons; [|by apply Hch]; intros Hz; by apply Hch1, Hzu|].
  exists fuel1, ctr2, p2, e2, tvs2, cs2, strs2. split_and!; [done|lia|done|lia|eapply moved_trans; [done..|lia|lia]| |done].
  rewrite Forall_singleton. exists (TSym NonTerminal y2). split; [apply denotes_unfold; by exists (Sym NonTerminal y2)|].
  destruct (mv_tree _ _ _ _ _ Hm2 id (TRepeat u1)) as (t2 & Ht2 & He2).
  { apply denotes_unfold. exists (Repeat y). split; [done|]. by exists u1. }
  { rewrite length_grammar. destruct Hfl1 as [[] _]. by split. }
  apply denotes_unfold in Ht2 as (nd2 & Hnd2 & Ht2). rewrite Hn2 in Hnd2. injection Hnd2 as <-. cbn in Ht2. subst t2.
  pose proof (ex_wf _ _ _ _ He2) as Hw2. rewrite length_grammar in Hw2. by split.
Qed.

Lemma visit_metadata mid mp y u :
  nodes p !! N.to_nat id = Some (Metadata mid y) → params p !! N.to_nat mid = Some mp → denotes p y u →
  0 < f y < f id → t = TMetadata mp u → visited.
Proof.
  intros Hnd Hmp Hu Hfy Ht. apply (visit_enter (Metadata mid y) [y] [u] (λ us, TMetadata mp (default TBlank (head us)))); try done.
  - by constructor.
  - by constructor.
  - cbn [expand_loop]. unfold node. by rewrite (vec_get_Some _ _ _ Hnd).
  - by rewrite Ht, tsum_one.
  - by rewrite Ht, repeats_one.
  - rewrite Ht in Hwf. constructor; [|constructor]. destruct Hwf. by split.
  - intros m us' Hus' Hl. destruct us' as [|u' [|]]; try done. rewrite Forall_singleton in Hus'.
    destruct Hus' as [[] ?]. by split.
  - intros p' us' Hn' _ Hpar Hf'. inversion Hf' as [|? u' ? l Hy' Hl]; subst. inversion Hl; subst.
    apply denotes_unfold. exists (Metadata mid y). split; [done|]. exists mp, u'. rewrite Hpar. done.
Qed.
End visit.

Lemma visit_one n id t : tree_size t ≤ n → visits_ok (f id) [id] [t].
Proof.
  revert id t. induction n as [|n IH]; intros id t Hn; [pose proof (tree_size_pos t); lia|].
  intros vs tvs cs strs p e v s ctr r fuel stack Hinv Hv Hname Hroom Hd Hwf HK Hids Hfuel. rewrite tsum_one in *.
  rewrite Forall_singleton in Hwf. rewrite Forall_singleton in HK. rewrite Forall_singleton in Hids.
  assert (denotes p id t) as Hid by by inversion Hd.
  destruct fuel as [|fuel]; [pose proof (tree_size_pos t); lia|].
  pose proof Hid as (nd & Hnd & Hdn)%denotes_unfold.
  assert (node (E:=ExpandRepeatsError) p id = Ok nd) as Hnode by by apply vec_get_Some.
  pose proof (proj1 (ei_rank _ _ _ _ _ _ Hinv) id nd Hnd (proj1 Hids)) as Hrank.
  assert (∀ x u, tree_size u ≤ n → visits_ok (f id - 1) [x] [u]) as IH' by (intros; by apply visits_le, IH).
  destruct Hids as [Hfid _]. cbn [map app].
  destruct nd as [|?|? ?|?|? ?|rg|rg|y| |mid y|y w]; cbn [denotes_node] in Hdn; destr_ex; subst.
  1-5, 9: by eapply visit_skip; eauto; cbn [expand_loop]; rewrite Hnode.
  - by eapply (visit_list n id); eauto.
  - by eapply (visit_list n id); eauto.
  - by eapply (visit_repeat n id); eauto.
  - by eapply (visit_metadata n id); eauto.
  - eapply visit_skip; eauto; [cbn [expand_loop]; by rewrite Hnode|].
    pose proof (wf_reserved _ _ Hwf) as Hrf. cbn in Hrf. by apply bool_decide_eq_true in Hrf.
Qed.

(** ** A hidden variable that is a repetition *)
Lemma own_aux_inv vs tvs cs strs p e i v c root p' :
  exp_inv vs tvs cs strs p e → vs !! i = Some v → tvs !! i = Some (TRepeat c) →
  flat_rule (length tvs + length cs) c → checked (gr tvs cs) c →
  extends p p' → params p' = params p → str_pool p' = str_pool p → denotes p' root (wrap_tree (N.of_nat i) c) →
  let tvs' := <[i := wrap_tree (N.of_nat i) c]> tvs in
  exp_inv (<[i := mkVariable (var_name v) root]> vs) tvs' cs strs p' e ∧
  (∀ kappa, moved kappa p (gr tvs cs) p' (gr tvs' cs)) ∧
  repl_step c (N.of_nat i) (gr tvs cs) (gr tvs' cs).
Proof.
  intros Hinv Hv Hi Hflat Hch Hext Hpar Hsp Hroot tvs'. pose proof (grammar_flat _ _ _ _ _ _ Hinv) as Haux.
  pose proof Hinv as [Il Iv Ia Iwf Ics Ind Im Ik Iw Ip Ipre In Ir].
  pose proof (lookup_lt_Some _ _ _ Hi) as Hlt. assert (length tvs' = length tvs) as Hlen by apply length_insert.
  assert (repl_step c (N.of_nat i) (gr tvs cs) (gr tvs' cs)) as Hst.
  { split; rewrite ?length_grammar; try apply Hflat; try done; try lia.
    - rewrite Nat2N.id, lookup_app_l by lia. unfold tvs'. by apply list_lookup_insert_eq.
    - intros j t Hne Hj. rewrite Nat2N.id in Hne. exists t. rewrite Hlen. split.
      + destruct (decide (N.to_nat j < length tvs)) as [Hjl|Hjl].
        * rewrite lookup_app_l in Hj |- * by lia. unfold tvs'. by rewrite list_lookup_insert_ne.
        * rewrite lookup_app_r in Hj |- * by lia. by rewrite Hlen.
      + apply repl_refl. apply lookup_app_Some in Hj as [Hj|[_ Hj]].
        * rewrite Forall_lookup in Iwf. by apply (wf_scoped _ _ (Iwf _ _ Hj)).
        * rewrite Forall_lookup in Haux. by destruct (Haux _ _ Hj) as [[]].
    - intros _. right. rewrite Nat2N.id. by apply lookup_app_l_Some. }
  split_and!; [|intros kappa|done].
  - eapply (step_inv vs _ tvs); [done|exact Hst|by apply extends_repl|by rewrite Hlen| | | |done|by eapply rank_ok_extends].
    + rewrite list_fmap_insert. cbn. apply Forall2_insert; [|done]. eapply Forall2_impl; [done|]. intros. by eapply denotes_extends.
    + apply Forall_insert; [done|]. apply wrap_tree_flat; [done|]. lia.
    + rewrite list_fmap_insert. cbn. apply list_insert_id. by rewrite list_lookup_fmap, Hv.
  - eapply moved_step; [exact Hst|by apply extends_repl| |apply Hext|done].
    intros x Hx. apply extends_nodes; [done..|lia].
Qed.

(** ** One variable *)
Lemma moved_var kappa vs tvs cs strs p e vs' tvs' cs' strs' p' e' j t :
  exp_inv vs tvs cs strs p e → exp_inv vs' tvs' cs' strs' p' e' → moved kappa p (gr tvs cs) p' (gr tvs' cs') →
  vs' !! j = vs !! j → tvs !! j = Some t → ∃ t', tvs' !! j = Some t' ∧ expanded (gr tvs cs) t (gr tvs' cs') t'.
Proof.
  intros Hinv Hinv' Hm Hj Ht. pose proof (ei_vars _ _ _ _ _ _ Hinv) as Hv. pose proof (ei_vars _ _ _ _ _ _ Hinv') as Hv'.
  eapply Forall2_lookup_r in Hv as (x & Hx & Hxt); [|done]. rewrite list_lookup_fmap in Hx.
  destruct (vs !! j) as [v|] eqn:Hvj; [|done]. injection Hx as <-.
  pose proof (ei_wf _ _ _ _ _ _ Hinv) as Hwf. rewrite Forall_lookup in Hwf.
  destruct (mv_tree _ _ _ _ _ Hm _ _ Hxt) as (t' & Hxt' & He); [rewrite length_grammar; by eapply Hwf|].
  exists t'. split; [|done]. eapply Forall2_lookup_l in Hv' as (t'' & Ht'' & Hxt''); [|by rewrite list_lookup_fmap, Hj].
  by rewrite (denotes_det _ _ _ _ Hxt' Hxt'').
Qed.

Definition no_own (A : list nat) (inl : list Symbol) : list Symbol :=
  filter (λ s, Forall (λ j, s ≠ non_terminal (N.of_nat j)) A) inl.

Lemma no_own_nil inl : no_own [] inl = inl.
Proof. unfold no_own. induction inl as [|x l IH]; [done|]. rewrite filter_cons_True by constructor. by rewrite IH. Qed.
Lemma no_own_app A A' inl : no_own A' (no_own A inl) = no_own (A ++ A') inl.
Proof.
  unfold no_own. rewrite list_filter_filter. apply list_filter_iff. intros s. rewrite Forall_app. tauto.
Qed.

(** What one variable, or the variables from one on, become. *)
Record var_facts (P : nat → Prop) (vs : list Variable_) (tvs cs : list tree) p (kds : list VariableType) (inl : list Symbol)
    (vs' : list Variable_) (tvs' cs' : list tree) p' (kds' : list VariableType) (inl' : list Symbol) (A : list nat) : Prop := {
  vf_names : map var_name vs' = map var_name vs;
  vf_moved : ∃ kappa, moved kappa p (gr tvs cs) p' (gr tvs' cs');
  vf_checked : ∀ j t d, P j → tvs !! j = Some t → d ∈ repeats t → checked (gr tvs cs) d;
  vf_flat : ∀ j t', P j → tvs' !! j = Some t' → flat_rule (length tvs' + length cs') t';
  vf_other : ∀ j, ¬ P j → vs' !! j = vs !! j;
  vf_own : ∀ j, j ∈ A → P j ∧ kds !! j = Some Hidden ∧ (∃ d, tvs !! j = Some (TRepeat d)) ∧
    ∃ d, tvs' !! j = Some (wrap_tree (N.of_nat j) d);
  vf_kinds : ∀ j : nat, kds' !! j = if decide (j ∈ A) then Some Auxiliary else kds !! j;
  vf_inline : inl' = no_own A inl;
}.

(** A walk from a rule: all tasks are done. *)
Lemma expand_root_spec n vs tvs cs strs p e v s x t r :
  2 * K ≤ n → exp_inv vs tvs cs strs p e → v ∈ vs → name_ok (var_name v) s → room (tree_size t + r) p e strs →
  denotes p x t → wf_rule (length tvs + length cs) t → tree_size t ≤ K → 0 < f x →
  (∃ d, d ∈ repeats t ∧ zero_width (gr tvs cs) true d ∧
     expand_root hash_one fx n k p e x (var_name v) 0 = Err (mkExpandRepeatsError s)) ∨
  ((∀ d, d ∈ repeats t → checked (gr tvs cs) d) ∧ ∃ ctr' p' e' tvs' cs' strs' t',
     expand_root hash_one fx n k p e x (var_name v) 0 = Ok (ctr', p', e') ∧
     exp_inv vs tvs' cs' strs' p' e' ∧ length tvs' = length tvs ∧ moved (f x) p (gr tvs cs) p' (gr tvs' cs') ∧
     denotes p' x t' ∧ flat_rule (length tvs' + length cs') t' ∧ tree_size t' ≤ tree_size t ∧ agree (gr tvs cs) t (gr tvs' cs') t' ∧
     room r p' e' strs').
Proof.
  intros Hn Hinv Hv Hname Hroom Hx Hwf HtK Hfx.
  assert (tsum [t] = tree_size t) as Ht1 by (unfold tsum; cbn; lia).
  assert (concat (map repeats [t]) = repeats t) as Hrt by (cbn; by rewrite List.app_nil_r).
  unfold expand_root. destruct (visit_one _ x t (le_n _) vs tvs cs strs p e v s 0%N r n []) as
    [[(d & Hin & Hz) Herr]|(Hch & fuel1 & ctr1 & p1 & e1 & tvs1 & cs1 & strs1 & Hres & Hf1 & Hinv1 & Hl1 & Hm1 & Hflat1 & Hroom1)];
    rewrite ?Ht1, ?Hrt in *; try done; try (by constructor); try (by repeat constructor); try lia.
  - left. exists d. cbn [map app] in Herr. by rewrite Herr.
  - right. split; [done|]. cbn [map app] in Hres. rewrite Hres.
    rewrite Forall_singleton in Hflat1. destruct Hflat1 as (t2 & Ht2 & Hfl).
    destruct (mv_tree _ _ _ _ _ Hm1 x t Hx) as (t3 & Ht3 & He); [by rewrite length_grammar|].
    rewrite (denotes_det _ _ _ _ Ht3 Ht2) in He.
    exists ctr1, p1, e1, tvs1, cs1, strs1, t2. split_and!; try done; [by destruct fuel1|apply He..].
Qed.

Lemma inv_root vs tvs cs strs p e i v :
  exp_inv vs tvs cs strs p e → vs !! i = Some v →
  ∃ t, tvs !! i = Some t ∧ denotes p (var_root v) t ∧ wf_rule (length tvs + length cs) t.
Proof.
  intros Hinv Hv. pose proof (ei_vars _ _ _ _ _ _ Hinv) as Hvs.
  eapply Forall2_lookup_l in Hvs as (t & Ht & Hd); [|by rewrite list_lookup_fmap, Hv]. exists t. split_and!; [done..|].
  pose proof (ei_wf _ _ _ _ _ _ Hinv) as Hwf. rewrite Forall_lookup in Hwf. by eapply Hwf.
Qed.

(** A variable that keeps its own rule. *)
Definition plain_step n i todo p vs kds inl e v : outcome ExpandRepeatsError _ :=
  '(_, p, e) ← expand_root hash_one fx n k p e (var_root v) (var_name v) 0;
  expand_variables hash_one fx n k (S i) todo p vs kds inl e.
Lemma plain_step_spec n i todo p vs kds inl e tvs cs strs v t s r :
  2 * K ≤ n → exp_inv vs tvs cs strs p e → vs !! i = Some v → tvs !! i = Some t → name_ok (var_name v) s →
  0 < f (var_root v) → tree_size t ≤ K → room (tree_size t + r) p e strs →
  let res := plain_step n i todo p vs kds inl e v in
  (∃ d, d ∈ repeats t ∧ zero_width (gr tvs cs) true d ∧ res = Err (mkExpandRepeatsError s)) ∨
  (∃ p' vs' kds' inl' e' tvs' cs' strs' A, res = expand_variables hash_one fx n k (S i) todo p' vs' kds' inl' e' ∧
     exp_inv vs' tvs' cs' strs' p' e' ∧ room r p' e' strs' ∧ length kds' = length kds ∧
     var_facts (λ j, j = i) vs tvs cs p kds inl vs' tvs' cs' p' kds' inl' A).
Proof.
  intros Hn Hinv Hv Ht Hname Hfv HtK Hroom res.
  assert (v ∈ vs) as Hvin by by eapply list_elem_of_lookup_2.
  destruct (inv_root _ _ _ _ _ _ _ _ Hinv Hv) as (t0 & Ht0 & Hvt & Hwf). simplify_eq.
  unfold res, plain_step.
  destruct (expand_root_spec n vs tvs cs strs p e v s (var_root v) t r) as
    [(d & Hd & Hz & ->)|(Hch & ctr1 & p1 & e1 & tvs1 & cs1 & strs1 & t1 & -> & Hinv1 & Hl1 & Hm1 & Ht1 & Hfl1 & _ & _ & Hroom1)]; try done.
  { left. by exists d. }
  right. exists p1, vs, kds, inl, e1, tvs1, cs1, strs1, []. split_and!; [done..|]. split; try done.
  - by exists (f (var_root v)).
  - intros j u d -> Hu Hd. simplify_eq. by apply Hch.
  - intros j t' -> Ht'. destruct (inv_root _ _ _ _ _ _ _ _ Hinv1 Hv) as (t2 & Ht2 & Hvt2 & _). simplify_eq.
    by rewrite (denotes_det _ _ _ _ Hvt2 Ht1).
  - by intros j ?%not_elem_of_nil.
  - by rewrite no_own_nil.
Qed.

(** A hidden variable that is a repetition. *)
Definition own_step n i todo p vs kds inl e v content : outcome ExpandRepeatsError _ :=
  width ← eval k p (by_variable e) content;
  if eof_nullable width then s ← resolve (str_pool p) (var_name v); Err (mkExpandRepeatsError s)
  else
    '(_, p, e) ← expand_root hash_one fx n k p e content (var_name v) 0;
    '(root, p) ← wrap_in_binary_tree k p (non_terminal (N.of_nat i)) content;
    vs ← vec_set vs i (mkVariable (var_name v) root);
    kds ← vec_set kds i Auxiliary;
    expand_variables hash_one fx n k (S i) todo p vs kds (filter (λ s, s ≠ non_terminal (N.of_nat i)) inl) e.
Lemma own_step_spec n i todo p vs kds inl e tvs cs strs v c content s r :
  2 * K ≤ n → exp_inv vs tvs cs strs p e → vs !! i = Some v → tvs !! i = Some (TRepeat c) → name_ok (var_name v) s →
  length kds = length vs → kds !! i = Some Hidden → 0 < f (var_root v) → tree_size c < K → room (tree_size (TRepeat c) + r) p e strs →
  nodes p !! N.to_nat (var_root v) = Some (Repeat content) → denotes p content c →
  let res := own_step n i todo p vs kds inl e v content in
  (∃ d, d ∈ repeats (TRepeat c) ∧ zero_width (gr tvs cs) true d ∧ res = Err (mkExpandRepeatsError s)) ∨
  (∃ p' vs' kds' inl' e' tvs' cs' strs' A, res = expand_variables hash_one fx n k (S i) todo p' vs' kds' inl' e' ∧
     exp_inv vs' tvs' cs' strs' p' e' ∧ room r p' e' strs' ∧ length kds' = length kds ∧
     var_facts (λ j, j = i) vs tvs cs p kds inl vs' tvs' cs' p' kds' inl' A).
Proof.
  intros Hn Hinv Hv Ht Hname Hkds Hkd Hfv HcK Hroom Hnode Hc res.
  assert (v ∈ vs) as Hvin by by eapply list_elem_of_lookup_2.
  destruct (inv_root _ _ _ _ _ _ _ _ Hinv Hv) as (t0 & Ht0 & Hvt & Hwf). simplify_eq.
  assert (wf_rule (length tvs + length cs) c) as Hwfc by (destruct Hwf; by split).
  pose proof (proj1 (ei_rank _ _ _ _ _ _ Hinv) _ _ Hnode Hfv) as Hrank. cbn in Hrank.
  unfold res, own_step.
  destruct (eval_inv (E:=ExpandRepeatsError) vs tvs cs strs p e content c) as (w & Hev & Hw); [done|done|apply Hwfc|lia|].
  rewrite Hev. cbn [mbind outcome_bind]. destruct (eof_nullable w) eqn:Heof.
  { left. exists c. split_and!; [apply list_elem_of_here|by apply (Hw true)|].
    rewrite (name_resolve p strs _ s) by (done || apply Hinv). done. }
  assert (checked (gr tvs cs) c) as Hch by (intros Hz; apply (Hw true) in Hz; cbn in Hz; congruence).
  destruct (expand_root_spec n vs tvs cs strs p e v s content c (S r)) as
    [(d & Hd & Hz & ->)|(Hch1 & ctr1 & p1 & e1 & tvs1 & cs1 & strs1 & c1 & -> & Hinv1 & Hl1 & Hm1 & Hc1 & Hfl1 & Hsz1 & Ha1 & Hroom1)];
    try done; try lia; [by eapply room_le; [done|cbn; lia]| |].
  { left. exists d. split_and!; [by apply list_elem_of_further|done..]. }
  right. cbn [mbind outcome_bind].
  destruct (inv_root _ _ _ _ _ _ _ _ Hinv1 Hv) as (t1 & Ht1 & Hvt1 & _).
  assert (t1 = TRepeat c1) as ->.
  { eapply denotes_det; [done|]. apply denotes_unfold. exists (Repeat content). split; [|by exists c1].
    rewrite (mv_nodes _ _ _ _ _ Hm1); [done|lia]. }
  destruct Hroom1 as [Rn Rc Rv Rs]. pose proof (lookup_lt_Some _ _ _ Ht1) as Hlt. pose proof (ei_len _ _ _ _ _ _ Hinv1).
  destruct (wrap_in_binary_tree_spec (E:=ExpandRepeatsError) k p1 (N.of_nat i) content c1 K) as
    (root & p2 & -> & He & Hsp & Hpar & Hroot & Hln & Hlc); [done|lia|done|done|lia|lia|nia|].
  cbn [mbind outcome_bind]. rewrite vec_set_lt by by eapply lookup_lt_Some. cbn [mbind outcome_bind].
  rewrite vec_set_lt by by eapply lookup_lt_Some. cbn [mbind outcome_bind].
  assert (checked (gr tvs1 cs1) c1) as Hch2 by (intros Hz; apply Hch; by apply (agree_zero _ _ _ _ _ Ha1)).
  destruct (own_aux_inv vs tvs1 cs1 strs1 p1 e1 i v c1 root p2) as (Hinv2 & Hm2 & _); [done..|].
  eexists p2, _, _, _, e1, _, cs1, strs1, [i]. split_and!; [reflexivity|exact Hinv2|split; try done; nia|by rewrite length_insert|].
  split.
  - rewrite list_fmap_insert. cbn. apply list_insert_id. by rewrite list_lookup_fmap, Hv.
  - exists (f content). eapply moved_trans; [exact Hm1|apply (Hm2 0)|lia|lia].
  - intros j u d -> Hu Hd. simplify_eq. apply elem_of_cons in Hd as [->|Hd]; [done|by apply Hch1].
  - intros j t' -> Ht'. rewrite list_lookup_insert_eq in Ht' by done. injection Ht' as <-.
    rewrite length_insert. apply wrap_tree_flat; [done|lia].
  - intros j Hne. by apply list_lookup_insert_ne.
  - intros j ->%list_elem_of_singleton. split_and!; [done|done|by exists c|]. exists c1. by apply list_lookup_insert_eq.
  - intros j. case_decide as Hj; rewrite list_elem_of_singleton in Hj.
    + subst. apply list_lookup_insert_eq. by eapply lookup_lt_Some.
    + by apply list_lookup_insert_ne.
  - apply list_filter_iff. intros x. by rewrite Forall_singleton.
Qed.

(** ** All variables *)
Lemma var_facts_trans i vs tvs cs strs p e kds inl vs1 tvs1 cs1 strs1 p1 e1 kds1 inl1 A vs2 tvs2 cs2 strs2 p2 e2 kds2 inl2 A' :
  exp_inv vs tvs cs strs p e → exp_inv vs1 tvs1 cs1 strs1 p1 e1 → exp_inv vs2 tvs2 cs2 strs2 p2 e2 →
  var_facts (λ j, j = i) vs tvs cs p kds inl vs1 tvs1 cs1 p1 kds1 inl1 A →
  var_facts (λ j, S i ≤ j) vs1 tvs1 cs1 p1 kds1 inl1 vs2 tvs2 cs2 p2 kds2 inl2 A' →
  var_facts (λ j, i ≤ j) vs tvs cs p kds inl vs2 tvs2 cs2 p2 kds2 inl2 (A ++ A').
Proof.
  intros Hinv Hinv1 Hinv2 [N1 [k1 M1] C1 F1 O1 W1 K1 I1] [N2 [k2 M2] C2 F2 O2 W2 K2 I2].
  assert (∀ j t, j ≠ i → tvs !! j = Some t → ∃ t', tvs1 !! j = Some t' ∧ expanded (gr tvs cs) t (gr tvs1 cs1) t') as Hfst.
  { intros j t Hj. eapply moved_var; [done..|]. by apply O1. }
  assert (∀ t, tvs1 !! i = Some t → flat_rule (length tvs2 + length cs2) t ∧ tvs2 !! i = Some t) as Hkeep.
  { intros t Ht. destruct (F1 i t eq_refl Ht) as [_ Hf].
    destruct (moved_var _ _ _ _ _ _ _ _ _ _ _ _ _ i t Hinv1 Hinv2 M2) as (t' & Ht' & He); [apply O2; lia|done|].
    pose proof (ex_wf _ _ _ _ He) as Hw. rewrite (ex_free _ _ _ _ He Hf), length_grammar in Hw.
    rewrite (ex_free _ _ _ _ He Hf) in Ht'. by repeat split; try apply Hw. }
  split.
  - by rewrite N2.
  - exists (k1 `max` k2). eapply moved_trans; [done..|lia|lia].
  - intros j t d Hj Ht Hd. destruct (decide (j = i)) as [->|Hne]; [by eapply C1|].
    destruct (Hfst j t Hne Ht) as (t1 & Ht1 & He). destruct (ex_old _ _ _ _ He d Hd) as [?|(d' & Hd' & Ha)]; [done|].
    intros Hz. eapply (C2 j t1 d'); [lia|done..|]. by apply (agree_zero _ _ _ _ _ Ha).
  - intros j t' Hj Ht'. destruct (decide (j = i)) as [->|Hne]; [|apply (F2 j); [lia|done]].
    destruct (lookup_lt_is_Some_2 tvs1 i) as [t1 Ht1].
    { apply lookup_lt_Some in Ht'. destruct (inv_length _ _ _ _ _ _ Hinv1) as [<- _], (inv_length _ _ _ _ _ _ Hinv2) as [Hl _].
      apply (f_equal length) in N2. rewrite !length_map in N2. lia. }
    destruct (Hkeep t1 Ht1) as [? ?]. by simplify_eq.
  - intros j Hj. rewrite O2, O1 by lia. done.
  - intros j [Hj|Hj]%elem_of_app.
    + destruct (W1 j Hj) as (-> & Hk1 & Hd & (d & Hw)). destruct (Hkeep _ Hw) as [_ ?]. split_and!; [lia|done..|eauto].
    + destruct (W2 j Hj) as (Hle & Hk1 & (d & Hd) & Hw). rewrite K1 in Hk1.
      assert (j ∉ A) as HjA by (intros HA; destruct (W1 j HA) as (-> & _); lia). rewrite decide_False in Hk1 by done.
      split_and!; [lia|done| |done]. assert (is_Some (tvs !! j)) as [t Ht].
      { apply lookup_lt_is_Some_2. apply lookup_lt_Some in Hd. destruct (inv_length _ _ _ _ _ _ Hinv) as [<- _], (inv_length _ _ _ _ _ _ Hinv1) as [Hl _].
        apply (f_equal length) in N1. rewrite !length_map in N1. lia. }
      destruct (Hfst j t ltac:(lia) Ht) as (t1 & Ht1 & He). simplify_eq.
      destruct (ex_repeat _ _ _ _ He d eq_refl) as (d0 & ->). eauto.
  - intros j. rewrite K2, K1. repeat case_decide; try done; exfalso; rewrite elem_of_app in *; tauto.
  - rewrite I2, I1. apply no_own_app.
Qed.

Definition vars_result i vs tvs cs p kds inl (res : outcome ExpandRepeatsError _) : Prop :=
  (∃ j v s t d, i ≤ j ∧ vs !! j = Some v ∧ name_ok (var_name v) s ∧ tvs !! j = Some t ∧ d ∈ repeats t ∧
     zero_width (gr tvs cs) true d ∧ res = Err (mkExpandRepeatsError s)) ∨
  (∃ p' vs' kds' inl' e' tvs' cs' strs' A, res = Ok (p', vs', kds', inl', e') ∧ exp_inv vs' tvs' cs' strs' p' e' ∧
     length kds' = length kds ∧ var_facts (λ j, i ≤ j) vs tvs cs p kds inl vs' tvs' cs' p' kds' inl' A).

Lemma expand_variables_step n i todo p vs kds inl e v kd nd :
  vs !! i = Some v → kds !! i = Some kd → nodes p !! N.to_nat (var_root v) = Some nd →
  expand_variables hash_one fx n k i (S todo) p vs kds inl e =
  if decide (kd = Hidden) then
    match nd with Repeat content => own_step n i todo p vs kds inl e v content | _ => plain_step n i todo p vs kds inl e v end
  else plain_step n i todo p vs kds inl e v.
Proof.
  intros Hv Hkd Hnd. cbn [expand_variables]. rewrite (vec_get_Some _ _ _ Hv). cbn [mbind outcome_bind].
  rewrite (vec_get_Some _ _ _ Hkd). cbn [mbind outcome_bind]. case_decide as Hh.
  - rewrite bool_decide_true by done. unfold node. rewrite (vec_get_Some _ _ _ Hnd). by destruct nd.
  - by rewrite bool_decide_false by done.
Qed.

Lemma expand_variables_spec n i todo p vs kds inl e tvs cs strs :
  2 * K ≤ n → exp_inv vs tvs cs strs p e → i + todo = length vs → length kds = length vs →
  (∀ v, v ∈ vs → ∃ s, name_ok (var_name v) s) → (∀ j v, i ≤ j → vs !! j = Some v → 0 < f (var_root v)) →
  Forall (λ t, tree_size t ≤ K) (drop i tvs) → room (tsum (drop i tvs)) p e strs →
  vars_result i vs tvs cs p kds inl (expand_variables hash_one fx n k i todo p vs kds inl e).
Proof.
  intros Hn. revert i p vs kds inl e tvs cs strs. induction todo as [|todo IH]; intros i p vs kds inl e tvs cs strs Hinv Hi Hkds Hnames Hrank HK Hroom.
  { right. exists p, vs, kds, inl, e, tvs, cs, strs, []. split_and!; [done..|]. destruct (inv_length _ _ _ _ _ _ Hinv) as [Hl _].
    split; try done.
    - exists 0. apply moved_refl.
    - intros j t d Hj Ht. apply lookup_lt_Some in Ht. lia.
    - intros j t Hj Ht. apply lookup_lt_Some in Ht. lia.
    - by intros j ?%not_elem_of_nil.
    - by rewrite no_own_nil. }
  destruct (lookup_lt_is_Some_2 vs i) as [v Hv]; [lia|].
  destruct (inv_root _ _ _ _ _ _ _ _ Hinv Hv) as (t & Ht & Hvt & Hwf).
  destruct (Hnames v) as [s Hs]; [by eapply list_elem_of_lookup_2|].
  rewrite (drop_S _ _ _ Ht) in HK, Hroom. apply Forall_cons in HK as [HtK HK].
  change (tsum (t :: drop (S i) tvs)) with (tree_size t + tsum (drop (S i) tvs)) in Hroom.
  destruct (lookup_lt_is_Some_2 kds i) as [kd Hkd]; [lia|].
  pose proof Hvt as (nd & Hnd & Hdn)%denotes_unfold.
  assert (let res := expand_variables hash_one fx n k i (S todo) p vs kds inl e in
    (∃ d, d ∈ repeats t ∧ zero_width (gr tvs cs) true d ∧ res = Err (mkExpandRepeatsError s)) ∨
    (∃ p' vs' kds' inl' e' tvs' cs' strs' A, res = expand_variables hash_one fx n k (S i) todo p' vs' kds' inl' e' ∧
     exp_inv vs' tvs' cs' strs' p' e' ∧ room (tsum (drop (S i) tvs)) p' e' strs' ∧ length kds' = length kds ∧
     var_facts (λ j, j = i) vs tvs cs p kds inl vs' tvs' cs' p' kds' inl' A)) as Hstep.
  { rewrite (expand_variables_step n i todo p vs kds inl e v kd nd) by done.
    destruct (decide (kd = Hidden)) as [->|]; [destruct nd as [| | | | | | |content| | |]|]; try by eapply plain_step_spec; eauto.
    cbn in Hdn. destruct Hdn as (c & Hc & ->). eapply own_step_spec; eauto. }
  destruct Hstep as [(d & Hd & Hz & ->)|(p1 & vs1 & kds1 & inl1 & e1 & tvs1 & cs1 & strs1 & A & -> & Hinv1 & Hroom1 & Hk1 & Hvf)].
  { left. exists i, v, s, t, d. split_and!; done. }
  pose proof Hvf as [N1 [k1 M1] _ _ O1 _ _ _]. assert (length vs1 = length vs) as Hlv1.
  { apply (f_equal length) in N1. by rewrite !length_map in N1. }
  destruct (inv_length _ _ _ _ _ _ Hinv) as [Hl _], (inv_length _ _ _ _ _ _ Hinv1) as [Hl1 _].
  assert (∀ j t, S i ≤ j → tvs !! j = Some t → ∃ t', tvs1 !! j = Some t' ∧ expanded (gr tvs cs) t (gr tvs1 cs1) t') as Hrest.
  { intros j u Hj. eapply moved_var; [done..|]. apply O1. lia. }
  assert (Forall2 (λ u u', expanded (gr tvs cs) u (gr tvs1 cs1) u') (drop (S i) tvs) (drop (S i) tvs1)) as Hex.
  { apply Forall2_same_length_lookup_2; [rewrite !length_drop; lia|]. intros j u u' Hu Hu'. rewrite lookup_drop in Hu, Hu'.
    destruct (Hrest (S i + j) u) as (? & ? & ?); [lia|done|]. by simplify_eq. }
  destruct (expanded_rules _ _ _ _ Hex) as (Hs1 & _ & HK1 & _ & _).
  destruct (IH (S i) p1 vs1 kds1 inl1 e1 tvs1 cs1 strs1) as
    [(j & v' & s' & t' & d & Hj & Hv' & Hs' & Ht' & Hd & Hz & ->)|(p2 & vs2 & kds2 & inl2 & e2 & tvs2 & cs2 & strs2 & A' & -> & Hinv2 & Hk2 & Hvf2)].
  - done.
  - lia.
  - lia.
  - intros v' Hv'. assert (var_name v' ∈ map var_name vs) as (v2 & Hn2 & Hv2)%elem_of_map.
    { rewrite <- N1. apply elem_of_map. eauto. } rewrite Hn2. by apply Hnames.
  - intros j v' Hj Hv'. rewrite O1 in Hv' by lia. eapply (Hrank j); [lia|done].
  - by apply HK1.
  - eapply room_le; [done|lia].
  - left. assert (is_Some (tvs !! j)) as [u Hu] by (apply lookup_lt_is_Some_2; apply lookup_lt_Some in Ht'; lia).
    destruct (Hrest j u Hj Hu) as (u' & Hu' & He). simplify_eq. destruct (ex_new _ _ _ _ He d Hd) as (d0 & Hd0 & Ha).
    exists j, v', s', u, d0. rewrite O1 in Hv' by lia. split_and!; [lia|done..| |done]. by apply (agree_zero _ _ _ _ _ Ha).
  - right. exists p2, vs2, kds2, inl2, e2, tvs2, cs2, strs2, (A ++ A'). split_and!; [done|done|lia|].
    eapply var_facts_trans; [exact Hinv|exact Hinv1|exact Hinv2|done|done].
Qed.
End inv.

(** A measure of the rules of a pool. *)
Definition tree_rank {H} (n : nat) (p : RulePool H) (x : N) : nat :=
  match to_tree n p x with Some t => tree_size t | None => 0 end.
Lemma tree_rank_ok {H} n (p : RulePool H) : rank_ok (tree_rank n p) p.
Proof.
  split.
  - intros x nd Hnd Hx. unfold tree_rank in Hx. destruct n as [|n]; [cbn in Hx; lia|].
    destruct (to_tree (S n) p x) as [t|] eqn:Ht; [|lia].
    assert (∀ y u b, to_tree n p y = Some u → S (tree_size u) ≤ b → 0 < tree_rank (S n) p y < b) as Hkid.
    { intros y u b Hu Hb. unfold tree_rank. rewrite (to_tree_mono _ _ _ _ _ Hu (Nat.le_succ_diag_r n)).
      pose proof (tree_size_pos u). lia. }
    assert (tree_rank (S n) p x = tree_size t) as -> by (unfold tree_rank; by rewrite Ht). cbn [to_tree] in Ht. rewrite Hnd in Ht. cbn in Ht.
    destruct nd as [|?|? ?|?|? ?|rg|rg|y| |mid y|y w]; cbn [node_rank]; try done.
    + apply fmap_Some in Ht as (us & (cs & Hcs & _ & Hf)%slice_trees_Some & ->). exists cs. split; [done|].
      apply Forall_lookup. intros j y Hy. eapply Forall2_lookup_l in Hf as (u & Hu & Hyu); [|done]. eapply Hkid; [done|].
      apply list_elem_of_lookup_2, tsum_elem in Hu. unfold tsum in Hu. cbn. lia.
    + apply fmap_Some in Ht as (us & (cs & Hcs & _ & Hf)%slice_trees_Some & ->). exists cs. split; [done|].
      apply Forall_lookup. intros j y Hy. eapply Forall2_lookup_l in Hf as (u & Hu & Hyu); [|done]. eapply Hkid; [done|].
      apply list_elem_of_lookup_2, tsum_elem in Hu. unfold tsum in Hu. cbn. lia.
    + apply fmap_Some in Ht as (u & Hu & ->). by eapply Hkid.
    + destruct (params p !! N.to_nat mid); [|done]. cbn in Ht. apply fmap_Some in Ht as (u & Hu & ->). by eapply Hkid.
    + apply fmap_Some in Ht as (u & Hu & ->). by eapply Hkid.
  - intros x Hx. unfold tree_rank. destruct n as [|n]; [done|]. cbn. by rewrite lookup_ge_None_2.
Qed.

(** ** The pass *)
Section correct.
Context {H : Type} {HT : HashTable H} (hash_one : bytes → N) (fx : list HashItem → N).

(** What the pass relies on: the variables stand for [ts], of size at most [K],
    whose names are interned and have at most [B] bytes, and the pool has room
    for an auxiliary variable per node of the rules. *)
Record expandable (g : InputGrammar H) (meta : ExtractedGrammarMeta) (ts : list tree) (strs : list bytes) (K B : nat) : Prop := {
  xb_rules : Forall2 (λ v t, denotes (pool g) (var_root v) t) (variables g) ts;
  xb_wf : Forall (λ t, wf_rule (length ts) t ∧ tree_size t ≤ K) ts;
  xb_kinds : length (kinds meta) = length ts;
  xb_strs : pool_inv hash_one (str_pool (pool g)) strs ∧ 2 ≤ length strs;
  xb_names : Forall (λ v, ∃ s, name_ok B strs (var_name v) s) (variables g);
  xb_nodes : (N.of_nat (length (nodes (pool g)) + 4 * tsum ts) < U32)%N;
  xb_children : (N.of_nat (length (children (pool g)) + (K + 3) * tsum ts) < U32)%N;
  xb_vars : (N.of_nat (length ts + tsum ts) < U32)%N;
  xb_bytes : (N.of_nat (length (concat strs) + (B + 17) * tsum ts) < U32)%N;
}.

(** The error names a variable with a repetition that can match the end of
    input only. *)
Definition bad_repeat (g : InputGrammar H) (ts : list tree) (s : bytes) : Prop :=
  ∃ i v t d, variables g !! i = Some v ∧ resolve (E:=Empty_set) (str_pool (pool g)) (var_name v) = Ok s ∧
    ts !! i = Some t ∧ d ∈ repeats t ∧ zero_width ts true d.

(** [g'] and [meta'] are the grammar with its repetitions expanded: [cs] are the
    contents of the auxiliary variables, [own] the hidden variables that became
    auxiliary themselves. *)
Record expansion (g : InputGrammar H) (meta : ExtractedGrammarMeta) (ts : list tree)
    (g' : InputGrammar H) (meta' : ExtractedGrammarMeta) (ts' cs : list tree) (own : list nat) : Prop := {
  xp_rules : Forall2 (λ v t, denotes (pool g') (var_root v) t) (variables g') ts';
  xp_flat : Forall (flat_rule (length ts')) ts';
  xp_language : ∀ i, N.to_nat i < length ts → agree ts (TSym NonTerminal i) ts' (TSym NonTerminal i);
  xp_pool : ∀ x t, denotes (pool g) x t → wf_rule (length ts) t → ∃ t', denotes (pool g') x t' ∧ agree ts t ts' t';
  xp_checked : ∀ t d, t ∈ ts → d ∈ repeats t → checked ts d;
  xp_aux : drop (length ts) ts' = aux_trees (length ts) cs ∧ NoDup cs;
  xp_names : take (length ts) (map var_name (variables g')) = map var_name (variables g);
  xp_aux_names : Forall (λ a, ∃ v s ctr, v ∈ variables g ∧ resolve (E:=Empty_set) (str_pool (pool g)) (var_name v) = Ok s ∧
    resolve (E:=Empty_set) (str_pool (pool g')) (var_name a) = Ok (repeat_name s ctr)) (drop (length ts) (variables g'));
  xp_own : ∀ i, i ∈ own → kinds meta !! i = Some Hidden ∧ (∃ d, ts !! i = Some (TRepeat d)) ∧
    ∃ d, ts' !! i = Some (wrap_tree (N.of_nat i) d);
  xp_kinds : ∀ i, i < length ts → kinds meta' !! i = if decide (i ∈ own) then Some Auxiliary else kinds meta !! i;
  xp_aux_kinds : drop (length ts) (kinds meta') = replicate (length cs) Auxiliary;
  xp_inline : inline meta' = no_own own (inline meta);
}.

Lemma Forall2_roots (p : RulePool H) vs ts :
  Forall2 (denotes p) (map var_root vs) ts ↔ Forall2 (λ v t, denotes p (var_root v) t) vs ts.
Proof. exact (Forall2_fmap_l var_root (denotes p) vs ts). Qed.

Lemma expand_inv_init g meta ts strs K B f widths :
  expandable g meta ts strs K B → rank_ok f (pool g) → widths_exact ts widths →
  exp_inv hash_one fx f K B strs (variables g) ts [] strs (pool g) (mkExpander (length (variables g)) [] ∅ widths) ∧
  room K B (tsum ts) (pool g) (mkExpander (length (variables g)) [] ∅ widths) strs.
Proof.
  intros [Hr Hwf Hk [Hs _] Hn Hno Hch Hva Hby] Hrank Hw. pose proof (Forall2_length _ _ _ Hr) as Hlen. split.
  - split; cbn; try done.
    + apply Forall2_fmap_l. exact Hr.
    + rewrite Nat.add_0_r. eapply Forall_impl; [done|]. by intros ? [].
    + constructor.
    + by rewrite List.app_nil_r.
  - split; cbn; try done. rewrite Hlen. lia.
Qed.


(** C5: the expansion of repetitions ends; it fails exactly when a repetition
    can match the end of input and nothing else, naming its variable; and when
    it succeeds no repetition is left, every variable (and every rule of the
    pool) derives what it did, in any monoid, repetitions of equal contents share
    one auxiliary variable, and hidden variables that are repetitions become
    auxiliary and are not inlined. *)
Theorem expand_repeats_correct m n k g meta ts strs K B :
  expandable g meta ts strs K B → 3 ≤ K → 2 * length ts < m → 2 * K ≤ n → 2 * K ≤ k →
  match expand_repeats hash_one fx m n k g meta with
  | Ok (g', meta') => ∃ ts' cs own, expansion g meta ts g' meta' ts' cs own
  | Err (mkExpandRepeatsError s) => bad_repeat g ts s
  | _ => False
  end.
Proof.
  intros Hx HK Hm Hn Hk. destruct (Forall2_denotes_max (pool g) (map var_root (variables g)) ts) as [D HD].
  { apply Forall2_fmap_l. apply Hx. }
  pose proof (Forall2_length _ _ _ (xb_rules _ _ _ _ _ _ Hx)) as Hlen.
  destruct (zero_width_new_spec (E:=ExpandRepeatsError) (pool g) k m (variables g) ts) as (by' & Hby & Hlb & Hz & _); [apply Hx| |done|].
  { eapply Forall_impl; [apply Hx|]. intros t [Hwf Ht]. split; [apply Hwf|lia]. }
  assert (widths_exact ts by') as Hw by (split; [done|]; intros b i; apply Hz).
  destruct (expand_inv_init g meta ts strs K B (tree_rank D (pool g)) by' Hx (tree_rank_ok D (pool g)) Hw) as [Hinv Hroom].
  unfold expand_repeats. rewrite Hby. cbn [mbind outcome_bind].
  destruct (expand_variables_spec hash_one fx (tree_rank D (pool g)) K B strs k HK Hk (proj2 (xb_strs _ _ _ _ _ _ Hx)) n 0
    (length (variables g)) (pool g) (variables g) (kinds meta) (inline meta) (mkExpander (length (variables g)) [] ∅ by') ts [] strs)
    as [(j & v & s & t & d & _ & Hv & Hs & Ht & Hd & Hzw & ->)|
        (p' & vs' & kds' & inl' & e' & tvs' & cs' & strs' & own & -> & Hinv' & Hkl & Hvf)]; try done.
  - rewrite (xb_kinds _ _ _ _ _ _ Hx). lia.
  - intros v Hv. pose proof (xb_names _ _ _ _ _ _ Hx) as Hns. rewrite Forall_forall in Hns. by apply Hns.
  - intros j v _ Hv. eapply Forall2_lookup_l in HD as (t & _ & Ht); [|by rewrite list_lookup_fmap, Hv].
    unfold tree_rank. rewrite Ht. apply tree_size_pos.
  - rewrite drop_0. eapply Forall_impl; [apply Hx|]. by intros ? [].
  - cbn [mbind outcome_bind]. exists j, v, t, d. rewrite List.app_nil_r in Hzw. split_and!; try done.
    eapply name_resolve; [apply (ei_strs _ _ _ _ _ _ _ _ _ _ _ _ Hinv)|done|done].
  - cbn [mbind outcome_bind]. exists (tvs' ++ aux_trees (length tvs') cs'), cs', own.
    destruct Hvf as [Vn [kap Vm] Vc Vf _ Vo Vk Vi]. pose proof (inv_length _ _ _ _ _ _ _ _ _ _ _ _ Hinv') as [Hl' Hla].
    assert (length tvs' = length ts) as Htl by (apply (f_equal length) in Vn; rewrite !length_map in Vn; lia).
    rewrite List.app_nil_r in Vm, Vc. split; cbn.
    + apply Forall2_app.
      * pose proof (ei_vars _ _ _ _ _ _ _ _ _ _ _ _ Hinv') as Hv. exact (proj1 (Forall2_roots _ _ _) Hv).
      * pose proof (ei_aux _ _ _ _ _ _ _ _ _ _ _ _ Hinv') as Hv. exact (proj1 (Forall2_roots _ _ _) Hv).
    + rewrite length_app, length_aux_trees. apply Forall_app. split.
      * apply Forall_lookup. intros j t Ht. apply (Vf j); [lia|done].
      * by apply (grammar_flat hash_one fx (tree_rank D (pool g)) K B strs vs' tvs' cs' strs' p' e').
    + apply Vm.
    + intros x t Hxt Hwf. destruct (mv_tree _ _ _ _ _ _ Vm x t Hxt Hwf) as (t' & ? & He). exists t'. split; [done|apply He].
    + intros t d Ht Hd. apply list_elem_of_lookup in Ht as [j Hj]. eapply (Vc j); [lia|done..].
    + rewrite <- Htl, drop_app_length. split; [done|apply Hinv'].
    + rewrite map_app, Vn. rewrite <- Hlen, <- (length_map var_name). apply take_app_length.
    + rewrite <- Htl, <- Hl', drop_app_length. pose proof (ei_names _ _ _ _ _ _ _ _ _ _ _ _ Hinv') as Hns.
      eapply Forall_impl; [exact Hns|]. intros a (v & s & ctr & i & Hv & Hnm & Hai & Hi).
      assert (var_name v ∈ map var_name (variables g)) as (v0 & Hv0 & Hin0)%elem_of_map by (rewrite <- Vn; apply elem_of_map; eauto).
      exists v0, s, ctr. split_and!; [done| |].
      * rewrite <- Hv0. eapply name_resolve; [apply (ei_strs _ _ _ _ _ _ _ _ _ _ _ _ Hinv)|done|exact Hnm].
      * rewrite Hai. eapply span_str_spec; [apply (ei_strs _ _ _ _ _ _ _ _ _ _ _ _ Hinv')|done].
    + intros i Hi. destruct (Vo i Hi) as (_ & ? & ? & (d & Hd)). split_and!; [done|done|]. exists d. by apply lookup_app_l_Some.
    + intros i Hi. rewrite lookup_app_l by (rewrite Hkl, (xb_kinds _ _ _ _ _ _ Hx); lia). apply Vk.
    + assert (length ts = length kds') as -> by (rewrite Hkl; symmetry; apply Hx). rewrite drop_app_length. by rewrite Hla.
    + done.
Qed.
End correct.

(** ** Witness: [end -> seq(t0, repeat(t1))] and the hidden rule [repeat(end)]. *)
Definition example_strs : StrPool (list (N * N)) :=
  match default_pool example_hash (E:=Empty_set) with Ok p => p | _ => mkPool [] [] [] end.
Lemma example_strs_inv : pool_inv example_hash example_strs [[]; end_name].
Proof. unfold example_strs. destruct (default_pool_spec (H:=list (N * N)) (E:=Empty_set) example_hash) as (p & -> & Hp). exact Hp. Qed.
Definition example_repeats : InputGrammar (list (N * N)) :=
  mkInputGrammar
    (mkRulePool [Sym Terminal 0; Sym Terminal 1; Repeat 1; Seq (mkRange 0 2); Sym NonTerminal 0; Repeat 4] [0; 2]%N [] example_strs)
    2 [mkVariable 2 3; mkVariable 1 5] [] [] [] [] [] [] None [].
Definition example_meta : ExtractedGrammarMeta :=
  mkMeta [Named; Hidden] [] [] [] [] [] [non_terminal 1; non_terminal 0] None.
Definition example_trees : list tree :=
  [TSeq [TSym Terminal 0; TRepeat (TSym Terminal 1)]; TRepeat (TSym NonTerminal 0)]%N.
Lemma example_expandable : expandable example_hash example_repeats example_meta example_trees [[]; end_name] 4 3.
Proof.
  split.
  - constructor; [exists 5; reflexivity|constructor; [exists 5; reflexivity|constructor]].
  - assert (∀ i, i ∈ [0]%N → N.to_nat i < 2) as Hsc by (intros i ->%list_elem_of_singleton; cbn; lia).
    constructor; [|constructor; [|constructor]]; (split; [split; [reflexivity|reflexivity|]|cbn; lia]).
    + intros i Hi. by apply not_elem_of_nil in Hi.
    + exact Hsc.
  - reflexivity.
  - split; [exact example_strs_inv|cbn; lia].
  - constructor; [|constructor; [|constructor]]; [exists end_name, 1|exists [], 0]; (split_and!; [reflexivity|reflexivity|cbn; lia]).
  - reflexivity.
  - reflexivity.
  - reflexivity.
  - reflexivity.
Qed.
Lemma expand_repeats_correct_witness :
  ∃ g' meta' ts' cs own,
    expand_repeats example_hash (λ l, N.of_nat (length l)) 5 20 20 example_repeats example_meta = Ok (g', meta') ∧
    expansion example_repeats example_meta example_trees g' meta' ts' cs own.
Proof.
  assert (3 ≤ 4 ∧ 2 * length example_trees < 5 ∧ 2 * 4 ≤ 20) as (H1 & H2 & H3) by (cbn; lia).
  pose proof (expand_repeats_correct example_hash (λ l, N.of_nat (length l)) 5 20 20 example_repeats example_meta
    example_trees [[]; end_name] 4 3 example_expandable H1 H2 H3 H3) as Hc.
  destruct (expand_repeats _ _ 5 20 20 example_repeats example_meta) as [[g' meta']| | |] eqn:He; [|vm_compute in He; discriminate..].
  destruct Hc as (ts' & cs & own & Hx). exists g', meta', ts', cs, own. exact (conj eq_refl Hx).
Defined.

(** A repetition inside [reserved] is not expanded, and flattening, which knows
    no repetitions, gives it the empty production only. *)
Definition example_reserved : InputGrammar (list (N * N)) :=
  mkInputGrammar (mkRulePool [Sym Terminal 1; Repeat 0; Reserved 1 1]%N [] [] example_strs) 2 [mkVariable 2 2] [] [] [] [] [] [] None [].
Example reserved_repeat_lost :
  let meta := mkMeta [Named] [] [] [(1%N, [])] [] [] [] None in
  ∃ g' meta', expand_repeats example_hash (λ l, N.of_nat (length l)) 5 20 20 example_reserved meta = Ok (g', meta') ∧
    nodes (pool g') = nodes (pool example_reserved) ∧ meta' = meta ∧
    (λ '(_, out), (map steps_len (st_productions out), st_steps out)) <$>
      flatten_grammar 3 20 g' meta' default_state (mkStore [] [] []) = Ok ([0%N], []).
Proof. eexists _, _. split; [vm_compute; reflexivity|]. split_and!; vm_compute; reflexivity. Qed.
